(* ===== verification/_CoqProject ===== *)
-Q . S2P
Prelude.v
External.v
HashMapId.v
Message.v
Mailbox.v
Signal.v
Link.v
Environment.v
GlobalProcessId.v
DistributedRegistry.v
RegistrySpec.v
ModuleRegistry.v
Versions.v
Process.v
RegistryCoordination.v
CoordinatorNode.v
RegistryCluster.v
Supervisor.v
Supervision.v
Reload.v
ReloadProcess.v
HotReload.v
ReloadOutcome.v
Wire.v
WireServer.v
WireRoundtrip.v
MessagePack.v
PackGrammar.v
Replay.v
ReplayOnce.v
NodeQueue.v
Lanes.v
Sender.v
SenderOrder.v
Requests.v
RequestsOk.v
Delivery.v
Scheduler.v
SchedulerOrder.v
Paths.v
TreeFs.v
Config.v
HostConfig.v
Attenuation.v
GuestOtp.v
GenServer.v
GenServerExit.v
GenServerOk.v
GenServerLive.v
Messaging.v
MessagingOk.v
GenEvent.v
GenEventOk.v
Timers.v
EnvironmentSteps.v
LinkSteps.v
SchedulerLocks.v
