(* ===== verification/Prelude.v ===== *)
(** * Verification of the lunatic runtime

    lunatic is an actor runtime: WebAssembly and native processes that share
    nothing, send each other messages and signals, are linked and monitored,
    live in environments with quotas, are found by name across nodes, and can
    be hot reloaded.  This library models the parts of the runtime that carry
    that contract and proves them correct.

    ** The parts of the program and how they interact

    - A process owns an ingress ([SignalSender]/[SignalReceiver] of
      [crates/lunatic-process/src/state.rs]) and a message mailbox
      ([mailbox.rs]) whose messages are those of [message.rs].  A send reserves
      a mailbox slot before it queues a signal; the process loop ([lib.rs])
      moves admitted messages from the ingress to the mailbox.
    - Links are pairs of relations in the link states of two processes
      ([LinkState], [ProcessLifecycleHandle] of [state.rs], [link_processes] of
      [lib.rs]); a dying process delivers its death through them, by the ingress
      of the peer or, when that is full, by its kill latch.
    - Environments ([env.rs]) register processes under a limit of their own and
      under the quota of the node; the registry of environments holds them
      weakly.
    - The module registry ([module_registry.rs]) keeps the versions of each
      module that running processes need.
    - The distributed registry
      ([crates/lunatic-distributed/src/distributed/registry.rs]) maps names to
      global process identities ([global_process_id.rs]); the registries of a
      cluster agree on a name through the commit protocol of
      [registry_coordination.rs].
    - Nodes exchange requests over QUIC.  On the sending node the messages of a
      pair of processes queue up in order ([distributed/client.rs]), a worker
      moves them to the lanes of the peer ([congestion/mod.rs]), and a task per
      lane sends them one at a time, keeping each until the peer has answered.
      A message travels in chunks ([quic/quin.rs]); the receiving node assembles
      them within a budget of bytes, checks the MessagePack before it decodes
      it, checks the request, and executes it unless its replay cache knows it
      ([distributed/server.rs], [client.rs]).
    - Supervisors, generic servers and event managers
      ([crates/lunatic-otp-patterns/src]) are native processes: a supervisor
      starts, watches, restarts and stops others, a generic server answers calls
      from other threads, an event manager runs its handlers for them.
    - The host functions that guests call guard what they may do: configurations
      of child processes only lose authority ([src/config.rs],
      [crates/lunatic-process-api]), and messages carry network handles together
      with their share of a quota ([crates/lunatic-messaging-api],
      [crates/lunatic-networking-api], [src/state.rs]).  Delayed messages are
      tasks that a process owns ([crates/lunatic-timer-api]).
    - A hot reload replaces the module of running processes: the coordinator
      ([hot_reload.rs]) sends commands through the ingress of each process, its
      loop hands them to the execution driver ([wasm.rs]), which checks the new
      version ([signature_validation.rs]), swaps the instance ([lib.rs],
      [runtimes/wasmtime.rs]), moves the version accounting and answers.
    - Resource tables ([crates/hash-map-id]) give processes their handles.

    ** Which file models what

    - [Prelude]: machine integers at their width, [result], strings, tactics,
      reachability.
    - [External]: what the code uses of tokio and of the allocator, as classes
      with their documented laws and an executable instance each: [Semaphore]
      ([try_acquire_owned], the drop of a permit, one permit or many), [Channel]
      (bounded mpsc), [AsyncCell] (a value that a task waits for) and [VecAlloc]
      (what [Vec] reservations allocate).  The theorems hold for every instance
      of the laws.
    - [HashMapId]: [HashMapId<T>].
    - [Message]: [Message], [DataMessage], its byte stream and resource table.
    - [Mailbox]: [MessageMailbox]; a critical section is a function on the
      shared cell, and the future of [pop] is [pop_enter] followed by [poll].
      The abstract specification is a bounded FIFO queue with selective
      receive and one waiting receive ([q_step]).
    - [Signal]: the ingress; a world maps addresses to ingresses, and the code
      of [send_inner], [recv], [close_with_reason], [request_kill] and of the
      destructors of envelopes and permits is state passing over it.
    - [Link]: link states beside the ingresses, [link_pair], [unlink_peer],
      [terminate] and the destructors, each as it runs when no other thread comes
      between its critical sections.  [LinkSteps]: the same with each critical
      section, permit and notice a step of a thread ([thread_step]), and any
      number of threads interleaved ([link_exec]).
    - [Environment]: [LunaticEnvironment], [ProcessRegistration] and
      [LunaticEnvironments], with the reference counts that decide when an
      environment is destroyed; whole operations are the steps ([node_step]).
      [EnvironmentSteps]: the operations taken apart into their accesses of
      tables, counters and the registry, interleaved ([fine_exec]).
    - [GlobalProcessId]: the compact encoding.
    - [DistributedRegistry], [RegistrySpec]: the name registry with its reverse
      index and usage counters, and its contract as an abstract registry of two
      plain maps ([a_exec]).
    - [ModuleRegistry]: histories of versions, process membership, retention,
      and the reload order of the dependency graph.
    - [Versions]: the module versions that a process tracks ([ProcessVersionState],
      [ProcessVersionTracking] of [lib.rs]) and the operations that keep them and
      the registries' membership together.
    - [Process]: the life of a process in [lib.rs]: the loop of
      [run_native_process] and [new], one signal per iteration, its end
      ([close_signal_ingress], [ProcessTaskGuard], the notices to monitors), and
      the executions of many processes as a step relation ([proc_step]).  It
      composes [Signal], [Link], [Mailbox], [Environment] and [Versions].
    - [RegistryCoordination]: the coordinator of one node; a call is a task that is
      run from one await point to the next ([coordinate_step] and the like), a
      message is handled by [handle_message].  [CoordinatorNode] interleaves the
      tasks of a node with messages, topology changes and dropped futures;
      [RegistryCluster] puts nodes on a network that loses, delays, duplicates and
      reorders.
    - [Supervisor]: every method of [Supervisor] and the supervisor process, in a
      monad whose calls to the world outside (start functions, environment, clocks)
      are answered by an arbitrary [Host]; [Supervision]: weakest preconditions for
      the monad and the theorems.
    - [Reload]: the reload of one process; the engine and the state are a class
      ([Runtime]).  [ReloadProcess]: its theorems.  [HotReload]: the coordinator,
      interleaved with the loops and drivers of processes ([reload_step]).
      [ReloadOutcome]: its invariant ([reload_ok]) and theorems.
    - [Wire]: framing, the reading of chunks, reassembly and the receive budget of
      [quic/quin.rs], with the streams of a server ([server_exec]).  [WireServer]:
      the budget.  [WireRoundtrip]: what was sent is received.  [MessagePack],
      [PackGrammar]: the check before decoding, and the grammar it decides.
    - [Replay]: the replay cache and the guard of an execution.  [ReplayOnce]: one
      execution per request, and faithful answers.
    - [NodeQueue]: admission to the lanes of a peer.  [Lanes]: its accounting of
      messages and bytes.  [Sender]: the tasks of the lanes and the manager that
      connects and restarts them; [SenderOrder]: their order.
    - [Requests]: the checks of a request and the waiters for answers;
      [RequestsOk]: their theorems.  [Delivery]: a sending and a receiving node
      together, from the entry into a lane to the execution by the peer.
    - [Scheduler]: the queues of pairs of processes; producers, the worker and the
      removal of an ended process are interleaved step by step.
      [SchedulerOrder]: order and wake-ups, when accesses to the maps never wait.
      [SchedulerLocks]: the locks of the shards of the maps that are held while
      something else is waited for.
    - [Paths]: normalization and canonical paths over a file system that is a
      class with laws; [TreeFs] is an instance with directories and links.
    - [Config]: [DefaultProcessConfig] with its checks.  [HostConfig]: the host
      functions for configurations, modules, errors, spawning and [get_or_spawn].
      [Attenuation]: the processes of a node as a step relation, on a file system
      that may change under them, and what they may do.
    - [GuestOtp]: the envelope of messages of guest servers.
    - [GenServer]: generic servers; the accesses of the server, its spawner, the
      joining task and of any number of clients to what they share are
      interleaved ([server_exec]).  [GenServerExit]: the end of a server.
      [GenServerOk]: calls and replies.  [GenServerLive]: what is answered and
      returns, and what is not.
    - [Messaging]: the host functions for messages, over processes with their
      scratch areas, tables of handles and quotas ([world_step]).
      [MessagingOk]: the accounting of network handles.
    - [GenEvent]: event managers, as a table of handlers and as a process that
      clients notify ([manager_exec]).  [GenEventOk]: their answers.
    - [Timers]: the timers of a process and the tasks behind them
      ([timer_exec]), with their theorems.

    ** What the theorems show

    - Functional refinement: a mailbox is a bounded queue
      ([mailbox_refines_bounded_queue]); the name registry implements its
      contract ([registry_refines_contract]); a generic server is its handlers
      applied to the accepted messages one after the other
      ([call_reply_sequential]).
    - Resource accounting: permits, slots, leases and counts are exact in every
      reachable state and failures give back what they took
      ([mailbox_admission_exact], [send_failure_leaves_no_trace],
      [links_bilateral_concurrent] and [node_capacity_concurrent], which count
      what threads have in hand between two accesses, and the same between whole
      operations, [links_bilateral_and_bounded] and [node_capacity_exact];
      [process_admission_exact]; [add_resource_exact] and
      [take_network_resource_atomic] for the resources of a message;
      [receive_budget_exact] for what streams receive, [lane_admission_exact]
      for what a node sends, [network_handles_accounted] for handles that move
      between processes, [pending_table_exact] for the calls of a server,
      [timers_accounted] for timers, whose tasks can outlive their entry only
      when they were cancelled while they ran).
    - Delivery: what is admitted arrives, in order, and lifecycle signals are
      not lost to backpressure ([waiting_receive_correct],
      [send_admission_exact], [kill_always_delivered],
      [terminate_notifies_all_links], [write_read_roundtrip]).
      [pop_window_misses_message] shows the interleaving in which a waiting
      receive of an empty mailbox misses a wake-up.
    - Identity: handles, process identities and version numbers are not reused
      ([handles_never_reused], [process_ids_never_reused],
      [version_numbers_never_reused]); one live generation per environment
      ([environment_identity_exact], [superseded_teardown_harmless]); cleanup
      of a stale owner cannot take a name ([stale_owner_cleanup_harmless],
      [snapshot_transfer_exact]); [compact_encoding_exact].
    - Agreement on names: a registration that succeeds was made by a node alone or
      committed in a step in which a majority had accepted it
      ([registered_means_majority]), with the accounting of a
      node ([coordinator_accounting_exact]) and the end of its calls
      ([coordination_ends_after_deadline]).
    - Supervision: exactly the right children are restarted, in order
      ([restart_strategy_exact]; siblings are restarted whatever their policy),
      and the decisions to restart are not too frequent, each made before its
      restart ([restart_intensity_bounded]);
      nothing is left running ([no_child_left_behind]) and nothing waits forever
      ([supervisor_never_hangs]).
    - Hot reload: what the coordinator reports is true of every process
      ([reload_status_truthful], [reloads_exclusive]), a process keeps its memory
      and fuel ([reload_preserves_process]) and tracks what it runs
      ([acknowledged_version_runs]); the check of signatures is the relation it
      stands for ([compatibility_exact]), and since it has a direction a reload
      that adds an export cannot be taken back
      ([rollback_refused_after_new_export]).
    - Between nodes: what was framed is received byte for byte ([wire_roundtrip])
      and what is received was framed ([received_message_genuine]); the check of
      MessagePack is its grammar ([preflight_exact]); messages keep their order
      through the scheduler ([route_fifo]; [worker_no_lost_wakeup] as far as maps
      do not wait, [scheduler_deadlock] shows the circle of locks in which it
      stops for good) and the lanes
      ([lane_order_preserved]); end to end a request is executed at most once
      ([request_delivered_at_most_once]), in the order of its lane
      ([requests_execute_in_lane_order]), and every answer is its only outcome
      ([acknowledged_request_has_outcome], [replay_answers_faithful],
      [answers_from_expected_node]).  [refusal_leaves_no_tombstone] shows that a
      request that was refused by a full cache is executed when it comes again.
    - Authority: it only shrinks from parent to child, however the file system
      changes ([authority_only_shrinks], [remote_process_confined]), directories
      and locations do as long as directories stay where they are
      ([files_only_shrink]), and a host function changes a configuration exactly
      when it is allowed and reports a refusal in the way of this function
      ([config_update_exact]).  [dotdot_leaves_preopen] shows the paths that
      leave the directories of a process.
    - Generic servers: early calls are answered ([early_calls_answered]), calls
      with a timeout return ([timed_call_returns]), an ended server has no name
      and leaves nobody waiting for its end ([server_exit_clean]).
      [late_call_waits_forever]: one that is in the table when the server was
      joined is never answered.
    - Event managers: no notification is left behind ([notifications_answered]),
      and a report is that of its own event ([notify_report_exact]).
    - Timers: a message is sent at most once, not early, and not after it was
      cancelled in time ([timer_messages]); [cancel_finds_fired_timer] shows that
      a timer that has fired can still be found, [cancelled_running_task_sends]
      that a cancelled one can still send.
    - Guests: [guest_envelope_exact] for the envelope of guest servers,
      [send_all_or_nothing] for sends; [receive_range_wraps] shows the range of
      tags that wraps.
    - Hot reload bookkeeping: [live_versions_never_collected],
      [transition_process_exact], [processes_for_module_exact],
      [reload_order_correct], and what processes track is what the registries
      record ([tracking_matches_membership]).
    - The life of a process: its loop never panics ([process_loop_never_panics]),
      what was admitted reaches its mailbox ([admitted_signal_delivered]) and its
      death reaches every monitor, those still queued included
      ([exit_notifies_every_monitor]).

    ** Conventions, bounds and fuel

    [u64], [u32] and [usize] (64-bit) are [Z] with their checked operations
    written out; [None] is a panic of the code and [result] its [Result].  A
    [HashMap] is a [gmap]; a [DashMap], whose iteration order is observable in
    some results, is an arbitrary [FinMap].  Critical sections are atomic steps.
    Where the code gives a lock back between two of them, they are separate
    functions in the file of the component and separate steps in [LinkSteps]
    ([unlink_peer], [terminate], the destructor of a link state) and
    [EnvironmentSteps] (registration, removal, creation, destruction); [Link],
    [Environment] and [Process], which runs whole turns of process loops, compose
    them as they run alone.  The two critical sections of [pop] are one operation
    of the queue that a mailbox refines, and apart in
    [pop_window_misses_message].
    What the scheduler, the network, timers and code outside decide is an
    argument (an oracle) of the step that depends on it, and the theorems are for
    all of them.
    Six loops have fuel.  The walk over MessagePack has twice the length of the
    bytes plus two, which [preflight_exact] shows to be enough.  The resolution of
    links in [TreeFs] has the limit of a real system, and running out is its error
    (ELOOP).  The depth-first search of [get_reload_order] has one
    more than the number of modules of the graph plus one, which
    [reload_order_correct] shows to be enough.  The drain of a closed ingress
    has the length of its queue at the time of closing: running out would be
    [None], and [process_loop_never_panics] shows that it does not.  The wait of a
    supervisor for the end of a process has a number of polls;
    [supervisor_never_hangs] gives a number that is enough whenever the wait has a
    timeout.  The cleanup of timers has the length of their heap, and
    [timers_accounted] shows that it stops only where the code does ([cleaned]).
    The request identifiers of a node are counted without wrapping, for
    fewer than 2^64 requests, and so are the calls of a generic server and the
    notifications of an event manager ([few]).
    The end-to-end theorems assume that a copy of a request arrives within 135
    seconds of its attempt, the difference between the lifetime of the replay
    cache and the window in which the sender repeats; the models of generic
    servers and event managers, that nobody else sends a forged call or
    notification; those of handles and timers, that no table has given out all
    of its 2^64 numbers ([roomy], [seed_room]).

    ** What is not modelled

    Telemetry (metrics gauges, audit records), wasmtime, the WASI host
    functions beyond those for configurations, sockets and TLS, the SQLite bindings, the HTTP control servers,
    the command line; the process's own code, which runs between the iterations
    of its loop as other threads do.  These are input and output or wrappers of
    code that is not in this repository.  Of hot reload: the watcher of files and
    the manager around the coordinator ([src/hot_reload]),
    [perform_coordinated_reload] (a loop of [perform_atomic_reload] over the
    modules of a reload order), the migration snapshots.  Of the sending side:
    [node_connection_manager], [stream_task] and [BoundedBuffer], an older sender
    that only tests use, and the budget of outbound bytes.  Of the receiving side:
    the execution of a request beyond its admission.  Of [lunatic-otp-patterns]:
    state machines, which repeat the skeleton of generic servers.  Of the host
    functions: those for the registry and remote nodes, which are glue around modelled operations, and what the networking
    functions do with sockets. *)

From stdpp Require Export base gmap list strings sets fin_maps numbers sorting.
From Stdlib Require Import Lia ZArith.

#[global] Open Scope Z_scope.

(** ** Machine integers

    [u64], [usize] (64-bit targets), [u32] and [u128] values are [Z]; the
    checked, saturating and wrapping operations the code uses are written out
    at their width. *)

Definition u32_max : Z := 2 ^ 32 - 1.
Definition u64_max : Z := 2 ^ 64 - 1.

Definition in_u64 (x : Z) : Prop := 0 <= x <= u64_max.

(** [checked_add], [checked_sub] and [checked_mul] of an unsigned type with
    maximum [m]. *)
Definition checked_add (m a b : Z) : option Z :=
  if a + b <=? m then Some (a + b) else None.
Definition checked_sub (a b : Z) : option Z :=
  if b <=? a then Some (a - b) else None.
Definition checked_mul (m a b : Z) : option Z :=
  if a * b <=? m then Some (a * b) else None.

(** [a += b] on an unsigned type with maximum [m]: with overflow checks the
    operation panics ([None]), without them it wraps. *)
Definition overflowing_add (overflow_checks : bool) (m a b : Z) : option Z :=
  if a + b <=? m then Some (a + b)
  else if overflow_checks then None else Some ((a + b) mod (m + 1)).

(** [to_le_bytes] at a width of [n] bytes and [from_le_bytes]; bytes are [Z] from
    0 to 255. *)
Definition is_byte (b : Z) : Prop := 0 <= b < 256.

Fixpoint le_bytes (n : nat) (x : Z) : list Z :=
  match n with O => [] | S n => x mod 256 :: le_bytes n (x / 256) end.

Fixpoint le_value (l : list Z) : Z :=
  match l with [] => 0 | b :: l => b + 256 * le_value l end.

(** [as i64] and the like *)
Definition as_signed (bits x : Z) : Z :=
  let x := x mod 2 ^ bits in if x <? 2 ^ (bits - 1) then x else x - 2 ^ bits.

(** ** Results

    [Result<A, E>] of the source. *)

Inductive result (A E : Type) : Type :=
| Ok (a : A)
| Err (e : E).
Arguments Ok {A E} a.
Arguments Err {A E} e.

Definition is_ok {A E} (r : result A E) : bool :=
  match r with Ok _ => true | Err _ => false end.

Definition result_bind {A B E} (r : result A E) (k : A → result B E) : result B E :=
  match r with Ok a => k a | Err e => Err e end.

Declare Scope result_scope.
Delimit Scope result_scope with result.
(** The [?] operator. *)
Notation "'let?' x ':=' e 'in' k" := (result_bind e (fun x => k))
  (at level 10, x name, e at level 200, k at level 200) : result_scope.
#[global] Open Scope result_scope.

Lemma result_bind_Ok {A B E} (r : result A E) (k : A → result B E) b :
  result_bind r k = Ok b ↔ ∃ a, r = Ok a ∧ k a = Ok b.
Proof. destruct r; simpl; naive_solver. Qed.

(** [Option::ok_or]. *)
Definition ok_or {A E} (o : option A) (e : E) : result A E :=
  match o with Some a => Ok a | None => Err e end.

(** [ensure!(b, e)]. *)
Definition ensure {E} (b : bool) (e : E) : result unit E :=
  if b then Ok tt else Err e.

(** ** Automation *)

Create HintDb lunatic discriminated.

(** A goal that relates, by a preorder, a state to the result of several
    operations on it: the operations are peeled off one by one, the last first,
    by the lemmas of [lunatic] that relate the state before each to the state
    after it. *)
Ltac peel :=
  repeat first [assumption | solve [auto with lunatic] | etrans; [|solve [auto with lunatic]]].

(** Case analysis on every [match] or [if] of a hypothesis or of the goal,
    with the equations that result simplified. *)
Ltac case_all :=
  repeat (case_match; simplify_eq/=).

Ltac case_in H :=
  repeat match type of H with
  | context [match ?x with _ => _ end] =>
      lazymatch x with
      | context [match _ with _ => _ end] => fail
      | _ => destruct x eqn:?; simplify_eq/=
      end
  end.

Ltac bool_to_prop :=
  repeat match goal with
  | H : (_ <=? _) = true |- _ => apply Z.leb_le in H
  | H : (_ <=? _) = false |- _ => apply Z.leb_gt in H
  | H : (_ <? _) = true |- _ => apply Z.ltb_lt in H
  | H : (_ <? _) = false |- _ => apply Z.ltb_ge in H
  | H : (_ =? _) = true |- _ => apply Z.eqb_eq in H
  | H : (_ =? _) = false |- _ => apply Z.eqb_neq in H
  | H : (_ && _)%bool = true |- _ => apply andb_true_iff in H as [? ?]
  | H : (_ || _)%bool = false |- _ => apply orb_false_iff in H as [? ?]
  | H : negb _ = true |- _ => apply negb_true_iff in H
  | H : negb _ = false |- _ => apply negb_false_iff in H
  | H : bool_decide _ = true |- _ => apply bool_decide_eq_true_1 in H
  | H : bool_decide _ = false |- _ => apply bool_decide_eq_false_1 in H
  end.

(** ** Lemmas on machine integers *)

Lemma checked_add_Some m a b c :
  checked_add m a b = Some c ↔ c = a + b ∧ a + b <= m.
Proof. unfold checked_add. case_all; bool_to_prop; naive_solver lia. Qed.

Lemma checked_sub_Some a b c :
  checked_sub a b = Some c ↔ c = a - b ∧ b <= a.
Proof. unfold checked_sub. case_all; bool_to_prop; naive_solver lia. Qed.

Lemma checked_mul_Some m a b c :
  checked_mul m a b = Some c ↔ c = a * b ∧ a * b <= m.
Proof. unfold checked_mul. case_all; bool_to_prop; naive_solver lia. Qed.

(** ** Lemmas on bytes *)

Lemma length_le_bytes n x : length (le_bytes n x) = n.
Proof. revert x. induction n as [|n IH]; intros x; simpl; [done|]. by rewrite IH. Qed.

Lemma le_bytes_are_bytes n x : Forall is_byte (le_bytes n x).
Proof.
  revert x. induction n as [|n IH]; intros x; simpl; [done|].
  apply Forall_cons_2; [|done]. unfold is_byte. pose proof (Z.mod_pos_bound x 256). lia.
Qed.

Lemma le_value_bytes n x : 0 <= x < 256 ^ Z.of_nat n → le_value (le_bytes n x) = x.
Proof.
  revert x. induction n as [|n IH]; intros x Hx; simpl; [simpl in Hx; lia|].
  rewrite IH; [pose proof (Z.div_mod x 256); lia|].
  rewrite Nat2Z.inj_succ, Z.pow_succ_r in Hx by lia.
  split; [apply Z.div_pos; lia|]. apply Z.div_lt_upper_bound; lia.
Qed.

Lemma le_value_bound l : Forall is_byte l → 0 <= le_value l < 256 ^ Z.of_nat (length l).
Proof.
  induction 1 as [|b l Hb _ IH]; simpl; [lia|]. unfold is_byte in Hb.
  rewrite Nat2Z.inj_succ, Z.pow_succ_r by lia. lia.
Qed.

Lemma le_bytes_value l : Forall is_byte l → le_bytes (length l) (le_value l) = l.
Proof.
  induction 1 as [|b l Hb _ IH]; simpl; [done|]. unfold is_byte in Hb.
  rewrite (Z.mul_comm 256), Z.mod_add, Z.div_add, Z.mod_small, Z.div_small, Z.add_0_l, IH by lia. done.
Qed.

(** A signed value is given back by the bits it is stored in, and the other way round. *)
Lemma as_signed_mod bits x :
  0 < bits → - 2 ^ (bits - 1) <= x < 2 ^ (bits - 1) → as_signed bits (x mod 2 ^ bits) = x.
Proof.
  intros Hb Hx. unfold as_signed. rewrite Zmod_mod.
  assert (2 ^ bits = 2 * 2 ^ (bits - 1)) as Hp by (rewrite <- Z.pow_succ_r; [f_equal|]; lia).
  destruct (decide (0 <= x)).
  - rewrite Z.mod_small by lia. by rewrite (proj2 (Z.ltb_lt _ _)) by lia.
  - rewrite <- (Z.mod_add x 1) by lia. rewrite Z.mod_small by lia.
    rewrite (proj2 (Z.ltb_ge _ _)) by lia. lia.
Qed.

Lemma as_signed_range bits x : 0 < bits → - 2 ^ (bits - 1) <= as_signed bits x < 2 ^ (bits - 1).
Proof.
  intros Hb. unfold as_signed.
  assert (2 ^ bits = 2 * 2 ^ (bits - 1)) as Hp by (rewrite <- Z.pow_succ_r; [f_equal|]; lia).
  assert (0 < 2 ^ (bits - 1)) by (apply Z.pow_pos_nonneg; lia).
  pose proof (Z.mod_pos_bound x (2 ^ bits)). cbv zeta. destruct (_ <? _) eqn:?; bool_to_prop; lia.
Qed.

Lemma mod_as_signed bits x : 0 < bits → 0 <= x < 2 ^ bits → (as_signed bits x) mod 2 ^ bits = x.
Proof.
  intros Hb Hx. unfold as_signed. rewrite (Z.mod_small x) by lia. cbv zeta. case_match.
  - by apply Z.mod_small.
  - rewrite <- (Z.mod_add _ 1) by lia. rewrite Z.mod_small; lia.
Qed.

(** ** Reachability

    An invariant of every step holds in every reachable state. *)
Lemma rtc_invariant {A} (R : relation A) (P : A → Prop) (x y : A) :
  (∀ a b, P a → R a b → P b) → P x → rtc R x y → P y.
Proof. intros Hstep Hx. induction 1; eauto. Qed.

(** ** Strings

    A Rust [String] is a sequence of Unicode scalar values; its length is that
    of its UTF-8 encoding, whose byte order is the order of the scalars. *)

Definition len_utf8 (c : Z) : Z :=
  if c <? 0x80 then 1 else if c <? 0x800 then 2 else if c <? 0x10000 then 3 else 4.

Definition name_len (n : list Z) : Z := foldr (fun c acc => len_utf8 c + acc) 0 n.

(** [char::is_control]: the general category Cc. *)
Definition is_control (c : Z) : bool :=
  (c <=? 0x1F) || ((0x7F <=? c) && (c <=? 0x9F)).

Lemma len_utf8_pos c : 1 <= len_utf8 c <= 4.
Proof. unfold len_utf8. repeat case_match; lia. Qed.

Lemma name_len_nonneg n : 0 <= name_len n.
Proof. induction n as [|c n IH]; simpl; [done|]. pose proof (len_utf8_pos c). lia. Qed.

(** ** Lists *)

(** [Iterator::position]. *)
Fixpoint position {A} (f : A → bool) (l : list A) : option nat :=
  match l with
  | [] => None
  | a :: l => if f a then Some 0%nat else S <$> position f l
  end.

Section position.
Context {A : Type}.
Implicit Types (f : A → bool) (l : list A).

Lemma position_Some f l i :
  position f l = Some i →
  ∃ a, l !! i = Some a ∧ f a = true ∧ Forall (fun b => f b = false) (take i l).
Proof.
  revert i. induction l as [|a l IH]; intros i; simpl; [done|].
  destruct (f a) eqn:Ha; [naive_solver|].
  intros (j & Hj & ->)%fmap_Some_1. apply IH in Hj as (b & ? & ? & ?).
  exists b. simpl. auto.
Qed.

Lemma position_None f l : position f l = None ↔ Forall (fun b => f b = false) l.
Proof.
  induction l as [|a l IH]; simpl; [done|].
  rewrite Forall_cons_iff. destruct (f a); [naive_solver|].
  destruct (position f l); simpl; naive_solver.
Qed.

Lemma position_fmap {B} (g : B → A) f (l : list B) :
  position f (g <$> l) = position (fun b => f (g b)) l.
Proof. induction l as [|b l IH]; csimpl; [done|]. by rewrite IH. Qed.

Lemma position_split f l1 a l2 :
  Forall (fun b => f b = false) l1 → f a = true →
  position f (l1 ++ a :: l2) = Some (length l1).
Proof. induction 1 as [|b l1 Hb ? IH]; intros Ha; simpl; by rewrite ?Hb, ?Ha, ?IH. Qed.
End position.

Lemma filter_keeps_all {A} (P : A → Prop) `{!∀ e, Decision (P e)} l : Forall P l → filter P l = l.
Proof. induction 1 as [|e l He _ IH]; [done|]. by rewrite filter_cons_True, IH. Qed.
Lemma filter_keeps_none {A} (P : A → Prop) `{!∀ e, Decision (P e)} l : Forall (fun e => ¬ P e) l → filter P l = [].
Proof. induction 1 as [|e l He _ IH]; [done|]. by rewrite filter_cons_False, IH. Qed.

(** Elements with the same image are one when no image is repeated. *)
Lemma NoDup_fmap_eq {A B} (f : A → B) l x y : NoDup (f <$> l) → x ∈ l → y ∈ l → f x = f y → x = y.
Proof.
  induction l as [|a l IH]; [by intros _ ?%not_elem_of_nil|]. rewrite fmap_cons, list.NoDup_cons, !elem_of_cons.
  intros [Ha Hl] [->|Hx] [->|Hy] Hf; [done| | |by apply IH]; destruct Ha.
  - rewrite Hf. by apply list_elem_of_fmap_2.
  - rewrite <- Hf. by apply list_elem_of_fmap_2.
Qed.

(** [dedup] of a sorted vector. *)
Fixpoint dedup (l : list Z) : list Z :=
  match l with
  | x :: (y :: _) as l' => if x =? y then dedup l' else x :: dedup l'
  | _ => l
  end.

Lemma elem_of_dedup l x : x ∈ dedup l ↔ x ∈ l.
Proof.
  induction l as [|a [|b l] IH]; [done|done|].
  change (dedup (a :: b :: l)) with (if a =? b then dedup (b :: l) else a :: dedup (b :: l)).
  destruct (a =? b) eqn:Hab; bool_to_prop; rewrite ?elem_of_cons, IH, !elem_of_cons; naive_solver.
Qed.

Lemma dedup_sorted l : StronglySorted Z.le l → StronglySorted Z.lt (dedup l).
Proof.
  induction l as [|a [|b l] IH]; intros Hs; [constructor|by repeat constructor|].
  change (dedup (a :: b :: l)) with (if a =? b then dedup (b :: l) else a :: dedup (b :: l)).
  apply StronglySorted_inv in Hs as [Hs Ha]. specialize (IH Hs).
  destruct (a =? b) eqn:Hab; bool_to_prop; [done|]. constructor; [done|].
  apply list.Forall_forall. intros x Hx. rewrite elem_of_dedup in Hx.
  apply Forall_cons_iff in Ha as [Hle _]. apply StronglySorted_inv in Hs as [_ Hb].
  rewrite list.Forall_forall in Hb. apply elem_of_cons in Hx as [->|Hx]; [lia|].
  specialize (Hb x Hx). lia.
Qed.

Lemma strictly_sorted_NoDup l : StronglySorted Z.lt l → NoDup l.
Proof.
  induction 1 as [|x l' _ IH Hall]; [constructor|].
  apply list.NoDup_cons. split; [|done]. intros Hin. rewrite list.Forall_forall in Hall.
  specialize (Hall x Hin). lia.
Qed.

Lemma dedup_NoDup l : StronglySorted Z.le l → NoDup (dedup l).
Proof. intros Hs. by apply strictly_sorted_NoDup, dedup_sorted. Qed.

(** ** Sums over finite maps *)

Definition map_sum {K A} `{Countable K} (f : A → Z) (m : gmap K A) : Z :=
  map_fold (fun _ a acc => f a + acc) 0 m.

Section map_sum.
Context {K A : Type} `{Countable K} (f : A → Z).
Implicit Types (m : gmap K A).

Lemma map_sum_empty : map_sum f (∅ : gmap K A) = 0.
Proof. apply map_fold_empty. Qed.

Lemma map_sum_insert m k a : m !! k = None → map_sum f (<[k := a]> m) = f a + map_sum f m.
Proof. intros Hk. unfold map_sum. rewrite map_fold_insert_L; [done|intros; lia|done]. Qed.

Lemma map_sum_delete m k a : m !! k = Some a → map_sum f (delete k m) = map_sum f m - f a.
Proof.
  intros Hk. rewrite <- (insert_delete_id m k a Hk) at 2.
  rewrite map_sum_insert by apply lookup_delete_eq. lia.
Qed.

Lemma map_sum_replace m k a b :
  m !! k = Some a → map_sum f (<[k := b]> m) = map_sum f m - f a + f b.
Proof.
  intros Hk. rewrite <- insert_delete_eq, map_sum_insert by apply lookup_delete_eq.
  rewrite (map_sum_delete _ _ _ Hk). lia.
Qed.

Lemma map_sum_nonneg_in m : map_Forall (fun _ a => 0 <= f a) m → 0 <= map_sum f m.
Proof.
  induction m as [|k a m Hk IH] using map_ind; intros Hf; [by rewrite map_sum_empty|].
  rewrite map_sum_insert by done. apply map_Forall_insert in Hf as [Ha Hm]; [|done]. specialize (IH Hm). lia.
Qed.

Lemma map_sum_nonneg m : (∀ a, 0 <= f a) → 0 <= map_sum f m.
Proof. intros Hf. apply map_sum_nonneg_in. by intros k a _. Qed.

(** One summand is at most the sum. *)
Lemma map_sum_lookup_le_in m k a : map_Forall (fun _ a => 0 <= f a) m → m !! k = Some a → f a <= map_sum f m.
Proof.
  intros Hf Hk. pose proof (map_sum_nonneg_in (delete k m) (map_Forall_delete _ _ _ Hf)).
  rewrite (map_sum_delete _ _ _ Hk) in *. lia.
Qed.

Lemma map_sum_lookup_le m k a : (∀ a, 0 <= f a) → m !! k = Some a → f a <= map_sum f m.
Proof. intros Hf. apply map_sum_lookup_le_in. by intros ? ? _. Qed.

Lemma map_sum_foldr m : map_sum f m = foldr (fun a acc => f a + acc) 0 (map_to_list m).*2.
Proof.
  unfold map_sum. rewrite map_fold_foldr.
  induction (map_to_list m) as [|[k a] l IH]; csimpl; [done|]. by rewrite IH.
Qed.

(** A map split in two by a boolean. *)
Lemma map_sum_split m (b : A → bool) :
  map_sum f m = map_sum f (filter (fun p => b p.2 = true) m)
                + map_sum f (filter (fun p => b p.2 = false) m).
Proof.
  induction m as [|k a m Hk IH] using map_ind.
  - by rewrite !map_filter_empty, map_sum_empty.
  - rewrite map_sum_insert, !map_filter_insert by done. simpl.
    assert (∀ c, filter (fun p : K * A => b p.2 = c) m !! k = None) as Hf
      by (intros c; apply map_lookup_filter_None; by left).
    rewrite delete_id by done.
    destruct (b a); repeat case_decide; try done; rewrite map_sum_insert by done; lia.
Qed.
End map_sum.

Lemma map_sum_fmap {K A B} `{Countable K} (f : B → Z) (g : A → B) (m : gmap K A) :
  map_sum f (g <$> m) = map_sum (fun a => f (g a)) m.
Proof.
  induction m as [|k a m Hk IH] using map_ind; [by rewrite fmap_empty, !map_sum_empty|].
  rewrite fmap_insert, !map_sum_insert by (rewrite ?lookup_fmap, ?Hk; done). by rewrite IH.
Qed.

Lemma map_sum_mono {K A} `{Countable K} (f g : A → Z) (m : gmap K A) :
  map_Forall (fun _ a => f a <= g a) m → map_sum f m <= map_sum g m.
Proof.
  induction m as [|k a m Hk IH] using map_ind; intros Hle; [by rewrite !map_sum_empty|].
  rewrite !map_sum_insert by done. apply map_Forall_insert in Hle as [Ha Hm]; [|done]. specialize (IH Hm). lia.
Qed.

Lemma map_sum_one {K A} `{Countable K} (m : gmap K A) : map_sum (fun _ => 1) m = Z.of_nat (size m).
Proof.
  induction m as [|k a m Hk IH] using map_ind; [by rewrite map_sum_empty, map_size_empty|].
  rewrite map_sum_insert, map_size_insert_None by done. lia.
Qed.
