(* ===== verification/External.v ===== *)
(** * Interfaces of the crates and of the allocator the runtime builds on

    The code under verification is written against tokio's [Semaphore] and
    bounded [mpsc] channel, against [DashMap], and against an allocator that
    decides how much capacity a [Vec] gets.  None of that is part of the
    repository, so each is a type class: its operations are parameters of the
    models and its laws are the documented behaviour the theorems rely on.
    One concrete instance per class shows that the laws are satisfiable and
    lets examples evaluate.

    [DashMap<K, V>] is any stdpp finite map: the models that use it are
    parametric in a [FinMap]. *)

From S2P Require Import Prelude.

(** ** [tokio::sync::Semaphore] *)

(** [Semaphore::MAX_PERMITS] is [usize::MAX >> 3]. *)
Definition max_permits : Z := Z.shiftr u64_max 3.

Class Semaphore (Sem : Type) := {
  sem_new : Z → Sem;
  available_permits : Sem → Z;
  (** [try_acquire_owned]; the code never closes a semaphore. *)
  try_acquire_owned : Sem → option Sem;
  (** Dropping an [OwnedSemaphorePermit]. *)
  release_permit : Sem → Sem;
  (** [try_acquire_many_owned(n)] and the drop of its permit. *)
  try_acquire_many_owned : Z → Sem → option Sem;
  release_permits : Z → Sem → Sem;
}.

Class SemaphoreLaws (Sem : Type) `{!Semaphore Sem} : Prop := {
  available_new n : 0 <= n <= max_permits → available_permits (sem_new n) = n;
  available_nonneg s : 0 <= available_permits s;
  try_acquire_Some s s' :
    try_acquire_owned s = Some s' → available_permits s = available_permits s' + 1;
  try_acquire_None s : try_acquire_owned s = None ↔ available_permits s = 0;
  available_release s : available_permits (release_permit s) = available_permits s + 1;
  try_acquire_many_Some n s s' : 0 <= n →
    try_acquire_many_owned n s = Some s' → available_permits s = available_permits s' + n;
  try_acquire_many_None n s : 0 <= n → try_acquire_many_owned n s = None ↔ available_permits s < n;
  available_release_many n s : 0 <= n → available_permits (release_permits n s) = available_permits s + n;
}.

Lemma try_acquire_is_Some `{!Semaphore Sem, !SemaphoreLaws Sem} (s : Sem) :
  0 < available_permits s ↔ is_Some (try_acquire_owned s).
Proof.
  pose proof (available_nonneg s). pose proof (try_acquire_None s) as HN.
  destruct (try_acquire_owned s) as [s'|] eqn:E; split; intros Hs.
  - done.
  - apply try_acquire_Some in E. pose proof (available_nonneg s'). lia.
  - destruct HN as [HN _]. specialize (HN eq_refl). lia.
  - by destruct Hs.
Qed.

(** The counting semaphore. *)
#[export] Instance counting_semaphore : Semaphore nat := {|
  sem_new := Z.to_nat;
  available_permits := Z.of_nat;
  try_acquire_owned n := match n with O => None | S n => Some n end;
  release_permit := S;
  try_acquire_many_owned k n := if k <=? Z.of_nat n then Some (n - Z.to_nat k)%nat else None;
  release_permits k n := (n + Z.to_nat k)%nat;
|}.

#[export] Instance counting_semaphore_laws : SemaphoreLaws nat.
Proof.
  split; simpl; intros.
  - lia.
  - lia.
  - destruct s; simplify_eq. lia.
  - destruct s; naive_solver lia.
  - lia.
  - case_match; bool_to_prop; simplify_eq. lia.
  - case_match; bool_to_prop; naive_solver lia.
  - lia.
Qed.

(** ** [tokio::sync::mpsc], bounded *)

Inductive TrySendError (A : Type) : Type :=
| ChanFull (a : A)
| ChanClosed (a : A).
Arguments ChanFull {A} a.
Arguments ChanClosed {A} a.

Class Channel (C : Type → Type) := {
  (** [mpsc::channel(buffer)]. *)
  channel : ∀ {A}, Z → C A;
  (** The values sent and not yet received, oldest first. *)
  queued : ∀ {A}, C A → list A;
  (** The buffer size the channel was created with. *)
  buffer_size : ∀ {A}, C A → Z;
  chan_is_closed : ∀ {A}, C A → bool;
  try_send : ∀ {A}, A → C A → result (C A) (TrySendError A);
  try_recv : ∀ {A}, C A → option (A * C A);
  (** [Receiver::close]: what is queued can still be received. *)
  close : ∀ {A}, C A → C A;
}.

Class ChannelLaws (C : Type → Type) `{!Channel C} : Prop := {
  channel_spec A n : 0 < n →
    queued (channel (A:=A) n) = [] ∧ buffer_size (channel (A:=A) n) = n ∧
    chan_is_closed (channel (A:=A) n) = false;
  try_send_spec A (a : A) c :
    match try_send a c with
    | Ok c' => chan_is_closed c = false ∧ Z.of_nat (length (queued c)) < buffer_size c ∧
        queued c' = queued c ++ [a] ∧ buffer_size c' = buffer_size c ∧
        chan_is_closed c' = false
    | Err (ChanClosed a') => a' = a ∧ chan_is_closed c = true
    | Err (ChanFull a') => a' = a ∧ chan_is_closed c = false ∧
        buffer_size c <= Z.of_nat (length (queued c))
    end;
  try_recv_spec A (c : C A) :
    match try_recv c with
    | Some (a, c') => queued c = a :: queued c' ∧ buffer_size c' = buffer_size c ∧
        chan_is_closed c' = chan_is_closed c
    | None => queued c = []
    end;
  close_spec A (c : C A) :
    queued (close c) = queued c ∧ buffer_size (close c) = buffer_size c ∧
    chan_is_closed (close c) = true;
}.

(** A bounded FIFO. *)
Record fifo (A : Type) : Type := mkFifo {
  fifo_items : list A; fifo_size : Z; fifo_closed : bool }.
Arguments mkFifo {A}.
Arguments fifo_items {A}.
Arguments fifo_size {A}.
Arguments fifo_closed {A}.

#[export] Instance fifo_channel : Channel fifo := {|
  channel A n := mkFifo [] n false;
  queued A := fifo_items;
  buffer_size A := fifo_size;
  chan_is_closed A := fifo_closed;
  try_send A a c :=
    if fifo_closed c then Err (ChanClosed a)
    else if Z.of_nat (length (fifo_items c)) <? fifo_size c
    then Ok (mkFifo (fifo_items c ++ [a]) (fifo_size c) false)
    else Err (ChanFull a);
  try_recv A c :=
    match fifo_items c with
    | [] => None
    | a :: l => Some (a, mkFifo l (fifo_size c) (fifo_closed c))
    end;
  close A c := mkFifo (fifo_items c) (fifo_size c) true;
|}.

#[export] Instance fifo_channel_laws : ChannelLaws fifo.
Proof.
  split; intros; simpl; case_all; bool_to_prop; naive_solver lia.
Qed.

(** ** Capacity of a [Vec]

    [Vec::reserve_exact] and the amortised growth of [Vec::push] and
    [Vec::extend] promise at least the requested capacity. *)

Class VecAlloc := {
  (** [grow_exact cap needed] and [grow_amortized cap needed] are the new
      capacity when [needed] elements do not fit in [cap]. *)
  grow_exact : Z → Z → Z;
  grow_amortized : Z → Z → Z;
  grow_exact_ge cap needed : needed <= grow_exact cap needed;
  grow_amortized_ge cap needed : needed <= grow_amortized cap needed;
}.

Definition vec_alloc_doubling : VecAlloc.
Proof.
  refine {| grow_exact _ needed := needed;
            grow_amortized cap needed := Z.max (2 * cap) needed |}; lia.
Defined.

(** ** [async_cell::sync::AsyncCell] *)

Class AsyncCell (Cell : Type → Type) := {
  cell_new : ∀ {A}, Cell A;
  (** What the cell holds. *)
  cell_value : ∀ {A}, Cell A → option A;
  (** [set] replaces a value that was not taken. *)
  cell_set : ∀ {A}, A → Cell A → Cell A;
  cell_is_set : ∀ {A}, Cell A → bool;
  (** A poll of [take]. *)
  cell_take : ∀ {A}, Cell A → option (A * Cell A);
}.

Class AsyncCellLaws (Cell : Type → Type) `{!AsyncCell Cell} : Prop := {
  value_new A : cell_value (cell_new (A:=A)) = None;
  value_set A (a : A) c : cell_value (cell_set a c) = Some a;
  is_set_spec A (c : Cell A) : cell_is_set c = true ↔ cell_value c ≠ None;
  take_spec A (c : Cell A) :
    match cell_take c with
    | Some (a, c') => cell_value c = Some a ∧ cell_value c' = None
    | None => cell_value c = None
    end;
}.

#[export] Instance option_cell : AsyncCell option := {|
  cell_new A := None;
  cell_value A c := c;
  cell_set A a c := Some a;
  cell_is_set A c := match c with Some _ => true | None => false end;
  cell_take A c := (fun a => (a, None)) <$> c;
|}.

#[export] Instance option_cell_laws : AsyncCellLaws option.
Proof. split; try done; by intros A []. Qed.
