(* ===== verification/HashMapId.v ===== *)
(** * [crates/hash-map-id]: a map that hands out its own keys

    [HashMapId<T>] stores host resources (configurations, modules, sockets,
    timers) under [u64] handles the guest holds.  The model keeps the seed at
    its width: [add] ends in [self.id_seed += 1], which panics in a build with
    overflow checks and wraps in one without. *)

From S2P Require Import Prelude.

Section operations.
Context {T : Type}.

Record HashMapId : Type := mkHashMapId { id_seed : Z; store : gmap Z T }.

Definition new : HashMapId := mkHashMapId 0 ∅.

(** The store a panicking [add] leaves behind is observable: the insertion
    precedes the overflowing increment. *)
Inductive add_outcome : Type :=
| Returned (id : Z) (h : HashMapId)
| Panicked (h : HashMapId).

Definition add (overflow_checks : bool) (item : T) (h : HashMapId) : add_outcome :=
  let id := id_seed h in
  let store' := <[id := item]> (store h) in
  match overflowing_add overflow_checks u64_max (id_seed h) 1 with
  | Some seed' => Returned id (mkHashMapId seed' store')
  | None => Panicked (mkHashMapId (id_seed h) store')
  end.

Definition remove (id : Z) (h : HashMapId) : option T * HashMapId :=
  (store h !! id, mkHashMapId (id_seed h) (delete id (store h))).

Definition get (id : Z) (h : HashMapId) : option T := store h !! id.

(** [get_mut] lends the slot; [f] is what the borrower does with it. *)
Definition get_mut (f : T → T) (id : Z) (h : HashMapId) : HashMapId :=
  mkHashMapId (id_seed h) (alter f id (store h)).

Definition iter_mut (f : Z → T → T) (h : HashMapId) : HashMapId :=
  mkHashMapId (id_seed h) (map_imap (fun k v => Some (f k v)) (store h)).

Definition len (h : HashMapId) : nat := size (store h).

Definition is_empty (h : HashMapId) : bool := bool_decide (store h = ∅).
End operations.
Arguments HashMapId : clear implicits.
Arguments add_outcome : clear implicits.

(** ** Programs over the map: the calls one owner makes, in order. *)

Section theory.
Context {T : Type}.
Implicit Types (h : HashMapId T) (id : Z).

Inductive op : Type :=
| Add (item : T)
| Remove (id : Z)
| GetMut (f : T → T) (id : Z).

(** The state after the calls and the handles [add] returned, oldest first;
    [None] once a call has panicked. *)
Fixpoint run (overflow_checks : bool) (ops : list op) h : option (list Z * HashMapId T) :=
  match ops with
  | [] => Some ([], h)
  | Add item :: ops =>
      match add overflow_checks item h with
      | Returned id h' =>
          '(ids, h'') ← run overflow_checks ops h'; Some (id :: ids, h'')
      | Panicked _ => None
      end
  | Remove id :: ops => run overflow_checks ops (remove id h).2
  | GetMut f id :: ops => run overflow_checks ops (get_mut f id h)
  end.

(** Every stored handle is below the seed. *)
Definition wf h : Prop :=
  in_u64 (id_seed h) ∧ ∀ id, is_Some (store h !! id) → 0 <= id < id_seed h.

Lemma new_wf : wf (new : HashMapId T).
Proof. split; [done|]. intros id [? Hid]. cbn in Hid. by simplify_map_eq. Qed.

Lemma add_step checks item h :
  wf h → id_seed h < u64_max →
  add checks item h =
    Returned (id_seed h) (mkHashMapId (id_seed h + 1) (<[id_seed h := item]> (store h))) ∧
  store h !! id_seed h = None ∧
  wf (mkHashMapId (id_seed h + 1) (<[id_seed h := item]> (store h))).
Proof.
  intros [Hseed Hkeys] Hlt. unfold in_u64 in *. split_and!.
  - unfold add, overflowing_add. by rewrite (proj2 (Z.leb_le _ _)) by lia.
  - apply eq_None_not_Some. intros Hk. apply Hkeys in Hk. lia.
  - split; unfold in_u64; simpl; [lia|]. intros id.
    rewrite lookup_insert_is_Some. intros [<-|[_ Hid]]; [lia|].
    apply Hkeys in Hid. lia.
Qed.

Lemma remove_wf id h : wf h → wf (remove id h).2.
Proof.
  intros [Hseed Hkeys]; split; simpl; [done|].
  intros k. rewrite lookup_delete_is_Some. naive_solver.
Qed.

Lemma get_mut_wf f id h : wf h → wf (get_mut f id h).
Proof.
  intros [Hseed Hkeys]; split; simpl; [done|].
  intros k. rewrite lookup_alter_is_Some. naive_solver.
Qed.

Lemma run_ids checks ops h :
  wf h → id_seed h + Z.of_nat (length ops) <= u64_max →
  ∃ ids h', run checks ops h = Some (ids, h') ∧ wf h' ∧
    ids = seqZ (id_seed h) (id_seed h' - id_seed h) ∧ id_seed h <= id_seed h'.
Proof.
  revert h. induction ops as [|o ops IH]; intros h Hwf Hbound; simpl in *.
  { exists [], h. rewrite Z.sub_diag. done. }
  destruct o as [item|id|f id].
  - destruct (add_step checks item h) as (-> & _ & Hwf'); [done|lia|].
    destruct (IH _ Hwf') as (ids & h' & -> & ? & -> & Hle); [simpl; lia|]. simpl in *.
    eexists _, h'. split_and!; [done|done| |lia].
    rewrite (seqZ_cons (id_seed h)) by lia. f_equal; f_equal; lia.
  - apply (IH (remove id h).2); [by apply remove_wf|simpl; lia].
  - apply (IH (get_mut f id h)); [by apply get_mut_wf|simpl; lia].
Qed.

(** Handles are never reused: along any sequence of [add], [remove] and
    [get_mut] calls short of 2^64, no call panics, the handles [add] returns
    are pairwise distinct, also after removals, and every handle that resolves
    at the end was returned by one of those calls. *)
Theorem handles_never_reused checks ops :
  Z.of_nat (length ops) <= u64_max →
  ∃ ids h', run checks ops new = Some (ids, h') ∧
    NoDup ids ∧ (∀ id, is_Some (get id h') → id ∈ ids).
Proof.
  intros Hlen.
  destruct (run_ids checks ops new) as (ids & h' & Hrun & [_ Hkeys] & -> & _);
    [apply new_wf|done|].
  eexists _, h'. split_and!; [done|apply NoDup_seqZ|].
  intros id Hid. apply Hkeys in Hid. apply elem_of_seqZ. simpl in *. lia.
Qed.
End theory.

Lemma handles_never_reused_witness :
  ∃ ids (h' : HashMapId Z),
    run true [Add 7; Add 8; Remove 1; Add 9] new = Some (ids, h') ∧
    NoDup ids ∧ (∀ id, is_Some (get id h') → id ∈ ids).
Proof. apply handles_never_reused. done. Defined.
