(* ===== verification/Message.v ===== *)
(** * [crates/lunatic-process/src/message.rs]: messages between processes

    A [Message] is a data message (a byte buffer with a read pointer and a
    table of resource slots), a link-death notice or a monitor notice.  Both
    vectors of a [DataMessage] carry their allocated capacity, because the
    mailbox limits count allocations and not lengths. *)

From S2P Require Import Prelude External.
From Stdlib Require Export Strings.Byte.

(** Why a process died ([lib.rs]). *)
Inductive DeathReason : Type := Normal | Failure | NoProcess.

#[export] Instance DeathReason_eq_dec : EqDecision DeathReason.
Proof. solve_decision. Defined.

(** ** Vectors with capacity *)

Record Vec (A : Type) : Type := mkVec { vec_data : list A; vec_capacity : Z }.
Arguments mkVec {A}.
Arguments vec_data {A}.
Arguments vec_capacity {A}.

Definition vec_len {A} (v : Vec A) : Z := Z.of_nat (length (vec_data v)).

Definition vec_wf {A} (v : Vec A) : Prop := vec_len v <= vec_capacity v.

Definition vec_empty {A} : Vec A := mkVec [] 0.
Definition vec_with_capacity {A} (n : Z) : Vec A := mkVec [] n.

Definition vec_extend `{VecAlloc} {A} (l : list A) (v : Vec A) : Vec A :=
  let needed := vec_len v + Z.of_nat (length l) in
  mkVec (vec_data v ++ l)
    (if needed <=? vec_capacity v then vec_capacity v
     else grow_amortized (vec_capacity v) needed).

Definition vec_push `{VecAlloc} {A} (a : A) (v : Vec A) : Vec A := vec_extend [a] v.

Definition vec_reserve_exact `{VecAlloc} {A} (additional : Z) (v : Vec A) : Vec A :=
  let needed := vec_len v + additional in
  mkVec (vec_data v)
    (if needed <=? vec_capacity v then vec_capacity v
     else grow_exact (vec_capacity v) needed).

(** ** Resources

    A slot holds an [Arc<dyn Any>]: its [TypeId] and the identity of the
    allocation.  [MessageNetworkResource<T>] is the type of an exclusively
    owned network handle together with its quota lease. *)

Inductive TypeId : Type :=
| TModule
| TTcpConnection | TUdpSocket | TTlsConnection
| TLeasedTcp | TLeasedUdp | TLeasedTls.

#[export] Instance TypeId_eq_dec : EqDecision TypeId.
Proof. solve_decision. Defined.

Record Resource : Type := mkResource { type_id : TypeId; arc : Z }.

Record DataMessage : Type := mkDataMessage {
  tag : option Z;
  read_ptr : Z;
  buffer : Vec byte;
  resources : Vec (option Resource);
}.

Inductive Message : Type :=
| Data (message : DataMessage)
| LinkDied (tag : option Z)
| ProcessDied (process_id : Z) (reason : DeathReason).

(** [Message::tag]. *)
Definition message_tag (m : Message) : option Z :=
  match m with
  | Data message => tag message
  | LinkDied tag => tag
  | ProcessDied _ _ => None
  end.

Definition process_id (m : Message) : option Z :=
  match m with
  | Data _ => None
  | LinkDied _ => None
  | ProcessDied process_id _ => Some process_id
  end.

Definition death_reason (m : Message) : option DeathReason :=
  match m with
  | ProcessDied _ reason => Some reason
  | Data _ | LinkDied _ => None
  end.

(** ** [DataMessage] *)

Definition new (tag : option Z) (buffer_capacity : Z) : DataMessage :=
  mkDataMessage tag 0 (vec_with_capacity buffer_capacity) vec_empty.

Definition new_from_vec (tag : option Z) (buffer : Vec byte) : DataMessage :=
  mkDataMessage tag 0 buffer vec_empty.

Definition with_resources (m : DataMessage) (r : Vec (option Resource)) : DataMessage :=
  mkDataMessage (tag m) (read_ptr m) (buffer m) r.

(** The slots with slot [i] replaced; indexing is checked by the callers. *)
Definition set_slot (m : DataMessage) (i : nat) (r : option Resource) : DataMessage :=
  with_resources m
    (mkVec (<[i := r]> (vec_data (resources m))) (vec_capacity (resources m))).

Definition add_resource `{VecAlloc} (r : Resource) (m : DataMessage) : Z * DataMessage :=
  let v := resources m in
  let v := if vec_len v =? vec_capacity v then vec_reserve_exact 1 v else v in
  let v := vec_push (Some r) v in
  (vec_len v - 1, with_resources m v).

(** [take_downcast]: the slot is emptied only when the type matches; a failed
    downcast puts the resource back. *)
Definition take_downcast (ty : TypeId) (index : nat) (m : DataMessage)
    : option Resource * DataMessage :=
  match vec_data (resources m) !! index with
  | Some (Some r) =>
      if bool_decide (type_id r = ty) then (Some r, set_slot m index None) else (None, m)
  | Some None => (None, m)
  | None => (None, m)
  end.

(** [take_network_resource]: [Arc::try_unwrap] succeeds when the strong count
    of the allocation is one; otherwise the slot is restored. *)
Definition take_network_resource (strong_count : Z → nat) (ty : TypeId) (index : nat)
    (m : DataMessage) : option Resource * DataMessage :=
  match take_downcast ty index m with
  | (Some r, m') =>
      if bool_decide (strong_count (arc r) = 1%nat) then (Some r, m')
      else (None, set_slot m' index (Some r))
  | (None, m') => (None, m')
  end.

Definition take_module := take_downcast TModule.
Definition take_tcp_stream := take_downcast TTcpConnection.
Definition take_udp_socket := take_downcast TUdpSocket.
Definition take_tls_stream := take_downcast TTlsConnection.
Definition take_leased_tcp_stream strong_count := take_network_resource strong_count TLeasedTcp.
Definition take_leased_udp_socket strong_count := take_network_resource strong_count TLeasedUdp.
Definition take_leased_tls_stream strong_count := take_network_resource strong_count TLeasedTls.

(** [restore_network_resource] moves the resource into a new [Arc]; [arc'] is
    the fresh allocation. *)
Definition restore_network_resource (index : nat) (r : Resource) (arc' : Z)
    (m : DataMessage) : result unit Resource * DataMessage :=
  match vec_data (resources m) !! index with
  | None => (Err r, m)
  | Some (Some _) => (Err r, m)
  | Some None => (Ok tt, set_slot m index (Some (mkResource (type_id r) arc')))
  end.

Definition seek (index : Z) (m : DataMessage) : DataMessage :=
  mkDataMessage (tag m) index (buffer m) (resources m).

(** [DataMessage::size]. *)
Definition message_size (m : DataMessage) : Z := vec_len (buffer m).

(** [impl Write]. *)
Definition write `{VecAlloc} (buf : list byte) (m : DataMessage) : Z * DataMessage :=
  (Z.of_nat (length buf),
   mkDataMessage (tag m) (read_ptr m) (vec_extend buf (buffer m)) (resources m)).

(** [impl Read]: at most [n] bytes are copied out, and the read pointer moves
    by the number copied.  [None] is the "Reading outside message buffer"
    error. *)
Definition read (n : nat) (m : DataMessage) : option (list byte) * DataMessage :=
  if read_ptr m <=? vec_len (buffer m) then
    let out := take n (drop (Z.to_nat (read_ptr m)) (vec_data (buffer m))) in
    (Some out, seek (read_ptr m + Z.of_nat (length out)) m)
  else (None, m).

(** ** Capacity *)

Section capacity.
Context `{VecAlloc}.

Lemma vec_extend_wf {A} (l : list A) v : vec_wf v → vec_wf (vec_extend l v).
Proof.
  unfold vec_wf, vec_extend, vec_len; simpl. rewrite length_app, Nat2Z.inj_add.
  case_match; bool_to_prop; [lia|]. pose proof (grow_amortized_ge (vec_capacity v)
    (Z.of_nat (length (vec_data v)) + Z.of_nat (length l))). lia.
Qed.

Lemma vec_reserve_exact_room {A} (v : Vec A) :
  vec_len v + 1 <= vec_capacity (vec_reserve_exact 1 v).
Proof.
  unfold vec_reserve_exact; simpl. case_match; bool_to_prop; [done|].
  apply grow_exact_ge.
Qed.

Lemma vec_push_room {A} (a : A) v :
  vec_len v + 1 <= vec_capacity v →
  vec_push a v = mkVec (vec_data v ++ [a]) (vec_capacity v).
Proof.
  intros Hroom. unfold vec_push, vec_extend. simpl.
  by rewrite (proj2 (Z.leb_le _ _)) by done.
Qed.

(** [add_resource] returns the index of the slot it filled, keeps every
    earlier slot, and never grows the table geometrically: the new capacity is
    the old one, or what an exact reservation of one more slot gives. *)
Theorem add_resource_exact r m :
  vec_wf (resources m) →
  let '(index, m') := add_resource r m in
  index = vec_len (resources m) ∧
  vec_data (resources m') = vec_data (resources m) ++ [Some r] ∧
  vec_wf (resources m') ∧
  vec_capacity (resources m') =
    (if vec_len (resources m) =? vec_capacity (resources m)
     then grow_exact (vec_capacity (resources m)) (vec_len (resources m) + 1)
     else vec_capacity (resources m)).
Proof.
  intros Hwf. unfold add_resource, vec_wf in *; cbv beta iota zeta.
  set (v := if vec_len _ =? _ then _ else _).
  assert (vec_len v = vec_len (resources m) ∧ vec_data v = vec_data (resources m) ∧
    vec_len v + 1 <= vec_capacity v ∧ vec_capacity v =
    (if vec_len (resources m) =? vec_capacity (resources m)
     then grow_exact (vec_capacity (resources m)) (vec_len (resources m) + 1)
     else vec_capacity (resources m))) as (Hlen & Hdata & Hroom & Hcap).
  { unfold v. case_match; bool_to_prop; split_and!; try done; [| |lia].
    - apply (vec_reserve_exact_room (resources m)).
    - unfold vec_reserve_exact; simpl. case_match; bool_to_prop; [lia|done]. }
  clearbody v. rewrite vec_push_room by done. unfold with_resources; cbn. rewrite Hdata.
  assert (vec_len (mkVec (vec_data (resources m) ++ [Some r]) (vec_capacity v)) =
    vec_len (resources m) + 1) as ->.
  { unfold vec_len; simpl. rewrite length_app, Nat2Z.inj_add. done. }
  split_and!; [lia|done|lia|done].
Qed.
End capacity.

Lemma add_resource_exact_witness :
  let '(index, m') := @add_resource vec_alloc_doubling (mkResource TModule 5) (new None 16) in
  index = 0 ∧ vec_data (resources m') = [Some (mkResource TModule 5)] ∧
  vec_wf (resources m') ∧ vec_capacity (resources m') = 1.
Proof.
  pose proof (@add_resource_exact vec_alloc_doubling (mkResource TModule 5) (new None 16)) as H.
  apply H. done.
Defined.

(** ** Resource slots *)

Section slots.
Context (strong_count : Z → nat).
Implicit Types (m : DataMessage) (ty : TypeId) (index : nat).

Lemma set_slot_data m index r :
  vec_data (resources (set_slot m index r)) = <[index := r]> (vec_data (resources m)).
Proof. done. Qed.

Lemma set_slot_twice m index r r' :
  set_slot (set_slot m index r) index r' = set_slot m index r'.
Proof. unfold set_slot; simpl. by rewrite list_insert_insert_eq. Qed.

Lemma set_slot_id m index r :
  vec_data (resources m) !! index = Some r → set_slot m index r = m.
Proof.
  intros Hi. unfold set_slot. rewrite list_insert_id by done. by destruct m as [? ? ? []].
Qed.

Lemma take_downcast_inv ty index m o m' :
  take_downcast ty index m = (o, m') →
  (∃ r, o = Some r ∧ vec_data (resources m) !! index = Some (Some r) ∧ type_id r = ty ∧
        m' = set_slot m index None) ∨
  (o = None ∧ m' = m).
Proof.
  unfold take_downcast. intros Hd. case_in Hd; bool_to_prop; naive_solver.
Qed.

(** Taking a network resource is all or nothing: on success exactly the
    requested slot, which held an unshared resource of the requested type, is
    emptied, every index of the table keeps its meaning, and restoring the
    resource puts one of that type back so that the table is as before up to
    the allocation; on failure (index out of bounds, empty slot, other type, or
    a shared [Arc]) the message is unchanged. *)
Theorem take_network_resource_atomic ty index m arc' :
  match take_network_resource strong_count ty index m with
  | (Some r, m') =>
      vec_data (resources m) !! index = Some (Some r) ∧ type_id r = ty ∧
      strong_count (arc r) = 1%nat ∧
      m' = set_slot m index None ∧
      restore_network_resource index r arc' m' =
        (Ok tt, set_slot m index (Some (mkResource ty arc')))
  | (None, m') =>
      m' = m ∧
      (∀ r, vec_data (resources m) !! index = Some (Some r) →
        type_id r ≠ ty ∨ strong_count (arc r) ≠ 1%nat)
  end.
Proof.
  unfold take_network_resource.
  destruct (take_downcast ty index m) as [o m1] eqn:E. unfold take_downcast in E.
  case_in E; bool_to_prop; simplify_eq; try (split; [done|naive_solver]).
  assert (index < length (vec_data (resources m)))%nat by (eapply lookup_lt_Some; eauto).
  case_bool_decide.
  - split_and!; [done..|]. unfold restore_network_resource.
    rewrite set_slot_data, list_lookup_insert_eq by done. by rewrite set_slot_twice.
  - rewrite set_slot_twice, set_slot_id by done. naive_solver.
Qed.

End slots.

(** ** The buffer as a byte stream *)

Section stream.
Context `{VecAlloc}.

Definition write_all (chunks : list (list byte)) (m : DataMessage) : DataMessage :=
  foldl (fun m chunk => (write chunk m).2) m chunks.

(** Reads with buffers of the given sizes; [None] when one of them fails. *)
Fixpoint read_all (sizes : list nat) (m : DataMessage) : option (list byte) * DataMessage :=
  match sizes with
  | [] => (Some [], m)
  | n :: sizes =>
      match read n m with
      | (None, m') => (None, m')
      | (Some out, m') =>
          let '(rest, m'') := read_all sizes m' in
          (app out <$> rest, m'')
      end
  end.

Lemma write_all_buffer chunks m :
  vec_data (buffer (write_all chunks m)) = vec_data (buffer m) ++ concat chunks ∧
  read_ptr (write_all chunks m) = read_ptr m.
Proof.
  revert m. induction chunks as [|c chunks IH]; intros m.
  - split; [|done]. simpl. by rewrite app_nil_r.
  - destruct (IH (write c m).2) as [Hb Hp]. split; [|exact Hp].
    etrans; [exact Hb|]. simpl. by rewrite app_assoc.
Qed.

Lemma drop_length_take {A} n (d : list A) : drop (length (take n d)) d = drop n d.
Proof. rewrite <- (take_drop n d) at 2. apply drop_app_length. Qed.

Lemma read_all_spec sizes m :
  0 <= read_ptr m <= vec_len (buffer m) →
  let out := take (sum_list sizes) (drop (Z.to_nat (read_ptr m)) (vec_data (buffer m))) in
  read_all sizes m = (Some out, seek (read_ptr m + Z.of_nat (length out)) m).
Proof.
  revert m. induction sizes as [|n sizes IH]; intros m [Hlo Hhi]; simpl.
  { rewrite take_0; simpl. rewrite Z.add_0_r. by destruct m. }
  unfold read. rewrite (proj2 (Z.leb_le _ _)) by done.
  unfold vec_len in Hhi. set (l := vec_data (buffer m)) in *. set (p := read_ptr m) in *.
  set (d := drop (Z.to_nat p) l).
  assert (length d = length l - Z.to_nat p)%nat as Hd by apply length_drop.
  assert (length (take n d) <= length d)%nat by (rewrite length_take; lia).
  rewrite (IH (seek _ m)) by (unfold vec_len; simpl; fold l; lia).
  unfold seek; simpl; fold l. rewrite Z2Nat.inj_add, Nat2Z.id, <- drop_drop by lia.
  fold d. rewrite drop_length_take, take_take_drop. do 2 f_equal.
  rewrite <- (take_take_drop d n (sum_list sizes)), length_app. lia.
Qed.

(** The buffer is a byte stream: whatever chunks are written to a fresh
    message, reading it with buffers of any sizes that add up to at least the
    number of bytes written returns exactly the bytes written, in order, and no
    read fails. *)
Theorem write_read_roundtrip chunks sizes t cap :
  (length (concat chunks) <= sum_list sizes)%nat →
  (read_all sizes (write_all chunks (new t cap))).1 = Some (concat chunks).
Proof.
  intros Hsum. destruct (write_all_buffer chunks (new t cap)) as [Hb Hp]; simpl in *.
  rewrite read_all_spec; rewrite Hp; [|unfold vec_len; lia]; simpl.
  rewrite Hb, drop_0, take_ge by done. done.
Qed.
End stream.

Lemma write_read_roundtrip_witness :
  (@write_all vec_alloc_doubling [[x01; x02]; []; [x03]] (new (Some 4) 0)).(read_ptr) = 0 ∧
  (read_all [2; 2]%nat (@write_all vec_alloc_doubling [[x01; x02]; []; [x03]] (new (Some 4) 0))).1
    = Some [x01; x02; x03].
Proof.
  split; [reflexivity|].
  apply (@write_read_roundtrip vec_alloc_doubling [[x01; x02]; []; [x03]] [2; 2]%nat).
  simpl; lia.
Defined.
