(* ===== verification/Mailbox.v ===== *)
(** * [crates/lunatic-process/src/mailbox.rs]: the message mailbox

    A mailbox is a FIFO of admitted messages with selective receive.  Each
    message carries a permit of the admission semaphore; the permit is dropped
    when the message leaves the mailbox.  [pop] is a future: it runs a critical
    section ([pop_enter]) and then polls the mailbox ([poll]); a push that
    matches what is awaited parks the message in [found] and wakes the waiter.

    The record below is the cell all clones of one mailbox share, with the
    state of its semaphore; a critical section is one function on it. *)

From S2P Require Import Prelude External Message.

(** ** List operations of [VecDeque] and iterators *)

(** [VecDeque::insert], for an index within bounds. *)
Definition insert_at {A} (i : nat) (a : A) (l : list A) : list A :=
  take i l ++ a :: drop i l.

Definition DEFAULT_MESSAGE_MAILBOX_CAPACITY : Z := 1024.
Definition DEFAULT_MAX_MESSAGE_SIZE : Z := 1048576.
Definition DEFAULT_MAX_MESSAGE_RESOURCES : Z := 64.

(** ** Data *)

(** A permit names the semaphore it was taken from; [Arc::ptr_eq] on
    semaphores is equality of these names. *)
Record MailboxPermit : Type := mkPermit { permit_semaphore : Z }.

Record AdmittedMessage : Type := mkAdmitted {
  message : Message;
  permit : MailboxPermit;
}.

Record InnerMessageMailbox : Type := mkInner {
  waker : option Z;
  tags : option (list Z);
  found : option (nat * AdmittedMessage);
  messages : list AdmittedMessage;
}.

Definition inner_default : InnerMessageMailbox := mkInner None None None [].

Inductive MailboxPushErrorKind : Type :=
| KindMessageTooLarge | KindTooManyMessageResources | KindFull | KindForeignPermit.

Inductive MailboxPushError : Type :=
| MessageTooLarge (m : Message) (p : option MailboxPermit) (actual max : Z)
| TooManyMessageResources (m : Message) (p : option MailboxPermit) (actual max : Z)
| Full (m : Message)
| ForeignPermit (m : Message) (p : MailboxPermit).

Definition push_error_kind (e : MailboxPushError) : MailboxPushErrorKind :=
  match e with
  | MessageTooLarge _ _ _ _ => KindMessageTooLarge
  | TooManyMessageResources _ _ _ _ => KindTooManyMessageResources
  | Full _ => KindFull
  | ForeignPermit _ _ => KindForeignPermit
  end.

(** [MailboxPushError::into_message] and [into_parts]. *)
Definition push_error_into_message (e : MailboxPushError) : Message :=
  match e with
  | MessageTooLarge m _ _ _ | TooManyMessageResources m _ _ _ | Full m
  | ForeignPermit m _ => m
  end.

Definition push_error_into_parts (e : MailboxPushError) : Message * option MailboxPermit :=
  match e with
  | MessageTooLarge m p _ _ | TooManyMessageResources m p _ _ => (m, p)
  | Full m => (m, None)
  | ForeignPermit m p => (m, Some p)
  end.

Inductive MessageLimitViolation : Type :=
| ViolationBytes (actual max : Z)
| ViolationResources (actual max : Z).

(** [Poll<Message>]. *)
Inductive Poll : Type := Ready (m : Message) | Pending.

Record MessageMailboxSnapshot : Type := mkSnapshot {
  snapshot_admission : Z;
  snapshot_messages : list AdmittedMessage;
}.

Section mailbox.
Context {Sem : Type} `{!Semaphore Sem}.

Record MessageMailbox : Type := mkMailbox {
  inner : InnerMessageMailbox;
  (** Identity and state of [admission : Arc<Semaphore>]. *)
  admission_id : Z;
  admission : Sem;
  capacity : Z;
  max_message_bytes : Z;
  max_message_resources : Z;
}.

Definition with_inner (mb : MessageMailbox) (i : InnerMessageMailbox) : MessageMailbox :=
  mkMailbox i (admission_id mb) (admission mb) (capacity mb)
    (max_message_bytes mb) (max_message_resources mb).

Definition with_admission (mb : MessageMailbox) (s : Sem) : MessageMailbox :=
  mkMailbox (inner mb) (admission_id mb) s (capacity mb)
    (max_message_bytes mb) (max_message_resources mb).

(** ** Operations *)

(** [id] is the address the fresh semaphore is allocated at. *)
Definition with_limits (id cap max_bytes max_resources : Z) : MessageMailbox :=
  mkMailbox inner_default id (sem_new cap) cap max_bytes max_resources.

Definition mailbox_new (id cap : Z) : MessageMailbox :=
  with_limits id cap DEFAULT_MAX_MESSAGE_SIZE DEFAULT_MAX_MESSAGE_RESOURCES.

Definition available_capacity (mb : MessageMailbox) : Z := available_permits (admission mb).

Definition belongs_to (p : MailboxPermit) (mb : MessageMailbox) : bool :=
  permit_semaphore p =? admission_id mb.

Definition limit_violation (mb : MessageMailbox) (m : Message) : option MessageLimitViolation :=
  match m with
  | Data d =>
      let bytes := vec_capacity (buffer d) in
      if max_message_bytes mb <? bytes
      then Some (ViolationBytes bytes (max_message_bytes mb))
      else
        let resources := vec_capacity (resources d) in
        if max_message_resources mb <? resources
        then Some (ViolationResources resources (max_message_resources mb))
        else None
  | _ => None
  end.

Definition try_reserve (mb : MessageMailbox) : option (MailboxPermit * MessageMailbox) :=
  match try_acquire_owned (admission mb) with
  | Some s => Some (mkPermit (admission_id mb), with_admission mb s)
  | None => None
  end.

(** Dropping a permit returns it to the semaphore it names. *)
Definition drop_permit (p : MailboxPermit) (mb : MessageMailbox) : MessageMailbox :=
  if belongs_to p mb then with_admission mb (release_permit (admission mb)) else mb.

(** [AdmittedMessage::into_message]: the permit is dropped. *)
Definition into_message (a : AdmittedMessage) (mb : MessageMailbox) : Message * MessageMailbox :=
  (message a, drop_permit (permit a) mb).

(** The block that starts [pop], [pop_skip_search], [snapshot] and [restore]:
    a message found for a receive that was cancelled goes back to its place. *)
Definition requeue_found (i : InnerMessageMailbox) : InnerMessageMailbox :=
  match found i with
  | Some (index, a) =>
      let index := Nat.min index (length (messages i)) in
      mkInner (waker i) (tags i) None (insert_at index a (messages i))
  | None => i
  end.

Definition set_messages (i : InnerMessageMailbox) (l : list AdmittedMessage) :=
  mkInner (waker i) (tags i) (found i) l.
Definition set_tags (i : InnerMessageMailbox) (t : option (list Z)) :=
  mkInner (waker i) t (found i) (messages i).

(** The filter of [pop]: with tags, only a message that has one of them. *)
Definition matches (t : option (list Z)) (m : Message) : bool :=
  match t with
  | None => true
  | Some ts =>
      match message_tag m with
      | Some tag => bool_decide (tag ∈ ts)
      | None => false
      end
  end.

(** The critical section of [pop]: [Some m] is an immediate return, [None]
    continues with [self.await]. *)
Definition pop_enter (t : option (list Z)) (mb : MessageMailbox)
    : option Message * MessageMailbox :=
  let i := requeue_found (inner mb) in
  match t with
  | Some _ =>
      match position (fun a => matches t (message a)) (messages i) with
      | Some index =>
          match messages i !! index with
          | Some a =>
              let mb := with_inner mb (set_messages i (delete index (messages i))) in
              let '(m, mb) := into_message a mb in (Some m, mb)
          | None => (None, with_inner mb i)  (* "must exist" *)
          end
      | None => (None, with_inner mb (set_tags i t))
      end
  | None =>
      match messages i with
      | a :: l =>
          let mb := with_inner mb (set_messages i l) in
          let '(m, mb) := into_message a mb in (Some m, mb)
      | [] => (None, with_inner mb (set_tags i t))
      end
  end.

Definition pop_skip_search_enter (t : option (list Z)) (mb : MessageMailbox) : MessageMailbox :=
  with_inner mb (set_tags (requeue_found (inner mb)) t).

(** [impl Future for &MessageMailbox], polled with waker [w]. *)
Definition poll (w : Z) (mb : MessageMailbox) : Poll * MessageMailbox :=
  let i := inner mb in
  match found i with
  | Some (_, a) =>
      let mb := with_inner mb (mkInner (waker i) (tags i) None (messages i)) in
      let '(m, mb) := into_message a mb in (Ready m, mb)
  | None => (Pending, with_inner mb (mkInner (Some w) (tags i) None (messages i)))
  end.

(** The first poll of [pop(tags)] when nothing else touches the mailbox
    between its two critical sections; later polls are [poll]. *)
Definition pop (t : option (list Z)) (w : Z) (mb : MessageMailbox) : Poll * MessageMailbox :=
  match pop_enter t mb with
  | (Some m, mb) => (Ready m, mb)
  | (None, mb) => poll w mb
  end.

Definition pop_skip_search (t : option (list Z)) (w : Z) (mb : MessageMailbox)
    : Poll * MessageMailbox :=
  poll w (pop_skip_search_enter t mb).

(** [push_with_permit]; the last component is the wakers woken. *)
Definition push_with_permit (m : Message) (p : MailboxPermit) (mb : MessageMailbox)
    : result unit MailboxPushError * MessageMailbox * list Z :=
  if negb (belongs_to p mb) then (Err (ForeignPermit m p), mb, [])
  else
    match limit_violation mb m with
    | Some (ViolationBytes actual max) => (Err (MessageTooLarge m (Some p) actual max), mb, [])
    | Some (ViolationResources actual max) =>
        (Err (TooManyMessageResources m (Some p) actual max), mb, [])
    | None =>
        let a := mkAdmitted m p in
        let i := inner mb in
        match waker i with
        | Some w =>
            if matches (tags i) m then
              (Ok tt,
               with_inner mb
                 (mkInner None (tags i) (Some (length (messages i), a)) (messages i)),
               [w])
            else (Ok tt, with_inner mb (set_messages i (messages i ++ [a])), [])
        | None => (Ok tt, with_inner mb (set_messages i (messages i ++ [a])), [])
        end
    end.

Definition push (m : Message) (mb : MessageMailbox)
    : result unit MailboxPushError * MessageMailbox * list Z :=
  match limit_violation mb m with
  | Some (ViolationBytes actual max) => (Err (MessageTooLarge m None actual max), mb, [])
  | Some (ViolationResources actual max) =>
      (Err (TooManyMessageResources m None actual max), mb, [])
  | None =>
      match try_reserve mb with
      | Some (p, mb) => push_with_permit m p mb
      | None => (Err (Full m), mb, [])
      end
  end.

Definition mailbox_len (mb : MessageMailbox) : Z :=
  Z.of_nat (length (messages (inner mb))) +
  (if found (inner mb) is Some _ then 1 else 0).

Definition mailbox_is_empty (mb : MessageMailbox) : bool :=
  match messages (inner mb), found (inner mb) with
  | [], None => true
  | _, _ => false
  end.

Definition snapshot (mb : MessageMailbox) : MessageMailboxSnapshot * MessageMailbox :=
  let i := requeue_found (inner mb) in
  (mkSnapshot (admission_id mb) (messages i), with_inner mb (set_messages i [])).

(** [restore]; the error gives the snapshot back. *)
Definition restore (s : MessageMailboxSnapshot) (mb : MessageMailbox)
    : result unit MessageMailboxSnapshot * MessageMailbox :=
  if negb (admission_id mb =? snapshot_admission s) then (Err s, mb)
  else
    let i := requeue_found (inner mb) in
    (Ok tt, with_inner mb (mkInner (waker i) (tags i) None (snapshot_messages s ++ messages i))).

End mailbox.
Arguments MessageMailbox : clear implicits.

(** ** Lists *)

Section lists.
Context {A : Type}.
Implicit Types (l : list A) (f : A → bool).

Lemma length_insert_at i a l : (i <= length l)%nat → length (insert_at i a l) = S (length l).
Proof.
  intros. unfold insert_at. rewrite length_app; simpl. rewrite length_take, length_drop. lia.
Qed.

Lemma insert_at_length a l : insert_at (length l) a l = l ++ [a].
Proof. unfold insert_at. by rewrite take_ge, drop_ge by done. Qed.

Lemma insert_at_app i a l l' :
  (i <= length l)%nat → insert_at i a (l ++ l') = insert_at i a l ++ l'.
Proof.
  intros. unfold insert_at. rewrite take_app_le, drop_app_le by done. by rewrite <- app_assoc.
Qed.

Lemma insert_at_Permutation i a l : insert_at i a l ≡ₚ a :: l.
Proof. unfold insert_at. rewrite <- Permutation_middle. by rewrite take_drop. Qed.

Lemma fmap_insert_at {B} (g : A → B) i a l :
  g <$> insert_at i a l = insert_at i (g a) (g <$> l).
Proof. unfold insert_at. by rewrite fmap_app, fmap_take; simpl; rewrite fmap_drop. Qed.

Lemma delete_app_middle l1 a l2 : delete (length l1) (l1 ++ a :: l2) = l1 ++ l2.
Proof. induction l1 as [|b l1 IH]; csimpl; [done|]. by rewrite IH. Qed.
End lists.

(** ** The abstract mailbox: a queue with selective receive *)

Definition q_pop (t : option (list Z)) (q : list Message) : option (Message * list Message) :=
  i ← position (matches t) q; m ← q !! i; Some (m, delete i q).

Lemma q_pop_split t q1 m q2 :
  Forall (fun m => matches t m = false) q1 → matches t m = true →
  q_pop t (q1 ++ m :: q2) = Some (m, q1 ++ q2).
Proof.
  intros. unfold q_pop. rewrite position_split by done. simpl.
  by rewrite list_lookup_middle by done; simpl; rewrite delete_app_middle.
Qed.

Lemma q_pop_length t q m q' : q_pop t q = Some (m, q') → length q = S (length q').
Proof.
  unfold q_pop. intros (i & Hi & (m' & Hm & [= -> <-])%bind_Some)%bind_Some.
  apply lookup_lt_Some in Hm. rewrite length_delete by eauto using lookup_lt_is_Some_2. lia.
Qed.

Section theory.
Context {Sem : Type} `{!Semaphore Sem, !SemaphoreLaws Sem}.
Implicit Types (mb : MessageMailbox Sem) (t : option (list Z)) (m : Message).

(** What the mailbox holds, in arrival order: a found message counts at the
    position it arrived at. *)
Definition pending_admitted mb : list AdmittedMessage := messages (requeue_found (inner mb)).
Definition pending mb : list Message := message <$> pending_admitted mb.

(** At most one waiter is served at a time, the position of a found message is
    in range, and every permit belongs to the mailbox that holds it. *)
Record wf mb : Prop := {
  wf_found i a : found (inner mb) = Some (i, a) →
    (i <= length (messages (inner mb)))%nat ∧ waker (inner mb) = None;
  wf_permits : Forall (fun a => permit_semaphore (permit a) = admission_id mb)
    (pending_admitted mb);
}.

Lemma pending_with_admission mb s : pending (with_admission mb s) = pending mb.
Proof. done. Qed.

Lemma pending_drop_permit p mb : pending (drop_permit p mb) = pending mb.
Proof. unfold drop_permit. by case_match. Qed.

Lemma mailbox_len_pending mb : wf mb → mailbox_len mb = Z.of_nat (length (pending mb)).
Proof.
  intros Hwf. unfold mailbox_len, pending, pending_admitted, requeue_found.
  rewrite length_fmap. destruct (found (inner mb)) as [[i a]|] eqn:Hf; simpl; [|lia].
  rewrite length_insert_at by lia. lia.
Qed.

Lemma requeue_id i : found i = None → requeue_found i = i.
Proof. unfold requeue_found. by intros ->. Qed.

Lemma requeue_found_None i : found (requeue_found i) = None.
Proof. unfold requeue_found. by destruct (found i) as [[]|] eqn:?. Qed.

Lemma requeue_waker i : waker (requeue_found i) = waker i.
Proof. unfold requeue_found. by destruct (found i) as [[]|]. Qed.

(** A mailbox without a found message. *)
Lemma wf_no_found mb i :
  found i = None →
  Forall (fun a => permit_semaphore (permit a) = admission_id mb) (messages i) →
  wf (with_inner mb i).
Proof.
  intros Hf Hp. split; simpl; [by rewrite Hf|].
  unfold pending_admitted; simpl. by rewrite requeue_id.
Qed.

Lemma wf_with_admission mb s : wf (with_admission mb s) ↔ wf mb.
Proof. split; intros [H1 H2]; split; done. Qed.

Lemma wf_drop_permit p mb : wf mb → wf (drop_permit p mb).
Proof. unfold drop_permit. case_match; [|done]. by rewrite wf_with_admission. Qed.

(** ** Each critical section against the abstract queue *)

(** The configuration of a mailbox never changes. *)
Definition same_config mb mb' : Prop :=
  admission_id mb' = admission_id mb ∧ capacity mb' = capacity mb ∧
  max_message_bytes mb' = max_message_bytes mb ∧
  max_message_resources mb' = max_message_resources mb.

Lemma same_config_drop p mb mb' : same_config mb mb' → same_config mb (drop_permit p mb').
Proof. unfold drop_permit. by case_match. Qed.

Lemma limit_violation_config mb mb' m :
  same_config mb mb' → limit_violation mb' m = limit_violation mb m.
Proof. intros (_ & _ & Hb & Hr). unfold limit_violation. by rewrite Hb, Hr. Qed.

Lemma pending_with_inner mb i :
  found i = None → pending (with_inner mb i) = message <$> messages i.
Proof. intros Hf. unfold pending, pending_admitted; simpl. by rewrite requeue_id. Qed.

(** Removing an admitted message and dropping its permit. *)
Lemma remove_admitted mb i a l :
  found i = None → permit_semaphore (permit a) = admission_id mb →
  Forall (fun a => permit_semaphore (permit a) = admission_id mb) l →
  messages i = l →
  let mb' := drop_permit (permit a) (with_inner mb i) in
  wf mb' ∧ pending mb' = message <$> l ∧ same_config mb mb' ∧
  admission mb' = release_permit (admission mb) ∧ inner mb' = i.
Proof.
  intros Hf Ha Hl Hi mb'. subst l mb'. split_and!.
  - by apply wf_drop_permit, wf_no_found.
  - by rewrite pending_drop_permit, pending_with_inner.
  - by apply same_config_drop.
  - unfold drop_permit, belongs_to; simpl. by rewrite Ha, Z.eqb_refl.
  - unfold drop_permit. by case_match.
Qed.

Lemma pop_enter_refines t mb :
  wf mb →
  match pop_enter t mb with
  | (Some m, mb') => q_pop t (pending mb) = Some (m, pending mb') ∧ wf mb' ∧
      same_config mb mb' ∧ admission mb' = release_permit (admission mb)
  | (None, mb') => q_pop t (pending mb) = None ∧ pending mb' = pending mb ∧ wf mb' ∧
      same_config mb mb' ∧ admission mb' = admission mb ∧
      inner mb' = set_tags (requeue_found (inner mb)) t
  end.
Proof.
  intros [_ Hperm]. unfold pop_enter, pending, pending_admitted in *.
  set (i := requeue_found (inner mb)) in *.
  assert (found i = None) as Hf by apply requeue_found_None.
  unfold into_message. destruct t as [ts|].
  - destruct (position _ (messages i)) as [index|] eqn:Hpos.
    + apply position_Some in Hpos as (a & Ha & Hm & Hbefore). rewrite Ha.
      rewrite <- (take_drop_middle _ _ _ Ha) in Hperm.
      apply list.Forall_app in Hperm as [Hp1 [Hpa Hp2]%Forall_cons_iff].
      destruct (remove_admitted mb (set_messages i (delete index (messages i))) a
        (take index (messages i) ++ drop (S index) (messages i)) Hf Hpa)
        as (Hwf & Hpend & Hc & Hadm & Hin);
        [by apply list.Forall_app|by rewrite <- delete_take_drop|].
      split_and!; [|exact Hwf|exact Hc|exact Hadm].
      unfold pending, pending_admitted in Hpend; rewrite Hpend.
      rewrite <- (take_drop_middle _ _ _ Ha) at 1.
      rewrite fmap_app, fmap_cons, fmap_app. apply q_pop_split; [|done].
      by rewrite list.Forall_fmap.
    + apply position_None in Hpos. split_and!; [| |by apply wf_no_found|done..].
      * unfold q_pop. rewrite position_fmap. by rewrite (proj2 (position_None _ _)).
      * by apply (pending_with_inner mb (set_tags i (Some ts))).
  - destruct (messages i) as [|a l] eqn:Hl; simpl.
    + split_and!; [done| |apply wf_no_found; simpl; [done|by rewrite Hl]|done..].
      unfold pending_admitted; simpl. rewrite requeue_id by done. simpl. by rewrite Hl.
    + apply Forall_cons_iff in Hperm as [Hpa Hp].
      destruct (remove_admitted mb (set_messages i l) a l Hf Hpa Hp eq_refl)
        as (Hwf & Hpend & Hc & Hadm & Hin).
      split_and!; [|exact Hwf|exact Hc|exact Hadm].
      unfold pending, pending_admitted in Hpend; by rewrite Hpend.
Qed.

Lemma skip_search_refines t mb :
  wf mb →
  let mb' := pop_skip_search_enter t mb in
  pending mb' = pending mb ∧ wf mb' ∧ same_config mb mb' ∧ admission mb' = admission mb.
Proof.
  intros [_ Hperm]. unfold pop_skip_search_enter.
  assert (found (requeue_found (inner mb)) = None) as Hf by apply requeue_found_None.
  split_and!; [|by apply wf_no_found|done..]. by rewrite pending_with_inner.
Qed.

Lemma poll_refines w mb :
  wf mb →
  match poll w mb with
  | (Ready m, mb') => ∃ q1 q2, pending mb = q1 ++ m :: q2 ∧ pending mb' = q1 ++ q2 ∧
      wf mb' ∧ same_config mb mb' ∧ admission mb' = release_permit (admission mb)
  | (Pending, mb') => pending mb' = pending mb ∧ wf mb' ∧ same_config mb mb' ∧
      admission mb' = admission mb ∧ found (inner mb') = None ∧
      waker (inner mb') = Some w ∧ tags (inner mb') = tags (inner mb)
  end.
Proof.
  intros [Hfound Hperm]. unfold poll, pending, pending_admitted, requeue_found in *.
  destruct (found (inner mb)) as [[i a]|] eqn:Hf; simpl in *.
  - destruct (Hfound i a eq_refl) as [Hi Hw]. rewrite Nat.min_l in * by done.
    unfold insert_at in *. apply list.Forall_app in Hperm as [Hp1 Hp2].
    apply Forall_cons_iff in Hp2 as [Hpa Hp2].
    destruct (remove_admitted mb (mkInner (waker (inner mb)) (tags (inner mb)) None
        (messages (inner mb))) a (messages (inner mb)) eq_refl Hpa)
      as (Hwf & Hpend & Hc & Hadm & Hin);
      [by rewrite <- (take_drop i); apply list.Forall_app|done|].
    eexists _, _. rewrite fmap_app, fmap_cons.
    split_and!; [reflexivity| |exact Hwf|exact Hc|exact Hadm].
    etrans; [exact Hpend|]. rewrite <- fmap_app. f_equal. symmetry. apply take_drop.
  - split_and!; done.
Qed.

Lemma push_with_permit_refines m p mb :
  wf mb →
  match push_with_permit m p mb with
  | (Ok _, mb', ws) => pending mb' = pending mb ++ [m] ∧ wf mb' ∧ same_config mb mb' ∧
      admission mb' = admission mb ∧ limit_violation mb m = None ∧ belongs_to p mb = true
  | (Err e, mb', ws) => mb' = mb ∧ ws = [] ∧ push_error_into_parts e = (m, Some p) ∧
      (belongs_to p mb = false ∨ is_Some (limit_violation mb m))
  end.
Proof.
  intros [Hfound Hperm]. unfold push_with_permit.
  destruct (belongs_to p mb) eqn:Hb; simpl; [|by auto].
  destruct (limit_violation mb m) as [[]|] eqn:Hlim; simpl; [by eauto 6..|].
  apply Z.eqb_eq in Hb.
  assert (∀ l, Forall (fun a => permit_semaphore (permit a) = admission_id mb) l →
    Forall (fun a => permit_semaphore (permit a) = admission_id mb) (l ++ [mkAdmitted m p]))
    as Hsnoc by (intros; apply list.Forall_app; split; [done|by repeat constructor]).
  unfold pending, pending_admitted, requeue_found in *.
  destruct (waker (inner mb)) as [w|] eqn:Hw.
  - destruct (found (inner mb)) as [[i a]|] eqn:Hf; [by destruct (Hfound i a eq_refl)|].
    destruct (matches (tags (inner mb)) m); simpl; split_and!; try done.
    + rewrite Nat.min_l, insert_at_length by done. by rewrite fmap_app.
    + split; simpl; [naive_solver|]. unfold pending_admitted, requeue_found; simpl.
      rewrite Nat.min_l, insert_at_length by done. auto.
    + rewrite Hf. simpl. by rewrite fmap_app.
    + apply wf_no_found; simpl; auto.
  - simpl. destruct (found (inner mb)) as [[i a]|] eqn:Hf; simpl in *.
    + destruct (Hfound i a eq_refl) as [Hi _].
      rewrite Nat.min_l in Hperm by done. rewrite length_app; simpl.
      rewrite !Nat.min_l by lia. rewrite insert_at_app, fmap_app by done.
      split_and!; try done. split; simpl.
      * rewrite Hf. intros ? ? [= <- <-]. rewrite length_app. split; [lia|done].
      * unfold pending_admitted, requeue_found; simpl. rewrite Hf; simpl.
        rewrite length_app, Nat.min_l, insert_at_app by (simpl; lia). auto.
    + rewrite fmap_app. split_and!; try done. apply wf_no_found; simpl; auto.
Qed.

Lemma try_reserve_Some mb p mb' :
  try_reserve mb = Some (p, mb') →
  p = mkPermit (admission_id mb) ∧ inner mb' = inner mb ∧ same_config mb mb' ∧
  pending mb' = pending mb ∧ (wf mb → wf mb') ∧
  available_capacity mb = available_capacity mb' + 1.
Proof.
  unfold try_reserve, available_capacity. intros H. case_in H. simplify_eq/=.
  split_and!; try done; [by rewrite wf_with_admission|by apply try_acquire_Some].
Qed.

Lemma try_reserve_None mb : try_reserve mb = None ↔ available_capacity mb = 0.
Proof.
  unfold try_reserve, available_capacity. rewrite <- try_acquire_None. by case_match.
Qed.

Lemma push_refines m mb :
  wf mb →
  match push m mb with
  | (Ok _, mb', ws) => pending mb' = pending mb ++ [m] ∧ wf mb' ∧ same_config mb mb' ∧
      available_capacity mb = available_capacity mb' + 1 ∧ limit_violation mb m = None
  | (Err e, mb', ws) => mb' = mb ∧ ws = [] ∧ push_error_into_message e = m ∧
      (is_Some (limit_violation mb m) ∨ e = Full m ∧ available_capacity mb = 0)
  end.
Proof.
  intros Hwf. unfold push.
  destruct (limit_violation mb m) as [[]|] eqn:Hlim; simpl; [by eauto 6..|].
  destruct (try_reserve mb) as [[p mb1]|] eqn:Hres.
  - apply try_reserve_Some in Hres as (-> & Hin & Hcfg & Hpend & Hwf1 & Hav).
    pose proof (push_with_permit_refines m (mkPermit (admission_id mb)) mb1 (Hwf1 Hwf)) as Hp.
    rewrite (limit_violation_config mb mb1) in Hp by done.
    assert (belongs_to (mkPermit (admission_id mb)) mb1 = true) as Hb.
    { unfold belongs_to; simpl. destruct Hcfg as [-> _]. apply Z.eqb_refl. }
    rewrite Hb, Hlim in Hp. destruct (push_with_permit _ _ mb1) as [[[] mb'] ws].
    + destruct Hp as (Hq & Hwf' & Hcfg' & Hadm & _). rewrite Hq, Hpend.
      unfold same_config, available_capacity in *. rewrite Hadm. naive_solver congruence.
    + by destruct Hp as (_ & _ & _ & [?|[]]).
  - apply try_reserve_None in Hres. split_and!; auto.
Qed.

Lemma snapshot_refines mb :
  wf mb →
  let '(s, mb') := snapshot mb in
  snapshot_admission s = admission_id mb ∧ message <$> snapshot_messages s = pending mb ∧
  snapshot_messages s = pending_admitted mb ∧
  pending mb' = [] ∧ wf mb' ∧ same_config mb mb' ∧ admission mb' = admission mb.
Proof.
  intros [_ Hperm]. unfold snapshot.
  assert (found (requeue_found (inner mb)) = None) as Hf by apply requeue_found_None.
  split_and!; try done; [by rewrite pending_with_inner|].
  apply wf_no_found; [done|constructor].
Qed.

Lemma restore_refines s mb :
  wf mb →
  Forall (fun a => permit_semaphore (permit a) = snapshot_admission s) (snapshot_messages s) →
  match restore s mb with
  | (Ok _, mb') => admission_id mb = snapshot_admission s ∧
      pending mb' = (message <$> snapshot_messages s) ++ pending mb ∧ wf mb' ∧
      same_config mb mb' ∧ admission mb' = admission mb
  | (Err s', mb') => s' = s ∧ mb' = mb ∧ admission_id mb ≠ snapshot_admission s
  end.
Proof.
  intros [_ Hperm] Hs. unfold restore.
  destruct (admission_id mb =? snapshot_admission s) eqn:Hid; bool_to_prop; simpl; [|done].
  split_and!; try done.
  - rewrite pending_with_inner by done. simpl. by rewrite fmap_app.
  - apply wf_no_found; simpl; [done|]. rewrite Hid. rewrite Hid in Hperm.
    by apply list.Forall_app.
Qed.

Lemma pop_refines t w mb :
  wf mb →
  match pop t w mb with
  | (Ready m, mb') => q_pop t (pending mb) = Some (m, pending mb') ∧ wf mb' ∧
      same_config mb mb' ∧ admission mb' = release_permit (admission mb)
  | (Pending, mb') => q_pop t (pending mb) = None ∧ pending mb' = pending mb ∧ wf mb' ∧
      same_config mb mb' ∧ admission mb' = admission mb ∧
      found (inner mb') = None ∧ waker (inner mb') = Some w ∧ tags (inner mb') = t
  end.
Proof.
  intros Hwf. unfold pop. pose proof (pop_enter_refines t mb Hwf) as Hpop.
  destruct (pop_enter t mb) as [[m|] mb1]; [done|].
  destruct Hpop as (Hnone & Hpend & Hwf1 & Hcfg & Hadm & Hin).
  unfold poll. rewrite Hin. simpl. rewrite requeue_found_None. simpl.
  assert (messages (inner mb1) = messages (requeue_found (inner mb))) as Hm by by rewrite Hin.
  split_and!; try done.
  apply wf_no_found; [done|]. simpl. apply wf_permits in Hwf1.
  unfold pending_admitted in Hwf1. rewrite Hin, requeue_id in Hwf1; [done|].
  simpl. apply requeue_found_None.
Qed.

End theory.

(** ** A waiting receive *)

Section await.
Context {Sem : Type} `{!Semaphore Sem, !SemaphoreLaws Sem}.
Implicit Types (mb : MessageMailbox Sem).

(** What can happen to a mailbox while a receive waits on it: pushes, and polls
    of the waiting future that stay pending.  The state also has the waker of
    the last poll and whom the pushes since then have woken. *)
Record await_state : Type := mkAwait {
  await_box : MessageMailbox Sem;
  registered : Z;
  woken : list Z;
}.

Inductive await_step : await_state → await_state → Prop :=
| await_push s m r mb' ws :
    push m (await_box s) = (r, mb', ws) →
    await_step s (mkAwait mb' (registered s) (woken s ++ ws))
| await_push_with_permit s m p r mb' ws :
    push_with_permit m p (await_box s) = (r, mb', ws) →
    await_step s (mkAwait mb' (registered s) (woken s ++ ws))
| await_poll s w mb' :
    poll w (await_box s) = (Pending, mb') →
    await_step s (mkAwait mb' w []).

(** Either nothing that matches has arrived and the waker is in place, or the
    first match is parked in [found] and the waiter has been woken once. *)
Record awaiting (t : option (list Z)) (s : await_state) : Prop := {
  awaiting_wf : wf (await_box s);
  awaiting_tags : tags (inner (await_box s)) = t;
  awaiting_cases :
    (found (inner (await_box s)) = None ∧ waker (inner (await_box s)) = Some (registered s) ∧
     woken s = [] ∧
     Forall (fun a => matches t (message a) = false) (messages (inner (await_box s)))) ∨
    (∃ i a, found (inner (await_box s)) = Some (i, a) ∧ matches t (message a) = true ∧
     woken s = [registered s] ∧
     Forall (fun a => matches t (message a) = false)
       (take i (messages (inner (await_box s)))));
}.

Lemma awaiting_push_with_permit t s m p r mb' ws :
  awaiting t s → push_with_permit m p (await_box s) = (r, mb', ws) →
  awaiting t (mkAwait mb' (registered s) (woken s ++ ws)).
Proof.
  intros [Hwf Htags Hcases] Hpush.
  pose proof (push_with_permit_refines m p (await_box s) Hwf) as Hr. rewrite Hpush in Hr.
  destruct r as [[]|e].
  2: { destruct Hr as (-> & -> & _). rewrite app_nil_r. by split. }
  destruct Hr as (_ & Hwf' & _). unfold push_with_permit in Hpush.
  case_in Hpush; split; simpl; try done.
  all: destruct Hcases as [(Hf & Hw & Hwk & Hall)|(i & a & Hf & Ha & Hwk & Hall)];
    [| destruct (wf_found _ Hwf _ _ Hf) as [Hi Hwn]]; simplify_eq.
  - right. eexists _, _. rewrite Hwk, take_ge by done. simpl. split_and!; try done.
  - left. rewrite Hwk. split_and!; try done. apply list.Forall_app. split; [done|].
    by repeat constructor.
  - right. exists i, a. rewrite Hwk. split_and!; try done. by rewrite take_app_le.
Qed.

Lemma awaiting_with_admission t mb s w wk :
  awaiting t (mkAwait mb w wk) → awaiting t (mkAwait (with_admission mb s) w wk).
Proof. intros [Hwf Htags Hcases]. split; simpl in *; [by rewrite wf_with_admission|done|done]. Qed.

Lemma awaiting_push t s m r mb' ws :
  awaiting t s → push m (await_box s) = (r, mb', ws) →
  awaiting t (mkAwait mb' (registered s) (woken s ++ ws)).
Proof.
  intros Hs Hpush. pose proof (push_refines m (await_box s) (awaiting_wf _ _ Hs)) as Hr.
  rewrite Hpush in Hr. destruct r as [[]|e].
  2: { destruct Hr as (-> & -> & _). rewrite app_nil_r. by destruct s. }
  destruct Hr as (_ & _ & _ & _ & Hlim). unfold push in Hpush. rewrite Hlim in Hpush.
  destruct (try_reserve (await_box s)) as [[p mb1]|] eqn:Hres; [|done].
  apply (awaiting_push_with_permit t (mkAwait mb1 (registered s) (woken s)) m p (Ok tt));
    [|done].
  unfold try_reserve in Hres. case_match; simplify_eq.
  apply awaiting_with_admission. by destruct s.
Qed.

Lemma awaiting_poll t s w mb' :
  awaiting t s → poll w (await_box s) = (Pending, mb') → awaiting t (mkAwait mb' w []).
Proof.
  intros [Hwf Htags Hcases] Hpoll.
  pose proof (poll_refines w (await_box s) Hwf) as Hr. rewrite Hpoll in Hr.
  destruct Hr as (_ & Hwf' & _ & _ & _ & _ & Htags').
  unfold poll in Hpoll. split; simpl; [done|congruence|].
  destruct Hcases as [(Hf & _ & _ & Hall)|(i & a & Hf & _)]; rewrite Hf in Hpoll; [|done].
  simplify_eq/=. by left.
Qed.

Lemma awaiting_reachable t s s' : awaiting t s → rtc await_step s s' → awaiting t s'.
Proof.
  intros Hs. apply rtc_invariant; [|done]. intros s1 s2 H1 Hstep. destruct Hstep;
    eauto using awaiting_push, awaiting_push_with_permit, awaiting_poll.
Qed.

(** A pending [pop] starts a wait. *)
Lemma pop_awaiting t w mb mb' :
  wf mb → pop t w mb = (Pending, mb') → awaiting t (mkAwait mb' w []).
Proof.
  intros Hwf Hpop. pose proof (pop_refines t w mb Hwf) as Hr. rewrite Hpop in Hr.
  destruct Hr as (Hnone & Hpend & Hwf' & _ & _ & Hf & Hw & Ht).
  split; simpl; [done|done|]. left. split_and!; [done..|].
  assert (q_pop t (pending mb') = None) as HN by by rewrite Hpend.
  unfold q_pop, pending, pending_admitted in HN. rewrite requeue_id in HN by done.
  destruct (position _ _) as [i|] eqn:Hpos.
  - apply position_Some in Hpos as (m & Hm & _). simpl in HN. by rewrite Hm in HN.
  - apply position_None in Hpos. by rewrite list.Forall_fmap in Hpos.
Qed.

Lemma awaiting_poll_ready t s w :
  awaiting t s →
  match q_pop t (pending (await_box s)) with
  | Some (m, q) => woken s = [registered s] ∧
      ∃ mb', poll w (await_box s) = (Ready m, mb') ∧ pending mb' = q
  | None => woken s = [] ∧ ∃ mb', poll w (await_box s) = (Pending, mb') ∧
      pending mb' = pending (await_box s)
  end.
Proof.
  intros [Hwf Htags Hcases]. unfold poll, pending, pending_admitted at 1, requeue_found.
  destruct Hcases as [(Hf & Hw & Hwk & Hall)|(i & a & Hf & Ha & Hwk & Hall)]; rewrite Hf.
  - unfold q_pop. rewrite (proj2 (position_None _ _)) by by rewrite list.Forall_fmap. simpl.
    split; [done|]. eexists; split; [done|]. unfold pending_admitted, requeue_found; simpl.
    by rewrite Hf.
  - destruct (wf_found _ Hwf _ _ Hf) as [Hi _]. rewrite Nat.min_l by done.
    simpl. unfold insert_at. rewrite fmap_app, fmap_cons, q_pop_split;
      [|by rewrite list.Forall_fmap|done].
    split; [done|]. eexists; split; [done|]. rewrite <- fmap_app, take_drop.
    unfold drop_permit. case_match; done.
Qed.

(** A waiting selective receive is served in arrival order and never missed:
    once [pop] is pending, after any pushes and spurious polls, the next poll
    returns exactly the first pending message that matches the tags, if there
    is one, and the waker registered last has been woken exactly once in that
    case; otherwise the poll stays pending, nothing has been woken and no
    message is lost. *)
Theorem waiting_receive_correct t w w' mb mb' s :
  wf mb → pop t w mb = (Pending, mb') → rtc await_step (mkAwait mb' w []) s →
  match q_pop t (pending (await_box s)) with
  | Some (m, q) => woken s = [registered s] ∧
      ∃ mb'', poll w' (await_box s) = (Ready m, mb'') ∧ pending mb'' = q
  | None => woken s = [] ∧ ∃ mb'', poll w' (await_box s) = (Pending, mb'') ∧
      pending mb'' = pending (await_box s)
  end.
Proof.
  intros Hwf Hpop Hreach.
  apply awaiting_poll_ready, (awaiting_reachable _ _ _ (pop_awaiting _ _ _ _ Hwf Hpop) Hreach).
Qed.

(** C40. The two critical sections of [pop] leave a window.  In a mailbox that holds no message
    and no waker of an earlier receive, if a message arrives after [pop] has looked through the
    queue and before it polls, nobody is woken, the poll is pending, and as long as no other message
    arrives every later poll stays pending with the message still queued. *)
Theorem pop_window_misses_message t mb m p :
  wf mb → pending mb = [] → waker (inner mb) = None →
  belongs_to p mb = true → limit_violation mb m = None →
  ∃ mb1 mb2,
    pop_enter t mb = (None, mb1) ∧
    push_with_permit m p mb1 = (Ok tt, mb2, []) ∧
    pending mb2 = [m] ∧
    (∀ ws w, ∃ mb3, foldl (fun mb w => (poll w mb).2) mb2 ws = mb3 ∧
       (poll w mb3).1 = Pending ∧ pending mb3 = [m]).
Proof.
  intros Hwf Hempty Hwaker Hp Hlim. pose proof (pop_enter_refines t mb Hwf) as Hr.
  destruct (pop_enter t mb) as [[m'|] mb1].
  { rewrite Hempty in Hr. by destruct Hr as (? & _). }
  destruct Hr as (_ & Hpend1 & Hwf1 & Hcfg1 & _ & Hin1). rewrite Hempty in Hpend1.
  assert (found (inner mb1) = None) as Hf1 by (rewrite Hin1; apply requeue_found_None).
  assert (waker (inner mb1) = None) as Hw1 by (rewrite Hin1; simpl; by rewrite requeue_waker).
  assert (messages (inner mb1) = []) as Hm1.
  { unfold pending, pending_admitted in Hpend1. rewrite requeue_id in Hpend1 by done.
    by apply fmap_nil_inv in Hpend1. }
  exists mb1. eexists. split; [done|].
  assert (∀ ws mb2, found (inner mb2) = None → pending mb2 = [m] → ∀ w,
    let mb3 := foldl (fun mb w => (poll w mb).2) mb2 ws in
    (poll w mb3).1 = Pending ∧ pending mb3 = [m]) as Hpolls.
  { induction ws as [|w0 ws IH]; intros mb2 Hf Hq w; simpl.
    - unfold poll. by rewrite Hf.
    - apply IH; unfold poll; rewrite Hf; simpl; [done|].
      unfold pending, pending_admitted in *. by rewrite requeue_id in * by done. }
  unfold push_with_permit. rewrite (limit_violation_config mb mb1), Hlim by done.
  assert (belongs_to p mb1 = true) as -> by (unfold belongs_to in *; by destruct Hcfg1 as [-> _]).
  rewrite Hw1, Hm1. simpl. split_and!; [done| |].
  - unfold pending, pending_admitted. by rewrite requeue_id.
  - intros ws w. eexists. split; [done|]. apply Hpolls; simpl; [done|].
    unfold pending, pending_admitted. by rewrite requeue_id.
Qed.
End await.

(** ** The mailbox as a bounded queue: refinement of traces

    Messages are pushed; the owner receives with a future that it polls any number of times and
    may drop, and it hot-reloads: the future is dropped, a snapshot is taken, more messages
    arrive, and the snapshot is restored. *)

Inductive op : Type :=
| OpPush (m : Message)
| OpPop (t : option (list Z)) (w : Z)
| OpPoll (w : Z)
| OpCancel
| OpReload (ms : list Message).

Inductive out : Type :=
| OutPush (accepted woken : bool)
| OutPop (received : option Message)
| OutIdle
| OutReload (accepted : list bool).

(** *** The abstract machine: a queue of at most [cap] messages that accepts
    those [fits] accepts. *)
Section abstract.
Context (cap : Z) (fits : Message → bool).

Definition q_push (m : Message) (q : list Message) : bool * list Message :=
  if fits m && (Z.of_nat (length q) <? cap) then (true, q ++ [m]) else (false, q).

Fixpoint q_push_all (ms : list Message) (q : list Message) : list bool * list Message :=
  match ms with
  | [] => ([], q)
  | m :: ms =>
      let '(b, q) := q_push m q in
      let '(bs, q) := q_push_all ms q in (b :: bs, q)
  end.

Definition served (t : option (list Z)) (q : list Message) : bool := existsb (matches t) q.

(** The queue, and the tags of the receive that waits.  A receive returns the first message that
    matches, now or when it is polled; a push wakes it when its message is the first one that does. *)
Definition q_receive (t : option (list Z)) (q : list Message) : out * (list Message * option (option (list Z))) :=
  match q_pop t q with
  | Some (m, q) => (OutPop (Some m), (q, None))
  | None => (OutPop None, (q, Some t))
  end.

Definition q_step (o : op) (st : list Message * option (option (list Z))) : out * (list Message * option (option (list Z))) :=
  let '(q, wait) := st in
  match o with
  | OpPush m =>
      let '(b, q') := q_push m q in
      (OutPush b match wait with Some t => b && matches t m && negb (served t q) | None => false end, (q', wait))
  | OpPop t _ => q_receive t q
  | OpPoll _ => match wait with Some t => q_receive t q | None => (OutIdle, st) end
  | OpCancel => (OutIdle, (q, None))
  | OpReload ms => let '(bs, q) := q_push_all ms q in (OutReload bs, (q, None))
  end.

Fixpoint q_run (ops : list op) (st : list Message * option (option (list Z))) : list out :=
  match ops with
  | [] => []
  | o :: ops => let '(r, st) := q_step o st in r :: q_run ops st
  end.
End abstract.

Section trace.
Context {Sem : Type} `{!Semaphore Sem, !SemaphoreLaws Sem}.
Implicit Types (mb : MessageMailbox Sem).

Fixpoint push_all (ms : list Message) mb : list bool * MessageMailbox Sem :=
  match ms with
  | [] => ([], mb)
  | m :: ms =>
      let '(r, mb, _) := push m mb in
      let '(bs, mb) := push_all ms mb in (is_ok r :: bs, mb)
  end.

(** The future that waits is polled: [waits] holds its tags. *)
Definition mb_receive (t : option (list Z)) (r : Poll * MessageMailbox Sem) : out * (MessageMailbox Sem * option (option (list Z))) :=
  match r with
  | (Ready m, mb) => (OutPop (Some m), (mb, None))
  | (Pending, mb) => (OutPop None, (mb, Some t))
  end.

Definition mb_step (o : op) (st : MessageMailbox Sem * option (option (list Z)))
    : out * (MessageMailbox Sem * option (option (list Z))) :=
  let '(mb, wait) := st in
  match o with
  | OpPush m =>
      let '(r, mb, ws) := push m mb in
      (OutPush (is_ok r) match wait with Some _ => negb (bool_decide (ws = [])) | None => false end, (mb, wait))
  | OpPop t w => mb_receive t (pop t w mb)
  | OpPoll w => match wait with Some t => mb_receive t (poll w mb) | None => (OutIdle, st) end
  | OpCancel => (OutIdle, (mb, None))
  | OpReload ms =>
      let '(s, mb) := snapshot mb in
      let '(bs, mb) := push_all ms mb in
      let '(_, mb) := restore s mb in (OutReload bs, (mb, None))
  end.

Fixpoint mb_run (ops : list op) (st : MessageMailbox Sem * option (option (list Z))) : list out :=
  match ops with
  | [] => []
  | o :: ops => let '(r, st) := mb_step o st in r :: mb_run ops st
  end.

Definition mb_fits mb (m : Message) : bool :=
  match limit_violation mb m with None => true | Some _ => false end.

(** The simulation relation; [held] messages are in a snapshot. *)
Record sim (mb0 : MessageMailbox Sem) (held : list Message) (q : list Message) mb : Prop := {
  sim_wf : wf mb;
  sim_config : same_config mb0 mb;
  sim_pending : held ++ pending mb = q;
  sim_available : available_capacity mb = capacity mb0 - Z.of_nat (length q);
}.

Lemma same_config_trans mb1 mb2 mb3 :
  same_config mb1 mb2 → same_config mb2 mb3 → same_config mb1 mb3.
Proof. unfold same_config. naive_solver congruence. Qed.

Lemma sim_push mb0 held q mb m r mb' ws :
  sim mb0 held q mb → push m mb = (r, mb', ws) →
  let '(b, q') := q_push (capacity mb0) (mb_fits mb0) m q in
  is_ok r = b ∧ sim mb0 held q' mb'.
Proof.
  intros [Hwf Hcfg Hq Hav] Hpush. pose proof (push_refines m mb Hwf) as Hr.
  rewrite Hpush in Hr. unfold q_push, mb_fits.
  rewrite (limit_violation_config mb0 mb) in Hr by done.
  pose proof (available_nonneg (admission mb)) as Hnn. unfold available_capacity in *.
  destruct r as [[]|e].
  - destruct Hr as (Hp & Hwf' & Hcfg' & Hav' & Hlim). rewrite Hlim; simpl.
    pose proof (available_nonneg (admission mb')).
    rewrite (proj2 (Z.ltb_lt _ _)) by lia. split; [done|]. split; [done| | |].
    + by eapply same_config_trans.
    + rewrite Hp, app_assoc. by rewrite Hq.
    + unfold available_capacity. rewrite length_app; simpl. lia.
  - destruct Hr as (-> & -> & _ & [[v Hv]|[-> H0]]).
    + rewrite Hv. simpl. split; [done|]. by split.
    + rewrite (proj2 (Z.ltb_ge _ _)) by lia. rewrite andb_false_r. split; [done|]. by split.
Qed.

Lemma sim_push_all mb0 held ms q mb bs mb' :
  sim mb0 held q mb → push_all ms mb = (bs, mb') →
  let '(bs', q') := q_push_all (capacity mb0) (mb_fits mb0) ms q in
  bs = bs' ∧ sim mb0 held q' mb'.
Proof.
  revert q mb bs. induction ms as [|m ms IH]; intros q mb bs Hsim Hall; simplify_eq/=; [done|].
  destruct (push m mb) as [[r mb1] ws] eqn:Hpush.
  destruct (push_all ms mb1) as [bs1 mb2] eqn:Hall1. simplify_eq/=.
  pose proof (sim_push _ _ _ _ _ _ _ _ Hsim Hpush) as H1.
  destruct (q_push _ _ m q) as [b q1]. destruct H1 as [<- Hsim1].
  pose proof (IH _ _ _ Hsim1 Hall1) as H2. destruct (q_push_all _ _ ms q1). naive_solver.
Qed.

(** While a receive waits, [awaiting] holds. *)
Definition sim_wait (wait : option (option (list Z))) mb : Prop :=
  match wait with Some t => ∃ w wk, awaiting t (mkAwait mb w wk) | None => True end.

Lemma q_pop_served t q : served t q = match q_pop t q with Some _ => true | None => false end.
Proof.
  unfold served, q_pop. destruct (position (matches t) q) as [i|] eqn:Hp; simpl.
  - apply position_Some in Hp as (m & Hm & Ht & _). rewrite Hm. simpl. apply existsb_exists. exists m. split; [|done].
    apply list_elem_of_In. by eapply list_elem_of_lookup_2.
  - apply position_None in Hp. apply not_true_iff_false. rewrite existsb_exists. intros (m & Hm%list_elem_of_In & Ht).
    rewrite list.Forall_forall in Hp. specialize (Hp m Hm). congruence.
Qed.

Lemma awaiting_woken t mb w wk : awaiting t (mkAwait mb w wk) → wk = if served t (pending mb) then [w] else [].
Proof.
  intros Ha. pose proof (awaiting_poll_ready _ _ 0 Ha) as H1. rewrite q_pop_served. simpl in H1.
  destruct (q_pop t (pending mb)) as [[]|]; by destruct H1.
Qed.

Lemma sim_poll mb0 q mb t w :
  sim mb0 [] q mb → sim_wait (Some t) mb →
  let '(r, (mb', wait)) := mb_receive t (poll w mb) in
  let '(r', (q', wait')) := q_receive t q in
  r = r' ∧ wait = wait' ∧ sim mb0 [] q' mb' ∧ sim_wait wait' mb'.
Proof.
  intros [Hwf Hcfg Hq Hav] (w0 & wk & Ha). simpl in Hq. subst q. unfold mb_receive, q_receive.
  pose proof (awaiting_poll_ready _ _ w Ha) as Hp. pose proof (poll_refines w mb Hwf) as Hr. simpl in Hp.
  destruct (q_pop t (pending mb)) as [[m q']|] eqn:Hpop.
  - destruct Hp as (_ & mb' & Hpoll & <-). rewrite Hpoll in *. destruct Hr as (q1 & q2 & _ & _ & Hwf' & Hcfg' & Hadm).
    split_and!; try done. split; [done|by eapply same_config_trans|done|].
    unfold available_capacity in *. rewrite Hadm, available_release, Hav. apply q_pop_length in Hpop. lia.
  - destruct Hp as (_ & mb' & Hpoll & Hpend). rewrite Hpoll in *. destruct Hr as (_ & Hwf' & Hcfg' & Hadm & _).
    split_and!; try done.
    + split; [done|by eapply same_config_trans|done|]. unfold available_capacity in *. by rewrite Hadm.
    + exists w, []. by eapply (awaiting_poll _ (mkAwait mb w0 wk)).
Qed.

Lemma sim_pop mb0 q mb t w :
  sim mb0 [] q mb →
  let '(r, (mb', wait)) := mb_receive t (pop t w mb) in
  let '(r', (q', wait')) := q_receive t q in
  r = r' ∧ wait = wait' ∧ sim mb0 [] q' mb' ∧ sim_wait wait' mb'.
Proof.
  intros [Hwf Hcfg Hq Hav]. simpl in Hq. subst q. unfold mb_receive, q_receive.
  pose proof (pop_refines t w mb Hwf) as Hp. destruct (pop t w mb) as [[m|] mb'] eqn:Hpop.
  - destruct Hp as (Hq & Hwf' & Hcfg' & Hadm). rewrite Hq. split_and!; try done.
    split; [done|by eapply same_config_trans|done|].
    unfold available_capacity in *. rewrite Hadm, available_release, Hav. apply q_pop_length in Hq. lia.
  - destruct Hp as (-> & Hpend & Hwf' & Hcfg' & Hadm & _). split_and!; try done.
    + split; [done|by eapply same_config_trans|done|]. unfold available_capacity in *. by rewrite Hadm.
    + exists w, []. exact (pop_awaiting t w mb mb' Hwf Hpop).
Qed.

Lemma sim_reload mb0 q mb ms :
  sim mb0 [] q mb →
  let '(r, (mb', wait)) := mb_step (OpReload ms) (mb, None) in
  let '(bs, q') := q_push_all (capacity mb0) (mb_fits mb0) ms q in
  r = OutReload bs ∧ wait = None ∧ sim mb0 [] q' mb'.
Proof.
  intros [Hwf Hcfg Hq Hav]. simpl in Hq. subst q. unfold mb_step.
  pose proof (snapshot_refines mb Hwf) as Hs. destruct (snapshot mb) as [s mb1].
  destruct Hs as (Hsid & Hsm & Hsa & Hempty & Hwf1 & Hcfg1 & Hadm1).
  destruct (push_all ms mb1) as [bs mb2] eqn:Hall.
  assert (sim mb0 (pending mb) (pending mb) mb1) as Hsim1.
  { split; [done|by eapply same_config_trans|by rewrite Hempty, app_nil_r|].
    unfold available_capacity in *. by rewrite Hadm1. }
  pose proof (sim_push_all _ _ _ _ _ _ _ Hsim1 Hall) as H2.
  destruct (q_push_all _ _ ms _) as [bs' q']. destruct H2 as [<- [Hwf2 Hcfg2 Hq2 Hav2]].
  assert (admission_id mb2 = snapshot_admission s) as Hid
    by (unfold same_config in *; naive_solver congruence).
  pose proof (restore_refines s mb2 Hwf2) as Hr. rewrite Hsa in Hr.
  rewrite Hsid in Hr. specialize (Hr (wf_permits _ Hwf)).
  destruct (restore s mb2) as [[[]|] mb3]; [|naive_solver congruence].
  destruct Hr as (_ & Hpend & Hwf3 & Hcfg3 & Hadm3). split_and!; try done.
  split; [done|by eapply same_config_trans|by rewrite <- Hq2|].
  unfold available_capacity in *. by rewrite Hadm3.
Qed.

Lemma sim_push_wait mb0 q mb wait m :
  sim mb0 [] q mb → sim_wait wait mb →
  let '(r, (mb', w)) := mb_step (OpPush m) (mb, wait) in
  let '(r', (q', w')) := q_step (capacity mb0) (mb_fits mb0) (OpPush m) (q, wait) in
  r = r' ∧ w = w' ∧ sim mb0 [] q' mb' ∧ sim_wait w' mb'.
Proof.
  intros Hsim Hwait. unfold mb_step, q_step. destruct (push m mb) as [[r mb1] ws] eqn:Hpush.
  pose proof (sim_push _ _ _ _ _ _ _ _ Hsim Hpush) as H1. pose proof (sim_pending _ _ _ _ Hsim) as Hq.
  unfold q_push in *. set (b := mb_fits mb0 m && _) in *.
  assert (∃ q', (if b then (true, q ++ [m]) else (false, q)) = (b, q') ∧ is_ok r = b ∧ sim mb0 [] q' mb1 ∧ q' = if b then q ++ [m] else q)
    as (q' & -> & Hb & Hsim' & Hq').
  { destruct b; destruct H1; eauto. }
  destruct wait as [t|]; [|by rewrite Hb]. destruct Hwait as (w & wk & Ha).
  pose proof (awaiting_push _ _ _ _ _ _ Ha Hpush) as Ha'. simpl in Ha'.
  split_and!; [|done|done|by exists w, (wk ++ ws)]. rewrite Hb. f_equal.
  pose proof (awaiting_woken _ _ _ _ Ha) as Hwk. pose proof (awaiting_woken _ _ _ _ Ha') as Hwk'.
  pose proof (sim_pending _ _ _ _ Hsim') as Hp'. simpl in Hq, Hp'. rewrite Hq in Hwk. rewrite Hp', Hq' in Hwk'.
  assert (served t (q ++ [m]) = served t q || matches t m) as Hs.
  { unfold served. rewrite existsb_app. simpl. by rewrite orb_false_r. }
  destruct b; [rewrite Hs in Hwk'|]; subst wk; destruct (served t q); simpl in *;
    try (injection Hwk' as ->); try (rewrite Hwk'); rewrite ?andb_false_r, ?andb_true_r; try done; by destruct (matches t m).
Qed.

Lemma sim_step mb0 q mb wait o :
  sim mb0 [] q mb → sim_wait wait mb →
  let '(r, (mb', w)) := mb_step o (mb, wait) in
  let '(r', (q', w')) := q_step (capacity mb0) (mb_fits mb0) o (q, wait) in
  r = r' ∧ w = w' ∧ sim mb0 [] q' mb' ∧ sim_wait w' mb'.
Proof.
  intros Hsim Hwait. destruct o as [m|t w|w| |ms].
  - by apply sim_push_wait.
  - by apply sim_pop.
  - unfold mb_step, q_step. destruct wait as [t|]; [by apply sim_poll|done].
  - done.
  - pose proof (sim_reload _ _ _ ms Hsim) as Hr. unfold mb_step in *.
    destruct (snapshot mb) as [s mb1]. destruct (push_all ms mb1) as [bs mb2]. destruct (restore s mb2) as [r mb3].
    simpl. destruct (q_push_all _ _ ms q) as [bs' q']. by destruct Hr as (-> & _ & ?).
Qed.

Lemma sim_run mb0 ops q mb wait :
  sim mb0 [] q mb → sim_wait wait mb →
  mb_run ops (mb, wait) = q_run (capacity mb0) (mb_fits mb0) ops (q, wait).
Proof.
  revert q mb wait. induction ops as [|o ops IH]; intros q mb wait Hsim Hwait; cbn [mb_run q_run]; [done|].
  pose proof (sim_step mb0 q mb wait o Hsim Hwait) as Hs.
  destruct (mb_step o (mb, wait)) as [r [mb' w']], (q_step _ _ o (q, wait)) as [r' [q' w'']].
  destruct Hs as (-> & -> & ? & ?). f_equal. auto.
Qed.

Lemma with_limits_wf id cap bytes res : wf (with_limits id cap bytes res : MessageMailbox Sem).
Proof. split; simpl; [done|constructor]. Qed.


End trace.


(** The mailbox of the witnesses: empty, room for two messages. *)
Definition sample_mailbox : MessageMailbox nat := with_limits 7 2 1024 64.

Lemma waiting_receive_correct_witness :
  let s := mkAwait (mkMailbox
             (mkInner None (Some [5]) (Some (1%nat, mkAdmitted (LinkDied (Some 5)) (mkPermit 7)))
                [mkAdmitted (LinkDied None) (mkPermit 7)])
             7 0%nat 2 1024 64) 3 [3] in
  match q_pop (Some [5]) (pending (await_box s)) with
  | Some (m, q) => woken s = [registered s] ∧
      ∃ mb'', poll 4 (await_box s) = (Ready m, mb'') ∧ pending mb'' = q
  | None => woken s = [] ∧ ∃ mb'', poll 4 (await_box s) = (Pending, mb'') ∧
      pending mb'' = pending (await_box s)
  end.
Proof.
  intros s.
  apply (waiting_receive_correct (Some [5]) 3 4 sample_mailbox (pop (Some [5]) 3 sample_mailbox).2).
  - apply with_limits_wf.
  - vm_compute. reflexivity.
  - eapply rtc_l; [eapply (await_push _ (LinkDied None)); reflexivity|].
    eapply rtc_l; [eapply (await_push _ (LinkDied (Some 5))); reflexivity|].
    apply rtc_refl.
Defined.

Lemma pop_window_misses_message_witness :
  ∃ mb1 mb2,
    pop_enter None sample_mailbox = (None, mb1) ∧
    push_with_permit (ProcessDied 9 Failure) (mkPermit 7) mb1 = (Ok tt, mb2, []) ∧
    pending mb2 = [ProcessDied 9 Failure] ∧
    (∀ ws w, ∃ mb3, foldl (fun mb w => (poll w mb).2) mb2 ws = mb3 ∧
       (poll w mb3).1 = Pending ∧ pending mb3 = [ProcessDied 9 Failure]).
Proof.
  apply pop_window_misses_message; [apply with_limits_wf|vm_compute; reflexivity..].
Defined.

(** ** Admission: where the permits are *)

Section admission.
Context {Sem : Type} `{!Semaphore Sem, !SemaphoreLaws Sem}.

(** A mailbox with the reservations and the snapshots that are outside it:
    permits staged in the signal queue or in monitor relations, and snapshots a
    reload has taken. *)
Record sys : Type := mkSys {
  box : MessageMailbox Sem;
  staged : list MailboxPermit;
  snapshots : list MessageMailboxSnapshot;
}.

(** Every operation of the module, and every way an owner can drop what it
    holds. *)
Inductive sys_step : sys → sys → Prop :=
| step_push s m r mb' ws :
    push m (box s) = (r, mb', ws) →
    sys_step s (mkSys mb' (staged s) (snapshots s))
| step_reserve s p mb' :
    try_reserve (box s) = Some (p, mb') →
    sys_step s (mkSys mb' (p :: staged s) (snapshots s))
| step_push_staged mb l1 p l2 ss m mb' ws :
    push_with_permit m p mb = (Ok tt, mb', ws) →
    sys_step (mkSys mb (l1 ++ p :: l2) ss) (mkSys mb' (l1 ++ l2) ss)
| step_push_staged_err mb l1 p l2 ss m e m' p' mb' ws :
    push_with_permit m p mb = (Err e, mb', ws) →
    push_error_into_parts e = (m', Some p') →
    sys_step (mkSys mb (l1 ++ p :: l2) ss) (mkSys mb' (l1 ++ p' :: l2) ss)
| step_drop_staged mb l1 p l2 ss :
    sys_step (mkSys mb (l1 ++ p :: l2) ss) (mkSys (drop_permit p mb) (l1 ++ l2) ss)
| step_pop_enter s t o mb' :
    pop_enter t (box s) = (o, mb') →
    sys_step s (mkSys mb' (staged s) (snapshots s))
| step_pop_skip_search s t :
    sys_step s (mkSys (pop_skip_search_enter t (box s)) (staged s) (snapshots s))
| step_poll s w r mb' :
    poll w (box s) = (r, mb') →
    sys_step s (mkSys mb' (staged s) (snapshots s))
| step_snapshot s sn mb' :
    snapshot (box s) = (sn, mb') →
    sys_step s (mkSys mb' (staged s) (sn :: snapshots s))
| step_restore mb ps l1 sn l2 mb' :
    restore sn mb = (Ok tt, mb') →
    sys_step (mkSys mb ps (l1 ++ sn :: l2)) (mkSys mb' ps (l1 ++ l2))
| step_drop_snapshot mb ps l1 sn l2 :
    sys_step (mkSys mb ps (l1 ++ sn :: l2))
      (mkSys (foldr (fun a mb => drop_permit (permit a) mb) mb (snapshot_messages sn))
         ps (l1 ++ l2)).

Definition snapshot_count (ss : list MessageMailboxSnapshot) : nat :=
  sum_list ((fun sn => length (snapshot_messages sn)) <$> ss).

Definition snapshot_ok (mb : MessageMailbox Sem) (sn : MessageMailboxSnapshot) : Prop :=
  snapshot_admission sn = admission_id mb ∧
  Forall (fun a => permit_semaphore (permit a) = admission_id mb) (snapshot_messages sn).

(** Permits available, held by messages, staged and in snapshots add up to the
    capacity. *)
Record conserved (id cap : Z) (s : sys) : Prop := {
  cons_wf : wf (box s);
  cons_id : admission_id (box s) = id;
  cons_cap : capacity (box s) = cap;
  cons_staged : Forall (fun p => permit_semaphore p = id) (staged s);
  cons_snapshots : Forall (snapshot_ok (box s)) (snapshots s);
  cons_sum : available_capacity (box s) + Z.of_nat (length (pending (box s))) +
    Z.of_nat (length (staged s)) + Z.of_nat (snapshot_count (snapshots s)) = cap;
}.

Lemma snapshot_count_cons sn ss :
  snapshot_count (sn :: ss) = (length (snapshot_messages sn) + snapshot_count ss)%nat.
Proof. done. Qed.

Lemma snapshot_count_app ss1 ss2 :
  snapshot_count (ss1 ++ ss2) = (snapshot_count ss1 + snapshot_count ss2)%nat.
Proof.
  unfold snapshot_count. rewrite fmap_app.
  induction ss1 as [|sn ss1 IH]; csimpl; [done|]. rewrite IH. lia.
Qed.

Lemma available_drop_permit p mb :
  permit_semaphore p = admission_id mb →
  available_capacity (drop_permit p mb) = available_capacity mb + 1.
Proof.
  intros Hp. unfold drop_permit, belongs_to, available_capacity. rewrite Hp, Z.eqb_refl.
  apply available_release.
Qed.

Lemma drop_all_permits mb l :
  wf mb → Forall (fun a => permit_semaphore (permit a) = admission_id mb) l →
  let mb' := foldr (fun a mb => drop_permit (permit a) mb) mb l in
  wf mb' ∧ same_config mb mb' ∧ pending mb' = pending mb ∧
  available_capacity mb' = available_capacity mb + Z.of_nat (length l).
Proof.
  intros Hwf. induction 1 as [|a l Ha Hl IH]; cbn [foldr].
  { split_and!; try done. simpl; lia. }
  destruct IH as (Hwf' & Hcfg & Hpend & Hav). split_and!.
  - by apply wf_drop_permit.
  - by apply same_config_drop.
  - by rewrite pending_drop_permit.
  - rewrite available_drop_permit, Hav by (destruct Hcfg as [-> _]; done). simpl. lia.
Qed.

(** Rebuilding the invariant after a step that keeps the configuration. *)
Lemma conserved_intro id cap s s' :
  conserved id cap s → wf (box s') → same_config (box s) (box s') →
  Forall (fun p => permit_semaphore p = id) (staged s') →
  Forall (snapshot_ok (box s)) (snapshots s') →
  available_capacity (box s') + Z.of_nat (length (pending (box s'))) +
    Z.of_nat (length (staged s')) + Z.of_nat (snapshot_count (snapshots s')) =
  available_capacity (box s) + Z.of_nat (length (pending (box s))) +
    Z.of_nat (length (staged s)) + Z.of_nat (snapshot_count (snapshots s)) →
  conserved id cap s'.
Proof.
  intros [_ Hid Hcap _ _ Hsum] Hwf (Hid' & Hcap' & _) Hst Hsn Heq.
  split; [done|congruence|congruence|done| |lia].
  eapply list.Forall_impl; [exact Hsn|]. unfold snapshot_ok. by rewrite Hid'.
Qed.

(** Snapshots: taken, restored, dropped. *)
Lemma conserved_snapshot id cap s sn mb' :
  conserved id cap s → snapshot (box s) = (sn, mb') →
  conserved id cap (mkSys mb' (staged s) (sn :: snapshots s)).
Proof.
  intros Hc Hop. pose proof Hc as [Hwf Hid Hcap Hst Hsn Hsum].
  pose proof (snapshot_refines (box s) Hwf) as Hr. rewrite Hop in Hr.
  destruct Hr as (Hsid & Hsm & Hsa & Hempty & Hwf' & Hcfg & Hadm).
  eapply conserved_intro; eauto; simpl.
  - constructor; [|done]. split; [done|]. rewrite Hsa. apply wf_permits, Hwf.
  - unfold available_capacity. rewrite Hadm, Hempty. unfold pending.
    rewrite length_fmap, <- Hsa, snapshot_count_cons. simpl. lia.
Qed.

Lemma conserved_restore id cap mb ps l1 sn l2 mb' :
  conserved id cap (mkSys mb ps (l1 ++ sn :: l2)) → restore sn mb = (Ok tt, mb') →
  conserved id cap (mkSys mb' ps (l1 ++ l2)).
Proof.
  intros Hc Hop. pose proof Hc as [Hwf Hid Hcap Hst Hsn Hsum]. simpl in *.
  apply list.Forall_app in Hsn as [Hsn1 Hsn2]. apply Forall_cons_iff in Hsn2 as [[Hs1 Hs2] Hsn2].
  pose proof (restore_refines sn mb Hwf) as Hr. rewrite Hop, Hs1 in Hr.
  destruct (Hr Hs2) as (_ & Hpend & Hwf' & Hcfg & Hadm).
  eapply conserved_intro; eauto; simpl; [by apply list.Forall_app|].
  unfold available_capacity. rewrite Hadm, Hpend, length_app, length_fmap, !snapshot_count_app,
    snapshot_count_cons. lia.
Qed.

Lemma conserved_drop_snapshot id cap mb ps l1 sn l2 :
  conserved id cap (mkSys mb ps (l1 ++ sn :: l2)) →
  conserved id cap (mkSys (foldr (fun a mb => drop_permit (permit a) mb) mb (snapshot_messages sn))
                      ps (l1 ++ l2)).
Proof.
  intros Hc. pose proof Hc as [Hwf Hid Hcap Hst Hsn Hsum]. simpl in *.
  apply list.Forall_app in Hsn as [Hsn1 Hsn2]. apply Forall_cons_iff in Hsn2 as [[Hs1 Hs2] Hsn2].
  destruct (drop_all_permits mb (snapshot_messages sn) Hwf Hs2) as (Hwf' & Hcfg & Hpend & Hav).
  eapply conserved_intro; eauto; simpl; [by apply list.Forall_app|].
  rewrite Hpend, Hav, !snapshot_count_app, snapshot_count_cons. lia.
Qed.

Lemma conserved_step id cap s s' : conserved id cap s → sys_step s s' → conserved id cap s'.
Proof.
  intros Hc Hstep. pose proof Hc as [Hwf Hid Hcap Hst Hsn Hsum].
  destruct Hstep as [s m r mb' ws Hop|s p mb' Hop|mb l1 p l2 ss m mb' ws Hop
    |mb l1 p l2 ss m e m' p' mb' ws Hop Hparts|mb l1 p l2 ss|s t o mb' Hop|s t|s w r mb' Hop
    |s sn mb' Hop|mb ps l1 sn l2 mb' Hop|mb ps l1 sn l2]; simpl in *.
  - pose proof (push_refines m (box s) Hwf) as Hr. rewrite Hop in Hr. destruct r as [[]|e].
    + destruct Hr as (Hp & Hwf' & Hcfg & Hav & _). eapply conserved_intro; eauto; simpl.
      rewrite Hp, length_app. simpl. lia.
    + destruct Hr as (-> & _). by destruct s.
  - apply try_reserve_Some in Hop as (-> & _ & Hcfg & Hpend & Hwf' & Hav).
    eapply conserved_intro; eauto; simpl; [by constructor|]. rewrite Hpend. lia.
  - pose proof (push_with_permit_refines m p mb Hwf) as Hr. rewrite Hop in Hr.
    destruct Hr as (Hp & Hwf' & Hcfg & Hadm & _).
    apply list.Forall_app in Hst as [Hst1 Hst2]. apply Forall_cons_iff in Hst2 as [_ Hst2].
    eapply conserved_intro; eauto; simpl; [by apply list.Forall_app|].
    unfold available_capacity. rewrite Hadm, Hp, !length_app. simpl. lia.
  - pose proof (push_with_permit_refines m p mb Hwf) as Hr. rewrite Hop in Hr.
    destruct Hr as (-> & _ & Hparts' & _). rewrite Hparts' in Hparts. injection Hparts as <- <-. exact Hc.
  - apply list.Forall_app in Hst as [Hst1 Hst2]. apply Forall_cons_iff in Hst2 as [Hp Hst2].
    eapply conserved_intro; eauto; simpl.
    + by apply wf_drop_permit.
    + by apply same_config_drop.
    + by apply list.Forall_app.
    + rewrite available_drop_permit, pending_drop_permit, !length_app by congruence. simpl. lia.
  - pose proof (pop_enter_refines t (box s) Hwf) as Hr. rewrite Hop in Hr. destruct o as [m|].
    + destruct Hr as (Hpop & Hwf' & Hcfg & Hadm). apply q_pop_length in Hpop.
      eapply conserved_intro; eauto; simpl. unfold available_capacity.
      rewrite Hadm, available_release. lia.
    + destruct Hr as (_ & Hpend & Hwf' & Hcfg & Hadm & _). eapply conserved_intro; eauto; simpl.
      unfold available_capacity. by rewrite Hadm, Hpend.
  - destruct (skip_search_refines t (box s) Hwf) as (Hpend & Hwf' & Hcfg & Hadm).
    eapply conserved_intro; eauto; simpl. unfold available_capacity. by rewrite Hadm, Hpend.
  - pose proof (poll_refines w (box s) Hwf) as Hr. rewrite Hop in Hr. destruct r as [m|].
    + destruct Hr as (q1 & q2 & Hp & Hp' & Hwf' & Hcfg & Hadm).
      eapply conserved_intro; eauto; simpl. unfold available_capacity.
      rewrite Hadm, available_release, Hp, Hp', !length_app. simpl. lia.
    + destruct Hr as (Hpend & Hwf' & Hcfg & Hadm & _). eapply conserved_intro; eauto; simpl.
      unfold available_capacity. by rewrite Hadm, Hpend.
  - by apply conserved_snapshot.
  - by eapply conserved_restore.
  - by eapply conserved_drop_snapshot.
Qed.

(** Admission is exact: in every state reachable through the operations of
    the mailbox, in any interleaving with reservations, snapshots and drops, the
    permits still available, the messages held, the reservations staged outside
    and the messages in snapshots add up to the configured capacity; no slot
    leaks and the mailbox never holds more than its capacity. *)
Theorem mailbox_admission_exact id cap bytes res s :
  0 <= cap <= max_permits →
  rtc sys_step (mkSys (with_limits id cap bytes res) [] []) s →
  available_capacity (box s) + mailbox_len (box s) +
    Z.of_nat (length (staged s)) + Z.of_nat (snapshot_count (snapshots s)) = cap ∧
  0 <= mailbox_len (box s) <= cap.
Proof.
  intros Hcap Hreach.
  assert (conserved id cap s) as [Hwf _ _ _ _ Hsum].
  { eapply rtc_invariant; [intros a b; apply conserved_step| |exact Hreach].
    split; simpl; [apply with_limits_wf|done|done|constructor|constructor|].
    unfold available_capacity; simpl. rewrite available_new by done.
    unfold snapshot_count; simpl. lia. }
  rewrite (mailbox_len_pending _ Hwf).
  pose proof (available_nonneg (admission (box s))). unfold available_capacity in *. lia.
Qed.

End admission.

Lemma mailbox_admission_exact_witness :
  let s := mkSys (pop_enter None (push (LinkDied None) sample_mailbox).1.2).2 [] [] in
  available_capacity (box s) + mailbox_len (box s) +
    Z.of_nat (length (staged s)) + Z.of_nat (snapshot_count (snapshots s)) = 2 ∧
  0 <= mailbox_len (box s) <= 2.
Proof.
  apply (mailbox_admission_exact 7 2 1024 64); [done|].
  eapply rtc_l; [eapply (step_push _ (LinkDied None)); reflexivity|].
  eapply rtc_l; [eapply (step_pop_enter _ None); reflexivity|]. apply rtc_refl.
Defined.
