(* ===== verification/Signal.v ===== *)
(** * Signals and their bounded ingress: [crates/lunatic-process/src/state.rs]
      (with the [Signal] and [Process] types of [lib.rs])

    Every process has an ingress: a bounded channel of signal envelopes, a kill
    latch, a terminal reason that is set once, admission semaphores, and the
    message mailbox the signals end in.  The processes of a node are a map from
    addresses to these cells, because a send to one process can reserve space
    in the mailbox of another (the observer of a monitor).

    A permit is released when its owner is dropped, so every early return of
    [send_inner] drops the permits acquired before it; [drop_envelope] and its
    parts are those destructors. *)

From S2P Require Import Prelude External Message Mailbox.

(** ** Signals *)

(** [Arc<dyn Process>]: a built-in process (its identity and the address of its
    ingress), or an implementation of the trait outside the runtime, which keeps
    the defaults of the trait. *)
Inductive ProcessRef : Type :=
| Builtin (id addr : Z)
| Custom (id : Z).

Definition ref_id (r : ProcessRef) : Z :=
  match r with Builtin id _ | Custom id => id end.

(** Acknowledgement channels are names. *)
Inductive Signal : Type :=
| SMessage (m : Message)
| DieWhenLinkDies (flag : bool)
| Link (tag : option Z) (process : ProcessRef)
| UnLink (process_id : Z)
| SLinkDied (process_id : Z) (tag : option Z) (reason : DeathReason)
| Monitor (process : ProcessRef) (acknowledgement : option Z)
| StopMonitoring (process_id : Z)
| SProcessDied (process_id : Z) (reason : DeathReason)
| Kill
| HotReload (module_id : Z) (expected_version : option Z) (new_version : Z)
    (acknowledgement : option Z)
| Rollback (module_id : Z) (expected_version : option Z) (target_version : Z)
    (acknowledgement : option Z).

Definition is_monitor (s : Signal) : bool := if s is Monitor _ _ then true else false.

Inductive SignalSendErrorKind : Type :=
| KindMessageTooLarge | KindTooManyMessageResources | KindMailboxFull | KindQueueFull | KindClosed.

Inductive SignalSendError : Type :=
| MessageTooLarge (s : Signal) (actual max : Z)
| TooManyMessageResources (s : Signal) (actual max : Z)
| MailboxFull (s : Signal)
| QueueFull (s : Signal)
| Closed (s : Signal).

Definition send_error_kind (e : SignalSendError) : SignalSendErrorKind :=
  match e with
  | MessageTooLarge _ _ _ => KindMessageTooLarge
  | TooManyMessageResources _ _ _ => KindTooManyMessageResources
  | MailboxFull _ => KindMailboxFull
  | QueueFull _ => KindQueueFull
  | Closed _ => KindClosed
  end.

(** [SignalSendError::signal] and [into_signal]. *)
Definition into_signal (e : SignalSendError) : Signal :=
  match e with
  | MessageTooLarge s _ _ | TooManyMessageResources s _ _ | MailboxFull s | QueueFull s
  | Closed s => s
  end.

Inductive MonitorNotificationError : Type := NotificationMailboxFull | NotificationClosed.

Definition reserves_mailbox_capacity (s : Signal) : bool :=
  match s with
  | SMessage _ | SProcessDied _ _ => true
  | SLinkDied _ _ (Failure | NoProcess) => true
  | _ => false
  end.

(** A mailbox slot of the observer at [mn_addr], held by a monitor relation. *)
Record MonitorNotification : Type := mkNotification {
  mn_addr : Z;
  mn_permit : MailboxPermit;
}.

Record SignalEnvelope : Type := mkEnvelope {
  signal : Signal;
  mailbox_permit : option MailboxPermit;
  data_queue_permit : bool;
  monitor_permit : bool;
  monitor_notification : option MonitorNotification;
}.

(** [SignalEnvelope::control] *)
Definition control (s : Signal) : SignalEnvelope := mkEnvelope s None false false None.

Definition has_mailbox_permit (e : SignalEnvelope) : bool := bool_decide (is_Some (mailbox_permit e)).

(** [into_process_parts]: the signal and the permits that outlive the
    envelope. *)
Definition into_process_parts (e : SignalEnvelope)
    : Signal * option MailboxPermit * bool * option MonitorNotification :=
  (signal e, mailbox_permit e, monitor_permit e, monitor_notification e).

(** ** The process registry of the local API

    [ensure_registry_insert_capacity]; names are sequences of code points. *)

Definition MAX_REGISTRY_ENTRIES : Z := 100000.
Definition MAX_REGISTRY_NAME_BYTES : Z := 1024.

Inductive RegistryInsertError : Type := ControlCharacter | NameTooLong | RegistryFull.

Definition ensure_registry_insert_capacity_with_limit (registry : gmap (list Z) (Z * Z))
    (name : list Z) (max_entries : Z) : result unit RegistryInsertError :=
  if existsb is_control name then Err ControlCharacter
  else if MAX_REGISTRY_NAME_BYTES <? name_len name then Err NameTooLong
  else if bool_decide (is_Some (registry !! name)) || (Z.of_nat (size registry) <? max_entries)
  then Ok tt else Err RegistryFull.

Definition ensure_registry_insert_capacity (registry : gmap (list Z) (Z * Z)) (name : list Z)
    : result unit RegistryInsertError :=
  ensure_registry_insert_capacity_with_limit registry name MAX_REGISTRY_ENTRIES.

(** ** The ingress of a process *)

(** What an operation does outside the runtime's own state: wake a task, answer
    an acknowledgement channel, call a foreign process. *)
Inductive event : Type :=
| EWake (waker : Z)
| EAck (acknowledgement : Z)
| ECustom (id : Z) (s : Signal).

Section ingress.
Context {Sem : Type} `{!Semaphore Sem} {Chan : Type → Type} `{!Channel Chan}.

(** [SignalSender] and [SignalReceiver] of one process: the cells they share. *)
Record Ingress : Type := mkIngress {
  queue : Chan SignalEnvelope;
  kill_requested : bool;
  (** The permit a [Notify] stores when nobody waits. *)
  kill_notified : bool;
  lifecycle_death_reason : option DeathReason;
  data_admission : Sem;
  monitor_admission : Sem;
  message_mailbox : MessageMailbox Sem;
  queue_capacity : Z;
  sender_max_message_bytes : Z;
  sender_max_message_resources : Z;
}.

Definition set_queue (q : Chan SignalEnvelope) (p : Ingress) : Ingress :=
  mkIngress q (kill_requested p) (kill_notified p) (lifecycle_death_reason p) (data_admission p)
    (monitor_admission p) (message_mailbox p) (queue_capacity p) (sender_max_message_bytes p)
    (sender_max_message_resources p).
Definition set_kill (requested notified : bool) (p : Ingress) : Ingress :=
  mkIngress (queue p) requested notified (lifecycle_death_reason p) (data_admission p)
    (monitor_admission p) (message_mailbox p) (queue_capacity p) (sender_max_message_bytes p)
    (sender_max_message_resources p).
Definition set_death (r : option DeathReason) (p : Ingress) : Ingress :=
  mkIngress (queue p) (kill_requested p) (kill_notified p) r (data_admission p)
    (monitor_admission p) (message_mailbox p) (queue_capacity p) (sender_max_message_bytes p)
    (sender_max_message_resources p).
Definition set_data_admission (s : Sem) (p : Ingress) : Ingress :=
  mkIngress (queue p) (kill_requested p) (kill_notified p) (lifecycle_death_reason p) s
    (monitor_admission p) (message_mailbox p) (queue_capacity p) (sender_max_message_bytes p)
    (sender_max_message_resources p).
Definition set_monitor_admission (s : Sem) (p : Ingress) : Ingress :=
  mkIngress (queue p) (kill_requested p) (kill_notified p) (lifecycle_death_reason p)
    (data_admission p) s (message_mailbox p) (queue_capacity p) (sender_max_message_bytes p)
    (sender_max_message_resources p).
Definition set_mailbox (mb : MessageMailbox Sem) (p : Ingress) : Ingress :=
  mkIngress (queue p) (kill_requested p) (kill_notified p) (lifecycle_death_reason p)
    (data_admission p) (monitor_admission p) mb (queue_capacity p) (sender_max_message_bytes p)
    (sender_max_message_resources p).

(** [signal_mailbox_with_limits]; [None] is the assertion on the capacity. *)
Definition signal_mailbox_with_limits (signal_capacity : Z) (mb : MessageMailbox Sem)
    (max_bytes max_resources : Z) : option Ingress :=
  if signal_capacity <=? 0 then None
  else
    let data_capacity := Z.max (Z.max 0 (signal_capacity - 1)) 1 in
    Some (mkIngress (channel signal_capacity) false false None (sem_new data_capacity)
            (sem_new signal_capacity) mb signal_capacity max_bytes max_resources).

Definition signal_mailbox (signal_capacity : Z) (mb : MessageMailbox Sem) : option Ingress :=
  signal_mailbox_with_limits signal_capacity mb DEFAULT_MAX_MESSAGE_SIZE
    DEFAULT_MAX_MESSAGE_RESOURCES.

(** [mailboxes_with_limits]: the mailbox's semaphore is allocated at [id]. *)
Definition mailboxes_with_limits (id signal_capacity message_capacity max_bytes max_resources : Z)
    : option Ingress :=
  signal_mailbox_with_limits signal_capacity
    (with_limits id message_capacity max_bytes max_resources) max_bytes max_resources.
End ingress.
Arguments Ingress : clear implicits.

(** ** Sending *)

Section sending.
Context {Sem : Type} `{!Semaphore Sem} {Chan : Type → Type} `{!Channel Chan}.

(** The ingresses of a node, by address. *)
Abbreviation World := (gmap Z (Ingress Sem Chan)).
Implicit Types (w : gmap Z (Ingress Sem Chan)) (p : Ingress Sem Chan).

(** *** Destructors of permits *)

Definition drop_mailbox_permit (a : Z) (o : option MailboxPermit) w : World :=
  match o with
  | Some q => alter (fun p => set_mailbox (drop_permit q (message_mailbox p)) p) a w
  | None => w
  end.

Definition drop_data_permit (a : Z) (held : bool) w : World :=
  if held then alter (fun p => set_data_admission (release_permit (data_admission p)) p) a w else w.

Definition drop_monitor_permit (a : Z) (held : bool) w : World :=
  if held
  then alter (fun p => set_monitor_admission (release_permit (monitor_admission p)) p) a w else w.

Definition drop_notification (o : option MonitorNotification) w : World :=
  match o with
  | Some n => drop_mailbox_permit (mn_addr n) (Some (mn_permit n)) w
  | None => w
  end.

(** Dropping an envelope of the ingress at [a]. *)
Definition drop_envelope (a : Z) (e : SignalEnvelope) w : World :=
  drop_notification (monitor_notification e)
    (drop_monitor_permit a (monitor_permit e)
       (drop_data_permit a (data_queue_permit e)
          (drop_mailbox_permit a (mailbox_permit e) w))).

(** *** Monitor notifications *)

(** [Process::reserve_monitor_notification] *)
Definition reserve_monitor_notification (r : ProcessRef) w
    : result (option MonitorNotification) MonitorNotificationError * World :=
  match r with
  | Custom _ => (Ok None, w)
  | Builtin _ a =>
      match w !! a with
      | None => (Err NotificationClosed, w)  (* a handle keeps its ingress alive *)
      | Some p =>
          if chan_is_closed (queue p) then (Err NotificationClosed, w)
          else
            match try_reserve (message_mailbox p) with
            | None => (Err NotificationMailboxFull, w)
            | Some (q, mb) =>
                (Ok (Some (mkNotification a q)), <[a := set_mailbox mb p]> w)
            end
      end
  end.

(** [MonitorNotification::deliver]; a failed push drops the permit it gives
    back. *)
Definition deliver (n : MonitorNotification) (process_id : Z) (reason : DeathReason) w
    : World * list event :=
  match w !! mn_addr n with
  | None => (w, [])
  | Some p =>
      let '(r, mb, wakers) :=
        push_with_permit (ProcessDied process_id reason) (mn_permit n) (message_mailbox p) in
      let w := <[mn_addr n := set_mailbox mb p]> w in
      match r with
      | Ok _ => (w, EWake <$> wakers)
      | Err e => (drop_mailbox_permit (mn_addr n) (push_error_into_parts e).2 w, [])
      end
  end.

Definition acknowledge (ack : option Z) : list event :=
  match ack with Some a => [EAck a] | None => [] end.

Definition SendResult : Type := result unit SignalSendError * World * list event.

(** [complete_exited_monitor]; [send] is [Process::send] of the observer. *)
Definition complete_exited_monitor (send : ProcessRef → Signal → World → SendResult)
    (observer : ProcessRef) (ack : option Z) (notification : option MonitorNotification)
    (process_id : Z) (reason : DeathReason) w : World * list event :=
  let '(w, evs) :=
    match notification with
    | Some n => deliver n process_id reason w
    | None =>
        let '(_, w, evs) := send observer (SProcessDied process_id reason) w in (w, evs)
    end in
  (w, evs ++ acknowledge ack).

(** [SignalEnvelope::complete_monitor_after_exit], for an envelope the closed
    channel at [a] gave back. *)
Definition complete_envelope_after_exit (send : ProcessRef → Signal → World → SendResult)
    (a : Z) (e : SignalEnvelope) (process_id : Z) (reason : DeathReason) w : SendResult :=
  match signal e with
  | Monitor observer ack =>
      let w := drop_envelope a (mkEnvelope (signal e) (mailbox_permit e) (data_queue_permit e)
                                  (monitor_permit e) None) w in
      let '(w, evs) :=
        complete_exited_monitor send observer ack (monitor_notification e) process_id reason w in
      (Ok tt, w, evs)
  | s => (Err (Closed s), drop_envelope a e w, [])
  end.

(** [SignalSender::complete_monitor_after_exit] *)
Definition complete_monitor_after_exit (send : ProcessRef → Signal → World → SendResult)
    (process_id : Z) (reason : DeathReason) (s : Signal) w : SendResult :=
  match s with
  | Monitor observer ack =>
      match reserve_monitor_notification observer w with
      | (Ok notification, w) =>
          let '(w, evs) :=
            complete_exited_monitor send observer ack notification process_id reason w in
          (Ok tt, w, evs)
      | (Err NotificationMailboxFull, w) => (Err (MailboxFull s), w, [])
      | (Err NotificationClosed, w) => (Err (Closed s), w, [])
      end
  | s => (Err (Closed s), w, [])
  end.

(** *** [SignalSender::send_inner] *)

(** The limits on a data message. *)
Definition sender_limit (s : Signal) p : option SignalSendError :=
  match s with
  | SMessage (Data d) =>
      let bytes := vec_capacity (buffer d) in
      if sender_max_message_bytes p <? bytes
      then Some (MessageTooLarge s bytes (sender_max_message_bytes p))
      else
        let resources := vec_capacity (resources d) in
        if sender_max_message_resources p <? resources
        then Some (TooManyMessageResources s resources (sender_max_message_resources p))
        else None
  | _ => None
  end.

(** The admissions between the limits and the queue, each with the permits to
    drop when it fails: the envelope, or the error. *)
Definition acquire_permits (a : Z) (s : Signal) p w : result SignalEnvelope SignalSendError * World :=
  (* mailbox_permit *)
  let r :=
    if reserves_mailbox_capacity s then
      match try_reserve (message_mailbox p) with
      | Some (q, mb) => Ok (Some q, set_mailbox mb p)
      | None => Err (MailboxFull s)
      end
    else Ok (None, p) in
  match r with
  | Err e => (Err e, w)
  | Ok (mp, p) =>
      (* data_queue_permit *)
      let r :=
        match mp with
        | Some _ =>
            match try_acquire_owned (data_admission p) with
            | Some sem => Ok (true, set_data_admission sem p)
            | None => Err (QueueFull s)
            end
        | None => Ok (false, p)
        end in
      match r with
      | Err e => (Err e, drop_mailbox_permit a mp (<[a := p]> w))
      | Ok (dp, p) =>
          (* monitor_permit *)
          let r :=
            if is_monitor s then
              match try_acquire_owned (monitor_admission p) with
              | Some sem => Ok (true, set_monitor_admission sem p)
              | None => Err (QueueFull s)
              end
            else Ok (false, p) in
          match r with
          | Err e => (Err e, drop_data_permit a dp (drop_mailbox_permit a mp (<[a := p]> w)))
          | Ok (mop, p) =>
              let w := <[a := p]> w in
              (* monitor_notification *)
              match s with
              | Monitor observer _ =>
                  match reserve_monitor_notification observer w with
                  | (Ok n, w) => (Ok (mkEnvelope s mp dp mop n), w)
                  | (Err NotificationMailboxFull, w) =>
                      (Err (MailboxFull s), drop_envelope a (mkEnvelope s mp dp mop None) w)
                  | (Err NotificationClosed, w) =>
                      (Err (Closed s), drop_envelope a (mkEnvelope s mp dp mop None) w)
                  end
              | _ => (Ok (mkEnvelope s mp dp mop None), w)
              end
          end
      end
  end.

(** [self.sender.try_send(envelope)] and its error handling. *)
Definition enqueue (send : ProcessRef → Signal → World → SendResult)
    (a : Z) (e : SignalEnvelope) (target : option Z) w : SendResult :=
  match w !! a with
  | None => (Err (Closed (signal e)), drop_envelope a e w, [])
  | Some p =>
      match try_send e (queue p) with
      | Ok q => (Ok tt, <[a := set_queue q p]> w, [])
      | Err (ChanFull e) => (Err (QueueFull (signal e)), drop_envelope a e w, [])
      | Err (ChanClosed e) =>
          match target with
          | Some process_id =>
              complete_envelope_after_exit send a e process_id
                (default NoProcess (lifecycle_death_reason p)) w
          | None => (Err (Closed (signal e)), drop_envelope a e w, [])
          end
      end
  end.

Definition send_inner_with (send : ProcessRef → Signal → World → SendResult)
    (a : Z) (s : Signal) (target : option Z) w : SendResult :=
  match s with
  | Link _ _ | UnLink _ => (Err (Closed s), w, [])
  | _ =>
      match w !! a with
      | None => (Err (Closed s), w, [])  (* a sender keeps its ingress alive *)
      | Some p =>
          match target, lifecycle_death_reason p with
          | Some process_id, Some reason => complete_monitor_after_exit send process_id reason s w
          | _, _ =>
              if chan_is_closed (queue p) then
                match target with
                | Some process_id =>
                    complete_monitor_after_exit send process_id
                      (default NoProcess (lifecycle_death_reason p)) s w
                | None => (Err (Closed s), w, [])
                end
              else
                match s with
                | Kill => (Ok tt, <[a := set_kill true true p]> w, [])
                | _ =>
                    match sender_limit s p with
                    | Some e => (Err e, w, [])
                    | None =>
                        match acquire_permits a s p w with
                        | (Err e, w) => (Err e, w, [])
                        | (Ok e, w) => enqueue send a e target w
                        end
                    end
                end
          end
      end
  end.

(** [Process::send] of a built-in process targets its own identity; a foreign
    process is called. *)
Definition process_send (inner : Z → Signal → option Z → World → SendResult)
    (r : ProcessRef) (s : Signal) w : SendResult :=
  match r with
  | Builtin id a => inner a s (Some id) w
  | Custom id => (Ok tt, w, [ECustom id s])
  end.

(** Completing a monitor may send the observer a [ProcessDied] signal; sending
    that signal completes no monitor ([send_inner_with_not_monitor]), so the
    recursion is tied at depth two. *)
Definition send_process_died : ProcessRef → Signal → World → SendResult :=
  process_send (send_inner_with (fun _ _ w => (Ok tt, w, []))).

Definition send_inner : Z → Signal → option Z → World → SendResult :=
  send_inner_with send_process_died.

Definition send (a : Z) (s : Signal) w : SendResult := send_inner a s None w.

Definition send_to_process (a process_id : Z) (s : Signal) w : SendResult :=
  send_inner a s (Some process_id) w.

Definition ref_send (r : ProcessRef) (s : Signal) w : SendResult := process_send send_inner r s w.

(** ** Receiving *)

Inductive RecvPoll : Type := RecvReady (e : option SignalEnvelope) | RecvPending.

(** A poll of [SignalReceiverGuard::recv]: the kill latch first, then a stored
    notification is consumed and the latch looked at again, then the queue. *)
Definition recv p : RecvPoll * Ingress Sem Chan :=
  if kill_requested p then (RecvReady (Some (control Kill)), set_kill false (kill_notified p) p)
  else
    let p := set_kill false false p in
    match External.try_recv (queue p) with
    | Some (e, q) => (RecvReady (Some e), set_queue q p)
    | None => if chan_is_closed (queue p) then (RecvReady None, p) else (RecvPending, p)
    end.

Definition guard_try_recv p : option SignalEnvelope * Ingress Sem Chan :=
  match External.try_recv (queue p) with
  | Some (e, q) => (Some e, set_queue q p)
  | None => (None, p)
  end.

(** [OnceLock::set] keeps the first value. *)
Definition once_set (r : DeathReason) (o : option DeathReason) : option DeathReason :=
  match o with Some r => Some r | None => Some r end.

Definition publish_terminal_reason (r : DeathReason) p : Ingress Sem Chan :=
  set_death (once_set r (lifecycle_death_reason p)) p.

Definition close_with_reason (r : DeathReason) p : Ingress Sem Chan :=
  let p := publish_terminal_reason r p in
  set_queue (close (queue p)) p.

Definition request_kill p : Ingress Sem Chan := set_kill true true p.

Definition is_closed p : bool := chan_is_closed (queue p).

Definition terminal_reason p : option DeathReason := lifecycle_death_reason p.
End sending.

(** ** Worlds up to the identity of returned permits

    A semaphore that gave a permit and got it back need not be the same object,
    only offer the same number of permits. *)

Section equivalence.
Context {Sem : Type} `{!Semaphore Sem, !SemaphoreLaws Sem}.
Context {Chan : Type → Type} `{!Channel Chan, !ChannelLaws Chan}.
Implicit Types (w : gmap Z (Ingress Sem Chan)) (p : Ingress Sem Chan).

Definition mailbox_equiv (m m' : MessageMailbox Sem) : Prop :=
  inner m = inner m' ∧ admission_id m = admission_id m' ∧ capacity m = capacity m' ∧
  max_message_bytes m = max_message_bytes m' ∧
  max_message_resources m = max_message_resources m' ∧
  available_permits (admission m) = available_permits (admission m').

#[local] Instance ingress_equiv : Equiv (Ingress Sem Chan) := fun p p' =>
  queue p = queue p' ∧ kill_requested p = kill_requested p' ∧
  kill_notified p = kill_notified p' ∧
  lifecycle_death_reason p = lifecycle_death_reason p' ∧
  available_permits (data_admission p) = available_permits (data_admission p') ∧
  available_permits (monitor_admission p) = available_permits (monitor_admission p') ∧
  mailbox_equiv (message_mailbox p) (message_mailbox p') ∧
  queue_capacity p = queue_capacity p' ∧
  sender_max_message_bytes p = sender_max_message_bytes p' ∧
  sender_max_message_resources p = sender_max_message_resources p'.

#[local] Instance ingress_equivalence : Equivalence (≡@{Ingress Sem Chan}).
Proof.
  split; unfold equiv, ingress_equiv, mailbox_equiv.
  - intros p. done.
  - intros p p' H. intuition congruence.
  - intros p p' p'' H H'. intuition congruence.
Qed.

(** *** Destructors *)

Definition drop_permit_in (q : MailboxPermit) p : Ingress Sem Chan :=
  set_mailbox (drop_permit q (message_mailbox p)) p.
Definition release_data_in p : Ingress Sem Chan :=
  set_data_admission (release_permit (data_admission p)) p.
Definition release_monitor_in p : Ingress Sem Chan :=
  set_monitor_admission (release_permit (monitor_admission p)) p.

#[local] Instance drop_permit_in_proper q : Proper ((≡) ==> (≡)) (drop_permit_in q).
Proof.
  intros p p' Hp. unfold drop_permit_in, drop_permit, belongs_to, equiv, ingress_equiv, mailbox_equiv in *.
  destruct Hp as (? & ? & ? & ? & ? & ? & (? & Hid & ? & ? & ? & ?) & ? & ? & ?).
  rewrite <- Hid. case_match; simpl; rewrite ?available_release; intuition congruence.
Qed.

#[local] Instance release_data_in_proper : Proper ((≡) ==> (≡)) release_data_in.
Proof.
  intros p p' Hp. unfold release_data_in, equiv, ingress_equiv in *; simpl.
  rewrite !available_release. intuition congruence.
Qed.

#[local] Instance release_monitor_in_proper : Proper ((≡) ==> (≡)) release_monitor_in.
Proof.
  intros p p' Hp. unfold release_monitor_in, equiv, ingress_equiv in *; simpl.
  rewrite !available_release. intuition congruence.
Qed.

#[local] Instance alter_equiv_proper f a :
  Proper ((≡) ==> (≡)) f → Proper ((≡) ==> (≡@{gmap Z (Ingress Sem Chan)})) (alter f a).
Proof. intros Hf w w' Hw. by apply alter_proper. Qed.

#[local] Instance drop_mailbox_permit_proper a o :
  Proper ((≡) ==> (≡@{gmap Z (Ingress Sem Chan)})) (drop_mailbox_permit a o).
Proof.
  intros w w' Hw. destruct o as [q|]; [|done]. unfold drop_mailbox_permit.
  apply (alter_equiv_proper (drop_permit_in q)); [apply _|done].
Qed.

#[local] Instance drop_data_permit_proper a b :
  Proper ((≡) ==> (≡@{gmap Z (Ingress Sem Chan)})) (drop_data_permit a b).
Proof.
  intros w w' Hw. destruct b; [|done]. unfold drop_data_permit.
  apply (alter_equiv_proper release_data_in); [apply _|done].
Qed.

#[local] Instance drop_monitor_permit_proper a b :
  Proper ((≡) ==> (≡@{gmap Z (Ingress Sem Chan)})) (drop_monitor_permit a b).
Proof.
  intros w w' Hw. destruct b; [|done]. unfold drop_monitor_permit.
  apply (alter_equiv_proper release_monitor_in); [apply _|done].
Qed.

(** Destructors of different owners commute. *)
Lemma alter_comm {A} (f g : A → A) (a b : Z) (m : gmap Z A) :
  (∀ x, f (g x) = g (f x)) → alter f a (alter g b m) = alter g b (alter f a m).
Proof.
  intros Hfg. apply map_eq. intros c. rewrite !lookup_alter.
  repeat case_decide; subst; try done. destruct (m !! c); simpl; [by rewrite Hfg|done].
Qed.

Lemma drop_mailbox_comm q q' a b w :
  drop_mailbox_permit a q (drop_mailbox_permit b q' w) =
  drop_mailbox_permit b q' (drop_mailbox_permit a q w).
Proof.
  destruct q, q'; try done. apply alter_comm. intros p.
  unfold drop_permit, belongs_to; simpl; repeat case_match; simpl in *; congruence || done.
Qed.

Lemma drop_data_mailbox_comm q h a b w :
  drop_data_permit a h (drop_mailbox_permit b q w) =
  drop_mailbox_permit b q (drop_data_permit a h w).
Proof. destruct q, h; try done. by apply alter_comm. Qed.

Lemma drop_monitor_mailbox_comm q h a b w :
  drop_monitor_permit a h (drop_mailbox_permit b q w) =
  drop_mailbox_permit b q (drop_monitor_permit a h w).
Proof. destruct q, h; try done. by apply alter_comm. Qed.

Lemma drop_monitor_data_comm h h' a b w :
  drop_monitor_permit a h (drop_data_permit b h' w) =
  drop_data_permit b h' (drop_monitor_permit a h w).
Proof. destruct h, h'; try done. by apply alter_comm. Qed.

Lemma drop_notification_alt o w :
  drop_notification o w =
    drop_mailbox_permit (default 0 (mn_addr <$> o)) (mn_permit <$> o) w.
Proof. by destruct o. Qed.

Lemma drop_envelope_reverse a e w :
  drop_envelope a e w =
    drop_mailbox_permit a (mailbox_permit e)
      (drop_data_permit a (data_queue_permit e)
         (drop_monitor_permit a (monitor_permit e)
            (drop_notification (monitor_notification e) w))).
Proof.
  unfold drop_envelope. rewrite !drop_notification_alt.
  rewrite !drop_monitor_mailbox_comm, !drop_data_mailbox_comm, !drop_monitor_mailbox_comm,
    drop_monitor_data_comm.
  apply drop_mailbox_comm.
Qed.

(** *** Giving back what was acquired *)

Lemma insert_equiv_id a p p' w : w !! a = Some p → p' ≡ p → <[a := p']> w ≡ w.
Proof. intros Ha Hp. rewrite Hp. by rewrite insert_id. Qed.

Lemma undo_mailbox p q mb :
  try_reserve (message_mailbox p) = Some (q, mb) →
  drop_permit_in q (set_mailbox mb p) ≡ p.
Proof.
  unfold try_reserve. destruct (try_acquire_owned _) as [sem|] eqn:Hs; [|done].
  intros [= <- <-]. apply try_acquire_Some in Hs.
  unfold drop_permit_in, drop_permit, belongs_to, equiv, ingress_equiv, mailbox_equiv; simpl.
  rewrite Z.eqb_refl; simpl. rewrite available_release. intuition congruence.
Qed.

Lemma undo_data p sem :
  try_acquire_owned (data_admission p) = Some sem → release_data_in (set_data_admission sem p) ≡ p.
Proof.
  intros Hs%try_acquire_Some. unfold release_data_in, equiv, ingress_equiv, mailbox_equiv; simpl.
  rewrite available_release. split_and!; done.
Qed.

Lemma undo_monitor p sem :
  try_acquire_owned (monitor_admission p) = Some sem →
  release_monitor_in (set_monitor_admission sem p) ≡ p.
Proof.
  intros Hs%try_acquire_Some. unfold release_monitor_in, equiv, ingress_equiv, mailbox_equiv; simpl.
  rewrite available_release. split_and!; done.
Qed.

Lemma alter_insert_eq (f : Ingress Sem Chan → Ingress Sem Chan) a p w :
  alter f a (<[a := p]> w) = <[a := f p]> w.
Proof. rewrite alter_insert. by rewrite decide_True. Qed.

Lemma undo_notification r n w w' :
  reserve_monitor_notification r w = (Ok n, w') → drop_notification n w' ≡ w.
Proof.
  unfold reserve_monitor_notification. destruct r as [id a|id]; [|by intros [= <- <-]].
  destruct (w !! a) as [p|] eqn:Ha; [|done]. destruct (chan_is_closed _); [done|].
  destruct (try_reserve _) as [[q mb]|] eqn:Hq; [|done]. intros [= <- <-]. simpl.
  change (alter (drop_permit_in q) a (<[a := set_mailbox mb p]> w) ≡ w).
  rewrite alter_insert_eq. eapply insert_equiv_id; [done|by apply undo_mailbox].
Qed.

Lemma reserve_monitor_notification_Err r e w w' :
  reserve_monitor_notification r w = (Err e, w') → w' = w.
Proof.
  unfold reserve_monitor_notification. destruct r as [id a|id]; [|done].
  destruct (w !! a) as [p|] eqn:Ha; [|by intros [= _ <-]].
  destruct (chan_is_closed _); [by intros [= _ <-]|].
  destruct (try_reserve _) as [[q mb]|] eqn:Hq; [done|]. by intros [= _ <-].
Qed.

(** The permits of a partial admission, in the order they were acquired. *)
Record admitted_from (a : Z) p (mp : option MailboxPermit) (dp mop : bool) p' : Prop := {
  af_queue : queue p' = queue p;
  af_death : lifecycle_death_reason p' = lifecycle_death_reason p;
  af_undo w : w !! a = Some p →
    drop_mailbox_permit a mp (drop_data_permit a dp (drop_monitor_permit a mop (<[a := p']> w))) ≡ w;
}.

Lemma admitted_none a p : admitted_from a p None false false p.
Proof. split; [done|done|]. intros w Ha. simpl. by eapply insert_equiv_id. Qed.

Lemma admitted_mailbox a p q mb :
  try_reserve (message_mailbox p) = Some (q, mb) →
  admitted_from a p (Some q) false false (set_mailbox mb p).
Proof.
  intros Hq. split; [done|done|]. intros w Ha.
  change (alter (drop_permit_in q) a (<[a := set_mailbox mb p]> w) ≡ w).
  rewrite alter_insert_eq. eapply insert_equiv_id; [done|]. by apply undo_mailbox.
Qed.

Lemma admitted_data a p mp p' sem :
  admitted_from a p mp false false p' → try_acquire_owned (data_admission p') = Some sem →
  admitted_from a p mp true false (set_data_admission sem p').
Proof.
  intros [Hq Hd Hu] Hs. split; [done|done|]. intros w Ha. rewrite <- (Hu w Ha) at 2.
  change (drop_mailbox_permit a mp (alter release_data_in a (<[a := set_data_admission sem p']> w)) ≡
    drop_mailbox_permit a mp (<[a := p']> w)).
  by rewrite alter_insert_eq, undo_data.
Qed.

Lemma admitted_monitor a p mp dp p' sem :
  admitted_from a p mp dp false p' → try_acquire_owned (monitor_admission p') = Some sem →
  admitted_from a p mp dp true (set_monitor_admission sem p').
Proof.
  intros [Hq Hd Hu] Hs. split; [done|done|]. intros w Ha. rewrite <- (Hu w Ha) at 2.
  change (drop_mailbox_permit a mp (drop_data_permit a dp
      (alter release_monitor_in a (<[a := set_monitor_admission sem p']> w))) ≡
    drop_mailbox_permit a mp (drop_data_permit a dp (<[a := p']> w))).
  by rewrite alter_insert_eq, undo_monitor.
Qed.

(** An admission is undone by dropping its envelope, and a failed one leaves no
    trace. *)
Definition admit_ok a s p w (r : result SignalEnvelope SignalSendError)
    (w' : gmap Z (Ingress Sem Chan)) : Prop :=
  match r with
  | Ok e => signal e = s ∧ drop_envelope a e w' ≡ w ∧
      ∃ p', w' !! a = Some p' ∧ queue p' = queue p ∧
        lifecycle_death_reason p' = lifecycle_death_reason p
  | Err e => into_signal e = s ∧ w' ≡ w
  end.

(** The last admission: the observer's slot. *)
Lemma admit_notification a s p w mp dp mop p' r w' :
  w !! a = Some p → admitted_from a p mp dp mop p' →
  match s with
  | Monitor observer _ =>
      match reserve_monitor_notification observer (<[a := p']> w) with
      | (Ok n, w) => (Ok (mkEnvelope s mp dp mop n), w)
      | (Err NotificationMailboxFull, w) =>
          (Err (MailboxFull s), drop_envelope a (mkEnvelope s mp dp mop None) w)
      | (Err NotificationClosed, w) =>
          (Err (Closed s), drop_envelope a (mkEnvelope s mp dp mop None) w)
      end
  | _ => (Ok (mkEnvelope s mp dp mop None), <[a := p']> w)
  end = (r, w') →
  admit_ok a s p w r w'.
Proof.
  intros Ha [Hq Hd Hu]. specialize (Hu w Ha).
  assert (∃ p'', <[a := p']> w !! a = Some p'' ∧ queue p'' = queue p ∧
    lifecycle_death_reason p'' = lifecycle_death_reason p) as Hcell.
  { exists p'. by rewrite lookup_insert_eq. }
  destruct s as [m|b|t q|i|i t rs|obs ack|i|i rs| |m e n k|m e n k];
    try (intros [= <- <-]; unfold admit_ok; by rewrite drop_envelope_reverse).
  destruct (reserve_monitor_notification obs (<[a := p']> w)) as [[n|e] w1] eqn:Hr.
  - intros [= <- <-]. unfold admit_ok. rewrite drop_envelope_reverse; simpl. split_and!; [done| |].
    + by rewrite (undo_notification _ _ _ _ Hr).
    + unfold reserve_monitor_notification in Hr. destruct obs as [id b|id]; [|by simplify_eq].
      destruct (<[a := p']> w !! b) as [pb|] eqn:Hb; [|done].
      destruct (chan_is_closed _); [done|]. destruct (try_reserve _) as [[q mb]|]; [|done].
      simplify_eq. rewrite lookup_insert. case_decide as Hab; [|done]. subst b.
      rewrite lookup_insert_eq in Hb. simplify_eq. by eexists.
  - apply reserve_monitor_notification_Err in Hr as ->.
    destruct e; intros [= <- <-]; unfold admit_ok; by rewrite drop_envelope_reverse.
Qed.

Lemma admit_spec a s p w r w' :
  w !! a = Some p → acquire_permits a s p w = (r, w') → admit_ok a s p w r w'.
Proof.
  intros Ha. unfold acquire_permits.
  destruct (reserves_mailbox_capacity s) eqn:Hres.
  - destruct (try_reserve (message_mailbox p)) as [[q mb]|] eqn:Hq; [|by intros [= <- <-]].
    pose proof (admitted_mailbox a p q mb Hq) as Hadm.
    destruct (try_acquire_owned (data_admission (set_mailbox mb p))) as [sem|] eqn:Hs.
    + apply (admitted_data _ _ _ _ _ Hadm) in Hs.
      destruct s; try done; simpl; intros Hr; by eapply admit_notification.
    + intros [= <- <-]. split; [done|]. exact (af_undo _ _ _ _ _ _ Hadm w Ha).
  - destruct (is_monitor s) eqn:Hm.
    + destruct (try_acquire_owned (monitor_admission p)) as [sem|] eqn:Hs.
      * apply (admitted_monitor _ _ _ _ _ _ (admitted_none a p)) in Hs. intros Hr.
        by eapply admit_notification.
      * intros [= <- <-]. split; [done|]. simpl. by eapply insert_equiv_id.
    + intros Hr. eapply admit_notification; [done|apply admitted_none|done].
Qed.

(** *** Sends *)

Lemma complete_monitor_Err k id reason s w e w' evs :
  complete_monitor_after_exit k id reason s w = (Err e, w', evs) →
  into_signal e = s ∧ w' = w ∧ evs = [].
Proof.
  unfold complete_monitor_after_exit.
  destruct s; try (by intros [= <- <- <-]).
  destruct (reserve_monitor_notification _ w) as [[n|[]] w1] eqn:Hr.
  - by destruct (complete_exited_monitor _ _ _ _ _ _ _).
  - apply reserve_monitor_notification_Err in Hr as ->. by intros [= <- <- <-].
  - apply reserve_monitor_notification_Err in Hr as ->. by intros [= <- <- <-].
Qed.

Lemma enqueue_Err k a e target w err w' evs p :
  w !! a = Some p → enqueue k a e target w = (Err err, w', evs) →
  into_signal err = signal e ∧ w' = drop_envelope a e w ∧ evs = [].
Proof.
  intros Ha. unfold enqueue. rewrite Ha. pose proof (try_send_spec _ e (queue p)) as Hs.
  destruct (try_send e (queue p)) as [q|[e'|e']]; [done| |].
  - destruct Hs as (-> & _). by intros [= <- <- <-].
  - destruct Hs as (-> & _). destruct target as [id|]; [|by intros [= <- <- <-]].
    unfold complete_envelope_after_exit.
    destruct (signal e) eqn:Hsig; try (by intros [= <- <- <-]).
    by destruct (complete_exited_monitor _ _ _ _ _ _ _).
Qed.

Lemma sender_limit_signal s p e : sender_limit s p = Some e → into_signal e = s.
Proof. unfold sender_limit. intros H. by case_in H. Qed.

(** The part of [send_inner] for a live target. *)
Lemma send_live k a s target w p :
  w !! a = Some p → chan_is_closed (queue p) = false →
  (target = None ∨ lifecycle_death_reason p = None) →
  match s with Link _ _ | UnLink _ => False | _ => True end →
  send_inner_with k a s target w =
    match s with
    | Kill => (Ok tt, <[a := set_kill true true p]> w, [])
    | _ =>
        match sender_limit s p with
        | Some e => (Err e, w, [])
        | None =>
            match acquire_permits a s p w with
            | (Err e, w) => (Err e, w, [])
            | (Ok e, w) => enqueue k a e target w
            end
        end
    end.
Proof.
  intros Ha Hop Ht Hs. unfold send_inner_with. rewrite Ha, Hop.
  destruct s; try done; destruct target, (lifecycle_death_reason p); naive_solver.
Qed.

Lemma send_dead k a s target w p :
  w !! a = Some p →
  match s with Link _ _ | UnLink _ => False | _ => True end →
  (chan_is_closed (queue p) = true ∨ (target ≠ None ∧ lifecycle_death_reason p ≠ None)) →
  send_inner_with k a s target w =
    match target with
    | Some id => complete_monitor_after_exit k id (default NoProcess (lifecycle_death_reason p)) s w
    | None => (Err (Closed s), w, [])
    end.
Proof.
  intros Ha Hs Hd. unfold send_inner_with. rewrite Ha.
  destruct target as [id|], (lifecycle_death_reason p) as [r|], Hd as [Hc|[Ht Hr]]; try done;
    rewrite ?Hc; by destruct s.
Qed.

Lemma send_inner_Err k a s target w e w' evs :
  send_inner_with k a s target w = (Err e, w', evs) →
  into_signal e = s ∧ w' ≡ w ∧ evs = [].
Proof.
  destruct (match s with Link _ _ | UnLink _ => true | _ => false end) eqn:Hlink.
  { destruct s; try done; simpl; by intros [= <- <- <-]. }
  assert (match s with Link _ _ | UnLink _ => False | _ => True end) as Hs by by destruct s.
  destruct (w !! a) as [p|] eqn:Ha.
  2: { unfold send_inner_with. rewrite Ha. destruct s; by intros [= <- <- <-]. }
  destruct (decide (chan_is_closed (queue p) = true ∨
    (target ≠ None ∧ lifecycle_death_reason p ≠ None))) as [Hd|Hd].
  - rewrite (send_dead _ _ _ _ _ p) by done. destruct target as [id|]; [|by intros [= <- <- <-]].
    by intros (? & -> & ->)%complete_monitor_Err.
  - rewrite (send_live _ _ _ _ _ p);
      [|done|by apply not_true_iff_false; tauto
       |destruct target, (lifecycle_death_reason p); naive_solver|done].
    assert (∀ e w' evs,
      match sender_limit s p with
      | Some e => (Err e, w, [])
      | None =>
          match acquire_permits a s p w with
          | (Err e, w) => (Err e, w, [])
          | (Ok e, w) => enqueue k a e target w
          end
      end = (Err e, w', evs) → into_signal e = s ∧ w' ≡ w ∧ evs = []) as Hmain.
    { clear e w' evs. intros e w' evs.
      destruct (sender_limit s p) as [e'|] eqn:Hl.
      { apply sender_limit_signal in Hl. by intros [= <- <- <-]. }
      destruct (acquire_permits a s p w) as [[env|e'] w1] eqn:Hadm; apply admit_spec in Hadm; try done.
      - destruct Hadm as (<- & Hdrop & p' & Hp' & _).
        intros (-> & -> & ->)%(enqueue_Err _ _ _ _ _ _ _ _ p'); done.
      - destruct Hadm as (<- & Heq). by intros [= <- <- <-]. }
    by destruct s; [apply Hmain..|done|apply Hmain|apply Hmain].
Qed.

(** *** When a send is admitted *)

(** The observer can hold one more notification. *)
Definition observer_ready (r : ProcessRef) w : Prop :=
  match r with
  | Custom _ => True
  | Builtin _ b =>
      ∃ pb, w !! b = Some pb ∧ chan_is_closed (queue pb) = false ∧
        0 < available_capacity (message_mailbox pb)
  end.

Record sendable (s : Signal) p w : Prop := {
  se_limit : sender_limit s p = None;
  se_data : reserves_mailbox_capacity s = true →
    0 < available_capacity (message_mailbox p) ∧ 0 < available_permits (data_admission p);
  se_monitor obs ack : s = Monitor obs ack →
    0 < available_permits (monitor_admission p) ∧ observer_ready obs w;
  se_queue : Z.of_nat (length (queued (queue p))) < buffer_size (queue p);
}.

Lemma try_reserve_is_Some (mb : MessageMailbox Sem) :
  is_Some (try_reserve mb) ↔ 0 < available_capacity mb.
Proof.
  unfold try_reserve, available_capacity. rewrite try_acquire_is_Some.
  destruct (try_acquire_owned _); split; intros []; try done; by eexists.
Qed.

Lemma reserve_monitor_notification_ok r w :
  is_ok (reserve_monitor_notification r w).1 = true ↔ observer_ready r w.
Proof.
  unfold reserve_monitor_notification, observer_ready. destruct r as [id b|id]; [|done].
  destruct (w !! b) as [pb|]; [|split; [done|naive_solver]].
  destruct (chan_is_closed (queue pb)) eqn:Hc; [split; [done|naive_solver]|].
  pose proof (try_reserve_is_Some (message_mailbox pb)) as Hres.
  destruct (try_reserve (message_mailbox pb)) as [[q mb]|]; simpl.
  - split; [|done]. intros _. exists pb. split_and!; try done. by apply Hres.
  - split; [done|]. intros (? & [= <-] & _ & Hav). by apply Hres in Hav as [].
Qed.

Lemma observer_ready_insert r a p p' w :
  w !! a = Some p → queue p' = queue p →
  available_capacity (message_mailbox p') = available_capacity (message_mailbox p) →
  observer_ready r (<[a := p']> w) ↔ observer_ready r w.
Proof.
  intros Ha Hq Hav. destruct r as [id b|id]; [|done]. simpl. rewrite lookup_insert.
  case_decide; [subst b|done]. rewrite Ha. split; intros (pb & [= <-] & Hc & Hcap);
    eexists; (split; [done|]); rewrite ?Hq, ?Hav in *; done.
Qed.

Lemma admit_Ok_iff a s p w :
  w !! a = Some p →
  is_ok (acquire_permits a s p w).1 = true ↔
    (reserves_mailbox_capacity s = true →
       0 < available_capacity (message_mailbox p) ∧ 0 < available_permits (data_admission p)) ∧
    (∀ obs ack, s = Monitor obs ack →
       0 < available_permits (monitor_admission p) ∧ observer_ready obs w).
Proof.
  intros Ha. unfold acquire_permits. destruct (reserves_mailbox_capacity s) eqn:Hres.
  - assert (∀ obs ack, s = Monitor obs ack → False) as Hnm by by intros ? ? ->.
    pose proof (try_reserve_is_Some (message_mailbox p)) as Hmb.
    destruct (try_reserve (message_mailbox p)) as [[q mb]|]; simpl.
    2: { split; [done|]. intros [H _]. destruct H as [Hav _]; [done|]. by apply Hmb in Hav as []. }
    pose proof (try_acquire_is_Some (data_admission p)) as Hda.
    destruct (try_acquire_owned (data_admission p)) as [sem|]; simpl.
    2: { split; [done|]. intros [H _]. destruct H as [_ Hav]; [done|]. by apply Hda in Hav as []. }
    assert (0 < available_capacity (message_mailbox p)) by by apply Hmb.
    assert (0 < available_permits (data_admission p)) by by apply Hda.
    destruct s; try done; simpl; naive_solver.
  - destruct s as [m|b|t q|i|i t rs|obs ack|i|i rs| |m e n k|m e n k]; try done; simpl.
    pose proof (try_acquire_is_Some (monitor_admission p)) as Hmo.
    destruct (try_acquire_owned (monitor_admission p)) as [sem|]; simpl.
    2: { split; [done|]. intros [_ H]. destruct (H obs ack eq_refl) as [Hav _].
         by apply Hmo in Hav as []. }
    pose proof (reserve_monitor_notification_ok obs (<[a := set_monitor_admission sem p]> w)) as Hob.
    rewrite (observer_ready_insert obs a p) in Hob by done.
    assert (0 < available_permits (monitor_admission p)) by by apply Hmo.
    destruct (reserve_monitor_notification obs _) as [[n|[]] w1]; simpl in *; naive_solver.
Qed.

Lemma admit_envelope a s p w e w' :
  acquire_permits a s p w = (Ok e, w') →
  (is_Some (mailbox_permit e) ↔ reserves_mailbox_capacity s = true) ∧
  data_queue_permit e = reserves_mailbox_capacity s ∧ monitor_permit e = is_monitor s ∧
  (is_Some (monitor_notification e) → is_monitor s = true).
Proof.
  unfold acquire_permits. intros Hadm.
  destruct (reserves_mailbox_capacity s) eqn:Hres.
  - destruct (try_reserve _) as [[q mb]|]; [|done]. destruct (try_acquire_owned _); [|done].
    destruct s; try done; simplify_eq/=; unfold is_Some; naive_solver.
  - assert (¬ is_Some (@None MailboxPermit)) by by intros [].
    destruct s; try done; simplify_eq/=; try (split_and!; [split; [tauto|done]|done|done|by intros []]).
    destruct (try_acquire_owned _); [|done]. simpl in Hadm.
    destruct (reserve_monitor_notification _ _) as [[n|[]] w1]; simplify_eq/=.
    unfold is_Some; naive_solver.
Qed.

(** *** What a send can change *)

(** Sends only append to queues and latch kills: nothing is closed, reopened,
    reordered or forgotten. *)
Definition grows p p' : Prop :=
  (∃ l, queued (queue p') = queued (queue p) ++ l) ∧
  chan_is_closed (queue p') = chan_is_closed (queue p) ∧
  buffer_size (queue p') = buffer_size (queue p) ∧
  (kill_requested p = true → kill_requested p' = true) ∧
  lifecycle_death_reason p' = lifecycle_death_reason p.

#[export] Instance grows_preorder : PreOrder grows.
Proof.
  split.
  - intros p. split_and!; try done. exists []. by rewrite app_nil_r.
  - intros p1 p2 p3 ([l1 Hl1] & ? & ? & ? & ?) ([l2 Hl2] & ? & ? & ? & ?).
    split_and!; try congruence; [|auto]. exists (l1 ++ l2). by rewrite Hl2, Hl1, app_assoc.
Qed.

Definition world_grows w w' : Prop :=
  ∀ b p, w !! b = Some p → ∃ p', w' !! b = Some p' ∧ grows p p'.

#[export] Instance world_grows_preorder : PreOrder world_grows.
Proof.
  split.
  - intros w b p Hp. by exists p.
  - intros w1 w2 w3 H12 H23 b p Hp. destruct (H12 b p Hp) as (p2 & Hp2 & ?).
    destruct (H23 b p2 Hp2) as (p3 & Hp3 & ?). exists p3. split; [done|]. by etrans.
Qed.

Lemma grows_same p p' :
  queue p' = queue p → kill_requested p' = kill_requested p →
  lifecycle_death_reason p' = lifecycle_death_reason p → grows p p'.
Proof. intros Hq Hk Hd. unfold grows. rewrite Hq, Hk, Hd. split_and!; try done. exists []. by rewrite app_nil_r. Qed.

Lemma alter_grows f a w : (∀ p, grows p (f p)) → world_grows w (alter f a w).
Proof.
  intros Hf b p Hp. rewrite lookup_alter. case_decide; [subst b|by exists p].
  rewrite Hp. simpl. eauto.
Qed.

Lemma insert_grows a p p' w : w !! a = Some p → grows p p' → world_grows w (<[a := p']> w).
Proof.
  intros Ha Hg b pb Hb. rewrite lookup_insert. case_decide; [subst b; simplify_eq; eauto|].
  by exists pb.
Qed.

Lemma drop_mailbox_permit_grows a o w : world_grows w (drop_mailbox_permit a o w).
Proof. destruct o; [|done]. apply alter_grows. intros p. by apply grows_same. Qed.

Lemma drop_data_permit_grows a h w : world_grows w (drop_data_permit a h w).
Proof. destruct h; [|done]. apply alter_grows. intros p. by apply grows_same. Qed.

Lemma drop_monitor_permit_grows a h w : world_grows w (drop_monitor_permit a h w).
Proof. destruct h; [|done]. apply alter_grows. intros p. by apply grows_same. Qed.

Lemma drop_notification_grows o w : world_grows w (drop_notification o w).
Proof. destruct o; [|done]. apply drop_mailbox_permit_grows. Qed.

#[local] Hint Resolve drop_mailbox_permit_grows drop_data_permit_grows drop_monitor_permit_grows
  drop_notification_grows : lunatic.

Lemma drop_envelope_grows a e w : world_grows w (drop_envelope a e w).
Proof. unfold drop_envelope. peel. Qed.

Lemma reserve_grows r w : world_grows w (reserve_monitor_notification r w).2.
Proof.
  unfold reserve_monitor_notification. destruct r as [id b|id]; [|done].
  destruct (w !! b) as [p|] eqn:Hb; [|done]. destruct (chan_is_closed _); [done|].
  destruct (try_reserve _) as [[q mb]|]; [|done]. simpl. eapply insert_grows; [done|].
  by apply grows_same.
Qed.

Lemma deliver_grows n id r w : world_grows w (deliver n id r w).1.
Proof.
  unfold deliver. destruct (w !! mn_addr n) as [p|] eqn:Hp; [|done].
  destruct (push_with_permit _ _ _) as [[res mb] wk].
  assert (world_grows w (<[mn_addr n := set_mailbox mb p]> w)) as Hg
    by (eapply insert_grows; [done|by apply grows_same]).
  destruct res; [done|]. simpl. etrans; [done|]. apply drop_mailbox_permit_grows.
Qed.

(** [k] is a [Process::send] that grows the world. *)
Definition send_grows (k : ProcessRef → Signal → gmap Z (Ingress Sem Chan) →
    result unit SignalSendError * gmap Z (Ingress Sem Chan) * list event) : Prop :=
  ∀ r s w, world_grows w (k r s w).1.2.

Lemma complete_exited_monitor_grows k obs ack n id r w :
  send_grows k → world_grows w (complete_exited_monitor k obs ack n id r w).1.
Proof.
  intros Hk. unfold complete_exited_monitor. destruct n as [n|].
  - pose proof (deliver_grows n id r w). by destruct (deliver n id r w).
  - specialize (Hk obs (SProcessDied id r) w). by destruct (k _ _ _) as [[? ?] ?].
Qed.

Lemma complete_monitor_grows k id r s w :
  send_grows k → world_grows w (complete_monitor_after_exit k id r s w).1.2.
Proof.
  intros Hk. unfold complete_monitor_after_exit. destruct s as [| | | | |obs ack| | | | |]; try done.
  pose proof (reserve_grows obs w) as Hr.
  destruct (reserve_monitor_notification obs w) as [[n|[]] w1]; try done.
  pose proof (complete_exited_monitor_grows k obs ack n id r w1 Hk) as Hc.
  destruct (complete_exited_monitor _ _ _ _ _ _ _) as [w2 evs]. simpl in *. by etrans.
Qed.

Lemma enqueue_grows k a e target w :
  send_grows k → world_grows w (enqueue k a e target w).1.2.
Proof.
  intros Hk. unfold enqueue. destruct (w !! a) as [p|] eqn:Ha; [|apply drop_envelope_grows].
  pose proof (try_send_spec _ e (queue p)) as Hs.
  destruct (try_send e (queue p)) as [q|[e'|e']].
  - destruct Hs as (Hc & _ & Hq & Hb & Hc'). simpl. eapply insert_grows; [done|].
    split_and!; simpl; try congruence; eauto.
  - apply drop_envelope_grows.
  - destruct target as [id|]; [|apply drop_envelope_grows].
    unfold complete_envelope_after_exit.
    destruct (signal e') as [| | | | |obs ack| | | | |]; try apply drop_envelope_grows.
    pose proof (complete_exited_monitor_grows k obs ack (monitor_notification e') id
      (default NoProcess (lifecycle_death_reason p))
      (drop_envelope a (mkEnvelope (Monitor obs ack) (mailbox_permit e') (data_queue_permit e')
         (monitor_permit e') None) w) Hk) as Hc.
    destruct (complete_exited_monitor _ _ _ _ _ _ _) as [w2 evs]. simpl in *.
    etrans; [|exact Hc]. apply drop_envelope_grows.
Qed.

Lemma admit_grows a s p w : w !! a = Some p → world_grows w (acquire_permits a s p w).2.
Proof.
  intros Ha.
  assert (∀ p', queue p' = queue p → kill_requested p' = kill_requested p →
    lifecycle_death_reason p' = lifecycle_death_reason p → world_grows w (<[a := p']> w)) as Hins.
  { intros p' ? ? ?. eapply insert_grows; [done|]. by apply grows_same. }
  unfold acquire_permits. destruct (reserves_mailbox_capacity s) eqn:Hres.
  - destruct (try_reserve _) as [[q mb]|]; [|done].
    destruct (try_acquire_owned _) as [sem|].
    + destruct s; try done; simpl; by apply Hins.
    + simpl. change (world_grows w (drop_mailbox_permit a (Some q) (<[a := set_mailbox mb p]> w))).
      etrans; [|apply drop_mailbox_permit_grows]. by apply Hins.
  - destruct s as [| | | | |obs ack| | | | |]; try done; simpl; try by apply Hins.
    destruct (try_acquire_owned _) as [sem|]; [|by apply Hins].
    pose proof (reserve_grows obs (<[a := set_monitor_admission sem p]> w)) as Hr.
    assert (world_grows w (<[a := set_monitor_admission sem p]> w)) by by apply Hins.
    destruct (reserve_monitor_notification obs _) as [[n|[]] w1]; simpl in *; [by etrans|..];
      (etrans; [|apply drop_envelope_grows]; by etrans).
Qed.

Lemma send_inner_with_grows k a s target w :
  send_grows k → world_grows w (send_inner_with k a s target w).1.2.
Proof.
  intros Hk.
  destruct (match s with Link _ _ | UnLink _ => true | _ => false end) eqn:Hlink.
  { by destruct s. }
  assert (match s with Link _ _ | UnLink _ => False | _ => True end) as Hs by by destruct s.
  destruct (w !! a) as [p|] eqn:Ha.
  2: { unfold send_inner_with. rewrite Ha. by destruct s. }
  destruct (decide (chan_is_closed (queue p) = true ∨
    (target ≠ None ∧ lifecycle_death_reason p ≠ None))) as [Hd|Hd].
  - rewrite (send_dead _ _ _ _ _ p) by done. destruct target; [|done]. by apply complete_monitor_grows.
  - rewrite (send_live _ _ _ _ _ p);
      [|done|by apply not_true_iff_false; tauto
       |destruct target, (lifecycle_death_reason p); naive_solver|done].
    assert (world_grows w
      (match sender_limit s p with
       | Some e => (Err e, w, [])
       | None =>
           match acquire_permits a s p w with
           | (Err e, w) => (Err e, w, [])
           | (Ok e, w) => enqueue k a e target w
           end
       end).1.2) as Hmain.
    { destruct (sender_limit s p); [done|]. pose proof (admit_grows a s p w Ha) as Hadm.
      destruct (acquire_permits a s p w) as [[e|e] w1]; simpl in *; [|done].
      etrans; [exact Hadm|]. by apply enqueue_grows. }
    destruct s; try exact Hmain. simpl. eapply insert_grows; [done|].
    split_and!; try done. exists []. by rewrite app_nil_r.
Qed.

Lemma send_inner_grows a s target w : world_grows w (send_inner a s target w).1.2.
Proof.
  apply send_inner_with_grows. intros r s' w'. unfold send_process_died, process_send.
  destruct r as [id b|id]; [|done]. apply send_inner_with_grows. by intros ? ? ?.
Qed.

(** The knot of [send_process_died]: only a monitor uses the observer's
    [send]. *)
Lemma enqueue_not_monitor k k' a e target w :
  is_monitor (signal e) = false → enqueue k a e target w = enqueue k' a e target w.
Proof.
  intros Hm. unfold enqueue. destruct (w !! a) as [p|]; [|done].
  pose proof (try_send_spec _ e (queue p)) as Hs.
  destruct (try_send e (queue p)) as [q|[e'|e']]; [done..|].
  destruct Hs as [-> _]. destruct target; [|done].
  unfold complete_envelope_after_exit. by destruct (signal e).
Qed.

Lemma send_inner_with_not_monitor k k' a s target w :
  is_monitor s = false → send_inner_with k a s target w = send_inner_with k' a s target w.
Proof.
  intros Hm.
  destruct (match s with Link _ _ | UnLink _ => true | _ => false end) eqn:Hlink.
  { by destruct s. }
  assert (match s with Link _ _ | UnLink _ => False | _ => True end) as Hs by by destruct s.
  destruct (w !! a) as [p|] eqn:Ha.
  2: { unfold send_inner_with. rewrite Ha. by destruct s. }
  destruct (decide (chan_is_closed (queue p) = true ∨
    (target ≠ None ∧ lifecycle_death_reason p ≠ None))) as [Hd|Hd].
  - rewrite !(send_dead _ _ _ _ _ p) by done. destruct target; [|done]. by destruct s.
  - assert (chan_is_closed (queue p) = false) by (apply not_true_iff_false; tauto).
    assert (target = None ∨ lifecycle_death_reason p = None)
      by (destruct target, (lifecycle_death_reason p); naive_solver).
    rewrite !(send_live _ _ _ _ _ p) by done.
    pose proof (fun r w' => admit_spec a s p w r w' Ha) as Hadm.
    destruct (acquire_permits a s p w) as [[e|e] w'].
    + destruct (Hadm _ _ eq_refl) as (Hsig & _).
      by rewrite (enqueue_not_monitor k k' a e target w') by by rewrite Hsig.
    + done.
Qed.
(** ** Properties *)

(** What everybody else may do to a world: send signals to anyone. *)
Definition sender_step w w' : Prop := ∃ a s target, w' = (send_inner a s target w).1.2.

Lemma sender_steps_grow w w' : rtc sender_step w w' → world_grows w w'.
Proof.
  induction 1 as [w|w1 w2 w3 (a & s & t & ->) _ IH]; [reflexivity|].
  etrans; [apply send_inner_grows|exact IH].
Qed.

(** A send to a live process: admission and effect. *)
Lemma send_live_spec (a : Z) (s : Signal) (target : option Z) w p :
  w !! a = Some p → is_closed p = false → (target = None ∨ terminal_reason p = None) →
  match s with Link _ _ | UnLink _ | Kill => False | _ => True end →
  let '(r, w', evs) := send_inner a s target w in
  (r = Ok tt ↔ sendable s p w) ∧
  (r = Ok tt → evs = [] ∧
     ∃ p' e, w' !! a = Some p' ∧ queued (queue p') = queued (queue p) ++ [e] ∧ signal e = s ∧
       (is_Some (mailbox_permit e) ↔ reserves_mailbox_capacity s = true) ∧
       monitor_permit e = is_monitor s).
Proof.
  intros Ha Hop Ht Hs. unfold send_inner. rewrite (send_live _ _ _ _ _ p) by (done || by destruct s).
  replace (match s with Kill => _ | _ => _ end) with
    (match sender_limit s p with
     | Some e => (Err e, w, [])
     | None => match acquire_permits a s p w with
               | (Err e, w) => (Err e, w, [])
               | (Ok e, w) => enqueue send_process_died a e target w
               end
     end : result unit SignalSendError * gmap Z (Ingress Sem Chan) * list event) by by destruct s.
  destruct (sender_limit s p) as [e|] eqn:Hl.
  { split; [|done]. split; [done|]. intros [Hse _ _ _]. congruence. }
  pose proof (admit_Ok_iff a s p w Ha) as Hiff.
  pose proof (fun r w' => admit_spec a s p w r w' Ha) as Hadm.
  pose proof (admit_envelope a s p w) as Henv.
  destruct (acquire_permits a s p w) as [[e|e] w1]; simpl in Hiff.
  2: { split; [|done]. split; [done|]. intros [_ Hd Hm _]. by assert (false = true) by by apply Hiff. }
  destruct (Hadm _ _ eq_refl) as (Hsig & _ & p1 & Hp1 & Hq & Hdr).
  destruct (Henv _ _ eq_refl) as (Hmp & _ & Hmo & _).
  unfold enqueue. rewrite Hp1. pose proof (try_send_spec _ e (queue p1)) as Hsend.
  rewrite Hq in Hsend |- *. destruct (try_send e (queue p)) as [q|[e'|e']].
  - destruct Hsend as (_ & Hlen & Hqq & _). split; [split; [|done]|].
    + intros _. destruct (proj1 Hiff eq_refl) as [Hd Hm]. by split.
    + intros _. split; [done|]. eexists _, e. rewrite lookup_insert_eq. by split_and!.
  - destruct Hsend as (-> & _ & Hfull). split; [split; [done|]|done].
    intros [_ _ _ Hlen]. lia.
  - destruct Hsend as (_ & Hcl). unfold is_closed in Hop. congruence.
Qed.

(** C34. A send that fails gives the signal back and leaves no trace: every
    permit it had acquired, in the target's or in an observer's mailbox, is
    returned, nothing is queued and nobody is woken. *)
Theorem send_failure_leaves_no_trace (a : Z) (s : Signal) (target : option Z) w w'
    (e : SignalSendError) (evs : list event) :
  send_inner a s target w = (Err e, w', evs) →
  into_signal e = s ∧ evs = [] ∧
  ∀ b, option_Forall2 (fun p p' => ingress_equiv p p') (w !! b) (w' !! b).
Proof.
  intros (Hs & Hw & Hevs)%send_inner_Err. split_and!; try done. intros b.
  specialize (Hw b). destruct (w' !! b) as [q|], (w !! b) as [q'|]; inversion Hw; constructor.
  change (q' ≡ q). by symmetry.
Qed.

(** A send to a live process is admitted exactly when the message respects
    the destination's limits, a slot is free in every bounded resource it needs
    (mailbox and data admission for a message-producing signal, monitor
    admission and the observer's mailbox for a monitor) and the queue has room;
    it is then queued last, with the permits that guarantee its delivery. *)
Theorem send_admission_exact (a : Z) (s : Signal) (target : option Z) w p :
  w !! a = Some p → is_closed p = false → (target = None ∨ terminal_reason p = None) →
  match s with Link _ _ | UnLink _ | Kill => False | _ => True end →
  let '(r, w', evs) := send_inner a s target w in
  (r = Ok tt ↔ sendable s p w) ∧
  (r = Ok tt → evs = [] ∧
     ∃ p' e, w' !! a = Some p' ∧ queued (queue p') = queued (queue p) ++ [e] ∧ signal e = s ∧
       (is_Some (mailbox_permit e) ↔ reserves_mailbox_capacity s = true) ∧
       monitor_permit e = is_monitor s).
Proof. apply send_live_spec. Qed.

(** A kill is never lost to backpressure: it is accepted by every process
    whose ingress is open, however full its queues are, and whatever is sent to
    anyone afterwards, the next signal the process receives is the kill. *)
Theorem kill_always_delivered (a : Z) (target : option Z) w p w' :
  w !! a = Some p → is_closed p = false → (target = None ∨ terminal_reason p = None) →
  rtc sender_step (send_inner a Kill target w).1.2 w' →
  (send_inner a Kill target w).1.1 = Ok tt ∧
  ∃ p', w' !! a = Some p' ∧ (recv p').1 = RecvReady (Some (control Kill)) ∧
    is_closed p' = false.
Proof.
  intros Ha Hop Ht Hsteps. unfold send_inner in *.
  rewrite (send_live _ _ _ _ _ p) in Hsteps |- * by done. simpl in *. split; [done|].
  apply sender_steps_grow in Hsteps.
  destruct (Hsteps a (set_kill true true p)) as (p' & Hp' & _ & Hc & _ & Hk & _);
    [by rewrite lookup_insert_eq|].
  exists p'. unfold recv. rewrite Hk by done. split_and!; [done|done|].
  unfold is_closed. by rewrite Hc.
Qed.
End equivalence.

(** *** Witnesses *)

(** Two processes with one-slot mailboxes; the queue of the first is full. *)
Definition sample_ingress (id cap : Z) : Ingress nat fifo :=
  mkIngress (channel cap) false false None (sem_new (Z.max (cap - 1) 1)) (sem_new cap)
    (with_limits id 1 1024 64) cap 1024 64.

Definition sample_world : gmap Z (Ingress nat fifo) :=
  <[10 := sample_ingress 1 1]> (<[20 := sample_ingress 2 2]> ∅).

Definition full_world : gmap Z (Ingress nat fifo) :=
  (send_inner 10 (DieWhenLinkDies true) None sample_world).1.2.

Lemma send_failure_leaves_no_trace_witness :
  ∃ w', send_inner 10 (Monitor (Builtin 2 20) None) (Some 1) full_world =
      (Err (QueueFull (Monitor (Builtin 2 20) None)), w', []) ∧
    ∀ b, option_Forall2 (fun p p' => ingress_equiv p p') (full_world !! b) (w' !! b).
Proof.
  exists (send_inner 10 (Monitor (Builtin 2 20) None) (Some 1) full_world).1.2.
  assert (send_inner 10 (Monitor (Builtin 2 20) None) (Some 1) full_world =
    (Err (QueueFull (Monitor (Builtin 2 20) None)),
     (send_inner 10 (Monitor (Builtin 2 20) None) (Some 1) full_world).1.2, [])) as Heq
    by (vm_compute; reflexivity).
  split; [exact Heq|].
  exact (proj2 (proj2 (send_failure_leaves_no_trace _ _ _ _ _ _ _ Heq))).
Defined.

Lemma send_admission_exact_witness :
  (send_inner 20 (Monitor (Builtin 1 10) None) (Some 2) sample_world).1.1 = Ok tt ∧
  sendable (Monitor (Builtin 1 10) None) (sample_ingress 2 2) sample_world.
Proof.
  assert ((send_inner 20 (Monitor (Builtin 1 10) None) (Some 2) sample_world).1.1 = Ok tt) as Hok
    by (vm_compute; reflexivity).
  split; [exact Hok|].
  pose proof (send_admission_exact 20 (Monitor (Builtin 1 10) None) (Some 2) sample_world
    (sample_ingress 2 2) eq_refl eq_refl (or_intror eq_refl) I) as Hex.
  destruct (send_inner 20 _ _ sample_world) as [[r w'] evs]. apply (proj1 Hex). exact Hok.
Defined.

Definition full_ingress : Ingress nat fifo :=
  set_queue (mkFifo [control (DieWhenLinkDies true)] 1 false) (sample_ingress 1 1).

Lemma kill_always_delivered_witness :
  full_world !! 10 = Some full_ingress ∧
  (send_inner 10 Kill (Some 1) full_world).1.1 = Ok tt ∧
  ∃ p', (send_inner 10 Kill (Some 1) full_world).1.2 !! 10 = Some p' ∧
    (recv p').1 = RecvReady (Some (control Kill)) ∧ is_closed p' = false.
Proof.
  split; [vm_compute; reflexivity|].
  apply (kill_always_delivered 10 (Some 1) full_world full_ingress).
  - vm_compute. reflexivity.
  - reflexivity.
  - right. reflexivity.
  - apply rtc_refl.
Defined.
