(* ===== verification/Link.v ===== *)
(** * Links between processes: [crates/lunatic-process/src/state.rs]
      ([LinkState], [ProcessLifecycleHandle]) and [lib.rs] ([link_processes])

    A link is a pair of relations, one in the link state of each process, that
    share a token; each side holds a permit of its own process's link admission.
    The link states of a node are a map from addresses to cells, at the same
    addresses as the ingresses of [Signal]; a [Weak] reference is an address
    that may no longer be in the map.  A critical section over one or two link
    states (taken in address order) is one function; [unlink_peer], [terminate] and
    [link_state_drop] compose theirs as they run when nobody comes between, and
    [LinkSteps] takes them apart.

    The gauges of [record_link_created] and [record_link_removed] are telemetry
    and not modelled. *)

From S2P Require Import Prelude External Message Mailbox Signal.

(** ** Data *)

Inductive LinkError : Type :=
| UnsupportedProcess
| IdentityMismatch (process_id : Z)
| Terminated (process_id : Z)
| CapacityExhausted (process_id : Z)
| InconsistentState (left_process_id right_process_id : Z).

(** [LinkToken] is an identity; the permit is that of the process that holds
    the relation. *)
Record LinkRelation : Type := mkRelation {
  token : Z;
  peer_addr : Z;
  exit_tag : option Z;
}.

(** [ProcessLifecycleHandle]: the link state and the ingress it refers to are
    at [h_addr]. *)
Record Handle : Type := mkHandle { h_id : Z; h_addr : Z }.

Section links.
Context {Sem : Type} `{!Semaphore Sem} {Chan : Type → Type} `{!Channel Chan}.

(** [LinkState] with the [link_admission] of the same process. *)
Record LinkCell : Type := mkCell {
  cell_process_id : option Z;
  cell_terminal : option DeathReason;
  relations : gmap Z LinkRelation;
  link_admission : Sem;
  link_capacity : Z;
}.

Record World : Type := mkWorld {
  ingresses : gmap Z (Ingress Sem Chan);
  cells : gmap Z LinkCell;
  next_token : Z;
}.

Definition set_relations (m : gmap Z LinkRelation) (c : LinkCell) : LinkCell :=
  mkCell (cell_process_id c) (cell_terminal c) m (link_admission c) (link_capacity c).
Definition set_link_admission (s : Sem) (c : LinkCell) : LinkCell :=
  mkCell (cell_process_id c) (cell_terminal c) (relations c) s (link_capacity c).
Definition set_terminal (r : DeathReason) (c : LinkCell) : LinkCell :=
  mkCell (cell_process_id c) (Some r) (relations c) (link_admission c) (link_capacity c).
Definition set_cell_id (i : Z) (c : LinkCell) : LinkCell :=
  mkCell (Some i) (cell_terminal c) (relations c) (link_admission c) (link_capacity c).

Definition set_cells (m : gmap Z LinkCell) (W : World) : World :=
  mkWorld (ingresses W) m (next_token W).
Definition set_ingresses (m : gmap Z (Ingress Sem Chan)) (W : World) : World :=
  mkWorld m (cells W) (next_token W).

(** Dropping the permit of a relation. *)
Definition release_link (c : LinkCell) : LinkCell :=
  set_link_admission (release_permit (link_admission c)) c.

(** [relations.remove(&k)]: the relation is dropped with its permit. *)
Definition remove_relation (k : Z) (c : LinkCell) : LinkCell :=
  release_link (set_relations (delete k (relations c)) c).

Definition token_matches (k : Z) (t : Z) (c : LinkCell) : bool :=
  match relations c !! k with
  | Some r => token r =? t
  | None => false
  end.

(** ** Handles *)

(** [SignalSender::lifecycle_handle] *)
Definition lifecycle_handle (a process_id : Z) (W : World) : option Handle * World :=
  match cells W !! a with
  | None => (None, W)
  | Some c =>
      match cell_process_id c with
      | None =>
          (Some (mkHandle process_id a), set_cells (<[a := set_cell_id process_id c]> (cells W)) W)
      | Some i => (if i =? process_id then Some (mkHandle process_id a) else None, W)
      end
  end.

(** [Process::lifecycle_handle] *)
Definition ref_lifecycle_handle (r : ProcessRef) (W : World) : option Handle * World :=
  match r with
  | Builtin id a => lifecycle_handle a id W
  | Custom _ => (None, W)
  end.

(** [checked_lifecycle_handle] *)
Definition checked_lifecycle_handle (r : ProcessRef) (expected_process_id : option Z) (W : World)
    : result Handle LinkError * World :=
  match ref_lifecycle_handle r W with
  | (None, W) => (Err UnsupportedProcess, W)
  | (Some h, W) =>
      let claimed := default (ref_id r) expected_process_id in
      if claimed =? h_id h then (Ok h, W) else (Err (IdentityMismatch claimed), W)
  end.

(** ** Linking *)

(** The process of the handle can no longer be linked. *)
Definition link_terminated (c : LinkCell) (o : option (Ingress Sem Chan)) : bool :=
  bool_decide (is_Some (cell_terminal c)) ||
  match o with
  | Some p => bool_decide (is_Some (terminal_reason p)) || is_closed p
  | None => true  (* a handle keeps its ingress alive *)
  end.

Definition set_exit_tag (t : option Z) (r : LinkRelation) : LinkRelation :=
  mkRelation (token r) (peer_addr r) t.

(** [install], under the locks of both link states. *)
Definition install (left : Handle) (left_exit_tag : option Z) (cl : LinkCell)
    (right : Handle) (right_exit_tag : option Z) (cr : LinkCell) (W : World)
    : result unit LinkError * World :=
  let put cl cr := <[h_addr right := cr]> (<[h_addr left := cl]> (cells W)) in
  if link_terminated cl (ingresses W !! h_addr left) then (Err (Terminated (h_id left)), W)
  else if link_terminated cr (ingresses W !! h_addr right)
  then (Err (Terminated (h_id right)), W)
  else
    match relations cl !! h_id right, relations cr !! h_id left with
    | Some rl, Some rr =>
        if token rl =? token rr then
          (Ok tt, set_cells (put
             (set_relations (<[h_id right := set_exit_tag left_exit_tag rl]> (relations cl)) cl)
             (set_relations (<[h_id left := set_exit_tag right_exit_tag rr]> (relations cr)) cr)) W)
        else (Err (InconsistentState (h_id left) (h_id right)), W)
    | None, None =>
        match try_acquire_owned (link_admission cl) with
        | None => (Err (CapacityExhausted (h_id left)), W)
        | Some sl =>
            let cl := set_link_admission sl cl in
            match try_acquire_owned (link_admission cr) with
            | None =>
                (* the left permit is dropped *)
                (Err (CapacityExhausted (h_id right)),
                 set_cells (<[h_addr left := release_link cl]> (cells W)) W)
            | Some sr =>
                let cr := set_link_admission sr cr in
                let t := next_token W in
                (Ok tt,
                 mkWorld (ingresses W)
                   (put (set_relations (<[h_id right := mkRelation t (h_addr right) left_exit_tag]>
                                          (relations cl)) cl)
                        (set_relations (<[h_id left := mkRelation t (h_addr left) right_exit_tag]>
                                          (relations cr)) cr))
                   (t + 1))
            end
        end
    | _, _ => (Err (InconsistentState (h_id left) (h_id right)), W)
    end.

Definition link_pair (left : Handle) (left_exit_tag : option Z) (right : Handle)
    (right_exit_tag : option Z) (W : World) : result unit LinkError * World :=
  if h_addr left =? h_addr right then
    if h_id left =? h_id right then (Ok tt, W) else (Err (IdentityMismatch (h_id left)), W)
  else if h_id left =? h_id right then (Err (IdentityMismatch (h_id left)), W)
  else
    match cells W !! h_addr left, cells W !! h_addr right with
    | Some cl, Some cr => install left left_exit_tag cl right right_exit_tag cr W
    | _, _ => (Err UnsupportedProcess, W)  (* a handle keeps its link state alive *)
    end.

Definition link_processes (left : ProcessRef) (expected_left_id : option Z)
    (left_exit_tag : option Z) (right : ProcessRef) (expected_right_id : option Z)
    (right_exit_tag : option Z) (W : World) : result unit LinkError * World :=
  match checked_lifecycle_handle left expected_left_id W with
  | (Err e, W) => (Err e, W)
  | (Ok l, W) =>
      match checked_lifecycle_handle right expected_right_id W with
      | (Err e, W) => (Err e, W)
      | (Ok r, W) => link_pair l left_exit_tag r right_exit_tag W
      end
  end.

(** ** Unlinking *)

(** The first critical section of [unlink_peer]: the token and the peer of the
    relation. *)
Definition unlink_read (h : Handle) (peer_id : Z) (W : World) : option (Z * Z) :=
  c ← cells W !! h_addr h;
  r ← relations c !! peer_id;
  Some (token r, peer_addr r).

(** The second one, over both states: whatever changed since, only relations
    with that token are removed. *)
Definition unlink_commit (h : Handle) (peer_id tok peer : Z) (W : World) : bool * World :=
  let self_matches :=
    match cells W !! h_addr h with Some c => token_matches peer_id tok c | None => false end in
  let peer_matches :=
    match cells W !! peer with Some c => token_matches (h_id h) tok c | None => false end in
  let m := if self_matches then alter (remove_relation peer_id) (h_addr h) (cells W)
           else cells W in
  let m := if peer_matches then alter (remove_relation (h_id h)) peer m else m in
  (self_matches || peer_matches, set_cells m W).

Definition unlink_peer (h : Handle) (peer_id : Z) (W : World) : bool * World :=
  match unlink_read h peer_id W with
  | None => (false, W)
  | Some (tok, peer) => unlink_commit h peer_id tok peer W
  end.

Definition unlink_process (r : ProcessRef) (expected_process_id : option Z) (peer_id : Z)
    (W : World) : result bool LinkError * World :=
  match checked_lifecycle_handle r expected_process_id W with
  | (Err e, W) => (Err e, W)
  | (Ok h, W) => let '(b, W) := unlink_peer h peer_id W in (Ok b, W)
  end.

(** ** Termination *)

(** The first loop of [terminate] and of [LinkState::drop]: give back the
    permits of the relations taken from the state at [a], remove their
    counterparts, and collect whom to notify. *)
Fixpoint detach (self_id a : Z) (rels : list (Z * LinkRelation)) (m : gmap Z LinkCell)
    : gmap Z LinkCell * list (Z * Z * option Z) :=
  match rels with
  | [] => (m, [])
  | (peer_id, r) :: rels =>
      let m := alter release_link a m in
      match m !! peer_addr r with
      | None => detach self_id a rels m
      | Some cp =>
          if token_matches self_id (token r) cp then
            let m := <[peer_addr r := remove_relation self_id cp]> m in
            let '(m, ns) := detach self_id a rels m in
            (m, (peer_addr r, peer_id, exit_tag r) :: ns)
          else detach self_id a rels m
      end
  end.

(** [deliver_link_death] *)
Definition deliver_link_death (peer peer_id process_id : Z) (tag : option Z) (reason : DeathReason)
    (w : gmap Z (Ingress Sem Chan)) : gmap Z (Ingress Sem Chan) * list event :=
  let '(r, w, evs) := send_to_process peer peer_id (SLinkDied process_id tag reason) w in
  match r, reason with
  | Ok _, _ | Err _, Normal => (w, evs)
  | Err _, (Failure | NoProcess) => (alter request_kill peer w, evs)
  end.

Fixpoint deliver_link_deaths (ns : list (Z * Z * option Z)) (process_id : Z)
    (reason : DeathReason) (w : gmap Z (Ingress Sem Chan))
    : gmap Z (Ingress Sem Chan) * list event :=
  match ns with
  | [] => (w, [])
  | (peer, peer_id, tag) :: ns =>
      let '(w, evs) := deliver_link_death peer peer_id process_id tag reason w in
      let '(w, evs') := deliver_link_deaths ns process_id reason w in
      (w, evs ++ evs')
  end.

Definition terminate (h : Handle) (reason : DeathReason) (W : World) : World * list event :=
  let W := set_ingresses (alter (publish_terminal_reason reason) (h_addr h) (ingresses W)) W in
  match cells W !! h_addr h with
  | None => (W, [])
  | Some c =>
      if bool_decide (is_Some (cell_terminal c)) then (W, [])
      else
        let m := <[h_addr h := set_relations ∅ (set_terminal reason c)]> (cells W) in
        let '(m, ns) := detach (h_id h) (h_addr h) (map_to_list (relations c)) m in
        let '(w, evs) := deliver_link_deaths ns (h_id h) reason (ingresses W) in
        (mkWorld w m (next_token W), evs)
  end.

Definition relation_count (h : Handle) (W : World) : Z :=
  match cells W !! h_addr h with
  | Some c => Z.of_nat (size (relations c))
  | None => 0
  end.

(** [SignalReceiverLifetime::drop]: the last receiver is gone. *)
Definition receiver_lifetime_drop (a : Z) (W : World) : World * list event :=
  match cells W !! a with
  | None => (W, [])
  | Some c =>
      match cell_process_id c with
      | None => (W, [])
      | Some process_id =>
          match lifecycle_handle a process_id W with
          | (None, W) => (W, [])
          | (Some h, W) =>
              let reason := default NoProcess (ingresses W !! a ≫= terminal_reason) in
              terminate h reason W
          end
      end
  end.

(** [LinkState::drop]: the cell is gone, its peers are told. *)
Definition link_state_drop (a : Z) (W : World) : World * list event :=
  match cells W !! a with
  | None => (W, [])
  | Some c =>
      match cell_process_id c with
      | None => (set_cells (delete a (cells W)) W, [])
      | Some process_id =>
          let '(m, ns) := detach process_id a (map_to_list (relations c)) (delete a (cells W)) in
          let '(w, evs) := deliver_link_deaths ns process_id NoProcess (ingresses W) in
          (mkWorld w m (next_token W), evs)
      end
  end.
End links.
Arguments LinkCell : clear implicits.
Arguments World : clear implicits.

(** ** The invariant *)

Section theory.
Context {Sem : Type} `{!Semaphore Sem, !SemaphoreLaws Sem}.
Context {Chan : Type → Type} `{!Channel Chan, !ChannelLaws Chan}.
Implicit Types (W : World Sem Chan) (m : gmap Z (LinkCell Sem)) (c : LinkCell Sem).

(** Every relation has its counterpart, with the same token, in the state of
    the process it names. *)
Definition counterpart m (a : Z) c (q : Z) (r : LinkRelation) : Prop :=
  peer_addr r ≠ a ∧
  ∃ pa cb r', cell_process_id c = Some pa ∧ m !! peer_addr r = Some cb ∧
    cell_process_id cb = Some q ∧ relations cb !! pa = Some r' ∧
    token r' = token r ∧ peer_addr r' = a.

Record links_wf m : Prop := {
  lw_symmetric a c q r : m !! a = Some c → relations c !! q = Some r → counterpart m a c q r;
  lw_permits a c : m !! a = Some c →
    available_permits (link_admission c) + Z.of_nat (size (relations c)) = link_capacity c;
}.

(** A terminated process has no links. *)
Definition terminal_unlinked m : Prop :=
  ∀ a c, m !! a = Some c → is_Some (cell_terminal c) → relations c = ∅.

(** Deleting both sides of a link. *)
Definition remove_pair (a q b pa : Z) m : gmap Z (LinkCell Sem) :=
  alter (remove_relation pa) b (alter (remove_relation q) a m).

Lemma remove_pair_lookup a q b pa m x c' :
  a ≠ b → remove_pair a q b pa m !! x = Some c' →
  ∃ c, m !! x = Some c ∧ cell_process_id c' = cell_process_id c ∧
    cell_terminal c' = cell_terminal c ∧ link_capacity c' = link_capacity c ∧
    relations c' =
      (if decide (x = a) then delete q (relations c)
       else if decide (x = b) then delete pa (relations c) else relations c) ∧
    available_permits (link_admission c') =
      available_permits (link_admission c) + (if decide (x = a ∨ x = b) then 1 else 0).
Proof.
  intros Hab. unfold remove_pair. rewrite !lookup_alter.
  destruct (decide (b = x)) as [Hb|Hb], (decide (a = x)) as [Ha|Ha]; try congruence.
  - subst x. intros (c & Hc & ->)%fmap_Some_1. exists c. rewrite decide_False in Hc by done.
    rewrite (decide_False (P := b = a)), !decide_True by auto. simpl. rewrite available_release. by split_and!.
  - subst x. intros (c & Hc & ->)%fmap_Some_1. exists c.
    rewrite !decide_True by auto. simpl. rewrite available_release. by split_and!.
  - intros Hc. exists c'. rewrite !decide_False by naive_solver. split_and!; try done. lia.
Qed.

Lemma remove_pair_lookup_ne a q b pa m x c :
  a ≠ b → m !! x = Some c →
  ∃ c', remove_pair a q b pa m !! x = Some c' ∧ cell_process_id c' = cell_process_id c ∧
    relations c' =
      (if decide (x = a) then delete q (relations c)
       else if decide (x = b) then delete pa (relations c) else relations c).
Proof.
  intros Hab Hx. unfold remove_pair. rewrite !lookup_alter.
  destruct (decide (b = x)) as [Hb|Hb], (decide (a = x)) as [Ha|Ha]; try congruence; subst;
    rewrite ?decide_False, Hx by done; simpl;
    eexists; (split; [done|]); repeat case_decide; naive_solver.
Qed.

Lemma remove_pair_wf m a c q r pa :
  links_wf m → m !! a = Some c → relations c !! q = Some r → cell_process_id c = Some pa →
  links_wf (remove_pair a q (peer_addr r) pa m).
Proof.
  intros [Hsym Hper] Ha Hq Hid.
  destruct (Hsym a c q r Ha Hq) as (Hne & pa' & cb & r' & Hid' & Hb & Hidb & Hr' & Htok & Hpa).
  assert (pa' = pa) as -> by congruence. clear Hid'. remember (peer_addr r) as b eqn:Eb.
  split.
  - intros x cx' k rk Hx Hk.
    destruct (remove_pair_lookup a q b pa m x cx' ltac:(congruence) Hx)
      as (cx & Hcx & Hidx & _ & _ & Hrel & _).
    assert (relations cx !! k = Some rk) as Hk'.
    { rewrite Hrel in Hk. repeat case_decide; [| |done]; by apply lookup_delete_Some in Hk as []. }
    destruct (Hsym x cx k rk Hcx Hk') as (Hne' & px & cy & ry & Hpx & Hy & Hidy & Hry & Hty & Hpy).
    split; [done|].
    destruct (remove_pair_lookup_ne a q b pa m (peer_addr rk) cy ltac:(congruence) Hy)
      as (cy' & Hy' & Hidy' & Hrely). exists px, cy', ry.
    rewrite Hidx, Hidy'. split_and!; try done. rewrite Hrely.
    (* the counterpart was not one of the two deleted sides *)
    destruct (decide (peer_addr rk = a)) as [Hya|Hya];
      [|destruct (decide (peer_addr rk = b)) as [Hyb|Hyb]; [|done]].
    + rewrite lookup_delete_ne; [done|]. intros ->. assert (cy = c) as -> by congruence.
      assert (ry = r) as -> by congruence.
      assert (x = b) as -> by congruence. rewrite Hrel in Hk.
      rewrite decide_False, decide_True in Hk by congruence.
      assert (k = pa) as -> by congruence. by rewrite lookup_delete_eq in Hk.
    + rewrite lookup_delete_ne; [done|]. intros ->. assert (cy = cb) as -> by congruence.
      assert (ry = r') as -> by congruence. assert (x = a) as -> by congruence.
      rewrite Hrel, decide_True in Hk by done.
      assert (k = q) as -> by congruence. by rewrite lookup_delete_eq in Hk.
  - intros x cx' Hx. destruct (remove_pair_lookup a q b pa m x cx' ltac:(congruence) Hx)
      as (cx & Hcx & _ & _ & Hcap & Hrel & Hav).
    specialize (Hper x cx Hcx). rewrite Hcap, Hrel, Hav. clear Hsym Hrel Hav Hcap Hx.
    destruct (decide (x = a)) as [->|Hxa]; [|destruct (decide (x = b)) as [->|Hxb]].
    + rewrite decide_True by auto. assert (cx = c) as -> by congruence.
      rewrite map_size_delete_Some by done.
      assert (size (relations c) ≠ 0)%nat by (eapply map_size_ne_0_lookup_2; eauto). lia.
    + rewrite decide_True by auto. assert (cx = cb) as -> by congruence.
      rewrite map_size_delete_Some by done.
      assert (size (relations cb) ≠ 0)%nat by (eapply map_size_ne_0_lookup_2; eauto). lia.
    + rewrite decide_False by tauto. lia.
Qed.

(** A cell without relations can go away. *)
Lemma delete_unlinked_wf m a c :
  links_wf (<[a := c]> m) → relations c = ∅ → m !! a = None → links_wf m.
Proof.
  intros [Hsym Hper] Hc Ha.
  assert (∀ x cx, m !! x = Some cx → <[a := c]> m !! x = Some cx) as Hin.
  { intros x cx Hx. rewrite lookup_insert_ne; [done|]. intros ->. congruence. }
  split; [|intros x cx Hx; by eapply Hper, Hin].
  intros x cx q r Hx Hq.
  destruct (Hsym x cx q r (Hin _ _ Hx) Hq) as (Hne & px & cy & ry & ? & Hy & ? & Hry & ? & ?).
  split; [done|]. exists px, cy, ry. split_and!; try done.
  rewrite lookup_insert in Hy. case_decide; [|done]. simplify_eq.
  by rewrite Hc, lookup_empty in Hry.
Qed.

(** The loop over the relations of the process at [a], whose cell is [c] (in
    the map, or already taken out of it): it removes the links one by one. *)
Lemma detach_spec self a rels m c m' ns :
  (m !! a = Some c ∨ m !! a = None) → cell_process_id c = Some self → NoDup rels.*1 →
  links_wf (<[a := set_relations (list_to_map rels) c]> m) →
  detach self a rels m = (m', ns) →
  ∃ c', links_wf (<[a := set_relations ∅ c']> m') ∧
    (m' !! a = if decide (m !! a = None) then None else Some c') ∧
    cell_process_id c' = Some self ∧ cell_terminal c' = cell_terminal c ∧
    relations c' = relations c ∧
    ns = (fun '(q, r) => (peer_addr r, q, exit_tag r)) <$> rels ∧
    ∀ x cx', x ≠ a → m' !! x = Some cx' → ∃ cx, m !! x = Some cx ∧
      cell_process_id cx' = cell_process_id cx ∧ cell_terminal cx' = cell_terminal cx ∧
      relations cx' ⊆ relations cx.
Proof.
  revert m c m' ns. induction rels as [|[q r] rels IH]; intros m c m' ns Ha Hid Hnd Hwf.
  { intros [= <- <-]. exists c. split_and!; try done.
    - destruct Ha as [Ha|Ha]; rewrite Ha; [by rewrite decide_False|by rewrite decide_True].
    - intros x cx _ Hx. by exists cx. }
  csimpl in Hnd. apply list.NoDup_cons in Hnd as [Hq Hnd]. cbn [detach].
  set (V := <[a := set_relations (list_to_map ((q, r) :: rels)) c]> m) in Hwf.
  assert (V !! a = Some (set_relations (list_to_map ((q, r) :: rels)) c)) as HVa
    by apply lookup_insert_eq.
  assert (relations (set_relations (list_to_map ((q, r) :: rels)) c) !! q = Some r) as HVq
    by (simpl; apply lookup_insert_eq).
  destruct (lw_symmetric _ Hwf _ _ _ _ HVa HVq)
    as (Hne & pa & cb & r' & Hpa & Hb & Hidb & Hr' & Htok & _).
  assert (pa = self) as -> by (simpl in Hpa; congruence). clear Hpa.
  pose proof (remove_pair_wf V a _ q r self Hwf HVa HVq Hid) as Hwf'.
  unfold V in Hb. rewrite lookup_insert_ne in Hb by done.
  assert (alter release_link a m !! peer_addr r = Some cb) as Hb1
    by by rewrite lookup_alter, decide_False by done.
  rewrite Hb1. assert (token_matches self (token r) cb = true) as ->
    by (unfold token_matches; rewrite Hr'; by apply Z.eqb_eq).
  set (m2 := <[peer_addr r := remove_relation self cb]> (alter release_link a m)).
  destruct (detach self a rels m2) as [m3 ns3] eqn:Hdet. intros [= <- <-].
  assert (m2 !! a = release_link <$> m !! a) as Hm2a.
  { unfold m2. rewrite lookup_insert_ne, lookup_alter, decide_True by done. done. }
  destruct (IH m2 (release_link c) m3 ns3) as (c' & Hwf3 & Hm3a & Hid3 & Ht3 & Hr3 & Hns & Hfr);
    try done.
  { rewrite Hm2a. destruct Ha as [-> | ->]; [by left|by right]. }
  { replace (<[a := set_relations (list_to_map rels) (release_link c)]> m2)
      with (remove_pair a q (peer_addr r) self V); [done|].
    apply map_eq. intros x. unfold remove_pair, V, m2. rewrite !lookup_alter, !lookup_insert.
    destruct (decide (a = x)) as [Hx|Hx]; [subst x|].
    - rewrite decide_False by done. rewrite decide_True by done. simpl. f_equal.
      unfold remove_relation; simpl. rewrite delete_insert_id; [done|].
      by apply not_elem_of_list_to_map_1.
    - destruct (decide (peer_addr r = x)) as [Hx'|Hx']; [subst x|].
      + rewrite Hb. by rewrite !(decide_False (P := a = peer_addr r)) by done.
      + rewrite lookup_alter. by rewrite decide_False. }
  exists c'. split_and!; try done.
  - rewrite Hm3a, Hm2a. destruct Ha as [-> | ->]; [by rewrite !decide_False|by rewrite !decide_True].
  - csimpl. by rewrite Hns.
  - intros x cx' Hxa Hx. destruct (Hfr x cx' Hxa Hx) as (cx & Hcx & ? & ? & ?).
    unfold m2 in Hcx. rewrite lookup_insert in Hcx. case_decide as Hxb.
    + injection Hcx as <-. subst x. exists cb. split_and!; try done. simpl in *.
      etrans; [done|]. apply delete_subseteq.
    + rewrite lookup_alter, decide_False in Hcx by done. by exists cx.
Qed.

(** *** Linking *)

(** A handle names the process of the link state it refers to. *)
Definition handle_ok (h : Handle) m : Prop :=
  ∃ c, m !! h_addr h = Some c ∧ cell_process_id c = Some (h_id h).

(** Changing exit tags, or the terminal reason, only. *)
Definition untag (r : LinkRelation) : Z * Z := (token r, peer_addr r).

Definition retagged c c' : Prop :=
  cell_process_id c' = cell_process_id c ∧
  link_admission c' = link_admission c ∧ link_capacity c' = link_capacity c ∧
  untag <$> relations c' = untag <$> relations c.

Lemma retagged_lookup c c' q r :
  retagged c c' → relations c' !! q = Some r →
  ∃ r0, relations c !! q = Some r0 ∧ token r = token r0 ∧ peer_addr r = peer_addr r0.
Proof.
  intros (_ & _ & _ & Hrel) Hq.
  assert ((untag <$> relations c') !! q = Some (untag r)) as Hu by by rewrite lookup_fmap, Hq.
  rewrite Hrel, lookup_fmap in Hu. apply fmap_Some_1 in Hu as (r0 & Hr0 & [=]). eauto.
Qed.

Lemma retagged_sym c c' : retagged c c' → retagged c' c.
Proof. intros (? & ? & ? & ?). by split_and!. Qed.

Lemma retagged_wf m m' :
  (∀ x, option_Forall2 retagged (m !! x) (m' !! x)) → links_wf m → links_wf m'.
Proof.
  intros Hre [Hsym Hper].
  assert (∀ x c', m' !! x = Some c' → ∃ c, m !! x = Some c ∧ retagged c c') as Hback.
  { intros x c' Hx. specialize (Hre x). rewrite Hx in Hre. inversion Hre; eauto. }
  split.
  - intros x cx' q r Hx Hq. destruct (Hback x cx' Hx) as (cx & Hcx & Hrx).
    destruct (retagged_lookup _ _ _ _ Hrx Hq) as (r0 & Hr0 & Ht & Hp).
    destruct (Hsym x cx q r0 Hcx Hr0) as (Hne & px & cy & ry & ? & Hy & ? & Hry & ? & ?).
    rewrite <- Hp in *. split; [done|].
    specialize (Hre (peer_addr r)). rewrite Hy in Hre. inversion Hre as [? cy' Hrey Hy1 Hy2|]; subst.
    destruct (retagged_lookup _ _ px ry (retagged_sym _ _ Hrey) Hry) as (ry' & Hry' & ? & ?).
    exists px, cy', ry'. destruct Hrx as (Hidx & _), Hrey as (Hidy & _).
    split_and!; congruence.
  - intros x cx' Hx. destruct (Hback x cx' Hx) as (cx & Hcx & _ & Had & Hcap & Hrel).
    rewrite Had, Hcap, <- (Hper x cx Hcx).
    by rewrite <- (map_size_fmap untag), Hrel, map_size_fmap.
Qed.

Lemma retag_relation q r t c :
  relations c !! q = Some r → retagged c (set_relations (<[q := set_exit_tag t r]> (relations c)) c).
Proof.
  intros Hq. split_and!; try done. simpl. rewrite fmap_insert. apply insert_id.
  by rewrite lookup_fmap, Hq.
Qed.

(** Adding both sides of a link. *)
Definition link_cell (q t b : Z) (tag : option Z) (s : Sem) c : LinkCell Sem :=
  set_relations (<[q := mkRelation t b tag]> (relations c)) (set_link_admission s c).

Lemma add_pair_wf m a b ca cb p q t ta tb sa sb :
  links_wf m → a ≠ b → m !! a = Some ca → m !! b = Some cb →
  cell_process_id ca = Some p → cell_process_id cb = Some q →
  relations ca !! q = None → relations cb !! p = None →
  try_acquire_owned (link_admission ca) = Some sa →
  try_acquire_owned (link_admission cb) = Some sb →
  links_wf (<[b := link_cell p t a tb sb cb]> (<[a := link_cell q t b ta sa ca]> m)).
Proof.
  intros [Hsym Hper] Hab Ha Hb Hp Hq Hqa Hpb Hsa%try_acquire_Some Hsb%try_acquire_Some.
  set (m' := <[b := _]> _).
  assert (m' !! a = Some (link_cell q t b ta sa ca)) as Ha'
    by by unfold m'; rewrite lookup_insert_ne, lookup_insert_eq by done.
  assert (m' !! b = Some (link_cell p t a tb sb cb)) as Hb' by apply lookup_insert_eq.
  assert (∀ x, x ≠ a → x ≠ b → m' !! x = m !! x) as Hother
    by by intros x ? ?; unfold m'; rewrite !lookup_insert_ne.
  (* what was linked stays linked *)
  assert (∀ x cx k r, m !! x = Some cx → relations cx !! k = Some r →
    ∃ cx', m' !! x = Some cx' ∧ cell_process_id cx' = cell_process_id cx ∧
      relations cx' !! k = Some r) as Hkeep.
  { intros x cx k r Hx Hk. destruct (decide (x = a)) as [->|]; [|destruct (decide (x = b)) as [->|]].
    - eexists. split; [done|]. simplify_eq. split; [done|]. simpl.
      rewrite lookup_insert_ne; [done|congruence].
    - eexists. split; [done|]. simplify_eq. split; [done|]. simpl.
      rewrite lookup_insert_ne; [done|congruence].
    - exists cx. by rewrite Hother. }
  assert (∀ x cx cx' k r, m !! x = Some cx → m' !! x = Some cx' →
    cell_process_id cx' = cell_process_id cx → relations cx !! k = Some r →
    counterpart m' x cx' k r) as Hold.
  { intros x cx cx' k r Hx Hx' Hid Hk.
    destruct (Hsym x cx k r Hx Hk) as (Hne & px & cy & ry & ? & Hy & ? & Hry & ? & ?).
    split; [done|]. destruct (Hkeep _ cy px ry Hy Hry) as (cy' & ? & ? & ?).
    exists px, cy', ry. split_and!; congruence. }
  split.
  - intros x cx' k r Hx Hk. destruct (decide (x = a)) as [->|]; [|destruct (decide (x = b)) as [->|]].
    + rewrite Ha' in Hx. injection Hx as <-. simpl in Hk. rewrite lookup_insert in Hk. case_decide.
      * simplify_eq/=. split; [done|]. exists p, (link_cell p t a tb sb cb), (mkRelation t a tb).
        simpl. split_and!; try done. apply lookup_insert_eq.
      * by eapply Hold.
    + rewrite Hb' in Hx. injection Hx as <-. simpl in Hk. rewrite lookup_insert in Hk. case_decide.
      * simplify_eq/=. split; [done|]. exists q, (link_cell q t b ta sa ca), (mkRelation t b ta).
        simpl. split_and!; try done. apply lookup_insert_eq.
      * by eapply Hold.
    + rewrite Hother in Hx by done. eapply Hold; [done|by rewrite Hother|done|done].
  - intros x cx' Hx. destruct (decide (x = a)) as [->|]; [|destruct (decide (x = b)) as [->|]].
    + rewrite Ha' in Hx. injection Hx as <-. simpl. rewrite map_size_insert_None by done.
      specialize (Hper a ca Ha). lia.
    + rewrite Hb' in Hx. injection Hx as <-. simpl. rewrite map_size_insert_None by done.
      specialize (Hper b cb Hb). lia.
    + rewrite Hother in Hx by done. by apply (Hper x).
Qed.

(** Equal up to the identity of returned permits. *)
Definition cell_equiv c c' : Prop :=
  cell_process_id c' = cell_process_id c ∧ cell_terminal c' = cell_terminal c ∧
  relations c' = relations c ∧ link_capacity c' = link_capacity c ∧
  available_permits (link_admission c') = available_permits (link_admission c).

Lemma cell_equiv_refl_map m x : option_Forall2 cell_equiv (m !! x) (m !! x).
Proof. destruct (m !! x); constructor. by split_and!. Qed.

Lemma cell_equiv_wf m m' :
  (∀ x, option_Forall2 cell_equiv (m !! x) (m' !! x)) → links_wf m → links_wf m'.
Proof.
  intros Heq [Hsym Hper]. split.
  - intros x cx' q r Hx Hq. pose proof (Heq x) as Hex. rewrite Hx in Hex.
    inversion Hex as [cx ? (Hidx & _ & Hrx & _) Hcx|]; subst. symmetry in Hcx. rewrite Hrx in Hq.
    destruct (Hsym x cx q r Hcx Hq) as (Hne & px & cy & ry & ? & Hy & ? & ? & ? & ?).
    split; [done|]. pose proof (Heq (peer_addr r)) as Hey. rewrite Hy in Hey.
    inversion Hey as [? cy' (Hidy & _ & Hry & _)|]; subst.
    exists px, cy', ry. split_and!; congruence.
  - intros x cx' Hx. pose proof (Heq x) as Hex. rewrite Hx in Hex.
    inversion Hex as [cx ? (_ & _ & Hrx & Hcap & Hav) Hcx|]; subst. symmetry in Hcx.
    rewrite Hrx, Hcap, Hav. by apply (Hper x).
Qed.

(** The cells of a link that was made. *)
Definition linked_to (l r : Handle) (tag : option Z) m : Prop :=
  ∃ c rel, m !! h_addr l = Some c ∧ relations c !! h_id r = Some rel ∧
    peer_addr rel = h_addr r ∧ exit_tag rel = tag.

(** Tokens are never reused: one token, one pair of processes. *)
Record tokens_ok (next : Z) m : Prop := {
  tk_lt x c k r : m !! x = Some c → relations c !! k = Some r → token r < next;
  tk_unique x c k r x' c' k' r' : m !! x = Some c → relations c !! k = Some r →
    m !! x' = Some c' → relations c' !! k' = Some r' → token r = token r' →
    x' = x ∨ x' = peer_addr r;
}.

(** Relations only go away or change their tag. *)
Definition sub_relations m' m : Prop :=
  ∀ x c' k r', m' !! x = Some c' → relations c' !! k = Some r' →
    ∃ c r, m !! x = Some c ∧ relations c !! k = Some r ∧ untag r = untag r'.

Lemma tokens_ok_mono next m m' : sub_relations m' m → tokens_ok next m → tokens_ok next m'.
Proof.
  intros Hsub [Hlt Hun]. split.
  - intros x c' k r' Hx Hk. destruct (Hsub x c' k r' Hx Hk) as (c & r & ? & ? & [= Ht _]).
    rewrite <- Ht. eauto.
  - intros x c k r x' c' k' r' Hx Hk Hx' Hk' Heq.
    destruct (Hsub x c k r Hx Hk) as (d & u & ? & ? & [= Ht Hp]).
    destruct (Hsub x' c' k' r' Hx' Hk') as (d' & u' & ? & ? & [= Ht' _]).
    rewrite <- Hp. eapply Hun; eauto. congruence.
Qed.

Lemma sub_relations_equiv m m' :
  (∀ x, option_Forall2 cell_equiv (m !! x) (m' !! x)) → sub_relations m' m.
Proof.
  intros Heq x c' k r' Hx Hk. specialize (Heq x). rewrite Hx in Heq.
  inversion Heq as [c ? (_ & _ & Hr & _) Hc|]; subst. exists c, r'. by rewrite <- Hr.
Qed.

(** The invariant of the links of a node. *)
Definition links_inv W : Prop :=
  links_wf (cells W) ∧ terminal_unlinked (cells W) ∧ tokens_ok (next_token W) (cells W).

Definition link_result (l r : Handle) (ta tb : option Z) W (res : result unit LinkError) W' : Prop :=
  links_inv W' ∧ ingresses W' = ingresses W ∧
  match res with
  | Ok _ => linked_to l r ta (cells W') ∧ linked_to r l tb (cells W')
  | Err _ => ∀ x, option_Forall2 cell_equiv (cells W !! x) (cells W' !! x)
  end.

Lemma link_result_same l r ta tb W e : links_inv W → link_result l r ta tb W (Err e) W.
Proof. intros Hinv. split_and!; try done. intros x. apply cell_equiv_refl_map. Qed.

(** The relations of a live process are not constrained. *)
Lemma terminal_unlinked_insert m a c c0 :
  terminal_unlinked m → m !! a = Some c0 → cell_terminal c0 = None →
  cell_terminal c = cell_terminal c0 → terminal_unlinked (<[a := c]> m).
Proof.
  intros Ht Ha Hl Hc x cx. rewrite lookup_insert. case_decide; [|apply Ht].
  intros [= <-]. rewrite Hc, Hl. by intros [].
Qed.

(** The same cell with what it had acquired given back. *)
Lemma release_acquired_equiv m a c s :
  m !! a = Some c → try_acquire_owned (link_admission c) = Some s →
  ∀ x, option_Forall2 cell_equiv (m !! x) (<[a := release_link (set_link_admission s c)]> m !! x).
Proof.
  intros Ha Hs%try_acquire_Some x. rewrite lookup_insert.
  case_decide; [subst x; rewrite Ha; constructor|apply cell_equiv_refl_map].
  split_and!; try done. simpl. rewrite available_release. lia.
Qed.

(** Making a link that is already there updates the tags. *)
Lemma relink_spec l ta cl r tb cr rl rr W :
  links_inv W → h_addr l ≠ h_addr r →
  cells W !! h_addr l = Some cl → cells W !! h_addr r = Some cr →
  cell_terminal cl = None → cell_terminal cr = None →
  relations cl !! h_id r = Some rl → relations cr !! h_id l = Some rr → token rl = token rr →
  link_result l r ta tb W (Ok tt) (set_cells (<[h_addr r :=
      set_relations (<[h_id l := set_exit_tag tb rr]> (relations cr)) cr]> (<[h_addr l :=
      set_relations (<[h_id r := set_exit_tag ta rl]> (relations cl)) cl]> (cells W))) W).
Proof.
  intros (Hwf & Ht & Htok) Hne Hl Hr Hcl Hcr Hrl Hrr Heq. set (m' := <[h_addr r := _]> _).
  assert (∀ x, option_Forall2 retagged (cells W !! x) (m' !! x)) as Hre.
  { intros x. unfold m'. rewrite !lookup_insert. repeat case_decide; subst.
    - rewrite Hr. constructor. by apply retag_relation.
    - rewrite Hl. constructor. by apply retag_relation.
    - destruct (cells W !! x); constructor. by split_and!. }
  split; [split_and!|split; [done|split]]; simpl.
  - by eapply retagged_wf.
  - eapply terminal_unlinked_insert; [|by rewrite lookup_insert_ne|done|done].
    by eapply terminal_unlinked_insert.
  - eapply tokens_ok_mono; [|exact Htok]. intros x c' k r' Hx Hk. specialize (Hre x).
    rewrite Hx in Hre. inversion Hre as [c ? Hc Hcx|]; subst.
    destruct (retagged_lookup _ _ _ _ Hc Hk) as (r0 & ? & ? & ?).
    exists c, r0. split_and!; try done. unfold untag. congruence.
  - eexists _, _. unfold m'. rewrite lookup_insert_ne, lookup_insert_eq by done. split; [done|].
    simpl. rewrite lookup_insert_eq. split_and!; try done. simpl. symmetry.
    by destruct (tk_unique _ _ Htok _ _ _ _ _ _ _ _ Hl Hrl Hr Hrr Heq).
  - eexists _, _. unfold m'. rewrite lookup_insert_eq by done. split; [done|].
    simpl. rewrite lookup_insert_eq. split_and!; try done. simpl. symmetry.
    by destruct (tk_unique _ _ Htok _ _ _ _ _ _ _ _ Hr Hrr Hl Hrl (eq_sym Heq)).
Qed.

Lemma new_link_spec l ta cl r tb cr sl sr W :
  links_inv W → h_addr l ≠ h_addr r →
  cells W !! h_addr l = Some cl → cells W !! h_addr r = Some cr →
  cell_process_id cl = Some (h_id l) → cell_process_id cr = Some (h_id r) →
  cell_terminal cl = None → cell_terminal cr = None →
  relations cl !! h_id r = None → relations cr !! h_id l = None →
  try_acquire_owned (link_admission cl) = Some sl →
  try_acquire_owned (link_admission cr) = Some sr →
  link_result l r ta tb W (Ok tt)
    (mkWorld (ingresses W)
       (<[h_addr r := link_cell (h_id l) (next_token W) (h_addr l) tb sr cr]>
          (<[h_addr l := link_cell (h_id r) (next_token W) (h_addr r) ta sl cl]> (cells W)))
       (next_token W + 1)).
Proof.
  intros (Hwf & Ht & [Hlt Hun]) Hne Hl Hr Hidl Hidr Hcl Hcr Hrl Hrr Hsl Hsr.
  assert (∀ x c' k r', (<[h_addr r := link_cell (h_id l) (next_token W) (h_addr l) tb sr cr]>
      (<[h_addr l := link_cell (h_id r) (next_token W) (h_addr r) ta sl cl]> (cells W))) !! x
      = Some c' → relations c' !! k = Some r' →
    (∃ c, cells W !! x = Some c ∧ relations c !! k = Some r') ∨
    (token r' = next_token W ∧
      ((x = h_addr l ∧ peer_addr r' = h_addr r) ∨ (x = h_addr r ∧ peer_addr r' = h_addr l))))
    as Hinv.
  { intros x c' k r'. rewrite !lookup_insert. repeat case_decide; subst.
    - intros [= <-]. simpl. rewrite lookup_insert. case_decide; [intros [= <-]; simpl; auto|eauto].
    - intros [= <-]. simpl. rewrite lookup_insert. case_decide; [intros [= <-]; simpl; auto|eauto].
    - eauto. }
  split; [split_and!|split; [done|split]]; simpl.
  - by apply add_pair_wf.
  - eapply terminal_unlinked_insert; [|by rewrite lookup_insert_ne|done|done].
    by eapply terminal_unlinked_insert.
  - split.
    + intros x c k u Hx Hk. destruct (Hinv x c k u Hx Hk) as [(c0 & ? & ?)|[-> _]]; [|lia].
      assert (token u < next_token W) by eauto. lia.
    + intros x c k u x' c' k' u' Hx Hk Hx' Hk' Heq.
      destruct (Hinv x c k u Hx Hk) as [(c0 & ? & ?)|[Htu Hpu]],
        (Hinv x' c' k' u' Hx' Hk') as [(c0' & ? & ?)|[Htu' Hpu']].
      * by eapply (Hun x c0 k u x' c0').
      * assert (token u < next_token W) by eauto. lia.
      * assert (token u' < next_token W) by eauto. lia.
      * naive_solver.
  - eexists _, _. rewrite lookup_insert_ne, lookup_insert_eq by done. split; [done|].
    simpl. by rewrite lookup_insert_eq.
  - eexists _, _. rewrite lookup_insert_eq. split; [done|]. simpl. by rewrite lookup_insert_eq.
Qed.

Lemma install_spec l ta cl r tb cr W res W' :
  links_inv W → h_addr l ≠ h_addr r →
  cells W !! h_addr l = Some cl → cells W !! h_addr r = Some cr →
  cell_process_id cl = Some (h_id l) → cell_process_id cr = Some (h_id r) →
  install l ta cl r tb cr W = (res, W') → link_result l r ta tb W res W'.
Proof.
  intros Hinv Hne Hl Hr Hidl Hidr. unfold install.
  destruct (link_terminated cl _) eqn:Htl; [by intros [= <- <-]; apply link_result_same|].
  destruct (link_terminated cr _) eqn:Htr; [by intros [= <- <-]; apply link_result_same|].
  unfold link_terminated in Htl, Htr. bool_to_prop.
  assert (cell_terminal cl = None) as Hcl by by apply eq_None_not_Some.
  assert (cell_terminal cr = None) as Hcr by by apply eq_None_not_Some.
  destruct (relations cl !! h_id r) as [rl|] eqn:Hrl, (relations cr !! h_id l) as [rr|] eqn:Hrr;
    try (by intros [= <- <-]; apply link_result_same).
  - destruct (token rl =? token rr) eqn:Heq; [|by intros [= <- <-]; apply link_result_same].
    bool_to_prop. intros [= <- <-]. by apply relink_spec.
  - destruct (try_acquire_owned (link_admission cl)) as [sl|] eqn:Hsl;
      [|by intros [= <- <-]; apply link_result_same].
    destruct (try_acquire_owned (link_admission cr)) as [sr|] eqn:Hsr; intros [= <- <-].
    + by apply new_link_spec.
    + pose proof (release_acquired_equiv (cells W) (h_addr l) cl sl Hl Hsl) as Heq.
      destruct Hinv as (Hwf & Ht & Htok). split; [split_and!|split; [done|exact Heq]]; simpl.
      * by eapply cell_equiv_wf.
      * by eapply terminal_unlinked_insert.
      * eapply tokens_ok_mono; [|done]. by apply sub_relations_equiv.
Qed.

Lemma link_pair_spec l ta r tb W res W' :
  links_inv W → handle_ok l (cells W) → handle_ok r (cells W) → h_addr l ≠ h_addr r →
  link_pair l ta r tb W = (res, W') → link_result l r ta tb W res W'.
Proof.
  intros Hinv (cl & Hl & Hidl) (cr & Hr & Hidr) Hne. unfold link_pair.
  rewrite (proj2 (Z.eqb_neq _ _) Hne).
  destruct (h_id l =? h_id r); [by intros [= <- <-]; apply link_result_same|].
  rewrite Hl, Hr. by apply install_spec.
Qed.

(** *** Unlinking *)

Lemma remove_pair_sub m a q b pa : a ≠ b → sub_relations (remove_pair a q b pa m) m.
Proof.
  intros Hab x c' k r' Hx Hk.
  destruct (remove_pair_lookup a q b pa m x c' Hab Hx) as (c & Hc & _ & _ & _ & Hrel & _).
  exists c, r'. split_and!; try done. rewrite Hrel in Hk.
  destruct (decide (x = a)); [by apply lookup_delete_Some in Hk as []|].
  destruct (decide (x = b)); [by apply lookup_delete_Some in Hk as []|done].
Qed.

Lemma remove_pair_terminal m a q b pa :
  a ≠ b → terminal_unlinked m → terminal_unlinked (remove_pair a q b pa m).
Proof.
  intros Hab Ht x c' Hx Hter.
  destruct (remove_pair_lookup a q b pa m x c' Hab Hx) as (c & Hc & _ & Hct & _ & Hrel & _).
  rewrite Hct in Hter. rewrite Hrel, (Ht x c Hc Hter), !delete_empty. by repeat case_decide.
Qed.

Lemma unlink_peer_spec h q W :
  links_inv W → handle_ok h (cells W) →
  match cells W !! h_addr h ≫= fun c => relations c !! q with
  | None => unlink_peer h q W = (false, W)
  | Some r => unlink_peer h q W =
      (true, set_cells (remove_pair (h_addr h) q (peer_addr r) (h_id h) (cells W)) W) ∧
      links_inv (set_cells (remove_pair (h_addr h) q (peer_addr r) (h_id h) (cells W)) W) ∧
      peer_addr r ≠ h_addr h
  end.
Proof.
  intros (Hwf & Ht & Htok) (c & Hc & Hid). unfold unlink_peer, unlink_read. rewrite Hc. simpl.
  destruct (relations c !! q) as [r|] eqn:Hq; simpl; [|done].
  destruct (lw_symmetric _ Hwf _ _ _ _ Hc Hq) as (Hne & pa & cb & r' & Hpa & Hb & _ & Hr' & Heq & _).
  assert (pa = h_id h) as -> by congruence. split.
  - unfold unlink_commit. rewrite Hc, Hb. unfold token_matches.
    by rewrite Hq, Hr', Heq, Z.eqb_refl.
  - split; [split_and!; simpl|done].
    + by eapply remove_pair_wf.
    + by apply remove_pair_terminal.
    + eapply tokens_ok_mono; [|done]. by apply remove_pair_sub.
Qed.

(** *** Death notifications *)

(** The peer was told, or told to die. *)
Definition told (s : Signal) (p : Ingress Sem Chan) : Prop :=
  kill_requested p = true ∨ ∃ e, e ∈ queued (queue p) ∧ signal e = s.

Lemma told_grows s p p' : grows p p' → told s p → told s p'.
Proof.
  intros ([l Hl] & _ & _ & Hk & _) [H|(e & He & Hs)]; [left; auto|right].
  exists e. rewrite Hl. split; [|done]. apply elem_of_app. by left.
Qed.

Lemma deliver_link_death_grows b q id tag reason w :
  world_grows w (deliver_link_death b q id tag reason w).1.
Proof.
  unfold deliver_link_death, send_to_process.
  pose proof (send_inner_grows b (SLinkDied id tag reason) (Some q) w) as Hg.
  destruct (send_inner b _ _ w) as [[r w1] evs]. simpl in Hg.
  destruct r, reason; try exact Hg; (etrans; [exact Hg|]); apply alter_grows; intros p;
    (split_and!; try done); exists []; by rewrite app_nil_r.
Qed.

Lemma deliver_link_death_told b q id tag reason w p :
  reason ≠ Normal → w !! b = Some p →
  ∃ p', (deliver_link_death b q id tag reason w).1 !! b = Some p' ∧
    told (SLinkDied id tag reason) p'.
Proof.
  intros Hreason Hb. unfold deliver_link_death, send_to_process.
  pose proof (send_inner_grows b (SLinkDied id tag reason) (Some q) w b p Hb) as (p1 & Hp1 & _).
  destruct (decide (chan_is_closed (queue p) = true ∨
    (Some q ≠ None ∧ lifecycle_death_reason p ≠ None))) as [Hd|Hd].
  - unfold send_inner in *. rewrite (send_dead _ _ _ _ _ p) in Hp1 |- * by done. simpl in *.
    exists (request_kill p). split; [|by left].
    by destruct reason; simpl; rewrite ?lookup_alter, ?decide_True, ?Hb by done.
  - pose proof (send_live_spec b (SLinkDied id tag reason) (Some q) w p Hb) as Hlive.
    destruct (send_inner b _ _ w) as [[r w1] evs]. simpl in Hp1.
    destruct Hlive as [_ Hok]; [by apply not_true_iff_false; tauto| |done|].
    { right. unfold terminal_reason. destruct (lifecycle_death_reason p); naive_solver. }
    destruct r as [[]|e].
    + destruct (Hok eq_refl) as (_ & p' & e & Hp' & Hq & Hs & _). exists p'. split; [done|].
      right. exists e. rewrite Hq. split; [|done]. apply elem_of_app. right. by apply list_elem_of_singleton.
    + exists (request_kill p1). split; [|by left].
      by destruct reason; simpl; rewrite ?lookup_alter, ?decide_True, ?Hp1 by done.
Qed.

Lemma deliver_link_deaths_grows ns id reason w :
  world_grows w (deliver_link_deaths ns id reason w).1.
Proof.
  revert w. induction ns as [|[[b q] tag] ns IH]; intros w; cbn [deliver_link_deaths]; [done|].
  pose proof (deliver_link_death_grows b q id tag reason w) as Hg.
  destruct (deliver_link_death b q id tag reason w) as [w1 evs]. specialize (IH w1).
  destruct (deliver_link_deaths ns id reason w1) as [w2 evs']. simpl in *. by etrans.
Qed.

Lemma deliver_link_deaths_told ns id reason w b q tag p :
  reason ≠ Normal → (b, q, tag) ∈ ns → w !! b = Some p →
  ∃ p', (deliver_link_deaths ns id reason w).1 !! b = Some p' ∧
    told (SLinkDied id tag reason) p'.
Proof.
  intros Hreason Hin. revert w p. induction ns as [|[[b' q'] tag'] ns IH]; intros w p Hb;
    [by apply not_elem_of_nil in Hin|]. cbn [deliver_link_deaths].
  apply elem_of_cons in Hin as [[= <- <- <-]|Hin].
  - destruct (deliver_link_death_told b q id tag reason w p Hreason Hb) as (p1 & Hp1 & Htold).
    destruct (deliver_link_death b q id tag reason w) as [w1 evs]. simpl in Hp1.
    destruct (deliver_link_deaths_grows ns id reason w1 b p1 Hp1) as (p2 & Hp2 & Hg).
    destruct (deliver_link_deaths ns id reason w1) as [w2 evs']. simpl in *.
    exists p2. split; [done|]. by eapply told_grows.
  - destruct (deliver_link_death_grows b' q' id tag' reason w b p Hb) as (p1 & Hp1 & _).
    destruct (deliver_link_death b' q' id tag' reason w) as [w1 evs]. simpl in Hp1.
    destruct (IH Hin w1 p1 Hp1) as (p2 & Hp2 & Htold).
    destruct (deliver_link_deaths ns id reason w1) as [w2 evs']. simpl in *. by exists p2.
Qed.

(** *** Termination *)

Lemma set_terminal_wf m a c reason :
  links_wf m → m !! a = Some c → links_wf (<[a := set_terminal reason c]> m).
Proof.
  intros Hwf Ha. eapply retagged_wf; [|exact Hwf]. intros x. rewrite lookup_insert.
  case_decide; [subst x; rewrite Ha|destruct (m !! x)]; constructor; by split_and!.
Qed.

Lemma list_to_map_relations c : list_to_map (map_to_list (relations c)) = relations c.
Proof. apply list_to_map_to_list. Qed.

(** The links of a process that terminates. *)
Lemma detach_terminated h reason m c m' ns :
  links_wf m → terminal_unlinked m → m !! h_addr h = Some c →
  cell_process_id c = Some (h_id h) →
  detach (h_id h) (h_addr h) (map_to_list (relations c))
    (<[h_addr h := set_relations ∅ (set_terminal reason c)]> m) = (m', ns) →
  links_wf m' ∧ terminal_unlinked m' ∧ sub_relations m' m ∧
  (∃ c', m' !! h_addr h = Some c' ∧ cell_process_id c' = Some (h_id h) ∧
     cell_terminal c' = Some reason ∧ relations c' = ∅) ∧
  ns = (fun '(q, r) => (peer_addr r, q, exit_tag r)) <$> map_to_list (relations c).
Proof.
  intros Hwf Hter Ha Hid Hdet. set (g := set_relations ∅ (set_terminal reason c)) in *.
  destruct (detach_spec (h_id h) (h_addr h) (map_to_list (relations c))
    (<[h_addr h := g]> m) g m' ns) as (c' & Hwf' & Ha' & Hid' & Ht' & Hr' & Hns & Hfr);
    [left; apply lookup_insert_eq|done|apply NoDup_fst_map_to_list| |done|].
  { rewrite list_to_map_relations, insert_insert_eq.
    change (set_relations (relations c) g) with (set_terminal reason c). by apply set_terminal_wf. }
  rewrite lookup_insert_eq, decide_False in Ha' by done. simpl in Hr'.
  assert (<[h_addr h := set_relations ∅ c']> m' = m') as Hm'.
  { apply insert_id. rewrite Ha'. f_equal. destruct c'; simpl in *; by subst. }
  rewrite Hm' in Hwf'.
  assert (∀ x cx', x ≠ h_addr h → m' !! x = Some cx' → ∃ cx, m !! x = Some cx ∧
    cell_terminal cx' = cell_terminal cx ∧ relations cx' ⊆ relations cx) as Hother.
  { intros x cx' Hx Hcx. destruct (Hfr x cx' Hx Hcx) as (cx & Hcx' & _ & ? & ?).
    rewrite lookup_insert_ne in Hcx' by done. by exists cx. }
  split_and!; try done.
  - intros x cx' Hx Htx. destruct (decide (x = h_addr h)) as [->|Hxa]; [by simplify_eq|].
    destruct (Hother x cx' Hxa Hx) as (cx & Hcx & Hct & Hsub). rewrite Hct in Htx.
    rewrite (Hter x cx Hcx Htx) in Hsub. apply map_eq. intros k.
    rewrite lookup_empty. apply eq_None_not_Some. intros [r Hr].
    by apply (lookup_weaken _ _ _ _ Hr) in Hsub; rewrite lookup_empty in Hsub.
  - intros x cx' k r Hx Hk. destruct (decide (x = h_addr h)) as [->|Hxa].
    { simplify_eq. by rewrite Hr', lookup_empty in Hk. }
    destruct (Hother x cx' Hxa Hx) as (cx & Hcx & _ & Hsub). exists cx, r. split_and!; try done.
    by eapply lookup_weaken.
  - by exists c'.
Qed.

Lemma terminate_spec h reason W W' evs :
  links_inv W → handle_ok h (cells W) → terminate h reason W = (W', evs) →
  links_inv W' ∧
  (∃ c', cells W' !! h_addr h = Some c' ∧ cell_process_id c' = Some (h_id h) ∧
     is_Some (cell_terminal c') ∧ relations c' = ∅) ∧
  ∀ c q r p, cells W !! h_addr h = Some c → relations c !! q = Some r →
    ingresses W !! peer_addr r = Some p → reason ≠ Normal →
    ∃ p', ingresses W' !! peer_addr r = Some p' ∧
      told (SLinkDied (h_id h) (exit_tag r) reason) p'.
Proof.
  intros (Hwf & Hter & Htok) (c & Hc & Hid). unfold terminate; simpl. rewrite Hc.
  case_bool_decide as Hdone.
  { intros [= <- <-]. pose proof (Hter _ _ Hc Hdone) as Hrel. split; [done|split; [by exists c|]].
    intros c0 q r p ? Hq. simplify_eq. by rewrite Hrel, lookup_empty in Hq. }
  destruct (detach _ _ _ _) as [m' ns] eqn:Hdet.
  destruct (detach_terminated h reason (cells W) c m' ns Hwf Hter Hc Hid Hdet)
    as (Hwf' & Hter' & Hsub & (c' & Hc' & Hid' & Ht' & Hr') & Hns).
  destruct (deliver_link_deaths _ _ _ _) as [w' evs'] eqn:Hdel. intros [= <- <-].
  split; [split_and!; simpl; [done|done|by eapply tokens_ok_mono]|split; simpl].
  { exists c'. by rewrite Ht'. }
  intros c0 q r p Hc0 Hq Hp Hreason. assert (c0 = c) as -> by congruence.
  destruct (lw_symmetric _ Hwf _ _ _ _ Hc Hq) as (Hne & _).
  pose proof (deliver_link_deaths_told
    ((fun '(q, r) => (peer_addr r, q, exit_tag r)) <$> map_to_list (relations c)) (h_id h) reason
    (alter (publish_terminal_reason reason) (h_addr h) (ingresses W)) (peer_addr r) q (exit_tag r) p
    Hreason) as Htold.
  rewrite <- Hns, Hdel in Htold. apply Htold; [rewrite Hns|].
  - apply list_elem_of_fmap. exists (q, r). split; [done|]. by apply elem_of_map_to_list.
  - by rewrite lookup_alter, decide_False.
Qed.

(** *** Identities *)

Lemma set_cell_id_inv W a c i :
  links_inv W → cells W !! a = Some c → cell_process_id c = None →
  links_inv (set_cells (<[a := set_cell_id i c]> (cells W)) W).
Proof.
  intros (Hwf & Hter & Htok) Ha Hid.
  assert (relations c = ∅) as Hrel.
  { apply map_eq. intros q. rewrite lookup_empty. apply eq_None_not_Some. intros [r Hq].
    destruct (lw_symmetric _ Hwf _ _ _ _ Ha Hq) as (_ & pa & cb & r' & ? & _). congruence. }
  assert (∀ x cx q r, (<[a := set_cell_id i c]> (cells W)) !! x = Some cx →
    relations cx !! q = Some r → x ≠ a ∧ cells W !! x = Some cx) as Hback.
  { intros x cx q r Hx Hq. rewrite lookup_insert in Hx. case_decide; [|done]. injection Hx as <-.
    simpl in Hq. by rewrite Hrel, lookup_empty in Hq. }
  split_and!; simpl.
  - split.
    + intros x cx q r Hx Hq. destruct (Hback x cx q r Hx Hq) as [Hxa Hx'].
      destruct (lw_symmetric _ Hwf _ _ _ _ Hx' Hq) as (Hne & px & cy & ry & ? & Hy & ? & Hry & ? & ?).
      split; [done|]. exists px, cy, ry. split_and!; try done.
      rewrite lookup_insert_ne; [done|]. intros Heq. rewrite <- Heq in Hy. congruence.
    + intros x cx. rewrite lookup_insert. case_decide; [|apply (lw_permits _ Hwf)].
      intros [= <-]. subst. apply (lw_permits _ Hwf x c Ha).
  - intros x cx. rewrite lookup_insert. case_decide; [|apply Hter]. by intros [= <-].
  - eapply tokens_ok_mono; [|done]. intros x cx q r Hx Hq.
    destruct (Hback x cx q r Hx Hq). by exists cx, r.
Qed.

Lemma lifecycle_handle_spec a i W o W' :
  links_inv W → lifecycle_handle a i W = (o, W') →
  links_inv W' ∧ (∀ h, handle_ok h (cells W) → handle_ok h (cells W')) ∧
  ingresses W' = ingresses W ∧
  match o with
  | Some h => h = mkHandle i a ∧ handle_ok h (cells W')
  | None => W' = W
  end.
Proof.
  intros Hinv. unfold lifecycle_handle. destruct (cells W !! a) as [c|] eqn:Ha; [|by intros [= <- <-]].
  destruct (cell_process_id c) as [j|] eqn:Hid.
  - destruct (j =? i) eqn:Hij; bool_to_prop; intros [= <- <-]; split_and!; try done.
    subst j. by exists c.
  - intros [= <- <-]. split; [by apply set_cell_id_inv|]. split_and!; try done; simpl.
    + intros h (ch & Hh & Hidh). destruct (decide (h_addr h = a)) as [He|]; [simplify_eq; congruence|].
      exists ch. by rewrite lookup_insert_ne.
    + exists (set_cell_id i c). by rewrite lookup_insert_eq.
Qed.

Lemma checked_handle_spec r e W o W' :
  links_inv W → checked_lifecycle_handle r e W = (o, W') →
  links_inv W' ∧ (∀ h, handle_ok h (cells W) → handle_ok h (cells W')) ∧
  ingresses W' = ingresses W ∧ (∀ h, o = Ok h → handle_ok h (cells W')).
Proof.
  intros Hinv. unfold checked_lifecycle_handle, ref_lifecycle_handle.
  destruct r as [id a|id]; [|by intros [= <- <-]].
  destruct (lifecycle_handle a id W) as [[h|] W1] eqn:Hh;
    apply lifecycle_handle_spec in Hh as (? & ? & ? & Hok); try done.
  - destruct Hok as [-> Hok]. case_match; intros [= <- <-]; split_and!; try done.
    by intros ? [= <-].
  - intros [= <- <-]. by split_and!.
Qed.

Lemma link_pair_inv l ta r tb W :
  links_inv W → handle_ok l (cells W) → handle_ok r (cells W) →
  links_inv (link_pair l ta r tb W).2.
Proof.
  intros Hinv Hl Hr. destruct (decide (h_addr l = h_addr r)) as [Heq|Hne].
  - unfold link_pair. rewrite (proj2 (Z.eqb_eq _ _) Heq). by case_match.
  - destruct (link_pair l ta r tb W) as [res W'] eqn:Hlp.
    by apply link_pair_spec in Hlp as [? _].
Qed.

Lemma link_processes_inv l el ta r er tb W :
  links_inv W → links_inv (link_processes l el ta r er tb W).2.
Proof.
  intros Hinv. unfold link_processes.
  destruct (checked_lifecycle_handle l el W) as [[hl|e] W1] eqn:Hl;
    apply checked_handle_spec in Hl as (? & _ & _ & Hokl); try done.
  destruct (checked_lifecycle_handle r er W1) as [[hr|e] W2] eqn:Hr;
    apply checked_handle_spec in Hr as (? & Hkeep & _ & Hokr); try done.
  apply link_pair_inv; auto.
Qed.

Lemma unlink_peer_inv h q W :
  links_inv W → handle_ok h (cells W) → links_inv (unlink_peer h q W).2.
Proof.
  intros Hinv Hh. pose proof (unlink_peer_spec h q W Hinv Hh) as Hs.
  destruct (_ ≫= _) as [r|]; [by destruct Hs as (-> & ? & _)|by rewrite Hs].
Qed.

Lemma unlink_process_inv r e q W : links_inv W → links_inv (unlink_process r e q W).2.
Proof.
  intros Hinv. unfold unlink_process.
  destruct (checked_lifecycle_handle r e W) as [[h|err] W1] eqn:Hh;
    apply checked_handle_spec in Hh as (? & _ & _ & Hok); try done.
  pose proof (unlink_peer_inv h q W1 ltac:(done) (Hok h eq_refl)).
  by destruct (unlink_peer h q W1).
Qed.

Lemma terminate_inv h reason W :
  links_inv W → handle_ok h (cells W) → links_inv (terminate h reason W).1.
Proof.
  intros Hinv Hh. destruct (terminate h reason W) as [W' evs] eqn:Ht.
  by apply terminate_spec in Ht as [? _].
Qed.

Lemma receiver_lifetime_drop_inv a W : links_inv W → links_inv (receiver_lifetime_drop a W).1.
Proof.
  intros Hinv. unfold receiver_lifetime_drop. destruct (cells W !! a) as [c|] eqn:Ha; [|done].
  destruct (cell_process_id c) as [i|] eqn:Hid; [|done].
  destruct (lifecycle_handle a i W) as [[h|] W1] eqn:Hh;
    apply lifecycle_handle_spec in Hh as (? & _ & _ & Hok); try done.
  destruct Hok as [-> Hok]. by apply terminate_inv.
Qed.

Lemma link_state_drop_inv a W : links_inv W → links_inv (link_state_drop a W).1.
Proof.
  intros (Hwf & Hter & Htok). unfold link_state_drop.
  destruct (cells W !! a) as [c|] eqn:Ha; [|by split_and!].
  assert (∀ x cx, delete a (cells W) !! x = Some cx → x ≠ a ∧ cells W !! x = Some cx) as Hdel.
  { intros x cx. rewrite lookup_delete_Some. naive_solver. }
  destruct (cell_process_id c) as [i|] eqn:Hid.
  - destruct (detach i a _ _) as [m' ns] eqn:Hdet.
    destruct (detach_spec i a (map_to_list (relations c)) (delete a (cells W)) c m' ns)
      as (c' & Hwf' & Ha' & _ & _ & _ & _ & Hfr);
      [right; apply lookup_delete_eq|done|apply NoDup_fst_map_to_list| |done|].
    { rewrite list_to_map_relations, insert_delete_eq.
      replace (set_relations (relations c) c) with c by by destruct c. by rewrite insert_id. }
    rewrite lookup_delete_eq, decide_True in Ha' by done.
    assert (∀ x cx', m' !! x = Some cx' → ∃ cx, cells W !! x = Some cx ∧
      cell_terminal cx' = cell_terminal cx ∧ relations cx' ⊆ relations cx) as Hother.
    { intros x cx' Hx. assert (x ≠ a) as Hxa by (intros ->; congruence).
      destruct (Hfr x cx' Hxa Hx) as (cx & [_ Hcx]%Hdel & _ & ? & ?). by exists cx. }
    destruct (deliver_link_deaths _ _ _ _) as [w' evs]. split_and!; simpl.
    + by eapply delete_unlinked_wf.
    + intros x cx' Hx Htx. destruct (Hother x cx' Hx) as (cx & Hcx & Hct & Hsub).
      rewrite Hct in Htx. rewrite (Hter x cx Hcx Htx) in Hsub. apply map_eq. intros k.
      rewrite lookup_empty. apply eq_None_not_Some. intros [r Hr].
      by apply (lookup_weaken _ _ _ _ Hr) in Hsub; rewrite lookup_empty in Hsub.
    + eapply tokens_ok_mono; [|done]. intros x cx' k r Hx Hk.
      destruct (Hother x cx' Hx) as (cx & Hcx & _ & Hsub). exists cx, r. split_and!; try done.
      by eapply lookup_weaken.
  - assert (relations c = ∅) as Hrel.
    { apply map_eq. intros q. rewrite lookup_empty. apply eq_None_not_Some. intros [r Hq].
      destruct (lw_symmetric _ Hwf _ _ _ _ Ha Hq) as (_ & pa & cb & r' & ? & _). congruence. }
    split_and!; simpl.
    + apply (delete_unlinked_wf _ a c); [by rewrite insert_delete_id|done|apply lookup_delete_eq].
    + intros x cx [_ Hx]%Hdel. by apply Hter in Hx.
    + eapply tokens_ok_mono; [|done]. intros x cx q r [_ Hx]%Hdel Hq. by exists cx, r.
Qed.

(** ** Executions *)

(** What can happen to the processes of a node: they are created with an
    ingress and an empty link state, they are linked, unlinked, terminated and
    dropped, and their ingresses change in any way that keeps the links. *)
Inductive link_step : World Sem Chan → World Sem Chan → Prop :=
| step_spawn W a p cap :
    cells W !! a = None → 0 <= cap <= max_permits →
    link_step W (mkWorld (<[a := p]> (ingresses W))
      (<[a := mkCell None None ∅ (sem_new cap) cap]> (cells W)) (next_token W))
| step_handle W a i : link_step W (lifecycle_handle a i W).2
| step_link W l el ta r er tb : link_step W (link_processes l el ta r er tb W).2
| step_unlink W r e q : link_step W (unlink_process r e q W).2
| step_terminate W h reason :
    handle_ok h (cells W) → link_step W (terminate h reason W).1
| step_receiver_drop W a : link_step W (receiver_lifetime_drop a W).1
| step_link_state_drop W a : link_step W (link_state_drop a W).1
| step_ingress W w : link_step W (set_ingresses w W).

Definition empty_world : World Sem Chan := mkWorld ∅ ∅ 0.

Lemma empty_world_inv : links_inv empty_world.
Proof.
  assert (∀ x c, (∅ : gmap Z (LinkCell Sem)) !! x = Some c → False) as Hno
    by (intros x c; by rewrite lookup_empty).
  split; [split|split; [|split]]; simpl; repeat intro; exfalso; eauto.
Qed.

Lemma spawn_inv W a p cap :
  links_inv W → cells W !! a = None → 0 <= cap <= max_permits →
  links_inv (mkWorld (<[a := p]> (ingresses W))
    (<[a := mkCell None None ∅ (sem_new cap) cap]> (cells W)) (next_token W)).
Proof.
  intros (Hwf & Hter & Htok) Ha Hcap.
  assert (∀ x cx q r, (<[a := mkCell None None ∅ (sem_new cap) cap]> (cells W)) !! x = Some cx →
    relations cx !! q = Some r → cells W !! x = Some cx) as Hback.
  { intros x cx q r Hx Hq. rewrite lookup_insert in Hx. case_decide; [|done]. injection Hx as <-.
    simpl in Hq. by rewrite lookup_empty in Hq. }
  split_and!; simpl.
  - split.
    + intros x cx q r Hx Hq. pose proof (Hback x cx q r Hx Hq) as Hx'.
      destruct (lw_symmetric _ Hwf _ _ _ _ Hx' Hq) as (Hne & px & cy & ry & ? & Hy & ? & Hry & ? & ?).
      split; [done|]. exists px, cy, ry. split_and!; try done.
      rewrite lookup_insert_ne; [done|]. intros Heq. rewrite <- Heq in Hy. congruence.
    + intros x cx. rewrite lookup_insert. case_decide; [|apply (lw_permits _ Hwf)].
      intros [= <-]. simpl. rewrite map_size_empty, available_new by done. lia.
  - intros x cx. rewrite lookup_insert. case_decide; [by intros [= <-]|apply Hter].
  - eapply tokens_ok_mono; [|done]. intros x cx q r Hx Hq. exists cx, r. eauto.
Qed.

Lemma link_step_inv W W' : links_inv W → link_step W W' → links_inv W'.
Proof.
  intros Hinv Hstep. destruct Hstep.
  - by apply spawn_inv.
  - destruct (lifecycle_handle a i W) as [o W'] eqn:Hh. by apply lifecycle_handle_spec in Hh as [? _].
  - by apply link_processes_inv.
  - by apply unlink_process_inv.
  - by apply terminate_inv.
  - by apply receiver_lifetime_drop_inv.
  - by apply link_state_drop_inv.
  - done.
Qed.

Lemma links_reachable W : rtc link_step empty_world W → links_inv W.
Proof. apply rtc_invariant; [intros; by eapply link_step_inv|apply empty_world_inv]. Qed.

(** ** Properties *)

(** Links are bilateral and bounded between whole operations: a relation from one
    process to another comes with the reciprocal relation of the same link, a
    terminated process has none, and a process never has more links than its
    link capacity, each holding exactly one admission permit.  What holds while
    operations are under way is in [LinkSteps]. *)
Theorem links_bilateral_and_bounded W a c :
  rtc link_step empty_world W → cells W !! a = Some c →
  available_permits (link_admission c) + Z.of_nat (size (relations c)) = link_capacity c ∧
  (is_Some (cell_terminal c) → relations c = ∅) ∧
  ∀ q r, relations c !! q = Some r →
    peer_addr r ≠ a ∧
    ∃ pa cb r', cell_process_id c = Some pa ∧ cells W !! peer_addr r = Some cb ∧
      cell_process_id cb = Some q ∧ relations cb !! pa = Some r' ∧
      token r' = token r ∧ peer_addr r' = a.
Proof.
  intros (Hwf & Hter & Htok)%links_reachable Ha. split_and!.
  - by apply (lw_permits _ Hwf a).
  - by apply (Hter a).
  - intros q r Hq. exact (lw_symmetric _ Hwf _ _ _ _ Ha Hq).
Qed.

(** Linking two processes is all or nothing: it installs both relations with
    their exit tags, or fails and leaves every link state as it was, permits
    included. *)
Theorem link_pair_all_or_nothing W (l r : Handle) (ta tb : option Z) :
  rtc link_step empty_world W → handle_ok l (cells W) → handle_ok r (cells W) →
  h_addr l ≠ h_addr r →
  let '(res, W') := link_pair l ta r tb W in
  match res with
  | Ok _ => linked_to l r ta (cells W') ∧ linked_to r l tb (cells W')
  | Err _ => ∀ x, option_Forall2 cell_equiv (cells W !! x) (cells W' !! x)
  end.
Proof.
  intros Hinv%links_reachable Hl Hr Hne. destruct (link_pair l ta r tb W) as [res W'] eqn:Hlp.
  by apply link_pair_spec in Hlp as (_ & _ & ?).
Qed.

(** A process that dies abnormally takes no link with it silently: after
    [terminate] it has no relation, nobody has a relation to it, and every
    process that was linked to it has either the death notice, with the tag of
    the link, in its signal queue or a kill pending, however full its queues
    are. *)
Theorem terminate_notifies_all_links W (h : Handle) (reason : DeathReason) c :
  rtc link_step empty_world W → handle_ok h (cells W) → cells W !! h_addr h = Some c →
  reason ≠ Normal →
  let W' := (terminate h reason W).1 in
  (∃ c', cells W' !! h_addr h = Some c' ∧ is_Some (cell_terminal c') ∧ relations c' = ∅) ∧
  (∀ x cx q r, cells W' !! x = Some cx → relations cx !! q = Some r → peer_addr r ≠ h_addr h) ∧
  ∀ q r p, relations c !! q = Some r → ingresses W !! peer_addr r = Some p →
    ∃ p', ingresses W' !! peer_addr r = Some p' ∧
      told (SLinkDied (h_id h) (exit_tag r) reason) p'.
Proof.
  intros Hinv%links_reachable Hh Hc Hreason W'.
  destruct (terminate h reason W) as [W1 evs] eqn:Ht. simpl in W'. subst W'.
  apply terminate_spec in Ht as ((Hwf & _) & (c' & Hc' & _ & Hter & Hrel) & Htold); [|done..].
  split_and!; [by exists c'| |by eauto].
  intros x cx q r Hx Hq Heq.
  destruct (lw_symmetric _ Hwf _ _ _ _ Hx Hq) as (_ & px & cy & ry & _ & Hy & _ & Hry & _).
  rewrite Heq in Hy. simplify_eq. by rewrite Hrel, lookup_empty in Hry.
Qed.
End theory.

(** *** Witnesses *)

Definition one_process (a cap : Z) (W : World nat fifo) : World nat fifo :=
  mkWorld (<[a := sample_ingress a cap]> (ingresses W))
    (<[a := mkCell None None ∅ (sem_new cap) cap]> (cells W)) (next_token W).

Definition two_processes : World nat fifo := one_process 20 1 (one_process 10 1 empty_world).

Definition linked_world : World nat fifo :=
  (link_processes (Builtin 1 10) None (Some 5) (Builtin 2 20) None (Some 6) two_processes).2.

Lemma two_processes_reachable : rtc link_step empty_world two_processes.
Proof.
  eapply rtc_l; [apply (step_spawn empty_world 10 (sample_ingress 10 1) 1); [done|by vm_compute]|].
  eapply rtc_l; [apply (step_spawn (one_process 10 1 empty_world) 20 (sample_ingress 20 1) 1);
    [done|by vm_compute]|].
  apply rtc_refl.
Qed.

Lemma linked_world_reachable : rtc link_step empty_world linked_world.
Proof. eapply rtc_r; [exact two_processes_reachable|apply step_link]. Qed.

Definition linked_cell : LinkCell nat := mkCell (Some 1) None {[2 := mkRelation 0 20 (Some 5)]} 0%nat 1.

Lemma links_bilateral_and_bounded_witness :
  cells linked_world !! 10 = Some linked_cell ∧
  available_permits (link_admission linked_cell) + Z.of_nat (size (relations linked_cell)) = 1 ∧
  relations linked_cell !! 2 = Some (mkRelation 0 20 (Some 5)).
Proof.
  assert (cells linked_world !! 10 = Some linked_cell) as Hc by (vm_compute; reflexivity).
  split; [exact Hc|]. split; [|reflexivity].
  exact (proj1 (links_bilateral_and_bounded linked_world 10 linked_cell linked_world_reachable Hc)).
Defined.

Lemma link_pair_all_or_nothing_witness :
  let '(res, W') := link_pair (mkHandle 1 10) None (mkHandle 2 20) (Some 9) linked_world in
  match res with
  | Ok _ => linked_to (mkHandle 1 10) (mkHandle 2 20) None (cells W') ∧
      linked_to (mkHandle 2 20) (mkHandle 1 10) (Some 9) (cells W')
  | Err _ => ∀ x, option_Forall2 cell_equiv (cells linked_world !! x) (cells W' !! x)
  end.
Proof.
  apply (link_pair_all_or_nothing linked_world (mkHandle 1 10) (mkHandle 2 20) None (Some 9)
    linked_world_reachable).
  - eexists. split; vm_compute; reflexivity.
  - eexists. split; vm_compute; reflexivity.
  - discriminate.
Defined.

Lemma terminate_notifies_all_links_witness :
  ∃ p', ingresses (terminate (mkHandle 1 10) Failure linked_world).1 !! 20 = Some p' ∧
    told (SLinkDied 1 (Some 5) Failure) p'.
Proof.
  destruct (terminate_notifies_all_links linked_world (mkHandle 1 10) Failure linked_cell
    linked_world_reachable) as (_ & _ & Htold).
  - eexists. split; vm_compute; reflexivity.
  - vm_compute. reflexivity.
  - discriminate.
  - apply (Htold 2 (mkRelation 0 20 (Some 5)) (sample_ingress 20 1)); vm_compute; reflexivity.
Defined.
