(* ===== verification/Environment.v ===== *)
(** * Environments: [crates/lunatic-process/src/env.rs]

    An environment admits processes under its own limit and under the quota of
    the node; the registry of a node hands out environments by identity, holds
    them only weakly, and counts them.  An environment lives as long as someone
    owns it: the outer [Arc<LunaticEnvironment>] that the registry returns, or
    a clone of the value, each of which owns the shared [inner].  When the last
    owner is gone the inner is destroyed, which gives its processes' leases
    back and releases its generation in the registry; other threads can create
    the same identity again before that destructor runs, so it is a step of its
    own here.

    [DashMap]s are an arbitrary [FinMap].  Each operation is given as the function
    that it is when no other thread runs, and is one step here; [EnvironmentSteps]
    takes them apart into their atomic accesses.  Heap addresses are never reused: a [Weak] keeps its
    allocation. *)

From S2P Require Import Prelude Message Signal.

Definition DEFAULT_MAX_PROCESSES : Z := 100000.
Definition DEFAULT_MAX_ENVIRONMENTS : Z := 1024.
Definition DEFAULT_MAX_NODE_PROCESSES : Z := 100000.
Definition FIRST_PROCESS_ID : Z := 1.

Inductive EnvError : Type :=
| ProcessLimitReached (environment_id limit : Z)
| ProcessCountOverflow (environment_id : Z)
| NodeProcessLimitReached (environment_id limit : Z)
| EnvironmentLimitReached (environment_id limit : Z)
| AlreadyRegistered (process_id environment_id : Z)
| GenerationExhausted
| DifferentModuleRegistry (environment_id : Z)
| NoModuleRegistry (environment_id : Z).

(** ** Counters *)

(** [ProcessIdAllocator::next]: the identity and the counter after it; [None]
    is the panic of an exhausted allocator. *)
Definition next_process_id (counter : Z) : option (Z * Z) :=
  c ← checked_add u64_max counter 1; Some (counter, c).

Record NodeProcessQuota : Type := mkQuota { quota_count : Z; quota_limit : Z }.

Definition quota_new (limit : Z) : NodeProcessQuota := mkQuota 0 limit.

(** [NodeProcessQuota::reserve] *)
Definition quota_reserve (environment_id : Z) (q : NodeProcessQuota)
    : result NodeProcessQuota EnvError :=
  if quota_count q <? quota_limit q then Ok (mkQuota (quota_count q + 1) (quota_limit q))
  else Err (NodeProcessLimitReached environment_id (quota_limit q)).

(** [NodeProcessLease::drop]; [None] is its panic. *)
Definition lease_drop (q : NodeProcessQuota) : option NodeProcessQuota :=
  c ← checked_sub (quota_count q) 1; Some (mkQuota c (quota_limit q)).

(** ** One environment *)

Record ProcessEntry : Type := mkEntry {
  entry_process : ProcessRef;
  (** [_node_lease : Option<NodeProcessLease>] *)
  node_lease : bool;
}.

Section environment.
Context {M : Type → Type} `{FinMap Z M}.

(** [LunaticEnvironmentInner]; the quota of the node is shared, so the model
    passes it beside the environment, and [uses_quota] says whether this
    environment has it. *)
Record Inner : Type := mkInner {
  environment_id : Z;
  processes : M ProcessEntry;
  process_count : Z;
  max_processes : option Z;
  uses_quota : bool;
  module_registry : option Z;
  (** [_lifecycle]: the generation registered for this environment. *)
  lifecycle : option Z;
}.

Definition set_processes (m : M ProcessEntry) (i : Inner) : Inner :=
  mkInner (environment_id i) m (process_count i) (max_processes i) (uses_quota i)
    (module_registry i) (lifecycle i).
Definition set_process_count (n : Z) (i : Inner) : Inner :=
  mkInner (environment_id i) (processes i) n (max_processes i) (uses_quota i)
    (module_registry i) (lifecycle i).

(** [with_node_options]; [with_options] is a standalone environment. *)
Definition with_node_options (id : Z) (max : option Z) (quota : bool) (registry : option Z)
    (generation : option Z) : Inner :=
  mkInner id ∅ 0 max quota registry generation.

Definition with_options (id : Z) (max : option Z) (registry : option Z) : Inner :=
  with_node_options id max false registry None.

Definition with_max_processes (id max : Z) : Inner := with_options id (Some max) None.
Definition unlimited (id : Z) : Inner := with_options id None None.

Definition set_module_registry (registry : Z) (i : Inner) : Inner :=
  mkInner (environment_id i) (processes i) (process_count i) (max_processes i) (uses_quota i)
    (Some registry) (lifecycle i).

Definition reserve_process_slot (i : Inner) : result Inner EnvError :=
  match max_processes i with
  | Some limit =>
      if process_count i <? limit then Ok (set_process_count (process_count i + 1) i)
      else Err (ProcessLimitReached (environment_id i) limit)
  | None =>
      match checked_add u64_max (process_count i) 1 with
      | Some n => Ok (set_process_count n i)
      | None => Err (ProcessCountOverflow (environment_id i))
      end
  end.

(** [None] is the panic on underflow. *)
Definition release_process_slot (i : Inner) : option Inner :=
  n ← checked_sub (process_count i) 1; Some (set_process_count n i).

Definition get_process (id : Z) (i : Inner) : option ProcessRef :=
  entry_process <$> processes i !! id.

(** [add_process]; [None] is a panic. *)
Definition add_process (id : Z) (p : ProcessRef) (i : Inner) (q : NodeProcessQuota)
    : option (result unit EnvError * Inner * NodeProcessQuota) :=
  match processes i !! id with
  | Some _ => Some (Err (AlreadyRegistered id (environment_id i)), i, q)
  | None =>
      match reserve_process_slot i with
      | Err e => Some (Err e, i, q)
      | Ok i =>
          if uses_quota i then
            match quota_reserve (environment_id i) q with
            | Ok q => Some (Ok tt, set_processes (<[id := mkEntry p true]> (processes i)) i, q)
            | Err e => i ← release_process_slot i; Some (Err e, i, q)
            end
          else Some (Ok tt, set_processes (<[id := mkEntry p false]> (processes i)) i, q)
      end
  end.

Definition remove_process (id : Z) (i : Inner) (q : NodeProcessQuota)
    : option (bool * Inner * NodeProcessQuota) :=
  match processes i !! id with
  | None => Some (false, i, q)
  | Some e =>
      let i := set_processes (delete id (processes i)) i in
      i ← release_process_slot i;
      q ← (if node_lease e then lease_drop q else Some q);
      Some (true, i, q)
  end.

(** [can_spawn_next_process] *)
Definition can_spawn_next_process (i : Inner) (q : NodeProcessQuota) : result unit EnvError :=
  match max_processes i with
  | Some limit =>
      if limit <=? process_count i then Err (ProcessLimitReached (environment_id i) limit)
      else if uses_quota i && (quota_limit q <=? quota_count q)
      then Err (NodeProcessLimitReached (environment_id i) (quota_limit q)) else Ok tt
  | None =>
      if uses_quota i && (quota_limit q <=? quota_count q)
      then Err (NodeProcessLimitReached (environment_id i) (quota_limit q)) else Ok tt
  end.

(** ** Sending *)

(** [send]: the destination, or the signal back. *)
Definition env_send (id : Z) (s : Signal) (i : Inner) : result ProcessRef SignalSendError :=
  match get_process id i with
  | Some p => Ok p
  | None => Err (Closed s)
  end.

(** [send_to_all] and [kill_all_processes]: what is sent to whom. *)
Definition broadcast_signal (s : Signal) : option Signal :=
  match s with
  | Kill => Some Kill
  | HotReload m e n _ => Some (HotReload m e n None)
  | DieWhenLinkDies flag => Some (DieWhenLinkDies flag)
  | _ => None
  end.

Definition send_to_all (s : Signal) (i : Inner) : list (ProcessRef * Signal) :=
  match broadcast_signal s with
  | Some s => (fun e => (entry_process e.2, s)) <$> map_to_list (processes i)
  | None => []
  end.

Definition kill_all_processes (i : Inner) : list (ProcessRef * Signal) := send_to_all Kill i.

(** ** Registration guards: [ProcessRegistration] *)

Record ProcessRegistration : Type := mkRegistration {
  reg_armed : bool;
  reg_process_id : Z;
  exit_hook : option Z;
}.

Definition register_with_exit_hook (id : Z) (p : ProcessRef) (hook : option Z)
    (i : Inner) (q : NodeProcessQuota)
    : option (result ProcessRegistration EnvError * Inner * NodeProcessQuota) :=
  '(r, i, q) ← add_process id p i q;
  Some (match r with Ok _ => Ok (mkRegistration true id hook) | Err e => Err e end, i, q).

Definition register (id : Z) (p : ProcessRef) := register_with_exit_hook id p None.

(** [unregister_inner]: whether a process was removed, the hooks called, and
    the disarmed guard. *)
Definition unregister_inner (g : ProcessRegistration) (i : Inner) (q : NodeProcessQuota)
    : option (bool * list Z * ProcessRegistration * Inner * NodeProcessQuota) :=
  '(removed, i, q) ←
    (if reg_armed g then remove_process (reg_process_id g) i q else Some (false, i, q));
  Some (removed, match exit_hook g with Some h => [h] | None => [] end,
        mkRegistration false (reg_process_id g) None, i, q).
End environment.
Arguments Inner : clear implicits.

(** ** The registry of a node *)

Record StoredEnvironment : Type := mkStored {
  generation : Z;
  canonical : Z;      (** [Weak<LunaticEnvironment>] *)
  stored_inner : Z;   (** [Weak<LunaticEnvironmentInner>] *)
}.

(** An outer [Arc<LunaticEnvironment>] with its strong count. *)
Record Outer : Type := mkOuter { outer_inner : Z; outer_strong : nat }.

Section registry.
Context {M : Type → Type} `{FinMap Z M}.

(** [EnvironmentRegistryInner], and the heap it refers to: the inners that are
    not destroyed, each with the number of its owners that are plain clones of
    the value, and the outer [Arc]s that have owners. *)
Record Node : Type := mkNode {
  envs : M StoredEnvironment;
  environment_count : Z;
  max_environments : Z;
  max_processes_per_environment : Z;
  node_quota : NodeProcessQuota;
  next_process_counter : Z;
  next_generation_counter : Z;
  inners : gmap Z (Inner M * nat);
  outers : gmap Z Outer;
  next_addr : Z;
}.

Definition with_limits (max_environments max_processes_per_environment max_node_processes : Z)
    : Node :=
  mkNode ∅ 0 max_environments max_processes_per_environment (quota_new max_node_processes)
    FIRST_PROCESS_ID 1 ∅ ∅ 0.

Definition set_envs (m : M StoredEnvironment) (n : Z) (N : Node) : Node :=
  mkNode m n (max_environments N) (max_processes_per_environment N) (node_quota N)
    (next_process_counter N) (next_generation_counter N) (inners N) (outers N) (next_addr N).
Definition set_inners (m : gmap Z (Inner M * nat)) (N : Node) : Node :=
  mkNode (envs N) (environment_count N) (max_environments N) (max_processes_per_environment N)
    (node_quota N) (next_process_counter N) (next_generation_counter N) m (outers N) (next_addr N).
Definition set_outers (m : gmap Z Outer) (N : Node) : Node :=
  mkNode (envs N) (environment_count N) (max_environments N) (max_processes_per_environment N)
    (node_quota N) (next_process_counter N) (next_generation_counter N) (inners N) m (next_addr N).
Definition set_quota (q : NodeProcessQuota) (N : Node) : Node :=
  mkNode (envs N) (environment_count N) (max_environments N) (max_processes_per_environment N)
    q (next_process_counter N) (next_generation_counter N) (inners N) (outers N) (next_addr N).
Definition set_next_process (c : Z) (N : Node) : Node :=
  mkNode (envs N) (environment_count N) (max_environments N) (max_processes_per_environment N)
    (node_quota N) c (next_generation_counter N) (inners N) (outers N) (next_addr N).
Definition set_next_generation (g : Z) (N : Node) : Node :=
  mkNode (envs N) (environment_count N) (max_environments N) (max_processes_per_environment N)
    (node_quota N) (next_process_counter N) g (inners N) (outers N) (next_addr N).
Definition set_next_addr (a : Z) (N : Node) : Node :=
  mkNode (envs N) (environment_count N) (max_environments N) (max_processes_per_environment N)
    (node_quota N) (next_process_counter N) (next_generation_counter N) (inners N) (outers N) a.

(** The strong count of an inner: the outers and the value clones that own it. *)
Definition inner_strong (x : Z) (N : Node) : nat :=
  match inners N !! x with
  | Some (_, clones) => clones + size (filter (fun o => outer_inner o.2 = x) (outers N))
  | None => 0
  end.

(** *** Slots and generations *)

Definition reserve_environment_slot (id : Z) (N : Node) : result Node EnvError :=
  if environment_count N <? max_environments N
  then Ok (set_envs (envs N) (environment_count N + 1) N)
  else Err (EnvironmentLimitReached id (max_environments N)).

(** [None] is the panic on underflow. *)
Definition release_environment_slot (N : Node) : option Node :=
  c ← checked_sub (environment_count N) 1; Some (set_envs (envs N) c N).

Definition next_generation (N : Node) : result (Z * Node) EnvError :=
  match checked_add u64_max (next_generation_counter N) 1 with
  | Some g => Ok (next_generation_counter N, set_next_generation g N)
  | None => Err GenerationExhausted
  end.

Definition release_generation (id g : Z) (N : Node) : option (bool * Node) :=
  match envs N !! id with
  | Some st =>
      if generation st =? g then
        N ← release_environment_slot N;
        Some (true, set_envs (delete id (envs N)) (environment_count N) N)
      else Some (false, N)
  | None => Some (false, N)
  end.

(** *** Owners *)

(** [Weak::upgrade] of an outer. *)
Definition upgrade_outer (o : Z) (N : Node) : option Node :=
  ou ← outers N !! o;
  Some (set_outers (<[o := mkOuter (outer_inner ou) (S (outer_strong ou))]> (outers N)) N).

(** A new outer around an inner that is alive. *)
Definition new_outer (x : Z) (N : Node) : Z * Node :=
  let o := next_addr N in
  (o, set_next_addr (o + 1) (set_outers (<[o := mkOuter x 1]> (outers N)) N)).

(** Dropping an [Arc<LunaticEnvironment>]: the last one destroys the outer. *)
Definition drop_outer (o : Z) (N : Node) : Node :=
  match outers N !! o with
  | Some (mkOuter x (S (S k))) => set_outers (<[o := mkOuter x (S k)]> (outers N)) N
  | Some _ => set_outers (delete o (outers N)) N
  | None => N
  end.

Definition clone_outer (o : Z) (N : Node) : Node := default N (upgrade_outer o N).

Definition clone_value (x : Z) (N : Node) : Node :=
  set_inners (alter (fun p => (p.1, S p.2)) x (inners N)) N.

Definition drop_value (x : Z) (N : Node) : Node :=
  set_inners (alter (fun p => (p.1, pred p.2)) x (inners N)) N.

(** *** [create_atomic] and [get] *)

Definition validate_registry (i : Inner M) (registry : option Z) : result unit EnvError :=
  match registry with
  | None => Ok tt
  | Some requested =>
      match module_registry i with
      | Some existing =>
          if existing =? requested then Ok tt else Err (DifferentModuleRegistry (environment_id i))
      | None => Err (NoModuleRegistry (environment_id i))
      end
  end.

(** The caller gets the outer, unless it asked for another module registry, in
    which case the reference just taken is dropped. *)
Definition validated (o x : Z) (registry : option Z) (N : Node) : result Z EnvError * Node :=
  match inners N !! x with
  | Some (i, _) =>
      match validate_registry i registry with
      | Ok _ => (Ok o, N)
      | Err e => (Err e, drop_outer o N)
      end
  | None => (Ok o, N)  (* an owner keeps the inner alive *)
  end.

(** [build_environment] and the insertion of its entry. *)
Definition install_environment (id g : Z) (registry : option Z) (N : Node) : Z * Node :=
  let i := with_node_options id (Some (max_processes_per_environment N)) true registry (Some g) in
  let x := next_addr N in
  let N := set_next_addr (x + 1) (set_inners (<[x := (i, 0%nat)]> (inners N)) N) in
  let '(o, N) := new_outer x N in
  (o, set_envs (<[id := mkStored g o x]> (envs N)) (environment_count N) N).

Definition create_atomic (id : Z) (registry : option Z) (N : Node) : result Z EnvError * Node :=
  match envs N !! id with
  | Some st =>
      match upgrade_outer (canonical st) N with
      | Some N => validated (canonical st) (stored_inner st) registry N
      | None =>
          if bool_decide (inner_strong (stored_inner st) N ≠ 0%nat) then
            let '(o, N) := new_outer (stored_inner st) N in
            let N := set_envs (<[id := mkStored (generation st) o (stored_inner st)]> (envs N))
                       (environment_count N) N in
            validated o (stored_inner st) registry N
          else
            match next_generation N with
            | Err e => (Err e, N)
            | Ok (g, N) => let '(o, N) := install_environment id g registry N in (Ok o, N)
            end
      end
  | None =>
      match next_generation N with
      | Err e => (Err e, N)
      | Ok (g, N) =>
          match reserve_environment_slot id N with
          | Err e => (Err e, N)
          | Ok N => let '(o, N) := install_environment id g registry N in (Ok o, N)
          end
      end
  end.

Definition get (id : Z) (N : Node) : option Z * Node :=
  match envs N !! id with
  | Some st =>
      match upgrade_outer (canonical st) N with
      | Some N => (Some (canonical st), N)
      | None =>
          if bool_decide (inner_strong (stored_inner st) N ≠ 0%nat) then
            let '(o, N) := new_outer (stored_inner st) N in
            (Some o, set_envs (<[id := mkStored (generation st) o (stored_inner st)]> (envs N))
                       (environment_count N) N)
          else (None, N)
      end
  | None => (None, N)
  end.

(** *** Destruction of an inner *)

(** Dropping the entries of the process table gives their leases back. *)
Fixpoint drop_entries (es : list (Z * ProcessEntry)) (q : NodeProcessQuota)
    : option NodeProcessQuota :=
  match es with
  | [] => Some q
  | (_, e) :: es => q ← (if node_lease e then lease_drop q else Some q); drop_entries es q
  end.

(** The destructor of an inner without owners: the processes, then the
    lifecycle. *)
Definition teardown (x : Z) (N : Node) : option Node :=
  match inners N !! x with
  | None => Some N
  | Some (i, _) =>
      q ← drop_entries (map_to_list (processes i)) (node_quota N);
      let N := set_inners (delete x (inners N)) (set_quota q N) in
      match lifecycle i with
      | Some g => '(_, N) ← release_generation (environment_id i) g N; Some N
      | None => Some N
      end
  end.

(** *** Processes of an environment of the node *)

Definition node_add_process (x id : Z) (p : ProcessRef) (N : Node)
    : option (result unit EnvError * Node) :=
  match inners N !! x with
  | None => None  (* not reached: the caller owns the inner *)
  | Some (i, k) =>
      '(r, i, q) ← add_process id p i (node_quota N);
      Some (r, set_quota q (set_inners (<[x := (i, k)]> (inners N)) N))
  end.

Definition node_remove_process (x id : Z) (N : Node) : option (bool * Node) :=
  match inners N !! x with
  | None => None
  | Some (i, k) =>
      '(b, i, q) ← remove_process id i (node_quota N);
      Some (b, set_quota q (set_inners (<[x := (i, k)]> (inners N)) N))
  end.

(** [get_next_process_id] of any environment of the node. *)
Definition node_next_process_id (N : Node) : option (Z * Node) :=
  '(id, c) ← next_process_id (next_process_counter N);
  Some (id, set_next_process c N).

Definition node_set_registry (x registry : Z) (N : Node) : Node :=
  set_inners (alter (fun p => (set_module_registry registry p.1, p.2)) x (inners N)) N.

(** *** Threads of the node

    Each operation is a step; its guard says what the caller holds: a reference
    to the outer, a clone of the value, or nothing. *)
Inductive NodeOp : Type :=
| OpCreate (id : Z) (registry : option Z)
| OpGet (id : Z)
| OpCloneOuter (o : Z)
| OpDropOuter (o : Z)
| OpCloneValue (x : Z)
| OpDropValue (x : Z)
| OpTeardown (x : Z)
| OpAdd (x id : Z) (p : ProcessRef)
| OpRemove (x id : Z)
| OpSetRegistry (x registry : Z)
| OpNextId.

Definition enabled (op : NodeOp) (N : Node) : bool :=
  match op with
  | OpCreate _ _ | OpGet _ => true
  | OpCloneOuter o | OpDropOuter o => bool_decide (is_Some (outers N !! o))
  | OpDropValue x =>
      match inners N !! x with Some (_, k) => bool_decide (k ≠ 0%nat) | None => false end
  | OpTeardown x =>
      bool_decide (is_Some (inners N !! x)) && bool_decide (inner_strong x N = 0%nat)
  | OpCloneValue x | OpAdd x _ _ | OpRemove x _ | OpSetRegistry x _ =>
      bool_decide (inner_strong x N ≠ 0%nat)
  | OpNextId => next_process_counter N <? u64_max
  end.

Definition node_exec (op : NodeOp) (N : Node) : option Node :=
  match op with
  | OpCreate id registry => Some (create_atomic id registry N).2
  | OpGet id => Some (get id N).2
  | OpCloneOuter o => Some (clone_outer o N)
  | OpDropOuter o => Some (drop_outer o N)
  | OpCloneValue x => Some (clone_value x N)
  | OpDropValue x => Some (drop_value x N)
  | OpTeardown x => teardown x N
  | OpAdd x id p => snd <$> node_add_process x id p N
  | OpRemove x id => snd <$> node_remove_process x id N
  | OpSetRegistry x registry => Some (node_set_registry x registry N)
  | OpNextId => snd <$> node_next_process_id N
  end.

Fixpoint node_run (ops : list NodeOp) (N : Node) : option Node :=
  match ops with
  | [] => Some N
  | op :: ops => if enabled op N then N ← node_exec op N; node_run ops N else None
  end.

Inductive node_step : Node → Node → Prop :=
| node_step_exec op N N' : enabled op N = true → node_exec op N = Some N' → node_step N N'.
End registry.
Arguments Node : clear implicits.

(** ** The invariant of a node *)

Section theory.
Context {M : Type → Type} `{FinMap Z M}.
Implicit Types (N : Node M) (i : Inner M) (q : NodeProcessQuota).

(** An environment that counts its processes exactly and within its limit, and
    whose entries hold a lease exactly when it is under the node's quota. *)
Record inner_ok i : Prop := {
  io_count : process_count i = Z.of_nat (size (processes i));
  io_limit limit : max_processes i = Some limit → process_count i <= limit;
  io_lease id e : processes i !! id = Some e → node_lease e = uses_quota i;
}.

Lemma with_node_options_ok id max quota registry g :
  (∀ limit, max = Some limit → 0 <= limit) →
  inner_ok (with_node_options id max quota registry g).
Proof.
  intros Hmax. split; simpl.
  - by rewrite map_size_empty.
  - intros limit Hl. by apply Hmax.
  - intros j e. by rewrite lookup_empty.
Qed.

(** What an admission changes. *)
Definition same_config i i' : Prop :=
  environment_id i' = environment_id i ∧ max_processes i' = max_processes i ∧
  uses_quota i' = uses_quota i ∧ module_registry i' = module_registry i ∧
  lifecycle i' = lifecycle i.

Lemma same_config_refl i : same_config i i.
Proof. by split_and!. Qed.
#[local] Hint Resolve same_config_refl : core.

Lemma add_process_spec id p i q :
  inner_ok i → quota_count q <= quota_limit q →
  ∃ r i' q', add_process id p i q = Some (r, i', q') ∧ inner_ok i' ∧ same_config i i' ∧
    quota_limit q' = quota_limit q ∧
    match r with
    | Ok _ => processes i !! id = None ∧
        processes i' = <[id := mkEntry p (uses_quota i)]> (processes i) ∧
        quota_count q' = quota_count q + (if uses_quota i then 1 else 0) ∧
        quota_count q' <= quota_limit q'
    | Err e => i' = i ∧ q' = q ∧
        (is_Some (processes i !! id) ∨ (∃ limit, max_processes i = Some limit ∧ limit <= process_count i) ∨
         (max_processes i = None ∧ u64_max <= process_count i) ∨
         (uses_quota i = true ∧ quota_limit q <= quota_count q))
    end.
Proof.
  intros Hok Hq. unfold add_process. destruct (processes i !! id) as [e|] eqn:Hid.
  { eexists _, i, q. split; [done|]. split_and!; try done. left. by eexists. }
  destruct (reserve_process_slot i) as [i1|e] eqn:Hslot.
  2: { eexists _, i, q. split; [done|]. split_and!; try done. right.
       unfold reserve_process_slot, checked_add in Hslot.
       destruct (max_processes i) as [limit|].
       - left. exists limit. case_in Hslot; bool_to_prop; split; [done|lia].
       - right; left. case_in Hslot; bool_to_prop; split; [done|lia]. }
  assert (i1 = set_process_count (process_count i + 1) i ∧
    ∀ limit, max_processes i = Some limit → process_count i < limit) as [-> Hlim].
  { unfold reserve_process_slot, checked_add in Hslot.
    destruct (max_processes i) as [limit|]; case_in Hslot; bool_to_prop; split; try done.
    by intros ? [= <-]. }
  assert (∀ b, b = uses_quota i → inner_ok (set_processes (<[id := mkEntry p b]> (processes i))
    (set_process_count (process_count i + 1) i))) as Hok'.
  { intros b ->. split; simpl.
    - rewrite map_size_insert_None, (io_count _ Hok) by done. lia.
    - intros limit Hl. specialize (Hlim limit Hl). lia.
    - intros j e. rewrite lookup_insert. case_decide; [by intros [= <-]|apply (io_lease _ Hok)]. }
  destruct (uses_quota i) eqn:Huq; cbn [uses_quota set_process_count]; rewrite Huq.
  - unfold quota_reserve. destruct (quota_count q <? quota_limit q) eqn:Hqc; bool_to_prop.
    + eexists _, _, _. split; [done|]. split; [by apply Hok'|].
      split; [by split_and!; rewrite ?Huq|]. simpl. split_and!; try done; lia.
    + unfold release_process_slot, checked_sub; simpl.
      assert (0 <= process_count i) by (rewrite (io_count _ Hok); lia).
      destruct (1 <=? process_count i + 1) eqn:Hge; bool_to_prop; [|lia]. simpl.
      eexists (Err _), i, q. split; [|split_and!; try done].
      * f_equal. replace (process_count i + 1 - 1) with (process_count i) by lia. by destruct i.
      * right; right; right. split; [done|lia].
  - eexists _, _, q. split; [done|]. split; [by apply Hok'|].
    split; [by split_and!; rewrite ?Huq|]. simpl. split_and!; try done; lia.
Qed.

Lemma remove_process_spec id i q :
  inner_ok i → (uses_quota i = true → Z.of_nat (size (processes i)) <= quota_count q) →
  ∃ b i' q', remove_process id i q = Some (b, i', q') ∧ inner_ok i' ∧ same_config i i' ∧
    quota_limit q' = quota_limit q ∧ b = bool_decide (is_Some (processes i !! id)) ∧
    processes i' = delete id (processes i) ∧
    quota_count q' = quota_count q - (if b && uses_quota i then 1 else 0).
Proof.
  intros Hok Hq. unfold remove_process. destruct (processes i !! id) as [e|] eqn:Hid.
  2: { eexists _, i, q. split_and!; try done.
       - by rewrite delete_id.
       - simpl. lia. }
  assert (size (processes i) ≠ 0)%nat as Hne by (eapply map_size_ne_0_lookup_2; eauto).
  unfold release_process_slot, checked_sub. cbn [process_count set_processes].
  pose proof (io_count _ Hok) as Hcount. destruct (1 <=? process_count i) eqn:Hge; bool_to_prop; [|lia].
  cbn [mbind option_bind]. pose proof (io_lease _ Hok id e Hid) as Hlease. rewrite Hlease.
  assert (inner_ok (set_process_count (process_count i - 1)
    (set_processes (delete id (processes i)) i))) as Hok'.
  { split; simpl.
    - rewrite map_size_delete_Some by done. lia.
    - intros limit Hl. specialize (io_limit _ Hok limit Hl). lia.
    - intros j e' [_ Hj]%lookup_delete_Some. by apply (io_lease _ Hok j). }
  destruct (uses_quota i) eqn:Huq.
  - specialize (Hq eq_refl). unfold lease_drop, checked_sub.
    destruct (1 <=? quota_count q) eqn:Hqc; bool_to_prop; [|lia]. simpl.
    eexists _, _, _. split_and!; [done|done|by split_and!; rewrite ?Huq|done..].
  - eexists _, _, q. split_and!; [done|done|by split_and!; rewrite ?Huq|done..|]. simpl. lia.
Qed.
(** *** The processes of all the environments *)

Definition held (m : gmap Z (Inner M * nat)) : Z :=
  map_fold (fun _ p n => Z.of_nat (size (processes p.1)) + n) 0 m.

Lemma held_insert x p m :
  m !! x = None → held (<[x := p]> m) = Z.of_nat (size (processes p.1)) + held m.
Proof. intros Hx. unfold held. rewrite map_fold_insert_L; [done| |done]. intros; lia. Qed.

Lemma held_delete x p m :
  m !! x = Some p → held m = Z.of_nat (size (processes p.1)) + held (delete x m).
Proof.
  intros Hx. rewrite <- (held_insert x p) by apply lookup_delete_eq.
  by rewrite insert_delete_id.
Qed.

Lemma held_replace x p p' m :
  m !! x = Some p →
  held (<[x := p']> m) =
    held m - Z.of_nat (size (processes p.1)) + Z.of_nat (size (processes p'.1)).
Proof.
  intros Hx. rewrite <- insert_delete_eq, held_insert, (held_delete x p m) by
    (done || apply lookup_delete_eq). lia.
Qed.

Lemma held_nonneg m : 0 <= held m.
Proof.
  unfold held. apply (map_fold_weak_ind (fun n _ => 0 <= n)); [done|]. intros. lia.
Qed.

(** *** Ownership *)

Definition owned (x : Z) N : Prop :=
  ∃ i k, inners N !! x = Some (i, k) ∧
    (k ≠ 0%nat ∨ ∃ o ou, outers N !! o = Some ou ∧ outer_inner ou = x).

Lemma inner_strong_owned x N : inner_strong x N ≠ 0%nat ↔ owned x N.
Proof.
  unfold inner_strong, owned. destruct (inners N !! x) as [[i k]|]; [|naive_solver].
  split.
  - intros Hne. exists i, k. split; [done|]. destruct k; [right|by left]. simpl in Hne.
    apply map_size_non_empty_iff, map_choose in Hne as (o & ou & [Ho Hx]%map_lookup_filter_Some).
    by exists o, ou.
  - intros (i' & k' & [= <- <-] & [Hk|(o & ou & Ho & Hx)]); [lia|].
    enough (size (filter (fun o => outer_inner o.2 = x) (outers N)) ≠ 0%nat) by lia.
    apply map_size_non_empty_iff. intros Hempty.
    assert (filter (fun o => outer_inner o.2 = x) (outers N) !! o = Some ou) as Hl
      by by apply map_lookup_filter_Some.
    by rewrite Hempty in Hl.
Qed.

(** *** Well-formed nodes *)

Record node_ok N : Prop := {
  no_count : environment_count N = Z.of_nat (size (envs N));
  no_max : environment_count N <= max_environments N;
  no_quota : quota_count (node_quota N) = held (inners N);
  no_quota_limit : quota_count (node_quota N) <= quota_limit (node_quota N);
  no_per_env : 0 <= max_processes_per_environment N;
  no_inner x i k : inners N !! x = Some (i, k) →
    inner_ok i ∧ max_processes i = Some (max_processes_per_environment N) ∧
    uses_quota i = true ∧ x < next_addr N ∧
    ∃ g, lifecycle i = Some g ∧ g < next_generation_counter N;
  no_generation x y i j k l : inners N !! x = Some (i, k) → inners N !! y = Some (j, l) →
    lifecycle i = lifecycle j → x = y;
  no_entry id st : envs N !! id = Some st → canonical st < next_addr N ∧
    ∃ i k, inners N !! stored_inner st = Some (i, k) ∧ environment_id i = id ∧
      lifecycle i = Some (generation st);
  no_outer o ou : outers N !! o = Some ou →
    is_Some (inners N !! outer_inner ou) ∧ o < next_addr N ∧ outer_strong ou ≠ 0%nat;
  no_canonical id st ou : envs N !! id = Some st → outers N !! canonical st = Some ou →
    outer_inner ou = stored_inner st;
  no_live x : owned x N → ∃ i k st, inners N !! x = Some (i, k) ∧
    envs N !! environment_id i = Some st ∧ stored_inner st = x;
}.

Lemma with_limits_ok max_envs max_procs max_node :
  0 <= max_envs → 0 <= max_procs → 0 <= max_node →
  node_ok (with_limits max_envs max_procs max_node).
Proof.
  intros. split; simpl; try done.
  all: try (intros *; by rewrite lookup_empty).
  - by rewrite map_size_empty.
  - intros x (i & k & Hx & _). simpl in Hx. by rewrite lookup_empty in Hx.
Qed.
(** *** Preservation, one kind of change at a time *)

(** Outers gain or lose references, or disappear. *)
Lemma set_outers_ok m N :
  node_ok N →
  (∀ o ou, m !! o = Some ou → outer_strong ou ≠ 0%nat ∧
     ∃ ou0, outers N !! o = Some ou0 ∧ outer_inner ou0 = outer_inner ou) →
  node_ok (set_outers m N).
Proof.
  intros [Hcnt Hmax Hq Hql Hpe Hin Hgen Hent Hout Hcan Hlive] Hm. split; simpl; try done.
  - intros o ou Ho. destruct (Hm o ou Ho) as (Hs & ou0 & Ho0 & <-).
    destruct (Hout o ou0 Ho0) as (? & ? & _). done.
  - intros id st ou Hid Ho. destruct (Hm _ ou Ho) as (_ & ou0 & Ho0 & <-). by eapply Hcan.
  - intros x (i & k & Hx & Hown). apply Hlive. exists i, k. split; [done|].
    destruct Hown as [Hk|(o & ou & Ho & <-)]; [by left|right].
    destruct (Hm _ ou Ho) as (_ & ou0 & Ho0 & <-). by exists o, ou0.
Qed.

Lemma upgrade_outer_ok o N N' : node_ok N → upgrade_outer o N = Some N' → node_ok N'.
Proof.
  intros Hok. unfold upgrade_outer. destruct (outers N !! o) as [ou|] eqn:Ho; [|done].
  intros [= <-]. apply set_outers_ok; [done|]. intros o' ou'. rewrite lookup_insert.
  case_decide as Heq; [intros [= <-]|intros Ho'].
  - subst o'. split; [done|]. by exists ou.
  - split; [by apply (no_outer _ Hok o')|]. by exists ou'.
Qed.

Lemma drop_outer_ok o N : node_ok N → node_ok (drop_outer o N).
Proof.
  intros Hok. unfold drop_outer. destruct (outers N !! o) as [[x n]|] eqn:Ho; [|done].
  assert (∀ o' ou', outers N !! o' = Some ou' → outer_strong ou' ≠ 0%nat ∧
     ∃ ou0, outers N !! o' = Some ou0 ∧ outer_inner ou0 = outer_inner ou') as Hrest.
  { intros o' ou' Ho'. split; [by apply (no_outer _ Hok o')|]. by exists ou'. }
  assert (node_ok (set_outers (delete o (outers N)) N)) as Hdel.
  { apply set_outers_ok; [done|]. intros o' ou' [_ Ho']%lookup_delete_Some. by apply Hrest. }
  destruct n as [|[|n]]; [done..|]. apply set_outers_ok; [done|].
  intros o' ou'. rewrite lookup_insert. case_decide as Heq; [intros [= <-]|apply Hrest].
  subst o'. split; [done|]. by eexists.
Qed.

(** A new canonical outer of an environment that has owners. *)
Definition rebuild_outer (id : Z) (st : StoredEnvironment) N : Node M :=
  let '(o, N) := new_outer (stored_inner st) N in
  set_envs (<[id := mkStored (generation st) o (stored_inner st)]> (envs N))
    (environment_count N) N.

Lemma rebuild_outer_ok id st N :
  node_ok N → envs N !! id = Some st → owned (stored_inner st) N →
  node_ok (rebuild_outer id st N).
Proof.
  intros [Hcnt Hmax Hq Hql Hpe Hin Hgen Hent Hout Hcan Hlive] Hid Hown.
  unfold rebuild_outer. split; simpl; try done.
  - rewrite Hcnt. by rewrite map_size_insert_Some by eauto.
  - intros x i k Hx. destruct (Hin x i k Hx) as (? & ? & ? & ? & ?). split_and!; [done..|lia|done].
  - intros id' st'. rewrite lookup_insert. case_decide as Heq; [intros [= <-]|intros Hid'].
    + subst id'. split; [simpl; lia|]. apply (Hent id st Hid).
    + destruct (Hent id' st' Hid') as [? ?]. split; [lia|done].
  - intros o ou. rewrite lookup_insert. case_decide as Heq; [intros [= <-]|intros Ho].
    + split_and!; [|lia|done]. destruct Hown as (i & k & Hx & _). by eexists.
    + destruct (Hout o ou Ho) as (? & ? & ?). split_and!; [done|lia|done].
  - intros id' st' ou Hid' Ho. rewrite lookup_insert in Hid'. rewrite lookup_insert in Ho.
    destruct (decide (id = id')) as [->|Hne]; [injection Hid' as <-|].
    + simpl in *. rewrite decide_True in Ho by done. by injection Ho as <-.
    + destruct (Hent id' st' Hid') as [Hlt _]. rewrite decide_False in Ho by lia. by eapply Hcan.
  - intros x (i & k & Hx & Hx'). simpl in *.
    destruct (Hlive x) as (i' & k' & st' & Hx2 & Hst' & Hs).
    { destruct Hx' as [Hk|(o & ou & Ho & Hx')]; [exists i, k; by eauto|].
      rewrite lookup_insert in Ho. case_decide.
      - injection Ho as <-. by subst x.
      - exists i, k; by eauto 10. }
    exists i', k'. rewrite lookup_insert. case_decide as Heq; [|by exists st'].
    eexists. split_and!; [done..|]. simpl. congruence.
Qed.
(** A new generation of an identity that has no live environment. *)
Definition install_next (id : Z) (registry : option Z) (n : Z) N : Z * Node M :=
  install_environment id (next_generation_counter N) registry
    (set_envs (envs N) n (set_next_generation (next_generation_counter N + 1) N)).

Lemma install_next_ok id registry n N :
  node_ok N → (∀ st, envs N !! id = Some st → ~ owned (stored_inner st) N) →
  n = Z.of_nat (match envs N !! id with Some _ => size (envs N) | None => S (size (envs N)) end) →
  n <= max_environments N → node_ok (install_next id registry n N).2.
Proof.
  intros [Hcnt Hmax Hq Hql Hpe Hin Hgen Hent Hout Hcan Hlive] Hdead Hn Hle.
  assert (inners N !! next_addr N = None) as Hfresh.
  { destruct (inners N !! next_addr N) as [[i k]|] eqn:Hx; [|done].
    destruct (Hin _ i k Hx) as (_ & _ & _ & ? & _). lia. }
  unfold install_next, install_environment, new_outer. split; simpl; try done.
  - rewrite Hn. destruct (envs N !! id) eqn:Hid.
    + by rewrite map_size_insert_Some by eauto.
    + by rewrite map_size_insert_None by done.
  - rewrite Hq, held_insert by done. simpl. rewrite map_size_empty. lia.
  - intros x i k. rewrite lookup_insert. case_decide as Heq; [intros [= <- <-]|intros Hx].
    + subst x. split; [apply with_node_options_ok; intros ? [= <-]; lia|].
      split_and!; [done|done|lia|]. eexists. split; [done|lia].
    + destruct (Hin x i k Hx) as (? & ? & ? & ? & g & ? & ?). split_and!; [done..|lia|].
      exists g. split; [done|lia].
  - intros x y i j k l. rewrite !lookup_insert.
    case_decide as Hx; [intros [= <- <-]|intros Hix]; (case_decide as Hy; [intros [= <- <-]|intros Hiy]);
      [by subst| | |by apply (Hgen x y i j k l)]; simpl; intros Heq.
    + destruct (Hin y j l Hiy) as (_ & _ & _ & _ & g & ? & ?). assert (g = next_generation_counter N)
        by congruence. lia.
    + destruct (Hin x i k Hix) as (_ & _ & _ & _ & g & ? & ?). assert (g = next_generation_counter N)
        by congruence. lia.
  - intros id' st'. rewrite lookup_insert. case_decide as Heq; [intros [= <-]|intros Hid'].
    + subst id'. simpl. split; [lia|]. rewrite lookup_insert_eq. by eexists _, _.
    + destruct (Hent id' st' Hid') as (? & i & k & Hx & ?). split; [lia|]. exists i, k.
      rewrite lookup_insert_ne by congruence. done.
  - intros o ou. rewrite lookup_insert. case_decide as Heq; [intros [= <-]|intros Ho].
    + simpl. rewrite lookup_insert_eq. split_and!; [by eexists|lia|done].
    + destruct (Hout o ou Ho) as (? & ? & ?). split_and!; [|lia|done].
      rewrite lookup_insert. by case_decide; [eexists|].
  - intros id' st' ou Hid' Ho. rewrite lookup_insert in Hid'. rewrite lookup_insert in Ho.
    destruct (decide (id = id')) as [->|Hne]; [injection Hid' as <-|].
    + simpl in *. rewrite decide_True in Ho by done. by injection Ho as <-.
    + destruct (Hent id' st' Hid') as [Hlt _]. rewrite decide_False in Ho by lia. by eapply Hcan.
  - intros x (i & k & Hx & Hown). simpl in *. rewrite lookup_insert in Hx. case_decide as Heq.
    { injection Hx as <- <-. subst x. eexists _, _, _.
      split_and!; [by apply lookup_insert_eq|by apply lookup_insert_eq|done]. }
    assert (owned x N) as Hown0.
    { exists i, k. split; [done|]. destruct Hown as [Hk|(o & ou & Ho & Hox)]; [by left|right].
      rewrite lookup_insert in Ho. case_decide; [injection Ho as <-; done|by eauto]. }
    destruct (Hlive x Hown0) as (i' & k' & st & Hx' & Hst & Hs).
    exists i', k', st. rewrite lookup_insert_ne by done. split_and!; [done| |done].
    rewrite lookup_insert_ne; [done|]. intros ->. apply (Hdead st Hst). by rewrite Hs.
Qed.

(** One environment changes its processes, its registry or its clones. *)
Lemma update_inner_ok N x i k i' k' q :
  node_ok N → inners N !! x = Some (i, k) → inner_ok i' →
  environment_id i' = environment_id i → max_processes i' = max_processes i →
  uses_quota i' = uses_quota i → lifecycle i' = lifecycle i → (k' ≠ 0%nat → owned x N) →
  quota_limit q = quota_limit (node_quota N) →
  quota_count q = quota_count (node_quota N) - Z.of_nat (size (processes i))
                  + Z.of_nat (size (processes i')) →
  quota_count q <= quota_limit q →
  node_ok (set_quota q (set_inners (<[x := (i', k')]> (inners N)) N)).
Proof.
  intros [Hcnt Hmax Hq Hql Hpe Hin Hgen Hent Hout Hcan Hlive] Hx Hi' Hid Hmp Huq Hlc Hk' Hlim Hqc Hqle.
  assert (∀ y j l, (<[x := (i', k')]> (inners N)) !! y = Some (j, l) → ∃ j0 l0,
    inners N !! y = Some (j0, l0) ∧ lifecycle j = lifecycle j0 ∧
    environment_id j = environment_id j0) as Hback.
  { intros y j l. rewrite lookup_insert. case_decide as Heq; [intros [= <- <-]|by eauto 6].
    subst y. by exists i, k. }
  split; simpl; try done.
  - rewrite Hqc, Hq, (held_replace x (i, k)) by done. done.
  - intros y j l. rewrite lookup_insert. case_decide as Heq; [intros [= <- <-]|by apply Hin].
    destruct (Hin x i k Hx) as (? & ? & ? & ? & ?). subst y.
    rewrite Hmp, Huq, Hlc. by split_and!.
  - intros y z j1 j2 l1 l2 Hy Hz Hl.
    destruct (Hback _ _ _ Hy) as (a & b & ? & ? & _), (Hback _ _ _ Hz) as (c & d & ? & ? & _).
    eapply Hgen; [done..|congruence].
  - intros id' st Hst. destruct (Hent id' st Hst) as (? & j & l & Hj & ? & ?). split; [done|].
    rewrite lookup_insert. case_decide as Heq; [|by exists j, l]. exists i', k'. subst x.
    assert (j = i) as -> by congruence. by rewrite Hid, Hlc.
  - intros o ou Ho. destruct (Hout o ou Ho) as (? & ? & ?). split_and!; [|done..].
    rewrite lookup_insert. by case_decide; [eexists|].
  - intros y (j & l & Hy & Hown). simpl in *.
    assert (owned y N) as Hown'.
    { rewrite lookup_insert in Hy. case_decide as Heq.
      - injection Hy as <- <-. subst y. destruct Hown as [Hk|Ho]; [by apply Hk'|].
        exists i, k. by eauto.
      - by exists j, l. }
    destruct (Hlive y Hown') as (j0 & l0 & st & Hj0 & Hst & Hs).
    destruct (Hback y j l Hy) as (? & ? & Hj0' & _ & Hide). exists j, l, st.
    split_and!; [done| |done]. rewrite Hide. congruence.
Qed.
(** *** Destruction *)

Lemma drop_entries_spec es q :
  (∀ e, e ∈ es → node_lease e.2 = true) → Z.of_nat (length es) <= quota_count q →
  drop_entries es q = Some (mkQuota (quota_count q - Z.of_nat (length es)) (quota_limit q)).
Proof.
  revert q. induction es as [|[j e] es IH]; intros q Hl Hlen; cbn [drop_entries length] in *.
  { f_equal. destruct q; simpl. f_equal. lia. }
  pose proof (Hl (j, e) (list_elem_of_here _ _)) as Hj. simpl in Hj. rewrite Hj. unfold lease_drop, checked_sub.
  destruct (1 <=? quota_count q) eqn:Hge; bool_to_prop; [|lia]. cbn [mbind option_bind].
  rewrite IH; simpl; [f_equal; f_equal; lia| |lia]. intros e' He'. apply Hl. by right.
Qed.

(** The entry of an inner is the one with its generation. *)
Lemma stored_generation N id st x i k g :
  node_ok N → envs N !! id = Some st → inners N !! x = Some (i, k) → lifecycle i = Some g →
  generation st = g ↔ stored_inner st = x.
Proof.
  intros Hok Hst Hx Hg. destruct (no_entry _ Hok id st Hst) as (_ & j & l & Hj & _ & Hjg). split.
  - intros <-. eapply (no_generation _ Hok); [done..|congruence].
  - intros <-. congruence.
Qed.

(** What the destruction of [x] leaves. *)
Definition registered_as (x : Z) i N : bool :=
  match envs N !! environment_id i with
  | Some st => bool_decide (stored_inner st = x)
  | None => false
  end.

Definition torn_down (x : Z) i N : Node M :=
  let q := mkQuota (quota_count (node_quota N) - Z.of_nat (size (processes i)))
             (quota_limit (node_quota N)) in
  let N' := set_inners (delete x (inners N)) (set_quota q N) in
  if registered_as x i N
  then set_envs (delete (environment_id i) (envs N)) (environment_count N - 1) N'
  else N'.

Lemma teardown_spec x i k N :
  node_ok N → inners N !! x = Some (i, k) → teardown x N = Some (torn_down x i N).
Proof.
  intros Hok Hx. unfold teardown. rewrite Hx.
  destruct (no_inner _ Hok x i k Hx) as (Hi & _ & Huq & _ & g & Hg & _).
  assert (Z.of_nat (size (processes i)) <= quota_count (node_quota N)) as Hle.
  { rewrite (no_quota _ Hok), (held_delete x (i, k)) by done. simpl.
    pose proof (held_nonneg (delete x (inners N))). lia. }
  assert (length (map_to_list (processes i)) = size (processes i)) as Hlen by apply length_map_to_list.
  rewrite drop_entries_spec, Hlen; [| |by rewrite Hlen].
  2: { intros [j e] He%elem_of_map_to_list. simpl. rewrite <- Huq. by eapply io_lease. }
  cbn [mbind option_bind]. rewrite Hg. unfold release_generation, torn_down, registered_as. simpl.
  destruct (envs N !! environment_id i) as [st|] eqn:Hst; [|done].
  pose proof (stored_generation N _ st x i k g Hok Hst Hx Hg) as Hsg.
  destruct (generation st =? g) eqn:Hgen; bool_to_prop.
  - rewrite bool_decide_true by (by apply Hsg).
    unfold release_environment_slot, checked_sub; simpl. pose proof (no_count _ Hok).
    assert (size (envs N) ≠ 0)%nat by (eapply map_size_ne_0_lookup_2; eauto).
    destruct (1 <=? environment_count N) eqn:Hge; bool_to_prop; [done|lia].
  - rewrite bool_decide_false by (by rewrite <- Hsg). done.
Qed.

Lemma torn_down_ok x i k N :
  node_ok N → inners N !! x = Some (i, k) → ~ owned x N → node_ok (torn_down x i N).
Proof.
  intros Hok Hx Hdead. pose proof Hok as [Hcnt Hmax Hq Hql Hpe Hin Hgen Hent Hout Hcan Hlive].
  assert (∀ id st, envs N !! id = Some st →
    (id = environment_id i ∧ registered_as x i N = true) ∨ stored_inner st ≠ x) as Hreg.
  { intros id st Hst. destruct (decide (stored_inner st = x)) as [<-|]; [left|by right].
    destruct (Hent id st Hst) as (_ & j & l & Hj & Hid & _).
    assert (j = i) as -> by congruence. subst id. split; [done|].
    unfold registered_as. rewrite Hst. by apply bool_decide_true. }
  assert (∀ id st, envs (torn_down x i N) !! id = Some st →
    envs N !! id = Some st ∧ stored_inner st ≠ x) as Henvs.
  { intros id st. unfold torn_down. destruct (registered_as x i N) eqn:Hr; simpl.
    - intros [Hne Hst]%lookup_delete_Some. split; [done|]. by destruct (Hreg id st Hst) as [[? _]|?].
    - intros Hst. split; [done|]. by destruct (Hreg id st Hst) as [[_ ?]|?]. }
  assert (inners (torn_down x i N) = delete x (inners N) ∧
    outers (torn_down x i N) = outers N ∧ next_addr (torn_down x i N) = next_addr N ∧
    next_generation_counter (torn_down x i N) = next_generation_counter N ∧
    max_environments (torn_down x i N) = max_environments N ∧
    max_processes_per_environment (torn_down x i N) = max_processes_per_environment N ∧
    node_quota (torn_down x i N) = mkQuota (quota_count (node_quota N) - Z.of_nat (size (processes i)))
             (quota_limit (node_quota N))) as (Ein & Eout & Ead & Eg & Eme & Emp & Eq).
  { unfold torn_down. by destruct (registered_as x i N). }
  split; rewrite ?Ein, ?Eout, ?Ead, ?Eg, ?Eme, ?Emp, ?Eq; try done.
  - unfold torn_down, registered_as. destruct (envs N !! environment_id i) as [st|] eqn:Hst; [|done].
    case_bool_decide; simpl; [|done]. rewrite map_size_delete_Some by done.
    assert (size (envs N) ≠ 0)%nat by (eapply map_size_ne_0_lookup_2; eauto). lia.
  - unfold torn_down. destruct (registered_as x i N); simpl; lia.
  - simpl. rewrite Hq, (held_delete x (i, k)) by done. simpl. lia.
  - simpl. lia.
  - intros y j l [_ Hy]%lookup_delete_Some. by apply (Hin y j l).
  - intros y z j1 j2 l1 l2 [_ Hy]%lookup_delete_Some [_ Hz]%lookup_delete_Some.
    by apply (Hgen y z j1 j2 l1 l2).
  - intros id st [Hst Hne]%Henvs. destruct (Hent id st Hst) as (? & j & l & ? & ? & ?).
    split; [done|]. exists j, l. by rewrite lookup_delete_ne.
  - intros o ou Ho. destruct (Hout o ou Ho) as (? & ? & ?). split_and!; [|done..].
    rewrite lookup_delete_ne; [done|]. intros ->. apply Hdead. exists i, k. split; [done|right; by exists o, ou].
  - intros id st ou [Hst _]%Henvs Ho. by eapply Hcan.
  - intros y (j & l & Hy & Hown). rewrite Ein in Hy. rewrite Eout in Hown.
    apply lookup_delete_Some in Hy as [Hne Hy].
    destruct (Hlive y) as (j' & l' & st & Hy' & Hst & Hs); [by exists j, l|].
    exists j', l', st. rewrite lookup_delete_ne by done. split_and!; [done| |done].
    unfold torn_down, registered_as. destruct (envs N !! environment_id i) as [st'|] eqn:Hst'; [|done].
    case_bool_decide as Hx'; [|done]. simpl. rewrite lookup_delete_ne; [done|].
    intros Heq. apply Hne. rewrite <- Hx', <- Hs. congruence.
Qed.
(** *** Creation and lookup *)

(** [x] is the live environment of [id]. *)
Definition live (id x : Z) N : Prop :=
  owned x N ∧ ∃ i k, inners N !! x = Some (i, k) ∧ environment_id i = id.

(** Nothing but references to outers changed. *)
Definition same_environments N N' : Prop :=
  inners N' = inners N ∧ environment_count N' = environment_count N ∧
  (forall id, generation <$> envs N' !! id = generation <$> envs N !! id) ∧
  (forall id, stored_inner <$> envs N' !! id = stored_inner <$> envs N !! id) ∧
  next_generation_counter N' = next_generation_counter N ∧ node_quota N' = node_quota N ∧
  next_process_counter N' = next_process_counter N ∧ max_environments N' = max_environments N ∧
  max_processes_per_environment N' = max_processes_per_environment N.

Lemma same_environments_refl N : same_environments N N.
Proof. by split_and!. Qed.

Lemma same_environments_trans N1 N2 N3 :
  same_environments N1 N2 → same_environments N2 N3 → same_environments N1 N3.
Proof.
  intros (?&?&Hg&Hs&?&?&?&?&?) (?&?&Hg'&Hs'&?&?&?&?&?).
  split_and!; congruence.
Qed.

Lemma drop_outer_same o N : same_environments N (drop_outer o N).
Proof.
  unfold drop_outer. destruct (outers N !! o) as [[x [|[|n]]]|]; by split_and!.
Qed.

Lemma rebuild_outer_same id st N :
  envs N !! id = Some st → same_environments N (rebuild_outer id st N).
Proof.
  intros Hst. split_and!; simpl; try done; intros id'; rewrite lookup_insert;
    (case_decide as Heq; [subst id'; by rewrite Hst|done]).
Qed.

Definition acceptable (registry : option Z) i : Prop :=
  ∀ r, registry = Some r → module_registry i = Some r.

Lemma validate_registry_spec i registry :
  match validate_registry i registry with Ok _ => acceptable registry i | Err _ => ~ acceptable registry i end.
Proof.
  unfold validate_registry, acceptable. destruct registry as [r|]; [|done].
  destruct (module_registry i) as [r'|]; [|naive_solver].
  destruct (r' =? r) eqn:Heq; bool_to_prop; naive_solver.
Qed.

Lemma validated_spec o ou i k registry N :
  node_ok N → outers N !! o = Some ou → inners N !! outer_inner ou = Some (i, k) →
  let '(r, N') := validated o (outer_inner ou) registry N in
  node_ok N' ∧ same_environments N N' ∧
  match r with
  | Ok o' => acceptable registry i ∧ o' = o ∧ outers N' !! o = Some ou
  | Err _ => ~ acceptable registry i
  end.
Proof.
  intros Hok Ho Hx. unfold validated. rewrite Hx.
  pose proof (validate_registry_spec i registry) as Hv. destruct (validate_registry i registry).
  - split_and!; [done|apply same_environments_refl|done..].
  - split_and!; [by apply drop_outer_ok|apply drop_outer_same|done].
Qed.

(** The owner of a live environment finds its entry. *)
Lemma live_entry id x N :
  node_ok N → live id x N → ∃ st, envs N !! id = Some st ∧ stored_inner st = x.
Proof.
  intros Hok [Hown (i & k & Hx & <-)].
  destruct (no_live _ Hok x Hown) as (i' & k' & st & Hx' & Hst & Hs). exists st.
  by assert (i' = i) as -> by congruence.
Qed.

(** At most one generation of an identity is alive. *)
Lemma live_unique id x y N : node_ok N → live id x N → live id y N → x = y.
Proof.
  intros Hok (st & Hst & <-)%live_entry (st' & Hst' & <-)%live_entry; try done. congruence.
Qed.

Lemma canonical_owned N id st ou :
  node_ok N → envs N !! id = Some st → outers N !! canonical st = Some ou →
  owned (stored_inner st) N.
Proof.
  intros Hok Hst Ho. destruct (no_entry _ Hok id st Hst) as (_ & i & k & Hx & _).
  exists i, k. split; [done|]. right. exists (canonical st), ou. split; [done|].
  by eapply (no_canonical _ Hok).
Qed.

(** The entry of a live environment hands out an outer of it. *)
Definition reuse (id : Z) (st : StoredEnvironment) N : option (Z * Node M) :=
  match upgrade_outer (canonical st) N with
  | Some N' => Some (canonical st, N')
  | None =>
      if bool_decide (inner_strong (stored_inner st) N ≠ 0%nat)
      then Some (next_addr N, rebuild_outer id st N) else None
  end.

Lemma reuse_spec id st N :
  node_ok N → envs N !! id = Some st →
  match reuse id st N with
  | Some (o, N') => owned (stored_inner st) N ∧ node_ok N' ∧ same_environments N N' ∧
      ∃ ou, outers N' !! o = Some ou ∧ outer_inner ou = stored_inner st
  | None => ~ owned (stored_inner st) N
  end.
Proof.
  intros Hok Hst. unfold reuse. destruct (upgrade_outer (canonical st) N) as [N'|] eqn:Hup.
  - pose proof (upgrade_outer_ok _ _ _ Hok Hup) as Hok'. unfold upgrade_outer in Hup.
    destruct (outers N !! canonical st) as [ou|] eqn:Ho; [|done]. injection Hup as <-.
    split_and!; [by eapply canonical_owned|done|by split_and!|]. eexists.
    split; [apply lookup_insert_eq|]. simpl. by eapply (no_canonical _ Hok).
  - case_bool_decide as Hs; [|intros Hown%inner_strong_owned; done].
    apply inner_strong_owned in Hs. split_and!; [done|by apply rebuild_outer_ok|by apply rebuild_outer_same|].
    eexists. split; [apply lookup_insert_eq|done].
Qed.

Lemma get_reuse id N :
  get id N = match envs N !! id with
             | Some st => match reuse id st N with
                          | Some (o, N') => (Some o, N')
                          | None => (None, N)
                          end
             | None => (None, N)
             end.
Proof.
  unfold get, reuse. destruct (envs N !! id) as [st|]; [|done].
  destruct (upgrade_outer (canonical st) N); [done|]. by case_bool_decide.
Qed.

Lemma create_reuse id registry st N :
  envs N !! id = Some st →
  create_atomic id registry N =
    match reuse id st N with
    | Some (o, N') => validated o (stored_inner st) registry N'
    | None =>
        match checked_add u64_max (next_generation_counter N) 1 with
        | Some _ => let '(o, N') := install_next id registry (environment_count N) N in (Ok o, N')
        | None => (Err GenerationExhausted, N)
        end
    end.
Proof.
  intros Hst. unfold create_atomic, reuse. rewrite Hst.
  destruct (upgrade_outer (canonical st) N); [done|]. case_bool_decide; [done|].
  unfold next_generation. destruct (checked_add _ _ _) as [g|] eqn:Hg; [|done].
  apply checked_add_Some in Hg as [-> _]. done.
Qed.
(** What a creation may do. *)
Definition can_install (id : Z) N : Prop :=
  next_generation_counter N < u64_max ∧
  (is_Some (envs N !! id) ∨ environment_count N < max_environments N).

Definition new_environment (id : Z) (registry : option Z) N : Inner M :=
  with_node_options id (Some (max_processes_per_environment N)) true registry
    (Some (next_generation_counter N)).

(** The slots that a new generation takes. *)
Definition new_slot (id : Z) N : Z :=
  match envs N !! id with Some _ => 0 | None => 1 end.

(** A new generation: a fresh inner without processes, one slot unless the
    identity holds one. *)
Definition installed (id : Z) (registry : option Z) (o : Z) N N' : Prop :=
  ∃ x, inners N !! x = None ∧
    inners N' = <[x := (new_environment id registry N, 0%nat)]> (inners N) ∧
    outers N' !! o = Some (mkOuter x 1) ∧ live id x N' ∧
    environment_count N' = environment_count N + new_slot id N ∧
    next_generation_counter N' = next_generation_counter N + 1 ∧
    next_process_counter N' = next_process_counter N ∧ node_quota N' = node_quota N.

Lemma install_next_installed id registry n N :
  node_ok N → n = environment_count N + new_slot id N →
  let '(o, N') := install_next id registry n N in installed id registry o N N'.
Proof.
  intros Hok Hn. unfold install_next, install_environment, new_outer.
  exists (next_addr N). simpl.
  assert (inners N !! next_addr N = None) as Hfresh.
  { destruct (inners N !! next_addr N) as [[i k]|] eqn:Hx; [|done].
    destruct (no_inner _ Hok _ i k Hx) as (_ & _ & _ & ? & _). lia. }
  split_and!; [done|done|apply lookup_insert_eq| |done..].
  split; eexists _, _; simpl; rewrite lookup_insert_eq; (split; [done|]).
  - right. eexists _, _. by rewrite lookup_insert_eq.
  - done.
Qed.

(** The outcome of [create_atomic id registry] on [N]: the live environment of
    [id] if it has the requested registry, else an error; a new generation if
    none is alive and the limits admit it, else an error and nothing changes. *)
Definition create_outcome (id : Z) (registry : option Z) N (r : result Z EnvError) N' : Prop :=
  match r with
  | Ok o =>
      (∃ x i k ou, live id x N ∧ inners N !! x = Some (i, k) ∧ acceptable registry i ∧
         outers N' !! o = Some ou ∧ outer_inner ou = x ∧ same_environments N N') ∨
      ((∀ x, ~ live id x N) ∧ can_install id N ∧ installed id registry o N N')
  | Err _ =>
      (∃ x i k, live id x N ∧ inners N !! x = Some (i, k) ∧ ~ acceptable registry i ∧
         same_environments N N') ∨
      ((∀ x, ~ live id x N) ∧ ~ can_install id N ∧ inners N' = inners N ∧ envs N' = envs N ∧
         outers N' = outers N ∧ environment_count N' = environment_count N ∧
         node_quota N' = node_quota N ∧ next_process_counter N' = next_process_counter N)
  end.

Lemma install_outcome id registry N :
  node_ok N → (∀ x, ~ live id x N) → can_install id N →
  let '(o, N') := install_next id registry (environment_count N + new_slot id N) N in
  node_ok N' ∧ create_outcome id registry N (Ok o) N'.
Proof.
  intros Hok Hnone [Hg Hslot].
  pose proof (install_next_installed id registry _ N Hok eq_refl) as Hi.
  assert (node_ok (install_next id registry (environment_count N + new_slot id N) N).2) as Hok'.
  { apply install_next_ok; [done|..].
    - intros st Hst Hown. destruct (no_entry _ Hok id st Hst) as (_ & i & k & Hx & Hid & _).
      apply (Hnone (stored_inner st)). split; [done|]. by exists i, k.
    - unfold new_slot. rewrite (no_count _ Hok). destruct (envs N !! id); lia.
    - unfold new_slot. pose proof (no_max _ Hok). destruct (envs N !! id); [lia|].
      destruct Hslot as [[? ?]|?]; [done|lia]. }
  destruct (install_next _ _ _ _) as [o N']. split; [done|]. right. by split_and!.
Qed.

Lemma generation_exhausted N :
  checked_add u64_max (next_generation_counter N) 1 = None ↔ u64_max <= next_generation_counter N.
Proof. unfold checked_add. case_match; bool_to_prop; split; (done || lia). Qed.

Lemma create_occupied id registry st N :
  node_ok N → envs N !! id = Some st →
  let '(r, N') := create_atomic id registry N in node_ok N' ∧ create_outcome id registry N r N'.
Proof.
  intros Hok Hst. rewrite (create_reuse id registry st N Hst).
  pose proof (reuse_spec id st N Hok Hst) as Hre.
  destruct (no_entry _ Hok id st Hst) as (_ & i & k & Hx & Hid & _).
  destruct (reuse id st N) as [[o N1]|].
  - destruct Hre as (Hown & Hok1 & Hsame & ou & Ho & Hoi).
    assert (inners N1 !! outer_inner ou = Some (i, k)) as Hx1
      by (destruct Hsame as [-> _]; by rewrite Hoi).
    pose proof (validated_spec o ou i k registry N1 Hok1 Ho Hx1) as Hval. rewrite <- Hoi.
    destruct (validated o (outer_inner ou) registry N1) as [r N2].
    destruct Hval as (Hok2 & Hsame2 & Hr). split; [done|].
    pose proof (same_environments_trans _ _ _ Hsame Hsame2) as Hsame'.
    assert (live id (outer_inner ou) N) as Hl by (rewrite Hoi; split; by eauto).
    assert (inners N !! outer_inner ou = Some (i, k)) by (by rewrite Hoi).
    destruct r as [o'|e]; left.
    + destruct Hr as (Hacc & -> & Ho2). by exists (outer_inner ou), i, k, ou.
    + by exists (outer_inner ou), i, k.
  - assert (∀ x, ~ live id x N) as Hnone.
    { intros x Hl. destruct (live_entry id x N Hok Hl) as (st' & Hst' & Hs).
      assert (st' = st) as -> by congruence. apply Hre. rewrite Hs. apply Hl. }
    destruct (checked_add u64_max (next_generation_counter N) 1) as [g|] eqn:Hg.
    + apply checked_add_Some in Hg as [-> Hg].
      pose proof (install_outcome id registry N Hok Hnone) as Hi.
      replace (environment_count N + new_slot id N) with (environment_count N) in Hi
        by (unfold new_slot; rewrite Hst; lia).
      destruct (install_next id registry (environment_count N) N). apply Hi.
      split; [lia|left; by eexists].
    + apply generation_exhausted in Hg. split; [done|]. right. split_and!; try done.
      intros [Hlt _]. lia.
Qed.

Lemma create_vacant id registry N :
  node_ok N → envs N !! id = None →
  let '(r, N') := create_atomic id registry N in node_ok N' ∧ create_outcome id registry N r N'.
Proof.
  intros Hok Hst. unfold create_atomic, next_generation. rewrite Hst.
  assert (∀ x, ~ live id x N) as Hnone.
  { intros x Hl. destruct (live_entry id x N Hok Hl) as (st' & Hst' & Hs). congruence. }
  destruct (checked_add u64_max (next_generation_counter N) 1) as [g|] eqn:Hg.
  2: { apply generation_exhausted in Hg. split; [done|]. right. split_and!; try done.
       intros [Hlt _]. lia. }
  apply checked_add_Some in Hg as [-> Hg]. unfold reserve_environment_slot.
  cbn [environment_count max_environments set_next_generation].
  destruct (environment_count N <? max_environments N) eqn:Hlt; bool_to_prop.
  - pose proof (install_outcome id registry N Hok Hnone) as Hi.
    replace (new_slot id N) with 1 in Hi by (unfold new_slot; by rewrite Hst).
    change (let '(o, N') := install_next id registry (environment_count N + 1) N in
      let '(r, N') := (Ok o, N') in node_ok N' ∧ create_outcome id registry N r N').
    destruct (install_next _ _ _ _) as [o N']. apply Hi. split; [lia|by right].
  - split.
    + destruct Hok as [Hcnt Hmax Hq Hql Hpe Hin Hgen Hent Hout Hcan Hlive]. split; try done.
      intros x i k Hx. destruct (Hin x i k Hx) as (? & ? & ? & ? & g & ? & ?).
      split_and!; [done..|]. exists g. simpl. split; [done|lia].
    + right. split_and!; try done. intros [_ [[? ?]|?]]; [congruence|lia].
Qed.

Lemma create_atomic_spec id registry N :
  node_ok N →
  let '(r, N') := create_atomic id registry N in node_ok N' ∧ create_outcome id registry N r N'.
Proof.
  intros Hok. destruct (envs N !! id) eqn:Hst; [by eapply create_occupied|by apply create_vacant].
Qed.
(** *** Every step *)

Lemma set_quota_same N : set_quota (node_quota N) N = N.
Proof. by destruct N. Qed.

Lemma alter_inner x f N i k :
  inners N !! x = Some (i, k) →
  set_inners (alter f x (inners N)) N =
  set_quota (node_quota N) (set_inners (<[x := ((f (i, k)).1, (f (i, k)).2)]> (inners N)) N).
Proof.
  intros Hx. unfold set_quota, set_inners. simpl. f_equal. apply map_eq. intros y.
  rewrite lookup_alter, lookup_insert. case_decide as Heq; [|done]. subst y. rewrite Hx. simpl.
  by destruct (f (i, k)).
Qed.

Lemma alter_inner_ok x f N i k :
  node_ok N → inners N !! x = Some (i, k) → owned x N →
  environment_id (f (i, k)).1 = environment_id i → max_processes (f (i, k)).1 = max_processes i →
  uses_quota (f (i, k)).1 = uses_quota i → lifecycle (f (i, k)).1 = lifecycle i →
  processes (f (i, k)).1 = processes i → process_count (f (i, k)).1 = process_count i →
  node_ok (set_inners (alter f x (inners N)) N).
Proof.
  intros Hok Hx Hown Hid Hmp Huq Hlc Hps Hpc. rewrite (alter_inner x _ N i k Hx).
  destruct (no_inner _ Hok x i k Hx) as ([Hc Hl Hle] & _). pose proof (no_quota_limit _ Hok).
  eapply update_inner_ok; try done.
  - split; [by rewrite Hps, Hpc|by rewrite Hmp, Hpc|by rewrite Hps, Huq].
  - rewrite Hps. lia.
Qed.

Lemma node_add_process_spec x id p i k N :
  node_ok N → inners N !! x = Some (i, k) → owned x N →
  ∃ r i' q', add_process id p i (node_quota N) = Some (r, i', q') ∧
    node_add_process x id p N = Some (r, set_quota q' (set_inners (<[x := (i', k)]> (inners N)) N)) ∧
    node_ok (set_quota q' (set_inners (<[x := (i', k)]> (inners N)) N)).
Proof.
  intros Hok Hx Hown. destruct (no_inner _ Hok x i k Hx) as (Hi & Hmp & Huq & _).
  destruct (add_process_spec id p i (node_quota N) Hi (no_quota_limit _ Hok))
    as (r & i' & q' & Hadd & Hi' & (Eid & Emp & Euq & _ & Elc) & Hlim & Hr).
  exists r, i', q'. split; [done|]. unfold node_add_process. rewrite Hx, Hadd. split; [done|].
  eapply update_inner_ok; try done.
  - destruct r as [|e].
    + destruct Hr as (Hnone & -> & -> & _). rewrite map_size_insert_None by done. rewrite Huq. lia.
    + destruct Hr as (-> & -> & _). lia.
  - pose proof (no_quota_limit _ Hok). destruct r as [|e]; [apply Hr|by destruct Hr as (-> & -> & _)].
Qed.

Lemma size_le_quota x i k N :
  node_ok N → inners N !! x = Some (i, k) →
  Z.of_nat (size (processes i)) <= quota_count (node_quota N).
Proof.
  intros Hok Hx. rewrite (no_quota _ Hok), (held_delete x (i, k)) by done. simpl.
  pose proof (held_nonneg (delete x (inners N))). lia.
Qed.

Lemma node_remove_process_spec x id i k N :
  node_ok N → inners N !! x = Some (i, k) → owned x N →
  ∃ b i' q', remove_process id i (node_quota N) = Some (b, i', q') ∧
    node_remove_process x id N = Some (b, set_quota q' (set_inners (<[x := (i', k)]> (inners N)) N)) ∧
    node_ok (set_quota q' (set_inners (<[x := (i', k)]> (inners N)) N)).
Proof.
  intros Hok Hx Hown. destruct (no_inner _ Hok x i k Hx) as (Hi & Hmp & Huq & _).
  destruct (remove_process_spec id i (node_quota N) Hi)
    as (b & i' & q' & Hrem & Hi' & (Eid & Emp & Euq & _ & Elc) & Hlim & Hb & Hps & Hq).
  { intros _. by eapply size_le_quota. }
  exists b, i', q'. split; [done|]. unfold node_remove_process. rewrite Hx, Hrem. split; [done|].
  pose proof (no_quota_limit _ Hok). eapply update_inner_ok; try done.
  - rewrite Hq, Hps, Hb, Huq. destruct (processes i !! id) as [e|] eqn:Hid.
    + rewrite bool_decide_true by by eexists. rewrite map_size_delete_Some by done.
      assert (size (processes i) ≠ 0)%nat by (eapply map_size_ne_0_lookup_2; eauto). simpl. lia.
    + rewrite bool_decide_false by by intros [? ?]. rewrite map_size_delete_None by done. simpl. lia.
  - rewrite Hq. destruct (b && uses_quota i); lia.
Qed.

(** An enabled operation does not panic and keeps the node well formed. *)
Lemma node_exec_ok op N :
  node_ok N → enabled op N = true → ∃ N', node_exec op N = Some N' ∧ node_ok N'.
Proof.
  intros Hok Hen. destruct op; simpl in *; try (apply andb_true_iff in Hen as [Hen Hdead]); bool_to_prop.
  - eexists. split; [done|]. pose proof (create_atomic_spec id registry N Hok) as Hc.
    destruct (create_atomic id registry N). apply Hc.
  - eexists. split; [done|]. rewrite get_reuse. destruct (envs N !! id) as [st|] eqn:Hst; [|done].
    pose proof (reuse_spec id st N Hok Hst) as Hre. destruct (reuse id st N) as [[o N']|]; [|done].
    apply Hre.
  - eexists. split; [done|]. unfold clone_outer.
    destruct (upgrade_outer o N) eqn:Hup; [by eapply upgrade_outer_ok|done].
  - eexists. split; [done|]. by apply drop_outer_ok.
  - apply inner_strong_owned in Hen as Hown. destruct Hown as (i & k & Hx & Hown).
    eexists. split; [done|]. eapply alter_inner_ok; try done. by exists i, k.
  - destruct (inners N !! x) as [[i k]|] eqn:Hx; [|done]. bool_to_prop.
    eexists. split; [done|]. eapply alter_inner_ok; try done. exists i, k. by eauto.
  - destruct (inners N !! x) as [[i k]|] eqn:Hx; [|by apply is_Some_None in Hen].
    exists (torn_down x i N). split; [by eapply teardown_spec|]. eapply torn_down_ok; [done..|].
    by intros Hown%inner_strong_owned.
  - apply inner_strong_owned in Hen as Hown. destruct Hown as (i & k & Hx & _).
    destruct (node_add_process_spec x id p i k N) as (r & i' & q' & _ & -> & Hok'); try done.
    { by apply inner_strong_owned. }
    by eexists.
  - apply inner_strong_owned in Hen as Hown. destruct Hown as (i & k & Hx & _).
    destruct (node_remove_process_spec x id i k N) as (r & i' & q' & _ & -> & Hok'); try done.
    { by apply inner_strong_owned. }
    by eexists.
  - apply inner_strong_owned in Hen as Hown. destruct Hown as (i & k & Hx & Hown).
    eexists. split; [done|]. eapply alter_inner_ok; try done. by exists i, k.
  - unfold node_next_process_id, next_process_id, checked_add.
    destruct (next_process_counter N + 1 <=? u64_max) eqn:Hle; bool_to_prop; [|lia].
    eexists. split; [done|]. by destruct Hok; split.
Qed.
(** *** What no operation changes *)

Definition limits N : Z * Z * Z :=
  (max_environments N, max_processes_per_environment N, quota_limit (node_quota N)).

Lemma add_process_limit id p i q r i' q' :
  add_process id p i q = Some (r, i', q') → quota_limit q' = quota_limit q.
Proof.
  unfold add_process, quota_reserve, release_process_slot, checked_sub. intros Ha.
  by case_in Ha; simplify_option_eq.
Qed.

Lemma lease_drop_limit q q' : lease_drop q = Some q' → quota_limit q' = quota_limit q.
Proof. unfold lease_drop. intros ?. by simplify_option_eq. Qed.

Lemma remove_process_limit id i q b i' q' :
  remove_process id i q = Some (b, i', q') → quota_limit q' = quota_limit q.
Proof.
  unfold remove_process, release_process_slot. intros Hr. destruct (processes i !! id); [|by simplify_eq].
  destruct (checked_sub _ _); [|done]. simpl in Hr.
  destruct (node_lease _); [|by simplify_eq/=]. destruct (lease_drop q) eqn:Hd; [|done].
  simplify_eq/=. by apply lease_drop_limit in Hd.
Qed.

Lemma drop_entries_limit es q q' : drop_entries es q = Some q' → quota_limit q' = quota_limit q.
Proof.
  revert q. induction es as [|[j e] es IH]; intros q; simpl; [by intros [= <-]|].
  destruct (node_lease e); [|apply IH]. destruct (lease_drop q) as [q1|] eqn:Hd; [|done].
  apply lease_drop_limit in Hd. rewrite <- Hd. apply IH.
Qed.

Definition same_limits N N' : Prop :=
  limits N' = limits N ∧ next_process_counter N <= next_process_counter N'.

Lemma upgrade_outer_limits o N N' : upgrade_outer o N = Some N' → same_limits N N'.
Proof. unfold upgrade_outer. destruct (outers N !! o); [by intros [= <-]|done]. Qed.

Lemma validated_limits o x registry N : same_limits N (validated o x registry N).2.
Proof.
  unfold validated, drop_outer. destruct (inners N !! x) as [[i k]|]; [|done].
  destruct (validate_registry i registry); simpl; [done|]. by repeat case_match.
Qed.

Lemma same_limits_trans N1 N2 N3 : same_limits N1 N2 → same_limits N2 N3 → same_limits N1 N3.
Proof. intros [? ?] [? ?]. split; [congruence|lia]. Qed.

Lemma create_limits id registry N : same_limits N (create_atomic id registry N).2.
Proof.
  unfold create_atomic. destruct (envs N !! id) as [st|].
  - destruct (upgrade_outer (canonical st) N) as [N1|] eqn:Hup.
    { eapply same_limits_trans; [by eapply upgrade_outer_limits|apply validated_limits]. }
    case_bool_decide.
    + eapply same_limits_trans; [|apply validated_limits]. done.
    + unfold next_generation. by destruct (checked_add _ _ _).
  - unfold next_generation. destruct (checked_add _ _ _); [|done].
    unfold reserve_environment_slot. by destruct (environment_count _ <? _).
Qed.

Lemma node_exec_frame op N N' :
  node_exec op N = Some N' → same_limits N N'.
Proof.
  unfold same_limits. destruct op; simpl.
  - intros [= <-]. apply create_limits.
  - intros [= <-]. unfold get. destruct (envs N !! id) as [st|]; [|done].
    destruct (upgrade_outer (canonical st) N) as [N1|] eqn:Hup; [by eapply upgrade_outer_limits|].
    by case_bool_decide.
  - intros [= <-]. unfold clone_outer, upgrade_outer. destruct (outers N !! o); by split.
  - intros [= <-]. unfold drop_outer. repeat case_match; by split.
  - by intros [= <-].
  - by intros [= <-].
  - unfold teardown. destruct (inners N !! x) as [[i k]|]; [|by intros [= <-]].
    destruct (drop_entries _ _) as [q|] eqn:Hq; [|done]. apply drop_entries_limit in Hq. simpl.
    unfold release_generation, release_environment_slot, limits. rewrite <- Hq.
    destruct (lifecycle i); [|by intros [= <-]]. simpl.
    destruct (envs N !! environment_id i) as [st|]; [|by intros [= <-]].
    destruct (generation st =? _); [|by intros [= <-]].
    destruct (checked_sub _ _); [by intros [= <-]|done].
  - unfold node_add_process, limits. destruct (inners N !! x) as [[i k]|]; [|done].
    destruct (add_process id p i _) as [[[r i'] q]|] eqn:Ha; [|done].
    apply add_process_limit in Ha. rewrite <- Ha. by intros [= <-].
  - unfold node_remove_process, limits. destruct (inners N !! x) as [[i k]|]; [|done].
    destruct (remove_process id i _) as [[[r i'] q]|] eqn:Ha; [|done].
    apply remove_process_limit in Ha. rewrite <- Ha. by intros [= <-].
  - by intros [= <-].
  - unfold node_next_process_id, next_process_id.
    destruct (checked_add _ _ _) as [c|] eqn:Hc; [|done]. apply checked_add_Some in Hc as [-> _].
    intros [= <-]. simpl. split; [done|lia].
Qed.
Definition reachable (max_envs max_procs max_node : Z) N : Prop :=
  rtc node_step (with_limits max_envs max_procs max_node) N.

Lemma reachable_ok a b c N :
  0 <= a → 0 <= b → 0 <= c → reachable a b c N → node_ok N ∧ limits N = (a, b, c).
Proof.
  intros Ha Hb Hc. apply (rtc_invariant node_step (fun N => node_ok N ∧ limits N = (a, b, c))).
  - intros N1 N2 Hinv Hstep. destruct Hstep as [op N1 N2 Hen Hex]. destruct Hinv as [Hok Hl].
    destruct (node_exec_ok op N1 Hok Hen) as (N3 & Hex' & Hok').
    apply node_exec_frame in Hex as Hf. destruct Hf as [-> _]. split; [|done].
    by assert (N3 = N2) as -> by congruence.
  - split; [by apply with_limits_ok|done].
Qed.

Lemma node_run_reachable ops N N' : node_run ops N = Some N' → rtc node_step N N'.
Proof.
  revert N. induction ops as [|op ops IH]; intros N; simpl; [by intros [= <-]; constructor|].
  destruct (enabled op N) eqn:Hen; [|done]. destruct (node_exec op N) as [N1|] eqn:Hex; [|done].
  intros Hrun. eapply rtc_l; [by econstructor|by apply IH].
Qed.

(** Between whole operations the counters of a node are exact and its limits
    hold: the environment count is the number of registered identities and at
    most the limit, the node's process count is the number of processes of all
    the environments that are not destroyed and at most the node's limit, each
    environment's count is the size of its table and at most its limit.  No
    operation that a thread can start panics: neither the slots nor the leases
    underflow. *)
Theorem node_capacity_exact max_envs max_procs max_node N :
  0 <= max_envs → 0 <= max_procs → 0 <= max_node → reachable max_envs max_procs max_node N →
  environment_count N = Z.of_nat (size (envs N)) ∧ environment_count N <= max_envs ∧
  quota_count (node_quota N) = held (inners N) ∧ quota_count (node_quota N) <= max_node ∧
  (∀ x i k, inners N !! x = Some (i, k) →
     process_count i = Z.of_nat (size (processes i)) ∧ process_count i <= max_procs) ∧
  (∀ op, enabled op N = true → is_Some (node_exec op N)).
Proof.
  intros Ha Hb Hc Hr. destruct (reachable_ok _ _ _ N Ha Hb Hc Hr) as [Hok [= Hl1 Hl2 Hl3]].
  rewrite <- Hl1, <- Hl3. split_and!; try apply Hok.
  - intros x i k Hx. destruct (no_inner _ Hok x i k Hx) as ([Hcnt Hlim _] & Hmp & _).
    rewrite <- Hl2. split; [done|by apply Hlim].
  - intros op Hen. destruct (node_exec_ok op N Hok Hen) as (N' & -> & _). by eexists.
Qed.

(** At most one generation of an environment is alive, and while it is every
    creation and every lookup of its identity hands out an outer of it: creation
    fails only when the caller asks for another module registry, and then changes
    nothing.  When none is alive, a creation installs a fresh generation with an
    empty process table exactly when the generation counter is not exhausted and
    the identity still holds a slot or one is free, and lookup finds nothing. *)
Theorem environment_identity_exact max_envs max_procs max_node N id registry :
  0 <= max_envs → 0 <= max_procs → 0 <= max_node → reachable max_envs max_procs max_node N →
  (∀ x y, live id x N → live id y N → x = y) ∧
  create_outcome id registry N (create_atomic id registry N).1 (create_atomic id registry N).2 ∧
  match get id N with
  | (Some o, N') => ∃ x ou, live id x N ∧ outers N' !! o = Some ou ∧ outer_inner ou = x ∧
      same_environments N N'
  | (None, N') => (∀ x, ~ live id x N) ∧ N' = N
  end.
Proof.
  intros Ha Hb Hc Hr. destruct (reachable_ok _ _ _ N Ha Hb Hc Hr) as [Hok _].
  split_and!.
  - intros x y. by apply live_unique.
  - pose proof (create_atomic_spec id registry N Hok) as Hcr.
    destruct (create_atomic id registry N). apply Hcr.
  - rewrite get_reuse. destruct (envs N !! id) as [st|] eqn:Hst.
    2: { split; [|done]. intros x Hl. destruct (live_entry id x N Hok Hl) as (? & ? & _). congruence. }
    pose proof (reuse_spec id st N Hok Hst) as Hre. destruct (reuse id st N) as [[o N']|].
    + destruct Hre as (Hown & _ & Hsame & ou & Ho & Hoi). exists (stored_inner st), ou.
      split_and!; [|done..]. split; [done|].
      destruct (no_entry _ Hok id st Hst) as (_ & i & k & Hx & Hid & _). by exists i, k.
    + split; [|done]. intros x Hl. destruct (live_entry id x N Hok Hl) as (st' & Hst' & Hs).
      assert (st' = st) as -> by congruence. apply Hre. rewrite Hs. apply Hl.
Qed.

(** The destructor of an environment without owners runs even after another
    thread created its identity again: it gives back exactly the leases of its
    own processes, and removes the entry and releases the slot exactly when the
    entry is still its own, so a replacement keeps its entry and its slot. *)
Theorem superseded_teardown_harmless max_envs max_procs max_node N x i k :
  0 <= max_envs → 0 <= max_procs → 0 <= max_node → reachable max_envs max_procs max_node N →
  inners N !! x = Some (i, k) → inner_strong x N = 0%nat →
  ∃ N', teardown x N = Some N' ∧ inners N' = delete x (inners N) ∧ outers N' = outers N ∧
    quota_count (node_quota N') = quota_count (node_quota N) - Z.of_nat (size (processes i)) ∧
    (∀ st, envs N !! environment_id i = Some st → stored_inner st ≠ x →
       envs N' = envs N ∧ environment_count N' = environment_count N) ∧
    (∀ st, envs N !! environment_id i = Some st → stored_inner st = x →
       envs N' = delete (environment_id i) (envs N) ∧
       environment_count N' = environment_count N - 1) ∧
    (∀ id y, live id y N → live id y N').
Proof.
  intros Ha Hb Hc Hr Hx Hdead. destruct (reachable_ok _ _ _ N Ha Hb Hc Hr) as [Hok _].
  exists (torn_down x i N). split; [by eapply teardown_spec|].
  assert (inners (torn_down x i N) = delete x (inners N)) as Ein
    by (unfold torn_down; by destruct (registered_as x i N)).
  assert (outers (torn_down x i N) = outers N) as Eout
    by (unfold torn_down; by destruct (registered_as x i N)).
  split_and!; [done|done|..].
  - unfold torn_down. by destruct (registered_as x i N).
  - intros st Hst Hne. unfold torn_down, registered_as. rewrite Hst. by rewrite bool_decide_false.
  - intros st Hst Heq. unfold torn_down, registered_as. rewrite Hst. by rewrite bool_decide_true.
  - intros id y [Hown (j & l & Hy & Hid)].
    assert (x ≠ y) as Hne by (intros ->; apply inner_strong_owned in Hown; lia).
    assert (inners (torn_down x i N) !! y = Some (j, l)) as Hy' by (by rewrite Ein, lookup_delete_ne).
    split; [|by exists j, l]. exists j, l. split; [done|]. rewrite Eout.
    destruct Hown as (j' & l' & Hyj & Hown). by assert (l' = l) as -> by congruence.
Qed.

(** A process is admitted exactly when its identity is not registered in the
    environment and both the environment and the node have room; otherwise
    nothing changes, the slot reserved before the node refused included.  An
    admitted process is found under its identity, and removing it restores the
    table and both counts. *)
Theorem process_admission_exact max_envs max_procs max_node N x id p i k :
  0 <= max_envs → 0 <= max_procs → 0 <= max_node → reachable max_envs max_procs max_node N →
  inners N !! x = Some (i, k) →
  ∃ r i' q', add_process id p i (node_quota N) = Some (r, i', q') ∧
    (r = Ok tt ↔ processes i !! id = None ∧ process_count i < max_procs ∧
                 quota_count (node_quota N) < max_node) ∧
    (r ≠ Ok tt → i' = i ∧ q' = node_quota N) ∧
    (r = Ok tt → get_process id i' = Some p ∧
       (∀ id', id' ≠ id → get_process id' i' = get_process id' i) ∧
       remove_process id i' q' = Some (true, i, node_quota N)).
Proof.
  intros Ha Hb Hc Hr Hx. destruct (reachable_ok _ _ _ N Ha Hb Hc Hr) as [Hok [= Hl1 Hl2 Hl3]].
  destruct (no_inner _ Hok x i k Hx) as (Hi & Hmp & Huq & _).
  pose proof (io_count _ Hi) as Hpc. pose proof (io_limit _ Hi _ Hmp) as Hlim.
  pose proof (size_le_quota x i k N Hok Hx) as Hsz.
  rewrite <- Hl2, <- Hl3. unfold add_process. destruct (processes i !! id) as [e|] eqn:Hid.
  { eexists _, _, _. split; [done|]. split_and!; [|done|done]. split; [done|by intros [? _]]. }
  unfold reserve_process_slot. rewrite Hmp.
  destruct (process_count i <? max_processes_per_environment N) eqn:Hlt; bool_to_prop.
  2: { eexists _, _, _. split; [done|]. split_and!; [|done|done]. split; [done|lia]. }
  cbn [uses_quota set_process_count]. rewrite Huq. unfold quota_reserve.
  destruct (quota_count (node_quota N) <? quota_limit (node_quota N)) eqn:Hq; bool_to_prop.
  - eexists _, _, _. split; [done|]. split_and!; [done|done|]. intros _. split_and!.
    + unfold get_process. simpl. by rewrite lookup_insert_eq.
    + intros id' Hne. unfold get_process. simpl. by rewrite lookup_insert_ne.
    + unfold remove_process. simpl. rewrite lookup_insert_eq. unfold release_process_slot, checked_sub.
      simpl. destruct (1 <=? process_count i + 1) eqn:Hge; bool_to_prop; [|lia]. simpl.
      unfold lease_drop, checked_sub. simpl.
      destruct (1 <=? quota_count (node_quota N) + 1) eqn:Hge'; bool_to_prop; [|lia]. simpl.
      rewrite delete_insert_id by done. do 2 f_equal; [f_equal|].
      * destruct i; unfold set_process_count, set_processes; simpl; f_equal; lia.
      * destruct (node_quota N); simpl; f_equal; lia.
  - unfold release_process_slot, checked_sub. simpl.
    destruct (1 <=? process_count i + 1) eqn:Hge; bool_to_prop; [|lia]. simpl.
    eexists _, _, _. split; [done|]. split_and!; [split; [done|lia]| |done].
    intros _. split; [|done]. destruct i; unfold set_process_count; simpl; f_equal; lia.
Qed.

(** The identities that the environments of a node give to processes are
    never given twice: of two requests, whatever happens between them, the later
    one gets the larger identity. *)
Theorem process_ids_never_reused N a N1 N2 b N3 :
  node_next_process_id N = Some (a, N1) → rtc node_step N1 N2 →
  node_next_process_id N2 = Some (b, N3) → a < b.
Proof.
  intros Ha Hsteps Hb. unfold node_next_process_id, next_process_id in *.
  destruct (checked_add u64_max (next_process_counter N) 1) as [c|] eqn:Hc; [|done].
  destruct (checked_add u64_max (next_process_counter N2) 1) as [c'|] eqn:Hc'; [|done].
  apply checked_add_Some in Hc as [-> _]. injection Ha as <- <-. injection Hb as <- <-.
  apply (rtc_invariant _ (fun M' => next_process_counter N < next_process_counter M')) in Hsteps;
    [done| |simpl; lia].
  intros Na Nb Hlt Hstep. destruct Hstep as [op Na Nb _ [_ Hle]%node_exec_frame]. lia.
Qed.
End theory.

(** ** A run of a node

    Room for one environment and two processes.  The environment gets a process
    and loses its only owner; before it is destroyed its identity is created
    again. *)

Definition demo_start : Node (gmap Z) := with_limits 1 2 2.
Definition demo_process : ProcessRef := Builtin 1 0.
Definition demo_ops : list NodeOp :=
  [OpCreate 7 None; OpAdd 0 1 demo_process; OpDropOuter 1; OpCreate 7 None].
Definition demo_node : Node (gmap Z) := default demo_start (node_run demo_ops demo_start).
Definition demo_dead : Inner (gmap Z) :=
  mkInner 7 {[ 1 := mkEntry demo_process true ]} 1 (Some 2) true None (Some 1).
Definition demo_live : Inner (gmap Z) := mkInner 7 ∅ 0 (Some 2) true None (Some 2).

Lemma demo_reachable : reachable 1 2 2 demo_node.
Proof. apply (node_run_reachable demo_ops). by vm_compute. Qed.

Lemma demo_dead_lookup : inners demo_node !! 0 = Some (demo_dead, 0%nat).
Proof. by vm_compute. Qed.

Lemma demo_live_lookup : inners demo_node !! 2 = Some (demo_live, 0%nat).
Proof. by vm_compute. Qed.

Lemma node_capacity_exact_witness :
  environment_count demo_node = 1 ∧ quota_count (node_quota demo_node) = 1 ∧
  is_Some (node_exec (OpTeardown 0) demo_node).
Proof.
  destruct (node_capacity_exact 1 2 2 demo_node) as (_ & _ & _ & _ & _ & Hex);
    [lia..|exact demo_reachable|].
  split; [reflexivity|]. split; [reflexivity|]. apply Hex. by vm_compute.
Defined.

Definition demo_got : Node (gmap Z) := (get 7 demo_node).2.

Lemma demo_get : get 7 demo_node = (Some 3, demo_got).
Proof. by vm_compute. Qed.

Lemma environment_identity_exact_witness :
  ∃ x ou, live 7 x demo_node ∧ outers demo_got !! 3 = Some ou ∧ outer_inner ou = x ∧
    same_environments demo_node demo_got.
Proof.
  destruct (environment_identity_exact 1 2 2 demo_node 7 None) as (_ & _ & Hget);
    [lia..|exact demo_reachable|].
  rewrite demo_get in Hget. exact Hget.
Defined.

Lemma superseded_teardown_harmless_witness :
  ∃ N', teardown 0 demo_node = Some N' ∧ envs N' = envs demo_node ∧
    environment_count N' = 1 ∧ quota_count (node_quota N') = 0.
Proof.
  destruct (superseded_teardown_harmless 1 2 2 demo_node 0 demo_dead 0) as
    (N' & Htd & _ & _ & Hq & Hkeep & _);
    [lia..|exact demo_reachable|exact demo_dead_lookup|by vm_compute|].
  destruct (Hkeep (mkStored 2 3 2)) as [He Hc]; [by vm_compute|done|].
  exists N'. split; [exact Htd|]. split; [exact He|]. rewrite Hc, Hq. by vm_compute.
Defined.

Lemma process_admission_exact_witness :
  ∃ r i' q', add_process 1 demo_process demo_live (node_quota demo_node) = Some (r, i', q') ∧
    r = Ok tt ∧ get_process 1 i' = Some demo_process.
Proof.
  destruct (process_admission_exact 1 2 2 demo_node 2 1 demo_process demo_live 0) as
    (r & i' & q' & Hadd & Hiff & _ & Hok); [lia..|exact demo_reachable|exact demo_live_lookup|].
  assert (r = Ok tt) as Hr by (apply Hiff; by vm_compute).
  exists r, i', q'. split; [exact Hadd|]. split; [exact Hr|]. by apply Hok.
Defined.

Lemma process_ids_never_reused_witness : FIRST_PROCESS_ID < 2.
Proof.
  apply (process_ids_never_reused demo_start FIRST_PROCESS_ID (set_next_process 2 demo_start)
           (set_next_process 2 demo_start) 2 (set_next_process 3 demo_start));
    [by vm_compute|apply rtc_refl|by vm_compute].
Defined.
