(* ===== verification/GlobalProcessId.v ===== *)
(** * [crates/lunatic-distributed/src/distributed/global_process_id.rs]

    Cluster-wide process identities and their 128-bit compact encoding: 40 bits
    of node, 40 of environment, 48 of process. *)

From S2P Require Import Prelude.

Definition MAX_NODE_ID : Z := 0xFFFFFFFFFF.

Record GlobalProcessId : Type := mkGlobalProcessId {
  node_id : Z;
  environment_id : Z;
  local_process_id : Z;
}.

#[export] Instance GlobalProcessId_eq_dec : EqDecision GlobalProcessId.
Proof. solve_decision. Defined.

#[export] Instance GlobalProcessId_countable : Countable GlobalProcessId.
Proof.
  refine (inj_countable'
    (fun p => (node_id p, environment_id p, local_process_id p))
    (fun '(n, e, p) => mkGlobalProcessId n e p) _).
  by intros [].
Defined.

Definition is_local (p : GlobalProcessId) (current_node_id : Z) : bool :=
  node_id p =? current_node_id.

(** A left shift of a [u128] drops the bits shifted out. *)
Definition u128_shl (x n : Z) : Z := Z.shiftl x n mod 2 ^ 128.

Definition to_compact (p : GlobalProcessId) : Z :=
  Z.lor (Z.lor (u128_shl (node_id p) 88) (u128_shl (environment_id p) 48))
    (local_process_id p).

(** The masked values fit in a [u64], so the casts keep them. *)
Definition from_compact (compact : Z) : GlobalProcessId :=
  mkGlobalProcessId
    (Z.land (Z.shiftr compact 88) MAX_NODE_ID)
    (Z.land (Z.shiftr compact 48) 0xFFFFFFFFFF)
    (Z.land compact 0xFFFFFFFFFFFF).

(** Every field is a [u64]. *)
Definition pid_u64 (p : GlobalProcessId) : Prop :=
  in_u64 (node_id p) ∧ in_u64 (environment_id p) ∧ in_u64 (local_process_id p).

(** The fields fit in their bit fields. *)
Definition in_compact_range (p : GlobalProcessId) : Prop :=
  node_id p < 2 ^ 40 ∧ environment_id p < 2 ^ 40 ∧ local_process_id p < 2 ^ 48.

Lemma testbit_above x k n : 0 <= x < 2 ^ k → 0 <= k <= n → Z.testbit x n = false.
Proof.
  intros Hx Hk. rewrite <- (Z.mod_small x (2 ^ k)) by done.
  by apply Z.mod_pow2_bits_high.
Qed.

Lemma mask_ones k x n :
  0 <= k → 0 <= n →
  Z.testbit (Z.land x (Z.ones k)) n = (Z.testbit x n && (n <? k))%bool.
Proof.
  intros. rewrite Z.land_spec. f_equal.
  destruct (Z.ltb_spec n k); [by apply Z.ones_spec_low; lia|by apply Z.ones_spec_high; lia].
Qed.

Lemma u128_shl_testbit x k n :
  0 <= k → 0 <= n →
  Z.testbit (u128_shl x k) n = ((n <? 128) && (k <=? n) && Z.testbit x (n - k))%bool.
Proof.
  intros. unfold u128_shl. destruct (Z.ltb_spec n 128).
  - rewrite Z.mod_pow2_bits_low by lia. rewrite Z.shiftl_spec by lia.
    destruct (Z.leb_spec k n); simpl; [done|]. apply Z.testbit_neg_r. lia.
  - by rewrite Z.mod_pow2_bits_high by lia.
Qed.

(** Bit [n] of the encoding of an identity within range. *)
Lemma to_compact_testbit p n :
  pid_u64 p → in_compact_range p → 0 <= n →
  Z.testbit (to_compact p) n =
    if n <? 48 then Z.testbit (local_process_id p) n
    else if n <? 88 then Z.testbit (environment_id p) (n - 48)
    else Z.testbit (node_id p) (n - 88).
Proof.
  intros ((? & ?) & (? & ?) & (? & ?)) (Hn & He & Hp) Hnn. unfold to_compact.
  rewrite !Z.lor_spec, !u128_shl_testbit by lia.
  pose proof (testbit_above (local_process_id p) 48 n) as Ap.
  pose proof (testbit_above (environment_id p) 40 (n - 48)) as Ae.
  pose proof (testbit_above (node_id p) 40 (n - 88)) as An.
  destruct (Z.ltb_spec n 48), (Z.ltb_spec n 88), (Z.ltb_spec n 128), (Z.leb_spec 48 n),
    (Z.leb_spec 88 n); try lia; cbn [andb orb]; try done.
  - by rewrite Ap, orb_false_r by lia.
  - by rewrite Ap, Ae, !orb_false_r by lia.
  - by rewrite Ap, An by lia.
Qed.

Lemma from_compact_range c : 0 <= c → in_compact_range (from_compact c).
Proof.
  intros. unfold in_compact_range, from_compact, MAX_NODE_ID; simpl.
  change 0xFFFFFFFFFF with (Z.ones 40). change 0xFFFFFFFFFFFF with (Z.ones 48).
  rewrite !Z.land_ones by lia. split_and!; apply Z.mod_pos_bound; lia.
Qed.

Lemma to_compact_nonneg p : pid_u64 p → 0 <= to_compact p.
Proof.
  intros (_ & _ & [? _]). unfold to_compact. rewrite !Z.lor_nonneg.
  unfold u128_shl. split_and!; [apply Z.mod_pos_bound; lia..|done].
Qed.

Lemma compact_roundtrip p :
  pid_u64 p → in_compact_range p → from_compact (to_compact p) = p.
Proof.
  intros Hu Hr. pose proof Hu as ((? & ?) & (? & ?) & (? & ?)). pose proof Hr as (Hn & He & Hpr).
  unfold from_compact, MAX_NODE_ID.
  change 0xFFFFFFFFFF with (Z.ones 40). change 0xFFFFFFFFFFFF with (Z.ones 48).
  transitivity (mkGlobalProcessId (node_id p) (environment_id p) (local_process_id p));
    [|by destruct p].
  f_equal; apply Z.bits_inj'; intros n Hn0; rewrite mask_ones by lia;
    rewrite ?Z.shiftr_spec by lia; rewrite to_compact_testbit by (done || lia).
  - destruct (Z.ltb_spec (n + 88) 48), (Z.ltb_spec (n + 88) 88); try lia.
    replace (n + 88 - 88) with n by lia. destruct (Z.ltb_spec n 40); rewrite ?andb_true_r; [done|].
    by rewrite (testbit_above _ 40 n) by lia.
  - destruct (Z.ltb_spec (n + 48) 48); [lia|].
    destruct (Z.ltb_spec n 40), (Z.ltb_spec (n + 48) 88); try lia; rewrite ?andb_true_r, ?andb_false_r.
    + by replace (n + 48 - 48) with n by lia.
    + by rewrite (testbit_above _ 40 n) by lia.
  - destruct (Z.ltb_spec n 48); rewrite ?andb_true_r, ?andb_false_r; [done|].
    by rewrite (testbit_above _ 48 n) by lia.
Qed.

(** The compact encoding is exact on its bit fields and only there: an
    identity survives [to_compact] followed by [from_compact] if and only if its
    node and environment fit in 40 bits and its process in 48, and two
    identities in that range with the same encoding are equal. *)
Theorem compact_encoding_exact p :
  pid_u64 p →
  (from_compact (to_compact p) = p ↔ in_compact_range p) ∧
  (∀ q, pid_u64 q → in_compact_range p → in_compact_range q →
    to_compact p = to_compact q → p = q).
Proof.
  intros Hu. split.
  - split; [|by apply compact_roundtrip].
    intros <-. by apply from_compact_range, to_compact_nonneg.
  - intros q Huq Hp Hq Heq.
    by rewrite <- (compact_roundtrip p), Heq, compact_roundtrip.
Qed.

Lemma compact_encoding_exact_witness :
  let p := mkGlobalProcessId 1 (2 ^ 40) 3 in
  (from_compact (to_compact p) = p ↔ in_compact_range p) ∧
  (∀ q, pid_u64 q → in_compact_range p → in_compact_range q →
    to_compact p = to_compact q → p = q).
Proof.
  intros p. apply (compact_encoding_exact p).
  unfold pid_u64, in_u64; simpl. unfold u64_max. lia.
Defined.
