(* ===== verification/DistributedRegistry.v ===== *)
(** * [crates/lunatic-distributed/src/distributed/registry.rs]

    The name registry of a node: a local and a global namespace, a reverse
    index from process to scoped names, and resource accounting, all behind one
    lock.  Each public operation is one function on the locked state.  [None]
    as the outcome of an operation is a panic of its accounting
    ([expect("... underflow")]); the theorems show it cannot happen. *)

From stdpp Require Import sorting.
From S2P Require Import Prelude GlobalProcessId.

(** ** Names *)

Abbreviation ProcessName := (list Z).

(** Lexicographic order of names. *)
Fixpoint name_leb (a b : ProcessName) : bool :=
  match a, b with
  | [], _ => true
  | _ :: _, [] => false
  | x :: a, y :: b => if x <? y then true else if x =? y then name_leb a b else false
  end.

(** ** Data *)

Record RegistryLimits : Type := mkLimits {
  max_name_bytes : Z;
  max_entries : Z;
  max_retained_bytes : Z;
  max_name_locks : Z;
  max_pending_responses : Z;
  max_topology_nodes : Z;
}.

Definition default_limits : RegistryLimits :=
  mkLimits 1024 16384 (4 * 1024 * 1024) 1024 4096 1024.

Record RegistryUsage : Type := mkUsage { entries : Z; retained_bytes : Z }.

Inductive RegistrationScope : Type := Local | Global.

#[export] Instance RegistrationScope_eq_dec : EqDecision RegistrationScope.
Proof. solve_decision. Defined.

#[export] Instance RegistrationScope_countable : Countable RegistrationScope.
Proof.
  refine (inj_countable' (fun s => match s with Local => true | Global => false end)
    (fun b => if (b : bool) then Local else Global) _).
  by intros [].
Defined.

Record RegistryEntry : Type := mkEntry {
  global_pid : GlobalProcessId;
  scope : RegistrationScope;
  registered_at : Z;
}.

Abbreviation ScopedProcessName := (RegistrationScope * list Z)%type.

Record RegistryState : Type := mkState {
  local : gmap (list Z) RegistryEntry;
  global : gmap (list Z) RegistryEntry;
  reverse : gmap GlobalProcessId (gset (RegistrationScope * list Z));
  usage : RegistryUsage;
}.

Definition state_default : RegistryState := mkState ∅ ∅ ∅ (mkUsage 0 0).

(** The error types the callers downcast to: [RegistryCapacityError],
    [InvalidRegistryNameError] and plain conflicts. *)
Inductive RegistryError : Type :=
| CapacityExceeded
| InvalidName
| Conflict
| NotRegistered.

Inductive AuditResult : Type := Succeeded | Denied | Failed | Cancelled.
Inductive AuditReason : Type :=
| Completed | QuotaExceeded | InvalidInput | AuditConflict | NotFound.

Definition registration_audit_outcome (r : result unit RegistryError)
    : AuditResult * AuditReason :=
  match r with
  | Ok _ => (Succeeded, Completed)
  | Err CapacityExceeded => (Denied, QuotaExceeded)
  | Err InvalidName => (Denied, InvalidInput)
  | Err _ => (Denied, AuditConflict)
  end.

(** ** Helpers *)

Definition retained_bytes_for_name (n : ProcessName) : result Z RegistryError :=
  ok_or (checked_mul u64_max (name_len n) 2) CapacityExceeded.

Fixpoint retained_bytes_from (retained : Z) (names : list ProcessName) : result Z RegistryError :=
  match names with
  | [] => Ok retained
  | n :: names =>
      let? w := retained_bytes_for_name n in
      let? retained := ok_or (checked_add u64_max retained w) CapacityExceeded in
      retained_bytes_from retained names
  end.

Definition retained_bytes_for_names (names : list ProcessName) : result Z RegistryError :=
  retained_bytes_from 0 names.

Definition add_to_reverse_map (rev : gmap GlobalProcessId (gset (RegistrationScope * list Z)))
    (pid : GlobalProcessId) (s : RegistrationScope) (n : ProcessName)
    : gmap GlobalProcessId (gset (RegistrationScope * list Z)) :=
  <[pid := {[(s, n)]} ∪ default ∅ (rev !! pid)]> rev.

Definition remove_reverse_mapping (rev : gmap GlobalProcessId (gset (RegistrationScope * list Z)))
    (pid : GlobalProcessId) (s : RegistrationScope) (n : ProcessName)
    : gmap GlobalProcessId (gset (RegistrationScope * list Z)) :=
  match rev !! pid with
  | Some registrations =>
      let registrations := registrations ∖ {[(s, n)]} in
      if bool_decide (registrations = ∅) then delete pid rev
      else <[pid := registrations]> rev
  | None => rev
  end.

Definition namespace (s : RegistrationScope) (st : RegistryState) : gmap (list Z) RegistryEntry :=
  match s with Local => local st | Global => global st end.

Definition with_namespace (s : RegistrationScope) (m : gmap (list Z) RegistryEntry)
    (st : RegistryState) : RegistryState :=
  match s with
  | Local => mkState m (global st) (reverse st) (usage st)
  | Global => mkState (local st) m (reverse st) (usage st)
  end.

(** [remove_scoped_registration]; [None] is a panic of the accounting. *)
Definition remove_scoped_registration (s : RegistrationScope) (n : ProcessName)
    (expected_pid : option GlobalProcessId) (st : RegistryState)
    : option (option RegistryEntry * RegistryState) :=
  match namespace s st !! n with
  | None => Some (None, st)
  | Some entry =>
      if match expected_pid with
         | Some expected => bool_decide (global_pid entry ≠ expected)
         | None => false
         end
      then Some (None, st)
      else
        let st := with_namespace s (delete n (namespace s st)) st in
        let rev := remove_reverse_mapping (reverse st) (global_pid entry) s n in
        retained ← checked_mul u64_max (name_len n) 2;
        entries' ← checked_sub (entries (usage st)) 1;
        retained' ← checked_sub (retained_bytes (usage st)) retained;
        Some (Some entry, mkState (local st) (global st) rev (mkUsage entries' retained'))
  end.

Section registry.
Context (limits : RegistryLimits).

Definition validate_name (n : ProcessName) : result unit RegistryError :=
  if bool_decide (n = []) then Err InvalidName
  else if existsb is_control n then Err InvalidName
  else if max_name_bytes limits <? name_len n then Err CapacityExceeded
  else Ok tt.

Definition usage_after_add (u : RegistryUsage) (n : ProcessName)
    : result RegistryUsage RegistryError :=
  let? es := ok_or (checked_add u64_max (entries u) 1) CapacityExceeded in
  if max_entries limits <? es then Err CapacityExceeded
  else
    let? w := retained_bytes_for_name n in
    let? rb := ok_or (checked_add u64_max (retained_bytes u) w) CapacityExceeded in
    if max_retained_bytes limits <? rb then Err CapacityExceeded
    else Ok (mkUsage es rb).

(** The insertion both [insert_local_if_absent] and
    [register_global_untracked] end in. *)
Definition insert_scoped (s : RegistrationScope) (n : ProcessName) (pid : GlobalProcessId)
    (at_ms : Z) (u : RegistryUsage) (st : RegistryState) : RegistryState :=
  let st := with_namespace s (<[n := mkEntry pid s at_ms]> (namespace s st)) st in
  mkState (local st) (global st) (add_to_reverse_map (reverse st) pid s n) u.

Definition insert_local_if_absent (n : ProcessName) (pid : GlobalProcessId) (now : Z)
    (st : RegistryState) : result unit RegistryError * RegistryState :=
  match validate_name n with
  | Err e => (Err e, st)
  | Ok _ =>
      if bool_decide (is_Some (local st !! n)) then (Err Conflict, st)
      else match usage_after_add (usage st) n with
           | Err e => (Err e, st)
           | Ok u => (Ok tt, insert_scoped Local n pid now u st)
           end
  end.

(** [register_local] and [register_global] also emit one audit event. *)
Definition register_local (n : ProcessName) (pid : GlobalProcessId) (now : Z)
    (st : RegistryState)
    : result unit RegistryError * (AuditResult * AuditReason) * RegistryState :=
  let '(r, st) := insert_local_if_absent n pid now st in
  (r, registration_audit_outcome r, st).

Definition register_global_untracked (n : ProcessName) (pid : GlobalProcessId) (now : Z)
    (st : RegistryState) : result unit RegistryError * RegistryState :=
  match validate_name n with
  | Err e => (Err e, st)
  | Ok _ =>
      if bool_decide (is_Some (global st !! n)) then (Err Conflict, st)
      else match usage_after_add (usage st) n with
           | Err e => (Err e, st)
           | Ok u => (Ok tt, insert_scoped Global n pid now u st)
           end
  end.

Definition register_global (n : ProcessName) (pid : GlobalProcessId) (now : Z)
    (st : RegistryState)
    : result unit RegistryError * (AuditResult * AuditReason) * RegistryState :=
  let '(r, st) := register_global_untracked n pid now st in
  (r, registration_audit_outcome r, st).

Definition can_register_global (n : ProcessName) (pid : GlobalProcessId) (st : RegistryState)
    : result unit RegistryError :=
  let? _ := validate_name n in
  match global st !! n with
  | Some existing => if bool_decide (global_pid existing = pid) then Ok tt else Err Conflict
  | None => let? _ := usage_after_add (usage st) n in Ok tt
  end.

Definition apply_global (n : ProcessName) (pid : GlobalProcessId) (at_ms : Z)
    (st : RegistryState) : result unit RegistryError * RegistryState :=
  match validate_name n with
  | Err e => (Err e, st)
  | Ok _ =>
      match global st !! n with
      | Some previous =>
          let rev := remove_reverse_mapping (reverse st) (global_pid previous) Global n in
          (Ok tt, insert_scoped Global n pid at_ms (usage st)
                    (mkState (local st) (global st) rev (usage st)))
      | None =>
          match usage_after_add (usage st) n with
          | Err e => (Err e, st)
          | Ok u => (Ok tt, insert_scoped Global n pid at_ms u st)
          end
      end
  end.

Definition remove_global_if_owner (n : ProcessName) (expected_pid : GlobalProcessId)
    (st : RegistryState) : option (bool * RegistryState) :=
  '(removed, st) ← remove_scoped_registration Global n (Some expected_pid) st;
  Some (bool_decide (is_Some removed), st).

(** The validation loop of [replace_global_snapshot]: the new global map and
    its retained bytes. *)
Fixpoint build_global (es : list (ProcessName * GlobalProcessId * Z))
    (acc : gmap (list Z) RegistryEntry) (retained : Z)
    : result (gmap (list Z) RegistryEntry * Z) RegistryError :=
  match es with
  | [] => Ok (acc, retained)
  | (n, pid, at_ms) :: es =>
      let? _ := validate_name n in
      let? w := retained_bytes_for_name n in
      let? retained := ok_or (checked_add u64_max retained w) CapacityExceeded in
      if max_retained_bytes limits <? retained then Err CapacityExceeded
      else if bool_decide (is_Some (acc !! n)) then Err Conflict
      else build_global es (<[n := mkEntry pid Global at_ms]> acc) retained
  end.

Definition rebuild_reverse (loc glob : gmap (list Z) RegistryEntry)
    : gmap GlobalProcessId (gset (RegistrationScope * list Z)) :=
  map_fold (fun n e rev => add_to_reverse_map rev (global_pid e) Global n)
    (map_fold (fun n e rev => add_to_reverse_map rev (global_pid e) Local n) ∅ loc) glob.

Definition replace_global_snapshot (es : list (ProcessName * GlobalProcessId * Z))
    (st : RegistryState) : result unit RegistryError * RegistryState :=
  if max_entries limits <? Z.of_nat (length es) then (Err CapacityExceeded, st)
  else
    let r :=
      let? p := build_global es ∅ 0 in
      let? n := ok_or (checked_add u64_max (Z.of_nat (size (local st)))
                         (Z.of_nat (size p.1))) CapacityExceeded in
      if max_entries limits <? n then Err CapacityExceeded
      else
        let? local_retained := retained_bytes_for_names (map_to_list (local st)).*1 in
        let? retained := ok_or (checked_add u64_max local_retained p.2) CapacityExceeded in
        if max_retained_bytes limits <? retained then Err CapacityExceeded
        else Ok (mkState (local st) p.1 (rebuild_reverse (local st) p.1) (mkUsage n retained)) in
    match r with
    | Ok st' => (Ok tt, st')
    | Err e => (Err e, st)
    end.
End registry.

(** ** Ordering of results

    The listings are sorted by name, and cleanup results by name and scope. *)

Definition name_le (a b : ProcessName) : Prop := name_leb a b = true.

#[export] Instance name_le_dec a b : Decision (name_le a b).
Proof. unfold name_le. apply _. Defined.

Definition scope_order (s : RegistrationScope) : Z :=
  match s with Local => 0 | Global => 1 end.

Definition removed_le (a b : ProcessName * RegistryEntry) : Prop :=
  (if bool_decide (a.1 = b.1) then scope_order (scope a.2) <=? scope_order (scope b.2)
   else name_leb a.1 b.1) = true.

#[export] Instance removed_le_dec a b : Decision (removed_le a b).
Proof. unfold removed_le. apply _. Defined.

Definition sort_names (l : list ProcessName) : list ProcessName := merge_sort name_le l.

(** ** Removal *)

(** The removal loops: the registrations that were actually removed, and the
    state after them. *)
Fixpoint remove_each (pid : GlobalProcessId) (regs : list ScopedProcessName)
    (st : RegistryState) : option (list (ProcessName * RegistryEntry) * RegistryState) :=
  match regs with
  | [] => Some ([], st)
  | (s, n) :: regs =>
      '(removed, st) ← remove_scoped_registration s n (Some pid) st;
      '(rest, st) ← remove_each pid regs st;
      Some (match removed with Some e => (n, e) :: rest | None => rest end, st)
  end.

(** [unregister]: the outcome and the process of the audit event. *)
Definition unregister (n : ProcessName) (st : RegistryState)
    : option (result unit RegistryError * option GlobalProcessId * RegistryState) :=
  '(removed_local, st) ← remove_scoped_registration Local n None st;
  '(removed_global, st) ← remove_scoped_registration Global n None st;
  let removed := match removed_local with Some e => Some e | None => removed_global end in
  Some (match removed with Some _ => Ok tt | None => Err NotRegistered end,
        global_pid <$> removed, st).

Definition unregister_process (pid : GlobalProcessId) (st : RegistryState)
    : option (list (ProcessName * RegistryEntry) * RegistryState) :=
  let registrations := elements (default ∅ (reverse st !! pid)) in
  '(removed, st) ← remove_each pid registrations st;
  let st := mkState (local st) (global st) (delete pid (reverse st)) (usage st) in
  Some (merge_sort removed_le removed, st).

Definition remove_local_registrations (pid : GlobalProcessId) (st : RegistryState)
    : option (list ProcessName * RegistryState) :=
  let registrations :=
    filter (fun r => r.1 = Local) (elements (default ∅ (reverse st !! pid))) in
  '(removed, st) ← remove_each pid registrations st;
  Some (sort_names removed.*1, st).

Fixpoint remove_each_owned (regs : list (ProcessName * GlobalProcessId)) (st : RegistryState)
    : option (list ProcessName * RegistryState) :=
  match regs with
  | [] => Some ([], st)
  | (n, pid) :: regs =>
      '(removed, st) ← remove_scoped_registration Global n (Some pid) st;
      '(rest, st) ← remove_each_owned regs st;
      Some (match removed with Some _ => n :: rest | None => rest end, st)
  end.

Definition remove_node_registrations (node : Z) (st : RegistryState)
    : option (list ProcessName * RegistryState) :=
  let registrations :=
    (fun '(n, e) => (n, global_pid e)) <$>
      filter (fun p => node_id (global_pid p.2) = node) (map_to_list (global st)) in
  '(removed, st) ← remove_each_owned registrations st;
  Some (sort_names removed, st).

Definition clear (st : RegistryState) : RegistryState := state_default.

(** ** Queries *)

Definition global_snapshot (st : RegistryState) : list (ProcessName * GlobalProcessId * Z) :=
  merge_sort (fun a b => name_le a.1.1 b.1.1)
    ((fun '(n, e) => (n, global_pid e, registered_at e)) <$> map_to_list (global st)).

Definition lookup_local (n : ProcessName) (st : RegistryState) : option RegistryEntry :=
  local st !! n.

Definition lookup_global (n : ProcessName) (st : RegistryState) : option RegistryEntry :=
  global st !! n.

(** [lookup], preferring the local namespace. *)
Definition lookup_name (n : ProcessName) (st : RegistryState) : option RegistryEntry :=
  match local st !! n with Some e => Some e | None => global st !! n end.

Definition get_names (pid : GlobalProcessId) (st : RegistryState) : list ProcessName :=
  sort_names (elements (default ∅ (reverse st !! pid))).*2.

Definition global_names_for_process (pid : GlobalProcessId) (st : RegistryState)
    : list ProcessName :=
  sort_names (filter (fun r => r.1 = Global) (elements (default ∅ (reverse st !! pid)))).*2.

Definition local_names (st : RegistryState) : list ProcessName :=
  sort_names (map_to_list (local st)).*1.

Definition global_names (st : RegistryState) : list ProcessName :=
  sort_names (map_to_list (global st)).*1.

Definition local_count (st : RegistryState) : Z := Z.of_nat (size (local st)).
Definition global_count (st : RegistryState) : Z := Z.of_nat (size (global st)).

(** ** The invariant *)

(** Bytes retained for the names of a namespace. *)
Definition retained_of (m : gmap (list Z) RegistryEntry) : Z :=
  map_fold (fun n _ acc => 2 * name_len n + acc) 0 m.

(** The scoped names the reverse index has for a process. *)
Definition names_of (pid : GlobalProcessId) (st : RegistryState) : gset (RegistrationScope * list Z) :=
  default ∅ (reverse st !! pid).

(** Forward and reverse indexes agree, entries sit in the namespace of their
    scope, and the accounting is exact and within the limits. *)
Record inv (limits : RegistryLimits) (st : RegistryState) : Prop := {
  inv_reverse pid s n :
    (s, n) ∈ names_of pid st ↔ ∃ e, namespace s st !! n = Some e ∧ global_pid e = pid;
  inv_no_empty pid : reverse st !! pid ≠ Some ∅;
  inv_scope s n e : namespace s st !! n = Some e → scope e = s;
  inv_names s n e : namespace s st !! n = Some e → validate_name limits n = Ok tt;
  inv_entries : entries (usage st) = Z.of_nat (size (local st)) + Z.of_nat (size (global st));
  inv_retained : retained_bytes (usage st) = retained_of (local st) + retained_of (global st);
  inv_entries_le : entries (usage st) <= max_entries limits;
  inv_retained_le : retained_bytes (usage st) <= max_retained_bytes limits;
}.

(** Limits that are non-negative 64-bit numbers. *)
Definition limits_ok (limits : RegistryLimits) : Prop :=
  0 <= max_name_bytes limits ∧ 0 <= max_entries limits <= u64_max ∧
  0 <= max_retained_bytes limits <= u64_max.

Lemma retained_of_empty : retained_of ∅ = 0.
Proof. apply map_fold_empty. Qed.

Lemma retained_of_insert m n e :
  m !! n = None → retained_of (<[n := e]> m) = 2 * name_len n + retained_of m.
Proof. intros Hn. unfold retained_of. rewrite map_fold_insert_L; [done|intros; lia|done]. Qed.

Lemma retained_of_replace m n e e' :
  m !! n = Some e' → retained_of (<[n := e]> m) = retained_of m.
Proof.
  intros Hn. rewrite <- (insert_delete_id m n e' Hn) at 2. rewrite <- insert_delete_eq.
  by rewrite !retained_of_insert by apply lookup_delete_eq.
Qed.

Lemma retained_of_delete m n e :
  m !! n = Some e → retained_of m = 2 * name_len n + retained_of (delete n m).
Proof.
  intros Hn. rewrite <- (insert_delete_id m n e Hn) at 1.
  by rewrite retained_of_insert by apply lookup_delete_eq.
Qed.

Lemma retained_of_nonneg m : 0 <= retained_of m.
Proof.
  induction m as [|n e m Hn IH] using map_ind; [by rewrite retained_of_empty|].
  rewrite retained_of_insert by done. pose proof (name_len_nonneg n). lia.
Qed.

(** ** The reverse index *)

Section reverse_index.
Implicit Types (rev : gmap GlobalProcessId (gset (RegistrationScope * list Z))).

Definition no_empty rev : Prop := ∀ pid, rev !! pid ≠ Some ∅.

Lemma add_to_reverse_map_elem rev pid s n pid' r :
  r ∈ default ∅ (add_to_reverse_map rev pid s n !! pid') ↔
  (pid' = pid ∧ r = (s, n)) ∨ r ∈ default ∅ (rev !! pid').
Proof.
  unfold add_to_reverse_map. destruct (decide (pid' = pid)) as [->|Hne].
  - rewrite lookup_insert_eq. simpl. set_solver.
  - rewrite lookup_insert_ne by done. naive_solver.
Qed.

Lemma add_to_reverse_map_no_empty rev pid s n :
  no_empty rev → no_empty (add_to_reverse_map rev pid s n).
Proof.
  unfold no_empty, add_to_reverse_map. intros Hne pid'. rewrite lookup_insert.
  case_decide; [|done]. intros [= Heq]. set_solver.
Qed.

Lemma remove_reverse_mapping_elem rev pid s n pid' r :
  r ∈ default ∅ (remove_reverse_mapping rev pid s n !! pid') ↔
  r ∈ default ∅ (rev !! pid') ∧ ¬ (pid' = pid ∧ r = (s, n)).
Proof.
  unfold remove_reverse_mapping.
  destruct (rev !! pid) as [regs|] eqn:Hpid.
  - case_bool_decide as Hempty; destruct (decide (pid' = pid)) as [->|Hne].
    + rewrite lookup_delete_eq, Hpid. simpl. set_solver.
    + rewrite lookup_delete_ne by done. naive_solver.
    + rewrite lookup_insert_eq, Hpid. simpl. set_solver.
    + rewrite lookup_insert_ne by done. naive_solver.
  - destruct (decide (pid' = pid)) as [->|Hne]; [rewrite Hpid; simpl; set_solver|naive_solver].
Qed.

Lemma remove_reverse_mapping_no_empty rev pid s n :
  no_empty rev → no_empty (remove_reverse_mapping rev pid s n).
Proof.
  unfold no_empty, remove_reverse_mapping. intros Hne pid'.
  destruct (rev !! pid) as [regs|]; [|done]. case_bool_decide.
  - rewrite lookup_delete. by case_decide.
  - rewrite lookup_insert. case_decide; [congruence|done].
Qed.
End reverse_index.

Lemma namespace_with_namespace s s' m st :
  namespace s' (with_namespace s m st) = if decide (s = s') then m else namespace s' st.
Proof. by destruct s, s'. Qed.

Lemma usage_with_namespace s m st : usage (with_namespace s m st) = usage st.
Proof. by destruct s. Qed.

Lemma reverse_with_namespace s m st : reverse (with_namespace s m st) = reverse st.
Proof. by destruct s. Qed.

(** The two namespaces of a state, whichever is updated. *)
Lemma sizes_with_namespace s m st :
  Z.of_nat (size (local (with_namespace s m st))) +
  Z.of_nat (size (global (with_namespace s m st))) =
  Z.of_nat (size (local st)) + Z.of_nat (size (global st)) +
  (Z.of_nat (size m) - Z.of_nat (size (namespace s st))).
Proof. destruct s; simpl; lia. Qed.

Lemma retained_with_namespace s m st :
  retained_of (local (with_namespace s m st)) + retained_of (global (with_namespace s m st)) =
  retained_of (local st) + retained_of (global st) +
  (retained_of m - retained_of (namespace s st)).
Proof. destruct s; simpl; lia. Qed.

(** ** Preservation *)

Section preservation.
Context (limits : RegistryLimits) (Hlimits : limits_ok limits).
Implicit Types (st : RegistryState) (n : ProcessName) (s : RegistrationScope).

Lemma validate_name_len n :
  validate_name limits n = Ok tt →
  n ≠ [] ∧ existsb is_control n = false ∧ name_len n <= max_name_bytes limits.
Proof.
  unfold validate_name. intros H. case_in H; bool_to_prop; auto.
Qed.

Lemma usage_after_add_Ok u n u' :
  usage_after_add limits u n = Ok u' ↔
  u' = mkUsage (entries u + 1) (retained_bytes u + 2 * name_len n) ∧
  entries u + 1 <= Z.min u64_max (max_entries limits) ∧
  2 * name_len n <= u64_max ∧
  retained_bytes u + 2 * name_len n <= Z.min u64_max (max_retained_bytes limits).
Proof.
  unfold usage_after_add, retained_bytes_for_name, ok_or, result_bind, checked_add, checked_mul.
  split.
  - intros H. case_in H; bool_to_prop; split_and!; try lia. f_equal; lia.
  - intros (-> & H1 & H2 & H3). repeat (case_match; bool_to_prop; simplify_eq; try lia).
    do 2 f_equal; lia.
Qed.

(** A state that differs in the mapping of one scoped name: [o] is what the
    name maps to afterwards. *)
Record updated s n (o : option RegistryEntry) st st' : Prop := {
  upd_namespace s' n' : namespace s' st' !! n' =
    if decide ((s, n) = (s', n')) then o else namespace s' st !! n';
  upd_reverse pid r : r ∈ names_of pid st' ↔
    (r ≠ (s, n) ∧ r ∈ names_of pid st) ∨ (r = (s, n) ∧ global_pid <$> o = Some pid);
  upd_no_empty : no_empty (reverse st');
}.

Definition accounted st : Prop :=
  entries (usage st) = Z.of_nat (size (local st)) + Z.of_nat (size (global st)) ∧
  retained_bytes (usage st) = retained_of (local st) + retained_of (global st) ∧
  entries (usage st) <= max_entries limits ∧
  retained_bytes (usage st) <= max_retained_bytes limits.

Lemma inv_accounted st : inv limits st → accounted st.
Proof. by intros []. Qed.

Lemma updated_inv s n o st st' :
  inv limits st → updated s n o st st' → accounted st' →
  (∀ e, o = Some e → scope e = s ∧ validate_name limits n = Ok tt) →
  inv limits st'.
Proof.
  intros [Hrev Hne Hsc Hnm _ _ _ _] [Hns Hr Hne'] (? & ? & ? & ?) Ho.
  split; try done.
  - intros pid s' n'. rewrite Hr, Hns, Hrev. case_decide as Heq; [|naive_solver].
    simplify_eq. split.
    + intros [[]|[_ (e & -> & ?)%fmap_Some_1]]; [done|eauto].
    + intros (e & -> & <-). by right.
  - intros s' n' e. rewrite Hns. case_decide; [simplify_eq; naive_solver|eauto].
  - intros s' n' e. rewrite Hns. case_decide; [simplify_eq; naive_solver|eauto].
Qed.

Lemma namespace_mkState s st rev u :
  namespace s (mkState (local st) (global st) rev u) = namespace s st.
Proof. by destruct s. Qed.

(** Insertion into a namespace where the reverse index has no stale owner. *)
Lemma insert_scoped_updated s n pid at_ms u st :
  no_empty (reverse st) → (∀ p, (s, n) ∉ names_of p st) →
  updated s n (Some (mkEntry pid s at_ms)) st (insert_scoped s n pid at_ms u st).
Proof.
  intros Hne Hfresh. unfold insert_scoped. split.
  - intros s' n'. rewrite namespace_mkState, namespace_with_namespace.
    repeat case_decide; simplify_eq; rewrite ?lookup_insert_eq, ?lookup_insert_ne by congruence;
      done.
  - intros pid' r. unfold names_of; simpl. rewrite reverse_with_namespace, add_to_reverse_map_elem.
    fold (names_of pid' st). destruct (decide (r = (s, n))) as [->|Hrn]; [|naive_solver].
    specialize (Hfresh pid'). naive_solver.
  - simpl. rewrite reverse_with_namespace. by apply add_to_reverse_map_no_empty.
Qed.

Lemma insert_scoped_accounted s n pid at_ms u st :
  inv limits st → namespace s st !! n = None → usage_after_add limits (usage st) n = Ok u →
  accounted (insert_scoped s n pid at_ms u st).
Proof.
  intros [_ _ _ _ Hen Hre Hel Hrl] Habs (-> & He & _ & Hr)%usage_after_add_Ok.
  unfold insert_scoped, accounted; simpl.
  rewrite sizes_with_namespace, retained_with_namespace.
  rewrite map_size_insert_None, retained_of_insert by done. lia.
Qed.

Lemma absent_not_indexed s n st pid :
  inv limits st → namespace s st !! n = None → (s, n) ∉ names_of pid st.
Proof. intros Hinv Habs (e & He & _)%(inv_reverse _ _ Hinv). congruence. Qed.

(** Inserting an absent, valid name within the limits. *)
Lemma insert_scoped_inv s n pid at_ms u st :
  inv limits st → validate_name limits n = Ok tt → namespace s st !! n = None →
  usage_after_add limits (usage st) n = Ok u →
  inv limits (insert_scoped s n pid at_ms u st).
Proof.
  intros Hinv Hval Habs Hu. eapply updated_inv; [done| | |].
  - apply insert_scoped_updated; [exact (inv_no_empty _ _ Hinv)|].
    intros p. by apply absent_not_indexed.
  - by apply insert_scoped_accounted.
  - intros e [= <-]. done.
Qed.

(** [remove_scoped_registration] removes or does nothing, and never panics. *)
Lemma remove_scoped_registration_spec s n expected st :
  inv limits st →
  ∃ o st', remove_scoped_registration s n expected st = Some (o, st') ∧ inv limits st' ∧
    match o with
    | Some e => namespace s st !! n = Some e ∧ updated s n None st st' ∧
        (∀ p, expected = Some p → global_pid e = p)
    | None => st' = st ∧
        ∀ e, namespace s st !! n = Some e → ∃ p, expected = Some p ∧ global_pid e ≠ p
    end.
Proof.
  intros Hinv. unfold remove_scoped_registration.
  destruct (namespace s st !! n) as [e|] eqn:Hn; [|by exists None, st; naive_solver].
  destruct (match expected with Some _ => _ | None => false end) eqn:Hexp.
  { exists None, st. split_and!; try done. intros ? [= <-].
    destruct expected; bool_to_prop; naive_solver. }
  pose proof (inv_accounted _ Hinv) as (Hen & Hre & Hel & Hrl).
  assert (size (namespace s st) <> 0)%nat as Hsz.
  { intros H0%map_size_empty_inv. by rewrite H0, lookup_empty in Hn. }
  pose proof (retained_of_delete _ _ _ Hn) as Hdel.
  pose proof (retained_of_nonneg (delete n (namespace s st))). pose proof (name_len_nonneg n).
  pose proof (retained_of_nonneg (local st)). pose proof (retained_of_nonneg (global st)).
  assert (size (namespace s st) = S (size (delete n (namespace s st)))) as Hsd.
  { rewrite <- (insert_delete_id _ _ _ Hn) at 1. apply map_size_insert_None, lookup_delete_eq. }
  rewrite usage_with_namespace, reverse_with_namespace.
  assert (2 * name_len n <= retained_bytes (usage st) ∧ 1 <= entries (usage st)) as [Hr1 He1].
  { destruct s; simpl in *; lia. }
  destruct Hlimits as (_ & _ & Hml).
  rewrite (proj2 (checked_mul_Some _ _ _ (2 * name_len n))) by lia; simpl.
  rewrite (proj2 (checked_sub_Some (entries (usage st)) 1 (entries (usage st) - 1))) by lia; simpl.
  rewrite (proj2 (checked_sub_Some (retained_bytes (usage st)) (2 * name_len n) _))
    by (split; [reflexivity|lia]); simpl.
  eexists _, _; split; [done|].
  match goal with |- inv _ ?st' ∧ _ => assert (updated s n None st st') as Hupd end.
  { split.
    - intros s' n'. rewrite namespace_mkState, namespace_with_namespace.
      repeat case_decide; simplify_eq; rewrite ?lookup_delete_eq, ?lookup_delete_ne by congruence;
        done.
    - intros pid r. unfold names_of; simpl. rewrite remove_reverse_mapping_elem.
      fold (names_of pid st). destruct (decide (r = (s, n))) as [->|Hrn]; [|naive_solver].
      rewrite (inv_reverse _ _ Hinv), Hn. naive_solver.
    - simpl. apply remove_reverse_mapping_no_empty. exact (inv_no_empty _ _ Hinv). }
  split; [|split; [done|]; split; [done|]].
  - eapply updated_inv; [done|exact Hupd| |done].
    unfold accounted; cbn [entries usage retained_bytes local global].
    rewrite sizes_with_namespace, retained_with_namespace. lia.
  - intros p ->. by bool_to_prop; destruct (decide (global_pid e = p)).
Qed.
(** *** Registration *)

Lemma insert_local_if_absent_inv n pid now st :
  inv limits st → inv limits (insert_local_if_absent limits n pid now st).2.
Proof.
  intros Hinv. unfold insert_local_if_absent.
  destruct (validate_name limits n) as [[]|] eqn:Hval; [|done].
  case_bool_decide as Habs; [done|].
  destruct (usage_after_add limits (usage st) n) eqn:Hu; [|done]. simpl.
  apply insert_scoped_inv; try done. by apply eq_None_not_Some.
Qed.

Lemma register_global_untracked_inv n pid now st :
  inv limits st → inv limits (register_global_untracked limits n pid now st).2.
Proof.
  intros Hinv. unfold register_global_untracked.
  destruct (validate_name limits n) as [[]|] eqn:Hval; [|done].
  case_bool_decide as Habs; [done|].
  destruct (usage_after_add limits (usage st) n) eqn:Hu; [|done]. simpl.
  apply insert_scoped_inv; try done. by apply eq_None_not_Some.
Qed.

(** A committed value replaces the previous owner's. *)
Lemma replace_global_updated n pid at_ms previous st :
  inv limits st → global st !! n = Some previous →
  updated Global n (Some (mkEntry pid Global at_ms)) st
    (insert_scoped Global n pid at_ms (usage st)
       (mkState (local st) (global st)
          (remove_reverse_mapping (reverse st) (global_pid previous) Global n) (usage st))).
Proof.
  intros Hinv Hprev.
  set (st1 := mkState (local st) (global st) _ (usage st)).
  assert (∀ p r, r ∈ names_of p st1 ↔ r ∈ names_of p st ∧ r ≠ (Global, n)) as Hnames.
  { intros p r. unfold names_of, st1; simpl. rewrite remove_reverse_mapping_elem.
    fold (names_of p st). split; [|naive_solver]. intros [Hr Hn]. split; [done|]. intros ->.
    apply (inv_reverse _ _ Hinv) in Hr as (e & He & <-). simpl in He. naive_solver. }
  destruct (insert_scoped_updated Global n pid at_ms (usage st) st1) as [Hns Hrev Hne].
  - apply remove_reverse_mapping_no_empty. exact (inv_no_empty _ _ Hinv).
  - intros p. rewrite Hnames. naive_solver.
  - split; [|intros p r; rewrite Hrev, Hnames; naive_solver|done].
    intros s' n'. rewrite Hns. case_decide; [done|]. by destruct s'.
Qed.

Lemma apply_global_inv n pid at_ms st :
  inv limits st → inv limits (apply_global limits n pid at_ms st).2.
Proof.
  intros Hinv. unfold apply_global.
  destruct (validate_name limits n) as [[]|] eqn:Hval; [|done].
  destruct (global st !! n) as [previous|] eqn:Hprev.
  - simpl. eapply updated_inv; [done|by apply replace_global_updated| |by intros e [= <-]].
    destruct (inv_accounted _ Hinv) as (Hen & Hre & Hel & Hrl).
    unfold insert_scoped, accounted; simpl.
    rewrite map_size_insert_Some, (retained_of_replace _ _ _ previous) by done. done.
  - destruct (usage_after_add limits (usage st) n) eqn:Hu; [|done]. simpl.
    by apply insert_scoped_inv.
Qed.

(** *** Snapshots *)

Lemma retained_bytes_for_name_Ok n w :
  retained_bytes_for_name n = Ok w ↔ w = 2 * name_len n ∧ 2 * name_len n <= u64_max.
Proof.
  unfold retained_bytes_for_name, ok_or.
  unfold checked_mul. destruct (name_len n * 2 <=? u64_max) eqn:Hm; bool_to_prop.
  - split; [intros [= <-]; lia|intros [-> _]; f_equal; lia].
  - split; [done|lia].
Qed.

Definition weight_sum (names : list ProcessName) : Z :=
  foldr (fun n acc => 2 * name_len n + acc) 0 names.

Lemma weight_sum_nonneg names : 0 <= weight_sum names.
Proof.
  induction names as [|n l IH]; [done|].
  change (0 <= 2 * name_len n + weight_sum l). pose proof (name_len_nonneg n). lia.
Qed.

Lemma retained_of_weight_sum m : retained_of m = weight_sum (map_to_list m).*1.
Proof.
  unfold retained_of. rewrite map_fold_foldr. induction (map_to_list m) as [|[n e] l IH]; [done|].
  change (2 * name_len n + foldr (uncurry (fun n _ acc => 2 * name_len n + acc)) 0 l =
          2 * name_len n + weight_sum l.*1). by rewrite IH.
Qed.

Lemma retained_bytes_from_spec names r0 r :
  0 <= r0 <= u64_max →
  retained_bytes_from r0 names = Ok r ↔ r = r0 + weight_sum names ∧ r0 + weight_sum names <= u64_max.
Proof.
  revert r0. induction names as [|n names IH]; intros r0 Hr0; cbn [retained_bytes_from weight_sum foldr].
  { rewrite Z.add_0_r. naive_solver lia. }
  fold (weight_sum names). pose proof (weight_sum_nonneg names). pose proof (name_len_nonneg n).
  destruct (retained_bytes_for_name n) as [w|e] eqn:Hw; cbn [result_bind].
  - apply retained_bytes_for_name_Ok in Hw as [-> Hw]. unfold checked_add.
    destruct (r0 + 2 * name_len n <=? u64_max) eqn:Hle; bool_to_prop; cbn [ok_or result_bind].
    + rewrite IH by lia. rewrite Z.add_assoc. done.
    + split; [done|lia].
  - split; [done|]. intros [_ Hle].
    assert (retained_bytes_for_name n = Ok (2 * name_len n)) by (apply retained_bytes_for_name_Ok; lia).
    congruence.
Qed.
(** What the validation loop builds from a list of entries: no name twice, all
    valid, and the map holds exactly the accumulator and the entries. *)
Lemma build_global_Ok es acc r0 m r :
  0 <= r0 → r0 = retained_of acc → r0 <= max_retained_bytes limits →
  (∀ n e, acc !! n = Some e → scope e = Global ∧ validate_name limits n = Ok tt) →
  build_global limits es acc r0 = Ok (m, r) →
  r = retained_of m ∧ r <= max_retained_bytes limits ∧
  (∀ n e, m !! n = Some e → scope e = Global ∧ validate_name limits n = Ok tt) ∧
  (∀ n pid at_ms, (n, pid, at_ms) ∈ es → acc !! n = None) ∧
  (∀ n e, m !! n = Some e ↔ acc !! n = Some e ∨
     (n, global_pid e, registered_at e) ∈ es ∧ scope e = Global).
Proof.
  revert acc r0. induction es as [|[[n pid] at_ms] es IH]; intros acc r0 Hr0 Hret Hmax Hacc Hb.
  { simplify_eq/=. split_and!; try done; set_solver. }
  cbn [build_global] in Hb.
  destruct (validate_name limits n) as [[]|] eqn:Hval; [|done]. cbn [result_bind] in Hb.
  destruct (retained_bytes_for_name n) as [w|] eqn:Hw; [|done].
  apply retained_bytes_for_name_Ok in Hw as [-> Hw]. cbn [result_bind] in Hb.
  unfold checked_add in Hb. case_match; [|done]. cbn [ok_or result_bind] in Hb.
  case_match; [done|]. case_bool_decide as Habs; [done|]. bool_to_prop.
  apply eq_None_not_Some in Habs. pose proof (name_len_nonneg n).
  apply IH in Hb as (-> & Hle & Hm & Hdisj & Hspec); [|lia| |done|].
  - split_and!; try done.
    + intros n' pid' at' [[= -> -> ->]|Hin]%elem_of_cons; [done|].
      apply Hdisj in Hin. rewrite lookup_insert in Hin. by case_decide.
    + intros n' e'. rewrite Hspec, lookup_insert, elem_of_cons.
      clear IH Hspec Hm Hacc. case_decide as Heq.
      2: { split; intros [?|[? ?]]; auto. right. split; [|done]. naive_solver. }
      subst n'. split.
      * intros [[= <-]|[Hin%Hdisj _]]; [simpl; auto|]. by rewrite lookup_insert_eq in Hin.
      * intros [?|[[[= <- <-]|Hin%Hdisj] Hs]]; [congruence| |by rewrite lookup_insert_eq in Hin].
        left. destruct e'; simpl in *; by subst.
  - rewrite retained_of_insert by done. lia.
  - intros n' e'. rewrite lookup_insert. case_decide; [|apply Hacc].
    intros [= <-]. by subst.
Qed.

Lemma rebuild_reverse_elem loc glob pid s n :
  (s, n) ∈ default ∅ (rebuild_reverse loc glob !! pid) ↔
  ∃ e, match s with Local => loc | Global => glob end !! n = Some e ∧ global_pid e = pid.
Proof.
  unfold rebuild_reverse.
  set (base := map_fold (fun n e rev => add_to_reverse_map rev (global_pid e) Local n) ∅ loc).
  assert (∀ r, r ∈ default ∅ (base !! pid) ↔
    ∃ n e, r = (Local, n) ∧ loc !! n = Some e ∧ global_pid e = pid) as Hbase.
  { unfold base. apply (map_fold_weak_ind (fun rev m => ∀ r, r ∈ default ∅ (rev !! pid) ↔
      ∃ n e, r = (Local, n) ∧ m !! n = Some e ∧ global_pid e = pid)).
    - intros r. rewrite lookup_empty. simpl. split; [set_solver|].
      intros (? & ? & _ & Hl & _). by rewrite lookup_empty in Hl.
    - intros i x m rev Hi IH r. rewrite add_to_reverse_map_elem, IH.
      setoid_rewrite lookup_insert. split.
      + intros [[-> ->]|(n' & e' & -> & Hm & He)].
        * exists i, x. by rewrite decide_True.
        * exists n', e'. rewrite decide_False by congruence. done.
      + intros (n' & e' & -> & Hm & He). case_decide; simplify_eq; eauto 6. }
  apply (map_fold_weak_ind (fun rev m => (s, n) ∈ default ∅ (rev !! pid) ↔
    ∃ e, match s with Local => loc | Global => m end !! n = Some e ∧ global_pid e = pid)).
  - rewrite Hbase. destruct s; [naive_solver|]. setoid_rewrite lookup_empty. naive_solver.
  - intros i x m rev Hi IH. rewrite add_to_reverse_map_elem, IH. destruct s; [naive_solver|].
    setoid_rewrite lookup_insert. split.
    + intros [[-> [= ->]]|(e & He & <-)].
      * exists x. by rewrite decide_True.
      * exists e. rewrite decide_False by congruence. done.
    + intros (e & He & <-). case_decide; simplify_eq; eauto.
Qed.

Lemma rebuild_reverse_no_empty loc glob : no_empty (rebuild_reverse loc glob).
Proof.
  unfold rebuild_reverse.
  apply (map_fold_weak_ind (fun rev _ => no_empty rev)).
  - apply (map_fold_weak_ind (fun rev _ => no_empty rev)).
    + intros pid. by rewrite lookup_empty.
    + intros. by apply add_to_reverse_map_no_empty.
  - intros. by apply add_to_reverse_map_no_empty.
Qed.

Lemma replace_global_snapshot_spec es st r st' :
  inv limits st → replace_global_snapshot limits es st = (r, st') →
  match r with
  | Ok _ => inv limits st' ∧ local st' = local st ∧
      ∀ n e, global st' !! n = Some e ↔
        (n, global_pid e, registered_at e) ∈ es ∧ scope e = Global
  | Err _ => st' = st
  end.
Proof.
  intros Hinv. unfold replace_global_snapshot.
  destruct (max_entries limits <? _); [by intros [= <- <-]|].
  destruct (build_global limits es ∅ 0) as [[m rm]|e] eqn:Hb; cbn [result_bind fst snd];
    [|by intros [= <- <-]].
  apply build_global_Ok in Hb as (-> & Hle & Hm & _ & Hspec);
    [|done|by rewrite retained_of_empty|by destruct Hlimits; lia|].
  2: { intros n e. by rewrite lookup_empty. }
  destruct (checked_add _ _ _) as [k|] eqn:Hk; cbn [ok_or result_bind]; [|by intros [= <- <-]].
  apply checked_add_Some in Hk as [-> Hk].
  destruct (max_entries limits <? _) eqn:Hme; [by intros [= <- <-]|].
  unfold retained_bytes_for_names.
  destruct (retained_bytes_from 0 _) as [rl|] eqn:Hrl; cbn [result_bind]; [|by intros [= <- <-]].
  apply retained_bytes_from_spec in Hrl as [-> _]; [|done].
  rewrite <- retained_of_weight_sum, Z.add_0_l.
  destruct (checked_add _ _ _) as [k'|] eqn:Hk'; cbn [ok_or result_bind]; [|by intros [= <- <-]].
  apply checked_add_Some in Hk' as [-> Hk'].
  destruct (max_retained_bytes limits <? _) eqn:Hmr; intros [= <- <-]; [done|].
  bool_to_prop. split_and!; [|done|].
  - split; simpl; try done.
    + intros pid s n. unfold names_of; simpl. rewrite rebuild_reverse_elem. by destruct s.
    + apply rebuild_reverse_no_empty.
    + intros [] n e; simpl; [apply (inv_scope _ _ Hinv Local)|intros; by eapply Hm].
    + intros [] n e; simpl; [apply (inv_names _ _ Hinv Local)|intros; by eapply Hm].
  - intros n e. simpl. rewrite Hspec, lookup_empty. naive_solver.
Qed.
(** *** Removal *)

(** What is left after an update that removes a name. *)
Lemma updated_None_lookup s n st st' s' n' e :
  updated s n None st st' →
  namespace s' st' !! n' = Some e ↔ namespace s' st !! n' = Some e ∧ (s, n) ≠ (s', n').
Proof. intros [Hns _ _]. rewrite Hns. case_decide; naive_solver. Qed.

Lemma remove_each_spec pid regs st :
  inv limits st →
  ∃ removed st', remove_each pid regs st = Some (removed, st') ∧ inv limits st' ∧
    (∀ s n e, namespace s st' !! n = Some e ↔
       namespace s st !! n = Some e ∧ ¬ ((s, n) ∈ regs ∧ global_pid e = pid)) ∧
    (∀ n e, (n, e) ∈ removed ↔
       (scope e, n) ∈ regs ∧ namespace (scope e) st !! n = Some e ∧ global_pid e = pid).
Proof.
  revert st. induction regs as [|[s n] regs IH]; intros st Hinv; cbn [remove_each].
  { exists [], st. split_and!; try done; set_solver. }
  destruct (remove_scoped_registration_spec s n (Some pid) st Hinv)
    as (o & st1 & -> & Hinv1 & Ho); cbn [mbind option_bind].
  destruct (IH st1 Hinv1) as (rest & st2 & -> & Hinv2 & Hns2 & Hrem2).
  eexists _, st2. split_and!; [done|done| |].
  - intros s' n' e. rewrite Hns2, elem_of_cons. destruct o as [e0|].
    + destruct Ho as (Hn & Hupd & Hp). rewrite (updated_None_lookup _ _ _ _ _ _ _ Hupd).
      specialize (Hp _ eq_refl). split; [|naive_solver].
      intros [[Hl Hneq] Hnot]. split; [done|]. naive_solver.
    + destruct Ho as [-> Hother]. split; [|naive_solver].
      intros [Hl Hnot]. split; [done|]. intros [[[= -> ->]|Hin] He]; [|naive_solver].
      apply Hother in Hl. naive_solver.
  - intros n' e. destruct o as [e0|].
    + destruct Ho as (Hn & Hupd & Hp). specialize (Hp _ eq_refl).
      rewrite !elem_of_cons, Hrem2, (updated_None_lookup _ _ _ _ _ _ _ Hupd).
      pose proof (inv_scope _ _ Hinv _ _ _ Hn) as Hsc. split.
      * intros [[= -> ->]|(Hin & [Hl _] & He)]; [|naive_solver]. rewrite Hsc. naive_solver.
      * intros ([[= Hs ->]|Hin] & Hl & He); [left; rewrite Hs in Hl; naive_solver|].
        destruct (decide ((s, n) = (scope e, n'))) as [[= Hs ->]|]; [|naive_solver].
        left. rewrite <- Hs in Hl. naive_solver.
    + destruct Ho as [-> Hother]. rewrite Hrem2, elem_of_cons. split; [naive_solver|].
      intros ([[= <- ->]|Hin] & Hl & He); [|naive_solver].
      apply Hother in Hl. naive_solver.
Qed.

(** Two states with the same mappings have the same maps. *)
Lemma not_indexed_None pid st :
  inv limits st → (∀ s n e, namespace s st !! n = Some e → global_pid e ≠ pid) →
  reverse st !! pid = None.
Proof.
  intros Hinv Hno. destruct (reverse st !! pid) as [regs|] eqn:Hr; [|done]. exfalso.
  destruct (set_choose_or_empty regs) as [[[s n] Hsn]|Hempty].
  - destruct (proj1 (inv_reverse _ _ Hinv pid s n)) as (e & He & Hp); [|by eapply Hno].
    unfold names_of. by rewrite Hr.
  - apply (inv_no_empty _ _ Hinv pid). rewrite Hr. f_equal. by apply leibniz_equiv.
Qed.

Lemma unregister_process_spec pid st :
  inv limits st →
  ∃ removed st', unregister_process pid st = Some (removed, st') ∧ inv limits st' ∧
    (∀ s n e, namespace s st' !! n = Some e ↔
       namespace s st !! n = Some e ∧ global_pid e ≠ pid) ∧
    (∀ n e, (n, e) ∈ removed ↔ namespace (scope e) st !! n = Some e ∧ global_pid e = pid).
Proof.
  intros Hinv. unfold unregister_process.
  destruct (remove_each_spec pid (elements (default ∅ (reverse st !! pid))) st Hinv)
    as (removed & st1 & -> & Hinv1 & Hns & Hrem); cbn [mbind option_bind].
  assert (∀ s n e, namespace s st1 !! n = Some e ↔
    namespace s st !! n = Some e ∧ global_pid e ≠ pid) as Hns'.
  { intros s n e. rewrite Hns, elem_of_elements. fold (names_of pid st).
    rewrite (inv_reverse _ _ Hinv). naive_solver. }
  eexists _, st1. split_and!; [|done|done|].
  - rewrite delete_id; [by destruct st1|].
    apply not_indexed_None; [done|]. intros s n e Hl. by apply Hns' in Hl as [].
  - intros n e. rewrite merge_sort_Permutation, Hrem, elem_of_elements.
    fold (names_of pid st). rewrite (inv_reverse _ _ Hinv). naive_solver.
Qed.

Lemma remove_local_registrations_spec pid st :
  inv limits st →
  ∃ removed st', remove_local_registrations pid st = Some (removed, st') ∧ inv limits st' ∧
    (∀ s n e, namespace s st' !! n = Some e ↔
       namespace s st !! n = Some e ∧ ¬ (s = Local ∧ global_pid e = pid)) ∧
    (∀ n, n ∈ removed ↔ ∃ e, local st !! n = Some e ∧ global_pid e = pid).
Proof.
  intros Hinv. unfold remove_local_registrations.
  set (regs := filter _ _).
  assert (∀ s n, (s, n) ∈ regs ↔ s = Local ∧ ∃ e, namespace s st !! n = Some e ∧ global_pid e = pid)
    as Hregs.
  { intros s n. unfold regs. rewrite list_elem_of_filter, elem_of_elements. simpl.
    fold (names_of pid st). by rewrite (inv_reverse _ _ Hinv). }
  destruct (remove_each_spec pid regs st Hinv)
    as (removed & st1 & -> & Hinv1 & Hns & Hrem); cbn [mbind option_bind].
  eexists _, st1. split_and!; [done|done| |].
  - intros s n e. rewrite Hns, Hregs. split; [|naive_solver].
    intros [Hl Hnot]. split; [done|]. intros [-> He]. apply Hnot. eauto 6.
  - intros n. unfold sort_names. rewrite merge_sort_Permutation, list_elem_of_fmap. split.
    + intros ([n' e] & -> & (Hin & Hl & He)%Hrem). apply Hregs in Hin as [Hs _].
      rewrite Hs in Hl. eauto.
    + intros (e & Hl & He). exists (n, e). split; [done|]. apply Hrem.
      pose proof (inv_scope _ _ Hinv Local _ _ Hl) as ->. rewrite Hregs. simpl. eauto 7.
Qed.

Lemma remove_each_owned_spec regs st :
  inv limits st →
  ∃ removed st', remove_each_owned regs st = Some (removed, st') ∧ inv limits st' ∧
    (∀ s n e, namespace s st' !! n = Some e ↔
       namespace s st !! n = Some e ∧ ¬ (s = Global ∧ (n, global_pid e) ∈ regs)) ∧
    (∀ n, n ∈ removed ↔ ∃ e, global st !! n = Some e ∧ (n, global_pid e) ∈ regs).
Proof.
  revert st. induction regs as [|[n pid] regs IH]; intros st Hinv; cbn [remove_each_owned].
  { exists [], st. split_and!; try done; set_solver. }
  destruct (remove_scoped_registration_spec Global n (Some pid) st Hinv)
    as (o & st1 & -> & Hinv1 & Ho); cbn [mbind option_bind].
  destruct (IH st1 Hinv1) as (rest & st2 & -> & Hinv2 & Hns2 & Hrem2).
  eexists _, st2. split_and!; [done|done| |].
  - intros s' n' e. rewrite Hns2, elem_of_cons. destruct o as [e0|].
    + destruct Ho as (Hn & Hupd & Hp). rewrite (updated_None_lookup _ _ _ _ _ _ _ Hupd).
      specialize (Hp _ eq_refl). split; [|naive_solver].
      intros [[Hl Hneq] Hnot]. split; [done|]. naive_solver.
    + destruct Ho as [-> Hother]. split; [|naive_solver].
      intros [Hl Hnot]. split; [done|]. intros [-> [[= -> Hpid]|Hin]]; [|naive_solver].
      destruct (Hother e Hl) as (p & [= <-] & Hp). done.
  - intros n'. destruct o as [e0|].
    + destruct Ho as (Hn & Hupd & Hp). specialize (Hp _ eq_refl). simpl in Hn.
      rewrite elem_of_cons, Hrem2.
      pose proof (fun e => updated_None_lookup _ _ _ _ Global n' e Hupd) as Hu. simpl in Hu.
      setoid_rewrite Hu. setoid_rewrite elem_of_cons. destruct (decide (n' = n)); naive_solver.
    + destruct Ho as [-> Hother]. rewrite Hrem2. setoid_rewrite elem_of_cons. split; [naive_solver|].
      intros (e & Hl & [[= -> Hpid]|Hin]); [|eauto].
      destruct (Hother e Hl) as (p & [= <-] & Hp). done.
Qed.

Lemma remove_node_registrations_spec node st :
  inv limits st →
  ∃ removed st', remove_node_registrations node st = Some (removed, st') ∧ inv limits st' ∧
    (∀ s n e, namespace s st' !! n = Some e ↔
       namespace s st !! n = Some e ∧ ¬ (s = Global ∧ node_id (global_pid e) = node)) ∧
    (∀ n, n ∈ removed ↔ ∃ e, global st !! n = Some e ∧ node_id (global_pid e) = node).
Proof.
  intros Hinv. unfold remove_node_registrations.
  set (regs := _ <$> _).
  destruct (remove_each_owned_spec regs st Hinv) as (removed & st1 & -> & Hinv1 & Hns & Hrem);
    cbn [mbind option_bind].
  assert (∀ n p, (n, p) ∈ regs ↔ ∃ e, global st !! n = Some e ∧ global_pid e = p ∧
    node_id p = node) as Hregs.
  { intros n p. unfold regs. rewrite list_elem_of_fmap. split.
    - intros ([n' e'] & [= -> ->] & [Hnode Hin%elem_of_map_to_list]%list_elem_of_filter). eauto.
    - intros (e' & He & <- & Hnode). exists (n, e'). split; [done|].
      by rewrite list_elem_of_filter, elem_of_map_to_list. }
  eexists _, st1. split_and!; [done|done| |].
  - intros s n e. rewrite Hns, Hregs. split; [|naive_solver].
    intros [Hl Hnot]. split; [done|]. intros [-> Hnode]. naive_solver.
  - intros n. unfold sort_names. rewrite merge_sort_Permutation, Hrem.
    setoid_rewrite Hregs. naive_solver.
Qed.

(** An unconditional removal deletes exactly its own entry. *)
Lemma remove_unconditional_spec s n st :
  inv limits st →
  ∃ st', remove_scoped_registration s n None st = Some (namespace s st !! n, st') ∧
    inv limits st' ∧
    ∀ s' n' e, namespace s' st' !! n' = Some e ↔
      namespace s' st !! n' = Some e ∧ (s', n') ≠ (s, n).
Proof.
  intros Hinv.
  destruct (remove_scoped_registration_spec s n None st Hinv)
    as (o & st' & -> & Hinv' & Ho). exists st'. destruct o as [e0|].
  - destruct Ho as (Hn & Hupd & _). split_and!; [by rewrite Hn|done|].
    intros s' n' e. rewrite (updated_None_lookup _ _ _ _ _ _ _ Hupd). naive_solver.
  - destruct Ho as [-> Hno]. assert (namespace s st !! n = None) as Hn.
    { apply eq_None_not_Some. intros [e He]. by destruct (Hno e He) as (? & ? & _). }
    split_and!; [by rewrite Hn|done|]. intros s' n' e. split; [|naive_solver].
    intros He. split; [done|]. intros [= -> ->]. congruence.
Qed.

Lemma unregister_spec n st :
  inv limits st →
  ∃ st', unregister n st = Some (match lookup_name n st with
      | Some _ => Ok tt | None => Err NotRegistered end, global_pid <$> lookup_name n st, st') ∧
    inv limits st' ∧
    (∀ s n' e, namespace s st' !! n' = Some e ↔ namespace s st !! n' = Some e ∧ n' ≠ n).
Proof.
  intros Hinv. unfold unregister.
  destruct (remove_unconditional_spec Local n st Hinv) as (st1 & -> & Hinv1 & H1).
  cbn [mbind option_bind].
  destruct (remove_unconditional_spec Global n st1 Hinv1) as (st2 & -> & Hinv2 & H2).
  cbn [mbind option_bind]. exists st2. split_and!; [|done|].
  - assert (namespace Global st1 !! n = global st !! n) as ->; [|done].
    apply option_eq. intros e. rewrite H1. split; [by intros []|intros He; by split].
  - intros s n' e. rewrite H2, H1. destruct s; split; intros; destruct_and?;
      split_and?; congruence || done || (intros [=]; congruence).
Qed.
End preservation.
