(* ===== verification/RegistrySpec.v ===== *)
(** * The contract of the name registry

    The registry of [registry.rs] promises its clients two finite maps from
    names to owners under an admission bound; the reverse index, the usage
    counters and the single lock are implementation.  This file states that
    contract as an executable abstract registry and proves that every sequence
    of operations of [DistributedRegistry] implements it. *)

From stdpp Require Import sorting.
From S2P Require Import Prelude GlobalProcessId DistributedRegistry.

(** ** Operations *)

Inductive op : Type :=
| RegisterLocal (n : ProcessName) (pid : GlobalProcessId) (now : Z)
| RegisterGlobal (n : ProcessName) (pid : GlobalProcessId) (now : Z)
| ApplyGlobal (n : ProcessName) (pid : GlobalProcessId) (at_ms : Z)
| RemoveGlobalIfOwner (n : ProcessName) (pid : GlobalProcessId)
| ReplaceGlobalSnapshot (es : list (ProcessName * GlobalProcessId * Z))
| Unregister (n : ProcessName)
| UnregisterProcess (pid : GlobalProcessId)
| RemoveLocalRegistrations (pid : GlobalProcessId)
| RemoveNodeRegistrations (node : Z)
| Clear
| Lookup (n : ProcessName).

Inductive output : Type :=
| ODone (r : result unit RegistryError)
| OReplaced (success : bool)
| OFlag (b : bool)
| OEntries (l : list (ProcessName * RegistryEntry))
| ONames (l : list ProcessName)
| OEntry (o : option RegistryEntry)
| OUnit.

(** One operation of the implementation; [None] is a panic. *)
Definition exec (limits : RegistryLimits) (o : op) (st : RegistryState)
    : option (output * RegistryState) :=
  match o with
  | RegisterLocal n pid now =>
      let '(r, _, st) := register_local limits n pid now st in Some (ODone r, st)
  | RegisterGlobal n pid now =>
      let '(r, _, st) := register_global limits n pid now st in Some (ODone r, st)
  | ApplyGlobal n pid at_ms =>
      let '(r, st) := apply_global limits n pid at_ms st in Some (ODone r, st)
  | RemoveGlobalIfOwner n pid =>
      '(b, st) ← remove_global_if_owner n pid st; Some (OFlag b, st)
  | ReplaceGlobalSnapshot es =>
      let '(r, st) := replace_global_snapshot limits es st in Some (OReplaced (is_ok r), st)
  | Unregister n => '(r, _, st) ← unregister n st; Some (ODone r, st)
  | UnregisterProcess pid => '(l, st) ← unregister_process pid st; Some (OEntries l, st)
  | RemoveLocalRegistrations pid =>
      '(l, st) ← remove_local_registrations pid st; Some (ONames l, st)
  | RemoveNodeRegistrations node =>
      '(l, st) ← remove_node_registrations node st; Some (ONames l, st)
  | Clear => Some (OUnit, clear st)
  | Lookup n => Some (OEntry (lookup_name n st), st)
  end.

Fixpoint run (limits : RegistryLimits) (ops : list op) (st : RegistryState)
    : option (list output * RegistryState) :=
  match ops with
  | [] => Some ([], st)
  | o :: ops =>
      '(out, st) ← exec limits o st;
      '(outs, st) ← run limits ops st;
      Some (out :: outs, st)
  end.

(** ** The abstract registry: one map per namespace *)

Record areg : Type := mkA {
  a_local : gmap (list Z) RegistryEntry;
  a_global : gmap (list Z) RegistryEntry;
}.

Definition abs (st : RegistryState) : areg := mkA (local st) (global st).

Section abstract.
Context (limits : RegistryLimits).

Definition a_entries (A : areg) : Z :=
  Z.of_nat (size (a_local A)) + Z.of_nat (size (a_global A)).

Definition a_retained (A : areg) : Z := retained_of (a_local A) + retained_of (a_global A).

(** Room for one more name. *)
Definition a_fits (A : areg) (n : ProcessName) : bool :=
  (a_entries A + 1 <=? max_entries limits) &&
  (a_retained A + 2 * name_len n <=? max_retained_bytes limits).

Definition a_namespace (s : RegistrationScope) (A : areg) : gmap (list Z) RegistryEntry :=
  match s with Local => a_local A | Global => a_global A end.

Definition a_insert (s : RegistrationScope) (n : ProcessName) (e : RegistryEntry) (A : areg)
    : areg :=
  match s with
  | Local => mkA (<[n := e]> (a_local A)) (a_global A)
  | Global => mkA (a_local A) (<[n := e]> (a_global A))
  end.

(** A name is registered once, and only where it fits. *)
Definition a_register (s : RegistrationScope) (n : ProcessName) (pid : GlobalProcessId)
    (now : Z) (A : areg) : result unit RegistryError * areg :=
  match validate_name limits n with
  | Err e => (Err e, A)
  | Ok _ =>
      if bool_decide (is_Some (a_namespace s A !! n)) then (Err Conflict, A)
      else if a_fits A n then (Ok tt, a_insert s n (mkEntry pid s now) A)
      else (Err CapacityExceeded, A)
  end.

(** A committed global value replaces whatever the name had. *)
Definition a_apply (n : ProcessName) (pid : GlobalProcessId) (at_ms : Z) (A : areg)
    : result unit RegistryError * areg :=
  match validate_name limits n with
  | Err e => (Err e, A)
  | Ok _ =>
      if bool_decide (is_Some (a_global A !! n)) || a_fits A n
      then (Ok tt, a_insert Global n (mkEntry pid Global at_ms) A)
      else (Err CapacityExceeded, A)
  end.

Definition snapshot_names (es : list (ProcessName * GlobalProcessId * Z)) : list ProcessName :=
  es.*1.*1.

Definition snapshot_map (es : list (ProcessName * GlobalProcessId * Z))
    : gmap (list Z) RegistryEntry :=
  list_to_map ((fun '(n, pid, at_ms) => (n, mkEntry pid Global at_ms)) <$> es).

(** The snapshots that are accepted: valid names, none twice, and the result
    within the limits. *)
Definition a_acceptable (es : list (ProcessName * GlobalProcessId * Z)) (A : areg) : bool :=
  forallb (fun n => is_ok (validate_name limits n)) (snapshot_names es) &&
  bool_decide (NoDup (snapshot_names es)) &&
  (Z.of_nat (size (a_local A)) + Z.of_nat (length es) <=? max_entries limits) &&
  (retained_of (a_local A) + weight_sum (snapshot_names es) <=? max_retained_bytes limits).

Definition a_keep (P : RegistrationScope → ProcessName → RegistryEntry → bool) (A : areg)
    : areg :=
  mkA (filter (fun p => P Local p.1 p.2 = true) (a_local A))
      (filter (fun p => P Global p.1 p.2 = true) (a_global A)).

Definition a_removed (P : RegistrationScope → ProcessName → RegistryEntry → bool) (A : areg)
    : list (ProcessName * RegistryEntry) :=
  filter (fun p => P Local p.1 p.2 = false) (map_to_list (a_local A)) ++
  filter (fun p => P Global p.1 p.2 = false) (map_to_list (a_global A)).

Definition keep_other_names (n : ProcessName) (_ : RegistrationScope) (n' : ProcessName)
    (_ : RegistryEntry) : bool := bool_decide (n' ≠ n).
Definition keep_other_owners (pid : GlobalProcessId) (_ : RegistrationScope)
    (_ : ProcessName) (e : RegistryEntry) : bool := bool_decide (global_pid e ≠ pid).
Definition keep_not_local_of (pid : GlobalProcessId) (s : RegistrationScope)
    (_ : ProcessName) (e : RegistryEntry) : bool :=
  bool_decide (s = Global) || bool_decide (global_pid e ≠ pid).
Definition keep_not_global_on (node : Z) (s : RegistrationScope) (_ : ProcessName)
    (e : RegistryEntry) : bool :=
  bool_decide (s = Local) || bool_decide (node_id (global_pid e) ≠ node).

Definition a_lookup (n : ProcessName) (A : areg) : option RegistryEntry :=
  match a_local A !! n with Some e => Some e | None => a_global A !! n end.

Definition a_exec (o : op) (A : areg) : output * areg :=
  match o with
  | RegisterLocal n pid now => let '(r, A) := a_register Local n pid now A in (ODone r, A)
  | RegisterGlobal n pid now => let '(r, A) := a_register Global n pid now A in (ODone r, A)
  | ApplyGlobal n pid at_ms => let '(r, A) := a_apply n pid at_ms A in (ODone r, A)
  | RemoveGlobalIfOwner n pid =>
      if bool_decide (global_pid <$> a_global A !! n = Some pid)
      then (OFlag true, mkA (a_local A) (delete n (a_global A)))
      else (OFlag false, A)
  | ReplaceGlobalSnapshot es =>
      if a_acceptable es A then (OReplaced true, mkA (a_local A) (snapshot_map es))
      else (OReplaced false, A)
  | Unregister n =>
      (ODone (match a_lookup n A with Some _ => Ok tt | None => Err NotRegistered end),
       a_keep (keep_other_names n) A)
  | UnregisterProcess pid =>
      (OEntries (a_removed (keep_other_owners pid) A), a_keep (keep_other_owners pid) A)
  | RemoveLocalRegistrations pid =>
      (ONames (a_removed (keep_not_local_of pid) A).*1, a_keep (keep_not_local_of pid) A)
  | RemoveNodeRegistrations node =>
      (ONames (a_removed (keep_not_global_on node) A).*1, a_keep (keep_not_global_on node) A)
  | Clear => (OUnit, mkA ∅ ∅)
  | Lookup n => (OEntry (a_lookup n A), A)
  end.

Fixpoint a_run (ops : list op) (A : areg) : list output * areg :=
  match ops with
  | [] => ([], A)
  | o :: ops =>
      let '(out, A) := a_exec o A in
      let '(outs, A) := a_run ops A in
      (out :: outs, A)
  end.
End abstract.

(** Cleanup results are compared as sets: the implementation sorts them. *)
Definition out_equiv (a b : output) : Prop :=
  match a, b with
  | OEntries l, OEntries k => ∀ x, x ∈ l ↔ x ∈ k
  | ONames l, ONames k => ∀ x, x ∈ l ↔ x ∈ k
  | _, _ => a = b
  end.

#[export] Instance out_equiv_equivalence : Equivalence out_equiv.
Proof.
  split.
  - intros []; simpl; done.
  - intros [] []; simpl; try done; intros H x; symmetry; apply H.
  - intros [] [] []; simpl; try congruence; intros H1 H2 x; by rewrite H1, H2.
Qed.

(** ** Refinement *)

Section refinement.
Context (limits : RegistryLimits) (Hlimits : limits_ok limits).
Implicit Types (st : RegistryState) (n : ProcessName).

(** The counters decide admission exactly as the contents would. *)
Lemma usage_after_add_fits n st :
  inv limits st →
  usage_after_add limits (usage st) n =
    if a_fits limits (abs st) n
    then Ok (mkUsage (entries (usage st) + 1) (retained_bytes (usage st) + 2 * name_len n))
    else Err CapacityExceeded.
Proof.
  intros Hinv. destruct Hlimits as (_ & He & Hr). unfold a_fits, a_entries, a_retained; simpl.
  rewrite <- (inv_entries _ _ Hinv), <- (inv_retained _ _ Hinv).
  pose proof (inv_retained _ _ Hinv). pose proof (retained_of_nonneg (local st)).
  pose proof (retained_of_nonneg (global st)). pose proof (name_len_nonneg n).
  destruct (_ && _) eqn:Hfit; bool_to_prop.
  - apply usage_after_add_Ok. split_and!; try done; lia.
  - destruct (usage_after_add limits (usage st) n) as [u|e] eqn:Hu.
    + apply usage_after_add_Ok in Hu as (_ & ? & _ & ?).
      apply andb_false_iff in Hfit as [?|?]; bool_to_prop; lia.
    + f_equal. revert Hu.
      unfold usage_after_add, retained_bytes_for_name, ok_or, result_bind.
      repeat case_match; congruence.
Qed.

Lemma abs_insert_scoped s n pid now u st :
  abs (insert_scoped s n pid now u st) = a_insert s n (mkEntry pid s now) (abs st).
Proof. by destruct s. Qed.

(** The two registrations differ only in their namespace. *)
Lemma a_register_spec s n pid now st r st' :
  inv limits st →
  match validate_name limits n with
  | Err e => (Err e, st)
  | Ok _ =>
      if bool_decide (is_Some (namespace s st !! n)) then (Err Conflict, st)
      else match usage_after_add limits (usage st) n with
           | Err e => (Err e, st)
           | Ok u => (Ok tt, insert_scoped s n pid now u st)
           end
  end = (r, st') →
  a_register limits s n pid now (abs st) = (r, abs st').
Proof.
  intros Hinv. unfold a_register. rewrite (usage_after_add_fits n st Hinv).
  assert (a_namespace s (abs st) = namespace s st) as -> by by destruct s.
  destruct (validate_name limits n); [|by intros [= <- <-]].
  case_bool_decide; [by intros [= <- <-]|].
  destruct (a_fits limits (abs st) n); intros [= <- <-]; [|done].
  by rewrite abs_insert_scoped.
Qed.

Lemma apply_global_refines n pid at_ms st r st' :
  inv limits st → apply_global limits n pid at_ms st = (r, st') →
  a_apply limits n pid at_ms (abs st) = (r, abs st').
Proof.
  intros Hinv. unfold apply_global, a_apply. rewrite (usage_after_add_fits n st Hinv).
  destruct (validate_name limits n); [|by intros [= <- <-]]. simpl a_global.
  destruct (global st !! n) as [previous|].
  - rewrite bool_decide_true by done. by intros [= <- <-].
  - rewrite bool_decide_false by (by intros []). simpl orb.
    destruct (a_fits limits (abs st) n); by intros [= <- <-].
Qed.

(** ** Filtering *)

(** A state whose entries are those that satisfy [P]. *)
Lemma abs_keep (P : RegistrationScope → ProcessName → RegistryEntry → bool)
    (Q : RegistrationScope → ProcessName → RegistryEntry → Prop) st st' :
  (∀ s n e, P s n e = true ↔ Q s n e) →
  (∀ s n e, namespace s st' !! n = Some e ↔ namespace s st !! n = Some e ∧ Q s n e) →
  a_keep P (abs st) = abs st'.
Proof.
  intros HPQ Hns. unfold a_keep, abs; simpl. f_equal; apply map_eq; intros n; apply option_eq;
    intros e; rewrite map_lookup_filter_Some; simpl; rewrite HPQ; symmetry.
  - apply (Hns Local).
  - apply (Hns Global).
Qed.

Lemma elem_of_a_removed (P : RegistrationScope → ProcessName → RegistryEntry → bool) st n e :
  (n, e) ∈ a_removed P (abs st) ↔ ∃ s, namespace s st !! n = Some e ∧ P s n e = false.
Proof.
  unfold a_removed. rewrite elem_of_app, !list_elem_of_filter, !elem_of_map_to_list. simpl.
  split.
  - intros [[]|[]]; [by exists Local|by exists Global].
  - intros ([] & ? & ?); tauto.
Qed.

Lemma elem_of_a_removed_names (P : RegistrationScope → ProcessName → RegistryEntry → bool) st n :
  n ∈ (a_removed P (abs st)).*1 ↔ ∃ s e, namespace s st !! n = Some e ∧ P s n e = false.
Proof.
  rewrite list_elem_of_fmap. split.
  - intros ([n' e] & -> & (s & ? & ?)%elem_of_a_removed). eauto.
  - intros (s & e & ? & ?). exists (n, e). split; [done|]. apply elem_of_a_removed. eauto.
Qed.

(** ** Snapshots *)

Lemma validate_is_ok n : is_ok (validate_name limits n) = true ↔ validate_name limits n = Ok tt.
Proof. destruct (validate_name limits n) as [[]|]; simpl; naive_solver. Qed.

(** When the validation loop succeeds. *)
Lemma build_global_succeeds es acc r0 :
  0 <= r0 <= max_retained_bytes limits →
  is_ok (build_global limits es acc r0) = true ↔
  Forall (fun n => validate_name limits n = Ok tt) (snapshot_names es) ∧
  NoDup (snapshot_names es) ∧ Forall (fun n => acc !! n = None) (snapshot_names es) ∧
  r0 + weight_sum (snapshot_names es) <= max_retained_bytes limits.
Proof.
  destruct Hlimits as (_ & _ & Hr).
  revert acc r0. induction es as [|[[n pid] at_ms] es IH]; intros acc r0 Hr0.
  { split; [|done]. intros _. split_and!; try constructor. simpl. lia. }
  change (snapshot_names ((n, pid, at_ms) :: es)) with (n :: snapshot_names es).
  change (weight_sum (n :: snapshot_names es)) with (2 * name_len n + weight_sum (snapshot_names es)).
  pose proof (name_len_nonneg n). pose proof (weight_sum_nonneg (snapshot_names es)).
  rewrite !Forall_cons_iff, list.NoDup_cons. cbn [build_global].
  destruct (validate_name limits n) as [[]|]; cbn [result_bind]; [|naive_solver].
  destruct (retained_bytes_for_name n) as [w|] eqn:Hw; cbn [result_bind].
  2: { split; [done|]. intros (_ & _ & _ & Hle).
       assert (retained_bytes_for_name n = Ok (2 * name_len n)) by
         (apply retained_bytes_for_name_Ok; lia). congruence. }
  apply retained_bytes_for_name_Ok in Hw as [-> Hw]. unfold checked_add.
  destruct (_ <=? u64_max) eqn:Hle; cbn [ok_or result_bind]; bool_to_prop; [|split; [done|lia]].
  destruct (max_retained_bytes limits <? _) eqn:Hmax; bool_to_prop; [split; [done|lia]|].
  case_bool_decide as Habs; [split; [done|]; intros (_ & _ & [Hn _] & _); rewrite Hn in Habs; by destruct Habs|].
  apply eq_None_not_Some in Habs. rewrite IH by lia. rewrite Z.add_assoc.
  assert ((Forall (fun n' => (<[n := mkEntry pid Global at_ms]> acc) !! n' = None) (snapshot_names es))
    ↔ (n ∉ snapshot_names es) ∧ Forall (fun n' => acc !! n' = None) (snapshot_names es)) as ->;
    [|tauto].
  rewrite !list.Forall_forall. setoid_rewrite lookup_insert_None. naive_solver.
Qed.

(** The map an accepted snapshot stands for. *)
Lemma snapshot_names_entries es :
  ((fun '(n, pid, at_ms) => (n, mkEntry pid Global at_ms)) <$> es).*1 = snapshot_names es.
Proof. unfold snapshot_names. induction es as [|[[n pid] at_ms] es IH]; csimpl; congruence. Qed.

Lemma snapshot_map_lookup es n e :
  NoDup (snapshot_names es) →
  snapshot_map es !! n = Some e ↔ (n, global_pid e, registered_at e) ∈ es ∧ scope e = Global.
Proof.
  intros Hnd. unfold snapshot_map.
  rewrite <- elem_of_list_to_map by by rewrite snapshot_names_entries.
  rewrite list_elem_of_fmap. split.
  - intros ([[n' pid] at_ms] & [= -> ->] & Hin). done.
  - intros [Hin Hs]. eexists. split; [|done]. destruct e; simpl in *; by subst.
Qed.

Lemma snapshot_map_size es :
  NoDup (snapshot_names es) → size (snapshot_map es) = length es.
Proof.
  intros Hnd. unfold snapshot_map. rewrite map_size_list_to_map; [by rewrite length_fmap|].
  by rewrite snapshot_names_entries.
Qed.

Lemma snapshot_map_retained es :
  NoDup (snapshot_names es) → retained_of (snapshot_map es) = weight_sum (snapshot_names es).
Proof.
  unfold snapshot_map. induction es as [|[[n pid] at_ms] es IH].
  { intros _. apply retained_of_empty. }
  change (snapshot_names ((n, pid, at_ms) :: es)) with (n :: snapshot_names es).
  intros [Hn Hnd]%list.NoDup_cons. csimpl. rewrite retained_of_insert; [rewrite IH by done; done|].
  apply not_elem_of_list_to_map_1. by rewrite snapshot_names_entries.
Qed.

(** The validation loop builds that map. *)
Lemma build_global_snapshot_map es m r :
  build_global limits es ∅ 0 = Ok (m, r) → NoDup (snapshot_names es) →
  m = snapshot_map es ∧ r = weight_sum (snapshot_names es).
Proof.
  intros Hb Hnd. destruct Hlimits as (_ & _ & ?).
  destruct (build_global_Ok limits Hlimits es ∅ 0 m r) as (-> & _ & _ & _ & Hm);
    [done|by rewrite retained_of_empty|lia|intros ? ?; by rewrite lookup_empty|done|].
  assert (m = snapshot_map es) as ->; [|by rewrite snapshot_map_retained].
  apply map_eq. intros n. apply option_eq. intros e.
  rewrite Hm, lookup_empty, snapshot_map_lookup by done. naive_solver.
Qed.

Lemma replace_global_snapshot_refines es st :
  inv limits st →
  a_exec limits (ReplaceGlobalSnapshot es) (abs st) =
    (OReplaced (is_ok (replace_global_snapshot limits es st).1),
     abs (replace_global_snapshot limits es st).2).
Proof.
  intros Hinv. destruct Hlimits as (_ & He & Hr).
  unfold a_exec, replace_global_snapshot, a_acceptable; simpl a_local.
  pose proof (retained_of_nonneg (local st)). pose proof (weight_sum_nonneg (snapshot_names es)).
  set (b := forallb _ _ && _ && _ && _).
  assert (b = true ↔ Forall (fun n => validate_name limits n = Ok tt) (snapshot_names es) ∧
    NoDup (snapshot_names es) ∧
    Z.of_nat (size (local st)) + Z.of_nat (length es) <= max_entries limits ∧
    retained_of (local st) + weight_sum (snapshot_names es) <= max_retained_bytes limits) as Hb.
  { unfold b. rewrite !andb_true_iff, !Z.leb_le, bool_decide_eq_true, forallb_forall.
    setoid_rewrite validate_is_ok. rewrite list.Forall_forall.
    setoid_rewrite list_elem_of_In. tauto. }
  clearbody b.
  destruct (max_entries limits <? Z.of_nat (length es)) eqn:Hlen; bool_to_prop.
  { destruct b; [|done]. destruct (proj1 Hb eq_refl) as (_ & _ & ? & _). lia. }
  pose proof (build_global_succeeds es ∅ 0) as Hbuild.
  destruct (build_global limits es ∅ 0) as [[m r]|e] eqn:Hbg; cbn [result_bind fst snd is_ok] in *.
  2: { destruct b; [|done]. destruct (proj1 Hb eq_refl) as (Hv & Hnd & ? & ?).
       enough (false = true) by done. apply Hbuild; [lia|]. split_and!; try done; [|lia].
       apply Forall_true. intros n. apply lookup_empty. }
  destruct (proj1 (Hbuild ltac:(lia)) eq_refl) as (Hv & Hnd & _ & Hle).
  destruct (build_global_snapshot_map es m r Hbg Hnd) as [-> ->].
  rewrite snapshot_map_size by done.
  unfold checked_add. destruct (_ + Z.of_nat _ <=? u64_max) eqn:?; cbn [ok_or result_bind]; bool_to_prop.
  2: { destruct b; [|done]. destruct (proj1 Hb eq_refl) as (_ & _ & ? & _). lia. }
  destruct (max_entries limits <? _) eqn:?; bool_to_prop.
  { destruct b; [|done]. destruct (proj1 Hb eq_refl) as (_ & _ & ? & _). lia. }
  assert (retained_bytes_for_names (map_to_list (local st)).*1 = Ok (retained_of (local st))) as ->.
  { unfold retained_bytes_for_names. rewrite retained_bytes_from_spec by done.
    rewrite <- retained_of_weight_sum.
    pose proof (inv_retained_le _ _ Hinv). pose proof (inv_retained _ _ Hinv).
    pose proof (retained_of_nonneg (global st)). lia. }
  cbn [result_bind]. destruct (_ <=? u64_max) eqn:?; cbn [ok_or result_bind]; bool_to_prop.
  2: { destruct b; [|done]. destruct (proj1 Hb eq_refl) as (_ & _ & _ & ?). lia. }
  destruct (max_retained_bytes limits <? _) eqn:?; bool_to_prop; destruct b; try done.
  - destruct (proj1 Hb eq_refl) as (_ & _ & _ & ?). lia.
  - enough (false = true) by done. apply Hb. split_and!; done || lia.
Qed.

(** ** One operation, and all sequences of them *)

Lemma remove_global_if_owner_spec n pid st :
  inv limits st →
  ∃ b st', remove_global_if_owner n pid st = Some (b, st') ∧ inv limits st' ∧
    (b, abs st') = if bool_decide (global_pid <$> global st !! n = Some pid)
                   then (true, mkA (local st) (delete n (global st))) else (false, abs st).
Proof.
  intros Hinv. unfold remove_global_if_owner.
  destruct (remove_scoped_registration_spec limits Hlimits Global n (Some pid) st Hinv)
    as (o & st' & -> & Hinv' & Ho); cbn [mbind option_bind].
  eexists _, st'. split_and!; [done|done|]. destruct o as [e|].
  - destruct Ho as (Hn & Hupd & Hp). simpl in Hn. rewrite Hn. simpl.
    rewrite (Hp pid eq_refl), !bool_decide_true by done. f_equal. unfold abs.
    destruct Hupd as [Hns _ _]. f_equal; apply map_eq; intros n'.
    + by rewrite (Hns Local).
    + rewrite (Hns Global), lookup_delete. repeat case_decide; naive_solver.
  - destruct Ho as [-> Hno]. rewrite !bool_decide_false; [done| |by intros []].
    intros (e & He & Hp)%fmap_Some_1. destruct (Hno e He) as (p & [= <-] & ?). done.
Qed.

Lemma inv_default : inv limits state_default.
Proof.
  destruct Hlimits as (_ & He & Hr). split; simpl; try lia.
  - intros pid s n. unfold names_of; simpl. rewrite lookup_empty. simpl. split; [set_solver|].
    intros (e & Hl & _). by destruct s; simpl in Hl; rewrite lookup_empty in Hl.
  - intros pid. by rewrite lookup_empty.
  - intros [] n e; simpl; by rewrite lookup_empty.
  - intros [] n e; simpl; by rewrite lookup_empty.
  - rewrite map_size_empty. lia.
  - by rewrite retained_of_empty.
Qed.

(** The conclusion for one operation. *)
Definition simulates (o : op) (st : RegistryState) : Prop :=
  ∃ out st', exec limits o st = Some (out, st') ∧ inv limits st' ∧
    ∃ out', a_exec limits o (abs st) = (out', abs st') ∧ out_equiv out out'.

Lemma registration_simulates o st :
  inv limits st →
  match o with
  | RegisterLocal _ _ _ | RegisterGlobal _ _ _ | ApplyGlobal _ _ _ | ReplaceGlobalSnapshot _ => True
  | _ => False
  end →
  simulates o st.
Proof.
  intros Hinv Ho. destruct o as [n pid now|n pid now|n pid at_ms| |es| | | | | |]; try done;
    unfold simulates, exec, a_exec, register_local, register_global.
  - pose proof (insert_local_if_absent_inv limits n pid now st Hinv).
    destruct (insert_local_if_absent limits n pid now st) as [r st'] eqn:Hi.
    apply (a_register_spec Local) in Hi; [|done]. rewrite Hi.
    exists (ODone r), st'. split_and!; [done|done|by eexists].
  - pose proof (register_global_untracked_inv limits n pid now st Hinv).
    destruct (register_global_untracked limits n pid now st) as [r st'] eqn:Hi.
    apply (a_register_spec Global) in Hi; [|done]. rewrite Hi.
    exists (ODone r), st'. split_and!; [done|done|by eexists].
  - pose proof (apply_global_inv limits n pid at_ms st Hinv).
    destruct (apply_global limits n pid at_ms st) as [r st'] eqn:Hi.
    apply apply_global_refines in Hi; [|done]. rewrite Hi.
    exists (ODone r), st'. split_and!; [done|done|by eexists].
  - pose proof (replace_global_snapshot_refines es st Hinv) as Href. unfold a_exec in Href.
    rewrite Href. destruct (replace_global_snapshot limits es st) as [r st'] eqn:Hi.
    pose proof (replace_global_snapshot_spec limits Hlimits es st r st' Hinv Hi).
    exists (OReplaced (is_ok r)), st'. split_and!; [done| |by eexists].
    destruct r; naive_solver.
Qed.

Lemma removal_simulates o st :
  inv limits st →
  match o with
  | Unregister _ | UnregisterProcess _ | RemoveLocalRegistrations _
  | RemoveNodeRegistrations _ => True
  | _ => False
  end →
  simulates o st.
Proof.
  intros Hinv Ho. destruct o as [| | | | |n|pid|pid|node| |]; try done;
    unfold simulates, exec, a_exec.
  - destruct (unregister_spec limits Hlimits n st Hinv) as (st' & -> & Hinv' & Hns).
    cbn [mbind option_bind]. do 2 eexists. split_and!; [done|done|]. eexists. split; [|done].
    f_equal. apply (abs_keep _ (fun _ n' _ => n' ≠ n)); [|done].
    intros. apply bool_decide_eq_true.
  - destruct (unregister_process_spec limits Hlimits pid st Hinv) as (l & st' & -> & Hinv' & Hns & Hrem).
    cbn [mbind option_bind]. do 2 eexists. split_and!; [done|done|]. eexists. split.
    + f_equal. apply (abs_keep _ (fun _ _ e => global_pid e ≠ pid)); [|done].
      intros. apply bool_decide_eq_true.
    + intros [n e]. rewrite Hrem, elem_of_a_removed. unfold keep_other_owners.
      setoid_rewrite bool_decide_eq_false. split; [naive_solver eauto using dec_stable|].
      intros (s & Hl & He). pose proof (inv_scope _ _ Hinv _ _ _ Hl) as ->.
      split; [done|]. by apply dec_stable.
  - destruct (remove_local_registrations_spec limits Hlimits pid st Hinv)
      as (l & st' & -> & Hinv' & Hns & Hrem).
    cbn [mbind option_bind]. do 2 eexists. split_and!; [done|done|]. eexists. split.
    + f_equal. apply (abs_keep _ (fun s _ e => ¬ (s = Local ∧ global_pid e = pid))); [|done].
      intros [] n e; unfold keep_not_local_of; rewrite orb_true_iff, !bool_decide_eq_true; naive_solver.
    + intros n. rewrite Hrem, elem_of_a_removed_names. unfold keep_not_local_of.
      setoid_rewrite orb_false_iff. setoid_rewrite bool_decide_eq_false. split.
      * intros (e & Hl & He). exists Local, e. naive_solver.
      * intros ([] & e & Hl & Hs & He); [|done]. exists e. split; [done|]. by apply dec_stable.
  - destruct (remove_node_registrations_spec limits Hlimits node st Hinv)
      as (l & st' & -> & Hinv' & Hns & Hrem).
    cbn [mbind option_bind]. do 2 eexists. split_and!; [done|done|]. eexists. split.
    + f_equal.
      apply (abs_keep _ (fun s _ e => ¬ (s = Global ∧ node_id (global_pid e) = node))); [|done].
      intros [] n e; unfold keep_not_global_on; rewrite orb_true_iff, !bool_decide_eq_true; naive_solver.
    + intros n. rewrite Hrem, elem_of_a_removed_names. unfold keep_not_global_on.
      setoid_rewrite orb_false_iff. setoid_rewrite bool_decide_eq_false. split.
      * intros (e & Hl & He). exists Global, e. naive_solver.
      * intros ([] & e & Hl & Hs & He); [done|]. exists e. split; [done|]. by apply dec_stable.
Qed.

Lemma exec_simulates o st : inv limits st → simulates o st.
Proof.
  intros Hinv. destruct o; try (by apply registration_simulates); try (by apply removal_simulates).
  - destruct (remove_global_if_owner_spec n pid st Hinv) as (b & st' & Heq & Hinv' & Habs).
    unfold simulates, exec, a_exec. rewrite Heq. cbn [mbind option_bind abs a_global a_local].
    do 2 eexists. split_and!; [done|done|]. exists (OFlag b).
    destruct (bool_decide _); apply pair_equal_spec in Habs as [-> Ha]; rewrite Ha; by split.
  - exists OUnit, state_default. split_and!; [done|apply inv_default|]. by exists OUnit.
  - exists (OEntry (lookup_name n st)), st. split_and!; [done|done|]. by eexists.
Qed.

Lemma run_simulates ops st :
  inv limits st →
  ∃ outs st', run limits ops st = Some (outs, st') ∧ inv limits st' ∧
    ∃ outs', a_run limits ops (abs st) = (outs', abs st') ∧ Forall2 out_equiv outs outs'.
Proof.
  revert st. induction ops as [|o ops IH]; intros st Hinv; cbn [run a_run].
  { by exists [], st; eauto. }
  destruct (exec_simulates o st Hinv) as (out & st1 & -> & Hinv1 & out' & -> & Hout).
  cbn [mbind option_bind].
  destruct (IH st1 Hinv1) as (outs & st2 & -> & Hinv2 & outs' & -> & Houts).
  cbn [mbind option_bind]. eauto 10.
Qed.
End refinement.

(** ** Transfer of the global namespace *)

Section transfer.
Context (limits : RegistryLimits) (Hlimits : limits_ok limits).

Lemma global_snapshot_permutation st :
  global_snapshot st ≡ₚ (fun '(n, e) => (n, global_pid e, registered_at e)) <$> map_to_list (global st).
Proof. apply merge_sort_Permutation. Qed.

Lemma snapshot_names_global st :
  snapshot_names (global_snapshot st) ≡ₚ (map_to_list (global st)).*1.
Proof.
  unfold snapshot_names. rewrite global_snapshot_permutation, <- !list_fmap_compose.
  apply (reflexive_eq (R := (≡ₚ))), list_fmap_ext. by intros ? [] _.
Qed.

Lemma snapshot_names_NoDup st : NoDup (snapshot_names (global_snapshot st)).
Proof. rewrite snapshot_names_global. apply NoDup_fst_map_to_list. Qed.

#[local] Instance weight_sum_proper : Proper ((≡ₚ) ==> (=)) weight_sum.
Proof.
  intros l k Hp. unfold weight_sum. induction Hp; simpl in *; lia.
Qed.

Lemma snapshot_map_global st : inv limits st → snapshot_map (global_snapshot st) = global st.
Proof.
  intros Hinv. apply map_eq. intros n. apply option_eq. intros e.
  rewrite snapshot_map_lookup, global_snapshot_permutation, list_elem_of_fmap
    by apply snapshot_names_NoDup. split.
  - intros [([n' e'] & [= -> Hp Ha] & Hl%elem_of_map_to_list) Hs].
    pose proof (inv_scope _ _ Hinv Global _ _ Hl) as Hs'. destruct e, e'; simpl in *; by subst.
  - intros Hl. split; [|exact (inv_scope _ _ Hinv Global _ _ Hl)].
    exists (n, e). split; [done|]. by apply elem_of_map_to_list.
Qed.

Lemma snapshot_acceptable src dst :
  inv limits src →
  Z.of_nat (size (local dst)) + Z.of_nat (size (global src)) <= max_entries limits →
  retained_of (local dst) + retained_of (global src) <= max_retained_bytes limits →
  a_acceptable limits (global_snapshot src) (abs dst) = true.
Proof.
  intros Hinv He Hr. unfold a_acceptable; simpl.
  rewrite !andb_true_iff, !Z.leb_le, bool_decide_eq_true, forallb_forall.
  split_and!.
  - intros n. rewrite <- list_elem_of_In, snapshot_names_global, list_elem_of_fmap.
    intros ([n' e] & -> & Hl%elem_of_map_to_list).
    apply validate_is_ok. exact (inv_names _ _ Hinv Global _ _ Hl).
  - apply snapshot_names_NoDup.
  - by rewrite global_snapshot_permutation, length_fmap, length_map_to_list.
  - by rewrite snapshot_names_global, <- retained_of_weight_sum.
Qed.

Lemma reachable_inv ops outs st : run limits ops state_default = Some (outs, st) → inv limits st.
Proof.
  intros Hrun. destruct (run_simulates limits Hlimits ops state_default)
    as (outs' & st' & Heq & Hinv & _); [by apply inv_default|]. by simplify_eq.
Qed.
End transfer.

(** ** Properties *)

(** C7. Every sequence of registry operations, started on an empty registry,
    runs without an accounting panic, keeps the forward and reverse indexes and
    the usage counters consistent, and returns what two plain maps under the
    configured limits would return (cleanup results up to order). *)
Theorem registry_refines_contract (limits : RegistryLimits) (ops : list op) :
  limits_ok limits →
  ∃ outs st, run limits ops state_default = Some (outs, st) ∧ inv limits st ∧
    ∃ outs', a_run limits ops (mkA ∅ ∅) = (outs', abs st) ∧ Forall2 out_equiv outs outs'.
Proof. intros Hlimits. by apply run_simulates, inv_default. Qed.

(** Cleanup of a dead or stale process cannot take a name away from its
    current owner: removal conditional on another owner changes nothing, and
    unregistering another process removes all of that process's names and
    keeps the entry. *)
Theorem stale_owner_cleanup_harmless (limits : RegistryLimits) (ops : list op)
    (outs : list output) (st : RegistryState) (n : ProcessName) (e : RegistryEntry)
    (stale : GlobalProcessId) :
  limits_ok limits → run limits ops state_default = Some (outs, st) →
  lookup_global n st = Some e → stale ≠ global_pid e →
  remove_global_if_owner n stale st = Some (false, st) ∧
  ∃ removed st', unregister_process stale st = Some (removed, st') ∧
    lookup_global n st' = Some e ∧ get_names stale st' = [] ∧
    ∀ s n' e', namespace s st' !! n' = Some e' → global_pid e' ≠ stale.
Proof.
  intros Hlimits Hinv%reachable_inv Hl Hne; [|done]. unfold lookup_global in *. split.
  - unfold remove_global_if_owner, remove_scoped_registration. simpl. rewrite Hl.
    by rewrite bool_decide_true by done.
  - destruct (unregister_process_spec limits Hlimits stale st Hinv)
      as (removed & st' & -> & Hinv' & Hns & _). exists removed, st'. split_and!; [done| | |].
    + by apply (Hns Global).
    + unfold get_names. rewrite (not_indexed_None limits stale st' Hinv'); [done|].
      intros s n' e' Hl'. by apply Hns in Hl' as [].
    + intros s n' e' Hl'. by apply Hns in Hl' as [].
Qed.

(** A node that installs the snapshot of another one ends with exactly the
    sender's global names and its own local ones, whenever the union fits its
    limits. *)
Theorem snapshot_transfer_exact (limits : RegistryLimits) (ops_src ops_dst : list op)
    (outs_src outs_dst : list output) (src dst : RegistryState) :
  limits_ok limits →
  run limits ops_src state_default = Some (outs_src, src) →
  run limits ops_dst state_default = Some (outs_dst, dst) →
  local_count dst + global_count src <= max_entries limits →
  retained_of (local dst) + retained_of (global src) <= max_retained_bytes limits →
  ∃ dst', replace_global_snapshot limits (global_snapshot src) dst = (Ok tt, dst') ∧
    inv limits dst' ∧ global dst' = global src ∧ local dst' = local dst.
Proof.
  intros Hlimits Hsrc%reachable_inv Hdst%reachable_inv He Hr; [|done..].
  pose proof (replace_global_snapshot_refines limits Hlimits (global_snapshot src) dst Hdst) as Href.
  cbn [a_exec] in Href. rewrite snapshot_acceptable in Href by done.
  destruct (replace_global_snapshot limits (global_snapshot src) dst) as [r dst'] eqn:Hrep.
  injection Href as Hok Hloc Hglob. destruct r as [[]|]; [|done].
  destruct (replace_global_snapshot_spec limits Hlimits _ dst _ dst' Hdst Hrep) as (Hinv' & _ & _).
  exists dst'. split_and!; try done. rewrite <- Hglob. simpl. by rewrite (snapshot_map_global limits).
Qed.

(** *** Witnesses *)

Definition pid_a : GlobalProcessId := mkGlobalProcessId 1 1 7.
Definition pid_b : GlobalProcessId := mkGlobalProcessId 2 1 9.

Definition sample_ops : list op :=
  [RegisterLocal [97] pid_a 5; RegisterGlobal [97; 98] pid_a 6;
   ApplyGlobal [97; 98] pid_b 7; RegisterGlobal [] pid_a 8].

Lemma default_limits_ok : limits_ok default_limits.
Proof. repeat split; vm_compute; congruence. Qed.

Lemma registry_refines_contract_witness :
  limits_ok default_limits ∧
  ∃ outs st, run default_limits sample_ops state_default = Some (outs, st) ∧
    inv default_limits st ∧ ∃ outs',
    a_run default_limits sample_ops (mkA ∅ ∅) = (outs', abs st) ∧ Forall2 out_equiv outs outs'.
Proof.
  split; [exact default_limits_ok|].
  apply (registry_refines_contract default_limits sample_ops default_limits_ok).
Defined.

Definition sample_state : RegistryState :=
  match run default_limits sample_ops state_default with
  | Some (_, st) => st
  | None => state_default
  end.

Definition sample_outs : list output :=
  match run default_limits sample_ops state_default with
  | Some (outs, _) => outs
  | None => []
  end.

Lemma sample_runs :
  run default_limits sample_ops state_default = Some (sample_outs, sample_state).
Proof. unfold sample_outs, sample_state. vm_compute. reflexivity. Qed.

Lemma stale_owner_cleanup_harmless_witness :
  lookup_global [97; 98] sample_state = Some (mkEntry pid_b Global 7) ∧
  remove_global_if_owner [97; 98] pid_a sample_state = Some (false, sample_state) ∧
  ∃ removed st', unregister_process pid_a sample_state = Some (removed, st') ∧
    lookup_global [97; 98] st' = Some (mkEntry pid_b Global 7) ∧ get_names pid_a st' = [] ∧
    ∀ s n' e', namespace s st' !! n' = Some e' → global_pid e' ≠ pid_a.
Proof.
  split; [vm_compute; reflexivity|].
  apply (stale_owner_cleanup_harmless default_limits sample_ops sample_outs sample_state
    [97; 98] (mkEntry pid_b Global 7) pid_a default_limits_ok sample_runs).
  - vm_compute. reflexivity.
  - vm_compute. congruence.
Defined.

Lemma snapshot_transfer_exact_witness :
  ∃ dst', replace_global_snapshot default_limits (global_snapshot sample_state) state_default
      = (Ok tt, dst') ∧
    inv default_limits dst' ∧ global dst' = global sample_state ∧ local dst' = ∅.
Proof.
  apply (snapshot_transfer_exact default_limits sample_ops [] sample_outs [] sample_state
    state_default default_limits_ok sample_runs eq_refl); vm_compute; congruence.
Defined.
