(* ===== verification/ModuleRegistry.v ===== *)
(** * [crates/lunatic-process/src/module_registry.rs]

    The versions of the modules that can be hot-reloaded: for each module a
    history of compiled versions with the processes that run each of them, a
    committed version, and a bounded retention policy; and the dependency graph
    that gives the order of a reload.

    The tables are [DashMap]s, a third-party concurrent map.  They are an
    arbitrary finite map [M] with the laws of [FinMap]; every operation of the
    registry holds the guard of one entry from its first read to its last
    write, so it is one step here.  A compiled module is an arbitrary type, and
    the clock is an argument. *)

From stdpp Require Import sorting.
From S2P Require Import Prelude.

(** ** Data *)

Record ProcessKey : Type := mkKey { environment_id : Z; process_id : Z }.

#[export] Instance ProcessKey_eq_dec : EqDecision ProcessKey.
Proof. solve_decision. Defined.

#[export] Instance ProcessKey_countable : Countable ProcessKey.
Proof.
  refine (inj_countable' (fun k => (environment_id k, process_id k))
    (fun p => mkKey p.1 p.2) _).
  by intros [].
Defined.

Record ModuleVersion (Module : Type) : Type := mkVersion {
  id : Z;
  version : Z;
  module : Module;
  loaded_at : Z;
  processes : gset ProcessKey;
}.
Arguments mkVersion {_} _ _ _ _ _.
Arguments id {_} _.
Arguments version {_} _.
Arguments module {_} _.
Arguments loaded_at {_} _.
Arguments processes {_} _.

Definition version_new {Module} (i ver : Z) (m : Module) (now : Z) : ModuleVersion Module :=
  mkVersion i ver m now ∅.

Definition get_process_count {Module} (v : ModuleVersion Module) : Z :=
  Z.of_nat (size (processes v)).

Definition set_processes {Module} (ps : gset ProcessKey) (v : ModuleVersion Module)
    : ModuleVersion Module :=
  mkVersion (id v) (version v) (module v) (loaded_at v) ps.

Record ModuleHistory (Module : Type) : Type := mkHistory {
  next_version : Z;
  committed_version : Z;
  versions : list (ModuleVersion Module);
}.
Arguments mkHistory {_} _ _ _.
Arguments next_version {_} _.
Arguments committed_version {_} _.
Arguments versions {_} _.

Record ModuleRegistry (M : Type → Type) (Module : Type) : Type := mkRegistry {
  modules : M (ModuleHistory Module);
  max_versions : nat;
  dependencies : M (list Z);
}.
Arguments mkRegistry {_ _} _ _ _.
Arguments modules {_ _} _.
Arguments max_versions {_ _} _.
Arguments dependencies {_ _} _.

Inductive RegistryError : Type :=
| VersionSpaceExhausted
| ModuleNotRegistered
| VersionNotRegistered
| ProcessAlreadyRegistered
| ProcessNotRegistered.

(** ** One module's history *)

Section history.
Context {Module : Type}.
Implicit Types (h : ModuleHistory Module) (v : ModuleVersion Module).

Definition has_version (ver : Z) v : bool := version v =? ver.

Definition find_version (ver : Z) h : option (ModuleVersion Module) :=
  List.find (has_version ver) (versions h).

(** [iter().position]: the index of the first version with the number. *)
Definition version_position (ver : Z) (vs : list (ModuleVersion Module)) : option nat :=
  position (has_version ver) vs.

(** The [retain] of [cleanup_old_versions], with its running [index]. *)
Fixpoint retain_from (keep_from committed : Z) (index : Z) (vs : list (ModuleVersion Module))
    : list (ModuleVersion Module) :=
  match vs with
  | [] => []
  | v :: vs =>
      let is_recent := keep_from <=? index in
      let rest := retain_from keep_from committed (index + 1) vs in
      if (version v =? committed) || bool_decide (processes v ≠ ∅) || is_recent
      then v :: rest else rest
  end.

(** [len.saturating_sub(max_versions)] *)
Definition saturating_sub (a b : Z) : Z := Z.max 0 (a - b).

Definition cleanup_old_versions (max : nat) h : ModuleHistory Module :=
  let keep_from := saturating_sub (Z.of_nat (length (versions h))) (Z.of_nat max) in
  mkHistory (next_version h) (committed_version h)
    (retain_from keep_from (committed_version h) 0 (versions h)).

Definition push_version (i : Z) (m : Module) (now : Z) (max : nat) h
    : result Z RegistryError * ModuleHistory Module :=
  let ver := next_version h in
  match checked_add u32_max ver 1 with
  | None => (Err VersionSpaceExhausted, h)
  | Some next =>
      let is_initial_version := bool_decide (versions h = []) in
      let h := mkHistory next (if is_initial_version then ver else committed_version h)
                 (versions h ++ [version_new i ver m now]) in
      let h := if Z.of_nat max <? Z.of_nat (length (versions h))
               then cleanup_old_versions max h else h in
      (Ok ver, h)
  end.

Definition commit (ver : Z) (max : nat) h : result unit RegistryError * ModuleHistory Module :=
  if existsb (has_version ver) (versions h)
  then (Ok tt, cleanup_old_versions max (mkHistory (next_version h) ver (versions h)))
  else (Err VersionNotRegistered, h).

(** Mutation of the version at an index. *)
Definition update_at (i : nat) (f : gset ProcessKey → gset ProcessKey) h : ModuleHistory Module :=
  mkHistory (next_version h) (committed_version h)
    (alter (fun v => set_processes (f (processes v)) v) i (versions h)).

Definition contains (p : ProcessKey) (i : nat) h : bool :=
  match versions h !! i with
  | Some v => bool_decide (p ∈ processes v)
  | None => false
  end.

Definition enroll (ver : Z) (p : ProcessKey) h : result unit RegistryError * ModuleHistory Module :=
  if existsb (fun v => bool_decide (p ∈ processes v)) (versions h)
  then (Err ProcessAlreadyRegistered, h)
  else match version_position ver (versions h) with
       | None => (Err VersionNotRegistered, h)
       | Some i => (Ok tt, update_at i (fun ps => {[p]} ∪ ps) h)
       end.

Definition transition (old_version new_version : Z) (p : ProcessKey) (max : nat) h
    : result unit RegistryError * ModuleHistory Module :=
  match version_position old_version (versions h) with
  | None => (Err VersionNotRegistered, h)
  | Some old_index =>
      if negb (contains p old_index h) then (Err ProcessNotRegistered, h)
      else if old_version =? new_version then (Ok tt, h)
      else match version_position new_version (versions h) with
           | None => (Err VersionNotRegistered, h)
           | Some new_index =>
               if contains p new_index h then (Err ProcessAlreadyRegistered, h)
               else
                 let h := update_at old_index (fun ps => ps ∖ {[p]}) h in
                 let h := update_at new_index (fun ps => {[p]} ∪ ps) h in
                 (Ok tt, cleanup_old_versions max h)
           end
  end.

Definition withdraw (ver : Z) (p : ProcessKey) (max : nat) h
    : result unit RegistryError * ModuleHistory Module :=
  match version_position ver (versions h) with
  | None => (Err VersionNotRegistered, h)
  | Some i =>
      let removed := contains p i h in
      let h := update_at i (fun ps => ps ∖ {[p]}) h in
      if removed then (Ok tt, cleanup_old_versions max h) else (Err ProcessNotRegistered, h)
  end.
End history.

(** ** The registry *)

(** A fold that threads a state through fallible steps. *)
Fixpoint fold_opt {A B} (f : A → B → option B) (l : list A) (b : B) : option B :=
  match l with
  | [] => Some b
  | a :: l => f a b ≫= fold_opt f l
  end.

Section registry.
Context {M : Type → Type} `{FinMap Z M} {Module : Type}.
Implicit Types (r : ModuleRegistry M Module).

(** [modules.get(&id)] *)
Definition history (i : Z) r : option (ModuleHistory Module) := modules r !! i.

Definition new : ModuleRegistry M Module := mkRegistry ∅ 2 ∅.

Definition with_max_versions (max : nat) : ModuleRegistry M Module :=
  mkRegistry ∅ (Nat.max max 2) ∅.

Definition set_history (i : Z) (h : ModuleHistory Module) r : ModuleRegistry M Module :=
  mkRegistry (<[i := h]> (modules r)) (max_versions r) (dependencies r).

Definition add_version (i : Z) (m : Module) (now : Z) r
    : result Z RegistryError * ModuleRegistry M Module :=
  let entry := default (mkHistory 0 0 []) (history i r) in
  let '(res, h) := push_version i m now (max_versions r) entry in
  (res, set_history i h r).

Definition get_latest (i : Z) r : option Module :=
  h ← history i r; module <$> list.last (versions h).

Definition get_version (i ver : Z) r : option Module :=
  h ← history i r; module <$> find_version ver h.

Definition get_latest_version_number (i : Z) r : option Z :=
  h ← history i r; version <$> list.last (versions h).

Definition get_committed_version_number (i : Z) r : option Z :=
  committed_version <$> history i r.

Definition get_committed (i : Z) r : option Module :=
  h ← history i r; module <$> find_version (committed_version h) h.

(** [get_mut(&id).ok_or_else(..)?] and an operation on the history. *)
Definition on_history (i : Z)
    (f : ModuleHistory Module → result unit RegistryError * ModuleHistory Module) r
    : result unit RegistryError * ModuleRegistry M Module :=
  match history i r with
  | None => (Err ModuleNotRegistered, r)
  | Some h => let '(res, h) := f h in (res, set_history i h r)
  end.

Definition mark_committed (i ver : Z) r : result unit RegistryError * ModuleRegistry M Module :=
  on_history i (commit ver (max_versions r)) r.

Definition version_count (i : Z) r : Z :=
  default 0 ((fun h => Z.of_nat (length (versions h))) <$> history i r).

Definition process_count (i ver : Z) r : option Z :=
  h ← history i r; get_process_count <$> find_version ver h.

Definition register_process (i ver : Z) (p : ProcessKey) r
    : result unit RegistryError * ModuleRegistry M Module :=
  on_history i (enroll ver p) r.

Definition transition_process (i old_version new_version : Z) (p : ProcessKey) r
    : result unit RegistryError * ModuleRegistry M Module :=
  on_history i (transition old_version new_version p (max_versions r)) r.

Definition unregister_process (i ver : Z) (p : ProcessKey) r
    : result unit RegistryError * ModuleRegistry M Module :=
  on_history i (withdraw ver p (max_versions r)) r.

Definition processes_for_module (i env : Z) r : list Z :=
  match history i r with
  | None => []
  | Some h =>
      dedup (merge_sort Z.le (process_id <$>
        filter (fun p => environment_id p = env)
          (versions h ≫= (fun v => elements (processes v)))))
  end.

(** ** Dependencies *)

Definition get_dependents (m : Z) r : list Z := default [] (dependencies r !! m).

Definition add_dependency (dependent dependency : Z) r : ModuleRegistry M Module :=
  let deps := get_dependents dependency r in
  let deps := if bool_decide (dependent ∈ deps) then deps else deps ++ [dependent] in
  mkRegistry (modules r) (max_versions r) (<[dependency := deps]> (dependencies r)).

(** [visit_module], with [order] and [visited]; the depth of the recursion is
    bounded by [fuel]. *)
Fixpoint visit_module (deps : Z → list Z) (fuel : nat) (m : Z) (st : list Z * gset Z)
    : option (list Z * gset Z) :=
  match fuel with
  | O => None
  | S fuel =>
      let '(order, visited) := st in
      if bool_decide (m ∈ visited) then Some (order, visited)
      else
        '(order, visited) ← fold_opt (visit_module deps fuel) (deps m) (order, {[m]} ∪ visited);
        Some (order ++ [m], visited)
  end.

(** All the modules the graph mentions. *)
Definition graph_nodes r : gset Z :=
  map_fold (fun m deps acc => {[m]} ∪ list_to_set deps ∪ acc) ∅ (dependencies r).

Definition reload_fuel r : nat := S (S (size (graph_nodes r))).

Definition get_reload_order (m : Z) r : option (list Z) :=
  fst <$> visit_module (fun m => get_dependents m r) (reload_fuel r) m ([], ∅).
End registry.

Arguments new {_ _ _} : assert.

(** ** Depth-first search *)

Section search.
Context (deps : Z → list Z).

Definition depends (m d : Z) : Prop := d ∈ deps m.

(** What a search that starts with [visited] adds for the roots [ds]: [fresh],
    in the order of completion. *)
Record searched (ds : list Z) (visited visited' : gset Z) (fresh : list Z) : Prop := {
  sr_visited : visited' = visited ∪ list_to_set fresh;
  sr_nodup : NoDup fresh;
  sr_fresh x : x ∈ fresh → x ∉ visited;
  sr_roots d : d ∈ ds → d ∈ visited';
  sr_reach x : x ∈ fresh → ∃ d, d ∈ ds ∧ rtc depends d x;
  sr_closed x d : x ∈ fresh → d ∈ deps x → d ∈ visited';
  sr_order l1 x l2 d : fresh = l1 ++ x :: l2 → d ∈ deps x →
    d ∈ visited ∨ d ∈ l1 ∨ rtc depends d x;
}.

Lemma searched_nil visited : searched [] visited visited [].
Proof. split; try set_solver. - constructor. - intros [|??] ? ? ?; done. Qed.

Lemma split_app {A} (l1 l2 f1 f2 : list A) x :
  f1 ++ f2 = l1 ++ x :: l2 →
  (∃ k, f1 = l1 ++ x :: k) ∨ (∃ k, l1 = f1 ++ k ∧ f2 = k ++ x :: l2).
Proof.
  revert l1. induction f1 as [|a f1 IH]; intros l1 Heq; [right; by exists l1|].
  destruct l1 as [|b l1]; injection Heq as -> Heq; [left; by exists f1|].
  destruct (IH l1 Heq) as [[k ->]|(k & -> & ->)]; eauto.
Qed.

Lemma searched_cons d ds v v1 v2 f1 f2 :
  searched [d] v v1 f1 → searched ds v1 v2 f2 → searched (d :: ds) v v2 (f1 ++ f2).
Proof.
  intros [-> Hn1 Hf1 Hr1 Hre1 Hc1 Ho1] [-> Hn2 Hf2 Hr2 Hre2 Hc2 Ho2]. split.
  - rewrite list_to_set_app_L. set_solver.
  - apply list.NoDup_app. split_and!; [done| |done]. set_solver.
  - set_solver.
  - set_solver.
  - intros x [Hx|Hx]%elem_of_app; [naive_solver set_solver|].
    destruct (Hre2 x Hx) as (d' & ? & ?). exists d'. set_solver.
  - set_solver.
  - intros l1 x l2 d' Heq Hd. apply split_app in Heq as [[k ->]|(k & -> & ->)].
    + by eapply Ho1.
    + destruct (Ho2 _ _ _ d' eq_refl Hd) as [Hv|[Hk|Hre]]; [|set_solver|by eauto].
      set_solver.
Qed.

(** Visiting an unvisited module after its dependents. *)
Lemma searched_visit m v v' f :
  m ∉ v → searched (deps m) ({[m]} ∪ v) v' f → searched [m] v v' (f ++ [m]).
Proof.
  intros Hm [-> Hn Hf Hr Hre Hc Ho]. split.
  - rewrite list_to_set_app_L. simpl. set_solver.
  - apply list.NoDup_app. split_and!; [done| |apply NoDup_singleton]. set_solver.
  - set_solver.
  - set_solver.
  - intros x [Hx|Hx]%elem_of_app; exists m; (split; [set_solver|]).
    + destruct (Hre x Hx) as (d & Hd & Hreach). by eapply rtc_l.
    + apply list_elem_of_singleton in Hx as ->. done.
  - intros x d Hx Hd. set_solver.
  - intros l1 x l2 d Heq Hd. apply split_app in Heq as [[k ->]|(k & -> & Heq)].
    + destruct (Ho _ _ _ d eq_refl Hd) as [[->%elem_of_singleton|Hv]%elem_of_union|[Hk|Hx]]; eauto.
      right; right. destruct (Hre x) as (d' & Hd' & Hreach); [set_solver|]. by eapply rtc_l.
    + destruct k as [|y k]; simplify_eq/=; [|by destruct k].
      specialize (Hr d Hd). apply elem_of_union in Hr as [[->%elem_of_singleton|]%elem_of_union|];
        [by right; right|by left|]. right; left. set_solver.
Qed.

(** Enough fuel: one more than the nodes not yet visited. *)
Lemma visit_module_searched (U : gset Z) fuel m order visited :
  (∀ x d, x ∈ U → d ∈ deps x → d ∈ U) → m ∈ U →
  (size (U ∖ visited) < fuel)%nat →
  ∃ fresh visited', visit_module deps fuel m (order, visited) = Some (order ++ fresh, visited') ∧
    searched [m] visited visited' fresh.
Proof.
  intros HU. revert m order visited.
  induction fuel as [|fuel IH]; intros m order visited Hm Hfuel; [lia|]. cbn [visit_module].
  case_bool_decide as Hv.
  { exists [], visited. rewrite app_nil_r. split; [done|].
    destruct (searched_nil visited). split; set_solver. }
  assert (size (U ∖ ({[m]} ∪ visited)) < fuel)%nat as Hlt.
  { assert (U ∖ ({[m]} ∪ visited) ⊂ U ∖ visited) as Hsub by set_solver.
    apply subset_size in Hsub. lia. }
  assert (∀ ds order visited, (∀ d, d ∈ ds → d ∈ U) → (size (U ∖ visited) < fuel)%nat →
    ∃ fresh visited', fold_opt (visit_module deps fuel) ds (order, visited)
      = Some (order ++ fresh, visited') ∧ searched ds visited visited' fresh) as Hfold.
  { clear m order visited Hm Hfuel Hv Hlt. intros ds. induction ds as [|d ds IHds];
      intros order visited Hds Hf; cbn [fold_opt].
    { exists [], visited. rewrite app_nil_r. split; [done|apply searched_nil]. }
    destruct (IH d order visited) as (f1 & v1 & -> & Hs1); [set_solver|done|]. cbn [mbind option_bind].
    destruct (IHds (order ++ f1) v1) as (f2 & v2 & -> & Hs2); [set_solver| |].
    { rewrite (sr_visited _ _ _ _ Hs1).
      assert (U ∖ (visited ∪ list_to_set f1) ⊆ U ∖ visited) as Hsub by set_solver.
      apply subseteq_size in Hsub. lia. }
    exists (f1 ++ f2), v2. rewrite app_assoc. split; [done|]. by eapply searched_cons. }
  destruct (Hfold (deps m) order ({[m]} ∪ visited)) as (f & v' & -> & Hs); [set_solver|done|].
  cbn [mbind option_bind]. exists (f ++ [m]), v'. rewrite app_assoc. split; [done|].
  by apply searched_visit.
Qed.
End search.

(** ** Histories *)

Section history_facts.
Context {Module : Type}.
Implicit Types (h : ModuleHistory Module) (v : ModuleVersion Module).

(** The process runs that version; the version is registered. *)
Definition runs h (p : ProcessKey) (ver : Z) : Prop :=
  ∃ v, v ∈ versions h ∧ version v = ver ∧ p ∈ processes v.

Definition live h (ver : Z) : Prop := ver ∈ version <$> versions h.

(** Versions are numbered in the order they were added and below the next
    number, the committed one is there, and a process runs at most one of
    them. *)
Record coherent (i : Z) h : Prop := {
  ch_sorted : StronglySorted Z.lt (version <$> versions h);
  ch_range v : v ∈ versions h → 0 <= version v < next_version h ∧ id v = i;
  ch_next : 0 <= next_version h <= u32_max;
  ch_committed : live h (committed_version h);
  ch_runs p a b : runs h p a → runs h p b → a = b;
}.

(** A version outside the retention window is committed or in use. *)
Definition retention (max : nat) h : Prop :=
  ∀ k v, versions h !! k = Some v →
    version v = committed_version h ∨ processes v ≠ ∅ ∨ (length (versions h) <= k + max)%nat.

Definition wf_history (max : nat) (i : Z) h : Prop := coherent i h ∧ retention max h.

Definition in_use (c : Z) v : Prop := version v = c ∨ processes v ≠ ∅.

#[local] Instance in_use_dec c v : Decision (in_use c v).
Proof. unfold in_use. apply _. Defined.

Lemma retain_from_split kf c idx (vs : list (ModuleVersion Module)) :
  retain_from kf c idx vs =
    filter (in_use c) (take (Z.to_nat (kf - idx)) vs) ++ drop (Z.to_nat (kf - idx)) vs.
Proof.
  revert idx. induction vs as [|v vs IH]; intros idx; [by rewrite take_nil, drop_nil|].
  cbn [retain_from]. rewrite IH.
  destruct (kf <=? idx) eqn:Hkf; bool_to_prop.
  - rewrite orb_true_r. replace (Z.to_nat (kf - (idx + 1))) with 0%nat by lia.
    replace (Z.to_nat (kf - idx)) with 0%nat by lia. by rewrite !take_0, !drop_0.
  - replace (Z.to_nat (kf - idx)) with (S (Z.to_nat (kf - (idx + 1)))) by lia.
    cbn [take drop]. rewrite orb_false_r, filter_cons. unfold in_use at 1.
    destruct (decide (in_use c v)) as [Hu|Hu]; unfold in_use in Hu.
    + by rewrite (proj2 (orb_true_iff _ _))
        by (destruct Hu as [Hu|Hu]; [left; by apply Z.eqb_eq|right; by apply bool_decide_eq_true]).
    + by rewrite (proj2 (orb_false_iff _ _))
        by (split; [apply Z.eqb_neq; tauto|apply bool_decide_eq_false; tauto]).
Qed.

Definition cutoff (max : nat) h : nat := (length (versions h) - max)%nat.

Lemma cleanup_split max h :
  versions (cleanup_old_versions max h) =
    filter (in_use (committed_version h)) (take (cutoff max h) (versions h)) ++
    drop (cutoff max h) (versions h).
Proof.
  unfold cleanup_old_versions, cutoff; simpl. rewrite retain_from_split. unfold saturating_sub.
  by replace (Z.to_nat (Z.max 0 _ - 0)) with (length (versions h) - max)%nat by lia.
Qed.

Lemma cleanup_sublist max h :
  versions (cleanup_old_versions max h) `sublist_of` versions h.
Proof.
  rewrite cleanup_split. rewrite <- (take_drop (cutoff max h) (versions h)) at 3.
  apply sublist_app; [|done]. apply sublist_filter.
Qed.

Lemma cleanup_elem max h v :
  v ∈ versions (cleanup_old_versions max h) → v ∈ versions h.
Proof. intros Hv. eapply elem_of_sublist; [apply Hv|apply cleanup_sublist]. Qed.

Lemma cleanup_keeps max h v :
  v ∈ versions h → in_use (committed_version h) v → v ∈ versions (cleanup_old_versions max h).
Proof.
  rewrite cleanup_split. rewrite <- (take_drop (cutoff max h) (versions h)) at 1.
  rewrite !elem_of_app, list_elem_of_filter. tauto.
Qed.

Lemma StronglySorted_sublist {A} (R : relation A) l k :
  l `sublist_of` k → StronglySorted R k → StronglySorted R l.
Proof.
  induction 1 as [|x l k Hlk IH|x l k Hlk IH]; intros Hs; [constructor| |].
  - apply StronglySorted_inv in Hs as [Hs Hx]. constructor; [by apply IH|].
    rewrite list.Forall_forall in *. intros y Hy. apply Hx. by eapply elem_of_sublist.
  - apply StronglySorted_inv in Hs as [Hs _]. by apply IH.
Qed.

Lemma fmap_sublist {A B} (f : A → B) l k : l `sublist_of` k → f <$> l `sublist_of` f <$> k.
Proof. induction 1; csimpl; by constructor. Qed.

Lemma cleanup_runs max h p ver : runs (cleanup_old_versions max h) p ver ↔ runs h p ver.
Proof.
  split; intros (v & Hv & Hver & Hp); exists v; split_and!; try done.
  - by eapply cleanup_elem.
  - apply cleanup_keeps; [done|]. right. set_solver.
Qed.

Lemma elem_of_live h ver : live h ver ↔ ∃ v, v ∈ versions h ∧ version v = ver.
Proof. unfold live. rewrite list_elem_of_fmap. naive_solver. Qed.

Lemma cleanup_live_committed max h :
  live h (committed_version h) → live (cleanup_old_versions max h) (committed_version h).
Proof.
  rewrite !elem_of_live. intros (v & Hv & Hver). exists v. split; [|done].
  apply cleanup_keeps; [done|]. by left.
Qed.

Lemma cleanup_coherent max i h : coherent i h → coherent i (cleanup_old_versions max h).
Proof.
  intros [Hs Hr Hn Hc Hruns]. split; try done.
  - eapply StronglySorted_sublist; [|done]. apply fmap_sublist, cleanup_sublist.
  - intros v Hv. apply Hr. by eapply cleanup_elem.
  - exact (cleanup_live_committed max h Hc).
  - intros p a b. rewrite !cleanup_runs. apply Hruns.
Qed.

Lemma cleanup_retention max h : retention max (cleanup_old_versions max h).
Proof.
  intros k v. rewrite cleanup_split, length_app, length_drop. intros Hk.
  apply lookup_app_Some in Hk as [Hk|[Hk _]].
  - apply list_elem_of_lookup_2, list_elem_of_filter in Hk as [[?|?] _]; [by left|by right; left].
  - right; right. unfold cutoff in *. lia.
Qed.

Lemma cleanup_wf max i h : coherent i h → wf_history max i (cleanup_old_versions max h).
Proof. split; [by apply cleanup_coherent|apply cleanup_retention]. Qed.

(** *** Finding a version *)

Lemma version_position_Some ver (vs : list (ModuleVersion Module)) k :
  version_position ver vs = Some k → ∃ v, vs !! k = Some v ∧ version v = ver.
Proof. intros (v & Hk & Hv & _)%position_Some. exists v. split; [done|]. by apply Z.eqb_eq. Qed.

Lemma version_position_None ver h : version_position ver (versions h) = None ↔ ¬ live h ver.
Proof.
  unfold version_position. rewrite position_None, list.Forall_forall, elem_of_live.
  unfold has_version. setoid_rewrite Z.eqb_neq. naive_solver.
Qed.

Lemma version_unique i h v w :
  coherent i h → v ∈ versions h → w ∈ versions h → version v = version w → v = w.
Proof.
  intros [Hs _ _ _ _] Hv Hw Heq. induction (versions h) as [|x vs IH]; [by apply not_elem_of_nil in Hv|].
  csimpl in *. apply StronglySorted_inv in Hs as [Hs Hx]. rewrite list.Forall_forall in Hx.
  assert (∀ y, y ∈ vs → version x < version y) as Hlt.
  { intros y Hy. apply Hx. by apply list_elem_of_fmap_2. }
  apply elem_of_cons in Hv as [->|Hv]; apply elem_of_cons in Hw as [->|Hw]; auto.
  - specialize (Hlt w Hw). lia.
  - specialize (Hlt v Hv). lia.
Qed.

Lemma find_version_Some i h v :
  coherent i h → v ∈ versions h → find_version (version v) h = Some v.
Proof.
  intros Hc Hv. unfold find_version. destruct (List.find _ _) as [w|] eqn:Hf.
  - apply List.find_some in Hf as [Hw Heq]. apply list_elem_of_In in Hw. f_equal.
    unfold has_version in Heq. bool_to_prop. by apply (version_unique i h).
  - apply list_elem_of_In in Hv. apply (List.find_none _ _ Hf) in Hv.
    unfold has_version in Hv. bool_to_prop. lia.
Qed.

(** *** Changing the processes of one version *)

Lemma alter_fmap {A B} (g : A → A) (f : A → B) k (l : list A) :
  (∀ x, f (g x) = f x) → f <$> alter g k l = f <$> l.
Proof.
  intros Hfg. revert k. induction l as [|x l IH]; intros [|k]; csimpl; try done.
  - by rewrite Hfg.
  - f_equal. apply IH.
Qed.

Lemma update_at_live k f h ver : live (update_at k f h) ver ↔ live h ver.
Proof. unfold live, update_at; simpl. by rewrite alter_fmap. Qed.

Lemma update_at_lookup k f h j :
  versions (update_at k f h) !! j =
    if decide (j = k) then (fun v => set_processes (f (processes v)) v) <$> versions h !! j
    else versions h !! j.
Proof.
  unfold update_at; simpl. case_decide; subst.
  - by rewrite list_lookup_alter_eq.
  - by rewrite list_lookup_alter_ne.
Qed.

Lemma update_at_runs i k f h v q w :
  coherent i h → versions h !! k = Some v →
  runs (update_at k f h) q w ↔ if decide (w = version v) then q ∈ f (processes v) else runs h q w.
Proof.
  intros Hc Hk. unfold runs. setoid_rewrite list_elem_of_lookup.
  setoid_rewrite update_at_lookup. split.
  - intros (u & [j Hj] & <- & Hq). destruct (decide (j = k)) as [->|Hjk].
    + rewrite Hk in Hj. simplify_eq/=. by rewrite decide_True.
    + case_decide as Heq; [|exists u; split_and!; by eauto using list_elem_of_lookup_2].
      assert (u = v) as -> by (apply (version_unique i h); eauto using list_elem_of_lookup_2).
      exfalso. apply Hjk. pose proof (ch_sorted _ _ Hc) as Hs.
      assert (NoDup (version <$> versions h)) as Hnd.
      { clear -Hs. induction Hs as [|x l Hs IH Hx]; constructor; [|done].
        intros Hin. rewrite list.Forall_forall in Hx. specialize (Hx x Hin). lia. }
      eapply (NoDup_lookup _ j k (version v) Hnd); rewrite list_lookup_fmap; [by rewrite Hj|by rewrite Hk].
  - case_decide as Heq; [subst w|].
    + intros Hq. exists (set_processes (f (processes v)) v). split_and!; try done.
      exists k. by rewrite decide_True, Hk by done.
    + intros (u & [j Hj]%list_elem_of_lookup & <- & Hq). exists u. split_and!; try done. exists j.
      rewrite decide_False; [done|]. intros ->. congruence.
Qed.

Lemma update_at_coherent i k f h :
  coherent i h →
  (∀ p a b, runs (update_at k f h) p a → runs (update_at k f h) p b → a = b) →
  coherent i (update_at k f h).
Proof.
  intros [Hs Hr Hn Hc _] Hruns. split; try done.
  - unfold update_at; simpl. by rewrite alter_fmap.
  - intros v [j Hj]%list_elem_of_lookup. rewrite update_at_lookup in Hj. case_decide.
    + destruct (versions h !! j) as [u|] eqn:Hu; simplify_eq/=.
      apply Hr. by eapply list_elem_of_lookup_2.
    + apply Hr. by eapply list_elem_of_lookup_2.
  - by apply update_at_live.
Qed.

(** Adding a process keeps the retention policy. *)
Lemma update_at_retention max k p h :
  retention max h → retention max (update_at k (fun ps => {[p]} ∪ ps) h).
Proof.
  intros Hret j v. rewrite update_at_lookup. case_decide; subst.
  - destruct (versions h !! k) as [u|]; [|done]. intros [= <-]. right; left. simpl. set_solver.
  - unfold update_at; simpl. rewrite length_alter. apply Hret.
Qed.

Lemma update_at_id k f h v :
  versions h !! k = Some v → f (processes v) = processes v → update_at k f h = h.
Proof.
  intros Hk Hf. assert (versions (update_at k f h) = versions h) as Heq.
  { apply list_eq. intros j. rewrite update_at_lookup. case_decide; [subst j|done].
    rewrite Hk. simpl. rewrite Hf. by destruct v. }
  destruct h. unfold update_at in *. simpl in *. by rewrite Heq.
Qed.

Lemma contains_runs i p ver k h v :
  coherent i h → versions h !! k = Some v → version v = ver →
  contains p k h = true ↔ runs h p ver.
Proof.
  intros Hc Hk <-. unfold contains. rewrite Hk, bool_decide_eq_true. split.
  - intros Hp. exists v. eauto using list_elem_of_lookup_2.
  - intros (u & Hu & Heq & Hp).
    assert (u = v) as -> by (apply (version_unique i h); eauto using list_elem_of_lookup_2). done.
Qed.

(** *** The operations *)

Lemma registered_anywhere p h :
  existsb (fun v => bool_decide (p ∈ processes v)) (versions h) = true ↔ ∃ ver, runs h p ver.
Proof.
  rewrite existsb_exists. setoid_rewrite bool_decide_eq_true. setoid_rewrite <- list_elem_of_In.
  unfold runs. naive_solver.
Qed.

Lemma has_version_live ver h : existsb (has_version ver) (versions h) = true ↔ live h ver.
Proof.
  rewrite existsb_exists, elem_of_live. unfold has_version. setoid_rewrite Z.eqb_eq.
  by setoid_rewrite list_elem_of_In.
Qed.

Lemma position_live ver h k : version_position ver (versions h) = Some k → live h ver.
Proof.
  intros (v & Hk & <-)%version_position_Some. apply elem_of_live. eauto using list_elem_of_lookup_2.
Qed.

(** Adding a process that runs nothing, and removing one. *)
Lemma insert_at_spec i k v p h :
  coherent i h → versions h !! k = Some v → (∀ w, ¬ runs h p w) →
  coherent i (update_at k (fun ps => {[p]} ∪ ps) h) ∧
  ∀ q w, runs (update_at k (fun ps => {[p]} ∪ ps) h) q w ↔
    runs h q w ∨ (q = p ∧ w = version v).
Proof.
  intros Hc Hk Hfree.
  assert (∀ q w, runs (update_at k (fun ps => {[p]} ∪ ps) h) q w ↔
    runs h q w ∨ (q = p ∧ w = version v)) as Hruns.
  { intros q w. rewrite (update_at_runs i k _ h v) by done. case_decide as Hw; [|naive_solver].
    rewrite <- (contains_runs i q w k h v) by done. unfold contains.
    rewrite Hk, bool_decide_eq_true. set_solver. }
  split; [|done]. apply update_at_coherent; [done|]. intros q a b. rewrite !Hruns.
  pose proof (ch_runs _ _ Hc q a b). naive_solver.
Qed.

Lemma remove_at_spec i k v p h :
  coherent i h → versions h !! k = Some v → p ∈ processes v →
  coherent i (update_at k (fun ps => ps ∖ {[p]}) h) ∧
  ∀ q w, runs (update_at k (fun ps => ps ∖ {[p]}) h) q w ↔ runs h q w ∧ q ≠ p.
Proof.
  intros Hc Hk Hp.
  assert (∀ q w, runs (update_at k (fun ps => ps ∖ {[p]}) h) q w ↔ runs h q w ∧ q ≠ p) as Hruns.
  { intros q w. rewrite (update_at_runs i k _ h v) by done. case_decide as Hw.
    - rewrite <- (contains_runs i q w k h v) by done. unfold contains.
      rewrite Hk, bool_decide_eq_true. set_solver.
    - split; [|naive_solver]. intros Hq. split; [done|]. intros ->. apply Hw.
      apply (ch_runs _ _ Hc p); [done|]. exists v. eauto using list_elem_of_lookup_2. }
  split; [|done]. apply update_at_coherent; [done|]. intros q a b. rewrite !Hruns.
  pose proof (ch_runs _ _ Hc q a b). naive_solver.
Qed.

Lemma contains_true p k h : contains p k h = true ↔ ∃ v, versions h !! k = Some v ∧ p ∈ processes v.
Proof.
  unfold contains. destruct (versions h !! k) as [v|]; [rewrite bool_decide_eq_true|]; naive_solver.
Qed.

Lemma enroll_spec max i ver p h res h' :
  wf_history max i h → enroll ver p h = (res, h') →
  wf_history max i h' ∧ committed_version h' = committed_version h ∧
  match res with
  | Ok _ => live h ver ∧ (∀ w, ¬ runs h p w) ∧
      ∀ q w, runs h' q w ↔ runs h q w ∨ (q = p ∧ w = ver)
  | Err e => h' = h ∧ ((∃ w, runs h p w) ∨ ¬ live h ver)
  end.
Proof.
  intros [Hc Hret]. unfold enroll.
  destruct (existsb _ (versions h)) eqn:Hany.
  { intros [= <- <-]. apply registered_anywhere in Hany. split; [by split|]. auto. }
  assert (∀ w, ¬ runs h p w) as Hfree.
  { intros w Hw. apply not_true_iff_false in Hany. apply Hany, registered_anywhere. eauto. }
  destruct (version_position ver (versions h)) as [k|] eqn:Hpos; intros [= <- <-].
  2: { apply version_position_None in Hpos. split; [by split|]. auto. }
  destruct (version_position_Some _ _ _ Hpos) as (v & Hk & <-).
  destruct (insert_at_spec i k v p h Hc Hk Hfree) as [Hc' Hruns].
  split_and!; try done; [split; [done|]|by eapply position_live].
  by apply update_at_retention.
Qed.

Lemma withdraw_spec max i ver p h res h' :
  wf_history max i h → withdraw ver p max h = (res, h') →
  wf_history max i h' ∧ committed_version h' = committed_version h ∧
  match res with
  | Ok _ => runs h p ver ∧ ∀ q w, runs h' q w ↔ runs h q w ∧ q ≠ p
  | Err e => h' = h ∧ ¬ runs h p ver
  end.
Proof.
  intros [Hc Hret]. unfold withdraw.
  destruct (version_position ver (versions h)) as [k|] eqn:Hpos.
  2: { intros [= <- <-]. apply version_position_None in Hpos. split_and!; try done.
       intros (v & Hv & Hver & _). apply Hpos, elem_of_live. eauto. }
  destruct (version_position_Some _ _ _ Hpos) as (v & Hk & <-).
  pose proof (contains_runs i p _ k h v Hc Hk eq_refl) as Hcont.
  destruct (contains p k h) eqn:Hp; intros [= <- <-].
  - apply contains_true in Hp as (v' & ? & Hp); simplify_eq.
    destruct (remove_at_spec i k v p h Hc Hk Hp) as [Hc' Hruns].
    split_and!; [by apply cleanup_wf|done|by apply Hcont|].
    intros q w. by rewrite cleanup_runs.
  - rewrite (update_at_id k _ h v Hk); [split_and!; try done; by rewrite <- Hcont|].
    unfold contains in Hp. rewrite Hk in Hp. bool_to_prop. set_solver.
Qed.

Lemma transition_spec max i old new p h res h' :
  wf_history max i h → transition old new p max h = (res, h') →
  wf_history max i h' ∧ committed_version h' = committed_version h ∧
  match res with
  | Ok _ => runs h p old ∧ live h new ∧
      ∀ q w, runs h' q w ↔ (runs h q w ∧ q ≠ p) ∨ (q = p ∧ w = new)
  | Err e => h' = h ∧ (¬ runs h p old ∨ ¬ live h new)
  end.
Proof.
  intros [Hc Hret]. assert (wf_history max i h) as Hwf by by split. unfold transition.
  destruct (version_position old (versions h)) as [k|] eqn:Hpos.
  2: { intros [= <- <-]. apply version_position_None in Hpos. split_and!; try done. left.
       intros (v & Hv & Hver & _). apply Hpos, elem_of_live. eauto. }
  destruct (version_position_Some _ _ _ Hpos) as (v & Hk & <-).
  pose proof (contains_runs i p _ k h v Hc Hk eq_refl) as Hcont.
  destruct (contains p k h) eqn:Hp; cbn [negb].
  2: { intros [= <- <-]. split_and!; try done. left. by rewrite <- Hcont. }
  pose proof (proj1 Hcont eq_refl) as Hrun. destruct (version v =? new) eqn:Hsame; bool_to_prop.
  { intros [= <- <-]. subst new. split_and!; try done; [by eapply position_live|].
    intros q w. destruct (decide (q = p)) as [->|]; [|naive_solver].
    pose proof (ch_runs _ _ Hc p w (version v)). naive_solver. }
  destruct (version_position new (versions h)) as [k'|] eqn:Hpos'.
  2: { intros [= <- <-]. apply version_position_None in Hpos'. auto. }
  destruct (version_position_Some _ _ _ Hpos') as (v' & Hk' & <-).
  pose proof (contains_runs i p _ k' h v' Hc Hk' eq_refl) as Hcont'.
  destruct (contains p k' h) eqn:Hp'.
  { exfalso. apply Hsame. apply (ch_runs _ _ Hc p); [done|by apply Hcont']. }
  apply contains_true in Hp as (? & ? & Hp); simplify_eq. intros [= <- <-].
  destruct (remove_at_spec i k v p h Hc Hk Hp) as [Hc1 Hruns1].
  destruct (insert_at_spec i k' v' p _ Hc1) as [Hc2 Hruns2].
  { rewrite update_at_lookup, decide_False; [done|]. intros ->. congruence. }
  { intros w Hw. apply Hruns1 in Hw. naive_solver. }
  split_and!; [by apply cleanup_wf|done|done|by eapply position_live|].
  intros q w. by rewrite cleanup_runs, Hruns2, Hruns1.
Qed.

Lemma commit_spec max i ver h res h' :
  wf_history max i h → commit ver max h = (res, h') →
  wf_history max i h' ∧
  match res with
  | Ok _ => live h ver ∧ committed_version h' = ver ∧ ∀ q w, runs h' q w ↔ runs h q w
  | Err e => h' = h ∧ ¬ live h ver
  end.
Proof.
  intros [Hc Hret]. unfold commit.
  destruct (existsb _ (versions h)) eqn:Hlive; intros [= <- <-].
  - apply has_version_live in Hlive. split_and!; try done.
    + apply cleanup_wf. by destruct Hc.
    + intros q w. by rewrite cleanup_runs.
  - split_and!; try done. rewrite <- has_version_live. congruence.
Qed.

(** *** Adding a version *)

Lemma StronglySorted_snoc l x :
  StronglySorted Z.lt l → Forall (fun y => y < x) l → StronglySorted Z.lt (l ++ [x]).
Proof.
  induction l as [|y l IH]; simpl; intros Hs Hx; [by repeat constructor|].
  apply StronglySorted_inv in Hs as [Hs Hy]. apply Forall_cons_iff in Hx as [Hyx Hx].
  constructor; [by apply IH|]. apply list.Forall_app. split; [done|]. by repeat constructor.
Qed.

(** The history with the new version, before any cleanup. *)
Lemma pushed_coherent i m now h :
  coherent i h ∨ h = mkHistory 0 0 [] → next_version h < u32_max →
  coherent i (mkHistory (next_version h + 1)
    (if bool_decide (versions h = []) then next_version h else committed_version h)
    (versions h ++ [version_new i (next_version h) m now])).
Proof.
  intros [Hc| ->] Hmax.
  - destruct Hc as [Hs Hr Hn Hc Hruns]. split; simpl; [| |lia| |].
    + rewrite fmap_app. apply StronglySorted_snoc; [done|].
      apply list.Forall_fmap, list.Forall_forall. intros v Hv. by apply Hr.
    + intros v [Hv| ->%list_elem_of_singleton]%elem_of_app; [|simpl; lia].
      destruct (Hr v Hv). split; [lia|done].
    + rewrite bool_decide_false; [|intros He; unfold live in Hc; rewrite He in Hc; set_solver].
      unfold live in *. simpl. rewrite fmap_app. set_solver.
    + intros p a b (v & Hv & <- & Hp) (w & Hw & <- & Hp').
      apply elem_of_app in Hv as [Hv| ->%list_elem_of_singleton]; [|simpl in Hp; set_solver].
      apply elem_of_app in Hw as [Hw| ->%list_elem_of_singleton]; [|simpl in Hp'; set_solver].
      by apply (Hruns p); [exists v|exists w].
  - split; simpl.
    + by repeat constructor.
    + intros v ->%list_elem_of_singleton. done.
    + unfold u32_max. lia.
    + unfold live. simpl. set_solver.
    + intros p a b (v & Hv & <- & Hp). simpl in *. set_solver.
Qed.

Lemma cleanup_last max h :
  (0 < max)%nat → list.last (versions (cleanup_old_versions max h)) = list.last (versions h).
Proof.
  intros Hmax. rewrite cleanup_split. rewrite <- (take_drop (cutoff max h) (versions h)) at 3.
  rewrite !last_app. destruct (drop (cutoff max h) (versions h)) as [|v vs] eqn:Hd.
  2: { destruct (list.last (v :: vs)) eqn:Hl; [done|]. by apply last_None in Hl. }
  apply (f_equal length) in Hd. rewrite length_drop in Hd. simpl in Hd. unfold cutoff in *.
  destruct (versions h); simpl in *; [done|lia].
Qed.

Lemma push_version_spec max i m now h res h' :
  (0 < max)%nat → wf_history max i h ∨ h = mkHistory 0 0 [] →
  push_version i m now max h = (res, h') →
  match res with
  | Ok ver => ver = next_version h ∧ wf_history max i h' ∧ next_version h' = ver + 1 ∧
      list.last (versions h') = Some (version_new i ver m now) ∧
      committed_version h' = (if bool_decide (versions h = []) then ver else committed_version h) ∧
      ∀ q w, runs h' q w ↔ runs h q w
  | Err e => h' = h ∧ next_version h = u32_max
  end.
Proof.
  intros Hmax Hwf. unfold push_version.
  assert (coherent i h ∨ h = mkHistory 0 0 []) as Hco by (destruct Hwf as [[]|]; auto).
  assert (next_version h <= u32_max) as Hn.
  { destruct Hco as [Hc| ->]; [apply (ch_next _ _ Hc)|done]. }
  unfold checked_add. destruct (_ <=? u32_max) eqn:Hle; bool_to_prop; intros [= <- <-];
    [|split; [done|lia]].
  pose proof (pushed_coherent i m now h Hco ltac:(lia)) as Hc'.
  set (h1 := mkHistory (next_version h + 1) _ _) in *.
  assert (∀ q w, runs h1 q w ↔ runs h q w) as Hruns.
  { intros q w. unfold runs, h1; simpl. split; intros (v & Hv & Hver & Hq); exists v.
    - apply elem_of_app in Hv as [Hv| ->%list_elem_of_singleton]; [done|simpl in Hq; set_solver].
    - split; [|done]. apply elem_of_app. by left. }
  assert (list.last (versions h1) = Some (version_new i (next_version h) m now)) as Hlast
    by apply last_snoc.
  destruct (Z.of_nat max <? _) eqn:Hlen; split_and!; try done.
  - by apply cleanup_wf.
  - by rewrite cleanup_last.
  - intros q w. by rewrite cleanup_runs.
  - bool_to_prop. split; [done|]. intros k v Hk. right; right. subst h1; simpl in *; lia.
Qed.
End history_facts.

(** ** Sequences of operations *)

Section registry_facts.
Context {M : Type → Type} `{FinMap Z M} {Module : Type}.
Implicit Types (r : ModuleRegistry M Module) (h : ModuleHistory Module).

Inductive op : Type :=
| AddVersion (i : Z) (m : Module) (now : Z)
| MarkCommitted (i ver : Z)
| RegisterProcess (i ver : Z) (p : ProcessKey)
| TransitionProcess (i old new : Z) (p : ProcessKey)
| UnregisterProcess (i ver : Z) (p : ProcessKey)
| AddDependency (dependent dependency : Z).

Definition exec (o : op) r : ModuleRegistry M Module :=
  match o with
  | AddVersion i m now => (add_version i m now r).2
  | MarkCommitted i ver => (mark_committed i ver r).2
  | RegisterProcess i ver p => (register_process i ver p r).2
  | TransitionProcess i old new p => (transition_process i old new p r).2
  | UnregisterProcess i ver p => (unregister_process i ver p r).2
  | AddDependency a b => add_dependency a b r
  end.

Definition run (ops : list op) r : ModuleRegistry M Module := foldl (fun r o => exec o r) r ops.

Definition wf r : Prop :=
  (2 <= max_versions r)%nat ∧
  ∀ i h, history i r = Some h → wf_history (max_versions r) i h.

(** The process runs that version of the module. *)
Definition assigned r (i : Z) (p : ProcessKey) (ver : Z) : Prop :=
  ∃ h, history i r = Some h ∧ runs h p ver.

Definition registered r (i ver : Z) : Prop := ∃ h, history i r = Some h ∧ live h ver.

Lemma history_set_history i j h r :
  history j (set_history i h r) = if decide (i = j) then Some h else history j r.
Proof. unfold history, set_history; simpl. rewrite lookup_insert. done. Qed.

Lemma set_history_id i h r : history i r = Some h → set_history i h r = r.
Proof. intros Hi. unfold set_history. rewrite insert_id by exact Hi. by destruct r. Qed.

Lemma set_history_wf i h r :
  wf r → wf_history (max_versions r) i h → wf (set_history i h r).
Proof.
  intros [Hmax Hwf] Hh. split; [done|]. intros j h'. rewrite history_set_history.
  case_decide; [intros [= <-]; by subst|apply Hwf].
Qed.

Lemma on_history_wf i f r :
  wf r →
  (∀ h res h', wf_history (max_versions r) i h → f h = (res, h') →
     wf_history (max_versions r) i h') →
  wf (on_history i f r).2.
Proof.
  intros Hwf Hf. unfold on_history. destruct (history i r) as [h|] eqn:Hi; [|done].
  destruct (f h) as [res h'] eqn:Hfh. apply set_history_wf; [done|].
  eapply Hf; [|done]. by apply (proj2 Hwf).
Qed.

Lemma add_version_wf i m now r : wf r → wf (add_version i m now r).2.
Proof.
  intros Hwf. unfold add_version.
  destruct (push_version i m now (max_versions r) _) as [res h'] eqn:Hp. simpl.
  pose proof (proj1 Hwf). destruct (history i r) as [h|] eqn:Hi; simpl in Hp.
  - pose proof (proj2 Hwf i h Hi) as Hh. apply set_history_wf; [done|].
    apply push_version_spec in Hp; [|lia|by left].
    destruct res as [ver|e]; [by destruct Hp as (_ & ? & _)|]. by destruct Hp as [-> _].
  - apply push_version_spec in Hp; [|lia|by right].
    destruct res as [ver|e]; [|by destruct Hp as [_ ?]].
    destruct Hp as (_ & ? & _). by apply set_history_wf.
Qed.

Lemma exec_wf o r : wf r → wf (exec o r).
Proof.
  intros Hwf. destruct o as [i m now|i ver|i ver p|i old new p|i ver p|a b]; cbn [exec].
  - by apply add_version_wf.
  - apply on_history_wf; [done|]. intros h res h' Hh Hc. by apply (commit_spec _ _ _ _ _ _ Hh Hc).
  - apply on_history_wf; [done|]. intros h res h' Hh Hc. by apply (enroll_spec _ _ _ _ _ _ _ Hh Hc).
  - apply on_history_wf; [done|]. intros h res h' Hh Hc.
    by apply (transition_spec _ _ _ _ _ _ _ _ Hh Hc).
  - apply on_history_wf; [done|]. intros h res h' Hh Hc.
    by apply (withdraw_spec _ _ _ _ _ _ _ Hh Hc).
  - done.
Qed.

Lemma run_wf ops r : wf r → wf (run ops r).
Proof. revert r. induction ops as [|o ops IH]; intros r Hwf; [done|]. by apply IH, exec_wf. Qed.

Lemma with_max_versions_wf n : wf (with_max_versions n : ModuleRegistry M Module).
Proof.
  split; [simpl; lia|]. intros i h. unfold history; simpl. by rewrite lookup_empty.
Qed.

Lemma run_max_versions ops r : max_versions (run ops r) = max_versions r.
Proof.
  revert r. induction ops as [|o ops IH]; intros r; [done|].
  change (run (o :: ops) r) with (run ops (exec o r)). rewrite IH.
  destruct o; cbn [exec];
    unfold add_version, mark_committed, register_process, transition_process,
      unregister_process, on_history; repeat case_match; done.
Qed.

(** The invariant of every registry an execution reaches. *)
Lemma reachable_wf n ops : wf (run ops (with_max_versions n)).
Proof. apply run_wf, with_max_versions_wf. Qed.

Lemma reachable_history n ops i h :
  history i (run ops (with_max_versions n)) = Some h →
  wf_history (max_versions (run ops (with_max_versions n))) i h.
Proof. apply (proj2 (reachable_wf n ops)). Qed.

(** *** What the callers were told *)

(** The book that callers can keep of the answers they got: which version a process was put
    on, the code each version was added with, and the version committed last. *)
Record Ledger : Type := mkLedger {
  told_runs : gmap (Z * ProcessKey) Z;
  told_code : gmap (Z * Z) Module;
  told_committed : gmap Z Z;
}.

Definition note (o : op) r (L : Ledger) : Ledger :=
  match o with
  | AddVersion i m now =>
      match (add_version i m now r).1 with
      | Ok ver =>
          mkLedger (told_runs L) (<[(i, ver) := m]> (told_code L))
            (match told_committed L !! i with Some _ => told_committed L | None => <[i := ver]> (told_committed L) end)
      | Err _ => L
      end
  | MarkCommitted i ver =>
      if is_ok (mark_committed i ver r).1 then mkLedger (told_runs L) (told_code L) (<[i := ver]> (told_committed L)) else L
  | RegisterProcess i ver p =>
      if is_ok (register_process i ver p r).1 then mkLedger (<[(i, p) := ver]> (told_runs L)) (told_code L) (told_committed L) else L
  | TransitionProcess i old new p =>
      if is_ok (transition_process i old new p r).1 then mkLedger (<[(i, p) := new]> (told_runs L)) (told_code L) (told_committed L) else L
  | UnregisterProcess i ver p =>
      if is_ok (unregister_process i ver p r).1 then mkLedger (delete (i, p) (told_runs L)) (told_code L) (told_committed L) else L
  | AddDependency _ _ => L
  end.

Fixpoint ledger (ops : list op) r (L : Ledger) : Ledger :=
  match ops with
  | [] => L
  | o :: ops => ledger ops (exec o r) (note o r L)
  end.

Record ledger_ok r (L : Ledger) : Prop := {
  lo_runs i p ver : told_runs L !! (i, p) = Some ver ↔ assigned r i p ver;
  lo_code i h v : history i r = Some h → v ∈ versions h → told_code L !! (i, version v) = Some (module v);
  lo_committed i : told_committed L !! i = get_committed_version_number i r;
}.

(** Versions are dropped, and their processes change, but not their code. *)
Definition kept h h' : Prop := ∀ v, v ∈ versions h' → ∃ u, u ∈ versions h ∧ version u = version v ∧ module u = module v.

Lemma cleanup_kept max h : kept h (cleanup_old_versions max h).
Proof. intros v Hv%cleanup_elem. by exists v. Qed.

Lemma update_at_kept k f h : kept h (update_at k f h).
Proof.
  intros v [j Hj]%list_elem_of_lookup. rewrite update_at_lookup in Hj. case_decide; [|by eauto using list_elem_of_lookup_2].
  destruct (versions h !! j) as [u|] eqn:Hu; [|done]. injection Hj as <-. exists u. eauto using list_elem_of_lookup_2.
Qed.

Lemma kept_trans h1 h2 h3 : kept h1 h2 → kept h2 h3 → kept h1 h3.
Proof. intros H12 H23 v (u & Hu & <- & <-)%H23. by apply H12. Qed.

Lemma on_history_ledger i f r L L' :
  wf r → ledger_ok r L →
  (∀ h res h', history i r = Some h → wf_history (max_versions r) i h → f h = (res, h') →
     kept h h' ∧
     (is_ok res = true → ∀ q w, told_runs L' !! (i, q) = Some w ↔ runs h' q w) ∧
     (is_ok res = true → told_committed L' !! i = Some (committed_version h')) ∧ (is_ok res = false → h' = h)) →
  (∀ j q, j ≠ i → told_runs L' !! (j, q) = told_runs L !! (j, q)) →
  (∀ j, j ≠ i → told_committed L' !! j = told_committed L !! j) → told_code L' = told_code L →
  ledger_ok (on_history i f r).2 (if is_ok (on_history i f r).1 then L' else L).
Proof.
  intros Hwf [Hr Hc Hm] Hf Hruns Hcom Hcode. unfold on_history. destruct (history i r) as [h|] eqn:Hi; [|done].
  destruct (f h) as [res h'] eqn:Hfh. destruct (Hf h res h') as (Hk & Hnr & Hnc & Hsame); [done|by apply (proj2 Hwf)|done|]. simpl.
  destruct (is_ok res) eqn:Hok; [|rewrite Hsame, set_history_id by done; by split]. split.
  - intros j q w. unfold assigned. rewrite history_set_history. case_decide as Hj; [subst j|].
    + rewrite (Hnr eq_refl). naive_solver.
    + rewrite Hruns, Hr by done. done.
  - intros j h0 v. rewrite history_set_history, Hcode. case_decide as Hj; [subst j|apply Hc].
    intros [= <-] (u & Hu & <- & <-)%Hk. by apply (Hc i h).
  - intros j. unfold get_committed_version_number. rewrite history_set_history. case_decide as Hj; [subst j; by apply Hnc|].
    by rewrite Hcom, Hm by done.
Qed.

Lemma add_version_ledger i m now r L : wf r → ledger_ok r L → ledger_ok (add_version i m now r).2 (note (AddVersion i m now) r L).
Proof.
  intros Hwf HL. pose proof HL as [Hr Hc Hm]. simpl. unfold add_version. set (h := default _ _).
  assert (wf_history (max_versions r) i h ∨ h = mkHistory 0 0 []) as Hh.
  { subst h. destruct (history i r) as [h|] eqn:Hi; [left; by apply (proj2 Hwf)|by right]. }
  destruct (push_version i m now (max_versions r) h) as [res h'] eqn:Hp. pose proof Hp as Hspec.
  apply push_version_spec in Hspec; [|pose proof (proj1 Hwf); lia|done]. simpl. destruct res as [ver|e].
  2: { destruct Hspec as [-> Hmax]. subst h. destruct (history i r) as [h|] eqn:Hi; [by rewrite set_history_id|]. done. }
  destruct Hspec as (-> & Hwf' & _ & _ & Hcv & Hruns).
  assert (∀ q w, runs h q w ↔ assigned r i q w) as Hh'.
  { intros q w. unfold assigned. subst h. destruct (history i r) as [h|]; [naive_solver|]. simpl. split.
    - intros (v & Hv & _). by apply not_elem_of_nil in Hv.
    - by intros (? & ? & _). }
  assert (∀ v, v ∈ versions h' → v = version_new i (next_version h) m now ∨ v ∈ versions h ∧ version v < next_version h) as Helem.
  { assert (∀ v, v ∈ versions h → version v < next_version h) as Hlt.
    { intros v Hv. destruct Hh as [[Hco _]|Hh]; [by apply (ch_range _ _ Hco)|]. rewrite Hh in Hv. by apply not_elem_of_nil in Hv. }
    intros v Hv. unfold push_version in Hp. destruct (checked_add _ _ _); [|done]. injection Hp as <-.
    assert (v ∈ versions h ++ [version_new i (next_version h) m now]) as [Hin|Hin]%elem_of_app; [|auto|by left; apply list_elem_of_singleton in Hin].
    destruct (_ <? _); [by apply cleanup_elem in Hv|done]. }
  split; simpl.
  - intros j q w. unfold assigned at 1. rewrite history_set_history. case_decide as Hj; [subst j|apply Hr].
    rewrite Hr, <- Hh', <- Hruns. naive_solver.
  - intros j h0 v. rewrite history_set_history. case_decide as Hj; [subst j|].
    + intros [= <-] [->|[Hv Hlt]]%Helem; [by rewrite lookup_insert_eq|]. rewrite lookup_insert_ne by (intros [= ?]; lia).
      subst h. destruct (history i r) as [h|] eqn:Hi; [by apply (Hc i h)|by apply not_elem_of_nil in Hv].
    + intros Hh0 Hv. rewrite lookup_insert_ne by congruence. by apply (Hc j h0).
  - intros j. unfold get_committed_version_number. rewrite history_set_history.
    pose proof (Hm i) as Hmi. unfold get_committed_version_number in Hmi. destruct (told_committed L !! i) as [cv|] eqn:Ht.
    + case_decide as Hj; [subst j|apply Hm]. rewrite Ht. simpl. f_equal. rewrite Hcv. subst h.
      destruct (history i r) as [h|] eqn:Hi; [|done]. injection Hmi as ->. simpl. rewrite bool_decide_false; [done|].
      intros He. destruct (proj2 Hwf i h Hi) as [Hco _]. apply ch_committed, elem_of_live in Hco as (u & Hu & _).
      rewrite He in Hu. by apply not_elem_of_nil in Hu.
    + case_decide as Hj; [subst j; rewrite lookup_insert_eq|rewrite lookup_insert_ne by done; apply Hm].
      simpl. f_equal. rewrite Hcv. subst h. by destruct (history i r).
Qed.

Lemma note_ok o r L : wf r → ledger_ok r L → ledger_ok (exec o r) (note o r L).
Proof.
  intros Hwf HL. pose proof HL as [Hr Hc Hm].
  assert (∀ i h, history i r = Some h → ∀ q w, told_runs L !! (i, q) = Some w ↔ runs h q w) as Hold.
  { intros i h Hi q w. rewrite Hr. unfold assigned. naive_solver. }
  assert (∀ i h, history i r = Some h → told_committed L !! i = Some (committed_version h)) as Hcom.
  { intros i h Hi. rewrite Hm. unfold get_committed_version_number. by rewrite Hi. }
  destruct o as [i m now|i ver|i ver p|i old new p|i ver p|a b].
  - by apply add_version_ledger.
  - apply on_history_ledger; try done; simpl; [|intros; by rewrite lookup_insert_ne].
    intros h res h' Hi Hh Hco. pose proof Hco as Hs. apply (commit_spec _ i) in Hs as [_ Hs]; [|done]. split_and!.
    + clear Hs. unfold commit in Hco. case_match; injection Hco as _ <-; [apply (cleanup_kept _ (mkHistory _ _ _))|intros v; eauto].
    + destruct res; [|done]. destruct Hs as (_ & _ & Hs). intros _ q w. rewrite Hs. by apply Hold.
    + destruct res; [|done]. destruct Hs as (_ & -> & _). intros _. apply lookup_insert_eq.
    + destruct res; [done|by destruct Hs].
  - apply on_history_ledger; try done; simpl; [|intros; rewrite lookup_insert_ne; congruence].
    intros h res h' Hi Hh Hco. pose proof Hco as Hs. apply (enroll_spec (max_versions r) i) in Hs as (_ & Hcv & Hs); [|done]. split_and!.
    + clear Hs. unfold enroll in Hco. repeat case_match; injection Hco as _ <-; [intros v; eauto|apply update_at_kept|intros v; eauto].
    + destruct res; [|done]. destruct Hs as (_ & Hfree & Hs). intros _ q w. rewrite Hs, <- (Hold i h Hi), lookup_insert.
      case_decide as Hq; [injection Hq as ->|].
      * rewrite (Hold i h Hi). specialize (Hfree w). naive_solver.
      * naive_solver.
    + intros _. rewrite Hcv. by apply Hcom.
    + destruct res; [done|by destruct Hs].
  - apply on_history_ledger; try done; simpl; [|intros; rewrite lookup_insert_ne; congruence].
    intros h res h' Hi Hh Hco. pose proof Hco as Hs. apply (transition_spec _ i) in Hs as (_ & Hcv & Hs); [|done]. split_and!.
    + clear Hs. unfold transition in Hco. repeat case_match; injection Hco as _ <-; try (intros v; by eauto).
      eapply kept_trans; [apply update_at_kept|]. eapply kept_trans; [apply update_at_kept|apply cleanup_kept].
    + destruct res; [|done]. destruct Hs as (_ & _ & Hs). intros _ q w. rewrite Hs, <- (Hold i h Hi), lookup_insert.
      case_decide as Hq; [injection Hq as ->|]; naive_solver.
    + intros _. rewrite Hcv. by apply Hcom.
    + destruct res; [done|by destruct Hs].
  - apply on_history_ledger; try done; simpl; [|intros; rewrite lookup_delete_ne; congruence].
    intros h res h' Hi Hh Hco. pose proof Hco as Hs. apply (withdraw_spec _ i) in Hs as (_ & Hcv & Hs); [|done]. split_and!.
    + clear Hs. unfold withdraw in Hco. repeat case_match; injection Hco as _ <-; try (intros v; by eauto).
      * eapply kept_trans; [apply update_at_kept|apply cleanup_kept].
      * apply update_at_kept.
    + destruct res; [|done]. destruct Hs as (_ & Hs). intros _ q w. rewrite Hs, <- (Hold i h Hi), lookup_delete.
      case_decide as Hq; [injection Hq as ->|]; naive_solver.
    + intros _. rewrite Hcv. by apply Hcom.
    + destruct res; [done|by destruct Hs].
  - done.
Qed.

Lemma ledger_run ops r L : wf r → ledger_ok r L → ledger_ok (run ops r) (ledger ops r L).
Proof.
  revert r L. induction ops as [|o ops IH]; intros r L Hwf HL; [done|]. apply IH; [by apply exec_wf|by apply note_ok].
Qed.

(** The book of an execution from the start. *)
Definition ledger_of (n : nat) (ops : list op) : Ledger := ledger ops (with_max_versions n) (mkLedger ∅ ∅ ∅).

Lemma reachable_ledger n ops : ledger_ok (run ops (with_max_versions n)) (ledger_of n ops).
Proof.
  apply ledger_run; [apply with_max_versions_wf|]. split; simpl.
  - intros i p ver. rewrite lookup_empty. unfold assigned, history. simpl. rewrite lookup_empty. naive_solver.
  - intros i h v. unfold history. simpl. by rewrite lookup_empty.
  - intros i. unfold get_committed_version_number, history. simpl. by rewrite !lookup_empty.
Qed.

(** *** Version numbers only grow *)

Lemma on_history_next i f r j :
  wf r →
  (∀ h res h', wf_history (max_versions r) i h → f h = (res, h') →
     next_version h' = next_version h) →
  next_version <$> history j (on_history i f r).2 = next_version <$> history j r.
Proof.
  intros Hwf Hf. unfold on_history. destruct (history i r) as [h|] eqn:Hi; [|done].
  destruct (f h) as [res h'] eqn:Hfh. simpl. rewrite history_set_history. case_decide; [|done].
  subst. rewrite Hi. simpl. f_equal. eapply Hf; [|done]. by apply (proj2 Hwf).
Qed.

Lemma exec_next_mono o r i n :
  wf r → next_version <$> history i r = Some n →
  ∃ n', next_version <$> history i (exec o r) = Some n' ∧ n <= n'.
Proof.
  intros Hwf Hi. destruct o as [j m now|j ver|j ver p|j old new p|j ver p|a b]; cbn [exec].
  - unfold add_version. destruct (push_version _ _ _ _ _) as [res h'] eqn:Hp. simpl.
    rewrite history_set_history. case_decide; [subst j|by eauto with lia].
    apply fmap_Some_1 in Hi as (h & Hi & ->). rewrite Hi in Hp. simpl in Hp.
    apply push_version_spec in Hp; [|pose proof (proj1 Hwf); lia|left; by apply (proj2 Hwf)].
    eexists. split; [done|]. destruct res; [destruct Hp as (-> & _ & -> & _); lia|].
    by destruct Hp as [-> _].
  - exists n. split; [|lia]. rewrite <- Hi. apply on_history_next; [done|]. unfold commit.
    intros h res h' _ Hc. by case_in Hc.
  - exists n. split; [|lia]. rewrite <- Hi. apply on_history_next; [done|]. unfold enroll.
    intros h res h' _ Hc. by case_in Hc.
  - exists n. split; [|lia]. rewrite <- Hi. apply on_history_next; [done|]. unfold transition.
    intros h res h' _ Hc. by case_in Hc.
  - exists n. split; [|lia]. rewrite <- Hi. apply on_history_next; [done|]. unfold withdraw.
    intros h res h' _ Hc. by case_in Hc.
  - exists n. split; [done|lia].
Qed.

Lemma run_next_mono ops r i n :
  wf r → next_version <$> history i r = Some n →
  ∃ n', next_version <$> history i (run ops r) = Some n' ∧ n <= n'.
Proof.
  revert r n. induction ops as [|o ops IH]; intros r n Hwf Hn; [by eauto with lia|].
  destruct (exec_next_mono o r i n Hwf Hn) as (n1 & Hn1 & Hle).
  destruct (IH _ n1 (exec_wf o r Hwf) Hn1) as (n2 & Hn2 & Hle2). exists n2. split; [done|lia].
Qed.
End registry_facts.
Arguments op : clear implicits.

(** ** Listings *)

Section listing.
Context {M : Type → Type} `{FinMap Z M} {Module : Type}.
Implicit Types (r : ModuleRegistry M Module) (h : ModuleHistory Module).

Lemma processes_for_module_elem i env r x :
  x ∈ processes_for_module i env r ↔ ∃ ver, assigned r i (mkKey env x) ver.
Proof.
  unfold processes_for_module, assigned. destruct (history i r) as [h|]; [|set_solver].
  rewrite elem_of_dedup, merge_sort_Permutation, list_elem_of_fmap.
  setoid_rewrite list_elem_of_filter. setoid_rewrite list_elem_of_bind.
  setoid_rewrite elem_of_elements. unfold runs. split.
  - intros ([e pr] & -> & Henv & v & Hp & Hv). simpl in *. subst e. eauto 7.
  - intros (ver & h' & [= <-] & v & Hv & Hver & Hp). exists (mkKey env x). eauto 7.
Qed.

Lemma processes_for_module_sorted i env r :
  StronglySorted Z.lt (processes_for_module i env r).
Proof.
  unfold processes_for_module. destruct (history i r) as [h|]; [|constructor].
  apply dedup_sorted. apply StronglySorted_merge_sort; apply _.
Qed.

(** *** The graph of dependencies *)

Lemma graph_nodes_closed r x d :
  d ∈ get_dependents x r → x ∈ graph_nodes r ∧ d ∈ graph_nodes r.
Proof.
  unfold get_dependents, graph_nodes.
  assert (∀ ds, dependencies r !! x = Some ds → d ∈ ds →
    x ∈ map_fold (fun m deps acc => {[m]} ∪ list_to_set deps ∪ acc) (∅ : gset Z) (dependencies r) ∧
    d ∈ map_fold (fun m deps acc => {[m]} ∪ list_to_set deps ∪ acc) (∅ : gset Z) (dependencies r))
    as Hfold.
  { apply (map_fold_weak_ind (fun acc m => ∀ ds, m !! x = Some ds → d ∈ ds → x ∈ acc ∧ d ∈ acc)).
    - intros ds. by rewrite lookup_empty.
    - intros i ds m acc Hi IH ds'. rewrite lookup_insert. case_decide; [|set_solver].
      intros [= <-]. set_solver. }
  destruct (dependencies r !! x) as [ds|]; simpl; [eauto|set_solver].
Qed.

Lemma get_reload_order_searched m r :
  ∃ order visited, get_reload_order m r = Some order ∧
    searched (fun m => get_dependents m r) [m] ∅ visited order.
Proof.
  unfold get_reload_order.
  destruct (visit_module_searched (fun m => get_dependents m r) ({[m]} ∪ graph_nodes r)
    (reload_fuel r) m [] ∅) as (order & visited & -> & Hs).
  - intros x d Hx Hd. apply graph_nodes_closed in Hd. set_solver.
  - set_solver.
  - unfold reload_fuel. rewrite difference_empty_L.
    pose proof (size_union_alt {[m]} (graph_nodes r)) as Hsz.
    rewrite size_singleton in Hsz.
    pose proof (subseteq_size (graph_nodes r ∖ {[m]}) (graph_nodes r) ltac:(set_solver)). lia.
  - exists order, visited. by rewrite app_nil_l.
Qed.

Lemma get_reload_order_last m r order :
  get_reload_order m r = Some order → list.last order = Some m.
Proof.
  unfold get_reload_order, reload_fuel. cbn [visit_module].
  rewrite bool_decide_false by set_solver.
  destruct (fold_opt _ _ _) as [[o v]|]; simpl; [|done]. intros [= <-]. apply last_snoc.
Qed.
End listing.

(** ** Properties *)

(** C36. However versions are added, committed and collected and processes moved, the registry
    keeps what running code needs, as its callers were told: a version that a process was put on,
    by a registration or a transition that succeeded and has not been undone, can still be looked
    up and has the code it was added with, and so has the version of a module that was committed
    last; a process is recorded at a version exactly when a caller was told so; and a retained
    version is committed, in use, or among the last [max_versions]. *)
Theorem live_versions_never_collected {M : Type → Type} `{FinMap Z M} {Module : Type}
    (n : nat) (ops : list (op Module)) (i : Z) :
  let r := run (M := M) ops (with_max_versions n) in
  let L := ledger_of (M := M) n ops in
  (∀ p ver, told_runs L !! (i, p) = Some ver →
     ∃ m, told_code L !! (i, ver) = Some m ∧ get_version i ver r = Some m) ∧
  (∀ ver, told_committed L !! i = Some ver →
     ∃ m, told_code L !! (i, ver) = Some m ∧ get_committed i r = Some m) ∧
  (∀ p ver, assigned r i p ver ↔ told_runs L !! (i, p) = Some ver) ∧
  (∀ h k v, history i r = Some h → versions h !! k = Some v →
     version v = committed_version h ∨ (∃ p, told_runs L !! (i, p) = Some (version v)) ∨
     version_count i r <= Z.of_nat k + Z.of_nat (Nat.max n 2)).
Proof.
  intros r L. pose proof (reachable_history (M := M) n ops i) as Hwf. fold r in Hwf.
  assert (max_versions r = Nat.max n 2) as Hmax by apply run_max_versions.
  destruct (reachable_ledger (M := M) n ops) as [Hruns Hcode Hcom]. fold r L in Hruns, Hcode, Hcom.
  split_and!.
  - intros p ver (h & Hh & v & Hv & <- & Hp)%Hruns. exists (module v). split; [by apply (Hcode i h)|].
    unfold get_version. rewrite Hh. simpl. by rewrite (find_version_Some i h v (proj1 (Hwf h Hh)) Hv).
  - intros ver. rewrite Hcom. unfold get_committed_version_number, get_committed.
    destruct (history i r) as [h|] eqn:Hh; [|done]. intros [= <-]. destruct (Hwf h eq_refl) as [Hc _].
    destruct (proj1 (elem_of_live _ _) (ch_committed _ _ Hc)) as (v & Hv & Hver). exists (module v).
    split; [rewrite <- Hver; by apply (Hcode i h)|]. simpl. by rewrite <- Hver, (find_version_Some i h v Hc Hv).
  - intros p ver. symmetry. apply Hruns.
  - intros h k v Hh Hk. destruct (Hwf h Hh) as [_ Hret]. rewrite Hmax in Hret.
    unfold version_count. rewrite Hh. simpl. destruct (Hret k v Hk) as [?|[Hp|?]]; [auto| |right; right; lia].
    right; left. apply set_choose_L in Hp as [p Hp]. exists p. apply Hruns. exists h. split; [done|]. exists v.
    eauto using list_elem_of_lookup_2.
Qed.

(** The numbers of a module's versions are never reused: two additions of
    an execution, with anything in between, return increasing numbers. *)
Theorem version_numbers_never_reused {M : Type → Type} `{FinMap Z M} {Module : Type}
    (n : nat) (before between : list (op Module)) (i : Z) (m m' : Module) (now now' a b : Z)
    (r1 r2 : ModuleRegistry M Module) :
  add_version i m now (run before (with_max_versions n)) = (Ok a, r1) →
  add_version i m' now' (run between r1) = (Ok b, r2) →
  a < b.
Proof.
  intros Ha Hb. pose proof (reachable_wf (M := M) n before) as Hwf.
  assert (wf r1) as Hwf1.
  { pose proof (add_version_wf i m now _ Hwf) as Hw. by rewrite Ha in Hw. }
  assert (next_version <$> history i r1 = Some (a + 1)) as Hn.
  { unfold add_version in Ha. destruct (push_version _ _ _ _ _) as [res h'] eqn:Hp.
    injection Ha as -> <-. rewrite history_set_history, decide_True by done. simpl.
    apply push_version_spec in Hp; [|pose proof (proj1 Hwf); lia|].
    - destruct Hp as (_ & _ & -> & _). done.
    - destruct (history i _) as [h|] eqn:Hi; [left; by apply (proj2 Hwf)|by right]. }
  destruct (run_next_mono between r1 i _ Hwf1 Hn) as (n' & Hn' & Hle).
  apply fmap_Some_1 in Hn' as (h & Hh & ->).
  unfold add_version in Hb. rewrite Hh in Hb. simpl in Hb.
  destruct (push_version _ _ _ _ _) as [res h'] eqn:Hp. injection Hb as -> _.
  pose proof (run_wf between r1 Hwf1) as Hwf2.
  apply push_version_spec in Hp; [|pose proof (proj1 Hwf2); lia|left; by apply (proj2 Hwf2)].
  destruct Hp as (-> & _). lia.
Qed.

(** Moving a process to another version of its module succeeds exactly
    when the process runs the old version and the new one is registered;
    then it runs the new version, nothing else moves and no commit changes; a
    failed move changes nothing. *)
Theorem transition_process_exact {M : Type → Type} `{FinMap Z M} {Module : Type}
    (n : nat) (ops : list (op Module)) (i old new : Z) (p : ProcessKey) :
  let r := run (M := M) ops (with_max_versions n) in
  let '(res, r') := transition_process i old new p r in
  (is_ok res = true ↔ assigned r i p old ∧ registered r i new) ∧
  (is_ok res = true →
     (∀ j q w, assigned r' j q w ↔
        (assigned r j q w ∧ (j, q) ≠ (i, p)) ∨ (j, q, w) = (i, p, new)) ∧
     ∀ j, get_committed_version_number j r' = get_committed_version_number j r) ∧
  (is_ok res = false → r' = r).
Proof.
  intros r. pose proof (reachable_history (M := M) n ops i) as Hwf. fold r in Hwf.
  unfold transition_process, on_history. destruct (history i r) as [h|] eqn:Hi.
  2: { split_and!; [|done|done]. split; [done|]. intros [(h & ? & _) _]. congruence. }
  destruct (transition old new p (max_versions r) h) as [res h'] eqn:Ht.
  apply (transition_spec _ i) in Ht as (_ & Hcom & Hres); [|by apply Hwf].
  assert (∀ w, assigned r i p w ↔ runs h p w) as Has by (unfold assigned; naive_solver).
  assert (registered r i new ↔ live h new) as Hreg by (unfold registered; naive_solver).
  rewrite Has, Hreg. destruct res as [[]|e]; simpl.
  - destruct Hres as (Hrun & Hlive & Hruns). split_and!; [naive_solver| |done]. intros _. split.
    + intros j q w. unfold assigned. rewrite history_set_history. case_decide; [subst j|naive_solver].
      rewrite Hi. split.
      * intros (? & [= <-] & [[? ?]|[-> ->]]%Hruns); [left|by right]. naive_solver.
      * intros [[(? & [= <-] & Hq) Hne]|[= -> ->]]; exists h'; (split; [done|]); apply Hruns;
          naive_solver.
    + intros j. unfold get_committed_version_number. rewrite history_set_history.
      case_decide; [subst j|done]. rewrite Hi. simpl. by rewrite Hcom.
  - destruct Hres as [-> Hfail]. split_and!; [naive_solver|done|]. intros _. by apply set_history_id.
Qed.

(** The reload order of a module always exists, has no module twice, and
    holds exactly the module and its transitive dependents; a dependent that is
    not itself upstream (the graph may have cycles) comes before the module it
    depends on, so the module itself is last. *)
Theorem reload_order_correct {M : Type → Type} `{FinMap Z M} {Module : Type}
    (m : Z) (r : ModuleRegistry M Module) :
  ∃ order, get_reload_order m r = Some order ∧ NoDup order ∧
    (∀ x, x ∈ order ↔ rtc (depends (fun m => get_dependents m r)) m x) ∧
    list.last order = Some m ∧
    ∀ l1 x l2 d, order = l1 ++ x :: l2 → d ∈ get_dependents x r →
      ¬ rtc (depends (fun m => get_dependents m r)) d x → d ∈ l1.
Proof.
  destruct (get_reload_order_searched m r) as (order & visited & Heq & [Hv Hnd _ Hroot Hreach Hcl Hord]).
  exists order. split_and!; [done|done| | |].
  - intros x. split.
    + intros Hx. destruct (Hreach x Hx) as (d & ->%list_elem_of_singleton & ?). done.
    + apply (rtc_invariant _ (fun x => x ∈ order)); [|set_solver].
      intros y z Hy Hz. specialize (Hcl y z Hy Hz). set_solver.
  - by apply (get_reload_order_last m r).
  - intros l1 x l2 d Ho Hd Hnot. destruct (Hord l1 x l2 d Ho Hd) as [?|[?|?]]; set_solver.
Qed.

(** The processes listed for a module and an environment are exactly those
    that run one of the module's versions, in increasing order and once each. *)
Theorem processes_for_module_exact {M : Type → Type} `{FinMap Z M} {Module : Type}
    (i env : Z) (r : ModuleRegistry M Module) :
  StronglySorted Z.lt (processes_for_module i env r) ∧
  ∀ x, x ∈ processes_for_module i env r ↔ ∃ ver, assigned r i (mkKey env x) ver.
Proof.
  split; [apply processes_for_module_sorted|]. intros x. apply processes_for_module_elem.
Qed.

(** *** Witnesses *)

Definition sample_ops : list (op nat) :=
  [AddVersion 7 100%nat 0; RegisterProcess 7 0 (mkKey 1 5)].

Definition sample_registry : ModuleRegistry (gmap Z) nat :=
  (add_version 7 200%nat 1 (run sample_ops (with_max_versions 2))).2.

Definition sample_registry' : ModuleRegistry (gmap Z) nat :=
  (add_version 7 300%nat 2 (run [MarkCommitted 7 1] sample_registry)).2.

Lemma sample_first :
  add_version 7 200%nat 1 (run sample_ops (with_max_versions 2)) = (Ok 1, sample_registry).
Proof. vm_compute. reflexivity. Qed.

Lemma sample_second :
  add_version 7 300%nat 2 (run [MarkCommitted 7 1] sample_registry) = (Ok 2, sample_registry').
Proof. vm_compute. reflexivity. Qed.

Lemma version_numbers_never_reused_witness :
  add_version 7 200%nat 1 (run sample_ops (with_max_versions 2)) = (Ok 1, sample_registry) ∧
  add_version 7 300%nat 2 (run [MarkCommitted 7 1] sample_registry) = (Ok 2, sample_registry') ∧
  1 < 2.
Proof.
  split_and!; [exact sample_first|exact sample_second|].
  exact (version_numbers_never_reused 2 sample_ops [MarkCommitted 7 1] 7 200%nat 300%nat
    1 2 1 2 sample_registry sample_registry' sample_first sample_second).
Defined.

Definition moved_registry : ModuleRegistry (gmap Z) nat :=
  run (sample_ops ++ [AddVersion 7 200%nat 1; AddVersion 7 300%nat 2; MarkCommitted 7 1])
    (with_max_versions 2).

Lemma live_versions_never_collected_witness :
  get_version 7 0 moved_registry = Some 100%nat ∧ get_committed 7 moved_registry = Some 200%nat.
Proof.
  destruct (live_versions_never_collected (M := gmap Z) 2
    (sample_ops ++ [AddVersion 7 200%nat 1; AddVersion 7 300%nat 2; MarkCommitted 7 1]) 7)
    as (Hver & Hcom & _).
  split.
  - destruct (Hver (mkKey 1 5) 0) as (m & Hm & Hget); [vm_compute; reflexivity|].
    assert (Some 100%nat = Some m) as -> by (rewrite <- Hm; vm_compute; reflexivity). exact Hget.
  - destruct (Hcom 1) as (m & Hm & Hget); [vm_compute; reflexivity|].
    assert (Some 200%nat = Some m) as -> by (rewrite <- Hm; vm_compute; reflexivity). exact Hget.
Defined.

Definition before_move : ModuleRegistry (gmap Z) nat :=
  run (sample_ops ++ [AddVersion 7 200%nat 1]) (with_max_versions 2).

Definition after_move : ModuleRegistry (gmap Z) nat :=
  (transition_process 7 0 1 (mkKey 1 5) before_move).2.

Lemma sample_move : transition_process 7 0 1 (mkKey 1 5) before_move = (Ok tt, after_move).
Proof. vm_compute. reflexivity. Qed.

Lemma transition_process_exact_witness :
  transition_process 7 0 1 (mkKey 1 5) before_move = (Ok tt, after_move) ∧
  assigned before_move 7 (mkKey 1 5) 0 ∧ registered before_move 7 1.
Proof.
  split; [exact sample_move|].
  pose proof (transition_process_exact (M := gmap Z) 2 (sample_ops ++ [AddVersion 7 200%nat 1])
    7 0 1 (mkKey 1 5)) as Hex.
  fold before_move in Hex. cbv zeta in Hex. rewrite sample_move in Hex.
  apply (proj1 Hex). reflexivity.
Defined.

Definition sample_graph : ModuleRegistry (gmap Z) nat :=
  run [AddDependency 2 1; AddDependency 3 2; AddDependency 3 1] new.

Lemma reload_order_correct_witness :
  get_reload_order 1 sample_graph = Some [3; 2; 1] ∧
  ∃ order, get_reload_order 1 sample_graph = Some order ∧ NoDup order.
Proof.
  split; [vm_compute; reflexivity|].
  destruct (reload_order_correct 1 sample_graph) as (order & Heq & Hnd & _). by exists order.
Defined.

Lemma processes_for_module_exact_witness :
  processes_for_module 7 1 moved_registry = [5] ∧
  StronglySorted Z.lt (processes_for_module 7 1 moved_registry).
Proof.
  split; [vm_compute; reflexivity|]. exact (proj1 (processes_for_module_exact 7 1 moved_registry)).
Defined.
