(* ===== verification/Versions.v ===== *)
(** * Version tracking of processes: [crates/lunatic-process/src/lib.rs]
      ([ProcessVersionTracking], the version operations of [ProcessContext])

    A WebAssembly process remembers, per module, the version it runs, and keeps
    the module registry's membership in step with it: registration when the
    process starts, a transition when it is reloaded, withdrawal of everything
    when it ends or its context is dropped.

    The registries are a map from addresses ([Arc::ptr_eq] is equality of
    addresses); the mutex of the tracking makes each operation one step. *)

From S2P Require Import Prelude ModuleRegistry.

(** [ProcessVersionState] *)
Record VersionState : Type := mkTracking {
  tracking_registry : option Z;
  tracking_process : option ProcessKey;
  current_versions : gmap Z Z;
}.

(** [Default] *)
Definition tracking_default : VersionState := mkTracking None None ∅.

Inductive TrackError : Type :=
| AlreadyTracked (module_id : Z)
| MultipleRegistries
| IdentityChanged
| VersionChanged
| NoModuleRegistryTracking
| NoTrackingIdentity
| RegistryRefused (e : RegistryError).

Section tracking.
Context {M : Type → Type} `{FinMap Z M} {Module : Type}.
Abbreviation Registries := (gmap Z (ModuleRegistry M Module)).
Implicit Types (t : VersionState) (R : gmap Z (ModuleRegistry M Module)).

(** The registry an [Arc] refers to is alive. *)
Definition on_registry (a : Z)
    (f : ModuleRegistry M Module → result unit RegistryError * ModuleRegistry M Module) R
    : result unit RegistryError * Registries :=
  match R !! a with
  | Some r => let '(res, r) := f r in (res, <[a := r]> R)
  | None => (Err ModuleNotRegistered, R)
  end.

Definition current_version (module_id : Z) t : option Z := current_versions t !! module_id.

Definition track_initial_version (a module_id ver : Z) (p : ProcessKey) t R
    : result unit TrackError * VersionState * Registries :=
  if bool_decide (is_Some (current_versions t !! module_id))
  then (Err (AlreadyTracked module_id), t, R)
  else if match tracking_registry t with Some b => negb (b =? a) | None => false end
  then (Err MultipleRegistries, t, R)
  else if match tracking_process t with Some q => bool_decide (q ≠ p) | None => false end
  then (Err IdentityChanged, t, R)
  else
    match on_registry a (register_process module_id ver p) R with
    | (Err e, R) => (Err (RegistryRefused e), t, R)
    | (Ok _, R) =>
        (Ok tt, mkTracking (Some a) (Some p) (<[module_id := ver]> (current_versions t)), R)
    end.

Definition transition_current_version (module_id old_version new_version : Z) t R
    : result unit TrackError * VersionState * Registries :=
  if bool_decide (current_versions t !! module_id ≠ Some old_version)
  then (Err VersionChanged, t, R)
  else
    match tracking_registry t, tracking_process t with
    | None, _ => (Err NoModuleRegistryTracking, t, R)
    | _, None => (Err NoTrackingIdentity, t, R)
    | Some a, Some p =>
        match on_registry a (transition_process module_id old_version new_version p) R with
        | (Err e, R) => (Err (RegistryRefused e), t, R)
        | (Ok _, R) =>
            (Ok tt, mkTracking (Some a) (Some p)
                      (<[module_id := new_version]> (current_versions t)), R)
        end
    end.

(** [take_registrations]: what was tracked, and the tracking that is left. *)
Definition take_registrations t : VersionState * VersionState := (t, tracking_default).

(** The loop of [unregister_all]: the errors that it logs. *)
Fixpoint withdraw_each (a : Z) (p : ProcessKey) (vs : list (Z * Z)) R
    : list RegistryError * Registries :=
  match vs with
  | [] => ([], R)
  | (module_id, ver) :: vs =>
      let '(res, R) := on_registry a (unregister_process module_id ver p) R in
      let '(errors, R) := withdraw_each a p vs R in
      (match res with Ok _ => errors | Err e => e :: errors end, R)
  end.

Definition unregister_all t R : list RegistryError * VersionState * Registries :=
  let '(taken, t) := take_registrations t in
  match tracking_registry taken, tracking_process taken with
  | Some a, Some p =>
      let '(errors, R) := withdraw_each a p (map_to_list (current_versions taken)) R in
      (errors, t, R)
  | _, _ => ([], t, R)
  end.
End tracking.

(** ** Processes that share registries

    Every process has its own key and its own tracking; other threads add and
    commit versions. *)

Section system.
Context {M : Type → Type} `{FinMap Z M} {Module : Type}.

Record System : Type := mkSystem {
  registries : gmap Z (ModuleRegistry M Module);
  trackings : gmap ProcessKey VersionState;
}.

Inductive version_op : Type :=
| VTrack (p : ProcessKey) (a module_id ver : Z)
| VTransition (p : ProcessKey) (module_id old_version new_version : Z)
| VUnregisterAll (p : ProcessKey)
| VAdd (a module_id : Z) (m : Module) (now : Z)
| VCommit (a module_id ver : Z)
| VDepend (a dependent dependency : Z).

Definition tracking_of (p : ProcessKey) (s : System) : VersionState :=
  default tracking_default (trackings s !! p).

Definition version_exec (o : version_op) (s : System) : System :=
  match o with
  | VTrack p a i ver =>
      let '(_, t, R) := track_initial_version a i ver p (tracking_of p s) (registries s) in
      mkSystem R (<[p := t]> (trackings s))
  | VTransition p i old new =>
      let '(_, t, R) := transition_current_version i old new (tracking_of p s) (registries s) in
      mkSystem R (<[p := t]> (trackings s))
  | VUnregisterAll p =>
      let '(_, t, R) := unregister_all (tracking_of p s) (registries s) in
      mkSystem R (<[p := t]> (trackings s))
  | VAdd a i m now =>
      mkSystem (alter (fun r => (add_version i m now r).2) a (registries s)) (trackings s)
  | VCommit a i ver =>
      mkSystem (alter (fun r => (mark_committed i ver r).2) a (registries s)) (trackings s)
  | VDepend a d e =>
      mkSystem (alter (add_dependency d e) a (registries s)) (trackings s)
  end.

Definition version_run (ops : list version_op) (s : System) : System :=
  foldl (fun s o => version_exec o s) s ops.

(** Registries without versions, processes that track nothing. *)
Definition fresh_system (rs : gmap Z nat) : System :=
  mkSystem (with_max_versions <$> rs) ∅.
End system.
Arguments System : clear implicits.
Arguments version_op : clear implicits.

(** ** Tracking and membership agree *)

Section theory.
Context {M : Type → Type} `{FinMap Z M} {Module : Type}.
Implicit Types (r : ModuleRegistry M Module) (R : gmap Z (ModuleRegistry M Module)).
Implicit Types (t : VersionState) (s : System M Module).

(** *** Who runs what, after an operation of a registry *)

Lemma assigned_set_history i h r j p w :
  assigned (set_history i h r) j p w ↔
  (i = j ∧ runs h p w) ∨ (i ≠ j ∧ assigned r j p w).
Proof.
  unfold assigned. setoid_rewrite history_set_history. case_decide; naive_solver.
Qed.

Lemma add_version_assigned i m now r j p w :
  wf r → assigned (add_version i m now r).2 j p w ↔ assigned r j p w.
Proof.
  intros Hwf. unfold add_version.
  destruct (push_version i m now (max_versions r) _) as [res h'] eqn:Hp. simpl.
  rewrite assigned_set_history. pose proof (proj1 Hwf).
  assert (∀ q w, runs h' q w ↔ runs (default (mkHistory 0 0 []) (history i r)) q w) as Hruns.
  { apply push_version_spec in Hp; [|lia|].
    - destruct res; [apply Hp|by destruct Hp as [-> _]].
    - destruct (history i r) eqn:Hi; [left; by apply (proj2 Hwf)|by right]. }
  rewrite Hruns. unfold assigned. destruct (decide (i = j)) as [<-|Hne]; [|naive_solver].
  destruct (history i r) as [h|] eqn:Hi; simpl; [naive_solver|].
  split; [intros [[_ (v & Hv & _)]|[? _]]; [by apply not_elem_of_nil in Hv|done]|naive_solver].
Qed.

Lemma on_history_assigned i f r j p w :
  wf r →
  (∀ h res h', wf_history (max_versions r) i h → f h = (res, h') → ∀ q v, runs h' q v ↔ runs h q v) →
  assigned (on_history i f r).2 j p w ↔ assigned r j p w.
Proof.
  intros Hwf Hf. unfold on_history. destruct (history i r) as [h|] eqn:Hi; [|done].
  destruct (f h) as [res h'] eqn:Hfh. simpl. rewrite assigned_set_history.
  rewrite (Hf h res h') by (done || by apply (proj2 Hwf)).
  unfold assigned. destruct (decide (i = j)) as [<-|]; naive_solver.
Qed.

Lemma mark_committed_assigned i ver r j p w :
  wf r → assigned (mark_committed i ver r).2 j p w ↔ assigned r j p w.
Proof.
  intros Hwf. apply on_history_assigned; [done|]. intros h res h' Hh Hc q v.
  destruct (commit_spec _ _ _ _ _ _ Hh Hc) as [_ Hr]. destruct res; [apply Hr|by destruct Hr as [-> _]].
Qed.

Lemma register_process_assigned i ver p r :
  wf r →
  let '(res, r') := register_process i ver p r in
  wf r' ∧
  match res with
  | Ok _ => ∀ j q w, assigned r' j q w ↔ assigned r j q w ∨ (j, q, w) = (i, p, ver)
  | Err _ => r' = r
  end.
Proof.
  intros Hwf. unfold register_process, on_history. destruct (history i r) as [h|] eqn:Hi; [|done].
  destruct (enroll ver p h) as [res h'] eqn:He. pose proof (proj2 Hwf i h Hi) as Hh.
  destruct (enroll_spec _ _ _ _ _ _ _ Hh He) as (Hh' & _ & Hr).
  split; [by apply set_history_wf|]. destruct res as [u|e].
  - destruct Hr as (_ & _ & Hruns). intros j q w. rewrite assigned_set_history, Hruns.
    unfold assigned. destruct (decide (i = j)) as [<-|]; naive_solver.
  - destruct Hr as [-> _]. by apply set_history_id.
Qed.

Lemma transition_process_assigned i old new p r :
  wf r →
  let '(res, r') := transition_process i old new p r in
  wf r' ∧
  match res with
  | Ok _ => ∀ j q w, assigned r' j q w ↔
      (assigned r j q w ∧ (j, q) ≠ (i, p)) ∨ (j, q, w) = (i, p, new)
  | Err _ => r' = r
  end.
Proof.
  intros Hwf. unfold transition_process, on_history. destruct (history i r) as [h|] eqn:Hi; [|done].
  destruct (transition old new p (max_versions r) h) as [res h'] eqn:He.
  pose proof (proj2 Hwf i h Hi) as Hh.
  destruct (transition_spec _ _ _ _ _ _ _ _ Hh He) as (Hh' & _ & Hr).
  split; [by apply set_history_wf|]. destruct res as [u|e].
  - destruct Hr as (_ & _ & Hruns). intros j q w. rewrite assigned_set_history, Hruns.
    unfold assigned. destruct (decide (i = j)) as [<-|]; naive_solver.
  - destruct Hr as [-> _]. by apply set_history_id.
Qed.

Lemma unregister_process_assigned i ver p r :
  wf r → assigned r i p ver →
  let '(res, r') := unregister_process i ver p r in
  wf r' ∧ res = Ok tt ∧ ∀ j q w, assigned r' j q w ↔ assigned r j q w ∧ (j, q) ≠ (i, p).
Proof.
  intros Hwf (h & Hi & Hrun). unfold unregister_process, on_history. rewrite Hi.
  destruct (withdraw ver p (max_versions r) h) as [res h'] eqn:He.
  pose proof (proj2 Hwf i h Hi) as Hh.
  destruct (withdraw_spec _ _ _ _ _ _ _ Hh He) as (Hh' & _ & Hr).
  split; [by apply set_history_wf|]. destruct res as [[]|e]; [|by destruct Hr].
  destruct Hr as (_ & Hruns). split; [done|]. intros j q w. rewrite assigned_set_history, Hruns.
  unfold assigned. destruct (decide (i = j)) as [<-|]; naive_solver.
Qed.
(** *** The invariant *)

Record system_ok s : Prop := {
  so_wf a r : registries s !! a = Some r → wf r;
  so_exact a r i p w : registries s !! a = Some r →
    assigned r i p w ↔
      tracking_registry (tracking_of p s) = Some a ∧
      current_versions (tracking_of p s) !! i = Some w;
  so_tracking p :
    match tracking_registry (tracking_of p s) with
    | Some a => is_Some (registries s !! a) ∧ tracking_process (tracking_of p s) = Some p
    | None => tracking_of p s = tracking_default
    end;
}.

Lemma tracking_of_insert R p q t s :
  tracking_of q (mkSystem R (<[p := t]> (trackings s))) =
  if decide (p = q) then t else tracking_of q s.
Proof. unfold tracking_of. simpl. rewrite lookup_insert. by case_decide. Qed.

Lemma tracking_of_id p s q : tracking_of q (mkSystem (registries s) (<[p := tracking_of p s]> (trackings s))) = tracking_of q s.
Proof. rewrite tracking_of_insert. case_decide; by subst. Qed.

Lemma system_ok_same s s' :
  system_ok s → registries s' = registries s → (∀ p, tracking_of p s' = tracking_of p s) →
  system_ok s'.
Proof.
  intros [Hwf Hex Ht] HR Htr. split.
  - rewrite HR. apply Hwf.
  - intros a r i p w. rewrite HR, Htr. apply Hex.
  - intros p. rewrite HR, Htr. apply Ht.
Qed.

(** One registry changes, and the tracking of one process with it. *)
Lemma update_system_ok s a r r' p t :
  system_ok s → registries s !! a = Some r → wf r' →
  tracking_registry t = Some a → tracking_process t = Some p →
  (∀ b, tracking_registry (tracking_of p s) = Some b → b = a) →
  (∀ i q w, assigned r' i q w ↔
     if decide (q = p) then current_versions t !! i = Some w else assigned r i q w) →
  system_ok (mkSystem (<[a := r']> (registries s)) (<[p := t]> (trackings s))).
Proof.
  intros [Hwf Hex Ht] Ha Hwf' Hreg Hproc Hsame Hass. split; simpl.
  - intros b rb. rewrite lookup_insert. case_decide; [by intros [= <-]|apply Hwf].
  - intros b rb i q w Hb. rewrite tracking_of_insert. rewrite lookup_insert in Hb.
    destruct (decide (a = b)) as [<-|Hne]; [injection Hb as <-|].
    + rewrite Hass. destruct (decide (q = p)) as [->|Hq].
      * rewrite decide_True by done. naive_solver.
      * rewrite decide_False by done. by apply Hex.
    + rewrite (Hex b rb i q w Hb). destruct (decide (p = q)) as [<-|]; [|done].
      split; [intros [Hb' _]; by apply Hsame in Hb'|intros [Hb' _]; congruence].
  - intros q. rewrite tracking_of_insert. case_decide as Hq.
    + subst q. rewrite Hreg, lookup_insert_eq. split; [by eexists|done].
    + specialize (Ht q). destruct (tracking_registry (tracking_of q s)) as [b|]; [|done].
      rewrite lookup_insert. case_decide; [split; [by eexists|apply Ht]|done].
Qed.

Lemma track_ok a i ver p s :
  system_ok s → system_ok (version_exec (VTrack p a i ver) s).
Proof.
  intros Hok. cbn [version_exec]. unfold track_initial_version.
  assert (system_ok (mkSystem (registries s) (<[p := tracking_of p s]> (trackings s)))) as Hid.
  { eapply system_ok_same; [done|done|]. intros q. apply tracking_of_id. }
  case_bool_decide as Hnone; [done|].
  destruct (match tracking_registry (tracking_of p s) with Some b => negb (b =? a) | None => false end)
    eqn:Hreg; [done|].
  destruct (match tracking_process (tracking_of p s) with Some q => bool_decide (q ≠ p) | None => false end);
    [done|].
  unfold on_registry. destruct (registries s !! a) as [r|] eqn:Ha; [|done].
  pose proof (so_wf _ Hok a r Ha) as Hwf. pose proof (register_process_assigned i ver p r Hwf) as Hr.
  destruct (register_process i ver p r) as [[u|e] r']; destruct Hr as [Hwf' Hr].
  2: { subst r'. by rewrite insert_id. }
  assert (∀ b, tracking_registry (tracking_of p s) = Some b → b = a) as Hsame.
  { intros b Hb. rewrite Hb in Hreg. apply negb_false_iff in Hreg. by apply Z.eqb_eq in Hreg. }
  eapply update_system_ok; try done. intros j q w. rewrite Hr. case_decide as Hq; [|naive_solver].
  subst q. simpl. rewrite (so_exact _ Hok a r j p w Ha), lookup_insert.
  pose proof (so_tracking _ Hok p) as Ht.
  destruct (tracking_registry (tracking_of p s)) as [b|] eqn:Hb.
  - specialize (Hsame b eq_refl). subst b. case_decide as Hj; [|naive_solver].
    subst j. split; [intros [[_ Hc]|[= ->]]; [by destruct Hnone|done]|]. intros [= ->]. by right.
  - rewrite Ht in *. simpl. rewrite lookup_empty. case_decide; naive_solver.
Qed.

Lemma transition_ok p i old new s :
  system_ok s → system_ok (version_exec (VTransition p i old new) s).
Proof.
  intros Hok. cbn [version_exec]. unfold transition_current_version.
  assert (system_ok (mkSystem (registries s) (<[p := tracking_of p s]> (trackings s)))) as Hid.
  { eapply system_ok_same; [done|done|]. intros q. apply tracking_of_id. }
  case_bool_decide as Hcur; [done|].
  pose proof (so_tracking _ Hok p) as Ht.
  destruct (tracking_registry (tracking_of p s)) as [a|] eqn:Hreg; [|done].
  destruct Ht as [[r Ha] Hp]. rewrite Hp. unfold on_registry. rewrite Ha.
  pose proof (so_wf _ Hok a r Ha) as Hwf.
  pose proof (transition_process_assigned i old new p r Hwf) as Hr.
  destruct (transition_process i old new p r) as [[u|e] r']; destruct Hr as [Hwf' Hr].
  2: { subst r'. by rewrite insert_id. }
  eapply update_system_ok; try done; [intros b Hb; congruence|].
  intros j q w. rewrite Hr. case_decide as Hq; [|naive_solver]. subst q. simpl.
  rewrite (so_exact _ Hok a r j p w Ha), lookup_insert. case_decide; naive_solver.
Qed.

(** *** Withdrawal *)

Lemma withdraw_each_spec a p vs R r :
  NoDup vs.*1 → R !! a = Some r → wf r → (∀ i w, (i, w) ∈ vs → assigned r i p w) →
  ∃ r', withdraw_each a p vs R = ([], <[a := r']> R) ∧ wf r' ∧
    ∀ j q w, assigned r' j q w ↔ assigned r j q w ∧ ~ (q = p ∧ j ∈ vs.*1).
Proof.
  revert R r. induction vs as [|[i w] vs IH]; intros R r Hnd Ha Hwf Hass.
  - exists r. simpl. rewrite insert_id by done. split_and!; [done|done|]. set_solver.
  - apply list.NoDup_cons in Hnd as [Hi Hnd]. cbn [withdraw_each]. unfold on_registry. rewrite Ha.
    pose proof (unregister_process_assigned i w p r Hwf (Hass i w (list_elem_of_here _ _))) as Hu.
    destruct (unregister_process i w p r) as [res r1]. destruct Hu as (Hwf1 & -> & Hass1).
    destruct (IH (<[a := r1]> R) r1) as (r' & Hw & Hwf' & Hass'); try done.
    + apply lookup_insert_eq.
    + intros j v Hj. apply Hass1. split; [apply Hass; by right|]. intros [= ->].
      apply Hi. by apply (list_elem_of_fmap_2 fst) in Hj.
    + rewrite Hw. exists r'. rewrite insert_insert_eq. split_and!; [done|done|].
      intros j q v. rewrite Hass', Hass1. csimpl. rewrite elem_of_cons.
      destruct (decide (j = i)), (decide (q = p)); naive_solver.
Qed.

Lemma unregister_all_spec p s :
  system_ok s →
  let '(errors, t, R) := unregister_all (tracking_of p s) (registries s) in
  errors = [] ∧ t = tracking_default ∧
  ∀ a, match registries s !! a, R !! a with
       | Some r, Some r' => wf r' ∧
           ∀ i q w, assigned r' i q w ↔ assigned r i q w ∧ q ≠ p
       | None, None => True
       | _, _ => False
       end.
Proof.
  intros Hok. unfold unregister_all, take_registrations. pose proof (so_tracking _ Hok p) as Ht.
  assert (∀ a, tracking_registry (tracking_of p s) ≠ Some a →
    match registries s !! a with
    | Some r => wf r ∧ ∀ i q w, assigned r i q w ↔ assigned r i q w ∧ q ≠ p
    | None => True
    end) as Hother.
  { intros a Hne. destruct (registries s !! a) as [r|] eqn:Ha; [|done].
    split; [by eapply so_wf|]. intros i q w. split; [|tauto]. intros Hq. split; [done|].
    intros ->. apply (so_exact _ Hok a r i p w Ha) in Hq. by destruct Hq. }
  destruct (tracking_registry (tracking_of p s)) as [a|] eqn:Hreg.
  2: { split_and!; [done|done|]. intros b. specialize (Hother b ltac:(done)).
       by destruct (registries s !! b). }
  destruct Ht as [[r Ha] Hp]. rewrite Hp.
  destruct (withdraw_each_spec a p (map_to_list (current_versions (tracking_of p s))) (registries s) r)
    as (r' & Hw & Hwf' & Hass'); [apply NoDup_fst_map_to_list|done|by eapply so_wf| |].
  { intros i w Hi%elem_of_map_to_list. by apply (so_exact _ Hok a r i p w Ha). }
  rewrite Hw. split_and!; [done|done|]. intros b. rewrite lookup_insert. case_decide as Hb.
  - subst b. rewrite Ha. split; [done|]. intros i q w. rewrite Hass'. split; [|naive_solver].
    intros [Hr Hn]. split; [done|]. intros ->. apply Hn. split; [done|].
    apply (so_exact _ Hok a r i p w Ha) in Hr as [_ Hr]. apply elem_of_map_to_list in Hr.
    by apply (list_elem_of_fmap_2 fst) in Hr.
  - specialize (Hother b ltac:(congruence)). by destruct (registries s !! b).
Qed.

Lemma unregister_all_ok p s : system_ok s → system_ok (version_exec (VUnregisterAll p) s).
Proof.
  intros Hok. cbn [version_exec]. pose proof (unregister_all_spec p s Hok) as Hu.
  destruct (unregister_all (tracking_of p s) (registries s)) as [[errors t] R].
  destruct Hu as (_ & -> & HR). split; simpl.
  - intros a r' Ha. specialize (HR a). rewrite Ha in HR. destruct (registries s !! a); [apply HR|done].
  - intros a r' i q w Ha. rewrite tracking_of_insert. specialize (HR a). rewrite Ha in HR.
    destruct (registries s !! a) as [r|] eqn:Har; [|done]. destruct HR as [_ HR]. rewrite HR.
    destruct (decide (p = q)) as [<-|]; [naive_solver|].
    rewrite (so_exact _ Hok a r i q w Har). naive_solver.
  - intros q. rewrite tracking_of_insert. case_decide; [done|].
    pose proof (so_tracking _ Hok q) as Ht. destruct (tracking_registry (tracking_of q s)) as [b|]; [|done].
    destruct Ht as [[r Hb] Hp]. split; [|done]. specialize (HR b). rewrite Hb in HR.
    destruct (R !! b); [by eexists|done].
Qed.

Lemma alter_registry_ok (f : ModuleRegistry M Module → ModuleRegistry M Module) a s :
  (∀ r, wf r → wf (f r)) → (∀ r i p w, wf r → assigned (f r) i p w ↔ assigned r i p w) →
  system_ok s → system_ok (mkSystem (alter f a (registries s)) (trackings s)).
Proof.
  intros Hf Hass [Hwf Hex Ht]. split; simpl.
  - intros b r. rewrite lookup_alter. case_decide as Hab; [|apply Hwf].
    subst b. destruct (registries s !! a) as [r0|] eqn:Ha; [|done]. intros [= <-]. by eapply Hf, Hwf.
  - intros b r i p w Hb. rewrite lookup_alter in Hb. case_decide as Hab; [|by apply Hex].
    subst b. destruct (registries s !! a) as [r0|] eqn:Ha; [|done]. injection Hb as <-.
    rewrite Hass by eauto. by apply Hex.
  - intros p. specialize (Ht p). unfold tracking_of in *. simpl.
    destruct (tracking_registry _) as [b|]; [|done]. destruct Ht as [[r Hb] Hp]. split; [|done].
    rewrite lookup_alter. destruct (decide (a = b)) as [<-|]; rewrite Hb; by eexists.
Qed.

Lemma version_exec_ok o s : system_ok s → system_ok (version_exec o s).
Proof.
  destruct o as [p a i ver|p i old new|p|a i m now|a i ver|a d e]; intros Hok.
  - by apply track_ok.
  - by apply transition_ok.
  - by apply unregister_all_ok.
  - apply alter_registry_ok; [intros r; apply add_version_wf|intros; by apply add_version_assigned|done].
  - apply alter_registry_ok; [|intros; by apply mark_committed_assigned|done].
    intros r Hwf. by apply (exec_wf (MarkCommitted i ver)).
  - apply alter_registry_ok; [|done|done]. intros r Hwf. by apply (exec_wf (AddDependency d e)).
Qed.

Lemma fresh_system_ok rs : system_ok (fresh_system rs).
Proof.
  split; simpl.
  - intros a r. rewrite lookup_fmap. destruct (rs !! a); [|done]. intros [= <-].
    apply with_max_versions_wf.
  - intros a r i p w. rewrite lookup_fmap. destruct (rs !! a); [|done]. intros [= <-].
    unfold tracking_of. simpl. rewrite lookup_empty. split; [|by intros [? _]].
    intros (h & Hh & _). unfold history in Hh. simpl in Hh. by rewrite lookup_empty in Hh.
  - intros p. unfold tracking_of. simpl. by rewrite lookup_empty.
Qed.

Lemma version_run_ok ops s : system_ok s → system_ok (version_run ops s).
Proof.
  revert s. induction ops as [|o ops IH]; intros s Hok; [done|]. by apply IH, version_exec_ok.
Qed.

(** What a process believes it runs is what the module registry knows: in
    every execution, in which processes start, are reloaded and end and other
    threads add and commit versions, a process is a member of a version of a
    module exactly when its context tracks that version.  When a process ends,
    withdrawing its registrations meets no error, leaves the process a member of
    no version of any module, and moves no other process. *)
Theorem tracking_matches_membership (rs : gmap Z nat) (ops : list (version_op Module)) :
  let s := version_run ops (fresh_system rs) in
  (∀ a r i p w, registries s !! a = Some r →
     assigned r i p w ↔
       tracking_registry (tracking_of p s) = Some a ∧
       current_version i (tracking_of p s) = Some w) ∧
  ∀ p, let '(errors, t, R) := unregister_all (tracking_of p s) (registries s) in
    errors = [] ∧ t = tracking_default ∧
    ∀ a, match registries s !! a, R !! a with
         | Some r, Some r' => ∀ i q w, assigned r' i q w ↔ assigned r i q w ∧ q ≠ p
         | None, None => True
         | _, _ => False
         end.
Proof.
  intros s. assert (system_ok s) as Hok by apply version_run_ok, fresh_system_ok. split.
  - intros a r i p w. apply (so_exact _ Hok).
  - intros p. pose proof (unregister_all_spec p s Hok) as Hu.
    destruct (unregister_all _ _) as [[errors t] R]. destruct Hu as (? & ? & HR).
    split_and!; [done|done|]. intros a. specialize (HR a).
    destruct (registries s !! a), (R !! a); try done. apply HR.
Qed.
End theory.

(** ** A process that is reloaded *)

Definition demo_key : ProcessKey := mkKey 1 7.
Definition demo_version_ops : list (version_op unit) :=
  [VAdd 0 5 tt 10; VAdd 0 5 tt 11; VTrack demo_key 0 5 0; VTransition demo_key 5 0 1].
Definition demo_system : System (gmap Z) unit :=
  version_run demo_version_ops (fresh_system {[ 0 := 2%nat ]}).
Definition demo_registry : ModuleRegistry (gmap Z) unit :=
  default new (registries demo_system !! 0).

Lemma demo_registry_lookup : registries demo_system !! 0 = Some demo_registry.
Proof. by vm_compute. Qed.

Lemma tracking_matches_membership_witness : assigned demo_registry 5 demo_key 1.
Proof.
  destruct (tracking_matches_membership (M := gmap Z) {[ 0 := 2%nat ]} demo_version_ops) as [Hex _].
  apply (Hex 0 demo_registry 5 demo_key 1 demo_registry_lookup). by vm_compute.
Defined.
