(* ===== verification/Process.v ===== *)
(** * The life of a process: [crates/lunatic-process/src/lib.rs]
      ([run_native_process], [new], [ProcessTaskGuard])

    A process is a task that owns the receiving end of its ingress.  Its loop
    takes a signal when there is one and otherwise runs the process's own code;
    signals become messages of the mailbox, links that died kill or are turned
    into messages, monitors are recorded, reloads are queued for the execution
    driver.  When the loop ends the process is unregistered, its ingress is
    closed and drained, its links are told, and every remaining monitor gets the
    notification whose mailbox slot it has held since it was admitted.

    The process's own code is not part of this file: it runs between the
    iterations, as other threads do.  An [expect] that fails is [None]. *)

From S2P Require Import Prelude External Message Mailbox ModuleRegistry Versions.
From S2P Require Import Environment Signal Link.

(** ** Reload acknowledgements *)

(** Errors of [validate_reload_target] and [perform_pending_reload]. *)
Inductive PendingReloadError : Type :=
| NoModuleRegistry
| ReloadVersionNotFound (version : Z)
| OldVersionNotFound (version : Z)
| IncompatibleSignatures (count : Z)
| NoInstance
| NoMemoryExport
| FuelNotEnabled
| ReplacementStateFailed
| InstantiationFailed
| MemoryGrowFailed
| ReplacementMemoryTooSmall
| ResourceTransferFailed.

Inductive ReloadFailure : Type :=
| NotSupported
| NoReloadContext
| UnregisteredModule (module_id : Z)
| QueueRefused
| VersionConflict (expected : option Z) (running : Z)
| ReloadError (e : PendingReloadError)
| AccountingReverted (e : TrackError)
| AccountingLost (e : TrackError) (revert : PendingReloadError).

Inductive ProcessReloadStatus : Type :=
| Applied
| AlreadyAtTarget
| Failed (f : ReloadFailure).

Definition is_success (s : ProcessReloadStatus) : bool :=
  match s with Applied | AlreadyAtTarget => true | Failed _ => false end.

Record ReloadAcknowledgement : Type := mkAck {
  ack_process_id : Z;
  ack_module_id : Z;
  previous_version : Z;
  ack_current_version : Z;
  status : ProcessReloadStatus;
}.

(** Events of the runtime, and answers on a reload channel. *)
Inductive output : Type :=
| OEvent (e : event)
| OReload (acknowledgement : Z) (r : ReloadAcknowledgement).

Definition acknowledge_reload (acknowledgement : option Z) (process_id module_id previous current : Z)
    (st : ProcessReloadStatus) : list output :=
  match acknowledgement with
  | Some a => [OReload a (mkAck process_id module_id previous current st)]
  | None => []
  end.

Inductive ReloadAction : Type := ActHotReload | ActRollback.

Inductive ReloadCommand : Type :=
| CmdHotReload (module_id : Z) (expected_version : option Z) (new_version : Z)
    (acknowledgement : option Z)
| CmdRollback (module_id : Z) (expected_version : option Z) (target_version : Z)
    (acknowledgement : option Z).

Definition into_parts (c : ReloadCommand) : ReloadAction * Z * option Z * Z * option Z :=
  match c with
  | CmdHotReload m e v a => (ActHotReload, m, e, v, a)
  | CmdRollback m e v a => (ActRollback, m, e, v, a)
  end.

(** [MonitorRelations]: who observes the process, and the slot in its mailbox;
    every relation also holds a permit of the process's monitor admission. *)
Record MonitorRelation : Type := mkMonitor {
  observer : ProcessRef;
  notification : option MonitorNotification;
}.

Inductive Finished : Type :=
| FinishedNormal (succeeded : bool)
| FinishedKill
| FinishedPanic.

(** The reason that the end of the loop gives to links and monitors. *)
Definition death_reason_of (f : Finished) : DeathReason :=
  match f with
  | FinishedNormal true => Normal
  | FinishedNormal false | FinishedKill | FinishedPanic => Failure
  end.

Section process.
Context {Sem : Type} `{!Semaphore Sem} {Chan : Type → Type} `{!Channel Chan}.
Context {M : Type → Type} `{FinMap Z M} {Module : Type}.
Abbreviation Ingresses := (gmap Z (Ingress Sem Chan)).
Implicit Types (w : gmap Z (Ingress Sem Chan)) (W : World Sem Chan).

(** The part of [ProcessContext] the loop uses. *)
Record Context : Type := mkContext {
  reload_queue : Chan ReloadCommand;
  version_tracking : VersionState;
}.

(** [run_native_process], or [new] with its [context]. *)
Inductive Kind : Type :=
| Native
| Managed (context : option Context).

Record Loop : Type := mkLoop {
  kind : Kind;
  die_when_link_dies : bool;
  monitors : gmap Z MonitorRelation;
  has_sender : bool;
}.

Definition loop_start (k : Kind) : Loop := mkLoop k true ∅ true.

Definition set_kind (k : Kind) (L : Loop) : Loop :=
  mkLoop k (die_when_link_dies L) (monitors L) (has_sender L).
Definition set_die (b : bool) (L : Loop) : Loop :=
  mkLoop (kind L) b (monitors L) (has_sender L).
Definition set_monitors (ms : gmap Z MonitorRelation) (L : Loop) : Loop :=
  mkLoop (kind L) (die_when_link_dies L) ms (has_sender L).
Definition set_has_sender (b : bool) (L : Loop) : Loop :=
  mkLoop (kind L) (die_when_link_dies L) (monitors L) b.

(** ** Pieces of the loop; [a] is the address of the process's ingress *)

(** [push_with_permit(message, permit.expect(..)).expect(..)] *)
Definition push_reserved (a : Z) (m : Message) (mp : option MailboxPermit) w
    : option (Ingresses * list event) :=
  q ← mp;
  p ← w !! a;
  match push_with_permit m q (message_mailbox p) with
  | (Ok _, mb, wakers) => Some (<[a := set_mailbox mb p]> w, EWake <$> wakers)
  | (Err _, _, _) => None
  end.

(** What is left of an envelope at the end of an iteration is dropped. *)
Definition drop_parts (a : Z) (mp : option MailboxPermit) (mop : bool)
    (n : option MonitorNotification) w : Ingresses :=
  drop_notification n (drop_monitor_permit a mop (drop_mailbox_permit a mp w)).

Definition drop_relation (a : Z) (o : option MonitorRelation) w : Ingresses :=
  match o with
  | Some r => drop_notification (notification r) (drop_monitor_permit a true w)
  | None => w
  end.

(** [admit_monitor]; a relation it replaces is dropped. *)
Definition admit_monitor (a : Z) (obs : ProcessRef) (ack : option Z) (mop : bool)
    (n : option MonitorNotification) (ms : gmap Z MonitorRelation) w
    : option (gmap Z MonitorRelation * Ingresses * list event) :=
  if mop then
    Some (<[ref_id obs := mkMonitor obs n]> ms, drop_relation a (ms !! ref_id obs) w,
          acknowledge ack)
  else None.

(** [monitors.remove(&process_id)] *)
Definition stop_monitoring (a process_id : Z) (ms : gmap Z MonitorRelation) w
    : gmap Z MonitorRelation * Ingresses :=
  (delete process_id ms, drop_relation a (ms !! process_id) w).

(** [ProcessContext::request_reload] *)
Definition request_reload (c : ReloadCommand) (ctx : Context)
    : result Context (TrySendError ReloadCommand) :=
  match try_send c (reload_queue ctx) with
  | Ok q => Ok (mkContext q (version_tracking ctx))
  | Err e => Err e
  end.

(** The arms of [HotReload] and [Rollback]. *)
Definition reload_signal (process_id module_id : Z) (c : ReloadCommand) (ack : option Z) (k : Kind)
    : Kind * list output :=
  match k with
  | Native =>
      (k, acknowledge_reload ack process_id module_id 0 0 (Failed NotSupported))
  | Managed None =>
      (k, acknowledge_reload ack process_id module_id 0 0 (Failed NoReloadContext))
  | Managed (Some ctx) =>
      match current_version module_id (version_tracking ctx) with
      | None =>
          (k, acknowledge_reload ack process_id module_id 0 0
                (Failed (UnregisteredModule module_id)))
      | Some old_version =>
          match request_reload c ctx with
          | Ok ctx => (Managed (Some ctx), [])
          | Err (ChanFull c | ChanClosed c) =>
              let '(_, _, _, _, ack) := into_parts c in
              (k, acknowledge_reload ack process_id module_id old_version old_version
                    (Failed QueueRefused))
          end
      end
  end.

(** ** One signal *)

Inductive Flow : Type :=
| Continue (L : Loop)
| Break (f : Finished).

Abbreviation Iteration := (option (Flow * World Sem Chan * list output)).

(** An arm that moves the signal to the mailbox, and one that does not. *)
Definition to_mailbox (a : Z) (m : Message) (mp : option MailboxPermit) (mop : bool)
    (n : option MonitorNotification) (L : Loop) W : Iteration :=
  '(w, evs) ← push_reserved a m mp (ingresses W);
  Some (Continue L, set_ingresses (drop_parts a None mop n w) W, map OEvent evs).

Definition consumed (a : Z) (mp : option MailboxPermit) (mop : bool)
    (n : option MonitorNotification) (f : Flow) W (outs : list output) : Iteration :=
  Some (f, set_ingresses (drop_parts a mp mop n (ingresses W)) W, outs).

Definition handle_signal (h : Handle) (L : Loop) (e : SignalEnvelope) W
    : Iteration :=
  let a := h_addr h in
  let '(s, mp, mop, n) := into_process_parts e in
  let W := set_ingresses (drop_data_permit a (data_queue_permit e) (ingresses W)) W in
  match s with
  | SMessage m => to_mailbox a m mp mop n L W
  | DieWhenLinkDies b => consumed a mp mop n (Continue (set_die b L)) W []
  | Signal.Link _ _ | UnLink _ => consumed a mp mop n (Continue L) W []
  | SLinkDied process_id tag reason =>
      let '(_, W) := unlink_peer h process_id W in
      match reason with
      | Failure | NoProcess =>
          if die_when_link_dies L then consumed a mp mop n (Break FinishedKill) W []
          else to_mailbox a (LinkDied tag) mp mop n L W
      | Normal => consumed a mp mop n (Continue L) W []
      end
  | Monitor obs ack =>
      '(ms, w, evs) ← admit_monitor a obs ack mop n (monitors L) (ingresses W);
      Some (Continue (set_monitors ms L),
            set_ingresses (drop_mailbox_permit a mp w) W, map OEvent evs)
  | StopMonitoring process_id =>
      let '(ms, w) := stop_monitoring a process_id (monitors L) (ingresses W) in
      consumed a mp mop n (Continue (set_monitors ms L)) (set_ingresses w W) []
  | SProcessDied process_id reason => to_mailbox a (ProcessDied process_id reason) mp mop n L W
  | Kill => consumed a mp mop n (Break FinishedKill) W []
  | HotReload m ev nv ack =>
      let '(k, outs) := reload_signal (h_id h) m (CmdHotReload m ev nv ack) ack (kind L) in
      consumed a mp mop n (Continue (set_kind k L)) W outs
  | Rollback m ev tv ack =>
      let '(k, outs) := reload_signal (h_id h) m (CmdRollback m ev tv ack) ack (kind L) in
      consumed a mp mop n (Continue (set_kind k L)) W outs
  end.

(** The signal branch of [select!], tried first: [None] of the inner option when
    it is not ready and the process's own code runs. *)
Definition poll_signal (h : Handle) (L : Loop) W
    : option Iteration :=
  match ingresses W !! h_addr h with
  | None => None  (* not reached: the task owns the receiver *)
  | Some p =>
      if has_sender L then
        let '(r, p) := recv p in
        let W := set_ingresses (<[h_addr h := p]> (ingresses W)) W in
        match r with
        | RecvReady (Some e) => Some <$> handle_signal h L e W
        | RecvReady None => Some (Some (Continue (set_has_sender false L), W, []))
        | RecvPending => Some None
        end
      else Some None
  end.

(** ** The end of a process *)

(** One signal of the loop of [close_signal_ingress]. *)
Definition drain_signal (a : Z) (e : SignalEnvelope) (ms : gmap Z MonitorRelation) w
    : option (gmap Z MonitorRelation * Ingresses * list event) :=
  let w := drop_data_permit a (data_queue_permit e) w in
  let '(s, mp, mop, n) := into_process_parts e in
  match s with
  | Monitor obs ack =>
      '(ms, w, evs) ← admit_monitor a obs ack mop n ms w;
      Some (ms, drop_mailbox_permit a mp w, evs)
  | StopMonitoring process_id =>
      let '(ms, w) := stop_monitoring a process_id ms w in
      Some (ms, drop_parts a mp mop n w, [])
  | _ => Some (ms, drop_parts a mp mop n w, [])
  end.

(** That loop, over what was queued when the ingress closed; [fuel] bounds the
    signals it takes. *)
Fixpoint drain (fuel : nat) (a : Z) (ms : gmap Z MonitorRelation) w
    : option (gmap Z MonitorRelation * Ingresses * list event) :=
  p ← w !! a;
  match guard_try_recv p with
  | (None, p) => Some (ms, <[a := p]> w, [])
  | (Some e, p) =>
      match fuel with
      | O => None
      | S fuel =>
          '(ms, w, evs) ← drain_signal a e ms (<[a := p]> w);
          '(ms, w, evs') ← drain fuel a ms w;
          Some (ms, w, evs ++ evs')
      end
  end.

Definition close_signal_ingress (a : Z) (ms : gmap Z MonitorRelation) (reason : DeathReason) w
    : option (gmap Z MonitorRelation * Ingresses * list event) :=
  p ← w !! a;
  let p := close_with_reason reason p in
  drain (length (queued (queue p))) a ms (<[a := p]> w).

(** The notifications of the remaining monitors; each relation's permit is
    dropped with it. *)
Fixpoint notify_monitors (a process_id : Z) (reason : DeathReason) (ms : list (Z * MonitorRelation))
    w : Ingresses * list event :=
  match ms with
  | [] => (w, [])
  | (_, r) :: ms =>
      let '(w, evs) :=
        match notification r with
        | Some n => deliver n process_id reason w
        | None =>
            let '(_, w, evs) := ref_send (observer r) (SProcessDied process_id reason) w in (w, evs)
        end in
      let w := drop_monitor_permit a true w in
      let '(w, evs') := notify_monitors a process_id reason ms w in
      (w, evs ++ evs')
  end.

(** [ProcessTaskGuard] *)
Record Guard : Type := mkGuard {
  registration : option ProcessRegistration;
  lifecycle : Handle;
  finished : bool;
}.

Definition guard_new (r : ProcessRegistration) (h : Handle) : Guard := mkGuard (Some r) h false.

(** [ProcessTaskGuard::unregister]: the exit hooks that ran. *)
Definition unregister (g : Guard) (i : Inner M) (q : NodeProcessQuota)
    : option (list Z * Guard * Inner M * NodeProcessQuota) :=
  match registration g with
  | None => Some ([], g, i, q)
  | Some r =>
      '(_, hooks, _, i, q) ← unregister_inner r i q;
      Some (hooks, mkGuard None (lifecycle g) (finished g), i, q)
  end.

(** [finish], and the destructor of a guard that was not finished: the task was
    cancelled. *)
Definition finish (g : Guard) (reason : DeathReason) W (i : Inner M) (q : NodeProcessQuota)
    : option (list Z * Guard * World Sem Chan * Inner M * NodeProcessQuota * list event) :=
  '(hooks, g, i, q) ← unregister g i q;
  let '(W, evs) := terminate (lifecycle g) reason W in
  Some (hooks, mkGuard (registration g) (lifecycle g) true, W, i, q, evs).

Definition guard_drop (g : Guard) W (i : Inner M) (q : NodeProcessQuota)
    : option (list Z * Guard * World Sem Chan * Inner M * NodeProcessQuota * list event) :=
  if finished g then Some ([], g, W, i, q, []) else finish g NoProcess W i q.

(** The node as one process sees it. *)
Record Runtime : Type := mkRuntime {
  world : World Sem Chan;
  environment : Inner M;
  node_quota : NodeProcessQuota;
  module_registries : gmap Z (ModuleRegistry M Module);
}.

(** [context.unregister_all_versions()] *)
Definition unregister_all_versions (k : Kind) (R : gmap Z (ModuleRegistry M Module))
    : gmap Z (ModuleRegistry M Module) :=
  match k with
  | Managed (Some ctx) => (unregister_all (version_tracking ctx) R).2
  | _ => R
  end.

(** What follows the loop. *)
Definition run_exit (g : Guard) (L : Loop) (f : Finished) (T : Runtime)
    : option (list Z * Runtime * list event) :=
  let h := lifecycle g in
  let R := unregister_all_versions (kind L) (module_registries T) in
  let reason := death_reason_of f in
  '(hooks, g, i, q) ← unregister g (environment T) (node_quota T);
  '(ms, w, evs) ← close_signal_ingress (h_addr h) (monitors L) reason (ingresses (world T));
  '(hooks', _, W, i, q, evs') ← finish g reason (set_ingresses w (world T)) i q;
  let '(w, evs'') := notify_monitors (h_addr h) (h_id h) reason (map_to_list ms) (ingresses W) in
  Some (hooks ++ hooks', mkRuntime (set_ingresses w W) i q R, evs ++ evs' ++ evs'').
End process.
Arguments Context : clear implicits.
Arguments Kind : clear implicits.
Arguments Loop : clear implicits.
Arguments Flow : clear implicits.

(** ** Well-admitted signals

    Every queued envelope carries the permits its signal needs, and they belong
    to the mailboxes they will be used in. *)

Section admission.
Context {Sem : Type} `{!Semaphore Sem, !SemaphoreLaws Sem}.
Context {Chan : Type → Type} `{!Channel Chan, !ChannelLaws Chan}.
Implicit Types (w : gmap Z (Ingress Sem Chan)) (p : Ingress Sem Chan).

Definition notification_ok w (n : MonitorNotification) : Prop :=
  ∃ p, w !! mn_addr n = Some p ∧ belongs_to (mn_permit n) (message_mailbox p) = true.

(** A built-in observer reserved a slot in its own mailbox; a foreign one is
    notified by a signal. *)
Definition observer_slot (obs : ProcessRef) (n : option MonitorNotification) : Prop :=
  match obs with
  | Builtin _ b => ∃ q, n = Some (mkNotification b q)
  | Custom _ => n = None
  end.

Record envelope_ok w p (e : SignalEnvelope) : Prop := {
  eo_mailbox : if reserves_mailbox_capacity (signal e)
    then ∃ q, mailbox_permit e = Some q ∧ belongs_to q (message_mailbox p) = true
    else mailbox_permit e = None;
  eo_limit m : signal e = SMessage m → limit_violation (message_mailbox p) m = None;
  eo_monitor : monitor_permit e = is_monitor (signal e);
  eo_notification n : monitor_notification e = Some n →
    is_monitor (signal e) = true ∧ notification_ok w n;
  eo_observer obs ack : signal e = Monitor obs ack → observer_slot obs (monitor_notification e);
}.

Record ingress_ok w p : Prop := {
  io_bytes : sender_max_message_bytes p = max_message_bytes (message_mailbox p);
  io_resources : sender_max_message_resources p = max_message_resources (message_mailbox p);
  io_mailbox : Mailbox.wf (message_mailbox p);
  io_queue : Forall (envelope_ok w p) (queued (queue p));
}.

Definition world_ok w : Prop := ∀ a p, w !! a = Some p → ingress_ok w p.

(** What no operation changes. *)
Record shape p p' : Prop := {
  sh_admission : admission_id (message_mailbox p') = admission_id (message_mailbox p);
  sh_bytes : max_message_bytes (message_mailbox p') = max_message_bytes (message_mailbox p);
  sh_resources :
    max_message_resources (message_mailbox p') = max_message_resources (message_mailbox p);
  sh_sender_bytes : sender_max_message_bytes p' = sender_max_message_bytes p;
  sh_sender_resources : sender_max_message_resources p' = sender_max_message_resources p;
}.

#[export] Instance shape_preorder : PreOrder shape.
Proof.
  split; [by intros p|]. intros p1 p2 p3 [] []. split; congruence.
Qed.

(** The same addresses hold ingresses of the same shape. *)
Definition same_shape w w' : Prop :=
  ∀ a, match w !! a, w' !! a with
       | Some p, Some p' => shape p p'
       | None, None => True
       | _, _ => False
       end.

#[export] Instance same_shape_preorder : PreOrder same_shape.
Proof.
  split; [intros w a; by destruct (w !! a)|]. intros w1 w2 w3 H12 H23 a.
  specialize (H12 a). specialize (H23 a).
  destruct (w1 !! a), (w2 !! a), (w3 !! a); try done. by etrans.
Qed.

Lemma same_shape_lookup w w' a p :
  same_shape w w' → w !! a = Some p → ∃ p', w' !! a = Some p' ∧ shape p p'.
Proof.
  intros Hs Ha. specialize (Hs a). rewrite Ha in Hs. destruct (w' !! a) as [p'|]; [|done].
  by exists p'.
Qed.

Lemma belongs_to_shape q p p' :
  shape p p' → belongs_to q (message_mailbox p') = belongs_to q (message_mailbox p).
Proof. intros Hs. unfold belongs_to. by rewrite (sh_admission _ _ Hs). Qed.

Lemma limit_violation_shape m p p' :
  shape p p' → limit_violation (message_mailbox p') m = limit_violation (message_mailbox p) m.
Proof. intros [_ Hb Hr _ _]. unfold limit_violation. by rewrite Hb, Hr. Qed.

Lemma notification_ok_shape w w' n : same_shape w w' → notification_ok w n → notification_ok w' n.
Proof.
  intros Hs (p & Hp & Hb). destruct (same_shape_lookup w w' _ p Hs Hp) as (p' & Hp' & Hsh).
  exists p'. by rewrite (belongs_to_shape _ _ _ Hsh).
Qed.

Lemma envelope_ok_shape w w' p p' e :
  same_shape w w' → shape p p' → envelope_ok w p e → envelope_ok w' p' e.
Proof.
  intros Hw Hs [Hm Hl Hmo Hn Ho]. split; [| | | |done].
  - destruct (reserves_mailbox_capacity (signal e)); [|done].
    destruct Hm as (q & ? & ?). exists q. by rewrite (belongs_to_shape _ _ _ Hs).
  - intros m He. rewrite (limit_violation_shape _ _ _ Hs). by apply Hl.
  - done.
  - intros n Hen. destruct (Hn n Hen). split; [done|]. by eapply notification_ok_shape.
Qed.

(** *** What sending does to a world *)

Definition evolves_at w' p p' : Prop :=
  shape p p' ∧
  (Mailbox.wf (message_mailbox p) → Mailbox.wf (message_mailbox p') ∧
     ∃ k, pending (message_mailbox p') = pending (message_mailbox p) ++ k) ∧
  ∃ l, queued (queue p') = queued (queue p) ++ l ∧ Forall (envelope_ok w' p') l.

Definition evolves w w' : Prop :=
  ∀ a, match w !! a, w' !! a with
       | Some p, Some p' => evolves_at w' p p'
       | None, None => True
       | _, _ => False
       end.

Lemma evolves_shape w w' : evolves w w' → same_shape w w'.
Proof.
  intros He a. specialize (He a). destruct (w !! a), (w' !! a); try done. by destruct He.
Qed.

#[export] Instance evolves_preorder : PreOrder evolves.
Proof.
  split.
  - intros w a. destruct (w !! a) as [p|]; [|done]. split_and!; [done| |].
    + intros Hwf. split; [done|]. exists []. by rewrite app_nil_r.
    + exists []. by rewrite app_nil_r.
  - intros w1 w2 w3 H12 H23 a. pose proof (evolves_shape _ _ H23) as Hs.
    specialize (H12 a). specialize (H23 a).
    destruct (w1 !! a) as [p1|], (w2 !! a) as [p2|], (w3 !! a) as [p3|]; try done.
    destruct H12 as (Hs12 & Hm12 & l1 & Hl1 & Hok1), H23 as (Hs23 & Hm23 & l2 & Hl2 & Hok2).
    split_and!; [by etrans| |].
    + intros Hwf. destruct (Hm12 Hwf) as (Hwf2 & k1 & Hk1). destruct (Hm23 Hwf2) as (Hwf3 & k2 & Hk2).
      split; [done|]. exists (k1 ++ k2). by rewrite Hk2, Hk1, app_assoc.
    + exists (l1 ++ l2). rewrite Hl2, Hl1, app_assoc. split; [done|].
      apply list.Forall_app. split; [|done]. eapply list.Forall_impl; [done|].
      intros e. by apply envelope_ok_shape.
Qed.

Lemma evolves_ok w w' : evolves w w' → world_ok w → world_ok w'.
Proof.
  intros He Hok a p' Ha. pose proof (evolves_shape _ _ He) as Hs. specialize (He a). rewrite Ha in He.
  destruct (w !! a) as [p|] eqn:Hp; [|done]. destruct (Hok a p Hp) as [Hb Hr Hwf Hq].
  destruct He as (Hsh & Hm & l & Hl & Hlok). pose proof Hsh as [? ? ? ? ?]. split; [congruence..| |].
  - by apply Hm.
  - rewrite Hl. apply list.Forall_app. split; [|done]. eapply list.Forall_impl; [done|].
    intros e. by apply envelope_ok_shape.
Qed.

(** Permits move, and nothing else. *)
Definition quiet p p' : Prop :=
  shape p p' ∧ queue p' = queue p ∧ inner (message_mailbox p') = inner (message_mailbox p).

Lemma quiet_evolves_at w' p p' : quiet p p' → evolves_at w' p p'.
Proof.
  intros (Hs & Hq & Hi). split_and!; [done| |].
  - intros [Hf Hp]. unfold pending, pending_admitted. rewrite Hi. split.
    + split; [by rewrite Hi|]. unfold pending_admitted in *. rewrite Hi.
      by rewrite (sh_admission _ _ Hs).
    + exists []. by rewrite app_nil_r.
  - exists []. by rewrite Hq, app_nil_r.
Qed.

Lemma evolves_at_refl w' p : evolves_at w' p p.
Proof. by apply quiet_evolves_at. Qed.

Lemma alter_evolves f a w : (∀ p, quiet p (f p)) → evolves w (alter f a w).
Proof.
  intros Hf b. rewrite lookup_alter. case_decide as Hab.
  - subst b. destruct (w !! a) as [p|]; [|done]. by apply quiet_evolves_at.
  - destruct (w !! b); [|done]. apply evolves_at_refl.
Qed.

Lemma insert_evolves a p p' w :
  w !! a = Some p → (∀ w', same_shape w w' → evolves_at w' p p') → evolves w (<[a := p']> w).
Proof.
  intros Ha He. assert (same_shape w (<[a := p']> w)) as Hs.
  { intros b. rewrite lookup_insert. case_decide as Hab.
    - subst b. rewrite Ha. by destruct (He w) as [? _].
    - by destruct (w !! b). }
  intros b. rewrite lookup_insert. case_decide as Hab.
  - subst b. rewrite Ha. by apply He.
  - destruct (w !! b); [|done]. apply evolves_at_refl.
Qed.

(** *** Sends *)

(** Destructors of permits only move permits. *)
Definition quiets w w' : Prop :=
  ∀ a, match w !! a, w' !! a with
       | Some p, Some p' => quiet p p' ∧ lifecycle_death_reason p' = lifecycle_death_reason p
       | None, None => True
       | _, _ => False
       end.

#[export] Instance quiets_preorder : PreOrder quiets.
Proof.
  split; [intros w a; by destruct (w !! a)|]. intros w1 w2 w3 H12 H23 a.
  specialize (H12 a). specialize (H23 a).
  destruct (w1 !! a), (w2 !! a), (w3 !! a); try done.
  destruct H12 as [(? & ? & ?) ?], H23 as [(? & ? & ?) ?].
  split; [split_and!; [by etrans|congruence..]|congruence].
Qed.

Lemma quiets_evolves w w' : quiets w w' → evolves w w'.
Proof.
  intros Hq a. specialize (Hq a). destruct (w !! a), (w' !! a); try done.
  destruct Hq. by apply quiet_evolves_at.
Qed.

Lemma alter_quiets f a w :
  (∀ p, quiet p (f p) ∧ lifecycle_death_reason (f p) = lifecycle_death_reason p) →
  quiets w (alter f a w).
Proof.
  intros Hf b. rewrite lookup_alter. case_decide as Hab; [subst b|].
  - destruct (w !! a); [apply Hf|done].
  - by destruct (w !! b).
Qed.

Lemma drop_mailbox_permit_quiets a o w : quiets w (drop_mailbox_permit a o w).
Proof.
  destruct o as [q|]; [|done]. apply alter_quiets. intros p. unfold drop_permit.
  by destruct (belongs_to q (message_mailbox p)).
Qed.

Lemma drop_data_permit_quiets a b w : quiets w (drop_data_permit a b w).
Proof. destruct b; [|done]. by apply alter_quiets. Qed.

Lemma drop_monitor_permit_quiets a b w : quiets w (drop_monitor_permit a b w).
Proof. destruct b; [|done]. by apply alter_quiets. Qed.

Lemma drop_notification_quiets o w : quiets w (drop_notification o w).
Proof. destruct o; [|done]. apply drop_mailbox_permit_quiets. Qed.

#[local] Hint Resolve drop_mailbox_permit_quiets drop_data_permit_quiets drop_monitor_permit_quiets
  drop_notification_quiets quiets_evolves : lunatic.

Lemma drop_parts_quiets a mp mop n w : quiets w (drop_parts a mp mop n w).
Proof. unfold drop_parts. peel. Qed.

Lemma drop_relation_quiets a o w : quiets w (drop_relation a o w).
Proof. destruct o as [r|]; [|done]. unfold drop_relation. peel. Qed.

Lemma drop_mailbox_permit_evolves a o w : evolves w (drop_mailbox_permit a o w).
Proof. apply quiets_evolves, drop_mailbox_permit_quiets. Qed.

Lemma drop_data_permit_evolves a b w : evolves w (drop_data_permit a b w).
Proof. apply quiets_evolves, drop_data_permit_quiets. Qed.

Lemma drop_monitor_permit_evolves a b w : evolves w (drop_monitor_permit a b w).
Proof. apply quiets_evolves, drop_monitor_permit_quiets. Qed.

Lemma drop_notification_evolves o w : evolves w (drop_notification o w).
Proof. apply quiets_evolves, drop_notification_quiets. Qed.

Lemma drop_envelope_evolves a e w : evolves w (drop_envelope a e w).
Proof. unfold drop_envelope. peel. Qed.

Lemma try_reserve_quiet p q mb :
  try_reserve (message_mailbox p) = Some (q, mb) →
  quiet p (set_mailbox mb p) ∧ belongs_to q mb = true.
Proof.
  unfold try_reserve. destruct (try_acquire_owned _); [|done]. intros [= <- <-].
  split; [done|]. apply Z.eqb_refl.
Qed.

Lemma reserve_evolves r w :
  evolves w (reserve_monitor_notification r w).2 ∧
  ∀ o, (reserve_monitor_notification r w).1 = Ok o → observer_slot r o ∧
    ∀ n, o = Some n → notification_ok (reserve_monitor_notification r w).2 n.
Proof.
  unfold reserve_monitor_notification. destruct r as [id b|id].
  2: { split; [done|]. by intros o [= <-]. }
  destruct (w !! b) as [p|] eqn:Hb; [|done]. destruct (chan_is_closed _); [done|].
  destruct (try_reserve _) as [[q mb]|] eqn:Hq; [|done]. apply try_reserve_quiet in Hq as [Hq Hbel].
  simpl. split.
  - eapply insert_evolves; [done|]. intros w' _. by apply quiet_evolves_at.
  - intros o [= <-]. split; [by eexists|]. intros n [= <-]. exists (set_mailbox mb p). simpl.
    by rewrite lookup_insert_eq.
Qed.

(** A push into the mailbox at [a]. *)
Lemma push_evolves a p m q mb wakers w :
  w !! a = Some p → push_with_permit m q (message_mailbox p) = (Ok tt, mb, wakers) →
  evolves w (<[a := set_mailbox mb p]> w) ∧
  (Mailbox.wf (message_mailbox p) → pending mb = pending (message_mailbox p) ++ [m]).
Proof.
  intros Ha Hp.
  assert (Mailbox.wf (message_mailbox p) → pending mb = pending (message_mailbox p) ++ [m] ∧
    Mailbox.wf mb) as Hwf.
  { intros Hwf. pose proof (push_with_permit_refines m q _ Hwf) as Hr. rewrite Hp in Hr.
    destruct Hr as (? & ? & _). done. }
  split; [|intros H; by apply Hwf]. eapply insert_evolves; [done|]. intros w' Hw. split_and!.
  - unfold push_with_permit in Hp.
    destruct (belongs_to q (message_mailbox p)); [|done]. simpl in Hp.
    destruct (limit_violation _ _) as [[]|]; [done..|].
    destruct (waker _); [destruct (matches _ _)|]; by simplify_eq.
  - intros H. simpl. destruct (Hwf H) as [Hpend ?]. split; [done|]. by exists [m].
  - exists []. simpl. by rewrite app_nil_r.
Qed.

Lemma push_error_same m q (mb mb' : MessageMailbox Sem) e wakers :
  push_with_permit m q mb = (Err e, mb', wakers) → mb' = mb.
Proof.
  unfold push_with_permit. destruct (belongs_to q mb); simpl; [|congruence].
  destruct (limit_violation _ _) as [[]|]; [congruence..|].
  destruct (waker _); [destruct (matches _ _)|]; done.
Qed.

Lemma deliver_evolves n process_id reason w : evolves w (deliver n process_id reason w).1.
Proof.
  unfold deliver. destruct (w !! mn_addr n) as [p|] eqn:Hp; [|done].
  destruct (push_with_permit _ _ _) as [[[[]|e] mb] wakers] eqn:Hpush; simpl.
  - by eapply push_evolves.
  - apply push_error_same in Hpush as ->. etrans; [|peel].
    eapply insert_evolves; [done|]. intros. by apply quiet_evolves_at.
Qed.

(** Completing a monitor, given that the inner send behaves. *)
Definition send_evolves (send : ProcessRef → Signal → gmap Z (Ingress Sem Chan) →
    result unit SignalSendError * gmap Z (Ingress Sem Chan) * list event) : Prop :=
  ∀ r s w, world_ok w → evolves w (send r s w).1.2.

Lemma complete_exited_monitor_evolves send obs ack n process_id reason w :
  send_evolves send → world_ok w →
  evolves w (complete_exited_monitor send obs ack n process_id reason w).1.
Proof.
  intros Hsend Hok. unfold complete_exited_monitor. destruct n as [n|].
  - pose proof (deliver_evolves n process_id reason w) as Hd. by destruct (deliver n process_id reason w).
  - pose proof (Hsend obs (SProcessDied process_id reason) w Hok) as Hs.
    by destruct (send obs _ w) as [[? ?] ?].
Qed.

Lemma complete_monitor_evolves send process_id reason s w :
  send_evolves send → world_ok w →
  evolves w (complete_monitor_after_exit send process_id reason s w).1.2.
Proof.
  intros Hsend Hok. unfold complete_monitor_after_exit. destruct s; try done.
  destruct (reserve_evolves process w) as [Hr _].
  destruct (reserve_monitor_notification process w) as [[n|[]] w1]; simpl in *; [|done..].
  pose proof (complete_exited_monitor_evolves send process acknowledgement n process_id reason w1
    Hsend (evolves_ok _ _ Hr Hok)) as Hc.
  destruct (complete_exited_monitor _ _ _ _ _ _ _). simpl in *. by etrans.
Qed.

Lemma enqueue_evolves send a e target w p :
  send_evolves send → world_ok w → w !! a = Some p → envelope_ok w p e →
  evolves w (enqueue send a e target w).1.2.
Proof.
  intros Hsend Hok Ha He. unfold enqueue. rewrite Ha.
  pose proof (try_send_spec _ e (queue p)) as Hspec.
  destruct (try_send e (queue p)) as [q|[e'|e']]; simpl.
  - destruct Hspec as (_ & _ & Hq & _). eapply insert_evolves; [done|]. intros w' Hw'.
    split_and!; [done| |].
    + intros ?. split; [done|]. exists []. by rewrite app_nil_r.
    + exists [e]. split; [done|]. apply list.Forall_singleton. by apply (envelope_ok_shape w w' p).
  - apply drop_envelope_evolves.
  - destruct target as [t|]; [|apply drop_envelope_evolves].
    unfold complete_envelope_after_exit. destruct (signal e'); try apply drop_envelope_evolves.
    set (w1 := drop_envelope a _ w).
    assert (evolves w w1) as H1 by apply drop_envelope_evolves.
    pose proof (complete_exited_monitor_evolves send process acknowledgement
      (monitor_notification e') t (default NoProcess (lifecycle_death_reason p)) w1
      Hsend (evolves_ok _ _ H1 Hok)) as Hc.
    destruct (complete_exited_monitor _ _ _ _ _ _ _). simpl in *. by etrans.
Qed.

Lemma sender_limit_violation s p :
  sender_max_message_bytes p = max_message_bytes (message_mailbox p) →
  sender_max_message_resources p = max_message_resources (message_mailbox p) →
  sender_limit s p = None → ∀ m, s = SMessage m → limit_violation (message_mailbox p) m = None.
Proof.
  intros Hb Hr Hl m ->. unfold sender_limit, limit_violation in *.
  destruct m; try done. rewrite Hb, Hr in Hl. by repeat case_match.
Qed.

(** What [send_inner] acquires is what the receiver needs: a signal that becomes
    a message, and one that does not. *)
Definition acquired_ok a (w : gmap Z (Ingress Sem Chan))
    (o : result SignalEnvelope SignalSendError * gmap Z (Ingress Sem Chan)) : Prop :=
  evolves w o.2 ∧ ∀ e, o.1 = Ok e → ∃ p', o.2 !! a = Some p' ∧ envelope_ok o.2 p' e.

Lemma insert_quiet_evolves a p p' w : w !! a = Some p → quiet p p' → evolves w (<[a := p']> w).
Proof. intros Ha Hq. eapply insert_evolves; [done|]. intros. by apply quiet_evolves_at. Qed.

Lemma acquire_message_ok a s p w :
  w !! a = Some p → reserves_mailbox_capacity s = true →
  (∀ m, s = SMessage m → limit_violation (message_mailbox p) m = None) →
  acquired_ok a w (acquire_permits a s p w).
Proof.
  intros Ha Hres Hlim. unfold acquire_permits. rewrite Hres.
  assert (is_monitor s = false) as Hmon by by destruct s.
  destruct (try_reserve (message_mailbox p)) as [[q mb]|] eqn:Hq; [|done].
  apply try_reserve_quiet in Hq as [Hquiet Hbel].
  destruct (try_acquire_owned _) as [sem|]; rewrite ?Hmon.
  2: { split; [|done]. etrans; [by eapply insert_quiet_evolves|]. apply drop_mailbox_permit_evolves. }
  set (p1 := set_data_admission sem (set_mailbox mb p)).
  assert (quiet p p1) as Hq1.
  { destruct Hquiet as ([] & ? & ?). by split_and!. }
  replace (match s with Monitor observer _ => _ | _ => _ end)
    with (@Ok SignalEnvelope SignalSendError (mkEnvelope s (Some q) true false None), <[a := p1]> w)
    by by destruct s.
  split; [by eapply insert_quiet_evolves|]. intros e [= <-]. exists p1. simpl. rewrite lookup_insert_eq.
  split; [done|]. split; simpl; [|intros m Hm|by rewrite Hmon|done|by intros obs ack ->].
  - rewrite Hres. by exists q.
  - rewrite (limit_violation_shape _ p p1) by apply Hq1. by apply Hlim.
Qed.

Lemma control_envelope_ok w p s mop n :
  reserves_mailbox_capacity s = false → mop = is_monitor s →
  (∀ n', n = Some n' → is_monitor s = true ∧ notification_ok w n') →
  (∀ obs ack, s = Monitor obs ack → observer_slot obs n) →
  envelope_ok w p (mkEnvelope s None false mop n).
Proof.
  intros Hres -> Hn Hobs. split; simpl; [by rewrite Hres| |done..]. intros m ->. done.
Qed.

Lemma acquire_control_ok a s p w :
  w !! a = Some p → reserves_mailbox_capacity s = false →
  acquired_ok a w (acquire_permits a s p w).
Proof.
  intros Ha Hres. unfold acquire_permits. rewrite Hres. destruct (is_monitor s) eqn:Hmon.
  - destruct s as [| | | | |obs ack| | | | |]; try done.
    destruct (try_acquire_owned _) as [sem|]; [|by split; [eapply insert_quiet_evolves|]].
    set (p1 := set_monitor_admission sem p).
    assert (evolves w (<[a := p1]> w)) as Hins by by eapply insert_quiet_evolves.
    destruct (reserve_evolves obs (<[a := p1]> w)) as [Hr Hn].
    destruct (reserve_monitor_notification obs (<[a := p1]> w)) as [[n|[]] w1]; simpl in *.
    + assert (evolves w w1) as Hw1 by by etrans. split; [done|]. intros e [= <-].
      destruct (same_shape_lookup (<[a := p1]> w) w1 a p1) as (p2 & Hp2 & Hsh2);
        [by apply evolves_shape|by rewrite lookup_insert_eq|].
      exists p2. split; [done|]. destruct (Hn n eq_refl) as [Hslot Hnok].
      apply control_envelope_ok; [done|done|intros n' Hn'; split; [done|by apply Hnok]|].
      by intros ? ? [= <- <-].
    + split; [|done]. etrans; [exact Hins|]. etrans; [exact Hr|]. apply drop_envelope_evolves.
    + split; [|done]. etrans; [exact Hins|]. etrans; [exact Hr|]. apply drop_envelope_evolves.
  - replace (match s with Monitor observer _ => _ | _ => _ end)
      with (@Ok SignalEnvelope SignalSendError (mkEnvelope s None false false None), <[a := p]> w)
      by by destruct s.
    split; [by eapply insert_quiet_evolves|]. intros e [= <-]. exists p. simpl.
    rewrite lookup_insert_eq. split; [done|]. apply control_envelope_ok; [done..|]. by intros obs ack ->.
Qed.

Lemma acquire_permits_evolves a s p w :
  w !! a = Some p → ingress_ok w p → sender_limit s p = None →
  acquired_ok a w (acquire_permits a s p w).
Proof.
  intros Ha Hok Hl. destruct (reserves_mailbox_capacity s) eqn:Hres.
  - apply acquire_message_ok; [done..|].
    by apply sender_limit_violation; [apply (io_bytes _ _ Hok)|apply (io_resources _ _ Hok)|].
  - by apply acquire_control_ok.
Qed.

Lemma send_inner_with_evolves send a s target w :
  send_evolves send → world_ok w → evolves w (send_inner_with send a s target w).1.2.
Proof.
  intros Hsend Hok. unfold send_inner_with.
  assert (match s with Signal.Link _ _ | UnLink _ => True | _ => False end ∨
    match s with Signal.Link _ _ | UnLink _ => False | _ => True end) as [Hs|Hs] by (destruct s; auto).
  { by destruct s. }
  assert (∀ p, w !! a = Some p → evolves w (<[a := set_kill true true p]> w)) as Hkill.
  { intros p Ha. eapply insert_evolves; [done|]. intros. by apply quiet_evolves_at. }
  assert (∀ p, w !! a = Some p → evolves w
    (match sender_limit s p with
     | Some e => (Err e, w, [])
     | None => match acquire_permits a s p w with
               | (Err e, w) => (Err e, w, [])
               | (Ok e, w) => enqueue send a e target w
               end
     end).1.2) as Hadmit.
  { intros p Ha. destruct (sender_limit s p) eqn:Hl; [done|].
    destruct (acquire_permits_evolves a s p w Ha (Hok a p Ha) Hl) as [Hev He].
    destruct (acquire_permits a s p w) as [[e|e] w1]; simpl in *; [|done].
    destruct (He e eq_refl) as (p1 & Hp1 & Henv). etrans; [exact Hev|].
    eapply enqueue_evolves; [done|by eapply evolves_ok|done|done]. }
  destruct (w !! a) as [p|] eqn:Ha; [|by destruct s].
  destruct target as [t|].
  - destruct (lifecycle_death_reason p) as [reason|].
    { destruct s; try done; by apply complete_monitor_evolves. }
    destruct (chan_is_closed (queue p)).
    { destruct s; try done; by apply complete_monitor_evolves. }
    destruct s; try done; by (apply (Hkill p) || apply (Hadmit p)).
  - destruct (chan_is_closed (queue p)).
    { by destruct (lifecycle_death_reason p); destruct s. }
    destruct (lifecycle_death_reason p); destruct s; try done; by (apply (Hkill p) || apply (Hadmit p)).
Qed.

Lemma send_inner_evolves a s target w : world_ok w → evolves w (send_inner a s target w).1.2.
Proof.
  intros Hok. apply send_inner_with_evolves; [|done]. intros r s' w' Hok'.
  destruct r as [id b|id]; [|done]. apply send_inner_with_evolves; [|done]. by intros ? ? ?.
Qed.

Lemma ref_send_evolves r s w : world_ok w → evolves w (ref_send r s w).1.2.
Proof. intros Hok. destruct r as [id a|id]; [by apply send_inner_evolves|done]. Qed.

(** *** Receiving *)

Definition monitors_ok w (ms : gmap Z MonitorRelation) : Prop :=
  ∀ k r, ms !! k = Some r → observer_slot (observer r) (notification r) ∧
    ∀ n, notification r = Some n → notification_ok w n.

Lemma monitors_ok_shape w w' ms : same_shape w w' → monitors_ok w ms → monitors_ok w' ms.
Proof.
  intros Hs Hms k r Hk. destruct (Hms k r Hk) as [? Hn]. split; [done|]. intros n Hr.
  eapply notification_ok_shape; [done|]. by apply Hn.
Qed.

(** Taking an envelope from the queue at [a]. *)
Lemma dequeue_ok w a p p' e :
  world_ok w → w !! a = Some p → shape p p' → message_mailbox p' = message_mailbox p →
  queued (queue p) = e :: queued (queue p') →
  world_ok (<[a := p']> w) ∧ envelope_ok (<[a := p']> w) p' e ∧ same_shape w (<[a := p']> w).
Proof.
  intros Hok Ha Hs Hm Hq. assert (same_shape w (<[a := p']> w)) as Hsw.
  { intros b. rewrite lookup_insert. case_decide; [subst; by rewrite Ha|by destruct (w !! b)]. }
  destruct (Hok a p Ha) as [Hb Hr Hwf Hqueue]. rewrite Hq in Hqueue.
  apply Forall_cons_iff in Hqueue as [He Hrest]. split_and!; [|by eapply envelope_ok_shape|done].
  intros b pb. rewrite lookup_insert. case_decide as Hab.
  - intros [= <-]. subst b. pose proof Hs as [? ? ? ? ?].
    split; [congruence|congruence|by rewrite Hm|]. eapply list.Forall_impl; [done|].
    intros x. by apply envelope_ok_shape.
  - intros Hpb. destruct (Hok b pb Hpb) as [? ? ? Hqb]. split; try done.
    eapply list.Forall_impl; [done|]. intros x. by apply envelope_ok_shape.
Qed.

(** Nothing is taken: only the kill latch or the closing changes. *)
Lemma unqueued_ok w a p p' :
  world_ok w → w !! a = Some p → shape p p' → message_mailbox p' = message_mailbox p →
  queued (queue p') = queued (queue p) →
  world_ok (<[a := p']> w) ∧ same_shape w (<[a := p']> w).
Proof.
  intros Hok Ha Hs Hm Hq. assert (evolves w (<[a := p']> w)) as He.
  { eapply insert_evolves; [done|]. intros w' _. split_and!; [done| |].
    - rewrite Hm. intros ?. split; [done|]. exists []. by rewrite app_nil_r.
    - exists []. by rewrite Hq, app_nil_r. }
  split; [by eapply evolves_ok|by apply evolves_shape].
Qed.

Lemma control_kill_ok w p : envelope_ok w p (control Kill).
Proof. by split. Qed.

Lemma recv_ok w a p e p' :
  world_ok w → w !! a = Some p → recv p = (RecvReady (Some e), p') →
  world_ok (<[a := p']> w) ∧ envelope_ok (<[a := p']> w) p' e ∧ same_shape w (<[a := p']> w).
Proof.
  intros Hok Ha. unfold recv. destruct (kill_requested p).
  - intros [= <- <-]. by destruct (unqueued_ok w a p (set_kill false (kill_notified p) p)).
  - simpl. pose proof (try_recv_spec _ (queue p)) as Hr.
    destruct (External.try_recv (queue p)) as [[e' q]|].
    + intros [= <- <-]. destruct Hr as (Hq & _). by eapply dequeue_ok.
    + by destruct (chan_is_closed _).
Qed.

(** The arms of the loop. *)
Lemma push_reserved_ok a m q p w :
  world_ok w → w !! a = Some p → belongs_to q (message_mailbox p) = true →
  limit_violation (message_mailbox p) m = None →
  ∃ w' evs p', push_reserved a m (Some q) w = Some (w', evs) ∧ evolves w w' ∧
    w' !! a = Some p' ∧ pending (message_mailbox p') = pending (message_mailbox p) ++ [m].
Proof.
  intros Hok Ha Hb Hl. unfold push_reserved. simpl. rewrite Ha. simpl.
  pose proof (push_with_permit_refines m q _ (io_mailbox _ _ (Hok a p Ha))) as Hr.
  destruct (push_with_permit m q (message_mailbox p)) as [[[[]|e] mb] wakers] eqn:Hp.
  - destruct (push_evolves a p m q mb wakers w Ha Hp) as [He Hpend].
    eexists _, _, (set_mailbox mb p). split; [done|]. split; [done|].
    rewrite lookup_insert_eq. split; [done|]. apply Hpend, (io_mailbox _ _ (Hok a p Ha)).
  - destruct Hr as (_ & _ & _ & [Hf|[? Hf]]); congruence.
Qed.

Lemma drop_parts_evolves a mp mop n w : evolves w (drop_parts a mp mop n w).
Proof. apply quiets_evolves, drop_parts_quiets. Qed.

Lemma drop_relation_evolves a o w : evolves w (drop_relation a o w).
Proof. apply quiets_evolves, drop_relation_quiets. Qed.

Lemma admit_monitor_ok a obs ack n ms w :
  monitors_ok w ms → observer_slot obs n → (∀ n', n = Some n' → notification_ok w n') →
  ∃ w', admit_monitor a obs ack true n ms w =
      Some (<[ref_id obs := mkMonitor obs n]> ms, w', acknowledge ack) ∧ quiets w w' ∧
    monitors_ok w' (<[ref_id obs := mkMonitor obs n]> ms).
Proof.
  intros Hms Hslot Hn. eexists. split; [done|].
  assert (quiets w (drop_relation a (ms !! ref_id obs) w)) as He by apply drop_relation_quiets.
  split; [done|]. eapply monitors_ok_shape; [by apply evolves_shape, quiets_evolves|].
  intros k r. rewrite lookup_insert. case_decide; [by intros [= <-]|apply Hms].
Qed.

Lemma stop_monitoring_ok a k ms w :
  monitors_ok w ms →
  quiets w (stop_monitoring a k ms w).2 ∧
  monitors_ok (stop_monitoring a k ms w).2 (stop_monitoring a k ms w).1.
Proof.
  intros Hms. assert (quiets w (drop_relation a (ms !! k) w)) as He by apply drop_relation_quiets.
  split; [done|]. eapply monitors_ok_shape; [by apply evolves_shape, quiets_evolves|].
  simpl. intros j r [_ Hj]%lookup_delete_Some. by apply (Hms j).
Qed.
End admission.

#[export] Hint Resolve drop_mailbox_permit_quiets drop_data_permit_quiets drop_monitor_permit_quiets
  drop_notification_quiets drop_parts_quiets drop_relation_quiets quiets_evolves
  drop_envelope_evolves : lunatic.

(** ** The loop never panics *)

Section loop.
Context {Sem : Type} `{!Semaphore Sem, !SemaphoreLaws Sem}.
Context {Chan : Type → Type} `{!Channel Chan, !ChannelLaws Chan}.
Implicit Types (w : gmap Z (Ingress Sem Chan)) (W : World Sem Chan) (L : Loop Chan).

Lemma unlink_peer_ingresses h k W : ingresses (unlink_peer h k W).2 = ingresses W.
Proof. unfold unlink_peer, unlink_commit. by destruct (unlink_read h k W) as [[]|]. Qed.

(** What an iteration may do. *)
Definition iteration_ok W (o : option (Flow Chan * World Sem Chan * list output)) : Prop :=
  ∃ f W' outs, o = Some (f, W', outs) ∧ evolves (ingresses W) (ingresses W') ∧
    match f with
    | Continue L' => monitors_ok (ingresses W') (monitors L')
    | Break _ => True
    end.

Lemma to_mailbox_ok a m q mop n L W p :
  world_ok (ingresses W) → monitors_ok (ingresses W) (monitors L) →
  ingresses W !! a = Some p → belongs_to q (message_mailbox p) = true →
  limit_violation (message_mailbox p) m = None →
  iteration_ok W (to_mailbox a m (Some q) mop n L W).
Proof.
  intros Hok Hms Ha Hb Hl. unfold to_mailbox.
  destruct (push_reserved_ok a m q p _ Hok Ha Hb Hl) as (w' & evs & p' & -> & He & _).
  simpl. eexists _, _, _. split; [done|]. simpl.
  assert (evolves (ingresses W) (drop_parts a None mop n w')) as He'
    by peel.
  split; [done|]. eapply monitors_ok_shape; [by apply evolves_shape|done].
Qed.

Lemma consumed_ok a mp mop n f W outs :
  match f with Continue L => monitors_ok (ingresses W) (monitors L) | Break _ => True end →
  iteration_ok W (consumed a mp mop n f W outs).
Proof.
  intros Hms. eexists _, _, _. split; [done|]. simpl.
  assert (evolves (ingresses W) (drop_parts a mp mop n (ingresses W))) as He
    by peel.
  split; [done|]. destruct f; [|done]. eapply monitors_ok_shape; [by apply evolves_shape|done].
Qed.

Lemma iteration_ok_trans W1 W2 o :
  evolves (ingresses W1) (ingresses W2) → iteration_ok W2 o → iteration_ok W1 o.
Proof.
  intros He (f & W' & outs & -> & He' & Hf). exists f, W', outs. split_and!; [done|by etrans|done].
Qed.

Lemma reload_signal_monitors pid m c ack L k outs :
  reload_signal pid m c ack (kind L) = (k, outs) → monitors (set_kind k L) = monitors L.
Proof. done. Qed.

Lemma handle_signal_ok h L e W p :
  world_ok (ingresses W) → monitors_ok (ingresses W) (monitors L) →
  ingresses W !! h_addr h = Some p → envelope_ok (ingresses W) p e →
  iteration_ok W (handle_signal h L e W).
Proof.
  intros Hok Hms Ha He. set (w1 := drop_data_permit (h_addr h) (data_queue_permit e) (ingresses W)).
  assert (evolves (ingresses W) w1) as He1 by (unfold w1; peel).
  pose proof (evolves_shape _ _ He1) as Hs1.
  destruct (same_shape_lookup _ _ _ _ Hs1 Ha) as (p1 & Hp1 & Hsh).
  pose proof (evolves_ok _ _ He1 Hok) as Hok1. pose proof (monitors_ok_shape _ _ _ Hs1 Hms) as Hms1.
  pose proof (envelope_ok_shape _ _ _ _ _ Hs1 Hsh He) as [Hmp Hlim Hmo Hno Hobs].
  apply (iteration_ok_trans W (set_ingresses w1 W)); [done|].
  unfold handle_signal. cbn [into_process_parts]. fold w1.
  destruct (signal e) as [m|b|t r|k|k t reason|obs ack|k|k reason| |m ev nv ack|m ev tv ack];
    cbn [reserves_mailbox_capacity] in Hmp.
  - destruct Hmp as (q & -> & Hb). eapply to_mailbox_ok; [done..|]. by apply Hlim.
  - by apply consumed_ok.
  - by apply consumed_ok.
  - by apply consumed_ok.
  - pose proof (unlink_peer_ingresses h k (set_ingresses w1 W)) as Hu.
    destruct (unlink_peer h k (set_ingresses w1 W)) as [? W2]. simpl in Hu.
    apply (iteration_ok_trans _ W2); [by rewrite Hu|].
    destruct reason; [by apply consumed_ok; rewrite Hu| |];
      (destruct (die_when_link_dies L); [by apply consumed_ok|]);
      destruct Hmp as (q & -> & Hb); (eapply to_mailbox_ok; [by rewrite Hu..|done|done]).
  - simpl in Hmo. rewrite Hmo.
    destruct (admit_monitor_ok (h_addr h) obs ack (monitor_notification e) (monitors L) w1)
      as (w2 & Hadm & He2 & Hms2); [done|by eapply Hobs|intros; by apply Hno|].
    cbn [ingresses set_ingresses]. rewrite Hadm. simpl. eexists _, _, _. split; [done|]. simpl.
    assert (evolves w2 (drop_mailbox_permit (h_addr h) (mailbox_permit e) w2)) as He3
      by apply drop_mailbox_permit_evolves.
    split; [by etrans; [apply quiets_evolves|]|].
    eapply monitors_ok_shape; [by apply evolves_shape|done].
  - destruct (stop_monitoring_ok (h_addr h) k (monitors L) w1 Hms1) as [He2 Hms2].
    apply quiets_evolves in He2. simpl in *.
    eapply (iteration_ok_trans _ (set_ingresses _ _)); [exact He2|]. by apply consumed_ok.
  - destruct Hmp as (q & -> & Hb). by eapply to_mailbox_ok.
  - by apply consumed_ok.
  - destruct (reload_signal _ _ _ _ _) as [k outs]. by apply consumed_ok.
  - destruct (reload_signal _ _ _ _ _) as [k outs]. by apply consumed_ok.
Qed.

(** The message that a signal becomes. *)
Definition message_of (L : Loop Chan) (s : Signal) : option Message :=
  match s with
  | SMessage m => Some m
  | SProcessDied k reason => Some (ProcessDied k reason)
  | SLinkDied _ tag (Failure | NoProcess) =>
      if die_when_link_dies L then None else Some (LinkDied tag)
  | _ => None
  end.

Lemma quiets_pending w w' a p :
  quiets w w' → w !! a = Some p →
  ∃ p', w' !! a = Some p' ∧ pending (message_mailbox p') = pending (message_mailbox p).
Proof.
  intros Hq Ha. specialize (Hq a). rewrite Ha in Hq. destruct (w' !! a) as [p'|]; [|done].
  exists p'. split; [done|]. destruct Hq as [(_ & _ & Hi) _]. unfold pending, pending_admitted.
  by rewrite Hi.
Qed.

Lemma to_mailbox_delivers a m q mop n L W p :
  world_ok (ingresses W) → ingresses W !! a = Some p → belongs_to q (message_mailbox p) = true →
  limit_violation (message_mailbox p) m = None →
  ∃ W' outs p', to_mailbox a m (Some q) mop n L W = Some (Continue L, W', outs) ∧
    ingresses W' !! a = Some p' ∧
    pending (message_mailbox p') = pending (message_mailbox p) ++ [m].
Proof.
  intros Hok Ha Hb Hl. unfold to_mailbox.
  destruct (push_reserved_ok a m q p _ Hok Ha Hb Hl) as (w' & evs & p1 & -> & _ & Hp1 & Hpend).
  destruct (quiets_pending w' (drop_parts a None mop n w') a p1) as (p2 & Hp2 & Hpend2);
    [peel|done|].
  eexists _, _, p2. split; [done|]. split; [done|]. by rewrite Hpend2.
Qed.

Lemma handle_signal_delivers h L e W p m :
  world_ok (ingresses W) → ingresses W !! h_addr h = Some p → envelope_ok (ingresses W) p e →
  message_of L (signal e) = Some m →
  ∃ W' outs p', handle_signal h L e W = Some (Continue L, W', outs) ∧
    ingresses W' !! h_addr h = Some p' ∧
    pending (message_mailbox p') = pending (message_mailbox p) ++ [m].
Proof.
  intros Hok Ha He Hm. set (w1 := drop_data_permit (h_addr h) (data_queue_permit e) (ingresses W)).
  assert (quiets (ingresses W) w1) as Hq1 by (unfold w1; peel).
  pose proof (quiets_evolves _ _ Hq1) as He1. pose proof (evolves_shape _ _ He1) as Hs1.
  destruct (quiets_pending _ _ _ _ Hq1 Ha) as (p1 & Hp1 & Hpend1).
  destruct (same_shape_lookup _ _ _ _ Hs1 Ha) as (p1' & Hp1' & Hsh).
  assert (p1' = p1) as -> by congruence. rewrite <- Hpend1.
  pose proof (evolves_ok _ _ He1 Hok) as Hok1.
  pose proof (envelope_ok_shape _ _ _ _ _ Hs1 Hsh He) as [Hmp Hlim _ _ _].
  unfold handle_signal. cbn [into_process_parts]. fold w1.
  destruct (signal e) as [m'|b|t r|k|k t reason|obs ack|k|k reason| |m' ev nv ack|m' ev tv ack];
    try done; cbn [message_of reserves_mailbox_capacity] in *.
  - injection Hm as ->. destruct Hmp as (q & -> & Hb). apply to_mailbox_delivers; try done. by apply Hlim.
  - pose proof (unlink_peer_ingresses h k (set_ingresses w1 W)) as Hu.
    destruct (unlink_peer h k (set_ingresses w1 W)) as [? W2]. simpl in Hu.
    destruct reason; [done| |]; (destruct (die_when_link_dies L); [done|]);
      injection Hm as <-; destruct Hmp as (q & -> & Hb);
      (apply to_mailbox_delivers; [by rewrite Hu|by rewrite Hu|done|done]).
  - injection Hm as <-. destruct Hmp as (q & -> & Hb). by apply to_mailbox_delivers.
Qed.

(** A poll of the loop. *)
Lemma poll_signal_ok h L W p :
  world_ok (ingresses W) → monitors_ok (ingresses W) (monitors L) →
  ingresses W !! h_addr h = Some p →
  ∃ o, poll_signal h L W = Some o ∧
    match o with
    | Some (f, W', outs) => world_ok (ingresses W') ∧ same_shape (ingresses W) (ingresses W') ∧
        match f with Continue L' => monitors_ok (ingresses W') (monitors L') | Break _ => True end
    | None => True
    end.
Proof.
  intros Hok Hms Ha. unfold poll_signal. rewrite Ha. destruct (has_sender L); [|by eexists].
  destruct (recv p) as [[[e|]|] p'] eqn:Hrecv; [| |by eexists].
  - destruct (recv_ok _ _ _ _ _ Hok Ha Hrecv) as (Hok' & He & Hs).
    destruct (handle_signal_ok h L e (set_ingresses (<[h_addr h := p']> (ingresses W)) W) p')
      as (f & W' & outs & -> & Hev & Hf); simpl.
    + done.
    + by eapply monitors_ok_shape.
    + apply lookup_insert_eq.
    + done.
    + eexists. split; [done|]. simpl in Hev. split_and!; [by eapply evolves_ok| |done].
      etrans; [exact Hs|by apply evolves_shape].
  - eexists. split; [done|]. simpl.
    assert (message_mailbox p' = message_mailbox p ∧ shape p p' ∧ queue p' = queue p) as (Hm & Hs & Hq).
    { unfold recv in Hrecv. destruct (kill_requested p); [done|]. simpl in Hrecv.
      destruct (External.try_recv (queue p)) as [[? ?]|]; [done|].
      destruct (chan_is_closed (queue p)); [|done]. by injection Hrecv as <-. }
    destruct (unqueued_ok _ _ _ p' Hok Ha Hs Hm) as [Hok' Hs']; [by rewrite Hq|].
    split_and!; [done|done|]. by eapply monitors_ok_shape.
Qed.

(** *** The drain *)

(** The relations that are left when the queued signals have been applied in
    order. *)
Fixpoint replay (es : list SignalEnvelope) (ms : gmap Z MonitorRelation) : gmap Z MonitorRelation :=
  match es with
  | [] => ms
  | e :: es =>
      replay es
        match signal e with
        | Monitor obs _ => <[ref_id obs := mkMonitor obs (monitor_notification e)]> ms
        | StopMonitoring k => delete k ms
        | _ => ms
        end
  end.

Lemma drain_signal_ok a ms e w p :
  monitors_ok w ms → w !! a = Some p → envelope_ok w p e →
  ∃ w' evs, drain_signal a e ms w = Some (replay [e] ms, w', evs) ∧ quiets w w' ∧
    monitors_ok w' (replay [e] ms).
Proof.
  intros Hms Ha He. unfold drain_signal. cbn [into_process_parts].
  set (w1 := drop_data_permit a (data_queue_permit e) w).
  assert (quiets w w1) as Hq1 by (unfold w1; peel).
  pose proof (monitors_ok_shape _ _ _ (evolves_shape _ _ (quiets_evolves _ _ Hq1)) Hms) as Hms1.
  assert (∀ w2 w3 ms' (evs : list event), quiets w1 w2 → monitors_ok w2 ms' → quiets w2 w3 →
    ∃ w' evs', Some (ms', w3, evs) = Some (ms', w', evs') ∧ quiets w w' ∧ monitors_ok w' ms') as Hrest.
  { intros w2 w3 ms' evs Hq2 Hms2 Hq3. eexists _, _. split; [done|].
    split; [etrans; [exact Hq1|by etrans]|].
    eapply monitors_ok_shape; [by apply evolves_shape, quiets_evolves|done]. }
  cbn [replay]. destruct (signal e) as [m|b|t r|k|k t reason|obs ack|k|k reason| |m ev nv ack|m ev tv ack]
    eqn:Hsig; try by (apply (Hrest w1); [done|done|peel]).
  - rewrite (eo_monitor _ _ _ He), Hsig.
    destruct (admit_monitor_ok a obs ack (monitor_notification e) ms w1) as (w2 & Hadm & Hq2 & Hms2);
      [done|by eapply (eo_observer _ _ _ He)| |].
    { intros n Hn. eapply notification_ok_shape; [by apply evolves_shape, quiets_evolves|].
      by apply (eo_notification _ _ _ He). }
    cbn [is_monitor]. rewrite Hadm. cbn [mbind option_bind]. apply (Hrest w2); [done|done|peel].
  - destruct (stop_monitoring_ok a k ms w1 Hms1) as [Hq2 Hms2]. simpl in *.
    eapply Hrest; [done|done|peel].
Qed.

Lemma drain_ok fuel a ms w p :
  world_ok w → monitors_ok w ms → w !! a = Some p → (length (queued (queue p)) <= fuel)%nat →
  ∃ w' evs p', drain fuel a ms w = Some (replay (queued (queue p)) ms, w', evs) ∧
    world_ok w' ∧ monitors_ok w' (replay (queued (queue p)) ms) ∧ same_shape w w' ∧
    w' !! a = Some p' ∧ queued (queue p') = [] ∧
    chan_is_closed (queue p') = chan_is_closed (queue p) ∧
    lifecycle_death_reason p' = lifecycle_death_reason p.
Proof.
  revert ms w p. induction fuel as [|fuel IH]; intros ms w p Hok Hms Ha Hlen.
  all: cbn [drain]; rewrite Ha; cbn [mbind option_bind]; unfold guard_try_recv;
    pose proof (try_recv_spec _ (queue p)) as Hspec;
    destruct (External.try_recv (queue p)) as [[e q]|].
  - destruct Hspec as (Hq & _). rewrite Hq in Hlen. simpl in Hlen. lia.
  - rewrite Hspec. eexists _, _, p. split; [done|]. rewrite insert_id by done. by split_and!.
  - destruct Hspec as (Hq & _ & Hcl). rewrite Hq in Hlen |- *.
    destruct (dequeue_ok w a p (set_queue q p) e Hok Ha) as (Hok1 & He1 & Hs1); [done..|].
    set (w1 := <[a := set_queue q p]> w) in *.
    destruct (drain_signal_ok a ms e w1 (set_queue q p)) as (w2 & evs & Hsig & Hq2 & Hms2);
      [by eapply monitors_ok_shape|apply lookup_insert_eq|done|].
    rewrite Hsig. cbn [mbind option_bind].
    pose proof (quiets_evolves _ _ Hq2) as He2.
    assert (∃ p2, w2 !! a = Some p2 ∧ queue p2 = q ∧
      lifecycle_death_reason p2 = lifecycle_death_reason p) as (p2 & Hp2 & Hpq & Hpd).
    { specialize (Hq2 a). unfold w1 in Hq2. rewrite lookup_insert_eq in Hq2.
      destruct (w2 !! a) as [p2|]; [|done]. destruct Hq2 as [(_ & ? & _) ?]. by exists p2. }
    destruct (IH (replay [e] ms) w2 p2) as (w' & evs' & p' & Hdr & Hok' & Hms' & Hs' & Hp' & Hempty & Hcl' & Hd').
    { by eapply evolves_ok. }
    { done. }
    { done. }
    { rewrite Hpq. simpl in Hlen. lia. }
    rewrite Hdr. cbn [mbind option_bind]. rewrite Hpq in *.
    eexists _, _, p'. split; [done|]. split_and!; try done; try congruence.
    etrans; [exact Hs1|]. etrans; [by apply evolves_shape|done].
  - rewrite Hspec. eexists _, _, p. split; [done|]. rewrite insert_id by done. by split_and!.
Qed.

(** *** Links and notifications *)

Lemma deliver_link_death_evolves b q id tag reason w :
  world_ok w → evolves w (deliver_link_death b q id tag reason w).1.
Proof.
  intros Hok. unfold deliver_link_death, send_to_process.
  pose proof (send_inner_evolves b (SLinkDied id tag reason) (Some q) w Hok) as He.
  destruct (send_inner _ _ _ _) as [[r w1] evs]. simpl in He.
  assert (evolves w1 (alter request_kill b w1)) as Hk.
  { apply quiets_evolves. by apply alter_quiets. }
  destruct r, reason; simpl; try done; by etrans.
Qed.

Lemma deliver_link_deaths_evolves ns id reason w :
  world_ok w → evolves w (deliver_link_deaths ns id reason w).1.
Proof.
  revert w. induction ns as [|[[b q] tag] ns IH]; intros w Hok; cbn [deliver_link_deaths]; [done|].
  pose proof (deliver_link_death_evolves b q id tag reason w Hok) as He.
  destruct (deliver_link_death b q id tag reason w) as [w1 evs]. simpl in He.
  specialize (IH w1 (evolves_ok _ _ He Hok)). destruct (deliver_link_deaths ns id reason w1).
  simpl in *. by etrans.
Qed.

Lemma publish_evolves reason a w : evolves w (alter (publish_terminal_reason reason) a w).
Proof. by apply alter_evolves. Qed.

Lemma terminate_evolves h reason W :
  world_ok (ingresses W) → evolves (ingresses W) (ingresses (terminate h reason W).1).
Proof.
  intros Hok. unfold terminate. cbn [cells set_ingresses].
  pose proof (publish_evolves reason (h_addr h) (ingresses W)) as He.
  destruct (cells W !! h_addr h) as [c|]; [|done]. case_bool_decide; [done|].
  destruct (detach _ _ _ _) as [m ns]. cbn [ingresses].
  pose proof (deliver_link_deaths_evolves ns (h_id h) reason _ (evolves_ok _ _ He Hok)) as He2.
  destruct (deliver_link_deaths _ _ _ _) as [w evs]. simpl in *. by etrans.
Qed.

Lemma receiver_drop_evolves a W :
  world_ok (ingresses W) → evolves (ingresses W) (ingresses (receiver_lifetime_drop a W).1).
Proof.
  intros Hok. unfold receiver_lifetime_drop, lifecycle_handle.
  destruct (cells W !! a) as [c|] eqn:Hc; [|done]. destruct (cell_process_id c) as [i|]; [|done].
  rewrite Z.eqb_refl. by apply terminate_evolves.
Qed.

Lemma link_state_drop_evolves a W :
  world_ok (ingresses W) → evolves (ingresses W) (ingresses (link_state_drop a W).1).
Proof.
  intros Hok. unfold link_state_drop. destruct (cells W !! a) as [c|]; [|done].
  destruct (cell_process_id c) as [i|]; [|done]. destruct (detach _ _ _ _) as [m ns].
  pose proof (deliver_link_deaths_evolves ns i NoProcess _ Hok) as He2.
  by destruct (deliver_link_deaths _ _ _ _) as [w evs].
Qed.

Lemma checked_handle_ingresses r e W :
  ingresses (checked_lifecycle_handle r e W).2 = ingresses W.
Proof.
  unfold checked_lifecycle_handle, ref_lifecycle_handle, lifecycle_handle.
  destruct r as [id a|id]; [|done]. destruct (cells W !! a) as [c|]; [|done].
  destruct (cell_process_id c) as [i|].
  - destruct (i =? id); [|done]. by destruct (_ =? _).
  - by destruct (_ =? _).
Qed.

Lemma link_processes_ingresses l el ta r er tb W :
  ingresses (link_processes l el ta r er tb W).2 = ingresses W.
Proof.
  unfold link_processes. pose proof (checked_handle_ingresses l el W) as H1.
  destruct (checked_lifecycle_handle l el W) as [[hl|e] W1]; [|done]. simpl in H1.
  pose proof (checked_handle_ingresses r er W1) as H2.
  destruct (checked_lifecycle_handle r er W1) as [[hr|e] W2]; simpl in *; [|congruence].
  assert (ingresses (link_pair hl ta hr tb W2).2 = ingresses W2) as H3; [|congruence].
  unfold link_pair, install. repeat (case_match; try done).
Qed.

Lemma unlink_process_ingresses r e k W : ingresses (unlink_process r e k W).2 = ingresses W.
Proof.
  unfold unlink_process. pose proof (checked_handle_ingresses r e W) as H1.
  destruct (checked_lifecycle_handle r e W) as [[h|er] W1]; [|done]. simpl in H1.
  pose proof (unlink_peer_ingresses h k W1) as H2. destruct (unlink_peer h k W1). simpl in *. congruence.
Qed.

(** What an observer has received. *)
Definition notified (process_id : Z) (reason : DeathReason) (r : MonitorRelation)
    w (evs : list event) : Prop :=
  match observer r with
  | Builtin _ b => ∃ p, w !! b = Some p ∧
      ProcessDied process_id reason ∈ pending (message_mailbox p)
  | Custom id => ECustom id (SProcessDied process_id reason) ∈ evs
  end.

Lemma notified_evolves process_id reason r w w' evs evs' :
  world_ok w → evolves w w' → (∀ ev, ev ∈ evs → ev ∈ evs') →
  notified process_id reason r w evs → notified process_id reason r w' evs'.
Proof.
  intros Hok He Hevs. unfold notified. destruct (observer r) as [id b|id]; [|apply Hevs].
  intros (p & Hp & Hin). specialize (He b). rewrite Hp in He.
  destruct (w' !! b) as [p'|]; [|done]. exists p'. split; [done|].
  destruct He as (_ & Hm & _). destruct (Hm (io_mailbox _ _ (Hok b p Hp))) as (_ & k & ->).
  apply elem_of_app. by left.
Qed.

(** One notification. *)
Lemma notify_one process_id reason r w :
  world_ok w → observer_slot (observer r) (notification r) →
  (∀ n, notification r = Some n → notification_ok w n) →
  let '(w', evs) :=
    match notification r with
    | Some n => deliver n process_id reason w
    | None =>
        let '(_, w, evs) := ref_send (observer r) (SProcessDied process_id reason) w in (w, evs)
    end in
  evolves w w' ∧ notified process_id reason r w' evs.
Proof.
  intros Hok Hslot Hn. unfold notified. destruct (observer r) as [id b|id]; simpl in Hslot.
  - destruct Hslot as [q Hq]. rewrite Hq.
    pose proof (deliver_evolves (mkNotification b q) process_id reason w) as He.
    destruct (Hn _ Hq) as (p & Hp & Hb). simpl in Hp, Hb. unfold deliver in *. simpl in *.
    rewrite Hp in *. pose proof (push_with_permit_refines (ProcessDied process_id reason) q _
      (io_mailbox _ _ (Hok b p Hp))) as Hr.
    destruct (push_with_permit _ q (message_mailbox p)) as [[[[]|e] mb] wakers] eqn:Hpush.
    + split; [done|]. exists (set_mailbox mb p). rewrite lookup_insert_eq. split; [done|].
      destruct Hr as (Hpend & _). cbn [message_mailbox set_mailbox]. rewrite Hpend. apply elem_of_app. right. apply list_elem_of_here.
    + destruct Hr as (_ & _ & _ & [Hf|[? Hf]]); [congruence|done].
  - rewrite Hslot. simpl. split; [done|]. apply list_elem_of_here.
Qed.

Lemma notify_monitors_ok a process_id reason ms w :
  world_ok w →
  (∀ k r, (k, r) ∈ ms → observer_slot (observer r) (notification r) ∧
     ∀ n, notification r = Some n → notification_ok w n) →
  let '(w', evs) := notify_monitors a process_id reason ms w in
  evolves w w' ∧ ∀ k r, (k, r) ∈ ms → notified process_id reason r w' evs.
Proof.
  revert w. induction ms as [|[k r] ms IH]; intros w Hok Hms; cbn [notify_monitors].
  { split; [done|]. intros k r Hk. by apply not_elem_of_nil in Hk. }
  destruct (Hms k r (list_elem_of_here _ _)) as [Hslot Hn].
  pose proof (notify_one process_id reason r w Hok Hslot Hn) as Hone.
  destruct (match notification r with Some _ => _ | None => _ end) as [w1 evs].
  destruct Hone as [He1 Hnot]. set (w2 := drop_monitor_permit a true w1).
  assert (evolves w1 w2) as He12 by (unfold w2; peel).
  assert (evolves w w2) as He2 by by etrans.
  specialize (IH w2 (evolves_ok _ _ He2 Hok)). destruct (notify_monitors a process_id reason ms w2) as [w3 evs'].
  destruct IH as [He3 Hall].
  { intros k' r' Hk'. destruct (Hms k' r') as [? Hn']; [by right|]. split; [done|]. intros n Hr.
    eapply (notification_ok_shape w); [by apply evolves_shape|]. by apply Hn'. }
  split; [by etrans|]. intros k' r' [[= -> ->]|Hk']%elem_of_cons.
  - eapply (notified_evolves _ _ _ w1); [exact (evolves_ok _ _ He1 Hok)|by etrans| |done].
    intros ev Hev. apply elem_of_app. by left.
  - eapply (notified_evolves _ _ _ w3); [|done| |by eapply Hall].
    + exact (evolves_ok _ _ He3 (evolves_ok _ _ He2 Hok)).
    + intros ev Hev. apply elem_of_app. by right.
Qed.
End loop.

(** ** The end of a process, and executions *)

Section executions.
Context {Sem : Type} `{!Semaphore Sem, !SemaphoreLaws Sem}.
Context {Chan : Type → Type} `{!Channel Chan, !ChannelLaws Chan}.
Context {M : Type → Type} `{FinMap Z M} {Module : Type}.
Abbreviation Node := (@Runtime Sem Chan M Module).
Implicit Types (w : gmap Z (Ingress Sem Chan)) (W : World Sem Chan) (L : Loop Chan) (T : Node).

Lemma close_signal_ingress_ok a ms reason w p :
  world_ok w → monitors_ok w ms → w !! a = Some p →
  ∃ w' evs p', close_signal_ingress a ms reason w = Some (replay (queued (queue p)) ms, w', evs) ∧
    world_ok w' ∧ monitors_ok w' (replay (queued (queue p)) ms) ∧ same_shape w w' ∧
    w' !! a = Some p' ∧ queued (queue p') = [] ∧ is_closed p' = true ∧
    terminal_reason p' = once_set reason (terminal_reason p).
Proof.
  intros Hok Hms Ha. unfold close_signal_ingress. rewrite Ha. cbn [mbind option_bind].
  destruct (close_spec _ (queue p)) as (Hq & _ & Hcl).
  set (pc := close_with_reason reason p).
  assert (queue pc = close (queue p)) as Hpc by done.
  destruct (unqueued_ok w a p pc Hok Ha) as [Hok1 Hs1]; [done|done|by rewrite Hpc|].
  destruct (drain_ok (length (queued (queue pc))) a ms (<[a := pc]> w) pc)
    as (w' & evs & p' & Hdr & Hok' & Hms' & Hs' & Hp' & He' & Hc' & Hd');
    [done|by eapply monitors_ok_shape|apply lookup_insert_eq|done|].
  rewrite Hdr. rewrite Hpc, Hq in *. exists w', evs, p'.
  split_and!; try done; [by etrans|unfold is_closed; congruence].
Qed.

(** After the guard unregistered, nothing is left to unregister. *)
Lemma unregister_once g (i : Inner M) q hooks g' i' q' :
  unregister g i q = Some (hooks, g', i', q') →
  registration g' = None ∧ lifecycle g' = lifecycle g.
Proof.
  unfold unregister. destruct (registration g) as [r|] eqn:Hr; [|by intros [= _ <- _ _]].
  destruct (unregister_inner r i q) as [[[[[? ?] ?] ?] ?]|]; [|done]. by intros [= _ <- _ _].
Qed.

Lemma run_exit_ok g L f T p :
  world_ok (ingresses (world T)) → monitors_ok (ingresses (world T)) (monitors L) →
  ingresses (world T) !! h_addr (lifecycle g) = Some p →
  match unregister g (environment T) (node_quota T) with
  | None => run_exit g L f T = None
  | Some (hooks, _, i, q) =>
      ∃ T' evs, run_exit g L f T = Some (hooks, T', evs) ∧
        environment T' = i ∧ node_quota T' = q ∧
        module_registries T' = unregister_all_versions (kind L) (module_registries T) ∧
        world_ok (ingresses (world T')) ∧
        same_shape (ingresses (world T)) (ingresses (world T')) ∧
        ∀ k r, replay (queued (queue p)) (monitors L) !! k = Some r →
          notified (h_id (lifecycle g)) (death_reason_of f) r (ingresses (world T')) evs
  end.
Proof.
  intros Hok Hms Ha. unfold run_exit.
  destruct (unregister g (environment T) (node_quota T)) as [[[[hooks g'] i] q]|] eqn:Hun; [|done].
  apply unregister_once in Hun as [Hreg Hlc]. cbn [mbind option_bind].
  destruct (close_signal_ingress_ok (h_addr (lifecycle g)) (monitors L) (death_reason_of f) _ p Hok Hms Ha)
    as (w1 & evs & p1 & Hcl & Hok1 & Hms1 & Hs1 & _).
  rewrite Hcl. cbn [mbind option_bind]. unfold finish, unregister. rewrite Hreg. cbn [mbind option_bind].
  pose proof (terminate_evolves (lifecycle g') (death_reason_of f) (set_ingresses w1 (world T)) Hok1) as He2.
  destruct (terminate (lifecycle g') (death_reason_of f) (set_ingresses w1 (world T))) as [W2 evs2].
  simpl in He2. cbn [mbind option_bind].
  pose proof (notify_monitors_ok (h_addr (lifecycle g)) (h_id (lifecycle g)) (death_reason_of f)
    (map_to_list (replay (queued (queue p)) (monitors L))) (ingresses W2)
    (evolves_ok _ _ He2 Hok1)) as Hn.
  destruct (notify_monitors _ _ _ _ _) as [w3 evs3]. destruct Hn as [He3 Hn].
  { intros k r Hk%elem_of_map_to_list. destruct (Hms1 k r Hk) as [? Hno]. split; [done|].
    intros n Hr. eapply (notification_ok_shape w1); [by apply evolves_shape|by apply Hno]. }
  pose proof (evolves_ok _ _ He3 (evolves_ok _ _ He2 Hok1)) as Hok3.
  eexists _, _. rewrite app_nil_r. split; [done|]. cbn. split_and!; try done.
  - etrans; [exact Hs1|]. etrans; by apply evolves_shape.
  - intros k r Hk. eapply notified_evolves; [exact Hok3|done| |].
    + intros ev Hev. apply elem_of_app. right. apply elem_of_app. by right.
    + by eapply Hn, elem_of_map_to_list.
Qed.

(** *** Executions *)

Record State : Type := mkState {
  s_world : World Sem Chan;
  (** The running processes, by the address of their ingress. *)
  s_loops : gmap Z (Handle * Loop Chan);
}.

Definition init_state : State := mkState empty_world ∅.

(** Threads send, link, unlink, terminate and drop; a process polls its mailbox,
    its loop takes a signal, and it ends. *)
Inductive proc_step : State → State → Prop :=
| ps_spawn W loops a id k p sem_id signal_capacity message_capacity max_bytes max_resources cap :
    ingresses W !! a = None →
    mailboxes_with_limits sem_id signal_capacity message_capacity max_bytes max_resources = Some p →
    let W' := mkWorld (<[a := p]> (ingresses W))
                (<[a := mkCell None None ∅ (sem_new cap) cap]> (cells W)) (next_token W) in
    proc_step (mkState W loops)
      (mkState (lifecycle_handle a id W').2 (<[a := (mkHandle id a, loop_start k)]> loops))
| ps_send W loops a s target :
    proc_step (mkState W loops)
      (mkState (set_ingresses (send_inner a s target (ingresses W)).1.2 W) loops)
| ps_link W loops l el ta r er tb :
    proc_step (mkState W loops) (mkState (link_processes l el ta r er tb W).2 loops)
| ps_unlink W loops r e k :
    proc_step (mkState W loops) (mkState (unlink_process r e k W).2 loops)
| ps_terminate W loops h reason :
    proc_step (mkState W loops) (mkState (terminate h reason W).1 loops)
| ps_receiver_drop W loops a :
    proc_step (mkState W loops) (mkState (receiver_lifetime_drop a W).1 loops)
| ps_link_state_drop W loops a :
    proc_step (mkState W loops) (mkState (link_state_drop a W).1 loops)
| ps_pop W loops a p t wk :
    ingresses W !! a = Some p →
    proc_step (mkState W loops)
      (mkState (set_ingresses (<[a := set_mailbox (Mailbox.pop t wk (message_mailbox p)).2 p]>
                                 (ingresses W)) W) loops)
| ps_poll W loops a p wk :
    ingresses W !! a = Some p →
    proc_step (mkState W loops)
      (mkState (set_ingresses (<[a := set_mailbox (Mailbox.poll wk (message_mailbox p)).2 p]>
                                 (ingresses W)) W) loops)
| ps_iterate W loops a h L L' W' outs :
    loops !! a = Some (h, L) → poll_signal h L W = Some (Some (Continue L', W', outs)) →
    proc_step (mkState W loops) (mkState W' (<[a := (h, L')]> loops))
| ps_exit T loops a g L f hooks T' evs :
    loops !! a = Some (lifecycle g, L) → run_exit g L f T = Some (hooks, T', evs) →
    proc_step (mkState (world T) loops) (mkState (world T') (delete a loops)).

Record state_ok (S : State) : Prop := {
  st_world : world_ok (ingresses (s_world S));
  st_loop a h L : s_loops S !! a = Some (h, L) →
    h_addr h = a ∧ is_Some (ingresses (s_world S) !! a) ∧
    monitors_ok (ingresses (s_world S)) (monitors L);
}.

Lemma state_ok_shape W W' loops :
  state_ok (mkState W loops) → world_ok (ingresses W') →
  same_shape (ingresses W) (ingresses W') → state_ok (mkState W' loops).
Proof.
  intros [Hok Hloops] Hok' Hs. split; [done|]. simpl in *. intros a h L Ha.
  destruct (Hloops a h L Ha) as (? & [p Hp] & ?).
  destruct (same_shape_lookup _ _ _ _ Hs Hp) as (p' & Hp' & _).
  split_and!; [done|by eexists|by eapply monitors_ok_shape].
Qed.

Lemma state_ok_evolves W W' loops :
  state_ok (mkState W loops) → evolves (ingresses W) (ingresses W') → state_ok (mkState W' loops).
Proof.
  intros Hst He. eapply state_ok_shape; [done| |by apply evolves_shape].
  eapply evolves_ok; [done|]. apply (st_world _ Hst).
Qed.

(** The owner takes messages from its mailbox. *)
Lemma mailbox_update_ok w a p mb :
  world_ok w → w !! a = Some p → Mailbox.wf mb → Mailbox.same_config (message_mailbox p) mb →
  world_ok (<[a := set_mailbox mb p]> w) ∧ same_shape w (<[a := set_mailbox mb p]> w).
Proof.
  intros Hok Ha Hwf (Hid & _ & Hb & Hr).
  assert (shape p (set_mailbox mb p)) as Hsh by by split.
  assert (same_shape w (<[a := set_mailbox mb p]> w)) as Hs.
  { intros b. rewrite lookup_insert. case_decide; [subst; by rewrite Ha|by destruct (w !! b)]. }
  split; [|done]. intros b pb. rewrite lookup_insert. case_decide as Hab.
  - intros [= <-]. destruct (Hok a p Ha) as [? ? ? Hq].
    split; simpl; [congruence|congruence|done|]. eapply list.Forall_impl; [exact Hq|].
    intros e. by apply envelope_ok_shape.
  - intros Hpb. destruct (Hok b pb Hpb) as [? ? ? Hq]. split; [done..|].
    eapply list.Forall_impl; [exact Hq|]. intros e. by apply envelope_ok_shape.
Qed.

(** A new process. *)
Lemma spawn_ok w a p sem_id sc mc mbytes mres :
  world_ok w → w !! a = None → mailboxes_with_limits sem_id sc mc mbytes mres = Some p →
  world_ok (<[a := p]> w).
Proof.
  intros Hok Ha Hp. assert (∀ n, notification_ok w n → notification_ok (<[a := p]> w) n) as Hext.
  { intros n (q & Hq & ?). exists q. rewrite lookup_insert_ne; [done|]. intros ->. congruence. }
  intros b pb. rewrite lookup_insert. case_decide as Hab.
  - intros [= <-]. unfold mailboxes_with_limits, signal_mailbox_with_limits in Hp.
    destruct (sc <=? 0) eqn:Hsc; [done|]. bool_to_prop. injection Hp as <-.
    destruct (channel_spec SignalEnvelope sc) as (Hq & _); [done|].
    split; simpl; [done|done|apply with_limits_wf|by rewrite Hq].
  - intros Hpb. destruct (Hok b pb Hpb) as [? ? ? Hq]. split; [done..|].
    eapply list.Forall_impl; [exact Hq|]. intros e [? ? ? Hn ?]. split; [done..| |done].
    intros n Hen. destruct (Hn n Hen). auto.
Qed.

Lemma proc_step_ok S S' : state_ok S → proc_step S S' → state_ok S'.
Proof.
  intros Hst Hstep. pose proof (st_world _ Hst) as Hok. destruct Hstep; simpl in *.
  - assert (ingresses (lifecycle_handle a id W').2 = <[a := p]> (ingresses W)) as Hw.
    { unfold lifecycle_handle. simpl. by rewrite lookup_insert_eq. }
    assert (world_ok (<[a := p]> (ingresses W))) as Hok' by by eapply spawn_ok.
    split; simpl; rewrite Hw; [done|]. intros b h L. rewrite lookup_insert. case_decide as Hab.
    + intros [= <- <-]. subst b. rewrite lookup_insert_eq. split_and!; [done|by eexists|].
      intros j r. simpl. by rewrite lookup_empty.
    + intros Hb. destruct (st_loop _ Hst b h L Hb) as (? & ? & Hms). rewrite lookup_insert_ne by done.
      split_and!; [done|done|]. intros j r Hj. destruct (Hms j r Hj) as [? Hn]. split; [done|].
      intros n Hr. destruct (Hn n Hr) as (q & Hq & ?). exists q. simpl in Hq.
      rewrite lookup_insert_ne; [done|]. intros ->. congruence.
  - eapply state_ok_evolves; [done|]. simpl. by apply send_inner_evolves.
  - eapply state_ok_evolves; [done|]. by rewrite link_processes_ingresses.
  - eapply state_ok_evolves; [done|]. by rewrite unlink_process_ingresses.
  - eapply state_ok_evolves; [done|]. by apply terminate_evolves.
  - eapply state_ok_evolves; [done|]. by apply receiver_drop_evolves.
  - eapply state_ok_evolves; [done|]. by apply link_state_drop_evolves.
  - pose proof (pop_refines t wk _ (io_mailbox _ _ (Hok _ _ H7))) as Hr.
    assert (Mailbox.wf (Mailbox.pop t wk (message_mailbox p)).2 ∧
      Mailbox.same_config (message_mailbox p) (Mailbox.pop t wk (message_mailbox p)).2) as [Hwf Hcfg].
    { destruct (Mailbox.pop t wk (message_mailbox p)) as [[m|] mb]; naive_solver. }
    destruct (mailbox_update_ok _ _ _ _ Hok H7 Hwf Hcfg). by eapply state_ok_shape.
  - pose proof (poll_refines wk _ (io_mailbox _ _ (Hok _ _ H7))) as Hr.
    assert (Mailbox.wf (Mailbox.poll wk (message_mailbox p)).2 ∧
      Mailbox.same_config (message_mailbox p) (Mailbox.poll wk (message_mailbox p)).2) as [Hwf Hcfg].
    { destruct (Mailbox.poll wk (message_mailbox p)) as [[m|] mb]; naive_solver. }
    destruct (mailbox_update_ok _ _ _ _ Hok H7 Hwf Hcfg). by eapply state_ok_shape.
  - destruct (st_loop _ Hst a h L H7) as (<- & [p Hp] & Hms). simpl in *.
    destruct (poll_signal_ok h L W p Hok Hms Hp) as (o & Ho & Hres).
    rewrite Ho in H8. injection H8 as ->. destruct Hres as (Hok' & Hs & Hms').
    assert (state_ok (mkState W' loops)) as [_ Hloops] by by eapply state_ok_shape.
    split; simpl in *; [done|]. intros b h' L0. rewrite lookup_insert. case_decide as Hab.
    + intros [= <- <-]. subst b. destruct (same_shape_lookup _ _ _ _ Hs Hp) as (p' & Hp' & _).
      split_and!; [done|by eexists|done].
    + apply Hloops.
  - destruct (st_loop _ Hst _ _ _ H7) as (Ha & [p Hp] & Hms). simpl in *. rewrite <- Ha in Hp.
    pose proof (run_exit_ok g L f T p Hok Hms Hp) as Hr.
    destruct (unregister g (environment T) (node_quota T)) as [[[[? ?] ?] ?]|]; [|congruence].
    destruct Hr as (T1 & evs1 & Hrun & _ & _ & _ & Hok' & Hs & _).
    rewrite Hrun in H8. injection H8 as _ <- _.
    assert (state_ok (mkState (world T1) loops)) as [_ Hloops] by by eapply state_ok_shape.
    split; simpl in *; [done|]. intros b h' L0 [_ Hb]%lookup_delete_Some. by apply Hloops.
Qed.

Lemma reachable_state_ok S : rtc proc_step init_state S → state_ok S.
Proof.
  apply rtc_invariant; [intros; by eapply proc_step_ok|]. split; simpl.
  - intros a p. by rewrite lookup_empty.
  - intros a h L. by rewrite lookup_empty.
Qed.

(** The loop of a process never panics: in every execution, the reservations
    that it expects are there.  Whatever signal a running process takes from its
    ingress, a message, a death or a monitor, its permit is present, belongs to
    the process's own mailbox, and the push it was made for succeeds; the same
    holds for what is drained when the process ends. *)
Theorem process_loop_never_panics (S : State) a h L :
  rtc proc_step init_state S → s_loops S !! a = Some (h, L) →
  is_Some (poll_signal h L (s_world S)) ∧
  ∀ reason, is_Some (close_signal_ingress a (monitors L) reason (ingresses (s_world S))).
Proof.
  intros Hst%reachable_state_ok Ha. destruct (st_loop _ Hst a h L Ha) as (<- & [p Hp] & Hms).
  pose proof (st_world _ Hst) as Hok. split.
  - destruct (poll_signal_ok h L _ p Hok Hms Hp) as (o & -> & _). by eexists.
  - intros reason. destruct (close_signal_ingress_ok (h_addr h) (monitors L) reason _ p Hok Hms Hp)
      as (? & ? & ? & -> & _). by eexists.
Qed.

(** What was admitted is delivered, in order: when a running process has a
    queued signal that stands for a message (a message, the death of a monitored
    process, the death of a linked one when it traps exits) and is not being
    killed, its next iteration puts that message last in its mailbox, whatever
    else fills the mailbox. *)
Theorem admitted_signal_delivered (S : State) a h L p e m rest :
  rtc proc_step init_state S → s_loops S !! a = Some (h, L) → has_sender L = true →
  ingresses (s_world S) !! a = Some p → kill_requested p = false →
  queued (queue p) = e :: rest → message_of L (signal e) = Some m →
  ∃ W' outs p', poll_signal h L (s_world S) = Some (Some (Continue L, W', outs)) ∧
    ingresses W' !! a = Some p' ∧
    pending (message_mailbox p') = pending (message_mailbox p) ++ [m].
Proof.
  intros Hst%reachable_state_ok Ha Hs Hp Hk Hq Hm.
  destruct (st_loop _ Hst a h L Ha) as (<- & _ & _). pose proof (st_world _ Hst) as Hok.
  unfold poll_signal. rewrite Hp, Hs.
  pose proof (fun e' p' => recv_ok _ _ p e' p' Hok Hp) as Hrecv. unfold recv in *. rewrite Hk in *.
  cbn [queue set_kill] in *. pose proof (try_recv_spec _ (queue p)) as Htr.
  destruct (External.try_recv (queue p)) as [[e' q]|]; [|congruence].
  destruct Htr as (Hq' & _). assert (e' = e) as -> by congruence.
  destruct (Hrecv e _ eq_refl) as (Hok' & He & _).
  destruct (handle_signal_delivers h L e (set_ingresses
    (<[h_addr h := set_queue q (set_kill false false p)]> (ingresses (s_world S))) (s_world S))
    (set_queue q (set_kill false false p)) m) as (W' & outs & p' & -> & Hp' & Hpend);
    [done|apply lookup_insert_eq|done|done|].
  exists W', outs, p'. split_and!; [done|done|]. by rewrite Hpend.
Qed.

(** C38. A process does not die silently: when its loop ends, for whatever reason,
    every process that still monitors it, counting the monitors and cancellations
    that were queued but not yet handled, in order, has the notice of its death:
    a built-in observer in its mailbox, however full its ingress and its mailbox
    are, a foreign one as a signal.  The process is removed from its environment,
    its exit hook runs once, and its modules forget it. *)
Theorem exit_notifies_every_monitor (S : State) T a g L f r p :
  rtc proc_step init_state S → s_loops S !! a = Some (lifecycle g, L) → world T = s_world S →
  inner_ok (environment T) →
  (uses_quota (environment T) = true →
     Z.of_nat (size (processes (environment T))) <= quota_count (node_quota T)) →
  registration g = Some r → reg_armed r = true → ingresses (s_world S) !! a = Some p →
  ∃ hooks T' evs, run_exit g L f T = Some (hooks, T', evs) ∧
    hooks = match exit_hook r with Some hk => [hk] | None => [] end ∧
    (∀ k rel, replay (queued (queue p)) (monitors L) !! k = Some rel →
       notified (h_id (lifecycle g)) (death_reason_of f) rel (ingresses (world T')) evs) ∧
    processes (environment T') = delete (reg_process_id r) (processes (environment T)) ∧
    module_registries T' = unregister_all_versions (kind L) (module_registries T).
Proof.
  intros Hst%reachable_state_ok Ha HW Hi Hq Hreg Harm Hp.
  destruct (st_loop _ Hst a _ L Ha) as (Haddr & _ & Hms). pose proof (st_world _ Hst) as Hok.
  rewrite <- HW in *. rewrite <- Haddr in Hp. pose proof (run_exit_ok g L f T p Hok Hms Hp) as Hrun.
  destruct (remove_process_spec (reg_process_id r) (environment T) (node_quota T) Hi Hq)
    as (b & i' & q' & Hrem & _ & _ & _ & _ & Hps & _).
  unfold unregister, unregister_inner in Hrun. rewrite Hreg, Harm, Hrem in Hrun.
  cbn [mbind option_bind] in Hrun. destruct Hrun as (T' & evs & Hrun & Hi' & _ & HR & _ & _ & Hn).
  eexists _, T', evs. split; [done|]. rewrite Hi'. by split_and!.
Qed.
End executions.

(** ** Two processes, one of which monitors the other

    The monitored process has the monitor in its queue and has not run since. *)

Definition demo_ingress (sem_id : Z) : Ingress nat fifo :=
  mkIngress (channel 4) false false None (sem_new 3) (sem_new 4) (Mailbox.with_limits sem_id 1 1024 4)
    4 1024 4.

Definition demo_spawn (a id : Z) (p : Ingress nat fifo) (W : World nat fifo) : World nat fifo :=
  (lifecycle_handle a id
     (mkWorld (<[a := p]> (ingresses W))
        (<[a := mkCell None None ∅ (sem_new 4) 4]> (cells W)) (next_token W))).2.

Definition demo_loop : Loop fifo := loop_start Native.
Definition demo_loops : gmap Z (Handle * Loop fifo) :=
  <[1 := (mkHandle 12 1, demo_loop)]> (<[0 := (mkHandle 11 0, demo_loop)]> ∅).
Definition demo_two : World nat fifo :=
  demo_spawn 1 12 (demo_ingress 101) (demo_spawn 0 11 (demo_ingress 100) empty_world).
Definition demo_world : World nat fifo :=
  set_ingresses (send_inner 0 (Monitor (Builtin 12 1) None) (Some 11) (ingresses demo_two)).1.2 demo_two.
Definition demo_state : State := mkState demo_world demo_loops.

Lemma demo_state_reachable : rtc (proc_step (M := gmap Z) (Module := unit)) init_state demo_state.
Proof.
  eapply rtc_l.
  { apply (ps_spawn empty_world ∅ 0 11 Native (demo_ingress 100) 100 4 1 1024 4 4); by vm_compute. }
  eapply rtc_l.
  { apply (ps_spawn (demo_spawn 0 11 (demo_ingress 100) empty_world) _ 1 12 Native (demo_ingress 101)
             101 4 1 1024 4 4); by vm_compute. }
  eapply rtc_l; [apply (ps_send _ _ 0 (Monitor (Builtin 12 1) None) (Some 11))|].
  apply rtc_refl.
Qed.

Definition demo_monitored : Ingress nat fifo :=
  default (demo_ingress 100) (ingresses demo_world !! 0).

Lemma demo_monitored_lookup : ingresses demo_world !! 0 = Some demo_monitored.
Proof. by vm_compute. Qed.

Lemma process_loop_never_panics_witness :
  is_Some (poll_signal (mkHandle 11 0) demo_loop demo_world).
Proof.
  apply (process_loop_never_panics (M := gmap Z) (Module := unit) demo_state 0 (mkHandle 11 0) demo_loop);
    [exact demo_state_reachable|by vm_compute].
Defined.

(** A message is queued for the observer. *)
Definition demo_full : World nat fifo :=
  set_ingresses (send_inner 1 (SMessage (LinkDied (Some 5))) None (ingresses demo_two)).1.2 demo_two.
Definition demo_receiver : Ingress nat fifo := default (demo_ingress 101) (ingresses demo_full !! 1).
Definition demo_envelope : SignalEnvelope :=
  mkEnvelope (SMessage (LinkDied (Some 5))) (Some (mkPermit 101)) true false None.

Lemma demo_full_reachable :
  rtc (proc_step (M := gmap Z) (Module := unit)) init_state (mkState demo_full demo_loops).
Proof.
  eapply rtc_l.
  { apply (ps_spawn empty_world ∅ 0 11 Native (demo_ingress 100) 100 4 1 1024 4 4); by vm_compute. }
  eapply rtc_l.
  { apply (ps_spawn (demo_spawn 0 11 (demo_ingress 100) empty_world) _ 1 12 Native (demo_ingress 101)
             101 4 1 1024 4 4); by vm_compute. }
  eapply rtc_l; [apply (ps_send _ _ 1 (SMessage (LinkDied (Some 5))) None)|].
  apply rtc_refl.
Qed.

Lemma admitted_signal_delivered_witness :
  ∃ W' outs p', poll_signal (mkHandle 12 1) demo_loop demo_full = Some (Some (Continue demo_loop, W', outs)) ∧
    ingresses W' !! 1 = Some p' ∧ pending (message_mailbox p') = [LinkDied (Some 5)].
Proof.
  destruct (admitted_signal_delivered (M := gmap Z) (Module := unit) (mkState demo_full demo_loops)
    1 (mkHandle 12 1) demo_loop demo_receiver demo_envelope (LinkDied (Some 5)) [])
    as (W' & outs & p' & Hpoll & Hp' & Hpend);
    [exact demo_full_reachable|by vm_compute..|].
  exists W', outs, p'. split; [exact Hpoll|]. split; [exact Hp'|]. rewrite Hpend. by vm_compute.
Defined.

(** The monitored process ends before it has handled the monitor. *)
Definition demo_registration : ProcessRegistration := mkRegistration true 11 (Some 3).
Definition demo_guard : Guard := guard_new demo_registration (mkHandle 11 0).
Definition demo_runtime : Runtime (Sem := nat) (Chan := fifo) (M := gmap Z) (Module := unit) :=
  mkRuntime demo_world (mkInner 7 {[ 11 := mkEntry (Builtin 11 0) false ]} 1 (Some 8) false None None)
    (mkQuota 0 4) ∅.
Definition demo_relation : MonitorRelation :=
  mkMonitor (Builtin 12 1) (Some (mkNotification 1 (mkPermit 101))).

Lemma demo_environment_ok : inner_ok (environment demo_runtime).
Proof.
  split; [by vm_compute|by intros limit [= <-]|]. intros id e. simpl.
  by intros [_ <-]%lookup_singleton_Some.
Qed.

Lemma exit_notifies_every_monitor_witness :
  ∃ hooks T' evs, run_exit demo_guard demo_loop FinishedKill demo_runtime = Some (hooks, T', evs) ∧
    hooks = [3] ∧ notified 11 Failure demo_relation (ingresses (world T')) evs.
Proof.
  destruct (exit_notifies_every_monitor demo_state demo_runtime 0 demo_guard demo_loop FinishedKill
    demo_registration demo_monitored) as (hooks & T' & evs & Hrun & Hhooks & Hn & _);
    [exact demo_state_reachable|by vm_compute|reflexivity|exact demo_environment_ok|done|reflexivity
    |reflexivity|exact demo_monitored_lookup|].
  exists hooks, T', evs. split; [exact Hrun|]. split; [exact Hhooks|].
  apply (Hn 12 demo_relation). by vm_compute.
Defined.
