(* ===== verification/RegistryCoordination.v ===== *)
(** * [crates/lunatic-distributed/src/distributed/registry_coordination.rs]

    Cluster-wide names are registered through the node with the lowest identity:
    it asks every member to validate a proposal, commits it to its own registry
    when a strict majority has accepted, and tells the members.  Unregistration,
    the transfer of a snapshot and the answers to waiting callers go through the
    same coordinator.

    One node's coordinator is a record shared by the tasks that run its methods.
    A task is an [async] method at one of its program points; between two points
    it executes one critical section (a lock, an atomic, a send), so that other
    tasks run in between.  What the code reads from elsewhere, the members known
    to the control client, the clock, the fate of a send and of a wait, the order
    in which a [HashMap] is visited, is the oracle of the step. *)

From stdpp Require Import sorting.
From S2P Require Import Prelude GlobalProcessId DistributedRegistry.

(** ** Messages *)

Inductive GlobalRegisterResult : Type :=
| RegSuccess
| AlreadyRegistered (existing_gpid : GlobalProcessId) (registered_at : Z)
| ConflictDetected (conflicting_node_id : Z)
| RegResourceExhausted.

Inductive GlobalUnregisterResult : Type :=
| UnregSuccess
| UnregNotFound
| OwnerChanged
| UnregResourceExhausted.

#[export] Instance GlobalRegisterResult_eq_dec : EqDecision GlobalRegisterResult.
Proof. solve_decision. Defined.
#[export] Instance GlobalUnregisterResult_eq_dec : EqDecision GlobalUnregisterResult.
Proof. solve_decision. Defined.

Abbreviation RegistrySnapshot := (list (list Z * GlobalProcessId * Z)).

(** What a proposal carries through its request and its preparation. *)
Record Proposal : Type := mkProposal {
  request_id : Z;
  requesting_node_id : Z;
  proposed_name : list Z;
  proposed_pid : GlobalProcessId;
}.

Inductive RegistryCoordinationMessage : Type :=
| GlobalRegisterRequest (p : Proposal)
| GlobalRegisterPrepare (p : Proposal)
| GlobalRegisterResponse (request_id requesting_node_id responding_node_id : Z)
    (r : GlobalRegisterResult)
| GlobalRegisterDecision (request_id : Z) (r : GlobalRegisterResult)
| GlobalRegisterNotify (name : list Z) (pid : GlobalProcessId) (registered_at : Z)
| GlobalUnregisterRequest (request_id requesting_node_id : Z) (name : list Z)
    (expected : GlobalProcessId)
| GlobalUnregisterResponse (request_id : Z) (r : GlobalUnregisterResult)
| GlobalUnregisterNotify (name : list Z) (expected : GlobalProcessId)
| RegistrySyncRequest (request_id requesting_node_id : Z)
| RegistrySyncResponse (request_id : Z) (global_entries : RegistrySnapshot)
| RegistryHeartbeat (node_id timestamp : Z).

(** ** Errors: what callers can tell apart by [downcast_ref] *)

Inductive CoordError : Type :=
| RegistryConflictError
| RegistryCapacityError
| RegistryTimeoutError
| OutboundSaturationError
| OtherError.

(** An error of the local registry, as an [anyhow] error. *)
Definition registry_error (e : RegistryError) : CoordError :=
  match e with CapacityExceeded => RegistryCapacityError | _ => OtherError end.

Definition result_to_anyhow (r : GlobalRegisterResult) : result unit CoordError :=
  match r with
  | RegSuccess => Ok tt
  | AlreadyRegistered _ _ => Err RegistryConflictError
  | ConflictDetected _ => Err RegistryConflictError
  | RegResourceExhausted => Err RegistryCapacityError
  end.

(** ** Stripes *)

(** The UTF-8 encoding of a scalar value. *)
Definition encode_utf8 (c : Z) : list Z :=
  let cont k := Z.lor 0x80 (Z.land (Z.shiftr c k) 0x3F) in
  if c <? 0x80 then [c]
  else if c <? 0x800 then [Z.lor 0xC0 (Z.shiftr c 6); cont 0]
  else if c <? 0x10000 then [Z.lor 0xE0 (Z.shiftr c 12); cont 6; cont 0]
  else [Z.lor 0xF0 (Z.shiftr c 18); cont 12; cont 6; cont 0].

Definition stable_name_hash (bytes : list Z) : Z :=
  foldl (fun hash byte => (Z.lxor hash byte * 0x100000001b3) mod 2 ^ 64) 0xcbf29ce484222325 bytes.

(** ** Pending entries *)

(** The three maps of callers that wait for an answer of the coordinator. *)
Inductive WaitKind : Type := WCaller | WSync | WUnregister.

#[export] Instance WaitKind_eq_dec : EqDecision WaitKind.
Proof. solve_decision. Defined.

Inductive Reply : Type :=
| ReplyRegister (r : GlobalRegisterResult)
| ReplySync (r : result unit CoordError)
| ReplyUnregister (r : GlobalUnregisterResult).

(** A [oneshot] channel. *)
Inductive Oneshot : Type := Unanswered | Sent (r : Reply) | SenderDropped.

(** [PendingCaller], [PendingSync] and [PendingUnregister]; every entry holds a
    lease of the pending budget, and [sender] is the address of its channel. *)
Record PendingWaiter : Type := mkWaiter {
  waiter_token : Z;
  coordinator_node_id : Z;
  sender : Z;
}.

(** Every entry and every response holds a lease. *)
Record PendingVotes : Type := mkVotes {
  votes_token : Z;
  allowed_members : gset Z;
  responses : gmap Z GlobalRegisterResult;
  capacity_exhausted : bool;
}.

(** ** The coordinator *)

Record Coordinator : Type := mkCoordinator {
  registry : RegistryState;
  next_request_id : Z;
  next_pending_token : Z;
  topology_epoch : Z;
  topology_fence : option Z;
  budget_used : Z;
  pending_votes : gmap (Z * Z) PendingVotes;
  pending_callers : gmap Z PendingWaiter;
  pending_syncs : gmap Z PendingWaiter;
  pending_unregisters : gmap Z PendingWaiter;
  name_locks : list (option Z);
  channels : gmap Z Oneshot;
  next_channel : Z;
}.

Definition set_registry (x : RegistryState) (c : Coordinator) : Coordinator :=
  mkCoordinator x (next_request_id c) (next_pending_token c) (topology_epoch c) (topology_fence c)
    (budget_used c) (pending_votes c) (pending_callers c) (pending_syncs c) (pending_unregisters c)
    (name_locks c) (channels c) (next_channel c).
Definition set_request_id (x : Z) (c : Coordinator) : Coordinator :=
  mkCoordinator (registry c) x (next_pending_token c) (topology_epoch c) (topology_fence c)
    (budget_used c) (pending_votes c) (pending_callers c) (pending_syncs c) (pending_unregisters c)
    (name_locks c) (channels c) (next_channel c).
Definition set_token (x : Z) (c : Coordinator) : Coordinator :=
  mkCoordinator (registry c) (next_request_id c) x (topology_epoch c) (topology_fence c)
    (budget_used c) (pending_votes c) (pending_callers c) (pending_syncs c) (pending_unregisters c)
    (name_locks c) (channels c) (next_channel c).
Definition set_epoch (x : Z) (c : Coordinator) : Coordinator :=
  mkCoordinator (registry c) (next_request_id c) (next_pending_token c) x (topology_fence c)
    (budget_used c) (pending_votes c) (pending_callers c) (pending_syncs c) (pending_unregisters c)
    (name_locks c) (channels c) (next_channel c).
Definition set_fence (x : option Z) (c : Coordinator) : Coordinator :=
  mkCoordinator (registry c) (next_request_id c) (next_pending_token c) (topology_epoch c) x
    (budget_used c) (pending_votes c) (pending_callers c) (pending_syncs c) (pending_unregisters c)
    (name_locks c) (channels c) (next_channel c).
Definition set_used (x : Z) (c : Coordinator) : Coordinator :=
  mkCoordinator (registry c) (next_request_id c) (next_pending_token c) (topology_epoch c)
    (topology_fence c) x (pending_votes c) (pending_callers c) (pending_syncs c)
    (pending_unregisters c) (name_locks c) (channels c) (next_channel c).
Definition set_votes (x : gmap (Z * Z) PendingVotes) (c : Coordinator) : Coordinator :=
  mkCoordinator (registry c) (next_request_id c) (next_pending_token c) (topology_epoch c)
    (topology_fence c) (budget_used c) x (pending_callers c) (pending_syncs c)
    (pending_unregisters c) (name_locks c) (channels c) (next_channel c).
Definition set_locks (x : list (option Z)) (c : Coordinator) : Coordinator :=
  mkCoordinator (registry c) (next_request_id c) (next_pending_token c) (topology_epoch c)
    (topology_fence c) (budget_used c) (pending_votes c) (pending_callers c) (pending_syncs c)
    (pending_unregisters c) x (channels c) (next_channel c).
Definition set_channels (x : gmap Z Oneshot) (c : Coordinator) : Coordinator :=
  mkCoordinator (registry c) (next_request_id c) (next_pending_token c) (topology_epoch c)
    (topology_fence c) (budget_used c) (pending_votes c) (pending_callers c) (pending_syncs c)
    (pending_unregisters c) (name_locks c) x (next_channel c).

Definition waiters (k : WaitKind) (c : Coordinator) : gmap Z PendingWaiter :=
  match k with
  | WCaller => pending_callers c
  | WSync => pending_syncs c
  | WUnregister => pending_unregisters c
  end.

Definition set_waiters (k : WaitKind) (x : gmap Z PendingWaiter) (c : Coordinator) : Coordinator :=
  mkCoordinator (registry c) (next_request_id c) (next_pending_token c) (topology_epoch c)
    (topology_fence c) (budget_used c) (pending_votes c)
    (if decide (k = WCaller) then x else pending_callers c)
    (if decide (k = WSync) then x else pending_syncs c)
    (if decide (k = WUnregister) then x else pending_unregisters c)
    (name_locks c) (channels c) (next_channel c).

(** [fetch_add(1)] wraps. *)
Definition fetch_add1 (x : Z) : Z := (x + 1) mod 2 ^ 64.

(** ** The oracle of a step *)

Record Oracle : Type := mkOracle {
  (** [control_client.node_ids()], or [None] when no client is attached. *)
  node_ids : option (list Z);
  (** [Instant::now()] and [current_timestamp_ms()], in milliseconds. *)
  now : Z;
  timestamp : Z;
  (** How a send ends, a timeout included. *)
  send_result : result unit CoordError;
  (** Whether a wait for an answer runs into its timeout. *)
  timed_out : bool;
  (** The order in which the values of the responses are visited. *)
  visit : gmap Z GlobalRegisterResult → list GlobalRegisterResult;
}.

Definition oracle_ok (o : Oracle) : Prop :=
  ∀ m, visit o m ≡ₚ (map_to_list m).*2.

Section coordinator.
Context (limits : RegistryLimits) (node_id : Z).

Definition new (reg : RegistryState) (stripes_allocated : bool) : Coordinator :=
  mkCoordinator reg 1 1 0 None 0 ∅ ∅ ∅ ∅
    (if stripes_allocated then replicate (Z.to_nat (max_name_locks limits)) None else [])
    ∅ 0.

(** ** The pending budget *)

Definition try_acquire (c : Coordinator) : option Coordinator :=
  next ← checked_add u64_max (budget_used c) 1;
  if max_pending_responses limits <? next then None else Some (set_used next c).

(** The destructor of [leases] leases. *)
Definition drop_leases (leases : Z) (c : Coordinator) : Coordinator :=
  set_used ((budget_used c - leases) mod 2 ^ 64) c.

(** The leases of an entry of the votes: its own and those of its responses. *)
Definition votes_leases (v : PendingVotes) : Z := 1 + Z.of_nat (size (responses v)).

(** ** Members *)

Definition members (o : Oracle) : result (list Z) CoordError :=
  match node_ids o with
  | None => Err OtherError
  | Some ids =>
      let ids := if bool_decide (node_id ∈ ids) then ids else ids ++ [node_id] in
      let ids := dedup (merge_sort Z.le ids) in
      if max_topology_nodes limits <? Z.of_nat (length ids) then Err RegistryCapacityError
      else Ok ids
  end.

Definition leader (o : Oracle) : result Z CoordError :=
  let? ms := members o in
  match ms with m :: _ => Ok m | [] => Err OtherError end.

Definition has_client (o : Oracle) : bool := bool_decide (is_Some (node_ids o)).

Definition name_lock_index (name : list Z) (c : Coordinator) : result nat CoordError :=
  match name_locks c with
  | [] => Err RegistryCapacityError
  | _ => Ok (Z.to_nat (stable_name_hash (name ≫= encode_utf8) mod Z.of_nat (length (name_locks c))))
  end.

(** [lock().await] of a stripe and the destructor of its guard. *)
Definition lock_stripe (tid : Z) (i : nat) (c : Coordinator) : option Coordinator :=
  match name_locks c !! i with
  | Some None => Some (set_locks (<[i := Some tid]> (name_locks c)) c)
  | _ => None
  end.

Definition unlock_stripe (i : nat) (c : Coordinator) : Coordinator :=
  set_locks (<[i := None]> (name_locks c)) c.

(** ** Channels and waiters *)

(** [sender.send(r)], and a sender dropped without sending. *)
Definition answer (ch : Z) (r : Reply) (c : Coordinator) : Coordinator :=
  set_channels (<[ch := Sent r]> (channels c)) c.

Definition drop_sender (ch : Z) (c : Coordinator) : Coordinator :=
  set_channels (alter (fun s => match s with Unanswered => SenderDropped | _ => s end) ch (channels c)) c.

(** The critical section of [insert_pending_caller], [insert_pending_sync] and
    [insert_pending_unregister], with the channel created before it. *)
Definition insert_pending (k : WaitKind) (rid coordinator token : Z) (c : Coordinator)
    : result Z CoordError * Coordinator :=
  let ch := next_channel c in
  let c :=
    mkCoordinator (registry c) (next_request_id c) (next_pending_token c) (topology_epoch c)
      (topology_fence c) (budget_used c) (pending_votes c) (pending_callers c) (pending_syncs c)
      (pending_unregisters c) (name_locks c) (<[ch := Unanswered]> (channels c)) (ch + 1) in
  match waiters k c !! rid with
  | Some _ => (Err RegistryCapacityError, drop_sender ch c)
  | None => (Ok ch, set_waiters k (<[rid := mkWaiter token coordinator ch]> (waiters k c)) c)
  end.

(** Removal of an entry whose sender is dropped with it. *)
Definition remove_waiter (k : WaitKind) (rid : Z) (c : Coordinator) : Coordinator :=
  match waiters k c !! rid with
  | Some w => drop_leases 1 (drop_sender (sender w) (set_waiters k (delete rid (waiters k c)) c))
  | None => c
  end.

(** The destructors of [PendingCallerGuard], [PendingSyncGuard],
    [PendingUnregisterGuard] and [PendingVoteGuard]. *)
Definition drop_waiter_guard (k : WaitKind) (rid token : Z) (c : Coordinator) : Coordinator :=
  match waiters k c !! rid with
  | Some w => if waiter_token w =? token then remove_waiter k rid c else c
  | None => c
  end.

Definition drop_vote_guard (key : Z * Z) (token : Z) (c : Coordinator) : Coordinator :=
  match pending_votes c !! key with
  | Some v =>
      if votes_token v =? token
      then drop_leases (votes_leases v) (set_votes (delete key (pending_votes c)) c)
      else c
  | None => c
  end.

(** ** Votes *)

Inductive RecordVoteOutcome : Type :=
| Recorded | Duplicate | NonMember | NotPending | VoteResourceExhausted.

Definition record_vote (requester rid responder : Z) (r : GlobalRegisterResult) (c : Coordinator)
    : RecordVoteOutcome * Coordinator :=
  match pending_votes c !! (requester, rid) with
  | None => (NotPending, c)
  | Some v =>
      if negb (bool_decide (responder ∈ allowed_members v)) then (NonMember, c)
      else if bool_decide (is_Some (responses v !! responder)) then (Duplicate, c)
      else match try_acquire c with
           | None =>
               (VoteResourceExhausted,
                set_votes (<[(requester, rid) :=
                  mkVotes (votes_token v) (allowed_members v) (responses v) true]> (pending_votes c)) c)
           | Some c =>
               (Recorded,
                set_votes (<[(requester, rid) :=
                  mkVotes (votes_token v) (allowed_members v) (<[responder := r]> (responses v))
                    (capacity_exhausted v)]> (pending_votes c)) c)
           end
  end.

Definition successes (v : PendingVotes) : Z :=
  Z.of_nat (size (filter (fun p => p.2 = RegSuccess) (responses v))).

Definition first_rejection (o : Oracle) (v : PendingVotes) : option GlobalRegisterResult :=
  head (filter (fun r => r ≠ RegSuccess) (visit o (responses v))).

Definition missing (ms : list Z) (v : PendingVotes) : list Z :=
  filter (fun n => responses v !! n = None) ms.

Definition required (ms : list Z) : Z := Z.of_nat (length ms) / 2 + 1.

(** ** Topology *)

(** [drain_stale_entries], with what is done to the drained entries: their
    leases are released and their callers get [reply]. *)
Definition stale (active : gset Z) (drain_all : bool) (w : PendingWaiter) : bool :=
  drain_all || negb (bool_decide (coordinator_node_id w ∈ active)).

Fixpoint answer_all (reply : PendingWaiter → Reply) (ws : list PendingWaiter) (c : Coordinator)
    : Coordinator :=
  match ws with
  | [] => c
  | w :: ws => answer_all reply ws (drop_leases 1 (answer (sender w) (reply w) c))
  end.

Definition drain_stale_entries (k : WaitKind) (active : gset Z) (drain_all : bool)
    (reply : PendingWaiter → Reply) (c : Coordinator) : Coordinator :=
  let drained := filter (fun p => stale active drain_all p.2 = true) (waiters k c) in
  let kept := filter (fun p => stale active drain_all p.2 = false) (waiters k c) in
  answer_all reply (map_to_list drained).*2 (set_waiters k kept c).

(** The entries whose members are not all active, or all when nodes left. *)
Definition votes_stale (active : gset Z) (drain_all : bool) (v : PendingVotes) : bool :=
  drain_all || negb (bool_decide (allowed_members v ⊆ active)).

Definition drain_votes (active : gset Z) (drain_all : bool) (c : Coordinator) : Coordinator :=
  let drained := filter (fun p => votes_stale active drain_all p.2 = true) (pending_votes c) in
  let kept := filter (fun p => votes_stale active drain_all p.2 = false) (pending_votes c) in
  foldr (fun v => drop_leases (votes_leases v)) (set_votes kept c) (map_to_list drained).*2.

(** ** Tasks *)

Definition REGISTRATION_TIMEOUT : Z := 2000.

(** Who called [unregister_global_coordinated]: a caller, or the loop of
    [unregister_process_registrations] with what it has removed, the name it is
    at and what is left. *)
Inductive UnregCaller : Type :=
| UnregCall
| UnregProcess (pid : GlobalProcessId) (removed : list (list Z)) (name : list Z)
    (rest : list (list Z)).

(** Where the result of a request to the coordinator goes. *)
Inductive Caller : Type :=
| CRegister (p : Proposal)
| CSync
| CUnregister (u : UnregCaller)
| CDropped.

(** Where the result of [coordinate_registration] goes: to the caller, to the
    requesting node, or nowhere when the future was dropped. *)
Inductive RegCont : Type := KCall | KDecide | KDropped.

Inductive UnregCont : Type :=
| UCall (u : UnregCaller)
| UReply (request_id requesting_node_id : Z)
| UDropped.

(** The locals of [coordinate_registration] once its votes are pending. *)
Record Voting : Type := mkVoting {
  v_members : list Z;
  v_token : Z;
  v_epoch : Z;
  v_deadline : Z;
}.

Inductive RegPc : Type :=
| RLock | RLookup | RCheck | RMembers
| RLease (ms : list Z)
| RVoteLease (ms : list Z)
| RToken (ms : list Z)
| REpoch (ms : list Z) (token : Z)
| RInsert (ms : list Z) (token epoch : Z)
| RPoll (v : Voting)
| RCommit (v : Voting)
| RNotify (v : Voting) (registered_at : Z) (todo : list Z)
| RStable (v : Voting)
| RUndo (v : Voting)
| RPrepare (v : Voting) (todo : list Z)
| RWait (v : Voting)
(** Destructors of the locals. *)
| RGuard (token : Z) (r : GlobalRegisterResult)
| RDrop (leases : nat) (r : GlobalRegisterResult).

Inductive SinglePc : Type :=
| SLock | SLookup | SCheck | SApply
| SUnlock (r : result unit CoordError).

Inductive UnregPc : Type :=
| UClient (allow_missing : bool)
| UMembers (allow_missing : bool)
| ULock (ms : list Z) (allow_missing : bool)
| ULookup (ms : list Z) (allow_missing : bool)
| URemove (ms : list Z)
| UNotify (todo : list Z)
| UUnlock (r : GlobalUnregisterResult).

Inductive WaitPc : Type :=
| WLease | WToken
| WInsert (token : Z)
| WDropLease
| WSend (token ch : Z)
| WAwait (token ch : Z)
| WGuard (token : Z) (r : result Reply CoordError).

(** A request to the coordinator that waits for an answer. *)
Record Request : Type := mkRequest {
  q_kind : WaitKind;
  q_id : Z;
  q_leader : Z;
  q_message : RegistryCoordinationMessage;
  q_caller : Caller;
}.

Inductive ReconcilePc : Type :=
| CFence
| CNodes (todo : list Z) (cleaned : list (list Z))
| CVotes (cleaned : list (list Z))
| CWaiters (k : WaitKind) (cleaned : list (list Z)).

(** Why a node registers a name alone: it has no client and was given a count of
    nodes, or its client named the members. *)
Inductive Alone : Type :=
| AloneCount (node_count : Z)
| AloneMembers (ms : list Z).

Inductive Task : Type :=
| TRegister (name : list Z) (pid : GlobalProcessId) (node_count : Z)
| TRegisterMembers (name : list Z) (pid : GlobalProcessId)
| TSingle (name : list Z) (pid : GlobalProcessId) (why : Alone) (pc : SinglePc)
| TCoordinate (k : RegCont) (p : Proposal) (pc : RegPc)
| TUnregister (u : UnregCaller) (name : list Z) (expected : GlobalProcessId)
| TUnregisterMembers (u : UnregCaller) (name : list Z) (expected : GlobalProcessId)
| TCoordinateUnreg (k : UnregCont) (name : list Z) (expected : GlobalProcessId) (pc : UnregPc)
| TUnregisterProcess (pid : GlobalProcessId)
| TSynchronize
| TWaiting (q : Request) (pc : WaitPc)
| THandle (source : Z) (m : RegistryCoordinationMessage)
| TPrepareLookup (source : Z) (p : Proposal)
| TPrepareCheck (source : Z) (p : Proposal)
| TReply (target : Z) (m : RegistryCoordinationMessage)
| TTakeLeader (k : WaitKind) (source rid : Z) (r : Reply)
| TTake (k : WaitKind) (rid : Z) (r : Reply)
| TApply (name : list Z) (pid : GlobalProcessId) (registered_at : Z)
| TRemove (name : list Z) (expected : GlobalProcessId)
| TSnapshot (target rid : Z)
| TSyncApply (ch : Z) (es : RegistrySnapshot)
| TSyncAnswer (ch : Z) (r : result unit CoordError)
| TReconcile (active : gset Z) (removed : list Z) (pc : ReconcilePc)
| TCleanup (node : Z).

(** What a finished task returns. *)
Inductive Value : Type :=
| VRegister (r : result unit CoordError)
| VUnregister (r : result GlobalUnregisterResult CoordError)
| VUnregisterProcess (r : result (list (list Z)) CoordError)
| VSync (r : result unit CoordError)
| VHandled (r : result unit CoordError)
| VCleaned (names : list (list Z))
| VNothing.

(** What a step shows: a request identity taken, for a proposal or another
    request, a message handed to the transport, a refused message, a vote given,
    a commit. *)
Inductive Output : Type :=
| ORequested (rid : Z) (p : option Proposal)
| OSend (target : Z) (m : RegistryCoordinationMessage)
| ODenied (source : Z)
| OVoted (p : Proposal) (r : GlobalRegisterResult)
| OCommitted (p : Proposal) (v : Voting) (registered_at : Z).

Inductive Step : Type :=
| Blocked
| Panicked
| Next (t : Task) (c : Coordinator) (outs : list Output)
| Finished (v : Value) (c : Coordinator) (outs : list Output).

(** ** [coordinate_registration] *)

Definition stripe (name : list Z) (c : Coordinator) : nat :=
  match name_lock_index name c with Ok i => i | Err _ => 0%nat end.

Definition reg_finish (k : RegCont) (p : Proposal) (r : GlobalRegisterResult) (c : Coordinator)
    (outs : list Output) : Step :=
  match k with
  | KCall => Finished (VRegister (result_to_anyhow r)) c outs
  | KDecide => Next (TReply (requesting_node_id p) (GlobalRegisterDecision (request_id p) r)) c outs
  | KDropped => Finished VNothing c outs
  end.

Definition coordinate_registration (k : RegCont) (p : Proposal) (c : Coordinator)
    (outs : list Output) : Step :=
  match name_lock_index (proposed_name p) c with
  | Err _ => reg_finish k p RegResourceExhausted c outs
  | Ok _ => Next (TCoordinate k p RLock) c outs
  end.

Definition rejection (e : RegistryError) : GlobalRegisterResult :=
  match e with CapacityExceeded => RegResourceExhausted | _ => ConflictDetected node_id end.

Definition vote_key (p : Proposal) : Z * Z := (requesting_node_id p, request_id p).

(** Validation under the lock of the name's stripe, up to the pending entry. *)
Definition propose_step (tid : Z) (o : Oracle) (k : RegCont) (p : Proposal) (pc : RegPc)
    (c : Coordinator) : Step :=
  let next pc c := Next (TCoordinate k p pc) c [] in
  match pc with
  | RLock =>
      match lock_stripe tid (stripe (proposed_name p) c) c with
      | Some c => next RLookup c
      | None => Blocked
      end
  | RLookup =>
      match lookup_global (proposed_name p) (registry c) with
      | Some e => next (RDrop 0 (AlreadyRegistered (global_pid e) (registered_at e))) c
      | None => next RCheck c
      end
  | RCheck =>
      match can_register_global limits (proposed_name p) (proposed_pid p) (registry c) with
      | Err e => next (RDrop 0 (rejection e)) c
      | Ok _ => next RMembers c
      end
  | RMembers =>
      match members o with
      | Err RegistryCapacityError => next (RDrop 0 RegResourceExhausted) c
      | Err _ => next (RDrop 0 (ConflictDetected node_id)) c
      | Ok ms =>
          if negb (bool_decide (requesting_node_id p ∈ ms))
             || negb (GlobalProcessId.node_id (proposed_pid p) =? requesting_node_id p)
          then next (RDrop 0 (ConflictDetected node_id)) c
          else next (RLease ms) c
      end
  | RLease ms =>
      match try_acquire c with
      | Some c => next (RVoteLease ms) c
      | None => next (RDrop 0 RegResourceExhausted) c
      end
  | RVoteLease ms =>
      match try_acquire c with
      | Some c => next (RToken ms) c
      | None => next (RDrop 1 RegResourceExhausted) c
      end
  | RToken ms =>
      next (REpoch ms (next_pending_token c)) (set_token (fetch_add1 (next_pending_token c)) c)
  | REpoch ms token => next (RInsert ms token (topology_epoch c)) c
  | RInsert ms token epoch =>
      match pending_votes c !! vote_key p with
      | Some _ => next (RDrop 2 RegResourceExhausted) c
      | None =>
          next (RPoll (mkVoting ms token epoch (now o + REGISTRATION_TIMEOUT)))
            (set_votes (<[vote_key p :=
               mkVotes token (list_to_set ms) {[ node_id := RegSuccess ]} false]> (pending_votes c)) c)
      end
  | _ => Blocked
  end.

(** The loop that collects the votes, the commit, and the destructors. *)
Definition voting_step (o : Oracle) (k : RegCont) (p : Proposal) (pc : RegPc) (c : Coordinator)
    : Step :=
  let next pc c := Next (TCoordinate k p pc) c [] in
  let conflict := ConflictDetected node_id in
  match pc with
  | RPoll v =>
      match pending_votes c !! vote_key p with
      | None => next (RGuard (v_token v) conflict) c
      | Some votes =>
          if capacity_exhausted votes then next (RGuard (v_token v) RegResourceExhausted) c
          else if required (v_members v) <=? successes votes then next (RCommit v) c
          else if (Z.of_nat (size (responses votes)) =? Z.of_nat (length (v_members v)))
                  || (v_deadline v <=? now o)
          then next (RGuard (v_token v) (default conflict (first_rejection o votes))) c
          else next (RPrepare v (missing (v_members v) votes)) c
      end
  | RPrepare v [] => next (RWait v) c
  | RPrepare v (n :: todo) =>
      Next (TCoordinate k p (RPrepare v todo)) c [OSend n (GlobalRegisterPrepare p)]
  | RWait v => next (RPoll v) c
  | RGuard token r => next (RDrop 0 r) (drop_vote_guard (vote_key p) token c)
  | RDrop (S n) r => next (RDrop n r) (drop_leases 1 c)
  | RDrop O r => reg_finish k p r (unlock_stripe (stripe (proposed_name p) c) c) []
  | _ => Blocked
  end.

Definition commit_step (o : Oracle) (k : RegCont) (p : Proposal) (pc : RegPc) (c : Coordinator)
    : Step :=
  let next pc c := Next (TCoordinate k p pc) c [] in
  let conflict := ConflictDetected node_id in
  match pc with
  | RCommit v =>
      if bool_decide (is_Some (topology_fence c)) then Blocked
      else if negb (topology_epoch c =? v_epoch v) then next (RGuard (v_token v) conflict) c
      else
        match apply_global limits (proposed_name p) (proposed_pid p) (timestamp o) (registry c) with
        | (Err e, reg) => next (RGuard (v_token v) (rejection e)) (set_registry reg c)
        | (Ok _, reg) =>
            Next (TCoordinate k p (RNotify v (timestamp o) (filter (.≠ node_id) (v_members v))))
              (set_registry reg c) [OCommitted p v (timestamp o)]
        end
  | RNotify v registered_at [] => next (RStable v) c
  | RNotify v registered_at (n :: todo) =>
      if negb (topology_epoch c =? v_epoch v) then next (RStable v) c
      else Next (TCoordinate k p (RNotify v registered_at todo)) c
             [OSend n (GlobalRegisterNotify (proposed_name p) (proposed_pid p) registered_at)]
  | RStable v =>
      if bool_decide (is_Some (topology_fence c)) then Blocked
      else if topology_epoch c =? v_epoch v then next (RGuard (v_token v) RegSuccess) c
      else next (RUndo v) c
  | RUndo v =>
      match remove_global_if_owner (proposed_name p) (proposed_pid p) (registry c) with
      | None => Panicked
      | Some (_, reg) => next (RGuard (v_token v) conflict) (set_registry reg c)
      end
  | _ => Blocked
  end.

Definition coordinate_step (tid : Z) (o : Oracle) (k : RegCont) (p : Proposal) (pc : RegPc)
    (c : Coordinator) : Step :=
  match pc with
  | RLock | RLookup | RCheck | RMembers | RLease _ | RVoteLease _ | RToken _ | REpoch _ _
  | RInsert _ _ _ => propose_step tid o k p pc c
  | RCommit _ | RNotify _ _ _ | RStable _ | RUndo _ => commit_step o k p pc c
  | _ => voting_step o k p pc c
  end.

(** ** [register_single_node] *)

Definition single_step (tid : Z) (o : Oracle) (name : list Z) (pid : GlobalProcessId) (why : Alone)
    (pc : SinglePc) (c : Coordinator) : Step :=
  let next pc c := Next (TSingle name pid why pc) c [] in
  match pc with
  | SLock =>
      match lock_stripe tid (stripe name c) c with
      | Some c => next SLookup c
      | None => Blocked
      end
  | SLookup =>
      match lookup_global name (registry c) with
      | Some _ => next (SUnlock (Err RegistryConflictError)) c
      | None => next SCheck c
      end
  | SCheck =>
      match can_register_global limits name pid (registry c) with
      | Err e => next (SUnlock (Err (registry_error e))) c
      | Ok _ => next SApply c
      end
  | SApply =>
      match apply_global limits name pid (timestamp o) (registry c) with
      | (Err e, reg) => next (SUnlock (Err (registry_error e))) (set_registry reg c)
      | (Ok _, reg) => next (SUnlock (Ok tt)) (set_registry reg c)
      end
  | SUnlock r => Finished (VRegister r) (unlock_stripe (stripe name c) c) []
  end.

(** ** Unregistration *)

(** The loop of [unregister_process_registrations]. *)
Definition unreg_next (pid : GlobalProcessId) (removed rest : list (list Z)) (c : Coordinator)
    : Step :=
  match rest with
  | [] => Finished (VUnregisterProcess (Ok removed)) c []
  | name :: rest => Next (TUnregister (UnregProcess pid removed name rest) name pid) c []
  end.

Definition unreg_finish (u : UnregCaller) (r : result GlobalUnregisterResult CoordError)
    (c : Coordinator) : Step :=
  match u with
  | UnregCall => Finished (VUnregister r) c []
  | UnregProcess pid removed name rest =>
      match r with
      | Err e => Finished (VUnregisterProcess (Err e)) c []
      | Ok UnregSuccess => unreg_next pid (removed ++ [name]) rest c
      | Ok (UnregNotFound | OwnerChanged) => unreg_next pid removed rest c
      | Ok UnregResourceExhausted => Finished (VUnregisterProcess (Err RegistryCapacityError)) c []
      end
  end.

Definition unreg_return (k : UnregCont) (r : GlobalUnregisterResult) (c : Coordinator) : Step :=
  match k with
  | UCall u => unreg_finish u (Ok r) c
  | UReply rid requester => Next (TReply requester (GlobalUnregisterResponse rid r)) c []
  | UDropped => Finished VNothing c []
  end.

Definition unreg_enter (k : UnregCont) (name : list Z) (expected : GlobalProcessId) (ms : list Z)
    (allow_missing : bool) (c : Coordinator) : Step :=
  match name_lock_index name c with
  | Err _ => unreg_return k UnregResourceExhausted c
  | Ok _ => Next (TCoordinateUnreg k name expected (ULock ms allow_missing)) c []
  end.

(** [coordinate_unregistration] *)
Definition coordinate_unreg_step (tid : Z) (o : Oracle) (k : UnregCont) (name : list Z)
    (expected : GlobalProcessId) (pc : UnregPc) (c : Coordinator) : Step :=
  let next pc c := Next (TCoordinateUnreg k name expected pc) c [] in
  match pc with
  | UClient allow =>
      if has_client o then next (UMembers allow) c else unreg_enter k name expected [] allow c
  | UMembers allow =>
      match members o with
      | Err RegistryCapacityError => unreg_return k UnregResourceExhausted c
      | Err _ => unreg_return k OwnerChanged c
      | Ok ms => unreg_enter k name expected ms allow c
      end
  | ULock ms allow =>
      match lock_stripe tid (stripe name c) c with
      | Some c => next (ULookup ms allow) c
      | None => Blocked
      end
  | ULookup ms allow =>
      match lookup_global name (registry c) with
      | Some e =>
          if bool_decide (global_pid e ≠ expected) then next (UUnlock OwnerChanged) c
          else next (URemove ms) c
      | None =>
          if allow then next (UNotify (filter (.≠ node_id) ms)) c
          else next (UUnlock UnregNotFound) c
      end
  | URemove ms =>
      match remove_global_if_owner name expected (registry c) with
      | None => Panicked
      | Some (false, reg) => next (UUnlock OwnerChanged) (set_registry reg c)
      | Some (true, reg) => next (UNotify (filter (.≠ node_id) ms)) (set_registry reg c)
      end
  | UNotify [] => next (UUnlock UnregSuccess) c
  | UNotify (n :: todo) =>
      Next (TCoordinateUnreg k name expected (UNotify todo)) c
        [OSend n (GlobalUnregisterNotify name expected)]
  | UUnlock r => unreg_return k r (unlock_stripe (stripe name c) c)
  end.

(** ** Requests that wait for the coordinator *)

Definition wait_finish (q : Request) (r : result Reply CoordError) (c : Coordinator) : Step :=
  match q_caller q with
  | CRegister p =>
      match r with
      | Ok (ReplyRegister r) => Finished (VRegister (result_to_anyhow r)) c []
      | Ok _ => Finished (VRegister (Err OtherError)) c []  (* not reached: the channel has one type *)
      | Err e => Finished (VRegister (Err e)) c []
      end
  | CSync =>
      Finished (VSync match r with Ok (ReplySync r) => r | Ok _ => Err OtherError | Err e => Err e end) c []
  | CUnregister u =>
      unreg_finish u
        match r with Ok (ReplyUnregister r) => Ok r | Ok _ => Err OtherError | Err e => Err e end c
  | CDropped => Finished VNothing c []
  end.

Definition insert_pending_caller := insert_pending WCaller.
Definition insert_pending_sync := insert_pending WSync.
Definition insert_pending_unregister := insert_pending WUnregister.

Definition insert_request (q : Request) (token : Z) (c : Coordinator)
    : result Z CoordError * Coordinator :=
  match q_kind q with
  | WCaller => insert_pending_caller (q_id q) (q_leader q) token c
  | WSync => insert_pending_sync (q_id q) (q_leader q) token c
  | WUnregister => insert_pending_unregister (q_id q) (q_leader q) token c
  end.

Definition wait_step (o : Oracle) (q : Request) (pc : WaitPc) (c : Coordinator) : Step :=
  let next pc c := Next (TWaiting q pc) c [] in
  match pc with
  | WLease =>
      match try_acquire c with
      | Some c => next WToken c
      | None => wait_finish q (Err RegistryCapacityError) c
      end
  | WToken => next (WInsert (next_pending_token c)) (set_token (fetch_add1 (next_pending_token c)) c)
  | WInsert token =>
      match insert_request q token c with
      | (Ok ch, c) => next (WSend token ch) c
      | (Err _, c) => next WDropLease c
      end
  | WDropLease => wait_finish q (Err RegistryCapacityError) (drop_leases 1 c)
  | WSend token ch =>
      Next (TWaiting q match send_result o with
                       | Ok _ => WAwait token ch
                       | Err e => WGuard token (Err e)
                       end) c [OSend (q_leader q) (q_message q)]
  | WAwait token ch =>
      match channels c !! ch with
      | Some (Sent r) => next (WGuard token (Ok r)) c
      | Some SenderDropped => next (WGuard token (Err OtherError)) c
      | _ => if timed_out o then next (WGuard token (Err RegistryTimeoutError)) c else Blocked
      end
  | WGuard token r => wait_finish q r (drop_waiter_guard (q_kind q) (q_id q) token c)
  end.

(** ** The entry points *)

(** [register_global_coordinated_inner] *)
Definition register_step (o : Oracle) (name : list Z) (pid : GlobalProcessId) (node_count : Z)
    (c : Coordinator) : Step :=
  match name_lock_index name c with
  | Err e => Finished (VRegister (Err e)) c []
  | Ok _ =>
      if negb (GlobalProcessId.node_id pid =? node_id)
      then Finished (VRegister (Err RegistryConflictError)) c []
      else if (node_count <=? 1) && negb (has_client o) then Next (TSingle name pid (AloneCount node_count) SLock) c []
      else Next (TRegisterMembers name pid) c []
  end.

Definition register_members_step (o : Oracle) (name : list Z) (pid : GlobalProcessId)
    (c : Coordinator) : Step :=
  match members o with
  | Err e => Finished (VRegister (Err e)) c []
  | Ok ms =>
      match ms with
      | leader :: _ :: _ =>
          let p := mkProposal (next_request_id c) node_id name pid in
          let outs := [ORequested (next_request_id c) (Some p)] in
          let c := set_request_id (fetch_add1 (next_request_id c)) c in
          if leader =? node_id then coordinate_registration KCall p c outs
          else Next (TWaiting (mkRequest WCaller (request_id p) leader (GlobalRegisterRequest p)
                       (CRegister p)) WLease) c outs
      | _ => Next (TSingle name pid (AloneMembers ms) SLock) c []
      end
  end.

(** [unregister_global_coordinated] *)
Definition unregister_step (o : Oracle) (u : UnregCaller) (name : list Z) (expected : GlobalProcessId)
    (c : Coordinator) : Step :=
  match name_lock_index name c with
  | Err e => unreg_finish u (Err e) c
  | Ok _ =>
      if negb (GlobalProcessId.node_id expected =? node_id)
      then unreg_finish u (Err RegistryConflictError) c
      else if negb (has_client o)
      then Next (TCoordinateUnreg (UCall u) name expected (UClient true)) c []
      else Next (TUnregisterMembers u name expected) c []
  end.

Definition unregister_members_step (o : Oracle) (u : UnregCaller) (name : list Z)
    (expected : GlobalProcessId) (c : Coordinator) : Step :=
  match members o with
  | Err e => unreg_finish u (Err e) c
  | Ok ms =>
      match ms with
      | leader :: _ :: _ =>
          if leader =? node_id then unreg_enter (UCall u) name expected ms true c
          else
            let rid := next_request_id c in
            Next (TWaiting (mkRequest WUnregister rid leader
                    (GlobalUnregisterRequest rid node_id name expected) (CUnregister u)) WLease)
              (set_request_id (fetch_add1 rid) c) [ORequested rid None]
      | _ => Next (TCoordinateUnreg (UCall u) name expected (UClient true)) c []
      end
  end.

Definition unregister_process_registrations (pid : GlobalProcessId) (c : Coordinator) : Step :=
  if negb (GlobalProcessId.node_id pid =? node_id)
  then Finished (VUnregisterProcess (Err RegistryConflictError)) c []
  else unreg_next pid [] (global_names_for_process pid (registry c)) c.

Definition synchronize_from_coordinator (o : Oracle) (c : Coordinator) : Step :=
  match leader o with
  | Err e => Finished (VSync (Err e)) c []
  | Ok l =>
      if l =? node_id then Finished (VSync (Ok tt)) c []
      else
        let rid := next_request_id c in
        Next (TWaiting (mkRequest WSync rid l (RegistrySyncRequest rid node_id) CSync) WLease)
          (set_request_id (fetch_add1 rid) c) [ORequested rid None]
  end.

(** ** [handle_message] *)

Definition denied (source : Z) (c : Coordinator) : Step :=
  Finished (VHandled (Err OtherError)) c [ODenied source].

Definition handled (r : result unit CoordError) (c : Coordinator) : Step := Finished (VHandled r) c [].

(** [handle_register_request]: two reads of the registry, then the vote. *)
Definition vote (source : Z) (p : Proposal) (r : GlobalRegisterResult) (c : Coordinator) : Step :=
  Next (TReply source (GlobalRegisterResponse (request_id p) (requesting_node_id p) node_id r)) c
    [OVoted p r].

Definition prepare_lookup (source : Z) (p : Proposal) (c : Coordinator) : Step :=
  match lookup_global (proposed_name p) (registry c) with
  | Some e =>
      if bool_decide (global_pid e ≠ proposed_pid p)
      then vote source p (AlreadyRegistered (global_pid e) (registered_at e)) c
      else Next (TPrepareCheck source p) c []
  | None => Next (TPrepareCheck source p) c []
  end.

Definition prepare_check (source : Z) (p : Proposal) (c : Coordinator) : Step :=
  match can_register_global limits (proposed_name p) (proposed_pid p) (registry c) with
  | Ok _ => vote source p RegSuccess c
  | Err e => vote source p (rejection e) c
  end.

(** An answer to a waiting caller: whose it is, whether its source still leads,
    and its delivery. *)
Definition take_waiter (k : WaitKind) (source rid : Z) (r : Reply) (c : Coordinator) : Step :=
  match waiters k c !! rid with
  | None => handled (Ok tt) c
  | Some w =>
      if negb (source =? coordinator_node_id w) then denied source c
      else Next (TTakeLeader k source rid r) c []
  end.

Definition take_leader (o : Oracle) (k : WaitKind) (source rid : Z) (r : Reply) (c : Coordinator)
    : Step :=
  match leader o with
  | Err e => handled (Err e) c
  | Ok l => if negb (source =? l) then denied source c else Next (TTake k rid r) c []
  end.

Definition take (k : WaitKind) (rid : Z) (r : Reply) (c : Coordinator) : Step :=
  match waiters k c !! rid with
  | None => handled (Ok tt) c
  | Some w =>
      handled (Ok tt)
        (drop_leases 1 (answer (sender w) r (set_waiters k (delete rid (waiters k c)) c)))
  end.

(** [RegistrySyncResponse], up to the release of the topology fence. *)
Definition sync_response (tid : Z) (o : Oracle) (source rid : Z) (es : RegistrySnapshot)
    (c : Coordinator) : Step :=
  if bool_decide (is_Some (topology_fence c)) then Blocked
  else
    match pending_syncs c !! rid with
    | None => handled (Ok tt) c
    | Some w =>
        if negb (source =? coordinator_node_id w) then denied source c
        else
          match leader o with
          | Err e => handled (Err e) c
          | Ok l =>
              if negb (source =? l) then denied source c
              else Next (TSyncApply (sender w) es)
                     (set_fence (Some tid) (set_waiters WSync (delete rid (pending_syncs c)) c)) []
          end
    end.

Definition handle_sync_response (ch : Z) (es : RegistrySnapshot) (c : Coordinator) : Step :=
  let '(r, reg) := replace_global_snapshot limits es (registry c) in
  Next (TSyncAnswer ch match r with Ok _ => Ok tt | Err e => Err (registry_error e) end)
    (set_fence None (set_registry reg c)) [].

Definition handle_message (tid : Z) (o : Oracle) (source : Z) (m : RegistryCoordinationMessage)
    (c : Coordinator) : Step :=
  let as_leader (k : Step) :=
    match leader o with
    | Err e => handled (Err e) c
    | Ok l => if negb (l =? node_id) then denied source c else k
    end in
  match m with
  | GlobalRegisterRequest p =>
      if negb (source =? requesting_node_id p)
         || negb (GlobalProcessId.node_id (proposed_pid p) =? requesting_node_id p)
      then denied source c
      else
        match leader o with
        | Err e => handled (Err e) c
        | Ok l =>
            if l =? node_id then coordinate_registration KDecide p c []
            else Next (TReply (requesting_node_id p)
                         (GlobalRegisterDecision (request_id p) (ConflictDetected node_id))) c []
        end
  | GlobalRegisterPrepare p =>
      match leader o with
      | Err e => handled (Err e) c
      | Ok l =>
          if negb (source =? l)
             || negb (GlobalProcessId.node_id (proposed_pid p) =? requesting_node_id p)
          then denied source c
          else Next (TPrepareLookup source p) c []
      end
  | GlobalRegisterResponse rid requester responder r =>
      if negb (source =? responder) then denied source c
      else
        match record_vote requester rid responder r c with
        | (NonMember, c) => denied source c
        | (_, c) => handled (Ok tt) c
        end
  | GlobalRegisterDecision rid r => take_waiter WCaller source rid (ReplyRegister r) c
  | GlobalRegisterNotify name pid registered_at =>
      match members o with
      | Err e => handled (Err e) c
      | Ok ms =>
          if bool_decide (head ms ≠ Some source)
             || negb (bool_decide (GlobalProcessId.node_id pid ∈ ms))
          then denied source c
          else Next (TApply name pid registered_at) c []
      end
  | GlobalUnregisterRequest rid requester name expected =>
      if negb (source =? requester) || negb (GlobalProcessId.node_id expected =? requester)
      then denied source c
      else as_leader (Next (TCoordinateUnreg (UReply rid requester) name expected (UClient false)) c [])
  | GlobalUnregisterResponse rid r => take_waiter WUnregister source rid (ReplyUnregister r) c
  | GlobalUnregisterNotify name expected =>
      match leader o with
      | Err e => handled (Err e) c
      | Ok l => if negb (source =? l) then denied source c else Next (TRemove name expected) c []
      end
  | RegistrySyncRequest rid requester =>
      if negb (source =? requester) then denied source c
      else as_leader (Next (TSnapshot requester rid) c [])
  | RegistrySyncResponse rid es => sync_response tid o source rid es c
  | RegistryHeartbeat n _ => if negb (source =? n) then denied source c else handled (Ok tt) c
  end.

(** [handle_register_notify], [handle_unregister_notify] *)
Definition handle_register_notify (name : list Z) (pid : GlobalProcessId) (registered_at : Z)
    (c : Coordinator) : Step :=
  match apply_global limits name pid registered_at (registry c) with
  | (Ok _, reg) => handled (Ok tt) (set_registry reg c)
  | (Err e, reg) => handled (Err (registry_error e)) (set_registry reg c)
  end.

Definition handle_unregister_notify (name : list Z) (expected : GlobalProcessId) (c : Coordinator)
    : Step :=
  match remove_global_if_owner name expected (registry c) with
  | Some (_, reg) => handled (Ok tt) (set_registry reg c)
  | None => Panicked
  end.

(** ** [reconcile_topology] *)

Definition drained_reply (k : WaitKind) (w : PendingWaiter) : Reply :=
  match k with
  | WCaller => ReplyRegister (ConflictDetected (coordinator_node_id w))
  | WSync => ReplySync (Err RegistryConflictError)
  | WUnregister => ReplyUnregister OwnerChanged
  end.

Definition reconcile_step (tid : Z) (active : gset Z) (removed : list Z) (pc : ReconcilePc)
    (c : Coordinator) : Step :=
  let next pc c := Next (TReconcile active removed pc) c [] in
  let drain_all := bool_decide (removed ≠ []) in
  match pc with
  | CFence =>
      if bool_decide (is_Some (topology_fence c)) then Blocked
      else next (CNodes (elements (list_to_set (C := gset Z) removed)) [])
             (set_fence (Some tid) (set_epoch (fetch_add1 (topology_epoch c)) c))
  | CNodes (n :: todo) cleaned =>
      match remove_node_registrations n (registry c) with
      | None => Panicked
      | Some (names, reg) => next (CNodes todo (cleaned ++ names)) (set_registry reg c)
      end
  | CNodes [] cleaned => next (CVotes cleaned) c
  | CVotes cleaned => next (CWaiters WCaller cleaned) (drain_votes active drain_all c)
  | CWaiters k cleaned =>
      let c := drain_stale_entries k active drain_all (drained_reply k) c in
      match k with
      | WCaller => next (CWaiters WSync cleaned) c
      | WSync => next (CWaiters WUnregister cleaned) c
      | WUnregister => Finished (VCleaned (sort_names cleaned)) (set_fence None c) []
      end
  end.

(** [cleanup_node_registrations] *)
Definition cleanup_node_registrations (n : Z) (c : Coordinator) : Step :=
  match remove_node_registrations n (registry c) with
  | Some (names, reg) => Finished (VCleaned names) (set_registry reg c) []
  | None => Panicked
  end.

(** ** One step of a task *)

Definition task_step (tid : Z) (o : Oracle) (t : Task) (c : Coordinator) : Step :=
  match t with
  | TRegister name pid n => register_step o name pid n c
  | TRegisterMembers name pid => register_members_step o name pid c
  | TSingle name pid why pc => single_step tid o name pid why pc c
  | TCoordinate k p pc => coordinate_step tid o k p pc c
  | TUnregister u name expected => unregister_step o u name expected c
  | TUnregisterMembers u name expected => unregister_members_step o u name expected c
  | TCoordinateUnreg k name expected pc => coordinate_unreg_step tid o k name expected pc c
  | TUnregisterProcess pid => unregister_process_registrations pid c
  | TSynchronize => synchronize_from_coordinator o c
  | TWaiting q pc => wait_step o q pc c
  | THandle source m => handle_message tid o source m c
  | TPrepareLookup source p => prepare_lookup source p c
  | TPrepareCheck source p => prepare_check source p c
  | TReply target m => Finished (VHandled (send_result o)) c [OSend target m]
  | TTakeLeader k source rid r => take_leader o k source rid r c
  | TTake k rid r => take k rid r c
  | TApply name pid registered_at => handle_register_notify name pid registered_at c
  | TRemove name expected => handle_unregister_notify name expected c
  | TSnapshot target rid =>
      Next (TReply target (RegistrySyncResponse rid (global_snapshot (registry c)))) c []
  | TSyncApply ch es => handle_sync_response ch es c
  | TSyncAnswer ch r => Finished (VHandled r) (drop_leases 1 (answer ch (ReplySync r) c)) []
  | TReconcile active removed pc => reconcile_step tid active removed pc c
  | TCleanup n => cleanup_node_registrations n c
  end.

(** A future dropped while it waits: what is left of the task runs the
    destructors of its locals.  [None] where the task does not wait. *)
Definition cancel (t : Task) : option (option Task) :=
  match t with
  | TSingle _ _ _ SLock | TCoordinate _ _ RLock | TCoordinateUnreg _ _ _ (ULock _ _)
  | TReply _ _ => Some None
  | TCoordinate _ p (RNotify v _ _ | RPrepare v _ | RWait v) =>
      Some (Some (TCoordinate KDropped p (RGuard (v_token v) RegResourceExhausted)))
  | TCoordinateUnreg _ name expected (UNotify _) =>
      Some (Some (TCoordinateUnreg UDropped name expected (UUnlock OwnerChanged)))
  | TWaiting q (WSend token _ | WAwait token _) =>
      Some (Some (TWaiting (mkRequest (q_kind q) (q_id q) (q_leader q) (q_message q) CDropped)
                    (WGuard token (Err OtherError))))
  | _ => None
  end.
End coordinator.
