(* ===== verification/CoordinatorNode.v ===== *)
(** * The tasks of one coordinator, running together

    Every task of [RegistryCoordination] holds some of what is shared: leases of
    the pending budget, the guard of a pending entry, the lock of a name stripe,
    the topology fence.  A step changes the shared state only in step with what
    its task holds ([effect]), for any behaviour of the other nodes and of the
    network.  It follows that the accounting of the pending budget is exact, that
    stripes exclude each other, that nothing panics, and that nothing is left
    behind when the calls in progress have ended. *)

From S2P Require Import Prelude GlobalProcessId DistributedRegistry RegistrySpec.
From S2P Require Import RegistryCoordination.

(** ** A node: its coordinator, its tasks and what they showed *)

Record Node : Type := mkNode {
  coordinator : Coordinator;
  tasks : gmap Z Task;
  (** Every output with the state of the coordinator before its step. *)
  history : list (Coordinator * Output);
}.

(** What may be started: a call of the interface, or the handling of a message
    that may be received. *)
Definition may_start (may_receive : Z → RegistryCoordinationMessage → Prop) (t : Task) : Prop :=
  match t with
  | TRegister _ _ _ | TUnregister UnregCall _ _ | TUnregisterProcess _ | TSynchronize
  | TReconcile _ _ CFence | TCleanup _ => True
  | THandle source m => may_receive source m
  | _ => False
  end.

Section node.
Context (limits : RegistryLimits) (node_id : Z).

Inductive node_step (may_receive : Z → RegistryCoordinationMessage → Prop) : Node → Node → Prop :=
| ns_start c ts h tid t :
    ts !! tid = None → may_start may_receive t →
    node_step may_receive (mkNode c ts h) (mkNode c (<[tid := t]> ts) h)
| ns_next c ts h tid t o t' c' outs :
    ts !! tid = Some t → oracle_ok o → task_step limits node_id tid o t c = Next t' c' outs →
    node_step may_receive (mkNode c ts h) (mkNode c' (<[tid := t']> ts) (h ++ (pair c <$> outs)))
| ns_finish c ts h tid t o v c' outs :
    ts !! tid = Some t → oracle_ok o → task_step limits node_id tid o t c = Finished v c' outs →
    node_step may_receive (mkNode c ts h) (mkNode c' (delete tid ts) (h ++ (pair c <$> outs)))
| ns_cancel c ts h tid t rest :
    ts !! tid = Some t → cancel t = Some rest →
    node_step may_receive (mkNode c ts h) (mkNode c (partial_alter (fun _ => rest) tid ts) h).

Definition new_node (stripes_allocated : bool) : Node :=
  mkNode (new limits state_default stripes_allocated) ∅ [].
End node.

(** ** What a task holds *)

Record Footprint : Type := mkFoot {
  f_leases : Z;
  f_votes : option (Z * Z * Z);
  f_waiter : option (WaitKind * Z * Z);
  f_stripe : option (list Z);
  f_fence : bool;
}.

Definition idle : Footprint := mkFoot 0 None None None false.

Definition reg_footprint (p : Proposal) (pc : RegPc) : Footprint :=
  let name := proposed_name p in
  let guard token := mkFoot 0 (Some (vote_key p, token)) None (Some name) false in
  match pc with
  | RLock => idle
  | RLookup | RCheck | RMembers | RLease _ => mkFoot 0 None None (Some name) false
  | RVoteLease _ => mkFoot 1 None None (Some name) false
  | RToken _ | REpoch _ _ | RInsert _ _ _ => mkFoot 2 None None (Some name) false
  | RPoll v | RCommit v | RNotify v _ _ | RStable v | RUndo v | RPrepare v _ | RWait v =>
      guard (v_token v)
  | RGuard token _ => guard token
  | RDrop n _ => mkFoot (Z.of_nat n) None None (Some name) false
  end.

Definition wait_footprint (q : Request) (pc : WaitPc) : Footprint :=
  match pc with
  | WLease => idle
  | WToken | WInsert _ | WDropLease => mkFoot 1 None None None false
  | WSend token _ | WAwait token _ | WGuard token _ =>
      mkFoot 0 None (Some (q_kind q, q_id q, token)) None false
  end.

Definition footprint (t : Task) : Footprint :=
  match t with
  | TCoordinate _ p pc => reg_footprint p pc
  | TWaiting q pc => wait_footprint q pc
  | TSingle _ _ _ SLock => idle
  | TSingle name _ _ _ => mkFoot 0 None None (Some name) false
  | TCoordinateUnreg _ _ _ (UClient _ | UMembers _ | ULock _ _) => idle
  | TCoordinateUnreg _ name _ _ => mkFoot 0 None None (Some name) false
  | TSyncApply _ _ => mkFoot 1 None None None true
  | TSyncAnswer _ _ => mkFoot 1 None None None false
  | TReconcile _ _ CFence => idle
  | TReconcile _ _ _ => mkFoot 0 None None None true
  | _ => idle
  end.

Definition footprint_of (o : option Task) : Footprint :=
  match o with Some t => footprint t | None => idle end.

(** The leases of the pending entries. *)
Definition entry_leases (c : Coordinator) : Z :=
  map_sum votes_leases (pending_votes c) + Z.of_nat (size (pending_callers c))
  + Z.of_nat (size (pending_syncs c)) + Z.of_nat (size (pending_unregisters c)).

Lemma votes_leases_pos v : 1 <= votes_leases v.
Proof. unfold votes_leases. lia. Qed.

Lemma entry_leases_nonneg c : 0 <= entry_leases c.
Proof.
  unfold entry_leases.
  pose proof (map_sum_nonneg votes_leases (pending_votes c)) as H.
  assert (∀ v, 0 <= votes_leases v) as Hv by (intros v; pose proof (votes_leases_pos v); lia).
  specialize (H Hv). lia.
Qed.

Lemma footprint_leases t : 0 <= f_leases (footprint t).
Proof.
  destruct t; simpl; try lia; repeat case_match; simpl; try lia; unfold reg_footprint, wait_footprint;
    repeat case_match; simpl; lia.
Qed.

(** ** The effect of a step on what is shared *)

Section effects.
Context (limits : RegistryLimits) (node_id : Z) (Hlimits : limits_ok limits).
Implicit Types (c : Coordinator) (F : Footprint).

(** What a step may assume of the state it starts in. *)
Record ready (tid : Z) F c : Prop := {
  r_registry : inv limits (registry c);
  r_leases : 0 <= f_leases F ∧ entry_leases c + f_leases F <= budget_used c;
  r_max : budget_used c <= u64_max ∧ budget_used c <= max_pending_responses limits;
  r_stripe name : f_stripe F = Some name → name_locks c !! stripe name c = Some (Some tid);
}.

Record effect (tid : Z) F c F' c' : Prop := {
  e_registry : inv limits (registry c');
  e_leases : budget_used c' - entry_leases c' - f_leases F' =
             budget_used c - entry_leases c - f_leases F;
  e_max : budget_used c' <= u64_max ∧ budget_used c' <= max_pending_responses limits;
  e_votes key v' : pending_votes c' !! key = Some v' →
    f_votes F' = Some (key, votes_token v') ∨
    ∃ v, pending_votes c !! key = Some v ∧ votes_token v = votes_token v' ∧
      f_votes F ≠ Some (key, votes_token v);
  e_waiters k rid w : waiters k c' !! rid = Some w →
    f_waiter F' = Some (k, rid, waiter_token w) ∨
    waiters k c !! rid = Some w ∧ f_waiter F ≠ Some (k, rid, waiter_token w);
  e_stripe : match f_stripe F, f_stripe F' with
    | None, Some name => name_locks c !! stripe name c = Some None ∧
        name_locks c' = <[stripe name c := Some tid]> (name_locks c)
    | Some name, None => name_locks c' = <[stripe name c := None]> (name_locks c)
    | a, b => a = b ∧ name_locks c' = name_locks c
    end;
  e_fence : match f_fence F, f_fence F' with
    | false, true => topology_fence c = None ∧ topology_fence c' = Some tid
    | true, false => topology_fence c' = None
    | _, _ => topology_fence c' = topology_fence c
    end;
}.

(** The conclusion for a step of [task_step]. *)
Definition step_effect (tid : Z) (t : Task) c (s : Step) : Prop :=
  match s with
  | Blocked => True
  | Panicked => False
  | Next t' c' _ => effect tid (footprint t) c (footprint t') c'
  | Finished _ c' _ => effect tid (footprint t) c idle c'
  end.

(** The parts of the state that footprints are about. *)
Definition same_pending c c' : Prop :=
  budget_used c' = budget_used c ∧ pending_votes c' = pending_votes c ∧
  (∀ k, waiters k c' = waiters k c) ∧
  name_locks c' = name_locks c ∧ topology_fence c' = topology_fence c.

Lemma same_pending_leases c c' : same_pending c c' → entry_leases c' = entry_leases c.
Proof.
  intros (_ & Hv & Hw & _). unfold entry_leases. rewrite Hv.
  pose proof (Hw WCaller) as H1. pose proof (Hw WSync) as H2. pose proof (Hw WUnregister) as H3.
  simpl in *. by rewrite H1, H2, H3.
Qed.

(** A step that changes nothing of them. *)
Lemma effect_idle tid F c F' c' :
  ready tid F c → F' = F → same_pending c c' → inv limits (registry c') → effect tid F c F' c'.
Proof.
  intros [Hreg Hle Hmax Hst] -> Hs Hinv. pose proof (same_pending_leases _ _ Hs) as Hel.
  destruct Hs as (Hu & Hv & Hw & Hl & Hf). split.
  - done.
  - lia.
  - by rewrite Hu.
  - intros key v'. rewrite Hv. intros Hk.
    destruct (decide (f_votes F = Some (key, votes_token v'))); [by left|]. right. eauto.
  - intros k rid w. rewrite Hw. intros Hk.
    destruct (decide (f_waiter F = Some (k, rid, waiter_token w))); [by left|by right].
  - by destruct (f_stripe F).
  - by destruct (f_fence F).
Qed.

Lemma waiters_set_waiters k k' m c :
  waiters k' (set_waiters k m c) = if decide (k' = k) then m else waiters k' c.
Proof. by destruct k, k'. Qed.

Lemma entry_leases_set_waiters k m c :
  entry_leases (set_waiters k m c)
  = entry_leases c - Z.of_nat (size (waiters k c)) + Z.of_nat (size m).
Proof. unfold entry_leases. destruct k; simpl; lia. Qed.

Lemma entry_leases_set_votes m c :
  entry_leases (set_votes m c)
  = entry_leases c - map_sum votes_leases (pending_votes c) + map_sum votes_leases m.
Proof. unfold entry_leases. simpl. lia. Qed.

Lemma drop_leases_eq n c :
  0 <= n <= budget_used c → budget_used c <= u64_max →
  drop_leases n c = set_used (budget_used c - n) c.
Proof. unfold drop_leases, u64_max. intros. rewrite Z.mod_small by lia. done. Qed.

Lemma try_acquire_Some c c' :
  try_acquire limits c = Some c' →
  c' = set_used (budget_used c + 1) c ∧ budget_used c + 1 <= u64_max ∧
  budget_used c + 1 <= max_pending_responses limits.
Proof.
  unfold try_acquire. intros H. apply bind_Some in H as (n & [-> Hn]%checked_add_Some & H).
  case_match; [done|]. bool_to_prop. by injection H as <-.
Qed.

(** An update of the budget, the channels and one map, described by what it does
    to the leases; the rest of the footprint stays. *)
Lemma effect_lease tid F c F' c' d :
  ready tid F c → F' = mkFoot (f_leases F + d) (f_votes F) (f_waiter F) (f_stripe F) (f_fence F) →
  c' = set_used (budget_used c + d) c → budget_used c + d <= u64_max →
  budget_used c + d <= max_pending_responses limits → effect tid F c F' c'.
Proof.
  intros Hr -> -> H1 H2. destruct (effect_idle tid F c F c Hr) as [? ? ? Hv Hw Hs Hf];
    [done|by split_and!|by destruct Hr|]. split; simpl; try done.
  - unfold entry_leases; simpl. lia.
Qed.

Lemma effect_lock tid F c F' c' name :
  ready tid F c → f_stripe F = None →
  F' = mkFoot (f_leases F) (f_votes F) (f_waiter F) (Some name) (f_fence F) →
  lock_stripe tid (stripe name c) c = Some c' → effect tid F c F' c'.
Proof.
  intros Hr HF -> Hl. destruct (effect_idle tid F c F c Hr) as [? ? ? Hv Hw Hs Hf];
    [done|by split_and!|by destruct Hr|].
  unfold lock_stripe in Hl. destruct (name_locks c !! _) as [[|]|] eqn:Hi; simplify_eq.
  split; simpl; try done. by rewrite HF.
Qed.

Lemma effect_unlock tid F c F' c' name :
  ready tid F c → f_stripe F = Some name →
  F' = mkFoot (f_leases F) (f_votes F) (f_waiter F) None (f_fence F) →
  c' = unlock_stripe (stripe name c) c → effect tid F c F' c'.
Proof.
  intros Hr HF -> ->. destruct (effect_idle tid F c F c Hr) as [? ? ? Hv Hw Hs Hf];
    [done|by split_and!|by destruct Hr|].
  split; simpl; try done. by rewrite HF.
Qed.

(** A change of the votes, with the leases it frees or uses. *)
Lemma effect_votes tid F c F' votes used :
  ready tid F c → f_waiter F' = f_waiter F → f_stripe F' = f_stripe F → f_fence F' = f_fence F →
  used - map_sum votes_leases votes - f_leases F' =
    budget_used c - map_sum votes_leases (pending_votes c) - f_leases F →
  used <= u64_max → used <= max_pending_responses limits →
  (∀ key v', votes !! key = Some v' →
     f_votes F' = Some (key, votes_token v') ∨
     ∃ v, pending_votes c !! key = Some v ∧ votes_token v = votes_token v' ∧
       f_votes F ≠ Some (key, votes_token v)) →
  effect tid F c F' (set_votes votes (set_used used c)).
Proof.
  intros Hr HFw HFs HFf Hsum H1 H2 Hv.
  destruct (effect_idle tid F c F c Hr) as [? ? ? _ Hw Hs Hf]; [done|by split_and!|by destruct Hr|].
  split; simpl; try done.
  - unfold entry_leases; simpl. lia.
  - intros k rid w. rewrite HFw. destruct k; [apply (Hw WCaller)|apply (Hw WSync)|apply (Hw WUnregister)].
  - by rewrite HFs.
  - by rewrite HFf.
Qed.

(** A change of one map of waiters. *)
Lemma effect_waiters tid F c F' k m used chs nch :
  ready tid F c → f_votes F' = f_votes F → f_stripe F' = f_stripe F →
  f_fence F' = f_fence F →
  used - Z.of_nat (size m) - f_leases F' =
    budget_used c - Z.of_nat (size (waiters k c)) - f_leases F →
  used <= u64_max → used <= max_pending_responses limits →
  (∀ rid w, m !! rid = Some w →
     f_waiter F' = Some (k, rid, waiter_token w) ∨
     waiters k c !! rid = Some w ∧ f_waiter F ≠ Some (k, rid, waiter_token w)) →
  (∀ k' rid w, k' ≠ k → f_waiter F = Some (k', rid, w) → f_waiter F' = f_waiter F) →
  ∀ c', c' = set_waiters k m
          (mkCoordinator (registry c) (next_request_id c) (next_pending_token c) (topology_epoch c)
             (topology_fence c) used (pending_votes c) (pending_callers c) (pending_syncs c)
             (pending_unregisters c) (name_locks c) chs nch) →
  effect tid F c F' c'.
Proof.
  intros Hr HFv HFs HFf Hsum H1 H2 Hk Hother c' ->.
  destruct (effect_idle tid F c F c Hr) as [? ? ? Hv Hw Hs Hf]; [done|by split_and!|by destruct Hr|].
  split; simpl; try done.
  - rewrite entry_leases_set_waiters. unfold entry_leases in *; simpl.
    assert (waiters k (mkCoordinator (registry c) (next_request_id c) (next_pending_token c)
      (topology_epoch c) (topology_fence c) used (pending_votes c) (pending_callers c)
      (pending_syncs c) (pending_unregisters c) (name_locks c) chs nch) = waiters k c) as ->
      by by destruct k. lia.
  - by rewrite HFv.
  - intros k' rid w. rewrite waiters_set_waiters. case_decide as Hkk; [subst k'; apply Hk|].
    assert (waiters k' (mkCoordinator (registry c) (next_request_id c) (next_pending_token c)
      (topology_epoch c) (topology_fence c) used (pending_votes c) (pending_callers c)
      (pending_syncs c) (pending_unregisters c) (name_locks c) chs nch) = waiters k' c) as ->
      by by destruct k'. intros Hl. destruct (Hw k' rid w Hl) as [HF|?]; [left|by right].
    rewrite (Hother k' rid (waiter_token w)); done.
  - by rewrite HFs.
  - by rewrite HFf.
Qed.

(** *** Steps that only move the task *)

Lemma effect_move tid F c F' : ready tid F c → F' = F → effect tid F c F' c.
Proof. intros Hr HF. eapply effect_idle; [done|done|by split_and!|by destruct Hr]. Qed.

Lemma effect_registry tid F c F' reg :
  ready tid F c → F' = F → inv limits reg → effect tid F c F' (set_registry reg c).
Proof. intros Hr HF Hinv. eapply effect_idle; [done|done| |done]. by split_and!. Qed.

(** A task that returns holds nothing any more, whoever it returns to. *)
Lemma reg_finish_effect tid t c k p r c' outs :
  effect tid (footprint t) c idle c' → step_effect tid t c (reg_finish k p r c' outs).
Proof. by destruct k. Qed.

Lemma coordinate_registration_effect tid t c k p outs c' :
  effect tid (footprint t) c idle c' → step_effect tid t c (coordinate_registration k p c' outs).
Proof.
  unfold coordinate_registration. destruct (name_lock_index _ _); [done|]. apply reg_finish_effect.
Qed.

Lemma unreg_finish_effect tid t c u r c' :
  effect tid (footprint t) c idle c' → step_effect tid t c (unreg_finish u r c').
Proof. destruct u as [|? ? ? []]; [done| |]; destruct r as [[]|]; done. Qed.

Lemma unreg_return_effect tid t c k r c' :
  effect tid (footprint t) c idle c' → step_effect tid t c (unreg_return k r c').
Proof. destruct k; [apply unreg_finish_effect|done|done]. Qed.

Lemma unreg_enter_effect tid t c k name expected ms allow c' :
  effect tid (footprint t) c idle c' → step_effect tid t c (unreg_enter k name expected ms allow c').
Proof.
  unfold unreg_enter. destruct (name_lock_index _ _); [done|]. apply unreg_return_effect.
Qed.

Lemma wait_finish_effect tid t c q r c' :
  effect tid (footprint t) c idle c' → step_effect tid t c (wait_finish q r c').
Proof.
  unfold wait_finish. destruct (q_caller q); [by destruct r as [[]|]|done| |done].
  apply unreg_finish_effect.
Qed.

#[local] Hint Resolve effect_move effect_registry : lunatic.

(** *** [coordinate_registration] *)

Lemma propose_effect tid o k p pc c :
  ready tid (footprint (TCoordinate k p pc)) c →
  step_effect tid (TCoordinate k p pc) c (propose_step limits node_id tid o k p pc c).
Proof.
  intros Hr. destruct pc as [| | | |ms|ms|ms|ms token|ms token epoch| | | | | | | | |]; simpl; try done.
  - destruct (lock_stripe _ _ _) as [c'|] eqn:Hl; [|done]. simpl. by eapply effect_lock.
  - case_match; simpl; auto with lunatic.
  - case_match; simpl; auto with lunatic.
  - destruct (members _ _ _) as [ms|[]]; simpl; auto with lunatic.
    case_match; simpl; auto with lunatic.
  - destruct (try_acquire _ _) as [c'|] eqn:Ha; simpl; [|auto with lunatic].
    apply try_acquire_Some in Ha as (-> & ? & ?). by eapply (effect_lease _ _ _ _ _ 1).
  - destruct (try_acquire _ _) as [c'|] eqn:Ha; simpl; [|auto with lunatic].
    apply try_acquire_Some in Ha as (-> & ? & ?). by eapply (effect_lease _ _ _ _ _ 1).
  - eapply effect_idle; [done|done| |by destruct Hr]. by split_and!.
  - auto with lunatic.
  - destruct (pending_votes c !! vote_key p) as [v|] eqn:Hv; simpl; [auto with lunatic|].
    apply (effect_votes _ _ _ _ _ (budget_used c) Hr); simpl; try done; try apply (r_max _ _ _ Hr).
    + rewrite map_sum_insert by done. unfold votes_leases; simpl. rewrite map_size_singleton. lia.
    + intros key v'. rewrite lookup_insert. case_decide as Hk; [|by eauto 10].
      intros [= <-]. by left; subst.
Qed.

(** Removal of an entry of the votes with its leases. *)
Lemma effect_remove_votes tid F c F' key v :
  ready tid F c → pending_votes c !! key = Some v →
  F' = mkFoot (f_leases F) None (f_waiter F) (f_stripe F) (f_fence F) →
  (∀ t, f_votes F = Some t → t = (key, votes_token v)) →
  effect tid F c F' (drop_leases (votes_leases v) (set_votes (delete key (pending_votes c)) c)).
Proof.
  intros Hr Hv -> HF.
  assert (∀ a, 0 <= votes_leases a) as Hpos by (intros a; pose proof (votes_leases_pos a); lia).
  pose proof (map_sum_lookup_le votes_leases (pending_votes c) key v Hpos Hv) as Hle.
  pose proof (r_leases _ _ _ Hr) as Hl. pose proof (r_max _ _ _ Hr) as Hm. pose proof (Hpos v).
  unfold entry_leases in Hl. rewrite drop_leases_eq by (simpl; lia).
  apply (effect_votes _ _ _ _ _ (budget_used c - votes_leases v) Hr); simpl; try done; try lia.
  - rewrite (map_sum_delete _ _ _ _ Hv). lia.
  - intros key' v' [Hne Hv']%lookup_delete_Some. right. exists v'. split_and!; [done..|].
    intros Hvo. apply HF in Hvo. congruence.
Qed.

Lemma drop_vote_guard_effect tid F c F' key token :
  ready tid F c → f_votes F = Some (key, token) →
  F' = mkFoot (f_leases F) None (f_waiter F) (f_stripe F) (f_fence F) →
  effect tid F c F' (drop_vote_guard key token c).
Proof.
  intros Hr HF ->. unfold drop_vote_guard. destruct (pending_votes c !! key) as [v|] eqn:Hv.
  1: destruct (votes_token v =? token) eqn:Ht; bool_to_prop.
  1: apply effect_remove_votes; [done..|]; intros t; rewrite HF; by intros [= <-]; subst.
  all: assert (c = set_votes (pending_votes c) (set_used (budget_used c) c)) as Hc by by destruct c.
  all: rewrite Hc at 2; apply effect_votes; simpl; try done; try apply (r_max _ _ _ Hr).
  all: intros key' v' Hv'; right; exists v'; split_and!; [done..|]; rewrite HF; intros ?; simplify_eq.
Qed.

Lemma voting_effect tid o k p pc c :
  ready tid (footprint (TCoordinate k p pc)) c →
  step_effect tid (TCoordinate k p pc) c (voting_step node_id o k p pc c).
Proof.
  intros Hr. destruct pc as [| | | | | | | | |v| | | | |v todo|v|token r|[|n] r]; simpl; try done.
  - destruct (pending_votes c !! _) as [votes|]; simpl; [|auto with lunatic].
    repeat case_match; simpl; auto with lunatic.
  - destruct todo; simpl; auto with lunatic.
  - auto with lunatic.
  - by eapply drop_vote_guard_effect.
  - apply reg_finish_effect. by eapply effect_unlock.
  - pose proof (r_leases _ _ _ Hr) as Hl. pose proof (r_max _ _ _ Hr) as Hm.
    pose proof (entry_leases_nonneg c). cbn -[Z.of_nat] in Hl.
    rewrite drop_leases_eq by lia. eapply (effect_lease _ _ _ _ _ (-1)); [done| |done|lia|lia].
    simpl. f_equal. lia.
Qed.

Lemma remove_owner_inv name pid c :
  inv limits (registry c) →
  ∃ b reg, remove_global_if_owner name pid (registry c) = Some (b, reg) ∧ inv limits reg.
Proof.
  intros Hinv. destruct (remove_global_if_owner_spec limits Hlimits name pid (registry c) Hinv)
    as (b & reg & ? & ? & _). eauto.
Qed.

Lemma apply_global_effect tid F c F' name pid at_ms :
  ready tid F c → F' = F →
  effect tid F c F' (set_registry (apply_global limits name pid at_ms (registry c)).2 c).
Proof.
  intros Hr HF. apply effect_registry; [done|done|]. by apply apply_global_inv; destruct Hr.
Qed.

Lemma commit_effect tid o k p pc c :
  ready tid (footprint (TCoordinate k p pc)) c →
  step_effect tid (TCoordinate k p pc) c (commit_step limits node_id o k p pc c).
Proof.
  intros Hr. destruct pc as [| | | | | | | | | |v|v at_ms todo|v|v| | | |]; simpl; try done.
  - case_bool_decide; [done|]. case_match; simpl; [auto with lunatic|].
    pose proof (apply_global_effect tid _ c _ (proposed_name p) (proposed_pid p) (timestamp o) Hr eq_refl).
    by destruct (apply_global _ _ _ _ _) as [[] reg].
  - destruct todo; simpl; [auto with lunatic|]. case_match; simpl; auto with lunatic.
  - case_bool_decide; [done|]. case_match; simpl; auto with lunatic.
  - destruct (remove_owner_inv (proposed_name p) (proposed_pid p) c) as (b & reg & -> & ?);
      [by destruct Hr|]. simpl. auto with lunatic.
Qed.

Lemma coordinate_effect tid o k p pc c :
  ready tid (footprint (TCoordinate k p pc)) c →
  step_effect tid (TCoordinate k p pc) c (coordinate_step limits node_id tid o k p pc c).
Proof.
  intros Hr. destruct pc; first [by apply propose_effect|by apply commit_effect|by apply voting_effect].
Qed.

(** *** Waiters *)

Lemma insert_request_effect tid q token c r c' F F' :
  ready tid F c → insert_request q token c = (r, c') → f_waiter F = None → 1 <= f_leases F →
  F' = match r with
       | Ok _ => mkFoot (f_leases F - 1) (f_votes F) (Some (q_kind q, q_id q, token)) (f_stripe F) (f_fence F)
       | Err _ => F
       end →
  effect tid F c F' c'.
Proof.
  intros Hr Hins HF Hl ->.
  assert (insert_pending (q_kind q) (q_id q) (q_leader q) token c = (r, c')) as Hins'
    by (unfold insert_request in Hins; by destruct (q_kind q)).
  clear Hins. unfold insert_pending in Hins'.
  destruct (waiters (q_kind q) c !! q_id q) as [w|] eqn:Hw.
  - assert (waiters (q_kind q) (mkCoordinator (registry c) (next_request_id c) (next_pending_token c)
      (topology_epoch c) (topology_fence c) (budget_used c) (pending_votes c) (pending_callers c)
      (pending_syncs c) (pending_unregisters c) (name_locks c)
      (<[next_channel c:=Unanswered]> (channels c)) (next_channel c + 1)) !! q_id q = Some w) as Hw'
      by by destruct (q_kind q).
    rewrite Hw' in Hins'. injection Hins' as <- <-.
    eapply effect_idle; [done|done| |by destruct Hr]. by split_and!.
  - assert (waiters (q_kind q) (mkCoordinator (registry c) (next_request_id c) (next_pending_token c)
      (topology_epoch c) (topology_fence c) (budget_used c) (pending_votes c) (pending_callers c)
      (pending_syncs c) (pending_unregisters c) (name_locks c)
      (<[next_channel c:=Unanswered]> (channels c)) (next_channel c + 1)) = waiters (q_kind q) c) as Hw'
      by by destruct (q_kind q).
    rewrite Hw', Hw in Hins'. injection Hins' as <- <-.
    eapply (effect_waiters _ _ _ _ (q_kind q) _ (budget_used c)); simpl; try done;
      try apply (r_max _ _ _ Hr).
    + rewrite map_size_insert_None by done. lia.
    + intros rid w. rewrite lookup_insert. case_decide; [|rewrite HF; by right].
      intros [= <-]. subst. by left.
    + intros k' rid w _. by rewrite HF.
Qed.

(** Removal of a waiter with its lease, and its sender used or dropped. *)
Lemma effect_remove_waiter tid F c F' k rid w c' :
  ready tid F c → waiters k c !! rid = Some w →
  F' = mkFoot (f_leases F) (f_votes F) None (f_stripe F) (f_fence F) →
  (∀ t, f_waiter F = Some t → t = (k, rid, waiter_token w)) →
  (∃ chs, c' = drop_leases 1 (set_channels chs (set_waiters k (delete rid (waiters k c)) c))) →
  effect tid F c F' c'.
Proof.
  intros Hr Hw -> HF (chs & ->).
  assert (Z.of_nat (size (delete rid (waiters k c))) = Z.of_nat (size (waiters k c)) - 1
          ∧ 1 <= Z.of_nat (size (waiters k c))) as [Hsz Hpos].
  { rewrite map_size_delete_Some by done. pose proof (map_size_ne_0_lookup_2 _ _ (mk_is_Some _ _ Hw)). lia. }
  pose proof (r_leases _ _ _ Hr) as Hl. pose proof (r_max _ _ _ Hr) as Hm.
  assert (Z.of_nat (size (waiters k c)) <= entry_leases c) as Hle.
  { unfold entry_leases. pose proof (map_sum_nonneg votes_leases (pending_votes c)) as Hs.
    assert (∀ v, 0 <= votes_leases v) as Hv by (intros v; pose proof (votes_leases_pos v); lia).
    specialize (Hs Hv). destruct k; simpl; lia. }
  rewrite drop_leases_eq by (simpl; lia).
  eapply (effect_waiters _ _ _ _ k (delete rid (waiters k c)) (budget_used c - 1)); simpl; try done; try lia.
  - intros rid' w' [Hne Hw']%lookup_delete_Some. right. split; [done|]. intros Ht.
    apply HF in Ht. congruence.
  - intros k' rid' w' Hne Ht. apply HF in Ht. congruence.
Qed.

Lemma drop_waiter_guard_effect tid F c F' k rid token :
  ready tid F c → f_waiter F = Some (k, rid, token) →
  F' = mkFoot (f_leases F) (f_votes F) None (f_stripe F) (f_fence F) →
  effect tid F c F' (drop_waiter_guard k rid token c).
Proof.
  intros Hr HF ->. unfold drop_waiter_guard. destruct (waiters k c !! rid) as [w|] eqn:Hw.
  1: destruct (waiter_token w =? token) eqn:Ht; bool_to_prop.
  { unfold remove_waiter. rewrite Hw. eapply effect_remove_waiter; try done.
    - intros t. rewrite HF. by intros [= <-]; subst.
    - by eexists. }
  all: destruct (effect_move tid F c F Hr eq_refl) as [? ? ? ? Hws ? ?]; split; try done; simpl.
  all: intros k' rid' w' Hw'; right; split; [done|]; rewrite HF; intros ?; simplify_eq.
Qed.

Lemma wait_effect tid o q pc c :
  ready tid (footprint (TWaiting q pc)) c →
  step_effect tid (TWaiting q pc) c (wait_step limits o q pc c).
Proof.
  intros Hr. destruct pc as [| |token| |token ch|token ch|token r]; simpl.
  - destruct (try_acquire _ _) as [c'|] eqn:Ha; simpl.
    + apply try_acquire_Some in Ha as (-> & ? & ?). by eapply (effect_lease _ _ _ _ _ 1).
    + apply wait_finish_effect. auto with lunatic.
  - eapply effect_idle; [done|done| |by destruct Hr]. by split_and!.
  - destruct (insert_request q token c) as [[ch|e] c'] eqn:Hi; simpl;
      eapply insert_request_effect; try done; simpl; done.
  - apply wait_finish_effect. pose proof (r_leases _ _ _ Hr) as Hl. pose proof (r_max _ _ _ Hr) as Hm.
    pose proof (entry_leases_nonneg c). simpl in Hl. rewrite drop_leases_eq by lia.
    by eapply (effect_lease _ _ _ _ _ (-1)); [done| |done|lia|lia].
  - destruct (send_result o); simpl; auto with lunatic.
  - destruct (channels c !! ch) as [[]|]; repeat case_match; simpl; auto with lunatic.
  - apply wait_finish_effect. by eapply drop_waiter_guard_effect.
Qed.

(** *** Messages *)

Lemma record_vote_effect tid F c requester rid responder r :
  ready tid F c → f_votes F = None → effect tid F c F (record_vote limits requester rid responder r c).2.
Proof.
  intros Hr HF. unfold record_vote.
  destruct (pending_votes c !! (requester, rid)) as [v|] eqn:Hv; [|auto with lunatic].
  case_bool_decide; simpl; [|auto with lunatic].
  case_bool_decide as Hdup; simpl; [auto with lunatic|].
  assert (∀ v2 key v', <[(requester, rid) := v2]> (pending_votes c) !! key = Some v' →
    votes_token v2 = votes_token v →
    f_votes F = Some (key, votes_token v') ∨
    ∃ v, pending_votes c !! key = Some v ∧ votes_token v = votes_token v' ∧
      f_votes F ≠ Some (key, votes_token v)) as Hins.
  { intros v2 key v'. rewrite lookup_insert. right. rewrite HF. case_decide; [|by eauto].
    simplify_eq. eauto. }
  pose proof (r_max _ _ _ Hr) as Hm. destruct (try_acquire limits c) as [c'|] eqn:Ha; simpl.
  - apply try_acquire_Some in Ha as (-> & ? & ?). simpl.
    apply effect_votes; try done; [|intros; by eapply Hins].
    rewrite (map_sum_replace _ _ _ _ _ Hv). unfold votes_leases. simpl.
    rewrite map_size_insert_None by (apply eq_None_not_Some; done). lia.
  - assert (∀ votes, set_votes votes c = set_votes votes (set_used (budget_used c) c)) as -> by done.
    apply effect_votes; try done; try apply Hm; [|intros; by eapply Hins].
    rewrite (map_sum_replace _ _ _ _ _ Hv). unfold votes_leases. simpl. lia.
Qed.

Lemma sync_response_effect tid o source rid es m c :
  ready tid idle c →
  step_effect tid (THandle source m) c (sync_response limits node_id tid o source rid es c).
Proof.
  intros Hr. unfold sync_response. case_bool_decide as Hf; [done|].
  apply eq_None_not_Some in Hf.
  destruct (pending_syncs c !! rid) as [w|] eqn:Hw; simpl; [|auto with lunatic].
  case_match; simpl; [auto with lunatic|]. destruct (leader _ _ _); simpl; [|auto with lunatic].
  case_match; simpl; [auto with lunatic|].
  destruct (effect_move tid idle c idle Hr eq_refl) as [? ? ? Hv Hws ? ?].
  split; simpl; try done.
  - pose proof (entry_leases_set_waiters WSync (delete rid (pending_syncs c)) c) as He.
    unfold entry_leases in *. simpl in *. rewrite map_size_delete_Some in * by done.
    pose proof (map_size_ne_0_lookup_2 _ _ (mk_is_Some _ _ Hw)). lia.
  - intros k rid' w' Hl. right. split; [|done]. destruct k; simpl in *; try done.
    by apply lookup_delete_Some in Hl as [_ ?].
Qed.

Lemma handle_effect tid o source m c :
  ready tid idle c →
  step_effect tid (THandle source m) c (handle_message limits node_id tid o source m c).
Proof.
  intros Hr. assert (effect tid idle c idle c) as He by auto with lunatic.
  destruct m as [p|p|rid requester responder r|rid r|name pid at_ms|rid requester name expected|rid r
    |name expected|rid requester|rid es|n ts]; simpl; unfold take_waiter; try by repeat case_match.
  - case_match; [done|]. destruct (leader _ _ _); [|done]. case_match; [|done].
    by apply coordinate_registration_effect.
  - case_match; [done|]. pose proof (record_vote_effect tid idle c requester rid responder r Hr eq_refl).
    by destruct (record_vote _ _ _ _ _ _) as [[] c'].
  - by apply sync_response_effect.
Qed.

(** *** Topology *)

Lemma foldr_drop_leases (vs : list PendingVotes) c :
  foldr (fun v acc => votes_leases v + acc) 0 vs <= budget_used c → budget_used c <= u64_max →
  foldr (fun v => drop_leases (votes_leases v)) c vs
  = set_used (budget_used c - foldr (fun v acc => votes_leases v + acc) 0 vs) c.
Proof.
  induction vs as [|v vs IH]; simpl; intros Hle Hmax.
  - rewrite Z.sub_0_r. by destruct c.
  - pose proof (votes_leases_pos v).
    assert (0 <= foldr (fun v acc => votes_leases v + acc) 0 vs) as Hpos.
    { clear. induction vs as [|v vs IH]; simpl; [done|]. pose proof (votes_leases_pos v). lia. }
    rewrite IH by lia. rewrite drop_leases_eq by (simpl; lia). simpl.
    unfold set_used; simpl. f_equal. lia.
Qed.

Lemma drain_votes_effect tid F c active drain_all :
  ready tid F c → f_votes F = None → effect tid F c F (drain_votes active drain_all c).
Proof.
  intros Hr HF. unfold drain_votes.
  set (drained := filter (fun p => votes_stale _ _ p.2 = true) _).
  set (kept := filter (fun p => votes_stale _ _ p.2 = false) _).
  pose proof (map_sum_split votes_leases (pending_votes c) (votes_stale active drain_all)) as Hsplit.
  fold drained kept in Hsplit. rewrite (map_sum_foldr _ drained) in Hsplit.
  assert (0 <= map_sum votes_leases kept) as Hk.
  { apply map_sum_nonneg. intros v. pose proof (votes_leases_pos v). lia. }
  pose proof (r_leases _ _ _ Hr) as Hl. pose proof (r_max _ _ _ Hr) as Hm. unfold entry_leases in Hl.
  assert (0 <= foldr (fun v acc => votes_leases v + acc) 0 (map_to_list drained).*2).
  { rewrite <- map_sum_foldr. apply map_sum_nonneg. intros v. pose proof (votes_leases_pos v). lia. }
  rewrite foldr_drop_leases by (simpl; lia).
  assert (∀ x, set_used x (set_votes kept c) = set_votes kept (set_used x c)) as -> by done.
  apply effect_votes; simpl; try done; try lia.
  intros key v' [Hv' _]%map_lookup_filter_Some. right. exists v'. by rewrite HF.
Qed.

Lemma answer_all_eq reply ws c :
  Z.of_nat (length ws) <= budget_used c → budget_used c <= u64_max →
  ∃ chs, answer_all reply ws c
         = set_channels chs (set_used (budget_used c - Z.of_nat (length ws)) c).
Proof.
  revert c. induction ws as [|w ws IH]; intros c Hle Hmax; cbn [answer_all length] in *.
  - exists (channels c). rewrite Z.sub_0_r. by destruct c.
  - rewrite drop_leases_eq by (simpl; lia). simpl.
    destruct (IH (set_used (budget_used c - 1) (answer (sender w) (reply w) c))) as [chs ->];
      simpl; [lia|lia|]. exists chs. unfold set_channels, set_used; simpl. f_equal. lia.
Qed.

Lemma drain_stale_entries_effect tid F c k active drain_all reply :
  ready tid F c → f_waiter F = None →
  effect tid F c F (drain_stale_entries k active drain_all reply c).
Proof.
  intros Hr HF. unfold drain_stale_entries.
  set (drained := filter (fun p => stale _ _ p.2 = true) _).
  set (kept := filter (fun p => stale _ _ p.2 = false) _).
  pose proof (map_sum_split (fun _ => 1) (waiters k c) (stale active drain_all)) as Hsplit.
  rewrite !map_sum_one in Hsplit. fold drained kept in Hsplit.
  assert (length (map_to_list drained).*2 = size drained) as Hlen by by rewrite length_fmap, length_map_to_list.
  pose proof (r_leases _ _ _ Hr) as Hl. pose proof (r_max _ _ _ Hr) as Hm.
  assert (Z.of_nat (size (waiters k c)) <= entry_leases c) as Hle.
  { unfold entry_leases. pose proof (map_sum_nonneg votes_leases (pending_votes c)) as Hs.
    assert (∀ v, 0 <= votes_leases v) as Hv by (intros v; pose proof (votes_leases_pos v); lia).
    specialize (Hs Hv). destruct k; simpl; lia. }
  destruct (answer_all_eq reply (map_to_list drained).*2 (set_waiters k kept c)) as [chs ->];
    [rewrite Hlen; simpl; lia|simpl; lia|]. rewrite Hlen.
  eapply (effect_waiters _ _ _ _ k kept (budget_used c - Z.of_nat (size drained))); try done; try lia.
  - intros rid w [Hw _]%map_lookup_filter_Some. right. by rewrite HF.
Qed.

Lemma node_registrations_inv n c :
  inv limits (registry c) →
  ∃ names reg, remove_node_registrations n (registry c) = Some (names, reg) ∧ inv limits reg.
Proof.
  intros Hinv. destruct (remove_node_registrations_spec limits Hlimits n (registry c) Hinv)
    as (names & reg & ? & ? & _). eauto.
Qed.

Lemma reconcile_effect tid active removed pc c :
  ready tid (footprint (TReconcile active removed pc)) c →
  step_effect tid (TReconcile active removed pc) c (reconcile_step tid active removed pc c).
Proof.
  intros Hr. destruct pc as [|todo cleaned|cleaned|k cleaned]; simpl.
  - case_bool_decide as Hf; [done|]. apply eq_None_not_Some in Hf. simpl.
    destruct (effect_move tid idle c idle Hr eq_refl) as [? ? ? Hv Hws ? ?]. by split.
  - destruct todo as [|n todo]; simpl; [auto with lunatic|].
    destruct (node_registrations_inv n c) as (names & reg & -> & ?); [by destruct Hr|]. simpl.
    auto with lunatic.
  - by apply drain_votes_effect.
  - pose proof (drain_stale_entries_effect tid _ c k active (bool_decide (removed ≠ []))
      (drained_reply k) Hr eq_refl) as He. destruct k; simpl; try exact He.
    destruct He as [? ? ? Hv Hws ? ?]. by split.
Qed.

(** *** Every task *)

Lemma single_effect tid o name pid why pc c :
  ready tid (footprint (TSingle name pid why pc)) c →
  step_effect tid (TSingle name pid why pc) c (single_step limits tid o name pid why pc c).
Proof.
  intros Hr. destruct pc; simpl.
  - destruct (lock_stripe _ _ _) as [c'|] eqn:Hl; [|done]. simpl. by eapply effect_lock.
  - case_match; simpl; auto with lunatic.
  - case_match; simpl; auto with lunatic.
  - pose proof (apply_global_effect tid _ c _ name pid (timestamp o) Hr eq_refl).
    by destruct (apply_global _ _ _ _ _) as [[] reg].
  - by eapply effect_unlock.
Qed.

Lemma coordinate_unreg_effect tid o k name expected pc c :
  ready tid (footprint (TCoordinateUnreg k name expected pc)) c →
  step_effect tid (TCoordinateUnreg k name expected pc) c
    (coordinate_unreg_step limits node_id tid o k name expected pc c).
Proof.
  intros Hr. destruct pc as [allow|allow|ms allow|ms allow|ms|[|n todo]|r]; simpl.
  - case_match; simpl; [auto with lunatic|]. apply unreg_enter_effect. auto with lunatic.
  - destruct (members _ _ _) as [ms|[]]; try apply unreg_return_effect; try apply unreg_enter_effect;
      auto with lunatic.
  - destruct (lock_stripe _ _ _) as [c'|] eqn:Hl; [|done]. simpl. by eapply effect_lock.
  - repeat case_match; simpl; auto with lunatic.
  - destruct (remove_owner_inv name expected c) as ([] & reg & -> & ?); [by destruct Hr| |]; simpl;
      auto with lunatic.
  - auto with lunatic.
  - auto with lunatic.
  - apply unreg_return_effect. by eapply effect_unlock.
Qed.

(** Steps of a task that holds nothing, before it holds anything. *)
Lemma entry_effect tid o t c :
  ready tid idle c → footprint t = idle →
  match t with
  | TRegister _ _ _ | TRegisterMembers _ _ | TUnregister _ _ _ | TUnregisterMembers _ _ _
  | TUnregisterProcess _ | TSynchronize => step_effect tid t c (task_step limits node_id tid o t c)
  | _ => True
  end.
Proof.
  intros Hr HF. assert (effect tid idle c idle c) as He by auto with lunatic.
  assert (∀ x, effect tid idle c idle (set_request_id x c)) as He'.
  { intros x. eapply effect_idle; [done|done|by split_and!|by destruct Hr]. }
  destruct t; simpl; try done.
  - unfold register_step. by repeat case_match.
  - unfold register_members_step. destruct (members _ _ _) as [[|l [|l' ms]]|]; try done.
    case_match; [|by apply He']. apply coordinate_registration_effect, He'.
  - unfold unregister_step. destruct (name_lock_index _ _); [|by apply unreg_finish_effect].
    case_match; [by apply unreg_finish_effect|]. by case_match.
  - unfold unregister_members_step. destruct (members _ _ _) as [[|l [|l' ms]]|]; try done;
      [|by apply unreg_finish_effect]. case_match; [by apply unreg_enter_effect|by apply He'].
  - unfold unregister_process_registrations. case_match; [done|]. by destruct (global_names_for_process _ _).
  - unfold synchronize_from_coordinator. destruct (leader _ _ _); [|done]. case_match; [done|by apply He'].
Qed.

Lemma task_step_effect tid o t c :
  ready tid (footprint t) c → step_effect tid t c (task_step limits node_id tid o t c).
Proof.
  intros Hr. destruct t;
    try match goal with |- step_effect _ ?t _ _ => exact (entry_effect tid o t c Hr eq_refl) end.
  - by apply single_effect.
  - by apply coordinate_effect.
  - by apply coordinate_unreg_effect.
  - by apply wait_effect.
  - by apply handle_effect.
  - simpl. unfold prepare_lookup. repeat case_match; simpl; auto with lunatic.
  - simpl. unfold prepare_check. case_match; simpl; auto with lunatic.
  - simpl. auto with lunatic.
  - simpl. unfold take_leader. repeat case_match; simpl; auto with lunatic.
  - simpl. unfold take. destruct (waiters k c !! rid) as [w|] eqn:Hw; simpl; [|auto with lunatic].
    eapply effect_remove_waiter; try done. by eexists.
  - simpl. unfold handle_register_notify.
    pose proof (apply_global_effect tid _ c _ name pid registered_at Hr eq_refl).
    by destruct (apply_global _ _ _ _ _) as [[] reg].
  - simpl. unfold handle_unregister_notify.
    destruct (remove_owner_inv name expected c) as (b & reg & -> & ?); [by destruct Hr|]. simpl.
    auto with lunatic.
  - simpl. auto with lunatic.
  - simpl. unfold handle_sync_response. pose proof (r_registry _ _ _ Hr) as Hinv.
    destruct (replace_global_snapshot limits es (registry c)) as [res reg] eqn:Hs. simpl.
    assert (inv limits reg) as Hinv'.
    { apply (replace_global_snapshot_spec limits Hlimits) in Hs; [|done]. destruct res; [apply Hs|by subst]. }
    destruct (effect_move tid _ c _ Hr eq_refl) as [? ? ? Hv Hws ? ?]. by split.
  - simpl. pose proof (r_leases _ _ _ Hr) as Hl. pose proof (r_max _ _ _ Hr) as Hm.
    pose proof (entry_leases_nonneg c). simpl in Hl. rewrite drop_leases_eq by (simpl; lia).
    destruct (effect_lease tid _ c idle (set_used (budget_used c - 1) c) (-1) Hr eq_refl eq_refl);
      [lia|lia|]. by split.
  - by apply reconcile_effect.
  - simpl. unfold cleanup_node_registrations.
    destruct (node_registrations_inv node c) as (names & reg & -> & ?); [by destruct Hr|]. simpl.
    auto with lunatic.
Qed.

(** A dropped future keeps what it holds until its destructors run. *)
Lemma cancel_effect tid t rest c :
  ready tid (footprint t) c → cancel t = Some rest → effect tid (footprint t) c (footprint_of rest) c.
Proof.
  intros Hr Hc. apply effect_move; [done|].
  destruct t as [| |? ? ? pc|? ? pc| | |? ? ? pc| | |? pc| | | | | | | | | | | | |]; try done;
    try (destruct pc; simplify_eq/=; done). by injection Hc as <-.
Qed.
End effects.

(** ** The invariant of a node *)

Section invariant.
Context (limits : RegistryLimits).
Implicit Types (N : Node) (c : Coordinator) (ts : gmap Z Task).

Definition task_leases (ts : gmap Z Task) : Z := map_sum (fun t => f_leases (footprint t)) ts.

Record node_ok N : Prop := {
  ok_registry : inv limits (registry (coordinator N));
  ok_leases : budget_used (coordinator N) = entry_leases (coordinator N) + task_leases (tasks N);
  ok_max : budget_used (coordinator N) <= u64_max ∧
           budget_used (coordinator N) <= max_pending_responses limits;
  ok_votes key v : pending_votes (coordinator N) !! key = Some v →
    ∃ tid t, tasks N !! tid = Some t ∧ f_votes (footprint t) = Some (key, votes_token v);
  ok_waiters k rid w : waiters k (coordinator N) !! rid = Some w →
    ∃ tid t, tasks N !! tid = Some t ∧ f_waiter (footprint t) = Some (k, rid, waiter_token w);
  ok_stripes i tid : name_locks (coordinator N) !! i = Some (Some tid) ↔
    ∃ t name, tasks N !! tid = Some t ∧ f_stripe (footprint t) = Some name ∧
      stripe name (coordinator N) = i;
  ok_fence tid : topology_fence (coordinator N) = Some tid ↔
    ∃ t, tasks N !! tid = Some t ∧ f_fence (footprint t) = true;
}.

Lemma task_leases_alter ts tid t o :
  ts !! tid = Some t →
  task_leases (partial_alter (fun _ => o) tid ts)
  = task_leases ts - f_leases (footprint t) + f_leases (footprint_of o).
Proof.
  intros Ht. unfold task_leases. destruct o as [t'|]; simpl.
  - change (partial_alter (fun _ => Some t') tid ts) with (<[tid := t']> ts).
    by rewrite (map_sum_replace _ _ _ _ t' Ht).
  - change (partial_alter (fun _ => None) tid ts) with (delete tid ts).
    rewrite (map_sum_delete _ _ _ _ Ht). lia.
Qed.

Lemma node_ok_ready N tid t :
  node_ok N → tasks N !! tid = Some t → ready limits tid (footprint t) (coordinator N).
Proof.
  intros [? Hl ? ? ? Hs ?] Ht. split; try done.
  - split; [apply footprint_leases|].
    pose proof (map_sum_lookup_le (fun t => f_leases (footprint t)) (tasks N) tid t footprint_leases Ht)
      as Hle. cbn beta in Hle. fold (task_leases (tasks N)) in Hle. lia.
  - intros name Hn. apply Hs. eauto.
Qed.

Lemma stripe_length name c c' :
  length (name_locks c') = length (name_locks c) → stripe name c' = stripe name c.
Proof.
  unfold stripe, name_lock_index. intros Hl. rewrite Hl.
  by destruct (name_locks c), (name_locks c').
Qed.

(** Another task's entry of the tasks is untouched. *)
Lemma alter_other ts tid tid' o (t : Task) :
  tid ≠ tid' → partial_alter (fun _ => o) tid ts !! tid' = Some t ↔ ts !! tid' = Some t.
Proof. intros Hne. by rewrite lookup_partial_alter_ne. Qed.

Lemma owner_alter {A} ts tid t o (f : Footprint → option A) (x : A) :
  ts !! tid = Some t →
  f (footprint_of o) = Some x ∨
    f (footprint t) ≠ Some x ∧ (∃ tid' t', ts !! tid' = Some t' ∧ f (footprint t') = Some x) →
  f idle = None →
  ∃ tid' t', partial_alter (fun _ => o) tid ts !! tid' = Some t' ∧ f (footprint t') = Some x.
Proof.
  intros Ht [Ho|[Hne (tid' & t' & Ht' & Hf)]] Hidle.
  - exists tid. destruct o as [t'|]; [|simpl in Ho; congruence]. exists t'. simpl in Ho.
    by rewrite lookup_partial_alter_eq.
  - exists tid', t'. rewrite alter_other; [done|]. intros ->. congruence.
Qed.

Lemma stripes_alter ts tid t o c c' :
  ts !! tid = Some t → effect limits tid (footprint t) c (footprint_of o) c' →
  (∀ i tid', name_locks c !! i = Some (Some tid') ↔
    ∃ t name, ts !! tid' = Some t ∧ f_stripe (footprint t) = Some name ∧ stripe name c = i) →
  ∀ i tid', name_locks c' !! i = Some (Some tid') ↔
    ∃ t name, partial_alter (fun _ => o) tid ts !! tid' = Some t ∧
      f_stripe (footprint t) = Some name ∧ stripe name c' = i.
Proof.
  intros Ht He Hs i tid'. pose proof (e_stripe _ _ _ _ _ _ He) as Hst.
  assert (length (name_locks c') = length (name_locks c)) as Hlen.
  { destruct (f_stripe (footprint t)), (f_stripe (footprint_of o)); destruct_and?;
      repeat match goal with H : name_locks c' = _ |- _ => rewrite H end; by rewrite ?length_insert. }
  setoid_rewrite (fun n => stripe_length n c c' Hlen).
  assert (∀ name, f_stripe (footprint_of o) = Some name ↔
    ∃ t', partial_alter (fun _ => o) tid ts !! tid = Some t' ∧ f_stripe (footprint t') = Some name) as Ho.
  { intros name. rewrite lookup_partial_alter_eq. destruct o; simpl; naive_solver. }
  pose proof (Hs i tid') as Hi. destruct (decide (tid' = tid)) as [->|Hne].
  - transitivity (∃ name, f_stripe (footprint_of o) = Some name ∧ stripe name c = i); [|naive_solver].
    destruct (f_stripe (footprint t)) as [n1|] eqn:H1, (f_stripe (footprint_of o)) as [n2|] eqn:H2.
    + destruct Hst as [[= ->] ->]. naive_solver.
    + rewrite Hst, list_lookup_insert. case_decide as Hcase; [naive_solver|].
      rewrite Hi. split; [|naive_solver]. intros (t0 & name & Ht0 & Hn0 & Hn).
      assert (name = n1) as -> by congruence. destruct Hcase. split; [done|].
      eapply (lookup_lt_Some _ _ (Some tid)). rewrite Hn. apply Hi. by exists t0, n1.
    + destruct Hst as [Hfree ->]. rewrite list_lookup_insert. case_decide as Hcase.
      * destruct Hcase as [<- _]. naive_solver.
      * rewrite Hi. split; [naive_solver|]. intros (name & [= <-] & <-). destruct Hcase.
        split; [done|]. by eapply lookup_lt_Some.
    + destruct Hst as [_ ->]. naive_solver.
  - transitivity (∃ t name, ts !! tid' = Some t ∧ f_stripe (footprint t) = Some name ∧ stripe name c = i).
    2: { setoid_rewrite alter_other; [done|congruence]. }
    rewrite <- Hi. destruct (f_stripe (footprint t)) as [n1|] eqn:H1, (f_stripe (footprint_of o)) as [n2|] eqn:H2.
    + by destruct Hst as [_ ->].
    + rewrite Hst, list_lookup_insert. case_decide as Hcase; [|done]. destruct Hcase as [<- _].
      assert (name_locks c !! stripe n1 c = Some (Some tid)) as Hl by (apply Hs; eauto).
      rewrite Hl. naive_solver.
    + destruct Hst as [Hfree ->]. rewrite list_lookup_insert. case_decide as Hcase; [|done].
      destruct Hcase as [<- _]. rewrite Hfree. naive_solver.
    + by destruct Hst as [_ ->].
Qed.

Lemma fence_alter ts tid t o c c' :
  ts !! tid = Some t → effect limits tid (footprint t) c (footprint_of o) c' →
  (∀ tid', topology_fence c = Some tid' ↔ ∃ t, ts !! tid' = Some t ∧ f_fence (footprint t) = true) →
  ∀ tid', topology_fence c' = Some tid' ↔
    ∃ t, partial_alter (fun _ => o) tid ts !! tid' = Some t ∧ f_fence (footprint t) = true.
Proof.
  intros Ht He Hs tid'. pose proof (e_fence _ _ _ _ _ _ He) as Hf.
  assert (f_fence (footprint_of o) = true ↔
    ∃ t', partial_alter (fun _ => o) tid ts !! tid = Some t' ∧ f_fence (footprint t') = true) as Ho.
  { rewrite lookup_partial_alter_eq. destruct o; simpl; naive_solver. }
  assert (f_fence (footprint t) = true ↔ topology_fence c = Some tid) as Hown.
  { rewrite Hs. naive_solver. }
  pose proof (Hs tid') as Hi. destruct (decide (tid' = tid)) as [->|Hne].
  - rewrite <- Ho. clear Ho Hi Hs.
    destruct (f_fence (footprint t)), (f_fence (footprint_of o));
      [|by rewrite Hf; intuition congruence|destruct Hf as [Hc Hf]|]; rewrite Hf; intuition congruence.
  - transitivity (∃ t, ts !! tid' = Some t ∧ f_fence (footprint t) = true).
    2: { setoid_rewrite alter_other; [done|congruence]. }
    rewrite <- Hi. clear Ho Hi Hs.
    destruct (f_fence (footprint t)), (f_fence (footprint_of o));
      [|by rewrite Hf; intuition congruence|destruct Hf as [Hc Hf]|]; rewrite Hf; intuition congruence.
Qed.

Lemma node_ok_alter c ts h h' tid t o c' :
  node_ok (mkNode c ts h) → ts !! tid = Some t →
  effect limits tid (footprint t) c (footprint_of o) c' →
  node_ok (mkNode c' (partial_alter (fun _ => o) tid ts) h').
Proof.
  intros [Hreg Hl Hm Hv Hw Hs Hf] Ht He. simpl in *. split; simpl.
  - apply He.
  - rewrite (task_leases_alter _ _ _ _ Ht). pose proof (e_leases _ _ _ _ _ _ He). lia.
  - apply He.
  - intros key v Hk. apply (owner_alter _ _ t); [done| |done].
    destruct (e_votes _ _ _ _ _ _ He key v Hk) as [?|(v0 & Hv0 & Htok & Hne)]; [by left|right].
    rewrite <- Htok. split; [done|]. by apply Hv.
  - intros k rid w Hk. apply (owner_alter _ _ t); [done| |done].
    destruct (e_waiters _ _ _ _ _ _ He k rid w Hk) as [?|[Hw0 Hne]]; [by left|right].
    split; [done|]. by apply Hw.
  - by eapply stripes_alter.
  - by eapply fence_alter.
Qed.

Lemma node_ok_start c ts h tid t :
  node_ok (mkNode c ts h) → ts !! tid = None → footprint t = idle →
  node_ok (mkNode c (<[tid := t]> ts) h).
Proof.
  intros [Hreg Hl Hm Hv Hw Hs Hf] Ht HF. simpl in *.
  assert (∀ tid' t', ts !! tid' = Some t' → <[tid := t]> ts !! tid' = Some t') as Hext.
  { intros tid' t' H'. rewrite lookup_insert_ne; [done|congruence]. }
  split; simpl; try done.
  - unfold task_leases in *. rewrite map_sum_insert by done. rewrite HF. simpl. lia.
  - intros key v Hk. destruct (Hv key v Hk) as (? & ? & ? & ?). eauto.
  - intros k rid w Hk. destruct (Hw k rid w Hk) as (? & ? & ? & ?). eauto.
  - intros i tid'. rewrite Hs. split; [naive_solver|]. intros (t' & name & Hl' & Hst & ?).
    rewrite lookup_insert in Hl'. case_decide; [simplify_eq; rewrite HF in *; done|eauto].
  - intros tid'. rewrite Hf. split; [naive_solver|]. intros (t' & Hl' & Hst).
    rewrite lookup_insert in Hl'. case_decide; [simplify_eq; rewrite HF in *; done|eauto].
Qed.

Context (may_receive : Z → RegistryCoordinationMessage → Prop).

Lemma may_start_idle t : may_start may_receive t → footprint t = idle.
Proof. by destruct t as [| | | |[]| | | | | | | | | | | | | | | | |? ? []|]. Qed.

Context (node_id : Z) (Hlimits : limits_ok limits).

Lemma node_step_ok N N' : node_ok N → node_step limits node_id may_receive N N' → node_ok N'.
Proof.
  intros Hok Hstep. destruct Hstep as [c ts h tid t Ht Hm|c ts h tid t o t' c' outs Ht _ Hst
    |c ts h tid t o v c' outs Ht _ Hst|c ts h tid t rest Ht Hc].
  - apply node_ok_start; [done|done|by apply may_start_idle].
  - pose proof (task_step_effect limits node_id Hlimits tid o t c (node_ok_ready _ _ _ Hok Ht)) as He.
    rewrite Hst in He. by eapply (node_ok_alter _ _ _ _ _ _ (Some t')).
  - pose proof (task_step_effect limits node_id Hlimits tid o t c (node_ok_ready _ _ _ Hok Ht)) as He.
    rewrite Hst in He. by eapply (node_ok_alter _ _ _ _ _ _ None).
  - eapply node_ok_alter; [done|done|]. eapply cancel_effect; [|done]. by eapply (node_ok_ready _ _ _ Hok).
Qed.

Lemma new_node_ok stripes : 0 <= max_pending_responses limits → node_ok (new_node limits stripes).
Proof.
  intros Hmax. split; simpl; try done.
  - by apply inv_default.
  - intros k. destruct k; simpl; intros ? ?; by rewrite lookup_empty.
  - intros i tid. split; [|intros (? & ? & Ht & _); by rewrite lookup_empty in Ht].
    destruct stripes; [|by rewrite lookup_nil]. by intros [? ?]%lookup_replicate.
  - intros tid. split; [done|]. intros (? & Ht & _). by rewrite lookup_empty in Ht.
Qed.

Lemma reachable_node_ok stripes N :
  0 <= max_pending_responses limits →
  rtc (node_step limits node_id may_receive) (new_node limits stripes) N → node_ok N.
Proof.
  intros Hmax. apply rtc_invariant; [intros; by eapply node_step_ok|by apply new_node_ok].
Qed.

(** C37. The coordinator's accounting is exact and nothing is left behind: in every
    execution of any number of registrations, unregistrations, synchronisations,
    topology changes and handled messages, whatever the other nodes send and
    wherever futures are dropped, the pending budget counts exactly the pending
    entries, their responses and the reservations in progress, and stays within
    its limit; no task panics; two tasks never hold the same name stripe; and when
    the calls have ended, no entry is pending, the whole budget is available and
    every lock is free. *)
Theorem coordinator_accounting_exact stripes N :
  0 <= max_pending_responses limits →
  rtc (node_step limits node_id may_receive) (new_node limits stripes) N →
  budget_used (coordinator N) = entry_leases (coordinator N) + task_leases (tasks N) ∧
  0 <= budget_used (coordinator N) <= max_pending_responses limits ∧
  (∀ tid t o, tasks N !! tid = Some t →
     task_step limits node_id tid o t (coordinator N) ≠ Panicked) ∧
  (∀ tid tid' t t' name name', tasks N !! tid = Some t → tasks N !! tid' = Some t' →
     f_stripe (footprint t) = Some name → f_stripe (footprint t') = Some name' →
     stripe name (coordinator N) = stripe name' (coordinator N) → tid = tid') ∧
  (tasks N = ∅ →
     budget_used (coordinator N) = 0 ∧ pending_votes (coordinator N) = ∅ ∧
     (∀ k, waiters k (coordinator N) = ∅) ∧ topology_fence (coordinator N) = None ∧
     ∀ i holder, name_locks (coordinator N) !! i = Some holder → holder = None).
Proof.
  intros Hmax Hok%reachable_node_ok; [|done]. pose proof Hok as [Hreg Hl Hm Hv Hw Hs Hf].
  split_and!; try done; try lia.
  - rewrite Hl. pose proof (entry_leases_nonneg (coordinator N)).
    pose proof (map_sum_nonneg (fun t => f_leases (footprint t)) (tasks N) footprint_leases) as H'.
    fold (task_leases (tasks N)) in H'. lia.
  - intros tid t o Ht Hp.
    pose proof (task_step_effect limits node_id Hlimits tid o t _ (node_ok_ready _ _ _ Hok Ht)) as He.
    by rewrite Hp in He.
  - intros tid tid' t t' name name' Ht Ht' Hn Hn' Heq.
    assert (name_locks (coordinator N) !! stripe name (coordinator N) = Some (Some tid)) as H1
      by (apply Hs; eauto).
    assert (name_locks (coordinator N) !! stripe name (coordinator N) = Some (Some tid')) as H2
      by (apply Hs; eauto). congruence.
  - intros He. assert (∀ tid, tasks N !! tid = None) as Hnone by (intros; by rewrite He, lookup_empty).
    assert (pending_votes (coordinator N) = ∅) as Hve.
    { apply map_empty. intros key. apply eq_None_not_Some. intros [v Hk].
      destruct (Hv key v Hk) as (tid & ? & Ht & _). congruence. }
    assert (∀ k, waiters k (coordinator N) = ∅) as Hwe.
    { intros k. apply map_empty. intros rid. apply eq_None_not_Some. intros [w Hk].
      destruct (Hw k rid w Hk) as (tid & ? & Ht & _). congruence. }
    split_and!; try done.
    + rewrite Hl, He. unfold entry_leases, task_leases. rewrite Hve, !map_sum_empty.
      pose proof (Hwe WCaller) as H1. pose proof (Hwe WSync) as H2. pose proof (Hwe WUnregister) as H3.
      simpl in H1, H2, H3. by rewrite H1, H2, H3, map_size_empty.
    + apply eq_None_not_Some. intros [tid Ht]. apply Hf in Ht as (? & ? & _). congruence.
    + intros i [tid|] Hi; [|done]. apply Hs in Hi as (? & ? & Ht & _). congruence.
Qed.
End invariant.

(** ** Termination of a proposal *)

Section termination.
Context (limits : RegistryLimits) (node_id tid : Z) (Hlimits : limits_ok limits).
Context (k : RegCont) (p : Proposal).

(** The voting a program point belongs to. *)
Definition voting_of (pc : RegPc) : option Voting :=
  match pc with
  | RPoll v | RCommit v | RNotify v _ _ | RStable v | RUndo v | RPrepare v _ | RWait v => Some v
  | _ => None
  end.

(** The steps of one task of [coordinate_registration], each in the state that
    the other tasks have left; [None] when the method has returned. *)
Fixpoint drive (env : list (Oracle * Coordinator)) (pc : RegPc) : option RegPc :=
  match env with
  | [] => Some pc
  | (o, c) :: env =>
      match coordinate_step limits node_id tid o k p pc c with
      | Next (TCoordinate _ _ pc) _ _ => drive env pc
      | Blocked | Panicked => Some pc
      | _ => None
      end
  end.

Definition steps_left (pc : RegPc) : nat :=
  match pc with
  | RDrop n _ => 1 + n
  | RGuard _ _ => 2
  | RUndo _ => 3
  | RStable _ => 4
  | RNotify _ _ todo => 5 + length todo
  | RCommit v => 6 + length (v_members v)
  | RPoll v => 7 + length (v_members v)
  | RWait v => 8 + length (v_members v)
  | RPrepare v todo => 9 + length (v_members v) + length todo
  | _ => 0
  end.

(** The proposal is in the part of the method that the deadline bounds. *)
Definition bounded_by (deadline : Z) (pc : RegPc) : Prop :=
  match pc with
  | RGuard _ _ | RDrop _ _ => True
  | _ => ∃ v, voting_of pc = Some v ∧ v_deadline v <= deadline
  end.

Lemma coordinate_step_progress deadline o pc c :
  bounded_by deadline pc → deadline <= now o → topology_fence c = None → inv limits (registry c) →
  match coordinate_step limits node_id tid o k p pc c with
  | Next (TCoordinate _ _ pc') _ _ => bounded_by deadline pc' ∧ (steps_left pc' < steps_left pc)%nat
  | Blocked | Panicked => False
  | _ => True
  end.
Proof.
  intros Hb Hnow Hfence Hinv.
  assert (∀ v : Voting, (length (filter (.≠ node_id) (v_members v)) <= length (v_members v))%nat) as Hlen.
  { intros v. apply length_filter. }
  destruct pc as [| | | | | | | | |v|v|v at_ms todo|v|v|v todo|v|token r|n r]; simpl in *;
    try (destruct Hb as (v0 & [=] & Hd); subst v0).
  - destruct (pending_votes c !! _) as [votes|]; simpl; [|split; [done|lia]].
    destruct (capacity_exhausted votes); simpl; [split; [done|lia]|].
    destruct (required _ <=? _); simpl; [split; [eauto|lia]|].
    rewrite (proj2 (Z.leb_le (v_deadline v) (now o))) by lia. rewrite orb_true_r. simpl. split; [done|lia].
  - rewrite bool_decide_false by (rewrite Hfence; by intros []).
    destruct (topology_epoch c =? v_epoch v); simpl; [|split; [done|lia]].
    destruct (apply_global _ _ _ _ _) as [[] reg]; simpl; [|split; [done|lia]].
    specialize (Hlen v). split; [eauto|lia].
  - destruct todo as [|n todo]; simpl; [split; [eauto|lia]|].
    destruct (topology_epoch c =? v_epoch v); simpl; (split; [eauto|lia]).
  - rewrite bool_decide_false by (rewrite Hfence; by intros []).
    destruct (topology_epoch c =? v_epoch v); simpl; (split; [eauto|lia]).
  - destruct (remove_owner_inv limits Hlimits (proposed_name p) (proposed_pid p) c Hinv)
      as (b & reg & -> & _). simpl. split; [done|lia].
  - destruct todo as [|n todo]; simpl; (split; [eauto|lia]).
  - split; [eauto|lia].
  - split; [done|lia].
  - destruct n as [|n]; simpl; [|split; [done|lia]]. by destruct k.
Qed.

(** A registration ends: once its deadline has passed, the coordinator's method
    returns after at most nine steps of its own plus one for each member it still
    has to write to, whatever other tasks do to the shared state in between, and
    however sends end; only a topology change that holds the fence can delay it. *)
Theorem coordination_ends_after_deadline deadline pc (env : list (Oracle * Coordinator)) :
  bounded_by deadline pc →
  Forall (fun '(o, c) => deadline <= now o ∧ topology_fence c = None ∧ inv limits (registry c)) env →
  (steps_left pc <= length env)%nat →
  drive env pc = None.
Proof.
  revert pc. induction env as [|[o c] env IH]; intros pc Hb Hall Hlen; simpl in *.
  - destruct pc; simpl in *; try lia; by destruct Hb as (? & ? & _).
  - apply Forall_cons_iff in Hall as [(Hnow & Hf & Hinv) Hall].
    pose proof (coordinate_step_progress deadline o pc c Hb Hnow Hf Hinv) as Hstep.
    destruct (coordinate_step _ _ _ _ _ _ _ _) as [| |[] ? ?|]; try done.
    destruct Hstep as [Hb' Hlt]. apply IH; [done|done|lia].
Qed.
End termination.

(** ** A proposal in progress

    Node 1 of the members 1, 2 and 3 has its own vote and one response pending. *)

Section running.
Context (limits : RegistryLimits) (node_id : Z).

(** Steps of one task, one for each oracle. *)
Fixpoint run_task (tid : Z) (os : list Oracle) (N : Node) : option Node :=
  match os with
  | [] => Some N
  | o :: os =>
      t ← tasks N !! tid;
      match task_step limits node_id tid o t (coordinator N) with
      | Next t c outs =>
          run_task tid os (mkNode c (<[tid := t]> (tasks N)) (history N ++ (pair (coordinator N) <$> outs)))
      | Finished _ c outs =>
          run_task tid os (mkNode c (delete tid (tasks N)) (history N ++ (pair (coordinator N) <$> outs)))
      | _ => None
      end
  end.

Lemma run_task_steps may_receive tid os N N' :
  Forall oracle_ok os → run_task tid os N = Some N' →
  rtc (node_step limits node_id may_receive) N N'.
Proof.
  revert N. induction os as [|o os IH]; intros [c ts h] Hos Hrun; simpl in *; [by injection Hrun as <-|].
  apply Forall_cons_iff in Hos as [Ho Hos]. destruct (ts !! tid) as [t|] eqn:Ht; [|done]. simpl in Hrun.
  destruct (task_step _ _ _ _ _ _) as [| |t' c' outs|v c' outs] eqn:Hs; try done.
  - eapply rtc_l; [by eapply ns_next|]. by apply IH.
  - eapply rtc_l; [by eapply ns_finish|]. by apply IH.
Qed.

Lemma start_task may_receive tid t N N' :
  tasks N !! tid = None → may_start may_receive t →
  rtc (node_step limits node_id may_receive) (mkNode (coordinator N) (<[tid := t]> (tasks N)) (history N)) N' →
  rtc (node_step limits node_id may_receive) N N'.
Proof. destruct N as [c ts h]. intros Ht Hm Hrun. eapply rtc_l; [by apply ns_start|done]. Qed.
End running.

Definition demo_limits : RegistryLimits := mkLimits 64 8 1024 2 4 4.
Definition demo_oracle (at_ms : Z) : Oracle :=
  mkOracle (Some [1; 2; 3]) at_ms at_ms (Ok tt) false (fun m => (map_to_list m).*2).
Definition demo_pid : GlobalProcessId := mkGlobalProcessId 1 1 7.
Definition demo_proposal : Proposal := mkProposal 1 1 [97] demo_pid.
Definition demo_voting : Voting := mkVoting [1; 2; 3] 1 0 2000.

Lemma demo_oracle_ok at_ms : oracle_ok (demo_oracle at_ms).
Proof. by intros m. Qed.

Lemma demo_limits_ok : limits_ok demo_limits.
Proof. unfold limits_ok, u64_max. simpl. lia. Qed.

(** The proposal of task 0, waiting for votes, and the vote of node 2. *)
Definition demo_node : Node :=
  default (new_node demo_limits true)
    (N ← run_task demo_limits 1 0 (replicate 14 (demo_oracle 0))
           (mkNode (new demo_limits state_default true) {[ 0 := TRegister [97] demo_pid 3 ]} []);
     run_task demo_limits 1 1 [demo_oracle 5]
       (mkNode (coordinator N) (<[1 := THandle 2 (GlobalRegisterResponse 1 1 2 RegSuccess)]> (tasks N))
          (history N))).

Lemma demo_node_reachable :
  rtc (node_step demo_limits 1 (fun _ _ => True)) (new_node demo_limits true) demo_node.
Proof.
  assert (∀ n, Forall oracle_ok (replicate n (demo_oracle 0))) as Hos.
  { intros n. apply Forall_replicate, demo_oracle_ok. }
  eapply (start_task _ _ _ 0 (TRegister [97] demo_pid 3)); [by vm_compute|done|].
  etrans; [eapply (run_task_steps _ _ _ 0); [apply (Hos 14%nat)|by vm_compute]|].
  eapply (start_task _ _ _ 1 (THandle 2 (GlobalRegisterResponse 1 1 2 RegSuccess)));
    [by vm_compute|done|].
  eapply (run_task_steps _ _ _ 1 [demo_oracle 5]); [|by vm_compute].
  apply list.Forall_singleton, demo_oracle_ok.
Qed.

Lemma coordinator_accounting_exact_witness :
  budget_used (coordinator demo_node) = 3 ∧ entry_leases (coordinator demo_node) = 3 ∧
  task_leases (tasks demo_node) = 0 ∧
  budget_used (coordinator demo_node) = entry_leases (coordinator demo_node) + task_leases (tasks demo_node).
Proof.
  split; [by vm_compute|]. split; [by vm_compute|]. split; [by vm_compute|].
  refine (proj1 (coordinator_accounting_exact demo_limits (fun _ _ => True) 1 demo_limits_ok true demo_node
    _ demo_node_reachable)).
  by vm_compute.
Defined.

(** Two seconds later the proposal commits and returns. *)
Lemma coordination_ends_after_deadline_witness :
  drive demo_limits 1 0 KCall demo_proposal
    (replicate 10 (demo_oracle 2000, coordinator demo_node)) (RPoll demo_voting) = None.
Proof.
  apply (coordination_ends_after_deadline demo_limits 1 0 demo_limits_ok KCall demo_proposal 2000
    (RPoll demo_voting)).
  - exists demo_voting. split; reflexivity.
  - apply Forall_replicate. split; [by vm_compute|]. split; [by vm_compute|].
    exact (ok_registry _ _ (reachable_node_ok demo_limits (fun _ _ => True) 1 demo_limits_ok true demo_node
      ltac:(by vm_compute) demo_node_reachable)).
  - by vm_compute; lia.
Defined.
