(* ===== verification/RegistryCluster.v ===== *)
(** * A cluster of coordinators

    The nodes of a cluster run the coordinators of [RegistryCoordination] and
    exchange their messages over a network that may delay, lose, reorder and
    duplicate them, but does not forge their source (the transport authenticates
    it).  Nodes may disagree about who the members are, and change their minds.

    The end-to-end contract of a registration is proved over all executions: a
    caller is told that its name is registered only if a coordinator committed
    exactly that proposal, after a strict majority of the members it asked had
    each validated it against its own registry. *)

From stdpp Require Import sorting.
From S2P Require Import Prelude GlobalProcessId DistributedRegistry RegistrySpec.
From S2P Require Import RegistryCoordination CoordinatorNode.

Abbreviation Cluster := (gmap Z Node).

(** ** Steps *)

(** [m] was handed to the transport by [source] for [target]. *)
Definition sent (K : gmap Z Node) (source target : Z) (m : RegistryCoordinationMessage) : Prop :=
  ∃ N c, K !! source = Some N ∧ (c, OSend target m) ∈ history N.

Inductive cluster_step (limits : RegistryLimits) : gmap Z Node → gmap Z Node → Prop :=
| cluster_node K n N N' :
    K !! n = Some N → node_step limits n (fun source m => sent K source n m) N N' →
    cluster_step limits K (<[n := N']> K).

Definition cluster_start (limits : RegistryLimits) (K : gmap Z Node) : Prop :=
  ∀ n N, K !! n = Some N → ∃ stripes, N = new_node limits stripes.

(** ** What the history of a cluster says *)

(** The request identities a node has taken, oldest first. *)
Definition requests_of (h : list (Coordinator * Output)) : list (Z * option Proposal) :=
  omap (fun e => match e.2 with ORequested rid p => Some (rid, p) | _ => None end) h.

Section cluster.
Context (limits : RegistryLimits).
Implicit Types (K : gmap Z Node) (p : Proposal) (c : Coordinator).

(** Node [n] showed [out] when its coordinator was in state [c]. *)
Definition showed K (n : Z) c (out : Output) : Prop :=
  ∃ N, K !! n = Some N ∧ (c, out) ∈ history N.

(** [p] is the proposal of the node it names, under an identity of that node. *)
Definition issued K p : Prop :=
  ∃ c, showed K (requesting_node_id p) c (ORequested (request_id p) (Some p)).

(** Node [m] validated [p] against its registry. *)
Definition validated K (m : Z) p : Prop :=
  ∃ c, showed K m c (OVoted p RegSuccess) ∧
    can_register_global limits (proposed_name p) (proposed_pid p) (registry c) = Ok tt.

(** A strict majority of [ms], one vote each, is for [p]: the coordinator [n]
    itself, and members that validated it. *)
Definition majority K (n : Z) p (ms : list Z) : Prop :=
  NoDup ms ∧ ∃ S : gset Z, S ⊆ list_to_set ms ∧ Z.of_nat (length ms) < 2 * Z.of_nat (size S) ∧
    ∀ m, m ∈ S → m = n ∨ validated K m p.

(** Node [n] committed [p], in the topology it proposed it in. *)
Definition committed K (n : Z) p : Prop :=
  ∃ c v at_ms, showed K n c (OCommitted p v at_ms) ∧ topology_epoch c = v_epoch v ∧
    majority K n p (v_members v).

(** ** Histories only grow *)

Definition extends K K' : Prop :=
  ∀ n N, K !! n = Some N → ∃ N', K' !! n = Some N' ∧ history N `prefix_of` history N'.

#[export] Instance extends_preorder : PreOrder extends.
Proof.
  split.
  - intros K n N HN. by exists N.
  - intros K1 K2 K3 H12 H23 n N HN. destruct (H12 n N HN) as (N2 & HN2 & ?).
    destruct (H23 n N2 HN2) as (N3 & HN3 & ?). exists N3. split; [done|by etrans].
Qed.

Lemma showed_mono K K' n c out : extends K K' → showed K n c out → showed K' n c out.
Proof.
  intros HK (N & HN & Hin). destruct (HK n N HN) as (N' & ? & [l Hl]). exists N'. split; [done|]. rewrite Hl. set_solver.
Qed.

Lemma issued_mono K K' p : extends K K' → issued K p → issued K' p.
Proof. intros HK [c ?]. exists c. by eapply showed_mono. Qed.

Lemma validated_mono K K' m p : extends K K' → validated K m p → validated K' m p.
Proof. intros HK (c & ? & ?). exists c. split; [by eapply showed_mono|done]. Qed.

Lemma majority_mono K K' n p ms : extends K K' → majority K n p ms → majority K' n p ms.
Proof.
  intros HK (? & S & ? & ? & Hm). split; [done|]. exists S. split_and!; [done..|]. intros m [?|?]%Hm; [by left|right].
  by eapply validated_mono.
Qed.

Lemma committed_mono K K' n p : extends K K' → committed K n p → committed K' n p.
Proof.
  intros HK (c & v & at_ms & ? & ? & ?). exists c, v, at_ms.
  split_and!; [by eapply showed_mono|done|by eapply majority_mono].
Qed.

(** The registration that node [n] asked for under [rid] was committed. *)
Definition won K (n rid : Z) : Prop :=
  ∃ coordinator p, vote_key p = (n, rid) ∧ issued K p ∧ committed K coordinator p.

Lemma won_mono K K' n rid : extends K K' → won K n rid → won K' n rid.
Proof.
  intros HK (l & p & ? & ? & ?). exists l, p. split_and!; [done|by eapply issued_mono|by eapply committed_mono].
Qed.

(** ** The invariant *)

Definition message_ok K (source target : Z) (m : RegistryCoordinationMessage) : Prop :=
  match m with
  | GlobalRegisterRequest p | GlobalRegisterPrepare p => issued K p
  | GlobalRegisterResponse rid requester _ r =>
      r = RegSuccess → ∃ p, vote_key p = (requester, rid) ∧ issued K p ∧ validated K source p
  | GlobalRegisterDecision rid r => r = RegSuccess → won K target rid
  | _ => True
  end.

Definition output_ok K (n : Z) c (out : Output) : Prop :=
  match out with
  | ORequested rid (Some p) => vote_key p = (n, rid)
  | OSend target m => message_ok K n target m
  | OCommitted p _ _ => committed K n p
  | _ => True
  end.

(** The channel a waiting request listens to. *)
Definition channel_of (pc : WaitPc) : option Z :=
  match pc with WSend _ ch | WAwait _ ch => Some ch | _ => None end.

Definition success_reply (r : Reply) : Prop := r = ReplyRegister RegSuccess.

(** The members a program point works with. *)
Definition pc_members (pc : RegPc) : option (list Z) :=
  match pc with
  | RLease ms | RVoteLease ms | RToken ms | REpoch ms _ | RInsert ms _ _ => Some ms
  | _ => v_members <$> voting_of pc
  end.

Definition reg_pc_ok K (n : Z) p (pc : RegPc) : Prop :=
  (∀ ms, pc_members pc = Some ms → NoDup ms ∧ n ∈ ms) ∧
  match pc with
  | RCommit v => majority K n p (v_members v)
  | RNotify _ _ _ | RStable _ => committed K n p
  | RGuard _ r | RDrop _ r => r = RegSuccess → committed K n p
  | _ => True
  end.

Definition request_ok K (n : Z) (q : Request) : Prop :=
  message_ok K n (q_leader q) (q_message q) ∧
  ∀ p, q_caller q = CRegister p → q_kind q = WCaller ∧ vote_key p = (n, q_id q) ∧ issued K p.

(** Node [n] is alone as far as it knows. *)
Definition alone_ok (n : Z) (why : Alone) : Prop :=
  match why with AloneCount k => k <= 1 | AloneMembers ms => ms = [n] end.

Definition task_ok K (n : Z) (t : Task) : Prop :=
  match t with
  | TSingle _ _ why _ => alone_ok n why
  | TCoordinate _ p pc => issued K p ∧ reg_pc_ok K n p pc
  | TWaiting q pc =>
      request_ok K n q ∧
      match pc with WGuard _ (Ok r) => success_reply r → won K n (q_id q) | _ => True end
  | THandle source m => message_ok K source n m
  | TPrepareLookup _ p | TPrepareCheck _ p => issued K p
  | TReply target m => message_ok K n target m
  | TTakeLeader k _ rid r | TTake k rid r => success_reply r → k = WCaller ∧ won K n rid
  | _ => True
  end.

(** The responses of a pending proposal are votes of members. *)
Definition votes_ok K (n : Z) c : Prop :=
  ∀ key v, pending_votes c !! key = Some v →
    dom (responses v) ⊆ allowed_members v ∧
    ∀ m, responses v !! m = Some RegSuccess →
      m = n ∨ ∃ p, vote_key p = key ∧ issued K p ∧ validated K m p.

(** The members of a pending proposal are those of the task that made it. *)
Definition members_ok (N : Node) : Prop :=
  ∀ tid k p pc v votes, tasks N !! tid = Some (TCoordinate k p pc) → voting_of pc = Some v →
    pending_votes (coordinator N) !! vote_key p = Some votes →
    allowed_members votes = list_to_set (v_members v).

(** Channels are fresh, a waiter's sender is the channel of its request, and what
    was sent on it was decided. *)
Record channels_ok K (n : Z) (N : Node) : Prop := {
  ch_task tid q pc ch : tasks N !! tid = Some (TWaiting q pc) → channel_of pc = Some ch →
    ch < next_channel (coordinator N);
  ch_waiter rid w : pending_callers (coordinator N) !! rid = Some w →
    sender w < next_channel (coordinator N) ∧
    ∀ tid q pc, tasks N !! tid = Some (TWaiting q pc) → channel_of pc = Some (sender w) → q_id q = rid;
  ch_sent tid q pc ch r : tasks N !! tid = Some (TWaiting q pc) → channel_of pc = Some ch →
    channels (coordinator N) !! ch = Some (Sent r) → success_reply r → won K n (q_id q);
}.

(** The identities of requests are handed out in order. *)
Definition requests_ok (n : Z) (N : Node) : Prop :=
  next_request_id (coordinator N) = (1 + Z.of_nat (length (requests_of (history N)))) mod 2 ^ 64 ∧
  ∀ i rid o, requests_of (history N) !! i = Some (rid, o) → rid = (1 + Z.of_nat i) mod 2 ^ 64.

Record cluster_node_ok K (n : Z) (N : Node) : Prop := {
  cn_node : node_ok limits N;
  cn_tasks tid t : tasks N !! tid = Some t → task_ok K n t;
  cn_history c out : (c, out) ∈ history N → output_ok K n c out;
  cn_votes : votes_ok K n (coordinator N);
  cn_members : members_ok N;
  cn_channels : channels_ok K n N;
  cn_requests : requests_ok n N;
}.

Definition cluster_ok K : Prop := ∀ n N, K !! n = Some N → cluster_node_ok K n N.

(** ** Members *)

Lemma members_spec n o ms : members limits n o = Ok ms → NoDup ms ∧ n ∈ ms.
Proof.
  unfold members. destruct (node_ids o) as [ids|]; [|done].
  set (l := if bool_decide (n ∈ ids) then ids else ids ++ [n]).
  case_match; intros [= <-]. split.
  - apply dedup_NoDup, StronglySorted_merge_sort; intros x y; lia.
  - rewrite elem_of_dedup, merge_sort_Permutation. unfold l. case_bool_decide; set_solver.
Qed.

(** ** Proposals are identified by their request *)

Definition few_requests K : Prop :=
  ∀ n N, K !! n = Some N → Z.of_nat (length (requests_of (history N))) <= 2 ^ 64.

Lemma issued_unique K p p' :
  (∀ n N, K !! n = Some N → requests_ok n N) → few_requests K →
  issued K p → issued K p' → vote_key p = vote_key p' → p = p'.
Proof.
  intros Hreq Hfew (c & N & HN & Hin) (c' & N' & HN' & Hin') [= Hr Hi].
  rewrite <- Hr, HN in HN'. injection HN' as <-. destruct (Hreq _ _ HN) as [_ Hids].
  assert (∀ c p, (c, ORequested (request_id p) (Some p)) ∈ history N →
    ∃ i, requests_of (history N) !! i = Some (request_id p, Some p)) as Hpos.
  { intros c0 p0 H0. apply list_elem_of_lookup_1, list_elem_of_omap. by exists (c0, ORequested (request_id p0) (Some p0)). }
  destruct (Hpos _ _ Hin) as [i Hp]. destruct (Hpos _ _ Hin') as [j Hp'].
  assert (i = j) as ->; [|congruence].
  pose proof (lookup_lt_Some _ _ _ Hp). pose proof (lookup_lt_Some _ _ _ Hp').
  apply Hids in Hp. apply Hids in Hp'. specialize (Hfew _ _ HN).
  assert ((1 + Z.of_nat i) mod 2 ^ 64 = (1 + Z.of_nat j) mod 2 ^ 64) as Hmod by congruence.
  rewrite (Z.add_comm 1), (Z.add_comm 1 (Z.of_nat j)) in Hmod.
  destruct (decide (Z.of_nat i + 1 = 2 ^ 64)) as [Hi'|], (decide (Z.of_nat j + 1 = 2 ^ 64)) as [Hj'|];
    try lia.
  - rewrite Hi', Z_mod_same_full, Z.mod_small in Hmod by lia. lia.
  - rewrite Hj', Z_mod_same_full, Z.mod_small in Hmod by lia. lia.
  - rewrite !Z.mod_small in Hmod by lia. lia.
Qed.

(** ** One step of a task *)

Section step.
Context (K' : gmap Z Node) (n : Z).
Context (Hunique : ∀ p p', issued K' p → issued K' p' → vote_key p = vote_key p' → p = p').

(** What a step must establish, of its outputs, its task and the votes. *)
Definition sound c (s : Step) : Prop :=
  match s with
  | Next t' c' outs =>
      (∀ out, out ∈ outs → showed K' n c out) →
      task_ok K' n t' ∧ (∀ out, out ∈ outs → output_ok K' n c out) ∧ votes_ok K' n c'
  | Finished _ c' outs =>
      (∀ out, out ∈ outs → showed K' n c out) →
      (∀ out, out ∈ outs → output_ok K' n c out) ∧ votes_ok K' n c'
  | _ => True
  end.

#[local] Arguments sound : simpl never.

Lemma votes_ok_same c c' : pending_votes c' = pending_votes c → votes_ok K' n c → votes_ok K' n c'.
Proof. intros Heq Hv. unfold votes_ok. by rewrite Heq. Qed.

Lemma sound_next c t' c' :
  task_ok K' n t' → votes_ok K' n c' → sound c (Next t' c' []).
Proof. intros Ht Hv _. split_and!; [done| |done]. intros out Hin. by apply not_elem_of_nil in Hin. Qed.

Lemma sound_finished c v c' : votes_ok K' n c' → sound c (Finished v c' []).
Proof. intros Hv _. split; [|done]. intros out Hin. by apply not_elem_of_nil in Hin. Qed.

Lemma sound_next_one c t' c' out :
  (showed K' n c out → task_ok K' n t' ∧ output_ok K' n c out) → votes_ok K' n c' →
  sound c (Next t' c' [out]).
Proof.
  intros Ht Hv Hs. destruct Ht as [Ht Ho]; [by apply Hs, list_elem_of_singleton|].
  split_and!; [done| |done]. by intros out' ->%list_elem_of_singleton.
Qed.

Lemma sound_finished_one c v c' out :
  output_ok K' n c out → votes_ok K' n c' → sound c (Finished v c' [out]).
Proof. intros Ho Hv Hs. split; [|done]. by intros out' ->%list_elem_of_singleton. Qed.

(** Unregistration does not touch registrations. *)
Lemma unreg_finish_sound c u r c' : votes_ok K' n c' → sound c (unreg_finish u r c').
Proof.
  intros Hv. destruct u as [|? ? ? []]; simpl; repeat case_match;
    first [by apply sound_finished|by apply sound_next].
Qed.

Lemma unreg_return_sound c k r c' : votes_ok K' n c' → sound c (unreg_return k r c').
Proof.
  intros Hv. destruct k; simpl; [by apply unreg_finish_sound|by apply sound_next|by apply sound_finished].
Qed.

Lemma unreg_enter_sound c k name expected ms allow c' :
  votes_ok K' n c' → sound c (unreg_enter k name expected ms allow c').
Proof.
  intros Hv. unfold unreg_enter. case_match; [by apply sound_next|by apply unreg_return_sound].
Qed.

Lemma coordinate_unreg_sound tid o k name expected pc c :
  votes_ok K' n c → sound c (coordinate_unreg_step limits n tid o k name expected pc c).
Proof.
  intros Hv. destruct pc as [allow|allow|ms allow|ms allow|ms|[|m todo]|r]; simpl.
  - case_match; [by apply sound_next|by apply unreg_enter_sound].
  - destruct (members _ _ _) as [ms|[]]; by first [apply unreg_enter_sound|apply unreg_return_sound].
  - unfold lock_stripe. repeat case_match; try done; simplify_eq. by apply sound_next.
  - repeat case_match; by apply sound_next.
  - repeat case_match; try done; by apply sound_next.
  - by apply sound_next.
  - by apply sound_next_one.
  - by apply unreg_return_sound.
Qed.

(** *** [coordinate_registration] *)

Lemma reg_finish_sound c k p r c' outs :
  votes_ok K' n c' → issued K' p → (r = RegSuccess → committed K' n p) →
  (∀ out, out ∈ outs → output_ok K' n c out) → sound c (reg_finish k p r c' outs).
Proof.
  intros Hv Hi Hr Ho. destruct k; intros Hs.
  - by split.
  - split_and!; [|done|done]. intros ->. exists n, p. auto.
  - by split.
Qed.

Lemma coordinate_registration_sound c k p c' outs :
  votes_ok K' n c' → ((∀ out, out ∈ outs → showed K' n c out) → issued K' p) →
  (∀ out, out ∈ outs → output_ok K' n c out) → sound c (coordinate_registration k p c' outs).
Proof.
  intros Hv Hi Ho. unfold coordinate_registration. case_match.
  - intros Hs. split_and!; try done. by split; [apply Hi|].
  - destruct k; cbn [reg_finish]; intros Hs; by split_and!.
Qed.

Lemma votes_ok_sub c c' :
  (∀ key v, pending_votes c' !! key = Some v → pending_votes c !! key = Some v) →
  votes_ok K' n c → votes_ok K' n c'.
Proof. intros Hsub Hv key v Hk. by apply Hv, Hsub. Qed.

Lemma drop_vote_guard_sub key token c :
  ∀ key' v, pending_votes (drop_vote_guard key token c) !! key' = Some v →
    pending_votes c !! key' = Some v.
Proof.
  intros key' v. unfold drop_vote_guard. repeat case_match; try done. simpl.
  by intros [_ ?]%lookup_delete_Some.
Qed.

Lemma drain_votes_sub active drain_all c :
  ∀ key v, pending_votes (drain_votes active drain_all c) !! key = Some v →
    pending_votes c !! key = Some v.
Proof.
  intros key v. unfold drain_votes.
  assert (∀ l c, pending_votes (foldr (fun v => drop_leases (votes_leases v)) c l) = pending_votes c) as ->.
  { clear. intros l. induction l as [|v l IH]; intros c; simpl; [done|]. apply IH. }
  simpl. by intros [? _]%map_lookup_filter_Some.
Qed.

Lemma propose_sound tid o k p pc c :
  votes_ok K' n c → task_ok K' n (TCoordinate k p pc) →
  sound c (propose_step limits n tid o k p pc c).
Proof.
  intros Hv [Hi [Hms Hpc]].
  assert (∀ pc', (∀ ms, pc_members pc' = Some ms → NoDup ms ∧ n ∈ ms) →
    match pc' with
    | RCommit _ | RNotify _ _ _ | RStable _ => False
    | RGuard _ r | RDrop _ r => r ≠ RegSuccess
    | _ => True
    end → task_ok K' n (TCoordinate k p pc')) as Hnext.
  { intros pc' Hm Hpc'. split; [done|]. split; [done|]. by destruct pc'. }
  destruct pc as [| | | |ms|ms|ms|ms token|ms token epoch| | | | | | | | |]; simpl; try done.
  - unfold lock_stripe. repeat case_match; try done; simplify_eq. by apply sound_next; [apply Hnext|].
  - case_match; by apply sound_next; [apply Hnext|].
  - case_match; apply sound_next; try done; apply Hnext; try done. by destruct e.
  - destruct (members _ _ _) as [ms|[]] eqn:Hm; try by apply sound_next; [apply Hnext|].
    apply members_spec in Hm. case_match; apply sound_next; try done; apply Hnext; naive_solver.
  - destruct (try_acquire _ _) as [c'|] eqn:Ha; [|by apply sound_next; [apply Hnext|]].
    apply try_acquire_Some in Ha as (-> & _). by apply sound_next; [apply Hnext|].
  - destruct (try_acquire _ _) as [c'|] eqn:Ha; [|by apply sound_next; [apply Hnext|]].
    apply try_acquire_Some in Ha as (-> & _). by apply sound_next; [apply Hnext|].
  - by apply sound_next; [apply Hnext|].
  - by apply sound_next; [apply Hnext|].
  - case_match; [by apply sound_next; [apply Hnext|]|].
    apply sound_next; [by apply Hnext|]. intros key v. simpl. rewrite lookup_insert.
    case_decide as Hkey; [|apply Hv]. intros [= <-]. simpl. destruct (Hms ms eq_refl) as [_ Hin]. split.
    + rewrite dom_singleton_L. set_solver.
    + intros m Hm. apply lookup_singleton_Some in Hm as [<- _]. by left.
Qed.

(** The votes that are counted are a majority of the members. *)
Lemma counted_majority c p v votes :
  votes_ok K' n c → issued K' p → NoDup (v_members v) →
  pending_votes c !! vote_key p = Some votes → allowed_members votes = list_to_set (v_members v) →
  required (v_members v) <= successes votes → majority K' n p (v_members v).
Proof.
  intros Hv Hi Hnd Hvotes Hall Hreq. split; [done|]. destruct (Hv _ _ Hvotes) as [Hdom Hsucc].
  exists (dom (filter (fun q : Z * GlobalRegisterResult => q.2 = RegSuccess) (responses votes))). split_and!.
  - rewrite <- Hall. etrans; [|exact Hdom]. apply dom_filter_subseteq.
  - rewrite size_dom. unfold required, successes in Hreq.
    pose proof (Z.div_mod (Z.of_nat (length (v_members v))) 2 ltac:(lia)) as Hd.
    pose proof (Z.mod_pos_bound (Z.of_nat (length (v_members v))) 2 ltac:(lia)). lia.
  - intros m [r Hm]%elem_of_dom. apply map_lookup_filter_Some in Hm as [Hm Hr]. simpl in Hr. subst r.
    destruct (Hsucc m Hm) as [?|(p' & Hk & Hi' & Hval)]; [by left|right].
    by rewrite (Hunique p p').
Qed.

Lemma voting_sound o k p pc c :
  votes_ok K' n c → task_ok K' n (TCoordinate k p pc) →
  (∀ v votes, voting_of pc = Some v → pending_votes c !! vote_key p = Some votes →
     allowed_members votes = list_to_set (v_members v)) →
  oracle_ok o → sound c (voting_step n o k p pc c).
Proof.
  intros Hv [Hi [Hms Hpc]] Hmem Ho.
  destruct pc as [| | | | | | | | |v| | | | |v todo|v|token r|[|m] r]; simpl; try done.
  - assert (∀ r, r ≠ RegSuccess → task_ok K' n (TCoordinate k p (RGuard (v_token v) r))) as Hnext.
    { intros r Hr. by split; [|split]. }
    destruct (pending_votes c !! vote_key p) as [votes|] eqn:Hvotes; [|by apply sound_next; [apply Hnext|]].
    destruct (capacity_exhausted votes); [by apply sound_next; [apply Hnext|]|].
    destruct (required _ <=? _) eqn:Hreq; bool_to_prop.
    + apply sound_next; [|done]. split; [done|]. split; [done|].
      destruct (Hms _ eq_refl) as [? _]. eapply counted_majority; eauto.
    + case_match; (apply sound_next; [|done]); [apply Hnext|by split; [|split]].
      unfold first_rejection. destruct (head (filter _ _)) as [r|] eqn:Hhead; [|done]. simpl.
      apply head_Some_elem_of, list_elem_of_filter in Hhead as [? _]. done.
  - destruct todo as [|m todo]; [by apply sound_next; [split; [|split]|]|].
    apply sound_next_one; [|done]. intros _. by split; [split; [|split]|].
  - by apply sound_next; [split; [|split]|].
  - apply sound_next; [by split; [|split]|]. eapply votes_ok_sub; [apply drop_vote_guard_sub|done].
  - apply reg_finish_sound; try done. intros out Hin. by apply not_elem_of_nil in Hin.
  - apply sound_next; [by split; [|split]|done].
Qed.

Lemma commit_sound o k p pc c :
  votes_ok K' n c → task_ok K' n (TCoordinate k p pc) → sound c (commit_step limits n o k p pc c).
Proof.
  intros Hv [Hi [Hms Hpc]].
  destruct pc as [| | | | | | | | | |v|v at_ms todo|v|v| | | |]; simpl in *; try done.
  - case_bool_decide; [done|]. destruct (topology_epoch c =? v_epoch v) eqn:Hep; simpl; bool_to_prop.
    2: { apply sound_next; [by split; [|split]|done]. }
    destruct (apply_global _ _ _ _ _) as [[[]|e] reg].
    + apply sound_next_one; [|done]. intros Hs.
      assert (committed K' n p) as Hc by by exists c, v, (timestamp o).
      by split; [split; [|split]|].
    + apply sound_next; [|done]. split; [done|]. split; [done|]. by destruct e.
  - destruct todo as [|m todo]; [by apply sound_next; [split; [|split]|]|].
    case_match; [by apply sound_next; [split; [|split]|]|].
    apply sound_next_one; [|done]. intros _. by split; [split; [|split]|].
  - case_bool_decide; [done|]. case_match; by apply sound_next; [split; [|split]|].
  - destruct (remove_global_if_owner _ _ _) as [[? ?]|]; [|done]. by apply sound_next; [split; [|split]|].
Qed.

Lemma coordinate_sound tid o k p pc c :
  votes_ok K' n c → task_ok K' n (TCoordinate k p pc) →
  (∀ v votes, voting_of pc = Some v → pending_votes c !! vote_key p = Some votes →
     allowed_members votes = list_to_set (v_members v)) →
  oracle_ok o → sound c (coordinate_step limits n tid o k p pc c).
Proof.
  intros Hv Ht Hmem Ho.
  destruct pc; first [by apply propose_sound|by apply commit_sound|by apply voting_sound].
Qed.

(** *** Requests and messages *)

Lemma wait_finish_sound c q r c' :
  votes_ok K' n c' → sound c (wait_finish q r c').
Proof.
  intros Hv. unfold wait_finish.
  destruct (q_caller q) as [p| |u|] eqn:Hcaller; try by apply sound_finished.
  2: by apply unreg_finish_sound.
  by destruct r as [[r| |]|]; apply sound_finished.
Qed.

Lemma insert_request_votes q token c :
  pending_votes (insert_request q token c).2 = pending_votes c.
Proof.
  unfold insert_request, insert_pending_caller, insert_pending_sync, insert_pending_unregister,
    insert_pending. by repeat case_match.
Qed.

Lemma drop_waiter_guard_votes k rid token c :
  pending_votes (drop_waiter_guard k rid token c) = pending_votes c.
Proof. unfold drop_waiter_guard, remove_waiter. by repeat case_match. Qed.

Lemma wait_sound o q pc c :
  votes_ok K' n c → task_ok K' n (TWaiting q pc) →
  (∀ token ch r, pc = WAwait token ch → channels c !! ch = Some (Sent r) → success_reply r →
     won K' n (q_id q)) →
  sound c (wait_step limits o q pc c).
Proof.
  intros Hv [Hq Hpc] Hch. destruct pc as [| |token| |token ch|token ch|token r]; simpl.
  - destruct (try_acquire _ _) as [c'|] eqn:Ha; [|by apply wait_finish_sound].
    apply try_acquire_Some in Ha as (-> & _). by apply sound_next.
  - by apply sound_next.
  - pose proof (insert_request_votes q token c) as Hi.
    destruct (insert_request q token c) as [[ch|e] c'];
      (apply sound_next; [done|by eapply votes_ok_same]).
  - by apply wait_finish_sound.
  - apply sound_next_one; [|done]. intros _. split; [|apply Hq]. split; [done|].
    by destruct (send_result o).
  - destruct (channels c !! ch) as [[|r|]|] eqn:Hc; repeat case_match; try done; apply sound_next; try done.
    split; [done|]. intros Hr. by eapply Hch.
  - apply wait_finish_sound.
    eapply votes_ok_same; [apply drop_waiter_guard_votes|done].
Qed.

Lemma record_vote_sound requester rid responder r c :
  votes_ok K' n c →
  (r = RegSuccess → ∃ p, vote_key p = (requester, rid) ∧ issued K' p ∧ validated K' responder p) →
  votes_ok K' n (record_vote limits requester rid responder r c).2.
Proof.
  intros Hv Hr. unfold record_vote. destruct (pending_votes c !! (requester, rid)) as [v|] eqn:Hk; [|done].
  destruct (Hv _ _ Hk) as [Hdom Hsucc]. case_bool_decide as Hall; simpl; [|done].
  case_bool_decide; [done|]. destruct (try_acquire limits c) as [c'|] eqn:Ha; simpl.
  - apply try_acquire_Some in Ha as (-> & _). intros key v'. simpl. rewrite lookup_insert.
    case_decide as Hkey; [|apply Hv]. intros [= <-]. simpl. split; [rewrite dom_insert_L; set_solver|].
    intros m. rewrite lookup_insert. case_decide; [|subst; apply Hsucc].
    intros [= ->]. right. subst. by apply Hr.
  - intros key v'. simpl. rewrite lookup_insert. case_decide as Hkey; [|apply Hv]. intros [= <-].
    simpl. by subst.
Qed.

Lemma sync_response_sound tid o source rid es c :
  votes_ok K' n c → sound c (sync_response limits n tid o source rid es c).
Proof.
  intros Hv. unfold sync_response. repeat case_match; try done;
    first [by apply sound_finished|by apply sound_next|by apply sound_finished_one].
Qed.

Lemma handle_sound tid o source m c :
  votes_ok K' n c → message_ok K' source n m → sound c (handle_message limits n tid o source m c).
Proof.
  intros Hv Hm.
  assert (sound c (denied source c)) as Hden by by apply sound_finished_one.
  assert (∀ r, sound c (handled r c)) as Hhan by (intros; by apply sound_finished).
  destruct m as [p|p|rid requester responder r|rid r|name pid at_ms|rid requester name expected|rid r
    |name expected|rid requester|rid es|m ts]; simpl in *; unfold take_waiter;
    try (repeat case_match; first [done|by apply sound_next]).
  - case_match; [done|]. destruct (leader _ _ _); [|done].
    case_match; [|by apply sound_next]. apply coordinate_registration_sound; [done..|].
    intros out Hin. by apply not_elem_of_nil in Hin.
  - destruct (source =? responder) eqn:Hs; simpl; [|done]. bool_to_prop. subst responder.
    pose proof (record_vote_sound requester rid source r c Hv Hm) as Hv'.
    destruct (record_vote _ _ _ _ _ _) as [[] c']; simpl in Hv';
      first [by apply sound_finished|by apply sound_finished_one].
  - destruct (waiters WCaller c !! rid) as [w|]; [|by apply Hhan]. case_match; [done|]. apply sound_next; [|done].
    intros [= ->]. by split; [|apply Hm].
  - by apply sync_response_sound.
Qed.

Lemma vote_sound source p r c :
  votes_ok K' n c → issued K' p →
  (r = RegSuccess → can_register_global limits (proposed_name p) (proposed_pid p) (registry c) = Ok tt) →
  sound c (vote n source p r c).
Proof.
  intros Hv Hi Hr. apply sound_next_one; [|done]. intros Hs. split; [|done]. intros ->.
  exists p. split_and!; [done|done|]. exists c. by split; [|apply Hr].
Qed.

Lemma drain_stale_votes k active drain_all reply c :
  pending_votes (drain_stale_entries k active drain_all reply c) = pending_votes c.
Proof.
  unfold drain_stale_entries.
  assert (∀ ws c, pending_votes (answer_all reply ws c) = pending_votes c) as ->; [|done].
  clear. intros ws. induction ws as [|w ws IH]; intros c; simpl; [done|]. by rewrite IH.
Qed.

(** A step of a task whose facts hold establishes them again. *)
Lemma task_step_sound tid o t c :
  oracle_ok o → votes_ok K' n c → task_ok K' n t →
  (∀ k p pc v votes, t = TCoordinate k p pc → voting_of pc = Some v →
     pending_votes c !! vote_key p = Some votes → allowed_members votes = list_to_set (v_members v)) →
  (∀ q token ch r, t = TWaiting q (WAwait token ch) → channels c !! ch = Some (Sent r) →
     success_reply r → won K' n (q_id q)) →
  sound c (task_step limits n tid o t c).
Proof.
  intros Ho Hv Ht Hmem Hch.
  assert (∀ source, sound c (denied source c)) as Hden by (intros; by apply sound_finished_one).
  assert (∀ r c', votes_ok K' n c' → sound c (handled r c')) as Hhan by (intros; by apply sound_finished).
  destruct t; simpl; try done.
  - unfold register_step. repeat case_match; try first [by apply sound_finished|by apply sound_next].
    apply sound_next; [simpl; bool_to_prop; tauto|done].
  - unfold register_members_step. destruct (members _ _ _) as [[|l [|l' ms]]|] eqn:Hms;
      try first [by apply sound_finished|apply members_spec in Hms as [_ Hin]; apply sound_next; [simpl; set_solver|done]].
    set (p := mkProposal _ _ _ _). assert (output_ok K' n c (ORequested (next_request_id c) (Some p)) ∧
      (showed K' n c (ORequested (next_request_id c) (Some p)) → issued K' p)) as [Hout Hiss]
      by (split; [done|by exists c]). case_match.
    + apply coordinate_registration_sound; [done| |by intros out ->%list_elem_of_singleton].
      intros Hs. by apply Hiss, Hs, list_elem_of_singleton.
    + apply sound_next_one; [|done]. intros Hi%Hiss. split; [|done]. split; [|done]. split; [done|].
      by intros p' [= <-].
  - unfold single_step, lock_stripe. repeat case_match; try done; simplify_eq;
      first [by apply sound_finished|by apply sound_next].
  - apply coordinate_sound; [done|done| |done]. intros v votes. by eapply Hmem.
  - unfold unregister_step. repeat case_match; first [by apply unreg_finish_sound|by apply sound_next].
  - unfold unregister_members_step. destruct (members _ _ _) as [[|l [|l' ms]]|]; try by apply sound_next.
    2: by apply unreg_finish_sound. case_match; [by apply unreg_enter_sound|].
    by apply sound_next_one; [split; [split; [split|]|]|].
  - by apply coordinate_unreg_sound.
  - unfold unregister_process_registrations. case_match; [by apply sound_finished|].
    destruct (global_names_for_process _ _); [by apply sound_finished|by apply sound_next].
  - unfold synchronize_from_coordinator. destruct (leader _ _ _); [|by apply sound_finished].
    case_match; [by apply sound_finished|]. by apply sound_next_one; [split; [split; [split|]|]|].
  - apply wait_sound; [done|done|]. intros token ch r ->. by eapply Hch.
  - by apply handle_sound.
  - unfold prepare_lookup. repeat case_match; first [by apply vote_sound|by apply sound_next].
  - unfold prepare_check. destruct (can_register_global _ _ _ _) as [[]|e] eqn:Hc; apply vote_sound; try done.
    by destruct e.
  - by apply sound_finished_one.
  - unfold take_leader. repeat case_match; try done; try by apply Hhan. by apply sound_next.
  - unfold take. case_match; by apply Hhan.
  - unfold handle_register_notify. repeat case_match; by apply Hhan.
  - unfold handle_unregister_notify. repeat case_match; try done; by apply Hhan.
  - by apply sound_next.
  - unfold handle_sync_response. case_match. by apply sound_next.
  - by apply sound_finished.
  - destruct pc as [|[|m todo] cleaned|cleaned|k cleaned]; simpl; repeat case_match; try done;
      try first [by apply sound_next|by apply sound_finished].
    + apply sound_next; [done|]. eapply votes_ok_sub; [apply drain_votes_sub|done].
    + apply sound_next; [done|]. eapply votes_ok_same; [apply drain_stale_votes|done].
    + apply sound_next; [done|]. eapply votes_ok_same; [apply drain_stale_votes|done].
    + apply sound_finished. eapply votes_ok_same; [|exact Hv]. apply drain_stale_votes.
  - unfold cleanup_node_registrations. repeat case_match; try done; by apply sound_finished.
Qed.
End step.

(** ** Channels, members and request identities along a step *)

(** A change of the shared state that answers no caller with success, creates no
    channel and no pending proposal, and takes no request identity. *)
Record quiet_state c c' : Prop := {
  qs_request : next_request_id c' = next_request_id c;
  qs_channel : next_channel c' = next_channel c;
  qs_callers rid w : pending_callers c' !! rid = Some w → pending_callers c !! rid = Some w;
  qs_sent ch r : channels c' !! ch = Some (Sent r) → success_reply r → channels c !! ch = Some (Sent r);
  qs_votes key v' : pending_votes c' !! key = Some v' →
    ∃ v, pending_votes c !! key = Some v ∧ allowed_members v = allowed_members v';
}.

#[local] Instance quiet_state_preorder : PreOrder quiet_state.
Proof.
  split.
  - intros c. split; eauto.
  - intros c1 c2 c3 [? ? ? ? Hv] [? ? ? ? Hv']. split; try congruence; eauto.
    intros key v3 (v2 & Hv2 & <-)%Hv'. by apply Hv.
Qed.

Lemma quiet_waiters k m c :
  (∀ rid w, m !! rid = Some w → waiters k c !! rid = Some w) → quiet_state c (set_waiters k m c).
Proof. intros Hm. split; try done; [|eauto]. intros rid w. simpl. case_decide; [subst; apply Hm|done]. Qed.

Lemma quiet_drop_sender ch c : quiet_state c (drop_sender ch c).
Proof.
  split; try done; [|eauto]. intros ch' r. simpl. rewrite lookup_alter. case_decide; [|done].
  subst. destruct (channels c !! ch') as [[]|]; simpl; try done.
Qed.

Lemma quiet_answer ch r c : ¬ success_reply r → quiet_state c (answer ch r c).
Proof.
  intros Hr. split; try done; [|eauto]. intros ch' r'. simpl. rewrite lookup_insert.
  case_decide; [|done]. by intros [= <-].
Qed.

Lemma quiet_drop_leases l c : quiet_state c (drop_leases l c).
Proof. split; eauto. Qed.

Lemma quiet_votes m c :
  (∀ key v', m !! key = Some v' → ∃ v, pending_votes c !! key = Some v ∧ allowed_members v = allowed_members v') →
  quiet_state c (set_votes m c).
Proof. intros Hm. by split. Qed.

#[local] Hint Resolve quiet_drop_sender quiet_drop_leases : lunatic.

Lemma quiet_drop_waiter_guard k rid token c : quiet_state c (drop_waiter_guard k rid token c).
Proof.
  unfold drop_waiter_guard, remove_waiter. repeat case_match; try reflexivity.
  etrans; [|apply quiet_drop_leases]. etrans; [|apply quiet_drop_sender].
  apply quiet_waiters. by intros ? ? [_ ?]%lookup_delete_Some.
Qed.

Lemma quiet_drop_vote_guard key token c : quiet_state c (drop_vote_guard key token c).
Proof.
  unfold drop_vote_guard. repeat case_match; try reflexivity. etrans; [|apply quiet_drop_leases].
  apply quiet_votes. intros ? ? [_ ?]%lookup_delete_Some. eauto.
Qed.

Lemma quiet_record_vote requester rid responder r c :
  quiet_state c (record_vote limits requester rid responder r c).2.
Proof.
  unfold record_vote. destruct (pending_votes c !! _) as [v|] eqn:Hv; [|reflexivity].
  repeat case_bool_decide; simpl; try reflexivity. destruct (try_acquire limits c) as [c'|] eqn:Ha; simpl.
  - apply try_acquire_Some in Ha as (-> & _). split; try done. simpl. intros key v'.
    rewrite lookup_insert. case_decide; [intros [= <-]; subst; eauto|eauto].
  - apply quiet_votes. intros key v'. rewrite lookup_insert. case_decide; [intros [= <-]; subst; eauto|eauto].
Qed.

Lemma quiet_drain_votes active drain_all c : quiet_state c (drain_votes active drain_all c).
Proof.
  unfold drain_votes. etrans.
  - apply (quiet_votes (filter (fun e => votes_stale active drain_all e.2 = false) (pending_votes c))).
    intros key v' [? _]%map_lookup_filter_Some. eauto.
  - generalize (set_votes (filter (fun e => votes_stale active drain_all e.2 = false) (pending_votes c)) c).
    intros c'. induction (map_to_list _).*2 as [|v l IH]; simpl; [reflexivity|].
    etrans; [exact IH|apply quiet_drop_leases].
Qed.

Lemma quiet_drain_stale k active drain_all c :
  quiet_state c (drain_stale_entries k active drain_all (drained_reply k) c).
Proof.
  unfold drain_stale_entries. etrans.
  - apply (quiet_waiters k (filter (fun e => stale active drain_all e.2 = false) (waiters k c))).
    by intros rid w [? _]%map_lookup_filter_Some.
  - generalize (set_waiters k (filter (fun e => stale active drain_all e.2 = false) (waiters k c)) c).
    induction (map_to_list _).*2 as [|w l IH]; intros c'; simpl; [reflexivity|].
    etrans; [|apply IH]. etrans; [|apply quiet_drop_leases]. apply quiet_answer. by destruct k.
Qed.

(** A task that continues what it was waiting or voting for, or neither waits nor
    votes. *)
Definition quiet_task (t : Task) (o : option Task) : Prop :=
  match o with
  | Some (TWaiting q pc) =>
      channel_of pc = None ∨ ∃ q0 pc0, t = TWaiting q0 pc0 ∧ channel_of pc0 = channel_of pc ∧ q_id q0 = q_id q
  | Some (TCoordinate k p pc) =>
      voting_of pc = None ∨ ∃ k0 pc0, t = TCoordinate k0 p pc0 ∧ voting_of pc0 = voting_of pc
  | _ => True
  end.

(** What a step does to channels, to the members of pending proposals and to the
    request identities. *)
Record bookkeeping (t : Task) c (o : option Task) c' (outs : list Output) : Prop := {
  bk_next : next_channel c <= next_channel c';
  bk_task q pc ch : o = Some (TWaiting q pc) → channel_of pc = Some ch →
    (∃ q0 pc0, t = TWaiting q0 pc0 ∧ channel_of pc0 = Some ch ∧ q_id q0 = q_id q) ∨
    ch = next_channel c ∧ next_channel c < next_channel c';
  bk_waiter rid w : pending_callers c' !! rid = Some w →
    pending_callers c !! rid = Some w ∨
    sender w = next_channel c ∧ next_channel c < next_channel c' ∧
      ∀ q pc, o = Some (TWaiting q pc) → q_id q = rid;
  bk_sent ch r : channels c' !! ch = Some (Sent r) → success_reply r →
    (channels c !! ch = Some (Sent r) ∧ (next_channel c < next_channel c' → ch ≠ next_channel c)) ∨
    ∃ rid w, t = TTake WCaller rid r ∧ pending_callers c !! rid = Some w ∧ sender w = ch ∧
      next_channel c' = next_channel c;
  bk_votes key v' : pending_votes c' !! key = Some v' →
    (∃ v, pending_votes c !! key = Some v ∧ allowed_members v = allowed_members v') ∨
    ∃ k p v, o = Some (TCoordinate k p (RPoll v)) ∧ key = vote_key p ∧
      allowed_members v' = list_to_set (v_members v);
  bk_voting k p pc v v' : o = Some (TCoordinate k p pc) → voting_of pc = Some v →
    pending_votes c' !! vote_key p = Some v' →
    (∃ k0 pc0 v0, t = TCoordinate k0 p pc0 ∧ voting_of pc0 = Some v ∧
       pending_votes c !! vote_key p = Some v0 ∧ allowed_members v0 = allowed_members v') ∨
    allowed_members v' = list_to_set (v_members v);
  bk_requests :
    requests_of (pair c <$> outs) = [] ∧ next_request_id c' = next_request_id c ∨
    ∃ op, requests_of (pair c <$> outs) = [(next_request_id c, op)] ∧
      next_request_id c' = fetch_add1 (next_request_id c);
}.

Lemma quiet_bookkeeping t c o c' outs :
  quiet_state c c' → quiet_task t o → requests_of (pair c <$> outs) = [] → bookkeeping t c o c' outs.
Proof.
  intros [Hr Hc Hw Hs Hv] Ht Ho. split.
  - lia.
  - intros q pc ch -> Hch. left. destruct Ht as [?|(q0 & pc0 & -> & Heq & ?)]; [congruence|].
    exists q0, pc0. by rewrite Heq.
  - intros rid w Hl. left. eauto.
  - intros ch r Hl Hr'. left. split; [eauto|lia].
  - intros key v' Hl. left. eauto.
  - intros k p pc v v' -> Hpc Hl. left. destruct Ht as [?|(k0 & pc0 & -> & Heq)]; [congruence|].
    destruct (Hv _ _ Hl) as (v0 & ? & ?). exists k0, pc0, v0. by rewrite Heq.
  - by left.
Qed.

Definition step_bookkeeping (t : Task) c (s : Step) : Prop :=
  match s with
  | Next t' c' outs => bookkeeping t c (Some t') c' outs
  | Finished _ c' outs => bookkeeping t c None c' outs
  | _ => True
  end.

#[local] Hint Resolve quiet_drop_waiter_guard quiet_drop_vote_guard quiet_record_vote
  quiet_drain_votes quiet_drain_stale : lunatic.

(** The fields that [quiet_state] is about are the same. *)
Ltac same_state := by split; eauto.

Lemma quiet_lock tid i c c' : lock_stripe tid i c = Some c' → quiet_state c c'.
Proof. unfold lock_stripe. repeat case_match; intros [= <-]; same_state. Qed.

Lemma quiet_try_acquire c c' : try_acquire limits c = Some c' → quiet_state c c'.
Proof. intros (-> & _)%try_acquire_Some. same_state. Qed.

Lemma quiet_finish t c u r c' : quiet_state c c' → step_bookkeeping t c (unreg_finish u r c').
Proof.
  intros Hq. destruct u as [|? ? ? []]; simpl; repeat case_match; by apply quiet_bookkeeping.
Qed.

Lemma quiet_return t c k r c' : quiet_state c c' → step_bookkeeping t c (unreg_return k r c').
Proof. intros Hq. destruct k; simpl; [by apply quiet_finish|by apply quiet_bookkeeping..]. Qed.

Lemma quiet_enter t c k name expected ms allow c' :
  quiet_state c c' → step_bookkeeping t c (unreg_enter k name expected ms allow c').
Proof.
  intros Hq. unfold unreg_enter. case_match; [by apply quiet_bookkeeping|by apply quiet_return].
Qed.

Lemma quiet_wait_finish t c q r c' : quiet_state c c' → step_bookkeeping t c (wait_finish q r c').
Proof.
  intros Hq. unfold wait_finish. destruct (q_caller q); [|by apply quiet_bookkeeping|by apply quiet_finish
    |by apply quiet_bookkeeping]. destruct r as [[[]| |]|]; by apply quiet_bookkeeping.
Qed.

Lemma quiet_reg_finish t c k p r c' : quiet_state c c' → step_bookkeeping t c (reg_finish k p r c' []).
Proof. intros Hq. destruct k; [destruct r| |]; by apply quiet_bookkeeping. Qed.

Ltac quiet_step := apply quiet_bookkeeping; [same_state|try done|done].

(** The task goes on with its voting. *)
Ltac keep_voting := right; eauto.

Lemma propose_bookkeeping n tid o k p pc c :
  step_bookkeeping (TCoordinate k p pc) c (propose_step limits n tid o k p pc c).
Proof.
  destruct pc as [| | | |ms|ms|ms|ms token|ms token epoch| | | | | | | | |]; simpl; try done.
  - destruct (lock_stripe _ _ _) as [c'|] eqn:Hl; [|done]. apply quiet_lock in Hl.
    apply quiet_bookkeeping; [done|by left|done].
  - case_match; (apply quiet_bookkeeping; [done|by left|done]).
  - case_match; (apply quiet_bookkeeping; [done|by left|done]).
  - repeat case_match; (apply quiet_bookkeeping; [done|by left|done]).
  - destruct (try_acquire _ _) as [c'|] eqn:Ha; (apply quiet_bookkeeping; [|by left|done]);
      [by apply quiet_try_acquire|done].
  - destruct (try_acquire _ _) as [c'|] eqn:Ha; (apply quiet_bookkeeping; [|by left|done]);
      [by apply quiet_try_acquire|done].
  - apply quiet_bookkeeping; [same_state|by left|done].
  - apply quiet_bookkeeping; [done|by left|done].
  - case_match; [apply quiet_bookkeeping; [done|by left|done]|].
    split; simpl; try done.
    + by left.
    + intros ch r Hs _. left. split; [done|lia].
    + intros key v'. rewrite lookup_insert. case_decide; [|eauto]. intros [= <-]. right. simpl.
      eexists _, _, _. by split_and!.
    + intros ? p' pc v v' [= <- <- <-] [= <-]. rewrite lookup_insert_eq. intros [= <-]. by right.
    + by left.
Qed.

Lemma voting_bookkeeping n o k p pc c :
  step_bookkeeping (TCoordinate k p pc) c (voting_step n o k p pc c).
Proof.
  destruct pc as [| | | | | | | | |v| | | | |v todo|v|token r|[|m] r]; simpl; try done.
  - repeat case_match; (apply quiet_bookkeeping; [done| |done]); first [by left|keep_voting].
  - destruct todo as [|m todo]; (apply quiet_bookkeeping; [done|keep_voting|done]).
  - apply quiet_bookkeeping; [done|keep_voting|done].
  - apply quiet_bookkeeping; [auto with lunatic|by left|done].
  - apply quiet_reg_finish. same_state.
  - apply quiet_bookkeeping; [same_state|by left|done].
Qed.

Lemma commit_bookkeeping n o k p pc c :
  step_bookkeeping (TCoordinate k p pc) c (commit_step limits n o k p pc c).
Proof.
  destruct pc as [| | | | | | | | | |v|v at_ms todo|v|v| | | |]; simpl; try done.
  - repeat case_match; try done; (apply quiet_bookkeeping; [same_state| |done]);
      first [by left|keep_voting].
  - destruct todo as [|m todo]; repeat case_match; (apply quiet_bookkeeping; [done|keep_voting|done]).
  - repeat case_match; try done; (apply quiet_bookkeeping; [done| |done]); first [by left|keep_voting].
  - repeat case_match; try done. apply quiet_bookkeeping; [same_state|by left|done].
Qed.

Lemma coordinate_bookkeeping n tid o k p pc c :
  step_bookkeeping (TCoordinate k p pc) c (coordinate_step limits n tid o k p pc c).
Proof.
  destruct pc; first [apply propose_bookkeeping|apply voting_bookkeeping|apply commit_bookkeeping].
Qed.

Lemma insert_bookkeeping q token c :
  match insert_request q token c with
  | (Ok ch, c') => bookkeeping (TWaiting q (WInsert token)) c (Some (TWaiting q (WSend token ch))) c' []
  | (Err _, c') => bookkeeping (TWaiting q (WInsert token)) c (Some (TWaiting q WDropLease)) c' []
  end.
Proof.
  assert (insert_request q token c = insert_pending (q_kind q) (q_id q) (q_leader q) token c) as ->
    by (unfold insert_request; by destruct (q_kind q)).
  unfold insert_pending. set (c1 := mkCoordinator _ _ _ _ _ _ _ _ _ _ _ _ _).
  destruct (waiters (q_kind q) c1 !! q_id q) as [w|]; split; simpl; try lia; try by left.
  - by intros ? ? ? [= <- <-].
  - intros ch r. rewrite lookup_alter, !lookup_insert. repeat case_decide; try congruence; simpl; try done.
    left. split; [done|congruence].
  - by eauto.
  - by intros ? ? ? [= <- <-] [= <-]; right; split; [|lia].
  - intros rid w. case_decide as Hk; [|by left]. rewrite lookup_insert.
    case_decide; [|rewrite Hk; by left]. intros [= <-]. right. split_and!; [done|lia|]. intros ? ? [= <- <-]. done.
  - intros ch r. rewrite lookup_insert. case_decide; [done|]. left. split; [done|congruence].
  - by eauto.
Qed.

Lemma wait_bookkeeping o q pc c : step_bookkeeping (TWaiting q pc) c (wait_step limits o q pc c).
Proof.
  destruct pc as [| |token| |token ch|token ch|token r]; simpl.
  - destruct (try_acquire _ _) as [c'|] eqn:Ha; [|by apply quiet_wait_finish].
    apply quiet_bookkeeping; [by apply quiet_try_acquire|by left|done].
  - apply quiet_bookkeeping; [same_state|by left|done].
  - pose proof (insert_bookkeeping q token c) as Hb. by destruct (insert_request q token c) as [[ch|e] c'].
  - apply quiet_wait_finish. auto with lunatic.
  - apply quiet_bookkeeping; [done| |done]. destruct (send_result o); [right; eauto|by left].
  - repeat case_match; try done; (apply quiet_bookkeeping; [done|by left|done]).
  - apply quiet_wait_finish. auto with lunatic.
Qed.

(** A request identity is taken; the rest is quiet. *)
Lemma request_bookkeeping t c o op :
  match o with
  | Some (TWaiting _ pc) => channel_of pc = None
  | Some (TCoordinate _ _ pc) => voting_of pc = None
  | _ => True
  end →
  ∀ outs, requests_of (pair c <$> outs) = [(next_request_id c, op)] →
  bookkeeping t c o (set_request_id (fetch_add1 (next_request_id c)) c) outs.
Proof.
  intros Ho outs Houts.
  assert (quiet_state c c) as Hq by reflexivity. split; simpl; try lia; try by left.
  - intros q pc ch -> ?. congruence.
  - intros ch r Hs _. left. split; [done|lia].
  - by eauto.
  - intros k p pc v v' -> ?. congruence.
  - by eauto.
Qed.

Lemma handle_bookkeeping n tid o source m c :
  step_bookkeeping (THandle source m) c (handle_message limits n tid o source m c).
Proof.
  destruct m as [p|p|rid requester responder r|rid r|name pid at_ms|rid requester name expected|rid r
    |name expected|rid requester|rid es|m ts]; simpl; unfold take_waiter;
    try (repeat case_match; apply quiet_bookkeeping; by try apply quiet_state_preorder).
  - case_match; [by apply quiet_bookkeeping|]. destruct (leader _ _ _); [|by apply quiet_bookkeeping].
    case_match; [|by apply quiet_bookkeeping]. unfold coordinate_registration. case_match.
    + apply quiet_bookkeeping; [done|by left|done].
    + by apply quiet_reg_finish.
  - case_match; [by apply quiet_bookkeeping|].
    pose proof (quiet_record_vote requester rid responder r c) as Hq.
    destruct (record_vote _ _ _ _ _ _) as [[] c']; by apply quiet_bookkeeping.
  - unfold sync_response. repeat case_match; try done; try by apply quiet_bookkeeping.
    quiet_step.
Qed.

Lemma take_bookkeeping k rid r c :
  (success_reply r → k = WCaller) → step_bookkeeping (TTake k rid r) c (take k rid r c).
Proof.
  intros Hk. unfold take. destruct (waiters k c !! rid) as [w|] eqn:Hw; [|by apply quiet_bookkeeping].
  split; simpl; try done; try by left.
  - intros rid' w'. case_decide; [subst k; intros [_ ?]%lookup_delete_Some; by left|by left].
  - intros ch r'. rewrite lookup_insert. case_decide as Hch; [|intros Hs _; left; split; [done|lia]].
    intros [= <-] Hr. right. rewrite (Hk Hr) in *. by exists rid, w.
  - by eauto.
Qed.

Lemma task_step_bookkeeping n tid o t c :
  (∀ k rid r, t = TTake k rid r → success_reply r → k = WCaller) →
  step_bookkeeping t c (task_step limits n tid o t c).
Proof.
  intros Htake. assert (quiet_state c c) as Hq by reflexivity.
  destruct t; simpl; try by apply quiet_bookkeeping.
  - unfold register_step. repeat case_match; by apply quiet_bookkeeping.
  - unfold register_members_step. destruct (members _ _ _) as [[|l [|l' ms]]|]; try by apply quiet_bookkeeping.
    case_match; [|by eapply request_bookkeeping]. unfold coordinate_registration.
    case_match; by eapply request_bookkeeping.
  - destruct pc; simpl; try (repeat case_match; quiet_step).
    destruct (lock_stripe _ _ _) as [c'|] eqn:Hl; [|done]. apply quiet_lock in Hl. by apply quiet_bookkeeping.
  - apply coordinate_bookkeeping.
  - unfold unregister_step. repeat case_match; first [by apply quiet_finish|by apply quiet_bookkeeping].
  - unfold unregister_members_step. destruct (members _ _ _) as [[|l [|l' ms]]|]; try by apply quiet_bookkeeping.
    2: by apply quiet_finish. case_match; [by apply quiet_enter|by eapply request_bookkeeping].
  - destruct pc as [allow|allow|ms allow|ms allow|ms|[|m todo]|r]; simpl; try by apply quiet_bookkeeping.
    + case_match; [by apply quiet_bookkeeping|by apply quiet_enter].
    + destruct (members _ _ _) as [ms|[]]; first [by apply quiet_enter|by apply quiet_return].
    + destruct (lock_stripe _ _ _) as [c'|] eqn:Hl; [|done]. apply quiet_lock in Hl. by apply quiet_bookkeeping.
    + repeat case_match; by apply quiet_bookkeeping.
    + repeat case_match; try done; quiet_step.
    + apply quiet_return. same_state.
  - unfold unregister_process_registrations. case_match; [by apply quiet_bookkeeping|].
    destruct (global_names_for_process _ _); by apply quiet_bookkeeping.
  - unfold synchronize_from_coordinator. destruct (leader _ _ _); [|by apply quiet_bookkeeping].
    case_match; [by apply quiet_bookkeeping|by eapply request_bookkeeping].
  - apply wait_bookkeeping.
  - apply handle_bookkeeping.
  - unfold prepare_lookup. repeat case_match; by apply quiet_bookkeeping.
  - unfold prepare_check. repeat case_match; by apply quiet_bookkeeping.
  - unfold take_leader. repeat case_match; by apply quiet_bookkeeping.
  - apply take_bookkeeping. by eapply Htake.
  - unfold handle_register_notify. repeat case_match; quiet_step.
  - unfold handle_unregister_notify. repeat case_match; try done; quiet_step.
  - unfold handle_sync_response. case_match. quiet_step.
  - apply quiet_bookkeeping; [|done|done]. etrans; [|apply quiet_drop_leases]. by apply quiet_answer.
  - destruct pc as [|[|m todo] cleaned|cleaned|k cleaned]; simpl.
    + case_match; [done|quiet_step].
    + by apply quiet_bookkeeping.
    + repeat case_match; try done. quiet_step.
    + apply quiet_bookkeeping; [auto with lunatic|done|done].
    + pose proof (quiet_drain_stale k active (bool_decide (removed ≠ [])) c) as Hd.
      destruct k; (apply quiet_bookkeeping; [|done|done]); try done.
      etrans; [exact Hd|same_state].
  - unfold cleanup_node_registrations. repeat case_match; try done; quiet_step.
Qed.

(** ** Preservation *)

Lemma requests_step n c ts h t o c' outs ts' :
  requests_ok n (mkNode c ts h) → bookkeeping t c o c' outs →
  requests_ok n (mkNode c' ts' (h ++ (pair c <$> outs))).
Proof.
  intros [Hnext Hids] Hb. unfold requests_ok, requests_of in *. simpl in *. rewrite omap_app.
  destruct (bk_requests _ _ _ _ _ Hb) as [[Ho Hn]|(p & Ho & Hn)]; unfold requests_of in Ho; rewrite Ho, Hn.
  - by rewrite app_nil_r.
  - split.
    + rewrite length_app, Hnext. unfold fetch_add1. rewrite Zplus_mod_idemp_l. simpl. f_equal. lia.
    + intros i rid o'. rewrite lookup_app_Some. intros [Hi|[Hle Hi]]; [by eapply Hids|].
      destruct (i - length _)%nat as [|k] eqn:Hk; [|by destruct k]. simpl in Hi. injection Hi as <- _.
      rewrite Hnext. f_equal. lia.
Qed.

Lemma message_ok_mono K K' source target m :
  extends K K' → message_ok K source target m → message_ok K' source target m.
Proof.
  intros HK. destruct m; simpl; try done; try by apply issued_mono.
  - intros H Hr. destruct (H Hr) as (p & ? & ? & ?).
    exists p. split_and!; [done|by eapply issued_mono|by eapply validated_mono].
  - intros H Hr. by eapply won_mono, H.
Qed.

Lemma output_ok_mono K K' n c out : extends K K' → output_ok K n c out → output_ok K' n c out.
Proof.
  intros HK. destruct out as [rid [p|]|target m| | |]; simpl; try done.
  - by apply message_ok_mono.
  - by apply committed_mono.
Qed.

Lemma reg_pc_ok_mono K K' n p pc : extends K K' → reg_pc_ok K n p pc → reg_pc_ok K' n p pc.
Proof.
  intros HK [Hms Hpc]. split; [done|]. destruct pc; try done; try by eapply committed_mono.
  - by eapply majority_mono.
  - intros Hr. by eapply committed_mono, Hpc.
  - intros Hr. by eapply committed_mono, Hpc.
Qed.

Lemma request_ok_mono K K' n q : extends K K' → request_ok K n q → request_ok K' n q.
Proof.
  intros HK [Hm Hq]. split; [by eapply message_ok_mono|]. intros p Hp.
  destruct (Hq p Hp) as (? & ? & ?). split_and!; [done|done|by eapply issued_mono].
Qed.

Lemma task_ok_mono K K' n t : extends K K' → task_ok K n t → task_ok K' n t.
Proof.
  intros HK. destruct t; simpl; try done; try by apply issued_mono.
  - intros [? ?]. split; [by eapply issued_mono|by eapply reg_pc_ok_mono].
  - intros [? Hpc]. split; [by eapply request_ok_mono|]. destruct pc as [| | | | | |? []]; try done.
    intros Hr. by eapply won_mono, Hpc.
  - by apply message_ok_mono.
  - by apply message_ok_mono.
  - intros H Hr. destruct (H Hr). split; [done|by eapply won_mono].
  - intros H Hr. destruct (H Hr). split; [done|by eapply won_mono].
Qed.

Lemma votes_ok_mono K K' n c : extends K K' → votes_ok K n c → votes_ok K' n c.
Proof.
  intros HK Hv key v Hk. destruct (Hv key v Hk) as [? Hs]. split; [done|].
  intros m Hm. destruct (Hs m Hm) as [?|(p & ? & ? & ?)]; [by left|right].
  exists p. split_and!; [done|by eapply issued_mono|by eapply validated_mono].
Qed.

Lemma channels_ok_mono K K' n N : extends K K' → channels_ok K n N → channels_ok K' n N.
Proof.
  intros HK [? ? Hs]. split; [done|done|]. intros. eapply won_mono; [done|]. by eapply Hs.
Qed.

Lemma cluster_node_ok_mono K K' n N : extends K K' → cluster_node_ok K n N → cluster_node_ok K' n N.
Proof.
  intros HK []. split; try done; eauto using task_ok_mono, output_ok_mono, votes_ok_mono, channels_ok_mono.
Qed.

(** A task of the new state is the one that moved, or was there before. *)
Lemma alter_task (ts : gmap Z Task) tid tid' o (t : Task) :
  partial_alter (fun _ => o) tid ts !! tid' = Some t → tid' = tid ∧ o = Some t ∨ tid' ≠ tid ∧ ts !! tid' = Some t.
Proof.
  destruct (decide (tid' = tid)) as [->|Hne]; [rewrite lookup_partial_alter_eq; by left|].
  rewrite lookup_partial_alter_ne by done. by right.
Qed.

Lemma channels_step K n c ts h h' tid t o c' outs :
  channels_ok K n (mkNode c ts h) → ts !! tid = Some t → task_ok K n t → bookkeeping t c o c' outs →
  channels_ok K n (mkNode c' (partial_alter (fun _ => o) tid ts) h').
Proof.
  intros [Htask Hwait Hsent] Ht Hok Hb. simpl in *. pose proof (bk_next _ _ _ _ _ Hb) as Hnext.
  split; simpl.
  - intros tid' q pc ch [[-> ->]|[_ Hl]]%alter_task Hch.
    + destruct (bk_task _ _ _ _ _ Hb q pc ch eq_refl Hch) as [(q0 & pc0 & -> & ? & _)|[-> ?]]; [|lia].
      eapply Z.lt_le_trans; [by eapply Htask|done].
    + eapply Z.lt_le_trans; [by eapply Htask|done].
  - intros rid w Hw. destruct (bk_waiter _ _ _ _ _ Hb rid w Hw) as [Hold|(Hs & Hlt & Hid)].
    + destruct (Hwait rid w Hold) as [Hlt Hids]. split; [lia|].
      intros tid' q pc [[-> ->]|[_ Hl]]%alter_task Hch; [|by eapply Hids].
      destruct (bk_task _ _ _ _ _ Hb q pc _ eq_refl Hch) as [(q0 & pc0 & -> & ? & <-)|[? _]]; [|lia].
      by eapply Hids.
    + split; [lia|]. intros tid' q pc [[-> ->]|[_ Hl]]%alter_task Hch; [by eapply Hid|].
      specialize (Htask tid' q pc _ Hl Hch). lia.
  - intros tid' q pc ch r Hl Hch Hs Hr. destruct (bk_sent _ _ _ _ _ Hb ch r Hs Hr) as [[Hold Hne]|Htake].
    + apply alter_task in Hl as [[-> ->]|[_ Hl]]; [|by eapply Hsent].
      destruct (bk_task _ _ _ _ _ Hb q pc ch eq_refl Hch) as [(q0 & pc0 & -> & ? & <-)|[-> Hlt]];
        [by eapply Hsent|by destruct (Hne Hlt)].
    + destruct Htake as (rid & w & -> & Hw & <- & Heq). destruct (Hwait rid w Hw) as [Hlt Hids].
      destruct (Hok Hr) as [_ Hwon].
      apply alter_task in Hl as [[-> ->]|[_ Hl]]; [|by rewrite (Hids tid' q pc Hl Hch)].
      destruct (bk_task _ _ _ _ _ Hb q pc _ eq_refl Hch) as [(? & ? & [=] & _)|[? ?]]. lia.
Qed.

Lemma members_step K n c ts h h' tid t o c' outs :
  (∀ p p', issued K p → issued K p' → vote_key p = vote_key p' → p = p') →
  members_ok (mkNode c ts h) → ts !! tid = Some t → bookkeeping t c o c' outs →
  node_ok limits (mkNode c' (partial_alter (fun _ => o) tid ts) h') →
  (∀ tid' t', partial_alter (fun _ => o) tid ts !! tid' = Some t' → task_ok K n t') →
  members_ok (mkNode c' (partial_alter (fun _ => o) tid ts) h').
Proof.
  intros Huniq Hmem Ht Hb Hnode Htasks tid' k p pc v votes' Hl Hpc Hvotes. simpl in *.
  destruct (alter_task _ _ _ _ _ Hl) as [[-> ->]|[Hne Hold]].
  - destruct (bk_voting _ _ _ _ _ Hb k p pc v votes' eq_refl Hpc Hvotes)
      as [(k0 & pc0 & v0 & -> & Hpc0 & Hv0 & <-)|?]; [|done]. by eapply Hmem.
  - destruct (bk_votes _ _ _ _ _ Hb _ _ Hvotes) as [(v0 & Hv0 & <-)|(k1 & p1 & v1 & -> & Hkey & Hall)];
      [by eapply Hmem|]. exfalso.
    assert (partial_alter (fun _ => Some (TCoordinate k1 p1 (RPoll v1))) tid ts !! tid
            = Some (TCoordinate k1 p1 (RPoll v1))) as Hl1 by by rewrite lookup_partial_alter_eq.
    destruct (Htasks _ _ Hl) as [Hi _]. destruct (Htasks _ _ Hl1) as [Hi1 _].
    assert (p1 = p) as -> by by apply Huniq.
    assert (f_stripe (footprint (TCoordinate k p pc)) = Some (proposed_name p)) as Hst
      by (by destruct pc).
    pose proof (ok_stripes _ _ Hnode) as Hs. simpl in Hs.
    assert (name_locks c' !! stripe (proposed_name p) c' = Some (Some tid)) as H1
      by (apply Hs; eexists _, _; by split_and!).
    assert (name_locks c' !! stripe (proposed_name p) c' = Some (Some tid')) as H2
      by (apply Hs; eexists _, _; by split_and!). congruence.
Qed.

Lemma few_requests_mono K K' : extends K K' → few_requests K' → few_requests K.
Proof.
  intros HK Hfew n N HN. destruct (HK n N HN) as (N' & HN' & [l Hl]). specialize (Hfew n N' HN').
  rewrite Hl in Hfew. unfold requests_of in *. rewrite omap_app, length_app in Hfew. lia.
Qed.

Lemma extends_insert K n N N' :
  K !! n = Some N → history N `prefix_of` history N' → extends K (<[n := N']> K).
Proof.
  intros HN Hsub m M HM. destruct (decide (m = n)) as [->|Hne].
  - rewrite lookup_insert_eq. exists N'. split; [done|congruence].
  - rewrite lookup_insert_ne by done. by exists M.
Qed.

(** A task moves on node [n]. *)
Lemma cluster_move K n c ts h tid t o c' outs K' :
  cluster_ok K → K !! n = Some (mkNode c ts h) → ts !! tid = Some t →
  K' = <[n := mkNode c' (partial_alter (fun _ => o) tid ts) (h ++ (pair c <$> outs))]> K →
  few_requests K' →
  effect limits tid (footprint t) c (footprint_of o) c' → bookkeeping t c o c' outs →
  (votes_ok K' n c → task_ok K' n t →
   (∀ p p', issued K' p → issued K' p' → vote_key p = vote_key p' → p = p') →
   (∀ out, out ∈ outs → showed K' n c out) →
   (∀ t', o = Some t' → task_ok K' n t') ∧ (∀ out, out ∈ outs → output_ok K' n c out) ∧
   votes_ok K' n c') →
  cluster_ok K'.
Proof.
  intros Hok HN Ht HK' Hfew He Hb Hsound. destruct (Hok n _ HN) as [Hnode Htasks Hhist Hvotes Hmem Hch Hreq].
  assert (extends K K') as Hext by (subst K'; eapply extends_insert; [done|by eexists]).
  pose proof (requests_step _ _ _ _ _ _ _ _ (partial_alter (fun _ => o) tid ts) Hreq Hb) as Hreq'.
  assert (∀ m M, K' !! m = Some M → requests_ok m M) as Hreqs.
  { intros m M HM. subst K'. rewrite lookup_insert in HM. case_decide; simplify_eq; [done|].
    by destruct (Hok m M HM). }
  pose proof (issued_unique K' ) as Huniq.
  assert (∀ p p', issued K' p → issued K' p' → vote_key p = vote_key p' → p = p') as Hu
    by (intros; by apply Huniq).
  assert (∀ out, out ∈ outs → showed K' n c out) as Hshow.
  { intros out Hin. subst K'. eexists. rewrite lookup_insert_eq. split; [done|]. simpl.
    apply elem_of_app. right. apply list_elem_of_fmap. eauto. }
  destruct Hsound as (Ht' & Hout & Hvotes'); [by eapply votes_ok_mono|by eapply task_ok_mono, Htasks|done|done|].
  assert (∀ tid' t', partial_alter (fun _ => o) tid ts !! tid' = Some t' → task_ok K' n t') as Htasks'.
  { intros tid' t' [[_ ->]|[_ Hl]]%alter_task; [by apply Ht'|]. by eapply task_ok_mono, Htasks. }
  assert (node_ok limits (mkNode c' (partial_alter (fun _ => o) tid ts) (h ++ (pair c <$> outs)))) as Hnode'
    by exact (node_ok_alter limits c ts h _ tid t o c' Hnode Ht He).
  intros m M HM. rewrite HK' in HM. rewrite lookup_insert in HM. case_decide; simplify_eq.
  2: by eapply cluster_node_ok_mono, Hok.
  split; simpl; try done.
  - intros c0 out [Hin|Hin]%elem_of_app; [by eapply output_ok_mono, Hhist|].
    apply list_elem_of_fmap in Hin as (out' & [= -> ->] & Hin). by apply Hout.
  - eapply members_step; eauto.
  - eapply channels_step; [by eapply channels_ok_mono|done|by eapply task_ok_mono, Htasks|done].
Qed.

(** The start of a task. *)
Lemma cluster_start_task K n c ts h tid t :
  cluster_ok K → K !! n = Some (mkNode c ts h) → ts !! tid = None →
  may_start (fun source m => sent K source n m) t →
  cluster_ok (<[n := mkNode c (<[tid := t]> ts) h]> K).
Proof.
  intros Hok HN Ht Hm. destruct (Hok n _ HN) as [Hnode Htasks Hhist Hvotes Hmem Hch Hreq].
  set (K' := <[n := _]> K). assert (extends K K') as Hext by by eapply extends_insert.
  assert (task_ok K n t) as Hok'.
  { destruct t; try done. simpl in Hm. destruct Hm as (S & c0 & HS & Hin).
    by apply (cn_history _ _ _ (Hok _ _ HS)) in Hin. }
  assert (∀ tid' t', <[tid := t]> ts !! tid' = Some t' → t' = t ∨ ts !! tid' = Some t') as Hl.
  { intros tid' t'. rewrite lookup_insert. case_decide; [intros [= <-]; by left|by right]. }
  assert (match t with TCoordinate _ _ _ | TWaiting _ _ => False | _ => True end) as Hkind by by destruct t.
  intros m M HM. unfold K' in HM. rewrite lookup_insert in HM. case_decide; simplify_eq.
  2: by eapply cluster_node_ok_mono, Hok.
  eapply cluster_node_ok_mono; [done|]. destruct Hch as [Hc1 Hc2 Hc3]. simpl in *. split; simpl; try done.
  - apply node_ok_start; [done|done|by eapply may_start_idle].
  - intros tid' t' [->|?]%Hl; [done|by eapply Htasks].
  - intros tid' k p pc v votes [<-|Hl']%Hl; [done|]. by eapply Hmem.
  - split; simpl.
    + intros tid' q pc ch [<-|Hl']%Hl; [done|]. by eapply Hc1.
    + intros rid w Hw. destruct (Hc2 rid w Hw) as [? Hids]. split; [done|].
      intros tid' q pc [<-|Hl']%Hl; [done|]. by eapply Hids.
    + intros tid' q pc ch r [<-|Hl']%Hl; [done|]. by eapply Hc3.
Qed.

(** The facts that a step of a task needs hold in the invariant. *)
Lemma cluster_task_step K n c ts h tid t o K' :
  cluster_ok K → extends K K' → K !! n = Some (mkNode c ts h) → ts !! tid = Some t → oracle_ok o →
  votes_ok K' n c → task_ok K' n t →
  (∀ p p', issued K' p → issued K' p' → vote_key p = vote_key p' → p = p') →
  sound K' n c (task_step limits n tid o t c).
Proof.
  intros Hok Hext HN Ht Ho Hv Hto Hu. destruct (Hok n _ HN) as [_ _ _ _ Hmem Hch _].
  apply task_step_sound; try done.
  - intros k p pc v votes ->. by eapply Hmem.
  - intros q token ch r ->. intros. eapply won_mono; [done|]. eapply (ch_sent _ _ _ Hch); try done.
Qed.

Lemma cancel_facts K n t rest c :
  cancel t = Some rest → task_ok K n t →
  (∀ t', rest = Some t' → task_ok K n t') ∧ bookkeeping t c rest c [].
Proof.
  intros Hc Ht. assert (quiet_task t rest → bookkeeping t c rest c []) as Hb by (intros; by apply quiet_bookkeeping).
  destruct t as [| |? ? ? pc|? p pc| | |? ? ? pc| | |q pc| | | | | | | | | | | | |]; try done;
    try destruct pc; simplify_eq/=; split; try done; try (by apply Hb; try left).
  all: intros t' [= <-]; try done; destruct Ht as [Ha _].
  all: first [by split; [exact Ha|split]|split; [split; [apply Ha|done]|done]].
Qed.

Lemma cluster_step_ok K K' :
  limits_ok limits → cluster_ok K → few_requests K' → cluster_step limits K K' → cluster_ok K'.
Proof.
  intros Hlimits Hok Hfew Hstep. destruct Hstep as [K n N N' HN Hstep].
  pose proof (cn_node _ _ _ (Hok n N HN)) as Hnode.
  destruct Hstep as [c ts h tid t Ht Hm|c ts h tid t o t' c' outs Ht Ho Hst
    |c ts h tid t o v c' outs Ht Ho Hst|c ts h tid t rest Ht Hc].
  - by apply cluster_start_task.
  - pose proof (task_step_effect limits n Hlimits tid o t c (node_ok_ready _ _ _ _ Hnode Ht)) as He.
    pose proof (task_step_bookkeeping n tid o t c) as Hb. rewrite Hst in He, Hb.
    eapply (cluster_move K n c ts h tid t (Some t') c' outs); try done.
    + apply Hb. intros k rid r ->. intros Hr. by apply (cn_tasks _ _ _ (Hok n _ HN) _ _ Ht).
    + intros Hv Hto Hu Hshow.
      epose proof (cluster_task_step K n c ts h tid t o _ Hok _ HN Ht Ho Hv Hto Hu) as Hs.
      Unshelve. 2: by eapply extends_insert; [done|by eexists].
      rewrite Hst in Hs. destruct (Hs Hshow) as (? & ? & ?). split_and!; try done. by intros ? [= <-].
  - pose proof (task_step_effect limits n Hlimits tid o t c (node_ok_ready _ _ _ _ Hnode Ht)) as He.
    pose proof (task_step_bookkeeping n tid o t c) as Hb. rewrite Hst in He, Hb.
    eapply (cluster_move K n c ts h tid t None c' outs); try done.
    + apply Hb. intros k rid r ->. intros Hr. by apply (cn_tasks _ _ _ (Hok n _ HN) _ _ Ht).
    + intros Hv Hto Hu Hshow.
      epose proof (cluster_task_step K n c ts h tid t o _ Hok _ HN Ht Ho Hv Hto Hu) as Hs.
      Unshelve. 2: by eapply extends_insert; [done|by eexists].
      rewrite Hst in Hs. by destruct (Hs Hshow) as (? & ?).
  - pose proof (cn_tasks _ _ _ (Hok n _ HN) _ _ Ht) as Hto.
    eapply (cluster_move K n c ts h tid t rest c []); try done.
    + by rewrite app_nil_r.
    + eapply cancel_effect; [|done]. by eapply (node_ok_ready _ _ _ _ Hnode).
    + by eapply cancel_facts.
    + intros Hv Hto' _ _. split_and!; [|by intros ? ?%not_elem_of_nil|done].
      by eapply (cancel_facts _ _ _ _ c).
Qed.

Lemma cluster_step_extends K K' : cluster_step limits K K' → extends K K'.
Proof.
  destruct 1 as [K n N N' HN Hstep]. eapply extends_insert; [done|].
  destruct Hstep; simpl; try done; by eexists.
Qed.

Lemma cluster_start_ok K :
  limits_ok limits → 0 <= max_pending_responses limits → cluster_start limits K → cluster_ok K.
Proof.
  intros Hlimits Hmax Hstart n N HN. destruct (Hstart n N HN) as [stripes ->].
  split; simpl.
  - by apply new_node_ok.
  - intros tid t. by rewrite lookup_empty.
  - intros c out Hin. by apply not_elem_of_nil in Hin.
  - intros key v. simpl. by rewrite lookup_empty.
  - intros tid k p pc v votes. simpl. by rewrite lookup_empty.
  - split; simpl; intros *; by rewrite lookup_empty.
  - by split; [|intros i rid o].
Qed.

Lemma reachable_cluster_ok K K' :
  limits_ok limits → 0 <= max_pending_responses limits → cluster_start limits K →
  rtc (cluster_step limits) K K' → few_requests K' → cluster_ok K'.
Proof.
  intros Hlimits Hmax Hstart. revert K'.
  apply (rtc_ind_r (fun K' => few_requests K' → cluster_ok K') K).
  - intros _. by apply cluster_start_ok.
  - intros K1 K2 _ Hstep IH Hfew. eapply cluster_step_ok; [done| |done|done]. apply IH.
    eapply few_requests_mono; [by eapply cluster_step_extends|done].
Qed.
End cluster.

(** ** When a commit was made *)

(** What a step shows. *)
Definition outs_of (s : Step) : list Output :=
  match s with Next _ _ outs | Finished _ _ outs => outs | _ => [] end.

(** [K0] steps to [K1] by the step in which node [leader] commits [p]: it is the step of a
    task that has counted the votes, in the topology of the proposal, and after it the name
    belongs to the process. *)
Definition commits (limits : RegistryLimits) (K0 K1 : gmap Z Node) (leader : Z) (p : Proposal) (v : Voting) : Prop :=
  cluster_step limits K0 K1 ∧
  ∃ N0 N1 tid k, K0 !! leader = Some N0 ∧ K1 !! leader = Some N1 ∧
    tasks N0 !! tid = Some (TCoordinate k p (RCommit v)) ∧ topology_epoch (coordinator N0) = v_epoch v ∧
    global_pid <$> lookup_global (proposed_name p) (registry (coordinator N1)) = Some (proposed_pid p).

(** The call that a task ends, when it registers through a proposal. *)
Definition proposal_of (t : Task) : option Proposal :=
  match t with
  | TCoordinate KCall p _ => Some p
  | TWaiting q _ => match q_caller q with CRegister p => Some p | _ => None end
  | _ => None
  end.

Section commits.
Context (limits : RegistryLimits).
Implicit Types (K : gmap Z Node) (p : Proposal) (c : Coordinator).

Lemma unreg_finish_outs u r c out : out ∉ outs_of (unreg_finish u r c).
Proof. destruct u as [|? ? ? []]; simpl; repeat case_match; apply not_elem_of_nil. Qed.

Lemma unreg_return_outs k r c out : out ∉ outs_of (unreg_return k r c).
Proof. destruct k; simpl; [apply unreg_finish_outs|apply not_elem_of_nil..]. Qed.

Lemma unreg_enter_outs k name expected ms allow c out : out ∉ outs_of (unreg_enter k name expected ms allow c).
Proof. unfold unreg_enter. case_match; [apply not_elem_of_nil|apply unreg_return_outs]. Qed.

Lemma wait_finish_outs q r c out : out ∉ outs_of (wait_finish q r c).
Proof.
  unfold wait_finish. destruct (q_caller q); try apply unreg_finish_outs; repeat case_match; apply not_elem_of_nil.
Qed.

Lemma coordinate_registration_outs k p c outs : outs_of (coordinate_registration k p c outs) = outs.
Proof. unfold coordinate_registration. case_match; [done|]. by destruct k. Qed.

(** A step shows no commit. *)
Definition silent (s : Step) : Prop := ∀ p v at_ms, OCommitted p v at_ms ∉ outs_of s.

Ltac silent :=
  repeat case_match; simplify_eq; intros ? ? ?;
  rewrite ?coordinate_registration_outs; simpl;
  first [apply unreg_finish_outs|apply unreg_return_outs|apply unreg_enter_outs|apply wait_finish_outs|set_solver].

Lemma handle_silent n tid o source m c : silent (handle_message limits n tid o source m c).
Proof.
  destruct m; simpl; unfold take_waiter, sync_response, denied, handled; try silent.
Qed.

Lemma task_silent n tid o t c :
  match t with TCoordinate _ _ (RCommit _) => False | _ => True end → silent (task_step limits n tid o t c).
Proof.
  intros Ht. destruct t; simpl.
  - unfold register_step. silent.
  - unfold register_members_step. silent.
  - unfold single_step, lock_stripe. silent.
  - destruct pc; try done; simpl; unfold reg_finish; silent.
  - unfold unregister_step. silent.
  - unfold unregister_members_step. silent.
  - destruct pc as [| | | | |[]|]; simpl; silent.
  - unfold unregister_process_registrations, unreg_next. silent.
  - unfold synchronize_from_coordinator. silent.
  - destruct pc; simpl; silent.
  - apply handle_silent.
  - unfold prepare_lookup, vote. silent.
  - unfold prepare_check, vote. silent.
  - silent.
  - unfold take_leader, denied, handled. silent.
  - unfold take, handled. silent.
  - unfold handle_register_notify, handled. silent.
  - unfold handle_unregister_notify, handled. silent.
  - silent.
  - unfold handle_sync_response. silent.
  - silent.
  - destruct pc as [|[]| |]; simpl; silent.
  - unfold cleanup_node_registrations. silent.
Qed.

Lemma apply_global_owner name pid at_ms st r st' :
  apply_global limits name pid at_ms st = (Ok r, st') → global_pid <$> lookup_global name st' = Some pid.
Proof.
  unfold apply_global, lookup_global. repeat case_match; intros [= _ <-]; simpl; by rewrite lookup_insert_eq.
Qed.

Lemma commit_shown n tid o t c p v at_ms :
  OCommitted p v at_ms ∈ outs_of (task_step limits n tid o t c) →
  ∃ k t' c', t = TCoordinate k p (RCommit v) ∧ topology_epoch c = v_epoch v ∧
    task_step limits n tid o t c = Next t' c' [OCommitted p v at_ms] ∧
    global_pid <$> lookup_global (proposed_name p) (registry c') = Some (proposed_pid p).
Proof.
  intros Hin. destruct t as [| | |k p0 pc| | | | | | | | | | | | | | | | | | |];
    try (exfalso; revert Hin; by apply task_silent).
  destruct pc as [| | | | | | | | | | | |v0| | | | |]; try (exfalso; revert Hin; by apply task_silent).
  simpl in *. case_bool_decide; [set_solver|]. destruct (topology_epoch c =? v_epoch v0) eqn:He; [|simpl in Hin; set_solver].
  simpl in *. destruct (apply_global _ _ _ _ _) as [[r|] reg] eqn:Ha; simpl in *; [|set_solver].
  apply list_elem_of_singleton in Hin as [= -> -> ->]. bool_to_prop. do 3 eexists. split_and!; [done..|].
  by eapply apply_global_owner.
Qed.

(** Whatever is in a history was shown by a step of the execution. *)
Lemma commit_step_of K K1 leader c p v at_ms :
  cluster_start limits K → rtc (cluster_step limits) K K1 → showed K1 leader c (OCommitted p v at_ms) →
  ∃ K0 K0', rtc (cluster_step limits) K K0 ∧ commits limits K0 K0' leader p v ∧ rtc (cluster_step limits) K0' K1.
Proof.
  intros Hstart. revert K1.
  apply (rtc_ind_r (fun K1 => showed K1 leader c (OCommitted p v at_ms) → ∃ K0 K0', rtc (cluster_step limits) K K0 ∧
    commits limits K0 K0' leader p v ∧ rtc (cluster_step limits) K0' K1)).
  - intros (N & HN & Hin). destruct (Hstart _ _ HN) as [b ->]. by apply not_elem_of_nil in Hin.
  - intros K1 K2 H1 Hstep IH (N2 & HN2 & Hin).
    assert (showed K1 leader c (OCommitted p v at_ms) ∨ commits limits K1 K2 leader p v) as [Hold|Hnew].
    2: { destruct (IH Hold) as (K0 & K0' & ? & ? & ?). exists K0, K0'. split_and!; [done|done|]. by eapply rtc_r. }
    2: { by exists K1, K2. }
    destruct (Hstep) as [K1 n N N' HN Hs]. destruct (decide (n = leader)) as [->|Hne].
    2: { left. exists N2. by rewrite lookup_insert_ne in HN2. }
    rewrite lookup_insert_eq in HN2. injection HN2 as <-.
    assert (∀ c0 ts h t o tid ts' c1 outs, N = mkNode c0 ts h → N' = mkNode c1 ts' (h ++ (pair c0 <$> outs)) →
      ts !! tid = Some t → outs = outs_of (task_step limits leader tid o t c0) →
      (∀ t' c' l, task_step limits leader tid o t c0 = Next t' c' l → c' = c1) →
      showed K1 leader c (OCommitted p v at_ms) ∨ commits limits K1 (<[leader := N']> K1) leader p v) as Hcase.
    { intros c0 ts h t o tid ts' c1 outs -> -> Ht -> Hc1. simpl in Hin.
      apply elem_of_app in Hin as [Hin|Hin]; [left; by exists (mkNode c0 ts h)|right].
      apply list_elem_of_fmap in Hin as (out & [= -> <-] & Hin). split; [done|].
      apply commit_shown in Hin as (k & t' & c' & -> & He & Hn & Ho). pose proof (Hc1 _ _ _ Hn) as ->.
      eexists _, _, tid, k. split_and!; [done|by rewrite lookup_insert_eq|done|done|done]. }
    inversion Hs as [c0 ts h tid t Hnone Hm|c0 ts h tid t o t' c' outs Ht Ho Hstep' |c0 ts h tid t o v' c' outs Ht Ho Hstep'|c0 ts h tid t rest Ht Hc]; subst.
    + left. by exists (mkNode c0 ts h).
    + eapply Hcase; [done|done|done|by rewrite Hstep'|]. rewrite Hstep'. by intros ? ? ? [= -> -> ->].
    + eapply Hcase; [done|done|done|by rewrite Hstep'|]. by rewrite Hstep'.
    + left. by exists (mkNode c0 ts h).
Qed.

(** A call of [register_global_coordinated] that returns with success. *)
Lemma success_task n tid o t c c' outs :
  task_step limits n tid o t c = Finished (VRegister (Ok tt)) c' outs →
  (∃ name pid why, t = TSingle name pid why (SUnlock (Ok tt))) ∨
  (∃ p, t = TCoordinate KCall p (RDrop 0 RegSuccess)) ∨
  (∃ q p token, t = TWaiting q (WGuard token (Ok (ReplyRegister RegSuccess))) ∧ q_caller q = CRegister p).
Proof.
  assert (∀ u r c, unreg_finish u r c ≠ Finished (VRegister (Ok tt)) c' outs) as Hu.
  { intros [|? ? ? []] r c1; simpl; repeat case_match; done. }
  assert (∀ k r c, unreg_return k r c ≠ Finished (VRegister (Ok tt)) c' outs) as Hur by (intros []; simpl; intros; [apply Hu|done..]).
  assert (∀ k name e ms a c, unreg_enter k name e ms a c ≠ Finished (VRegister (Ok tt)) c' outs) as Hue.
  { intros. unfold unreg_enter. case_match; [done|apply Hur]. }
  assert (∀ r, result_to_anyhow r = Ok tt → r = RegSuccess) as Hr by by intros [].
  assert (∀ k p c l, coordinate_registration k p c l ≠ Finished (VRegister (Ok tt)) c' outs) as Hcr.
  { intros k p c1 l. unfold coordinate_registration. case_match; [done|]. by destruct k. }
  assert (∀ q r c, wait_finish q r c = Finished (VRegister (Ok tt)) c' outs →
    r = Ok (ReplyRegister RegSuccess) ∧ ∃ p, q_caller q = CRegister p) as Hw.
  { intros q r c1. unfold wait_finish. destruct (q_caller q) as [p| |u|]; try done; [|by intros ?%Hu].
    destruct r as [[]|]; try done. intros [= H _ _]. apply Hr in H as ->. eauto. }
  destruct t; simpl; try done; try by repeat case_match.
  - unfold register_step. by repeat case_match.
  - unfold register_members_step. repeat case_match; try done. by intros ?%Hcr.
  - destruct pc; simpl; unfold lock_stripe; repeat case_match; try done. intros [= -> _ _]. eauto.
  - destruct pc as [| | | | | | | | | | |[]| | | | | |[] ]; simpl; unfold lock_stripe, reg_finish; repeat case_match; try done.
    intros [= Hres%Hr _ _]. subst. eauto.
  - unfold unregister_step. repeat case_match; try done; by intros ?%Hu.
  - unfold unregister_members_step. repeat case_match; try done; first [by intros ?%Hu|by intros ?%Hue].
  - destruct pc as [| | | | |[]|]; simpl; repeat case_match; try done; first [by intros ?%Hur|by intros ?%Hue].
  - unfold unregister_process_registrations, unreg_next. by repeat case_match.
  - unfold synchronize_from_coordinator. by repeat case_match.
  - destruct pc; simpl; repeat case_match; try done; intros [Hres [p Hp]]%Hw; try done. subst. right. right. eauto.
  - destruct m; simpl; unfold take_waiter, sync_response, denied, handled; repeat case_match; try done. by intros ?%Hcr.
  - unfold prepare_lookup. by repeat case_match.
  - unfold prepare_check. by repeat case_match.
  - unfold take_leader, denied, handled. by repeat case_match.
  - unfold take, handled. by repeat case_match.
  - unfold handle_register_notify, handled. by repeat case_match.
  - unfold handle_unregister_notify, handled. by repeat case_match.
  - unfold handle_sync_response. by repeat case_match.
  - destruct pc as [|[]| |]; simpl; by repeat case_match.
  - unfold cleanup_node_registrations. by repeat case_match.
Qed.

(** A commit in the history, with the majority at its time. *)
Lemma commit_majority K K1 leader p :
  limits_ok limits → 0 <= max_pending_responses limits → cluster_start limits K →
  rtc (cluster_step limits) K K1 → few_requests K1 → committed limits K1 leader p →
  ∃ v K0 K0', rtc (cluster_step limits) K K0 ∧ commits limits K0 K0' leader p v ∧
    rtc (cluster_step limits) K0' K1 ∧ majority limits K0 leader p (v_members v).
Proof.
  intros Hlimits Hmax Hstart Hr Hfew (c & v & at_ms & Hs & _ & _).
  destruct (commit_step_of K K1 leader c p v at_ms Hstart Hr Hs) as (K0 & K0' & H0 & Hc & H1).
  exists v, K0, K0'. split_and!; [done..|]. destruct Hc as (Hstep & N0 & N1 & tid & k & HN0 & _ & Ht & _).
  assert (few_requests K0) as Hfew0.
  { eapply few_requests_mono; [|exact Hfew]. assert (rtc (cluster_step limits) K0 K1) as H01 by by eapply rtc_l.
    clear -H01. induction H01 as [|a b d Hab _ IH]; [done|]. etrans; [by eapply cluster_step_extends|done]. }
  pose proof (reachable_cluster_ok limits K K0 Hlimits Hmax Hstart H0 Hfew0) as Hok.
  by destruct (cn_tasks _ _ _ _ (Hok _ _ HN0) _ _ Ht) as [_ [_ Hm]].
Qed.
End commits.


(** ** A registration on three nodes, of which one does not answer *)

Section running.
Context (limits : RegistryLimits).
Implicit Types (K : gmap Z Node).

Lemma node_step_receive n (P Q : Z → RegistryCoordinationMessage → Prop) N N' :
  (∀ source m, P source m → Q source m) → node_step limits n P N N' → node_step limits n Q N N'.
Proof.
  intros HPQ Hs. destruct Hs.
  - apply ns_start; [done|]. destruct t as [| | | |[]| | | | | | | | | | | | | | | | |? ? []|]; simpl in *; auto.
  - by eapply ns_next.
  - by eapply ns_finish.
  - by eapply ns_cancel.
Qed.

(** Steps of one node that receive nothing. *)
Lemma cluster_run n N N' K :
  rtc (node_step limits n (fun _ _ => False)) N N' → K !! n = Some N →
  rtc (cluster_step limits) K (<[n := N']> K).
Proof.
  intros Hsteps. revert K. induction Hsteps as [N|N1 N2 N3 Hs Hsteps IH]; intros K HN.
  - by rewrite insert_id.
  - eapply rtc_l.
    + eapply cluster_node; [done|]. by eapply node_step_receive; [|exact Hs].
    + rewrite <- (insert_insert_eq K n N3 N2). apply IH. apply lookup_insert_eq.
Qed.

(** A task is started, and runs. *)
Definition run_in (n tid : Z) (t : option Task) (os : list Oracle) K : option (gmap Z Node) :=
  N ← K !! n;
  N ← run_task limits n tid os
        match t with
        | Some t => mkNode (coordinator N) (<[tid := t]> (tasks N)) (history N)
        | None => N
        end;
  Some (<[n := N]> K).

Lemma run_in_steps n tid t os K K' :
  Forall oracle_ok os →
  match t with
  | Some t => (∀ N, K !! n = Some N → tasks N !! tid = None) ∧ may_start (fun source m => sent K source n m) t
  | None => True
  end →
  run_in n tid t os K = Some K' → rtc (cluster_step limits) K K'.
Proof.
  intros Hos Ht Hrun. unfold run_in in Hrun. apply bind_Some in Hrun as (N & HN & Hrun).
  apply bind_Some in Hrun as (N' & Hrun & [= <-]).
  pose proof (run_task_steps limits n (fun _ _ => False) tid os _ _ Hos Hrun) as Hsteps.
  destruct t as [t|]; [|by eapply cluster_run]. destruct Ht as [Hfree Hm]. destruct N as [c ts h].
  eapply rtc_l; [eapply cluster_node; [done|]; apply (ns_start _ _ _ _ _ _ tid t); [by apply (Hfree _ HN)|done]|].
  rewrite <- (insert_insert_eq K n N' (mkNode c (<[tid := t]> ts) h)). eapply cluster_run; [exact Hsteps|apply lookup_insert_eq].
Qed.
End running.

Definition demo_start : gmap Z Node :=
  <[1 := new_node demo_limits true]> (<[2 := new_node demo_limits true]>
    {[ 3 := new_node demo_limits true ]}).

(** Node 1 proposes, node 2 validates, node 1 commits and is about to return. *)
Definition demo_asked : gmap Z Node :=
  default ∅ (run_in demo_limits 1 0 (Some (TRegister [97] demo_pid 3)) (replicate 16 (demo_oracle 0)) demo_start).
Definition demo_voted : gmap Z Node :=
  default ∅ (run_in demo_limits 2 0 (Some (THandle 1 (GlobalRegisterPrepare demo_proposal)))
               (replicate 4 (demo_oracle 0)) demo_asked).
Definition demo_counted : gmap Z Node :=
  default ∅ (run_in demo_limits 1 1 (Some (THandle 2 (GlobalRegisterResponse 1 1 2 RegSuccess)))
               [demo_oracle 0] demo_voted).
Definition demo_registered : gmap Z Node :=
  default ∅ (run_in demo_limits 1 0 None (replicate 7 (demo_oracle 0)) demo_counted).

Lemma demo_oracles_ok m : Forall oracle_ok (replicate m (demo_oracle 0)).
Proof. apply Forall_replicate, demo_oracle_ok. Qed.

Lemma demo_registered_reachable : rtc (cluster_step demo_limits) demo_start demo_registered.
Proof.
  transitivity demo_asked.
  { apply (run_in_steps _ 1 0 (Some (TRegister [97] demo_pid 3)) (replicate 16 (demo_oracle 0)));
      [apply demo_oracles_ok| |by vm_compute].
    split; [|done]. by intros N [= <-]. }
  transitivity demo_voted.
  { apply (run_in_steps _ 2 0 (Some (THandle 1 (GlobalRegisterPrepare demo_proposal)))
      (replicate 4 (demo_oracle 0))); [apply demo_oracles_ok| |by vm_compute].
    split; [by vm_compute; intros N [= <-]|].
    eexists (default (new_node demo_limits true) (demo_asked !! 1)), _. split; [by vm_compute|].
    apply (list_elem_of_lookup_2 _ 1). by vm_compute. }
  transitivity demo_counted.
  { apply (run_in_steps _ 1 1 (Some (THandle 2 (GlobalRegisterResponse 1 1 2 RegSuccess))) [demo_oracle 0]);
      [apply list.Forall_singleton, demo_oracle_ok| |by vm_compute].
    split; [by vm_compute; intros N [= <-]|].
    eexists (default (new_node demo_limits true) (demo_voted !! 2)), _. split; [by vm_compute|].
    apply (list_elem_of_lookup_2 _ 1). by vm_compute. }
  apply (run_in_steps _ 1 0 None (replicate 7 (demo_oracle 0))); [apply demo_oracles_ok|done|by vm_compute].
Qed.

Lemma demo_few_requests : few_requests demo_registered.
Proof.
  assert (map_Forall (fun _ N => (length (requests_of (history N)) <= 1)%nat) demo_registered) as Hall.
  { apply (bool_decide_unpack _). by vm_compute. }
  intros n N HN. specialize (Hall n N HN). simpl in Hall. lia.
Qed.

Lemma demo_start_ok : cluster_start demo_limits demo_start.
Proof.
  intros n N. unfold demo_start. rewrite !lookup_insert, lookup_singleton.
  repeat case_decide; intros [= <-]; by exists true.
Qed.

