(* ===== verification/Supervisor.v ===== *)
(** * [crates/lunatic-otp-patterns/src/supervisor.rs]

    A supervisor starts children from a specification, is told of their deaths,
    and restarts them, alone or with their siblings, as long as restarts do not
    come too often.

    What the supervisor calls is the [Host]: the start functions of the children
    (user code), the environment the children are registered in, the signals it
    sends them, the clocks.  Children live and die on their own, so every call
    may change the host, and the theorems hold for any answers.  The methods are
    state passing over the supervisor, the host, the published snapshot and a
    history of what was done to children and seen of them; an error is a value,
    and [None] is a wait that has not ended within the given number of polls.
    [Supervision] states and proves what they promise. *)

From S2P Require Import Prelude Message.

(** ** Specification *)

Inductive RestartStrategy : Type := OneForOne | OneForAll | RestForOne | SimpleOneForOne.
Inductive RestartPolicy : Type := Permanent | Transient | Temporary.
Inductive ShutdownPolicy : Type := Brutal | Timeout_ms (ms : Z) | Infinity.
Inductive ChildType : Type := Worker | SupervisorChild.

#[export] Instance ChildType_eq_dec : EqDecision ChildType.
Proof. solve_decision. Defined.

(** [start] names the start function. *)
Record ChildSpec : Type := mkChildSpec {
  id : list Z;
  start : Z;
  restart : RestartPolicy;
  shutdown_policy : ShutdownPolicy;
  child_type : ChildType;
}.

Record SupervisorSpec : Type := mkSupervisorSpec {
  strategy : RestartStrategy;
  max_restarts : Z;
  max_seconds : Z;
  spec_children : list ChildSpec;
}.

(** ** State *)

Record ChildState : Type := mkChild {
  child_spec : ChildSpec;
  process : option Z;
  restart_count : Z;
}.

Record RestartEvent : Type := mkRestart {
  restarted_at : Z;
  restarted_child : list Z;
}.

(** [monitor]: whether the supervisor is a process that monitors its children;
    [cleanup_tracker]: the processes to kill should it die. *)
Record Supervisor : Type := mkSupervisor {
  spec : SupervisorSpec;
  children : gmap (list Z) ChildState;
  restart_history : list RestartEvent;
  monitor : bool;
  cleanup_tracker : option (list Z);
}.

Definition with_environment (s : SupervisorSpec) : Supervisor := mkSupervisor s ∅ [] false None.

Definition set_children (cs : gmap (list Z) ChildState) (s : Supervisor) : Supervisor :=
  mkSupervisor (spec s) cs (restart_history s) (monitor s) (cleanup_tracker s).
Definition set_history (h : list RestartEvent) (s : Supervisor) : Supervisor :=
  mkSupervisor (spec s) (children s) h (monitor s) (cleanup_tracker s).
Definition set_tracker (t : option (list Z)) (s : Supervisor) : Supervisor :=
  mkSupervisor (spec s) (children s) (restart_history s) (monitor s) t.

Inductive SupervisorError : Type :=
| WrongRuntime
| ChildNotFound
| AlreadyRunning
| StartPanicked
| StartFailed
| MonitorFailed
| MonitorTimedOut
| ReturnedUnregistered
| NotStarted
| KillFailed
| StopTimedOut
| IntensityExceeded
| SpawnFailed.

Inductive ExitReason : Type := ExitNormal | ExitCrash | ExitKilled | ExitShutdown.

Record ChildInfo : Type := mkChildInfo {
  info_id : list Z;
  info_process : option Z;
  info_type : ChildType;
  info_restarts : Z;
}.

Record ChildrenCount : Type := mkCount {
  specs : Z; active : Z; supervisors : Z; workers : Z;
}.

(** What the handles of a supervisor process see of it. *)
Record SupervisorSnapshot : Type := mkSnapshot {
  snapshot_children : list ChildInfo;
  snapshot_counts : ChildrenCount;
  snapshot_history : list (Z * list Z);
}.

(** What a start function can do: return a process, an error, or panic. *)
Inductive StartOutcome : Type := Started (pid : Z) | StartError | StartPanic.

(** ** The host *)

(** The calls that leave the supervisor, with the type of their answers. *)
Inductive Call : Type → Type :=
| CGetProcess (pid : Z) : Call bool             (* environment.get_process(pid).is_some() *)
| CStart (f : Z) : Call StartOutcome            (* (child_spec.start)(environment) *)
| CSendMonitor (pid : Z) : Call bool            (* process.send(Monitor).is_ok() *)
| CAcknowledged (pid : Z) : Call bool           (* recv_timeout on the acknowledgement *)
| CSendKill (pid : Z) : Call bool               (* process.send(Kill).is_ok() *)
| CNoTerminalReason (pid : Z) : Call bool       (* process.terminal_reason().is_none() *)
| CInstant : Call Z                             (* Instant::now(), in nanoseconds *)
| CSleep : Call unit                            (* thread::sleep(1ms) *)
| CTimestamp : Call Z                           (* the system time, in seconds *)
| CSpawn : Call bool.                           (* spawn_native(..).is_ok() *)

Class Host (H : Type) := call : ∀ {A}, Call A → H → A * H.

(** Two documented facts of clocks: [Instant] never goes back and a sleep lasts at
    least as long as asked for. *)
Class ClockedHost (H : Type) `{!Host H} := {
  clock : H → Z;
  instant_clock h : (call CInstant h).1 = clock h;
  clock_mono {A} (c : Call A) h : clock h <= clock (call c h).2;
  sleep_advances h : clock h + 1000000 <= clock (call CSleep h).2;
}.

(** The system time is one that is not set back while the supervisor runs. *)
Class SteadyHost (H : Type) `{!Host H} := {
  seconds : H → Z;
  timestamp_seconds h : (call CTimestamp h).1 = seconds h;
  seconds_nonneg h : 0 <= seconds h;
  seconds_mono {A} (c : Call A) h : seconds h <= seconds (call c h).2;
}.

(** What is done to children and seen of them: a start function returned a
    process; a kill was sent; a process was found not to be registered; a restart
    was accounted for. *)
Inductive Event : Type :=
| EStart (child : list Z) (pid : Z) (is_restart : bool)
| EKill (pid : Z)
| EGone (pid : Z)
| EReserve (child : list Z) (at_ : Z).

(** ** Methods of the state alone *)

(** The processes of the children that have one, in the order of the
    specification. *)
Definition tracked (s : Supervisor) : list Z :=
  omap (fun c => st ← children s !! id c; process st) (spec_children (spec s)).

Definition refresh_cleanup_tracker (s : Supervisor) : Supervisor :=
  match cleanup_tracker s with
  | None => s
  | Some _ => set_tracker (Some (tracked s)) s
  end.

Definition clear_process (child_id : list Z) (s : Supervisor) : Supervisor :=
  refresh_cleanup_tracker
    match children s !! child_id with
    | Some st => set_children (<[child_id := mkChild (child_spec st) None (restart_count st)]> (children s)) s
    | None => s
    end.

Definition record_child (child_id : list Z) (c : ChildSpec) (pid : Z) (is_restart : bool) (s : Supervisor)
    : Supervisor :=
  refresh_cleanup_tracker (set_children (<[child_id :=
    match children s !! child_id with
    | Some st =>
        mkChild c (Some pid)
          (if is_restart then Z.min u32_max (restart_count st + 1) else restart_count st)
    | None => mkChild c (Some pid) (if is_restart then 1 else 0)
    end]> (children s)) s).

Definition find_spec (child_id : list Z) (s : Supervisor) : option ChildSpec :=
  snd <$> list_find (fun c => id c = child_id) (spec_children (spec s)).

Definition BRUTAL_SHUTDOWN_TIMEOUT : Z := 5000.

(** In milliseconds. *)
Definition stop_timeout (p : ShutdownPolicy) : option Z :=
  match p with
  | Brutal => Some BRUTAL_SHUTDOWN_TIMEOUT
  | Timeout_ms ms => Some ms
  | Infinity => None
  end.

(** The children a strategy restarts: those after the failed one, or all, that
    have a process, and the failed one itself. *)
Definition has_process (s : Supervisor) (i : list Z) : Prop :=
  is_Some (children s !! i ≫= process).

Definition affected_of (child_id : list Z) (s : Supervisor) (cs : list ChildSpec) : list (list Z) :=
  id <$> filter (fun c => id c = child_id ∨ has_process s (id c)) cs.

Definition affected (child_id : list Z) (s : Supervisor) : result (list (list Z)) SupervisorError :=
  match strategy (spec s) with
  | OneForOne | SimpleOneForOne => Ok [child_id]
  | OneForAll => Ok (affected_of child_id s (spec_children (spec s)))
  | RestForOne =>
      match position (fun c => bool_decide (id c = child_id)) (spec_children (spec s)) with
      | None => Err ChildNotFound
      | Some i => Ok (affected_of child_id s (drop i (spec_children (spec s))))
      end
  end.

Definition should_restart (p : RestartPolicy) (r : ExitReason) : bool :=
  match p with
  | Permanent => true
  | Transient => match r with ExitNormal => false | _ => true end
  | Temporary => false
  end.

(** The child whose current process is [pid]. *)
Definition child_of (pid : Z) (s : Supervisor) : option (list Z) :=
  fst <$> head (filter (fun p => process p.2 = Some pid) (map_to_list (children s))).

Definition exit_reason (r : DeathReason) : ExitReason :=
  match r with Normal => ExitNormal | Failure | NoProcess => ExitCrash end.

Definition which_children (s : Supervisor) : list ChildInfo :=
  omap (fun c => (fun st => mkChildInfo (id c) (process st) (child_type (child_spec st)) (restart_count st))
                   <$> children s !! id c) (spec_children (spec s)).

Definition history_of (s : Supervisor) : list (Z * list Z) :=
  (fun e => (restarted_at e, restarted_child e)) <$> restart_history s.

(** How the process ended, as its handles see it: the join of its task. *)
Inductive SupervisorExitStatus : Type :=
| ExitedNormal
| ExitedFailed (e : option (SupervisorError * option SupervisorError)).

(** [finish]: the first status stays. *)
Definition finish (status : SupervisorExitStatus) (exit : option SupervisorExitStatus)
    : option SupervisorExitStatus :=
  match exit with None => Some status | Some _ => exit end.

(** The outcome of the process: the error that ended it, with the error of the
    shutdown that the escalation tried. *)
Definition Outcome : Type := result unit (SupervisorError * option SupervisorError).

(** The status for the outcome of the task; [None] is a task that did not return. *)
Definition exit_status (o : option Outcome) : SupervisorExitStatus :=
  match o with
  | Some (Ok _) => ExitedNormal
  | Some (Err e) => ExitedFailed (Some e)
  | None => ExitedFailed None
  end.

Section supervisor.
Context {H : Type} `{!Host H}.
(** Whether the caller runs on a multi-thread runtime, and how many times a wait
    polls before it counts as not ended. *)
Context (multi_thread : bool) (polls : nat).

Record World : Type := mkWorld {
  sup : Supervisor;
  host : H;
  events : list Event;
  published : option SupervisorSnapshot;
}.

Definition M (A : Type) : Type := World → option (A * World).

#[local] Instance m_ret : MRet M := fun A a w => Some (a, w).
#[local] Instance m_bind : MBind M := fun A B k m w => match m w with Some (a, w) => k a w | None => None end.

(** [?] *)
Definition try_ {A B E} (m : M (result A E)) (k : A → M (result B E)) : M (result B E) :=
  r ← m; match r with Ok a => k a | Err e => mret (Err e) end.

Definition ask {A} (c : Call A) : M A :=
  fun w => let '(a, h) := call c (host w) in Some (a, mkWorld (sup w) h (events w) (published w)).
Definition emit (l : list Event) : M unit :=
  fun w => Some (tt, mkWorld (sup w) (host w) (events w ++ l) (published w)).
Definition get : M Supervisor := fun w => Some (sup w, w).
Definition modify (f : Supervisor → Supervisor) : M unit :=
  fun w => Some (tt, mkWorld (f (sup w)) (host w) (events w) (published w)).
Definition set_published (p : SupervisorSnapshot) : M unit :=
  fun w => Some (tt, mkWorld (sup w) (host w) (events w) (Some p)).
Definition stall {A} : M A := fun _ => None.

Definition ensure_multi_thread_runtime : M (result unit SupervisorError) :=
  mret (if multi_thread then Ok tt else Err WrongRuntime).

(** [process.send(Signal::Kill)], [environment.get_process(pid).is_some()] *)
Definition kill (pid : Z) : M bool := _ ← emit [EKill pid]; ask (CSendKill pid).
Definition registered (pid : Z) : M bool :=
  b ← ask (CGetProcess pid); _ ← (if (b : bool) then mret tt else emit [EGone pid]); mret b.

(** ** Waiting for a process to exit *)

Definition expired (started : Z) (timeout : option Z) : M bool :=
  match timeout with
  | None => mret false
  | Some limit => now ← ask CInstant; mret (limit * 1000000 <=? now - started)
  end.

Fixpoint wait_loop (fuel : nat) (pid started : Z) (timeout : option Z) : M (result unit SupervisorError) :=
  match fuel with
  | O => stall
  | S fuel =>
      alive ← registered pid;
      if (alive : bool) then
        late ← expired started timeout;
        if (late : bool) then mret (Err StopTimedOut)
        else _ ← ask CSleep; wait_loop fuel pid started timeout
      else mret (Ok tt)
  end.

Definition wait_for_process_exit (pid : Z) (timeout : option Z) : M (result unit SupervisorError) :=
  started ← ask CInstant; wait_loop polls pid started timeout.

(** ** Stopping a child *)

Definition stop_child (child_id : list Z) : M (result unit SupervisorError) :=
  try_ ensure_multi_thread_runtime (fun _ =>
  s ← get;
  match children s !! child_id with
  | None => mret (Err NotStarted)
  | Some st =>
      match process st with
      | None => mret (Ok tt)
      | Some pid =>
          alive ← registered pid;
          if negb alive then _ ← modify (clear_process child_id); mret (Ok tt)
          else
            sent ← kill pid;
            if negb sent then mret (Err KillFailed)
            else
              try_ (wait_for_process_exit pid (stop_timeout (shutdown_policy (child_spec st)))) (fun _ =>
              _ ← modify (clear_process child_id); mret (Ok tt))
      end
  end).

(** The loops that stop children: ignoring errors, or returning the first. *)
Fixpoint stop_all (ids : list (list Z)) : M unit :=
  match ids with
  | [] => mret tt
  | i :: ids => _ ← stop_child i; stop_all ids
  end.

Fixpoint stop_each (ids : list (list Z)) : M (result unit SupervisorError) :=
  match ids with
  | [] => mret (Ok tt)
  | i :: ids => try_ (stop_child i) (fun _ => stop_each ids)
  end.

(** ** Starting a child *)

(** A child that cannot be monitored is killed and waited for. *)
Definition abandon (pid : Z) (e : SupervisorError) : M (result unit SupervisorError) :=
  _ ← kill pid; _ ← wait_for_process_exit pid (Some BRUTAL_SHUTDOWN_TIMEOUT); mret (Err e).

(** Registration of the monitor, or the check of a child without one. *)
Definition attach (pid : Z) : M (result unit SupervisorError) :=
  s ← get;
  if monitor s then
    sent ← ask (CSendMonitor pid);
    if negb sent then abandon pid MonitorFailed
    else
      acknowledged ← ask (CAcknowledged pid);
      if negb acknowledged then abandon pid MonitorTimedOut else mret (Ok tt)
  else
    present ← registered pid;
    unfinished ← (if negb present then ask (CNoTerminalReason pid) else mret false);
    if (unfinished : bool) then _ ← kill pid; mret (Err ReturnedUnregistered) else mret (Ok tt).

Definition is_running (st : option ChildState) : M bool :=
  match st ≫= process with
  | Some pid => registered pid
  | None => mret false
  end.

Definition start_child_internal (child_id : list Z) (is_restart : bool) : M (result Z SupervisorError) :=
  try_ ensure_multi_thread_runtime (fun _ =>
  s ← get;
  match find_spec child_id s with
  | None => mret (Err ChildNotFound)
  | Some c =>
      running ← is_running (children s !! child_id);
      if (running : bool) then mret (Err AlreadyRunning)
      else
        _ ← modify (clear_process child_id);
        outcome ← ask (CStart (start c));
        match outcome with
        | StartPanic => mret (Err StartPanicked)
        | StartError => mret (Err StartFailed)
        | Started pid =>
            _ ← emit [EStart child_id pid is_restart];
            try_ (attach pid) (fun _ =>
            _ ← modify (record_child child_id c pid is_restart); mret (Ok pid))
        end
  end).

Definition start_child (child_id : list Z) : M (result Z SupervisorError) :=
  start_child_internal child_id false.

(** The start loops: what was started is stopped again when one fails. *)
Fixpoint start_each (is_restart : bool) (started ids : list (list Z)) : M (result unit SupervisorError) :=
  match ids with
  | [] => mret (Ok tt)
  | i :: ids =>
      r ← start_child_internal i is_restart;
      match r with
      | Err e => _ ← stop_all (reverse started); mret (Err e)
      | Ok _ => start_each is_restart (started ++ [i]) ids
      end
  end.

Definition start_children : M (result unit SupervisorError) :=
  s ← get; start_each false [] (id <$> spec_children (spec s)).

(** ** Restarting *)

Definition reserve_restart_events (ids : list (list Z)) : M (result unit SupervisorError) :=
  now ← ask CTimestamp;
  s ← get;
  let window_start := Z.max 0 (now - max_seconds (spec s)) in
  let history := filter (fun e => window_start <= restarted_at e) (restart_history s) in
  _ ← modify (set_history history);
  if max_restarts (spec s) <? Z.of_nat (length history + length ids) then mret (Err IntensityExceeded)
  else
    _ ← modify (set_history (history ++ (mkRestart now <$> ids)));
    _ ← emit ((fun i => EReserve i now) <$> ids);
    mret (Ok tt).

Definition restart_children (ids : list (list Z)) : M (result unit SupervisorError) :=
  try_ (reserve_restart_events ids) (fun _ =>
  try_ (stop_each (reverse ids)) (fun _ =>
  start_each true [] ids)).

Definition handle_child_exit (child_id : list Z) (reason : ExitReason) : M (result unit SupervisorError) :=
  s ← get;
  match children s !! child_id with
  | None => mret (Err ChildNotFound)
  | Some st =>
      if negb (should_restart (restart (child_spec st)) reason) then stop_child child_id
      else
        match affected child_id s with
        | Err e => mret (Err e)
        | Ok ids => restart_children ids
        end
  end.

Definition handle_process_exit (pid : Z) (reason : DeathReason) : M (result unit SupervisorError) :=
  s ← get;
  match child_of pid s with
  | None => mret (Ok tt)
  | Some child_id => handle_child_exit child_id (exit_reason reason)
  end.

(** ** Shutdown *)

Fixpoint shutdown_each (ids : list (list Z)) : M (result unit SupervisorError) :=
  match ids with
  | [] => mret (Ok tt)
  | i :: ids =>
      s ← get;
      if bool_decide (is_Some (children s !! i))
      then try_ (stop_child i) (fun _ => shutdown_each ids)
      else shutdown_each ids
  end.

Definition shutdown : M (result unit SupervisorError) :=
  s ← get; shutdown_each (reverse (id <$> spec_children (spec s))).

(** ** Queries *)

Fixpoint count_active (sts : list ChildState) : M Z :=
  match sts with
  | [] => mret 0
  | st :: sts =>
      alive ← is_running (Some st);
      n ← count_active sts;
      mret (if (alive : bool) then n + 1 else n)
  end.

Definition count_children : M ChildrenCount :=
  s ← get;
  let cs := spec_children (spec s) in
  n ← count_active (map_to_list (children s)).*2;
  mret (mkCount (Z.of_nat (length cs)) n
    (Z.of_nat (length (filter (fun c => child_type c = SupervisorChild) cs)))
    (Z.of_nat (length (filter (fun c => child_type c = Worker) cs)))).

(** ** The supervisor process *)

Definition publish : M unit :=
  s ← get;
  counts ← count_children;
  set_published (mkSnapshot (which_children s) counts (history_of s)).

(** The destructor of [SupervisorProcessGuard] kills what the tracker holds while
    the guard is armed; [disarm] empties the tracker. *)
Fixpoint kill_all (pids : list Z) : M unit :=
  match pids with [] => mret tt | pid :: pids => _ ← kill pid; kill_all pids end.

Definition process_guard_drop (armed : bool) : M unit :=
  if negb armed then mret tt
  else s ← get; kill_all (reverse (default [] (cleanup_tracker s))).

Definition disarm : M unit := modify (set_tracker (Some [])).

(** What the loop waits for: a change of the shutdown request (its value, or true
    when every handle is gone), or a message of the mailbox. *)
Inductive Input : Type := Changed (requested : bool) | Mail (m : Message).

(** One turn of the loop: [None] when it goes on, else the outcome and whether the
    guard is armed. *)
Definition supervisor_turn (i : Input) : M (option (Outcome * bool)) :=
  match i with
  | Changed false => mret None
  | Changed true =>
      r ← shutdown;
      _ ← publish;
      match r with
      | Err e => mret (Some (Err (e, None), true))
      | Ok _ => _ ← disarm; mret (Some (Ok tt, false))
      end
  | Mail (ProcessDied pid reason) =>
      r ← handle_process_exit pid reason;
      match r with
      | Err e =>
          shut ← shutdown;
          _ ← publish;
          mret (Some (Err (e, match shut with Err e' => Some e' | Ok _ => None end), true))
      | Ok _ => _ ← publish; mret None
      end
  | Mail (Data _) | Mail (LinkDied _) => mret None
  end.

(** The loop over what it is given; a process that is killed while it waits ends
    there, with the guard armed. *)
Fixpoint supervisor_loop (inputs : list Input) : M (option Outcome * bool) :=
  match inputs with
  | [] => mret (None, true)
  | i :: inputs =>
      r ← supervisor_turn i;
      match r with
      | Some (outcome, armed) => mret (Some outcome, armed)
      | None => supervisor_loop inputs
      end
  end.

(** The process from its start to the destructor of its guard. *)
Definition supervisor_main (inputs : list Input) : M (option Outcome) :=
  _ ← modify (fun s => mkSupervisor (spec s) (children s) (restart_history s) true (Some []));
  started ← start_children;
  _ ← publish;
  p ← match started with
      | Err e => mret (Some (Err (e, None)), true)
      | Ok _ => supervisor_loop inputs
      end;
  _ ← process_guard_drop p.2;
  mret p.1.

(** The shared state is made of a first snapshot; then the process runs. *)
Definition spawn_with_environment (inputs : list Input) : M (result (option Outcome) SupervisorError) :=
  try_ ensure_multi_thread_runtime (fun _ =>
  _ ← publish;
  spawned ← ask CSpawn;
  if negb spawned then mret (Err SpawnFailed)
  else o ← supervisor_main inputs; mret (Ok o)).
End supervisor.

#[export] Existing Instances m_ret m_bind.
