(* ===== verification/Supervision.v ===== *)
(** * What a supervisor promises

    The methods of [Supervisor] are described by weakest preconditions and, below
    them, by a relation of atomic effects: a process that was started but is not
    yet recorded is in flight, and a restart that was accounted for but not yet
    made is a credit.  The invariants of effects then hold of every supervisor
    process: no started process is forgotten, restarts are not too frequent.
    [restart_strategy_exact] says what one restart does. *)

From S2P Require Import Prelude Message Supervisor.

(** ** Histories *)

(** Events that start and account for nothing. *)
Definition quiet (e : Event) : Prop :=
  match e with EKill _ | EGone _ => True | EStart _ _ _ | EReserve _ _ => False end.

Definition not_start (e : Event) : Prop :=
  match e with EStart _ _ _ => False | _ => True end.

(** A kill was sent to the process, or it was seen to be gone. *)
Definition released (pid : Z) (l : list Event) : Prop := EKill pid ∈ l ∨ EGone pid ∈ l.

(** As before, and no process was started since. *)
Definition released_last (pid : Z) (l : list Event) : Prop :=
  ∃ l1 l2, l = l1 ++ l2 ∧ released pid l2 ∧ Forall not_start l2.

Lemma released_app pid l1 l2 : released pid (l1 ++ l2) ↔ released pid l1 ∨ released pid l2.
Proof. unfold released. rewrite !elem_of_app. naive_solver. Qed.

Lemma released_last_event pid l e :
  e = EKill pid ∨ e = EGone pid → released_last pid (l ++ [e]).
Proof.
  intros He. exists l, [e]. split; [done|]. unfold released. rewrite !list_elem_of_singleton.
  split; [naive_solver|]. apply list.Forall_singleton. by destruct He as [->| ->].
Qed.

Lemma released_last_app pid l l' :
  Forall quiet l' → released_last pid l → released_last pid (l ++ l').
Proof.
  intros Hq (l1 & l2 & -> & Hr & Hn). exists l1, (l2 ++ l'). rewrite <- app_assoc.
  split; [done|]. rewrite released_app, Forall_app. split; [by left|]. split; [done|].
  eapply Forall_impl; [exact Hq|]. by intros [].
Qed.

(** Every earlier start of the process is followed by its release. *)
Lemma released_last_after pid l l1 i b l2 :
  released_last pid l → l = l1 ++ EStart i pid b :: l2 → released pid l2.
Proof.
  intros (a & c & -> & Hr & Hn) Heq.
  apply app_eq_app in Heq as (m & [[-> Hm]|[-> Hm]]).
  - destruct m as [|e m]; simplify_eq/=.
    + apply Forall_cons_iff in Hn as [[] _].
    + apply released_app. by right.
  - rewrite Hm in Hn. apply Forall_app in Hn as [_ [[] _]%Forall_cons_iff].
Qed.

Definition is_restart_start (e : Event) : Prop :=
  match e with EStart _ _ true => True | _ => False end.
(** What is done to children. *)
Definition is_act (e : Event) : Prop :=
  match e with EStart _ _ _ | EKill _ => True | EGone _ | EReserve _ _ => False end.

#[export] Instance is_act_dec e : Decision (is_act e).
Proof. destruct e; apply _. Defined.
#[export] Instance is_restart_start_dec e : Decision (is_restart_start e).
Proof. destruct e as [| | |]; [destruct is_restart|..]; apply _. Defined.
(** Restarts since a time, and between two. *)
Definition at_least (a : Z) (e : RestartEvent) : Prop := a <= restarted_at e.
#[export] Instance at_least_dec a e : Decision (at_least a e).
Proof. unfold at_least. apply _. Defined.

Definition within (a b : Z) (e : RestartEvent) : Prop := a <= restarted_at e <= b.
#[export] Instance within_dec a b e : Decision (within a b e).
Proof. unfold within. apply _. Defined.

Definition acts (l : list Event) : list Event := filter is_act l.

Lemma acts_app l l' : acts (l ++ l') = acts l ++ acts l'.
Proof. apply filter_app. Qed.

Lemma acts_gone pid l : Forall (fun e => e = EGone pid) l → acts l = [].
Proof. induction 1 as [|e l -> _ IH]; [done|]. unfold acts. by rewrite filter_cons_False by auto. Qed.

(** ** Worlds and effects *)

Section supervision.
Context {H : Type} `{!Host H}.

Abbreviation World := (@World H).

Definition with_sup (f : Supervisor → Supervisor) (w : World) : World :=
  mkWorld (f (sup w)) (host w) (events w) (published w).
Definition with_host (h : H) (w : World) : World :=
  mkWorld (sup w) h (events w) (published w).
Definition with_events (l : list Event) (w : World) : World :=
  mkWorld (sup w) (host w) (events w ++ l) (published w).
Definition with_published (p : SupervisorSnapshot) (w : World) : World :=
  mkWorld (sup w) (host w) (events w) (Some p).

Definition proc_of (s : Supervisor) (i : list Z) : option Z := children s !! i ≫= process.

(** The history without the events that have left the window at [now]. *)
Definition pruned (now : Z) (s : Supervisor) : list RestartEvent :=
  filter (fun e => Z.max 0 (now - max_seconds (spec s)) <= restarted_at e) (restart_history s).

Record Config : Type := mkConfig {
  flight : option Z;
  credit : nat;
  world : World;
}.

Inductive effect : Config → Config → Prop :=
| eff_call f k w A (c : Call A) :
    effect (mkConfig f k w) (mkConfig f k (with_host (call c (host w)).2 w))
| eff_note f k w e :
    quiet e → effect (mkConfig f k w) (mkConfig f k (with_events [e] w))
| eff_publish f k w p :
    effect (mkConfig f k w) (mkConfig f k (with_published p w))
| eff_clear f k w i :
    (∀ pid, proc_of (sup w) i = Some pid → released_last pid (events w)) →
    effect (mkConfig f k w) (mkConfig f k (with_sup (clear_process i) w))
| eff_start k w i pid (b : bool) :
    effect (mkConfig None (if b then S k else k) w)
           (mkConfig (Some pid) k (with_events [EStart i pid b] w))
| eff_land k w pid :
    released_last pid (events w) →
    effect (mkConfig (Some pid) k w) (mkConfig None k w)
| eff_record k w pid i c b :
    find_spec i (sup w) = Some c → proc_of (sup w) i = None →
    effect (mkConfig (Some pid) k w) (mkConfig None k (with_sup (record_child i c pid b) w))
| eff_forgo f k w :
    effect (mkConfig f (S k) w) (mkConfig f k w)
| eff_prune f k w :
    effect (mkConfig f k w)
      (mkConfig f k (with_sup (fun s => set_history (pruned (call CTimestamp (host w)).1 s) s)
                       (with_host (call CTimestamp (host w)).2 w)))
| eff_reserve f k w ids now :
    now = (call CTimestamp (host w)).1 →
    Z.of_nat (length (pruned now (sup w)) + length ids) <= max_restarts (spec (sup w)) →
    effect (mkConfig f k w)
      (mkConfig f (length ids + k)
         (with_events ((fun i => EReserve i now) <$> ids)
            (with_sup (fun s => set_history (pruned now s ++ (mkRestart now <$> ids)) s)
               (with_host (call CTimestamp (host w)).2 w))))
| eff_disarm f k w :
    tracked (sup w) = [] →
    effect (mkConfig f k w) (mkConfig f k (with_sup (set_tracker (Some [])) w)).

Definition moves f k (w : World) f' k' (w' : World) : Prop :=
  rtc effect (mkConfig f k w) (mkConfig f' k' w').

Lemma moves_refl f k w : moves f k w f k w.
Proof. constructor. Qed.
Lemma moves_trans f1 k1 w1 f2 k2 w2 f3 k3 w3 :
  moves f1 k1 w1 f2 k2 w2 → moves f2 k2 w2 f3 k3 w3 → moves f1 k1 w1 f3 k3 w3.
Proof. intros H1 H2. unfold moves in *. by etrans. Qed.
Lemma moves_once f k w f' k' w' : effect (mkConfig f k w) (mkConfig f' k' w') → moves f k w f' k' w'.
Proof. apply rtc_once. Qed.

(** ** Weakest preconditions

    [stalls] says what follows from a wait that does not end. *)
Definition wp (stalls : Prop) {A} (m : M A) (w : World) (Q : A → World → Prop) : Prop :=
  match m w with Some (a, w') => Q a w' | None => stalls end.

Section rules.
Context {stalls : Prop}.

Lemma wp_ret {A} (a : A) w Q : Q a w → wp stalls (mret a) w Q.
Proof. done. Qed.
Lemma wp_bind {A B} (m : M A) (k : A → M B) w Q :
  wp stalls m w (fun a w' => wp stalls (k a) w' Q) → wp stalls (m ≫= k) w Q.
Proof. unfold wp, mbind, m_bind. by destruct (m w) as [[a w']|]. Qed.
Lemma wp_mono {A} (m : M A) w (P Q : A → World → Prop) :
  wp stalls m w P → (∀ a w', P a w' → Q a w') → wp stalls m w Q.
Proof. unfold wp. destruct (m w) as [[a w']|]; auto. Qed.
Lemma wp_try {A B E} (m : M (result A E)) (k : A → M (result B E)) w Q :
  wp stalls m w (fun r w' => match r with Ok a => wp stalls (k a) w' Q | Err e => Q (Err e) w' end) →
  wp stalls (try_ m k) w Q.
Proof. intros Hm. apply wp_bind. eapply wp_mono; [exact Hm|]. by intros [a|e] w' Hr. Qed.
Lemma wp_get w Q : Q (sup w) w → wp stalls get w Q.
Proof. done. Qed.
Lemma wp_modify f w Q : Q tt (with_sup f w) → wp stalls (modify f) w Q.
Proof. done. Qed.
Lemma wp_emit l w Q : Q tt (with_events l w) → wp stalls (emit l) w Q.
Proof. done. Qed.
Lemma wp_ask {A} (c : Call A) w Q :
  Q (call c (host w)).1 (with_host (call c (host w)).2 w) → wp stalls (ask c) w Q.
Proof. unfold wp, ask. by destruct (call c (host w)). Qed.
Lemma wp_set_published p w Q : Q tt (with_published p w) → wp stalls (set_published p) w Q.
Proof. done. Qed.

(** A computation that is right when it ends, and whose not ending is a stall. *)
Lemma wp_from_partial {A} (m : M A) w Q :
  wp True m w Q → (m w = None → stalls) → wp stalls m w Q.
Proof. unfold wp. destruct (m w) as [[a w']|]; auto. Qed.
End rules.

(** ** What calls and waits do

    They leave the supervisor alone and note at most kills and absences. *)
Definition calm (w w' : World) (l : list Event) : Prop :=
  sup w' = sup w ∧ events w' = events w ++ l ∧ Forall quiet l ∧
  ∀ f k, moves f k w f k w'.

Lemma calm_refl w : calm w w [].
Proof. split; [done|]. rewrite app_nil_r. repeat split; [constructor|]. intros. apply moves_refl. Qed.

Lemma calm_trans w1 w2 w3 l l' : calm w1 w2 l → calm w2 w3 l' → calm w1 w3 (l ++ l').
Proof.
  intros (Hs & He & Hq & Hm) (Hs' & He' & Hq' & Hm'). repeat split.
  - congruence.
  - by rewrite He', He, app_assoc.
  - by apply Forall_app.
  - intros f k. eapply moves_trans; auto.
Qed.

Lemma calm_call {A} (c : Call A) w : calm w (with_host (call c (host w)).2 w) [].
Proof.
  repeat split; [by rewrite app_nil_r|constructor|]. intros f k. apply rtc_once, eff_call.
Qed.

Lemma calm_note e w : quiet e → calm w (with_events [e] w) [e].
Proof. repeat split; [by apply list.Forall_singleton|]. intros f k. by apply rtc_once, eff_note. Qed.

Lemma calm_moves w w' l f k : calm w w' l → moves f k w f k w'.
Proof. intros (_ & _ & _ & Hm). apply Hm. Qed.

Section calls.
Context {stalls : Prop}.
Implicit Types (w : World).

Lemma registered_spec pid w :
  wp stalls (registered pid) w (fun b w' => calm w w' (if b : bool then [] else [EGone pid])).
Proof.
  apply wp_bind, wp_ask, wp_bind. pose proof (calm_call (CGetProcess pid) w) as Hc.
  destruct (call (CGetProcess pid) (host w)).1; [done|].
  apply wp_emit. exact (calm_trans _ _ _ _ _ Hc (calm_note (EGone pid) _ I)).
Qed.

Lemma kill_spec pid w : wp stalls (kill pid) w (fun _ w' => calm w w' [EKill pid]).
Proof.
  apply wp_bind, wp_emit, wp_ask.
  exact (calm_trans _ _ _ _ _ (calm_note (EKill pid) w I) (calm_call (CSendKill pid) _)).
Qed.

Lemma expired_spec started timeout w :
  wp stalls (expired started timeout) w (fun _ w' => calm w w' []).
Proof.
  destruct timeout as [ms|]; [|apply calm_refl].
  apply wp_bind, wp_ask. apply calm_call.
Qed.
End calls.

(** A wait sees at most that the process is gone. *)
Lemma wait_loop_spec fuel pid started timeout w :
  wp True (wait_loop fuel pid started timeout) w
    (fun r w' => ∃ l, calm w w' l ∧ Forall (fun e => e = EGone pid) l).
Proof.
  revert w. induction fuel as [|fuel IH]; intros w; [done|]. simpl.
  apply wp_bind. eapply wp_mono; [apply registered_spec|]. intros [|] w1 H1.
  2: { eexists. split; [done|]. by apply list.Forall_singleton. }
  apply wp_bind. eapply wp_mono; [apply expired_spec|]. intros [|] w2 H2.
  { eexists. split; [exact (calm_trans _ _ _ _ _ H1 H2)|constructor]. }
  apply wp_bind, wp_ask. eapply wp_mono; [apply IH|]. intros r w3 (l & H3 & Hl).
  exists l. split; [|done].
  exact (calm_trans _ _ _ _ _ H1 (calm_trans _ _ _ _ _ H2 (calm_trans _ _ _ _ _ (calm_call CSleep w2) H3))).
Qed.

(** ** Well-formedness *)

(** Every child is kept under its identifier with the specification it has. *)
Definition children_wf (s : Supervisor) : Prop :=
  ∀ i st, children s !! i = Some st → find_spec i s = Some (child_spec st).

Lemma find_spec_spec i s s' : spec s' = spec s → find_spec i s' = find_spec i s.
Proof. unfold find_spec. by intros ->. Qed.

Lemma find_spec_Some i s c : find_spec i s = Some c → c ∈ spec_children (spec s) ∧ id c = i.
Proof.
  unfold find_spec. intros ([j c'] & Hf & ->)%fmap_Some_1.
  apply list_find_Some in Hf as (Hj & Hi & _). split; [by eapply list_elem_of_lookup_2|done].
Qed.

Lemma spec_refresh s : spec (refresh_cleanup_tracker s) = spec s.
Proof. unfold refresh_cleanup_tracker. by destruct (cleanup_tracker s). Qed.
Lemma children_refresh s : children (refresh_cleanup_tracker s) = children s.
Proof. unfold refresh_cleanup_tracker. by destruct (cleanup_tracker s). Qed.

Definition cleared (st : ChildState) : ChildState := mkChild (child_spec st) None (restart_count st).

Lemma spec_clear i s : spec (clear_process i s) = spec s.
Proof. unfold clear_process. rewrite spec_refresh. by destruct (children s !! i). Qed.
Lemma children_clear i s : children (clear_process i s) = alter cleared i (children s).
Proof.
  unfold clear_process. rewrite children_refresh. apply map_eq. intros j.
  destruct (children s !! i) as [st|] eqn:Hi; simpl;
    (destruct (decide (i = j)) as [<-|Hne];
      [rewrite lookup_alter_eq, Hi|rewrite lookup_alter_ne by done]).
  - by rewrite lookup_insert_eq.
  - by rewrite lookup_insert_ne.
  - done.
  - done.
Qed.

(** What a start leaves of the state of a child. *)
Definition started_state (c : ChildSpec) (pid : Z) (b : bool) (o : option ChildState) : ChildState :=
  match o with
  | Some st => mkChild c (Some pid) (if b then Z.min u32_max (restart_count st + 1) else restart_count st)
  | None => mkChild c (Some pid) (if b then 1 else 0)
  end.

Lemma spec_record i c pid b s : spec (record_child i c pid b s) = spec s.
Proof. unfold record_child. by rewrite spec_refresh. Qed.
Lemma children_record i c pid b s :
  children (record_child i c pid b s) = <[i := started_state c pid b (children s !! i)]> (children s).
Proof. unfold record_child. by rewrite children_refresh. Qed.

Lemma effect_spec_same x y : effect x y → spec (sup (world y)) = spec (sup (world x)).
Proof. destruct 1; simpl; auto using spec_clear, spec_record. Qed.

Lemma effect_wf x y : effect x y → children_wf (sup (world x)) → children_wf (sup (world y)).
Proof.
  intros He Hwf i st. rewrite (find_spec_spec _ _ _ (effect_spec_same _ _ He)). revert i st.
  destruct He as [| | |f k w j _| | |k w pid j c b Hf _| | | |]; simpl in *; try exact Hwf.
  - intros i st. rewrite children_clear. destruct (decide (j = i)) as [<-|Hne].
    + rewrite lookup_alter_eq. intros (st' & Hst & ->)%fmap_Some_1. simpl. by apply Hwf.
    + rewrite lookup_alter_ne by done. apply Hwf.
  - intros i st. rewrite children_record. destruct (decide (j = i)) as [<-|Hne].
    + rewrite lookup_insert_eq. intros [= <-]. by destruct (children (sup w) !! j).
    + rewrite lookup_insert_ne by done. apply Hwf.
Qed.

Lemma moves_spec f k w f' k' w' : moves f k w f' k' w' → spec (sup w') = spec (sup w).
Proof.
  intros Hm. apply (rtc_invariant effect (fun x => spec (sup (world x)) = spec (sup w)) _ _ ) in Hm; auto.
  intros a b Ha Hb. by rewrite (effect_spec_same _ _ Hb).
Qed.

Lemma moves_wf f k w f' k' w' : moves f k w f' k' w' → children_wf (sup w) → children_wf (sup w').
Proof.
  intros Hm Hwf. apply (rtc_invariant effect (fun x => children_wf (sup (world x)))) in Hm; auto.
  intros a b Ha Hb. by eapply effect_wf.
Qed.

(** ** Invariants of effects *)

(** The tracker holds the processes of the children. *)
Definition tracker_ok (s : Supervisor) : Prop := cleanup_tracker s = Some (tracked s).

Lemma tracker_refresh s : is_Some (cleanup_tracker s) → tracker_ok (refresh_cleanup_tracker s).
Proof. unfold refresh_cleanup_tracker, tracker_ok. by intros [t ->]. Qed.

Lemma effect_tracker x y : effect x y → tracker_ok (sup (world x)) → tracker_ok (sup (world y)).
Proof.
  intros He Ht. destruct He; simpl in *; try exact Ht.
  - apply tracker_refresh. destruct (children (sup w) !! i); by rewrite ?Ht.
  - apply tracker_refresh. simpl. by rewrite Ht.
  - unfold tracker_ok. by rewrite (H0 : tracked (set_tracker (Some []) (sup w)) = []).
Qed.

(** A started process was released since, is the process of a child, or is in
    flight. *)
Definition accounted (x : Config) : Prop :=
  ∀ l1 i pid b l2, events (world x) = l1 ++ EStart i pid b :: l2 →
    released pid l2 ∨ (∃ j, proc_of (sup (world x)) j = Some pid) ∨ flight x = Some pid.

(** Events that are not starts come after the last start. *)
Lemma start_before l l' l1 i pid b l2 :
  Forall not_start l' → l ++ l' = l1 ++ EStart i pid b :: l2 →
  ∃ l3, l = l1 ++ EStart i pid b :: l3 ∧ l2 = l3 ++ l'.
Proof.
  intros Hn Heq. apply app_eq_app in Heq as (m & [[-> Hm]|[-> Hm]]).
  - destruct m as [|e m]; simplify_eq/=; [|by exists m].
    apply Forall_cons_iff in Hn as [[] _].
  - rewrite Hm in Hn. apply Forall_app in Hn as [_ [[] _]%Forall_cons_iff].
Qed.

Lemma accounted_events f k k' w l s h p :
  Forall not_start l → (∀ j, proc_of s j = proc_of (sup w) j) →
  accounted (mkConfig f k w) → accounted (mkConfig f k' (mkWorld s h (events w ++ l) p)).
Proof.
  intros Hn Hp Hx l1 i pid b l2 Heq. simpl in *.
  apply start_before in Heq as (l3 & Heq & ->); [|done].
  destruct (Hx _ _ _ _ _ Heq) as [?|[[j Hj]|?]]; [left|right; left|right; right].
  - apply released_app. by left.
  - exists j. by rewrite Hp.
  - done.
Qed.

Lemma not_start_quiet e : quiet e → not_start e.
Proof. by destruct e. Qed.

Lemma effect_accounted x y : effect x y → accounted x → accounted y.
Proof.
  intros He Hx. destruct He as [f k w A c|f k w e Hq|f k w p|f k w i Hi|k w i pid b|k w pid Hr
    |k w pid i c b Hf Hp|f k w|f k w|f k w ids now Hnow Hmax|f k w Ht]; try exact Hx.
  - refine (accounted_events f k k w [e] _ _ _ _ _ Hx); [|done].
    apply list.Forall_singleton, not_start_quiet, Hq.
  - intros l1 j pid b l2 Heq. simpl in *. destruct (Hx _ _ _ _ _ Heq) as [?|[[j' Hj']|?]]; auto.
    destruct (decide (i = j')) as [<-|Hne]; [left; by eapply released_last_after; eauto|].
    right. left. exists j'. unfold proc_of. by rewrite children_clear, lookup_alter_ne.
  - intros l1 j pid' b' l2 Heq. simpl in *. destruct l2 as [|e l2 _] using rev_ind.
    { apply app_inj_tail in Heq as [_ [= -> -> ->]]. by right; right. }
    rewrite app_comm_cons, app_assoc in Heq. apply app_inj_tail in Heq as [Heq _].
    destruct (Hx _ _ _ _ _ Heq) as [?|[?|?]]; [left|by right; left|done].
    apply released_app. by left.
  - intros l1 j pid' b l2 Heq. simpl in *. destruct (Hx _ _ _ _ _ Heq) as [?|[?|[= ->]]]; auto.
    left. by eapply released_last_after.
  - intros l1 j pid' b' l2 Heq. simpl in *. destruct (Hx _ _ _ _ _ Heq) as [?|[[j' Hj']|[= ->]]]; auto.
    + right. left. exists j'. unfold proc_of. rewrite children_record, lookup_insert_ne; [done|].
      intros <-. simpl in Hj'; congruence.
    + right. left. exists i. unfold proc_of. rewrite children_record, lookup_insert_eq. simpl.
      by destruct (children (sup w) !! i).
  - refine (accounted_events f k _ w _ _ _ _ _ _ Hx); [|done].
    apply list.Forall_forall. by intros e (i & -> & _)%list_elem_of_fmap.
Qed.

(** The restarts accounted for, as the supervisor remembers them. *)
Definition reserved (l : list Event) : list RestartEvent :=
  omap (fun e => match e with EReserve i t => Some (mkRestart t i) | _ => None end) l.

Lemma reserved_app l l' : reserved (l ++ l') = reserved l ++ reserved l'.
Proof. apply omap_app. Qed.

Lemma reserved_reserves now (ids : list (list Z)) :
  reserved ((fun i => EReserve i now) <$> ids) = mkRestart now <$> ids.
Proof. induction ids as [|i ids IH]; [done|]. unfold reserved in *. csimpl. by rewrite IH. Qed.

Lemma reserved_quiet e : quiet e → reserved [e] = [].
Proof. by destruct e. Qed.

(** Restarts made and to be made have been accounted for. *)
Definition count (P : Event → Prop) `{!∀ e, Decision (P e)} (l : list Event) : nat := length (filter P l).

Lemma count_app (P : Event → Prop) `{!∀ e, Decision (P e)} l l' : count P (l ++ l') = (count P l + count P l')%nat.
Proof. unfold count. by rewrite filter_app, length_app. Qed.

Lemma count_none (P : Event → Prop) `{!∀ e, Decision (P e)} l : Forall (fun e => ¬ P e) l → count P l = 0%nat.
Proof. intros Hl. unfold count. by rewrite filter_keeps_none. Qed.

Definition credit_ok (x : Config) : Prop :=
  (count is_restart_start (events (world x)) + credit x <= length (reserved (events (world x))))%nat.

Lemma reserves_no_start now (ids : list (list Z)) :
  count is_restart_start ((fun i => EReserve i now) <$> ids) = 0%nat.
Proof. apply count_none, list.Forall_forall. intros e (i & -> & _)%list_elem_of_fmap []. Qed.

Lemma effect_credit x y : effect x y → credit_ok x → credit_ok y.
Proof.
  unfold credit_ok. intros He Hx. destruct He as [| f k w e Hq| | |k w i pid b| | | | |f k w ids now Hnow Hmax|];
    simpl in *; rewrite ?count_app, ?reserved_app, ?length_app; try lia.
  - destruct e; try done; unfold count in *; simpl; lia.
  - destruct b; unfold count in *; simpl; lia.
  - rewrite reserves_no_start, reserved_reserves, length_fmap. lia.
Qed.

(** At every point of the history the restarts made are accounted for before. *)
Definition paid_before (l : list Event) : Prop :=
  ∀ l1 l2, l = l1 ++ l2 → (count is_restart_start l1 <= length (reserved l1))%nat.

Lemma paid_before_event l e :
  paid_before l → (count is_restart_start (l ++ [e]) <= length (reserved (l ++ [e])))%nat → paid_before (l ++ [e]).
Proof.
  intros Hl He l1 l2 Heq. destruct l2 as [|x l2] using rev_ind; [rewrite app_nil_r in Heq; by rewrite <- Heq|].
  rewrite app_assoc in Heq. apply app_inj_tail in Heq as [-> _]. by eapply Hl.
Qed.

Lemma effect_paid x y :
  effect x y → credit_ok x ∧ paid_before (events (world x)) → credit_ok y ∧ paid_before (events (world y)).
Proof.
  intros He [Hx Hp]. pose proof (effect_credit x y He Hx) as Hy. split; [done|]. unfold credit_ok in Hx, Hy.
  destruct He as [| f k w e Hq| | |k w i pid b| | | | |f k w ids now Hnow Hmax|]; simpl in *; try done.
  - apply paid_before_event; [done|lia].
  - apply paid_before_event; [done|]. destruct b; lia.
  - clear Hy Hmax. revert Hp. generalize (events w). induction ids as [|i ids IH]; simpl; intros l Hp; [by rewrite app_nil_r|].
    rewrite cons_middle, app_assoc. apply IH, paid_before_event; [done|]. specialize (Hp l [] ltac:(by rewrite app_nil_r)).
    rewrite count_app, reserved_app, length_app. unfold count at 2. simpl. lia.
Qed.

(** ** Restart intensity *)

Section intensity.
Context `{!SteadyHost H}.

(** Up to [since], the last time at which it was consulted, the memory lacks only
    restarts that have left the window; and no window has too many. *)
Record remembers (x : Config) (since : Z) : Prop := {
  rem_history : restart_history (sup (world x)) =
    filter (at_least (Z.max 0 (since - max_seconds (spec (sup (world x)))))) (reserved (events (world x)));
  rem_past : Forall (fun e => 0 <= restarted_at e <= since) (reserved (events (world x)));
  rem_since : since <= seconds (host (world x));
  rem_rate t : Z.of_nat (length (filter (within t (t + max_seconds (spec (sup (world x)))))
                                        (reserved (events (world x)))))
                 <= max_restarts (spec (sup (world x)));
}.

Lemma remembers_frame f k w f' k' w' since :
  spec (sup w') = spec (sup w) → restart_history (sup w') = restart_history (sup w) →
  reserved (events w') = reserved (events w) → seconds (host w) <= seconds (host w') →
  remembers (mkConfig f k w) since → remembers (mkConfig f' k' w') since.
Proof.
  intros Hs Hh He Ht [H1 H2 H3 H4]. simpl in *.
  constructor; simpl; rewrite ?Hs, ?Hh, ?He; [done|done|lia|done].
Qed.

Lemma history_refresh s : restart_history (refresh_cleanup_tracker s) = restart_history s.
Proof. unfold refresh_cleanup_tracker. by destruct (cleanup_tracker s). Qed.
Lemma history_clear i s : restart_history (clear_process i s) = restart_history s.
Proof. unfold clear_process. rewrite history_refresh. by destruct (children s !! i). Qed.

Lemma filter_at_least a b (l : list RestartEvent) : a <= b → filter (at_least b) (filter (at_least a) l) = filter (at_least b) l.
Proof.
  intros Hab. rewrite list_filter_filter. apply list_filter_iff. intros e. unfold at_least. naive_solver lia.
Qed.

Lemma length_filter_mono (P Q : RestartEvent → Prop) `{!∀ e, Decision (P e), !∀ e, Decision (Q e)} l :
  (∀ e, e ∈ l → P e → Q e) → (length (filter P l) <= length (filter Q l))%nat.
Proof.
  intros HPQ. induction l as [|e l IH]; [done|].
  assert (length (filter P l) <= length (filter Q l))%nat by (apply IH; intros; apply HPQ; [by right|done]).
  destruct (decide (P e)) as [Hp|Hp].
  - rewrite !filter_cons_True by (try apply HPQ; done || left). simpl. lia.
  - rewrite filter_cons_False by done. destruct (decide (Q e)); rewrite ?filter_cons_True, ?filter_cons_False by done; simpl; lia.
Qed.

Section reservation.
Context (f f' : option Z) (k k' : nat) (w : World) (since : Z).
Context (Hms : 0 <= max_seconds (spec (sup w))) (Hrem : remembers (mkConfig f k w) since).
Local Abbreviation now := (call CTimestamp (host w)).1.

Lemma now_after : since <= now ∧ 0 <= now <= seconds (call CTimestamp (host w)).2.
Proof.
  destruct Hrem as [_ _ H3 _]. simpl in H3. rewrite timestamp_seconds.
  pose proof (seconds_nonneg (host w)). pose proof (seconds_mono CTimestamp (host w)). lia.
Qed.

Lemma past_now : Forall (fun e => 0 <= restarted_at e <= now) (reserved (events w)).
Proof.
  destruct Hrem as [_ H2 _ _], now_after as [Hn _]. eapply Forall_impl; [exact H2|]. simpl. intros e He. lia.
Qed.

Lemma pruned_now :
  pruned now (sup w) = filter (at_least (Z.max 0 (now - max_seconds (spec (sup w))))) (reserved (events w)).
Proof.
  destruct Hrem as [H1 _ _ _], now_after as [Hn _]. simpl in H1. unfold pruned. rewrite H1.
  apply (filter_at_least _ _ (reserved (events w))). lia.
Qed.

Lemma remembers_prune :
  remembers (mkConfig f' k' (with_sup (fun s => set_history (pruned now s) s)
                               (with_host (call CTimestamp (host w)).2 w))) now.
Proof.
  constructor; simpl; [apply pruned_now|apply past_now|apply now_after|].
  destruct Hrem as [_ _ _ H4]. exact H4.
Qed.

Lemma remembers_reserve ids :
  Z.of_nat (length (pruned now (sup w)) + length ids) <= max_restarts (spec (sup w)) →
  remembers (mkConfig f' k' (with_events ((fun i => EReserve i now) <$> ids)
               (with_sup (fun s => set_history (pruned now s ++ (mkRestart now <$> ids)) s)
                  (with_host (call CTimestamp (host w)).2 w)))) now.
Proof.
  intros Hmax. destruct now_after as (Hsince & Hnow & Hle). pose proof past_now as Hpast.
  assert (∀ P `{!∀ e, Decision (P e)}, (∀ i, P (mkRestart now i)) →
    filter P (mkRestart now <$> ids) = mkRestart now <$> ids) as Hall.
  { intros P ? HP. apply filter_keeps_all, list.Forall_forall. intros e (i & -> & _)%list_elem_of_fmap. apply HP. }
  constructor; simpl; rewrite ?reserved_app, ?reserved_reserves.
  - rewrite filter_app, pruned_now. f_equal. symmetry. apply Hall. intros i. unfold at_least. simpl. lia.
  - apply Forall_app. split; [done|]. apply list.Forall_forall. intros e (i & -> & _)%list_elem_of_fmap. simpl. lia.
  - done.
  - intros t. rewrite filter_app, length_app.
    destruct (decide (t + max_seconds (spec (sup w)) < now)) as [Hlt|Hge].
    + assert (filter (within t (t + max_seconds (spec (sup w)))) (mkRestart now <$> ids) = []) as ->.
      { apply filter_keeps_none, list.Forall_forall. intros e (i & -> & _)%list_elem_of_fmap. unfold within. simpl. lia. }
      destruct Hrem as [_ _ _ H4]. specialize (H4 t). simpl in *. lia.
    + pose proof (length_filter (within t (t + max_seconds (spec (sup w)))) (mkRestart now <$> ids)) as Hnew.
      rewrite length_fmap in Hnew. rewrite pruned_now in Hmax.
      assert (length (filter (within t (t + max_seconds (spec (sup w)))) (reserved (events w))) <=
        length (filter (at_least (Z.max 0 (now - max_seconds (spec (sup w))))) (reserved (events w))))%nat.
      { apply length_filter_mono. intros e He. rewrite list.Forall_forall in Hpast. specialize (Hpast e He).
        unfold within, at_least. lia. }
      lia.
Qed.
End reservation.

Lemma effect_remembers x y since :
  0 <= max_seconds (spec (sup (world x))) →
  effect x y → remembers x since → ∃ since', remembers y since'.
Proof.
  intros Hms He Hx. destruct He as [f k w A c|f k w e Hq|f k w p|f k w i Hi|k w i pid b|k w pid Hr
    |k w pid i c b Hf Hp|f k w|f k w|f k w ids now Hnow Hmax|f k w Ht].
  9: { eexists. by eapply remembers_prune. }
  9: { subst now. eexists. by eapply remembers_reserve. }
  all: exists since; refine (remembers_frame _ _ _ _ _ _ _ _ _ _ _ Hx); simpl;
    rewrite ?spec_clear, ?spec_record, ?history_clear, ?reserved_app; try done.
  - apply seconds_mono.
  - by rewrite reserved_quiet, app_nil_r.
  - apply app_nil_r.
  - unfold record_child. by rewrite history_refresh.
Qed.
End intensity.

(** ** The methods

    [bounded] are the timeouts whose waits do not stall. *)
Section methods.
Context {stalls : Prop} (multi_thread : bool) (polls : nat) (bounded : option Z → Prop).
Context (wait_ends : ∀ pid timeout w,
  bounded timeout → wait_for_process_exit polls pid timeout w = None → stalls).
Implicit Types (w : World).

Abbreviation wps := (wp stalls).
Abbreviation stop_child := (stop_child multi_thread polls).
Abbreviation start_child_internal := (start_child_internal multi_thread polls).

(** A world whose waits all end. *)
Definition ready w : Prop :=
  children_wf (sup w) ∧ bounded (Some BRUTAL_SHUTDOWN_TIMEOUT) ∧
  Forall (fun c => bounded (stop_timeout (shutdown_policy c))) (spec_children (spec (sup w))).

Lemma moves_ready f k w f' k' w' : moves f k w f' k' w' → ready w → ready w'.
Proof.
  intros Hm (Hwf & Hb & Hc). unfold ready. rewrite (moves_spec _ _ _ _ _ _ Hm).
  eauto using moves_wf.
Qed.

Lemma ready_policy w i st :
  ready w → children (sup w) !! i = Some st → bounded (stop_timeout (shutdown_policy (child_spec st))).
Proof.
  intros (Hwf & _ & Hc) Hi. apply Hwf, find_spec_Some in Hi as [Hin _].
  rewrite list.Forall_forall in Hc. by apply Hc.
Qed.

Lemma wait_spec pid timeout w :
  bounded timeout →
  wps (wait_for_process_exit polls pid timeout) w
    (fun _ w' => ∃ l, calm w w' l ∧ Forall (fun e => e = EGone pid) l).
Proof.
  intros Hb. apply wp_from_partial; [|by apply wait_ends].
  apply wp_bind, wp_ask. eapply wp_mono; [apply wait_loop_spec|]. intros r w' (l & Hc & Hl).
  exists l. split; [|done]. exact (calm_trans _ _ _ _ _ (calm_call CInstant w) Hc).
Qed.

Lemma alter_cleared_None (i : list Z) (cs : gmap (list Z) ChildState) :
  cs !! i ≫= process = None → alter cleared i cs = cs.
Proof.
  intros Hp. apply map_eq. intros j. destruct (decide (i = j)) as [<-|Hne].
  - rewrite lookup_alter_eq. destruct (cs !! i) as [[c p n]|]; simplify_eq/=; done.
  - by rewrite lookup_alter_ne.
Qed.

(** The child's process is marked as gone after it was released. *)
Lemma calm_clear w w' l i st pid :
  calm w w' l → children (sup w) !! i = Some st → process st = Some pid →
  released_last pid (events w') →
  ∀ f k, moves f k w f k (with_sup (clear_process i) w').
Proof.
  intros Hc Hi Hp Hr f k. eapply moves_trans; [by eapply calm_moves|].
  apply moves_once, eff_clear. intros pid'. destruct Hc as (-> & _).
  unfold proc_of. rewrite Hi. simpl. rewrite Hp. by intros [= <-].
Qed.

Definition stop_post (i : list Z) w (r : result unit SupervisorError) w' : Prop :=
  (∀ f k, moves f k w f k w') ∧
  match r with
  | Ok _ =>
      children (sup w') = alter cleared i (children (sup w)) ∧ is_Some (children (sup w) !! i) ∧
      ∃ l, events w' = events w ++ l ∧
           acts l `sublist_of` (EKill <$> option_list (proc_of (sup w) i)) ∧
           ∀ pid, proc_of (sup w) i = Some pid → released pid l
  | Err _ => sup w' = sup w
  end.

Lemma stop_post_cleared i w w' l st pid :
  calm w w' l → children (sup w) !! i = Some st → process st = Some pid →
  released_last pid (events w') → acts l `sublist_of` [EKill pid] → released pid l →
  stop_post i w (Ok tt) (with_sup (clear_process i) w').
Proof.
  intros Hc Hi Hp Hr Ha Hl. split; [by eapply calm_clear|]. destruct Hc as (Hs & He & _). simpl.
  rewrite children_clear, Hs. split; [done|]. split; [by rewrite Hi|]. exists l. split; [done|].
  unfold proc_of. rewrite Hi. simpl. rewrite Hp. split; [done|]. by intros pid' [= <-].
Qed.

Lemma stop_child_spec i w : ready w → wps (stop_child i) w (stop_post i w).
Proof.
  intros Hready. apply wp_try, wp_ret. destruct multi_thread; [|by split; [intros; apply moves_refl|]].
  apply wp_bind, wp_get. destruct (children (sup w) !! i) as [st|] eqn:Hi.
  2: { by split; [intros; apply moves_refl|]. }
  destruct (process st) as [pid|] eqn:Hp.
  2: { split; [intros; apply moves_refl|]. rewrite alter_cleared_None by by rewrite Hi.
       split; [done|]. rewrite Hi. split; [by eexists|]. exists []. rewrite app_nil_r.
       split; [done|]. split; [apply sublist_nil_l|]. unfold proc_of. rewrite Hi. simpl. by rewrite Hp. }
  apply wp_bind. eapply wp_mono; [apply registered_spec|]. intros [|] w1 H1; simpl in H1; cycle 1.
  { apply wp_bind, wp_modify. eapply stop_post_cleared; [done..| |by apply sublist_nil_l|by right; left].
    destruct H1 as (_ & -> & _). apply released_last_event. by right. }
  apply wp_bind. eapply wp_mono; [apply kill_spec|]. intros [|] w2 H2; simpl; cycle 1.
  { pose proof (calm_trans _ _ _ _ _ H1 H2) as Hc. split; [by intros; eapply calm_moves|]. apply Hc. }
  pose proof (calm_trans _ _ _ _ _ H1 H2) as H12. simpl in H12.
  apply wp_try. eapply wp_mono; [apply wait_spec; by eapply ready_policy|].
  intros r w3 (l & H3 & Hl). pose proof (calm_trans _ _ _ _ _ H12 H3) as Hc. destruct r as [[]|e].
  - apply wp_bind, wp_modify. eapply stop_post_cleared; [done..| | |by left; left].
    + destruct H12 as (_ & He & _), H3 as (_ & -> & Hq & _). rewrite He.
      apply released_last_app; [done|]. apply released_last_event. by left.
    + rewrite acts_app, (acts_gone _ _ Hl). done.
  - split; [by intros; eapply calm_moves|]. apply Hc.
Qed.

(** A process that is not supervised after all has been released. *)
Lemma abandon_spec pid e w :
  bounded (Some BRUTAL_SHUTDOWN_TIMEOUT) →
  wps (abandon polls pid e) w (fun r w' => r = Err e ∧ ∃ l, calm w w' l ∧ released_last pid (events w')).
Proof.
  intros Hb. apply wp_bind. eapply wp_mono; [apply kill_spec|]. intros ? w1 H1.
  apply wp_bind. eapply wp_mono; [by apply wait_spec|]. intros ? w2 (l & H2 & _). apply wp_ret.
  split; [done|]. eexists. split; [exact (calm_trans _ _ _ _ _ H1 H2)|].
  destruct H1 as (_ & He & _), H2 as (_ & -> & Hq & _). rewrite He.
  apply released_last_app; [done|]. apply released_last_event. by left.
Qed.

Definition attach_post pid w (r : result unit SupervisorError) w' : Prop :=
  ∃ l, calm w w' l ∧ match r with Ok _ => acts l = [] | Err _ => released_last pid (events w') end.

Lemma attach_abandon pid e w0 w :
  bounded (Some BRUTAL_SHUTDOWN_TIMEOUT) → calm w0 w [] →
  wps (abandon polls pid e) w (attach_post pid w0).
Proof.
  intros Hb Hc. eapply wp_mono; [by apply abandon_spec|]. intros ? w' (-> & l & Hl & Hr).
  exists l. split; [exact (calm_trans _ _ _ _ _ Hc Hl)|done].
Qed.

Lemma attach_spec pid w :
  bounded (Some BRUTAL_SHUTDOWN_TIMEOUT) → wps (attach polls pid) w (attach_post pid w).
Proof.
  intros Hb. apply wp_bind, wp_get. destruct (monitor (sup w)).
  - apply wp_bind, wp_ask. pose proof (calm_call (CSendMonitor pid) w) as H1.
    set (w1 := with_host (call (CSendMonitor pid) (host w)).2 w) in *. clearbody w1.
    destruct (call (CSendMonitor pid) (host w)).1; simpl; [|by apply attach_abandon].
    apply wp_bind, wp_ask.
    pose proof (calm_trans _ _ _ _ _ H1 (calm_call (CAcknowledged pid) _)) as H2.
    destruct (call (CAcknowledged pid) (host w1)).1; simpl; [|by apply attach_abandon].
    by exists [].
  - apply wp_bind. eapply wp_mono; [apply registered_spec|]. intros [|] w1 H1; simpl.
    { by exists []. }
    apply wp_bind, wp_ask.
    pose proof (calm_trans _ _ _ _ _ H1 (calm_call (CNoTerminalReason pid) _)) as H2. simpl in H2.
    destruct (call (CNoTerminalReason pid) (host w1)).1; simpl; [|by exists [EGone pid]].
    apply wp_bind. eapply wp_mono; [apply kill_spec|]. intros ? w3 H3.
    eexists. split; [exact (calm_trans _ _ _ _ _ H2 H3)|].
    destruct H3 as (_ & -> & _). apply released_last_event. by left.
Qed.

Lemma moves_forgo (b : bool) k w : moves None (if b then S k else k) w None k w.
Proof. destruct b; [apply moves_once, eff_forgo|apply moves_refl]. Qed.

Definition start_post (i : list Z) (b : bool) w (r : result Z SupervisorError) w' : Prop :=
  (∀ k, moves None (if b then S k else k) w None k w') ∧
  match r with
  | Ok pid =>
      ∃ c, find_spec i (sup w) = Some c ∧
        children (sup w') = <[i := started_state c pid b (children (sup w) !! i)]> (children (sup w)) ∧
        ∃ l, events w' = events w ++ l ∧ acts l = [EStart i pid b]
  | Err _ => True
  end.

Lemma start_post_failed i b e w w' : (∀ f k, moves f k w f k w') → start_post i b w (Err e) w'.
Proof. intros Hm. split; [|done]. intros k. eapply moves_trans; [apply Hm|apply moves_forgo]. Qed.

(** The child has no process, or one that was seen to be gone. *)
Lemma is_running_spec i w :
  wps (is_running (children (sup w) !! i)) w (fun b w' => ∃ l, calm w w' l ∧ acts l = [] ∧
    (b = false → ∀ pid, proc_of (sup w) i = Some pid → released_last pid (events w'))).
Proof.
  unfold is_running, proc_of. destruct (children (sup w) !! i ≫= process) as [pid|].
  - eapply wp_mono; [apply registered_spec|]. intros b w' Hc. eexists. split; [exact Hc|].
    split; [by destruct b|]. intros -> pid' [= <-]. destruct Hc as (_ & -> & _).
    apply released_last_event. by right.
  - apply wp_ret. exists []. split; [apply calm_refl|done].
Qed.

Lemma record_after_clear (i : list Z) c pid b s :
  children (record_child i c pid b (clear_process i s)) =
    <[i := started_state c pid b (children s !! i)]> (children s).
Proof.
  rewrite children_record, children_clear, lookup_alter_eq. apply map_eq. intros j.
  destruct (decide (i = j)) as [<-|Hne].
  - rewrite !lookup_insert_eq. by destruct (children s !! i).
  - by rewrite !lookup_insert_ne, lookup_alter_ne.
Qed.

Lemma proc_of_cleared i s : proc_of (clear_process i s) i = None.
Proof. unfold proc_of. rewrite children_clear, lookup_alter_eq. by destruct (children s !! i). Qed.

(** From the return of the start function to the record of the child. *)
Lemma adopt_spec i b c pid l w0 w :
  bounded (Some BRUTAL_SHUTDOWN_TIMEOUT) → find_spec i (sup w0) = Some c →
  (∀ f k, moves f k w0 f k w) → sup w = clear_process i (sup w0) →
  events w = events w0 ++ l → acts l = [] →
  wps (_ ← emit [EStart i pid b];
       try_ (attach polls pid) (fun _ => _ ← modify (record_child i c pid b); mret (Ok pid))) w
    (start_post i b w0).
Proof.
  intros Hb Hf Hm Hs He Ha. apply wp_bind, wp_emit. set (w1 := with_events _ w).
  assert (∀ k, moves None (if b then S k else k) w0 (Some pid) k w1) as Hm1.
  { intros k. eapply moves_trans; [apply Hm|]. apply moves_once, eff_start. }
  apply wp_try. eapply wp_mono; [by apply attach_spec|]. intros r w2 (l2 & Hc & Hr).
  assert (∀ k, moves None (if b then S k else k) w0 (Some pid) k w2) as Hm2.
  { intros k. eapply moves_trans; [apply Hm1|]. by eapply calm_moves. }
  destruct Hc as (Hs2 & He2 & _). simpl in Hs2. destruct r as [[]|e]; cycle 1.
  { split; [|done]. intros k. eapply moves_trans; [apply Hm2|]. by apply moves_once, eff_land. }
  apply wp_bind, wp_modify. split.
  - intros k. eapply moves_trans; [apply Hm2|]. apply moves_once, eff_record; rewrite Hs2, Hs.
    + by rewrite (find_spec_spec _ (sup w0)) by apply spec_clear.
    + apply proc_of_cleared.
  - exists c. split; [done|]. simpl. rewrite Hs2, Hs. split; [apply record_after_clear|].
    exists (l ++ [EStart i pid b] ++ l2). rewrite He2, !acts_app, Ha, Hr. simpl. rewrite He.
    by rewrite <- !app_assoc.
Qed.

Lemma start_child_internal_spec i b w :
  ready w → wps (start_child_internal i b) w (start_post i b w).
Proof.
  intros Hready. apply wp_try, wp_ret. destruct multi_thread; [|by apply start_post_failed; intros; apply moves_refl].
  apply wp_bind, wp_get. destruct (find_spec i (sup w)) as [c|] eqn:Hf.
  2: { by apply start_post_failed; intros; apply moves_refl. }
  apply wp_bind. eapply wp_mono; [apply is_running_spec|]. intros [|] w1 (l & Hc & Ha & Hr).
  { apply start_post_failed. by intros; eapply calm_moves. }
  specialize (Hr eq_refl). apply wp_bind, wp_modify, wp_bind, wp_ask. set (w2 := with_host _ _).
  assert (∀ f k, moves f k w f k w2) as Hm2.
  { intros f k. eapply moves_trans; [by eapply calm_moves|].
    eapply moves_trans; [apply moves_once, eff_clear|apply moves_once, eff_call].
    destruct Hc as (-> & _). done. }
  destruct (call (CStart (start c)) (host (with_sup (clear_process i) w1))).1 as [pid| |];
    [|by apply start_post_failed..].
  destruct Hc as (Hs & He & _). eapply adopt_spec; [apply Hready|done|done| |done|done].
  subst w2. simpl. by rewrite Hs.
Qed.

(** ** Loops *)

Lemma stop_all_spec ids w :
  ready w → wps (stop_all multi_thread polls ids) w (fun _ w' => ∀ f k, moves f k w f k w').
Proof.
  revert w. induction ids as [|i ids IH]; intros w Hready; [intros f k; apply moves_refl|].
  apply wp_bind. eapply wp_mono; [by apply stop_child_spec|]. intros r w1 [Hm _].
  eapply wp_mono; [apply IH; by eapply (moves_ready None 0)|]. intros [] w2 Hm2 f k.
  eapply moves_trans; auto.
Qed.

(** The states of the stopped children are cleared, their processes killed at
    most once, in the order of the stops. *)
Definition stop_each_post (ids : list (list Z)) w (r : result unit SupervisorError) w' : Prop :=
  (∀ f k, moves f k w f k w') ∧
  (r = Ok tt → NoDup ids →
    (∀ i, children (sup w') !! i =
          if decide (i ∈ ids) then cleared <$> children (sup w) !! i else children (sup w) !! i) ∧
    (∀ i, i ∈ ids → is_Some (children (sup w) !! i)) ∧
    ∃ l, events w' = events w ++ l ∧ acts l `sublist_of` (EKill <$> omap (proc_of (sup w)) ids) ∧
         ∀ i pid, i ∈ ids → proc_of (sup w) i = Some pid → released pid l).

Lemma stop_each_spec ids w :
  ready w → wps (stop_each multi_thread polls ids) w (stop_each_post ids w).
Proof.
  revert w. induction ids as [|i ids IH]; intros w Hready.
  { split; [intros; apply moves_refl|]. intros _ _. split; [done|]. split; [by intros i ?%not_elem_of_nil|].
    exists []. rewrite app_nil_r. split; [done|]. split; [done|]. by intros i pid ?%not_elem_of_nil. }
  apply wp_try. eapply wp_mono; [by apply stop_child_spec|]. intros [[]|e] w1 [Hm Hr]; [|by split].
  destruct Hr as (Hch & Hsome & l & He & Ha & Hrel).
  eapply wp_mono; [apply IH; by eapply (moves_ready None 0)|]. intros r w2 [Hm2 Hr2].
  split; [intros; by eapply moves_trans|]. intros -> [Hnin Hnd]%list.NoDup_cons.
  destruct (Hr2 eq_refl Hnd) as (Hch2 & Hsome2 & l2 & He2 & Ha2 & Hrel2).
  assert (∀ j, j ∈ ids → children (sup w1) !! j = children (sup w) !! j) as Hsame.
  { intros j Hj. rewrite Hch. apply lookup_alter_ne. by intros ->. }
  split; [|split].
  - intros j. rewrite Hch2. destruct (decide (j = i)) as [->|Hne].
    + rewrite (decide_False (P := i ∈ ids)), decide_True, Hch by (done || left). apply lookup_alter_eq.
    + rewrite Hch, lookup_alter_ne by done. destruct (decide (j ∈ ids)) as [Hj|Hj].
      * by rewrite decide_True by (by right).
      * by rewrite decide_False by (by intros [?|?]%elem_of_cons).
  - intros j [->|Hj]%elem_of_cons; [done|]. rewrite <- Hsame by done. auto.
  - exists (l ++ l2). rewrite He2, He, app_assoc, acts_app. split; [done|].
    assert (∀ j, j ∈ ids → proc_of (sup w1) j = proc_of (sup w) j) as Hproc.
    { intros j Hj. unfold proc_of. by rewrite Hsame. }
    split; cycle 1.
    { intros j pid. rewrite released_app. intros [->|Hj]%elem_of_cons Hp; [by left; apply Hrel|].
      right. eapply Hrel2; [done|]. by rewrite Hproc. }
    rewrite (omap_app (proc_of (sup w)) [i] ids : omap _ (i :: ids) = _), fmap_app.
    apply sublist_app; [by destruct (proc_of (sup w) i) eqn:Hi; csimpl; rewrite ?Hi|].
    replace (omap (proc_of (sup w)) ids) with (omap (proc_of (sup w1)) ids); [done|].
    apply list_omap_ext, Forall2_same_length_lookup_2; [done|]. intros n x y Hx Hy. simplify_eq.
    by apply Hproc, (list_elem_of_lookup_2 _ n).
Qed.

Lemma moves_forgo_many n f k w : moves f (n + k)%nat w f k w.
Proof.
  induction n as [|n IH]; [apply moves_refl|]. eapply moves_trans; [apply moves_once, eff_forgo|done].
Qed.

(** The children are started in order; each state is that of a fresh start. *)
Definition start_each_post (b : bool) (ids : list (list Z)) w (r : result unit SupervisorError) w' : Prop :=
  (∀ k, moves None (if b then length ids + k else k)%nat w None k w') ∧
  (r = Ok tt → NoDup ids → ∃ pids, length pids = length ids ∧
    (∀ j i pid, ids !! j = Some i → pids !! j = Some pid → ∃ c, find_spec i (sup w) = Some c ∧
       children (sup w') !! i = Some (started_state c pid b (children (sup w) !! i))) ∧
    (∀ i, i ∉ ids → children (sup w') !! i = children (sup w) !! i) ∧
    ∃ l, events w' = events w ++ l ∧ acts l = zip_with (fun i pid => EStart i pid b) ids pids).

Lemma start_each_spec b started ids w :
  ready w → wps (start_each multi_thread polls b started ids) w (start_each_post b ids w).
Proof.
  revert started w. induction ids as [|i ids IH]; intros started w Hready.
  { split; [intros k; destruct b; apply moves_refl|]. intros _ _. exists []. split; [done|].
    split; [done|]. split; [done|]. exists []. by rewrite app_nil_r. }
  apply wp_bind. eapply wp_mono; [by apply start_child_internal_spec|]. intros r w1 [Hm Hr].
  assert (∀ k, moves None (if b then length (i :: ids) + k else k)%nat w None
                 (if b then length ids + k else k)%nat w1) as Hm1.
  { intros k. specialize (Hm (if b then length ids + k else k)%nat). by destruct b. }
  assert (ready w1) as Hready1 by (eapply (moves_ready _ _ _ _ _ _ (Hm1 0%nat)); done).
  destruct r as [pid|e]; cycle 1.
  { apply wp_bind. eapply wp_mono; [by apply stop_all_spec|]. intros [] w2 Hm2. apply wp_ret.
    split; [|done]. intros k. eapply moves_trans; [apply Hm1|]. eapply moves_trans; [apply Hm2|].
    destruct b; [apply moves_forgo_many|apply moves_refl]. }
  destruct Hr as (c & Hf & Hch & l & He & Ha).
  eapply wp_mono; [by apply IH|]. intros r w2 [Hm2 Hr2].
  split; [intros; by eapply moves_trans|]. intros -> [Hnin Hnd]%list.NoDup_cons.
  destruct (Hr2 eq_refl Hnd) as (pids & Hlen & Hin & Hout & l2 & He2 & Ha2).
  assert (spec (sup w1) = spec (sup w)) as Hspec by (by eapply moves_spec, (Hm1 0%nat)).
  exists (pid :: pids). split; [by simpl; f_equal|]. split; [|split].
  - intros [|j] i' pid' Hi Hp; simplify_eq/=.
    + exists c. split; [done|]. by rewrite Hout, Hch, lookup_insert_eq.
    + destruct (Hin _ _ _ Hi Hp) as (c' & Hf' & ->). exists c'.
      rewrite (find_spec_spec _ (sup w)) in Hf' by done. split; [done|].
      rewrite Hch, lookup_insert_ne; [done|]. intros <-. by apply Hnin, (list_elem_of_lookup_2 _ j).
  - intros j [Hne Hj]%not_elem_of_cons. by rewrite Hout, Hch, lookup_insert_ne.
  - exists (l ++ l2). rewrite He2, He, app_assoc, acts_app, Ha, Ha2. done.
Qed.

(** ** Restarts *)

Lemma sublist_fmap_inv {A B} (g : A → B) l k :
  k `sublist_of` (g <$> l) → ∃ k', k = g <$> k' ∧ k' `sublist_of` l.
Proof.
  revert k. induction l as [|a l IH]; intros k.
  - intros ->%sublist_nil_r. by exists [].
  - csimpl. intros [?|(k' & -> & ?)]%sublist_cons_r.
    + destruct (IH k) as (k' & -> & ?); [done|]. exists k'. split; [done|]. by apply sublist_cons.
    + destruct (IH k') as (k'' & -> & ?); [done|]. exists (a :: k''). split; [done|]. by apply sublist_skip.
Qed.

(** The children were restarted: their processes, killed in reverse order or gone,
    all before the first start; new processes, in order, and one more restart each;
    and nothing else. *)
Definition restarted (ids : list (list Z)) w w' : Prop :=
  ∃ pids kills l1 l2,
    length pids = length ids ∧
    (∀ j i pid, ids !! j = Some i → pids !! j = Some pid → ∃ st, children (sup w) !! i = Some st ∧
       children (sup w') !! i =
         Some (mkChild (child_spec st) (Some pid) (Z.min u32_max (restart_count st + 1)))) ∧
    (∀ i, i ∉ ids → children (sup w') !! i = children (sup w) !! i) ∧
    events w' = events w ++ l1 ++ l2 ∧
    acts l1 = EKill <$> kills ∧ kills `sublist_of` omap (proc_of (sup w)) (reverse ids) ∧
    (∀ i pid, i ∈ ids → proc_of (sup w) i = Some pid → released pid l1) ∧
    acts l2 = zip_with (fun i pid => EStart i pid true) ids pids.

Definition reserve_post (ids : list (list Z)) w (r : result unit SupervisorError) w' : Prop :=
  match r with
  | Ok _ =>
      children (sup w') = children (sup w) ∧
      (∃ l, events w' = events w ++ l ∧ acts l = []) ∧
      ∀ f k, moves f k w f (length ids + k)%nat w'
  | Err _ => ∀ f k, moves f k w f k w'
  end.

Lemma acts_reserve (ids : list (list Z)) now : acts ((fun i => EReserve i now) <$> ids) = [].
Proof. induction ids as [|i ids IH]; [done|]. unfold acts in *. csimpl. by rewrite filter_cons_False by auto. Qed.

Lemma reserve_restart_events_spec ids w :
  wps (reserve_restart_events ids) w (reserve_post ids w).
Proof.
  apply wp_bind, wp_ask, wp_bind, wp_get, wp_bind, wp_modify.
  change (filter _ (restart_history _)) with (pruned (call CTimestamp (host w)).1 (sup w)).
  cbn [sup with_host].
  destruct (max_restarts (spec (sup w)) <? _) eqn:Hmax; bool_to_prop.
  { apply wp_ret. intros f k. apply moves_once, eff_prune. }
  apply wp_bind, wp_modify, wp_bind, wp_emit, wp_ret. split; [done|]. split.
  - eexists. split; [done|]. apply acts_reserve.
  - intros f k. apply moves_once, (eff_reserve f k w ids _ eq_refl). lia.
Qed.

Definition restart_post ids w (r : result unit SupervisorError) w' : Prop :=
  (∀ k, moves None k w None k w') ∧ (r = Ok tt → NoDup ids → restarted ids w w').

Lemma restart_children_spec ids w :
  ready w → wps (restart_children multi_thread polls ids) w (restart_post ids w).
Proof.
  intros Hready. apply wp_try. eapply wp_mono; [apply reserve_restart_events_spec|].
  intros [[]|e] w1 Hr; [|by split; [intros; apply Hr|]]. destruct Hr as (Hch & (l & He & Ha) & Hm).
  apply wp_try. eapply wp_mono; [apply stop_each_spec; by eapply (moves_ready None 0)|].
  intros r w2 [Hm2 Hr2]. destruct r as [[]|e].
  2: { split; [|done]. intros k. eapply moves_trans; [apply Hm|]. eapply moves_trans; [apply Hm2|].
       apply moves_forgo_many. }
  assert (∀ k, moves None k w None (length ids + k)%nat w2) as Hm12 by (intros; by eapply moves_trans).
  eapply wp_mono; [apply start_each_spec; by eapply (moves_ready None 0 w)|].
  intros r w3 [Hm3 Hr3]. split; [intros k; eapply moves_trans; [apply Hm12|apply Hm3]|]. intros -> Hnd.
  destruct (Hr2 eq_refl) as (Hch2 & Hs2 & l2 & He2 & Ha2 & Hrel2); [by rewrite reverse_Permutation|].
  destruct (Hr3 eq_refl Hnd) as (pids & Hlen & Hin & Hout & l3 & He3 & Ha3).
  apply sublist_fmap_inv in Ha2 as (kills & Hkills & Hsub).
  unfold proc_of in *. rewrite Hch in Hch2, Hs2, Hrel2, Hsub.
  setoid_rewrite elem_of_reverse in Hs2. setoid_rewrite elem_of_reverse in Hrel2.
  exists pids, kills, (l ++ l2), l3. split; [done|]. repeat split.
  - intros j i pid Hi Hp. assert (i ∈ ids) as Hid by (by eapply list_elem_of_lookup_2).
    destruct (Hs2 i Hid) as [st Hst]. exists st. split; [done|].
    destruct (Hin _ _ _ Hi Hp) as (c & Hf & ->).
    rewrite Hch2, decide_True, Hst by by rewrite elem_of_reverse. simpl.
    rewrite (find_spec_spec _ (sup w)) in Hf by (by eapply moves_spec, (Hm12 0%nat)).
    destruct Hready as [Hwf _]. rewrite (Hwf i st Hst) in Hf. by simplify_eq.
  - intros i Hi. by rewrite Hout, Hch2, decide_False by (rewrite ?elem_of_reverse; done).
  - by rewrite He3, He2, He, <- !app_assoc.
  - by rewrite acts_app, Ha, Hkills.
  - done.
  - intros i pid Hi Hp. rewrite released_app. right. by eapply Hrel2.
  - done.
Qed.

(** ** The supervisor process *)

(** Everything that is neither in flight nor a credit before and after. *)
Definition settles w w' : Prop := ∀ k, moves None k w None k w'.

Lemma settles_refl w : settles w w.
Proof. intros k. apply moves_refl. Qed.
Lemma settles_trans w1 w2 w3 : settles w1 w2 → settles w2 w3 → settles w1 w3.
Proof. intros H1 H2 k. by eapply moves_trans. Qed.
Lemma settles_ready w w' : settles w w' → ready w → ready w'.
Proof. intros Hm. apply (moves_ready _ _ _ _ _ _ (Hm 0%nat)). Qed.
Lemma calm_settles w w' l : calm w w' l → settles w w'.
Proof. intros Hc k. by eapply calm_moves. Qed.

Lemma handle_child_exit_spec i reason w :
  ready w → wps (handle_child_exit multi_thread polls i reason) w (fun _ w' => settles w w').
Proof.
  intros Hready. apply wp_bind, wp_get. destruct (children (sup w) !! i) as [st|]; [|apply settles_refl].
  destruct (should_restart _ _); simpl.
  - destruct (affected i (sup w)) as [ids|e]; [|apply settles_refl].
    eapply wp_mono; [by apply restart_children_spec|]. by intros r w' [Hm _].
  - eapply wp_mono; [by apply stop_child_spec|]. intros r w' [Hm _] k. apply Hm.
Qed.

Lemma handle_process_exit_spec pid reason w :
  ready w → wps (handle_process_exit multi_thread polls pid reason) w (fun _ w' => settles w w').
Proof.
  intros Hready. apply wp_bind, wp_get. destruct (child_of pid (sup w)); [|apply settles_refl].
  by apply handle_child_exit_spec.
Qed.

Lemma shutdown_each_spec ids w :
  ready w → wps (shutdown_each multi_thread polls ids) w (fun r w' => settles w w' ∧
    (r = Ok tt → ∀ i, i ∈ ids ∨ proc_of (sup w) i = None → proc_of (sup w') i = None)).
Proof.
  revert w. induction ids as [|i ids IH]; intros w Hready.
  { split; [apply settles_refl|]. intros _ i [?%not_elem_of_nil|?]; done. }
  apply wp_bind, wp_get. case_bool_decide as Hi; cycle 1.
  { eapply wp_mono; [by apply IH|]. intros r w' [Hm Hr]. split; [done|]. intros -> j Hj.
    apply (Hr eq_refl). rewrite elem_of_cons in Hj. destruct Hj as [[->|?]|?]; [|by left|by right].
    right. unfold proc_of. apply eq_None_not_Some in Hi. by rewrite Hi. }
  apply wp_try. eapply wp_mono; [by apply stop_child_spec|]. intros [[]|e] w1 [Hm Hr]; [|by split; [intros k; apply Hm|]].
  assert (settles w w1) as Hm1 by (intros k; apply Hm).
  eapply wp_mono; [apply IH; by eapply settles_ready|]. intros r w' [Hm2 Hr2].
  split; [by eapply settles_trans|]. intros -> j Hj. apply (Hr2 eq_refl).
  rewrite elem_of_cons in Hj. unfold proc_of in *. destruct Hr as (-> & _).
  destruct (decide (i = j)) as [<-|Hne].
  - right. rewrite lookup_alter_eq. by destruct (children (sup w) !! i).
  - rewrite lookup_alter_ne by done. naive_solver.
Qed.

Lemma tracked_nil s : (∀ c, c ∈ spec_children (spec s) → proc_of s (id c) = None) → tracked s = [].
Proof.
  unfold tracked. generalize (spec_children (spec s)) as cs. induction cs as [|c cs IH]; intros Hc; [done|].
  csimpl. pose proof (Hc c ltac:(left)) as Hp. unfold proc_of in Hp.
  rewrite (Hp : (st ← children s !! id c; process st) = None). apply IH. intros c' ?. apply Hc. by right.
Qed.

(** An orderly shutdown leaves no process. *)
Lemma shutdown_spec w :
  ready w → wps (shutdown multi_thread polls) w
    (fun r w' => settles w w' ∧ (r = Ok tt → tracked (sup w') = [])).
Proof.
  intros Hready. apply wp_bind, wp_get. eapply wp_mono; [by apply shutdown_each_spec|].
  intros r w' [Hm Hr]. split; [done|]. intros ->. apply tracked_nil. intros c Hc.
  apply (Hr eq_refl). left. rewrite elem_of_reverse, <- (moves_spec _ _ _ _ _ _ (Hm 0%nat)).
  apply list_elem_of_fmap. eauto.
Qed.

Lemma count_active_spec sts w : wps (count_active sts) w (fun _ w' => ∃ l, calm w w' l).
Proof.
  revert w. induction sts as [|st sts IH]; intros w; [by eexists; apply calm_refl|].
  apply wp_bind. assert (wps (is_running (Some st)) w (fun _ w' => ∃ l, calm w w' l)) as Hrun.
  { unfold is_running. simpl. destruct (process st); [|by eexists; apply calm_refl].
    eapply wp_mono; [apply registered_spec|]. intros b w' Hc. eexists. exact Hc. }
  eapply wp_mono; [exact Hrun|]. intros b w1 [l1 H1].
  apply wp_bind. eapply wp_mono; [apply IH|]. intros n w2 [l2 H2]. apply wp_ret.
  eexists. by eapply calm_trans.
Qed.

Lemma publish_spec w : wps publish w (fun _ w' => settles w w' ∧ sup w' = sup w).
Proof.
  apply wp_bind, wp_get, wp_bind, wp_bind, wp_get, wp_bind. eapply wp_mono; [apply count_active_spec|].
  intros n w1 [l H1]. apply wp_ret, wp_set_published. split; [|apply H1].
  eapply settles_trans; [by eapply calm_settles|]. intros k. apply moves_once, eff_publish.
Qed.

Definition turn_post w (armed : bool) w' : Prop :=
  settles w w' ∧ (armed = false → tracked (sup w') = []).

Lemma supervisor_turn_spec i w :
  ready w → wps (supervisor_turn multi_thread polls i) w (fun r w' =>
    turn_post w match r with Some (_, armed) => armed | None => true end w').
Proof.
  intros Hready. assert (turn_post w true w) as Hsame by (split; [apply settles_refl|done]).
  destruct i as [[|]|[m|t|pid reason]]; [|exact Hsame..|].
  - apply wp_bind. eapply wp_mono; [by apply shutdown_spec|]. intros r w1 [H1 Hr].
    apply wp_bind. eapply wp_mono; [apply publish_spec|]. intros [] w2 [H2 Hs].
    assert (settles w w2) as H12 by (by eapply settles_trans).
    destruct r as [[]|e]; [|by split].
    assert (tracked (sup w2) = []) as Ht by (rewrite Hs; auto).
    apply wp_bind, wp_modify, wp_ret. split.
    + eapply settles_trans; [done|]. intros k. by apply moves_once, eff_disarm.
    + intros _. exact Ht.
  - apply wp_bind. eapply wp_mono; [by apply handle_process_exit_spec|]. intros r w1 H1.
    destruct r as [[]|e].
    + apply wp_bind. eapply wp_mono; [apply publish_spec|]. intros [] w2 [H2 _].
      split; [by eapply settles_trans|done].
    + apply wp_bind. eapply wp_mono; [apply shutdown_spec; by eapply settles_ready|]. intros r w2 [H2 _].
      apply wp_bind. eapply wp_mono; [apply publish_spec|]. intros [] w3 [H3 _]. apply wp_ret.
      split; [|done]. eapply settles_trans; [done|]. by eapply settles_trans.
Qed.

Lemma supervisor_loop_spec inputs w :
  ready w → wps (supervisor_loop multi_thread polls inputs) w (fun p w' => turn_post w p.2 w').
Proof.
  revert w. induction inputs as [|i inputs IH]; intros w Hready.
  { split; [apply settles_refl|done]. }
  apply wp_bind. eapply wp_mono; [by apply supervisor_turn_spec|].
  intros [[outcome armed]|] w1 [H1 Ht]; [by split|].
  eapply wp_mono; [apply IH; by eapply settles_ready|]. intros p w2 [H2 Ht2].
  split; [by eapply settles_trans|done].
Qed.

Lemma kill_all_spec pids w :
  wps (kill_all pids) w (fun _ w' => ∃ l, calm w w' l ∧ ∀ pid, pid ∈ pids → EKill pid ∈ l).
Proof.
  revert w. induction pids as [|pid pids IH]; intros w.
  { exists []. split; [apply calm_refl|]. by intros ? ?%not_elem_of_nil. }
  apply wp_bind. eapply wp_mono; [apply kill_spec|]. intros b w1 H1.
  eapply wp_mono; [apply IH|]. intros [] w2 (l & H2 & Hl). eexists.
  split; [exact (calm_trans _ _ _ _ _ H1 H2)|]. intros p [->|Hp]%elem_of_cons.
  - left.
  - right. by apply Hl.
Qed.

(** The state in which the supervisor process begins. *)
Definition begin w : World :=
  with_sup (fun s => mkSupervisor (spec s) (children s) (restart_history s) true (Some [])) w.

Definition main_post w w' : Prop :=
  ∃ w1 l, settles (begin w) w1 ∧ calm w1 w' l ∧ ∀ pid, pid ∈ tracked (sup w1) → EKill pid ∈ l.

Lemma settles_tracker w w' : settles w w' → tracker_ok (sup w) → tracker_ok (sup w').
Proof.
  intros Hm Ht. specialize (Hm 0%nat).
  apply (rtc_invariant effect (fun x => tracker_ok (sup (world x)))) in Hm; auto.
  intros a b Ha Hb. by eapply effect_tracker.
Qed.

Lemma begin_tracker w : children (sup w) = ∅ → tracker_ok (sup (begin w)).
Proof.
  intros Hch. unfold tracker_ok. rewrite tracked_nil; [done|]. intros c _. unfold proc_of. simpl.
  by rewrite Hch, lookup_empty.
Qed.

Lemma process_guard_drop_spec armed w :
  tracker_ok (sup w) → (armed = false → tracked (sup w) = []) →
  wps (process_guard_drop armed) w
    (fun _ w' => ∃ l, calm w w' l ∧ ∀ pid, pid ∈ tracked (sup w) → EKill pid ∈ l).
Proof.
  intros Ht Ha. destruct armed; simpl; cycle 1.
  { apply wp_ret. rewrite Ha by done. exists []. split; [apply calm_refl|]. by intros ? ?%not_elem_of_nil. }
  apply wp_bind, wp_get. rewrite Ht. simpl. eapply wp_mono; [apply kill_all_spec|].
  intros [] w' (l & Hc & Hl). exists l. split; [done|]. intros pid Hp. apply Hl. by rewrite elem_of_reverse.
Qed.

Lemma supervisor_main_spec inputs w :
  ready w → children (sup w) = ∅ →
  wps (supervisor_main multi_thread polls inputs) w (fun _ w' => main_post w w').
Proof.
  intros Hready Hch. apply wp_bind, wp_modify. fold (begin w).
  assert (ready (begin w)) as Hready0 by exact Hready.
  apply wp_bind, wp_bind, wp_get. eapply wp_mono; [by apply start_each_spec|]. intros started w1 [H1 _].
  assert (settles (begin w) w1) as Hs1 by exact H1.
  apply wp_bind. eapply wp_mono; [apply publish_spec|]. intros [] w2 [H2 _].
  assert (settles (begin w) w2) as Hs2 by (by eapply settles_trans).
  apply wp_bind.
  assert (wps match started with
              | Err e => mret (Some (Err (e, None)), true)
              | Ok _ => supervisor_loop multi_thread polls inputs end w2 (fun p w' => turn_post w2 p.2 w')) as Hloop.
  { destruct started as [[]|e]; [apply supervisor_loop_spec; by eapply settles_ready|].
    split; [apply settles_refl|done]. }
  eapply wp_mono; [exact Hloop|]. intros p w3 [H3 Ht].
  assert (settles (begin w) w3) as Hs3 by (by eapply settles_trans).
  apply wp_bind. eapply wp_mono; [apply process_guard_drop_spec; [|done]|].
  { eapply settles_tracker; [done|]. by apply begin_tracker. }
  intros [] w4 (l & Hc & Hl). apply wp_ret. by exists w3, l.
Qed.

(** A supervisor process from its spawning to its end. *)
Lemma spawn_spec inputs w :
  ready w → children (sup w) = ∅ →
  wps (spawn_with_environment multi_thread polls inputs) w (fun _ w' =>
    ∃ w1, settles w w1 ∧ sup w1 = sup w ∧ (w' = w1 ∨ main_post w1 w')).
Proof.
  intros Hready Hch. pose proof (supervisor_main_spec inputs) as Hmain.
  apply wp_try, wp_ret. destruct multi_thread; cycle 1.
  { exists w. split; [apply settles_refl|]. split; [done|]. by left. }
  apply wp_bind. eapply wp_mono; [apply publish_spec|]. intros [] w1 [H1 Hs].
  apply wp_bind, wp_ask. set (w2 := with_host _ w1).
  assert (settles w w2) as H2 by (eapply settles_trans; [done|]; eapply calm_settles, calm_call).
  assert (sup w2 = sup w) as Hs2 by done. clearbody w2.
  destruct (call CSpawn (host w1)).1; simpl; [|by exists w2; split; [|split; [|left]]].
  apply wp_bind. eapply wp_mono; [apply Hmain|].
  - by eapply settles_ready.
  - by rewrite Hs2.
  - intros o w3 H3. apply wp_ret. exists w2. split; [done|]. split; [done|]. by right.
Qed.
End methods.
End supervision.

(** ** What a strategy restarts *)

(** The children in the scope of the failure of [c]. *)
Definition in_scope (s : Supervisor) (c i : list Z) : Prop :=
  let ids := id <$> spec_children (spec s) in
  match strategy (spec s) with
  | OneForOne | SimpleOneForOne => i = c
  | OneForAll => i ∈ ids
  | RestForOne => ∃ j k, ids !! j = Some c ∧ ids !! k = Some i ∧ (j <= k)%nat
  end.

Lemma child_of_Some pid s c :
  child_of pid s = Some c → ∃ st, children s !! c = Some st ∧ process st = Some pid.
Proof.
  unfold child_of. intros ([c' st] & Hh & ->)%fmap_Some_1. exists st.
  destruct (filter _ _) as [|p l] eqn:Hf; simplify_eq/=.
  assert ((c', st) ∈ filter (fun p => process p.2 = Some pid) (map_to_list (children s))) as Hin
    by (rewrite Hf; left).
  apply list_elem_of_filter in Hin as [Hp Hin]. by rewrite elem_of_map_to_list in Hin.
Qed.

Lemma child_of_None pid s i : child_of pid s = None → proc_of s i ≠ Some pid.
Proof.
  unfold child_of, proc_of. intros Hh%fmap_None. destruct (children s !! i) as [st|] eqn:Hi; [|done].
  simpl. intros Hp. destruct (filter _ _) as [|p l] eqn:Hf; [|done].
  assert ((i, st) ∈ filter (fun p => process p.2 = Some pid) (map_to_list (children s))) as Hin
    by (apply list_elem_of_filter; by rewrite elem_of_map_to_list).
  rewrite Hf in Hin. by apply not_elem_of_nil in Hin.
Qed.

Lemma elem_of_tracked s pid :
  children_wf s → (∃ i, proc_of s i = Some pid) → pid ∈ tracked s.
Proof.
  unfold proc_of. intros Hwf [i Hi]. destruct (children s !! i) as [st|] eqn:Hst; simplify_eq/=.
  pose proof (Hwf i st Hst) as [Hin Hid]%find_spec_Some. unfold tracked. apply list_elem_of_omap.
  exists (child_spec st). split; [done|]. by rewrite Hid, Hst.
Qed.

Lemma affected_of_sublist c s cs : affected_of c s cs `sublist_of` (id <$> cs).
Proof. apply fmap_sublist, sublist_filter. Qed.

Lemma elem_of_affected_of c s cs i :
  has_process s c → i ∈ affected_of c s cs ↔ i ∈ id <$> cs ∧ has_process s i.
Proof.
  intros Hc. unfold affected_of. rewrite !list_elem_of_fmap. setoid_rewrite list_elem_of_filter.
  split; [intros (x & -> & [<-|Hp] & Hx)|intros ((x & -> & Hx) & Hp)]; eauto 10.
Qed.

(** The affected children, in the order of the specification, are those with a
    process in the scope of the failure. *)
Lemma affected_exact c s ids :
  NoDup (id <$> spec_children (spec s)) → has_process s c → c ∈ id <$> spec_children (spec s) →
  affected c s = Ok ids →
  ids `sublist_of` (id <$> spec_children (spec s)) ∧ ∀ i, i ∈ ids ↔ has_process s i ∧ in_scope s c i.
Proof.
  intros Hnd Hp Hin. unfold affected, in_scope.
  destruct (strategy (spec s)).
  1,4: intros [= <-]; split; [by apply singleton_sublist_l|]; intros i;
    rewrite list_elem_of_singleton; naive_solver.
  - intros [= <-]. split; [apply affected_of_sublist|]. intros i. rewrite elem_of_affected_of by done. naive_solver.
  - destruct (position _ _) as [n|] eqn:Hpos; [|done]. intros [= <-].
    apply position_Some in Hpos as (x & Hx & Hid & _). bool_to_prop.
    assert ((id <$> spec_children (spec s)) !! n = Some c) as Hn by (by rewrite list_lookup_fmap, Hx; simpl; f_equal).
    split.
    { etrans; [apply affected_of_sublist|]. apply fmap_sublist, sublist_drop. }
    intros i. rewrite elem_of_affected_of by done. rewrite fmap_drop, list_elem_of_lookup. setoid_rewrite lookup_drop.
    split; [intros [[k Hk] Hi]|intros (Hi & j & k & Hj & Hk & Hle)].
    + split; [done|]. exists n, (n + k)%nat. split_and!; [done|done|lia].
    + split; [|done]. pose proof (NoDup_lookup _ _ _ _ Hnd Hj Hn) as ->. exists (k - n)%nat. by replace (n + (k - n))%nat with k by lia.
Qed.

(** ** Theorems *)

Section theorems.
Context {H : Type} `{!Host H}.
Implicit Types (w : @World H).

(** The world of a supervisor that is about to be spawned. *)
Definition initial (sp : SupervisorSpec) (h : H) : @World H := mkWorld (with_environment sp) h [] None.

Lemma initial_ready bounded sp h :
  bounded (Some BRUTAL_SHUTDOWN_TIMEOUT) →
  Forall (fun c => bounded (stop_timeout (shutdown_policy c))) (spec_children sp) →
  ready bounded (initial sp h).
Proof. intros Hb Hc. split; [intros i st; simpl; by rewrite lookup_empty|by split]. Qed.

Lemma spawn_runs multi_thread polls inputs sp h r w' :
  spawn_with_environment multi_thread polls inputs (initial sp h) = Some (r, w') →
  ∃ w1, settles (initial sp h) w1 ∧ sup w1 = with_environment sp ∧ (w' = w1 ∨ main_post w1 w').
Proof.
  intros Hrun. pose proof (spawn_spec (stalls := True) multi_thread polls (fun _ => True)
    (fun _ _ _ _ _ => I) inputs (initial sp h)) as Hspec.
  unfold wp in Hspec. rewrite Hrun in Hspec. apply Hspec; [|done].
  apply initial_ready; [done|]. by apply list.Forall_forall.
Qed.

(** An invariant of effects that the beginning of the process and calls keep. *)
Lemma spawn_invariant (P : Config → Prop) multi_thread polls inputs sp h r w' :
  (∀ x y, effect x y → P x → P y) →
  (∀ w, sup w = with_environment sp → P (mkConfig None 0 w) → P (mkConfig None 0 (begin w))) →
  P (mkConfig None 0 (initial sp h)) →
  spawn_with_environment multi_thread polls inputs (initial sp h) = Some (r, w') →
  P (mkConfig None 0 w').
Proof.
  intros Heff Hbegin Hinit Hrun. apply spawn_runs in Hrun as (w1 & H1 & Hs & Hend).
  assert (∀ w w', settles w w' → P (mkConfig None 0 w) → P (mkConfig None 0 w')) as Hset.
  { intros w w'' Hm Hp. refine (rtc_invariant effect P _ _ _ Hp (Hm 0%nat)). eauto. }
  destruct Hend as [->|(w2 & l & H2 & H3 & _)]; [by eapply Hset|].
  eapply Hset; [by eapply calm_settles|]. eapply Hset; [done|]. apply Hbegin; [done|]. by eapply Hset.
Qed.
(** C29. No child is left behind: when a supervisor process has ended, orderly, by
    escalation, by a failed start or because it was killed, every process that a
    start function returned has afterwards been sent a kill or been seen to be gone;
    and the children are at all times kept under their identifiers with their
    specifications. *)
Theorem no_child_left_behind multi_thread polls inputs sp h r w' :
  spawn_with_environment multi_thread polls inputs (initial sp h) = Some (r, w') →
  children_wf (sup w') ∧
  ∀ l1 i pid b l2, events w' = l1 ++ EStart i pid b :: l2 → EKill pid ∈ l2 ∨ EGone pid ∈ l2.
Proof.
  intros Hrun. split.
  { apply (spawn_invariant (fun x => children_wf (sup (world x)))) in Hrun; [done| |done|].
    - intros x y He. by apply effect_wf.
    - intros i st. simpl. by rewrite lookup_empty. }
  intros l1 i pid b l2 Heq.
  destruct (spawn_runs _ _ _ _ _ _ _ Hrun) as (w1 & H1 & Hs & Hend).
  assert (accounted (mkConfig None 0 w1)) as Hacc1.
  { refine (rtc_invariant effect accounted (mkConfig None 0 (initial sp h)) _ _ _ (H1 0%nat)).
    - intros x y Hx He. by eapply effect_accounted.
    - intros k1 ? ? ? k2. simpl. by destruct k1. }
  assert (∀ j, proc_of (sup w1) j = None) as Hnone.
  { intros j. unfold proc_of. rewrite Hs. simpl. by rewrite lookup_empty. }
  destruct Hend as [->|(w2 & l & H2 & H3 & Hkill)].
  { destruct (Hacc1 _ _ _ _ _ Heq) as [?|[[j Hj]|?]]; [done| |done]. by rewrite Hnone in Hj. }
  assert (accounted (mkConfig None 0 w2)) as Hacc.
  { refine (rtc_invariant effect accounted _ _ _ _ (H2 0%nat)); [intros x y Hx He; by eapply effect_accounted|].
    exact Hacc1. }
  destruct H3 as (_ & He & Hq & _). rewrite He in Heq.
  apply start_before in Heq as (l3 & Heq & ->); [|eapply Forall_impl; [exact Hq|apply not_start_quiet]].
  apply released_app. destruct (Hacc _ _ _ _ _ Heq) as [?|[[j Hj]|?]]; [by left| |done].
  right. left. apply Hkill. apply elem_of_tracked; [|by eexists].
  refine (moves_wf _ _ _ _ _ _ (H2 0%nat) _). intros i' st. simpl. rewrite Hs. simpl. by rewrite lookup_empty.
Qed.

(** C30. Restart intensity, as the supervisor accounts for it.  As long as the system time is
    not set back, the restarts that a supervisor process decides and accounts for in any
    window of [max_seconds] seconds, both ends included, are at most [max_restarts]; and at
    every point of its history the restarts it has made are at most those it has accounted
    for before.  The bound is on the times of the decisions: a restarted child starts later,
    once the old processes have been stopped. *)
Theorem restart_intensity_bounded `{!SteadyHost H} multi_thread polls inputs sp h r w' :
  0 <= max_seconds sp → 0 <= max_restarts sp →
  spawn_with_environment multi_thread polls inputs (initial sp h) = Some (r, w') →
  (∀ t, Z.of_nat (length (filter (within t (t + max_seconds sp)) (reserved (events w')))) <= max_restarts sp) ∧
  (∀ l1 l2, events w' = l1 ++ l2 → (count is_restart_start l1 <= length (reserved l1))%nat).
Proof.
  intros Hms Hmr Hrun. split.
  - apply (spawn_invariant (fun x => spec (sup (world x)) = sp ∧ ∃ since, remembers x since)) in Hrun
      as [Hsp [since [_ _ _ Hrate]]]; [by simpl in *; rewrite Hsp in Hrate| | |].
    + intros x y He [Hsp [since Hx]]. rewrite (effect_spec_same _ _ He). split; [done|].
      eapply effect_remembers; [by rewrite Hsp|done..].
    + intros w Hs [Hsp [since Hx]]. split; [done|]. exists since. revert Hx. by apply remembers_frame.
    + split; [done|]. exists (seconds h). by constructor.
  - apply (spawn_invariant (fun x => credit_ok x ∧ paid_before (events (world x)))) in Hrun; [apply Hrun|..].
    + intros x y He. by apply effect_paid.
    + done.
    + split; [unfold credit_ok; simpl; lia|]. by intros [|??] l2 [=].
Qed.


Section clocked.
Context `{!ClockedHost H}.

(** A wait with a timeout of [ms] milliseconds polls at most [ms + 1] times. *)
Lemma wait_loop_ends fuel pid started ms w :
  ms * 1000000 <= clock (host w) - started + (Z.of_nat fuel - 1) * 1000000 → (0 < fuel)%nat →
  is_Some (wait_loop fuel pid started (Some ms) w).
Proof.
  revert w. induction fuel as [|fuel IH]; intros w Hms Hf; [lia|].
  enough (wp False (wait_loop (S fuel) pid started (Some ms)) w (fun _ _ => True)) as Hwp.
  { unfold wp in Hwp. by destruct (wait_loop _ _ _ _ w) as [[]|]. }
  assert (∀ A (c : Call A) h, clock h <= clock (call c h).2) as Hmono by (intros; apply clock_mono).
  cbn [wait_loop]. apply wp_bind, wp_bind, wp_ask, wp_bind. set (w1 := with_host _ w).
  assert (clock (host w) <= clock (host w1)) as H1 by apply Hmono. clearbody w1.
  destruct (call (CGetProcess pid) (host w)).1; [|done].
  apply wp_ret, wp_ret, wp_bind, wp_bind, wp_ask, wp_ret. set (w2 := with_host _ w1).
  assert (clock (host w1) <= clock (host w2)) as H2 by apply Hmono. rewrite instant_clock. clearbody w2.
  destruct (ms * 1000000 <=? _) eqn:Hlate; [done|]. bool_to_prop.
  apply wp_bind, wp_ask. set (w3 := with_host _ w2).
  assert (clock (host w2) + 1000000 <= clock (host w3)) as H3 by apply sleep_advances. clearbody w3.
  unfold wp. destruct (IH w3) as [[r w4] ->]; [lia..|done].
Qed.

(** The timeouts that [polls] polls cover. *)
Definition covered (polls : nat) (timeout : option Z) : Prop :=
  ∃ ms, timeout = Some ms ∧ ms < Z.of_nat polls.

Lemma wait_covered polls pid timeout w :
  (0 < polls)%nat → covered polls timeout → wait_for_process_exit polls pid timeout w = None → False.
Proof.
  intros Hpos (ms & -> & Hms) Hnone. unfold wait_for_process_exit, mbind, m_bind, ask in Hnone.
  pose proof (instant_clock (host w)) as Hi. pose proof (clock_mono CInstant (host w)) as Hm.
  destruct (call CInstant (host w)) as [started h']. simpl in *.
  eapply eq_None_not_Some; [exact Hnone|]. apply wait_loop_ends; simpl; lia.
Qed.

(** C31. A supervisor process whose children all have a shutdown timeout never
    hangs: for whatever children do, every turn ends, a wait polling at most once
    per millisecond of its timeout and once more; so does the process on every
    sequence of messages and requests. *)
Theorem supervisor_never_hangs multi_thread polls inputs sp h :
  BRUTAL_SHUTDOWN_TIMEOUT < Z.of_nat polls →
  Forall (fun c => ∃ ms, stop_timeout (shutdown_policy c) = Some ms ∧ ms < Z.of_nat polls) (spec_children sp) →
  is_Some (spawn_with_environment multi_thread polls inputs (initial sp h)).
Proof.
  intros Hbrutal Hall.
  assert (0 < polls)%nat as Hpos by (unfold BRUTAL_SHUTDOWN_TIMEOUT in *; lia).
  pose proof (spawn_spec (stalls := False) multi_thread polls (covered polls)
    (fun pid timeout w => wait_covered polls pid timeout w Hpos) inputs (initial sp h)) as Hspec.
  unfold wp in Hspec. destruct (spawn_with_environment _ _ _ _) as [[r w']|]; [by eexists|].
  destruct Hspec; [|done]. apply initial_ready; [by eexists|done].
Qed.
End clocked.

End theorems.

(** ** A concrete host

    Start function 0 returns a fresh process, others fail; kills work at once; time
    passes only in sleeps. *)
Module Demo.
Record Toy : Type := mkToy { next : Z; alive : list Z; time : N }.

Definition toy_call {A} (c : Call A) (h : Toy) : A * Toy :=
  match c in Call A return A * Toy with
  | CGetProcess pid => (bool_decide (pid ∈ alive h), h)
  | CStart f =>
      if f =? 0 then (Started (next h), mkToy (next h + 1) (next h :: alive h) (time h)) else (StartError, h)
  | CSendMonitor _ => (true, h)
  | CAcknowledged _ => (true, h)
  | CSendKill pid => (true, mkToy (next h) (filter (fun p => p ≠ pid) (alive h)) (time h))
  | CNoTerminalReason _ => (false, h)
  | CInstant => (Z.of_N (time h), h)
  | CSleep => (tt, mkToy (next h) (alive h) (time h + 1000000)%N)
  | CTimestamp => (Z.of_N (time h), h)
  | CSpawn => (true, h)
  end.

#[global] Instance toy_host : Host Toy := @toy_call.

#[global] Instance toy_clocked : ClockedHost Toy.
Proof.
  refine {| clock h := Z.of_N (time h) |}.
  - done.
  - intros A [pid|f|pid|pid|pid|pid| | | |] h; unfold call, toy_host; simpl; try lia.
    destruct (f =? 0); simpl; lia.
  - intros h. simpl. lia.
Defined.

#[global] Instance toy_steady : SteadyHost Toy.
Proof.
  refine {| seconds h := Z.of_N (time h) |}.
  - done.
  - intros h. lia.
  - intros A [pid|f|pid|pid|pid|pid| | | |] h; unfold call, toy_host; simpl; try lia.
    destruct (f =? 0); simpl; lia.
Defined.

Definition worker (i : Z) : ChildSpec := mkChildSpec [i] 0 Permanent (Timeout_ms 3) Worker.
Definition sp (st : RestartStrategy) : SupervisorSpec := mkSupervisorSpec st 3 5 [worker 1; worker 2; worker 3].
Definition inputs : list Input := [Changed false; Mail (ProcessDied 2 Failure); Changed true].

Definition run : option (result (option Outcome) SupervisorError * World) :=
  spawn_with_environment true 10 inputs (initial (sp RestForOne) (mkToy 1 [] 0)).

(** The supervisor after its children were started. *)
Definition sup_started (st : RestartStrategy) : @World Toy :=
  match (_ ← start_children true 10; mret tt) (initial (sp st) (mkToy 1 [] 0)) with
  | Some (_, w) => w
  | None => initial (sp st) (mkToy 1 [] 0)
  end.
End Demo.

(** The second of three children dies and is restarted with the third. *)
Lemma no_child_left_behind_witness :
  match Demo.run with
  | Some (r, w') =>
      r = Ok (Some (Ok tt)) ∧ acts (events w') =
        [EStart [1] 1 false; EStart [2] 2 false; EStart [3] 3 false; EKill 3; EKill 2;
         EStart [2] 4 true; EStart [3] 5 true; EKill 5; EKill 4; EKill 1] ∧
      children_wf (sup w') ∧
      ∀ l1 i pid b l2, events w' = l1 ++ EStart i pid b :: l2 → EKill pid ∈ l2 ∨ EGone pid ∈ l2
  | None => False
  end.
Proof.
  destruct Demo.run as [[r w']|] eqn:Hrun; [|by vm_compute in Hrun].
  assert ((fun p => (p.1, acts (events p.2))) <$> Demo.run = Some (Ok (Some (Ok tt)),
        [EStart [1] 1 false; EStart [2] 2 false; EStart [3] 3 false; EKill 3; EKill 2;
         EStart [2] 4 true; EStart [3] 5 true; EKill 5; EKill 4; EKill 1])) as Hacts by (vm_compute; reflexivity).
  rewrite Hrun in Hacts. simpl in Hacts. injection Hacts as Hr Ha. split; [exact Hr|]. split; [exact Ha|].
  exact (no_child_left_behind true 10 Demo.inputs (Demo.sp RestForOne) (Demo.mkToy 1 [] 0) r w' Hrun).
Defined.

Lemma restart_intensity_bounded_witness :
  match Demo.run with
  | Some (r, w') =>
      (∀ t, Z.of_nat (length (filter (within t (t + 5)) (reserved (events w')))) <= 3) ∧
      (∀ l1 l2, events w' = l1 ++ l2 → (count is_restart_start l1 <= length (reserved l1))%nat)
  | None => False
  end.
Proof.
  destruct Demo.run as [[r w']|] eqn:Hrun; [|by vm_compute in Hrun].
  exact (restart_intensity_bounded true 10 Demo.inputs (Demo.sp RestForOne) (Demo.mkToy 1 [] 0) r w'
    ltac:(simpl; lia) ltac:(simpl; lia) Hrun).
Defined.

Lemma supervisor_never_hangs_witness :
  is_Some (spawn_with_environment true (Z.to_nat 6000) Demo.inputs
             (initial (Demo.sp OneForAll) (Demo.mkToy 1 [] 0))).
Proof.
  apply (supervisor_never_hangs true (Z.to_nat 6000) Demo.inputs (Demo.sp OneForAll) (Demo.mkToy 1 [] 0)).
  - unfold BRUTAL_SHUTDOWN_TIMEOUT. lia.
  - repeat constructor; exists 3; (split; [reflexivity|lia]).
Defined.

