(* ===== verification/Reload.v ===== *)
(** * Reloading one process: [crates/lunatic-process/src/signature_validation.rs],
      [perform_pending_reload] of [lib.rs], [snapshot_memory] and [restore_memory]
      of [runtimes/wasmtime.rs], and the execution driver [run_wasm_execution] of
      [wasm.rs]

    The driver of a WebAssembly process takes reload commands from its queue.  A
    reload checks that the exports of the target version are compatible, makes an
    instance of it with the memory, the fuel and the resources of the old one, swaps
    them, moves the version accounting, and answers.

    What the engine and the state of the process do ([Runtime]) is a parameter; it
    may depend on the outside ([E]) in any way. *)

From S2P Require Import Prelude External Message ModuleRegistry Versions Process.

(** ** Signatures *)

(** Value types are compared with [ValType::eq] only. *)
Inductive ExternType : Type :=
| ExtFunc (params results : list Z)
| ExtMemory (minimum : Z)
| ExtTable
| ExtGlobal
| ExtTag.

Definition ExportType : Type := list Z * ExternType.

Inductive ValidationError : Type :=
| MissingExport (name : list Z)
| TypeMismatch (name : list Z) (expected got : ExternType)
| MemorySizeMismatch (expected got : Z)
| IncompatibleSignature (name : list Z).

Fixpoint all_equal (old new : list Z) : bool :=
  match old, new with
  | o :: old, n :: new => (o =? n) && all_equal old new
  | _, _ => true
  end.

Definition same_val_types (old new : list Z) : bool :=
  bool_decide (length old = length new) && all_equal old new.

Definition validate_func_types (name : list Z) (old_params old_results new_params new_results : list Z)
    : result unit ValidationError :=
  if negb (same_val_types old_params new_params) then Err (IncompatibleSignature name)
  else if negb (same_val_types old_results new_results) then Err (IncompatibleSignature name)
  else Ok tt.

Definition validate_memory_types (old new : Z) : result unit ValidationError :=
  if new <? old then Err (MemorySizeMismatch old new) else Ok tt.

Definition validate_export_types (name : list Z) (old new : ExternType) : result unit ValidationError :=
  match old, new with
  | ExtFunc op or, ExtFunc np nr => validate_func_types name op or np nr
  | ExtMemory o, ExtMemory n => validate_memory_types o n
  | ExtTable, ExtTable | ExtGlobal, ExtGlobal => Ok tt
  | _, _ => Err (TypeMismatch name old new)
  end.

(** [new_exports.iter().find(|e| e.name() == export_name)] *)
Definition find_export (name : list Z) (exports : list ExportType) : option ExternType :=
  snd <$> (snd <$> list_find (fun e => e.1 = name) exports).

Definition validate_compatibility (old_exports new_exports : list ExportType) : list ValidationError :=
  omap (fun e =>
    match find_export e.1 new_exports with
    | Some new =>
        match validate_export_types e.1 e.2 new with Ok _ => None | Err err => Some err end
    | None => Some (MissingExport e.1)
    end) old_exports.

(** ** Instances *)

Section reload.
Context {M : Type → Type} `{FinMap Z M} {Module St E : Type}.
Abbreviation Registries := (gmap Z (ModuleRegistry M Module)).
Implicit Types (R : gmap Z (ModuleRegistry M Module)) (t : VersionState) (e : E).

(** A [WasmtimeInstance]: the module it is an instance of, the memory it exports
    under the name of "memory", its fuel when it is metered, its state. *)
Record Instance : Type := mkInstance {
  inst_module : Module;
  memory : option (list Z);
  fuel : option Z;
  inst_state : St;
}.

Class Runtime : Type := {
  exports : Module → list ExportType;
  (** [runtime.instantiate(module, state)]: memory, fuel and state *)
  instantiate : E → Module → St → option (option (list Z) * option Z * St);
  (** [memory.grow(pages)] succeeds *)
  can_grow : E → Module → Z → bool;
  new_state_for_reload : E → St → Module → option St;
  (** [old.transfer_runtime_resources_to(new)]: success and both states *)
  transfer_runtime_resources_to : E → St → St → bool * St * St;
}.

Context `{!Runtime}.

Definition WASM_PAGE_SIZE : Z := 65536.

Definition snapshot_memory (i : Instance) : result (list Z) PendingReloadError :=
  ok_or (memory i) NoMemoryExport.

(** [missing.div_ceil(WASM_PAGE_SIZE)] *)
Definition missing_pages (missing : Z) : Z := (missing + WASM_PAGE_SIZE - 1) / WASM_PAGE_SIZE.

Definition restore_memory e (snapshot : list Z) (i : Instance) : result Instance PendingReloadError :=
  let? data := ok_or (memory i) NoMemoryExport in
  let missing := Z.of_nat (length snapshot) - Z.of_nat (length data) in
  let? data :=
    if 0 <? missing then
      if can_grow e (inst_module i) (missing_pages missing)
      then Ok (data ++ replicate (Z.to_nat (missing_pages missing * WASM_PAGE_SIZE)) 0)
      else Err MemoryGrowFailed
    else Ok data in
  let? _ := ensure (length snapshot <=? length data)%nat ReplacementMemoryTooSmall in
  Ok (mkInstance (inst_module i) (Some (snapshot ++ drop (length snapshot) data)) (fuel i) (inst_state i)).

Definition set_fuel (f : Z) (i : Instance) : result Instance PendingReloadError :=
  match fuel i with
  | Some _ => Ok (mkInstance (inst_module i) (memory i) (Some f) (inst_state i))
  | None => Err FuelNotEnabled
  end.

Definition set_inst_state (s : St) (i : Instance) : Instance :=
  mkInstance (inst_module i) (memory i) (fuel i) s.

(** ** The transaction *)

Definition validate_reload_target (registry : option (ModuleRegistry M Module)) (module_id old_version new_version : Z)
    : result Module PendingReloadError :=
  let? registry := ok_or registry NoModuleRegistry in
  let? new_module := ok_or (get_version module_id new_version registry) (ReloadVersionNotFound new_version) in
  let? old_module := ok_or (get_version module_id old_version registry) (OldVersionNotFound old_version) in
  match validate_compatibility (exports old_module) (exports new_module) with
  | [] => Ok new_module
  | errors => Err (IncompatibleSignatures (Z.of_nat (length errors)))
  end.

(** The instance that replaces [old], up to the transfer of resources. *)
Definition replacement e (new_module : Module) (old : Instance) : result Instance PendingReloadError :=
  let? memory_snapshot := snapshot_memory old in
  let? remaining_fuel := ok_or (fuel old) FuelNotEnabled in
  let? new_state := ok_or (new_state_for_reload e (inst_state old) new_module) ReplacementStateFailed in
  let? parts := ok_or (instantiate e new_module new_state) InstantiationFailed in
  let '(mem, f, s) := parts in
  let? i := restore_memory e memory_snapshot (mkInstance new_module mem f s) in
  set_fuel remaining_fuel i.

(** The result and what the context holds afterwards; a failed transfer may have
    touched the state of the old instance. *)
Definition perform_pending_reload e (registry : option (ModuleRegistry M Module))
    (module_id old_version new_version : Z) (instance : option Instance)
    : result unit PendingReloadError * option Instance :=
  match validate_reload_target registry module_id old_version new_version with
  | Err err => (Err err, instance)
  | Ok new_module =>
      match instance with
      | None => (Err NoInstance, None)
      | Some old =>
          match replacement e new_module old with
          | Err err => (Err err, Some old)
          | Ok new =>
              let '(transferred, old_state, new_state) :=
                transfer_runtime_resources_to e (inst_state old) (inst_state new) in
              if (transferred : bool) then (Ok tt, Some (set_inst_state new_state new))
              else (Err ResourceTransferFailed, Some (set_inst_state old_state old))
          end
      end
  end.

(** ** The execution driver *)

(** Where the driver is: running the entry function; between the swap and the
    accounting; before the attempt to undo a swap whose accounting failed; gone. *)
Inductive DriverPhase : Type :=
| DRunning
| DAccounting (module_id old_version target_version : Z) (acknowledgement : option Z)
| DReverting (module_id old_version target_version : Z) (acknowledgement : option Z) (why : TrackError)
| DEnded.

Record Driver : Type := mkDriver {
  phase : DriverPhase;
  instance : option Instance;
  reload_in_progress : bool;
}.

(** A command, up to the swap. *)
Definition driver_command (process_id : Z) e (registry : option (ModuleRegistry M Module)) (c : ReloadCommand)
    t (d : Driver) : Driver * list output :=
  let '(_, module_id, expected_version, target_version, ack) := into_parts c in
  let failed old f :=
    (mkDriver DRunning (instance d) (reload_in_progress d),
     acknowledge_reload ack process_id module_id old old (Failed f)) in
  match current_version module_id t with
  | None => failed 0 (UnregisteredModule module_id)
  | Some old_version =>
      if old_version =? target_version then
        (mkDriver DRunning (instance d) (reload_in_progress d),
         acknowledge_reload ack process_id module_id old_version old_version AlreadyAtTarget)
      else if match expected_version with Some expected => negb (expected =? old_version) | None => false end
      then failed old_version (VersionConflict expected_version old_version)
      else
        match perform_pending_reload e registry module_id old_version target_version (instance d) with
        | (Ok _, i) => (mkDriver (DAccounting module_id old_version target_version ack) i true, [])
        | (Err err, i) =>
            (mkDriver DRunning i false,
             acknowledge_reload ack process_id module_id old_version old_version (Failed (ReloadError err)))
        end
  end.

(** [transition_current_version] after the swap. *)
Definition driver_account (process_id module_id old_version target_version : Z) (ack : option Z)
    t R (d : Driver) : Driver * VersionState * Registries * list output :=
  match transition_current_version module_id old_version target_version t R with
  | (Ok _, t, R) =>
      (mkDriver DRunning (instance d) false, t, R,
       acknowledge_reload ack process_id module_id old_version target_version Applied)
  | (Err why, t, R) =>
      (mkDriver (DReverting module_id old_version target_version ack why) (instance d) (reload_in_progress d),
       t, R, [])
  end.

(** The accounting failed: back to the old version, or the end of the process. *)
Definition driver_revert (process_id : Z) e (registry : option (ModuleRegistry M Module))
    (module_id old_version target_version : Z) (ack : option Z) (why : TrackError) (d : Driver)
    : Driver * list output :=
  match perform_pending_reload e registry module_id target_version old_version (instance d) with
  | (Ok _, i) =>
      (mkDriver DRunning i false,
       acknowledge_reload ack process_id module_id old_version old_version (Failed (AccountingReverted why)))
  | (Err err, _) =>
      (mkDriver DEnded None false,
       acknowledge_reload ack process_id module_id old_version target_version (Failed (AccountingLost why err)))
  end.
End reload.
