(* ===== verification/ReloadProcess.v ===== *)
(** * What a reload does to one process

    The compatibility check against a relation on exports; what a reload keeps of a
    process; what an acknowledgement says about the instance that runs; and when a
    reload cannot be taken back. *)

From S2P Require Import Prelude External Message ModuleRegistry Versions Process Reload.

(** ** Compatible exports *)

(** What may replace an export. *)
Definition ext_compatible (old new : ExternType) : Prop :=
  match old, new with
  | ExtFunc params results, ExtFunc params' results' => params = params' ∧ results = results'
  | ExtMemory old_min, ExtMemory new_min => old_min <= new_min
  | ExtTable, ExtTable | ExtGlobal, ExtGlobal => True
  | _, _ => False
  end.

Definition compatible (old new : list ExportType) : Prop :=
  ∀ name ty, (name, ty) ∈ old → ∃ ty', find_export name new = Some ty' ∧ ext_compatible ty ty'.

Lemma all_equal_spec (old new : list Z) : length old = length new → all_equal old new = true ↔ old = new.
Proof.
  revert new. induction old as [|o old IH]; intros [|n new] Hlen; simplify_eq/=; [done|].
  rewrite andb_true_iff, Z.eqb_eq, IH by done. split; [by intros [-> ->]|by intros [= -> ->]].
Qed.

Lemma same_val_types_spec (old new : list Z) : same_val_types old new = true ↔ old = new.
Proof.
  unfold same_val_types. rewrite andb_true_iff, bool_decide_eq_true.
  split; [intros [Hlen Heq]; by apply all_equal_spec in Heq|].
  intros ->. split; [done|]. by apply all_equal_spec.
Qed.

Lemma validate_export_types_ok name old new :
  validate_export_types name old new = Ok tt ↔ ext_compatible old new.
Proof.
  destruct old as [op or|o| | |], new as [np nr|n| | |]; simpl; try done.
  - unfold validate_func_types. rewrite <- !same_val_types_spec.
    destruct (same_val_types op np), (same_val_types or nr); simpl; naive_solver.
  - unfold validate_memory_types. destruct (n <? o) eqn:Hlt; bool_to_prop; split; [done|lia|done|done].
Qed.

Lemma omap_nil {A B} (f : A → option B) l : omap f l = [] ↔ ∀ x, x ∈ l → f x = None.
Proof.
  split.
  - intros Hnil x Hx. destruct (f x) as [y|] eqn:Hf; [|done].
    assert (y ∈ omap f l) as Hy by (apply list_elem_of_omap; by exists x). rewrite Hnil in Hy. by apply not_elem_of_nil in Hy.
  - intros Hnone. induction l as [|x l IH]; [done|]. simpl. rewrite (Hnone x) by left. apply IH. intros y Hy. apply Hnone. by right.
Qed.

Lemma compatibility_nil old new : validate_compatibility old new = [] ↔ compatible old new.
Proof.
  unfold validate_compatibility, compatible. rewrite omap_nil. split.
  - intros Hall name ty Hin. specialize (Hall _ Hin). simpl in Hall.
    destruct (find_export name new) as [ty'|]; [|done]. exists ty'. split; [done|].
    apply (validate_export_types_ok name). by destruct (validate_export_types name ty ty') as [[]|].
  - intros Hall [name ty] Hin. simpl. destruct (Hall _ _ Hin) as (ty' & -> & Hc).
    apply (validate_export_types_ok name) in Hc. by rewrite Hc.
Qed.

(** The export has a counterpart that may replace it. *)
Definition kept (new : list ExportType) (e : ExportType) : Prop :=
  ∃ ty', find_export e.1 new = Some ty' ∧ ext_compatible e.2 ty'.

Lemma compatibility_counts old new (bad : list ExportType) :
  bad `sublist_of` old → Forall (fun e => ¬ kept new e) bad →
  (length bad <= length (validate_compatibility old new))%nat.
Proof.
  unfold validate_compatibility. induction 1 as [|e bad old Hs IH|e bad old Hs IH]; intros Hbad; csimpl.
  - done.
  - apply Forall_cons_iff in Hbad as [He Hbad]. specialize (IH Hbad).
    destruct (find_export e.1 new) as [ty'|] eqn:Hf; [|simpl; lia].
    destruct (validate_export_types e.1 e.2 ty') as [[]|err] eqn:Hv; [|simpl; lia].
    destruct He. exists ty'. split; [done|]. by apply validate_export_types_ok in Hv.
  - specialize (IH Hbad). destruct (match find_export e.1 new with Some _ => _ | None => _ end); simpl; lia.
Qed.

(** The compatibility check accepts a new version exactly when each export of the
    old one is exported by the new one under the same name with a type that may
    replace it, and otherwise it reports an error for every export that is not. *)
Theorem compatibility_exact (old new : list ExportType) :
  (validate_compatibility old new = [] ↔ compatible old new) ∧
  ∀ bad, bad `sublist_of` old → Forall (fun e => ¬ kept new e) bad →
    (length bad <= length (validate_compatibility old new))%nat.
Proof. split; [apply compatibility_nil|]. intros bad. apply compatibility_counts. Qed.

(** ** The transaction *)

Section transaction.
Context {M : Type → Type} `{FinMap Z M} {Module St E : Type} `{!Runtime (Module := Module) (St := St) (E := E)}.
Abbreviation Instance := (Instance (Module := Module) (St := St)).
Implicit Types (reg : option (ModuleRegistry M Module)) (i j : Instance) (e : E).
Implicit Types (m old new v : Z) (om nm : Module).

Lemma validate_reload_target_ok reg m old new nm :
  validate_reload_target reg m old new = Ok nm ↔
  ∃ rg om, reg = Some rg ∧ get_version m new rg = Some nm ∧ get_version m old rg = Some om ∧
    compatible (exports om) (exports nm).
Proof.
  unfold validate_reload_target. split.
  - intros Hv. destruct reg as [rg|]; [|done]. simpl in Hv.
    destruct (get_version m new rg) as [nm'|] eqn:Hnew; [|done]. simpl in Hv.
    destruct (get_version m old rg) as [om|] eqn:Hold; [|done]. simpl in Hv.
    destruct (validate_compatibility _ _) eqn:Hc; simplify_eq.
    exists rg, om. by rewrite <- compatibility_nil.
  - intros (rg & om & -> & Hnew & Hold & Hc%compatibility_nil). simpl. rewrite Hnew. simpl. rewrite Hold. simpl.
    by rewrite Hc.
Qed.

Lemma missing_pages_enough n : 0 < n → n <= missing_pages n * WASM_PAGE_SIZE.
Proof.
  intros Hn. unfold missing_pages, WASM_PAGE_SIZE.
  pose proof (Z.mod_pos_bound (n + 65536 - 1) 65536). pose proof (Z.div_mod (n + 65536 - 1) 65536). lia.
Qed.

(** A memory of [have] bytes can hold [want] bytes, grown if it has to be. *)
Definition has_room e nm (want have : list Z) : Prop :=
  (length want <= length have)%nat ∨
  can_grow e nm (missing_pages (Z.of_nat (length want) - Z.of_nat (length have))) = true.

Lemma restore_memory_ok e (snapshot data : list Z) i :
  memory i = Some data →
  (has_room e (inst_module i) snapshot data →
    ∃ rest, restore_memory e snapshot i =
      Ok (mkInstance (inst_module i) (Some (snapshot ++ rest)) (fuel i) (inst_state i)) ∧
    (length data <= length (snapshot ++ rest))%nat) ∧
  (¬ has_room e (inst_module i) snapshot data → restore_memory e snapshot i = Err MemoryGrowFailed).
Proof.
  intros Hmem. unfold restore_memory, has_room, ensure. rewrite Hmem. simpl.
  set (missing := Z.of_nat (length snapshot) - Z.of_nat (length data)).
  destruct (0 <? missing) eqn:Hpos; bool_to_prop.
  - pose proof (missing_pages_enough missing Hpos) as Hpages.
    destruct (can_grow e (inst_module i) (missing_pages missing)) eqn:Hg; simpl; (split; [|intros Hno]).
    + intros _. rewrite length_app, length_replicate. rewrite (proj2 (Nat.leb_le _ _)) by lia.
      simpl. eexists. split; [done|]. rewrite length_app, length_drop, length_app, length_replicate. lia.
    + naive_solver.
    + intros [Hle|[=]]. lia.
    + done.
  - split; [|intros Hno; destruct Hno; left; lia]. intros _. simpl. rewrite (proj2 (Nat.leb_le _ _)) by lia. simpl.
    eexists. split; [done|]. rewrite length_app, length_drop. lia.
Qed.

(** What a reload needs. *)
Definition reloadable e reg m old new i nm : Prop :=
  ∃ rg om mem f s mem' f' s',
    reg = Some rg ∧ get_version m new rg = Some nm ∧ get_version m old rg = Some om ∧
    compatible (exports om) (exports nm) ∧ memory i = Some mem ∧ fuel i = Some f ∧
    new_state_for_reload e (inst_state i) nm = Some s ∧
    instantiate e nm s = Some (Some mem', Some f', s') ∧ has_room e nm mem mem' ∧
    (transfer_runtime_resources_to e (inst_state i) s').1.1 = true.

Lemma replacement_ok e nm i j :
  replacement e nm i = Ok j →
  ∃ mem f s mem' f' s' rest,
    memory i = Some mem ∧ fuel i = Some f ∧ new_state_for_reload e (inst_state i) nm = Some s ∧
    instantiate e nm s = Some (Some mem', Some f', s') ∧ has_room e nm mem mem' ∧
    j = mkInstance nm (Some (mem ++ rest)) (Some f) s'.
Proof.
  unfold replacement, snapshot_memory. intros Hr.
  destruct (memory i) as [mem|]; [|done]. simpl in Hr. destruct (fuel i) as [f|]; [|done]. simpl in Hr.
  destruct (new_state_for_reload _ _ _) as [s|] eqn:Hs; [|done]. simpl in Hr.
  destruct (instantiate e nm s) as [[[mem' f'] s']|] eqn:Hi; [|done]. simpl in Hr.
  destruct mem' as [mem'|]; [|done].
  pose proof (restore_memory_ok e mem mem' (mkInstance nm (Some mem') f' s') eq_refl) as [Hyes Hno]. simpl in Hyes, Hno.
  destruct (decide (has_room e nm mem mem')) as [Hroom|Hroom].
  - destruct (Hyes Hroom) as (rest & Hres & _). rewrite Hres in Hr. simpl in Hr.
    destruct f' as [f'|]; [|done]. unfold set_fuel in Hr. simplify_eq/=.
    by exists mem, f, s, mem', f', s', rest.
  - by rewrite (Hno Hroom) in Hr.
Qed.

Lemma replacement_done e nm i mem f s mem' f' s' :
  memory i = Some mem → fuel i = Some f → new_state_for_reload e (inst_state i) nm = Some s →
  instantiate e nm s = Some (Some mem', Some f', s') → has_room e nm mem mem' →
  ∃ rest, replacement e nm i = Ok (mkInstance nm (Some (mem ++ rest)) (Some f) s').
Proof.
  intros Hmem Hf Hs Hi Hroom. unfold replacement, snapshot_memory. rewrite Hmem, Hf. simpl. rewrite Hs. simpl.
  rewrite Hi. simpl.
  destruct (restore_memory_ok e mem mem' (mkInstance nm (Some mem') (Some f') s') eq_refl) as [Hyes _].
  destruct (Hyes Hroom) as (rest & -> & _). by exists rest.
Qed.

Lemma reload_preserves e reg m old new i :
  let '(r, i') := perform_pending_reload e reg m old new (Some i) in
  match r with
  | Ok _ => ∃ nm j rest, reloadable e reg m old new i nm ∧ i' = Some j ∧
      inst_module j = nm ∧ fuel j = fuel i ∧ memory j = (fun mem => mem ++ rest) <$> memory i
  | Err _ => (∀ nm, ¬ reloadable e reg m old new i nm) ∧ ∃ s, i' = Some (set_inst_state s i)
  end.
Proof.
  assert (∃ s, Some i = Some (set_inst_state s i)) as Hself by (exists (inst_state i); by destruct i).
  unfold perform_pending_reload.
  destruct (validate_reload_target reg m old new) as [nm|err] eqn:Hv.
  - pose proof (proj1 (validate_reload_target_ok reg m old new nm) Hv) as (rg & om & -> & Hnew & Hold & Hc).
    destruct (replacement e nm i) as [j|err] eqn:Hr.
    + apply replacement_ok in Hr as (mem & f & s & mem' & f' & s' & rest & Hmem & Hf & Hs & Hi & Hroom & ->). simpl.
      destruct (transfer_runtime_resources_to e (inst_state i) s') as [[[] os] ns] eqn:Htr.
      * exists nm, (set_inst_state ns (mkInstance nm (Some (mem ++ rest)) (Some f) s')), rest.
        rewrite Hmem, Hf. split; [|done].
        exists rg, om, mem, f, s, mem', f', s'. by rewrite Htr.
      * split; [|eauto]. intros nm' (rg' & om' & mem2 & f2 & s2 & mem2' & f2' & s2' & ? & ? & _ & _ & ? & ? & ? & ? & _ & Ht).
        simplify_eq. by rewrite Htr in Ht.
    + split; [|exact Hself]. intros nm' (rg' & om' & mem2 & f2 & s2 & mem2' & f2' & s2' & ? & ? & _ & _ & Hmem & Hf & Hs & Hi & Hroom & _).
      simplify_eq. destruct (replacement_done e nm i mem2 f2 s2 mem2' f2' s2') as [rest Hrest]; congruence.
  - split; [|exact Hself]. intros nm (rg & om & mem & f & s & mem' & f' & s' & Hreg & Hnew & Hold & Hc & _).
    assert (validate_reload_target reg m old new = Ok nm) as Hok by (apply validate_reload_target_ok; by exists rg, om).
    congruence.
Qed.

(** C5. A reload of a process succeeds exactly when the target version is registered
    and compatible, the process has a memory and fuel, the new version can be
    instantiated with room for the memory, and the resources move; the process then
    runs the target module with the bytes of its memory in place and its fuel neither
    replenished nor spent.  Otherwise it keeps its instance, with its module, memory
    and fuel. *)
Theorem reload_preserves_process e reg m old new i :
  let '(r, i') := perform_pending_reload e reg m old new (Some i) in
  match r with
  | Ok _ => ∃ nm j rest, reloadable e reg m old new i nm ∧ i' = Some j ∧
      inst_module j = nm ∧ fuel j = fuel i ∧ memory j = (fun mem => mem ++ rest) <$> memory i
  | Err _ => (∀ nm, ¬ reloadable e reg m old new i nm) ∧ ∃ s, i' = Some (set_inst_state s i)
  end.
Proof. apply reload_preserves. Qed.
End transaction.

(** ** What the driver runs *)

Section driver.
Context {M : Type → Type} `{FinMap Z M} {Module St E : Type} `{!Runtime (Module := Module) (St := St) (E := E)}.
Abbreviation Driver := (Driver (Module := Module) (St := St)).
Implicit Types (reg : option (ModuleRegistry M Module)) (d : Driver) (t : VersionState) (e : E) (m v : Z).
Implicit Types (pid mid old target new prev cur : Z) (ack : option Z) (a : ReloadAcknowledgement) (outs : list output).
Implicit Types (rg : ModuleRegistry M Module) (om nm : Module) (name : list Z) (ty : ExternType).

(** What the versions of modules are; a registry may hold any of them. *)
Context (meaning : Z → Z → option Module).
Definition agrees reg : Prop := ∀ rg m v x, reg = Some rg → get_version m v rg = Some x → meaning m v = Some x.

(** The steps of a driver of process [pid], between which registries change. *)
Inductive drive pid : Driver * VersionState → list output → Driver * VersionState → Prop :=
| drive_command e reg (c : ReloadCommand) d t d' outs :
    agrees reg → phase d = DRunning → driver_command pid e reg c t d = (d', outs) →
    drive pid (d, t) outs (d', t)
| drive_account (R R' : gmap Z (ModuleRegistry M Module)) mid old target ack d t d' t' outs :
    phase d = DAccounting mid old target ack →
    driver_account pid mid old target ack t R d = (d', t', R', outs) →
    drive pid (d, t) outs (d', t')
| drive_revert e reg mid old target ack (why : TrackError) d t d' outs :
    agrees reg → phase d = DReverting mid old target ack why →
    driver_revert pid e reg mid old target ack why d = (d', outs) →
    drive pid (d, t) outs (d', t).

(** The instance is one of version [v] of the module. *)
Definition instance_of m v d : Prop := ∃ i, instance d = Some i ∧ meaning m v = Some (inst_module i).

(** The process tracks the version that it runs; in between it runs the version it is
    about to track. *)
Definition in_step m d t : Prop :=
  match phase d with
  | DRunning => reload_in_progress d = false ∧ ∃ v, current_versions t = {[m := v]} ∧ instance_of m v d
  | DAccounting mid old target _ | DReverting mid old target _ _ =>
      mid = m ∧ current_versions t = {[m := old]} ∧ instance_of m target d
  | DEnded => reload_in_progress d = false
  end.

Lemma pending_reload_instance e reg mid old target m v d r i' :
  agrees reg → instance_of m v d →
  perform_pending_reload e reg mid old target (instance d) = (r, i') →
  match r with
  | Ok _ => ∃ j, i' = Some j ∧ meaning mid target = Some (inst_module j)
  | Err _ => ∃ j, i' = Some j ∧ meaning m v = Some (inst_module j)
  end.
Proof.
  intros Hag (i & Hi & Hmean) Hp. rewrite Hi in Hp. pose proof (reload_preserves e reg mid old target i) as Hres.
  rewrite Hp in Hres. destruct r as [[]|err].
  - destruct Hres as (nm & j & rest & (rg & om & ? & ? & ? & ? & ? & ? & Hreg & Hnew & _) & -> & <- & _).
    exists j. split; [done|]. by eapply Hag.
  - destruct Hres as (_ & s & ->). by eexists.
Qed.

Lemma transition_versions m old target t (R : gmap Z (ModuleRegistry M Module)) (r : result unit TrackError) t' (R' : gmap Z (ModuleRegistry M Module)) :
  transition_current_version m old target t R = (r, t', R') →
  match r with Ok _ => current_versions t' = <[m := target]> (current_versions t) | Err _ => t' = t end.
Proof.
  unfold transition_current_version. intros Ht.
  destruct (bool_decide _); [by simplify_eq|]. destruct (tracking_registry t) as [a|]; [|by simplify_eq].
  destruct (tracking_process t) as [k|]; [|by simplify_eq].
  by destruct (on_registry a _ R) as [[[]|e] R'']; simplify_eq/=.
Qed.

(** What an acknowledgement says is so. *)
Definition answer_true pid m a d t : Prop :=
  ack_process_id a = pid ∧
  (is_success (status a) = true → ack_module_id a = m ∧ phase d = DRunning) ∧
  (phase d = DRunning → ack_module_id a = m →
    current_versions t = {[m := ack_current_version a]} ∧ instance_of m (ack_current_version a) d).

Lemma in_acknowledge ack pid mid prev cur (st : ProcessReloadStatus) (c : Z) a :
  OReload c a ∈ acknowledge_reload ack pid mid prev cur st → a = mkAck pid mid prev cur st.
Proof. destruct ack; simpl; [by intros [= _ ->]%list_elem_of_singleton|by intros ?%not_elem_of_nil]. Qed.

(** An answer of a driver that goes on with a version that it tracks and runs. *)
Lemma answered pid m v d t ack prev (st : ProcessReloadStatus) :
  phase d = DRunning → reload_in_progress d = false → current_versions t = {[m := v]} → instance_of m v d →
  in_step m d t ∧ ∀ (c : Z) a, OReload c a ∈ acknowledge_reload ack pid m prev v st → answer_true pid m a d t.
Proof.
  intros Hph Hflag Ht Hi. split; [unfold in_step; rewrite Hph; by eauto|].
  intros c a ->%in_acknowledge. by split; [|split].
Qed.

Lemma command_in_step pid e reg (c : ReloadCommand) m d t d' outs :
  agrees reg → phase d = DRunning → in_step m d t → driver_command pid e reg c t d = (d', outs) →
  in_step m d' t ∧ ∀ (c : Z) a, OReload c a ∈ outs → answer_true pid m a d' t.
Proof.
  intros Hag Hph Hin Hd. unfold in_step in Hin. rewrite Hph in Hin. destruct Hin as (Hflag & v & Ht & Hi).
  unfold driver_command in Hd. destruct (into_parts c) as [[[[act mid] expected] target] ack].
  assert (instance_of m v (mkDriver DRunning (instance d) (reload_in_progress d))) as Hi' by exact Hi.
  unfold current_version in Hd. rewrite Ht in Hd. destruct (decide (mid = m)) as [->|Hm].
  - rewrite lookup_singleton_eq in Hd. destruct (v =? target) eqn:Hv; bool_to_prop; [simplify_eq; by apply answered|].
    destruct (match expected with Some _ => _ | None => _ end); [simplify_eq; by apply answered|].
    destruct (perform_pending_reload _ _ _ _ _ _) as [[[]|err] i'] eqn:Hp; simplify_eq;
      eapply pending_reload_instance in Hp as (j & -> & Hj); try done.
    + split; [|by intros ? ? ?%not_elem_of_nil]. split; [done|]. split; [done|]. by exists j.
    + apply answered; [done..|]. by exists j.
  - rewrite lookup_singleton_ne in Hd by done. simplify_eq. split; [split; [done|by exists v]|].
    intros c' a ->%in_acknowledge. split; [done|]. split; [done|]. by intros _ ?%Hm.
Qed.

Lemma drive_ok pid m d t outs d' t' :
  in_step m d t → drive pid (d, t) outs (d', t') →
  in_step m d' t' ∧ ∀ (c : Z) a, OReload c a ∈ outs → answer_true pid m a d' t'.
Proof.
  intros Hin Hdrive. inversion Hdrive as [e reg c ? ? ? ? Hag Hph Hd|R R' mid old target ack ? ? ? ? ? Hph Hd|
    e reg mid old target ack why ? ? ? ? Hag Hph Hd]; subst.
  - by eapply command_in_step.
  - unfold in_step in Hin. rewrite Hph in Hin. destruct Hin as (-> & Ht & Hi). unfold driver_account in Hd.
    destruct (transition_current_version _ _ _ _ _) as [[[[]|why] t1] R1] eqn:Htr; simplify_eq;
      apply transition_versions in Htr.
    + apply answered; [done..| |done]. rewrite Htr, Ht. apply insert_singleton_eq.
    + subst. split; [by split|by intros ? ? ?%not_elem_of_nil].
  - unfold in_step in Hin. rewrite Hph in Hin. destruct Hin as (-> & Ht & Hi). unfold driver_revert in Hd.
    destruct (perform_pending_reload _ _ _ _ _ _) as [[[]|err] i'] eqn:Hp; simplify_eq.
    + eapply pending_reload_instance in Hp as (j & -> & Hj); [|done..]. apply answered; [done..|]. by exists j.
    + split; [done|]. intros c a ->%in_acknowledge. by split; [|split].
Qed.

(** C6. However reloads, rollbacks and changes of the registry follow each other, a
    process tracks the version that it runs: every acknowledgement of a process that
    goes on names the version it tracks and whose instance it runs, success is only
    reported by a process that goes on, and no reload is left marked as in progress. *)
Theorem acknowledged_version_runs pid m d0 t0 d t outs d' t' (c : Z) a :
  in_step m d0 t0 → rtc (fun x y => ∃ outs, drive pid x outs y) (d0, t0) (d, t) →
  drive pid (d, t) outs (d', t') → OReload c a ∈ outs → answer_true pid m a d' t'.
Proof.
  intros Hin Hrun Hdrive Hout.
  assert (in_step m (d, t).1 (d, t).2) as Hd.
  { eapply (rtc_invariant _ (fun x => in_step m x.1 x.2) (d0, t0)); [|exact Hin|exact Hrun].
    intros [d1 t1] [d2 t2] H1' [outs' Hstep]. by eapply drive_ok in Hstep as [? _]. }
  eapply drive_ok in Hdrive as [_ Hans]; [|exact Hd]. by eapply Hans.
Qed.

(** ** Rollback *)

(** C39. When the new version of a module exports a name that the old one does not, the
    check that let the reload pass refuses the way back: a rollback to the old version
    is answered with a failure and the process stays at the new version. *)
Theorem rollback_refused_after_new_export pid e m old new rg om nm name ty t d :
  get_version m old rg = Some om → get_version m new rg = Some nm → old ≠ new →
  compatible (exports om) (exports nm) →
  (name, ty) ∈ exports nm → find_export name (exports om) = None →
  current_version m t = Some new →
  validate_reload_target (Some rg) m old new = Ok nm ∧
  ∀ ack, ∃ n, driver_command pid e (Some rg) (CmdRollback m (Some new) old ack) t d =
    (mkDriver DRunning (instance d) false,
     acknowledge_reload ack pid m new new (Failed (ReloadError (IncompatibleSignatures n)))).
Proof.
  intros Hold Hnew Hne Hc Hname Hnone Ht. split; [apply validate_reload_target_ok; by exists rg, om|].
  intros ack. unfold driver_command. simpl. rewrite Ht.
  rewrite (proj2 (Z.eqb_neq _ _)) by congruence. rewrite Z.eqb_refl. simpl.
  unfold perform_pending_reload, validate_reload_target. simpl. rewrite Hold. simpl. rewrite Hnew. simpl.
  destruct (validate_compatibility (exports nm) (exports om)) as [|err errs] eqn:Hv; [|by eexists].
  apply compatibility_nil in Hv. destruct (Hv _ _ Hname) as (ty' & Hty & _). congruence.
Qed.
End driver.

(** ** A process reloaded *)

Module Demo.
(** Modules are their exports; a new instance has four bytes of memory and 100 units of
    fuel. *)
#[global] Instance toy_runtime : Runtime (Module := list ExportType) (St := unit) (E := unit) := {|
  exports m := m;
  instantiate _ _ s := Some (Some [0; 0; 0; 0], Some 100, s);
  can_grow _ _ _ := true;
  new_state_for_reload _ s _ := Some s;
  transfer_runtime_resources_to _ old new := (true, old, new);
|}.

Definition memory_only : list ExportType := [([109], ExtMemory 1)].
Definition with_function : list ExportType := [([109], ExtMemory 1); ([102], ExtFunc [] [])].

(** Version 0 of module 5 exports a memory, version 1 a function as well. *)
Definition demo_key : ProcessKey := mkKey 1 7.
Definition two_versions : ModuleRegistry (gmap Z) (list ExportType) :=
  (register_process 5 0 demo_key (add_version 5 with_function 0 (add_version 5 memory_only 0 new).2).2).2.
Definition meaning (m v : Z) : option (list ExportType) :=
  if m =? 5 then if v =? 0 then Some memory_only else if v =? 1 then Some with_function else None else None.

Definition tracking : VersionState := mkTracking (Some 0) (Some demo_key) {[5 := 0]}.
Definition tracking' : VersionState := mkTracking (Some 0) (Some demo_key) {[5 := 1]}.
Definition old_instance : Instance (Module := list ExportType) (St := unit) := mkInstance memory_only (Some [1; 2; 3]) (Some 42) ().
Definition start : Driver := mkDriver DRunning (Some old_instance) false.
Definition command : ReloadCommand := CmdHotReload 5 (Some 0) 1 (Some 9).
Definition swapped : Driver := (driver_command 7 () (Some two_versions) command tracking start).1.
Definition accounted := driver_account 7 5 0 1 (Some 9) tracking {[0 := two_versions]} swapped.

(** The three bytes are kept, and the fuel. *)
Example reload_keeps_bytes :
  let '(r, i) := perform_pending_reload () (Some two_versions) 5 0 1 (Some old_instance) in
  r = Ok tt ∧ (i ≫= fuel) = Some 42 ∧ (i ≫= memory) = Some [1; 2; 3; 0].
Proof. by vm_compute. Qed.

Lemma meaning_agrees : agrees meaning (Some two_versions).
Proof.
  intros rg m v x [= <-] Hv. unfold meaning. destruct (Z.eqb_spec m 5) as [->|Hm].
  - assert (((fun h => (fun w => (version w, module w)) <$> versions h) <$> history 5 two_versions) =
      Some [(0, memory_only); (1, with_function)]) as Hh by (by vm_compute).
    unfold get_version, find_version in Hv. destruct (history 5 two_versions) as [h|]; [|done]. simpl in Hv, Hh.
    destruct (versions h) as [|w [|w' [|]]]; try discriminate. injection Hh as Hw Hm Hw' Hm'.
    simpl in Hv. unfold has_version in Hv. rewrite Hw, Hw' in Hv.
    rewrite (Z.eqb_sym v 0), (Z.eqb_sym v 1). destruct (0 =? v); [simpl in Hv; congruence|].
    destruct (1 =? v); simpl in Hv; congruence.
  - assert (modules two_versions = {[5 := default (mkHistory 0 0 []) (history 5 two_versions)]}) as Hmods by (by vm_compute).
    unfold get_version, history in Hv. by rewrite Hmods, lookup_singleton_ne in Hv by congruence.
Qed.
End Demo.

(** The reload that adds an export is taken and acknowledged, and its rollback is
    refused. *)
Lemma compatibility_exact_witness :
  compatible Demo.memory_only Demo.with_function ∧
  (1 <= length (validate_compatibility Demo.with_function Demo.memory_only))%nat.
Proof.
  split.
  - apply (compatibility_exact Demo.memory_only Demo.with_function). by vm_compute.
  - apply (proj2 (compatibility_exact Demo.with_function Demo.memory_only) [([102], ExtFunc [] [])]).
    + by apply sublist_cons, sublist_skip, sublist_nil.
    + apply list.Forall_singleton. by intros (ty & [=] & _).
Defined.

Lemma acknowledged_version_runs_witness :
  answer_true Demo.meaning 7 5 (mkAck 7 5 0 1 Applied) Demo.accounted.1.1.1 Demo.accounted.1.1.2.
Proof.
  apply (acknowledged_version_runs (M := gmap Z) Demo.meaning 7 5 Demo.start Demo.tracking Demo.swapped Demo.tracking
    Demo.accounted.2 Demo.accounted.1.1.1 Demo.accounted.1.1.2 9).
  - split; [done|]. exists 0. split; [done|]. exists Demo.old_instance. by split.
  - apply rtc_once. exists []. apply (drive_command _ 7 () (Some Demo.two_versions) Demo.command).
    + apply Demo.meaning_agrees.
    + done.
    + by vm_compute.
  - apply (drive_account _ 7 {[0 := Demo.two_versions]} Demo.accounted.1.2 5 0 1 (Some 9)); by vm_compute.
  - by left.
Defined.

Lemma rollback_refused_after_new_export_witness :
  validate_reload_target (Some Demo.two_versions) 5 0 1 = Ok Demo.with_function ∧
  ∀ ack, ∃ n, driver_command 7 () (Some Demo.two_versions) (CmdRollback 5 (Some 1) 0 ack) Demo.tracking' Demo.start =
    (mkDriver DRunning (instance Demo.start) false,
     acknowledge_reload ack 7 5 1 1 (Failed (ReloadError (IncompatibleSignatures n)))).
Proof.
  apply (rollback_refused_after_new_export 7 () 5 0 1 Demo.two_versions Demo.memory_only Demo.with_function [102] (ExtFunc [] [])).
  - by vm_compute.
  - by vm_compute.
  - done.
  - apply compatibility_nil. by vm_compute.
  - right. left.
  - by vm_compute.
  - by vm_compute.
Defined.
