(* ===== verification/HotReload.v ===== *)
(** * Coordinated reloads: [crates/lunatic-process/src/hot_reload.rs]
      ([ReloadCoordinator])

    A coordinated reload sends a command to every process that runs a module, waits
    for their acknowledgements, and commits when all of them run the new version;
    otherwise every process is told to go back.  A module whose processes could not
    be brought to one version stays blocked.

    The coordinator, the loops and the drivers of the processes are interleaved.  An
    acknowledgement channel ([oneshot]) is a number; what is written to it, or the
    loss of its sender, is what the coordinator sees.  Delivery, the order in which
    ready channels are polled and the timer are up to an [Oracle]. *)

From S2P Require Import Prelude External Message ModuleRegistry Versions Process Reload.

(** ** Operations *)

(** Why a process did not do what it was asked to. *)
Inductive ReloadMessage : Type :=
| WrongProcess (process_id : Z)
| WrongModule (module_id : Z)
| ReportedFailure (f : ReloadFailure)
| WrongVersion (reported expected : Z)
| AcknowledgementClosed
| AcknowledgementTimedOut.

Record ProcessReloadError : Type := mkReloadError {
  err_process_id : Z;
  message : ReloadMessage;
  known_version : option Z;
}.

Inductive ReloadStatus : Type :=
| Applying
| RollingBack (apply_errors : list ProcessReloadError)
| Committed (acknowledgements : list ReloadAcknowledgement)
| RolledBack (apply_errors : list ProcessReloadError) (acknowledgements : list ReloadAcknowledgement)
| InDoubt (apply_errors rollback_errors : list ProcessReloadError)
    (acknowledgements : list ReloadAcknowledgement).

Definition blocks_new_operation (s : ReloadStatus) : bool :=
  match s with
  | Applying | RollingBack _ | InDoubt _ _ _ => true
  | Committed _ | RolledBack _ _ => false
  end.

Record ReloadOperation : Type := mkOperation {
  affected_processes : list Z;
  op_status : ReloadStatus;
}.

Inductive CoordinatorError : Type :=
| ReloadBlocked (module_id : Z) (s : ReloadStatus)
| NoOperation (module_id : Z)
| DidNotCommit (apply_errors : list ProcessReloadError)
| LeftInDoubt (apply_errors rollback_errors : list ProcessReloadError).

(** [sort_unstable] and [dedup] *)
Definition normalize (affected : list Z) : list Z := dedup (merge_sort Z.le affected).

Definition start_reload (module_id : Z) (affected : list Z) (ops : gmap Z ReloadOperation)
    : result unit CoordinatorError * gmap Z ReloadOperation :=
  match ops !! module_id with
  | Some op =>
      if blocks_new_operation (op_status op) then (Err (ReloadBlocked module_id (op_status op)), ops)
      else (Ok tt, <[module_id := mkOperation (normalize affected) Applying]> ops)
  | None => (Ok tt, <[module_id := mkOperation (normalize affected) Applying]> ops)
  end.

Definition reload_status (module_id : Z) (ops : gmap Z ReloadOperation) : option ReloadStatus :=
  op_status <$> ops !! module_id.

Definition is_reload_in_progress (module_id : Z) (ops : gmap Z ReloadOperation) : bool :=
  match ops !! module_id with Some op => blocks_new_operation (op_status op) | None => false end.

Definition get_affected_processes (module_id : Z) (ops : gmap Z ReloadOperation) : option (list Z) :=
  affected_processes <$> ops !! module_id.

Definition set_status (module_id : Z) (s : ReloadStatus) (ops : gmap Z ReloadOperation)
    : result unit CoordinatorError * gmap Z ReloadOperation :=
  match ops !! module_id with
  | Some op => (Ok tt, <[module_id := mkOperation (affected_processes op) s]> ops)
  | None => (Err (NoOperation module_id), ops)
  end.

(** What is wrong with an acknowledgement from [process_id]. *)
Definition protocol_error (process_id module_id target_version : Z) (a : ReloadAcknowledgement)
    : option ReloadMessage :=
  if negb (ack_process_id a =? process_id) then Some (WrongProcess (ack_process_id a))
  else if negb (ack_module_id a =? module_id) then Some (WrongModule (ack_module_id a))
  else
    match status a with
    | Failed f => Some (ReportedFailure f)
    | Applied | AlreadyAtTarget =>
        if negb (ack_current_version a =? target_version)
        then Some (WrongVersion (ack_current_version a) target_version)
        else None
    end.

(** [sort_by_key] *)
Definition key_le {A} (key : A → Z) (a b : A) : Prop := key a <= key b.
#[export] Instance key_le_dec {A} (key : A → Z) : RelDecision (key_le key).
Proof. intros a b. unfold key_le. apply _. Defined.
Definition sort_acks : list ReloadAcknowledgement → list ReloadAcknowledgement := merge_sort (key_le ack_process_id).
Definition sort_errors : list ProcessReloadError → list ProcessReloadError := merge_sort (key_le err_process_id).

(** ** Processes and channels *)

Inductive Oneshot : Type :=
| OPending
| OSent (a : ReloadAcknowledgement)
| OClosed.

(** A value is sent, or the sender dropped, once. *)
Definition resolve (v : Oneshot) (o : Oneshot) : Oneshot :=
  match o with OPending => v | _ => o end.

Definition write_outputs (outs : list output) (os : gmap Z Oneshot) : gmap Z Oneshot :=
  foldl (fun os o => match o with OReload c a => alter (resolve (OSent a)) c os | OEvent _ => os end) os outs.

Definition drop_senders (cs : list Z) (os : gmap Z Oneshot) : gmap Z Oneshot :=
  foldl (fun os c => alter (resolve OClosed) c os) os cs.

Definition cmd_module (c : ReloadCommand) : Z :=
  match c with CmdHotReload m _ _ _ | CmdRollback m _ _ _ => m end.
Definition cmd_ack (c : ReloadCommand) : option Z :=
  match c with CmdHotReload _ _ _ a | CmdRollback _ _ _ a => a end.

(** What a call to [perform_atomic_reload] is given. *)
Record Request : Type := mkRequest {
  req_module : Z;
  req_old : Z;
  req_new : Z;
}.

(** The commands of the two phases, and the version each phase wants. *)
Definition phase_command (rb : option (list ProcessReloadError)) (q : Request) (c : Z) : ReloadCommand :=
  match rb with
  | None => CmdHotReload (req_module q) (Some (req_old q)) (req_new q) (Some c)
  | Some _ => CmdRollback (req_module q) (Some (req_new q)) (req_old q) (Some c)
  end.
Definition phase_target (rb : option (list ProcessReloadError)) (q : Request) : Z :=
  match rb with None => req_new q | Some _ => req_old q end.

(** A call to [perform_atomic_reload]: before [start_reload]; before the targets are
    read; sending the commands of a phase; waiting for acknowledgements; done.
    [rb]: the errors of the apply phase, when the reload is being rolled back. *)
Inductive Task : Type :=
| TStart (q : Request) (affected : list Z)
| TTargets (q : Request)
| TDispatch (q : Request) (targets : list Z) (rb : option (list ProcessReloadError))
    (todo : list Z) (pending : list (Z * Z))
| TCollect (q : Request) (targets : list Z) (rb : option (list ProcessReloadError))
    (pending : list (Z * Z)) (acks : list ReloadAcknowledgement) (errors : list ProcessReloadError)
| TDone (r : result unit CoordinatorError).

(** Whether a send is accepted, which ready channel is polled, whether the timer has
    fired. *)
Record Oracle : Type := mkOracle {
  accepted : bool;
  choice : nat;
  timer : bool;
}.

Section coordinator.
Context {M : Type → Type} `{FinMap Z M} {Module St E : Type} `{!Runtime (Module := Module) (St := St) (E := E)}.
Context {Chan : Type → Type} `{!Channel Chan}.

(** A process: the reload signals in its ingress, its loop, its driver. *)
Record RProc : Type := mkRProc {
  inbox : list ReloadCommand;
  rp_kind : Kind Chan;
  driver : Driver (Module := Module) (St := St);
}.

Record RState : Type := mkRState {
  procs : gmap Z RProc;
  next_pid : Z;
  regs : gmap Z (ModuleRegistry M Module);
  env_registry : option Z;
  oneshots : gmap Z Oneshot;
  next_ack : Z;
  operations : gmap Z ReloadOperation;
  tasks : gmap Z Task;
}.

Implicit Types (σ : RState) (rp : RProc).

Definition set_procs ps σ : RState :=
  mkRState ps (next_pid σ) (regs σ) (env_registry σ) (oneshots σ) (next_ack σ) (operations σ) (tasks σ).
Definition set_regs r σ : RState :=
  mkRState (procs σ) (next_pid σ) r (env_registry σ) (oneshots σ) (next_ack σ) (operations σ) (tasks σ).
Definition set_oneshots os σ : RState :=
  mkRState (procs σ) (next_pid σ) (regs σ) (env_registry σ) os (next_ack σ) (operations σ) (tasks σ).
Definition set_operations ops σ : RState :=
  mkRState (procs σ) (next_pid σ) (regs σ) (env_registry σ) (oneshots σ) (next_ack σ) ops (tasks σ).
Definition set_tasks ts σ : RState :=
  mkRState (procs σ) (next_pid σ) (regs σ) (env_registry σ) (oneshots σ) (next_ack σ) (operations σ) ts.

(** [dispatch_hot_reload], [dispatch_rollback]: a process that does not exist or does
    not accept the signal drops the sender. *)
Definition dispatch (o : Oracle) (c : Z → ReloadCommand) (process_id : Z) σ : Z * RState :=
  let a := next_ack σ in
  let σ := mkRState (procs σ) (next_pid σ) (regs σ) (env_registry σ) (oneshots σ) (a + 1) (operations σ) (tasks σ) in
  match procs σ !! process_id with
  | Some rp =>
      if accepted o then
        (a, set_oneshots (<[a := OPending]> (oneshots σ))
              (set_procs (<[process_id := mkRProc (inbox rp ++ [c a]) (rp_kind rp) (driver rp)]> (procs σ)) σ))
      else (a, set_oneshots (<[a := OClosed]> (oneshots σ)) σ)
  | None => (a, set_oneshots (<[a := OClosed]> (oneshots σ)) σ)
  end.

Definition is_ready σ (c : Z) : Prop := oneshots σ !! c ≠ Some OPending.
#[export] Instance is_ready_dec σ c : Decision (is_ready σ c).
Proof. unfold is_ready. destruct (oneshots σ !! c) as [[]|]; [right|left..]; congruence. Defined.

(** One acknowledgement, or the loss of its sender. *)
Definition receive (module_id target_version : Z) (p : Z * Z) σ
    (acks : list ReloadAcknowledgement) (errors : list ProcessReloadError)
    : list ReloadAcknowledgement * list ProcessReloadError :=
  match oneshots σ !! p.2 with
  | Some (OSent a) =>
      match protocol_error p.1 module_id target_version a with
      | Some m => (acks, errors ++ [mkReloadError p.1 m (Some (ack_current_version a))])
      | None => (acks ++ [a], errors)
      end
  | _ => (acks, errors ++ [mkReloadError p.1 AcknowledgementClosed None])
  end.

(** The end of a phase. *)
Definition conclude (q : Request) (targets : list Z) (rb : option (list ProcessReloadError))
    (acks : list ReloadAcknowledgement) (errors : list ProcessReloadError) σ : Task * RState :=
  let acks := sort_acks acks in
  let errors := sort_errors errors in
  let set s (t : Task) :=
    match set_status (req_module q) s (operations σ) with
    | (Ok _, ops) => (t, set_operations ops σ)
    | (Err e, ops) => (TDone (Err e), set_operations ops σ)
    end in
  match rb, errors with
  | None, [] => set (Committed acks) (TDone (Ok tt))
  | None, _ => set (RollingBack errors) (TDispatch q targets (Some errors) targets [])
  | Some apply_errors, [] => set (RolledBack apply_errors acks) (TDone (Err (DidNotCommit apply_errors)))
  | Some apply_errors, _ =>
      set (InDoubt apply_errors errors acks) (TDone (Err (LeftInDoubt apply_errors errors)))
  end.

(** A step of [perform_atomic_reload]; [None]: it cannot go on now. *)
Definition task_step (o : Oracle) (t : Task) σ : option (Task * RState) :=
  match t with
  | TStart q affected =>
      match start_reload (req_module q) affected (operations σ) with
      | (Ok _, ops) => Some (TTargets q, set_operations ops σ)
      | (Err e, _) => Some (TDone (Err e), σ)
      end
  | TTargets q =>
      match get_affected_processes (req_module q) (operations σ) with
      | Some targets => Some (TDispatch q targets None targets [], σ)
      | None => Some (TDone (Err (NoOperation (req_module q))), σ)
      end
  | TDispatch q targets rb (p :: todo) pending =>
      let '(c, σ) := dispatch o (phase_command rb q) p σ in
      Some (TDispatch q targets rb todo (pending ++ [(p, c)]), σ)
  | TDispatch q targets rb [] pending => Some (TCollect q targets rb pending [] [], σ)
  | TCollect q targets rb [] acks errors => Some (conclude q targets rb acks errors σ)
  | TCollect q targets rb pending acks errors =>
      match filter (fun p => is_ready σ p.2) pending with
      | [] =>
          if timer o then
            Some (TCollect q targets rb [] acks
                    (errors ++ ((fun p => mkReloadError p.1 AcknowledgementTimedOut None) <$> pending)), σ)
          else None
      | ready =>
          p ← ready !! choice o;
          let '(acks, errors) := receive (req_module q) (phase_target rb q) p σ acks errors in
          Some (TCollect q targets rb (filter (fun p' => p' ≠ p) pending) acks errors, σ)
      end
  | TDone _ => None
  end.

(** ** Steps of processes *)

(** The loop takes a reload signal from the ingress. *)
Definition loop_step (process_id : Z) σ : option RState :=
  rp ← procs σ !! process_id;
  match inbox rp with
  | [] => None
  | c :: rest =>
      let '(k, outs) := reload_signal process_id (cmd_module c) c (cmd_ack c) (rp_kind rp) in
      Some (set_oneshots (write_outputs outs (oneshots σ))
              (set_procs (<[process_id := mkRProc rest k (driver rp)]> (procs σ)) σ))
  end.

(** [env.get_module_registry()] *)
Definition registry_of σ : option (ModuleRegistry M Module) := a ← env_registry σ; regs σ !! a.

(** The driver takes a command, or goes on with one. *)
Definition driver_step (process_id : Z) (e : E) σ : option RState :=
  rp ← procs σ !! process_id;
  match rp_kind rp with
  | Managed (Some ctx) =>
      let t := version_tracking ctx in
      let update queue t R d outs :=
        set_oneshots (write_outputs outs (oneshots σ)) (set_regs R
          (set_procs (<[process_id := mkRProc (inbox rp) (Managed (Some (mkContext queue t))) d]> (procs σ)) σ)) in
      match phase (driver rp) with
      | DRunning =>
          '(c, queue) ← try_recv (reload_queue ctx);
          let '(d, outs) := driver_command process_id e (registry_of σ) c t (driver rp) in
          Some (update queue t (regs σ) d outs)
      | DAccounting m old target ack =>
          let '(d, t, R, outs) := driver_account process_id m old target ack t (regs σ) (driver rp) in
          Some (update (reload_queue ctx) t R d outs)
      | DReverting m old target ack why =>
          let '(d, outs) := driver_revert process_id e (registry_of σ) m old target ack why (driver rp) in
          Some (update (reload_queue ctx) t (regs σ) d outs)
      | DEnded => None
      end
  | _ => None
  end.

(** The commands a process has not answered: the one its driver works on, those
    queued for the driver, those in the ingress. *)
Definition working_on (p : DriverPhase) : list (Z * option Z) :=
  match p with
  | DRunning | DEnded => []
  | DAccounting m _ _ ack | DReverting m _ _ ack _ => [(m, ack)]
  end.
Definition queued_commands (k : Kind Chan) : list ReloadCommand :=
  match k with Managed (Some ctx) => queued (reload_queue ctx) | _ => [] end.
Definition brief (c : ReloadCommand) : Z * option Z := (cmd_module c, cmd_ack c).
Definition outstanding rp : list (Z * option Z) :=
  working_on (phase (driver rp)) ++ (brief <$> queued_commands (rp_kind rp)) ++ (brief <$> inbox rp).

(** The end of a process drops what it has not answered. *)
Definition process_exit (process_id : Z) rp σ : RState :=
  set_oneshots (drop_senders (omap snd (outstanding rp)) (oneshots σ))
    (set_procs (delete process_id (procs σ)) σ).

(** A process begins with nothing outstanding. *)
Definition spawned (k : Kind Chan) (i : option (Instance (Module := Module) (St := St))) : RProc :=
  mkRProc [] k (mkDriver DRunning i false).

(** Calls begin, go on and are dropped; processes take steps, end and are spawned; the
    module registries change. *)
Inductive reload_step : RState → RState → Prop :=
| rs_call σ k q affected :
    tasks σ !! k = None →
    reload_step σ (set_tasks (<[k := TStart q affected]> (tasks σ)) σ)
| rs_task σ k o t t' σ' :
    tasks σ !! k = Some t → task_step o t σ = Some (t', σ') →
    reload_step σ (set_tasks (<[k := t']> (tasks σ')) σ')
| rs_drop σ k : reload_step σ (set_tasks (delete k (tasks σ)) σ)
| rs_loop σ p σ' : loop_step p σ = Some σ' → reload_step σ σ'
| rs_driver σ p e σ' : driver_step p e σ = Some σ' → reload_step σ σ'
| rs_exit σ p rp : procs σ !! p = Some rp → reload_step σ (process_exit p rp σ)
| rs_spawn σ k i :
    queued_commands k = [] →
    reload_step σ (mkRState (<[next_pid σ := spawned k i]> (procs σ)) (next_pid σ + 1) (regs σ) (env_registry σ)
                     (oneshots σ) (next_ack σ) (operations σ) (tasks σ))
| rs_registries σ R : reload_step σ (set_regs R σ).

Definition init_reload (R : gmap Z (ModuleRegistry M Module)) (a : option Z) : RState :=
  mkRState ∅ 1 R a ∅ 0 ∅ ∅.
End coordinator.
