(* ===== verification/ReloadOutcome.v ===== *)
(** * What the status of a coordinated reload means

    In every interleaving of coordinators, loops and drivers of processes, exits and
    spawns, a status that lets the next operation begin is true: after a commit and
    after a confirmed rollback every affected process that is alive runs one version
    and has no command left that could change it.

    What makes it true is the order of commands: they reach a process's driver in
    the order in which they were sent, so the answer to the last one is given when
    all earlier ones, late ones of a phase that timed out included, have been dealt
    with. *)

From S2P Require Import Prelude External Message ModuleRegistry Versions Process Reload ReloadProcess HotReload.

Section outcome.
Context {M : Type → Type} `{FinMap Z M} {Module St E : Type} `{!Runtime (Module := Module) (St := St) (E := E)}.
Context {Chan : Type → Type} `{!Channel Chan, !ChannelLaws Chan}.
Abbreviation RProc := (RProc (Module := Module) (St := St) (Chan := Chan)).
Abbreviation RState := (RState (M := M) (Module := Module) (St := St) (Chan := Chan)).
Implicit Types (σ : RState) (rp : RProc) (m p c v : Z) (outs : list output) (os : gmap Z Oneshot).
Implicit Types (R : gmap Z (ModuleRegistry M Module)) (q : Request) (ts : list Z).

(** ** What a step of a process does *)

(** The version of a module that a process runs, as its context tracks it. *)
Definition tracked m rp : option Z :=
  match rp_kind rp with
  | Managed (Some ctx) => current_version m (version_tracking ctx)
  | _ => None
  end.

(** Nothing is answered; a command is refused, without effect; or the oldest command
    has been carried out. *)
Inductive proc_effect p rp rp' : list output → Prop :=
| pe_same :
    outstanding rp' = outstanding rp → (∀ m, tracked m rp' = tracked m rp) →
    proc_effect p rp rp' []
| pe_fail A x B prev cur f :
    outstanding rp = A ++ x :: B → outstanding rp' = A ++ B → (∀ m, tracked m rp' = tracked m rp) →
    proc_effect p rp rp' (acknowledge_reload x.2 p x.1 prev cur (Failed f))
| pe_done x B prev v st :
    outstanding rp = x :: B → outstanding rp' = B →
    (∀ m, m ≠ x.1 → tracked m rp' = tracked m rp) → tracked x.1 rp' = Some v → is_success st = true →
    proc_effect p rp rp' (acknowledge_reload x.2 p x.1 prev v st).

Definition advance p rp' (outs : list output) R σ : RState :=
  set_oneshots (write_outputs outs (oneshots σ)) (set_regs R (set_procs (<[p := rp']> (procs σ)) σ)).

(** A step of a process is one of these effects. *)
Definition process_step p σ σ' : Prop :=
  ∃ rp rp' outs R, procs σ !! p = Some rp ∧ proc_effect p rp rp' outs ∧ σ' = advance p rp' outs R σ.

Lemma loop_process_step p σ σ' : loop_step p σ = Some σ' → process_step p σ σ'.
Proof.
  unfold loop_step. intros (rp & Hrp & Hstep)%bind_Some. destruct (inbox rp) as [|c rest] eqn:Hin; [done|].
  assert (∀ k outs, proc_effect p rp (mkRProc rest k (driver rp)) outs →
    reload_signal p (cmd_module c) c (cmd_ack c) (rp_kind rp) = (k, outs) → process_step p σ σ') as Hfin.
  { intros k outs Heff Hsig. rewrite Hsig in Hstep. simplify_eq. exists rp, (mkRProc rest k (driver rp)), outs, (regs σ).
    split; [done|]. split; [done|]. by destruct σ. }
  assert (∀ prev cur f, proc_effect p rp (mkRProc rest (rp_kind rp) (driver rp))
    (acknowledge_reload (cmd_ack c) p (cmd_module c) prev cur (Failed f))) as Hfail.
  { intros prev cur f.
    apply (pe_fail p rp _ (working_on (phase (driver rp)) ++ (brief <$> queued_commands (rp_kind rp)))
      (brief c) (brief <$> rest)); [|unfold outstanding; simpl; by rewrite app_assoc|done].
    unfold outstanding. by rewrite Hin, <- app_assoc. }
  unfold reload_signal in Hfin. destruct (rp_kind rp) as [|[ctx|]] eqn:Hk; [by eapply Hfin| |by eapply Hfin].
  destruct (current_version (cmd_module c) (version_tracking ctx)) as [old|] eqn:Hcur; [|by eapply Hfin].
  unfold request_reload in Hfin. pose proof (try_send_spec _ c (reload_queue ctx)) as Hsend.
  destruct (try_send c (reload_queue ctx)) as [q|[c'|c']].
  - eapply Hfin; [|done]. destruct Hsend as (_ & _ & Hq & _). apply pe_same.
    + unfold outstanding. simpl. rewrite Hk, Hin, Hq. simpl. by rewrite fmap_app, <- app_assoc.
    + intros m. unfold tracked. simpl. by rewrite Hk.
  - destruct Hsend as [-> _]. eapply Hfin; [apply Hfail|]. by destruct c.
  - destruct Hsend as [-> _]. eapply Hfin; [apply Hfail|]. by destruct c.
Qed.

(** Moving the accounting changes the tracked version of one module, or nothing. *)
Lemma transition_tracking (m old target : Z) (t t' : VersionState) (R R' : gmap Z (ModuleRegistry M Module)) r :
  transition_current_version m old target t R = (r, t', R') →
  match r with
  | Ok _ => current_version m t' = Some target ∧ ∀ m', m' ≠ m → current_version m' t' = current_version m' t
  | Err _ => t' = t
  end.
Proof.
  unfold transition_current_version, current_version. intros Ht.
  destruct (bool_decide _); [by simplify_eq|].
  destruct (tracking_registry t) as [a|]; [|by simplify_eq].
  destruct (tracking_process t) as [k|]; [|by simplify_eq].
  destruct (on_registry a _ R) as [[[]|e] R'']; simplify_eq/=; [|done].
  split; [by rewrite lookup_insert_eq|]. intros m' Hm'. by rewrite lookup_insert_ne.
Qed.

Section driver_effects.
Context (p : Z) (rp : RProc) (ctx : Context Chan) (Hk : rp_kind rp = Managed (Some ctx)).

Definition after (queue : Chan ReloadCommand) (t : VersionState) d : RProc :=
  mkRProc (inbox rp) (Managed (Some (mkContext queue t))) d.

Lemma command_effect (e : E) (reg : option (ModuleRegistry M Module)) (c : ReloadCommand) (queue : Chan ReloadCommand) d outs :
  phase (driver rp) = DRunning → try_recv (reload_queue ctx) = Some (c, queue) →
  driver_command p e reg c (version_tracking ctx) (driver rp) = (d, outs) →
  proc_effect p rp (after queue (version_tracking ctx) d) outs.
Proof.
  intros Hph Hrecv Hd. pose proof (try_recv_spec _ (reload_queue ctx)) as Hq. rewrite Hrecv in Hq.
  destruct Hq as (Hq & _ & _). unfold driver_command in Hd.
  destruct (into_parts c) as [[[[act m] expected] target] ack] eqn:Hparts.
  assert (brief c = (m, ack)) as Hbrief by (by destruct c; simplify_eq/=).
  assert (outstanding rp = (m, ack) :: (brief <$> queued queue) ++ (brief <$> inbox rp)) as Hout.
  { unfold outstanding. rewrite Hph, Hk. simpl. rewrite Hq. csimpl. by rewrite Hbrief. }
  assert (∀ m', tracked m' (after queue (version_tracking ctx) d) = tracked m' rp) as Hsame.
  { intros m'. unfold tracked. simpl. by rewrite Hk. }
  assert (phase d = DRunning → ∀ prev cur f, proc_effect p rp (after queue (version_tracking ctx) d)
    (acknowledge_reload ack p m prev cur (Failed f))) as Hfail.
  { intros Hd' prev cur f. apply (pe_fail p rp _ [] (m, ack) _ prev cur f Hout); [|done].
    unfold outstanding. simpl. by rewrite Hd'. }
  destruct (current_version m (version_tracking ctx)) as [old|] eqn:Hcur; [|by simplify_eq; apply Hfail].
  destruct (old =? target).
  { simplify_eq. apply (pe_done p rp _ (m, ack) _ old old AlreadyAtTarget Hout); [|done| |done].
    - done.
    - unfold tracked. simpl. done. }
  destruct (match expected with Some _ => _ | None => _ end); [by simplify_eq; apply Hfail|].
  destruct (perform_pending_reload _ _ _ _ _ _) as [[[]|err] i]; simplify_eq; [|by apply Hfail].
  apply pe_same; [|done]. by rewrite Hout.
Qed.

Lemma account_effect (m old target : Z) (ack : option Z) (R R' : gmap Z (ModuleRegistry M Module)) d (t : VersionState) outs :
  phase (driver rp) = DAccounting m old target ack →
  driver_account p m old target ack (version_tracking ctx) R (driver rp) = (d, t, R', outs) →
  proc_effect p rp (after (reload_queue ctx) t d) outs.
Proof.
  intros Hph Hd. unfold driver_account in Hd.
  destruct (transition_current_version _ _ _ _ _) as [[r t'] R''] eqn:Ht. apply transition_tracking in Ht.
  assert (outstanding rp = (m, ack) :: (brief <$> queued (reload_queue ctx)) ++ (brief <$> inbox rp)) as Hout.
  { unfold outstanding. by rewrite Hph, Hk. }
  destruct r as [[]|why]; simplify_eq.
  - destruct Ht as [Htr Hother].
    apply (pe_done p rp _ (m, ack) _ old target Applied Hout); [done| |done|done].
    intros m' Hm'. unfold tracked. rewrite Hk. simpl. by apply Hother.
  - apply pe_same; [by rewrite Hout|]. intros m'. unfold tracked. by rewrite Hk.
Qed.

Lemma revert_effect (e : E) (reg : option (ModuleRegistry M Module)) (m old target : Z) (ack : option Z) (why : TrackError) d outs :
  phase (driver rp) = DReverting m old target ack why →
  driver_revert p e reg m old target ack why (driver rp) = (d, outs) →
  proc_effect p rp (after (reload_queue ctx) (version_tracking ctx) d) outs.
Proof.
  intros Hph Hd. unfold driver_revert in Hd.
  assert (outstanding rp = (m, ack) :: (brief <$> queued (reload_queue ctx)) ++ (brief <$> inbox rp)) as Hout.
  { unfold outstanding. by rewrite Hph, Hk. }
  assert (∀ m', tracked m' (after (reload_queue ctx) (version_tracking ctx) d) = tracked m' rp) as Hsame.
  { intros m'. unfold tracked. simpl. by rewrite Hk. }
  destruct (perform_pending_reload _ _ _ _ _ _) as [[[]|err] i]; simplify_eq;
    by apply (pe_fail p rp _ [] (m, ack) _ _ _ _ Hout).
Qed.
End driver_effects.

Lemma driver_process_step p e σ σ' : driver_step p e σ = Some σ' → process_step p σ σ'.
Proof.
  unfold driver_step. intros (rp & Hrp & Hstep)%bind_Some.
  destruct (rp_kind rp) as [|[ctx|]] eqn:Hk; [done| |done].
  destruct (phase (driver rp)) as [|m old target ack|m old target ack why|] eqn:Hph; [| | |done].
  - apply bind_Some in Hstep as ([c queue] & Hrecv & Hstep).
    destruct (driver_command _ _ _ _ _ _) as [d outs] eqn:Hd. simplify_eq.
    eexists rp, _, outs, (regs σ). split; [done|]. split; [by eapply command_effect|done].
  - destruct (driver_account _ _ _ _ _ _ _ _) as [[[d t] R] outs] eqn:Hd. simplify_eq.
    eexists rp, _, outs, R. split; [done|]. split; [by eapply account_effect|done].
  - destruct (driver_revert _ _ _ _ _ _ _ _ _) as [d outs] eqn:Hd. simplify_eq.
    eexists rp, _, outs, (regs σ). split; [done|]. split; [by eapply revert_effect|done].
Qed.

(** ** What is known of a process and of a channel *)

Definition cmds_for m rp : list (Z * option Z) := filter (fun x => x.1 = m) (outstanding rp).

(** The process, if it is alive, runs version [v] and nothing is about to change it. *)
Definition stands σ m p v : Prop :=
  p < next_pid σ ∧ ∀ rp, procs σ !! p = Some rp → cmds_for m rp = [] ∧ tracked m rp = Some v.

(** The last command for the module that [p] was sent has not been answered yet, or
    what was answered stands. *)
Definition chan_ok σ m p c : Prop :=
  c < next_ack σ ∧
  match oneshots σ !! c with
  | Some OPending => ∃ rp, procs σ !! p = Some rp ∧ last (cmds_for m rp) = Some (m, Some c)
  | Some (OSent a) =>
      is_success (status a) = true → ack_module_id a = m → stands σ m p (ack_current_version a)
  | Some OClosed => True
  | None => False
  end.

Definition acks_of rp : list Z := omap snd (outstanding rp).

Lemma effect_sublist p rp rp' outs : proc_effect p rp rp' outs → outstanding rp' `sublist_of` outstanding rp.
Proof.
  destruct 1 as [-> _|A x B prev cur f -> -> _|x B prev v st -> -> _ _ _]; [done| |by apply sublist_cons].
  apply sublist_app; [done|]. by apply sublist_cons.
Qed.

(** A process without commands for a module does not change its version. *)
Lemma effect_quiet p rp rp' outs m :
  proc_effect p rp rp' outs → cmds_for m rp = [] → cmds_for m rp' = [] ∧ tracked m rp' = tracked m rp.
Proof.
  unfold cmds_for. destruct 1 as [-> Ht|A x B prev cur f -> -> Ht|x B prev v st -> -> Ht _ _].
  - by rewrite Ht.
  - rewrite !filter_app, Ht. intros [-> Hx]%app_eq_nil. split; [|done].
    destruct (decide (x.1 = m)); [by rewrite filter_cons_True in Hx|]. by rewrite filter_cons_False in Hx.
  - destruct (decide (x.1 = m)) as [|Hne]; [by rewrite filter_cons_True|].
    rewrite filter_cons_False by done. intros ->. split; [done|]. by apply Ht.
Qed.

Lemma lookup_write_acknowledge (ack : option Z) p m (prev cur : Z) (st : ProcessReloadStatus) (os : gmap Z Oneshot) c :
  write_outputs (acknowledge_reload ack p m prev cur st) os !! c =
    if decide (ack = Some c) then resolve (OSent (mkAck p m prev cur st)) <$> os !! c else os !! c.
Proof.
  destruct ack as [a|]; [|by rewrite decide_False]. simpl. destruct (decide (Some a = Some c)) as [[= ->]|Hne].
  - apply lookup_alter_eq.
  - apply lookup_alter_ne. congruence.
Qed.

(** Only a channel whose command the process has is written to. *)
Lemma effect_outputs p rp rp' outs (os : gmap Z Oneshot) c :
  proc_effect p rp rp' outs →
  write_outputs outs os !! c = os !! c ∨
  (c ∈ acks_of rp ∧ ∃ a, write_outputs outs os !! c = resolve (OSent a) <$> os !! c).
Proof.
  assert (∀ A x B (prev cur : Z) (st : ProcessReloadStatus), outstanding rp = A ++ x :: B →
    write_outputs (acknowledge_reload x.2 p x.1 prev cur st) os !! c = os !! c ∨
    (c ∈ acks_of rp ∧ ∃ a, write_outputs (acknowledge_reload x.2 p x.1 prev cur st) os !! c
                             = resolve (OSent a) <$> os !! c)) as Hack.
  { intros A x B prev cur st Hout. rewrite lookup_write_acknowledge.
    destruct (decide (x.2 = Some c)) as [Hc|]; [right|by left]. split; [|by eexists].
    unfold acks_of. rewrite Hout. apply list_elem_of_omap. exists x. split; [|done].
    apply elem_of_app. right. left. }
  destruct 1 as [|A x B prev cur f Hout _ _|x B prev v st Hout _ _ _ _]; [by left|by eapply Hack|].
  by apply (Hack [] x B).
Qed.

Lemma stands_process p rp rp' outs R σ m p' v :
  procs σ !! p = Some rp → proc_effect p rp rp' outs →
  stands σ m p' v → stands (advance p rp' outs R σ) m p' v.
Proof.
  intros Hrp Heff [Hlt Hst]. split; [done|]. intros rq. simpl. destruct (decide (p = p')) as [<-|Hne].
  - rewrite lookup_insert_eq. intros [= <-]. destruct (Hst rp Hrp) as [Hc Ht].
    destruct (effect_quiet _ _ _ _ m Heff Hc) as [Hc' Ht']. split; [done|congruence].
  - rewrite lookup_insert_ne by done. apply Hst.
Qed.

Lemma last_filter_skip (A B : list (Z * option Z)) x y m :
  x ≠ y → last (filter (fun x => x.1 = m) (A ++ x :: B)) = Some y →
  last (filter (fun x => x.1 = m) (A ++ B)) = Some y.
Proof.
  intros Hne. rewrite !filter_app, !last_app.
  destruct (decide (x.1 = m)) as [Hx|Hx]; [rewrite filter_cons_True by done|by rewrite filter_cons_False by done].
  rewrite last_cons. destruct (last (filter _ B)); [done|]. congruence.
Qed.

Lemma chan_process_same p rp rp' outs R σ m c :
  procs σ !! p = Some rp → p < next_pid σ → NoDup (acks_of rp) → proc_effect p rp rp' outs →
  chan_ok σ m p c → chan_ok (advance p rp' outs R σ) m p c.
Proof.
  intros Hrp Hpid Hnd Heff [Hlt Hc]. split; [done|]. simpl.
  destruct (oneshots σ !! c) as [[|a|]|] eqn:Hos; [| |destruct (effect_outputs _ _ _ _ (oneshots σ) c Heff) as
    [->|[_ [a ->]]]; by rewrite Hos|done].
  2: { destruct (effect_outputs _ _ _ _ (oneshots σ) c Heff) as [->|[_ [a' ->]]]; rewrite Hos; simpl;
       intros Hsucc Hm; by eapply stands_process; eauto. }
  destruct Hc as (rp0 & Hrp0 & Hlast). simplify_eq.
  assert (∀ x B A, outstanding rp = A ++ x :: B → x.2 ≠ Some c → outstanding rp' = A ++ B →
    last (cmds_for m rp') = Some (m, Some c)) as Hskip.
  { intros x B A Hout Hx Hout'. unfold cmds_for in *. rewrite Hout'. rewrite Hout in Hlast.
    eapply last_filter_skip; [|exact Hlast]. by intros ->. }
  destruct Heff as [Hout Ht|A x B prev cur f Hout Hout' Ht|x B prev v st Hout Hout' Ht Hv Hsucc].
  - simpl. rewrite Hos. exists rp'. rewrite lookup_insert_eq. split; [done|]. unfold cmds_for in *. by rewrite Hout.
  - rewrite lookup_write_acknowledge. destruct (decide (x.2 = Some c)); rewrite Hos; [done|].
    exists rp'. rewrite lookup_insert_eq. split; [done|]. by eapply Hskip.
  - rewrite lookup_write_acknowledge. destruct (decide (x.2 = Some c)) as [Hx|Hx]; rewrite Hos; cycle 1.
    { exists rp'. rewrite lookup_insert_eq. split; [done|]. by apply (Hskip x B []). }
    simpl. intros _ Hm. unfold cmds_for in Hlast. rewrite Hout in Hlast.
    assert (filter (fun x => x.1 = m) B = []) as HB.
    { destruct (filter (fun x => x.1 = m) B) as [|y l] eqn:HB; [done|]. exfalso.
      assert ((m, Some c) ∈ B) as Hin.
      { apply (list_elem_of_filter (fun x => x.1 = m)). rewrite HB. apply last_Some_elem_of.
        destruct (decide (x.1 = m)); [rewrite filter_cons_True in Hlast by done|
          rewrite filter_cons_False in Hlast by done]; rewrite HB in Hlast; by rewrite ?last_cons_cons in Hlast. }
      unfold acks_of in Hnd. rewrite Hout in Hnd. csimpl in Hnd. rewrite Hx in Hnd.
      apply list.NoDup_cons in Hnd as [Hnin _]. apply Hnin, list_elem_of_omap. by exists (m, Some c). }
    split; [done|]. intros rq. simpl. rewrite lookup_insert_eq. intros [= <-]. unfold cmds_for. by rewrite Hout', HB, <- Hm.
Qed.

(** ** The invariant *)

Record procs_ok σ : Prop := {
  ok_pid p rp : procs σ !! p = Some rp → p < next_pid σ;
  ok_ack p rp c : procs σ !! p = Some rp → c ∈ acks_of rp → c < next_ack σ;
  ok_nodup p rp : procs σ !! p = Some rp → NoDup (acks_of rp);
  ok_cross p p' rp rp' c :
    procs σ !! p = Some rp → procs σ !! p' = Some rp' → c ∈ acks_of rp → c ∈ acks_of rp' → p = p';
}.

Definition quiet_at σ m p : Prop := ∀ rp, procs σ !! p = Some rp → cmds_for m rp = [].

Definition phase_status (rb : option (list ProcessReloadError)) : ReloadStatus :=
  match rb with None => Applying | Some errors => RollingBack errors end.

(** The operation of a call in one of its phases. *)
Definition phase_ok σ q ts rb : Prop :=
  operations σ !! req_module q = Some (mkOperation ts (phase_status rb)) ∧ StronglySorted Z.lt ts ∧
  ∀ p, p ∉ ts → quiet_at σ (req_module q) p.

Definition task_ok σ (t : Task) : Prop :=
  match t with
  | TStart _ _ | TDone _ => True
  | TTargets q =>
      ∃ ts, operations σ !! req_module q = Some (mkOperation ts Applying) ∧ StronglySorted Z.lt ts ∧
        ∀ p, quiet_at σ (req_module q) p
  | TDispatch q ts rb todo pending =>
      phase_ok σ q ts rb ∧ pending.*1 ++ todo = ts ∧
      Forall (fun pc => chan_ok σ (req_module q) pc.1 pc.2) pending
  | TCollect q ts rb pending acks errors =>
      phase_ok σ q ts rb ∧
      pending.*1 ++ (ack_process_id <$> acks) ++ (err_process_id <$> errors) ≡ₚ ts ∧
      Forall (fun pc => chan_ok σ (req_module q) pc.1 pc.2) pending ∧
      Forall (fun a => ack_current_version a = phase_target rb q ∧
                stands σ (req_module q) (ack_process_id a) (phase_target rb q)) acks
  end.

Definition task_module (t : Task) : option Z :=
  match t with
  | TStart _ _ | TDone _ => None
  | TTargets q | TDispatch q _ _ _ _ | TCollect q _ _ _ _ _ => Some (req_module q)
  end.

(** What a status that ends an operation promises. *)
Definition all_stand σ m (affected : list Z) (acks : list ReloadAcknowledgement) : Prop :=
  ack_process_id <$> acks = affected ∧
  ∃ v, Forall (fun a => ack_current_version a = v) acks ∧ ∀ p, p ∈ affected → stands σ m p v.

Definition op_settled σ m (op : ReloadOperation) : Prop :=
  match op_status op with
  | Committed acks | RolledBack _ acks => all_stand σ m (affected_processes op) acks
  | _ => True
  end.

Record reload_ok σ : Prop := {
  ok_procs : procs_ok σ;
  ok_quiet m : is_reload_in_progress m (operations σ) = false → ∀ p, quiet_at σ m p;
  ok_settled m op : operations σ !! m = Some op → op_settled σ m op;
  ok_task k t : tasks σ !! k = Some t → task_ok σ t;
  ok_owner k k' t t' m :
    tasks σ !! k = Some t → tasks σ !! k' = Some t' →
    task_module t = Some m → task_module t' = Some m → k = k';
}.

(** What is known of a process and a module is still true. *)
Definition keeps σ σ' m p : Prop :=
  (∀ v, stands σ m p v → stands σ' m p v) ∧ (∀ c, chan_ok σ m p c → chan_ok σ' m p c) ∧
  (quiet_at σ m p → quiet_at σ' m p).

Lemma keeps_refl σ m p : keeps σ σ m p.
Proof. by split; [|split]. Qed.

Lemma phase_ok_keeps σ σ' q ts rb :
  (∀ p, p ∉ ts → keeps σ σ' (req_module q) p) → operations σ' !! req_module q = operations σ !! req_module q →
  phase_ok σ q ts rb → phase_ok σ' q ts rb.
Proof.
  intros Hk Ho (Hop & Hs & Hq). split; [by rewrite Ho|]. split; [done|]. intros p Hp. by apply Hk, Hq.
Qed.

Lemma chans_keep σ σ' m (pending : list (Z * Z)) :
  (∀ p, p ∈ pending.*1 → keeps σ σ' m p) →
  Forall (fun pc => chan_ok σ m pc.1 pc.2) pending → Forall (fun pc => chan_ok σ' m pc.1 pc.2) pending.
Proof.
  intros Hk. rewrite !list.Forall_forall. intros Hp [p c] Hin. apply Hk; [|by apply (Hp (p, c))].
  apply list_elem_of_fmap. by exists (p, c).
Qed.

Lemma task_ok_keeps σ σ' t :
  (∀ m, task_module t = Some m → (∀ p, keeps σ σ' m p) ∧ operations σ' !! m = operations σ !! m) →
  task_ok σ t → task_ok σ' t.
Proof.
  intros Hk. destruct t as [q aff|q|q ts rb todo pending|q ts rb pending acks errors|r]; simpl; try done;
    destruct (Hk (req_module q) eq_refl) as [Hkeep Ho].
  - intros (ts & Hop & Hs & Hq). exists ts. rewrite Ho. split; [done|]. split; [done|]. intros p. by apply Hkeep.
  - intros (Hph & Hts & Hch). split; [by eapply phase_ok_keeps|]. split; [done|]. by eapply chans_keep.
  - intros (Hph & Hts & Hch & Hacks). split; [by eapply phase_ok_keeps|]. split; [done|].
    split; [by eapply chans_keep|]. eapply Forall_impl; [exact Hacks|]. intros a [Hv Hst]. split; [done|]. by apply Hkeep.
Qed.

Lemma op_settled_keeps σ σ' m op : (∀ p, keeps σ σ' m p) → op_settled σ m op → op_settled σ' m op.
Proof.
  intros Hk. unfold op_settled, all_stand.
  destruct (op_status op); try done; intros (Hids & v & Hv & Hst); (split; [done|]);
    exists v; (split; [done|]); intros p Hp; by apply Hk, Hst.
Qed.

(** A step that touches neither operations nor calls. *)
Lemma reload_ok_frame σ σ' :
  operations σ' = operations σ → tasks σ' = tasks σ → procs_ok σ' → (∀ m p, keeps σ σ' m p) →
  reload_ok σ → reload_ok σ'.
Proof.
  intros Ho Ht Hprocs Hk [_ Hquiet Hsettled Htask Howner]. split; [done|..].
  - intros m. rewrite Ho. intros Hm p. by apply Hk, Hquiet.
  - intros m op. rewrite Ho. intros Hop. eapply op_settled_keeps; [by apply Hk|]. by apply Hsettled.
  - intros k t. rewrite Ht. intros Hkt. eapply task_ok_keeps; [|by eapply Htask].
    intros m _. split; [by apply Hk|by rewrite Ho].
  - rewrite Ht. exact Howner.
Qed.

(** ** Steps of processes keep it *)

Lemma sublist_omap {A B} (f : A → option B) l l' : l `sublist_of` l' → omap f l `sublist_of` omap f l'.
Proof.
  induction 1 as [|x l l' _ IH|x l l' _ IH]; csimpl; [done|destruct (f x)..]; try done; by constructor.
Qed.

(** Processes whose unanswered commands only get fewer. *)
Lemma procs_ok_shrink σ σ' :
  next_pid σ' = next_pid σ → next_ack σ' = next_ack σ →
  (∀ p rp', procs σ' !! p = Some rp' →
     ∃ rp, procs σ !! p = Some rp ∧ outstanding rp' `sublist_of` outstanding rp) →
  procs_ok σ → procs_ok σ'.
Proof.
  intros Hpid Hack Hsub [Hp1 Ha1 Hn1 Hx1].
  assert (∀ p rp', procs σ' !! p = Some rp' → ∃ rp, procs σ !! p = Some rp ∧ acks_of rp' `sublist_of` acks_of rp) as Hacks.
  { intros p rp' Hp. destruct (Hsub p rp' Hp) as (rp & Hrp & Hs). exists rp. split; [done|].
    unfold acks_of. by apply sublist_omap. }
  assert (∀ l l' c, l `sublist_of` l' → c ∈ l → c ∈ (l' : list Z)) as Hin.
  { intros l l' c Hl. intros Hc. eapply elem_of_submseteq; [exact Hc|]. by apply sublist_submseteq. }
  split; [| | |].
  - intros p rp' Hp. destruct (Hacks p rp' Hp) as (rp & Hrp & _). rewrite Hpid. by eapply Hp1.
  - intros p rp' c Hp Hc. destruct (Hacks p rp' Hp) as (rp & Hrp & Hs). rewrite Hack. eapply Ha1; [done|]. by eapply Hin.
  - intros p rp' Hp. destruct (Hacks p rp' Hp) as (rp & Hrp & Hs). eapply sublist_NoDup; [|done]. by eapply Hn1.
  - intros p p' rp rp' c Hp Hp' Hc Hc'. destruct (Hacks p rp Hp) as (rq & Hrq & Hs).
    destruct (Hacks p' rp' Hp') as (rq' & Hrq' & Hs'). eapply Hx1; [exact Hrq|exact Hrq'|by eapply Hin..].
Qed.

(** A channel whose sender another process holds is not written to. *)
Lemma chan_process_other p p' rp rp' outs R σ m c :
  procs_ok σ → procs σ !! p = Some rp → p' ≠ p → proc_effect p rp rp' outs →
  chan_ok σ m p' c → chan_ok (advance p rp' outs R σ) m p' c.
Proof.
  intros Hok Hrp Hne Heff [Hlt Hc]. split; [done|]. simpl.
  destruct (effect_outputs _ _ _ _ (oneshots σ) c Heff) as [->|[Hin [a ->]]];
    destruct (oneshots σ !! c) as [[|b|]|]; simpl; try done.
  - destruct Hc as (rq & Hrq & Hlast). exists rq. by rewrite lookup_insert_ne.
  - intros Hs Hm. eapply stands_process; eauto.
  - destruct Hc as (rq & Hrq & Hlast). exfalso. apply Hne. eapply (ok_cross _ Hok); [done..| |exact Hin].
    unfold acks_of. apply list_elem_of_omap. exists (m, Some c). split; [|done].
    apply last_Some_elem_of, list_elem_of_filter in Hlast. by destruct Hlast.
  - intros Hs Hm. eapply stands_process; eauto.
Qed.

Lemma process_step_ok p σ σ' : process_step p σ σ' → reload_ok σ → reload_ok σ'.
Proof.
  intros (rp & rp' & outs & R & Hrp & Heff & ->) Hok. pose proof (ok_procs _ Hok) as Hprocs.
  apply (reload_ok_frame σ); [done|done| | |done].
  - apply (procs_ok_shrink σ); [done|done| |done]. intros p' rq. simpl. destruct (decide (p = p')) as [<-|Hne].
    + rewrite lookup_insert_eq. intros [= <-]. exists rp. split; [done|]. by eapply effect_sublist.
    + rewrite lookup_insert_ne by done. by exists rq.
  - intros m p'. split; [intros v; by apply (stands_process p rp)|]. split.
    + intros c. destruct (decide (p' = p)) as [->|Hne].
      * eapply chan_process_same; [done|by eapply ok_pid|by eapply ok_nodup|done].
      * by eapply chan_process_other.
    + intros Hq rq. simpl. destruct (decide (p = p')) as [<-|Hne].
      * rewrite lookup_insert_eq. intros [= <-]. by eapply effect_quiet; [|apply Hq].
      * rewrite lookup_insert_ne by done. apply Hq.
Qed.

Lemma lookup_drop_senders (cs : list Z) (os : gmap Z Oneshot) c :
  drop_senders cs os !! c = if decide (c ∈ cs) then resolve OClosed <$> os !! c else os !! c.
Proof.
  unfold drop_senders. revert os. induction cs as [|a cs IH]; intros os; simpl; [done|].
  rewrite IH. destruct (decide (a = c)) as [<-|Hne].
  - rewrite lookup_alter_eq, (decide_True (P := a ∈ a :: cs)) by left. destruct (decide (a ∈ cs)); [|done].
    by destruct (os !! a) as [[]|].
  - rewrite lookup_alter_ne by done. apply decide_ext. rewrite elem_of_cons. naive_solver.
Qed.

Lemma exit_ok p rp σ : procs σ !! p = Some rp → reload_ok σ → reload_ok (process_exit p rp σ).
Proof.
  intros Hrp Hok. pose proof (ok_procs _ Hok) as Hprocs. apply (reload_ok_frame σ); [done|done| | |done].
  - apply (procs_ok_shrink σ); [done|done| |done]. intros p' rq. simpl. intros [Hne Hrq]%lookup_delete_Some. by exists rq.
  - intros m p'.
    assert (∀ v, stands σ m p' v → stands (process_exit p rp σ) m p' v) as Hst.
    { intros v [Hlt Hst]. split; [done|]. intros rq. simpl. intros [_ Hrq]%lookup_delete_Some. by apply Hst. }
    split; [done|]. split; [|intros Hq rq; simpl; intros [_ Hrq]%lookup_delete_Some; by apply Hq].
    intros c [Hlt Hc]. split; [done|]. simpl. rewrite lookup_drop_senders.
    destruct (oneshots σ !! c) as [[|a|]|] eqn:Hos; [|by destruct (decide _); simpl; intros; apply Hst, Hc|by destruct (decide _)|done].
    destruct Hc as (rq & Hrq & Hlast). destruct (decide (c ∈ _)) as [|Hnin]; [done|].
    exists rq. simpl. split; [|done]. apply lookup_delete_Some. split; [|done]. intros <-. simplify_eq.
    apply Hnin, list_elem_of_omap. exists (m, Some c). split; [|done].
    apply last_Some_elem_of, list_elem_of_filter in Hlast. by destruct Hlast.
Qed.

Lemma reload_spawn_ok k i σ :
  queued_commands k = [] → reload_ok σ →
  reload_ok (mkRState (<[next_pid σ := spawned k i]> (procs σ)) (next_pid σ + 1) (regs σ) (env_registry σ)
               (oneshots σ) (next_ack σ) (operations σ) (tasks σ)).
Proof.
  intros Hk Hok. pose proof (ok_procs _ Hok) as Hprocs.
  assert (outstanding (spawned k i : RProc) = []) as Hout by (unfold outstanding; simpl; by rewrite Hk).
  assert (∀ c, c ∈ acks_of (spawned k i : RProc) → False) as Hnone.
  { intros c. unfold acks_of. rewrite Hout. apply not_elem_of_nil. }
  assert (∀ p rp, procs σ !! p = Some rp → p ≠ next_pid σ) as Hfresh.
  { intros p rp Hp. pose proof (ok_pid _ Hprocs p rp Hp). lia. }
  apply (reload_ok_frame σ); [done|done| | |done].
  - destruct Hprocs as [Hp1 Ha1 Hn1 Hx1]. split; simpl.
    + intros p rp [[<- <-]|[_ Hp]]%lookup_insert_Some; [lia|]. specialize (Hp1 p rp Hp). lia.
    + intros p rp c [[<- <-]|[_ Hp]]%lookup_insert_Some; [by intros ?%Hnone|]. by eapply Ha1.
    + intros p rp [[<- <-]|[_ Hp]]%lookup_insert_Some; [unfold acks_of; rewrite Hout; constructor|]. by eapply Hn1.
    + intros p p' rp rp' c [[<- <-]|[_ Hp]]%lookup_insert_Some; [by intros _ ?%Hnone|].
      intros [[<- <-]|[_ Hp']]%lookup_insert_Some; [by intros _ ?%Hnone|]. by eapply Hx1.
  - intros m p. set (σ' := mkRState _ _ _ _ _ _ _ _).
    assert (∀ v, stands σ m p v → stands σ' m p v) as Hst.
    { intros v [Hlt Hst]. split; [simpl; lia|]. intros rp. simpl. rewrite lookup_insert_ne by lia. apply Hst. }
    split; [done|]. split.
    + intros c [Hlt Hc]. split; [done|]. simpl. destruct (oneshots σ !! c) as [[|a|]|]; auto.
      destruct Hc as (rp & Hrp & Hlast). exists rp. rewrite lookup_insert_ne; [done|]. by apply not_eq_sym, (Hfresh p rp).
    + intros Hq rp. simpl. intros [[_ <-]|[_ Hp]]%lookup_insert_Some; [|by apply Hq]. unfold cmds_for. by rewrite Hout.
Qed.

Lemma registries_ok R σ : reload_ok σ → reload_ok (set_regs R σ).
Proof.
  intros Hok. apply (reload_ok_frame σ); [done|done| | |done].
  - by destruct (ok_procs _ Hok).
  - intros m p. by split; [|split].
Qed.

(** ** Steps of calls keep it *)

Lemma active_in_progress σ t m :
  task_ok σ t → task_module t = Some m → is_reload_in_progress m (operations σ) = true.
Proof.
  unfold is_reload_in_progress.
  destruct t as [|q|q ts rb todo pending|q ts rb pending acks errors|]; simpl; try done; intros Hok [= <-].
  - by destruct Hok as (ts & -> & _).
  - destruct Hok as ((-> & _) & _). by destruct rb.
  - destruct Hok as ((-> & _) & _). by destruct rb.
Qed.

(** A step of call [k], about module [m]. *)
Lemma reload_ok_call k t t' σ σ' m :
  reload_ok σ → tasks σ' = tasks σ → tasks σ !! k = Some t → procs_ok σ' →
  (∀ k' t'', k' ≠ k → tasks σ !! k' = Some t'' → task_module t'' ≠ Some m) →
  (∀ m', m' ≠ m → (∀ p, keeps σ σ' m' p) ∧ operations σ' !! m' = operations σ !! m') →
  task_ok σ' t' → (∀ m', task_module t' = Some m' → m' = m) →
  (is_reload_in_progress m (operations σ') = false → ∀ p, quiet_at σ' m p) →
  (∀ op, operations σ' !! m = Some op → op_settled σ' m op) →
  reload_ok (set_tasks (<[k := t']> (tasks σ')) σ').
Proof.
  intros [_ Hquiet Hsettled Htask Howner] Ht Hk Hprocs Hother Hkeep Ht' Hm' Hq Hs. rewrite Ht. split.
  - by destruct Hprocs.
  - intros m'. simpl. destruct (decide (m' = m)) as [->|Hne]; [exact Hq|]. destruct (Hkeep m' Hne) as [Hkm Ho].
    unfold is_reload_in_progress. rewrite Ho. intros Hf p. by apply Hkm, Hquiet.
  - intros m' op. simpl. destruct (decide (m' = m)) as [->|Hne]; [apply Hs|]. destruct (Hkeep m' Hne) as [Hkm ->].
    intros Hop. by eapply (op_settled_keeps σ), Hsettled.
  - intros k' t''. simpl. intros [[<- <-]|[Hne Hk']]%lookup_insert_Some; [done|].
    eapply (task_ok_keeps σ); [|by eapply Htask]. intros m'' Hm''. apply Hkeep. intros ->. by eapply (Hother k').
  - intros k1 k2 t1 t2 m''. simpl. intros [[<- <-]|[Hne1 Hk1]]%lookup_insert_Some
      [[<- <-]|[Hne2 Hk2]]%lookup_insert_Some Hm1 Hm2; [done| | |by eapply Howner].
    + apply Hm' in Hm1 as ->. by destruct (Hother k2 t2).
    + apply Hm' in Hm2 as ->. by destruct (Hother k1 t1).
Qed.

(** A step of a call whose operation is under way. *)
Lemma reload_ok_active k t t' σ σ' m :
  reload_ok σ → tasks σ' = tasks σ → tasks σ !! k = Some t → task_module t = Some m → procs_ok σ' →
  (∀ m', m' ≠ m → (∀ p, keeps σ σ' m' p) ∧ operations σ' !! m' = operations σ !! m') →
  task_ok σ' t' → (∀ m', task_module t' = Some m' → m' = m) →
  (is_reload_in_progress m (operations σ') = false → ∀ p, quiet_at σ' m p) →
  (∀ op, operations σ' !! m = Some op → op_settled σ' m op) →
  reload_ok (set_tasks (<[k := t']> (tasks σ')) σ').
Proof.
  intros Hok Ht Hk Hm Hprocs Hkeep Ht' Hm' Hq Hs. eapply (reload_ok_call k t t' σ); try done.
  intros k' t'' Hne Hk' Hm''. by destruct Hne; eapply (ok_owner _ Hok).
Qed.

(** Nothing changes but the program point. *)
Lemma reload_ok_point k t t' σ m :
  reload_ok σ → tasks σ !! k = Some t → task_module t = Some m →
  task_ok σ t' → (∀ m', task_module t' = Some m' → m' = m) →
  reload_ok (set_tasks (<[k := t']> (tasks σ)) σ).
Proof.
  intros Hok Hk Hm Ht' Hm'. apply (reload_ok_active k t t' σ σ m); try done.
  - apply Hok.
  - by apply (ok_quiet _ Hok).
  - by apply (ok_settled _ Hok).
Qed.

(** A call that has not begun, or has ended. *)
Lemma reload_ok_idle k t' σ :
  reload_ok σ → task_module t' = None → reload_ok (set_tasks (<[k := t']> (tasks σ)) σ).
Proof.
  intros [[] Hquiet Hsettled Htask Howner] Hm. split; try done.
  - intros k' t. simpl. intros [[<- <-]|[Hne Hk']]%lookup_insert_Some; [by destruct t'|by eapply Htask].
  - intros k1 k2 t1 t2 m. simpl. intros [[<- <-]|[Hne1 Hk1]]%lookup_insert_Some
      [[<- <-]|[Hne2 Hk2]]%lookup_insert_Some Hm1 Hm2; [done|congruence..|by eapply Howner].
Qed.

Lemma drop_ok k σ : reload_ok σ → reload_ok (set_tasks (delete k (tasks σ)) σ).
Proof.
  intros [[] Hquiet Hsettled Htask Howner]. split; try done.
  - intros k' t. simpl. intros [_ Hk']%lookup_delete_Some. by eapply Htask.
  - intros k1 k2 t1 t2 m. simpl. intros [_ Hk1]%lookup_delete_Some [_ Hk2]%lookup_delete_Some. by eapply Howner.
Qed.

Lemma normalize_sorted l : StronglySorted Z.lt (normalize l).
Proof. apply dedup_sorted, Sorted_StronglySorted; [apply _|]. apply Sorted_merge_sort, _. Qed.

Lemma start_ok k q affected o σ t' σ' :
  reload_ok σ → tasks σ !! k = Some (TStart q affected) →
  task_step o (TStart q affected) σ = Some (t', σ') →
  reload_ok (set_tasks (<[k := t']> (tasks σ')) σ').
Proof.
  intros Hok Hk. simpl. unfold start_reload.
  assert (is_reload_in_progress (req_module q) (operations σ) = false →
    reload_ok (set_tasks (<[k := TTargets q]> (tasks σ))
      (set_operations (<[req_module q := mkOperation (normalize affected) Applying]> (operations σ)) σ))) as Hstart.
  { intros Hfree. set (σ1 := set_operations _ σ).
    apply (reload_ok_call k (TStart q affected) (TTargets q) σ σ1 (req_module q)); try done.
    - by destruct (ok_procs _ Hok).
    - intros k' t'' Hne Hk' Hm. pose proof (active_in_progress _ _ _ (ok_task _ Hok _ _ Hk') Hm). congruence.
    - intros m' Hne. split; [|by apply lookup_insert_ne]. intros p. by split; [|split].
    - exists (normalize affected). split; [apply lookup_insert_eq|]. split; [apply normalize_sorted|].
      exact (ok_quiet _ Hok _ Hfree).
    - by intros m' [= <-].
    - unfold is_reload_in_progress. simpl. by rewrite lookup_insert_eq.
    - simpl. intros op. rewrite lookup_insert_eq. by intros [= <-]. }
  unfold is_reload_in_progress in Hstart. destruct (operations σ !! req_module q) as [op|] eqn:Hop.
  - destruct (blocks_new_operation (op_status op)) eqn:Hb; intros [= <- <-]; [|by apply Hstart].
    by apply reload_ok_idle.
  - intros [= <- <-]. by apply Hstart.
Qed.

(** A command is sent: the last that the process gets for its module. *)
Lemma procs_ok_fresh σ os :
  procs_ok σ →
  procs_ok (mkRState (procs σ) (next_pid σ) (regs σ) (env_registry σ) os (next_ack σ + 1) (operations σ) (tasks σ)).
Proof.
  intros [Hp1 Ha1 Hn1 Hx1]. split; try done. intros p rp c Hp Hc. simpl. specialize (Ha1 p rp c Hp Hc). lia.
Qed.

Lemma keeps_fresh σ σ' m p o :
  next_pid σ' = next_pid σ → next_ack σ' = next_ack σ + 1 → oneshots σ' = <[next_ack σ := o]> (oneshots σ) →
  (∀ rp', procs σ' !! p = Some rp' ↔ ∃ rp, procs σ !! p = Some rp ∧ rp' = rp) ∨
  (∃ rp rp', procs σ !! p = Some rp ∧ procs σ' !! p = Some rp' ∧
     cmds_for m rp' = cmds_for m rp ∧ tracked m rp' = tracked m rp) →
  keeps σ σ' m p.
Proof.
  intros Hpid Hack Hos Hview.
  assert (∀ rp', procs σ' !! p = Some rp' → ∃ rp, procs σ !! p = Some rp ∧
    cmds_for m rp' = cmds_for m rp ∧ tracked m rp' = tracked m rp) as Hback.
  { intros rp' Hp. destruct Hview as [Hiff|(rp & rq & Hrp & Hrq & Hc & Ht)]; [|simplify_eq; by exists rp].
    apply Hiff in Hp as (rp & Hrp & ->). by exists rp. }
  assert (∀ v, stands σ m p v → stands σ' m p v) as Hst.
  { intros v [Hlt Hst]. split; [by rewrite Hpid|]. intros rp' Hp. destruct (Hback rp' Hp) as (rp & Hrp & -> & ->). by apply Hst. }
  split; [done|]. split.
  - intros c [Hlt Hc]. split; [lia|]. rewrite Hos, lookup_insert_ne by lia.
    destruct (oneshots σ !! c) as [[|a|]|]; auto. destruct Hc as (rp & Hrp & Hlast).
    destruct Hview as [Hiff|(rq & rq' & Hrq & Hrq' & Hcs & Ht)].
    + exists rp. split; [|done]. apply Hiff. by exists rp.
    + simplify_eq. exists rq'. by rewrite Hcs.
  - intros Hq rp' Hp. destruct (Hback rp' Hp) as (rp & Hrp & -> & _). by apply Hq.
Qed.

Lemma dispatch_facts o (cmd : Z → ReloadCommand) p σ a σ1 m :
  procs_ok σ → (∀ c, brief (cmd c) = (m, Some c)) → dispatch o cmd p σ = (a, σ1) →
  operations σ1 = operations σ ∧ tasks σ1 = tasks σ ∧ procs_ok σ1 ∧ chan_ok σ1 m p a ∧
  ∀ m' p', m' ≠ m ∨ p' ≠ p → keeps σ σ1 m' p'.
Proof.
  intros Hok Hbrief. unfold dispatch. simpl.
  assert ((next_ack σ, set_oneshots (<[next_ack σ := OClosed]> (oneshots σ))
      (mkRState (procs σ) (next_pid σ) (regs σ) (env_registry σ) (oneshots σ) (next_ack σ + 1) (operations σ) (tasks σ)))
    = (a, σ1) →
    operations σ1 = operations σ ∧ tasks σ1 = tasks σ ∧ procs_ok σ1 ∧ chan_ok σ1 m p a ∧
    ∀ m' p', m' ≠ m ∨ p' ≠ p → keeps σ σ1 m' p') as Hclosed.
  { intros [= <- <-]. split; [done|]. split; [done|]. split; [exact (procs_ok_fresh σ _ Hok)|]. split.
    - split; [simpl; lia|]. simpl. by rewrite lookup_insert_eq.
    - intros m' p' _. eapply (keeps_fresh σ _ m' p' OClosed); try done. left. intros rp'. simpl.
      split; [by exists rp'|by intros (r & Hr & ->)]. }
  destruct (procs σ !! p) as [rp|] eqn:Hrp; [|done]. destruct (accepted o); [|done]. intros [= <- <-].
  set (rp' := mkRProc (inbox rp ++ [cmd (next_ack σ)]) (rp_kind rp) (driver rp)).
  assert (outstanding rp' = outstanding rp ++ [(m, Some (next_ack σ))]) as Hout.
  { unfold outstanding. simpl. rewrite fmap_app, !app_assoc. simpl. by rewrite Hbrief. }
  assert (acks_of rp' = acks_of rp ++ [next_ack σ]) as Hacks by (unfold acks_of; by rewrite Hout, omap_app).
  split; [done|]. split; [done|]. split; [|split].
  - destruct Hok as [Hp1 Ha1 Hn1 Hx1]. split; simpl.
    + intros p' rq [[<- <-]|[_ Hp]]%lookup_insert_Some; [by eapply Hp1|by eapply Hp1].
    + intros p' rq c [[<- <-]|[_ Hp]]%lookup_insert_Some.
      * rewrite Hacks, elem_of_app, list_elem_of_singleton. intros [Hc| ->]; [|lia]. specialize (Ha1 _ _ _ Hrp Hc). lia.
      * intros Hc. specialize (Ha1 _ _ _ Hp Hc). lia.
    + intros p' rq [[<- <-]|[_ Hp]]%lookup_insert_Some; [|by eapply Hn1]. rewrite Hacks.
      apply NoDup_app. split; [by eapply Hn1|]. split; [|apply NoDup_singleton].
      intros c Hc ->%list_elem_of_singleton. specialize (Ha1 _ _ _ Hrp Hc). lia.
    + intros p1 p2 r1 r2 c [[<- <-]|[Hne1 Hp1']]%lookup_insert_Some [[<- <-]|[Hne2 Hp2']]%lookup_insert_Some;
        rewrite ?Hacks, ?elem_of_app, ?list_elem_of_singleton; [done|..|by eapply Hx1].
      * intros [Hc| ->] Hc2; [by eapply Hx1|]. specialize (Ha1 _ _ _ Hp2' Hc2). lia.
      * intros Hc1 [Hc| ->]; [by eapply Hx1|]. specialize (Ha1 _ _ _ Hp1' Hc1). lia.
  - split; [simpl; lia|]. simpl. rewrite lookup_insert_eq. exists rp'. rewrite lookup_insert_eq. split; [done|].
    unfold cmds_for. rewrite Hout, filter_app, filter_cons_True by done. apply last_snoc.
  - intros m' p' Hne. eapply (keeps_fresh σ _ m' p' OPending); try done.
    destruct (decide (p' = p)) as [->|Hp]; [right|left].
    + exists rp, rp'. simpl. rewrite lookup_insert_eq. split; [done|]. split; [done|]. split; [|done].
      unfold cmds_for. rewrite Hout, filter_app, filter_cons_False; [apply app_nil_r|].
      intros Hm. destruct Hne as [Hne|Hne]; [apply Hne; by rewrite <- Hm|by apply Hne].
    + intros rq. simpl. rewrite lookup_insert_ne by done. split; [by exists rq|by intros (r & Hr & ->)].
Qed.

Lemma brief_phase_command rb q c : brief (phase_command rb q c) = (req_module q, Some c).
Proof. by destruct rb. Qed.

Lemma dispatch_ok k q ts rb p todo pending o σ t' σ' :
  reload_ok σ → tasks σ !! k = Some (TDispatch q ts rb (p :: todo) pending) →
  task_step o (TDispatch q ts rb (p :: todo) pending) σ = Some (t', σ') →
  reload_ok (set_tasks (<[k := t']> (tasks σ')) σ').
Proof.
  intros Hok Hk. simpl. destruct (dispatch o (phase_command rb q) p σ) as [c σ1] eqn:Hd. intros [= <- <-].
  pose proof (ok_task _ Hok _ _ Hk) as (Hph & Hts & Hch).
  apply (dispatch_facts _ _ _ _ _ _ (req_module q)) in Hd as (Hops & Htasks & Hprocs & Hnew & Hkeep);
    [|apply Hok|apply brief_phase_command].
  assert (p ∈ ts) as Hpts by (rewrite <- Hts; apply elem_of_app; right; left).
  assert (NoDup (pending.*1 ++ p :: todo)) as Hnd.
  { rewrite Hts. destruct Hph as (_ & Hs & _). by apply strictly_sorted_NoDup. }
  apply (reload_ok_active k (TDispatch q ts rb (p :: todo) pending) _ σ σ1 (req_module q)); try done.
  - intros m' Hne. split; [|by rewrite Hops]. intros p'. apply Hkeep. by left.
  - split; [|split].
    + eapply phase_ok_keeps; [|by rewrite Hops|done]. intros p' Hp'. apply Hkeep. right. by intros ->.
    + rewrite fmap_app, <- app_assoc. done.
    + apply Forall_app. split; [|by apply list.Forall_singleton]. eapply chans_keep; [|done]. intros p' Hp'.
      apply Hkeep. right. intros ->. apply NoDup_app in Hnd as (_ & Hnin & _). by eapply Hnin; [|left].
  - by intros m' [= <-].
  - rewrite Hops. intros Hf. pose proof (active_in_progress _ _ (req_module q) (ok_task _ Hok _ _ Hk) eq_refl). congruence.
  - intros op. rewrite Hops. destruct Hph as (-> & _). intros [= <-]. by destruct rb.
Qed.

Lemma pending_split (pending : list (Z * Z)) x :
  NoDup pending.*1 → x ∈ pending → pending ≡ₚ x :: filter (fun y => y ≠ x) pending.
Proof.
  intros Hnd%NoDup_fmap_1 Hin. apply NoDup_Permutation; [done| |].
  - apply list.NoDup_cons. split; [by intros [? _]%list_elem_of_filter|by apply list.NoDup_filter].
  - intros y. rewrite elem_of_cons, list_elem_of_filter. destruct (decide (y = x)); naive_solver.
Qed.

Lemma receive_ok σ q ts rb pending acks errors x acks' errors' :
  task_ok σ (TCollect q ts rb pending acks errors) → x ∈ pending →
  receive (req_module q) (phase_target rb q) x σ acks errors = (acks', errors') →
  task_ok σ (TCollect q ts rb (filter (fun y => y ≠ x) pending) acks' errors').
Proof.
  intros (Hph & Hperm & Hch & Hacks) Hx Hrec.
  assert (NoDup pending.*1) as Hnd.
  { destruct Hph as (_ & Hs & _). apply strictly_sorted_NoDup in Hs. rewrite <- Hperm in Hs.
    by apply NoDup_app in Hs as [? _]. }
  pose proof (pending_split _ _ Hnd Hx) as Hsplit.
  rewrite Hsplit in Hperm, Hch. apply Forall_cons_iff in Hch as [Hcx Hch]. csimpl in Hperm.
  assert (∀ (msg : ReloadMessage) (known : option Z), acks' = acks → errors' = errors ++ [mkReloadError x.1 msg known] →
    task_ok σ (TCollect q ts rb (filter (fun y => y ≠ x) pending) acks' errors')) as Herr.
  { intros msg known -> ->. split; [done|]. split; [|done]. rewrite <- Hperm, fmap_app. simpl. solve_Permutation. }
  unfold receive in Hrec. destruct Hcx as [_ Hcx].
  destruct (oneshots σ !! x.2) as [[|a|]|]; [simplify_eq; by eapply Herr| |simplify_eq; by eapply Herr..].
  destruct (protocol_error _ _ _ a) as [msg|] eqn:Hp; simplify_eq; [by eapply Herr|].
  unfold protocol_error in Hp. destruct (ack_process_id a =? x.1) eqn:Hpid; [|done]. simpl in Hp.
  destruct (ack_module_id a =? req_module q) eqn:Hmod; [|done]. simpl in Hp. bool_to_prop.
  assert (is_success (status a) = true ∧ ack_current_version a = phase_target rb q) as [Hsucc Hver].
  { destruct (status a); [..|done]; (destruct (_ =? phase_target rb q) eqn:Hv; [|done]); bool_to_prop; done. }
  split; [done|]. split; [|split; [done|]].
  - rewrite <- Hperm, fmap_app. simpl. rewrite Hpid. solve_Permutation.
  - apply Forall_app. split; [done|]. apply list.Forall_singleton. split; [done|]. rewrite <- Hver, Hpid. by apply Hcx.
Qed.

Lemma sort_by_key_ids {A} (key : A → Z) (l : list A) (ts : list Z) :
  key <$> l ≡ₚ ts → StronglySorted Z.lt ts → key <$> merge_sort (key_le key) l = ts.
Proof.
  intros Hperm Hts.
  assert (Transitive (key_le key)) by (intros a b c; unfold key_le; lia).
  assert (Total (key_le key)) by (intros a b; unfold key_le; lia).
  apply (StronglySorted_unique Z.le).
  - pose proof (StronglySorted_merge_sort (key_le key) l) as Hs.
    induction Hs as [|a l' _ IH Hall]; csimpl; constructor; [done|]. by apply Forall_fmap.
  - clear Hperm. induction Hts as [|a l' _ IH Hall]; constructor; [done|]. eapply Forall_impl; [exact Hall|]. lia.
  - by rewrite merge_sort_Permutation.
Qed.

Section conclude.
Context (k : Z) (q : Request) (ts : list Z) (rb : option (list ProcessReloadError)).
Context (acks : list ReloadAcknowledgement) (errors : list ProcessReloadError) (σ : RState).
Context (Hok : reload_ok σ) (Hk : tasks σ !! k = Some (TCollect q ts rb [] acks errors)).

(** The operation gets a new status, and the call its next program point. *)
Lemma new_status_ok s t' :
  let σ' := set_operations (<[req_module q := mkOperation ts s]> (operations σ)) σ in
  task_ok σ' t' → (∀ m, task_module t' = Some m → m = req_module q) →
  (blocks_new_operation s = false → ∀ p, quiet_at σ (req_module q) p) →
  op_settled σ (req_module q) (mkOperation ts s) →
  reload_ok (set_tasks (<[k := t']> (tasks σ)) σ').
Proof.
  intros σ' Ht' Hm Hq Hs.
  apply (reload_ok_active k (TCollect q ts rb [] acks errors) t' σ σ' (req_module q)); try done.
  - by destruct (ok_procs _ Hok).
  - intros m' Hne. split; [intros p; by split; [|split]|]. by apply lookup_insert_ne.
  - unfold is_reload_in_progress. simpl. by rewrite lookup_insert_eq.
  - intros op. simpl. rewrite lookup_insert_eq. intros [= <-]. exact Hs.
Qed.

(** When there were no errors, every target stands at the version of the phase. *)
Lemma no_errors_stand :
  sort_errors errors = [] →
  all_stand σ (req_module q) ts (sort_acks acks) ∧ ∀ p, quiet_at σ (req_module q) p.
Proof.
  intros Hno. pose proof (ok_task _ Hok _ _ Hk) as ((_ & Hs & Hq) & Hperm & _ & Hacks). simpl in Hperm.
  assert (errors = []) as ->.
  { apply Permutation_nil_r. rewrite <- Hno. symmetry. apply merge_sort_Permutation. }
  simpl in Hperm. rewrite app_nil_r in Hperm.
  assert (∀ p, p ∈ ts → stands σ (req_module q) p (phase_target rb q)) as Hst.
  { intros p. rewrite <- Hperm, list_elem_of_fmap. intros (a & -> & Ha). rewrite list.Forall_forall in Hacks.
    by apply Hacks. }
  split.
  - split; [by apply sort_by_key_ids|]. exists (phase_target rb q). split; [|done].
    apply list.Forall_forall. intros a. unfold sort_acks. rewrite merge_sort_Permutation. intros Ha.
    rewrite list.Forall_forall in Hacks. by apply Hacks.
  - intros p. destruct (decide (p ∈ ts)) as [Hp|Hp]; [|by apply Hq]. intros rp Hrp. by apply (Hst p Hp).
Qed.

Lemma conclude_ok t' σ' :
  conclude q ts rb acks errors σ = (t', σ') → reload_ok (set_tasks (<[k := t']> (tasks σ')) σ').
Proof.
  pose proof (ok_task _ Hok _ _ Hk) as ((Hop & Hs & Hq) & _). unfold conclude, set_status. rewrite Hop. simpl.
  pose proof no_errors_stand as Hnone. pose proof new_status_ok as Hnew.
  destruct rb as [apply_errors|]; destruct (sort_errors errors) as [|e es]; intros [= <- <-].
  - destruct (Hnone eq_refl) as [Hst Hquiet]. by apply Hnew.
  - by apply Hnew.
  - destruct (Hnone eq_refl) as [Hst Hquiet]. by apply Hnew.
  - apply Hnew; [|by intros m [= <-]|done|done].
    split; [|split; [done|constructor]]. split; [apply lookup_insert_eq|]. by split.
Qed.
End conclude.

Lemma task_step_ok k o t σ t' σ' :
  reload_ok σ → tasks σ !! k = Some t → task_step o t σ = Some (t', σ') →
  reload_ok (set_tasks (<[k := t']> (tasks σ')) σ').
Proof.
  intros Hok Hk Hstep. pose proof (ok_task _ Hok _ _ Hk) as Ht.
  destruct t as [q affected|q|q ts rb [|p todo] pending|q ts rb pending acks errors|r].
  - by eapply start_ok.
  - simpl in Hstep. destruct Ht as (ts & Hop & Hs & Hq). unfold get_affected_processes in Hstep.
    rewrite Hop in Hstep. simplify_eq/=. eapply reload_ok_point; [done..| |by intros m [= <-]].
    split; [|by split]. split; [done|]. by split.
  - simplify_eq/=. eapply reload_ok_point; [done..| |by intros m [= <-]].
    destruct Ht as (Hph & Hts & Hch). split; [done|]. rewrite app_nil_r in Hts. simpl. rewrite app_nil_r.
    split; [by rewrite Hts|]. by split.
  - by eapply dispatch_ok.
  - destruct pending as [|x pending]; [by simplify_eq/=; eapply conclude_ok|].
    cbn [task_step] in Hstep. set (pend := x :: pending) in *.
    destruct (filter (fun p : Z * Z => is_ready σ p.2) pend) as [|y ready] eqn:Hready.
    + destruct (timer o); simplify_eq. eapply reload_ok_point; [done..| |by intros m [= <-]].
      destruct Ht as (Hph & Hperm & Hch & Hacks). split; [done|]. split; [|split; [constructor|done]].
      rewrite <- Hperm, fmap_app, <- list_fmap_compose. cbn [fmap list_fmap app].
      change (err_process_id ∘ _) with (fun p : Z * Z => p.1). solve_Permutation.
    + apply bind_Some in Hstep as (z & Hz & Hstep).
      destruct (receive _ _ z σ acks errors) as [acks' errors'] eqn:Hrec. simplify_eq.
      eapply reload_ok_point; [done..| |by intros m [= <-]]. eapply receive_ok; [done| |done].
      apply (list_elem_of_filter (fun p : Z * Z => is_ready σ' p.2)). rewrite Hready. by eapply list_elem_of_lookup_2.
  - done.
Qed.

Lemma reload_step_ok σ σ' : reload_step σ σ' → reload_ok σ → reload_ok σ'.
Proof.
  intros Hstep Hok. destruct Hstep.
  - by apply reload_ok_idle.
  - by eapply task_step_ok.
  - by apply drop_ok.
  - eapply process_step_ok; [|done]. by apply loop_process_step.
  - eapply process_step_ok; [|done]. by eapply driver_process_step.
  - by apply exit_ok.
  - by apply reload_spawn_ok.
  - by apply registries_ok.
Qed.

Lemma init_reload_ok R a : reload_ok (init_reload R a).
Proof. by split; [split|..]. Qed.

Lemma reachable_reload_ok R a σ : rtc reload_step (init_reload R a) σ → reload_ok σ.
Proof. apply rtc_invariant; [|apply init_reload_ok]. intros σ1 σ2 Hok Hstep. by eapply reload_step_ok. Qed.

(** C4. In every interleaving of coordinated reloads, process loops and drivers, lost
    and late answers, dropped calls, exits, spawns and changes of the registries: a
    module that is reported as committed or rolled back has one acknowledgement per
    affected process, in order, all of one version, and every affected process that is
    still alive runs that version and holds no command that could change it. *)
Theorem reload_status_truthful R a σ m op acks :
  rtc reload_step (init_reload R a) σ → operations σ !! m = Some op →
  (op_status op = Committed acks ∨ ∃ errors, op_status op = RolledBack errors acks) →
  ack_process_id <$> acks = affected_processes op ∧
  ∃ v, Forall (fun b => ack_current_version b = v) acks ∧
    ∀ p rp, p ∈ affected_processes op → procs σ !! p = Some rp → tracked m rp = Some v ∧ cmds_for m rp = [].
Proof.
  intros Hrun Hop Hst. pose proof (ok_settled _ (reachable_reload_ok _ _ _ Hrun) _ _ Hop) as Hs. unfold op_settled in Hs.
  assert (all_stand σ m (affected_processes op) acks) as (Hids & v & Hv & Hall)
    by (by destruct Hst as [Hst|[errors Hst]]; rewrite Hst in Hs).
  split; [done|]. exists v. split; [done|]. intros p rp Hp Hrp.
  destruct (Hall p Hp) as [_ Hstands]. by destruct (Hstands rp Hrp).
Qed.

(** Coordinated reloads of one module exclude each other: at most one call works on
    a module, the module is marked as in progress while it does, and when a module is
    not marked, no process, affected or not, holds a command for it in its ingress,
    its queue or its driver. *)
Theorem reloads_exclusive R a σ :
  rtc reload_step (init_reload R a) σ →
  (∀ k k' t t' m, tasks σ !! k = Some t → tasks σ !! k' = Some t' →
    task_module t = Some m → task_module t' = Some m → k = k') ∧
  (∀ k t m, tasks σ !! k = Some t → task_module t = Some m → is_reload_in_progress m (operations σ) = true) ∧
  (∀ m p rp, is_reload_in_progress m (operations σ) = false → procs σ !! p = Some rp → cmds_for m rp = []).
Proof.
  intros Hrun%reachable_reload_ok. split; [by apply (ok_owner _ Hrun)|]. split.
  - intros k t m Hk Hm. eapply active_in_progress; [by eapply (ok_task _ Hrun)|done].
  - intros m p rp Hf. by apply (ok_quiet _ Hrun).
Qed.
End outcome.

(** ** Schedules: reloads that can be run *)

Section schedule.
Context {M : Type → Type} `{FinMap Z M} {Module St E : Type} `{!Runtime (Module := Module) (St := St) (E := E)}.
Context {Chan : Type → Type} `{!Channel Chan}.
Abbreviation RState := (RState (M := M) (Module := Module) (St := St) (Chan := Chan)).

Inductive move : Type :=
| MCall (k : Z) (q : Request) (affected : list Z)
| MTask (k : Z) (o : Oracle)
| MLoop (p : Z)
| MDriver (p : Z) (e : E)
| MSpawn (k : Kind Chan) (i : option (Instance (Module := Module) (St := St))).

Definition make (mv : move) (σ : RState) : option RState :=
  match mv with
  | MCall k q affected =>
      match tasks σ !! k with Some _ => None | None => Some (set_tasks (<[k := TStart q affected]> (tasks σ)) σ) end
  | MTask k o =>
      t ← tasks σ !! k; '(t', σ') ← task_step o t σ; Some (set_tasks (<[k := t']> (tasks σ')) σ')
  | MLoop p => loop_step p σ
  | MDriver p e => driver_step p e σ
  | MSpawn k i =>
      match queued_commands k with
      | [] => Some (mkRState (<[next_pid σ := spawned k i]> (procs σ)) (next_pid σ + 1) (regs σ) (env_registry σ)
                      (oneshots σ) (next_ack σ) (operations σ) (tasks σ))
      | _ => None
      end
  end.

Definition play (mvs : list move) (σ : RState) : option RState := foldl (fun o mv => σ ← o; make mv σ) (Some σ) mvs.

Lemma make_step (mv : move) (σ σ' : RState) : make mv σ = Some σ' → reload_step σ σ'.
Proof.
  destruct mv as [k q affected|k o|p|p e|k i]; simpl.
  - destruct (tasks σ !! k) eqn:Hk; [done|]. intros [= <-]. by constructor.
  - intros (t & Ht & ([t' σ1] & Hstep & [= <-])%bind_Some)%bind_Some. by econstructor.
  - by apply rs_loop.
  - by apply rs_driver.
  - destruct (queued_commands k) eqn:Hk; [|done]. intros [= <-]. by constructor.
Qed.

Lemma play_steps (mvs : list move) (σ σ' : RState) : play mvs σ = Some σ' → rtc reload_step σ σ'.
Proof.
  revert σ'. unfold play. induction mvs as [|mv mvs IH] using rev_ind; intros σ'; [intros [= ->]; constructor|].
  rewrite foldl_app. simpl. intros (σ1 & Hpre & Hmv)%bind_Some. eapply rtc_r; [by apply IH|by eapply make_step].
Qed.
End schedule.

(** A process that runs version 0 of module 5 is reloaded to version 1. *)
Module OutcomeDemo.
Definition process : Kind fifo := Managed (Some (mkContext (channel 4) Demo.tracking)).
Definition go : Oracle := mkOracle true 0 false.
Definition moves : list move :=
  [MSpawn process (Some Demo.old_instance); MCall 0 (mkRequest 5 0 1) [1]; MTask 0 go; MTask 0 go; MTask 0 go; MTask 0 go;
   MLoop 1; MDriver 1 (); MDriver 1 (); MTask 0 go; MTask 0 go].
Definition begin : RState (M := gmap Z) (Module := list ExportType) (St := unit) (Chan := fifo) :=
  init_reload {[0 := Demo.two_versions]} (Some 0).
Definition final := default begin (play moves begin).
Definition acks : list ReloadAcknowledgement := [mkAck 1 5 0 1 Applied].

Example committed : reload_status 5 (operations final) = Some (Committed acks).
Proof. by vm_compute. Qed.

Lemma final_reachable : rtc reload_step begin final.
Proof.
  apply (play_steps moves). assert (is_Some (play moves begin)) as [σ Hσ] by (by vm_compute; eexists).
  unfold final. by rewrite Hσ.
Qed.
End OutcomeDemo.

Lemma reload_status_truthful_witness :
  ∃ v, Forall (fun b => ack_current_version b = v) OutcomeDemo.acks ∧
    ∀ p rp, p ∈ [1] → procs OutcomeDemo.final !! p = Some rp → tracked 5 rp = Some v ∧ cmds_for 5 rp = [].
Proof.
  apply (reload_status_truthful {[0 := Demo.two_versions]} (Some 0) OutcomeDemo.final 5
    (mkOperation [1] (Committed OutcomeDemo.acks)) OutcomeDemo.acks).
  - apply OutcomeDemo.final_reachable.
  - by vm_compute.
  - by left.
Defined.

Lemma reloads_exclusive_witness :
  is_reload_in_progress 5 (operations OutcomeDemo.final) = false ∧
  ∀ p rp, procs OutcomeDemo.final !! p = Some rp → cmds_for 5 rp = [].
Proof.
  split; [by vm_compute|]. intros p rp.
  apply (reloads_exclusive {[0 := Demo.two_versions]} (Some 0) OutcomeDemo.final OutcomeDemo.final_reachable).
  by vm_compute.
Defined.
