(* ===== verification/Wire.v ===== *)
(** * Messages on the wire: the framing and the reassembly of
      [crates/lunatic-distributed/src/quic/quin.rs]

    A message is cut into chunks of at most 1024 bytes, each with a header of 24
    bytes.  The receiver of a stream puts messages together from chunks, which may be
    interleaved, under a budget that all streams of a server share.

    Bytes are numbers below 256.  Reading is from the bytes that a stream delivers; a
    read that times out or an allocation that fails is up to an oracle. *)

From stdpp Require Import list_numbers.
From S2P Require Import Prelude External Message.

Definition MESSAGE_CHUNK_SIZE : Z := 1024.
Definition MAX_WIRE_MESSAGE_BYTES : Z := 8 * 1024 * 1024.
Definition MAX_IN_FLIGHT_MESSAGES : Z := 64.
Definition MAX_IN_FLIGHT_MESSAGE_BYTES : Z := 32 * 1024 * 1024.
Definition MESSAGE_CHUNK_HEADER_SIZE : nat := 24.

Definition len {A} (l : list A) : Z := Z.of_nat (length l).

(** ** Framing *)

Inductive WireError : Type :=
| MessageTooLarge (size : Z)
| EmptyMessageShape
| EmptyChunk
| ChunkOffsetOverflow
| ChunkBeyondSize (offset size : Z)
| ChunkSizeMismatch (chunk_size expected : Z)
| InFlightMessageLimit
| InFlightAccountingOverflow
| InFlightByteLimit (size : Z)
| AllocationFailed
| ReassemblyDeadline
| ReassemblyDeadlineOverflow
| WrongFirstChunk (chunk_id : Z)
| SizeChanged (expected got : Z)
| WrongChunk (expected got : Z)
| ReadFailed.

Definition le_bytes (n : Z) (z : Z) : list Z := Z_to_little_endian n 8 z.
Definition of_le_bytes (bs : list Z) : Z := little_endian_to_Z 8 bs.

(** [data.len() as u32] *)
Definition as_u32 (z : Z) : Z := z `mod` 2 ^ 32.

(** The header and the body. *)
Definition frame_message_chunk (message_id message_size chunk_id : Z) (data : list Z) : list (list Z) :=
  [le_bytes 8 message_id ++ le_bytes 4 message_size ++ le_bytes 8 chunk_id ++ le_bytes 4 (as_u32 (len data)); data].

Definition validate_wire_message_size (message_size : Z) : result unit WireError :=
  ensure (message_size <=? MAX_WIRE_MESSAGE_BYTES) (MessageTooLarge message_size).

Definition div_ceil (a b : Z) : Z := (a + b - 1) / b.

(** [data.slice(offset..end)] *)
Definition slice (offset end_ : Z) (data : list Z) : list Z :=
  take (Z.to_nat (end_ - offset)) (drop (Z.to_nat offset) data).

(** [(0..data.len()).step_by(MESSAGE_CHUNK_SIZE).enumerate()] and the body at each
    offset; an empty message has one empty chunk. *)
Definition message_chunks (data : list Z) : list (Z * list Z) :=
  if len data =? 0 then [(0, [])]
  else (fun i => (i, slice (i * MESSAGE_CHUNK_SIZE) (Z.min (i * MESSAGE_CHUNK_SIZE + MESSAGE_CHUNK_SIZE) (len data)) data))
         <$> seqZ 0 (div_ceil (len data) MESSAGE_CHUNK_SIZE).

(** What is handed to the stream. *)
Definition write_message (message_id : Z) (data : list Z) : result (list (list Z)) WireError :=
  let? _ := validate_wire_message_size (len data) in
  Ok (message_chunks data ≫= (fun '(chunk_id, body) =>
        frame_message_chunk message_id (as_u32 (len data)) chunk_id body)).

(** ** Chunks *)

Record Chunk : Type := mkChunk {
  message_id : Z;
  message_size : Z;
  chunk_id : Z;
  data : list Z;
}.

Definition validate_chunk_header (message_size chunk_id chunk_size : Z) : result unit WireError :=
  let? _ := validate_wire_message_size message_size in
  if message_size =? 0 then
    ensure ((chunk_id =? 0) && (chunk_size =? 0)) EmptyMessageShape
  else
    let? _ := ensure (negb (chunk_size =? 0)) EmptyChunk in
    let? offset := ok_or (checked_mul u64_max chunk_id MESSAGE_CHUNK_SIZE) ChunkOffsetOverflow in
    let? _ := ensure (offset <? message_size) (ChunkBeyondSize offset message_size) in
    let expected_size := Z.min MESSAGE_CHUNK_SIZE (message_size - offset) in
    ensure (chunk_size =? expected_size) (ChunkSizeMismatch chunk_size expected_size).

(** [recv.read_exact(buffer)] *)
Definition read_exact (n : nat) (bytes : list Z) : result (list Z * list Z) WireError :=
  if (n <=? length bytes)%nat then Ok (take n bytes, drop n bytes) else Err ReadFailed.

(** What the world decides of one chunk: the timeouts of its header and its body, and
    whether its buffer can be allocated. *)
Record ReadOracle : Type := mkReadOracle {
  header_in_time : bool;
  body_in_time : bool;
  buffer_allocated : bool;
}.

Definition read_next_stream_chunk (o : ReadOracle) (bytes : list Z) : result (Chunk * list Z) WireError :=
  let? _ := ensure (header_in_time o) ReadFailed in
  let? read := read_exact MESSAGE_CHUNK_HEADER_SIZE bytes in
  let '(header, bytes) := read in
  let message_id := of_le_bytes (take 8 header) in
  let message_size := of_le_bytes (take 4 (drop 8 header)) in
  let chunk_id := of_le_bytes (take 8 (drop 12 header)) in
  let chunk_size := of_le_bytes (take 4 (drop 20 header)) in
  let? _ := validate_chunk_header message_size chunk_id chunk_size in
  let? _ := ensure (buffer_allocated o) AllocationFailed in
  let? _ := ensure (body_in_time o) ReadFailed in
  let? read := read_exact (Z.to_nat chunk_size) bytes in
  let '(body, bytes) := read in
  Ok (mkChunk message_id message_size chunk_id body, bytes).

(** ** The receive budget *)

Record ReceiveBudget : Type := mkReceiveBudget {
  max_messages : Z;
  max_bytes : Z;
  used_messages : Z;
  used_bytes : Z;
}.

Definition budget_new (max_messages max_bytes : Z) : ReceiveBudget := mkReceiveBudget max_messages max_bytes 0 0.
Definition budget_default : ReceiveBudget := budget_new MAX_IN_FLIGHT_MESSAGES MAX_IN_FLIGHT_MESSAGE_BYTES.

Definition set_used (messages bytes : Z) (b : ReceiveBudget) : ReceiveBudget :=
  mkReceiveBudget (max_messages b) (max_bytes b) messages bytes.

(** A [ReceiveReservation] is the number of its bytes. *)
Definition try_reserve (message_size : Z) (b : ReceiveBudget) : result (Z * ReceiveBudget) WireError :=
  let? _ := ensure (used_messages b <? max_messages b) InFlightMessageLimit in
  let? next_bytes := ok_or (checked_add u64_max (used_bytes b) message_size) InFlightAccountingOverflow in
  let? _ := ensure (next_bytes <=? max_bytes b) (InFlightByteLimit message_size) in
  Ok (message_size, set_used (used_messages b + 1) next_bytes b).

(** [ReceiveReservation::drop]; [None]: the accounting panics. *)
Definition release (bytes : Z) (b : ReceiveBudget) : option ReceiveBudget :=
  messages ← checked_sub (used_messages b) 1;
  bytes ← checked_sub (used_bytes b) bytes;
  Some (set_used messages bytes b).

Definition try_grow_reservation (additional_bytes : Z) (b : ReceiveBudget) : result ReceiveBudget WireError :=
  let? next_bytes := ok_or (checked_add u64_max (used_bytes b) additional_bytes) InFlightAccountingOverflow in
  let? _ := ensure (next_bytes <=? max_bytes b) (InFlightByteLimit additional_bytes) in
  Ok (set_used (used_messages b) next_bytes b).

(** The reservation grows when the budget lets it; [None]: its own count overflows. *)
Definition try_charge_additional (additional_bytes reservation : Z) (b : ReceiveBudget)
    : option (result unit WireError * Z * ReceiveBudget) :=
  match try_grow_reservation additional_bytes b with
  | Err e => Some (Err e, reservation, b)
  | Ok b => r ← checked_add u64_max reservation additional_bytes; Some (Ok tt, r, b)
  end.

Definition account_buffer_capacity (capacity reservation : Z) (b : ReceiveBudget)
    : option (result unit WireError * Z * ReceiveBudget) :=
  if reservation <? capacity then try_charge_additional (capacity - reservation) reservation b
  else Some (Ok tt, reservation, b).

(** ** Reassembly *)

Record PartialMessage : Type := mkPartial {
  partial_size : Z;
  next_chunk_id : Z;
  deadline : Z;
  partial_data : Vec Z;
  partial_reservation : Z;
}.

Record ReceivedMessage : Type := mkReceived {
  received_id : Z;
  received_data : list Z;
  received_reservation : Z;
}.

Abbreviation Reassembler := (gmap Z PartialMessage).

(** Dropping partial messages gives their reservations back. *)
Definition release_all (ps : list PartialMessage) (b : ReceiveBudget) : option ReceiveBudget :=
  foldl (fun b p => b ← b; release (partial_reservation p) b) (Some b) ps.

Section reassembly.
Context `{VecAlloc}.
(** The largest instant, and the time a message may take. *)
Context (instant_max reassembly_timeout : Z).

(** The first chunk of a message.  [alloc]: the allocation succeeds. *)
Definition first_chunk (alloc : bool) (now : Z) (c : Chunk) (rs : Reassembler) (b : ReceiveBudget)
    : option (result (option ReceivedMessage) WireError * Reassembler * ReceiveBudget) :=
  if negb (chunk_id c =? 0) then Some (Err (WrongFirstChunk (chunk_id c)), rs, b)
  else
    match try_reserve (message_size c) b with
    | Err e => Some (Err e, rs, b)
    | Ok (reservation, b) =>
        let fail e reservation b := b ← release reservation b; Some (Err e, rs, b) in
        if negb alloc then fail AllocationFailed reservation b
        else
          let buffer := vec_reserve_exact (message_size c) vec_empty in
          '(r, reservation, b) ← account_buffer_capacity (vec_capacity buffer) reservation b;
          match r with
          | Err e => fail e reservation b
          | Ok _ =>
              let buffer := vec_extend (data c) buffer in
              if len (vec_data buffer) =? message_size c
              then Some (Ok (Some (mkReceived (message_id c) (vec_data buffer) reservation)), rs, b)
              else
                match checked_add instant_max now reassembly_timeout with
                | None => fail ReassemblyDeadlineOverflow reservation b
                | Some deadline =>
                    Some (Ok None,
                          <[message_id c := mkPartial (message_size c) 1 deadline buffer reservation]> rs, b)
                end
          end
    end.

(** A later chunk. *)
Definition later_chunk (c : Chunk) (p : PartialMessage) (rs : Reassembler) (b : ReceiveBudget)
    : option (result (option ReceivedMessage) WireError * Reassembler * ReceiveBudget) :=
  let drop_entry e := b ← release (partial_reservation p) b; Some (Err e, delete (message_id c) rs, b) in
  if negb (partial_size p =? message_size c) then drop_entry (SizeChanged (partial_size p) (message_size c))
  else if negb (next_chunk_id p =? chunk_id c) then drop_entry (WrongChunk (next_chunk_id p) (chunk_id c))
  else
    let buffer := vec_extend (data c) (partial_data p) in
    if len (vec_data buffer) =? partial_size p
    then Some (Ok (Some (mkReceived (message_id c) (vec_data buffer) (partial_reservation p))),
               delete (message_id c) rs, b)
    else Some (Ok None,
               <[message_id c := mkPartial (partial_size p) (next_chunk_id p + 1) (deadline p) buffer
                                   (partial_reservation p)]> rs, b).

Definition expired (now : Z) (p : PartialMessage) : bool := deadline p <=? now.

Definition push_chunk_at (alloc : bool) (now : Z) (c : Chunk) (rs : Reassembler) (b : ReceiveBudget)
    : option (result (option ReceivedMessage) WireError * Reassembler * ReceiveBudget) :=
  if existsb (expired now) (map_to_list rs).*2 then
    b ← release_all (map_to_list rs).*2 b; Some (Err ReassemblyDeadline, ∅, b)
  else
    match validate_chunk_header (message_size c) (chunk_id c) (len (data c)) with
    | Err e =>
        match rs !! message_id c with
        | Some p => b ← release (partial_reservation p) b; Some (Err e, delete (message_id c) rs, b)
        | None => Some (Err e, rs, b)
        end
    | Ok _ =>
        match rs !! message_id c with
        | None => first_chunk alloc now c rs b
        | Some p => later_chunk c p rs b
        end
    end.
End reassembly.

(** ** Streams of a server *)

(** The task of a stream: the bytes that have arrived, the messages it puts together,
    and the reservation of the message that it decodes and dispatches. *)
Record Stream : Type := mkStream {
  incoming : list Z;
  reassembler : Reassembler;
  dispatching : option Z;
}.

Record Server : Type := mkServer {
  budget : ReceiveBudget;
  streams : gmap Z Stream;
}.

(** Dropping the task of a stream. *)
Definition stream_drop (st : Stream) (b : ReceiveBudget) : option ReceiveBudget :=
  b ← release_all (map_to_list (reassembler st)).*2 b;
  match dispatching st with Some r => release r b | None => Some b end.

(** What the world decides of a turn of [read_next_stream_message]. *)
Record TurnOracle : Type := mkTurnOracle {
  reading : ReadOracle;
  before_deadline : bool;
  allocated : bool;
  now : Z;
}.

Section server.
Context `{VecAlloc}.
Context (instant_max reassembly_timeout : Z).

(** [earliest_deadline] is [None] when nothing is being put together. *)
Definition earliest_deadline (rs : Reassembler) : option Z :=
  foldr (fun p acc => Some (match acc with Some d => Z.min (deadline p) d | None => deadline p end))
        None (map_to_list rs).*2.

(** A turn of [read_next_stream_message]: the received message, if there is one, and
    what is left to read. *)
Definition read_turn (o : TurnOracle) (bytes : list Z) (rs : Reassembler) (b : ReceiveBudget)
    : option (result (option ReceivedMessage) WireError * list Z * Reassembler * ReceiveBudget) :=
  match earliest_deadline rs, before_deadline o with
  | Some _, false => Some (Err ReassemblyDeadline, bytes, rs, b)
  | _, _ =>
      match read_next_stream_chunk (reading o) bytes with
      | Err e => Some (Err e, bytes, rs, b)
      | Ok (c, bytes) =>
          '(r, rs, b) ← push_chunk_at instant_max reassembly_timeout (allocated o) (now o) c rs b;
          Some (r, bytes, rs, b)
      end
  end.

(** Steps of the streams of a server; a failed read ends the task of its stream.
    Between the charges of [handle_request_stream_with_budget] the message is decoded
    and dispatched; a refused charge drops it. *)
Inductive server_op : Type :=
| SOpen (s : Z)
| SArrive (s : Z) (bytes : list Z)
| STurn (s : Z) (o : TurnOracle)
| SCharge (s : Z) (additional_bytes : Z)
| SDispatched (s : Z)
| SCancel (s : Z).

Definition set_stream (s : Z) (st : Stream) (b : ReceiveBudget) (sv : Server) : Server :=
  mkServer b (<[s := st]> (streams sv)).

(** [None]: a step that is not possible; [Some None]: a panic. *)
Definition server_exec (op : server_op) (sv : Server) : option (option Server) :=
  match op with
  | SOpen s =>
      match streams sv !! s with
      | None => Some (Some (set_stream s (mkStream [] ∅ None) (budget sv) sv))
      | Some _ => None
      end
  | SArrive s bytes =>
      st ← streams sv !! s;
      Some (Some (set_stream s (mkStream (incoming st ++ bytes) (reassembler st) (dispatching st)) (budget sv) sv))
  | STurn s o =>
      st ← streams sv !! s;
      match dispatching st with
      | Some _ => None
      | None =>
          Some ('(r, bytes, rs, b) ← read_turn o (incoming st) (reassembler st) (budget sv);
                match r with
                | Ok received =>
                    Some (set_stream s (mkStream bytes rs (received_reservation <$> received)) b sv)
                | Err _ => b ← stream_drop (mkStream bytes rs None) b; Some (mkServer b (delete s (streams sv)))
                end)
      end
  | SCharge s additional_bytes =>
      st ← streams sv !! s;
      r ← dispatching st;
      Some ('(res, r, b) ← try_charge_additional additional_bytes r (budget sv);
            match res with
            | Ok _ => Some (set_stream s (mkStream (incoming st) (reassembler st) (Some r)) b sv)
            | Err _ => b ← release r b; Some (set_stream s (mkStream (incoming st) (reassembler st) None) b sv)
            end)
  | SDispatched s =>
      st ← streams sv !! s;
      r ← dispatching st;
      Some (b ← release r (budget sv); Some (set_stream s (mkStream (incoming st) (reassembler st) None) b sv))
  | SCancel s =>
      st ← streams sv !! s;
      Some (b ← stream_drop st (budget sv); Some (mkServer b (delete s (streams sv))))
  end.
End server.
