(* ===== verification/WireServer.v ===== *)
(** * What the streams of a server retain

    The receive budget counts exactly the messages that the streams of a server put
    together or dispatch, whatever bytes arrive, and it never exceeds its limits. *)

From stdpp Require Import list_numbers.
From S2P Require Import Prelude External Message Wire.

(** ** Releasing *)

Lemma release_ok r b :
  1 <= used_messages b → r <= used_bytes b →
  release r b = Some (set_used (used_messages b - 1) (used_bytes b - r) b).
Proof.
  intros Hm Hb. unfold release, checked_sub. rewrite (proj2 (Z.leb_le _ _)) by done. simpl.
  by rewrite (proj2 (Z.leb_le _ _)) by done.
Qed.

Lemma set_used_twice x y x' y' b : set_used x y (set_used x' y' b) = set_used x y b.
Proof. done. Qed.

Lemma release_all_ok (ps : list PartialMessage) b :
  Forall (fun p => 0 <= partial_reservation p) ps →
  len ps <= used_messages b → foldr (fun p acc => partial_reservation p + acc) 0 ps <= used_bytes b →
  release_all ps b =
    Some (set_used (used_messages b - len ps) (used_bytes b - foldr (fun p acc => partial_reservation p + acc) 0 ps) b).
Proof.
  unfold release_all, len. revert b. induction ps as [|p ps IH]; intros b Hpos Hm Hb.
  - simpl. by rewrite !Z.sub_0_r; destruct b.
  - apply Forall_cons_iff in Hpos as [Hp Hpos]. cbn [length foldl foldr] in *.
    assert (0 <= foldr (fun p acc => partial_reservation p + acc) 0 ps).
    { clear -Hpos. induction Hpos; simpl; lia. }
    cbn [mbind option_bind]. rewrite release_ok by lia. rewrite IH by (try done; simpl; lia).
    simpl. f_equal. unfold set_used. simpl. f_equal; lia.
Qed.

(** ** One stream *)

(** The chunks of a partial message were full ones, its buffer has room for the rest,
    and what the buffer occupies is reserved. *)
Record partial_ok (p : PartialMessage) : Prop := {
  partial_length : len (vec_data (partial_data p)) = next_chunk_id p * MESSAGE_CHUNK_SIZE;
  partial_unfinished : next_chunk_id p * MESSAGE_CHUNK_SIZE < partial_size p;
  partial_begun : 1 <= next_chunk_id p;
  partial_bounded : partial_size p <= MAX_WIRE_MESSAGE_BYTES;
  partial_room : partial_size p <= vec_capacity (partial_data p);
  partial_covered : vec_capacity (partial_data p) <= partial_reservation p;
}.

Lemma partial_reserved p : partial_ok p → 0 <= partial_reservation p.
Proof. intros []. unfold MESSAGE_CHUNK_SIZE in *. lia. Qed.

(** The budget counts the messages of a reassembler and [m] others of [n] bytes. *)
Record counted (m n : Z) (rs : Reassembler) (b : ReceiveBudget) : Prop := {
  counted_messages : used_messages b = m + map_sum (fun _ => 1) rs;
  counted_bytes : used_bytes b = n + map_sum partial_reservation rs;
  counted_others : 0 <= m ∧ 0 <= n;
  counted_partials : map_Forall (fun _ p => partial_ok p) rs;
  counted_limits : used_messages b <= max_messages b ∧ used_bytes b <= max_bytes b ∧ max_bytes b <= u64_max;
}.

Definition same_limits (b b' : ReceiveBudget) : Prop :=
  max_messages b' = max_messages b ∧ max_bytes b' = max_bytes b.

Lemma count_nonneg (rs : Reassembler) : 0 <= map_sum (fun _ => 1) rs.
Proof. by apply map_sum_nonneg. Qed.

Lemma partials_nonneg (rs : Reassembler) :
  map_Forall (fun _ p => partial_ok p) rs → 0 <= map_sum partial_reservation rs.
Proof. intros Hps. apply map_sum_nonneg_in. intros id p Hp. by apply partial_reserved, (Hps id). Qed.

(** Moving a message from the others into the reassembler and back. *)
Lemma counted_insert m n rs b id p :
  rs !! id = None → 0 <= m → 0 <= n → partial_ok p →
  counted (m + 1) (n + partial_reservation p) rs b → counted m n (<[id := p]> rs) b.
Proof.
  intros Hid Hm Hn Hp [Hcm Hcb _ Hps Hl]. split; [| |done| |done].
  - rewrite map_sum_insert by done. lia.
  - rewrite map_sum_insert by done. lia.
  - by apply map_Forall_insert.
Qed.

Lemma counted_delete m n rs b id p :
  rs !! id = Some p → counted m n rs b → counted (m + 1) (n + partial_reservation p) (delete id rs) b.
Proof.
  intros Hid [Hcm Hcb Ho Hps Hl]. pose proof (partial_reserved p (Hps _ _ Hid)). split; [| |lia| |done].
  - rewrite (map_sum_delete _ _ _ _ Hid). lia.
  - rewrite (map_sum_delete _ _ _ _ Hid). lia.
  - by apply map_Forall_delete.
Qed.

Lemma counted_release m n r rs b :
  0 <= m → 0 <= n → 0 <= r → counted (m + 1) (n + r) rs b →
  ∃ b', release r b = Some b' ∧ same_limits b b' ∧ counted m n rs b'.
Proof.
  intros Hm Hn Hr [Hcm Hcb _ Hps (Hlm & Hlb & Hmax)].
  pose proof (count_nonneg rs). pose proof (partials_nonneg rs Hps).
  rewrite release_ok by lia. eexists. split; [done|]. split; [done|].
  split; simpl; [lia|lia|done|done|]. split_and!; [lia|lia|done].
Qed.

Lemma counted_clear m n rs b :
  counted m n rs b →
  ∃ b', release_all (map_to_list rs).*2 b = Some b' ∧ same_limits b b' ∧ counted m n ∅ b'.
Proof.
  intros [Hcm Hcb Ho Hps (Hlm & Hlb & Hmax)].
  assert (len (map_to_list rs).*2 = map_sum (fun _ => 1) rs) as Hlen.
  { unfold len. rewrite map_sum_one, length_fmap. by rewrite length_map_to_list. }
  pose proof (map_sum_foldr partial_reservation rs) as Hsum.
  pose proof (count_nonneg rs). pose proof (partials_nonneg rs Hps).
  rewrite release_all_ok; [|apply Forall_fmap; by apply map_Forall_to_list in Hps; eapply Forall_impl; [exact Hps|]; intros [? ?] ?; by apply partial_reserved|lia|lia].
  eexists. split; [done|]. split; [done|]. rewrite Hlen, <- Hsum.
  split; simpl; [rewrite map_sum_empty; lia|rewrite map_sum_empty; lia|done|apply map_Forall_empty|].
  split_and!; [lia|lia|done].
Qed.

Lemma counted_try_reserve m n rs b size r b' :
  0 <= size → counted m n rs b → try_reserve size b = Ok (r, b') →
  r = size ∧ same_limits b b' ∧ counted (m + 1) (n + r) rs b'.
Proof.
  intros Hsize [Hcm Hcb Ho Hps (Hlm & Hlb & Hmax)] Hr. unfold try_reserve, ensure, ok_or in Hr.
  destruct (used_messages b <? max_messages b) eqn:Hm; [|done]. simpl in Hr.
  destruct (checked_add _ _ _) as [next|] eqn:Hnext; [|done]. simpl in Hr.
  apply checked_add_Some in Hnext as [-> _].
  destruct (_ <=? max_bytes b) eqn:Hb; [|done]. simplify_eq/=. bool_to_prop.
  split; [done|]. split; [done|]. split; simpl; [lia|lia|lia|done|]. split_and!; [lia|lia|done].
Qed.

Lemma counted_charge m n rs b extra r :
  0 <= m → 0 <= n → 0 <= extra → 0 <= r → counted (m + 1) (n + r) rs b →
  ∃ res r' b', try_charge_additional extra r b = Some (res, r', b') ∧ same_limits b b' ∧ 0 <= r' ∧
    counted (m + 1) (n + r') rs b' ∧ (is_ok res = true → r' = r + extra).
Proof.
  intros Hm Hn Hextra Hr Hc. pose proof Hc as [Hcm Hcb Ho Hps (Hlm & Hlb & Hmax)].
  unfold try_charge_additional, try_grow_reservation, ensure, ok_or.
  destruct (checked_add _ _ _) as [next|] eqn:Hnext; [|by eexists _, _, _; split_and!; try done].
  simpl. apply checked_add_Some in Hnext as [-> _].
  destruct (_ <=? max_bytes b) eqn:Hb; [|by eexists _, _, _; split_and!; try done]. simpl. bool_to_prop.
  pose proof (partials_nonneg rs Hps).
  assert (checked_add u64_max r extra = Some (r + extra)) as -> by (apply checked_add_Some; lia).
  simpl. eexists _, _, _. split; [done|]. split; [done|]. split; [lia|]. split; [|done].
  split; simpl; [lia|lia|lia|done|]. split_and!; [lia|lia|done].
Qed.

Lemma counted_account m n rs b capacity r :
  0 <= m → 0 <= n → 0 <= r → counted (m + 1) (n + r) rs b →
  ∃ res r' b', account_buffer_capacity capacity r b = Some (res, r', b') ∧ same_limits b b' ∧ 0 <= r' ∧
    counted (m + 1) (n + r') rs b' ∧ (is_ok res = true → capacity <= r').
Proof.
  intros Hm Hn Hr Hc. unfold account_buffer_capacity. destruct (r <? capacity) eqn:Hlt; bool_to_prop.
  - destruct (counted_charge m n rs b (capacity - r) r) as (res & r' & b' & Heq & Hl & Hr' & Hc' & Hok); try lia; try done.
    exists res, r', b'. split_and!; try done. intros Hres. specialize (Hok Hres). lia.
  - eexists _, _, _. split_and!; try done.
Qed.

(** What [validate_chunk_header] says. *)
Lemma valid_chunk size id n :
  validate_chunk_header size id n = Ok tt → 0 <= size →
  size <= MAX_WIRE_MESSAGE_BYTES ∧
  (size = 0 ∧ id = 0 ∧ n = 0 ∨
   id * MESSAGE_CHUNK_SIZE < size ∧ n = Z.min MESSAGE_CHUNK_SIZE (size - id * MESSAGE_CHUNK_SIZE)).
Proof.
  unfold validate_chunk_header, validate_wire_message_size, ensure, ok_or. intros Hv Hsize.
  destruct (size <=? _) eqn:Hmax; [|done]. simpl in Hv. destruct (size =? 0) eqn:Hz.
  - destruct ((id =? 0) && (n =? 0)) eqn:Hb; [|done]. bool_to_prop. lia.
  - destruct (n =? 0); [done|]. simpl in Hv. destruct (checked_mul _ _ _) as [off|] eqn:Hmul; [|done].
    apply checked_mul_Some in Hmul as [-> _]. simpl in Hv.
    destruct (_ <? size) eqn:Hlt; [|done]. simpl in Hv. destruct (n =? _) eqn:Heq; [|done]. bool_to_prop. lia.
Qed.

Section server.
Context `{VecAlloc}.
Context (instant_max reassembly_timeout : Z).

(** The buffer of a new message. *)
Lemma reserved_buffer size :
  size <= vec_capacity (vec_reserve_exact size (vec_empty (A := Z))) ∧
  vec_data (vec_reserve_exact size (vec_empty (A := Z))) = [].
Proof.
  unfold vec_reserve_exact. split; [|done]. change (vec_len vec_empty + size) with size. cbn [vec_capacity vec_empty].
  destruct (size <=? 0) eqn:Hs; bool_to_prop; [done|apply grow_exact_ge].
Qed.

Lemma extend_within (l : list Z) (v : Vec Z) :
  vec_len v + len l <= vec_capacity v →
  vec_data (vec_extend l v) = vec_data v ++ l ∧ vec_capacity (vec_extend l v) = vec_capacity v.
Proof. intros Hroom. unfold vec_extend, len in *. simpl. by rewrite (proj2 (Z.leb_le _ _)) by done. Qed.

(** What a push may do with the budget. *)
Definition push_counted (m n : Z) (b : ReceiveBudget)
    (x : option (result (option ReceivedMessage) WireError * Reassembler * ReceiveBudget)) : Prop :=
  ∃ r rs' b', x = Some (r, rs', b') ∧ same_limits b b' ∧
    match r with
    | Ok (Some msg) => len (received_data msg) <= received_reservation msg ∧
        counted (m + 1) (n + received_reservation msg) rs' b'
    | _ => counted m n rs' b'
    end.

Lemma failed_counted m n rs' b b' r e :
  0 <= m → 0 <= n → 0 <= r → same_limits b b' → counted (m + 1) (n + r) rs' b' →
  push_counted m n b (b'' ← release r b'; Some (Err e, rs', b'')).
Proof.
  intros Hm Hn Hr [Hl1 Hl2] Hc. destruct (counted_release m n r rs' b' Hm Hn Hr Hc) as (b'' & -> & [Hl1' Hl2'] & Hc').
  eexists _, _, _. split; [done|]. split; [split; congruence|done].
Qed.

Lemma first_chunk_counted m n alloc now c rs b :
  0 <= message_size c → validate_chunk_header (message_size c) (chunk_id c) (len (data c)) = Ok tt →
  rs !! message_id c = None → counted m n rs b →
  push_counted m n b (first_chunk instant_max reassembly_timeout alloc now c rs b).
Proof.
  intros Hsize Hval Hid Hc. pose proof (counted_others _ _ _ _ Hc) as [Hm Hn]. unfold first_chunk.
  assert (∀ e, push_counted m n b (Some (Err e, rs, b))) as Hsame by (intros e; by eexists _, _, _).
  destruct (chunk_id c =? 0) eqn:H0; [|apply Hsame]. cbn [negb]. bool_to_prop.
  destruct (try_reserve (message_size c) b) as [[r b1]|e] eqn:Hr; [|apply Hsame].
  apply (counted_try_reserve m n rs) in Hr as (-> & Hl1 & Hc1); [|done..].
  destruct alloc; [|by apply failed_counted]. cbn [negb].
  destruct (reserved_buffer (message_size c)) as [Hcap Hempty].
  set (buffer := vec_reserve_exact (message_size c) vec_empty) in *. clearbody buffer.
  destruct (counted_account m n rs b1 (vec_capacity buffer) (message_size c)) as (res & r & b2 & Hacc & Hl2 & Hr & Hc2 & Hok);
    [done..|]. rewrite Hacc. cbn [mbind option_bind].
  assert (same_limits b b2) as Hl by (destruct Hl1, Hl2; split; congruence).
  destruct res as [[]|e]; [|by apply failed_counted]. specialize (Hok eq_refl).
  apply valid_chunk in Hval as [Hmax Hgeo]; [|done]. unfold MESSAGE_CHUNK_SIZE in Hgeo.
  destruct (extend_within (data c) buffer) as [Hdata Hcap']; [unfold vec_len; rewrite Hempty; simpl; lia|].
  rewrite Hdata, Hempty. simpl. destruct (len (data c) =? message_size c) eqn:Hlen; bool_to_prop.
  - eexists _, _, _. split; [done|]. split; [done|]. simpl. split; [lia|done].
  - destruct (checked_add instant_max now reassembly_timeout) as [dl|]; [|by apply failed_counted].
    eexists _, _, _. split; [done|]. split; [done|]. apply counted_insert; try done.
    split; cbn [partial_data partial_size next_chunk_id partial_reservation];
      rewrite ?Hdata, ?Hempty, ?Hcap'; cbn [app]; unfold MESSAGE_CHUNK_SIZE in *; lia.
Qed.

Lemma later_chunk_counted m n c p rs b :
  0 <= message_size c → validate_chunk_header (message_size c) (chunk_id c) (len (data c)) = Ok tt →
  rs !! message_id c = Some p → counted m n rs b → push_counted m n b (later_chunk c p rs b).
Proof.
  intros Hsize Hval Hid Hc. pose proof (counted_others _ _ _ _ Hc) as [Hm Hn]. unfold later_chunk.
  pose proof (counted_partials _ _ _ _ Hc _ _ Hid) as Hp. pose proof (partial_reserved p Hp).
  pose proof (counted_delete m n rs b _ p Hid Hc) as Hdel.
  destruct (partial_size p =? message_size c) eqn:Hs; [|by apply failed_counted].
  destruct (next_chunk_id p =? chunk_id c) eqn:Hn'; [|by apply failed_counted]. cbn [negb]. bool_to_prop.
  apply valid_chunk in Hval as [Hmax Hgeo]; [|done].
  destruct Hp as [Hlen Hun Hbeg Hbound Hroom Hcov]. unfold MESSAGE_CHUNK_SIZE in *.
  destruct (extend_within (data c) (partial_data p)) as [Hdata Hcap]; [unfold vec_len; fold (len (vec_data (partial_data p))); lia|].
  assert (len (vec_data (partial_data p) ++ data c) = next_chunk_id p * 1024 + len (data c)) as Hlen'.
  { unfold len in *. rewrite length_app. lia. }
  rewrite Hdata. destruct (len _ =? partial_size p) eqn:Hfin; bool_to_prop.
  - eexists _, _, _. split; [done|]. split; [done|]. simpl. split; [lia|done].
  - eexists _, _, _. split; [done|]. split; [done|]. rewrite <- insert_delete_eq.
    apply counted_insert; [apply lookup_delete_eq|done..| |].
    + split; cbn [partial_data partial_size next_chunk_id partial_reservation];
        rewrite ?Hdata, ?Hcap; unfold MESSAGE_CHUNK_SIZE; lia.
    + done.
Qed.

Lemma push_chunk_counted m n alloc now c rs b :
  0 <= message_size c → counted m n rs b →
  push_counted m n b (push_chunk_at instant_max reassembly_timeout alloc now c rs b).
Proof.
  intros Hsize Hc. unfold push_chunk_at. destruct (existsb _ _).
  - destruct (counted_clear m n rs b Hc) as (b' & -> & Hl & Hc'). by eexists _, _, _.
  - destruct (validate_chunk_header _ _ _) as [[]|e] eqn:Hval; destruct (rs !! message_id c) as [p|] eqn:Hid.
    + by apply later_chunk_counted.
    + by apply first_chunk_counted.
    + pose proof (counted_delete m n rs b _ p Hid Hc) as Hdel. pose proof (counted_others _ _ _ _ Hc) as [Hm Hn].
      apply failed_counted; try done. by apply partial_reserved, (counted_partials _ _ _ _ Hc (message_id c)).
    + by eexists _, _, _.
Qed.

(** ** Reading *)

Definition is_byte (x : Z) : Prop := 0 <= x < 256.

Lemma of_le_bytes_nonneg bs : Forall is_byte bs → 0 <= of_le_bytes bs.
Proof. intros Hbs. apply (little_endian_to_Z_bound 8 bs); [lia|exact Hbs]. Qed.

Lemma read_chunk_ok o bytes c rest :
  read_next_stream_chunk o bytes = Ok (c, rest) → Forall is_byte bytes → 0 <= message_size c ∧ Forall is_byte rest.
Proof.
  unfold read_next_stream_chunk, read_exact, ensure. intros Hr Hb.
  destruct (header_in_time o); [|done]. cbn [result_bind] in Hr.
  destruct (_ <=? length bytes)%nat; [|done]. cbn [result_bind] in Hr.
  destruct (validate_chunk_header _ _ _); [|done]. cbn [result_bind] in Hr.
  destruct (buffer_allocated o); [|done]. cbn [result_bind] in Hr.
  destruct (body_in_time o); [|done]. cbn [result_bind] in Hr.
  destruct (_ <=? _)%nat; [|done]. cbn [result_bind] in Hr. injection Hr as <- <-. cbn [message_size].
  split; [apply of_le_bytes_nonneg|]; auto using Forall_take, Forall_drop.
Qed.

(** What a turn may do with the budget. *)
Definition turn_counted (m n : Z) (b : ReceiveBudget)
    (x : option (result (option ReceivedMessage) WireError * list Z * Reassembler * ReceiveBudget)) : Prop :=
  ∃ r bytes' rs' b', x = Some (r, bytes', rs', b') ∧ Forall is_byte bytes' ∧ same_limits b b' ∧
    match r with
    | Ok (Some msg) => 0 <= received_reservation msg ∧ counted (m + 1) (n + received_reservation msg) rs' b'
    | _ => counted m n rs' b'
    end.

Lemma read_turn_counted m n o bytes rs b :
  Forall is_byte bytes → counted m n rs b →
  turn_counted m n b (read_turn instant_max reassembly_timeout o bytes rs b).
Proof.
  intros Hb Hc. unfold read_turn.
  assert (∀ e : WireError, turn_counted m n b (Some (Err e, bytes, rs, b))) as Hfail.
  { intros e. by exists (Err e), bytes, rs, b. }
  destruct (earliest_deadline rs), (before_deadline o); try apply Hfail;
    (destruct (read_next_stream_chunk (reading o) bytes) as [[c rest]|e] eqn:Hr; [|apply Hfail];
     apply read_chunk_ok in Hr as [Hsize Hrest]; [|done];
     destruct (push_chunk_counted m n (allocated o) (now o) c rs b Hsize Hc) as (r & rs' & b' & -> & Hl & Hpost);
     exists r, rest, rs', b'; split_and!; try done;
     destruct r as [[msg|]|e]; [destruct Hpost; split; [unfold len in *; lia|done]|done|done]).
Qed.
End server.

(** ** All streams *)

Definition held_messages (st : Stream) : Z :=
  map_sum (fun _ => 1) (reassembler st) + match dispatching st with Some _ => 1 | None => 0 end.
Definition held_bytes (st : Stream) : Z := map_sum partial_reservation (reassembler st) + default 0 (dispatching st).

Record stream_ok (st : Stream) : Prop := {
  stream_bytes : Forall is_byte (incoming st);
  stream_partials : map_Forall (fun _ p => partial_ok p) (reassembler st);
  stream_dispatching : 0 <= default 0 (dispatching st);
}.

Record server_ok (sv : Server) : Prop := {
  server_messages : used_messages (budget sv) = map_sum held_messages (streams sv);
  server_bytes : used_bytes (budget sv) = map_sum held_bytes (streams sv);
  server_limits : used_messages (budget sv) <= max_messages (budget sv) ∧
    used_bytes (budget sv) <= max_bytes (budget sv) ∧ max_bytes (budget sv) <= u64_max;
  server_streams : map_Forall (fun _ st => stream_ok st) (streams sv);
}.

Lemma stream_held_nonneg st : stream_ok st → 0 <= held_messages st ∧ 0 <= held_bytes st.
Proof.
  intros [_ Hp Hd]. pose proof (count_nonneg (reassembler st)). pose proof (partials_nonneg _ Hp).
  unfold held_messages, held_bytes. destruct (dispatching st); simpl in *; lia.
Qed.

Lemma others_nonneg (sts : gmap Z Stream) :
  map_Forall (fun _ st => stream_ok st) sts → 0 <= map_sum held_messages sts ∧ 0 <= map_sum held_bytes sts.
Proof. intros Hok. split; apply map_sum_nonneg_in; intros s st Hs; by apply stream_held_nonneg, (Hok s). Qed.

(** The view of one stream, and back. *)
Lemma server_stream sv s st :
  server_ok sv → streams sv !! s = Some st →
  let m := map_sum held_messages (delete s (streams sv)) in
  let n := map_sum held_bytes (delete s (streams sv)) in
  0 <= m ∧ 0 <= n ∧ stream_ok st ∧
  counted (m + match dispatching st with Some _ => 1 | None => 0 end) (n + default 0 (dispatching st))
    (reassembler st) (budget sv).
Proof.
  intros [Hm Hb Hl Hs] Hst. destruct (others_nonneg (delete s (streams sv))) as [Ho1 Ho2]; [by apply map_Forall_delete|].
  pose proof (Hs _ _ Hst) as Hok. split; [done|]. split; [done|]. split; [done|]. pose proof Hok as [_ Hp Hd].
  rewrite (map_sum_delete _ _ _ _ Hst) in *. rewrite (map_sum_delete _ _ _ _ Hst) in *.
  unfold held_messages, held_bytes in *. split; [lia|lia| |done|done]. destruct (dispatching st); simpl in *; lia.
Qed.

Lemma server_set sv s st b :
  server_ok sv → stream_ok st → same_limits (budget sv) b →
  counted (map_sum held_messages (delete s (streams sv)) + match dispatching st with Some _ => 1 | None => 0 end)
    (map_sum held_bytes (delete s (streams sv)) + default 0 (dispatching st)) (reassembler st) b →
  server_ok (set_stream s st b sv).
Proof.
  intros [Hm Hb Hl Hs] Hst [Hl1 Hl2] [Hcm Hcb _ _ Hcl]. unfold set_stream. split; simpl.
  - rewrite <- insert_delete_eq, map_sum_insert by apply lookup_delete_eq. unfold held_messages at 1. lia.
  - rewrite <- insert_delete_eq, map_sum_insert by apply lookup_delete_eq. unfold held_bytes at 1. lia.
  - done.
  - by apply map_Forall_insert_2.
Qed.

Lemma server_remove sv s b :
  server_ok sv → same_limits (budget sv) b →
  counted (map_sum held_messages (delete s (streams sv))) (map_sum held_bytes (delete s (streams sv))) ∅ b →
  server_ok (mkServer b (delete s (streams sv))).
Proof.
  intros [Hm Hb Hl Hs] [Hl1 Hl2] [Hcm Hcb _ _ Hcl]. rewrite map_sum_empty in Hcm, Hcb.
  split; simpl; [lia|lia|done|by apply map_Forall_delete].
Qed.

Section steps.
Context `{VecAlloc}.
Context (instant_max reassembly_timeout : Z).

(** What arrives are bytes; decoded sizes are not negative. *)
Definition op_ok (op : server_op) : Prop :=
  match op with
  | SArrive _ bytes => Forall is_byte bytes
  | SCharge _ extra => 0 <= extra
  | _ => True
  end.

Definition server_step (sv sv' : Server) : Prop :=
  ∃ op, op_ok op ∧ server_exec instant_max reassembly_timeout op sv = Some (Some sv').

(** A step that is possible does not panic and keeps the invariant. *)
Definition step_fine (x : option (option Server)) : Prop :=
  ∀ y, x = Some y → ∃ sv', y = Some sv' ∧ server_ok sv'.

Lemma stream_drop_counted m n st b :
  0 <= m → 0 <= n → 0 <= default 0 (dispatching st) →
  counted (m + match dispatching st with Some _ => 1 | None => 0 end) (n + default 0 (dispatching st)) (reassembler st) b →
  ∃ b', stream_drop st b = Some b' ∧ same_limits b b' ∧ counted m n ∅ b'.
Proof.
  intros Hm Hn Hd Hc. unfold stream_drop. apply counted_clear in Hc as (b1 & -> & Hl1 & Hc1). simpl.
  destruct (dispatching st) as [r|]; simpl in *.
  - apply counted_release in Hc1 as (b2 & -> & Hl2 & Hc2); [|done..]. exists b2.
    split; [done|]. split; [|done]. destruct Hl1, Hl2. split; congruence.
  - rewrite !Z.add_0_r in Hc1. by exists b1.
Qed.

Lemma turn_fine s o sv : server_ok sv → step_fine (server_exec instant_max reassembly_timeout (STurn s o) sv).
Proof.
  intros Hok y Hy. simpl in Hy. apply bind_Some in Hy as (st & Hst & Hy).
  destruct (server_stream sv s st Hok Hst) as (Hm & Hn & Hso & Hc).
  destruct (dispatching st) eqn:Hd; [done|]. injection Hy as <-. simpl in Hc. rewrite !Z.add_0_r in Hc.
  destruct (read_turn_counted instant_max reassembly_timeout _ _ o (incoming st) (reassembler st) (budget sv)
    (stream_bytes _ Hso) Hc) as (r & bytes' & rs' & b' & -> & Hbytes & Hl & Hpost). cbn [mbind option_bind].
  destruct r as [[msg|]|e].
  - destruct Hpost as [Hres Hc']. eexists. split; [done|]. apply server_set; try done.
    split; [done|by apply (counted_partials _ _ _ _ Hc')|done].
  - eexists. split; [done|]. apply server_set; try done; [|simpl; by rewrite !Z.add_0_r].
    split; [done|by apply (counted_partials _ _ _ _ Hpost)|done].
  - destruct (stream_drop_counted _ _ (mkStream bytes' rs' None) b' Hm Hn) as (b2 & -> & Hl2 & Hc2);
      [done|simpl; by rewrite !Z.add_0_r|]. simpl. eexists. split; [done|].
    apply server_remove; try done. destruct Hl, Hl2. split; congruence.
Qed.

Lemma server_exec_fine op sv :
  server_ok sv → op_ok op → step_fine (server_exec instant_max reassembly_timeout op sv).
Proof.
  intros Hok Hop. destruct op as [s|s bytes|s o|s extra|s|s]; [| |by apply turn_fine| | |]; intros y Hy; simpl in Hy.
  - destruct (streams sv !! s) eqn:Hs; [done|]. injection Hy as <-. eexists. split; [done|].
    destruct Hok as [Hm Hb Hl Hsts]. unfold set_stream. split; simpl; [| |done|].
    + rewrite map_sum_insert by done. unfold held_messages at 1. simpl. rewrite map_sum_empty. lia.
    + rewrite map_sum_insert by done. unfold held_bytes at 1. simpl. rewrite map_sum_empty. lia.
    + apply map_Forall_insert_2; [|done]. split; simpl; [constructor|apply map_Forall_empty|done].
  - apply bind_Some in Hy as (st & Hst & [= <-]). destruct (server_stream sv s st Hok Hst) as (Hm & Hn & Hso & Hc).
    eexists. split; [done|]. apply server_set; try done. destruct Hso. split; [by apply Forall_app|done|done].
  - apply bind_Some in Hy as (st & Hst & Hy). destruct (server_stream sv s st Hok Hst) as (Hm & Hn & Hso & Hc).
    destruct (dispatching st) as [r|] eqn:Hd; [|done]. injection Hy as <-. simpl in Hc.
    assert (0 <= r) as Hr by (destruct Hso as [_ _ Hdisp]; by rewrite Hd in Hdisp).
    destruct (counted_charge _ _ _ _ extra r Hm Hn Hop Hr Hc) as (res & r' & b' & -> & Hl & Hr' & Hc' & _).
    cbn [mbind option_bind]. destruct res as [[]|e].
    + eexists. split; [done|]. apply server_set; try done. destruct Hso. by split.
    + apply counted_release in Hc' as (b2 & -> & Hl2 & Hc2); [|done..]. simpl. eexists. split; [done|].
      apply server_set; try done; [destruct Hso; by split|destruct Hl, Hl2; split; congruence|simpl; by rewrite !Z.add_0_r].
  - apply bind_Some in Hy as (st & Hst & Hy). destruct (server_stream sv s st Hok Hst) as (Hm & Hn & Hso & Hc).
    destruct (dispatching st) as [r|] eqn:Hd; [|done]. injection Hy as <-. simpl in Hc.
    assert (0 <= r) as Hr by (destruct Hso as [_ _ Hdisp]; by rewrite Hd in Hdisp).
    apply counted_release in Hc as (b2 & -> & Hl2 & Hc2); [|done..]. simpl. eexists. split; [done|].
    apply server_set; try done; [destruct Hso; by split|simpl; by rewrite !Z.add_0_r].
  - apply bind_Some in Hy as (st & Hst & [= <-]). destruct (server_stream sv s st Hok Hst) as (Hm & Hn & Hso & Hc).
    apply stream_drop_counted in Hc as (b2 & -> & Hl2 & Hc2); [|done|done|apply Hso]. simpl. eexists. split; [done|].
    by apply server_remove.
Qed.

Lemma server_start mm mb : 0 <= mm → 0 <= mb <= u64_max → server_ok (mkServer (budget_new mm mb) ∅).
Proof.
  intros Hmm Hmb. split; simpl; [by rewrite map_sum_empty|by rewrite map_sum_empty|lia|apply map_Forall_empty].
Qed.

(** The memory of the buffers of a stream, and of all streams. *)
Definition buffered (st : Stream) : Z := map_sum (fun p => vec_capacity (partial_data p)) (reassembler st).

(** C9. Whatever bytes arrive on whatever streams, in whatever order streams read,
    time out, decode, dispatch and are cancelled: the accounting of the receive budget
    never panics; it counts exactly the messages that are put together or dispatched,
    and at most what the limits allow; the buffers of all streams together occupy no
    more than that; and when the streams are gone nothing is counted. *)
Theorem receive_budget_exact mm mb sv :
  0 <= mm → 0 <= mb <= u64_max → rtc server_step (mkServer (budget_new mm mb) ∅) sv →
  (∀ op, op_ok op → server_exec instant_max reassembly_timeout op sv ≠ Some None) ∧
  used_messages (budget sv) = map_sum held_messages (streams sv) ∧
  used_bytes (budget sv) = map_sum held_bytes (streams sv) ∧
  used_messages (budget sv) <= max_messages (budget sv) ∧ used_bytes (budget sv) <= max_bytes (budget sv) ∧
  map_sum buffered (streams sv) <= max_bytes (budget sv) ∧
  (streams sv = ∅ → used_messages (budget sv) = 0 ∧ used_bytes (budget sv) = 0).
Proof.
  intros Hmm Hmb Hrun.
  assert (server_ok sv) as Hok.
  { eapply (rtc_invariant _ server_ok); [|by apply server_start|exact Hrun].
    intros sv1 sv2 Hok1 (op & Hop & Hexec). destruct (server_exec_fine op sv1 Hok1 Hop _ Hexec) as (sv' & [= ->] & Hok2). done. }
  split.
  { intros op Hop Hpanic. by destruct (server_exec_fine op sv Hok Hop _ Hpanic) as (sv' & [=] & _). }
  destruct Hok as [Hm Hb (Hl1 & Hl2 & Hl3) Hs]. split_and!; try done.
  - rewrite Hb in Hl2. etrans; [|exact Hl2]. apply map_sum_mono. intros s st [_ Hp Hd]%Hs. unfold buffered, held_bytes.
    enough (map_sum (fun p => vec_capacity (partial_data p)) (reassembler st) <= map_sum partial_reservation (reassembler st)) by lia.
    apply map_sum_mono. intros k p Hk. by apply partial_covered, (Hp k).
  - intros Hempty. rewrite Hm, Hb, Hempty, !map_sum_empty. done.
Qed.
End steps.

(** ** A server with one stream *)

Module WireDemo.
#[global] Instance exact_alloc : VecAlloc := vec_alloc_doubling.
Definition oracle : TurnOracle := mkTurnOracle (mkReadOracle true true true) true true 0.
(** The frame of message 3 with the two bytes 7 and 8. *)
Definition frame : list Z := concat (frame_message_chunk 3 2 0 [7; 8]).
Definition opened : Server := set_stream 0 (mkStream [] ∅ None) (budget_new 4 100) (mkServer (budget_new 4 100) ∅).
Definition arrived : Server := set_stream 0 (mkStream frame ∅ None) (budget_new 4 100) opened.
Definition received : Server := set_stream 0 (mkStream [] ∅ (Some 2)) (mkReceiveBudget 4 100 1 2) arrived.

Lemma received_reachable : rtc (server_step 1000 60) (mkServer (budget_new 4 100) ∅) received.
Proof.
  eapply rtc_l; [exists (SOpen 0); split; [done|by vm_compute]|].
  eapply rtc_l; [exists (SArrive 0 frame); split; [by repeat constructor|by vm_compute]|].
  eapply rtc_l; [exists (STurn 0 oracle); split; [done|by vm_compute]|]. apply rtc_refl.
Qed.
End WireDemo.

Lemma receive_budget_exact_witness :
  server_exec 1000 60 (SDispatched 0) WireDemo.received ≠ Some None ∧
  used_bytes (budget WireDemo.received) = map_sum held_bytes (streams WireDemo.received).
Proof.
  destruct (receive_budget_exact 1000 60 4 100 WireDemo.received) as (Hpanic & _ & Hbytes & _).
  - done.
  - unfold u64_max. lia.
  - apply WireDemo.received_reachable.
  - split; [by apply (Hpanic (SDispatched 0))|exact Hbytes].
Defined.
