(* ===== verification/WireRoundtrip.v ===== *)
(** * What arrives is what was sent

    The chunks of a message, the bytes of a chunk, and the reassembly of interleaved
    messages: any message that is delivered was sent in exactly its own chunks, and
    messages whose chunks arrive in time and fit the budget are delivered. *)

From stdpp Require Import list_numbers.
From S2P Require Import Prelude External Message Wire WireServer.

(** ** The chunks of a message *)

(** The body of chunk [i]. *)
Definition body (d : list Z) (i : nat) : list Z := take 1024 (drop (i * 1024) d).
Definition chunk_count (d : list Z) : nat := Nat.max 1 ((length d + 1023) / 1024).

Lemma slice_body d (i : nat) :
  slice (Z.of_nat i * MESSAGE_CHUNK_SIZE) (Z.min (Z.of_nat i * MESSAGE_CHUNK_SIZE + MESSAGE_CHUNK_SIZE) (len d)) d = body d i.
Proof.
  unfold slice, body, len, MESSAGE_CHUNK_SIZE. replace (Z.to_nat (Z.of_nat i * 1024)) with (i * 1024)%nat by lia.
  destruct (decide (length d - i * 1024 <= 1024)%nat) as [Hle|Hgt].
  - rewrite !take_ge; rewrite ?length_drop; [done|lia|lia].
  - f_equal. lia.
Qed.

Lemma message_chunks_body d :
  message_chunks d = (fun i => (Z.of_nat i, body d i)) <$> seq 0 (chunk_count d).
Proof.
  unfold message_chunks, chunk_count. destruct (len d =? 0) eqn:Hd; unfold len in Hd; bool_to_prop.
  - destruct d; [done|simpl in Hd; lia].
  - assert (Z.to_nat (div_ceil (len d) MESSAGE_CHUNK_SIZE) = Nat.max 1 ((length d + 1023) / 1024)) as Hn.
    { unfold div_ceil, len, MESSAGE_CHUNK_SIZE. replace (Z.of_nat (length d) + 1024 - 1) with (Z.of_nat (length d + 1023)) by lia.
      change 1024 with (Z.of_nat 1024). rewrite <- Nat2Z.inj_div, Nat2Z.id.
      assert (1 <= (length d + 1023) / 1024)%nat by (apply Nat.div_le_lower_bound; lia). lia. }
    unfold seqZ. rewrite Hn, <- list_fmap_compose. apply list_fmap_ext. intros i x Hx. simpl.
    rewrite Z.add_0_r, slice_body. done.
Qed.

Lemma chunk_count_bounds d (k : nat) :
  (k < chunk_count d)%nat ↔ k = 0%nat ∨ (k * 1024 < length d)%nat.
Proof.
  unfold chunk_count. pose proof (Nat.div_mod_eq (length d + 1023) 1024).
  pose proof (Nat.mod_upper_bound (length d + 1023) 1024). lia.
Qed.

Lemma body_length d (k : nat) :
  (k < chunk_count d)%nat →
  len (body d k) = Z.min 1024 (len d - Z.of_nat k * 1024).
Proof.
  intros Hk%chunk_count_bounds. unfold len, body. rewrite length_take, length_drop. lia.
Qed.

Lemma take_body d (k : nat) : take (S k * 1024) d = take (k * 1024) d ++ body d k.
Proof. unfold body. by rewrite take_take_drop, Nat.add_comm. Qed.

(** A chunk of a message, and the chunks from one on. *)
Definition chunk_of (id : Z) (d : list Z) (i : nat) : Chunk := mkChunk id (len d) (Z.of_nat i) (body d i).
Definition chunks_from (id : Z) (d : list Z) (k : nat) : list Chunk :=
  chunk_of id d <$> seq k (chunk_count d - k).
Definition chunks_of (id : Z) (d : list Z) : list Chunk := chunks_from id d 0.

Lemma chunks_from_step id d k :
  (k < chunk_count d)%nat → chunks_from id d k = chunk_of id d k :: chunks_from id d (S k).
Proof.
  intros Hk. unfold chunks_from. by replace (chunk_count d - k)%nat with (S (chunk_count d - S k)) by lia.
Qed.

Lemma chunks_from_end id d k : (chunk_count d <= k)%nat → chunks_from id d k = [].
Proof. intros Hk. unfold chunks_from. by replace (chunk_count d - k)%nat with 0%nat by lia. Qed.

(** The header that the chunks of a message carry is accepted. *)
Lemma chunk_of_valid d k :
  (k < chunk_count d)%nat → len d <= MAX_WIRE_MESSAGE_BYTES →
  validate_chunk_header (len d) (Z.of_nat k) (len (body d k)) = Ok tt.
Proof.
  intros Hk Hmax. rewrite body_length by done. apply chunk_count_bounds in Hk.
  unfold validate_chunk_header, validate_wire_message_size, ensure, ok_or.
  rewrite (proj2 (Z.leb_le _ _)) by done. simpl. destruct (len d =? 0) eqn:H0; bool_to_prop.
  - assert (k = 0%nat) as -> by (unfold len in *; lia). by rewrite H0.
  - assert (Z.of_nat k * 1024 < len d) by (unfold len in *; lia).
    rewrite (proj2 (Z.eqb_neq _ _)) by lia. simpl.
    assert (checked_mul u64_max (Z.of_nat k) MESSAGE_CHUNK_SIZE = Some (Z.of_nat k * MESSAGE_CHUNK_SIZE)) as ->.
    { apply checked_mul_Some. split; [done|]. unfold MESSAGE_CHUNK_SIZE, MAX_WIRE_MESSAGE_BYTES, u64_max in *. lia. }
    simpl. unfold MESSAGE_CHUNK_SIZE. rewrite (proj2 (Z.ltb_lt _ _)) by done. simpl. by rewrite Z.eqb_refl.
Qed.

(** ** The bytes of a chunk *)

Definition chunk_bytes (c : Chunk) : list Z :=
  concat (frame_message_chunk (message_id c) (message_size c) (chunk_id c) (data c)).

Definition chunk_fits (c : Chunk) : Prop :=
  in_u64 (message_id c) ∧ 0 <= message_size c <= u32_max ∧ in_u64 (chunk_id c) ∧ len (data c) <= u32_max.

Lemma le_bytes_length n z : 0 <= n → length (le_bytes n z) = Z.to_nat n.
Proof. intros Hn. pose proof (length_Z_to_little_endian n 8 z). unfold le_bytes. lia. Qed.

Lemma of_le_bytes_id n z : 0 <= n → 0 <= z < 2 ^ (n * 8) → of_le_bytes (le_bytes n z) = z.
Proof.
  intros Hn Hz. unfold of_le_bytes, le_bytes. rewrite little_endian_to_Z_to_little_endian by lia. by apply Z.mod_small.
Qed.

(** A read in which nothing goes wrong. *)
Definition in_time : ReadOracle := mkReadOracle true true true.

Lemma read_chunk_bytes c rest :
  chunk_fits c → validate_chunk_header (message_size c) (chunk_id c) (len (data c)) = Ok tt →
  read_next_stream_chunk in_time (chunk_bytes c ++ rest) = Ok (c, rest).
Proof.
  intros (Hid & Hsize & Hcid & Hlen) Hval. unfold in_u64, u64_max, u32_max in *.
  assert (as_u32 (len (data c)) = len (data c)) as Hu32 by (apply Z.mod_small; unfold len in *; lia).
  unfold chunk_bytes, frame_message_chunk. rewrite Hu32. cbn [concat]. rewrite app_nil_r, <- !app_assoc.
  unfold read_next_stream_chunk, read_exact, in_time, MESSAGE_CHUNK_HEADER_SIZE. cbn [ensure header_in_time result_bind].
  set (h1 := le_bytes 8 (message_id c)). set (h2 := le_bytes 4 (message_size c)).
  set (h3 := le_bytes 8 (chunk_id c)). set (h4 := le_bytes 4 (len (data c))).
  assert (length h1 = 8%nat ∧ length h2 = 4%nat ∧ length h3 = 8%nat ∧ length h4 = 4%nat) as (L1 & L2 & L3 & L4)
    by (unfold h1, h2, h3, h4; by rewrite !le_bytes_length).
  rewrite (proj2 (Nat.leb_le _ _)) by (rewrite !length_app; lia). cbn [result_bind].
  replace (h1 ++ h2 ++ h3 ++ h4 ++ data c ++ rest) with ((h1 ++ h2 ++ h3 ++ h4) ++ data c ++ rest) by (by rewrite <- !app_assoc).
  rewrite (take_app_length' _ _ 24), (drop_app_length' _ _ 24) by (rewrite !length_app; lia).
  assert (take 8 (h1 ++ h2 ++ h3 ++ h4) = h1) as -> by (by apply take_app_length').
  assert (take 4 (drop 8 (h1 ++ h2 ++ h3 ++ h4)) = h2) as -> by (by rewrite drop_app_length', take_app_length').
  assert (take 8 (drop 12 (h1 ++ h2 ++ h3 ++ h4)) = h3) as ->.
  { rewrite (app_assoc h1 h2), drop_app_length' by (rewrite length_app; lia). by apply take_app_length'. }
  assert (take 4 (drop 20 (h1 ++ h2 ++ h3 ++ h4)) = h4) as ->.
  { rewrite (app_assoc h2 h3), (app_assoc h1), drop_app_length' by (rewrite !length_app; lia). apply take_ge. lia. }
  subst h1 h2 h3 h4. rewrite !of_le_bytes_id by (unfold len in *; lia).
  rewrite Hval. cbn [result_bind ensure buffer_allocated body_in_time].
  rewrite (proj2 (Nat.leb_le _ _)) by (rewrite length_app; unfold len; lia). cbn [result_bind].
  rewrite (take_app_length' (data c)), (drop_app_length' (data c)) by (unfold len; lia). by destruct c.
Qed.

(** ** Reading a stream to its end *)

Section delivery.
Context `{VecAlloc}.
Context (instant_max reassembly_timeout : Z).

(** One turn after the other, as long as none fails. *)
Fixpoint read_all (os : list TurnOracle) (bytes : list Z) (rs : Reassembler) (b : ReceiveBudget)
    : option (list ReceivedMessage * list Z * Reassembler * ReceiveBudget) :=
  match os with
  | [] => Some ([], bytes, rs, b)
  | o :: os =>
      '(r, bytes, rs, b) ← read_turn instant_max reassembly_timeout o bytes rs b;
      match r with
      | Err _ => None
      | Ok m => '(ms, bytes, rs, b) ← read_all os bytes rs b; Some (option_list m ++ ms, bytes, rs, b)
      end
  end.

(** What the buffer of a message occupies. *)
Definition capacity (d : list Z) : Z := vec_capacity (vec_reserve_exact (len d) (vec_empty (A := Z))).

Lemma capacity_ge d : len d <= capacity d.
Proof. apply reserved_buffer. Qed.

(** The state of a message of which [k] chunks have arrived. *)
Definition partial_of (d : list Z) (k : nat) (p : PartialMessage) : Prop :=
  partial_size p = len d ∧ next_chunk_id p = Z.of_nat k ∧ vec_data (partial_data p) = take (k * 1024) d ∧
  vec_capacity (partial_data p) = capacity d.

(** A budget that has room for the message. *)
Definition has_budget (d : list Z) (b : ReceiveBudget) : Prop :=
  used_messages b + 1 <= max_messages b ∧ used_bytes b + capacity d <= max_bytes b ∧ max_bytes b <= u64_max.

Lemma reserve_capacity d b :
  0 <= used_bytes b → has_budget d b →
  ∃ b1, try_reserve (len d) b = Ok (len d, b1) ∧
    account_buffer_capacity (capacity d) (len d) b1 =
      Some (Ok tt, capacity d, set_used (used_messages b + 1) (used_bytes b + capacity d) b).
Proof.
  intros Hpos (Hm & Hb & Hmax). pose proof (capacity_ge d). assert (0 <= len d) by (unfold len; lia).
  unfold try_reserve, ensure, ok_or. rewrite (proj2 (Z.ltb_lt _ _)) by lia. simpl.
  assert (checked_add u64_max (used_bytes b) (len d) = Some (used_bytes b + len d)) as -> by (apply checked_add_Some; lia).
  simpl. rewrite (proj2 (Z.leb_le _ _)) by lia. simpl. eexists. split; [done|].
  unfold account_buffer_capacity. destruct (len d <? capacity d) eqn:Hlt; bool_to_prop.
  - unfold try_charge_additional, try_grow_reservation, ensure, ok_or. simpl.
    assert (checked_add u64_max (used_bytes b + len d) (capacity d - len d) = Some (used_bytes b + capacity d)) as ->
      by (apply checked_add_Some; lia).
    simpl. rewrite (proj2 (Z.leb_le _ _)) by lia. simpl.
    assert (checked_add u64_max (len d) (capacity d - len d) = Some (capacity d)) as -> by (apply checked_add_Some; lia).
    done.
  - assert (capacity d = len d) as -> by lia. done.
Qed.

Lemma take_all_body d (k : nat) : (chunk_count d <= S k)%nat → take (S k * 1024) d = d.
Proof.
  intros Hk. apply take_ge. destruct (decide (S k * 1024 < length d)%nat); [|lia].
  assert (S k < chunk_count d)%nat by (apply chunk_count_bounds; by right). lia.
Qed.

Lemma take_some_body d (k : nat) : (S k < chunk_count d)%nat → len (take (S k * 1024) d) ≠ len d.
Proof.
  intros [Hk|Hk]%chunk_count_bounds; [done|]. unfold len. rewrite length_take. lia.
Qed.

(** Chunk [k] of a message that may go on. *)
Lemma push_chunk_of now id d (k : nat) rs b :
  (k < chunk_count d)%nat → len d <= MAX_WIRE_MESSAGE_BYTES →
  existsb (expired now) (map_to_list rs).*2 = false → now + reassembly_timeout <= instant_max →
  match k with
  | O => rs !! id = None ∧ 0 <= used_bytes b ∧ has_budget d b
  | S _ => ∃ p, rs !! id = Some p ∧ partial_of d k p
  end →
  let b' := match k with O => set_used (used_messages b + 1) (used_bytes b + capacity d) b | S _ => b end in
  if decide (S k = chunk_count d) then
    ∃ r, push_chunk_at instant_max reassembly_timeout true now (chunk_of id d k) rs b =
      Some (Ok (Some (mkReceived id d r)), delete id rs, b')
  else
    ∃ p, push_chunk_at instant_max reassembly_timeout true now (chunk_of id d k) rs b =
        Some (Ok None, <[id := p]> rs, b') ∧ partial_of d (S k) p ∧
      deadline p = match k with O => now + reassembly_timeout | S _ => default 0 (deadline <$> rs !! id) end.
Proof.
  intros Hk Hmax Hexp Hnow Hst b'. unfold push_chunk_at. rewrite Hexp. simpl.
  rewrite chunk_of_valid by done. destruct (reserved_buffer (len d)) as [_ Hempty].
  assert (len (body d k) <= len d) as Hbody.
  { rewrite body_length by done. unfold len. lia. }
  destruct k as [|k].
  - destruct Hst as (Hid & Hpos & Hb). rewrite Hid. unfold first_chunk. cbn [chunk_of chunk_id message_size message_id data negb].
    change (Z.of_nat 0 =? 0) with true. cbn [negb].
    destruct (reserve_capacity d b Hpos Hb) as (b1 & -> & Hacc).
    set (buffer := vec_reserve_exact (len d) vec_empty) in *. change (vec_capacity buffer) with (capacity d).
    rewrite Hacc. cbn [mbind option_bind].
    destruct (extend_within (body d 0) buffer) as [Hdata Hcap'].
    { unfold vec_len. rewrite Hempty. change (vec_capacity buffer) with (capacity d). pose proof (capacity_ge d). cbn [length]. lia. }
    rewrite Hdata, Hempty. cbn [app]. destruct (decide (1%nat = chunk_count d)) as [H1|H1].
    + assert (body d 0 = d) as -> by (apply (take_all_body d 0); lia). rewrite Z.eqb_refl. eexists. by rewrite delete_id.
    + rewrite (proj2 (Z.eqb_neq _ _)) by (apply (take_some_body d 0); lia).
      assert (checked_add instant_max now reassembly_timeout = Some (now + reassembly_timeout)) as -> by (by apply checked_add_Some).
      eexists. split; [done|]. split; [|done]. split_and!; simpl; try done.
  - destruct Hst as (p & Hp & Hsize & Hnext & Hpd & Hpc). rewrite Hp. unfold later_chunk.
    cbn [chunk_of chunk_id message_size message_id data]. rewrite Hsize, Hnext, !Z.eqb_refl. cbn [negb].
    assert (len (take (S k * 1024) d ++ body d (S k)) <= len d) as Hle.
    { rewrite <- take_body. unfold len. rewrite length_take. lia. }
    destruct (extend_within (body d (S k)) (partial_data p)) as [Hdata Hcap'].
    { unfold vec_len. rewrite Hpd, Hpc. pose proof (capacity_ge d). unfold len in *. rewrite length_app in Hle. lia. }
    rewrite Hdata, Hpd, <- take_body. destruct (decide (S (S k) = chunk_count d)) as [H1|H1].
    + rewrite take_all_body by lia. rewrite Z.eqb_refl. by eexists.
    + rewrite (proj2 (Z.eqb_neq _ _)) by (apply take_some_body; lia). eexists. split; [done|]. split.
      * split_and!; cbn [partial_size next_chunk_id partial_data]; [done|lia|by rewrite Hdata, Hpd, <- take_body|by rewrite Hcap'].
      * simpl. done.
Qed.

(** A turn in which nothing goes wrong, between [t0] and the first deadline. *)
Definition on_time (t0 : Z) (o : TurnOracle) : Prop :=
  reading o = in_time ∧ before_deadline o = true ∧ allocated o = true ∧
  t0 <= now o < t0 + reassembly_timeout ∧ now o + reassembly_timeout <= instant_max.

(** What a message that has not begun will take of the budget. *)
Definition wants_message (x : list Z * nat) : Z := match x.2 with O => 1 | S _ => 0 end.
Definition wants_bytes (x : list Z * nat) : Z := match x.2 with O => capacity x.1 | S _ => 0 end.

(** The messages that are not complete, with the number of chunks that have arrived;
    the chunks that are still to come; the reassembler and the budget. *)
Record delivering (t0 : Z) (G : gmap Z (list Z * nat)) (cs : list Chunk) (rs : Reassembler) (b : ReceiveBudget) : Prop := {
  d_chunks id : filter (fun c => message_id c = id) cs =
    match G !! id with Some (d, k) => chunks_from id d k | None => [] end;
  d_entries id d k : G !! id = Some (d, k) → (k < chunk_count d)%nat ∧ len d <= MAX_WIRE_MESSAGE_BYTES ∧ in_u64 id;
  d_partial id : match G !! id with Some (d, S k) => ∃ p, rs !! id = Some p ∧ partial_of d (S k) p | _ => rs !! id = None end;
  d_deadline : map_Forall (fun _ p => t0 + reassembly_timeout <= deadline p) rs;
  d_bytes : 0 <= used_bytes b;
  d_messages_room : used_messages b + map_sum wants_message G <= max_messages b;
  d_bytes_room : used_bytes b + map_sum wants_bytes G <= max_bytes b;
  d_bytes_max : max_bytes b <= u64_max;
}.

Lemma wants_nonneg x : 0 <= wants_message x ∧ 0 <= wants_bytes x.
Proof.
  unfold wants_message, wants_bytes. pose proof (capacity_ge x.1). unfold len in *. destruct x.2; lia.
Qed.

Lemma not_expired t0 now (rs : Reassembler) :
  map_Forall (fun _ p => t0 + reassembly_timeout <= deadline p) rs → now < t0 + reassembly_timeout →
  existsb (expired now) (map_to_list rs).*2 = false.
Proof.
  intros Hdl Hnow. apply not_true_is_false. intros (p & Hp & Hexp)%existsb_exists.
  apply list_elem_of_In, list_elem_of_fmap in Hp as ([id p'] & -> & Hp%elem_of_map_to_list).
  pose proof (Hdl _ _ Hp) as Hd. unfold expired in Hexp. simpl in *. bool_to_prop. lia.
Qed.

(** The chunk that comes next belongs to a message that is under way. *)
Lemma delivering_next t0 G c cs rs b :
  delivering t0 G (c :: cs) rs b →
  ∃ id d k, G !! id = Some (d, k) ∧ (k < chunk_count d)%nat ∧ c = chunk_of id d k ∧
    filter (fun c => message_id c = id) cs = chunks_from id d (S k).
Proof.
  intros Hd. pose proof (d_chunks _ _ _ _ _ Hd (message_id c)) as Hcs. rewrite filter_cons_True in Hcs by done.
  destruct (G !! message_id c) as [[d k]|] eqn:HG; [|done].
  destruct (d_entries _ _ _ _ _ Hd _ _ _ HG) as (Hk & _). rewrite chunks_from_step in Hcs by done.
  injection Hcs as Hc Hcs. exists (message_id c), d, k. by rewrite <- Hc.
Qed.

Lemma chunk_of_fits id d k :
  (k < chunk_count d)%nat → len d <= MAX_WIRE_MESSAGE_BYTES → in_u64 id → chunk_fits (chunk_of id d k).
Proof.
  intros Hk Hmax Hid. assert (len (body d k) <= 1024) by (rewrite body_length by done; lia).
  assert (0 <= len d ∧ Z.of_nat k <= len d) as [? ?] by (apply chunk_count_bounds in Hk; unfold len; lia).
  unfold chunk_fits, in_u64, u64_max, u32_max, MAX_WIRE_MESSAGE_BYTES in *.
  cbn [chunk_of message_id message_size chunk_id data]. lia.
Qed.

(** The rest of the chunks of other messages. *)
Lemma filter_other id d k cs id' :
  id' ≠ id → filter (fun c => message_id c = id') (chunk_of id d k :: cs) = filter (fun c => message_id c = id') cs.
Proof. intros Hne. by apply filter_cons_False. Qed.

Lemma delivering_done t0 G id d k cs rs b b' :
  delivering t0 G (chunk_of id d k :: cs) rs b → G !! id = Some (d, k) → S k = chunk_count d →
  b' = match k with O => set_used (used_messages b + 1) (used_bytes b + capacity d) b | S _ => b end →
  filter (fun c => message_id c = id) cs = chunks_from id d (S k) →
  delivering t0 (delete id G) cs (delete id rs) b'.
Proof.
  intros [Hcs He Hp Hdl Hb Hrm Hrb Hmax] HG Hk -> Hrest. split.
  - intros id'. destruct (decide (id' = id)) as [->|Hne].
    + rewrite lookup_delete_eq, Hrest. apply chunks_from_end. lia.
    + rewrite lookup_delete_ne by done. by rewrite <- Hcs, filter_other.
  - intros id' d' k'. rewrite lookup_delete_Some. intros [_ HG']. by eapply He.
  - intros id'. destruct (decide (id' = id)) as [->|Hne]; [by rewrite !lookup_delete_eq|].
    rewrite !lookup_delete_ne by done. apply Hp.
  - by apply map_Forall_delete.
  - pose proof (capacity_ge d). unfold len in *. destruct k; simpl; lia.
  - rewrite (map_sum_delete _ _ _ _ HG). unfold wants_message at 2. destruct k; simpl; lia.
  - rewrite (map_sum_delete _ _ _ _ HG). unfold wants_bytes at 2. destruct k; simpl; lia.
  - by destruct k.
Qed.

Lemma delivering_more t0 G id d k cs rs b b' p :
  delivering t0 G (chunk_of id d k :: cs) rs b → G !! id = Some (d, k) → (S k < chunk_count d)%nat →
  b' = match k with O => set_used (used_messages b + 1) (used_bytes b + capacity d) b | S _ => b end →
  filter (fun c => message_id c = id) cs = chunks_from id d (S k) →
  partial_of d (S k) p → t0 + reassembly_timeout <= deadline p →
  delivering t0 (<[id := (d, S k)]> G) cs (<[id := p]> rs) b'.
Proof.
  intros [Hcs He Hp Hdl Hb Hrm Hrb Hmax] HG Hk -> Hrest Hpo Hpd. split.
  - intros id'. destruct (decide (id' = id)) as [->|Hne]; [by rewrite lookup_insert_eq|].
    rewrite lookup_insert_ne by done. by rewrite <- Hcs, filter_other.
  - intros id' d' k'. rewrite lookup_insert_Some. intros [[<- [= <- <-]]|[_ HG']]; [|by eapply He].
    destruct (He _ _ _ HG) as (_ & ? & ?). done.
  - intros id'. destruct (decide (id' = id)) as [->|Hne]; [rewrite !lookup_insert_eq; by exists p|].
    rewrite !lookup_insert_ne by done. apply Hp.
  - by apply map_Forall_insert_2.
  - pose proof (capacity_ge d). unfold len in *. destruct k; simpl; lia.
  - rewrite (map_sum_replace _ _ _ _ _ HG). unfold wants_message at 2 3. destruct k; simpl; lia.
  - rewrite (map_sum_replace _ _ _ _ _ HG). unfold wants_bytes at 2 3. destruct k; simpl; lia.
  - by destruct k.
Qed.

Definition id_and_data (m : ReceivedMessage) : Z * list Z := (received_id m, received_data m).
Definition unfinished (G : gmap Z (list Z * nat)) : list (Z * list Z) := (fun x => (x.1, x.2.1)) <$> map_to_list G.

(** The turn that takes the next chunk. *)
Lemma read_turn_chunk t0 o c rest rs b :
  on_time t0 o → chunk_fits c → validate_chunk_header (message_size c) (chunk_id c) (len (data c)) = Ok tt →
  read_turn instant_max reassembly_timeout o (chunk_bytes c ++ rest) rs b =
    ('(r, rs, b) ← push_chunk_at instant_max reassembly_timeout true (now o) c rs b; Some (r, rest, rs, b)).
Proof.
  intros (Hrd & Hbd & Hal & _) Hfit Hval. unfold read_turn. rewrite Hrd, Hbd, Hal, read_chunk_bytes by done.
  by destruct (earliest_deadline rs).
Qed.

Lemma unfinished_delete G id d k :
  G !! id = Some (d, k) → unfinished G ≡ₚ (id, d) :: unfinished (delete id G).
Proof.
  intros HG. unfold unfinished. rewrite <- (insert_delete_id G id (d, k)) at 1 by done.
  by rewrite map_to_list_insert by apply lookup_delete_eq.
Qed.

Lemma unfinished_insert G id d k k' :
  G !! id = Some (d, k) → unfinished (<[id := (d, k')]> G) ≡ₚ unfinished G.
Proof.
  intros HG. rewrite (unfinished_delete G id d k) by done. unfold unfinished.
  rewrite <- insert_delete_eq, map_to_list_insert by apply lookup_delete_eq. done.
Qed.

Lemma read_all_delivers t0 cs : ∀ os G rs b rest,
  Forall (on_time t0) os → length os = length cs → delivering t0 G cs rs b →
  ∃ ms b', read_all os (concat (chunk_bytes <$> cs) ++ rest) rs b = Some (ms, rest, ∅, b') ∧
    id_and_data <$> ms ≡ₚ unfinished G.
Proof.
  induction cs as [|c cs IH]; intros os G rs b rest Hos Hlen Hd.
  - destruct os; [|done]. assert (G = ∅) as ->.
    { apply map_empty. intros id. destruct (G !! id) as [[d k]|] eqn:HG; [|done].
      pose proof (d_chunks _ _ _ _ _ Hd id) as Hcs. rewrite HG in Hcs.
      destruct (d_entries _ _ _ _ _ Hd _ _ _ HG) as (Hk & _). by rewrite chunks_from_step in Hcs. }
    assert (rs = ∅) as ->.
    { apply map_empty. intros id. by pose proof (d_partial _ _ _ _ _ Hd id) as Hp; rewrite lookup_empty in Hp. }
    exists [], b. done.
  - destruct os as [|o os]; [done|]. apply Forall_cons_iff in Hos as [Ho Hos]. injection Hlen as Hlen.
    destruct (delivering_next _ _ _ _ _ _ Hd) as (id & d & k & HG & Hk & -> & Hrest).
    destruct (d_entries _ _ _ _ _ Hd _ _ _ HG) as (_ & Hmax & Hid).
    cbn [fmap list_fmap concat read_all]. rewrite <- app_assoc.
    rewrite (read_turn_chunk t0); [|done|by apply chunk_of_fits|by apply chunk_of_valid].
    pose proof Ho as (_ & _ & _ & [Hn0 Hn1] & Hnow). pose proof (d_partial _ _ _ _ _ Hd id) as Hp. rewrite HG in Hp.
    assert (match k with
      | O => rs !! id = None ∧ 0 <= used_bytes b ∧ has_budget d b
      | S _ => ∃ p, rs !! id = Some p ∧ partial_of d k p
      end) as Hpre.
    { destruct k as [|k]; [|done]. split; [done|]. split; [by apply (d_bytes _ _ _ _ _ Hd)|].
      pose proof (map_sum_lookup_le wants_message G id _ (fun x => proj1 (wants_nonneg x)) HG).
      pose proof (map_sum_lookup_le wants_bytes G id _ (fun x => proj2 (wants_nonneg x)) HG).
      destruct Hd. unfold has_budget, wants_message, wants_bytes in *. simpl in *. lia. }
    pose proof (push_chunk_of (now o) id d k rs b Hk Hmax (not_expired t0 (now o) rs (d_deadline _ _ _ _ _ Hd) Hn1) Hnow Hpre) as Hpush.
    simpl in Hpush. destruct (decide (S k = chunk_count d)) as [Hlast|Hlast].
    + destruct Hpush as (r & ->). cbn [mbind option_bind].
      destruct (IH os (delete id G) (delete id rs) (match k with O => set_used (used_messages b + 1) (used_bytes b + capacity d) b | S _ => b end) rest)
        as (ms & b' & -> & Hms); [done..|by eapply delivering_done|].
      cbn [mbind option_bind]. eexists _, b'. split; [done|]. simpl. by rewrite Hms, (unfinished_delete G id d k HG).
    + destruct Hpush as (p & -> & Hpo & Hpd). cbn [mbind option_bind].
      destruct (IH os (<[id := (d, S k)]> G) (<[id := p]> rs) (match k with O => set_used (used_messages b + 1) (used_bytes b + capacity d) b | S _ => b end) rest)
        as (ms & b' & -> & Hms); [done..| |].
      { eapply delivering_more; try done; [lia|]. rewrite Hpd. destruct k as [|k]; [lia|].
        destruct Hp as (p' & Hp' & _). rewrite Hp'. simpl. by apply (d_deadline _ _ _ _ _ Hd id). }
      cbn [mbind option_bind]. eexists _, b'. split; [done|]. simpl. by rewrite Hms, (unfinished_insert G id d k (S k) HG).
Qed.

(** What [write_message] hands to the stream is the chunks of the message. *)
Lemma write_message_chunks id d :
  len d <= MAX_WIRE_MESSAGE_BYTES →
  ∃ frames, write_message id d = Ok frames ∧ concat frames = concat (chunk_bytes <$> chunks_of id d).
Proof.
  intros Hmax. unfold write_message, validate_wire_message_size, ensure. rewrite (proj2 (Z.leb_le _ _)) by done. simpl.
  eexists. split; [done|]. rewrite message_chunks_body. unfold chunks_of, chunks_from. rewrite Nat.sub_0_r.
  assert (as_u32 (len d) = len d) as ->.
  { apply Z.mod_small. unfold MAX_WIRE_MESSAGE_BYTES in Hmax. unfold len in *. lia. }
  induction (seq 0 (chunk_count d)) as [|i l IH]; [done|].
  cbn [fmap list_fmap mbind list_bind]. rewrite concat_app, IH. done.
Qed.

(** C8. Messages of any sizes up to the limit, cut into chunks and framed as they are
    sent, with the frames of different messages interleaved in any way, are all
    received with exactly their bytes, each once, when the chunks arrive in time and
    the budget has room; nothing of them is left behind. *)
Theorem wire_roundtrip (ms : gmap Z (list Z)) (cs : list Chunk) (os : list TurnOracle) (t0 : Z) (b : ReceiveBudget) rest :
  map_Forall (fun id d => in_u64 id ∧ len d <= MAX_WIRE_MESSAGE_BYTES) ms →
  (∀ id, filter (fun c => message_id c = id) cs = match ms !! id with Some d => chunks_of id d | None => [] end) →
  Forall (on_time t0) os → length os = length cs →
  0 <= used_bytes b → used_messages b + Z.of_nat (size ms) <= max_messages b →
  used_bytes b + map_sum capacity ms <= max_bytes b → max_bytes b <= u64_max →
  (∀ id d, ms !! id = Some d → ∃ frames, write_message id d = Ok frames ∧
     concat frames = concat (chunk_bytes <$> chunks_of id d)) ∧
  ∃ received b', read_all os (concat (chunk_bytes <$> cs) ++ rest) ∅ b = Some (received, rest, ∅, b') ∧
    id_and_data <$> received ≡ₚ map_to_list ms.
Proof.
  intros Hms Hcs Hos Hlen Hb Hm Hbytes Hmax. split; [intros id d [_ Hd]%Hms; by apply write_message_chunks|].
  destruct (read_all_delivers t0 cs os ((fun d => (d, 0%nat)) <$> ms) ∅ b rest) as (received & b' & Hrd & Hperm); try done.
  - split; try done.
    + intros id. rewrite Hcs, lookup_fmap. by destruct (ms !! id).
    + intros id d k. rewrite lookup_fmap. intros (d' & Hd & [= -> ->])%fmap_Some. destruct (Hms _ _ Hd).
      split; [|done]. apply chunk_count_bounds. by left.
    + intros id. rewrite lookup_fmap. by destruct (ms !! id).
    + rewrite map_sum_fmap. etrans; [|exact Hm]. by rewrite <- map_sum_one.
    + by rewrite map_sum_fmap.
  - exists received, b'. split; [done|]. rewrite Hperm. unfold unfinished.
    rewrite map_to_list_fmap, <- list_fmap_compose. apply reflexive_eq, list_eq. intros i.
    rewrite list_lookup_fmap. by destruct (map_to_list ms !! i) as [[]|].
Qed.

(** ** Whatever is received was sent *)

(** One push after the other, as long as none fails. *)
Fixpoint push_all (ps : list (bool * Z * Chunk)) (rs : Reassembler) (b : ReceiveBudget)
    : option (list ReceivedMessage * Reassembler * ReceiveBudget) :=
  match ps with
  | [] => Some ([], rs, b)
  | (alloc, now, c) :: ps =>
      '(r, rs, b) ← push_chunk_at instant_max reassembly_timeout alloc now c rs b;
      match r with
      | Err _ => None
      | Ok m => '(ms, rs, b) ← push_all ps rs b; Some (option_list m ++ ms, rs, b)
      end
  end.

Definition of_message (id : Z) (hist : list Chunk) : list Chunk := filter (fun c => message_id c = id) hist.

(** The latest chunks of a message under way are its first ones. *)
Definition under_way (hist : list Chunk) (id : Z) (p : PartialMessage) : Prop :=
  ∃ pre (n : nat), next_chunk_id p = Z.of_nat n ∧ len (vec_data (partial_data p)) = Z.of_nat n * 1024 ∧
    of_message id hist =
      pre ++ ((fun i => mkChunk id (partial_size p) (Z.of_nat i) (body (vec_data (partial_data p)) i)) <$> seq 0 n).

(** The latest chunks with the number of a received message are its own, all of them. *)
Definition genuine (hist : list Chunk) (m : ReceivedMessage) : Prop :=
  len (received_data m) <= MAX_WIRE_MESSAGE_BYTES ∧
  ∃ pre, of_message (received_id m) hist = pre ++ chunks_of (received_id m) (received_data m).

Lemma body_app_l d x (i : nat) : (S i * 1024 <= length d)%nat → body (d ++ x) i = body d i.
Proof.
  intros Hi. unfold body. rewrite drop_app_le by lia. rewrite take_app_le; [done|]. rewrite length_drop. lia.
Qed.

Lemma body_app_r d x (n : nat) : length d = (n * 1024)%nat → (length x <= 1024)%nat → body (d ++ x) n = x.
Proof. intros Hd Hx. unfold body. rewrite drop_app_length' by done. by apply take_ge. Qed.

(** The chunks so far and one more. *)
Lemma bodies_snoc id size d x (n : nat) :
  length d = (n * 1024)%nat → (length x <= 1024)%nat →
  ((fun i => mkChunk id size (Z.of_nat i) (body d i)) <$> seq 0 n) ++ [mkChunk id size (Z.of_nat n) x] =
  (fun i => mkChunk id size (Z.of_nat i) (body (d ++ x) i)) <$> seq 0 (S n).
Proof.
  intros Hd Hx. rewrite seq_S, fmap_app. simpl. f_equal; [|by rewrite body_app_r].
  apply list_fmap_ext. intros i y [-> Hi]%lookup_seq. by rewrite body_app_l by lia.
Qed.

Lemma count_done d (n : nat) :
  (n * 1024 < length d)%nat ∨ n = 0%nat → (length d <= S n * 1024)%nat → S n = chunk_count d.
Proof.
  intros Hlo Hhi. assert (n < chunk_count d)%nat by (apply chunk_count_bounds; lia).
  assert (¬ S n < chunk_count d)%nat by (rewrite chunk_count_bounds; lia). lia.
Qed.

Lemma of_message_snoc_same c hist : of_message (message_id c) (hist ++ [c]) = of_message (message_id c) hist ++ [c].
Proof. unfold of_message. by rewrite filter_app, filter_cons_True. Qed.

Lemma under_way_other hist id p c : message_id c ≠ id → under_way hist id p → under_way (hist ++ [c]) id p.
Proof.
  intros Hne (pre & n & Hn & Hlen & Hof). exists pre, n. split; [done|]. split; [done|].
  unfold of_message in *. by rewrite filter_app, filter_cons_False, filter_nil, app_nil_r.
Qed.

(** A chunk that continues a message, or begins it ([n] is zero). *)
Lemma chunk_continues hist c d (n : nat) pre :
  0 <= message_size c → validate_chunk_header (message_size c) (chunk_id c) (len (data c)) = Ok tt →
  chunk_id c = Z.of_nat n → len d = Z.of_nat n * 1024 →
  of_message (message_id c) hist = pre ++ ((fun i => mkChunk (message_id c) (message_size c) (Z.of_nat i) (body d i)) <$> seq 0 n) →
  of_message (message_id c) (hist ++ [c]) =
    pre ++ ((fun i => mkChunk (message_id c) (message_size c) (Z.of_nat i) (body (d ++ data c) i)) <$> seq 0 (S n)) ∧
  (len (d ++ data c) = message_size c → S n = chunk_count (d ++ data c)) ∧
  (len (d ++ data c) ≠ message_size c → len (d ++ data c) = Z.of_nat (S n) * 1024).
Proof.
  intros Hsize Hval Hn Hlen Hof. apply valid_chunk in Hval as [Hmax Hgeo]; [|done]. unfold MESSAGE_CHUNK_SIZE in Hgeo.
  unfold len in *. rewrite !length_app. split; [|split].
  - rewrite of_message_snoc_same, Hof, <- app_assoc. f_equal. rewrite <- bodies_snoc by lia. f_equal.
    rewrite <- Hn. by destruct c.
  - intros Hfin. apply count_done; rewrite length_app; lia.
  - lia.
Qed.

Lemma push_genuine hist alloc now c rs b r rs' b' :
  0 <= message_size c → (∀ id p, rs !! id = Some p → under_way hist id p) →
  push_chunk_at instant_max reassembly_timeout alloc now c rs b = Some (Ok r, rs', b') →
  (∀ id p, rs' !! id = Some p → under_way (hist ++ [c]) id p) ∧
  (∀ m, r = Some m → genuine (hist ++ [c]) m).
Proof.
  intros Hsize Hrs. unfold push_chunk_at. destruct (existsb _ _); [by intros (? & _ & [=])%bind_Some|].
  destruct (validate_chunk_header _ _ _) as [[]|e] eqn:Hval;
    [|destruct (rs !! message_id c); [by intros (? & _ & [=])%bind_Some|done]].
  assert (∀ id p, id ≠ message_id c → rs !! id = Some p → under_way (hist ++ [c]) id p) as Hother.
  { intros id p Hne Hp. apply under_way_other; [done|]. by apply Hrs. }
  pose proof Hval as [Hmax _]%valid_chunk; [|done].
  destruct (rs !! message_id c) as [p|] eqn:Hid.
  - unfold later_chunk. destruct (partial_size p =? message_size c) eqn:Hps; [|by intros (? & _ & [=])%bind_Some].
    destruct (next_chunk_id p =? chunk_id c) eqn:Hnx; [|by intros (? & _ & [=])%bind_Some]. cbn [negb]. bool_to_prop.
    destruct (Hrs _ _ Hid) as (pre & n & Hn & Hlen & Hof). rewrite Hps in Hof.
    destruct (chunk_continues hist c (vec_data (partial_data p)) n pre Hsize Hval) as (Hof' & Hfin & Hmore); [lia|done|done|].
    change (vec_data (vec_extend (data c) (partial_data p))) with (vec_data (partial_data p) ++ data c).
    destruct (len _ =? partial_size p) eqn:Hl; bool_to_prop; intros [= <- <- <-].
    + split; [intros id q [Hne Hq]%lookup_delete_Some; by apply Hother|]. intros m [= <-]. rewrite Hps in Hl. split; [simpl; lia|].
      exists pre. simpl. rewrite Hof'. unfold chunks_of, chunks_from, chunk_of. by rewrite Nat.sub_0_r, <- Hfin, Hl.
    + split; [|done]. intros id q [[<- <-]|[Hne Hq]]%lookup_insert_Some; [|by apply Hother].
      rewrite Hps in Hl. exists pre, (S n). cbn [next_chunk_id partial_data partial_size].
      change (vec_data (vec_extend (data c) (partial_data p))) with (vec_data (partial_data p) ++ data c).
      rewrite Hps. split; [lia|]. split; [by apply Hmore|done].
  - unfold first_chunk. destruct (chunk_id c =? 0) eqn:H0; [|done]. cbn [negb]. bool_to_prop.
    destruct (try_reserve _ _) as [[reservation b1]|]; [|done]. destruct alloc; [|by intros (? & _ & [=])%bind_Some]. cbn [negb].
    intros ([[r1 reservation'] b2] & _ & Hrest)%bind_Some. destruct r1 as [[]|e]; [|by apply bind_Some in Hrest as (? & _ & [=])].
    destruct (chunk_continues hist c [] 0 (of_message (message_id c) hist) Hsize Hval) as (Hof' & Hfin & Hmore); [done|done|by rewrite app_nil_r|].
    change (vec_data (vec_extend (data c) (vec_reserve_exact (message_size c) vec_empty))) with (data c) in Hrest.
    change ([] ++ data c) with (data c) in *.
    destruct (len (data c) =? message_size c) eqn:Hl; bool_to_prop.
    + injection Hrest as <- <- <-. split; [intros id q Hq; apply Hother; [congruence|done]|].
      intros m [= <-]. split; [simpl; lia|]. exists (of_message (message_id c) hist). cbn [received_id received_data].
      rewrite Hof'. unfold chunks_of, chunks_from, chunk_of. by rewrite Nat.sub_0_r, <- Hfin, Hl.
    + destruct (checked_add _ _ _) as [dl|]; [|by apply bind_Some in Hrest as (? & _ & [=])]. injection Hrest as <- <- <-.
      split; [|done]. intros id q [[<- <-]|[Hne Hq]]%lookup_insert_Some; [|by apply Hother].
      exists (of_message (message_id c) hist), 1%nat. cbn [next_chunk_id partial_data partial_size].
      change (vec_data (vec_extend (data c) (vec_reserve_exact (message_size c) vec_empty))) with (data c).
      split; [done|]. split; [by apply Hmore|done].
Qed.

(** Whatever chunks a peer sends, valid or not, in whatever order and with whatever
    numbers: a message that is received is no longer than the limit, and when it is
    received the last chunks that bore its number are exactly the chunks of its data,
    first to last, with nothing missing, repeated, resized or mixed in. *)
Theorem received_message_genuine ps b received rs b' :
  Forall (fun x => 0 <= message_size x.2) ps → push_all ps ∅ b = Some (received, rs, b') →
  ∀ m, m ∈ received → ∃ k, genuine (take k ps.*2) m.
Proof.
  intros Hps Hrun. cut (∀ m, m ∈ received → ∃ k, genuine ([] ++ take k ps.*2) m); [done|].
  assert (∀ id p, (∅ : Reassembler) !! id = Some p → under_way [] id p) as Hrs by done.
  revert Hrun Hrs. generalize (@nil Chunk) as hist. generalize (∅ : Reassembler) as rs0. revert b received rs b'.
  induction Hps as [|[[alloc now] c] ps Hc _ IH]; intros b received rs b' rs0 hist Hrun Hrs m Hm; simpl in Hrun.
  - simplify_eq. by apply not_elem_of_nil in Hm.
  - apply bind_Some in Hrun as ([[r rs1] b1] & Hpush & Hrun). destruct r as [r|]; [|done].
    apply bind_Some in Hrun as ([[ms rs2] b2] & Hrun & [= <- <- <-]).
    destruct (push_genuine _ _ _ _ _ _ _ _ _ Hc Hrs Hpush) as [Hrs1 Hgen].
    apply elem_of_app in Hm as [Hm|Hm].
    + destruct r as [m'|]; [|by apply not_elem_of_nil in Hm]. apply list_elem_of_singleton in Hm as ->.
      exists 1%nat. simpl. rewrite take_0. by apply Hgen.
    + destruct (IH _ _ _ _ _ _ Hrun Hrs1 m Hm) as [k Hk]. exists (S k). simpl. by rewrite <- app_assoc in Hk.
Qed.
End delivery.

Lemma wire_roundtrip_witness :
  ∃ received b', read_all 1000 60 [WireDemo.oracle] (concat (chunk_bytes <$> chunks_of 3 [7; 8]) ++ []) ∅ (budget_new 4 100) =
      Some (received, [], ∅, b') ∧ id_and_data <$> received ≡ₚ map_to_list {[3 := [7; 8]]}.
Proof.
  apply (wire_roundtrip 1000 60 {[3 := [7; 8]]} (chunks_of 3 [7; 8]) [WireDemo.oracle] 0 (budget_new 4 100) []).
  - apply map_Forall_singleton. unfold in_u64, u64_max. vm_compute. split; [split|]; intros; discriminate.
  - intros id. destruct (decide (id = 3)) as [->|Hne]; [by vm_compute|].
    rewrite lookup_singleton_ne by done. apply filter_keeps_none. repeat constructor. simpl. congruence.
  - repeat constructor; simpl; lia.
  - done.
  - done.
  - by vm_compute.
  - by vm_compute.
  - unfold u64_max. simpl. lia.
Defined.

Lemma received_message_genuine_witness :
  ∃ k, genuine (take k ((fun c => (true, 0, c)) <$> chunks_of 3 [7; 8]).*2) (mkReceived 3 [7; 8] 2).
Proof.
  apply (received_message_genuine 1000 60 ((fun c => (true, 0, c)) <$> chunks_of 3 [7; 8]) (budget_new 4 100)
    [mkReceived 3 [7; 8] 2] ∅ (mkReceiveBudget 4 100 1 2)).
  - by repeat constructor.
  - by vm_compute.
  - left.
Defined.
