(* ===== verification/MessagePack.v ===== *)
(** * The check of MessagePack before it is decoded:
      [preflight_messagepack_decode] of
      [crates/lunatic-distributed/src/quic/quin.rs]

    A received message is walked once, without recursion and without allocating, to
    see that it is one well-formed value that is not nested too deeply, and to bound
    what decoding it can allocate. *)

From S2P Require Import Prelude External Message Wire WireServer.

Definition MAX_MESSAGEPACK_NESTING : Z := 64.
Definition DECODED_SEQUENCE_SLOT_BYTES : Z := 32.
Definition DECODED_MAP_ENTRY_BYTES : Z := 64.
Definition DECODED_CONTAINER_OVERHEAD_BYTES : Z := 24.

Inductive PackError : Type :=
| Truncated
| LengthOverflow
| BeyondMessage
| EstimateOverflow
| EstimateTooLarge (estimate : Z)
| NestedTooDeeply
| ReservedMarker
| TrailingBytes.

(** ** The cursor *)

Record Cursor : Type := mkCursor {
  cursor_bytes : list Z;
  cursor_offset : Z;
}.

Definition cursor_new (bytes : list Z) : Cursor := mkCursor bytes 0.

Definition read_u8 (c : Cursor) : result (Z * Cursor) PackError :=
  let? byte := ok_or (cursor_bytes c !! Z.to_nat (cursor_offset c)) Truncated in
  Ok (byte, mkCursor (cursor_bytes c) (cursor_offset c + 1)).

Definition cursor_take (length_ : Z) (c : Cursor) : result (list Z * Cursor) PackError :=
  let? end_ := ok_or (checked_add u64_max (cursor_offset c) length_) LengthOverflow in
  let? _ := ensure (end_ <=? len (cursor_bytes c)) BeyondMessage in
  Ok (slice (cursor_offset c) end_ (cursor_bytes c), mkCursor (cursor_bytes c) end_).

(** [from_be_bytes] *)
Definition of_be_bytes (bs : list Z) : Z := foldl (fun acc b => acc * 256 + b) 0 bs.

Definition read_be (n : Z) (c : Cursor) : result (Z * Cursor) PackError :=
  let? taken := cursor_take n c in
  Ok (of_be_bytes taken.1, taken.2).
Definition read_u16 : Cursor → result (Z * Cursor) PackError := read_be 2.
Definition read_u32 : Cursor → result (Z * Cursor) PackError := read_be 4.

Definition is_finished (c : Cursor) : bool := cursor_offset c =? len (cursor_bytes c).

(** ** The walk *)

(** The cursor, the values still to come at each open level, innermost first
    ([remaining_values\[..depth\]], whose length is [depth]), the estimate. *)
Record Walk : Type := mkWalk {
  cursor : Cursor;
  remaining_values : list Z;
  estimate : Z;
}.

Definition with_cursor (c : Cursor) (w : Walk) : Walk := mkWalk c (remaining_values w) (estimate w).

Definition add_decoded_heap_estimate (additional : Z) (w : Walk) : result Walk PackError :=
  let? estimate := ok_or (checked_add u64_max (estimate w) additional) EstimateOverflow in
  let? _ := ensure (estimate <=? MAX_IN_FLIGHT_MESSAGE_BYTES) (EstimateTooLarge estimate) in
  Ok (mkWalk (cursor w) (remaining_values w) estimate).

Definition push_messagepack_values (values : Z) (w : Walk) : result Walk PackError :=
  if values =? 0 then Ok w
  else if len (remaining_values w) =? MAX_MESSAGEPACK_NESTING then Err NestedTooDeeply
  else Ok (mkWalk (cursor w) (values :: remaining_values w) (estimate w)).

Definition account_messagepack_sequence (count : Z) (w : Walk) : result Walk PackError :=
  let? slots := ok_or (checked_mul u64_max count DECODED_SEQUENCE_SLOT_BYTES) EstimateOverflow in
  let? w := add_decoded_heap_estimate DECODED_CONTAINER_OVERHEAD_BYTES w in
  let? w := add_decoded_heap_estimate slots w in
  push_messagepack_values count w.

Definition account_messagepack_map (count : Z) (w : Walk) : result Walk PackError :=
  let? slots := ok_or (checked_mul u64_max count DECODED_MAP_ENTRY_BYTES) EstimateOverflow in
  let? values := ok_or (checked_mul u64_max count 2) EstimateOverflow in
  let? w := add_decoded_heap_estimate DECODED_CONTAINER_OVERHEAD_BYTES w in
  let? w := add_decoded_heap_estimate slots w in
  push_messagepack_values values w.

Definition skip (n : Z) (w : Walk) : result Walk PackError :=
  let? taken := cursor_take n (cursor w) in
  Ok (with_cursor taken.2 w).

Definition account_messagepack_payload (payload_length : Z) (w : Walk) : result Walk PackError :=
  let? w := add_decoded_heap_estimate payload_length w in
  skip payload_length w.

(** A number read from the cursor, then [k]. *)
Definition with_read (read : Cursor → result (Z * Cursor) PackError) (k : Z → Walk → result Walk PackError)
    (w : Walk) : result Walk PackError :=
  let? n := read (cursor w) in
  k n.1 (with_cursor n.2 w).

(** A payload after a type byte; a payload of a fixed extension. *)
Definition account_extension (length_ : Z) (w : Walk) : result Walk PackError :=
  let? w := skip 1 w in
  account_messagepack_payload length_ w.
Definition account_fixed_extension (taken additional : Z) (w : Walk) : result Walk PackError :=
  let? w := skip taken w in
  add_decoded_heap_estimate additional w.

(** The arms of the [match] on the marker. *)
Definition account_marker (marker : Z) : Walk → result Walk PackError :=
  if (marker <=? 0x7f) || (0xe0 <=? marker) || (marker =? 0xc0) || (marker =? 0xc2) || (marker =? 0xc3) then Ok
  else if marker <=? 0x8f then account_messagepack_map (Z.land marker 0x0f)
  else if marker <=? 0x9f then account_messagepack_sequence (Z.land marker 0x0f)
  else if marker <=? 0xbf then account_messagepack_payload (Z.land marker 0x1f)
  else if marker =? 0xc1 then fun _ => Err ReservedMarker
  else if (marker =? 0xc4) || (marker =? 0xd9) then with_read read_u8 account_messagepack_payload
  else if (marker =? 0xc5) || (marker =? 0xda) then with_read read_u16 account_messagepack_payload
  else if (marker =? 0xc6) || (marker =? 0xdb) then with_read read_u32 account_messagepack_payload
  else if marker =? 0xc7 then with_read read_u8 account_extension
  else if marker =? 0xc8 then with_read read_u16 account_extension
  else if marker =? 0xc9 then with_read read_u32 account_extension
  else if marker =? 0xca then skip 4
  else if marker =? 0xcb then skip 8
  else if (marker =? 0xcc) || (marker =? 0xd0) then skip 1
  else if (marker =? 0xcd) || (marker =? 0xd1) then skip 2
  else if (marker =? 0xce) || (marker =? 0xd2) then skip 4
  else if (marker =? 0xcf) || (marker =? 0xd3) then skip 8
  else if marker =? 0xd4 then account_fixed_extension 2 1
  else if marker =? 0xd5 then account_fixed_extension 3 2
  else if marker =? 0xd6 then account_fixed_extension 5 4
  else if marker =? 0xd7 then account_fixed_extension 9 8
  else if marker =? 0xd8 then account_fixed_extension 17 16
  else if marker =? 0xdc then with_read read_u16 account_messagepack_sequence
  else if marker =? 0xdd then with_read read_u32 account_messagepack_sequence
  else if marker =? 0xde then with_read read_u16 account_messagepack_map
  else with_read read_u32 account_messagepack_map.

(** One turn of the loop, with [depth] above zero. *)
Definition walk_turn (top : Z) (outer : list Z) (w : Walk) : result Walk PackError :=
  if top =? 0 then Ok (mkWalk (cursor w) outer (estimate w))
  else with_read read_u8 account_marker (mkWalk (cursor w) (top - 1 :: outer) (estimate w)).

(** [while depth != 0]; [None]: not within [fuel] turns. *)
Fixpoint walk (fuel : nat) (w : Walk) : option (result Walk PackError) :=
  match remaining_values w with
  | [] => Some (Ok w)
  | top :: outer =>
      match fuel with
      | O => None
      | S fuel =>
          match walk_turn top outer w with
          | Err e => Some (Err e)
          | Ok w => walk fuel w
          end
      end
  end.

(** Each turn reads a byte or leaves a level, and a level is opened by a byte. *)
Definition preflight_messagepack_decode (bytes : list Z) : option (result Z PackError) :=
  r ← walk (2 * length bytes + 2) (mkWalk (cursor_new bytes) [1] 0);
  Some (let? w := r in
        let? _ := ensure (is_finished (cursor w)) TrailingBytes in
        Ok (estimate w)).
