(* ===== verification/PackGrammar.v ===== *)
(** * The check of MessagePack against its grammar

    The check accepts exactly the encodings of one value, not nested more than 64
    levels, whose decoded size is within the limit; it ends on every input. *)

From S2P Require Import Prelude External Message Wire WireServer MessagePack.

(** ** The grammar *)

(** The bytes before the elements of a value: how many elements follow, and what the
    value itself costs. *)
Inductive header : list Z → Z → Z → Prop :=
| h_small m :
    0 <= m <= 0x7f ∨ 0xe0 <= m <= 0xff ∨ m = 0xc0 ∨ m = 0xc2 ∨ m = 0xc3 → header [m] 0 0
| h_fixmap n : 0 <= n <= 15 → header [0x80 + n] (2 * n) (24 + 64 * n)
| h_fixarray n : 0 <= n <= 15 → header [0x90 + n] n (24 + 32 * n)
| h_fixstr n payload : 0 <= n <= 31 → len payload = n → header (0xa0 + n :: payload) 0 n
| h_bytes m k ls payload :
    (m, k) ∈ [(0xc4, 1); (0xd9, 1); (0xc5, 2); (0xda, 2); (0xc6, 4); (0xdb, 4)] →
    len ls = k → Forall is_byte ls → len payload = of_be_bytes ls →
    header (m :: ls ++ payload) 0 (len payload)
| h_ext m k ls ty payload :
    (m, k) ∈ [(0xc7, 1); (0xc8, 2); (0xc9, 4)] →
    len ls = k → Forall is_byte ls → len payload = of_be_bytes ls →
    header (m :: ls ++ ty :: payload) 0 (len payload)
| h_scalar m payload :
    (m, len payload) ∈ [(0xca, 4); (0xcb, 8); (0xcc, 1); (0xd0, 1); (0xcd, 2); (0xd1, 2); (0xce, 4); (0xd2, 4);
                        (0xcf, 8); (0xd3, 8)] →
    header (m :: payload) 0 0
| h_fixext m n payload :
    (m, n) ∈ [(0xd4, 1); (0xd5, 2); (0xd6, 4); (0xd7, 8); (0xd8, 16)] → len payload = n + 1 →
    header (m :: payload) 0 n
| h_array m k ls :
    (m, k) ∈ [(0xdc, 2); (0xdd, 4)] → len ls = k → Forall is_byte ls →
    header (m :: ls) (of_be_bytes ls) (24 + 32 * of_be_bytes ls)
| h_map m k ls :
    (m, k) ∈ [(0xde, 2); (0xdf, 4)] → len ls = k → Forall is_byte ls →
    header (m :: ls) (2 * of_be_bytes ls) (24 + 64 * of_be_bytes ls).

(** Bytes that encode one value, or that many, with the depth of containers in it and
    what it costs. *)
Inductive packs : list Z → nat → Z → Prop :=
| packs_value h c e elements n cost :
    header h c e → packs_many (Z.to_nat c) elements n cost →
    packs (h ++ elements) (if c =? 0 then 0 else S n) (e + cost)
with packs_many : nat → list Z → nat → Z → Prop :=
| packs_none : packs_many 0 [] 0 0
| packs_more k b bs n n' e e' :
    packs b n e → packs_many k bs n' e' → packs_many (S k) (b ++ bs) (Nat.max n n') (e + e').

Scheme packs_ind' := Minimality for packs Sort Prop
  with packs_many_ind' := Minimality for packs_many Sort Prop.

(** ** The cursor *)

Record cursor_ok (c : Cursor) : Prop := {
  cursor_range : 0 <= cursor_offset c <= len (cursor_bytes c);
  cursor_small : len (cursor_bytes c) <= u64_max;
  cursor_is_bytes : Forall is_byte (cursor_bytes c);
}.

(** What has not been read. *)
Definition rest (c : Cursor) : list Z := drop (Z.to_nat (cursor_offset c)) (cursor_bytes c).

Lemma rest_is_bytes c : cursor_ok c → Forall is_byte (rest c).
Proof. intros []. by apply Forall_drop. Qed.

Lemma rest_finished c : cursor_ok c → is_finished c = true ↔ rest c = [].
Proof.
  intros [[Hlo Hhi] _ _]. unfold is_finished, rest. rewrite Z.eqb_eq. unfold len in *. split.
  - intros ->. apply drop_ge. lia.
  - intros Hnil. apply (f_equal length) in Hnil. rewrite length_drop in Hnil. simpl in Hnil. lia.
Qed.

Lemma cursor_take_ok n c bs c' :
  0 <= n → cursor_ok c → cursor_take n c = Ok (bs, c') → cursor_ok c' ∧ rest c = bs ++ rest c' ∧ len bs = n.
Proof.
  intros Hn [[Hlo Hhi] Hsmall Hbytes]. unfold cursor_take, ensure, ok_or.
  destruct (checked_add _ _ _) as [e|] eqn:He; [|done]. apply checked_add_Some in He as [-> _]. simpl.
  destruct (_ <=? len (cursor_bytes c)) eqn:Hle; [|done]. simpl. bool_to_prop. intros [= <- <-].
  split; [by split; simpl; [lia|..]|]. unfold rest, slice. simpl. unfold len in *.
  replace (Z.to_nat (cursor_offset c + n)) with (Z.to_nat (cursor_offset c) + Z.to_nat n)%nat by lia.
  replace (cursor_offset c + n - cursor_offset c) with n by lia.
  rewrite <- drop_drop, take_drop, length_take, length_drop. split; [done|lia].
Qed.

Lemma cursor_take_done c bs r :
  cursor_ok c → rest c = bs ++ r → ∃ c', cursor_take (len bs) c = Ok (bs, c') ∧ cursor_ok c' ∧ rest c' = r.
Proof.
  intros [[Hlo Hhi] Hsmall Hbytes] Hrest. unfold rest in Hrest.
  assert (cursor_offset c + len bs <= len (cursor_bytes c)) as Hle.
  { apply (f_equal length) in Hrest. rewrite length_drop, length_app in Hrest. unfold len in *. lia. }
  unfold cursor_take, ensure, ok_or.
  assert (checked_add u64_max (cursor_offset c) (len bs) = Some (cursor_offset c + len bs)) as -> by (apply checked_add_Some; lia).
  simpl. rewrite (proj2 (Z.leb_le _ _)) by done. simpl. unfold slice. rewrite Hrest.
  replace (Z.to_nat (cursor_offset c + len bs - cursor_offset c)) with (length bs) by (unfold len; lia).
  rewrite take_app_length. eexists. split; [done|]. split; [by split; simpl; [unfold len in *; lia|..]|].
  unfold rest. simpl. unfold len in *.
  replace (Z.to_nat (cursor_offset c + Z.of_nat (length bs))) with (Z.to_nat (cursor_offset c) + length bs)%nat by lia.
  by rewrite <- drop_drop, Hrest, drop_app_length.
Qed.

Lemma read_u8_ok c b c' : cursor_ok c → read_u8 c = Ok (b, c') → cursor_ok c' ∧ rest c = b :: rest c' ∧ is_byte b.
Proof.
  intros [[Hlo Hhi] Hsmall Hbytes]. unfold read_u8, ok_or.
  destruct (cursor_bytes c !! Z.to_nat (cursor_offset c)) as [x|] eqn:Hx; [|done]. simpl. intros [= <- <-].
  pose proof (lookup_lt_Some _ _ _ Hx) as Hlt. split; [split; simpl; [unfold len in *; lia|done..]|]. split.
  - unfold rest. simpl. replace (Z.to_nat (cursor_offset c + 1)) with (S (Z.to_nat (cursor_offset c))) by lia. by apply drop_S.
  - by eapply (Forall_lookup_1 _ _ _ _ Hbytes).
Qed.

Lemma read_u8_done c b r : cursor_ok c → rest c = b :: r → ∃ c', read_u8 c = Ok (b, c') ∧ cursor_ok c' ∧ rest c' = r.
Proof.
  intros [[Hlo Hhi] Hsmall Hbytes] Hrest. unfold rest in Hrest.
  assert (cursor_bytes c !! Z.to_nat (cursor_offset c) = Some b) as Hx by (by rewrite <- (Nat.add_0_r (Z.to_nat _)), <- lookup_drop, Hrest).
  unfold read_u8. rewrite Hx. simpl. pose proof (lookup_lt_Some _ _ _ Hx) as Hlt. eexists. split; [done|].
  split; [split; simpl; [unfold len in *; lia|done..]|]. unfold rest. simpl.
  replace (Z.to_nat (cursor_offset c + 1)) with (S (Z.to_nat (cursor_offset c))) by lia.
  rewrite (drop_S _ _ _ Hx) in Hrest. by injection Hrest.
Qed.

Lemma of_be_bytes_one b : of_be_bytes [b] = b.
Proof. done. Qed.

Lemma of_be_bytes_bound bs : Forall is_byte bs → 0 <= of_be_bytes bs < 2 ^ (8 * len bs).
Proof.
  unfold of_be_bytes, len. induction bs as [|x bs IH] using rev_ind; intros Hbs; [done|].
  apply Forall_app in Hbs as [Hbs Hx]. apply Forall_cons_iff in Hx as [Hx _]. specialize (IH Hbs).
  rewrite foldl_app, length_app. cbn [foldl length]. unfold is_byte in Hx.
  replace (8 * Z.of_nat (length bs + 1)) with (8 * Z.of_nat (length bs) + 8) by lia.
  rewrite Z.pow_add_r by lia. change (2 ^ 8) with 256. set (P := 2 ^ (8 * Z.of_nat (length bs))) in *.
  clearbody P. lia.
Qed.

(** ** The parts of a turn *)

Definition walk_ok (w : Walk) : Prop :=
  cursor_ok (cursor w) ∧ 0 <= estimate w <= MAX_IN_FLIGHT_MESSAGE_BYTES ∧ len (remaining_values w) <= MAX_MESSAGEPACK_NESTING.

(** [w'] has read [h], added [e] and, unless [c] is zero, opened a level of [c]. *)
Definition moved (w : Walk) (h : list Z) (c e : Z) (w' : Walk) : Prop :=
  walk_ok w' ∧ rest (cursor w) = h ++ rest (cursor w') ∧ estimate w' = estimate w + e ∧
  remaining_values w' = if c =? 0 then remaining_values w else c :: remaining_values w.

Lemma add_estimate_ok a w w' :
  0 <= a → walk_ok w → add_decoded_heap_estimate a w = Ok w' → moved w [] 0 a w'.
Proof.
  intros Ha (Hc & He & Hr). unfold add_decoded_heap_estimate, ensure, ok_or.
  destruct (checked_add _ _ _) as [e|] eqn:Hadd; [|done]. apply checked_add_Some in Hadd as [-> _]. simpl.
  destruct (_ <=? _) eqn:Hle; [|done]. simpl. bool_to_prop. intros [= <-].
  split; [|by split_and!]. split; [done|]. simpl. split; [lia|done].
Qed.

Lemma add_estimate_done a w :
  0 <= a → walk_ok w → estimate w + a <= MAX_IN_FLIGHT_MESSAGE_BYTES →
  ∃ w', add_decoded_heap_estimate a w = Ok w' ∧ moved w [] 0 a w'.
Proof.
  intros Ha (Hc & He & Hr) Hle. unfold add_decoded_heap_estimate, ensure, ok_or.
  assert (checked_add u64_max (estimate w) a = Some (estimate w + a)) as ->.
  { apply checked_add_Some. unfold MAX_IN_FLIGHT_MESSAGE_BYTES, u64_max in *. lia. }
  simpl. rewrite (proj2 (Z.leb_le _ _)) by done. simpl. eexists. split; [done|].
  split; [|by split_and!]. split; [done|]. simpl. split; [lia|done].
Qed.

Lemma skip_ok n w w' :
  0 <= n → walk_ok w → skip n w = Ok w' → ∃ h, len h = n ∧ moved w h 0 0 w'.
Proof.
  intros Hn (Hc & He & Hr). unfold skip. destruct (cursor_take n (cursor w)) as [[bs c']|] eqn:Ht; [|done].
  simpl. intros [= <-]. apply cursor_take_ok in Ht as (Hc' & Hrest & Hlen); [|done..]. exists bs. split; [done|].
  split; [by split|]. split; [done|]. split; [simpl; lia|done].
Qed.

Lemma skip_done h r w :
  walk_ok w → rest (cursor w) = h ++ r → ∃ w', skip (len h) w = Ok w' ∧ moved w h 0 0 w' ∧ rest (cursor w') = r.
Proof.
  intros (Hc & He & Hr) Hrest. unfold skip. destruct (cursor_take_done _ _ _ Hc Hrest) as (c' & -> & Hc' & Hr').
  simpl. eexists. split; [done|]. split; [|done]. split; [by split|]. simpl. rewrite Hrest, Hr'.
  split; [done|]. split; [lia|done].
Qed.

Lemma moved_trans w h c e w1 h' e' w2 : moved w h 0 e w1 → moved w1 h' c e' w2 → moved w (h ++ h') c (e + e') w2.
Proof.
  intros (Hok1 & Hr1 & He1 & Hs1) (Hok2 & Hr2 & He2 & Hs2). simpl in Hs1.
  split; [done|]. split; [by rewrite Hr1, Hr2, app_assoc|]. split; [lia|]. by rewrite Hs2, Hs1.
Qed.

Lemma push_values_ok v w w' :
  0 <= v → walk_ok w → push_messagepack_values v w = Ok w' → moved w [] v 0 w'.
Proof.
  intros Hv (Hc & He & Hr). unfold push_messagepack_values. destruct (v =? 0) eqn:Hv0.
  - intros [= <-]. split; [by split|]. rewrite Hv0. split_and!; [done|lia|done].
  - destruct (_ =? MAX_MESSAGEPACK_NESTING) eqn:Hd; [done|]. bool_to_prop. intros [= <-].
    split; [|unfold moved; simpl; rewrite (proj2 (Z.eqb_neq _ _)) by done; split_and!; [done|lia|done]].
    split; [done|]. split; [done|]. unfold len in *. simpl. lia.
Qed.

Lemma push_values_done v w :
  0 <= v → walk_ok w → (v ≠ 0 → len (remaining_values w) < MAX_MESSAGEPACK_NESTING) →
  ∃ w', push_messagepack_values v w = Ok w' ∧ moved w [] v 0 w'.
Proof.
  intros Hv Hw Hroom. assert (∃ w', push_messagepack_values v w = Ok w') as [w' Hw'].
  { unfold push_messagepack_values. destruct (v =? 0) eqn:Hv0; [by eexists|]. bool_to_prop. specialize (Hroom Hv0).
    rewrite (proj2 (Z.eqb_neq _ _)) by lia. by eexists. }
  exists w'. split; [done|]. by apply push_values_ok.
Qed.

Lemma sequence_ok n w w' :
  0 <= n → walk_ok w → account_messagepack_sequence n w = Ok w' → moved w [] n (24 + 32 * n) w'.
Proof.
  intros Hn Hw. unfold account_messagepack_sequence.
  intros (slots & Hs & (w1 & H1 & (w2 & H2 & H3)%result_bind_Ok)%result_bind_Ok)%result_bind_Ok.
  unfold ok_or in Hs. destruct (checked_mul _ _ _) as [x|] eqn:Hm; [|done]. apply checked_mul_Some in Hm as [-> _].
  injection Hs as <-. unfold DECODED_SEQUENCE_SLOT_BYTES, DECODED_CONTAINER_OVERHEAD_BYTES in *.
  apply add_estimate_ok in H1; [|lia|done]. apply add_estimate_ok in H2; [|lia|apply H1].
  apply push_values_ok in H3; [|done|apply H2]. pose proof (moved_trans _ _ _ _ _ _ _ _ H1 (moved_trans _ _ _ _ _ _ _ _ H2 H3)) as Hm.
  by replace (24 + 32 * n) with (24 + (n * 32 + 0)) by lia.
Qed.

Lemma sequence_done n w :
  0 <= n < 2 ^ 32 → walk_ok w → estimate w + (24 + 32 * n) <= MAX_IN_FLIGHT_MESSAGE_BYTES →
  (n ≠ 0 → len (remaining_values w) < MAX_MESSAGEPACK_NESTING) →
  ∃ w', account_messagepack_sequence n w = Ok w' ∧ moved w [] n (24 + 32 * n) w'.
Proof.
  intros Hn Hw He Hr. assert (∃ w', account_messagepack_sequence n w = Ok w') as [w' Hw'].
  { unfold account_messagepack_sequence, DECODED_SEQUENCE_SLOT_BYTES, DECODED_CONTAINER_OVERHEAD_BYTES.
    assert (checked_mul u64_max n 32 = Some (n * 32)) as -> by (apply checked_mul_Some; unfold u64_max; lia). simpl.
    destruct (add_estimate_done 24 w) as (w1 & -> & Hm1); [lia|done|lia|]. simpl. pose proof Hm1 as (Hw1 & _ & He1 & Hs1).
    destruct (add_estimate_done (n * 32) w1) as (w2 & -> & Hm2); [lia|done|lia|]. simpl. pose proof Hm2 as (Hw2 & _ & _ & Hs2).
    destruct (push_values_done n w2) as (w3 & -> & _); [lia|done|by rewrite Hs2, Hs1|]. by eexists. }
  exists w'. split; [done|]. by apply sequence_ok; [lia|..].
Qed.

Lemma map_ok n w w' :
  0 <= n → walk_ok w → account_messagepack_map n w = Ok w' → moved w [] (2 * n) (24 + 64 * n) w'.
Proof.
  intros Hn Hw. unfold account_messagepack_map.
  intros (slots & Hs & (values & Hv & (w1 & H1 & (w2 & H2 & H3)%result_bind_Ok)%result_bind_Ok)%result_bind_Ok)%result_bind_Ok.
  unfold ok_or in Hs, Hv. destruct (checked_mul _ _ DECODED_MAP_ENTRY_BYTES) as [x|] eqn:Hm; [|done].
  apply checked_mul_Some in Hm as [-> _]. injection Hs as <-.
  destruct (checked_mul _ _ 2) as [x|] eqn:Hm; [|done]. apply checked_mul_Some in Hm as [-> _]. injection Hv as <-.
  unfold DECODED_MAP_ENTRY_BYTES, DECODED_CONTAINER_OVERHEAD_BYTES in *.
  apply add_estimate_ok in H1; [|lia|done]. apply add_estimate_ok in H2; [|lia|apply H1].
  apply push_values_ok in H3; [|lia|apply H2]. pose proof (moved_trans _ _ _ _ _ _ _ _ H1 (moved_trans _ _ _ _ _ _ _ _ H2 H3)) as Hm.
  replace (24 + 64 * n) with (24 + (n * 64 + 0)) by lia. by rewrite (Z.mul_comm 2 n).
Qed.

Lemma map_done n w :
  0 <= n < 2 ^ 32 → walk_ok w → estimate w + (24 + 64 * n) <= MAX_IN_FLIGHT_MESSAGE_BYTES →
  (2 * n ≠ 0 → len (remaining_values w) < MAX_MESSAGEPACK_NESTING) →
  ∃ w', account_messagepack_map n w = Ok w' ∧ moved w [] (2 * n) (24 + 64 * n) w'.
Proof.
  intros Hn Hw He Hr. assert (∃ w', account_messagepack_map n w = Ok w') as [w' Hw'].
  { unfold account_messagepack_map, DECODED_MAP_ENTRY_BYTES, DECODED_CONTAINER_OVERHEAD_BYTES.
    assert (checked_mul u64_max n 64 = Some (n * 64)) as -> by (apply checked_mul_Some; unfold u64_max; lia). simpl.
    assert (checked_mul u64_max n 2 = Some (n * 2)) as -> by (apply checked_mul_Some; unfold u64_max; lia). simpl.
    destruct (add_estimate_done 24 w) as (w1 & -> & Hm1); [lia|done|lia|]. simpl. pose proof Hm1 as (Hw1 & _ & He1 & Hs1).
    destruct (add_estimate_done (n * 64) w1) as (w2 & -> & Hm2); [lia|done|lia|]. simpl. pose proof Hm2 as (Hw2 & _ & _ & Hs2).
    destruct (push_values_done (n * 2) w2) as (w3 & -> & _); [lia|done|rewrite Hs2, Hs1; intros; apply Hr; lia|]. by eexists. }
  exists w'. split; [done|]. by apply map_ok; [lia|..].
Qed.

Lemma payload_ok n w w' :
  0 <= n → walk_ok w → account_messagepack_payload n w = Ok w' → ∃ h, len h = n ∧ moved w h 0 n w'.
Proof.
  intros Hn Hw (w1 & H1 & H2)%result_bind_Ok. apply add_estimate_ok in H1; [|done..].
  apply skip_ok in H2 as (h & Hh & H2); [|done|apply H1]. exists h. split; [done|].
  rewrite <- (Z.add_0_r n). by apply (moved_trans w [] 0 n w1 h 0 w').
Qed.

Lemma payload_done h r w :
  walk_ok w → rest (cursor w) = h ++ r → estimate w + len h <= MAX_IN_FLIGHT_MESSAGE_BYTES →
  ∃ w', account_messagepack_payload (len h) w = Ok w' ∧ moved w h 0 (len h) w' ∧ rest (cursor w') = r.
Proof.
  intros Hw Hrest He. unfold account_messagepack_payload.
  destruct (add_estimate_done (len h) w) as (w1 & -> & Hm1); [unfold len; lia|done|done|]. simpl.
  pose proof Hm1 as (Hw1 & Hr1 & _). simpl in Hr1.
  destruct (skip_done h r w1) as (w2 & -> & Hm2 & Hr2); [done|by rewrite <- Hr1|]. exists w2. split; [done|]. split; [|done].
  rewrite <- (Z.add_0_r (len h)). by apply (moved_trans w [] 0 (len h) w1 h 0 w2).
Qed.

Lemma extension_ok n w w' :
  0 <= n → walk_ok w → account_extension n w = Ok w' → ∃ ty h, len h = n ∧ moved w (ty :: h) 0 n w'.
Proof.
  intros Hn Hw (w1 & H1 & H2)%result_bind_Ok. apply skip_ok in H1 as (t & Ht & H1); [|done..].
  apply payload_ok in H2 as (h & Hh & H2); [|done|apply H1].
  destruct t as [|ty [|]]; [done| |unfold len in Ht; simpl in Ht; lia]. exists ty, h. split; [done|].
  by apply (moved_trans w [ty] 0 0 w1 h n w').
Qed.

Lemma extension_done ty h r w :
  walk_ok w → rest (cursor w) = (ty :: h) ++ r → estimate w + len h <= MAX_IN_FLIGHT_MESSAGE_BYTES →
  ∃ w', account_extension (len h) w = Ok w' ∧ moved w (ty :: h) 0 (len h) w' ∧ rest (cursor w') = r.
Proof.
  intros Hw Hrest He. unfold account_extension.
  destruct (skip_done [ty] (h ++ r) w) as (w1 & H1 & Hm1 & Hr1); [done..|]. change (len [ty]) with 1 in H1. rewrite H1. simpl.
  pose proof Hm1 as (Hw1 & _ & He1 & _). destruct (payload_done h r w1) as (w2 & -> & Hm2 & Hr2); [done|done|lia|].
  exists w2. split; [done|]. split; [|done]. by apply (moved_trans w [ty] 0 0 w1 h (len h) w2).
Qed.

Lemma fixed_extension_ok n a w w' :
  0 <= n → 0 <= a → walk_ok w → account_fixed_extension n a w = Ok w' → ∃ h, len h = n ∧ moved w h 0 a w'.
Proof.
  intros Hn Ha Hw (w1 & H1 & H2)%result_bind_Ok. apply skip_ok in H1 as (h & Hh & H1); [|done..].
  apply add_estimate_ok in H2; [|done|apply H1]. exists h. split; [done|].
  rewrite <- (app_nil_r h). by apply (moved_trans w h 0 0 w1 [] a w').
Qed.

Lemma fixed_extension_done h a r w :
  0 <= a → walk_ok w → rest (cursor w) = h ++ r → estimate w + a <= MAX_IN_FLIGHT_MESSAGE_BYTES →
  ∃ w', account_fixed_extension (len h) a w = Ok w' ∧ moved w h 0 a w' ∧ rest (cursor w') = r.
Proof.
  intros Ha Hw Hrest He. unfold account_fixed_extension.
  destruct (skip_done h r w) as (w1 & -> & Hm1 & Hr1); [done..|]. simpl. pose proof Hm1 as (Hw1 & _ & He1 & _).
  destruct (add_estimate_done a w1) as (w2 & -> & Hm2); [done|done|lia|]. exists w2. split; [done|].
  split; [|by destruct Hm2 as (_ & Hr2 & _); rewrite <- Hr1, Hr2].
  rewrite <- (app_nil_r h). by apply (moved_trans w h 0 0 w1 [] a w2).
Qed.

(** ** Markers *)

(** A read of a number of [k] bytes. *)
Record reads (read : Cursor → result (Z * Cursor) PackError) (k : Z) : Prop := {
  reads_ok c n c' : cursor_ok c → read c = Ok (n, c') →
    ∃ ls, len ls = k ∧ Forall is_byte ls ∧ n = of_be_bytes ls ∧ cursor_ok c' ∧ rest c = ls ++ rest c';
  reads_done c ls r : cursor_ok c → len ls = k → rest c = ls ++ r →
    ∃ c', read c = Ok (of_be_bytes ls, c') ∧ cursor_ok c' ∧ rest c' = r;
}.

Lemma reads_u8 : reads read_u8 1.
Proof.
  split.
  - intros c n c' Hc (Hc' & Hrest & Hb)%read_u8_ok; [|done]. exists [n].
    split_and!; [done|by constructor; [|constructor]|done..].
  - intros c ls r Hc Hlen Hrest. destruct ls as [|b [|]]; [done| |unfold len in Hlen; simpl in Hlen; lia].
    by apply read_u8_done.
Qed.

Lemma reads_be k : 0 <= k → reads (read_be k) k.
Proof.
  intros Hk. split.
  - intros c n c' Hc ([bs c1] & Ht & [= <- <-])%result_bind_Ok. pose proof (rest_is_bytes c Hc) as Hb.
    apply cursor_take_ok in Ht as (Hc' & Hrest & Hlen); [|done..]. exists bs. rewrite Hrest in Hb.
    apply Forall_app in Hb as [Hb _]. done.
  - intros c ls r Hc <- Hrest. unfold read_be. by destruct (cursor_take_done c ls r Hc Hrest) as (c' & -> & ? & ?); eexists.
Qed.

Lemma with_read_ok read k f w w' :
  reads read k → walk_ok w → with_read read f w = Ok w' →
  ∃ ls w1, len ls = k ∧ Forall is_byte ls ∧ moved w ls 0 0 w1 ∧ f (of_be_bytes ls) w1 = Ok w'.
Proof.
  intros Hread (Hc & He & Hr) ([n c'] & Hn & Hf)%result_bind_Ok.
  apply (reads_ok _ _ Hread) in Hn as (ls & Hlen & Hls & -> & Hc' & Hrest); [|done].
  exists ls, (with_cursor c' w). split_and!; try done. split; [by split|]. split; [done|]. split; [simpl; lia|done].
Qed.

Lemma with_read_done read k f w ls r :
  reads read k → walk_ok w → len ls = k → rest (cursor w) = ls ++ r →
  ∃ w1, with_read read f w = f (of_be_bytes ls) w1 ∧ moved w ls 0 0 w1 ∧ rest (cursor w1) = r.
Proof.
  intros Hread (Hc & He & Hr) Hlen Hrest. destruct (reads_done _ _ Hread _ _ _ Hc Hlen Hrest) as (c' & Hn & Hc' & Hr').
  unfold with_read. rewrite Hn. simpl. eexists. split; [done|]. split; [|done].
  split; [by split|]. simpl. rewrite Hrest, Hr'. split; [done|]. split; [lia|done].
Qed.

Lemma low_bits base m n : base `mod` 2 ^ n = 0 → base <= m < base + 2 ^ n → 0 <= n → Z.land m (Z.ones n) = m - base.
Proof.
  intros Hbase Hm Hn. rewrite Z.land_ones by done. symmetry. apply (Z.mod_unique_pos _ _ (base / 2 ^ n)); [lia|].
  pose proof (Z.div_mod base (2 ^ n)). lia.
Qed.

Lemma low_4 base m : base `mod` 16 = 0 → base <= m < base + 16 → Z.land m 0x0f = m - base.
Proof. intros. by apply (low_bits base m 4). Qed.
Lemma low_5 base m : base `mod` 32 = 0 → base <= m < base + 32 → Z.land m 0x1f = m - base.
Proof. intros. by apply (low_bits base m 5). Qed.

Lemma reads_u16 : reads read_u16 2.
Proof. by apply reads_be. Qed.
Lemma reads_u32 : reads read_u32 4.
Proof. by apply reads_be. Qed.

(** A length and then its payload, its extension, its elements. *)
Lemma sized_payload_ok read k w w' m :
  reads read k → (m, k) ∈ [(0xc4, 1); (0xd9, 1); (0xc5, 2); (0xda, 2); (0xc6, 4); (0xdb, 4)] →
  walk_ok w → with_read read account_messagepack_payload w = Ok w' → ∃ t c e, header (m :: t) c e ∧ moved w t c e w'.
Proof.
  intros Hread Hm Hw H. eapply with_read_ok in H as (ls & w1 & Hlen & Hls & Hm1 & H2); [|done..].
  pose proof (of_be_bytes_bound ls Hls). apply payload_ok in H2 as (h & Hh & H2); [|lia|apply Hm1].
  exists (ls ++ h), 0, (len h). split; [by eapply h_bytes|]. rewrite Hh. by apply (moved_trans w ls 0 0 w1 h _ w').
Qed.

Lemma sized_extension_ok read k w w' m :
  reads read k → (m, k) ∈ [(0xc7, 1); (0xc8, 2); (0xc9, 4)] →
  walk_ok w → with_read read account_extension w = Ok w' → ∃ t c e, header (m :: t) c e ∧ moved w t c e w'.
Proof.
  intros Hread Hm Hw H. eapply with_read_ok in H as (ls & w1 & Hlen & Hls & Hm1 & H2); [|done..].
  pose proof (of_be_bytes_bound ls Hls). apply extension_ok in H2 as (ty & h & Hh & H2); [|lia|apply Hm1].
  exists (ls ++ ty :: h), 0, (len h). split; [by eapply h_ext|]. rewrite Hh. by apply (moved_trans w ls 0 0 w1 (ty :: h) _ w').
Qed.

Lemma sized_sequence_ok read k w w' m :
  reads read k → (m, k) ∈ [(0xdc, 2); (0xdd, 4)] →
  walk_ok w → with_read read account_messagepack_sequence w = Ok w' → ∃ t c e, header (m :: t) c e ∧ moved w t c e w'.
Proof.
  intros Hread Hm Hw H. eapply with_read_ok in H as (ls & w1 & Hlen & Hls & Hm1 & H2); [|done..].
  pose proof (of_be_bytes_bound ls Hls). apply sequence_ok in H2; [|lia|apply Hm1].
  eexists ls, _, _. split; [by eapply h_array|]. rewrite <- (app_nil_r ls) at 1. by apply (moved_trans w ls _ 0 w1 [] _ w').
Qed.

Lemma sized_map_ok read k w w' m :
  reads read k → (m, k) ∈ [(0xde, 2); (0xdf, 4)] →
  walk_ok w → with_read read account_messagepack_map w = Ok w' → ∃ t c e, header (m :: t) c e ∧ moved w t c e w'.
Proof.
  intros Hread Hm Hw H. eapply with_read_ok in H as (ls & w1 & Hlen & Hls & Hm1 & H2); [|done..].
  pose proof (of_be_bytes_bound ls Hls). apply map_ok in H2; [|lia|apply Hm1].
  eexists ls, _, _. split; [by eapply h_map|]. rewrite <- (app_nil_r ls) at 1. by apply (moved_trans w ls _ 0 w1 [] _ w').
Qed.

Lemma skip_marker_ok m k w w' :
  (m, k) ∈ [(0xca, 4); (0xcb, 8); (0xcc, 1); (0xd0, 1); (0xcd, 2); (0xd1, 2); (0xce, 4); (0xd2, 4); (0xcf, 8); (0xd3, 8)] →
  0 <= k → walk_ok w → skip k w = Ok w' → ∃ t c e, header (m :: t) c e ∧ moved w t c e w'.
Proof.
  intros Hm Hk Hw H. apply skip_ok in H as (h & Hh & H); [|done..]. exists h, 0, 0. split; [|done].
  apply h_scalar. by rewrite Hh.
Qed.

Lemma fixext_marker_ok m n w w' :
  (m, n) ∈ [(0xd4, 1); (0xd5, 2); (0xd6, 4); (0xd7, 8); (0xd8, 16)] → 0 <= n →
  walk_ok w → account_fixed_extension (n + 1) n w = Ok w' → ∃ t c e, header (m :: t) c e ∧ moved w t c e w'.
Proof.
  intros Hm Hn Hw H. apply fixed_extension_ok in H as (h & Hh & H); [|lia|done|done]. exists h, 0, n.
  split; [by eapply h_fixext|done].
Qed.

(** Membership in a list that is written out. *)
Ltac listed := solve [repeat first [apply list_elem_of_here | apply list_elem_of_further]].

(** The arms that read a length. *)
Ltac sized lem Hw H :=
  first [eapply (lem _ _ _ _ _ reads_u8); [listed|exact Hw|exact H]
        |eapply (lem _ _ _ _ _ reads_u16); [listed|exact Hw|exact H]
        |eapply (lem _ _ _ _ _ reads_u32); [listed|exact Hw|exact H]].

Lemma marker_ok m w w' :
  is_byte m → walk_ok w → account_marker m w = Ok w' → ∃ t c e, header (m :: t) c e ∧ moved w t c e w'.
Proof.
  intros [Hlo Hhi] Hw. unfold account_marker.
  destruct (_ || _) eqn:Hsmall.
  { rewrite !orb_true_iff, !Z.leb_le, !Z.eqb_eq in Hsmall. intros [= <-]. exists [], 0, 0. split; [apply h_small; lia|].
    split; [done|]. split; [done|]. split; [lia|done]. }
  rewrite !orb_false_iff, !Z.leb_gt, !Z.eqb_neq in Hsmall. destruct (m <=? 0x8f) eqn:H1.
  { bool_to_prop. rewrite (low_4 0x80 m eq_refl) by lia. intros H. apply map_ok in H; [|lia|done].
    eexists [], _, _. split; [|exact H]. replace m with (0x80 + (m - 0x80)) at 1 by lia. apply h_fixmap. lia. }
  destruct (m <=? 0x9f) eqn:H2.
  { bool_to_prop. rewrite (low_4 0x90 m eq_refl) by lia. intros H. apply sequence_ok in H; [|lia|done].
    eexists [], _, _. split; [|exact H]. replace m with (0x90 + (m - 0x90)) at 1 by lia. apply h_fixarray. lia. }
  destruct (m <=? 0xbf) eqn:H3.
  { bool_to_prop. rewrite (low_5 0xa0 m eq_refl) by lia. intros H. apply payload_ok in H as (h & Hh & H); [|lia|done].
    eexists h, _, _. split; [|exact H]. replace m with (0xa0 + (m - 0xa0)) at 1 by lia. apply h_fixstr; [lia|done]. }
  assert (0xc0 <= m <= 0xdf ∧ m ≠ 0xc0 ∧ m ≠ 0xc2 ∧ m ≠ 0xc3) as Hm by (bool_to_prop; lia). clear Hsmall H1 H2 H3.
  destruct (m =? 0xc1) eqn:Hc1; [done|].
  repeat match goal with
  | |- context [if (m =? ?x) || (m =? ?y) then _ else _] =>
      destruct (Z.eqb_spec m x) as [->|]; [|destruct (Z.eqb_spec m y) as [->|]]; cbn [orb]; cbv iota
  | |- context [if m =? ?x then _ else _] => destruct (Z.eqb_spec m x) as [->|]; cbv iota
  end; cbn [Z.eqb Pos.eqb]; cbv iota; intros H.
  all: match type of H with
  | with_read _ account_messagepack_payload _ = _ => sized sized_payload_ok Hw H
  | with_read _ account_extension _ = _ => sized sized_extension_ok Hw H
  | with_read _ account_messagepack_sequence _ = _ => sized sized_sequence_ok Hw H
  | with_read _ account_messagepack_map _ = _ =>
      first [bool_to_prop; assert (m = 0xdf) as -> by lia|idtac]; sized sized_map_ok Hw H
  | skip ?k _ = _ => apply (skip_marker_ok _ k w w'); [listed|lia|exact Hw|exact H]
  | account_fixed_extension _ ?n _ = _ => apply (fixext_marker_ok _ n w w'); [listed|lia|exact Hw|exact H]
  end.
Qed.

Lemma account_marker_low m :
  0 <= m <= 0x7f ∨ 0xe0 <= m <= 0xff ∨ m = 0xc0 ∨ m = 0xc2 ∨ m = 0xc3 → account_marker m = Ok.
Proof.
  intros Hm. unfold account_marker. destruct (_ || _) eqn:Hs; [done|].
  rewrite !orb_false_iff, !Z.leb_gt, !Z.eqb_neq in Hs. lia.
Qed.

Lemma account_marker_range m :
  0x80 <= m <= 0xbf → account_marker m =
    if m <=? 0x8f then account_messagepack_map (m - 0x80)
    else if m <=? 0x9f then account_messagepack_sequence (m - 0x90) else account_messagepack_payload (m - 0xa0).
Proof.
  intros Hm. unfold account_marker. destruct (_ || _) eqn:Hs.
  { rewrite !orb_true_iff, !Z.leb_le, !Z.eqb_eq in Hs. lia. }
  destruct (m <=? 0x8f) eqn:H1; [by rewrite (low_4 0x80 m eq_refl) by (bool_to_prop; lia)|].
  destruct (m <=? 0x9f) eqn:H2; [by rewrite (low_4 0x90 m eq_refl) by (bool_to_prop; lia)|].
  bool_to_prop. rewrite (proj2 (Z.leb_le m 0xbf)) by lia. by rewrite (low_5 0xa0 m eq_refl) by lia.
Qed.

(** The arms that read a length, on their encodings. *)
Lemma sized_payload_done read k w ls payload r :
  reads read k → walk_ok w → len ls = k → len payload = of_be_bytes ls →
  rest (cursor w) = (ls ++ payload) ++ r → estimate w + len payload <= MAX_IN_FLIGHT_MESSAGE_BYTES →
  ∃ w', with_read read account_messagepack_payload w = Ok w' ∧ moved w (ls ++ payload) 0 (len payload) w'.
Proof.
  intros Hread Hw Hk Hlen Hrest He. rewrite <- app_assoc in Hrest.
  destruct (with_read_done read k account_messagepack_payload w ls _ Hread Hw Hk Hrest) as (w1 & -> & Hm1 & Hr1).
  pose proof Hm1 as (Hw1 & _ & He1 & _). rewrite <- Hlen.
  destruct (payload_done payload r w1) as (w2 & -> & Hm2 & _); [done|done|lia|].
  exists w2. split; [done|]. by apply (moved_trans w ls 0 0 w1 payload _ w2).
Qed.

Lemma sized_extension_done read k w ls ty payload r :
  reads read k → walk_ok w → len ls = k → len payload = of_be_bytes ls →
  rest (cursor w) = (ls ++ ty :: payload) ++ r → estimate w + len payload <= MAX_IN_FLIGHT_MESSAGE_BYTES →
  ∃ w', with_read read account_extension w = Ok w' ∧ moved w (ls ++ ty :: payload) 0 (len payload) w'.
Proof.
  intros Hread Hw Hk Hlen Hrest He. rewrite <- app_assoc in Hrest.
  destruct (with_read_done read k account_extension w ls _ Hread Hw Hk Hrest) as (w1 & -> & Hm1 & Hr1).
  pose proof Hm1 as (Hw1 & _ & He1 & _). rewrite <- Hlen.
  destruct (extension_done ty payload r w1) as (w2 & -> & Hm2 & _); [done|done|lia|].
  exists w2. split; [done|]. by apply (moved_trans w ls 0 0 w1 (ty :: payload) _ w2).
Qed.

Lemma be_bytes_u32 k ls : k <= 4 → len ls = k → Forall is_byte ls → 0 <= of_be_bytes ls < 2 ^ 32.
Proof.
  intros Hk Hlen Hls. pose proof (of_be_bytes_bound ls Hls) as [Hlo Hhi]. split; [done|].
  eapply Z.lt_le_trans; [done|]. apply Z.pow_le_mono_r; lia.
Qed.

Lemma sized_sequence_done read k w ls r :
  reads read k → k <= 4 → Forall is_byte ls → walk_ok w → len ls = k → rest (cursor w) = ls ++ r →
  estimate w + (24 + 32 * of_be_bytes ls) <= MAX_IN_FLIGHT_MESSAGE_BYTES →
  (of_be_bytes ls ≠ 0 → len (remaining_values w) < MAX_MESSAGEPACK_NESTING) →
  ∃ w', with_read read account_messagepack_sequence w = Ok w' ∧
    moved w ls (of_be_bytes ls) (24 + 32 * of_be_bytes ls) w'.
Proof.
  intros Hread H4 Hls Hw Hk Hrest He Hroom.
  destruct (with_read_done read k account_messagepack_sequence w ls _ Hread Hw Hk Hrest) as (w1 & -> & Hm1 & Hr1).
  pose proof Hm1 as (Hw1 & _ & He1 & Hs1).
  destruct (sequence_done (of_be_bytes ls) w1) as (w2 & -> & Hm2); [by eapply be_bytes_u32|done|lia|by rewrite Hs1|].
  exists w2. split; [done|]. rewrite <- (app_nil_r ls) at 1. by apply (moved_trans w ls _ 0 w1 [] _ w2).
Qed.

Lemma sized_map_done read k w ls r :
  reads read k → k <= 4 → Forall is_byte ls → walk_ok w → len ls = k → rest (cursor w) = ls ++ r →
  estimate w + (24 + 64 * of_be_bytes ls) <= MAX_IN_FLIGHT_MESSAGE_BYTES →
  (2 * of_be_bytes ls ≠ 0 → len (remaining_values w) < MAX_MESSAGEPACK_NESTING) →
  ∃ w', with_read read account_messagepack_map w = Ok w' ∧
    moved w ls (2 * of_be_bytes ls) (24 + 64 * of_be_bytes ls) w'.
Proof.
  intros Hread H4 Hls Hw Hk Hrest He Hroom.
  destruct (with_read_done read k account_messagepack_map w ls _ Hread Hw Hk Hrest) as (w1 & -> & Hm1 & Hr1).
  pose proof Hm1 as (Hw1 & _ & He1 & Hs1).
  destruct (map_done (of_be_bytes ls) w1) as (w2 & -> & Hm2); [by eapply be_bytes_u32|done|lia|by rewrite Hs1|].
  exists w2. split; [done|]. rewrite <- (app_nil_r ls) at 1. by apply (moved_trans w ls _ 0 w1 [] _ w2).
Qed.

(** The cases of a pair in a list that is written out. *)
Ltac listed_cases :=
  match goal with Hm : (_, _) ∈ _ |- _ =>
    rewrite ?elem_of_cons, elem_of_nil in Hm; repeat destruct Hm as [Hm|Hm]; [injection Hm as -> ?..|done]
  end.

Ltac arm := listed_cases; cbn [account_marker Z.leb Z.eqb Z.compare Pos.compare Pos.compare_cont Pos.eqb orb].

Lemma marker_done m t c e r w :
  header (m :: t) c e → walk_ok w → rest (cursor w) = t ++ r → estimate w + e <= MAX_IN_FLIGHT_MESSAGE_BYTES →
  (c ≠ 0 → len (remaining_values w) < MAX_MESSAGEPACK_NESTING) →
  ∃ w', account_marker m w = Ok w' ∧ moved w t c e w'.
Proof.
  intros Hh Hw Hrest He Hroom. inversion Hh; subst.
  - rewrite account_marker_low by done. exists w. split; [done|]. split; [done|]. split; [done|]. split; [lia|done].
  - rewrite account_marker_range by lia. rewrite (proj2 (Z.leb_le _ _)) by lia. replace (_ - 0x80) with n by lia.
    apply map_done; [lia|done..].
  - rewrite account_marker_range by lia. rewrite (proj2 (Z.leb_gt _ _)), (proj2 (Z.leb_le _ _)) by lia.
    replace (_ - 0x90) with c by lia. apply sequence_done; [lia|done..].
  - rewrite account_marker_range by lia. rewrite !(proj2 (Z.leb_gt _ _)) by lia. replace (_ - 0xa0) with (len t) by lia.
    destruct (payload_done t r w) as (w' & ? & ? & _); [done..|by exists w'].
  - arm; eapply sized_payload_done; eauto using reads_u8, reads_u16, reads_u32.
  - arm; eapply sized_extension_done; eauto using reads_u8, reads_u16, reads_u32.
  - arm; rename select (len t = _) into Ht; rewrite <- Ht;
      (destruct (skip_done t r w) as (w' & ? & ? & _); [done..|by exists w']).
  - arm; rename select (len t = _) into Ht; rename select (e = _) into Hn;
      match goal with |- ∃ w', account_fixed_extension ?n ?a _ = _ ∧ _ => replace n with (len t) by lia; replace a with e by lia end;
      (destruct (fixed_extension_done t e r w) as (w' & ? & ? & _); [lia|done..|by exists w']).
  - arm; eapply sized_sequence_done; eauto using reads_u16, reads_u32; lia.
  - arm; eapply sized_map_done; eauto using reads_u16, reads_u32; lia.
Qed.

(** ** The walk *)

Lemma header_inv h c e : header h c e → 0 <= c ∧ 0 <= e ∧ ∃ m t, h = m :: t.
Proof.
  destruct 1; (split; [|split; [|by eauto]]); try lia; unfold len; try lia.
  all: try (rename select (Forall is_byte _) into Hb; pose proof (of_be_bytes_bound _ Hb); lia).
  listed_cases; lia.
Qed.

Lemma packs_many_nonneg k b n e : packs_many k b n e → 0 <= e.
Proof.
  revert k b n e. apply (packs_many_ind' (λ _ _ e, 0 <= e) (λ _ _ _ e, 0 <= e)); try lia.
  intros h c e elements n cost Hh _ Hcost. apply header_inv in Hh. lia.
Qed.

Lemma packs_many_0 b n e : packs_many 0 b n e → b = [] ∧ n = 0%nat ∧ e = 0.
Proof. by inversion 1. Qed.

Lemma packs_many_S k b n e :
  packs_many (S k) b n e → ∃ h c e1 elements n1 cost bs n' e',
    header h c e1 ∧ packs_many (Z.to_nat c) elements n1 cost ∧ packs_many k bs n' e' ∧
    b = h ++ elements ++ bs ∧ n = Nat.max (if c =? 0 then 0 else S n1) n' ∧ e = e1 + cost + e'.
Proof.
  inversion 1 as [|? ? bs ? n' ? e' Hp Hmore]; subst. destruct Hp as [h c e1 elements n1 cost Hh Hel].
  exists h, c, e1, elements, n1, cost, bs, n', e'. by rewrite app_assoc.
Qed.

Lemma packs_many_cons h c e1 elements n1 cost k bs n' e' :
  header h c e1 → packs_many (Z.to_nat c) elements n1 cost → packs_many k bs n' e' →
  packs_many (S k) (h ++ elements ++ bs) (Nat.max (if c =? 0 then 0 else S n1) n') (e1 + cost + e').
Proof. intros Hh Hel Hmore. rewrite app_assoc. by apply packs_more; [apply packs_value|]. Qed.

(** The bytes that the open levels, from the innermost, still expect. *)
Inductive pending : list Z → list Z → Z → Prop :=
| pending_nil : pending [] [] 0
| pending_cons k st b bs n e e' :
    0 <= k → packs_many (Z.to_nat k) b n e → len (k :: st) + Z.of_nat n <= MAX_MESSAGEPACK_NESTING →
    pending st bs e' → pending (k :: st) (b ++ bs) (e + e').

Lemma pending_nonneg st b e : pending st b e → 0 <= e.
Proof. induction 1; [done|]. rename select (packs_many _ _ _ _) into Hp. apply packs_many_nonneg in Hp. lia. Qed.

(** A value whose header opens [c] elements is the top of the stack after the marker. *)
Lemma pending_value m t c e top outer b e' :
  0 < top → header (m :: t) c e → len (top :: outer) <= MAX_MESSAGEPACK_NESTING →
  pending (if c =? 0 then top - 1 :: outer else c :: top - 1 :: outer) b e' →
  pending (top :: outer) ((m :: t) ++ b) (e + e').
Proof.
  intros Htop Hh Hlen. destruct (c =? 0) eqn:Hc; bool_to_prop.
  - subst c. inversion 1 as [|? ? b1 bs n1 e1 e2 _ Hmany Hd Hpend]; subst.
    rewrite app_assoc, Z.add_assoc. apply (pending_cons _ _ _ _ (Nat.max 0 n1)); [lia| |unfold len in *; simpl in *; lia|done].
    replace (Z.to_nat top) with (S (Z.to_nat (top - 1))) by lia. replace (e + e1) with (e + 0 + e1) by lia.
    by apply (packs_many_cons (m :: t) 0 e [] 0 0); [|constructor|].
  - inversion 1 as [|? ? b0 bs0 n0 e0 e0' _ Hel Hd0 Hpend0]; subst.
    inversion Hpend0 as [|? ? b1 bs n1 e1 e2 _ Hmany Hd Hpend]; subst.
    replace ((m :: t) ++ b0 ++ b1 ++ bs) with (((m :: t) ++ b0 ++ b1) ++ bs) by (by rewrite <- !app_assoc).
    replace (e + (e0 + (e1 + e2))) with (e + e0 + e1 + e2) by lia.
    apply (pending_cons _ _ _ _ (Nat.max (S n0) n1)); [lia| |unfold len in *; simpl in *; lia|done].
    replace (Z.to_nat top) with (S (Z.to_nat (top - 1))) by lia.
    pose proof (packs_many_cons _ _ _ _ _ _ _ _ _ _ Hh Hel Hmany) as Hp. by rewrite (proj2 (Z.eqb_neq _ _)) in Hp.
Qed.

Lemma pending_value_inv top outer b e :
  0 < top → pending (top :: outer) b e →
  ∃ m t c e1 b' e', header (m :: t) c e1 ∧ b = (m :: t) ++ b' ∧ e = e1 + e' ∧
    (c ≠ 0 → len (top - 1 :: outer) < MAX_MESSAGEPACK_NESTING) ∧
    pending (if c =? 0 then top - 1 :: outer else c :: top - 1 :: outer) b' e'.
Proof.
  intros Htop. inversion 1 as [|? ? b1 bs n1 e1 e2 _ Hmany Hd Hpend]; subst.
  replace (Z.to_nat top) with (S (Z.to_nat (top - 1))) in Hmany by lia.
  apply packs_many_S in Hmany as (h & c & eh & elements & n0 & cost & bs' & n' & e' & Hh & Hel & Hmore & -> & -> & ->).
  pose proof (header_inv _ _ _ Hh) as (Hc & _ & m & t & ->).
  exists m, t, c, eh, (elements ++ bs' ++ bs), (cost + (e' + e2)). rewrite <- !app_assoc.
  split_and!; [done|done|lia|..]; destruct (c =? 0) eqn:Hc0; bool_to_prop; try done.
  - intros _. unfold len in *. simpl in *. lia.
  - subst c. apply packs_many_0 in Hel as (-> & -> & ->). rewrite Z.add_0_l, app_nil_l.
    apply (pending_cons _ _ _ _ n'); [lia|done|unfold len in *; simpl in *; lia|done].
  - apply (pending_cons _ _ _ _ n0); [done|done|unfold len in *; simpl in *; lia|].
    apply (pending_cons _ _ _ _ n'); [lia|done|unfold len in *; simpl in *; lia|done].
Qed.

Definition open_levels (w : Walk) : Prop := Forall (λ k, 0 <= k) (remaining_values w).

(** Turns left: each reads a byte, which may open a level, or leaves one. *)
Definition turns (w : Walk) : nat := (2 * length (rest (cursor w)) + length (remaining_values w))%nat.

Lemma walk_ok_top w c k k' st :
  walk_ok w → remaining_values w = k :: st → cursor_ok c → walk_ok (mkWalk c (k' :: st) (estimate w)).
Proof. intros (_ & He & Hr) Hst Hc. rewrite Hst in Hr. by split; [|split]. Qed.

Lemma walk_pop w k st :
  walk_ok w → open_levels w → remaining_values w = k :: st →
  walk_ok (mkWalk (cursor w) st (estimate w)) ∧ open_levels (mkWalk (cursor w) st (estimate w)).
Proof.
  intros (Hc & He & Hr) Hopen Hst. unfold open_levels in *. rewrite Hst in *. split; [|by apply Forall_cons_iff in Hopen as [_ ?]].
  split; [done|]. split; [done|]. unfold len in *. simpl in *. lia.
Qed.

(** The turn that reads a value. *)
Lemma value_turn_ok top outer w w' :
  top ≠ 0 → remaining_values w = top :: outer → walk_ok w → open_levels w → walk_turn top outer w = Ok w' →
  0 < top ∧ ∃ m t c e, header (m :: t) c e ∧ walk_ok w' ∧ open_levels w' ∧
    rest (cursor w) = (m :: t) ++ rest (cursor w') ∧ estimate w' = estimate w + e ∧
    remaining_values w' = if c =? 0 then top - 1 :: outer else c :: top - 1 :: outer.
Proof.
  intros Htop Hst Hw Hopen. pose proof (walk_ok_top w) as Hw'. specialize (λ c, Hw' c top (top - 1) outer Hw Hst).
  destruct Hw as (Hc & _). unfold open_levels in *. rewrite Hst in *.
  apply Forall_cons_iff in Hopen as [Hk Hopen]. unfold walk_turn. rewrite (proj2 (Z.eqb_neq _ _)) by done.
  intros ([m c1] & Hread & Hm)%result_bind_Ok. simpl in Hread, Hm.
  apply read_u8_ok in Hread as (Hc1 & Hrest & Hbyte); [|done].
  apply marker_ok in Hm as (t & c & e & Hh & Hw1 & Hr' & He' & Hs'); [|done|by apply Hw']. simpl in *.
  split; [lia|]. exists m, t, c, e. pose proof (header_inv _ _ _ Hh) as (Hc0 & _).
  split_and!; [done|done| |by rewrite Hrest, Hr'|done|done].
  rewrite Hs'. destruct (c =? 0); repeat (constructor; [lia|]); done.
Qed.

Lemma walk_sound fuel w w' :
  walk_ok w → open_levels w → walk fuel w = Some (Ok w') →
  walk_ok w' ∧ ∃ b e, pending (remaining_values w) b e ∧ rest (cursor w) = b ++ rest (cursor w') ∧
    estimate w' = estimate w + e.
Proof.
  revert w. induction fuel as [|fuel IH]; intros w Hw Hopen; simpl;
    (destruct (remaining_values w) as [|top outer] eqn:Hst; [intros [= <-]|try done]).
  1, 2: split; [done|]; exists [], 0; split; [constructor|]; split; [done|lia].
  destruct (walk_turn top outer w) as [w1|] eqn:Hturn; [|done]. intros Hwalk. pose proof Hw as (_ & _ & Hlen).
  rewrite Hst in Hlen. destruct (decide (top = 0)) as [->|Htop].
  - injection Hturn as <-. apply IH in Hwalk as (Hw' & b & e & Hp & Hr & He).
    + split; [done|]. exists b, e. split; [|done]. rewrite <- (Z.add_0_l e), <- (app_nil_l b).
      apply (pending_cons 0 outer [] b 0 0 e); [done|constructor|lia|done].
    + by apply (walk_pop w 0 outer).
    + by apply (walk_pop w 0 outer).
  - apply value_turn_ok in Hturn as (Hpos & m & t & c & e1 & Hh & Hw1 & Hopen1 & Hr1 & He1 & Hs1); [|done..].
    apply IH in Hwalk as (Hw' & b & e & Hp & Hr & He); [|done..]. split; [done|]. rewrite Hs1 in Hp.
    exists ((m :: t) ++ b), (e1 + e). split; [by eapply pending_value|]. split; [by rewrite Hr1, Hr, app_assoc|lia].
Qed.

Lemma walk_total fuel w : walk_ok w → open_levels w → (turns w <= fuel)%nat → walk fuel w ≠ None.
Proof.
  revert w. unfold turns. induction fuel as [|fuel IH]; intros w Hw Hopen Hfuel; simpl;
    (destruct (remaining_values w) as [|top outer] eqn:Hst; [done|]); simpl in Hfuel; [lia|].
  destruct (walk_turn top outer w) as [w1|] eqn:Hturn; [|done].
  destruct (decide (top = 0)) as [->|Htop].
  - injection Hturn as <-. pose proof Hw as (? & ? & Hlen). rewrite Hst in Hlen. apply IH.
    + by apply (walk_pop w 0 outer).
    + by apply (walk_pop w 0 outer).
    + simpl. lia.
  - apply value_turn_ok in Hturn as (_ & m & t & c & e1 & _ & Hw1 & Hopen1 & Hr1 & _ & Hs1); [|done..].
    apply IH; [done..|]. rewrite Hs1. rewrite Hr1, length_app in Hfuel. simpl in Hfuel.
    destruct (c =? 0); simpl; lia.
Qed.

Lemma walk_complete fuel w b r e :
  walk_ok w → open_levels w → pending (remaining_values w) b e → rest (cursor w) = b ++ r →
  estimate w + e <= MAX_IN_FLIGHT_MESSAGE_BYTES → (turns w <= fuel)%nat →
  ∃ w', walk fuel w = Some (Ok w') ∧ rest (cursor w') = r ∧ estimate w' = estimate w + e.
Proof.
  revert w b e. unfold turns. induction fuel as [|fuel IH]; intros w b e Hw Hopen Hp Hrest He Hfuel; simpl;
    (destruct (remaining_values w) as [|top outer] eqn:Hst; [inversion Hp; subst; exists w; split_and!; [done|done|lia]|]);
    simpl in Hfuel; [lia|].
  pose proof Hw as (Hc & Hest & Hlen). pose proof Hopen as Hopen'. unfold open_levels in Hopen'. rewrite Hst in *.
  apply Forall_cons_iff in Hopen' as [Hk Hopen']. destruct (decide (top = 0)) as [->|Htop].
  - inversion Hp as [|? ? b1 bs n e1 e2 _ Hmany Hd Hpend]; subst. apply packs_many_0 in Hmany as (-> & -> & ->).
    unfold walk_turn. simpl. rewrite Z.add_0_l in *. apply (IH (mkWalk (cursor w) outer (estimate w)) bs e2); simpl; try done.
    + by apply (walk_pop w 0 outer).
    + lia.
  - apply pending_value_inv in Hp as (m & t & c & e1 & b' & e' & Hh & -> & -> & Hroom & Hpend); [|lia].
    rewrite <- app_assoc in Hrest. destruct (read_u8_done _ _ _ Hc Hrest) as (c1 & Hread & Hc1 & Hr1).
    pose proof (pending_nonneg _ _ _ Hpend). pose proof (header_inv _ _ _ Hh) as (Hc0 & _ & _).
    destruct (marker_done m t c e1 (b' ++ r) (mkWalk c1 (top - 1 :: outer) (estimate w))) as (w1 & Hm & Hw1 & Hr2 & He1 & Hs1);
      [done|by eapply walk_ok_top|done|simpl; lia|done|]. simpl in *.
    assert (walk_turn top outer w = Ok w1) as ->.
    { unfold walk_turn, with_read. rewrite (proj2 (Z.eqb_neq _ _)) by done. simpl. rewrite Hread. simpl. exact Hm. }
    assert (rest (cursor w1) = b' ++ r) as Hr1' by (rewrite Hr1 in Hr2; by apply app_inv_head in Hr2).
    assert (length (rest (cursor w)) = S (length t + length (rest (cursor w1)))) as Hlr.
    { rewrite Hrest, Hr1'. simpl. by rewrite length_app. }
    destruct (IH w1 b' e') as (w' & -> & Hr' & He'); [done| |by rewrite Hs1|done|lia| |].
    + unfold open_levels. rewrite Hs1. destruct (c =? 0); repeat (constructor; [lia|]); done.
    + rewrite Hs1. destruct (c =? 0); simpl; lia.
    + exists w'. split_and!; [done|done|lia].
Qed.

Lemma walk_start bytes :
  Forall is_byte bytes → len bytes <= u64_max →
  let w := mkWalk (cursor_new bytes) [1] 0 in walk_ok w ∧ open_levels w ∧ rest (cursor w) = bytes ∧ (turns w <= 2 * length bytes + 2)%nat.
Proof.
  intros Hb Hlen w. assert (rest (cursor w) = bytes) as Hrest by (unfold rest; simpl; done).
  split; [|split; [|split; [done|]]].
  - split; [by split; simpl; [unfold len in *; lia|..]|done].
  - unfold open_levels. by constructor.
  - unfold turns. rewrite Hrest. simpl. lia.
Qed.

Lemma pending_one b e : pending [1] b e ↔ ∃ n, packs b n e ∧ Z.of_nat n < MAX_MESSAGEPACK_NESTING.
Proof.
  unfold MAX_MESSAGEPACK_NESTING. split.
  - inversion 1 as [|? ? b1 bs n e1 e2 _ Hmany Hd Hpend]; subst. inversion Hpend; subst.
    change (Z.to_nat 1) with 1%nat in Hmany. inversion Hmany as [|? b' bs' n' ? e' ? Hp Hnone]; subst.
    apply packs_many_0 in Hnone as (-> & -> & ->). rewrite !app_nil_r, !Z.add_0_r. exists n'.
    split; [done|]. unfold len, MAX_MESSAGEPACK_NESTING in Hd. simpl in Hd. lia.
  - intros (n & Hp & Hn). rewrite <- (app_nil_r b), <- (Z.add_0_r e).
    apply (pending_cons 1 [] b [] n); [done| |unfold len, MAX_MESSAGEPACK_NESTING; simpl; lia|constructor].
    change (Z.to_nat 1) with 1%nat. rewrite <- (app_nil_r b), <- (Z.add_0_r e), <- (Nat.max_0_r n).
    by apply packs_more; [|constructor].
Qed.

(** C10. The check that runs before a received body is decoded is exact. On any bytes it
    ends, and it accepts with an estimate exactly when the bytes are the encoding of one
    MessagePack value and nothing more, whose containers nest less than 64 deep, and the
    estimate is the decoded size of that value, within the limit on a message. *)
Theorem preflight_exact bytes est :
  Forall is_byte bytes → len bytes <= u64_max →
  preflight_messagepack_decode bytes ≠ None ∧
  (preflight_messagepack_decode bytes = Some (Ok est) ↔
    ∃ n, packs bytes n est ∧ Z.of_nat n < MAX_MESSAGEPACK_NESTING ∧ est <= MAX_IN_FLIGHT_MESSAGE_BYTES).
Proof.
  intros Hb Hlen. destruct (walk_start bytes Hb Hlen) as (Hw & Hopen & Hrest & Hturns).
  unfold preflight_messagepack_decode. set (w := mkWalk _ _ _) in *. split.
  { pose proof (walk_total _ _ Hw Hopen Hturns). by destruct (walk _ w). }
  split.
  - destruct (walk _ w) as [r|] eqn:Hwalk; [|done]. simpl. intros [= (w' & -> & Hfin)%result_bind_Ok].
    apply walk_sound in Hwalk as ((Hc' & He' & _) & b & e & Hp & Hr & He); [|done..].
    apply result_bind_Ok in Hfin as ([] & Hf & [= <-]). unfold ensure in Hf.
    destruct (is_finished (cursor w')) eqn:Hfinished; [|done]. apply rest_finished in Hfinished; [|done].
    rewrite Hrest, Hfinished, app_nil_r in Hr. subst b. apply pending_one in Hp as (n & Hp & Hn). simpl in He. exists n.
    rewrite He, Z.add_0_l in *. split_and!; [done|done|lia].
  - intros (n & Hp & Hn & Hest). assert (pending [1] bytes est) as Hpend by (apply pending_one; by exists n).
    destruct (walk_complete (2 * length bytes + 2) w bytes [] est) as (w' & Hwalk & Hr & He); [done|done|done|by rewrite app_nil_r|simpl; lia|done|].
    rewrite Hwalk. simpl. unfold ensure. pose proof (walk_sound _ _ _ Hw Hopen Hwalk) as ((Hc' & _) & _).
    rewrite (proj2 (rest_finished _ Hc') Hr). simpl. by rewrite He.
Qed.

(** The array of 1 and the string of one byte: 24 + 2 * 32 + 1 bytes. *)
Lemma preflight_exact_witness :
  ∃ n, packs [0x92; 1; 0xa1; 65] n 89 ∧ Z.of_nat n < MAX_MESSAGEPACK_NESTING ∧ 89 <= MAX_IN_FLIGHT_MESSAGE_BYTES.
Proof.
  refine (proj1 (proj2 (preflight_exact [0x92; 1; 0xa1; 65] 89 _ _)) _).
  - by repeat constructor.
  - by vm_compute.
  - vm_compute. reflexivity.
Defined.
