(* ===== verification/Replay.v ===== *)
(** * The replay cache of a receiving node

    A data request may be sent more than once.  The receiver keeps, per peer and message
    identity, the request that is being executed or the answer that was given
    ([ReplayCache] of [distributed/client.rs]), and [begin_replay_execution] of
    [distributed/server.rs] executes a request, waits for the execution under way, answers
    from the cache, or refuses.  Theorems: [ReplayOnce]. *)

From S2P Require Import Prelude.

(** Instants and durations are nanoseconds. *)
Definition seconds (n : Z) : Z := n * 10 ^ 9.

Definition MAX_INBOUND_REPLAY_ENTRIES : Z := 16384.
Definition INBOUND_REPLAY_TTL : Z := seconds 180.
Definition MAX_REPLAY_ERROR_BYTES : Z := 1024.

(** ** Answers *)

Inductive ClientError : Type :=
| Unexpected (message : list Z)
| Connection (message : list Z)
| NodeNotFound
| ModuleNotFound
| ProcessNotFound
| EnvironmentNotFound
| DeliveryBackpressure (message : list Z)
| DeliveryTooLarge (message : list Z)
| DeliveryRejected (message : list Z)
| ResponseTimeout.

Inductive ResponseContent : Type :=
| Spawned (id : Z)
| Sent
| Linked
| Error (error : ClientError).

(** [str::is_char_boundary] *)
Definition is_char_boundary (s : list Z) (end_ : Z) : bool :=
  existsb (fun n => name_len (take n s) =? end_) (seq 0 (S (length s))).

(** [while !message.is_char_boundary(end) { end -= 1; }] *)
Fixpoint boundary_below (s : list Z) (end_ : nat) : nat :=
  if is_char_boundary s (Z.of_nat end_) then end_
  else match end_ with O => O | S end_ => boundary_below s end_ end.

(** [String::truncate] *)
Fixpoint truncate_at (end_ : Z) (s : list Z) : list Z :=
  match s with
  | [] => []
  | c :: s => if len_utf8 c <=? end_ then c :: truncate_at (end_ - len_utf8 c) s else []
  end.

Definition truncate (message : list Z) : list Z :=
  if name_len message <=? MAX_REPLAY_ERROR_BYTES then message
  else truncate_at (Z.of_nat (boundary_below message (Z.to_nat MAX_REPLAY_ERROR_BYTES))) message.

Definition bounded_replay_response (response : ResponseContent) : ResponseContent :=
  match response with
  | Error (Unexpected message) => Error (Unexpected (truncate message))
  | Error (Connection message) => Error (Connection (truncate message))
  | Error (DeliveryBackpressure message) => Error (DeliveryBackpressure (truncate message))
  | Error (DeliveryTooLarge message) => Error (DeliveryTooLarge (truncate message))
  | Error (DeliveryRejected message) => Error (DeliveryRejected (truncate message))
  | other => other
  end.

(** ** The cache *)

Record ReplayKey : Type := mkReplayKey {
  peer_node_id : Z;
  replay_message_id : Z;
}.

#[export] Instance ReplayKey_eq_dec : EqDecision ReplayKey.
Proof. solve_decision. Defined.
#[export] Instance ReplayKey_countable : Countable ReplayKey.
Proof.
  refine (inj_countable' (fun k => (peer_node_id k, replay_message_id k)) (fun p => mkReplayKey p.1 p.2) _).
  by intros [].
Defined.

(** [fingerprint] is a SHA-256 digest; [completed] is the value of the watch channel. *)
Record ReplayEntry : Type := mkReplayEntry {
  fingerprint : list Z;
  completed : option (ResponseContent * Z);
}.

(** An [Arc<ReplayEntry>] is a number; [arcs] is what it points to. *)
Record ReplayCache : Type := mkReplayCache {
  arcs : gmap Z ReplayEntry;
  next_arc : Z;
  entries : gmap ReplayKey Z;
  completed_order : list (ReplayKey * Z);
  max_entries : Z;
  ttl : Z;
}.

Definition cache_new (max_entries ttl : Z) : ReplayCache := mkReplayCache ∅ 0 ∅ [] max_entries ttl.

Inductive ReplayDecision : Type :=
| Execute (arc : Z)
| Wait (arc : Z)
| Cached (response : ResponseContent)
| Conflict
| Saturated.

Definition completed_of (heap : gmap Z ReplayEntry) (arc : Z) : option (ResponseContent * Z) :=
  e ← heap !! arc; completed e.

(** [Weak::upgrade] succeeds while the map or somebody else ([referenced]) has the arc. *)
Definition upgrade (referenced : Z → bool) (es : gmap ReplayKey Z) (arc : Z) : bool :=
  existsb (Z.eqb arc) (map_to_list es).*2 || referenced arc.

(** [now.saturating_duration_since(completed_at) >= ttl] *)
Definition tombstone_expired (now ttl : Z) (c : option (ResponseContent * Z)) : bool :=
  match c with
  | Some (_, completed_at) => ttl <=? Z.max 0 (now - completed_at)
  | None => false
  end.

(** The loop that drops expired answers, oldest first. *)
Fixpoint evict (referenced : Z → bool) (heap : gmap Z ReplayEntry) (now ttl : Z)
    (order : list (ReplayKey * Z)) (es : gmap ReplayKey Z) : list (ReplayKey * Z) * gmap ReplayKey Z :=
  match order with
  | [] => ([], es)
  | (oldest, recorded) :: rest =>
      if negb (upgrade referenced es recorded) then evict referenced heap now ttl rest es
      else if negb (bool_decide (es !! oldest = Some recorded)) then evict referenced heap now ttl rest es
      else if tombstone_expired now ttl (completed_of heap recorded)
      then evict referenced heap now ttl rest (delete oldest es)
      else (order, es)
  end.

(** [send_if_modified] that sets the instant of an answer. *)
Definition touch (now : Z) (e : ReplayEntry) : ReplayEntry :=
  mkReplayEntry (fingerprint e) ((fun c => (c.1, now)) <$> completed e).

Definition begin_ (referenced : Z → bool) (now : Z) (key : ReplayKey) (fp : list Z) (c : ReplayCache)
    : ReplayDecision * ReplayCache :=
  let '(order, es) := evict referenced (arcs c) now (ttl c) (completed_order c) (entries c) in
  let keep d := (d, mkReplayCache (arcs c) (next_arc c) es order (max_entries c) (ttl c)) in
  match (arc ← es !! key; e ← arcs c !! arc; Some (arc, e)) with
  | Some (arc, e) =>
      if negb (bool_decide (fingerprint e = fp)) then keep Conflict
      else
        match completed e with
        | Some (response, _) =>
            let order := filter (fun r => r.1 ≠ key ∨ (upgrade referenced es r.2 = true ∧ r.2 ≠ arc)) order in
            (Cached response,
             mkReplayCache (<[arc := touch now e]> (arcs c)) (next_arc c) es (order ++ [(key, arc)])
                           (max_entries c) (ttl c))
        | None => keep (Wait arc)
        end
  | None =>
      if max_entries c <=? Z.of_nat (size es) then keep Saturated
      else
        (Execute (next_arc c),
         mkReplayCache (<[next_arc c := mkReplayEntry fp None]> (arcs c)) (next_arc c + 1)
                       (<[key := next_arc c]> es) order (max_entries c) (ttl c))
  end.

Definition finish (now : Z) (key : ReplayKey) (arc : Z) (response : ResponseContent) (c : ReplayCache) : ReplayCache :=
  if negb (bool_decide (entries c !! key = Some arc)) then c
  else
    match arcs c !! arc with
    | Some (mkReplayEntry fp None) =>
        mkReplayCache (<[arc := mkReplayEntry fp (Some (response, now))]> (arcs c)) (next_arc c) (entries c)
                      (completed_order c ++ [(key, arc)]) (max_entries c) (ttl c)
    | _ => c
    end.

(** ** The requests of a server *)

(** The task of a request: the fingerprint of the request, and what it has from the cache,
    a [ReplayExecutionGuard] or the [Arc<ReplayEntry>] it waits for. *)
Record Guard : Type := mkGuard {
  guard_key : ReplayKey;
  guard_fingerprint : list Z;
  guard_arc : Z;
}.

(** The tasks that execute a request, those that wait for the execution of another task,
    the answers handed to [send_response], and what was executed and how it ended. *)
Record Inbound : Type := mkInbound {
  time : Z;
  cache : ReplayCache;
  executing : list Guard;
  waiting : list Guard;
  answers : list (ReplayKey * list Z * ResponseContent);
  executed : list Guard;
  outcomes : list (Z * ResponseContent);
}.

Definition inbound_new (max_entries ttl : Z) : Inbound := mkInbound 0 (cache_new max_entries ttl) [] [] [] [] [].

Definition saturated_answer : ResponseContent :=
  Error (DeliveryBackpressure ((fun c => Z.of_N (Ascii.N_of_ascii c)) <$> String.list_ascii_of_string "Inbound replay cache is full")).

(** The arcs that guards and waiting duplicates hold. *)
Definition referenced (s : Inbound) (arc : Z) : bool :=
  existsb (fun g => guard_arc g =? arc) (executing s ++ waiting s).

Definition begin_replay_execution (now : Z) (key : ReplayKey) (fp : list Z) (s : Inbound) : Inbound :=
  let '(d, c) := begin_ (referenced s) now key fp (cache s) in
  match d with
  | Execute arc =>
      mkInbound (time s) c (executing s ++ [mkGuard key fp arc]) (waiting s) (answers s)
                (executed s ++ [mkGuard key fp arc]) (outcomes s)
  | Cached response =>
      mkInbound (time s) c (executing s) (waiting s) (answers s ++ [(key, fp, response)]) (executed s) (outcomes s)
  | Wait arc =>
      mkInbound (time s) c (executing s) (waiting s ++ [mkGuard key fp arc]) (answers s) (executed s) (outcomes s)
  | Conflict => mkInbound (time s) c (executing s) (waiting s) (answers s) (executed s) (outcomes s)
  | Saturated =>
      mkInbound (time s) c (executing s) (waiting s) (answers s ++ [(key, fp, saturated_answer)]) (executed s) (outcomes s)
  end.

(** [ReplayExecutionGuard::finish], then the answer is sent. *)
Definition guard_finish (i : nat) (response : ResponseContent) (s : Inbound) : option Inbound :=
  g ← executing s !! i;
  let response := bounded_replay_response response in
  Some (mkInbound (time s) (finish (time s) (guard_key g) (guard_arc g) response (cache s))
                  (delete i (executing s)) (waiting s) (answers s ++ [(guard_key g, guard_fingerprint g, response)])
                  (executed s) (outcomes s ++ [(guard_arc g, response)])).

(** [ReplayExecutionGuard::drop] of an execution that did not finish. *)
Definition guard_drop (i : nat) (s : Inbound) : option Inbound :=
  g ← executing s !! i;
  let response := Error ResponseTimeout in
  Some (mkInbound (time s) (finish (time s) (guard_key g) (guard_arc g) response (cache s))
                  (delete i (executing s)) (waiting s) (answers s) (executed s)
                  (outcomes s ++ [(guard_arc g, response)])).

(** [ReplayEntry::wait] returns when the entry has an answer. *)
Definition entry_wait (i : nat) (s : Inbound) : option Inbound :=
  g ← waiting s !! i;
  r ← completed_of (arcs (cache s)) (guard_arc g);
  Some (mkInbound (time s) (cache s) (executing s) (delete i (waiting s)) (answers s ++ [(guard_key g, guard_fingerprint g, r.1)])
                  (executed s) (outcomes s)).

(** A request is read at [now], before the lock of the cache is taken; executions
    finish, are cancelled or panic; waiting duplicates are answered or cancelled. *)
Inductive inbound_op : Type :=
| IBegin (now : Z) (key : ReplayKey) (fp : list Z)
| IFinish (i : nat) (response : ResponseContent)
| IAbandon (i : nat)
| IAnswer (i : nat)
| ICancel (i : nat)
| ITick (t : Z).

Definition inbound_exec (op : inbound_op) (s : Inbound) : option Inbound :=
  match op with
  | IBegin now key fp => if now <=? time s then Some (begin_replay_execution now key fp s) else None
  | IFinish i response => guard_finish i response s
  | IAbandon i => guard_drop i s
  | IAnswer i => entry_wait i s
  | ICancel i =>
      _ ← waiting s !! i;
      Some (mkInbound (time s) (cache s) (executing s) (delete i (waiting s)) (answers s) (executed s) (outcomes s))
  | ITick t =>
      if time s <=? t
      then Some (mkInbound t (cache s) (executing s) (waiting s) (answers s) (executed s) (outcomes s)) else None
  end.
