(* ===== verification/ReplayOnce.v ===== *)
(** * What the replay cache guarantees

    An answer is the outcome of an execution of that very request; the cache is bounded
    and everything in it is under way or will be dropped; and a request is executed at most
    once while its copies arrive within the lifetime of an answer. *)

From S2P Require Import Prelude Replay.

(** ** Answers are bounded *)

Lemma truncate_at_len end_ s : 0 <= end_ → name_len (truncate_at end_ s) <= end_.
Proof.
  revert end_. induction s as [|c s IH]; intros end_ Hend; [done|]. simpl.
  destruct (len_utf8 c <=? end_) eqn:Hc; [|done]. bool_to_prop. simpl. specialize (IH (end_ - len_utf8 c)). lia.
Qed.

Lemma boundary_below_le s n : (boundary_below s n <= n)%nat.
Proof. induction n as [|n IH]; cbn [boundary_below]; case_match; lia. Qed.

Lemma truncate_len s : name_len (truncate s) <= MAX_REPLAY_ERROR_BYTES.
Proof.
  unfold truncate. destruct (_ <=? _) eqn:Hle; bool_to_prop; [done|].
  pose proof (boundary_below_le s (Z.to_nat MAX_REPLAY_ERROR_BYTES)).
  etrans; [apply truncate_at_len; lia|]. unfold MAX_REPLAY_ERROR_BYTES in *. lia.
Qed.

(** The text of an answer. *)
Definition response_text (r : ResponseContent) : list Z :=
  match r with
  | Error (Unexpected m) | Error (Connection m) | Error (DeliveryBackpressure m) | Error (DeliveryTooLarge m)
  | Error (DeliveryRejected m) => m
  | _ => []
  end.

Lemma bounded_response_len r : name_len (response_text (bounded_replay_response r)) <= MAX_REPLAY_ERROR_BYTES.
Proof. destruct r as [| | |[]]; simpl; try done; apply truncate_len. Qed.

(** ** The eviction loop *)

Section evict.
Context (ref : Z → bool) (heap : gmap Z ReplayEntry) (now ttl : Z).

Lemma evict_sub order es order' es' : evict ref heap now ttl order es = (order', es') → es' ⊆ es.
Proof.
  revert es. induction order as [|[k a] order IH]; intros es; simpl; [by intros [= <- <-]|].
  destruct (negb _); [apply IH|]. destruct (negb _); [apply IH|]. destruct (tombstone_expired _ _ _); [|by intros [= <- <-]].
  intros He. etrans; [by apply IH|apply delete_subseteq].
Qed.

(** Only expired answers are dropped. *)
Lemma evict_dropped order es order' es' k a :
  evict ref heap now ttl order es = (order', es') → es !! k = Some a →
  es' !! k = Some a ∨ (es' !! k = None ∧ tombstone_expired now ttl (completed_of heap a) = true).
Proof.
  revert es. induction order as [|[k' a'] order IH]; intros es; simpl; [intros He; simplify_eq; auto|].
  destruct (negb _); [apply IH|]. destruct (negb (bool_decide _)) eqn:Hcur; [apply IH|].
  destruct (tombstone_expired now ttl (completed_of heap a')) eqn:Hexp; [|intros He; simplify_eq; auto]. bool_to_prop. intros He Hk.
  destruct (decide (k = k')) as [->|Hne]; [|apply (IH _ He); by rewrite lookup_delete_ne].
  right. rewrite Hcur in Hk. injection Hk as ->. split; [|done].
  destruct (es' !! k') as [x|] eqn:Hx; [|done]. pose proof (evict_sub _ _ _ _ He) as Hsub.
  pose proof (lookup_weaken _ _ _ _ Hx Hsub) as Hdel. by rewrite lookup_delete_eq in Hdel.
Qed.

(** What is kept stays in the order in which answers expire. *)
Lemma evict_order order es order' es' k a :
  evict ref heap now ttl order es = (order', es') → es' !! k = Some a → (k, a) ∈ order → (k, a) ∈ order'.
Proof.
  revert es. induction order as [|[k' a'] order IH]; intros es; simpl; [by intros [= <- <-]|].
  intros He Hk Hin. pose proof Hk as Hk0. apply elem_of_cons in Hin as [Heq|Hin].
  - injection Heq as <- <-.
    destruct (negb (upgrade _ _ _)) eqn:Hup.
    { apply evict_sub in He. apply (lookup_weaken _ _ _ _ Hk) in He. exfalso.
      apply negb_true_iff in Hup. unfold upgrade in Hup. apply orb_false_iff in Hup as [Hup _].
      assert (existsb (Z.eqb a) (map_to_list es).*2 = true); [|congruence].
      apply existsb_exists. exists a. split; [|by apply Z.eqb_refl]. apply list_elem_of_In, list_elem_of_fmap.
      exists (k, a). split; [done|]. by apply elem_of_map_to_list. }
    destruct (negb (bool_decide _)) eqn:Hcur.
    { bool_to_prop. apply evict_sub in He. by apply (lookup_weaken _ _ _ _ Hk) in He. }
    destruct (tombstone_expired _ _ _); [|injection He as <- <-; set_solver].
    apply evict_sub in He. apply (lookup_weaken _ _ _ _ Hk) in He. by rewrite lookup_delete_eq in He.
  - destruct (negb _); [by eapply IH|]. destruct (negb _); [by eapply IH|].
    destruct (tombstone_expired _ _ _); [by eapply IH|]. injection He as <- <-. set_solver.
Qed.
End evict.

(** ** The invariant *)

Lemma completed_of_Some heap a c : completed_of heap a = Some c ↔ ∃ fp, heap !! a = Some (mkReplayEntry fp (Some c)).
Proof.
  unfold completed_of. rewrite bind_Some. split; [intros ([fp c'] & ? & Hc)|intros (fp & ?)]; [|by eexists].
  simpl in Hc. subst. by exists fp.
Qed.

Record inbound_ok (s : Inbound) : Prop := {
  (** Every execution has an arc of its own, whose entry has the fingerprint. *)
  io_arcs a e : arcs (cache s) !! a = Some e → a < next_arc (cache s);
  io_executed g : g ∈ executed s → fingerprint <$> arcs (cache s) !! guard_arc g = Some (guard_fingerprint g);
  io_once : NoDup (guard_arc <$> executed s);
  (** An entry belongs to an execution. *)
  io_entries k a : entries (cache s) !! k = Some a → ∃ fp, mkGuard k fp a ∈ executed s;
  (** The tasks that execute are those of the entries without an answer. *)
  io_executing g : g ∈ executing s → g ∈ executed s ∧ entries (cache s) !! guard_key g = Some (guard_arc g) ∧
                   completed_of (arcs (cache s)) (guard_arc g) = None;
  io_executing_once : NoDup (guard_arc <$> executing s);
  io_under_way k a : entries (cache s) !! k = Some a → completed_of (arcs (cache s)) a = None →
                     ∃ fp, mkGuard k fp a ∈ executing s;
  io_waiting g : g ∈ waiting s → g ∈ executed s;
  (** Entries with an answer are queued to be dropped. *)
  io_order k a r : entries (cache s) !! k = Some a → completed_of (arcs (cache s)) a = Some r →
                   (k, a) ∈ completed_order (cache s);
  io_outcomes a r : (∃ t, completed_of (arcs (cache s)) a = Some (r, t)) ↔ (a, r) ∈ outcomes s;
  io_text a r : (a, r) ∈ outcomes s → name_len (response_text r) <= MAX_REPLAY_ERROR_BYTES;
  io_size : Z.of_nat (size (entries (cache s))) <= max_entries (cache s);
  io_answers k fp r : (k, fp, r) ∈ answers s →
    r = saturated_answer ∨ ∃ a, mkGuard k fp a ∈ executed s ∧ (a, r) ∈ outcomes s;
}.

Definition set_cache (c : ReplayCache) (s : Inbound) : Inbound :=
  mkInbound (time s) c (executing s) (waiting s) (answers s) (executed s) (outcomes s).

(** The cache after the eviction loop. *)
Definition evicted (now : Z) (s : Inbound) : ReplayCache :=
  let c := cache s in
  let '(order, es) := evict (referenced s) (arcs c) now (ttl c) (completed_order c) (entries c) in
  mkReplayCache (arcs c) (next_arc c) es order (max_entries c) (ttl c).

Lemma evicted_sub now s : entries (evicted now s) ⊆ entries (cache s).
Proof. unfold evicted. destruct (evict _ _ _ _ _ _) as [order es] eqn:He. by apply evict_sub in He. Qed.

Lemma evicted_arcs now s :
  arcs (evicted now s) = arcs (cache s) ∧ next_arc (evicted now s) = next_arc (cache s) ∧
  max_entries (evicted now s) = max_entries (cache s) ∧ ttl (evicted now s) = ttl (cache s).
Proof. unfold evicted. by destruct (evict _ _ _ _ _ _). Qed.

Lemma evicted_dropped now s k a :
  entries (cache s) !! k = Some a →
  entries (evicted now s) !! k = Some a ∨
  (entries (evicted now s) !! k = None ∧ tombstone_expired now (ttl (cache s)) (completed_of (arcs (cache s)) a) = true).
Proof. unfold evicted. destruct (evict _ _ _ _ _ _) as [order es] eqn:He. by apply (evict_dropped _ _ _ _ _ _ _ _ _ _ He). Qed.

Lemma evicted_ok now s : inbound_ok s → inbound_ok (set_cache (evicted now s) s).
Proof.
  intros []. pose proof (evicted_sub now s) as Hsub. destruct (evicted_arcs now s) as (Ha & Hn & Hm & Ht).
  assert (∀ k a, entries (evicted now s) !! k = Some a → entries (cache s) !! k = Some a) as Hin.
  { intros k a Hk. by apply (lookup_weaken _ _ _ _ Hk). }
  split; cbn [cache set_cache executing waiting answers executed outcomes]; rewrite ?Ha, ?Hn, ?Hm; try done.
  - intros k a Hk. by apply io_entries0, Hin.
  - intros g Hg. destruct (io_executing0 g Hg) as (? & Hk & Hnone). split; [done|]. split; [|done].
    destruct (evicted_dropped now s _ _ Hk) as [?|[_ Hexp]]; [done|]. by rewrite Hnone in Hexp.
  - intros k a Hk. by apply io_under_way0, Hin.
  - intros k a r Hk Hr. pose proof (io_order0 _ _ _ (Hin _ _ Hk) Hr) as Ho. unfold evicted in *.
    destruct (evict _ _ _ _ _ _) as [order es] eqn:He. by apply (evict_order _ _ _ _ _ _ _ _ _ _ He).
  - etrans; [|done]. apply inj_le, map_subseteq_size, Hsub.
Qed.

(** A request whose entry is there, and one whose entry is not. *)
Lemma begin_known now key fp s arc e :
  entries (evicted now s) !! key = Some arc → arcs (cache s) !! arc = Some e →
  begin_ (referenced s) now key fp (cache s) =
    if decide (fingerprint e = fp) then
      match completed e with
      | Some (response, _) =>
          (Cached response,
           let c := evicted now s in
           mkReplayCache (<[arc := touch now e]> (arcs c)) (next_arc c) (entries c)
             (filter (fun r => r.1 ≠ key ∨ (upgrade (referenced s) (entries c) r.2 = true ∧ r.2 ≠ arc)) (completed_order c)
              ++ [(key, arc)]) (max_entries c) (ttl c))
      | None => (Wait arc, evicted now s)
      end
    else (Conflict, evicted now s).
Proof.
  unfold begin_, evicted. destruct (evict _ _ _ _ _ _) as [order es]. simpl. intros -> Ha. simpl. rewrite Ha. simpl.
  destruct (decide _) as [Hfp|Hfp]; [rewrite bool_decide_eq_true_2 by done|rewrite bool_decide_eq_false_2 by done]; simpl; [|done].
  by destruct (completed e) as [[r t]|].
Qed.

Lemma begin_new now key fp s :
  entries (evicted now s) !! key = None →
  begin_ (referenced s) now key fp (cache s) =
    let c := evicted now s in
    if max_entries c <=? Z.of_nat (size (entries c)) then (Saturated, c)
    else (Execute (next_arc c),
          mkReplayCache (<[next_arc c := mkReplayEntry fp None]> (arcs c)) (next_arc c + 1)
                        (<[key := next_arc c]> (entries c)) (completed_order c) (max_entries c) (ttl c)).
Proof. unfold begin_, evicted. destruct (evict _ _ _ _ _ _) as [order es]. simpl. by intros ->. Qed.

Lemma completed_touch heap arc now e a :
  heap !! arc = Some e →
  completed_of (<[arc := touch now e]> heap) a =
    if decide (a = arc) then (fun c => (c.1, now)) <$> completed e else completed_of heap a.
Proof.
  intros He. unfold completed_of. destruct (decide (a = arc)) as [->|Hne].
  - by rewrite lookup_insert_eq.
  - by rewrite lookup_insert_ne.
Qed.

Lemma fingerprint_touch (heap : gmap Z ReplayEntry) arc now e a :
  heap !! arc = Some e → fingerprint <$> <[arc := touch now e]> heap !! a = fingerprint <$> heap !! a.
Proof.
  intros He. destruct (decide (a = arc)) as [->|Hne]; [by rewrite lookup_insert_eq, He|by rewrite lookup_insert_ne].
Qed.

(** The requests of an arc, by its entry. *)
Lemma entry_request s k a e : inbound_ok s → entries (cache s) !! k = Some a → arcs (cache s) !! a = Some e → mkGuard k (fingerprint e) a ∈ executed s.
Proof.
  intros [] Hk He. destruct (io_entries0 k a Hk) as [fp Hin]. pose proof (io_executed0 _ Hin) as Hfp. simpl in Hfp.
  rewrite He in Hfp. by injection Hfp as ->.
Qed.

Lemma entry_arc s k a : inbound_ok s → entries (cache s) !! k = Some a → is_Some (arcs (cache s) !! a).
Proof.
  intros [] Hk. destruct (io_entries0 k a Hk) as [fp Hin]. pose proof (io_executed0 _ Hin) as Hfp.
  simpl in Hfp. destruct (arcs (cache s) !! a); [done|discriminate].
Qed.

(** Answering from the cache. *)
Lemma cached_ok now s key arc e response t :
  inbound_ok s → entries (cache s) !! key = Some arc → arcs (cache s) !! arc = Some e →
  completed e = Some (response, t) →
  inbound_ok (mkInbound (time s)
    (mkReplayCache (<[arc := touch now e]> (arcs (cache s))) (next_arc (cache s)) (entries (cache s))
       (filter (fun r => r.1 ≠ key ∨ (upgrade (referenced s) (entries (cache s)) r.2 = true ∧ r.2 ≠ arc)) (completed_order (cache s))
        ++ [(key, arc)]) (max_entries (cache s)) (ttl (cache s)))
    (executing s) (waiting s) (answers s ++ [(key, fingerprint e, response)]) (executed s) (outcomes s)).
Proof.
  intros Hok Hk He Hr. pose proof (entry_request _ _ _ _ Hok Hk He) as Hreq. destruct Hok.
  assert (completed_of (arcs (cache s)) arc = Some (response, t)) as Hdone by (unfold completed_of; by rewrite He).
  split; cbn [cache time executing waiting answers executed outcomes arcs next_arc entries completed_order max_entries]; try done.
  - intros a e' [[<- <-]|[Hne Ha]]%lookup_insert_Some; eauto.
  - intros g Hg. rewrite fingerprint_touch by done. auto.
  - intros g Hg. destruct (io_executing0 g Hg) as (? & ? & Hnone). split; [done|]. split; [done|].
    rewrite completed_touch by done. destruct (decide _) as [Heq|]; [|done]. rewrite Heq in Hnone. congruence.
  - intros k a Hka Hnone. rewrite completed_touch in Hnone by done. destruct (decide (a = arc)) as [->|]; [by rewrite Hr in Hnone|].
    eauto.
  - intros k a r Hka Hr'. rewrite completed_touch in Hr' by done. apply elem_of_app.
    destruct (decide (a = arc)) as [->|Hne]; [|].
    + right. apply list_elem_of_singleton. destruct (io_entries0 _ _ Hka) as [fp Hin]. f_equal.
      enough (mkGuard k fp arc = mkGuard key (fingerprint e) arc) as [= -> ->] by done.
      by apply (NoDup_fmap_eq guard_arc (executed s)).
    + left. apply list_elem_of_filter. split; [|eauto]. simpl. right. split; [|done]. unfold upgrade. apply orb_true_iff. left.
      apply existsb_exists. exists a. split; [|apply Z.eqb_refl]. apply list_elem_of_In, list_elem_of_fmap.
      exists (k, a). split; [done|]. by apply elem_of_map_to_list.
  - intros a r. rewrite <- io_outcomes0, completed_touch by done. destruct (decide (a = arc)) as [->|]; [|done].
    rewrite Hr, Hdone. simpl. naive_solver.
  - intros k fp r. rewrite elem_of_app, list_elem_of_singleton. intros [?|[= -> -> ->]]; [auto|].
    right. exists arc. split; [done|]. apply io_outcomes0. by exists t.
Qed.

(** Executing a request that is new. *)
Lemma execute_ok s key fp :
  inbound_ok s → entries (cache s) !! key = None → Z.of_nat (size (entries (cache s))) < max_entries (cache s) →
  let g := mkGuard key fp (next_arc (cache s)) in
  inbound_ok (mkInbound (time s)
    (mkReplayCache (<[next_arc (cache s) := mkReplayEntry fp None]> (arcs (cache s))) (next_arc (cache s) + 1)
       (<[key := next_arc (cache s)]> (entries (cache s))) (completed_order (cache s)) (max_entries (cache s)) (ttl (cache s)))
    (executing s ++ [g]) (waiting s) (answers s) (executed s ++ [g]) (outcomes s)).
Proof.
  intros Hok Hnew Hroom g. set (n := next_arc (cache s)) in *.
  assert (arcs (cache s) !! n = None) as Hfresh.
  { destruct (arcs (cache s) !! n) eqn:Ha; [|done]. apply (io_arcs _ Hok) in Ha. unfold n in Ha. lia. }
  assert (∀ h, h ∈ executed s → guard_arc h ≠ n) as Hexec.
  { intros h Hh Heq. apply (io_executed _ Hok) in Hh. by rewrite Heq, Hfresh in Hh. }
  assert (∀ k, entries (cache s) !! k ≠ Some n) as Hent.
  { intros k Hk. destruct (entry_arc _ _ _ Hok Hk) as [? Ha]. congruence. }
  assert (∀ a, a ≠ n → completed_of (<[n := mkReplayEntry fp None]> (arcs (cache s))) a = completed_of (arcs (cache s)) a) as Hcomp.
  { intros a Ha. unfold completed_of. by rewrite lookup_insert_ne. }
  assert (completed_of (<[n := mkReplayEntry fp None]> (arcs (cache s))) n = None) as Hnone.
  { unfold completed_of. by rewrite lookup_insert_eq. }
  destruct Hok. split; cbn [cache time executing waiting answers executed outcomes arcs next_arc entries completed_order max_entries].
  - intros a e [[<- _]|[Hne Ha]]%lookup_insert_Some; [lia|]. apply io_arcs0 in Ha. unfold n. lia.
  - intros h [Hh|Hh%list_elem_of_singleton]%elem_of_app; [|subst h; by rewrite lookup_insert_eq].
    rewrite lookup_insert_ne by (by apply not_eq_sym, Hexec). auto.
  - rewrite fmap_app. apply NoDup_app. split; [done|]. split; [|by apply NoDup_singleton].
    intros a (h & -> & Hh)%list_elem_of_fmap Ha%list_elem_of_singleton. by apply (Hexec h).
  - intros k a [[<- <-]|[Hne Ha]]%lookup_insert_Some; [exists fp; set_solver|].
    destruct (io_entries0 k a Ha) as [fp' ?]. exists fp'. set_solver.
  - intros h [Hh|Hh%list_elem_of_singleton]%elem_of_app; [|subst h; split; [set_solver|]; by rewrite lookup_insert_eq].
    destruct (io_executing0 h Hh) as (He & Hk & Hn). split; [set_solver|]. rewrite Hcomp by (by apply Hexec). split; [|done].
    rewrite lookup_insert_ne; [done|]. intros Heq. by rewrite Heq, Hk in Hnew.
  - rewrite fmap_app. apply NoDup_app. split; [done|]. split; [|by apply NoDup_singleton].
    intros a (h & -> & Hh)%list_elem_of_fmap Ha%list_elem_of_singleton. by apply (Hexec h), Ha; apply io_executing0.
  - intros k a [[<- <-]|[Hne Ha]]%lookup_insert_Some; [exists fp; set_solver|].
    assert (a ≠ n) as Han by (intros ->; by apply (Hent k)). rewrite Hcomp by done. intros Hn.
    destruct (io_under_way0 k a Ha Hn) as [fp' ?]. exists fp'. set_solver.
  - intros h Hh. apply elem_of_app. auto.
  - intros k a r [[<- <-]|[Hne Ha]]%lookup_insert_Some; [by rewrite Hnone|].
    assert (a ≠ n) as Han by (intros ->; by apply (Hent k)). rewrite Hcomp by done. eauto.
  - intros a r. rewrite <- io_outcomes0. destruct (decide (a = n)) as [->|Ha]; [|by rewrite Hcomp].
    rewrite Hnone. unfold completed_of. rewrite Hfresh. simpl. naive_solver.
  - done.
  - rewrite map_size_insert_None by done. lia.
  - intros k fp' r Hin. destruct (io_answers0 k fp' r Hin) as [?|(a & ? & ?)]; [auto|]. right. exists a. set_solver.
Qed.

Lemma elem_of_delete_list {A} (l : list A) i x : x ∈ delete i l → x ∈ l.
Proof. rewrite !list_elem_of_lookup. intros [j Hj]. rewrite list_lookup_delete in Hj. case_decide; eauto. Qed.

(** Removing the one element with its image. *)
Lemma delete_NoDup_fmap {A B} (f : A → B) l i x :
  NoDup (f <$> l) → l !! i = Some x → NoDup (f <$> delete i l) ∧ ∀ y, y ∈ delete i l ↔ y ∈ l ∧ f y ≠ f x.
Proof.
  intros Hnd Hi. pose proof (take_drop_middle l i x Hi) as Hl. rewrite delete_take_drop.
  set (l1 := take i l) in *. set (l2 := drop (S i) l) in *. clearbody l1 l2. subst l.
  rewrite !fmap_app, fmap_cons in Hnd. rewrite fmap_app.
  apply NoDup_app in Hnd as (H1 & H12 & [Hx H2]%list.NoDup_cons).
  split; [apply NoDup_app; split; [done|split; [|done]]; intros z Hz; specialize (H12 z Hz); set_solver|].
  intros y. rewrite !elem_of_app, elem_of_cons. split.
  - intros [Hy|Hy]; (split; [auto|]); intros Heq.
    + apply (H12 (f y)); [by apply list_elem_of_fmap_2|]. rewrite Heq. set_solver.
    + apply Hx. rewrite <- Heq. by apply list_elem_of_fmap_2.
  - naive_solver.
Qed.

(** The end of an execution, with or without an answer. *)
Lemma finish_ok s i g response extra :
  inbound_ok s → executing s !! i = Some g → name_len (response_text response) <= MAX_REPLAY_ERROR_BYTES →
  extra = [] ∨ extra = [(guard_key g, guard_fingerprint g, response)] →
  inbound_ok (mkInbound (time s) (finish (time s) (guard_key g) (guard_arc g) response (cache s))
    (delete i (executing s)) (waiting s) (answers s ++ extra) (executed s) (outcomes s ++ [(guard_arc g, response)])).
Proof.
  intros Hok Hi Htext Hextra. assert (g ∈ executing s) as Hg by (by apply list_elem_of_lookup; eauto).
  destruct (io_executing _ Hok g Hg) as (Hexec & Hk & Hnone). destruct (entry_arc _ _ _ Hok Hk) as [[fp c] He].
  assert (c = None) as -> by (unfold completed_of in Hnone; by rewrite He in Hnone).
  destruct (delete_NoDup_fmap _ _ _ _ (io_executing_once _ Hok) Hi) as [Hnd Hothers].
  unfold finish. rewrite bool_decide_eq_true_2, He by done. simpl.
  set (heap := <[_ := _]> (arcs (cache s))).
  assert (∀ a, completed_of heap a = if decide (a = guard_arc g) then Some (response, time s) else completed_of (arcs (cache s)) a) as Hcomp.
  { intros a. unfold completed_of, heap. destruct (decide _) as [->|]; [by rewrite lookup_insert_eq|by rewrite lookup_insert_ne]. }
  destruct Hok. split; cbn [cache time executing waiting answers executed outcomes arcs next_arc entries completed_order max_entries]; try done.
  - intros a e [[<- _]|[Hne Ha]]%lookup_insert_Some; eauto.
  - intros h Hh. unfold heap. destruct (decide (guard_arc h = guard_arc g)) as [Heq|].
    + rewrite Heq, lookup_insert_eq. rewrite <- (io_executed0 h Hh), Heq, He. done.
    + rewrite lookup_insert_ne by done. auto.
  - intros h [Hh Hne]%Hothers. destruct (io_executing0 h Hh) as (? & ? & ?). split; [done|]. split; [done|].
    by rewrite Hcomp, decide_False.
  - intros k a Hka. rewrite Hcomp. destruct (decide _) as [->|Hne]; [done|]. intros Hn.
    destruct (io_under_way0 k a Hka Hn) as [fp' ?]. exists fp'. by apply Hothers.
  - intros k a r Hka. rewrite Hcomp, elem_of_app, list_elem_of_singleton. destruct (decide _) as [->|Hne]; [|intros; left; eauto].
    intros _. right. f_equal. destruct (io_entries0 _ _ Hka) as [fp' Hin].
    by pose proof (NoDup_fmap_eq guard_arc _ _ _ io_once0 Hin Hexec eq_refl) as <-.
  - intros a r. rewrite Hcomp, elem_of_app, list_elem_of_singleton. destruct (decide _) as [->|Hne].
    + rewrite <- io_outcomes0, Hnone. split; [intros [t [= -> <-]]; auto|]. intros [[t [=]]|[= ->]]. by eexists.
    + rewrite io_outcomes0. naive_solver.
  - intros a r [?|[= -> ->]%list_elem_of_singleton]%elem_of_app; eauto.
  - intros k fp' r [Hin|Hin]%elem_of_app.
    + destruct (io_answers0 k fp' r Hin) as [?|(a & ? & ?)]; [auto|]. right. exists a. set_solver.
    + destruct Hextra as [->| ->]; [by apply not_elem_of_nil in Hin|]. apply list_elem_of_singleton in Hin. injection Hin as -> -> ->.
      right. exists (guard_arc g). split; [by destruct g|]. set_solver.
Qed.

Lemma begin_ok now key fp s : inbound_ok s → inbound_ok (begin_replay_execution now key fp s).
Proof.
  intros Hok. pose proof (evicted_ok now s Hok) as Hok'. destruct (evicted_arcs now s) as (Ha & Hn & Hm & Ht).
  unfold begin_replay_execution. destruct (entries (evicted now s) !! key) as [arc|] eqn:Hk.
  - destruct (entry_arc _ _ _ Hok' Hk) as [e He]. simpl in He. rewrite (begin_known now key fp s arc e) by (by rewrite <- ?Ha).
    destruct (decide (fingerprint e = fp)) as [<-|]; [|exact Hok'].
    destruct (completed e) as [[r t]|] eqn:Hc.
    + exact (cached_ok now _ _ _ _ _ _ Hok' Hk He Hc).
    + pose proof (entry_request _ _ _ _ Hok' Hk He) as Hreq. destruct Hok'. split; try done.
      intros h [Hh|Hh%list_elem_of_singleton]%elem_of_app; [auto|by subst h].
  - rewrite begin_new by done. cbv zeta. destruct (_ <=? _) eqn:Hfull; bool_to_prop.
    + destruct Hok'. split; try done. intros k fp' r [Hin|Hin%list_elem_of_singleton]%elem_of_app; [auto|]. left. congruence.
    + exact (execute_ok _ key fp Hok' Hk Hfull).
Qed.

Lemma inbound_exec_ok op s s' : inbound_ok s → inbound_exec op s = Some s' → inbound_ok s'.
Proof.
  intros Hok. destruct op as [now key fp|i r|i|i|i|t]; simpl.
  - destruct (now <=? time s); [|done]. intros [= <-]. by apply begin_ok.
  - unfold guard_finish. intros (g & Hg & [= <-])%bind_Some. eapply finish_ok; eauto using bounded_response_len.
  - unfold guard_drop. intros (g & Hg & [= <-])%bind_Some.
    pose proof (finish_ok s i g (Error ResponseTimeout) [] Hok Hg ltac:(done) (or_introl eq_refl)) as Hf. by rewrite app_nil_r in Hf.
  - unfold entry_wait. intros (g & Hg & ([r t] & Hr & [= <-])%bind_Some)%bind_Some. destruct Hok.
    assert (g ∈ executed s) as Hexec by (apply io_waiting0, list_elem_of_lookup; eauto). split; try done.
    + intros h Hh%elem_of_delete_list. auto.
    + intros k fp r' [Hin|Hin%list_elem_of_singleton]%elem_of_app; [auto|]. injection Hin as -> -> ->.
      right. exists (guard_arc g). split; [by destruct g|]. apply io_outcomes0. by exists t.
  - intros (g & Hg & [= <-])%bind_Some. destruct Hok. split; try done. intros h Hh%elem_of_delete_list. auto.
  - destruct (time s <=? t); [|done]. intros [= <-]. by destruct Hok.
Qed.

(** ** At most one execution *)

(** The executions of a request. *)
Definition executions (k : ReplayKey) (s : Inbound) : list Guard := filter (fun g => guard_key g = k) (executed s).

(** While less than the lifetime of an answer has passed since [t0], the execution of the
    request is in the cache, and its answer, if it has one, is not older than [t0]. *)
Definition tombstone (k : ReplayKey) (t0 : Z) (s : Inbound) (g : Guard) : Prop :=
  t0 <= time s ∧
  (time s < t0 + ttl (cache s) →
   entries (cache s) !! k = Some (guard_arc g) ∧
   ∀ r t, completed_of (arcs (cache s)) (guard_arc g) = Some (r, t) → t0 <= t).

Record once (k : ReplayKey) (t0 : Z) (s : Inbound) : Prop := {
  once_length : (length (executions k s) <= 1)%nat;
  once_held g : g ∈ executions k s → tombstone k t0 s g;
}.

Lemma tombstone_evicted k t0 now s g :
  0 < ttl (cache s) → now <= time s → tombstone k t0 s g → tombstone k t0 (set_cache (evicted now s) s) g.
Proof.
  intros Httl Hnow [Ht0 Hheld]. destruct (evicted_arcs now s) as (Ha & _ & _ & Ht).
  split; [done|]. cbn [cache set_cache time]. rewrite Ha, Ht. intros Hlt. destruct (Hheld Hlt) as [Hk Hc].
  split; [|done]. destruct (evicted_dropped now s _ _ Hk) as [?|[_ Hexp]]; [done|].
  destruct (completed_of (arcs (cache s)) (guard_arc g)) as [[r t]|] eqn:Hd; [|done]. specialize (Hc r t eq_refl).
  simpl in Hexp. bool_to_prop. lia.
Qed.

(** The decisions of [begin] on a cache that holds the execution. *)
Lemma begin_held now key fp k t0 s g :
  inbound_ok s → 0 < ttl (cache s) → now <= time s → g ∈ executions k s → tombstone k t0 s g →
  (key = k → t0 <= now) → tombstone k t0 (begin_replay_execution now key fp s) g.
Proof.
  intros Hok Httl Hnow Hg Htomb Hwithin. pose proof (evicted_ok now s Hok) as Hok'.
  pose proof (tombstone_evicted _ _ _ _ _ Httl Hnow Htomb) as Htomb'. destruct (evicted_arcs now s) as (Ha & Hn & Hm & Ht).
  apply list_elem_of_filter in Hg as [<- Hg].
  unfold begin_replay_execution. destruct (entries (evicted now s) !! key) as [arc|] eqn:Hk.
  - destruct (entry_arc _ _ _ Hok' Hk) as [e He]. simpl in He. rewrite (begin_known now key fp s arc e) by (by rewrite <- ?Ha).
    destruct (decide (fingerprint e = fp)) as [<-|]; [|exact Htomb'].
    destruct (completed e) as [[r t]|] eqn:Hc; [|exact Htomb'].
    destruct Htomb' as [Ht0 Htomb']. split; [exact Ht0|]. cbn [cache time ttl entries arcs set_cache] in *. intros Hlt.
    destruct (Htomb' Hlt) as [Hent Hcomp]. split; [done|]. intros r' t'. rewrite completed_touch by done.
    destruct (decide _) as [Heq|]; [|apply Hcomp]. rewrite Hc. simpl. intros [= <- <-]. apply Hwithin.
    pose proof (entry_request _ _ _ _ Hok' Hk He) as Hreq. simpl in Hreq. rewrite <- Heq in Hreq.
    by rewrite <- (NoDup_fmap_eq guard_arc _ _ _ (io_once _ Hok) Hreq Hg eq_refl).
  - rewrite begin_new by done. cbv zeta. destruct (_ <=? _) eqn:Hfull; [exact Htomb'|].
    destruct Htomb' as [Ht0 Htomb']. split; [exact Ht0|]. cbn [cache time ttl entries arcs set_cache] in *. intros Hlt.
    destruct (Htomb' Hlt) as [Hent Hcomp]. split.
    + rewrite lookup_insert_ne; [done|]. intros ->. congruence.
    + intros r t. unfold completed_of. rewrite lookup_insert_ne; [apply Hcomp|].
      intros Heq. destruct (entry_arc _ _ _ Hok' Hent) as [x Hx]. apply (io_arcs _ Hok') in Hx. simpl in Hx. lia.
Qed.

Lemma begin_executed now key fp s :
  inbound_ok s →
  executed (begin_replay_execution now key fp s) = executed s ∨
  (entries (evicted now s) !! key = None ∧
   ∃ g, executed (begin_replay_execution now key fp s) = executed s ++ [g] ∧ guard_key g = key ∧
        entries (cache (begin_replay_execution now key fp s)) !! key = Some (guard_arc g) ∧
        completed_of (arcs (cache (begin_replay_execution now key fp s))) (guard_arc g) = None).
Proof.
  intros Hok. pose proof (evicted_ok now s Hok) as Hok'. destruct (evicted_arcs now s) as (Ha & _).
  unfold begin_replay_execution. destruct (entries (evicted now s) !! key) as [arc|] eqn:Hk.
  - left. destruct (entry_arc _ _ _ Hok' Hk) as [e He]. simpl in He.
    rewrite (begin_known now key fp s arc e) by (by rewrite <- ?Ha).
    destruct (decide _); [|done]. by destruct (completed e) as [[]|].
  - rewrite begin_new by done. cbv zeta. destruct (_ <=? _); [by left|]. right. split; [done|]. eexists. split; [done|].
    split; [done|]. simpl. rewrite lookup_insert_eq. split; [done|]. unfold completed_of. by rewrite lookup_insert_eq.
Qed.

(** A request read after [t0] whose cache is locked before the lifetime of an answer has
    passed. *)
Definition timely (k : ReplayKey) (t0 : Z) (s : Inbound) (op : inbound_op) : Prop :=
  match op with
  | IBegin now key _ => key = k → t0 <= now ∧ time s < t0 + ttl (cache s)
  | _ => True
  end.

Lemma finish_entries now key arc r c : entries (finish now key arc r c) = entries c ∧ ttl (finish now key arc r c) = ttl c.
Proof. unfold finish. destruct (negb _); [done|]. by destruct (arcs c !! arc) as [[? []]|]. Qed.

Lemma begin_frame now key fp s :
  time (begin_replay_execution now key fp s) = time s ∧ ttl (cache (begin_replay_execution now key fp s)) = ttl (cache s).
Proof.
  unfold begin_replay_execution, begin_. destruct (evict _ _ _ _ _ _) as [order es]. by case_all.
Qed.

Lemma finish_held k t0 s g h r :
  inbound_ok s → h ∈ executing s → g ∈ executions k s → tombstone k t0 s g →
  tombstone k t0 (set_cache (finish (time s) (guard_key h) (guard_arc h) r (cache s)) s) g.
Proof.
  intros Hok Hh Hg [Ht0 Hheld]. destruct (finish_entries (time s) (guard_key h) (guard_arc h) r (cache s)) as [He Httl].
  split; [done|]. cbn [cache set_cache time]. rewrite He, Httl. intros Hlt. destruct (Hheld Hlt) as [Hk Hc]. split; [done|].
  intros r' t'. destruct (io_executing _ Hok h Hh) as (_ & Hkh & Hnone). destruct (entry_arc _ _ _ Hok Hkh) as [[fp c] Hx].
  assert (c = None) as -> by (unfold completed_of in Hnone; by rewrite Hx in Hnone).
  unfold finish. rewrite bool_decide_eq_true_2, Hx by done. simpl. unfold completed_of.
  destruct (decide (guard_arc g = guard_arc h)) as [->|Hne].
  - rewrite lookup_insert_eq. simpl. intros [= <- <-]. done.
  - rewrite lookup_insert_ne by done. apply Hc.
Qed.

Lemma once_keep k t0 s s' :
  executed s' = executed s → (∀ g, g ∈ executions k s → tombstone k t0 s g → tombstone k t0 s' g) → once k t0 s → once k t0 s'.
Proof. unfold executions. intros He Hkeep [Hlen Hheld]. split; unfold executions; rewrite He; [done|]. intros g Hg. by apply Hkeep, Hheld. Qed.

Lemma once_step k t0 op s s' :
  inbound_ok s → 0 < ttl (cache s) → timely k t0 s op → inbound_exec op s = Some s' → once k t0 s → once k t0 s'.
Proof.
  intros Hok Httl Htimely Hexec Honce. destruct op as [now key fp|i r|i|i|i|t]; simpl in Htimely, Hexec.
  - destruct (now <=? time s) eqn:Hnow; [|done]. bool_to_prop. injection Hexec as <-.
    destruct (begin_frame now key fp s) as [Htime Hbttl].
    assert (∀ g, g ∈ executions k s → tombstone k t0 (begin_replay_execution now key fp s) g) as Hkeep.
    { intros g Hg. apply begin_held; try done; [by apply Honce|]. naive_solver. }
    destruct (begin_executed now key fp s Hok) as [Heq|(Hnone & g & Heq & Hkey & Hent & Hc)].
    { apply (once_keep _ _ s); auto. }
    destruct (decide (key = k)) as [->|Hne].
    + destruct (Htimely eq_refl) as [Ht0 Hlt]. destruct (executions k s) as [|h l] eqn:Hex.
      * split; unfold executions in *; rewrite Heq, filter_app, Hex; simpl; rewrite filter_cons_True by done; [done|].
        intros x Hx%list_elem_of_singleton. subst x. split; [lia|]. intros _. split; [done|]. congruence.
      * exfalso. assert (h ∈ h :: l) as Hh by set_solver. pose proof (once_held _ _ _ Honce h) as Hheld. rewrite Hex in Hheld.
        destruct (tombstone_evicted _ _ now _ _ Httl Hnow (Hheld Hh)) as [_ Hev]. simpl in Hev.
        destruct (evicted_arcs now s) as (_ & _ & _ & Hevt). rewrite Hevt in Hev. destruct (Hev Hlt) as [Hev' _]. congruence.
    + assert (executions k (begin_replay_execution now key fp s) = executions k s) as Hsame.
      { unfold executions. rewrite Heq, filter_app. rewrite filter_cons_False by (by rewrite Hkey). by rewrite app_nil_r. }
      split; rewrite Hsame; [apply Honce|done].
  - unfold guard_finish in Hexec. apply bind_Some in Hexec as (h & Hh & [= <-]). apply (once_keep _ _ s); try done.
    intros g Hg Ht. apply (finish_held k t0 s g h); try done. apply list_elem_of_lookup; eauto.
  - unfold guard_drop in Hexec. apply bind_Some in Hexec as (h & Hh & [= <-]). apply (once_keep _ _ s); try done.
    intros g Hg Ht. apply (finish_held k t0 s g h); try done. apply list_elem_of_lookup; eauto.
  - unfold entry_wait in Hexec. apply bind_Some in Hexec as (h & Hh & (c & _ & [= <-])%bind_Some). by apply (once_keep _ _ s).
  - apply bind_Some in Hexec as (h & Hh & [= <-]). by apply (once_keep _ _ s).
  - destruct (time s <=? t) eqn:Hle; [|done]. bool_to_prop. injection Hexec as <-. apply (once_keep _ _ s); try done.
    intros g _ [Ht0 Hheld]. split; simpl; [lia|]. intros. apply Hheld. lia.
Qed.

(** ** The theorems *)

(** Steps whose requests satisfy [P]. *)
Definition inbound_step (P : Inbound → inbound_op → Prop) (s s' : Inbound) : Prop :=
  ∃ op, P s op ∧ inbound_exec op s = Some s'.

Lemma inbound_frame op s s' :
  inbound_exec op s = Some s' → max_entries (cache s') = max_entries (cache s) ∧ ttl (cache s') = ttl (cache s).
Proof.
  assert (∀ now k a r c, max_entries (finish now k a r c) = max_entries c ∧ ttl (finish now k a r c) = ttl c) as Hfin.
  { intros now k a r c. unfold finish. destruct (negb _); [done|]. by destruct (arcs c !! a) as [[? []]|]. }
  destruct op; simpl; unfold guard_finish, guard_drop, entry_wait; intros Hexec.
  - destruct (_ <=? _); [|done]. injection Hexec as <-. unfold begin_replay_execution, begin_.
    destruct (evict _ _ _ _ _ _) as [order es]. by case_all.
  - apply bind_Some in Hexec as (g & _ & [= <-]). apply Hfin.
  - apply bind_Some in Hexec as (g & _ & [= <-]). apply Hfin.
  - by apply bind_Some in Hexec as (g & _ & (? & _ & [= <-])%bind_Some).
  - by apply bind_Some in Hexec as (g & _ & [= <-]).
  - destruct (_ <=? _); [|done]. by injection Hexec as <-.
Qed.

Lemma inbound_new_ok mx ttl : 0 <= mx → inbound_ok (inbound_new mx ttl).
Proof.
  intros Hmx. split; simpl; try done; try (by intros * ?%not_elem_of_nil); try (intros; by simplify_map_eq); [constructor..|].
  intros a r. split; [|by intros ?%not_elem_of_nil]. intros [t Ht]. by unfold completed_of in Ht.
Qed.

Lemma inbound_reachable P mx lifetime s :
  0 <= mx → rtc (inbound_step P) (inbound_new mx lifetime) s →
  inbound_ok s ∧ max_entries (cache s) = mx ∧ ttl (cache s) = lifetime.
Proof.
  intros Hmx. apply (rtc_invariant _ (fun s => inbound_ok s ∧ max_entries (cache s) = mx ∧ ttl (cache s) = lifetime));
    [|by split; [apply inbound_new_ok|]].
  intros a b (Hok & Hm & Ht) (op & _ & Hexec). split; [by eapply inbound_exec_ok|].
  destruct (inbound_frame _ _ _ Hexec). split; congruence.
Qed.

(** Requests are read, executed, duplicated, cancelled and answered in any order.
    Every answer to a request is the one outcome of an execution of a request with the same
    peer, identity and content, or says that the cache was full; what the cache keeps of an
    outcome is at most 1024 bytes of text; it has no more entries than its limit, and an
    entry is one that a task executes now or one whose answer is queued to be dropped. *)
Theorem replay_answers_faithful mx lifetime s :
  0 <= mx → rtc (inbound_step (fun _ _ => True)) (inbound_new mx lifetime) s →
  (∀ k fp r, (k, fp, r) ∈ answers s →
     r = saturated_answer ∨
     ∃ g, g ∈ executed s ∧ guard_key g = k ∧ guard_fingerprint g = fp ∧
          ∀ r', (guard_arc g, r') ∈ outcomes s ↔ r' = r) ∧
  (∀ a r, (a, r) ∈ outcomes s → name_len (response_text r) <= MAX_REPLAY_ERROR_BYTES) ∧
  Z.of_nat (size (entries (cache s))) <= mx ∧
  (∀ k a, entries (cache s) !! k = Some a →
     (∃ fp, mkGuard k fp a ∈ executing s) ∨ (k, a) ∈ completed_order (cache s)).
Proof.
  intros Hmx Hreach. destruct (inbound_reachable _ _ _ _ Hmx Hreach) as (Hok & <- & _). destruct Hok.
  split; [|split; [done|split; [done|]]].
  - intros k fp r Hin. destruct (io_answers0 k fp r Hin) as [?|(a & Ha & Hr)]; [auto|]. right.
    exists (mkGuard k fp a). split; [done|]. split; [done|]. split; [done|]. simpl. intros r'. split; [|by intros ->].
    rewrite <- io_outcomes0 in Hr |- *. destruct Hr as [t Ht]. intros [t' Ht']. congruence.
  - intros k a Hk. destruct (completed_of (arcs (cache s)) a) as [r|] eqn:Hc; [right|left]; eauto.
Qed.

(** A request is executed at most once, whatever the number and the order of its copies
    and of other requests, the cancellations and the evictions, when none of its copies is
    read before [t0] and none is looked up when the lifetime of an answer has passed since. *)
Theorem request_executed_at_most_once k t0 mx lifetime s :
  0 <= mx → 0 < lifetime → rtc (inbound_step (timely k t0)) (inbound_new mx lifetime) s →
  (length (executions k s) <= 1)%nat.
Proof.
  intros Hmx Hl Hreach.
  enough (once k t0 s ∧ inbound_ok s ∧ ttl (cache s) = lifetime) as [Honce _] by apply Honce.
  revert Hreach. apply (rtc_invariant _ (fun s => once k t0 s ∧ inbound_ok s ∧ ttl (cache s) = lifetime)).
  - intros a b (Honce & Hok & Ht) (op & Htimely & Hexec). split; [eapply once_step; eauto; lia|].
    split; [by eapply inbound_exec_ok|]. destruct (inbound_frame _ _ _ Hexec). congruence.
  - split; [|by split; [apply inbound_new_ok|]]. split; unfold executions; simpl; [lia|]. by intros g ?%not_elem_of_nil.
Qed.

(** *** A refusal leaves no trace *)
Module RefusalDemo.
Definition other : ReplayKey := mkReplayKey 7 1.
Definition request : ReplayKey := mkReplayKey 7 2.

Fixpoint run (ops : list inbound_op) (s : Inbound) : option Inbound :=
  match ops with
  | [] => Some s
  | op :: ops => s ← inbound_exec op s; run ops s
  end.

(** Another request fills the cache; a copy of the request is refused just before the
    answer of the other one expires, and another copy is executed just after. *)
Definition history : list inbound_op :=
  [IBegin 0 other [1]; IFinish 0 Sent; ITick (seconds 180 - 1); IBegin (seconds 180 - 1) request [2];
   ITick (seconds 180); IBegin (seconds 180) request [2]].
End RefusalDemo.

(** A lookup answers [Saturated] exactly when the request is not known and there is no room. *)
Lemma begin_saturated now key fp s :
  (∀ a, entries (evicted now s) !! key = Some a → is_Some (arcs (cache s) !! a)) →
  (begin_ (referenced s) now key fp (cache s)).1 = Saturated →
  entries (evicted now s) !! key = None ∧ max_entries (cache s) <= Z.of_nat (size (entries (evicted now s))).
Proof.
  intros Harc. destruct (evicted_arcs now s) as (_ & _ & Hm & _).
  destruct (entries (evicted now s) !! key) as [a|] eqn:Hk.
  - destruct (Harc a eq_refl) as [e He]. rewrite (begin_known _ _ _ _ _ _ Hk He). destruct (decide _); [by destruct (completed e) as [[]|]|done].
  - rewrite begin_new by done. cbv zeta. rewrite Hm. destruct (_ <=? _) eqn:Hle; bool_to_prop; [done|]. by intros [=].
Qed.

(** Steps that are no lookup of the request do not make the cache know it. *)
Lemma unknown_step key op s s' :
  (∀ now fp, op ≠ IBegin now key fp) → inbound_exec op s = Some s' → inbound_ok s →
  entries (cache s) !! key = None → entries (cache s') !! key = None.
Proof.
  intros Hop Hexec Hok Hnone. destruct op as [now k fp|i r|i|i|i|t]; simpl in Hexec; unfold guard_finish, guard_drop, entry_wait in Hexec.
  - destruct (_ <=? _); [|done]. injection Hexec as <-. assert (k ≠ key) as Hne by (intros ->; by eapply Hop).
    assert (entries (evicted now s) !! key = None) as Hev by (by eapply lookup_weaken_None, evicted_sub).
    unfold begin_replay_execution. destruct (entries (evicted now s) !! k) as [a|] eqn:Hk.
    + destruct (entry_arc s k a Hok) as [e He]; [by eapply lookup_weaken, evicted_sub|].
      rewrite (begin_known _ _ _ _ _ _ Hk He). destruct (decide _); [by destruct (completed e) as [[]|]|done].
    + rewrite begin_new by done. cbv zeta. destruct (_ <=? _); simpl; [done|]. by rewrite lookup_insert_ne.
  - apply bind_Some in Hexec as (g & _ & [= <-]). simpl. by rewrite (proj1 (finish_entries _ _ _ _ _)).
  - apply bind_Some in Hexec as (g & _ & [= <-]). simpl. by rewrite ?(proj1 (finish_entries _ _ _ _ _)).
  - by apply bind_Some in Hexec as (g & _ & (? & _ & [= <-])%bind_Some).
  - by apply bind_Some in Hexec as (g & _ & [= <-]).
  - destruct (_ <=? _); [|done]. by injection Hexec as <-.
Qed.

(** C27. A refusal is not remembered.  In every state of the cache, when the lookup of a
    request finds the cache full, its sender is answered that it was refused, nothing is
    executed and nothing is recorded of it; and whatever happens then that is no lookup of
    this request, a copy of it that is looked up when there is room is executed, although
    its sender was told that it was refused. *)
Theorem refusal_leaves_no_tombstone mx lifetime s now key fp s1 s2 now2 :
  0 <= mx → rtc (inbound_step (fun _ _ => True)) (inbound_new mx lifetime) s →
  (begin_ (referenced s) now key fp (cache s)).1 = Saturated →
  inbound_exec (IBegin now key fp) s = Some s1 →
  rtc (inbound_step (fun _ op => ∀ t f, op ≠ IBegin t key f)) s1 s2 →
  now2 <= time s2 → Z.of_nat (size (entries (evicted now2 s2))) < mx →
  (answers s1 = answers s ++ [(key, fp, saturated_answer)] ∧ executed s1 = executed s ∧ entries (cache s1) !! key = None) ∧
  ∃ s3, inbound_exec (IBegin now2 key fp) s2 = Some s3 ∧
        executed s3 = executed s2 ++ [mkGuard key fp (next_arc (cache s2))].
Proof.
  intros Hmx Hreach Hsat Hexec Hrun Hnow Hroom. destruct (inbound_reachable _ _ _ _ Hmx Hreach) as (Hok & Hm & Hl).
  destruct (begin_saturated now key fp s) as [Hunk Hfull]; [|done|].
  { intros a Ha. apply (entry_arc s key a Hok). by eapply lookup_weaken, evicted_sub. }
  assert (s1 = mkInbound (time s) (evicted now s) (executing s) (waiting s) (answers s ++ [(key, fp, saturated_answer)]) (executed s) (outcomes s)) as ->.
  { simpl in Hexec. destruct (_ <=? _); [|done]. injection Hexec as <-. unfold begin_replay_execution. rewrite begin_new by done.
    cbv zeta. rewrite (proj1 (proj2 (proj2 (evicted_arcs now s)))). destruct (_ <=? _) eqn:Hle; bool_to_prop; [done|lia]. }
  split; [done|].
  assert (inbound_ok s2 ∧ max_entries (cache s2) = mx ∧ entries (cache s2) !! key = None) as (Hok2 & Hm2 & Hunk2).
  { revert Hrun. apply (rtc_invariant _ (fun x => inbound_ok x ∧ max_entries (cache x) = mx ∧ entries (cache x) !! key = None)).
    - intros a b (Hoka & Hma & Hna) (op & Hop & Hab). split; [by eapply inbound_exec_ok|]. split; [|by eapply unknown_step].
      destruct (inbound_frame _ _ _ Hab). congruence.
    - split; [by eapply inbound_exec_ok|]. split; [|done]. simpl. by rewrite (proj1 (proj2 (proj2 (evicted_arcs now s)))). }
  eexists. simpl. destruct (_ <=? _) eqn:Hle; bool_to_prop; [|lia]. split; [done|]. unfold begin_replay_execution.
  destruct (evicted_arcs now2 s2) as (_ & Hn & Hmax & _).
  rewrite begin_new by (by eapply lookup_weaken_None, evicted_sub). cbv zeta. rewrite Hmax, Hm2, Hn.
  destruct (_ <=? _) eqn:Hle2; bool_to_prop; [lia|done].
Qed.

Lemma refusal_leaves_no_tombstone_witness :
  ∃ s3, RefusalDemo.run RefusalDemo.history (inbound_new 1 INBOUND_REPLAY_TTL) = Some s3 ∧
    (RefusalDemo.request, [2], saturated_answer) ∈ answers s3 ∧ executions RefusalDemo.request s3 = [mkGuard RefusalDemo.request [2] 1].
Proof.
  eassert (rtc (inbound_step (fun _ _ => True)) (inbound_new 1 INBOUND_REPLAY_TTL) _) as Hreach.
  { eapply rtc_l; [exists (IBegin 0 RefusalDemo.other [1]); split; [done|by vm_compute]|].
    eapply rtc_l; [exists (IFinish 0 Sent); split; [done|by vm_compute]|].
    eapply rtc_l; [exists (ITick (seconds 180 - 1)); split; [done|by vm_compute]|]. apply rtc_refl. }
  match type of Hreach with rtc _ _ ?s =>
    eassert (inbound_exec (IBegin (seconds 180 - 1) RefusalDemo.request [2]) s = Some _) as Hrefused by (by vm_compute) end.
  match type of Hrefused with _ = Some ?s1 =>
    eassert (rtc (inbound_step (fun _ op => ∀ t f, op ≠ IBegin t RefusalDemo.request f)) s1 _) as Hrun end.
  { eapply rtc_l; [exists (ITick (seconds 180)); split; [done|by vm_compute]|]. apply rtc_refl. }
  destruct (refusal_leaves_no_tombstone 1 INBOUND_REPLAY_TTL _ (seconds 180 - 1) RefusalDemo.request [2] _ _ (seconds 180)
              ltac:(lia) Hreach ltac:(by vm_compute) Hrefused Hrun ltac:(by vm_compute) ltac:(by vm_compute)) as (_ & s3 & Hexec & _).
  exists s3. vm_compute in Hexec. injection Hexec as <-. split; [by vm_compute|]. split; [|by vm_compute].
  apply list_elem_of_In. simpl. auto.
Defined.

Lemma replay_answers_faithful_witness :
  ∃ s, rtc (inbound_step (fun _ _ => True)) (inbound_new 4 INBOUND_REPLAY_TTL) s ∧
    answers s = [(RefusalDemo.request, [2], Sent)] ∧
    ∃ g, g ∈ executed s ∧ guard_key g = RefusalDemo.request ∧ guard_fingerprint g = [2] ∧
         ∀ r', (guard_arc g, r') ∈ outcomes s ↔ r' = Sent.
Proof.
  eassert (rtc (inbound_step (fun _ _ => True)) (inbound_new 4 INBOUND_REPLAY_TTL) _) as Hreach.
  { eapply rtc_l; [exists (IBegin 0 RefusalDemo.request [2]); split; [done|by vm_compute]|].
    eapply rtc_l; [exists (IFinish 0 Sent); split; [done|by vm_compute]|]. apply rtc_refl. }
  eexists. split; [exact Hreach|]. split; [reflexivity|].
  destruct (proj1 (replay_answers_faithful 4 INBOUND_REPLAY_TTL _ ltac:(lia) Hreach) RefusalDemo.request [2] Sent) as [H|H].
  - apply list_elem_of_In. simpl. auto.
  - discriminate H.
  - exact H.
Defined.

Lemma request_executed_at_most_once_witness :
  ∃ s, rtc (inbound_step (timely RefusalDemo.request 5)) (inbound_new 4 INBOUND_REPLAY_TTL) s ∧
    answers s = [(RefusalDemo.request, [2], Sent); (RefusalDemo.request, [2], Sent)] ∧
    (length (executions RefusalDemo.request s) <= 1)%nat.
Proof.
  eassert (rtc (inbound_step (timely RefusalDemo.request 5)) (inbound_new 4 INBOUND_REPLAY_TTL) _) as Hreach.
  { eapply rtc_l; [exists (ITick 5); split; [done|by vm_compute]|].
    eapply rtc_l; [exists (IBegin 5 RefusalDemo.request [2]); split; [done|by vm_compute]|].
    eapply rtc_l; [exists (IFinish 0 Sent); split; [done|by vm_compute]|].
    eapply rtc_l; [exists (IBegin 5 RefusalDemo.request [2]); split; [done|by vm_compute]|]. apply rtc_refl. }
  eexists. split; [exact Hreach|]. split; [reflexivity|].
  exact (request_executed_at_most_once RefusalDemo.request 5 4 INBOUND_REPLAY_TTL _ ltac:(lia) ltac:(by vm_compute) Hreach).
Defined.
