(* ===== verification/NodeQueue.v ===== *)
(** * The outbound queue of a node

    [NodeQueueSender] of [congestion/mod.rs]: a message to a remote node is admitted to the
    lane of its pair of processes under limits of messages and bytes of the lane and of
    the node, keeps its permits while it waits, is queued, sent and retried, and is handed
    to the lane's channel by the scheduler. *)

From S2P Require Import Prelude External.

(** ** Messages ([distributed/client.rs]) *)

Inductive OutboundClass : Type := Data | Control.

#[export] Instance OutboundClass_eq_dec : EqDecision OutboundClass.
Proof. solve_decision. Defined.

(** The replay deadline of an [ApplicationAckHandle]; the acknowledgement itself is in the
    registry, under the identity of the message. *)
Record ApplicationAckHandle : Type := mkAckHandle {
  ack_deadline : option Z;
}.

Record MessageCtx : Type := mkMessageCtx {
  msg_id : Z;
  msg_env : Z;
  msg_src : Z;
  msg_node : Z;
  msg_dest : Z;
  queue_generation : Z;
  msg_data : list Z;
  retained_bytes : Z;
  class : OutboundClass;
  application_ack : option ApplicationAckHandle;
}.

(** The permits of a lane and of its node, and the queue they belong to. *)
Record AdmissionPermits : Type := mkPermits {
  permit_stream : nat;
  permit_bytes : Z;
}.

Record AdmittedMessage : Type := mkAdmitted {
  permits : AdmissionPermits;
  owner : Z;
  message : MessageCtx;
}.

(** ** The queue *)

Definition STREAM_INGRESS_MESSAGES : Z := 64.

Inductive AdmissionResult : Type :=
| AdmissionAdmitted (a : AdmittedMessage)
| AdmissionFull (m : MessageCtx)
| AdmissionClosed (m : MessageCtx).

Inductive EnqueueResult : Type :=
| EnqueueSent
| EnqueueFull (a : AdmittedMessage)
| EnqueueClosed (a : AdmittedMessage).

Inductive RehomeResult : Type :=
| Ready (a : AdmittedMessage)
| RehomeFull (a : AdmittedMessage)
| RehomeClosed (a : AdmittedMessage).

Section node_queue.
Context {Sem : Type} `{!Semaphore Sem} {Chan : Type → Type} `{!Channel Chan}.

Record StreamIngressSender : Type := mkStreamIngress {
  sender : Chan AdmittedMessage;
  message_slots : Sem;
  byte_slots : Sem;
}.

(** [NodeQueueSenderInner] *)
Record NodeQueue : Type := mkNodeQueue {
  streams : list StreamIngressSender;
  node_message_slots : Sem;
  node_byte_slots : Sem;
}.

(** [None]: an assertion, an overflow, or more permits than a semaphore can have. *)
Definition with_limits (n stream_message_capacity stream_byte_capacity : Z) : option NodeQueue :=
  if (0 <? n) && (0 <? stream_message_capacity) && (0 <? stream_byte_capacity) then
    node_message_capacity ← checked_mul u64_max n stream_message_capacity;
    node_byte_capacity ← checked_mul u64_max n stream_byte_capacity;
    if (node_message_capacity <=? max_permits) && (node_byte_capacity <=? max_permits) then
      Some (mkNodeQueue
              (replicate (Z.to_nat n) (mkStreamIngress (channel stream_message_capacity)
                 (sem_new stream_message_capacity) (sem_new stream_byte_capacity)))
              (sem_new node_message_capacity) (sem_new node_byte_capacity))
    else None
  else None.

Definition stream_index (q : NodeQueue) (m : MessageCtx) : nat :=
  if bool_decide (class m = Control) || (length (streams q) =? 1)%nat then 0%nat
  else (1 + Z.to_nat (Z.lxor (msg_src m) (msg_dest m) `mod` (Z.of_nat (length (streams q)) - 1)))%nat.

Definition is_closed (q : NodeQueue) : bool := existsb (fun s => chan_is_closed (sender s)) (streams q).

Definition set_stream (i : nat) (s : StreamIngressSender) (q : NodeQueue) : NodeQueue :=
  mkNodeQueue (<[i := s]> (streams q)) (node_message_slots q) (node_byte_slots q).

Definition set_slots (messages bytes : Sem) (s : StreamIngressSender) : StreamIngressSender :=
  mkStreamIngress (sender s) messages bytes.

(** The four acquisitions in order; a failure drops the permits acquired before it. *)
Definition try_reserve (m : MessageCtx) (q : NodeQueue) : option AdmissionPermits * NodeQueue :=
  let i := stream_index q m in
  match streams q !! i with
  | None => (None, q)
  | Some s =>
      if u32_max <? retained_bytes m then (None, q)
      else
        match try_acquire_owned (message_slots s) with
        | None => (None, q)
        | Some ms =>
            match try_acquire_many_owned (retained_bytes m) (byte_slots s) with
            | None => (None, set_stream i (set_slots (release_permit ms) (byte_slots s) s) q)
            | Some bs =>
                let undo := set_slots (release_permit ms) (release_permits (retained_bytes m) bs) s in
                match try_acquire_owned (node_message_slots q) with
                | None => (None, set_stream i undo q)
                | Some nms =>
                    match try_acquire_many_owned (retained_bytes m) (node_byte_slots q) with
                    | None =>
                        (None, mkNodeQueue (<[i := undo]> (streams q)) (release_permit nms) (node_byte_slots q))
                    | Some nbs =>
                        (Some (mkPermits i (retained_bytes m)),
                         mkNodeQueue (<[i := set_slots ms bs s]> (streams q)) nms nbs)
                    end
                end
            end
        end
  end.

(** Dropping [AdmissionPermits]. *)
Definition drop_permits (p : AdmissionPermits) (q : NodeQueue) : NodeQueue :=
  mkNodeQueue
    (alter (fun s => set_slots (release_permit (message_slots s)) (release_permits (permit_bytes p) (byte_slots s)) s)
           (permit_stream p) (streams q))
    (release_permit (node_message_slots q)) (release_permits (permit_bytes p) (node_byte_slots q)).

(** [id] is the identity of the queue. *)
Definition try_admit (id : Z) (m : MessageCtx) (q : NodeQueue) : AdmissionResult * NodeQueue :=
  if is_closed q then (AdmissionClosed m, q)
  else
    match try_reserve m q with
    | (None, q) => (AdmissionFull m, q)
    | (Some p, q) => (AdmissionAdmitted (mkAdmitted p id m), q)
    end.

Definition try_enqueue_admitted (a : AdmittedMessage) (q : NodeQueue) : EnqueueResult * NodeQueue :=
  let i := stream_index q (message a) in
  match streams q !! i with
  | None => (EnqueueClosed a, q)
  | Some s =>
      match try_send a (sender s) with
      | Ok c => (EnqueueSent, set_stream i (mkStreamIngress c (message_slots s) (byte_slots s)) q)
      | Err (ChanFull a) => (EnqueueFull a, q)
      | Err (ChanClosed a) => (EnqueueClosed a, q)
      end
  end.

(** ** Queues and the messages outside their channels *)

(** [held]: the admitted messages in the queues of processes, with the scheduler, and with
    the tasks of lanes. *)
Record Outbound : Type := mkOutbound {
  queues : gmap Z NodeQueue;
  held : list AdmittedMessage;
}.

Definition set_queue (id : Z) (q : NodeQueue) (W : Outbound) : Outbound := mkOutbound (<[id := q]> (queues W)) (held W).

(** Dropping an admitted message gives its permits back to its queue. *)
Definition drop_admitted (a : AdmittedMessage) (qs : gmap Z NodeQueue) : gmap Z NodeQueue :=
  alter (drop_permits (permits a)) (owner a) qs.

Definition try_rehome (id : Z) (a : AdmittedMessage) (qs : gmap Z NodeQueue) : option (RehomeResult * gmap Z NodeQueue) :=
  if owner a =? id then Some (Ready a, qs)
  else
    q ← qs !! id;
    if is_closed q then Some (RehomeClosed a, qs)
    else
      match try_reserve (message a) q with
      | (None, q) => Some (RehomeFull a, <[id := q]> qs)
      | (Some p, q) => Some (Ready (mkAdmitted p id (message a)), drop_admitted a (<[id := q]> qs))
      end.

(** What the drop of a receiver drops with it. *)
Fixpoint drain (fuel : nat) (c : Chan AdmittedMessage) : list AdmittedMessage * Chan AdmittedMessage :=
  match fuel with
  | O => ([], c)
  | S fuel =>
      match try_recv c with
      | None => ([], c)
      | Some (a, c) => let '(l, c) := drain fuel c in (a :: l, c)
      end
  end.

(** A new queue; a send to a node; the scheduler that queues or rehomes a message; the
    lane that receives one; the end of a message; the end of a lane's receiver. *)
Inductive outbound_op : Type :=
| QNew (id : Z)
| QAdmit (id : Z) (m : MessageCtx)
| QEnqueue (i : nat)
| QRehome (i : nat) (id : Z)
| QReceive (id : Z) (lane : nat)
| QDrop (i : nat)
| QClose (id : Z) (lane : nat).

Context (n capacity bytes : Z).

(** [None]: a step that is not possible. *)
Definition outbound_exec (op : outbound_op) (W : Outbound) : option Outbound :=
  match op with
  | QNew id =>
      match queues W !! id with
      | None => q ← with_limits n capacity bytes; Some (set_queue id q W)
      | Some _ => None
      end
  | QAdmit id m =>
      q ← queues W !! id;
      match try_admit id m q with
      | (AdmissionAdmitted a, q) => Some (mkOutbound (<[id := q]> (queues W)) (held W ++ [a]))
      | (_, q) => Some (set_queue id q W)
      end
  | QEnqueue i =>
      a ← held W !! i;
      q ← queues W !! owner a;
      match try_enqueue_admitted a q with
      | (EnqueueSent, q) => Some (mkOutbound (<[owner a := q]> (queues W)) (delete i (held W)))
      | (_, q) => Some (set_queue (owner a) q W)
      end
  | QRehome i id =>
      a ← held W !! i;
      '(r, qs) ← try_rehome id a (queues W);
      match r with
      | Ready a => Some (mkOutbound qs (<[i := a]> (held W)))
      | _ => Some (mkOutbound qs (held W))
      end
  | QReceive id lane =>
      q ← queues W !! id;
      s ← streams q !! lane;
      '(a, c) ← try_recv (sender s);
      Some (mkOutbound (<[id := set_stream lane (mkStreamIngress c (message_slots s) (byte_slots s)) q]> (queues W))
                       (held W ++ [a]))
  | QDrop i =>
      a ← held W !! i;
      Some (mkOutbound (drop_admitted a (queues W)) (delete i (held W)))
  | QClose id lane =>
      q ← queues W !! id;
      s ← streams q !! lane;
      let '(l, c) := drain (length (queued (sender s))) (close (sender s)) in
      let q := set_stream lane (mkStreamIngress c (message_slots s) (byte_slots s)) q in
      Some (mkOutbound (foldr drop_admitted (<[id := q]> (queues W)) l) (held W))
  end.
End node_queue.

(** The drop of a receiver drops all that was queued. *)
Lemma drain_all {Chan : Type → Type} `{!Channel Chan, !ChannelLaws Chan} (c : Chan AdmittedMessage) :
  ∃ c', drain (length (queued c)) c = (queued c, c') ∧ queued c' = [] ∧ buffer_size c' = buffer_size c ∧
        chan_is_closed c' = chan_is_closed c.
Proof.
  remember (length (queued c)) as k eqn:Hk. revert c Hk. induction k as [|k IH]; intros c Hk; simpl.
  - exists c. by destruct (queued c).
  - pose proof (try_recv_spec AdmittedMessage c) as Hr. destruct (try_recv c) as [[a c1]|]; [|by rewrite Hr in Hk].
    destruct Hr as (Hq & Hb & Hcl). rewrite Hq in Hk. simpl in Hk. destruct (IH c1) as (c' & -> & ? & ? & ?); [lia|].
    exists c'. rewrite Hq. split; [done|]. split; [done|]. split; congruence.
Qed.
