(* ===== verification/Lanes.v ===== *)
(** * Lanes do not disturb each other

    The permits of every lane and of the node are exact; a full lane is never the reason
    that another lane refuses, and what was admitted always finds room in its lane. *)

From S2P Require Import Prelude External NodeQueue.

(** ** Sums over lists *)

Definition zsum {A} (f : A → Z) (l : list A) : Z := foldr (fun a acc => f a + acc) 0 l.

Section zsum.
Context {A : Type} (f : A → Z).
Implicit Types (l : list A).

Lemma zsum_app l1 l2 : zsum f (l1 ++ l2) = zsum f l1 + zsum f l2.
Proof. induction l1 as [|a l1 IH]; simpl; [done|]. rewrite IH. lia. Qed.

Lemma zsum_delete l i a : l !! i = Some a → zsum f (delete i l) = zsum f l - f a.
Proof.
  revert i. induction l as [|b l IH]; intros i; [done|]. destruct i as [|i]; simpl; [intros [= ->]; lia|].
  intros Hi. change (f b + zsum f (delete i l) = f b + zsum f l - f a). rewrite (IH i Hi). lia.
Qed.

Lemma zsum_insert l i a b : l !! i = Some a → zsum f (<[i := b]> l) = zsum f l - f a + f b.
Proof.
  revert i. induction l as [|c l IH]; intros i; [done|]. destruct i as [|i]; simpl; [intros [= ->]; lia|].
  intros Hi. change (f c + zsum f (<[i := b]> l) = f c + zsum f l - f a + f b). rewrite (IH i Hi). lia.
Qed.

Lemma zsum_nonneg l : Forall (fun a => 0 <= f a) l → 0 <= zsum f l.
Proof. induction 1; simpl; lia. Qed.

Lemma zsum_lookup_le l i a : Forall (fun a => 0 <= f a) l → l !! i = Some a → f a <= zsum f l.
Proof.
  intros Hl Hi. pose proof (zsum_delete _ _ _ Hi) as Hd.
  assert (0 <= zsum f (delete i l)); [|lia]. apply zsum_nonneg. by apply Forall_delete.
Qed.

Lemma zsum_replicate m a : zsum f (replicate m a) = Z.of_nat m * f a.
Proof. induction m as [|m IH]; simpl; [done|]. rewrite IH. lia. Qed.

Lemma zsum_none l : Forall (fun a => f a = 0) l → zsum f l = 0.
Proof. induction 1; simpl; lia. Qed.
End zsum.

Lemma list_alter_insert {A} (f : A → A) (l : list A) (i : nat) x : l !! i = Some x → alter f i l = <[i := f x]> l.
Proof. revert i. induction l as [|a l IH]; intros [|i]; simpl; [done..|by intros [= ->]|]. intros Hi. f_equal. by apply IH. Qed.

Lemma alter_insert_Some {A} (f : A → A) (m : gmap Z A) i x : m !! i = Some x → alter f i m = <[i := f x]> m.
Proof.
  intros Hi. apply map_eq. intros j. destruct (decide (i = j)) as [<-|Hne].
  - by rewrite lookup_alter_eq, lookup_insert_eq, Hi.
  - by rewrite lookup_alter_ne, lookup_insert_ne.
Qed.

(** ** The invariant *)

Section lanes.
Context {Sem : Type} `{!Semaphore Sem, !SemaphoreLaws Sem}.
Context {Chan : Type → Type} `{!Channel Chan, !ChannelLaws Chan}.
Context (n capacity bytes : Z).
Implicit Types (q : NodeQueue (Sem := Sem) (Chan := Chan)) (s : StreamIngressSender (Sem := Sem) (Chan := Chan)).
Implicit Types (W : Outbound (Sem := Sem) (Chan := Chan)).

(** The lane of a message in a queue of [n] lanes. *)
Definition lane_of (m : MessageCtx) : nat :=
  if bool_decide (class m = Control) || (n =? 1) then 0%nat
  else (1 + Z.to_nat (Z.lxor (msg_src m) (msg_dest m) `mod` (n - 1)))%nat.

Definition in_lane (id : Z) (i : nat) (a : AdmittedMessage) : bool := (owner a =? id) && (permit_stream (permits a) =? i)%nat.
Definition one_in (id : Z) (i : nat) (a : AdmittedMessage) : Z := if in_lane id i a then 1 else 0.
Definition bytes_in (id : Z) (i : nat) (a : AdmittedMessage) : Z := if in_lane id i a then permit_bytes (permits a) else 0.

(** The messages and bytes of a lane, outside its channel and in it. *)
Definition lane_messages (id : Z) (i : nat) (hs : list AdmittedMessage) s : Z :=
  zsum (one_in id i) hs + zsum (one_in id i) (queued (sender s)).
Definition lane_bytes (id : Z) (i : nat) (hs : list AdmittedMessage) s : Z :=
  zsum (bytes_in id i) hs + zsum (bytes_in id i) (queued (sender s)).

(** The permits of an admitted message are those of its lane and size. *)
Definition admitted_ok (a : AdmittedMessage) : Prop :=
  permits a = mkPermits (lane_of (message a)) (retained_bytes (message a)) ∧ 0 <= retained_bytes (message a).

Record stream_ok (id : Z) (i : nat) (hs : list AdmittedMessage) s : Prop := {
  so_buffer : buffer_size (sender s) = capacity;
  so_queued : Forall (fun a => admitted_ok a ∧ in_lane id i a = true) (queued (sender s));
  so_messages : available_permits (message_slots s) + lane_messages id i hs s = capacity;
  so_bytes : available_permits (byte_slots s) + lane_bytes id i hs s = bytes;
}.

Record queue_ok (id : Z) (hs : list AdmittedMessage) q : Prop := {
  qo_length : Z.of_nat (length (streams q)) = n;
  qo_streams i s : streams q !! i = Some s → stream_ok id i hs s;
  qo_messages : available_permits (node_message_slots q) = zsum (fun s => available_permits (message_slots s)) (streams q);
  qo_bytes : available_permits (node_byte_slots q) = zsum (fun s => available_permits (byte_slots s)) (streams q);
}.

Record outbound_ok W : Prop := {
  oo_queues id q : queues W !! id = Some q → queue_ok id (held W) q;
  oo_held : Forall (fun a => admitted_ok a ∧ is_Some (queues W !! owner a)) (held W);
}.

Lemma stream_index_lane q m : Z.of_nat (length (streams q)) = n → stream_index q m = lane_of m.
Proof.
  intros Hn. unfold stream_index, lane_of. rewrite Hn. f_equal.
  destruct (Nat.eqb_spec (length (streams q)) 1), (Z.eqb_spec n 1); try done; lia.
Qed.

Lemma lane_lookup q m : 0 < n → Z.of_nat (length (streams q)) = n → is_Some (streams q !! lane_of m).
Proof.
  intros Hpos Hn. apply lookup_lt_is_Some. unfold lane_of. destruct (_ || _) eqn:Hb; [lia|].
  bool_to_prop. pose proof (Z.mod_pos_bound (Z.lxor (msg_src m) (msg_dest m)) (n - 1)). lia.
Qed.

(** Messages of another queue do not count. *)
Lemma one_in_other id i a : owner a ≠ id → one_in id i a = 0 ∧ bytes_in id i a = 0.
Proof. intros Hne. unfold one_in, bytes_in, in_lane. by rewrite (proj2 (Z.eqb_neq _ _)). Qed.

Definition same_load (id : Z) (hs hs' : list AdmittedMessage) : Prop :=
  ∀ i, zsum (one_in id i) hs' = zsum (one_in id i) hs ∧ zsum (bytes_in id i) hs' = zsum (bytes_in id i) hs.

Lemma stream_ok_same id i hs hs' s :
  zsum (one_in id i) hs' = zsum (one_in id i) hs → zsum (bytes_in id i) hs' = zsum (bytes_in id i) hs →
  stream_ok id i hs s → stream_ok id i hs' s.
Proof.
  intros H1 H2 [Hb Hq Hm Hy]. split; [done|done|..].
  - unfold lane_messages in *. by rewrite H1.
  - unfold lane_bytes in *. by rewrite H2.
Qed.

Lemma queue_ok_same id hs hs' q : same_load id hs hs' → queue_ok id hs q → queue_ok id hs' q.
Proof. intros Hsame []. split; try done. intros i s Hi. eapply stream_ok_same; [apply Hsame..|]. auto. Qed.

(** A change of one queue and of the messages outside. *)
Lemma update_ok W id q' hs' :
  outbound_ok W → queue_ok id hs' q' → (∀ id', id' ≠ id → same_load id' (held W) hs') →
  Forall (fun a => admitted_ok a ∧ (owner a = id ∨ is_Some (queues W !! owner a))) hs' →
  outbound_ok (mkOutbound (<[id := q']> (queues W)) hs').
Proof.
  intros [Hqs Hheld] Hq' Hsame Hhs. split; simpl.
  - intros id' q [[<- <-]|[Hne Hq]]%lookup_insert_Some; [done|]. eapply queue_ok_same; [by apply Hsame|by apply Hqs].
  - eapply Forall_impl; [exact Hhs|]. simpl. intros a [Ha Ho]. split; [done|]. apply lookup_insert_is_Some'. naive_solver.
Qed.

(** The permits that a stream has less when it has acquired [dm] and [db]. *)
Lemma queue_ok_acquire id hs hs' q i s s' nms nbs (d : Z) b :
  queue_ok id hs q → streams q !! i = Some s → stream_ok id i hs' s' →
  (∀ j t, j ≠ i → streams q !! j = Some t → stream_ok id j hs t → stream_ok id j hs' t) →
  available_permits (message_slots s') = available_permits (message_slots s) + d →
  available_permits (byte_slots s') = available_permits (byte_slots s) + b →
  available_permits nms = available_permits (node_message_slots q) + d →
  available_permits nbs = available_permits (node_byte_slots q) + b →
  queue_ok id hs' (mkNodeQueue (<[i := s']> (streams q)) nms nbs).
Proof.
  intros [Hlen Hss Hm Hb] Hi Hs' Hothers Hd1 Hb1 Hd2 Hb2. split; simpl.
  - by rewrite length_insert.
  - intros j t Hj. destruct (decide (i = j)) as [<-|Hne].
    + rewrite list_lookup_insert_eq in Hj by (by eapply lookup_lt_Some). by injection Hj as <-.
    + rewrite list_lookup_insert_ne in Hj by done. by apply Hothers; [| |apply Hss].
  - rewrite (zsum_insert _ _ _ _ _ Hi). lia.
  - rewrite (zsum_insert _ _ _ _ _ Hi). lia.
Qed.

(** ** Reserving and giving back *)

(** Queues with the same channels and the same permits available. *)
Record same_permits q q' : Prop := {
  sp_streams i s : streams q !! i = Some s → ∃ s', streams q' !! i = Some s' ∧ sender s' = sender s ∧
    available_permits (message_slots s') = available_permits (message_slots s) ∧
    available_permits (byte_slots s') = available_permits (byte_slots s);
  sp_length : length (streams q') = length (streams q);
  sp_messages : available_permits (node_message_slots q') = available_permits (node_message_slots q);
  sp_bytes : available_permits (node_byte_slots q') = available_permits (node_byte_slots q);
}.

Lemma same_permits_refl q : same_permits q q.
Proof. split; try done. intros i s Hs. by exists s. Qed.

Lemma same_permits_insert q i s s' nms nbs :
  streams q !! i = Some s → sender s' = sender s →
  available_permits (message_slots s') = available_permits (message_slots s) →
  available_permits (byte_slots s') = available_permits (byte_slots s) →
  available_permits nms = available_permits (node_message_slots q) →
  available_permits nbs = available_permits (node_byte_slots q) →
  same_permits q (mkNodeQueue (<[i := s']> (streams q)) nms nbs).
Proof.
  intros Hi Hc Hm Hb Hnm Hnb. split; simpl; [|by rewrite length_insert|done..].
  intros j t Hj. destruct (decide (i = j)) as [<-|Hne].
  - rewrite list_lookup_insert_eq by (by eapply lookup_lt_Some). simplify_eq. by exists s'.
  - rewrite list_lookup_insert_ne by done. by exists t.
Qed.

Lemma stream_ok_permits id i hs s s' :
  sender s' = sender s → available_permits (message_slots s') = available_permits (message_slots s) →
  available_permits (byte_slots s') = available_permits (byte_slots s) → stream_ok id i hs s → stream_ok id i hs s'.
Proof.
  intros Hc Hm Hb [H1 H2 H3 H4]. split; unfold lane_messages, lane_bytes in *; rewrite ?Hc, ?Hm, ?Hb; done.
Qed.

(** What a message in a lane adds. *)
Lemma in_own_lane a : in_lane (owner a) (permit_stream (permits a)) a = true.
Proof. unfold in_lane. by rewrite Z.eqb_refl, Nat.eqb_refl. Qed.

Lemma one_in_elsewhere id i a : in_lane id i a = false → one_in id i a = 0 ∧ bytes_in id i a = 0.
Proof. unfold one_in, bytes_in. by intros ->. Qed.

Lemma one_in_own id i a : in_lane id i a = true → one_in id i a = 1 ∧ bytes_in id i a = permit_bytes (permits a).
Proof. unfold one_in, bytes_in. by intros ->. Qed.

Lemma in_lane_other id i j a : in_lane id i a = true → i ≠ j → in_lane id j a = false.
Proof. unfold in_lane. rewrite andb_true_iff, andb_false_iff, Nat.eqb_eq, Nat.eqb_neq. intros [_ ->]. auto. Qed.

Lemma stream_available id i hs s : stream_ok id i hs s → lane_messages id i hs s <= capacity ∧ lane_bytes id i hs s <= bytes.
Proof.
  intros [_ _ Hm Hb]. pose proof (available_nonneg (message_slots s)). pose proof (available_nonneg (byte_slots s)). lia.
Qed.

(** The room in the lane of a message. *)
Definition lane_room (id : Z) (hs : list AdmittedMessage) (m : MessageCtx) q : Prop :=
  ∃ s, streams q !! lane_of m = Some s ∧ lane_messages id (lane_of m) hs s < capacity ∧
       lane_bytes id (lane_of m) hs s + retained_bytes m <= bytes.

Lemma try_reserve_spec id hs q m :
  0 < n → 0 <= retained_bytes m → queue_ok id hs q →
  match try_reserve m q with
  | (None, q') => queue_ok id hs q' ∧ same_permits q q' ∧ ¬ (retained_bytes m <= u32_max ∧ lane_room id hs m q)
  | (Some p, q') =>
      let a := mkAdmitted p id m in
      admitted_ok a ∧ queue_ok id (hs ++ [a]) q' ∧ retained_bytes m <= u32_max ∧ lane_room id hs m q
  end.
Proof.
  intros Hpos Hbytes Hq. pose proof Hq as [Hlen Hss Hnm Hnb]. unfold try_reserve. rewrite (stream_index_lane _ _ Hlen).
  destruct (lane_lookup q m Hpos Hlen) as [s Hs]. rewrite Hs. pose proof (Hss _ _ Hs) as Hok. pose proof Hok as [_ _ Hm Hb].
  assert (Forall (fun s => 0 <= available_permits (message_slots s)) (streams q)) as Hfm by (apply list.Forall_forall; intros; apply available_nonneg).
  assert (Forall (fun s => 0 <= available_permits (byte_slots s)) (streams q)) as Hfb by (apply list.Forall_forall; intros; apply available_nonneg).
  pose proof (zsum_lookup_le (fun s => available_permits (message_slots s)) _ _ _ Hfm Hs) as Hnode_m.
  pose proof (zsum_lookup_le (fun s => available_permits (byte_slots s)) _ _ _ Hfb Hs) as Hnode_b.
  cbv beta in Hnode_m, Hnode_b.
  assert (lane_room id hs m q ↔ 0 < available_permits (message_slots s) ∧ retained_bytes m <= available_permits (byte_slots s)) as Hroom.
  { split; [intros (s' & Hs' & ? & ?); simplify_eq; lia|]. intros []. exists s. split; [done|lia]. }
  destruct (u32_max <? retained_bytes m) eqn:Hsize; bool_to_prop.
  { split; [done|]. split; [apply same_permits_refl|lia]. }
  destruct (try_acquire_owned (message_slots s)) as [ms|] eqn:Hms.
  2: { apply try_acquire_None in Hms. split; [done|]. split; [apply same_permits_refl|]. rewrite Hroom. lia. }
  apply try_acquire_Some in Hms. pose proof (available_release ms) as Hrel_m.
  destruct (try_acquire_many_owned (retained_bytes m) (byte_slots s)) as [bs|] eqn:Hbs.
  2: { apply try_acquire_many_None in Hbs; [|done]. split; [|split].
    - apply (queue_ok_acquire _ hs hs _ _ s _ _ _ 0 0 Hq Hs); simpl; try lia; try done.
      apply (stream_ok_permits _ _ _ s); simpl; [done|lia|done|done].
    - apply (same_permits_insert _ _ s); simpl; try done. lia.
    - rewrite Hroom. lia. }
  apply try_acquire_many_Some in Hbs; [|done]. pose proof (available_release_many (retained_bytes m) bs Hbytes) as Hrel_b.
  destruct (try_acquire_owned (node_message_slots q)) as [nms|] eqn:Hnms.
  2: { apply try_acquire_None in Hnms. pose proof (available_nonneg ms). lia. }
  apply try_acquire_Some in Hnms.
  destruct (try_acquire_many_owned (retained_bytes m) (node_byte_slots q)) as [nbs|] eqn:Hnbs.
  2: { apply try_acquire_many_None in Hnbs; [|done]. pose proof (available_nonneg bs). lia. }
  apply try_acquire_many_Some in Hnbs; [|done]. pose proof (available_nonneg ms). pose proof (available_nonneg bs).
  set (a := mkAdmitted (mkPermits (lane_of m) (retained_bytes m)) id m). split; [by split|].
  assert (in_lane id (lane_of m) a = true) as Hin by apply (in_own_lane a).
  split; [|split; [done|rewrite Hroom; lia]].
  apply (queue_ok_acquire _ hs _ _ _ s _ _ _ (-1) (- retained_bytes m) Hq Hs); simpl; try lia.
  - destruct (one_in_own id (lane_of m) a Hin) as [Ho Hy]. destruct Hok as [H1 H2 H3 H4].
    split; unfold lane_messages, lane_bytes in *; simpl; [done|done|..]; rewrite zsum_app; simpl; rewrite ?Ho, ?Hy; simpl; lia.
  - intros j t Hne _. pose proof (one_in_elsewhere id j a (in_lane_other _ _ _ _ Hin (not_eq_sym Hne))) as [H1 H2].
    apply stream_ok_same; rewrite zsum_app; simpl; lia.
Qed.

Lemma drop_permits_ok id hs i a q :
  0 < n → queue_ok id hs q → hs !! i = Some a → owner a = id → admitted_ok a → queue_ok id (delete i hs) (drop_permits (permits a) q).
Proof.
  intros Hpos Hq Hi <- [Hp Hnn]. pose proof Hq as [Hlen Hss _ _]. destruct (lane_lookup q (message a) Hpos Hlen) as [s Hs].
  pose proof (in_own_lane a) as Hin. rewrite Hp in Hin. simpl in Hin. destruct (one_in_own _ _ _ Hin) as [Ho Hy]. rewrite Hp in Hy.
  unfold drop_permits. rewrite Hp. simpl. rewrite (list_alter_insert _ _ _ s) by done.
  pose proof (available_release (message_slots s)). pose proof (available_release_many _ (byte_slots s) Hnn).
  pose proof (available_release (node_message_slots q)). pose proof (available_release_many _ (node_byte_slots q) Hnn).
  apply (queue_ok_acquire _ hs _ _ _ s _ _ _ 1 (retained_bytes (message a)) Hq Hs); simpl; try lia.
  - destruct (Hss _ _ Hs) as [Hb1 Hb2 Hb3 Hb4]. split; unfold lane_messages, lane_bytes in *; simpl; [done|done|..];
      rewrite (zsum_delete _ _ _ _ Hi), ?Ho, ?Hy; simpl; lia.
  - intros j t Hne _. pose proof (one_in_elsewhere _ j a (in_lane_other _ _ _ _ Hin (not_eq_sym Hne))) as [Ho1 Hy1].
    apply stream_ok_same; rewrite (zsum_delete _ _ _ _ Hi); lia.
Qed.

(** Dropping a message that is outside the channels. *)
Lemma held_drop_ok W i a :
  0 < n → outbound_ok W → held W !! i = Some a → outbound_ok (mkOutbound (drop_admitted a (queues W)) (delete i (held W))).
Proof.
  intros Hpos Hok Hi. pose proof (Forall_lookup_1 _ _ _ _ (oo_held _ Hok) Hi) as [Ha [q Hq]]. unfold drop_admitted.
  rewrite (alter_insert_Some _ _ _ _ Hq). apply update_ok; [done|..].
  - apply drop_permits_ok; try done. by apply (oo_queues _ Hok).
  - intros id Hne j. rewrite !(zsum_delete _ _ _ _ Hi). destruct (one_in_other id j a (not_eq_sym Hne)). lia.
  - apply Forall_delete. eapply Forall_impl; [exact (oo_held _ Hok)|]. simpl. naive_solver.
Qed.

Lemma drop_all_ok qs hs l :
  0 < n → outbound_ok (mkOutbound qs (hs ++ l)) → outbound_ok (mkOutbound (foldr drop_admitted qs l) hs).
Proof.
  intros Hpos. revert qs. induction l as [|a l IH] using rev_ind; intros qs Hok; [by rewrite app_nil_r in Hok|].
  rewrite foldr_app. simpl. apply IH. rewrite app_assoc in Hok.
  pose proof (held_drop_ok _ (length (hs ++ l)) a Hpos Hok) as Hd. simpl in Hd. rewrite lookup_app_r in Hd by lia.
  rewrite Nat.sub_diag in Hd. specialize (Hd eq_refl).
  by rewrite delete_take_drop, take_app_length, drop_ge, app_nil_r in Hd by (rewrite length_app; simpl; lia).
Qed.

(** ** The steps *)

Lemma zsum_perm {A} (f : A → Z) l l' : l ≡ₚ l' → zsum f l = zsum f l'.
Proof. induction 1; simpl; lia. Qed.

Lemma outbound_ok_perm qs hs hs' : hs ≡ₚ hs' → outbound_ok (mkOutbound qs hs) → outbound_ok (mkOutbound qs hs').
Proof.
  intros Hp [Hqs Hheld]. split; simpl in *.
  - intros id q Hq. eapply queue_ok_same; [|by apply Hqs]. intros i. by rewrite !(zsum_perm _ _ _ Hp).
  - by rewrite <- Hp.
Qed.

Lemma queue_limits_ok id hs q :
  with_limits n capacity bytes = Some q → Forall (fun a => owner a ≠ id) hs → 0 < n ∧ queue_ok id hs q.
Proof.
  unfold with_limits. destruct (_ && _) eqn:Hpos; [|done]. bool_to_prop.
  intros (nm & Hnm & (nb & Hnb & Hq)%bind_Some)%bind_Some Hhs. apply checked_mul_Some in Hnm as [-> _], Hnb as [-> _].
  destruct (_ && _) eqn:Hmax; [|done]. bool_to_prop. injection Hq as <-. split; [done|].
  assert (capacity <= max_permits) by nia. assert (bytes <= max_permits) by nia.
  assert (∀ i, zsum (one_in id i) hs = 0 ∧ zsum (bytes_in id i) hs = 0) as Hnone.
  { intros i. split; apply zsum_none; (eapply Forall_impl; [exact Hhs|]); intros a Ha; by apply one_in_other. }
  pose proof (channel_spec AdmittedMessage capacity ltac:(lia)) as (Hc1 & Hc2 & _).
  split; simpl.
  - rewrite length_replicate. lia.
  - intros i s [-> _]%lookup_replicate. destruct (Hnone i) as [Hz1 Hz2]. split; unfold lane_messages, lane_bytes; simpl.
    + done.
    + by rewrite Hc1.
    + rewrite Hc1, Hz1, available_new by lia. simpl. lia.
    + rewrite Hc1, Hz2, available_new by lia. simpl. lia.
  - rewrite zsum_replicate. simpl. rewrite !available_new by nia. lia.
  - rewrite zsum_replicate. simpl. rewrite !available_new by nia. lia.
Qed.

(** Exchanging the channel of a lane with the messages outside. *)
Lemma swap_ok W id q i s c hs' :
  outbound_ok W → queues W !! id = Some q → streams q !! i = Some s → buffer_size c = capacity →
  Forall (fun a => admitted_ok a ∧ in_lane id i a = true) (queued c) →
  Forall (fun a => admitted_ok a ∧ is_Some (queues W !! owner a)) hs' →
  hs' ++ queued c ≡ₚ held W ++ queued (sender s) →
  outbound_ok (mkOutbound (<[id := set_stream i (mkStreamIngress c (message_slots s) (byte_slots s)) q]> (queues W)) hs').
Proof.
  intros Hok Hq Hs Hbuf Hc Hhs Hperm. pose proof (oo_queues _ Hok _ _ Hq) as Hqok. pose proof (qo_streams _ _ _ Hqok _ _ Hs) as Hsok.
  assert (∀ f : AdmittedMessage → Z, zsum f hs' + zsum f (queued c) = zsum f (held W) + zsum f (queued (sender s))) as Hsum.
  { intros f. rewrite <- !zsum_app. by apply zsum_perm. }
  assert (∀ id' j l, (id' ≠ id ∨ j ≠ i) → Forall (fun a => admitted_ok a ∧ in_lane id i a = true) l →
            zsum (one_in id' j) l = 0 ∧ zsum (bytes_in id' j) l = 0) as Hzero.
  { intros id' j l Hne Hl. split; apply zsum_none; (eapply Forall_impl; [exact Hl|]); intros a [_ Ha]; simpl;
      apply one_in_elsewhere; unfold in_lane in *; rewrite andb_true_iff, Z.eqb_eq, Nat.eqb_eq in Ha;
      rewrite andb_false_iff, Z.eqb_neq, Nat.eqb_neq; naive_solver. }
  apply update_ok; [done|..].
  - apply (queue_ok_acquire _ (held W) _ _ _ s _ _ _ 0 0 Hqok Hs); simpl; try lia.
    + destruct Hsok as [_ _ Hm Hb]. split; unfold lane_messages, lane_bytes in *; simpl; [done|done|..].
      * specialize (Hsum (one_in id i)). lia.
      * specialize (Hsum (bytes_in id i)). lia.
    + intros j t Hne _. destruct (Hzero id j (queued c)) as [Hz1 Hz2]; [auto|done|].
      destruct (Hzero id j (queued (sender s))) as [Hz3 Hz4]; [auto|by apply Hsok|].
      pose proof (Hsum (one_in id j)). pose proof (Hsum (bytes_in id j)). apply stream_ok_same; lia.
  - intros id' Hne j. destruct (Hzero id' j (queued c)) as [Hz1 Hz2]; [auto|done|].
    destruct (Hzero id' j (queued (sender s))) as [Hz3 Hz4]; [auto|by apply Hsok|].
    pose proof (Hsum (one_in id' j)). pose proof (Hsum (bytes_in id' j)). lia.
  - eapply Forall_impl; [exact Hhs|]. simpl. naive_solver.
Qed.

Definition op_ok (op : outbound_op) : Prop :=
  match op with QAdmit _ m => 0 <= retained_bytes m | _ => True end.

Lemma queued_count id i hs s : stream_ok id i hs s → zsum (one_in id i) (queued (sender s)) = Z.of_nat (length (queued (sender s))).
Proof.
  intros [_ Hq _ _]. induction Hq as [|a l [_ Ha] _ IH]; [done|]. simpl. rewrite IH.
  destruct (one_in_own _ _ _ Ha). lia.
Qed.

Lemma held_count id i hs a : in_lane id i a = true → a ∈ hs → 1 <= zsum (one_in id i) hs.
Proof.
  intros Ha Hin. apply list_elem_of_lookup in Hin as [j Hj]. destruct (one_in_own _ _ _ Ha) as [<- _].
  eapply zsum_lookup_le; [|done]. apply list.Forall_forall. intros x _. unfold one_in. case_match; lia.
Qed.

(** What was admitted is queued or the queue is closed. *)
Lemma enqueue_spec W i a q :
  0 < n → outbound_ok W → held W !! i = Some a → queues W !! owner a = Some q →
  (∃ s c, streams q !! lane_of (message a) = Some s ∧
     try_enqueue_admitted a q =
       (EnqueueSent, set_stream (lane_of (message a)) (mkStreamIngress c (message_slots s) (byte_slots s)) q) ∧
     queued c = queued (sender s) ++ [a] ∧ buffer_size c = capacity) ∨
  (try_enqueue_admitted a q = (EnqueueClosed a, q) ∧ is_closed q = true).
Proof.
  intros Hpos Hok Hi Hq. pose proof (Forall_lookup_1 _ _ _ _ (oo_held _ Hok) Hi) as [[Hp Hnn] _].
  pose proof (oo_queues _ Hok _ _ Hq) as Hqok. destruct (lane_lookup q (message a) Hpos (qo_length _ _ _ Hqok)) as [s Hs].
  pose proof (qo_streams _ _ _ Hqok _ _ Hs) as Hsok. unfold try_enqueue_admitted.
  rewrite (stream_index_lane _ _ (qo_length _ _ _ Hqok)), Hs. pose proof (try_send_spec AdmittedMessage a (sender s)) as Hsend.
  destruct (try_send a (sender s)) as [c|[a'|a']].
  - left. exists s, c. destruct Hsend as (_ & _ & ? & Hb & _). split; [done|]. split; [done|]. split; [done|].
    rewrite Hb. apply Hsok.
  - exfalso. destruct Hsend as (_ & _ & Hfull). destruct (stream_available _ _ _ _ Hsok) as [Hle _].
    unfold lane_messages in Hle. rewrite (queued_count _ _ _ _ Hsok) in Hle. rewrite (so_buffer _ _ _ _ Hsok) in Hfull.
    pose proof (held_count (owner a) (lane_of (message a)) (held W) a) as Hone.
    assert (in_lane (owner a) (lane_of (message a)) a = true) as Hin by (pose proof (in_own_lane a) as Hin; by rewrite Hp in Hin).
    specialize (Hone Hin). assert (a ∈ held W) as Hel by (apply list_elem_of_lookup; eauto). specialize (Hone Hel). lia.
  - right. destruct Hsend as [-> Hclosed]. split; [done|]. unfold is_closed. apply existsb_exists. exists s. split; [|done].
    apply list_elem_of_In, list_elem_of_lookup; eauto.
Qed.

Lemma admitted_owner_other W id :
  outbound_ok W → queues W !! id = None → Forall (fun a => owner a ≠ id) (held W).
Proof.
  intros Hok Hnew. eapply Forall_impl; [exact (oo_held _ Hok)|]. simpl. intros a [_ [q Hq]] <-. congruence.
Qed.

(** A reservation in the queue [id], as a message more outside the channels or as nothing. *)
Lemma reserve_ok W id q m :
  0 < n → 0 <= retained_bytes m → outbound_ok W → queues W !! id = Some q →
  match try_reserve m q with
  | (None, q') => outbound_ok (mkOutbound (<[id := q']> (queues W)) (held W))
  | (Some p, q') => outbound_ok (mkOutbound (<[id := q']> (queues W)) (held W ++ [mkAdmitted p id m]))
  end.
Proof.
  intros Hpos Hbytes Hok Hq. pose proof (try_reserve_spec id (held W) q m Hpos Hbytes (oo_queues _ Hok _ _ Hq)) as Hspec.
  assert (Forall (fun a => admitted_ok a ∧ (owner a = id ∨ is_Some (queues W !! owner a))) (held W)) as Hheld.
  { eapply Forall_impl; [exact (oo_held _ Hok)|]. simpl. naive_solver. }
  destruct (try_reserve m q) as [[p|] q'].
  - destruct Hspec as (Ha & Hq' & _). apply update_ok; [done..| |].
    + intros id' Hne j. destruct (one_in_other id' j (mkAdmitted p id m)) as [Hz1 Hz2]; [by apply not_eq_sym|].
      rewrite !zsum_app. simpl. lia.
    + apply Forall_app. split; [done|]. by constructor; [split; [|left]|].
  - destruct Hspec as (Hq' & _). by apply update_ok.
Qed.

Lemma outbound_exec_ok op W W' :
  0 < n → op_ok op → outbound_ok W → outbound_exec n capacity bytes op W = Some W' → outbound_ok W'.
Proof.
  intros Hpos Hop Hok. pose proof (oo_held _ Hok) as Hheld. destruct op as [id|id m|i|i id|id lane|i|id lane]; simpl in Hop |- *.
  - destruct (queues W !! id) eqn:Hnew; [done|]. intros (q & Hq & [= <-])%bind_Some.
    apply update_ok; [done|by eapply queue_limits_ok; [|apply admitted_owner_other]|done|].
    eapply Forall_impl; [exact Hheld|]. simpl. naive_solver.
  - intros (q & Hq & Hexec)%bind_Some. unfold try_admit in Hexec. destruct (is_closed q).
    { injection Hexec as <-. unfold set_queue. rewrite insert_id by done. by destruct W. }
    pose proof (reserve_ok W id q m Hpos Hop Hok Hq) as Hr. destruct (try_reserve m q) as [[p|] q']; by injection Hexec as <-.
  - intros (a & Hi & (q & Hq & Hexec)%bind_Some)%bind_Some. pose proof (Forall_lookup_1 _ _ _ _ Hheld Hi) as [[Hp Hnn] _].
    destruct (enqueue_spec W i a q Hpos Hok Hi Hq) as [(s & c & Hs & Heq & Hqd & Hb)|[Heq _]]; rewrite Heq in Hexec.
    + injection Hexec as <-. apply (swap_ok W); try done.
      * rewrite Hqd. apply Forall_app. split; [apply (qo_streams _ _ _ (oo_queues _ Hok _ _ Hq) _ _ Hs)|].
        constructor; [|done]. split; [done|]. pose proof (in_own_lane a) as Hin. by rewrite Hp in Hin.
      * by apply Forall_delete.
      * rewrite Hqd. pose proof (delete_Permutation _ _ _ Hi) as Hperm. set (hs := delete i (held W)) in *. clearbody hs.
        rewrite Hperm, app_assoc, Permutation_app_comm. by simpl.
    + injection Hexec as <-. unfold set_queue. rewrite insert_id by done. by destruct W.
  - intros (a & Hi & ([r qs] & Hr & Hexec)%bind_Some)%bind_Some. pose proof (Forall_lookup_1 _ _ _ _ Hheld Hi) as [Ha _].
    unfold try_rehome in Hr. destruct (owner a =? id).
    { injection Hr as <- <-. injection Hexec as <-. rewrite list_insert_id by done. by destruct W. }
    apply bind_Some in Hr as (q & Hq & Hr). destruct (is_closed q).
    { injection Hr as <- <-. injection Hexec as <-. by destruct W. }
    pose proof (reserve_ok W id q (message a) Hpos (proj2 Ha) Hok Hq) as Hres.
    destruct (try_reserve (message a) q) as [[p|] q']; injection Hr as <- <-; injection Hexec as <-; [|done].
    pose proof (held_drop_ok _ i a Hpos Hres) as Hd. simpl in Hd. rewrite lookup_app_l in Hd by (by eapply lookup_lt_Some).
    specialize (Hd Hi). eapply outbound_ok_perm; [|exact Hd].
    pose proof (lookup_lt_Some _ _ _ Hi) as Hlt. rewrite delete_take_drop, take_app_le, drop_app_le by lia.
    rewrite insert_take_drop by done. rewrite app_assoc, Permutation_app_comm. simpl. by rewrite Permutation_middle.
  - intros (q & Hq & (s & Hs & ([a c] & Hr & [= <-])%bind_Some)%bind_Some)%bind_Some.
    pose proof (try_recv_spec AdmittedMessage (sender s)) as Hspec. rewrite Hr in Hspec. destruct Hspec as (Hqd & Hb & _).
    pose proof (qo_streams _ _ _ (oo_queues _ Hok _ _ Hq) _ _ Hs) as Hsok. pose proof (so_queued _ _ _ _ Hsok) as Hall.
    rewrite Hqd in Hall. apply Forall_cons_iff in Hall as [[Ha Hin] Hall]. apply (swap_ok W); try done.
    + rewrite Hb. apply Hsok.
    + apply Forall_app. split; [done|]. constructor; [|done]. split; [done|].
      unfold in_lane in Hin. bool_to_prop. by rewrite H.
    + rewrite Hqd. by rewrite <- app_assoc.
  - intros (a & Hi & [= <-])%bind_Some. by apply held_drop_ok.
  - intros (q & Hq & (s & Hs & Hexec)%bind_Some)%bind_Some.
    pose proof (qo_streams _ _ _ (oo_queues _ Hok _ _ Hq) _ _ Hs) as Hsok.
    destruct (close_spec AdmittedMessage (sender s)) as (Hcq & Hcb & _). rewrite <- Hcq in Hexec.
    destruct (drain_all (close (sender s))) as (c & Hd & Hc & Hb & _). rewrite Hd in Hexec. injection Hexec as <-.
    apply drop_all_ok; [done|]. apply (swap_ok W); try done.
    + rewrite Hb, Hcb. apply Hsok.
    + by rewrite Hc.
    + apply Forall_app. split; [done|]. rewrite Hcq. eapply Forall_impl; [exact (so_queued _ _ _ _ Hsok)|].
      simpl. intros a [Ha Hin]. split; [done|]. unfold in_lane in Hin. bool_to_prop. by rewrite H.
    + by rewrite Hc, app_nil_r, Hcq.
Qed.

(** ** The theorems *)

Definition outbound_step W W' : Prop := ∃ op, op_ok op ∧ outbound_exec n capacity bytes op W = Some W'.

Lemma outbound_reachable W : 0 < n → rtc outbound_step (mkOutbound ∅ []) W → outbound_ok W.
Proof.
  intros Hpos. apply rtc_invariant; [|split; simpl; [intros id q; by rewrite lookup_empty|done]].
  intros V V' Hok (op & Hop & Hexec). by eapply outbound_exec_ok.
Qed.

(** Lanes are isolated.  In every state that the creation, admission, queueing, moving,
    reception, end and loss of messages can lead to, a message to an open queue is admitted
    exactly when its size fits 32 bits and its own lane has room for one message and its
    bytes, whatever the other lanes of the node hold; it is given the permits of its lane
    and size.  A refused message is given back and no permit is kept. *)
Theorem lane_admission_exact W id q m :
  0 < n → rtc outbound_step (mkOutbound ∅ []) W → queues W !! id = Some q → 0 <= retained_bytes m →
  match try_admit id m q with
  | (AdmissionClosed m', q') => m' = m ∧ is_closed q = true ∧ q' = q
  | (AdmissionFull m', q') =>
      m' = m ∧ is_closed q = false ∧ same_permits q q' ∧ ¬ (retained_bytes m <= u32_max ∧ lane_room id (held W) m q)
  | (AdmissionAdmitted a, q') =>
      a = mkAdmitted (mkPermits (lane_of m) (retained_bytes m)) id m ∧ is_closed q = false ∧
      retained_bytes m <= u32_max ∧ lane_room id (held W) m q
  end.
Proof.
  intros Hpos Hreach Hq Hbytes. pose proof (outbound_reachable W Hpos Hreach) as Hok.
  pose proof (try_reserve_spec id (held W) q m Hpos Hbytes (oo_queues _ Hok _ _ Hq)) as Hspec. unfold try_admit.
  destruct (is_closed q); [done|]. destruct (try_reserve m q) as [[p|] q'].
  - destruct Hspec as ([Hp _] & _ & Hu & Hroom). simpl in Hp. by rewrite Hp.
  - by destruct Hspec as (_ & Hsame & Hno).
Qed.

(** What was admitted finds room.  In every such state the permits that a lane has left
    and the messages and bytes that were admitted to it and still exist, queued, with the
    scheduler or with the lane, add up to its limits, and a message that the scheduler
    hands to its queue is queued last in its lane unless a lane of the queue is closed:
    the lane is never full for it. *)
Theorem admitted_message_has_room W :
  0 < n → rtc outbound_step (mkOutbound ∅ []) W →
  (∀ id q i s, queues W !! id = Some q → streams q !! i = Some s →
     available_permits (message_slots s) + lane_messages id i (held W) s = capacity ∧
     available_permits (byte_slots s) + lane_bytes id i (held W) s = bytes) ∧
  (∀ i a q, held W !! i = Some a → queues W !! owner a = Some q →
     (∃ s c, streams q !! lane_of (message a) = Some s ∧ queued c = queued (sender s) ++ [a] ∧
        try_enqueue_admitted a q =
          (EnqueueSent, set_stream (lane_of (message a)) (mkStreamIngress c (message_slots s) (byte_slots s)) q)) ∨
     (try_enqueue_admitted a q = (EnqueueClosed a, q) ∧ is_closed q = true)).
Proof.
  intros Hpos Hreach. pose proof (outbound_reachable W Hpos Hreach) as Hok. split.
  - intros id q i s Hq Hs. by destruct (qo_streams _ _ _ (oo_queues _ Hok _ _ Hq) _ _ Hs).
  - intros i a q Hi Hq. destruct (enqueue_spec W i a q Hpos Hok Hi Hq) as [(s & c & ? & ? & ? & _)|?]; [left|auto]. by exists s, c.
Qed.
End lanes.

(** Two lanes of one message: the data lane is full, the control lane is not. *)
Module LaneDemo.
Definition data : MessageCtx := mkMessageCtx 1 0 4 2 5 1 [] 10 Data None.
Definition control : MessageCtx := mkMessageCtx 2 0 0 2 0 1 [] 10 Control None.

Definition lane (queue : list AdmittedMessage) (messages bytes : nat) : StreamIngressSender (Sem := nat) (Chan := fifo) :=
  mkStreamIngress (mkFifo queue 1 false) messages bytes.
Definition admitted : AdmittedMessage := mkAdmitted (mkPermits 1 10) 9 data.
Definition queue : NodeQueue (Sem := nat) (Chan := fifo) := mkNodeQueue [lane [] 1 100; lane [] 0 90] 1%nat 190%nat.
Definition full : Outbound (Sem := nat) (Chan := fifo) := mkOutbound {[9 := queue]} [admitted].

Lemma full_reachable : rtc (outbound_step 2 1 100) (mkOutbound ∅ []) full.
Proof.
  eapply rtc_l; [exists (QNew 9); split; [done|by vm_compute]|].
  eapply rtc_l; [exists (QAdmit 9 data); split; [done|by vm_compute]|]. apply rtc_refl.
Qed.
End LaneDemo.

Lemma lane_admission_exact_witness :
  try_admit 9 LaneDemo.control LaneDemo.queue =
    (AdmissionAdmitted (mkAdmitted (mkPermits 0 10) 9 LaneDemo.control),
     mkNodeQueue [LaneDemo.lane [] 0 90; LaneDemo.lane [] 0 90] 0%nat 180%nat) ∧
  lane_room 2 1 100 9 [LaneDemo.admitted] LaneDemo.control LaneDemo.queue.
Proof.
  split; [reflexivity|].
  pose proof (lane_admission_exact 2 1 100 LaneDemo.full 9 LaneDemo.queue LaneDemo.control ltac:(lia) LaneDemo.full_reachable
                ltac:(reflexivity) ltac:(simpl; lia)) as H.
  change (try_admit 9 LaneDemo.control LaneDemo.queue) with
    (AdmissionAdmitted (mkAdmitted (mkPermits 0 10) 9 LaneDemo.control),
     mkNodeQueue [LaneDemo.lane [] 0 90; LaneDemo.lane [] 0 90] 0%nat 180%nat) in H.
  apply H.
Defined.

Lemma admitted_message_has_room_witness :
  try_enqueue_admitted LaneDemo.admitted LaneDemo.queue =
    (EnqueueSent, mkNodeQueue [LaneDemo.lane [] 1 100; LaneDemo.lane [LaneDemo.admitted] 0 90] 1%nat 190%nat) ∧
  0 + lane_messages 9 1 [LaneDemo.admitted] (LaneDemo.lane [] 0 90) = 1.
Proof.
  split; [reflexivity|].
  apply (proj1 (admitted_message_has_room 2 1 100 LaneDemo.full ltac:(lia) LaneDemo.full_reachable) 9 LaneDemo.queue 1%nat
               (LaneDemo.lane [] 0 90)); reflexivity.
Defined.
