(* ===== verification/Sender.v ===== *)
(** * The lanes of a sending node

    [fair_node_connection_manager] and [fair_stream_task] of [congestion/mod.rs]: one task
    per lane sends the messages of the lane one at a time, each on a fresh stream, and keeps
    a message until the peer has acknowledged its bytes and, for a data request, answered
    it, or until its replay window has elapsed; when the connection fails the tasks end, the
    message in flight goes back to the front, and a new connection is made.  With it the
    registry of application acknowledgements of [distributed/client.rs]. *)

From S2P Require Import Prelude External NodeQueue Replay.

(** ** Application acknowledgements *)

Definition APPLICATION_ACK_REPLAY_DEADLINE : Z := seconds 45.
Definition REQUEST_STREAM_IDLE_TIMEOUT : Z := seconds 10.

Record ApplicationAckEntry : Type := mkAckEntry {
  expected_node : Z;
  acknowledged : bool;
}.

Record ApplicationAckRegistry : Type := mkAckRegistry {
  ack_entries : gmap Z ApplicationAckEntry;
  max_acks : Z;
}.

(** [None]: the limit is reached. *)
Definition try_register (message_id node : Z) (r : ApplicationAckRegistry) : option (ApplicationAckHandle * ApplicationAckRegistry) :=
  if max_acks r <=? Z.of_nat (size (ack_entries r)) then None
  else Some (mkAckHandle None, mkAckRegistry (<[message_id := mkAckEntry node false]> (ack_entries r)) (max_acks r)).

Definition acknowledge (message_id source_node : Z) (r : ApplicationAckRegistry) : bool * ApplicationAckRegistry :=
  match ack_entries r !! message_id with
  | None => (false, r)
  | Some e =>
      if negb (expected_node e =? source_node) then (false, r)
      else (true, mkAckRegistry (<[message_id := mkAckEntry (expected_node e) true]> (ack_entries r)) (max_acks r))
  end.

(** [ApplicationAckHandle::drop] *)
Definition handle_drop (message_id : Z) (r : ApplicationAckRegistry) : ApplicationAckRegistry :=
  mkAckRegistry (delete message_id (ack_entries r)) (max_acks r).

(** The handle of a message, and what it sees. *)
Definition is_acknowledged (r : ApplicationAckRegistry) (m : MessageCtx) : bool :=
  match application_ack m with
  | Some _ => match ack_entries r !! msg_id m with Some e => acknowledged e | None => false end
  | None => false
  end.

Definition is_expired (now : Z) (m : MessageCtx) : bool :=
  match application_ack m with
  | Some (mkAckHandle (Some deadline)) => deadline <=? now
  | _ => false
  end.

(** [start_replay_window]: the deadline is set once. *)
Definition start_replay_window (now : Z) (m : MessageCtx) : MessageCtx :=
  match application_ack m with
  | Some (mkAckHandle None) =>
      mkMessageCtx (msg_id m) (msg_env m) (msg_src m) (msg_node m) (msg_dest m) (queue_generation m) (msg_data m)
        (retained_bytes m) (class m) (Some (mkAckHandle (Some (now + APPLICATION_ACK_REPLAY_DEADLINE))))
  | _ => m
  end.

(** [ApplicationAckHandle::remaining] *)
Definition remaining (now : Z) (h : ApplicationAckHandle) : Z :=
  match ack_deadline h with
  | Some deadline => Z.max 0 (deadline - now)
  | None => APPLICATION_ACK_REPLAY_DEADLINE
  end.

(** ** The task of a lane *)

Inductive StreamTaskExit : Type := InputClosed | ShutDown | ConnectionLost.

Inductive SendMessageOutcome : Type :=
| Acknowledged
| ApplicationAcknowledged
| ReplayWindowElapsed
| Shutdown
| StreamFailed
| ConnectionFailed.

(** The await points of [fair_stream_task]: [next_message], the send, the wait for the
    acknowledgement until an instant, and the pause before a retry.  A message in the task
    is an [InFlightMessage]. *)
Inductive Task : Type :=
| Next
| Sending (m : AdmittedMessage)
| Acking (m : AdmittedMessage) (until : Z)
| Pausing
| Exited (e : StreamTaskExit).

(** Why a message left its lane. *)
Inductive Finish : Type := ByTransport | ByApplication | ByDeadline.

Definition set_message (m : MessageCtx) (a : AdmittedMessage) : AdmittedMessage := mkAdmitted (permits a) (owner a) m.

Section lane.
Context {Chan : Type → Type} `{!Channel Chan}.

(** [FairStreamState] with the task that works on it; the messages that entered the lane
    and those that left it, for the theorems. *)
Record Lane : Type := mkLane {
  receiver : Chan AdmittedMessage;
  retry_front : list AdmittedMessage;
  task : option Task;
  accepted : list Z;
  finished : list (Z * Finish);
}.

Definition set_task (t : option Task) (l : Lane) : Lane :=
  mkLane (receiver l) (retry_front l) t (accepted l) (finished l).

(** [InFlightMessage::commit]: the message is dropped, and its handle with it. *)
Definition commit (why : Finish) (a : AdmittedMessage) (t : option Task) (l : Lane) : Lane :=
  mkLane (receiver l) (retry_front l) t (accepted l) (finished l ++ [(msg_id (message a), why)]).

Definition commit_acks (a : AdmittedMessage) (acks : ApplicationAckRegistry) : ApplicationAckRegistry :=
  match application_ack (message a) with
  | Some _ => handle_drop (msg_id (message a)) acks
  | None => acks
  end.

(** [InFlightMessage::drop]: the message is the next one again. *)
Definition retry (a : AdmittedMessage) (t : option Task) (l : Lane) : Lane :=
  mkLane (receiver l) (a :: retry_front l) t (accepted l) (finished l).

(** The loop body after [next_message]: the message that is attempted, if it is. *)
Definition take_message (now : Z) (acks : ApplicationAckRegistry) (a : AdmittedMessage) (l : Lane)
    : Lane * ApplicationAckRegistry * option AdmittedMessage :=
  if is_acknowledged acks (message a) then (commit ByApplication a (Some Next) l, commit_acks a acks, None)
  else if is_expired now (message a) then (commit ByDeadline a (Some Next) l, commit_acks a acks, None)
  else
    let a := set_message (start_replay_window now (message a)) a in
    (set_task (Some (Sending a)) l, acks, Some a).

(** [next_message] *)
Definition next_message (now : Z) (shutdown : bool) (acks : ApplicationAckRegistry) (l : Lane)
    : option (Lane * ApplicationAckRegistry * option AdmittedMessage) :=
  match retry_front l with
  | a :: rest => Some (take_message now acks a (mkLane (receiver l) rest (task l) (accepted l) (finished l)))
  | [] =>
      if shutdown then Some (set_task (Some (Exited ShutDown)) l, acks, None)
      else
        match try_recv (receiver l) with
        | Some (a, c) => Some (take_message now acks a (mkLane c [] (task l) (accepted l) (finished l)))
        | None =>
            if chan_is_closed (receiver l) then Some (set_task (Some (Exited InputClosed)) l, acks, None) else None
        end
  end.

(** Which branch of the biased [select!] around the send can be taken. *)
Definition outcome_possible (now : Z) (shutdown : bool) (acks : ApplicationAckRegistry) (m : MessageCtx)
    (o : SendMessageOutcome) : bool :=
  match o with
  | ApplicationAcknowledged => is_acknowledged acks m
  | ReplayWindowElapsed => negb (is_acknowledged acks m) && is_expired now m
  | Shutdown => negb (is_acknowledged acks m) && negb (is_expired now m) && shutdown
  | Acknowledged | StreamFailed | ConnectionFailed =>
      negb (is_acknowledged acks m) && negb (is_expired now m) && negb shutdown
  end.

(** [match send_outcome] *)
Definition after_send (now : Z) (acks : ApplicationAckRegistry) (a : AdmittedMessage) (o : SendMessageOutcome) (l : Lane)
    : Lane * ApplicationAckRegistry :=
  match o with
  | ApplicationAcknowledged => (commit ByApplication a (Some Next) l, commit_acks a acks)
  | ReplayWindowElapsed => (commit ByDeadline a (Some Next) l, commit_acks a acks)
  | Acknowledged =>
      match application_ack (message a) with
      | Some h => (set_task (Some (Acking a (now + Z.min (remaining now h) REQUEST_STREAM_IDLE_TIMEOUT))) l, acks)
      | None => (commit ByTransport a (Some Next) l, acks)
      end
  | Shutdown => (retry a (Some (Exited ShutDown)) l, acks)
  | StreamFailed => (retry a (Some Pausing) l, acks)
  | ConnectionFailed => (retry a (Some (Exited ConnectionLost)) l, acks)
  end.

(** The wait for the application acknowledgement. *)
Definition after_ack_wait (now : Z) (shutdown : bool) (acks : ApplicationAckRegistry) (a : AdmittedMessage) (until : Z)
    (l : Lane) : option (Lane * ApplicationAckRegistry) :=
  if is_acknowledged acks (message a) then Some (commit ByApplication a (Some Next) l, commit_acks a acks)
  else if shutdown then Some (retry a (Some (Exited ShutDown)) l, acks)
  else if until <=? now then
    if is_expired now (message a) then Some (commit ByDeadline a (Some Next) l, commit_acks a acks)
    else Some (retry a (Some Pausing) l, acks)
  else None.

(** A task is polled; [o] is the outcome of a send that is ready. *)
Definition lane_poll (o : SendMessageOutcome) (now : Z) (shutdown : bool) (acks : ApplicationAckRegistry) (l : Lane)
    : option (Lane * ApplicationAckRegistry * option AdmittedMessage) :=
  match task l with
  | Some Next => next_message now shutdown acks l
  | Some (Sending a) =>
      if outcome_possible now shutdown acks (message a) o
      then let '(l, acks) := after_send now acks a o l in Some (l, acks, None) else None
  | Some (Acking a until) =>
      '(l, acks) ← after_ack_wait now shutdown acks a until l; Some (l, acks, None)
  | Some Pausing => Some (set_task (Some Next) l, acks, None)
  | Some (Exited _) | None => None
  end.

(** A task that is aborted or panics drops its message in flight. *)
Definition lane_abort (l : Lane) : Lane :=
  match task l with
  | Some (Sending a) | Some (Acking a _) => retry a None l
  | _ => set_task None l
  end.

(** [reap_terminal_retries] *)
Definition terminal (now : Z) (acks : ApplicationAckRegistry) (a : AdmittedMessage) : option Finish :=
  if is_acknowledged acks (message a) then Some ByApplication
  else if is_expired now (message a) then Some ByDeadline else None.

Definition reap_terminal_retries (now : Z) (acks : ApplicationAckRegistry) (l : Lane) : Lane * ApplicationAckRegistry :=
  (mkLane (receiver l) (filter (fun a => terminal now acks a = None) (retry_front l)) (task l) (accepted l)
     (finished l ++ omap (fun a => why ← terminal now acks a; Some (msg_id (message a), why)) (retry_front l)),
   foldr commit_acks acks (filter (fun a => terminal now acks a ≠ None) (retry_front l))).

Definition is_drained (l : Lane) : bool :=
  bool_decide (retry_front l = []) && chan_is_closed (receiver l) && bool_decide (queued (receiver l) = []).

(** The message in flight; the messages of a lane, the next one first. *)
Definition in_flight (l : Lane) : list AdmittedMessage :=
  match task l with
  | Some (Sending a) | Some (Acking a _) => [a]
  | _ => []
  end.
Definition upcoming (l : Lane) : list AdmittedMessage := in_flight l ++ retry_front l ++ queued (receiver l).

(** ** The manager *)

(** Before a connection, with a connection and its tasks, and at the end. *)
Inductive Manager : Type :=
| Reconnecting
| Connected (shutdown : bool) (closed_streams : nat)
| Stopped.

Record Sender : Type := mkSender {
  clock : Z;
  acks : ApplicationAckRegistry;
  lanes : list Lane;
  manager : Manager;
  attempts : list (MessageCtx * Z);
}.

(** Time passes; a message enters a lane, a lane's input is closed, an answer arrives; a
    task is polled, panics or is aborted; the turns of the manager; and its end when the
    queue of the node is removed. *)
Inductive sender_op : Type :=
| STick (t : Z)
| SSend (i : nat) (a : AdmittedMessage)
| SCloseInput (i : nat)
| SAcknowledge (message_id source_node : Z)
| SPoll (i : nat) (o : SendMessageOutcome)
| SPanic (i : nat)
| STop
| SReap
| SConnect
| SJoin (i : nat)
| SAbort (i : nat)
| SRestart
| SKill.

Definition set_lane (i : nat) (l : Lane) (s : Sender) : Sender :=
  mkSender (clock s) (acks s) (<[i := l]> (lanes s)) (manager s) (attempts s).
Definition set_acks (r : ApplicationAckRegistry) (s : Sender) : Sender :=
  mkSender (clock s) r (lanes s) (manager s) (attempts s).
Definition set_manager (m : Manager) (s : Sender) : Sender :=
  mkSender (clock s) (acks s) (lanes s) m (attempts s).

(** [for state in &states { state.reap_terminal_retries(); }] *)
Fixpoint reap_all (now : Z) (ls : list Lane) (r : ApplicationAckRegistry) : list Lane * ApplicationAckRegistry :=
  match ls with
  | [] => ([], r)
  | l :: ls =>
      let '(l, r) := reap_terminal_retries now r l in
      let '(ls, r) := reap_all now ls r in
      (l :: ls, r)
  end.

Definition reap (s : Sender) : Sender :=
  let '(ls, r) := reap_all (clock s) (lanes s) (acks s) in mkSender (clock s) r ls (manager s) (attempts s).

(** A message whose identity has not been used, as [new_message] makes it: a data message
    is registered for an acknowledgement, and its handle is dropped when the lane refuses it. *)
Definition enter_lane (i : nat) (a : AdmittedMessage) (s : Sender) : option Sender :=
  l ← lanes s !! i;
  let m := message a in
  if bool_decide (msg_id m ∈ concat (accepted <$> lanes s)) then None
  else
    '(h, r) ← match class m with
              | Data => '(h, r) ← try_register (msg_id m) (msg_node m) (acks s); Some (Some h, r)
              | Control => Some (None, acks s)
              end;
    let m := mkMessageCtx (msg_id m) (msg_env m) (msg_src m) (msg_node m) (msg_dest m) (queue_generation m)
               (msg_data m) (retained_bytes m) (class m) h in
    match try_send (set_message m a) (receiver l) with
    | Ok c =>
        Some (set_lane i (mkLane c (retry_front l) (task l) (accepted l ++ [msg_id m]) (finished l)) (set_acks r s))
    | Err _ => None
    end.

(** [None]: a step that is not possible. *)
Definition sender_exec (op : sender_op) (s : Sender) : option Sender :=
  match op with
  | STick t => if clock s <=? t then Some (mkSender t (acks s) (lanes s) (manager s) (attempts s)) else None
  | SSend i a => enter_lane i a s
  | SCloseInput i =>
      l ← lanes s !! i;
      Some (set_lane i (mkLane (close (receiver l)) (retry_front l) (task l) (accepted l) (finished l)) s)
  | SAcknowledge id node => Some (set_acks (acknowledge id node (acks s)).2 s)
  | SPoll i o =>
      match manager s with
      | Connected shutdown _ =>
          l ← lanes s !! i;
          '(l, r, attempt) ← lane_poll o (clock s) shutdown (acks s) l;
          Some (mkSender (clock s) r (<[i := l]> (lanes s)) (manager s)
                  (attempts s ++ match attempt with Some a => [(message a, clock s)] | None => [] end))
      | _ => None
      end
  | SPanic i =>
      match manager s with
      | Connected false closed =>
          l ← lanes s !! i;
          _ ← task l;
          Some (set_lane i (lane_abort l) (set_manager (Connected true closed) s))
      | _ => None
      end
  | STop =>
      match manager s with
      | Reconnecting =>
          let s := reap s in
          Some (if forallb is_drained (lanes s) then set_manager Stopped s else s)
      | _ => None
      end
  | SReap => match manager s with Reconnecting => Some (reap s) | _ => None end
  | SConnect =>
      match manager s with
      | Reconnecting => Some (mkSender (clock s) (acks s) (set_task (Some Next) <$> lanes s) (Connected false 0) (attempts s))
      | _ => None
      end
  | SJoin i =>
      l ← lanes s !! i;
      match manager s, task l with
      | Connected false closed, Some (Exited InputClosed) =>
          let closed := S closed in
          let m := if (closed =? length (lanes s))%nat then Stopped else Connected false closed in
          Some (set_lane i (set_task None l) (set_manager m s))
      | Connected _ closed, Some (Exited _) => Some (set_lane i (set_task None l) (set_manager (Connected true closed) s))
      | _, _ => None
      end
  | SAbort i =>
      match manager s with
      | Connected true _ => l ← lanes s !! i; Some (set_lane i (lane_abort l) s)
      | _ => None
      end
  | SRestart =>
      match manager s with
      | Connected true _ => if forallb (fun l => bool_decide (task l = None)) (lanes s) then Some (set_manager Reconnecting s) else None
      | _ => None
      end
  | SKill => Some (mkSender (clock s) (foldr commit_acks (acks s) (lanes s ≫= upcoming)) [] Stopped (attempts s))
  end.

Definition sender_new (n capacity max_acks : Z) : Sender :=
  mkSender 0 (mkAckRegistry ∅ max_acks) (replicate (Z.to_nat n) (mkLane (channel capacity) [] None [] [])) Reconnecting [].
End lane.
