(* ===== verification/SenderOrder.v ===== *)
(** * Messages of a lane leave it in order, and for a reason

    Nothing in a lane is lost, duplicated or overtaken, through failures of streams and
    connections, panics and aborts; only the oldest message is attempted; it leaves when the
    peer acknowledged it, or when its replay window has elapsed, and it is never attempted
    after that. *)

From S2P Require Import Prelude External NodeQueue Replay Sender.

Section order.
Context {Chan : Type → Type} `{!Channel Chan, !ChannelLaws Chan}.
Implicit Types (l : Lane (Chan := Chan)) (s : Sender (Chan := Chan)) (a : AdmittedMessage) (r : ApplicationAckRegistry).

Definition a_id (a : AdmittedMessage) : Z := msg_id (message a).

(** At most one message is in flight or waits to be sent again. *)
Definition pending l : list AdmittedMessage := in_flight l ++ retry_front l.

Record lane_ok l : Prop := {
  lo_order : (finished l).*1 ++ (a_id <$> upcoming l) = accepted l;
  lo_pending : (length (pending l) <= 1)%nat;
}.

(** Why a message may leave. *)
Definition justified (now : Z) r (a : AdmittedMessage) (why : Finish) : Prop :=
  match why with
  | ByApplication => is_acknowledged r (message a) = true
  | ByDeadline => is_expired now (message a) = true
  | ByTransport => application_ack (message a) = None
  end.

(** What a step does to a lane: nothing to its messages, the end of the oldest, or an
    attempt to send the oldest. *)
Inductive lane_move (now : Z) r : Lane (Chan := Chan) → Lane (Chan := Chan) → ApplicationAckRegistry → option AdmittedMessage → Prop :=
| move_quiet l l' :
    upcoming l' = upcoming l → pending l' = pending l → accepted l' = accepted l → finished l' = finished l →
    lane_move now r l l' r None
| move_finish l l' a why :
    upcoming l = a :: upcoming l' → pending l' = [] → accepted l' = accepted l →
    finished l' = finished l ++ [(a_id a, why)] → justified now r a why → (why = ByTransport → a ∈ pending l) →
    lane_move now r l l' (commit_acks a r) None
| move_attempt l l' a a' rest :
    upcoming l = a :: rest → upcoming l' = a' :: rest → pending l' = [a'] →
    accepted l' = accepted l → finished l' = finished l →
    is_acknowledged r (message a) = false → is_expired now (message a) = false →
    a' = set_message (start_replay_window now (message a)) a →
    lane_move now r l l' r (Some a').

Lemma start_window_id now m : msg_id (start_replay_window now m) = msg_id m.
Proof. unfold start_replay_window. by destruct (application_ack m) as [[[]]|]. Qed.

Lemma move_ok now r l l' r' att : lane_ok l → lane_move now r l l' r' att → lane_ok l'.
Proof.
  intros [Ho Hp] Hmove. destruct Hmove as [l l' Hu Hpe Ha Hf|l l' a why Hu Hpe Ha Hf _ _|l l' a a' rest Hu Hu' Hpe Ha Hf _ _ ->].
  - split; rewrite ?Hpe, ?Hf, ?Hu, ?Ha; done.
  - split; [|by rewrite Hpe; simpl; lia]. rewrite Hf, Ha, <- Ho, Hu, fmap_app, <- app_assoc. done.
  - split; [|by rewrite Hpe]. rewrite Hf, Ha, <- Ho, Hu, Hu'. simpl. do 2 f_equal. apply start_window_id.
Qed.

(** When nothing is in flight and the retried message, if any, is taken, what is left. *)
Lemma take_message_move now r a l0 l l' r' att :
  upcoming l0 = a :: queued (receiver l) → retry_front l = [] → accepted l0 = accepted l → finished l0 = finished l →
  take_message now r a l = (l', r', att) → lane_move now r l0 l' r' att.
Proof.
  intros Hu Hr Ha Hf. unfold take_message. destruct (is_acknowledged r (message a)) eqn:Hack.
  { intros [= <- <- <-]. apply (move_finish now r l0 _ a ByApplication); unfold upcoming, pending; simpl; rewrite ?Hr; try done. by rewrite Hf. }
  destruct (is_expired now (message a)) eqn:Hexp.
  { intros [= <- <- <-]. apply (move_finish now r l0 _ a ByDeadline); unfold upcoming, pending; simpl; rewrite ?Hr; try done. by rewrite Hf. }
  intros [= <- <- <-]. eapply (move_attempt now r l0 _ a); unfold upcoming, pending; simpl; rewrite ?Hr; done.
Qed.

Lemma pending_cases l : lane_ok l → pending l = [] ∨ ∃ a, pending l = [a].
Proof. intros [_ Hp]. destruct (pending l) as [|a [|]]; [auto|eauto|simpl in Hp; lia]. Qed.

(** A task that leaves its message to be sent again. *)
Lemma retry_move now r l a t :
  in_flight l = [a] → retry_front l = [] → (t = Some Pausing ∨ t = None ∨ ∃ e, t = Some (Exited e)) →
  lane_move now r l (retry a t l) r None.
Proof.
  intros Hi Hr Ht. assert (in_flight (retry a t l) = []) as Hi' by (destruct Ht as [->|[->|[e ->]]]; done).
  apply move_quiet; unfold upcoming, pending; rewrite ?Hi, ?Hi', ?Hr; simpl; rewrite ?Hr; done.
Qed.

Lemma finish_move now r l a why :
  in_flight l = [a] → retry_front l = [] → justified now r a why →
  lane_move now r l (commit why a (Some Next) l) (commit_acks a r) None.
Proof.
  intros Hi Hr Hj. eapply (move_finish now r l _ a why); unfold upcoming, pending; rewrite ?Hi; simpl; rewrite ?Hr; try done. set_solver.
Qed.

Lemma in_flight_alone l a : lane_ok l → in_flight l = [a] → retry_front l = [].
Proof. intros [_ Hp] Hi. unfold pending in Hp. rewrite Hi in Hp. destruct (retry_front l); [done|simpl in Hp; lia]. Qed.

Lemma task_quiet now r l t : in_flight l = [] → in_flight (set_task t l) = [] → lane_move now r l (set_task t l) r None.
Proof. intros Hi Hi'. apply move_quiet; unfold upcoming, pending; rewrite ?Hi, ?Hi'; done. Qed.

Lemma lane_poll_move o now sd r l l' r' att :
  lane_ok l → lane_poll o now sd r l = Some (l', r', att) → lane_move now r l l' r' att.
Proof.
  intros Hok. unfold lane_poll. destruct (task l) as [[|a|a until| |e]|] eqn:Ht; try done.
  - unfold next_message. assert (in_flight l = []) as Hi by (unfold in_flight; by rewrite Ht).
    destruct (retry_front l) as [|a rest] eqn:Hr.
    + destruct sd; [intros [= <- <- <-]; by apply task_quiet|].
      pose proof (try_recv_spec AdmittedMessage (receiver l)) as Hq. destruct (try_recv (receiver l)) as [[a c]|].
      * destruct Hq as (Hq & _). intros [= Htake].
        eapply take_message_move in Htake; [exact Htake|..]; unfold upcoming; rewrite ?Hi, ?Hr, ?Hq; done.
      * destruct (chan_is_closed _); [|done]. intros [= <- <- <-]. by apply task_quiet.
    + assert (rest = []) as ->.
      { destruct Hok as [_ Hp]. unfold pending in Hp. rewrite Hi, Hr in Hp. destruct rest; [done|simpl in Hp; lia]. }
      intros [= Htake]. eapply take_message_move in Htake; [exact Htake|..]; unfold upcoming; rewrite ?Hi, ?Hr; done.
  - assert (in_flight l = [a]) as Hi by (unfold in_flight; by rewrite Ht). pose proof (in_flight_alone _ _ Hok Hi) as Hr.
    destruct (outcome_possible _ _ _ _ _) eqn:Hpos; [|done]. destruct o; simpl in Hpos |- *; bool_to_prop.
    + destruct (application_ack (message a)) as [h|] eqn:Hh; intros [= <- <- <-].
      * apply move_quiet; unfold upcoming, pending; simpl; rewrite ?Hi; done.
      * pose proof (finish_move now r l a ByTransport Hi Hr Hh) as Hm. unfold commit_acks in Hm. by rewrite Hh in Hm.
    + intros [= <- <- <-]. by apply finish_move.
    + intros [= <- <- <-]. by apply finish_move.
    + intros [= <- <- <-]. by apply retry_move; eauto.
    + intros [= <- <- <-]. by apply retry_move; eauto.
    + intros [= <- <- <-]. by apply retry_move; eauto.
  - assert (in_flight l = [a]) as Hi by (unfold in_flight; by rewrite Ht). pose proof (in_flight_alone _ _ Hok Hi) as Hr.
    unfold after_ack_wait. destruct (is_acknowledged r (message a)) eqn:Hack; [intros [= <- <- <-]; by apply finish_move|].
    destruct sd; [intros [= <- <- <-]; apply retry_move; eauto|].
    destruct (until <=? now); [|done]. destruct (is_expired now (message a)) eqn:Hexp; intros [= <- <- <-].
    + by apply finish_move.
    + by apply retry_move; eauto.
  - intros [= <- <- <-]. apply task_quiet; [unfold in_flight; by rewrite Ht|done].
Qed.

Lemma lane_abort_move now r l : lane_ok l → lane_move now r l (lane_abort l) r None.
Proof.
  intros Hok. unfold lane_abort. destruct (task l) as [[|a|a until| |e]|] eqn:Ht;
    try (apply task_quiet; [unfold in_flight; by rewrite Ht|done]);
    (assert (in_flight l = [a]) as Hi by (unfold in_flight; by rewrite Ht)); apply retry_move; eauto using in_flight_alone.
Qed.

Lemma reap_move now r l l' r' :
  lane_ok l → in_flight l = [] → reap_terminal_retries now r l = (l', r') → lane_move now r l l' r' None.
Proof.
  intros Hok Hi. unfold reap_terminal_retries. intros [= <- <-]. destruct (pending_cases _ Hok) as [Hp|[a Hp]];
    unfold pending in Hp; rewrite Hi in Hp; simpl in Hp; rewrite Hp.
  - simpl. rewrite app_nil_r. apply move_quiet; unfold upcoming, pending, in_flight in *; simpl; rewrite ?Hp; done.
  - assert (∀ c rf f, upcoming (mkLane c rf (task l) (accepted l) f) = rf ++ queued c) as Hup.
    { intros c rf f. unfold upcoming, in_flight in *. simpl. destruct (task l) as [[]|]; done. }
    assert (∀ c rf f, pending (mkLane c rf (task l) (accepted l) f) = rf) as Hpe.
    { intros c rf f. unfold pending, in_flight in *. simpl. destruct (task l) as [[]|]; done. }
    assert (upcoming l = a :: queued (receiver l)) as Hul by (unfold upcoming; by rewrite Hi, Hp).
    assert (pending l = [a]) as Hpl by (unfold pending; by rewrite Hi, Hp).
    rewrite !filter_cons. simpl. destruct (terminal now r a) as [why|] eqn:Ht; simpl.
    + apply (move_finish now r l _ a why); rewrite ?Hup, ?Hpe; try done; [|rewrite Hpl; set_solver].
      unfold terminal in Ht. destruct (is_acknowledged r (message a)) eqn:?; [by injection Ht as <-|].
      destruct (is_expired now (message a)) eqn:?; [by injection Ht as <-|done].
    + rewrite app_nil_r. apply move_quiet; rewrite ?Hup, ?Hpe; done.
Qed.

(** ** The sender *)

(** An attempt is made within the replay window, which the first attempt opened. *)
Definition in_window (ats : list (MessageCtx * Z)) (m : MessageCtx) (t : Z) : Prop :=
  match application_ack m with
  | Some h => ∃ d, ack_deadline h = Some d ∧ d - APPLICATION_ACK_REPLAY_DEADLINE <= t < d ∧
                   (m, d - APPLICATION_ACK_REPLAY_DEADLINE) ∈ ats
  | None => True
  end.

Definition unstarted (m : MessageCtx) : Prop :=
  match application_ack m with Some h => ack_deadline h = None | None => True end.

(** A reason that can be read off the attempts. *)
Definition finish_ok (s : Sender (Chan := Chan)) (id : Z) (why : Finish) : Prop :=
  match why with
  | ByApplication => True
  | ByDeadline => ∃ m t h d, (m, t) ∈ attempts s ∧ msg_id m = id ∧ application_ack m = Some h ∧ ack_deadline h = Some d ∧ d <= clock s
  | ByTransport => ∃ m t, (m, t) ∈ attempts s ∧ msg_id m = id ∧ application_ack m = None
  end.

Record sender_ok s : Prop := {
  so_lanes i l : lanes s !! i = Some l → lane_ok l;
  so_idle : manager s = Reconnecting → Forall (fun l => task l = None) (lanes s);
  so_ids : NoDup (concat (accepted <$> lanes s));
  (** What is queued was never attempted; what is in flight or retried was. *)
  so_fresh i l a : lanes s !! i = Some l → a ∈ queued (receiver l) →
    unstarted (message a) ∧ ∀ m t, (m, t) ∈ attempts s → msg_id m ≠ a_id a;
  so_pending i l a : lanes s !! i = Some l → a ∈ pending l → ∃ t, (message a, t) ∈ attempts s;
  so_attempts m t : (m, t) ∈ attempts s → t <= clock s ∧ in_window (attempts s) m t ∧
    ∀ m' t', (m', t') ∈ attempts s → msg_id m' = msg_id m → m' = m;
  so_left m t : (m, t) ∈ attempts s → lanes s = [] ∨
    ∃ i l, lanes s !! i = Some l ∧ msg_id m ∈ accepted l ∧
      (msg_id m ∈ (finished l).*1 ∨ ∃ a, a ∈ pending l ∧ message a = m);
  so_finished i l id why : lanes s !! i = Some l → (id, why) ∈ finished l → finish_ok s id why;
}.

Lemma concat_NoDup {A} (ls : list (list A)) i x : NoDup (concat ls) → ls !! i = Some x → NoDup x.
Proof.
  revert i. induction ls as [|y ls IH]; intros i; [done|]. simpl. intros (Hy & _ & Hls)%NoDup_app.
  destruct i as [|i]; simpl; [by intros [= <-]|by apply IH].
Qed.

Lemma concat_elem {A} (ls : list (list A)) i x z : ls !! i = Some x → z ∈ x → z ∈ concat ls.
Proof.
  revert i. induction ls as [|y ls IH]; intros i; [done|]. simpl. rewrite elem_of_app.
  destruct i as [|i]; simpl; [intros [= <-]; auto|eauto].
Qed.

Lemma concat_disjoint {A} (ls : list (list A)) i j x y z :
  NoDup (concat ls) → ls !! i = Some x → ls !! j = Some y → z ∈ x → z ∈ y → i = j.
Proof.
  revert i j. induction ls as [|w ls IH]; intros i j; [done|]. simpl. intros (Hw & Hdisj & Hls)%NoDup_app.
  destruct i as [|i], j as [|j]; simpl; [done| | |].
  - intros [= <-] Hj Hx Hy. destruct (Hdisj z Hx). by eapply concat_elem.
  - intros Hi [= <-] Hx Hy. destruct (Hdisj z Hy). by eapply concat_elem.
  - intros Hi Hj Hx Hy. f_equal. by eapply IH.
Qed.

Lemma concat_insert_snoc {A} (ls : list (list A)) i x z :
  ls !! i = Some x → concat (<[i := x ++ [z]]> ls) ≡ₚ z :: concat ls.
Proof.
  revert i. induction ls as [|y ls IH]; intros i; [done|]. destruct i as [|i]; simpl.
  - intros [= ->]. rewrite <- app_assoc. simpl. by rewrite <- Permutation_middle.
  - intros Hi. rewrite (IH i Hi). by rewrite <- Permutation_middle.
Qed.

Lemma accepted_lookup s i l : lanes s !! i = Some l → (accepted <$> lanes s) !! i = Some (accepted l).
Proof. intros Hl. by rewrite list_lookup_fmap, Hl. Qed.

(** A message of a lane is in no other. *)
Lemma lane_of_id s i j l l' x :
  sender_ok s → lanes s !! i = Some l → lanes s !! j = Some l' → x ∈ accepted l → x ∈ accepted l' → i = j.
Proof. intros Hok Hi Hj. by apply (concat_disjoint _ _ _ _ _ _ (so_ids _ Hok)); apply accepted_lookup. Qed.

Lemma upcoming_accepted l a : lane_ok l → a ∈ upcoming l → a_id a ∈ accepted l.
Proof. intros [<- _] Ha. apply elem_of_app. right. by apply list_elem_of_fmap_2. Qed.

Lemma finished_accepted l id : lane_ok l → id ∈ (finished l).*1 → id ∈ accepted l.
Proof. intros [<- _] Hid. by apply elem_of_app; left. Qed.

Lemma upcoming_pending l : upcoming l = pending l ++ queued (receiver l).
Proof. unfold upcoming, pending. by rewrite app_assoc. Qed.

Lemma upcoming_NoDup s i l : sender_ok s → lanes s !! i = Some l → NoDup (a_id <$> upcoming l).
Proof.
  intros Hok Hl. pose proof (concat_NoDup _ _ _ (so_ids _ Hok) (accepted_lookup _ _ _ Hl)) as Hnd.
  destruct (so_lanes _ Hok _ _ Hl) as [Ho _]. rewrite <- Ho in Hnd. by apply NoDup_app in Hnd as (_ & _ & ?).
Qed.

Lemma accepted_insert s i l l' :
  lanes s !! i = Some l → accepted l' = accepted l → accepted <$> <[i := l']> (lanes s) = accepted <$> lanes s.
Proof.
  intros Hl Ha. rewrite list_fmap_insert, Ha. apply list_insert_id. by rewrite list_lookup_fmap, Hl.
Qed.

Lemma finish_ok_mono s s' id why :
  clock s <= clock s' → attempts s ⊆ attempts s' → finish_ok s id why → finish_ok s' id why.
Proof.
  intros Hc Hat. destruct why; simpl; [|done|].
  - intros (m & t & Hm & ?). exists m, t. split; [by apply Hat|done].
  - intros (m & t & h & d & Hm & ? & ? & ? & ?). exists m, t, h, d. split_and!; try done; [by apply Hat|lia].
Qed.

Lemma in_window_mono ats ats' m t : ats ⊆ ats' → in_window ats m t → in_window ats' m t.
Proof.
  intros Hsub. unfold in_window. destruct (application_ack m) as [h|]; [|done].
  intros (d & ? & ? & ?). exists d. split; [done|]. split; [done|]. by apply Hsub.
Qed.

(** The messages of a lane but the first were in its channel. *)
Lemma rest_queued l a rest : lane_ok l → upcoming l = a :: rest → rest ⊆ queued (receiver l) ∧
  ((pending l = [a] ∧ queued (receiver l) = rest) ∨ (pending l = [] ∧ queued (receiver l) = a :: rest)).
Proof.
  intros Hok Hu. rewrite upcoming_pending in Hu. destruct (pending_cases _ Hok) as [Hp|[b Hp]]; rewrite Hp in Hu; simpl in Hu.
  - rewrite Hu. split; [set_solver|auto].
  - injection Hu as -> <-. split; [done|auto].
Qed.

(** A message that was attempted keeps its deadline. *)
Lemma pending_started s i l a :
  sender_ok s → lanes s !! i = Some l → a ∈ pending l → ∀ now, start_replay_window now (message a) = message a.
Proof.
  intros Hok Hl Ha now. destruct (so_pending _ Hok _ _ _ Hl Ha) as [t Ht]. apply (so_attempts _ Hok) in Ht as (_ & Hw & _).
  unfold in_window in Hw. unfold start_replay_window. destruct (application_ack (message a)) as [[dl]|]; [|done].
  destruct Hw as (d & Hd & _). simpl in Hd. by subst dl.
Qed.

Lemma move_quiet_ok s i l l' mgr :
  sender_ok s → lanes s !! i = Some l → upcoming l' = upcoming l → pending l' = pending l →
  accepted l' = accepted l → finished l' = finished l →
  (mgr = Reconnecting → Forall (fun l => task l = None) (<[i := l']> (lanes s))) →
  sender_ok (mkSender (clock s) (acks s) (<[i := l']> (lanes s)) mgr (attempts s)).
Proof.
  intros Hok Hl Hu Hp Ha Hf Hidle. assert (queued (receiver l') = queued (receiver l)) as Hq.
  { rewrite !upcoming_pending, Hp in Hu. by apply app_inv_head in Hu. }
  assert (∀ j k, <[i := l']> (lanes s) !! j = Some k → (j = i ∧ k = l') ∨ lanes s !! j = Some k) as Hcases.
  { intros j k [(<- & <- & _)|[_ ?]]%list_lookup_insert_Some; auto. }
  split; cbn [clock acks lanes manager attempts].
  - intros j k [[-> ->]|Hk]%Hcases; [|by eapply so_lanes].
    destruct (so_lanes _ Hok _ _ Hl). split; rewrite ?Hu, ?Hp, ?Ha, ?Hf; done.
  - done.
  - rewrite (accepted_insert _ _ _ _ Hl Ha). apply Hok.
  - intros j k b [[-> ->]|Hk]%Hcases; [rewrite Hq|]; by eapply so_fresh.
  - intros j k b [[-> ->]|Hk]%Hcases; [rewrite Hp|]; by eapply so_pending.
  - apply Hok.
  - intros m t Hm. destruct (so_left _ Hok m t Hm) as [Hnil|(j & k & Hk & Hacc & Hwhere)]; [by rewrite Hnil in Hl|right].
    destruct (decide (i = j)) as [<-|Hne].
    + exists i, l'. rewrite list_lookup_insert_eq by (by eapply lookup_lt_Some). simplify_eq. rewrite Ha, Hf, Hp. done.
    + exists j, k. by rewrite list_lookup_insert_ne.
  - intros j k id why [[-> ->]|Hk]%Hcases; [rewrite Hf|]; intros Hin; (eapply finish_ok_mono; [..|by eapply so_finished]); done.
Qed.

Lemma move_finish_ok s i l l' a why r mgr :
  sender_ok s → lanes s !! i = Some l → upcoming l = a :: upcoming l' → pending l' = [] →
  accepted l' = accepted l → finished l' = finished l ++ [(a_id a, why)] →
  justified (clock s) (acks s) a why → (why = ByTransport → a ∈ pending l) →
  (mgr = Reconnecting → Forall (fun l => task l = None) (<[i := l']> (lanes s))) →
  sender_ok (mkSender (clock s) r (<[i := l']> (lanes s)) mgr (attempts s)).
Proof.
  intros Hok Hl Hu Hp Ha Hf Hj Htr Hidle. pose proof (so_lanes _ Hok _ _ Hl) as Hlok.
  destruct (rest_queued _ _ _ Hlok Hu) as [Hsub Hwhere].
  assert (queued (receiver l') = upcoming l') as Hq by (by rewrite upcoming_pending, Hp).
  assert (∀ j k, <[i := l']> (lanes s) !! j = Some k → (j = i ∧ k = l') ∨ lanes s !! j = Some k) as Hcases.
  { intros j k [(<- & <- & _)|[_ ?]]%list_lookup_insert_Some; auto. }
  split; cbn [clock acks lanes manager attempts].
  - intros j k [[-> ->]|Hk]%Hcases; [|by eapply so_lanes]. apply (move_ok (clock s) (acks s) l l' (commit_acks a (acks s)) None Hlok).
    by eapply move_finish.
  - done.
  - rewrite (accepted_insert _ _ _ _ Hl Ha). apply Hok.
  - intros j k b [[-> ->]|Hk]%Hcases; [rewrite Hq; intros Hb%Hsub|intros Hb]; by eapply so_fresh.
  - intros j k b [[-> ->]|Hk]%Hcases; [rewrite Hp; by intros ?%not_elem_of_nil|]. by eapply so_pending.
  - apply Hok.
  - intros m t Hm. destruct (so_left _ Hok m t Hm) as [Hnil|(j & k & Hk & Hacc & Hin)]; [by rewrite Hnil in Hl|right].
    destruct (decide (i = j)) as [<-|Hne].
    + exists i, l'. rewrite list_lookup_insert_eq by (by eapply lookup_lt_Some). simplify_eq. rewrite Ha, Hf, fmap_app.
      split; [done|]. split; [done|]. left. apply elem_of_app. destruct Hin as [?|(b & Hb & <-)]; [auto|]. right.
      destruct Hwhere as [[Hpl _]|[Hpl _]]; rewrite Hpl in Hb; [|by apply not_elem_of_nil in Hb].
      apply list_elem_of_singleton in Hb as ->. set_solver.
    + exists j, k. by rewrite list_lookup_insert_ne.
  - intros j k id w [[-> ->]|Hk]%Hcases; [rewrite Hf, elem_of_app, list_elem_of_singleton; intros [Hin|[= -> ->]]|intros Hin];
      try (eapply finish_ok_mono; [..|by eapply so_finished]; done).
    destruct why; simpl in Hj |- *; [|done|].
    + destruct (so_pending _ Hok _ _ _ Hl (Htr eq_refl)) as [t Ht]. exists (message a), t. done.
    + unfold is_expired in Hj. destruct (application_ack (message a)) as [[[d|]]|] eqn:Hack; try done. bool_to_prop.
      destruct Hwhere as [[Hpl _]|[_ Hql]].
      * destruct (so_pending _ Hok i l a Hl) as [t Ht]; [rewrite Hpl; set_solver|]. exists (message a), t, (mkAckHandle (Some d)), d. done.
      * destruct (so_fresh _ Hok i l a Hl) as [Hun _]; [rewrite Hql; set_solver|]. unfold unstarted in Hun. by rewrite Hack in Hun.
Qed.

(** The window of the attempt that is made now. *)
Lemma attempt_window s i l a rest :
  sender_ok s → lanes s !! i = Some l → upcoming l = a :: rest → is_expired (clock s) (message a) = false →
  let m := start_replay_window (clock s) (message a) in
  in_window (attempts s ++ [(m, clock s)]) m (clock s) ∧
  ∀ m' t', (m', t') ∈ attempts s → msg_id m' = a_id a → m' = m.
Proof.
  intros Hok Hl Hu Hexp m. destruct (rest_queued _ _ _ (so_lanes _ Hok _ _ Hl) Hu) as [_ [[Hp _]|[_ Hq]]].
  - assert (a ∈ pending l) as Ha by (rewrite Hp; set_solver). pose proof (pending_started _ _ _ _ Hok Hl Ha (clock s)) as Hm.
    fold m in Hm. rewrite Hm. destruct (so_pending _ Hok _ _ _ Hl Ha) as [t Ht]. apply (so_attempts _ Hok) in Ht as (Ht & Hw & Hsame).
    split; [|intros m' t' Hm' Hid; by apply (Hsame m' t')].
    unfold in_window in *. unfold is_expired in Hexp. destruct (application_ack (message a)) as [[dl]|]; [|done].
    destruct Hw as (d & Hdl & Hd & Hin). simpl in Hdl. subst dl. bool_to_prop. exists d. split; [done|]. split; [lia|set_solver].
  - destruct (so_fresh _ Hok i l a Hl) as [Hun Hnew]; [rewrite Hq; set_solver|]. split.
    + unfold unstarted in Hun. unfold in_window, m, start_replay_window.
      destruct (application_ack (message a)) as [[dl]|] eqn:Hack; [simpl in Hun; subst dl|by rewrite Hack].
      cbn [application_ack]. exists (clock s + APPLICATION_ACK_REPLAY_DEADLINE). split; [done|].
      assert (0 < APPLICATION_ACK_REPLAY_DEADLINE) by done. split; [lia|].
      rewrite Z.add_simpl_r. set_solver.
    + intros m' t' Hm' Hid. by apply Hnew in Hm'.
Qed.

Lemma move_attempt_ok s i l l' a a' rest mgr :
  sender_ok s → lanes s !! i = Some l → upcoming l = a :: rest → upcoming l' = a' :: rest → pending l' = [a'] →
  accepted l' = accepted l → finished l' = finished l → is_expired (clock s) (message a) = false →
  a' = set_message (start_replay_window (clock s) (message a)) a →
  (mgr = Reconnecting → Forall (fun l => task l = None) (<[i := l']> (lanes s))) →
  sender_ok (mkSender (clock s) (acks s) (<[i := l']> (lanes s)) mgr (attempts s ++ [(message a', clock s)])).
Proof.
  intros Hok Hl Hu Hu' Hp Ha Hf Hexp -> Hidle. pose proof (so_lanes _ Hok _ _ Hl) as Hlok.
  destruct (attempt_window _ _ _ _ _ Hok Hl Hu Hexp) as [Hwin Hsame]. cbn [message set_message] in *.
  set (m := start_replay_window (clock s) (message a)) in *. assert (msg_id m = a_id a) as Hmid by apply start_window_id.
  destruct (rest_queued _ _ _ Hlok Hu) as [Hsub Hwhere].
  assert (queued (receiver l') = rest) as Hq. { rewrite upcoming_pending, Hp in Hu'. by injection Hu'. }
  assert (∀ j k, <[i := l']> (lanes s) !! j = Some k → (j = i ∧ k = l') ∨ (j ≠ i ∧ lanes s !! j = Some k)) as Hcases.
  { intros j k [(<- & <- & _)|[? ?]]%list_lookup_insert_Some; auto. }
  assert (a_id a ∈ accepted l) as Hacc by (apply (upcoming_accepted _ _ Hlok); rewrite Hu; set_solver).
  assert (attempts s ⊆ attempts s ++ [(m, clock s)]) as Hmono by set_solver.
  split; cbn [clock acks lanes manager attempts].
  - intros j k [[-> ->]|[_ Hk]]%Hcases; [|by eapply so_lanes]. destruct Hlok as [Ho _]. split; [|by rewrite Hp].
    rewrite Hf, Ha, <- Ho, Hu, Hu'. simpl. do 2 f_equal. exact Hmid.
  - done.
  - rewrite (accepted_insert _ _ _ _ Hl Ha). apply Hok.
  - intros j k b Hk Hb. apply Hcases in Hk as [[-> ->]|[Hne Hk]].
    + rewrite Hq in Hb. destruct (so_fresh _ Hok _ _ b Hl (Hsub _ Hb)) as [Hun Hnew]. split; [done|].
      intros m2 t2 [?|[= -> ->]%list_elem_of_singleton]%elem_of_app; [by eapply Hnew|]. rewrite Hmid. intros Heq.
      pose proof (upcoming_NoDup _ _ _ Hok Hl) as Hnd. rewrite Hu in Hnd. apply list.NoDup_cons in Hnd as [Hnin _].
      apply Hnin. rewrite Heq. by apply list_elem_of_fmap_2.
    + destruct (so_fresh _ Hok _ _ b Hk Hb) as [Hun Hnew]. split; [done|].
      intros m2 t2 [?|[= -> ->]%list_elem_of_singleton]%elem_of_app; [by eapply Hnew|]. rewrite Hmid. intros Heq. apply Hne.
      eapply (lane_of_id s); [done|exact Hk|exact Hl| |exact Hacc]. rewrite Heq. apply upcoming_accepted; [by eapply so_lanes|].
      rewrite upcoming_pending. set_solver.
  - intros j k b Hk Hb. apply Hcases in Hk as [[-> ->]|[Hne Hk]].
    + rewrite Hp in Hb. apply list_elem_of_singleton in Hb as ->. exists (clock s). simpl. set_solver.
    + destruct (so_pending _ Hok _ _ _ Hk Hb) as [t Ht]. exists t. set_solver.
  - intros m2 t2 [Hm2|[= -> ->]%list_elem_of_singleton]%elem_of_app.
    + destruct (so_attempts _ Hok _ _ Hm2) as (Ht & Hw & Huniq). split; [done|]. split; [by eapply in_window_mono|].
      intros m3 t3 [?|[= -> ->]%list_elem_of_singleton]%elem_of_app Hid; [by eapply Huniq|].
      symmetry. eapply Hsame; [done|]. congruence.
    + split; [lia|]. split; [done|]. intros m3 t3 [?|[= -> ->]%list_elem_of_singleton]%elem_of_app Hid; [|done].
      eapply Hsame; [done|]. congruence.
  - intros m2 t2 [Hm2|[= -> ->]%list_elem_of_singleton]%elem_of_app; right.
    + destruct (so_left _ Hok m2 t2 Hm2) as [Hnil|(j & k & Hk & Hacc2 & Hin)]; [by rewrite Hnil in Hl|].
      destruct (decide (i = j)) as [<-|Hne].
      * exists i, l'. rewrite list_lookup_insert_eq by (by eapply lookup_lt_Some). simplify_eq. rewrite Ha, Hf. split; [done|].
        split; [done|]. destruct Hin as [?|(b & Hb & <-)]; [auto|]. right. eexists. rewrite Hp. split; [by apply list_elem_of_singleton|].
        simpl. symmetry. eapply Hsame; [done|].
        destruct Hwhere as [[Hpl _]|[Hpl _]]; rewrite Hpl in Hb; [|by apply not_elem_of_nil in Hb].
        by apply list_elem_of_singleton in Hb as ->.
      * exists j, k. by rewrite list_lookup_insert_ne.
    + exists i, l'. rewrite list_lookup_insert_eq by (by eapply lookup_lt_Some). rewrite Hmid, Ha. split; [done|]. split; [done|].
      right. eexists. rewrite Hp. split; [by apply list_elem_of_singleton|done].
  - intros j k id why [[-> ->]|[_ Hk]]%Hcases; [rewrite Hf|]; intros Hin; (eapply finish_ok_mono; [..|by eapply so_finished]); done.
Qed.

Lemma sender_move s i l l' r att mgr :
  sender_ok s → lanes s !! i = Some l → lane_move (clock s) (acks s) l l' r att →
  (mgr = Reconnecting → Forall (fun l => task l = None) (<[i := l']> (lanes s))) →
  sender_ok (mkSender (clock s) r (<[i := l']> (lanes s)) mgr
               (attempts s ++ match att with Some a => [(message a, clock s)] | None => [] end)).
Proof.
  intros Hok Hl Hmove Hidle. destruct Hmove; rewrite ?app_nil_r.
  - by eapply move_quiet_ok.
  - by eapply move_finish_ok.
  - by eapply move_attempt_ok.
Qed.

Lemma ok_acks s r : sender_ok s → sender_ok (set_acks r s).
Proof. intros []. by split. Qed.

Lemma ok_manager s mgr : sender_ok s → (mgr = Reconnecting → Forall (fun l => task l = None) (lanes s)) → sender_ok (set_manager mgr s).
Proof. intros [] Hidle. by split. Qed.

Lemma set_manager_id s : set_manager (manager s) s = s.
Proof. by destruct s. Qed.

(** A step of one lane that leaves its messages alone. *)
Lemma ok_quiet s i l l' mgr :
  sender_ok s → lanes s !! i = Some l → lane_move (clock s) (acks s) l l' (acks s) None →
  (mgr = Reconnecting → manager s = Reconnecting ∧ task l' = None) →
  sender_ok (set_lane i l' (set_manager mgr s)).
Proof.
  intros Hok Hl Hmove Hidle. pose proof (sender_move s i l l' (acks s) None mgr Hok Hl Hmove) as Hm.
  rewrite app_nil_r in Hm. apply Hm. intros Hmgr. destruct (Hidle Hmgr) as [Hre Ht]. apply Forall_insert; [|done]. by apply Hok.
Qed.

Lemma join_move now r l e : task l = Some (Exited e) → lane_move now r l (set_task None l) r None.
Proof. intros Ht. apply task_quiet; [unfold in_flight; by rewrite Ht|done]. Qed.

Lemma reap_all_ok s ls done mgr r :
  sender_ok s → lanes s = done ++ ls → acks s = r → manager s = mgr → Forall (fun l => task l = None) (done ++ ls) →
  let '(ls', r') := reap_all (clock s) ls r in
  sender_ok (mkSender (clock s) r' (done ++ ls') mgr (attempts s)) ∧ Forall (fun l => task l = None) (done ++ ls').
Proof.
  revert s done r. induction ls as [|l ls IH]; intros s done r Hok Hls <- <- Hidle; cbn [reap_all].
  { split; [|done]. rewrite <- Hls. by destruct s. }
  destruct (reap_terminal_retries (clock s) (acks s) l) as [l' r'] eqn:Hreap.
  assert (lanes s !! length done = Some l) as Hl by (rewrite Hls; by apply list_lookup_middle).
  assert (task l = None) as Ht by (apply Forall_app in Hidle as [_ Hx]; by apply Forall_cons_iff in Hx as [? _]).
  assert (task l' = None) as Ht' by (replace l' with (reap_terminal_retries (clock s) (acks s) l).1 by (by rewrite Hreap); exact Ht).
  assert (Forall (fun l => task l = None) (done ++ l' :: ls)) as Hidle'.
  { apply Forall_app in Hidle as [? Hx]. apply Forall_app. split; [done|]. apply Forall_cons_iff in Hx as [_ ?]. by constructor. }
  assert (<[length done := l']> (lanes s) = done ++ l' :: ls) as Hins.
  { rewrite Hls, insert_app_r_alt, Nat.sub_diag by lia. done. }
  pose proof (sender_move s (length done) l l' r' None (manager s) Hok Hl) as Hm. rewrite app_nil_r, Hins in Hm.
  assert (sender_ok (mkSender (clock s) r' (done ++ l' :: ls) (manager s) (attempts s))) as Hok'.
  { apply Hm; [|done]. apply reap_move; [by eapply so_lanes|unfold in_flight; by rewrite Ht|done]. }
  specialize (IH _ (done ++ [l']) r' Hok'). cbn [lanes acks clock manager attempts] in IH. rewrite <- app_assoc in IH.
  specialize (IH eq_refl eq_refl eq_refl Hidle'). destruct (reap_all (clock s) ls r') as [ls' r'']. rewrite <- app_assoc in IH. simpl. exact IH.
Qed.

Lemma reap_ok s : sender_ok s → manager s = Reconnecting → sender_ok (reap s).
Proof.
  intros Hok Hre. pose proof (so_idle _ Hok Hre) as Hidle. pose proof (reap_all_ok s (lanes s) [] (manager s) (acks s) Hok eq_refl eq_refl eq_refl Hidle) as Hr.
  unfold reap. destruct (reap_all _ _ _) as [ls r]. simpl in Hr. apply Hr.
Qed.

(** A message enters a lane. *)
Lemma enter_ok s i a s' : sender_ok s → enter_lane i a s = Some s' → sender_ok s'.
Proof.
  intros Hok. unfold enter_lane. intros (l & Hl & Henter)%bind_Some.
  destruct (bool_decide _) eqn:Hfresh; [done|]. bool_to_prop.
  apply bind_Some in Henter as ([h r] & Hreg & Henter). set (m := mkMessageCtx _ _ _ _ _ _ _ _ _ _) in Henter.
  pose proof (try_send_spec AdmittedMessage (set_message m a) (receiver l)) as Hsend.
  destruct (try_send (set_message m a) (receiver l)) as [c|]; [|done]. injection Henter as <-.
  destruct Hsend as (_ & _ & Hq & _).
  assert (unstarted m) as Hun.
  { unfold unstarted. simpl. destruct (class (message a)).
    - unfold try_register in Hreg. destruct (_ <=? _); [done|]. by injection Hreg as <- _.
    - by injection Hreg as <- _. }
  assert (∀ m2 t2, (m2, t2) ∈ attempts s → msg_id m2 ≠ msg_id m) as Hnew.
  { intros m2 t2 Hm2 Heq. destruct (so_left _ Hok m2 t2 Hm2) as [Hnil|(j & k & Hk & Hacc & _)]; [by rewrite Hnil in Hl|].
    apply Hfresh. change (msg_id (message a)) with (msg_id m). rewrite <- Heq. eapply concat_elem; [|exact Hacc]. by apply accepted_lookup. }
  set (l' := mkLane c (retry_front l) (task l) (accepted l ++ [msg_id m]) (finished l)).
  assert (pending l' = pending l) as Hp by done. assert (upcoming l' = upcoming l ++ [set_message m a]) as Hu.
  { rewrite !upcoming_pending, Hp, <- app_assoc. by rewrite <- Hq. }
  assert (∀ j k, <[i := l']> (lanes s) !! j = Some k → (j = i ∧ k = l') ∨ lanes s !! j = Some k) as Hcases.
  { intros j k [(<- & <- & _)|[_ ?]]%list_lookup_insert_Some; auto. }
  unfold set_lane, set_acks. cbn [clock acks lanes manager attempts]. split; cbn [clock acks lanes manager attempts].
  - intros j k [[-> ->]|Hk]%Hcases; [|by eapply so_lanes]. destruct (so_lanes _ Hok _ _ Hl) as [Ho Hpl]. split; [|done].
    rewrite Hu, fmap_app, app_assoc. simpl. by rewrite Ho.
  - intros Hre. apply Forall_insert; [by apply Hok|]. simpl. pose proof (so_idle _ Hok Hre) as Hidle.
    by apply (Forall_lookup_1 _ _ _ _ Hidle Hl).
  - pose proof (so_ids _ Hok) as Hids. rewrite list_fmap_insert. simpl.
    rewrite (concat_insert_snoc _ _ _ _ (accepted_lookup _ _ _ Hl)). apply list.NoDup_cons. split; [exact Hfresh|exact Hids].
  - intros j k b [[-> ->]|Hk]%Hcases; [|by eapply so_fresh]. simpl. rewrite Hq, elem_of_app, list_elem_of_singleton.
    intros [Hb| ->]; [by eapply so_fresh|]. done.
  - intros j k b [[-> ->]|Hk]%Hcases; [rewrite Hp|]; by eapply so_pending.
  - apply Hok.
  - intros m2 t2 Hm2. destruct (so_left _ Hok m2 t2 Hm2) as [Hnil|(j & k & Hk & Hacc & Hwhere)]; [by rewrite Hnil in Hl|right].
    destruct (decide (i = j)) as [<-|Hne].
    + exists i, l'. rewrite list_lookup_insert_eq by (by eapply lookup_lt_Some). simplify_eq. simpl. split; [done|]. split; [set_solver|done].
    + exists j, k. by rewrite list_lookup_insert_ne.
  - intros j k id why [[-> ->]|Hk]%Hcases Hin; (eapply finish_ok_mono; [..|by eapply so_finished]); done.
Qed.

(** New tasks for all lanes. *)
Lemma connect_ok s :
  sender_ok s → manager s = Reconnecting →
  sender_ok (mkSender (clock s) (acks s) (set_task (Some Next) <$> lanes s) (Connected false 0) (attempts s)).
Proof.
  intros Hok Hre. pose proof (so_idle _ Hok Hre) as Hidle.
  assert (∀ i l, (set_task (Some Next) <$> lanes s) !! i = Some l → ∃ k, lanes s !! i = Some k ∧ l = set_task (Some Next) k ∧ task k = None) as Hcases.
  { intros i l. rewrite list_lookup_fmap. intros (k & Hk & ->)%fmap_Some_1. exists k. split; [done|]. split; [done|].
    by apply (Forall_lookup_1 _ _ _ _ Hidle Hk). }
  assert (∀ k, task k = None → pending (set_task (Some Next) k) = pending k ∧ upcoming (set_task (Some Next) k) = upcoming k) as Hsame.
  { intros k Hk. unfold pending, upcoming, in_flight. simpl. by rewrite Hk. }
  split; cbn [clock acks lanes manager attempts].
  - intros i l (k & Hk & -> & Ht)%Hcases. destruct (so_lanes _ Hok _ _ Hk), (Hsame k Ht) as [Hp Hu]. split; [by rewrite Hu|by rewrite Hp].
  - done.
  - rewrite <- list_fmap_compose. apply Hok.
  - intros i l a (k & Hk & -> & Ht)%Hcases. exact (so_fresh _ Hok i k a Hk).
  - intros i l a (k & Hk & -> & Ht)%Hcases. destruct (Hsame k Ht) as [Hp _]. rewrite Hp. by eapply so_pending.
  - apply Hok.
  - intros m t Hm. destruct (so_left _ Hok m t Hm) as [Hnil|(i & k & Hk & Hacc & Hwhere)]; [left; by rewrite Hnil|right].
    exists i, (set_task (Some Next) k). rewrite list_lookup_fmap, Hk. split; [done|]. split; [done|].
    assert (task k = None) as Ht by (by apply (Forall_lookup_1 _ _ _ _ Hidle Hk)). by rewrite (proj1 (Hsame k Ht)).
  - intros i l id why (k & Hk & -> & Ht)%Hcases Hin. eapply finish_ok_mono; [..|by eapply so_finished]; done.
Qed.

Lemma sender_exec_ok op s s' : sender_ok s → sender_exec op s = Some s' → sender_ok s'.
Proof.
  intros Hok. destruct op as [t|i a|i|id node|i o|i| | | |i|i| |]; simpl.
  - destruct (clock s <=? t) eqn:Hle; [|done]. bool_to_prop. intros [= <-]. destruct Hok. split; try done.
    + intros m t' Hm. destruct (so_attempts0 m t' Hm) as (? & ? & ?). simpl. split; [lia|done].
    + intros i l id why Hl Hin. eapply finish_ok_mono; [..|by eapply so_finished0]; done.
  - by apply enter_ok.
  - intros (l & Hl & [= <-])%bind_Some. rewrite <- (set_manager_id s). eapply ok_quiet; [done|done|..].
    + destruct (close_spec AdmittedMessage (receiver l)) as (Hq & _).
      apply move_quiet; unfold upcoming, pending; simpl; rewrite ?Hq; done.
    + intros Hre. split; [done|]. simpl. by apply (Forall_lookup_1 _ _ _ _ (so_idle _ Hok Hre) Hl).
  - intros [= <-]. by apply ok_acks.
  - destruct (manager s) as [|sd closed|] eqn:Hm; try done. intros (l & Hl & ([[l' r] att] & Hpoll & [= <-])%bind_Some)%bind_Some.
    apply (sender_move s i l); try done. apply (lane_poll_move o _ sd); [by eapply so_lanes|done].
  - destruct (manager s) as [|[] closed|]; try done. intros (l & Hl & (t & _ & [= <-])%bind_Some)%bind_Some.
    eapply ok_quiet; [done|done|apply lane_abort_move; by eapply so_lanes|done].
  - destruct (manager s) eqn:Hm; try done. intros [= <-]. pose proof (reap_ok s Hok Hm) as Hr.
    destruct (forallb _ _); [|done]. by apply ok_manager.
  - destruct (manager s) eqn:Hm; try done. intros [= <-]. by apply reap_ok.
  - destruct (manager s) eqn:Hm; try done. intros [= <-]. by apply connect_ok.
  - intros (l & Hl & Hj)%bind_Some. destruct (manager s) as [|[] closed|] eqn:Hm; try done;
      destruct (task l) as [[| | | |e]|] eqn:Ht; try done; [injection Hj as <-|destruct e; injection Hj as <-];
      (eapply ok_quiet; [done|done|by eapply join_move|]); by try case_match.
  - destruct (manager s) as [|[] closed|] eqn:Hm; try done. intros (l & Hl & [= <-])%bind_Some. rewrite <- (set_manager_id s).
    eapply ok_quiet; [done|done|apply lane_abort_move; by eapply so_lanes|by rewrite Hm].
  - destruct (manager s) as [|[] closed|] eqn:Hm; try done. destruct (forallb _ _) eqn:Hall; [|done]. intros [= <-].
    apply ok_manager; [done|]. intros _. apply list.Forall_forall. intros l Hl. rewrite forallb_forall in Hall.
    specialize (Hall l (proj1 (list_elem_of_In _ _) Hl)). by bool_to_prop.
  - intros [= <-]. destruct Hok. split; simpl; try done; [constructor|]. intros m t Hm. by left.
Qed.

(** ** What a step adds *)

Definition acked r (id : Z) : Prop := ∃ e, ack_entries r !! id = Some e ∧ acknowledged e = true.

(** Messages enter at the end and leave at the front, and those that leave because the
    application answered are acknowledged. *)
Record grows r l l' : Prop := {
  gr_accepted : ∃ ext, accepted l' = accepted l ++ ext;
  gr_finished : ∃ f, finished l' = finished l ++ f ∧ ∀ id, (id, ByApplication) ∈ f → acked r id;
}.

Lemma grows_refl r l : grows r l l.
Proof. split; exists []; rewrite app_nil_r; [done|]. split; [done|]. by intros id ?%not_elem_of_nil. Qed.

Lemma commit_acks_acked a r id : acked (commit_acks a r) id → acked r id.
Proof.
  unfold acked, commit_acks. destruct (application_ack (message a)); [|done]. simpl.
  intros (e & [_ He]%lookup_delete_Some & ?). by exists e.
Qed.

Lemma move_grows now r l l' r' att : lane_move now r l l' r' att → grows r l l' ∧ ∀ id, acked r' id → acked r id.
Proof.
  destruct 1 as [l l' _ _ Ha Hf|l l' a why _ _ Ha Hf Hj _|l l' a a' rest _ _ _ Ha Hf _ _ _].
  - split; [|done]. split; exists []; rewrite app_nil_r; [done|]. split; [done|]. by intros id ?%not_elem_of_nil.
  - split; [|by apply commit_acks_acked]. split; [exists []; by rewrite app_nil_r|]. exists [(a_id a, why)]. split; [done|].
    intros id [= -> <-]%list_elem_of_singleton. simpl in Hj. unfold is_acknowledged in Hj. unfold acked.
    destruct (application_ack (message a)); [|done]. unfold a_id. destruct (ack_entries r !! _) as [e|]; [|done]. by exists e.
  - split; [|done]. split; exists []; rewrite app_nil_r; [done|]. split; [done|]. by intros id ?%not_elem_of_nil.
Qed.

Record sender_effect s s' : Prop := {
  se_clock : clock s' = clock s;
  se_lanes i l' : lanes s' !! i = Some l' → ∃ l, lanes s !! i = Some l ∧ grows (acks s) l l';
  se_length : lanes s' = [] ∨ length (lanes s') = length (lanes s);
  se_attempts : ∃ new, attempts s' = attempts s ++ new ∧ Forall (fun at_ => at_.2 = clock s) new;
  se_acks id : acked (acks s') id → acked (acks s) id;
}.

Lemma move_effect s i l l' r att mgr :
  lanes s !! i = Some l → lane_move (clock s) (acks s) l l' r att →
  sender_effect s (mkSender (clock s) r (<[i := l']> (lanes s)) mgr
                     (attempts s ++ match att with Some a => [(message a, clock s)] | None => [] end)).
Proof.
  intros Hl [Hg Hacks]%move_grows. split; cbn [clock acks lanes attempts]; [done| | | |done].
  - intros j k [(<- & <- & _)|[_ Hk]]%list_lookup_insert_Some; [by exists l|]. exists k. split; [done|apply grows_refl].
  - right. apply length_insert.
  - eexists. split; [done|]. destruct att; [|done]. by constructor.
Qed.

Lemma quiet_effect s i l l' mgr :
  lanes s !! i = Some l → lane_move (clock s) (acks s) l l' (acks s) None → sender_effect s (set_lane i l' (set_manager mgr s)).
Proof.
  intros Hl Hmove. pose proof (move_effect s i l l' (acks s) None mgr Hl Hmove) as He. by rewrite app_nil_r in He.
Qed.

Lemma reap_all_effect now ls r :
  Forall lane_ok ls → Forall (fun l => task l = None) ls →
  let '(ls', r') := reap_all now ls r in
  length ls' = length ls ∧ (∀ id, acked r' id → acked r id) ∧ ∀ i l', ls' !! i = Some l' → ∃ l, ls !! i = Some l ∧ grows r l l'.
Proof.
  revert r. induction ls as [|l ls IH]; intros r Hok Hidle; cbn [reap_all]; [done|].
  apply Forall_cons_iff in Hok as [Hl Hok], Hidle as [Ht Hidle].
  destruct (reap_terminal_retries now r l) as [l1 r1] eqn:Hreap.
  destruct (move_grows now r l l1 r1 None) as [Hg Hacks].
  { apply reap_move; [done|unfold in_flight; by rewrite Ht|done]. }
  specialize (IH r1 Hok Hidle). destruct (reap_all now ls r1) as [ls' r2]. destruct IH as (IHlen & IHacks & IHls).
  split; [simpl; by rewrite IHlen|]. split; [auto|]. intros [|i] l'; simpl; [intros [= <-]; eauto|]. intros Hi. destruct (IHls i l' Hi) as (k & Hk & [Ha (f & Hf & Hby)]).
  exists k. split; [done|]. split; [done|]. exists f. split; [done|]. auto.
Qed.

Lemma reap_effect s : sender_ok s → manager s = Reconnecting → sender_effect s (reap s).
Proof.
  intros Hok Hre. pose proof (reap_all_effect (clock s) (lanes s) (acks s)) as Hr.
  unfold reap. destruct (reap_all _ _ _) as [ls r]. destruct Hr as (Hlen & Hacks & Hls).
  - apply Forall_lookup_2. intros i l. by apply so_lanes.
  - by apply so_idle.
  - split; cbn [clock acks lanes attempts]; [done|done|by right| |done]. exists []. by rewrite app_nil_r.
Qed.

Lemma enter_effect s i a s' : enter_lane i a s = Some s' → sender_effect s s'.
Proof.
  unfold enter_lane. intros (l & Hl & Henter)%bind_Some. destruct (bool_decide _); [done|].
  apply bind_Some in Henter as ([h r] & Hreg & Henter). destruct (try_send _ _) as [c|]; [|done]. injection Henter as <-.
  split; cbn [clock acks lanes attempts set_lane set_acks]; [done| |right; apply length_insert|exists []; by rewrite app_nil_r|].
  - intros j k [(<- & <- & _)|[_ Hk]]%list_lookup_insert_Some; [|exists k; split; [done|apply grows_refl]]. exists l. split; [done|].
    split; [by eexists|]. exists []. rewrite app_nil_r. split; [done|]. by intros id ?%not_elem_of_nil.
  - intros id (e & He & Ht). destruct (class (message a)); [|injection Hreg as <- <-; by exists e].
    unfold try_register in Hreg. destruct (_ <=? _); [done|]. injection Hreg as <- <-. simpl in He.
    apply lookup_insert_Some in He as [[<- <-]|[_ He]]; [done|]. by exists e.
Qed.

Lemma sender_exec_effect op s s' :
  sender_ok s → sender_exec op s = Some s' →
  match op with STick _ | SAcknowledge _ _ => True | _ => sender_effect s s' end.
Proof.
  intros Hok. assert (∀ s1 : Sender (Chan := Chan), clock s1 = clock s → acks s1 = acks s → lanes s1 = lanes s → attempts s1 = attempts s →
    sender_effect s s1) as Hsame.
  { intros s1 Hc Ha Hl Hat. split; rewrite ?Hc, ?Ha, ?Hl, ?Hat; try done; [|by right|exists []; by rewrite app_nil_r].
    intros i l Hi. exists l. split; [done|apply grows_refl]. }
  destruct op as [t|i a|i|id node|i o|i| | | |i|i| |]; simpl; try done.
  - apply enter_effect.
  - intros (l & Hl & [= <-])%bind_Some. rewrite <- (set_manager_id s) at 2. eapply quiet_effect; [done|].
    destruct (close_spec AdmittedMessage (receiver l)) as (Hq & _). apply move_quiet; unfold upcoming, pending; simpl; rewrite ?Hq; done.
  - destruct (manager s) as [|sd closed|] eqn:Hm; try done. intros (l & Hl & ([[l' r] att] & Hpoll & [= <-])%bind_Some)%bind_Some.
    apply (move_effect s i l); [done|]. apply (lane_poll_move o _ sd); [by eapply so_lanes|done].
  - destruct (manager s) as [|[] closed|]; try done. intros (l & Hl & (t & _ & [= <-])%bind_Some)%bind_Some.
    eapply quiet_effect; [done|apply lane_abort_move; by eapply so_lanes].
  - destruct (manager s) eqn:Hm; try done. intros [= <-]. pose proof (reap_effect s Hok Hm) as Hr.
    destruct (forallb _ _); [|done]. by destruct Hr.
  - destruct (manager s) eqn:Hm; try done. intros [= <-]. by apply reap_effect.
  - destruct (manager s) eqn:Hm; try done. intros [= <-]. split; cbn [clock acks lanes attempts]; try done; [|right; apply length_fmap|exists []; by rewrite app_nil_r].
    intros i l'. rewrite list_lookup_fmap. intros (l & Hl & ->)%fmap_Some_1. exists l. split; [done|]. by destruct (grows_refl (acks s) l).
  - intros (l & Hl & Hj)%bind_Some. destruct (manager s) as [|[] closed|] eqn:Hm; try done;
      destruct (task l) as [[| | | |e]|] eqn:Ht; try done; [injection Hj as <-|destruct e; injection Hj as <-];
      (eapply quiet_effect; [done|by eapply join_move]).
  - destruct (manager s) as [|[] closed|] eqn:Hm; try done. intros (l & Hl & [= <-])%bind_Some. rewrite <- (set_manager_id s) at 2.
    eapply quiet_effect; [done|apply lane_abort_move; by eapply so_lanes].
  - destruct (manager s) as [|[] closed|] eqn:Hm; try done. destruct (forallb _ _) eqn:Hall; [|done]. intros [= <-]. by apply Hsame.
  - intros [= <-]. split; cbn [clock acks lanes attempts]; try done; [by left|exists []; by rewrite app_nil_r|].
    intros id. induction (lanes s ≫= upcoming) as [|a l IH]; simpl; [done|]. intros Hid. apply IH. by eapply commit_acks_acked.
Qed.

(** ** The theorem *)

Definition sender_step s s' : Prop := ∃ op, sender_exec op s = Some s'.

Lemma sender_new_ok n capacity mx : 0 < capacity → sender_ok (sender_new n capacity mx).
Proof.
  intros Hcap. destruct (channel_spec AdmittedMessage capacity Hcap) as (Hq & _).
  assert (∀ i l, lanes (sender_new n capacity mx) !! i = Some l → l = mkLane (channel capacity) [] None [] []) as Hl.
  { intros i l [-> _]%lookup_replicate. done. }
  split; try (by intros * ?%not_elem_of_nil).
  - intros i l ->%Hl. split; unfold upcoming, pending; simpl; [by rewrite Hq|lia].
  - intros _. simpl. apply Forall_replicate. done.
  - simpl. induction (Z.to_nat n) as [|k IH]; simpl; [constructor|done].
  - intros i l a ->%Hl. simpl. rewrite Hq. by intros ?%not_elem_of_nil.
  - intros i l a ->%Hl. by intros ?%not_elem_of_nil.
  - intros i l id why ->%Hl. by intros ?%not_elem_of_nil.
Qed.

Lemma sender_reachable n capacity mx s : 0 < capacity → rtc sender_step (sender_new n capacity mx) s → sender_ok s.
Proof.
  intros Hcap. apply rtc_invariant; [|by apply sender_new_ok]. intros a b Hok [op Hexec]. by eapply sender_exec_ok.
Qed.

(** What comes before the first element of the second half is in the first half. *)
Lemma before_head {A} (l1 l2 pre mid post : list A) x y :
  NoDup (l1 ++ l2) → l1 ++ l2 = pre ++ x :: mid ++ y :: post → y ∈ l1 ∨ head l2 = Some y → x ∈ l1.
Proof.
  revert pre. induction l1 as [|z l1 IH]; simpl; intros pre Hnd Heq Hy.
  - destruct Hy as [Hy%not_elem_of_nil|Hy]; [done|]. destruct l2 as [|w l2]; [done|]. injection Hy as ->. exfalso.
    apply list.NoDup_cons in Hnd as [Hnin _]. apply Hnin. destruct pre as [|v pre]; simpl in Heq; injection Heq as -> ->;
      rewrite ?elem_of_app, ?elem_of_cons, ?elem_of_app, ?elem_of_cons; auto.
  - apply list.NoDup_cons in Hnd as [Hnin Hnd]. destruct pre as [|v pre]; simpl in Heq; injection Heq as -> Heq.
    + by left.
    + right. apply (IH pre Hnd Heq). destruct Hy as [[->|Hy]%elem_of_cons|Hy]; [|by left|by right].
      destruct Hnin. rewrite Heq. rewrite ?elem_of_app, ?elem_of_cons, ?elem_of_app, ?elem_of_cons; auto 10.
Qed.

(** An attempted message of a lane left it or is its oldest. *)
Lemma attempted_oldest s i l m t :
  sender_ok s → lanes s !! i = Some l → (m, t) ∈ attempts s → msg_id m ∈ accepted l →
  msg_id m ∈ (finished l).*1 ∨ head (a_id <$> upcoming l) = Some (msg_id m).
Proof.
  intros Hok Hl Hm Hacc. destruct (so_left _ Hok _ _ Hm) as [Hnil|(j & k & Hk & Hacc' & Hcase)]; [by rewrite Hnil in Hl|].
  assert (i = j) as <- by exact (lane_of_id s i j l k _ Hok Hl Hk Hacc Hacc'). rewrite Hl in Hk. injection Hk as <-.
  destruct Hcase as [Hfin|(a & Ha & Heq)]; [by left|right].
  destruct (pending_cases l (so_lanes _ Hok _ _ Hl)) as [Hp|[b Hp]]; rewrite Hp in Ha; [by apply not_elem_of_nil in Ha|].
  apply list_elem_of_singleton in Ha as ->. rewrite upcoming_pending, Hp. simpl. unfold a_id. by rewrite Heq.
Qed.

Lemma attempted_after s i l m t x pre mid post :
  sender_ok s → lanes s !! i = Some l → (m, t) ∈ attempts s → accepted l = pre ++ x :: mid ++ msg_id m :: post →
  x ∈ (finished l).*1.
Proof.
  intros Hok Hl Hm Heq. pose proof (concat_NoDup _ _ _ (so_ids _ Hok) (accepted_lookup _ _ _ Hl)) as Hnd.
  assert (msg_id m ∈ accepted l) as Hin by (rewrite Heq, ?elem_of_app, ?elem_of_cons, ?elem_of_app, ?elem_of_cons; auto 10).
  pose proof (attempted_oldest s i l m t Hok Hl Hm Hin) as Hold. destruct (so_lanes _ Hok _ _ Hl) as [Ho _].
  rewrite <- Ho in Hnd, Heq. exact (before_head _ _ _ _ _ _ _ Hnd Heq Hold).
Qed.

(** Streams and connections fail, tasks panic and are aborted, answers and deadlines come
    at any time, and the manager reconnects.  In every state the messages that left a lane,
    followed by those it still has, are the messages that entered it, in that order; a
    message left because the peer's acknowledgement of its bytes was enough (it asks for no
    answer), because it was answered, or because its deadline has passed; and a message is
    only attempted when all messages before it have left.  A message that asks for an answer
    is attempted within the 45 seconds that follow its first attempt. *)
Theorem lane_order_preserved n capacity mx s :
  0 < capacity → rtc sender_step (sender_new n capacity mx) s →
  (∀ i l, lanes s !! i = Some l →
     (finished l).*1 ++ (a_id <$> upcoming l) = accepted l ∧ NoDup (accepted l) ∧
     (∀ id why, (id, why) ∈ finished l → finish_ok s id why) ∧
     (∀ m t x pre mid post, (m, t) ∈ attempts s → accepted l = pre ++ x :: mid ++ msg_id m :: post → x ∈ (finished l).*1)) ∧
  (∀ m t m' t', (m, t) ∈ attempts s → (m', t') ∈ attempts s → msg_id m = msg_id m' →
     m = m' ∧ (application_ack m ≠ None → Z.abs (t - t') < APPLICATION_ACK_REPLAY_DEADLINE)).
Proof.
  intros Hcap Hreach. pose proof (sender_reachable n capacity mx s Hcap Hreach) as Hok. split.
  - intros i l Hl. split; [by apply (so_lanes _ Hok i)|].
    split; [exact (concat_NoDup _ _ _ (so_ids _ Hok) (accepted_lookup _ _ _ Hl))|].
    split; [intros id why; by apply (so_finished _ Hok i)|]. intros m t x pre mid post. by apply (attempted_after s i).
  - intros m t m' t' Hm Hm' Hid. destruct (so_attempts _ Hok _ _ Hm) as (_ & Hw & Huniq).
    assert (m' = m) as -> by exact (Huniq m' t' Hm' (eq_sym Hid)). split; [done|]. intros Hack.
    destruct (so_attempts _ Hok _ _ Hm') as (_ & Hw' & _). unfold in_window in Hw, Hw'.
    destruct (application_ack m) as [h|]; [|done]. destruct Hw as (d & Hd & ? & _), Hw' as (d' & Hd' & ? & _).
    rewrite Hd in Hd'. injection Hd' as <-. lia.
Qed.
End order.

(** One lane: a data message fails once and is sent again before the next one. *)
Module OrderDemo.
Definition msg (id : Z) : AdmittedMessage := mkAdmitted (mkPermits 0 10) 1 (mkMessageCtx id 0 4 2 5 1 [] 10 Data None).
Definition history : list sender_op :=
  [SSend 0 (msg 1); SSend 0 (msg 2); SConnect; SPoll 0 Acknowledged; SPoll 0 ConnectionFailed; SJoin 0; SRestart;
   STop; STick (seconds 3); SConnect; SPoll 0 Acknowledged; SPoll 0 Acknowledged; SAcknowledge 1 2; SPoll 0 Acknowledged;
   SPoll 0 Acknowledged].

Fixpoint run (ops : list sender_op) (s : Sender (Chan := fifo)) : option (Sender (Chan := fifo)) :=
  match ops with
  | [] => Some s
  | op :: ops => s ← sender_exec op s; run ops s
  end.

Lemma sender_run_reachable ops s s' : run ops s = Some s' → rtc sender_step s s'.
Proof.
  revert s. induction ops as [|op ops IH]; simpl; intros s; [intros [= ->]; apply rtc_refl|].
  intros (s1 & Hop & Hrun)%bind_Some. eapply rtc_l; [by exists op|]. by apply IH.
Qed.

Definition the_lane (s : Sender (Chan := fifo)) : list (Z * Finish) * list Z * list (Z * Z) :=
  ((lanes s ≫= finished), (lanes s ≫= upcoming) ≫= (fun a => [a_id a]), (fun at_ => (msg_id at_.1, at_.2)) <$> attempts s).
End OrderDemo.

Lemma lane_order_preserved_witness :
  ∃ s l, rtc sender_step (sender_new 1 4 10) s ∧ lanes s !! 0%nat = Some l ∧
    OrderDemo.the_lane s = ([(1, ByApplication)], [2], [(1, 0); (1, seconds 3); (2, seconds 3)]) ∧
    (finished l).*1 ++ (a_id <$> upcoming l) = accepted l ∧ accepted l = [1; 2].
Proof.
  eassert (OrderDemo.run OrderDemo.history (sender_new 1 4 10) = Some _) as Hrun by (vm_compute; reflexivity).
  apply OrderDemo.sender_run_reachable in Hrun. eexists _, _. split; [exact Hrun|]. split; [reflexivity|]. split; [reflexivity|].
  split; [|reflexivity]. refine (proj1 (proj1 (lane_order_preserved 1 4 10 _ ltac:(lia) Hrun) 0%nat _ _)). reflexivity.
Defined.
