(* ===== verification/Requests.v ===== *)
(** * Requests between nodes

    What a node does with a request of an authenticated peer before it executes it
    ([handle_message_err] of [distributed/server.rs]): the peer must still be a member, must
    not speak for another node, and must be allowed to use the environment; and how the
    answer reaches the task that waits for it ([recv_response], [process_responses],
    [await_response] of [distributed/client.rs]).  Theorems: [RequestsOk]. *)

From stdpp Require Import pretty.
From S2P Require Import Prelude External RegistryCoordination NodeQueue Replay Sender.

(** ** Requests ([distributed/message.rs]) *)

Inductive Val : Type := I32 (v : Z) | I64 (v : Z) | V128 (v : Z).

Record Spawn : Type := mkSpawn {
  response_node_id : Z;
  spawn_environment_id : Z;
  module_id : Z;
  function : list Z;
  params : list Val;
  config : list Z;
}.

Inductive Request : Type :=
| RSpawn (spawn : Spawn)
| RMessage (node_id environment_id process_id : Z) (tag : option Z) (data : list Z)
| RResponse (message_id : Z) (content : ResponseContent)
| RRegistry (node_id : Z) (message : RegistryCoordinationMessage).

(** ** The checks before a request is handled *)

Definition text (s : string) : list Z := (fun c => Z.of_N (Ascii.N_of_ascii c)) <$> String.list_ascii_of_string s.

Definition claimed_node_id (r : Request) : option Z :=
  match r with
  | RSpawn spawn => Some (response_node_id spawn)
  | RMessage node _ _ _ _ | RRegistry node _ => Some node
  | RResponse _ _ => None
  end.

Definition env_id (r : Request) : option Z :=
  match r with
  | RSpawn spawn => Some (spawn_environment_id spawn)
  | RMessage _ env _ _ _ => Some env
  | RResponse _ _ | RRegistry _ _ => None
  end.

(** The two ends without an answer, the refusal with one, and the way on. *)
Inductive Verdict : Type :=
| PeerNotActive
| SourceMismatch
| Denied (answer : ResponseContent)
| Allowed.

Definition not_allowed (allowed : option (gset Z)) (env : Z) : bool :=
  match allowed with
  | Some allowed_envs => negb (bool_decide (env ∈ allowed_envs))
  | None => false
  end.

(** What a server knows: the members of the topology, the environments that the certificate
    of the peer names, and those of this node. *)
Record ServerCtx : Type := mkServerCtx {
  is_active_node : Z → bool;
  node_permissions : Z → option (gset Z);
  allowed_envs : option (gset Z);
}.

Definition check_request (ctx : ServerCtx) (peer : Z) (r : Request) : Verdict :=
  if negb (is_active_node ctx peer) then PeerNotActive
  else if match claimed_node_id r with Some claimed => negb (claimed =? peer) | None => false end then SourceMismatch
  else
    match env_id r with
    | Some env =>
        if not_allowed (node_permissions ctx peer) env then
          Denied (Error (Unexpected
            (text "The node sending the request does not have access to the environment " ++ text (pretty env))))
        else if not_allowed (allowed_envs ctx) env then
          Denied (Error (Unexpected (text "This node does not have access to environment " ++ text (pretty env))))
        else Allowed
    | None => Allowed
    end.

(** ** Waiting for answers *)

Section waiters.
Context {Cell : Type → Type} `{!AsyncCell Cell}.

(** [IncomingResponse]; a message has one, so its identity is the [Arc] too. *)
Record IncomingResponse : Type := mkIncoming {
  ir_expected : Z;
  response : Cell ResponseContent;
  created_at : Z;
}.

(** [responses], the cells it points to, the channel of [response_tx] and the tasks inside
    [await_response]; what was received, from whom, and what was given to callers. *)
Record Waiters : Type := mkWaiters {
  responses : gset Z;
  cells : gmap Z IncomingResponse;
  response_channel : list (Z * ResponseContent);
  awaiting : list Z;
  received : list (Z * Z * ResponseContent);
  taken : list (Z * ResponseContent);
}.

Definition waiters_new : Waiters := mkWaiters ∅ ∅ [] [] [] [].

(** [ResponseWaiterGuard::insert], and the insertion of [spawn]. *)
Definition waiter_insert (now message_id node : Z) (w : Waiters) : Waiters :=
  mkWaiters ({[message_id]} ∪ responses w) (<[message_id := mkIncoming node cell_new now]> (cells w)) (response_channel w)
    (awaiting w) (received w) (taken w).

(** [ResponseWaiterGuard::drop] *)
Definition waiter_drop (message_id : Z) (w : Waiters) : Waiters :=
  mkWaiters (responses w ∖ {[message_id]}) (cells w) (response_channel w) (awaiting w) (received w) (taken w).

Inductive Received : Type := UnknownMessage | WrongPeer | AckOnly | Forwarded.

Definition waiter_expected (message_id : Z) (w : Waiters) : option Z :=
  if bool_decide (message_id ∈ responses w) then ir_expected <$> cells w !! message_id else None.

(** [ApplicationAckRegistry::expected_node] *)
Definition ack_expected (message_id : Z) (r : ApplicationAckRegistry) : option Z :=
  expected_node <$> ack_entries r !! message_id.

(** [recv_response]; the channel's receiver is a task of the client that never ends. *)
Definition recv_response (source message_id : Z) (content : ResponseContent) (r : ApplicationAckRegistry) (w : Waiters)
    : Received * ApplicationAckRegistry * Waiters :=
  match option_union (ack_expected message_id r) (waiter_expected message_id w) with
  | None => (UnknownMessage, r, w)
  | Some node =>
      if negb (node =? source) then (WrongPeer, r, w)
      else
        let r := (acknowledge message_id source r).2 in
        let forward q :=
          mkWaiters (responses w) (cells w) q (awaiting w) (received w ++ [(source, message_id, content)]) (taken w) in
        match waiter_expected message_id w with
        | None => (AckOnly, r, forward (response_channel w))
        | Some _ => (Forwarded, r, forward (response_channel w ++ [(message_id, content)]))
        end
  end.

Definition set_response (message_id : Z) (content : ResponseContent) (w : Waiters) : Waiters :=
  mkWaiters (responses w) (alter (fun c => mkIncoming (ir_expected c) (cell_set content (response c)) (created_at c)) message_id (cells w))
    (response_channel w) (awaiting w) (received w) (taken w).

(** [deliver_response] *)
Definition deliver_response (message_id : Z) (content : ResponseContent) (w : Waiters) : Waiters :=
  if bool_decide (message_id ∈ responses w) then set_response message_id content w else w.

(** [recv] of [process_responses] *)
Definition process_response (w : Waiters) : option Waiters :=
  match response_channel w with
  | [] => None
  | (message_id, content) :: rest =>
      Some (deliver_response message_id content
              (mkWaiters (responses w) (cells w) rest (awaiting w) (received w) (taken w)))
  end.

Definition RESPONSE_TIMEOUT : Z := seconds 5.

Definition stale (now timeout : Z) (c : IncomingResponse) : bool := negb (Z.max 0 (now - created_at c) <=? timeout).

(** [expire_responses]: a stale waiter without an answer gets a timeout, one with an
    answer is removed. *)
Definition expire_responses (now timeout : Z) (w : Waiters) : Waiters :=
  let expired id := match cells w !! id with Some c => stale now timeout c && cell_is_set (response c) | None => false end in
  mkWaiters (filter (fun id => expired id = false) (responses w))
    (map_imap (fun id c =>
       Some (if bool_decide (id ∈ responses w) && stale now timeout c && negb (cell_is_set (response c))
             then mkIncoming (ir_expected c) (cell_set (Error ResponseTimeout) (response c)) (created_at c) else c)) (cells w))
    (response_channel w) (awaiting w) (received w) (taken w).

(** [await_response]: the lookup, [None] when the message does not exist, and the end of
    the wait. *)
Definition await_begin (message_id : Z) (w : Waiters) : option Waiters :=
  if bool_decide (message_id ∈ responses w)
  then Some (mkWaiters (responses w) (cells w) (response_channel w) (awaiting w ++ [message_id]) (received w) (taken w))
  else None.

Definition await_end (i : nat) (w : Waiters) : option Waiters :=
  message_id ← awaiting w !! i;
  c ← cells w !! message_id;
  '(content, cell) ← cell_take (response c);
  Some (mkWaiters (responses w ∖ {[message_id]}) (<[message_id := mkIncoming (ir_expected c) cell (created_at c)]> (cells w))
          (response_channel w) (delete i (awaiting w)) (received w) (taken w ++ [(message_id, content)])).

(** A caller that is cancelled or whose timeout passes. *)
Definition await_cancel (i : nat) (w : Waiters) : option Waiters :=
  _ ← awaiting w !! i;
  Some (mkWaiters (responses w) (cells w) (response_channel w) (delete i (awaiting w)) (received w) (taken w)).

(** The operations of a client on its waiters and acknowledgements: a request is prepared
    ([new_message] registers the acknowledgement of a data request, unless it is refused),
    its handle is dropped, and the above. *)
Record Replies : Type := mkReplies {
  r_now : Z;
  r_acks : ApplicationAckRegistry;
  r_waiters : Waiters;
}.

Inductive replies_op : Type :=
| WTick (t : Z)
| WInsert (message_id node : Z)
| WRegister (message_id node : Z)
| WHandleDrop (message_id : Z)
| WGuardDrop (message_id : Z)
| WReceive (source message_id : Z) (content : ResponseContent)
| WProcess
| WExpire
| WAwait (message_id : Z)
| WTake (i : nat)
| WCancel (i : nat).

Definition replies_exec (op : replies_op) (s : Replies) : option Replies :=
  let with_waiters w := mkReplies (r_now s) (r_acks s) w in
  match op with
  | WTick t => if r_now s <=? t then Some (mkReplies t (r_acks s) (r_waiters s)) else None
  | WInsert id node =>
      if bool_decide (is_Some (cells (r_waiters s) !! id)) then None
      else Some (with_waiters (waiter_insert (r_now s) id node (r_waiters s)))
  | WRegister id node =>
      c ← cells (r_waiters s) !! id;
      if negb (ir_expected c =? node) then None
      else
        match try_register id node (r_acks s) with
        | Some (_, r) => Some (mkReplies (r_now s) r (r_waiters s))
        | None => Some s
        end
  | WHandleDrop id => Some (mkReplies (r_now s) (handle_drop id (r_acks s)) (r_waiters s))
  | WGuardDrop id => Some (with_waiters (waiter_drop id (r_waiters s)))
  | WReceive source id content =>
      let '(_, r, w) := recv_response source id content (r_acks s) (r_waiters s) in Some (mkReplies (r_now s) r w)
  | WProcess => w ← process_response (r_waiters s); Some (with_waiters w)
  | WExpire => Some (with_waiters (expire_responses (r_now s) RESPONSE_TIMEOUT (r_waiters s)))
  | WAwait id => w ← await_begin id (r_waiters s); Some (with_waiters w)
  | WTake i => w ← await_end i (r_waiters s); Some (with_waiters w)
  | WCancel i => w ← await_cancel i (r_waiters s); Some (with_waiters w)
  end.

Definition replies_new (max_acks : Z) : Replies := mkReplies 0 (mkAckRegistry ∅ max_acks) waiters_new.
End waiters.

(** ** The handler *)

(** The receiving side of a node and the answers of its checks. *)
Record NodeServer : Type := mkNodeServer {
  inbound : Inbound;
  denials : list (Z * Z * ResponseContent);
}.

(** [handle_message_err] of a request that asks for work, to the execution; [digest] is the
    SHA-256 of its encoding.  The other requests go to [recv_response] and to the registry. *)
Definition serve (digest : Request → list Z) (ctx : ServerCtx) (now peer message_id : Z) (r : Request) (s : NodeServer) : NodeServer :=
  match check_request ctx peer r with
  | PeerNotActive | SourceMismatch => s
  | Denied answer => mkNodeServer (inbound s) (denials s ++ [(peer, message_id, answer)])
  | Allowed =>
      match r with
      | RSpawn _ | RMessage _ _ _ _ _ =>
          mkNodeServer (begin_replay_execution now (mkReplayKey peer message_id) (digest r) (inbound s)) (denials s)
      | RResponse _ _ | RRegistry _ _ => s
      end
  end.
