(* ===== verification/Delivery.v ===== *)
(** * Requests from one node to another, end to end

    The lanes of the sending node ([Sender]), the checks and the replay cache of the
    receiving node ([Requests], [Replay]) and the answers on their way back, composed: a
    copy of a request that was attempted may arrive any number of times, in any order and
    late, or never, and so may an answer. *)

From S2P Require Import Prelude External NodeQueue Replay ReplayOnce Sender SenderOrder Requests.

Section delivery.
Context {Chan : Type → Type} `{!Channel Chan, !ChannelLaws Chan}.
(** The decoder of requests and the digest of their encoding; the two nodes. *)
Context (decode : list Z → option Request) (digest : Request → list Z) (me peer : Z).

Record Delivery : Type := mkDelivery {
  origin : Sender (Chan := Chan);
  target : NodeServer;
}.

(** A step of the sender; a copy of an attempted data request is read by the peer at [now],
    or a request of another node; a step of the tasks of the peer; an answer arrives; time
    passes. *)
Inductive delivery_op : Type :=
| DSender (op : sender_op)
| DServe (j : nat) (now : Z) (ctx : ServerCtx)
| DOther (now other id : Z) (r : Request) (ctx : ServerCtx)
| DServer (op : inbound_op)
| DReply (k : nat)
| DRefusal (k : nat)
| DTick (t : Z).

Definition set_origin (s : Sender) (D : Delivery) : Delivery := mkDelivery s (target D).
Definition set_target (n : NodeServer) (D : Delivery) : Delivery := mkDelivery (origin D) n.
Definition set_inbound (i : Inbound) (D : Delivery) : Delivery := set_target (mkNodeServer i (denials (target D))) D.

(** The queue is that of the peer; an acknowledgement from another node may arrive. *)
Definition own_op (op : sender_op) : bool :=
  match op with
  | STick _ => false
  | SAcknowledge _ node => negb (node =? peer)
  | SSend _ a => msg_node (message a) =? peer
  | _ => true
  end.

Definition server_op_ok (op : inbound_op) : bool :=
  match op with IBegin _ _ _ | ITick _ => false | _ => true end.

Definition delivery_exec (op : delivery_op) (D : Delivery) : option Delivery :=
  match op with
  | DSender op => if own_op op then s ← sender_exec op (origin D); Some (set_origin s D) else None
  | DServe j now ctx =>
      '(m, sent) ← attempts (origin D) !! j;
      _ ← application_ack m;
      r ← decode (msg_data m);
      if (sent <=? now) && (now <=? time (inbound (target D)))
      then Some (set_target (serve digest ctx now me (msg_id m) r (target D)) D) else None
  | DOther now other id r ctx =>
      if negb (other =? me) && (now <=? time (inbound (target D)))
      then Some (set_target (serve digest ctx now other id r (target D)) D) else None
  | DServer op => if server_op_ok op then i ← inbound_exec op (inbound (target D)); Some (set_inbound i D) else None
  | DReply k =>
      '(key, _, _) ← answers (inbound (target D)) !! k;
      if peer_node_id key =? me
      then s ← sender_exec (SAcknowledge (replay_message_id key) peer) (origin D); Some (set_origin s D) else None
  | DRefusal k =>
      '(node, id, _) ← denials (target D) !! k;
      if node =? me then s ← sender_exec (SAcknowledge id peer) (origin D); Some (set_origin s D) else None
  | DTick t =>
      s ← sender_exec (STick t) (origin D);
      i ← inbound_exec (ITick t) (inbound (target D));
      Some (set_inbound i (set_origin s D))
  end.

(** What the lifetime of an answer leaves for a copy: it is looked up less than 135 seconds
    after the attempt that sent it. *)
Definition prompt (D : Delivery) (op : delivery_op) : Prop :=
  match op with
  | DServe j _ _ => ∀ m sent, attempts (origin D) !! j = Some (m, sent) →
      time (inbound (target D)) < sent + (INBOUND_REPLAY_TTL - APPLICATION_ACK_REPLAY_DEADLINE)
  | _ => True
  end.

Definition delivery_step (D D' : Delivery) : Prop := ∃ op, prompt D op ∧ delivery_exec op D = Some D'.

Definition delivery_new (lanes capacity max_acks max_entries : Z) : Delivery :=
  mkDelivery (sender_new lanes capacity max_acks) (mkNodeServer (inbound_new max_entries INBOUND_REPLAY_TTL) []).

(** ** The invariant *)

Implicit Types D : Delivery.

Definition key (id : Z) : ReplayKey := mkReplayKey me id.
Definition refused D (id : Z) : Prop :=
  (∃ fp, (key id, fp, saturated_answer) ∈ answers (inbound (target D))) ∨ ∃ r, (me, id, r) ∈ denials (target D).
Definition answered D (id : Z) : Prop :=
  (∃ fp r, (key id, fp, r) ∈ answers (inbound (target D))) ∨ ∃ r, (me, id, r) ∈ denials (target D).

(** An execution that precedes another. *)
Definition executed_before D (x : Z) (g : Guard) : Prop :=
  ∃ e1 gx e2, executed (inbound (target D)) = e1 ++ gx :: e2 ∧ guard_key gx = key x ∧ g ∈ e2.

Definition from_attempt (ats : list (MessageCtx * Z)) (g : Guard) : Prop :=
  ∃ m t r, (m, t) ∈ ats ∧ guard_key g = key (msg_id m) ∧ application_ack m ≠ None ∧
    decode (msg_data m) = Some r ∧ guard_fingerprint g = digest r.

Record delivery_ok D : Prop := {
  do_sender : sender_ok (origin D);
  do_inbound : inbound_ok (inbound (target D));
  do_ttl : ttl (cache (inbound (target D))) = INBOUND_REPLAY_TTL;
  do_clock : time (inbound (target D)) = clock (origin D);
  do_nodes id e : ack_entries (acks (origin D)) !! id = Some e → expected_node e = peer;
  do_once m t h d : (m, t) ∈ attempts (origin D) → application_ack m = Some h → ack_deadline h = Some d →
    once (key (msg_id m)) (d - APPLICATION_ACK_REPLAY_DEADLINE) (inbound (target D));
  do_executed g : g ∈ executed (inbound (target D)) → peer_node_id (guard_key g) = me → from_attempt (attempts (origin D)) g;
  do_acked id : acked (acks (origin D)) id → answered D id;
  do_finished i l id : lanes (origin D) !! i = Some l → (id, ByApplication) ∈ finished l → answered D id;
  do_order i l x y pre mid post g : lanes (origin D) !! i = Some l → accepted l = pre ++ x :: mid ++ y :: post →
    g ∈ executed (inbound (target D)) → guard_key g = key y → (x, ByApplication) ∈ finished l →
    refused D x ∨ executed_before D x g;
}.

(** *** Steps of the sender *)

Lemma lane_prefix {A} (l ext P post : list A) y :
  NoDup (l ++ ext) → l ++ ext = P ++ y :: post → y ∈ l → ∃ post', l = P ++ y :: post'.
Proof.
  revert P. induction l as [|z l IH]; intros P Hnd Heq Hy; [by apply not_elem_of_nil in Hy|].
  simpl in Hnd. apply list.NoDup_cons in Hnd as [Hnin Hnd]. destruct P as [|v P]; simpl in Heq; injection Heq as -> Heq; [by exists l|].
  apply elem_of_cons in Hy as [->|Hy]; [|destruct (IH P Hnd Heq Hy) as [post' ->]; by exists post'].
  destruct Hnin. rewrite Heq. apply elem_of_app. right. by left.
Qed.

Lemma finished_reason s i l f x why :
  sender_ok s → lanes s !! i = Some l → (x, why) ∈ f ++ drop (length f) (finished l) → take (length f) (finished l) = f →
  x ∈ f.*1 → (x, why) ∈ f.
Proof.
  intros Hok Hl Hin Htake Hx. pose proof (concat_NoDup _ _ _ (so_ids _ Hok) (accepted_lookup _ _ _ Hl)) as Hnd.
  destruct (so_lanes _ Hok _ _ Hl) as [Ho _]. rewrite <- Ho in Hnd. apply NoDup_app in Hnd as (Hnd & _ & _).
  rewrite <- (take_drop (length f) (finished l)), Htake, fmap_app in Hnd. apply NoDup_app in Hnd as (_ & Hdisj & _).
  apply elem_of_app in Hin as [|Hin]; [done|]. destruct (Hdisj x Hx). by apply (list_elem_of_fmap_2 fst) in Hin.
Qed.

(** Pairs of a lane where the second was attempted are as old as the attempt. *)
Lemma old_pair s s' i l' x pre mid post m t :
  sender_ok s → sender_ok s' → sender_effect s s' → lanes s' !! i = Some l' → (m, t) ∈ attempts s →
  accepted l' = pre ++ x :: mid ++ msg_id m :: post → (x, ByApplication) ∈ finished l' →
  ∃ l post', lanes s !! i = Some l ∧ accepted l = pre ++ x :: mid ++ msg_id m :: post' ∧ (x, ByApplication) ∈ finished l.
Proof.
  intros Hok Hok' He Hl' Hm Hacc Hfin. destruct (se_lanes _ _ He _ _ Hl') as (l & Hl & [[ext Hext] (f & Hf & _)]).
  assert (msg_id m ∈ accepted l) as Hy.
  { destruct (so_left _ Hok _ _ Hm) as [Hnil|(j & k & Hk & Hy & _)]; [by rewrite Hnil in Hl|].
    destruct (se_length _ _ He) as [Hnil|Hlen]; [by rewrite Hnil in Hl'|].
    destruct (lookup_lt_is_Some_2 (lanes s') j) as [k' Hk']; [rewrite Hlen; by eapply lookup_lt_Some|].
    destruct (se_lanes _ _ He _ _ Hk') as (k0 & Hk0 & [[ext' Hext'] _]). rewrite Hk in Hk0. injection Hk0 as <-.
    assert (i = j) as <-; [|congruence]. apply (lane_of_id s' i j l' k' (msg_id m)); try done.
    - rewrite Hacc. rewrite ?elem_of_app, ?elem_of_cons, ?elem_of_app, ?elem_of_cons. auto 10.
    - rewrite Hext'. apply elem_of_app. by left. }
  pose proof (concat_NoDup _ _ _ (so_ids _ Hok') (accepted_lookup _ _ _ Hl')) as Hnd. rewrite Hext in Hnd, Hacc.
  destruct (lane_prefix (accepted l) ext (pre ++ x :: mid) post (msg_id m) Hnd) as [post' Hpost];
    [by rewrite <- app_assoc|done|]. rewrite <- app_assoc in Hpost. simpl in Hpost.
  exists l, post'. split; [done|]. split; [done|]. apply (finished_reason s' i l' (finished l) x); try done.
  - rewrite Hf, drop_app_length, <- Hf. done.
  - by rewrite Hf, take_app_length.
  - exact (attempted_after s i l m t x pre mid post' Hok Hl Hm Hpost).
Qed.

Definition to_peer (r : ApplicationAckRegistry) : Prop := ∀ id e, ack_entries r !! id = Some e → expected_node e = peer.

Lemma commit_acks_peer a r : to_peer r → to_peer (commit_acks a r).
Proof. unfold to_peer, commit_acks. destruct (application_ack _); [|done]. simpl. intros Hr id e [_ He]%lookup_delete_Some. by eapply Hr. Qed.
Lemma commit_all_peer l r : to_peer r → to_peer (foldr commit_acks r l).
Proof. intros Hr. induction l; simpl; [done|by apply commit_acks_peer]. Qed.

Lemma reap_all_peer now (ls : list (Lane (Chan := Chan))) r : to_peer r → to_peer (reap_all now ls r).2.
Proof.
  revert r. induction ls as [|l ls IH]; intros r Hr; [done|]. cbn [reap_all]. destruct (reap_terminal_retries now r l) as [l' r1] eqn:Hreap.
  injection Hreap as _ <-. specialize (IH _ (commit_all_peer (filter (fun a => terminal now r a ≠ None) (retry_front l)) _ Hr)).
  by destruct (reap_all now ls _).
Qed.

Lemma sender_exec_peer op (s s' : Sender (Chan := Chan)) :
  sender_ok s → sender_exec op s = Some s' → own_op op = true → to_peer (acks s) → to_peer (acks s').
Proof.
  intros Hok Hexec Hown Hr. destruct op as [t|i a|i|id node|i o|i| | | |i|i| |]; simpl in Hexec, Hown; try done.
  - unfold enter_lane in Hexec. apply bind_Some in Hexec as (l & _ & Hexec). destruct (bool_decide _); [done|].
    apply bind_Some in Hexec as ([h r] & Hreg & Hexec). destruct (try_send _ _); [|done]. injection Hexec as <-. simpl.
    destruct (class (message a)); [|by injection Hreg as _ <-]. unfold try_register in Hreg. destruct (_ <=? _); [done|].
    injection Hreg as _ <-. bool_to_prop. intros id e. simpl. intros [[_ <-]|[_ He]]%lookup_insert_Some; [done|by eapply Hr].
  - by apply bind_Some in Hexec as (l & _ & [= <-]).
  - injection Hexec as <-. simpl. unfold acknowledge. destruct (ack_entries (acks s) !! id) as [e|] eqn:He; [|done].
    destruct (negb (expected_node e =? node)); [done|]. intros x e'. simpl.
    intros [[_ <-]|[_ Hx]]%lookup_insert_Some; [exact (Hr id e He)|by eapply Hr].
  - destruct (manager s) as [|sd closed|]; try done. apply bind_Some in Hexec as (l & Hl & Hexec).
    apply bind_Some in Hexec as ([[l' r] att] & Hpoll & [= <-]). simpl.
    apply lane_poll_move in Hpoll; [|by eapply so_lanes]. destruct Hpoll; [done|by apply commit_acks_peer|done].
  - destruct (manager s) as [|[] closed|]; try done. by apply bind_Some in Hexec as (l & _ & (? & _ & [= <-])%bind_Some).
  - destruct (manager s); try done. injection Hexec as <-. pose proof (reap_all_peer (clock s) (lanes s) _ Hr) as Hreap.
    unfold reap. destruct (reap_all _ _ _). by destruct (forallb _ _).
  - destruct (manager s); try done. injection Hexec as <-. pose proof (reap_all_peer (clock s) (lanes s) _ Hr) as Hreap.
    unfold reap. by destruct (reap_all _ _ _).
  - destruct (manager s); try done. by injection Hexec as <-.
  - apply bind_Some in Hexec as (l & _ & Hexec). destruct (manager s) as [|[] ?|]; try done; destruct (task l) as [[| | | |[]]|]; try done;
      by injection Hexec as <-.
  - destruct (manager s) as [|[] ?|]; try done. by apply bind_Some in Hexec as (l & _ & [= <-]).
  - destruct (manager s) as [|[] ?|]; try done. destruct (forallb _ _); [|done]. by injection Hexec as <-.
  - injection Hexec as <-. by apply commit_all_peer.
Qed.

(** A first attempt is of a request that was not executed. *)
Lemma once_unattempted D m d :
  delivery_ok D → (∀ m' t, (m', t) ∈ attempts (origin D) → msg_id m' ≠ msg_id m) → once (key (msg_id m)) d (inbound (target D)).
Proof.
  intros Hok Hnew. assert (executions (key (msg_id m)) (inbound (target D)) = []) as Hnone.
  { unfold executions. apply elem_of_nil_inv. intros g [Hk Hg]%list_elem_of_filter.
    destruct (do_executed _ Hok g Hg) as (m' & t & r & Hm & Hkey & _); [by rewrite Hk|].
    apply (Hnew m' t Hm). rewrite Hk in Hkey. by injection Hkey. }
  split; rewrite Hnone; [simpl; lia|]. by intros g ?%not_elem_of_nil.
Qed.

Lemma origin_step_ok D s' :
  delivery_ok D → sender_ok s' → sender_effect (origin D) s' → to_peer (acks s') → delivery_ok (set_origin s' D).
Proof.
  intros Hok Hok' He Hnodes. pose proof Hok as [Hs Hi Httl Hclock _ Honce Hexe Hack Hfin Hord].
  destruct (se_attempts _ _ He) as (new & Hat & _).
  assert (∀ m t, (m, t) ∈ attempts (origin D) → (m, t) ∈ attempts s') as Hsub by (intros; rewrite Hat; apply elem_of_app; auto).
  split; simpl; try done.
  - rewrite (se_clock _ _ He). done.
  - intros m t h d Hm Hh Hd. destruct (decide (Exists (fun p => msg_id p.1 = msg_id m) (attempts (origin D)))) as [Hex|Hno].
    + apply Exists_exists in Hex as ([m' t'] & Hm' & Hid). simpl in Hid.
      destruct (so_attempts _ Hok' _ _ Hm) as (_ & _ & Huniq). rewrite (Huniq m' t' (Hsub _ _ Hm') Hid) in Hm'. by eapply Honce.
    + apply once_unattempted; [done|]. intros m' t' Hm' Hid. apply Hno, Exists_exists. by exists (m', t').
  - intros g Hg Hk. destruct (Hexe g Hg Hk) as (m & t & r & ? & ?). exists m, t, r. auto.
  - intros id Hid. by apply Hack, (se_acks _ _ He).
  - intros i l' id Hl' Hid. destruct (se_lanes _ _ He _ _ Hl') as (l & Hl & [_ (f & Hf & Hby)]). rewrite Hf in Hid.
    apply elem_of_app in Hid as [Hid|Hid]; [by eapply Hfin|by apply Hack, Hby].
  - intros i l' x y pre mid post g Hl' Hacc Hg Hk Hx.
    destruct (Hexe g Hg) as (m & t & r & Hm & Hkey & _); [by rewrite Hk|]. rewrite Hk in Hkey. injection Hkey as ->.
    destruct (old_pair (origin D) s' i l' x pre mid post m t) as (l & post' & Hl & Hacc' & Hx'); try done.
    by eapply (Hord i l).
Qed.

Lemma ack_step_ok D id :
  delivery_ok D → answered D id → delivery_ok (set_origin (set_acks (acknowledge id peer (acks (origin D))).2 (origin D)) D).
Proof.
  intros [Hs Hi Httl Hclock Hn Honce Hexe Hack Hfin Hord] Hans. split; simpl; try done; [by apply ok_acks|..].
  - unfold acknowledge. destruct (ack_entries (acks (origin D)) !! id) as [e|] eqn:He; [|done].
    destruct (negb _); [done|]. intros x e'. simpl. intros [[_ <-]|[_ Hx]]%lookup_insert_Some; [exact (Hn id e He)|by eapply Hn].
  - intros x (e & He & Ht). destruct (decide (x = id)) as [->|Hne]; [done|]. apply Hack. unfold acknowledge in He.
    destruct (ack_entries (acks (origin D)) !! id); [|by exists e]. destruct (negb _); [by exists e|]. simpl in He.
    rewrite lookup_insert_ne in He by done. by exists e.
Qed.

(** *** Steps of the peer *)

Lemma inbound_exec_executed op s s' :
  inbound_exec op s = Some s' →
  executed s' = executed s ∨ ∃ now k fp arc, op = IBegin now k fp ∧ executed s' = executed s ++ [mkGuard k fp arc].
Proof.
  destruct op as [now k fp|i r|i|i|i|t]; simpl; unfold guard_finish, guard_drop, entry_wait; intros Hexec.
  - destruct (_ <=? _); [|done]. injection Hexec as <-. unfold begin_replay_execution. destruct (begin_ _ _ _ _ _) as [[] c]; eauto 10.
  - by apply bind_Some in Hexec as (g & _ & [= <-]); left.
  - by apply bind_Some in Hexec as (g & _ & [= <-]); left.
  - by apply bind_Some in Hexec as (g & _ & (? & _ & [= <-])%bind_Some); left.
  - by apply bind_Some in Hexec as (g & _ & [= <-]); left.
  - destruct (_ <=? _); [|done]. by injection Hexec as <-; left.
Qed.

Lemma inbound_exec_answers op s s' : inbound_exec op s = Some s' → answers s ⊆ answers s'.
Proof.
  destruct op as [now k fp|i r|i|i|i|t]; simpl; unfold guard_finish, guard_drop, entry_wait; intros Hexec.
  - destruct (_ <=? _); [|done]. injection Hexec as <-. unfold begin_replay_execution. destruct (begin_ _ _ _ _ _) as [[] c]; simpl; try done;
      intros x Hx; apply elem_of_app; by left.
  - apply bind_Some in Hexec as (g & _ & [= <-]). simpl. intros x Hx. apply elem_of_app. by left.
  - by apply bind_Some in Hexec as (g & _ & [= <-]).
  - apply bind_Some in Hexec as (g & _ & (? & _ & [= <-])%bind_Some). simpl. by apply list_subseteq_app_l.
  - by apply bind_Some in Hexec as (g & _ & [= <-]).
  - destruct (_ <=? _); [|done]. by injection Hexec as <-.
Qed.

Lemma executed_before_app D D' x g ext :
  executed (inbound (target D')) = executed (inbound (target D)) ++ ext → executed_before D x g → executed_before D' x g.
Proof.
  intros Heq (e1 & gx & e2 & He & Hk & Hg). exists e1, gx, (e2 ++ ext). split; [by rewrite Heq, He, <- app_assoc|].
  split; [done|]. apply elem_of_app. by left.
Qed.

(** What was answered was refused or executed. *)
Lemma answered_executed D x :
  delivery_ok D → answered D x →
  refused D x ∨ ∃ g r, g ∈ executed (inbound (target D)) ∧ guard_key g = key x ∧
    (guard_arc g, r) ∈ outcomes (inbound (target D)) ∧ (key x, guard_fingerprint g, r) ∈ answers (inbound (target D)).
Proof.
  intros Hok [(fp & r & Hr)|Hd]; [|by left; right].
  destruct (io_answers _ (do_inbound _ Hok) _ _ _ Hr) as [->|(a & Ha & Ho)]; [left; left; by exists fp|].
  right. by exists (mkGuard (key x) fp a), r.
Qed.

Lemma inbound_step_ok D op i' :
  delivery_ok D → inbound_exec op (inbound (target D)) = Some i' → time i' = time (inbound (target D)) →
  (∀ m t h d, (m, t) ∈ attempts (origin D) → application_ack m = Some h → ack_deadline h = Some d →
     timely (key (msg_id m)) (d - APPLICATION_ACK_REPLAY_DEADLINE) (inbound (target D)) op) →
  (∀ now k fp arc, op = IBegin now k fp → peer_node_id k = me → from_attempt (attempts (origin D)) (mkGuard k fp arc)) →
  delivery_ok (set_inbound i' D).
Proof.
  intros Hok Hexec Htime Htimely Hfrom. pose proof Hok as [Hs Hi Httl Hclock Hn Honce Hexe Hack Hfin Hord].
  destruct (inbound_frame _ _ _ Hexec) as [_ Httl']. pose proof (inbound_exec_answers _ _ _ Hexec) as Hans.
  assert (∀ id, answered D id → answered (set_inbound i' D) id) as Hmono.
  { intros id [(fp & r & Hr)|Hd]; [left|by right]. exists fp, r. by apply Hans. }
  assert (∀ id, refused D id → refused (set_inbound i' D) id) as Href.
  { intros id [[fp Hr]|Hd]; [left; exists fp; by apply Hans|by right]. }
  split; simpl; try done; auto.
  - by eapply inbound_exec_ok.
  - by rewrite Httl'.
  - by rewrite Htime.
  - intros m t h d Hm Hh Hd. eapply once_step; eauto. by rewrite Httl.
  - intros g Hg Hk. destruct (inbound_exec_executed _ _ _ Hexec) as [Heq|(now & k & fp & arc & Hop & Heq)]; rewrite Heq in Hg; [auto|].
    apply elem_of_app in Hg as [Hg|Hg%list_elem_of_singleton]; [auto|subst g]. by eapply Hfrom.
  - eauto.
  - intros i l x y pre mid post g Hl Hacc Hg Hk Hx.
    assert (g ∈ executed (inbound (target D)) → refused (set_inbound i' D) x ∨ executed_before (set_inbound i' D) x g) as Hold.
    { intros Hg'. destruct (Hord i l x y pre mid post g) as [?|?]; [done..|by left; auto|right].
      destruct (inbound_exec_executed _ _ _ Hexec) as [Heq|(now & k & fp & arc & Hop & Heq)];
        (eapply executed_before_app; [|done]); [by rewrite app_nil_r|done]. }
    destruct (inbound_exec_executed _ _ _ Hexec) as [Heq|(now & k & fp & arc & Hop & Heq)]; rewrite Heq in Hg; [auto|].
    apply elem_of_app in Hg as [Hg|Hg%list_elem_of_singleton]; [auto|].
    destruct (answered_executed D x Hok (Hfin i l x Hl Hx)) as [?|(gx & _ & Hgx & Hkx & _)]; [by left; auto|right].
    apply list_elem_of_split in Hgx as (e1 & e2 & He). exists e1, gx, (e2 ++ [g]). simpl. subst g.
    split; [by rewrite Heq, He, <- app_assoc|]. split; [done|]. apply elem_of_app. right. by apply list_elem_of_singleton.
Qed.

Lemma denial_step_ok D d : delivery_ok D → delivery_ok (set_target (mkNodeServer (inbound (target D)) (denials (target D) ++ [d])) D).
Proof.
  intros [Hs Hi Httl Hclock Hn Honce Hexe Hack Hfin Hord]. set (D' := set_target _ D).
  assert (∀ id, answered D id → answered D' id) as Hmono.
  { intros id [?|[r Hd]]; [by left|right]. exists r. simpl. apply elem_of_app. by left. }
  assert (∀ id, refused D id → refused D' id) as Href.
  { intros id [Hr|[r Hd]]; [by left|right]. exists r. simpl. apply elem_of_app. by left. }
  split; simpl; try done; eauto. intros i l x y pre mid post g Hl Hacc Hg Hk Hx.
  destruct (Hord i l x y pre mid post g) as [?|?]; auto.
Qed.

Lemma serve_ok D ctx now node id r :
  delivery_ok D → now <= time (inbound (target D)) →
  (∀ m t h d, (m, t) ∈ attempts (origin D) → application_ack m = Some h → ack_deadline h = Some d →
     timely (key (msg_id m)) (d - APPLICATION_ACK_REPLAY_DEADLINE) (inbound (target D)) (IBegin now (mkReplayKey node id) (digest r))) →
  (node = me → ∃ m t, (m, t) ∈ attempts (origin D) ∧ id = msg_id m ∧ application_ack m ≠ None ∧ decode (msg_data m) = Some r) →
  delivery_ok (set_target (serve digest ctx now node id r (target D)) D).
Proof.
  intros Hok Hnow Htimely Hfrom. assert (set_target (target D) D = D) as Hid by (by destruct D).
  assert (delivery_ok (set_inbound (begin_replay_execution now (mkReplayKey node id) (digest r) (inbound (target D))) D)) as Hbegin.
  { eapply (inbound_step_ok D (IBegin now (mkReplayKey node id) (digest r))); try done.
    - simpl. destruct (now <=? _) eqn:E; bool_to_prop; [done|lia].
    - apply begin_frame.
    - intros now' k fp arc [= <- <- <-] Hk. simpl in Hk. destruct (Hfrom Hk) as (m & t & Hm & -> & Ha & Hd). subst node. by exists m, t, r. }
  unfold serve. destruct (check_request ctx node r); [by rewrite Hid..|by apply denial_step_ok|].
  destruct r; try done; by rewrite Hid.
Qed.

(** *** All steps *)

Lemma sender_case op D s' :
  delivery_ok D → own_op op = true → sender_exec op (origin D) = Some s' → delivery_ok (set_origin s' D).
Proof.
  intros Hok Hown Hexec. pose proof (do_sender _ Hok) as Hs. pose proof (sender_exec_ok _ _ _ Hs Hexec) as Hs'.
  pose proof (sender_exec_peer _ _ _ Hs Hexec Hown (do_nodes _ Hok)) as Hp.
  destruct op; try (apply origin_step_ok; try done; exact (sender_exec_effect _ _ _ Hs Hexec)).
  simpl in Hown, Hexec. bool_to_prop. injection Hexec as <-.
  replace (acknowledge message_id source_node (acks (origin D))).2 with (acks (origin D)); [by destruct D as [[]]|].
  unfold acknowledge. destruct (ack_entries (acks (origin D)) !! message_id) as [e|] eqn:He; [|done].
  rewrite (do_nodes _ Hok _ _ He). destruct (peer =? source_node) eqn:Heq; [|done]. bool_to_prop. congruence.
Qed.

Lemma serve_case j now ctx D D' :
  delivery_ok D → prompt D (DServe j now ctx) → delivery_exec (DServe j now ctx) D = Some D' → delivery_ok D'.
Proof.
  intros Hok Hprompt. simpl. intros ([m sent] & Hj & (h & Hh & (r & Hr & Hif)%bind_Some)%bind_Some)%bind_Some.
  destruct (_ && _) eqn:Hcond; [|done]. injection Hif as <-. bool_to_prop. specialize (Hprompt _ _ Hj).
  assert ((m, sent) ∈ attempts (origin D)) as Hm by (apply list_elem_of_lookup; eauto).
  apply serve_ok; try done; [|exists m, sent; by rewrite Hh].
  intros m' t' h' d' Hm' Hh' Hd' [= Hid]. destruct (so_attempts _ (do_sender _ Hok) _ _ Hm) as (_ & Hw & Huniq).
  rewrite (Huniq _ _ Hm' (eq_sym Hid)) in Hh'. rewrite Hh in Hh'. injection Hh' as <-.
  unfold in_window in Hw. rewrite Hh in Hw. destruct Hw as (d & Hd & Hwin & _). rewrite Hd' in Hd. injection Hd as <-.
  rewrite (do_ttl _ Hok). lia.
Qed.

Lemma tick_case t D D' : delivery_ok D → delivery_exec (DTick t) D = Some D' → delivery_ok D'.
Proof.
  intros Hok. cbn [delivery_exec]. intros (s & Hs & (i & Hi & [= <-])%bind_Some)%bind_Some.
  pose proof Hok as [Hso Hio Httl Hclock Hn Honce Hexe Hack Hfin Hord].
  pose proof (sender_exec_ok _ _ _ Hso Hs) as Hso'. pose proof (inbound_exec_ok _ _ _ Hio Hi) as Hio'.
  assert (∀ m t0 h d, (m, t0) ∈ attempts (origin D) → application_ack m = Some h → ack_deadline h = Some d →
    once (key (msg_id m)) (d - APPLICATION_ACK_REPLAY_DEADLINE) i) as Honce'.
  { intros m t0 h d Hm Hh Hd. apply (once_step _ _ (ITick t) (inbound (target D)) i); try done; [by rewrite Httl|by eapply Honce]. }
  simpl in Hs, Hi. destruct (clock (origin D) <=? t); [|done]. injection Hs as <-.
  destruct (time (inbound (target D)) <=? t); [|done]. injection Hi as <-. by split.
Qed.

Lemma delivery_exec_ok op D D' : delivery_ok D → prompt D op → delivery_exec op D = Some D' → delivery_ok D'.
Proof.
  intros Hok Hprompt Hexec. destruct op as [op|j now ctx|now other id r ctx|op|k|k|t].
  - simpl in Hexec. destruct (own_op op) eqn:Hown; [|done]. apply bind_Some in Hexec as (s & Hs & [= <-]). by eapply sender_case.
  - by eapply serve_case.
  - simpl in Hexec. destruct (_ && _) eqn:Hcond; [|done]. injection Hexec as <-. bool_to_prop. apply serve_ok; try done.
    intros m t h d _ _ _ [= -> _]. done.
  - simpl in Hexec. destruct (server_op_ok op) eqn:Hop; [|done]. apply bind_Some in Hexec as (i & Hi & [= <-]).
    eapply (inbound_step_ok D op); try done; destruct op; try done; simpl in Hi.
    + by unfold guard_finish in Hi; apply bind_Some in Hi as (g & _ & [= <-]).
    + by unfold guard_drop in Hi; apply bind_Some in Hi as (g & _ & [= <-]).
    + by unfold entry_wait in Hi; apply bind_Some in Hi as (g & _ & (? & _ & [= <-])%bind_Some).
    + by apply bind_Some in Hi as (g & _ & [= <-]).
  - simpl in Hexec. apply bind_Some in Hexec as ([[ky fp] r] & Hk & Hexec). destruct (_ =? _) eqn:Hme; [|done]. bool_to_prop.
    injection Hexec as <-. apply ack_step_ok; [done|]. left. exists fp, r. apply list_elem_of_lookup. exists k. rewrite Hk.
    unfold key. rewrite <- Hme. by destruct ky.
  - simpl in Hexec. apply bind_Some in Hexec as ([[node id] r] & Hk & Hexec). destruct (_ =? _) eqn:Hme; [|done]. bool_to_prop.
    injection Hexec as <-. apply ack_step_ok; [done|]. right. exists r. apply list_elem_of_lookup. exists k. by rewrite Hk, Hme.
  - by eapply tick_case.
Qed.

Lemma delivery_reachable lanes capacity mx entries D :
  0 < capacity → 0 <= entries → rtc delivery_step (delivery_new lanes capacity mx entries) D → delivery_ok D.
Proof.
  intros Hcap Hent. apply rtc_invariant; [intros a b Hok (op & Hp & Hexec); by eapply delivery_exec_ok|].
  split; try (by intros * ?%not_elem_of_nil); try done.
  - by apply sender_new_ok.
  - by apply inbound_new_ok.
  - intros id (e & He & _). simpl in He. by rewrite lookup_empty in He.
  - intros i l id [-> _]%lookup_replicate. by intros ?%not_elem_of_nil.
  - by intros * _ _ ?%not_elem_of_nil.
Qed.

(** ** The theorems *)

(** C2. At most once, end to end.  Streams and connections fail, messages are sent again,
    copies arrive many times, late and out of order, tasks of the peer are cancelled, other
    nodes send what they like.  When every copy is looked up within 135 seconds of the
    attempt that sent it, a data request of this node is executed at most once by the
    peer, and what the peer executes in the name of this node is a request it sent. *)
Theorem request_delivered_at_most_once lanes capacity mx entries D :
  0 < capacity → 0 <= entries → rtc delivery_step (delivery_new lanes capacity mx entries) D →
  (∀ m t, (m, t) ∈ attempts (origin D) → application_ack m ≠ None →
     (length (executions (key (msg_id m)) (inbound (target D))) <= 1)%nat) ∧
  (∀ g, g ∈ executed (inbound (target D)) → peer_node_id (guard_key g) = me → from_attempt (attempts (origin D)) g).
Proof.
  intros Hcap Hent Hreach. pose proof (delivery_reachable _ _ _ _ _ Hcap Hent Hreach) as Hok. split; [|apply Hok].
  intros m t Hm Hack. destruct (so_attempts _ (do_sender _ Hok) _ _ Hm) as (_ & Hw & _). unfold in_window in Hw.
  destruct (application_ack m) as [h|] eqn:Hh; [|done]. destruct Hw as (d & Hd & _).
  apply (do_once _ Hok m t h d Hm Hh Hd).
Qed.

(** The execution of a request of this node is the only one of it. *)
Lemma execution_unique D g :
  delivery_ok D → g ∈ executed (inbound (target D)) → peer_node_id (guard_key g) = me →
  executions (guard_key g) (inbound (target D)) = [g].
Proof.
  intros Hok Hg Hme. destruct (do_executed _ Hok g Hg Hme) as (m & t & r & Hm & Hkey & Hack & _).
  destruct (so_attempts _ (do_sender _ Hok) _ _ Hm) as (_ & Hw & _). unfold in_window in Hw.
  destruct (application_ack m) as [h|] eqn:Hh; [|done]. destruct Hw as (d & Hd & _).
  destruct (do_once _ Hok m t h d Hm Hh Hd) as [Hone _]. rewrite <- Hkey in Hone.
  assert (g ∈ executions (guard_key g) (inbound (target D))) as Hin by (by apply list_elem_of_filter).
  destruct (executions _ _) as [|x [|y l]]; [by apply not_elem_of_nil in Hin| |simpl in Hone; lia].
  by apply list_elem_of_singleton in Hin as ->.
Qed.

(** An answer about a request of this node is the only outcome of its only execution, or says
    that the cache of the peer was full. *)
Lemma answer_faithful D id fp r :
  delivery_ok D → (key id, fp, r) ∈ answers (inbound (target D)) →
  r = saturated_answer ∨
  ∃ g, executions (key id) (inbound (target D)) = [g] ∧ guard_fingerprint g = fp ∧
       ∀ r', (guard_arc g, r') ∈ outcomes (inbound (target D)) ↔ r' = r.
Proof.
  intros Hok Hr. pose proof (do_inbound _ Hok) as Hi. destruct (io_answers _ Hi _ _ _ Hr) as [->|(a & Ha & Ho)]; [by left|right].
  exists (mkGuard (key id) fp a). split; [by apply (execution_unique D (mkGuard (key id) fp a))|]. split; [done|]. simpl. intros r'.
  split; [|by intros ->]. rewrite <- (io_outcomes _ Hi) in Ho |- *. destruct Ho as [t Ht]. intros [t' Ht']. congruence.
Qed.


(** C3. Requests are executed in the order of their lane.  When a request is executed by the
    peer, every request before it in its lane has left the lane; and one that left it
    because it was answered, and was not refused, was executed before it. *)
Theorem requests_execute_in_lane_order lanes capacity mx entries D i l x y pre mid post g :
  0 < capacity → 0 <= entries → rtc delivery_step (delivery_new lanes capacity mx entries) D →
  Sender.lanes (origin D) !! i = Some l → accepted l = pre ++ x :: mid ++ y :: post →
  g ∈ executed (inbound (target D)) → guard_key g = key y →
  ∃ why, (x, why) ∈ finished l ∧ (why = ByApplication → refused D x ∨ executed_before D x g).
Proof.
  intros Hcap Hent Hreach Hl Hacc Hg Hk. pose proof (delivery_reachable _ _ _ _ _ Hcap Hent Hreach) as Hok.
  destruct (do_executed _ Hok g Hg) as (m & t & r & Hm & Hkey & _); [by rewrite Hk|]. rewrite Hk in Hkey. injection Hkey as ->.
  pose proof (attempted_after _ _ _ _ _ _ _ _ _ (do_sender _ Hok) Hl Hm Hacc) as Hx.
  apply list_elem_of_fmap in Hx as ([x' why] & -> & Hin). exists why. split; [done|]. intros ->. by eapply (do_order _ Hok i l).
Qed.
End delivery.

(** Two requests in one lane; the connection breaks after the first was executed, it is sent
    again and answered from the cache, and then the second is executed. *)
Module DeliveryDemo.
Definition decode (d : list Z) : option Request := Some (RMessage 1 7 5 None d).
Definition digest (r : Request) : list Z := match r with RMessage _ _ _ _ d => d | _ => [] end.
Definition ctx : ServerCtx := mkServerCtx (fun _ => true) (fun _ => None) None.
Definition msg (id : Z) : AdmittedMessage := mkAdmitted (mkPermits 0 10) 1 (mkMessageCtx id 0 4 2 5 1 [id] 10 Data None).

Definition ops : list delivery_op :=
  [DSender (SSend 0 (msg 1)); DSender (SSend 0 (msg 2)); DSender SConnect; DSender (SPoll 0 Acknowledged);
   DServe 0 0 ctx; DServer (IFinish 0 Sent); DSender (SPoll 0 ConnectionFailed); DSender (SJoin 0); DSender SRestart;
   DTick (seconds 3); DSender SConnect; DSender (SPoll 0 Acknowledged); DServe 1 (seconds 3) ctx; DReply 1;
   DSender (SPoll 0 ApplicationAcknowledged); DSender (SPoll 0 Acknowledged); DServe 2 (seconds 3) ctx].

Definition run1 (op : delivery_op) (D : Delivery (Chan := fifo)) : option (Delivery (Chan := fifo)) :=
  delivery_exec decode digest 1 2 op D.
Fixpoint run (ops : list delivery_op) (D : Delivery (Chan := fifo)) : option (Delivery (Chan := fifo)) :=
  match ops with
  | [] => Some D
  | op :: ops => D ← run1 op D; run ops D
  end.

(** [prompt], decided. *)
Definition promptb (D : Delivery (Chan := fifo)) (op : delivery_op) : bool :=
  match op with
  | DServe j _ _ =>
      match attempts (origin D) !! j with
      | Some (_, sent) => time (inbound (target D)) <? sent + (INBOUND_REPLAY_TTL - APPLICATION_ACK_REPLAY_DEADLINE)
      | None => true
      end
  | _ => true
  end.
Fixpoint all_prompt (ops : list delivery_op) (D : Delivery (Chan := fifo)) : bool :=
  match ops with
  | [] => true
  | op :: ops => promptb D op && match run1 op D with Some D => all_prompt ops D | None => true end
  end.

Lemma delivery_run_reachable ops D D' : all_prompt ops D = true → run ops D = Some D' → rtc (delivery_step decode digest 1 2) D D'.
Proof.
  revert D. induction ops as [|op ops IH]; simpl; intros D Hp; [intros [= ->]; apply rtc_refl|].
  apply andb_true_iff in Hp as [Hop Hp]. intros (D1 & Hrun & Hrest)%bind_Some. rewrite Hrun in Hp.
  eapply rtc_l; [|by apply IH]. exists op. split; [|done]. destruct op; try done. simpl in *. intros m sent Hj. rewrite Hj in Hop. by bool_to_prop.
Qed.

Definition final : option (Delivery (Chan := fifo)) := run ops (delivery_new 1 4 10 100).
Definition summary (D : Delivery (Chan := fifo)) : list (Z * Finish) * list Z * list (Z * Z) :=
  (Sender.lanes (origin D) ≫= finished, (fun g => replay_message_id (guard_key g)) <$> executed (inbound (target D)),
   (fun at_ => (msg_id at_.1, at_.2)) <$> attempts (origin D)).
End DeliveryDemo.

Lemma request_delivered_at_most_once_witness :
  ∃ D, DeliveryDemo.final = Some D ∧
    DeliveryDemo.summary D = ([(1, ByApplication)], [1; 2], [(1, 0); (1, seconds 3); (2, seconds 3)]) ∧
    (length (executions (key 1 1) (inbound (target D))) <= 1)%nat.
Proof.
  eassert (DeliveryDemo.final = Some _) as Hrun by (vm_compute; reflexivity). eexists. split; [exact Hrun|]. split; [reflexivity|].
  apply DeliveryDemo.delivery_run_reachable in Hrun; [|vm_compute; reflexivity].
  pose proof (proj1 (request_delivered_at_most_once _ _ 1 2 1 4 10 100 _ ltac:(lia) ltac:(lia) Hrun)) as H.
  apply (H (start_replay_window 0 (mkMessageCtx 1 0 4 2 5 1 [1] 10 Data (Some (mkAckHandle None)))) (seconds 3));
    [apply list_elem_of_In; right; left; reflexivity|discriminate].
Defined.


Lemma requests_execute_in_lane_order_witness :
  ∃ D g, DeliveryDemo.final = Some D ∧ guard_key g = key 1 2 ∧
    ∃ l why, Sender.lanes (origin D) !! 0%nat = Some l ∧ (1, why) ∈ finished l ∧
      (why = ByApplication → refused 1 D 1 ∨ executed_before 1 D 1 g).
Proof.
  eassert (DeliveryDemo.final = Some _) as Hrun by (vm_compute; reflexivity).
  eexists _, (mkGuard (mkReplayKey 1 2) [2] 1). split; [exact Hrun|]. split; [reflexivity|]. eexists.
  apply DeliveryDemo.delivery_run_reachable in Hrun; [|vm_compute; reflexivity].
  destruct (requests_execute_in_lane_order _ _ 1 2 1 4 10 100 _ 0 _ 1 2 [] [] [] (mkGuard (mkReplayKey 1 2) [2] 1)
              ltac:(lia) ltac:(lia) Hrun ltac:(reflexivity) ltac:(reflexivity)
              ltac:(apply list_elem_of_In; right; left; reflexivity) ltac:(reflexivity)) as (why & H).
  exists why. split; [reflexivity|exact H].
Defined.
