(* ===== verification/Scheduler.v ===== *)
(** * The outbound scheduler

    [new_message] of [distributed/client.rs] puts a message into the queue of its pair of
    processes, creating the queue when there is none, and [congestion_control_worker] of
    [congestion/mod.rs] moves the messages of all queues, one at a time each, to the queues of
    nodes; idle queues are retired, and a process that ends takes its queues with it.  The
    steps of the model are the accesses to the shared maps, so producers, the worker and the
    removal of processes interleave as their threads do.  A step does not wait for the lock of a
    shard: what these locks add is in [SchedulerLocks].  Theorems: [SchedulerOrder]. *)

From S2P Require Import Prelude External NodeQueue.

Record ProcessQueueRoute : Type := mkRoute {
  route_src : Z;
  route_node : Z;
  route_dest : Z;
}.

#[export] Instance ProcessQueueRoute_eq_dec : EqDecision ProcessQueueRoute.
Proof. solve_decision. Defined.
#[export] Instance ProcessQueueRoute_countable : Countable ProcessQueueRoute.
Proof.
  refine (inj_countable' (fun r => (route_src r, route_node r, route_dest r)) (fun p => mkRoute p.1.1 p.1.2 p.2) _).
  by intros [].
Defined.

(** An environment and a route. *)
Definition Key : Type := Z * ProcessQueueRoute.

Definition key_of (m : MessageCtx) : Key := (msg_env m, mkRoute (msg_src m) (msg_node m) (msg_dest m)).

Definition OUTBOUND_PROCESS_QUEUE_CAPACITY : Z := 64.

(** What the queue of the node does with a message of the worker ([try_rehome], then
    [try_enqueue_admitted]): it takes it, or the message stays, with the permits and the
    queue it was rehomed to. *)
Inductive Forward : Type :=
| Forwarded
| Busy (rehomed : option (AdmissionPermits * Z)).

(** [ensure_node_queue] *)
Inductive Ensure : Type := EnsureOk | EnsureNodeNotFound | EnsureOther.

(** [next_worker_action] *)
Inductive WorkerAction : Type := Continue | WaitForMessage | RetryUnavailableNode.

Definition next_worker_action (made_progress in_progress_empty : bool) : WorkerAction :=
  if made_progress then Continue
  else if in_progress_empty then WaitForMessage
  else RetryUnavailableNode.

Section scheduler.
Context {Chan : Type → Type} `{!Channel Chan}.
(** The shard of an environment in [buf_rx]; an iteration visits one shard at a time. *)
Context (shard : Z → nat) (shards : nat).

(** The channel of a generation, and its admission gate. *)
Record ProcessQueue : Type := mkProcessQueue {
  pq_key : Key;
  pq_chan : Chan AdmittedMessage;
  pq_gate : bool;
}.

(** [buf_tx] and [buf_rx] (flattened) hold generations. *)
Record Maps : Type := mkMaps {
  buf_tx : gmap Key Z;
  buf_rx : gmap Key Z;
  pqueues : gmap Z ProcessQueue;
  route_in_progress : gmap Key AdmittedMessage;
  next_process_queue_generation : Z;
}.

Definition set_tx (m : gmap Key Z) (s : Maps) : Maps :=
  mkMaps m (buf_rx s) (pqueues s) (route_in_progress s) (next_process_queue_generation s).
Definition set_rx (m : gmap Key Z) (s : Maps) : Maps :=
  mkMaps (buf_tx s) m (pqueues s) (route_in_progress s) (next_process_queue_generation s).
Definition set_pqueues (m : gmap Z ProcessQueue) (s : Maps) : Maps :=
  mkMaps (buf_tx s) (buf_rx s) m (route_in_progress s) (next_process_queue_generation s).
Definition set_progress (m : gmap Key AdmittedMessage) (s : Maps) : Maps :=
  mkMaps (buf_tx s) (buf_rx s) (pqueues s) m (next_process_queue_generation s).

Definition set_chan (g : Z) (c : Chan AdmittedMessage) (s : Maps) : Maps :=
  set_pqueues (alter (fun q => mkProcessQueue (pq_key q) c (pq_gate q)) g (pqueues s)) s.
Definition set_gate (g : Z) (b : bool) (s : Maps) : Maps :=
  set_pqueues (alter (fun q => mkProcessQueue (pq_key q) (pq_chan q) b) g (pqueues s)) s.

(** The receiver of a generation is dropped, with what it has. *)
Definition drop_receiver (g : Z) (s : Maps) : Maps :=
  match pqueues s !! g with
  | Some q => set_chan g (drain (length (queued (pq_chan q))) (close (pq_chan q))).2 s
  | None => s
  end.

Definition remove_sender (k : Key) (s : Maps) : Maps := set_tx (delete k (buf_tx s)) s.
Definition remove_progress (k : Key) (s : Maps) : Maps := set_progress (delete k (route_in_progress s)) s.
Definition remove_receiver (k : Key) (s : Maps) : Maps :=
  match buf_rx s !! k with
  | Some g => drop_receiver g (set_rx (delete k (buf_rx s)) s)
  | None => s
  end.

(** The entry of [buf_tx]: the generation of the queue, which is made when there is none. *)
Definition lookup_queue (k : Key) (s : Maps) : Z * Maps :=
  match buf_tx s !! k with
  | Some g => (g, s)
  | None =>
      let g := next_process_queue_generation s in
      let s := remove_receiver k s in
      (g, mkMaps (<[k := g]> (buf_tx s)) (<[k := g]> (buf_rx s))
            (<[g := mkProcessQueue k (channel OUTBOUND_PROCESS_QUEUE_CAPACITY) false]> (pqueues s))
            (route_in_progress s) (g + 1))
  end.

(** [requeue_in_progress]; a message that is not kept is dropped. *)
Definition requeue_in_progress (k : Key) (g : Z) (a : AdmittedMessage) (s : Maps) : Maps :=
  match buf_tx s !! k with
  | Some g' =>
      if g' =? g then
        match route_in_progress s !! k with
        | None => set_progress (<[k := a]> (route_in_progress s)) s
        | Some _ => s
        end
      else s
  | None => s
  end.

(** A received message becomes the one in progress of its route. *)
Definition start_progress (a : AdmittedMessage) (s : Maps) : Maps :=
  let k := key_of (message a) in
  match buf_tx s !! k with
  | Some g =>
      if g =? queue_generation (message a) then set_progress (<[k := a]> (route_in_progress s)) s else s
  | None => s
  end.

(** ** Removal of a queue of a generation *)

Inductive Stage : Type := AtSender | AtProgress | AtReceiver.

(** [remove_process_resources_if_generation], [remove_idle_process_resources_if_generation]
    and [cleanup_process_generation]; [None] at the end. *)
Definition cleanup_step (k : Key) (g : Z) (st : Stage) (s : Maps) : option Stage * Maps :=
  match st with
  | AtSender => if bool_decide (buf_tx s !! k = Some g) then (Some AtProgress, remove_sender k s) else (None, s)
  | AtProgress =>
      (Some AtReceiver,
       match route_in_progress s !! k with
       | Some a => if queue_generation (message a) =? g then remove_progress k s else s
       | None => s
       end)
  | AtReceiver => (None, if bool_decide (buf_rx s !! k = Some g) then remove_receiver k s else s)
  end.

(** [remove_process_resources], for one route after the other. *)
Definition removal_step (k : Key) (st : Stage) (s : Maps) : option Stage * Maps :=
  match st with
  | AtSender => (Some AtProgress, remove_sender k s)
  | AtProgress => (Some AtReceiver, remove_progress k s)
  | AtReceiver => (None, remove_receiver k s)
  end.

(** ** Producers *)

(** The await points of [new_message]: the entry, the gate, the message is given to the
    queue, the worker is notified, and the removal of a queue that is closed. *)
Inductive Producer : Type :=
| PLookup (m : MessageCtx)
| PGate (m : MessageCtx) (g : Z)
| PSend (m : MessageCtx) (g : Z)
| PNotify (g : Z)
| PCleanup (k : Key) (g : Z) (st : Stage)
| PReturned (accepted : bool).

(** [message] with the generation of its queue. *)
Definition with_generation (g : Z) (m : MessageCtx) : MessageCtx :=
  mkMessageCtx (msg_id m) (msg_env m) (msg_src m) (msg_node m) (msg_dest m) g (msg_data m) (retained_bytes m) (class m)
    (application_ack m).

(** [admitted] is what [try_admit] of the queue of the node gives, if it admits; the last
    components say whether the message was accepted and whether the worker is notified. *)
Definition producer_step (admitted : option (AdmissionPermits * Z)) (p : Producer) (s : Maps)
    : option (Producer * Maps * option (Key * Z) * bool) :=
  match p with
  | PLookup m => let '(g, s) := lookup_queue (key_of m) s in Some (PGate m g, s, None, false)
  | PGate m g =>
      q ← pqueues s !! g;
      if pq_gate q then None
      else if bool_decide (buf_tx s !! key_of m = Some g) then Some (PSend m g, set_gate g true s, None, false)
      else Some (PLookup m, s, None, false)
  | PSend m g =>
      q ← pqueues s !! g;
      match admitted with
      | None => Some (PReturned false, set_gate g false s, None, false)
      | Some (p, o) =>
          match try_send (mkAdmitted p o (with_generation g m)) (pq_chan q) with
          | Ok c => Some (PNotify g, set_chan g c s, Some (key_of m, msg_id m), false)
          | Err (ChanFull _) => Some (PReturned false, set_gate g false s, None, false)
          | Err (ChanClosed _) => Some (PCleanup (key_of m) g AtSender, set_gate g false s, None, false)
          end
      end
  | PNotify g => Some (PReturned true, set_gate g false s, None, true)
  | PCleanup k g st =>
      let '(st, s) := cleanup_step k g st s in
      Some (match st with Some st => PCleanup k g st | None => PReturned false end, s, None, false)
  | PReturned _ => None
  end.

(** ** The worker *)

(** Its loop: the queues are collected; each is looked at; the queue of the node is made;
    the message is taken out and forwarded; the next message is received; and the pass
    ends.  [rem] are the queues still to be looked at. *)
Inductive Worker : Type :=
| WCollect (todo : list nat) (found : list (Key * Z))
| WItem (rem : list (Key * Z)) (made_progress : bool)
| WEnsure (k : Key) (g id : Z) (rem : list (Key * Z)) (made_progress : bool)
| WTake (k : Key) (g id : Z) (rem : list (Key * Z)) (made_progress : bool)
| WHand (k : Key) (g : Z) (a : AdmittedMessage) (rem : list (Key * Z)) (made_progress : bool)
| WRecv (k : Key) (g : Z) (rem : list (Key * Z)) (made_progress : bool)
| WGot (g : Z) (a : AdmittedMessage) (rem : list (Key * Z))
| WIdle (k : Key) (g : Z) (st : Stage) (rem : list (Key * Z)) (made_progress : bool)
| WSleep
| WWait.

(** What the clock, the map of node queues, [ensure_node_queue] and the queue of the node
    answer. *)
Record WorkerOracle : Type := mkWorkerOracle {
  wo_waiting : bool;
  wo_node_queue : bool;
  wo_ensure : Ensure;
  wo_forward : Forward;
}.

Inductive WorkerEvent : Type :=
| EvForwarded (k : Key) (id : Z)
| EvUnreachable (id : Z).

Definition same_message (g id : Z) (a : AdmittedMessage) : bool :=
  (queue_generation (message a) =? g) && (msg_id (message a) =? id).

(** The worker, its [retry_after], the maps, the permit of [has_messages]; and the message
    that was forwarded or whose node was not found. *)
Definition worker_step (o : WorkerOracle) (w : Worker) (retry_after : gset (Key * Z)) (permit : bool) (s : Maps)
    : option (Worker * gset (Key * Z) * bool * Maps * option WorkerEvent) :=
  match w with
  | WCollect [] found =>
      Some (WItem found false, filter (fun r => r ∈ found) retry_after, permit, s, None)
  | WCollect (n :: todo) found =>
      Some (WCollect todo (found ++ filter (fun e => shard e.1.1 = n) (map_to_list (buf_rx s))), retry_after, permit, s, None)
  | WItem [] made_progress =>
      let next :=
        match next_worker_action made_progress (bool_decide (route_in_progress s = ∅)) with
        | Continue => WCollect (seq 0 shards) []
        | WaitForMessage => WWait
        | RetryUnavailableNode => WSleep
        end in
      Some (next, retry_after, permit, s, None)
  | WItem ((k, g) :: rem) made_progress =>
      if bool_decide ((k, g) ∈ retry_after) && wo_waiting o then Some (WItem rem made_progress, retry_after, permit, s, None)
      else
        let retry_after := retry_after ∖ {[(k, g)]} in
        let next :=
          match route_in_progress s !! k with
          | None => WRecv k g rem made_progress
          | Some a =>
              let id := msg_id (message a) in
              if negb (queue_generation (message a) =? g) then WItem rem made_progress
              else if wo_node_queue o then WTake k g id rem made_progress
              else WEnsure k g id rem made_progress
          end in
        Some (next, retry_after, permit, s, None)
  | WEnsure k g id rem made_progress =>
      match wo_ensure o with
      | EnsureOk => Some (WItem rem true, retry_after, permit, s, None)
      | EnsureNodeNotFound =>
          match route_in_progress s !! k with
          | Some a =>
              if same_message g id a
              then Some (WItem rem true, retry_after ∖ {[(k, g)]}, permit, remove_progress k s, Some (EvUnreachable id))
              else Some (WItem rem made_progress, retry_after ∖ {[(k, g)]}, permit, s, None)
          | None => Some (WItem rem made_progress, retry_after ∖ {[(k, g)]}, permit, s, None)
          end
      | EnsureOther => Some (WItem rem made_progress, {[(k, g)]} ∪ retry_after, permit, s, None)
      end
  | WTake k g id rem made_progress =>
      match route_in_progress s !! k with
      | Some a =>
          if same_message g id a
          then Some (WHand k g a rem made_progress, retry_after, permit, set_progress (delete k (route_in_progress s)) s, None)
          else Some (WItem rem made_progress, retry_after, permit, s, None)
      | None => Some (WItem rem made_progress, retry_after, permit, s, None)
      end
  | WHand k g a rem made_progress =>
      match wo_forward o with
      | Forwarded => Some (WRecv k g rem true, retry_after, permit, s, Some (EvForwarded k (msg_id (message a))))
      | Busy rehomed =>
          let a := match rehomed with Some (p, o) => mkAdmitted p o (message a) | None => a end in
          Some (WItem rem made_progress, {[(k, g)]} ∪ retry_after, permit, requeue_in_progress k g a s, None)
      end
  | WRecv k g rem made_progress =>
      if negb (bool_decide (buf_rx s !! k = Some g)) then Some (WItem rem made_progress, retry_after, permit, s, None)
      else
        q ← pqueues s !! g;
        if pq_gate q then None
        else
          match try_recv (pq_chan q) with
          | Some (a, c) => Some (WGot g a rem, retry_after, permit, set_chan g c (set_gate g true s), None)
          | None => Some (WIdle k g AtSender rem made_progress, retry_after, permit, set_gate g true s, None)
          end
  | WGot g a rem => Some (WItem rem true, retry_after, permit, set_gate g false (start_progress a s), None)
  | WIdle k g st rem made_progress =>
      let '(next, s) := cleanup_step k g st s in
      match next with
      | Some st => Some (WIdle k g st rem made_progress, retry_after, permit, s, None)
      | None => Some (WItem rem made_progress, retry_after ∖ {[(k, g)]}, permit, set_gate g false s, None)
      end
  | WSleep => Some (WCollect (seq 0 shards) [], retry_after, permit, s, None)
  | WWait => if permit then Some (WCollect (seq 0 shards) [], retry_after, false, s, None) else None
  end.

(** ** The system *)

(** [accepted] and [forwarded]: the messages that a queue took and that left for the queue of
    a node; [ended]: the processes whose resources were removed; [unreachable]: the messages
    whose node was not found. *)
Record Sched : Type := mkSched {
  maps : Maps;
  has_messages : bool;
  producers : list Producer;
  worker : Worker;
  retry_after : gset (Key * Z);
  removals : list (list Key * Stage);
  next_message_id : Z;
  accepted : list (Key * Z);
  forwarded : list (Key * Z);
  unreachable : list Z;
  ended : gset (Z * Z);
}.

(** A call of [new_message] with the next identity; a producer goes on or is cancelled at an
    await point; the worker goes on; the resources of a process are removed, for the routes
    that the iterations over the maps find. *)
Inductive sched_op : Type :=
| NewMessage (m : MessageCtx)
| Produce (i : nat) (admitted : option (AdmissionPermits * Z))
| CancelProducer (i : nat)
| Work (o : WorkerOracle)
| RemoveProcess (env pid : Z) (routes : list ProcessQueueRoute)
| Removal (i : nat).

Definition sched_exec (op : sched_op) (s : Sched) : option Sched :=
  match op with
  | NewMessage m =>
      if negb (msg_id m =? next_message_id s) then None
      else
        Some (mkSched (maps s) (has_messages s) (producers s ++ [PLookup m]) (worker s) (retry_after s) (removals s)
                (next_message_id s + 1) (accepted s) (forwarded s) (unreachable s) (ended s))
  | Produce i admitted =>
      p ← producers s !! i;
      '(p, m, acc, notify) ← producer_step admitted p (maps s);
      Some (mkSched m (has_messages s || notify) (<[i := p]> (producers s)) (worker s) (retry_after s) (removals s)
              (next_message_id s) (accepted s ++ option_list acc) (forwarded s) (unreachable s) (ended s))
  | CancelProducer i =>
      p ← producers s !! i;
      match p with
      | PGate _ _ =>
          Some (mkSched (maps s) (has_messages s) (<[i := PReturned false]> (producers s)) (worker s) (retry_after s)
                  (removals s) (next_message_id s) (accepted s) (forwarded s) (unreachable s) (ended s))
      | _ => None
      end
  | Work o =>
      '(w, ra, permit, m, ev) ← worker_step o (worker s) (retry_after s) (has_messages s) (maps s);
      Some (mkSched m permit (producers s) w ra (removals s) (next_message_id s) (accepted s)
              (forwarded s ++ match ev with Some (EvForwarded k id) => [(k, id)] | _ => [] end)
              (unreachable s ++ match ev with Some (EvUnreachable id) => [id] | _ => [] end) (ended s))
  | RemoveProcess env pid routes =>
      if forallb (fun r => route_src r =? pid) routes then
        Some (mkSched (maps s) (has_messages s) (producers s) (worker s) (retry_after s)
                (removals s ++ [((fun r => (env, r)) <$> routes, AtSender)])
                (next_message_id s) (accepted s) (forwarded s) (unreachable s) ({[(env, pid)]} ∪ ended s))
      else None
  | Removal i =>
      r ← removals s !! i;
      match r with
      | ([], _) => None
      | (k :: ks, st) =>
          let '(next, m) := removal_step k st (maps s) in
          let r := match next with Some st => (k :: ks, st) | None => (ks, AtSender) end in
          Some (mkSched m (has_messages s) (producers s) (worker s) (retry_after s) (<[i := r]> (removals s))
                  (next_message_id s) (accepted s) (forwarded s) (unreachable s) (ended s))
      end
  end.

Definition sched_new : Sched :=
  mkSched (mkMaps ∅ ∅ ∅ ∅ 0) false [] (WCollect (seq 0 shards) []) ∅ [] 0 [] [] [] ∅.
End scheduler.
