(* ===== verification/SchedulerOrder.v ===== *)
(** * What the scheduler guarantees

    The messages of a route leave in the order in which they were accepted, none is lost
    unless its process has ended or its node is gone, and, as far as no access to a map waits
    for another, the worker never waits while there is something to do. *)

From S2P Require Import Prelude External NodeQueue Scheduler.

Section order.
Context {Chan : Type → Type} `{!Channel Chan, !ChannelLaws Chan}.
Implicit Types (m : Maps (Chan := Chan)) (q : ProcessQueue (Chan := Chan)) (k : Key) (g : Z) (a : AdmittedMessage).

(** ** The maps *)

Definition of_queue k g (a : AdmittedMessage) : Prop := key_of (message a) = k ∧ queue_generation (message a) = g.

(** Generations are of one route; the open channels are those of [buf_rx]. *)
Record maps_ok m : Prop := {
  mo_tx k g : buf_tx m !! k = Some g → ∃ q, pqueues m !! g = Some q ∧ pq_key q = k;
  mo_rx k g : buf_rx m !! k = Some g → ∃ q, pqueues m !! g = Some q ∧ pq_key q = k ∧ chan_is_closed (pq_chan q) = false;
  mo_gen g q : pqueues m !! g = Some q → g < next_process_queue_generation m;
  mo_open g q : pqueues m !! g = Some q → chan_is_closed (pq_chan q) = false → buf_rx m !! pq_key q = Some g;
  mo_shut g q : pqueues m !! g = Some q → chan_is_closed (pq_chan q) = true → queued (pq_chan q) = [];
  mo_msgs g q : pqueues m !! g = Some q → Forall (of_queue (pq_key q) g) (queued (pq_chan q));
  mo_prog k a : route_in_progress m !! k = Some a → key_of (message a) = k;
}.

(** What the maps say of a route. *)
Record View : Type := mkView {
  v_tx : option Z;
  v_rx : option Z;
  v_queue : list AdmittedMessage;
  v_prog : option AdmittedMessage;
}.

Definition contents m k : list AdmittedMessage :=
  match buf_rx m !! k with
  | Some g => match pqueues m !! g with Some q => queued (pq_chan q) | None => [] end
  | None => []
  end.
Definition view m k : View := mkView (buf_tx m !! k) (buf_rx m !! k) (contents m k) (route_in_progress m !! k).

(** *** Gates *)

Lemma set_gate_lookup m g b g' :
  pqueues (set_gate g b m) !! g' = (fun q => mkProcessQueue (pq_key q) (pq_chan q) (if decide (g' = g) then b else pq_gate q)) <$> pqueues m !! g'.
Proof.
  unfold set_gate. simpl. destruct (decide (g' = g)) as [->|Hne]; [by rewrite lookup_alter_eq|].
  rewrite lookup_alter_ne by done. by destruct (pqueues m !! g') as [[]|].
Qed.

Lemma set_gate_view m g b k : view (set_gate g b m) k = view m k.
Proof. unfold view, contents. simpl. f_equal. case_match; [|done]. rewrite (set_gate_lookup m g b). by destruct (pqueues m !! _). Qed.

Lemma set_gate_maps m g b : maps_ok m → maps_ok (set_gate g b m).
Proof.
  intros [Ht Hr Hg Ho Hs Hm Hp].
  assert (∀ g' q', pqueues (set_gate g b m) !! g' = Some q' → ∃ q, pqueues m !! g' = Some q ∧ pq_key q' = pq_key q ∧ pq_chan q' = pq_chan q) as Hinv.
  { intros g' q'. rewrite set_gate_lookup. intros (q & Hq & ->)%fmap_Some_1. by exists q. }
  assert (∀ g' q, pqueues m !! g' = Some q → ∃ q', pqueues (set_gate g b m) !! g' = Some q' ∧ pq_key q' = pq_key q ∧ pq_chan q' = pq_chan q) as Hfwd.
  { intros g' q Hq. rewrite set_gate_lookup, Hq. by eexists. }
  split; try done.
  - intros k g' (q & Hq & Hk)%Ht. destruct (Hfwd _ _ Hq) as (q' & ? & ? & _). exists q'. split; congruence.
  - intros k g' (q & Hq & Hk & Hc)%Hr. destruct (Hfwd _ _ Hq) as (q' & ? & ? & ?). exists q'. split_and!; congruence.
  - intros g' q' (q & Hq & _)%Hinv. by apply (Hg g' q).
  - intros g' q' (q & Hq & -> & ->)%Hinv. by apply Ho.
  - intros g' q' (q & Hq & _ & ->)%Hinv. by eapply Hs.
  - intros g' q' (q & Hq & -> & ->)%Hinv. by apply Hm.
Qed.

(** *** Channels *)

Lemma set_chan_lookup m g c g' :
  pqueues (set_chan g c m) !! g' = (fun q => mkProcessQueue (pq_key q) (if decide (g' = g) then c else pq_chan q) (pq_gate q)) <$> pqueues m !! g'.
Proof.
  unfold set_chan. simpl. destruct (decide (g' = g)) as [->|Hne]; [by rewrite lookup_alter_eq|].
  rewrite lookup_alter_ne by done. by destruct (pqueues m !! g') as [[]|].
Qed.

Lemma set_chan_gate_comm m g c b : set_chan g c (set_gate g b m) = set_gate g b (set_chan g c m).
Proof.
  unfold set_chan, set_gate, set_pqueues. simpl. f_equal. apply map_eq. intros g'.
  destruct (decide (g' = g)) as [->|]; [rewrite !lookup_alter_eq; by destruct (pqueues m !! g)|by rewrite !lookup_alter_ne].
Qed.

(** A channel gets other contents. *)
Lemma set_chan_maps m g q c :
  maps_ok m → pqueues m !! g = Some q → chan_is_closed c = chan_is_closed (pq_chan q) →
  (chan_is_closed c = true → queued c = []) → Forall (of_queue (pq_key q) g) (queued c) → maps_ok (set_chan g c m).
Proof.
  intros [Ht Hr Hg Ho Hs Hm Hp] Hq Hcl Hshut Hall. split; try done; setoid_rewrite (set_chan_lookup m g c).
  - intros k g' (q0 & Hq0 & Hk)%Ht. rewrite Hq0. simpl. by eexists.
  - intros k g' (q0 & Hq0 & Hk & Hc)%Hr. rewrite Hq0. simpl. eexists. split; [done|]. split; [done|]. simpl.
    destruct (decide _) as [->|]; [|done]. simplify_eq. congruence.
  - intros g' q' (q0 & Hq0 & ->)%fmap_Some_1. by apply (Hg g' q0).
  - intros g' q' (q0 & Hq0 & ->)%fmap_Some_1. simpl. intros Hc. apply (Ho g' q0 Hq0). destruct (decide _) as [->|]; [|done]. simplify_eq. congruence.
  - intros g' q' (q0 & Hq0 & ->)%fmap_Some_1. simpl. destruct (decide _) as [->|]; [done|by eapply Hs].
  - intros g' q' (q0 & Hq0 & ->)%fmap_Some_1. simpl. destruct (decide _) as [->|]; [simplify_eq; done|by eapply Hm].
Qed.

Lemma set_chan_view m g q c k :
  pqueues m !! g = Some q →
  view (set_chan g c m) k = mkView (buf_tx m !! k) (buf_rx m !! k) (if decide (buf_rx m !! k = Some g) then queued c else contents m k)
                              (route_in_progress m !! k).
Proof.
  intros Hq. unfold view, contents. simpl. f_equal. destruct (buf_rx m !! k) as [g'|]; [|by destruct (decide _)].
  rewrite (set_chan_lookup m g c). destruct (decide (g' = g)) as [->|Hne].
  - rewrite Hq. simpl. by destruct (decide _).
  - destruct (decide (Some g' = Some g)); [congruence|]. by destruct (pqueues m !! g').
Qed.

(** *** Removals *)

Lemma remove_receiver_maps m k : maps_ok m → maps_ok (remove_receiver k m).
Proof.
  intros Hok. unfold remove_receiver. destruct (buf_rx m !! k) as [g|] eqn:Hrx; [|done].
  destruct (mo_rx _ Hok _ _ Hrx) as (q & Hq & Hk & Hopen). unfold drop_receiver. cbn [pqueues set_rx]. rewrite Hq.
  destruct (close_spec AdmittedMessage (pq_chan q)) as (Hcq & _ & Hcc). destruct (drain_all (close (pq_chan q))) as (c & Hd & Hc & _ & Hcl).
  rewrite <- Hcq, Hd. simpl. destruct Hok as [Ht Hr Hg Ho Hs Hm Hp]. split; try done; setoid_rewrite (set_chan_lookup (set_rx (delete k (buf_rx m)) m) g c); simpl.
  - intros k' g' (q0 & Hq0 & Hk0)%Ht. rewrite Hq0. simpl. by eexists.
  - intros k' g' [Hne Hk']%lookup_delete_Some. destruct (Hr _ _ Hk') as (q0 & Hq0 & Hk0 & Hc0). rewrite Hq0. simpl.
    eexists. split; [done|]. split; [done|]. simpl. destruct (decide _) as [->|]; [|done]. simplify_eq.
  - intros g' q' (q0 & Hq0 & ->)%fmap_Some_1. by apply (Hg g' q0).
  - intros g' q' (q0 & Hq0 & ->)%fmap_Some_1. simpl. destruct (decide (g' = g)) as [->|Hne]; [congruence|]. intros Hc0.
    pose proof (Ho g' q0 Hq0 Hc0) as Hrx'. rewrite lookup_delete_ne; [done|]. intros Heq. congruence.
  - intros g' q' (q0 & Hq0 & ->)%fmap_Some_1. simpl. destruct (decide _) as [->|]; [done|by eapply Hs].
  - intros g' q' (q0 & Hq0 & ->)%fmap_Some_1. simpl. destruct (decide _) as [->|]; [by rewrite Hc|by eapply Hm].
Qed.

Lemma remove_receiver_view m k k' :
  maps_ok m → view (remove_receiver k m) k' = if decide (k' = k) then mkView (buf_tx m !! k) None [] (route_in_progress m !! k) else view m k'.
Proof.
  intros Hok. unfold remove_receiver. destruct (buf_rx m !! k) as [g|] eqn:Hrx.
  - destruct (mo_rx _ Hok _ _ Hrx) as (q & Hq & Hk & Hopen). unfold drop_receiver. cbn [pqueues set_rx]. rewrite Hq.
    erewrite set_chan_view by done. simpl. destruct (decide (k' = k)) as [->|Hne].
    + rewrite lookup_delete_eq. unfold contents. simpl. rewrite lookup_delete_eq. try case_decide; done.
    + rewrite lookup_delete_ne by done. unfold view, contents. simpl. rewrite lookup_delete_ne by done. f_equal.
      destruct (decide _) as [Heq|]; [|done]. destruct (mo_rx _ Hok _ _ Heq) as (q' & Hq' & Hk' & _). simplify_eq.
  - destruct (decide (k' = k)) as [->|]; [|done]. unfold view, contents. by rewrite Hrx.
Qed.

Lemma remove_sender_maps m k : maps_ok m → maps_ok (remove_sender k m).
Proof. intros []. split; try done. simpl. intros k' g [_ ?]%lookup_delete_Some. eauto. Qed.

Lemma remove_sender_view m k k' :
  view (remove_sender k m) k' = if decide (k' = k) then mkView None (buf_rx m !! k) (contents m k) (route_in_progress m !! k) else view m k'.
Proof.
  unfold view, remove_sender. simpl. destruct (decide _) as [->|]; [by rewrite lookup_delete_eq|by rewrite lookup_delete_ne].
Qed.

Lemma remove_progress_maps m k : maps_ok m → maps_ok (remove_progress k m).
Proof. intros []. split; try done. simpl. intros k' a [_ ?]%lookup_delete_Some. eauto. Qed.

Lemma remove_progress_view m k k' :
  view (remove_progress k m) k' = if decide (k' = k) then mkView (buf_tx m !! k) (buf_rx m !! k) (contents m k) None else view m k'.
Proof.
  unfold view, remove_progress. simpl. destruct (decide _) as [->|]; [by rewrite lookup_delete_eq|by rewrite lookup_delete_ne].
Qed.

Lemma insert_progress_maps m a k : maps_ok m → key_of (message a) = k → maps_ok (set_progress (<[k := a]> (route_in_progress m)) m).
Proof. intros [] Hk. split; try done. simpl. intros k' a'. intros [[<- <-]|[_ ?]]%lookup_insert_Some; eauto. Qed.

Lemma insert_progress_view m a k k' :
  view (set_progress (<[k := a]> (route_in_progress m)) m) k' =
    if decide (k' = k) then mkView (buf_tx m !! k) (buf_rx m !! k) (contents m k) (Some a) else view m k'.
Proof.
  unfold view. simpl. destruct (decide _) as [->|]; [by rewrite lookup_insert_eq|by rewrite lookup_insert_ne].
Qed.

(** *** Creation *)

Lemma lookup_queue_spec m k g m' :
  maps_ok m → lookup_queue k m = (g, m') →
  maps_ok m' ∧ (∃ q, pqueues m' !! g = Some q ∧ pq_key q = k) ∧
  (∀ g0 q0, pqueues m !! g0 = Some q0 → ∃ q1, pqueues m' !! g0 = Some q1 ∧ pq_key q1 = pq_key q0 ∧ pq_gate q1 = pq_gate q0) ∧
  (∀ g0 q1, pqueues m' !! g0 = Some q1 → pq_gate q1 = true → ∃ q0, pqueues m !! g0 = Some q0 ∧ pq_gate q0 = true) ∧
  next_process_queue_generation m <= next_process_queue_generation m' ∧
  ∀ k', view m' k' = if decide (k' = k ∧ buf_tx m !! k = None) then mkView (Some g) (Some g) [] (route_in_progress m !! k) else view m k'.
Proof.
  intros Hok. unfold lookup_queue. destruct (buf_tx m !! k) as [g0|] eqn:Htx.
  { intros [= <- <-]. split; [done|]. split; [by eapply mo_tx|]. split; [eauto|]. split; [eauto|]. split; [done|].
    intros k'. by destruct (decide _) as [[]|]. }
  intros [= <- <-]. pose proof (remove_receiver_maps m k Hok) as Hok1. pose proof (remove_receiver_view m k) as Hv.
  assert (next_process_queue_generation (remove_receiver k m) = next_process_queue_generation m) as Hn.
  { unfold remove_receiver, drop_receiver. destruct (buf_rx m !! k); [|done]. simpl. by destruct (pqueues m !! _). }
  assert (∀ g0, (fun q => (pq_key q, pq_gate q)) <$> pqueues (remove_receiver k m) !! g0 = (fun q => (pq_key q, pq_gate q)) <$> pqueues m !! g0) as Hpq.
  { intros g0. unfold remove_receiver, drop_receiver. destruct (buf_rx m !! k) as [g1|]; [|done]. cbn [pqueues set_rx].
    destruct (pqueues m !! g1) eqn:Hg1; [|done]. rewrite (set_chan_lookup (set_rx (delete k (buf_rx m)) m)). simpl. by destruct (pqueues m !! g0). }
  set (g := next_process_queue_generation m). assert (pqueues (remove_receiver k m) !! g = None) as Hfresh.
  { destruct (pqueues (remove_receiver k m) !! g) eqn:Hg; [|done]. apply (mo_gen _ Hok1) in Hg. rewrite Hn in Hg. lia. }
  assert (pqueues m !! g = None) as Hfresh0.
  { destruct (pqueues m !! g) eqn:Hg; [|done]. apply (mo_gen _ Hok) in Hg. lia. }
  destruct (channel_spec AdmittedMessage OUTBOUND_PROCESS_QUEUE_CAPACITY) as (Hcq & _ & Hcc); [done|].
  assert (buf_rx (remove_receiver k m) !! k = None) as Hrx1.
  { specialize (Hv k Hok). rewrite decide_True in Hv by done. by injection Hv. }
  assert (buf_tx (remove_receiver k m) !! k = None) as Htx1.
  { specialize (Hv k Hok). rewrite decide_True in Hv by done. injection Hv. congruence. }
  split; [|split; [eexists; simpl; by rewrite lookup_insert_eq|split; [|split; [|split; [simpl; lia|]]]]].
  - destruct Hok1 as [Ht Hr Hg Ho Hs Hm Hp]. split; simpl; try done.
    + intros k' g' [[<- <-]|[Hne Hk']]%lookup_insert_Some; [rewrite lookup_insert_eq; by eexists|].
      destruct (Ht _ _ Hk') as (q & Hq & ?). exists q. split; [|done]. rewrite lookup_insert_ne; [done|]. congruence.
    + intros k' g' [[<- <-]|[Hne Hk']]%lookup_insert_Some; [rewrite lookup_insert_eq; by eexists|].
      destruct (Hr _ _ Hk') as (q & Hq & ?). exists q. split; [|done]. rewrite lookup_insert_ne; [done|]. congruence.
    + intros g' q [[<- _]|[_ Hq]]%lookup_insert_Some; [lia|]. apply Hg in Hq. lia.
    + intros g' q [[<- <-]|[_ Hq]]%lookup_insert_Some; simpl; [by rewrite lookup_insert_eq|]. intros Hc.
      pose proof (Ho _ _ Hq Hc) as Hrx. rewrite lookup_insert_ne; [done|]. congruence.
    + intros g' q [[<- <-]|[_ Hq]]%lookup_insert_Some; simpl; [done|by eapply Hs].
    + intros g' q [[<- <-]|[_ Hq]]%lookup_insert_Some; simpl; [by rewrite Hcq|by apply Hm].
  - intros g0 q0 Hq0. specialize (Hpq g0). rewrite Hq0 in Hpq. simpl in Hpq. apply fmap_Some_1 in Hpq as (q1 & Hq1 & [= ? ?]).
    exists q1. simpl. rewrite lookup_insert_ne by congruence. auto.
  - intros g0 q1. simpl. intros [[<- <-]|[_ Hq1]]%lookup_insert_Some; [done|]. intros Hgate. specialize (Hpq g0). rewrite Hq1 in Hpq.
    symmetry in Hpq. simpl in Hpq. apply fmap_Some_1 in Hpq as (q0 & Hq0 & [= ? ?]). exists q0. split; congruence.
  - intros k'. specialize (Hv k' Hok). destruct (decide (k' = k)) as [->|Hne].
    + rewrite decide_True by done. unfold view, contents. simpl. rewrite !lookup_insert_eq. simpl. rewrite Hcq. f_equal.
      unfold view in Hv. injection Hv. congruence.
    + rewrite decide_False by naive_solver. rewrite <- Hv. unfold view, contents. simpl. rewrite !lookup_insert_ne by done. f_equal.
      destruct (buf_rx (remove_receiver k m) !! k') as [g'|] eqn:Hg'; [|done]. rewrite lookup_insert_ne; [done|].
      intros Heq. destruct (mo_rx _ Hok1 _ _ Hg') as (q & Hq & _). congruence.
Qed.
(** ** Producers, the worker and their gates *)

Implicit Types (s : Sched (Chan := Chan)) (p : Producer) (w : Worker).

Definition p_holds p : list Z := match p with PSend _ g | PNotify g => [g] | _ => [] end.
Definition w_holds w : list Z := match w with WGot g _ _ | WIdle _ g _ _ _ => [g] | _ => [] end.
Definition holders (w : Worker) (ps : list Producer) : list Z := w_holds w ++ (ps ≫= p_holds).

(** The messages that a producer may still give to a queue. *)
Definition p_ids p : list Z := match p with PLookup x | PGate x _ | PSend x _ => [msg_id x] | _ => [] end.

Definition has_key m g k : Prop := ∃ q, pqueues m !! g = Some q ∧ pq_key q = k.

Definition producer_ok m p : Prop :=
  match p with
  | PGate x g | PSend x g => has_key m g (key_of x)
  | _ => True
  end.

Definition worker_ok m w : Prop :=
  match w with
  | WHand k g a _ _ => of_queue k g a ∧ route_in_progress m !! k = None
  | WRecv k _ _ _ => route_in_progress m !! k = None
  | WGot g a _ => of_queue (key_of (message a)) g a ∧ has_key m g (key_of (message a)) ∧
                  route_in_progress m !! key_of (message a) = None
  | WIdle k g _ _ _ => has_key m g k
  | WWait => ∀ k, route_in_progress m !! k = None
  | _ => True
  end.

Definition gate_of m g : bool := match pqueues m !! g with Some q => pq_gate q | None => false end.

Record actors_ok m w (ps : list Producer) : Prop := {
  ao_maps : maps_ok m;
  ao_once : NoDup (holders w ps);
  ao_gates g : g ∈ holders w ps ↔ gate_of m g = true;
  ao_producers p : p ∈ ps → producer_ok m p;
  ao_worker : worker_ok m w;
}.

(** What a step of somebody else leaves. *)
Record frame m m' : Prop := {
  fr_key g k : has_key m g k → has_key m' g k;
  fr_prog k : route_in_progress m !! k = None → route_in_progress m' !! k = None;
}.

Lemma producer_frame m m' p : frame m m' → producer_ok m p → producer_ok m' p.
Proof. intros [Hk _]. destruct p; simpl; auto. Qed.
Lemma worker_frame m m' w : frame m m' → worker_ok m w → worker_ok m' w.
Proof. intros [Hk Hp]. destruct w; simpl; naive_solver. Qed.

Lemma set_gate_key m g b g' k : has_key m g' k → has_key (set_gate g b m) g' k.
Proof. intros (q & Hq & Hk). unfold has_key. rewrite set_gate_lookup, Hq. by eexists. Qed.
Lemma set_chan_key m g c g' k : has_key m g' k → has_key (set_chan g c m) g' k.
Proof. intros (q & Hq & Hk). unfold has_key. rewrite set_chan_lookup, Hq. by eexists. Qed.
Lemma set_gate_frame m g b : frame m (set_gate g b m).
Proof. split; [intros; by apply set_gate_key|done]. Qed.
Lemma set_chan_frame m g c : frame m (set_chan g c m).
Proof. split; [intros; by apply set_chan_key|done]. Qed.
Lemma frame_trans m1 m2 m3 : frame m1 m2 → frame m2 m3 → frame m1 m3.
Proof. intros [] []. split; auto. Qed.
Lemma frame_refl m : frame m m.
Proof. by split. Qed.

Lemma remove_receiver_gate m k g : gate_of (remove_receiver k m) g = gate_of m g.
Proof.
  unfold gate_of, remove_receiver, drop_receiver. destruct (buf_rx m !! k) as [g0|]; [|done]. cbn [pqueues set_rx].
  destruct (pqueues m !! g0) eqn:Hg0; [|done]. rewrite set_chan_lookup. cbn [pqueues set_rx]. by destruct (pqueues m !! g).
Qed.
Lemma remove_receiver_frame m k : frame m (remove_receiver k m).
Proof.
  unfold remove_receiver, drop_receiver. destruct (buf_rx m !! k) as [g|]; [|apply frame_refl]. cbn [pqueues set_rx].
  destruct (pqueues m !! g); [|by split]. eapply frame_trans; [|apply set_chan_frame]. by split.
Qed.
Lemma remove_progress_frame m k : frame m (remove_progress k m).
Proof. split; [done|]. simpl. intros k'. rewrite lookup_delete_None. auto. Qed.

Lemma set_gate_gate m g b g' :
  is_Some (pqueues m !! g) → gate_of (set_gate g b m) g' = if decide (g' = g) then b else gate_of m g'.
Proof.
  intros [q Hq]. unfold gate_of. rewrite set_gate_lookup. destruct (decide (g' = g)) as [->|]; [by rewrite Hq|].
  by destruct (pqueues m !! g').
Qed.
Lemma set_chan_gate m g c g' : gate_of (set_chan g c m) g' = gate_of m g'.
Proof. unfold gate_of. rewrite set_chan_lookup. by destruct (pqueues m !! g'). Qed.

(** *** Holders *)

Lemma bind_insert {A B} (f : A → list B) (l : list A) i x y :
  l !! i = Some x → ∃ rest, l ≫= f ≡ₚ f x ++ rest ∧ <[i := y]> l ≫= f ≡ₚ f y ++ rest.
Proof.
  intros Hi. exists (delete i l ≫= f). split.
  - by rewrite (delete_Permutation _ _ _ Hi) at 1.
  - assert (<[i := y]> l !! i = Some y) as Hy by (apply list_lookup_insert_eq; by eapply lookup_lt_Some).
    rewrite (delete_Permutation _ _ _ Hy) at 1. simpl. rewrite !delete_take_drop, take_insert_ge, drop_insert_lt by lia. done.
Qed.
(** A gate is kept, taken or given back. *)
Inductive gate_change m m' : list Z → list Z → Prop :=
| gate_keep l : (∀ g, gate_of m' g = gate_of m g) → gate_change m m' l l
| gate_take g : gate_of m g = false → (∀ g', gate_of m' g' = if decide (g' = g) then true else gate_of m g') → gate_change m m' [] [g]
| gate_release g : (∀ g', gate_of m' g' = if decide (g' = g) then false else gate_of m g') → gate_change m m' [g] [].

Lemma gates_change m m' l l' old new rest :
  gate_change m m' old new → l ≡ₚ old ++ rest → l' ≡ₚ new ++ rest →
  NoDup l → (∀ g, g ∈ l ↔ gate_of m g = true) → NoDup l' ∧ ∀ g, g ∈ l' ↔ gate_of m' g = true.
Proof.
  intros Hch Hl Hl' Hnd Hg0. rewrite Hl in Hnd.
  assert (∀ g, g ∈ old ++ rest ↔ gate_of m g = true) as Hg by (intros g; by rewrite <- Hg0, Hl).
  enough (NoDup (new ++ rest) ∧ ∀ g, g ∈ new ++ rest ↔ gate_of m' g = true) as [Hnd' Hg'].
  { split; [by rewrite Hl'|]. intros g. rewrite Hl'. apply Hg'. }
  clear Hl Hl' Hg0. destruct Hch as [l0 Hsame|g Hfree Hnew|g Hnew].
  - split; [done|]. intros g. rewrite Hsame. apply Hg.
  - simpl in *. split.
    + apply list.NoDup_cons. split; [|done]. intros Hin%Hg. congruence.
    + intros g'. rewrite Hnew, elem_of_cons, Hg. destruct (decide _); naive_solver.
  - simpl in *. apply list.NoDup_cons in Hnd as [Hnin Hnd]. split; [done|]. intros g'. rewrite Hnew. specialize (Hg g').
    rewrite elem_of_cons in Hg. destruct (decide _) as [->|]; naive_solver.
Qed.

Lemma producer_actors m m' w ps i p p' :
  actors_ok m w ps → ps !! i = Some p → maps_ok m' → frame m m' → producer_ok m' p' → gate_change m m' (p_holds p) (p_holds p') →
  actors_ok m' w (<[i := p']> ps).
Proof.
  intros [Hm Hnd Hg Hps Hw] Hi Hm' Hf Hp' Hch. destruct (bind_insert p_holds ps i p p' Hi) as (rest & Hold & Hnew).
  destruct (gates_change m m' (holders w ps) (holders w (<[i := p']> ps)) _ _ (rest ++ w_holds w) Hch) as [Hnd' Hg']; try done.
  - unfold holders. rewrite Hold, Permutation_app_comm. by rewrite app_assoc.
  - unfold holders. rewrite Hnew, Permutation_app_comm. by rewrite app_assoc.
  - split; try done; [|by eapply worker_frame]. intros x [j Hj]%list_elem_of_lookup.
    apply list_lookup_insert_Some in Hj as [(_ & <- & _)|[_ Hj]]; [done|]. eapply producer_frame; [done|]. apply Hps, list_elem_of_lookup. eauto.
Qed.

Lemma worker_actors m m' w w' ps :
  actors_ok m w ps → maps_ok m' → frame m m' → worker_ok m' w' → gate_change m m' (w_holds w) (w_holds w') → actors_ok m' w' ps.
Proof.
  intros [Hm Hnd Hg Hps Hw] Hm' Hf Hw' Hch.
  destruct (gates_change m m' (holders w ps) (holders w' ps) _ _ (ps ≫= p_holds) Hch) as [Hnd' Hg']; try done.
  split; try done. intros p Hp. eapply producer_frame; [done|by apply Hps].
Qed.

Lemma gate_free m g q : pqueues m !! g = Some q → pq_gate q = false → gate_of m g = false.
Proof. intros Hq Hg. unfold gate_of. by rewrite Hq. Qed.

Lemma set_gate_take m g q : pqueues m !! g = Some q → pq_gate q = false → gate_change m (set_gate g true m) [] [g].
Proof. intros Hq Hg. apply gate_take; [by eapply gate_free|]. intros g'. apply set_gate_gate. by exists q. Qed.
Lemma set_gate_release m g : is_Some (pqueues m !! g) → gate_change m (set_gate g false m) [g] [].
Proof. intros Hq. apply gate_release. intros g'. by apply set_gate_gate. Qed.

Lemma cleanup_maps k g st m st' m' : maps_ok m → cleanup_step k g st m = (st', m') → maps_ok m'.
Proof.
  intros Hok. unfold cleanup_step. destruct st.
  - destruct (bool_decide _); intros [= <- <-]; [by apply remove_sender_maps|done].
  - intros [= <- <-]. destruct (route_in_progress m !! k); [|done]. destruct (_ =? _); [by apply remove_progress_maps|done].
  - intros [= <- <-]. destruct (bool_decide _); [by apply remove_receiver_maps|done].
Qed.
Lemma cleanup_frame k g st m st' m' : cleanup_step k g st m = (st', m') → frame m m'.
Proof.
  unfold cleanup_step. destruct st.
  - destruct (bool_decide _); intros [= <- <-]; [by split|apply frame_refl].
  - intros [= <- <-]. destruct (route_in_progress m !! k); [|apply frame_refl]. destruct (_ =? _); [apply remove_progress_frame|apply frame_refl].
  - intros [= <- <-]. destruct (bool_decide _); [apply remove_receiver_frame|apply frame_refl].
Qed.
Lemma cleanup_gate k g st m st' m' g' : cleanup_step k g st m = (st', m') → gate_of m' g' = gate_of m g'.
Proof.
  unfold cleanup_step. destruct st.
  - by destruct (bool_decide _); intros [= <- <-].
  - intros [= <- <-]. destruct (route_in_progress m !! k); [|done]. by destruct (_ =? _).
  - intros [= <- <-]. destruct (bool_decide _); [apply remove_receiver_gate|done].
Qed.

(** A message goes to an open queue, whose view it changes. *)
Lemma send_spec m g q a c :
  maps_ok m → pqueues m !! g = Some q → of_queue (pq_key q) g a → try_send a (pq_chan q) = Ok c →
  maps_ok (set_chan g c m) ∧ buf_rx m !! pq_key q = Some g ∧
  ∀ k, view (set_chan g c m) k = if decide (k = pq_key q) then mkView (buf_tx m !! k) (buf_rx m !! k) (contents m k ++ [a]) (route_in_progress m !! k)
                                 else view m k.
Proof.
  intros Hok Hq Ha Hs. pose proof (try_send_spec AdmittedMessage a (pq_chan q)) as Hspec. rewrite Hs in Hspec.
  destruct Hspec as (Hopen & _ & Hqd & _ & Hc). pose proof (mo_open _ Hok _ _ Hq Hopen) as Hrx.
  split; [|split; [done|]].
  - apply (set_chan_maps m g q c Hok Hq); [congruence|congruence|]. rewrite Hqd. apply Forall_app. split; [by eapply mo_msgs|by constructor].
  - intros k. rewrite (set_chan_view m g q c k Hq). destruct (decide (k = pq_key q)) as [->|Hne].
    + rewrite decide_True by done. f_equal. unfold contents. by rewrite Hrx, Hq.
    + rewrite decide_False; [done|]. intros Heq. destruct (mo_rx _ Hok _ _ Heq) as (q' & Hq' & Hk & _). simplify_eq.
Qed.

(** The worker receives from the queue of a route. *)
Lemma recv_spec m k g q a c :
  maps_ok m → buf_rx m !! k = Some g → pqueues m !! g = Some q → try_recv (pq_chan q) = Some (a, c) →
  maps_ok (set_chan g c m) ∧ of_queue k g a ∧ pq_key q = k ∧ contents m k = a :: queued c ∧
  ∀ k', view (set_chan g c m) k' = if decide (k' = k) then mkView (buf_tx m !! k) (buf_rx m !! k) (queued c) (route_in_progress m !! k)
                                   else view m k'.
Proof.
  intros Hok Hrx Hq Hr. pose proof (try_recv_spec AdmittedMessage (pq_chan q)) as Hspec. rewrite Hr in Hspec. destruct Hspec as (Hqd & _ & Hc).
  destruct (mo_rx _ Hok _ _ Hrx) as (q' & Hq' & Hk & Hopen). rewrite Hq in Hq'. injection Hq' as <-.
  pose proof (mo_msgs _ Hok _ _ Hq) as Hall. rewrite Hqd, Hk in Hall. apply Forall_cons_iff in Hall as [Ha Hall].
  split; [|split; [done|split; [done|split; [unfold contents; by rewrite Hrx, Hq|]]]].
  - apply (set_chan_maps m g q c Hok Hq); [done|congruence|by rewrite Hk].
  - intros k'. rewrite (set_chan_view m g q c k' Hq). destruct (decide (k' = k)) as [->|Hne]; [by rewrite decide_True|].
    rewrite decide_False; [done|]. intros Heq. destruct (mo_rx _ Hok _ _ Heq) as (q' & Hq' & Hk' & _). congruence.
Qed.
Lemma producer_step_actors adm m w ps i p p' m' acc nt :
  actors_ok m w ps → ps !! i = Some p → producer_step adm p m = Some (p', m', acc, nt) → actors_ok m' w (<[i := p']> ps).
Proof.
  intros Hok Hi. pose proof (ao_maps _ _ _ Hok) as Hm. assert (producer_ok m p) as Hp by (apply (ao_producers _ _ _ Hok), list_elem_of_lookup; eauto).
  destruct p as [x|x g|x g|g|k g st|b]; simpl; [..|done].
  - destruct (lookup_queue (key_of x) m) as [g m1] eqn:Hl. intros [= <- <- <- <-].
    destruct (lookup_queue_spec m (key_of x) g m1 Hm Hl) as (Hm1 & Hq & Hkeys & Hgates & _ & Hview).
    eapply producer_actors; [done..| |done|].
    + split; [intros g0 k0 (q0 & Hq0 & <-); destruct (Hkeys _ _ Hq0) as (q1 & ? & ? & _); by exists q1|].
      intros k Hk. specialize (Hview k). unfold view in Hview. destruct (decide _) as [[-> _]|]; injection Hview; congruence.
    + apply gate_keep. intros g0. unfold gate_of. destruct (pqueues m !! g0) as [q0|] eqn:Hq0.
      * destruct (Hkeys _ _ Hq0) as (q1 & -> & _ & ->). done.
      * destruct (pqueues m1 !! g0) as [q1|] eqn:Hq1; [|done]. destruct (pq_gate q1) eqn:Hg1; [|done].
        destruct (Hgates _ _ Hq1 Hg1) as (q0 & ? & _). congruence.
  - intros (q & Hq & Hstep)%bind_Some. destruct (pq_gate q) eqn:Hg; [done|]. destruct (bool_decide _).
    + injection Hstep as <- <- <- <-. eapply producer_actors; [done..|by apply set_gate_maps|apply set_gate_frame|by apply set_gate_key|].
      by eapply set_gate_take.
    + injection Hstep as <- <- <- <-. eapply producer_actors; [done..|apply frame_refl|done|]. by apply gate_keep.
  - intros (q & Hq & Hstep)%bind_Some. destruct Hp as (q' & Hq' & Hkey). rewrite Hq in Hq'. injection Hq' as <-.
    assert (∀ p', producer_ok (set_gate g false m) p' → p_holds p' = [] → actors_ok (set_gate g false m) w (<[i := p']> ps)) as Hrel.
    { intros p1 Hp1 Hh. eapply producer_actors; [done..|by apply set_gate_maps|apply set_gate_frame|done|]. rewrite Hh. apply set_gate_release. by exists q. }
    destruct adm as [[pm o]|]; [|injection Hstep as <- <- <- <-; by apply Hrel].
    destruct (try_send _ _) as [c|[]] eqn:Hs; injection Hstep as <- <- <- <-; [|by apply Hrel..].
    assert (of_queue (pq_key q) g (mkAdmitted pm o (with_generation g x))) as Ha by (by split).
    destruct (send_spec m g q _ c Hm Hq Ha Hs) as (Hm1 & _).
    eapply producer_actors; [done..|apply set_chan_frame|done|]. apply gate_keep. intros g'. apply set_chan_gate.
  - intros [= <- <- <- <-]. assert (gate_of m g = true) as Hg.
    { apply (ao_gates _ _ _ Hok). unfold holders. apply elem_of_app. right. apply list_elem_of_bind. exists (PNotify g).
      split; [by apply list_elem_of_singleton|apply list_elem_of_lookup; eauto]. }
    eapply producer_actors; [done..|by apply set_gate_maps|apply set_gate_frame|done|]. apply set_gate_release.
    unfold gate_of in Hg. by destruct (pqueues m !! g); [eexists|].
  - destruct (cleanup_step k g st m) as [st' m1] eqn:Hc. intros [= <- <- <- <-].
    eapply producer_actors; [done..|by eapply cleanup_maps|by eapply cleanup_frame|by destruct st'|].
    replace (p_holds (match st' with Some st => PCleanup k g st | None => PReturned false end)) with (@nil Z) by (by destruct st').
    apply gate_keep. intros g'. by eapply cleanup_gate.
Qed.

Lemma requeue_maps k g a m : maps_ok m → key_of (message a) = k → maps_ok (requeue_in_progress k g a m).
Proof.
  intros Hok Hk. unfold requeue_in_progress. destruct (buf_tx m !! k); [|done]. destruct (_ =? _); [|done].
  destruct (route_in_progress m !! k); [done|by apply insert_progress_maps].
Qed.
Lemma start_progress_maps a m : maps_ok m → maps_ok (start_progress a m).
Proof.
  intros Hok. unfold start_progress. destruct (buf_tx m !! _); [|done]. destruct (_ =? _); [by apply insert_progress_maps|done].
Qed.
Lemma requeue_queues k g a m : pqueues (requeue_in_progress k g a m) = pqueues m.
Proof. unfold requeue_in_progress. by case_all. Qed.
Lemma start_progress_queues a m : pqueues (start_progress a m) = pqueues m.
Proof. unfold start_progress. by case_all. Qed.

Lemma worker_actors' m m' w w' ps :
  actors_ok m w ps → maps_ok m' → (∀ g k, has_key m g k → has_key m' g k) → worker_ok m' w' →
  gate_change m m' (w_holds w) (w_holds w') → actors_ok m' w' ps.
Proof.
  intros [Hm Hnd Hg Hps Hw] Hm' Hf Hw' Hch.
  destruct (gates_change m m' (holders w ps) (holders w' ps) _ _ (ps ≫= p_holds) Hch) as [Hnd' Hg']; try done.
  split; try done. intros p Hp. specialize (Hps p Hp). destruct p; simpl in *; auto.
Qed.

Context (shard : Z → nat) (shards : nat).

Lemma worker_step_actors o w ra pm m ps w' ra' pm' m' ev :
  actors_ok m w ps → worker_step shard shards o w ra pm m = Some (w', ra', pm', m', ev) → actors_ok m' w' ps.
Proof.
  intros Hok. pose proof (ao_maps _ _ _ Hok) as Hm. pose proof (ao_worker _ _ _ Hok) as Hw.
  assert (∀ w1, w_holds w = w_holds w1 → worker_ok m w1 → actors_ok m w1 ps) as Hquiet.
  { intros w1 Hh Hw1. eapply worker_actors'; try done. rewrite Hh. by apply gate_keep. }
  destruct w as [todo found|rem mp|k g id rem mp|k g id rem mp|k g a rem mp|k g rem mp|g a rem|k g st rem mp| |]; simpl; intros Hstep.
  - destruct todo as [|n todo]; injection Hstep as <- <- <- <- <-; by apply Hquiet.
  - destruct rem as [|[k g] rem].
    { injection Hstep as <- <- <- <- <-. unfold next_worker_action. destruct mp; [by apply Hquiet|]. destruct (bool_decide _) eqn:He; [|by apply Hquiet].
      apply bool_decide_eq_true in He. apply Hquiet; [done|]. intros k. rewrite He. apply lookup_empty. }
    destruct (_ && _); [injection Hstep as <- <- <- <- <-; by apply Hquiet|]. injection Hstep as <- <- <- <- <-.
    destruct (route_in_progress m !! k) eqn:Hpk; [|by apply Hquiet]. destruct (negb _); [by apply Hquiet|]. destruct (wo_node_queue o); by apply Hquiet.
  - destruct (wo_ensure o); [injection Hstep as <- <- <- <- <-; by apply Hquiet| |injection Hstep as <- <- <- <- <-; by apply Hquiet].
    destruct (route_in_progress m !! k) eqn:Hpk; [|injection Hstep as <- <- <- <- <-; by apply Hquiet].
    destruct (same_message _ _ _); injection Hstep as <- <- <- <- <-; [|by apply Hquiet].
    eapply worker_actors'; [done|by apply remove_progress_maps|apply remove_progress_frame|done|]. by apply gate_keep.
  - destruct (route_in_progress m !! k) as [a|] eqn:Hpk; [|injection Hstep as <- <- <- <- <-; by apply Hquiet].
    destruct (same_message g id a) eqn:Hsame; injection Hstep as <- <- <- <- <-; [|by apply Hquiet].
    eapply worker_actors'; [done|by apply (remove_progress_maps m k)|apply (remove_progress_frame m k)| |by apply gate_keep].
    unfold same_message in Hsame. bool_to_prop. split; [|apply lookup_delete_eq]. split; [by apply (mo_prog _ Hm)|done].
  - destruct Hw as [Ha Hnone]. destruct (wo_forward o) as [|rehomed]; injection Hstep as <- <- <- <- <-; [by apply Hquiet|].
    eapply worker_actors'; [done| | |done|].
    + apply requeue_maps; [done|]. destruct Ha. by destruct rehomed as [[]|].
    + intros g' k' (q & ?). exists q. by rewrite requeue_queues.
    + apply gate_keep. intros g'. unfold gate_of. by rewrite requeue_queues.
  - destruct (negb _) eqn:Hb; [injection Hstep as <- <- <- <- <-; by apply Hquiet|]. apply negb_false_iff, bool_decide_eq_true in Hb.
    apply bind_Some in Hstep as (q & Hq & Hstep). destruct (pq_gate q) eqn:Hg; [done|].
    destruct (try_recv (pq_chan q)) as [[a c]|] eqn:Hr; injection Hstep as <- <- <- <- <-.
    + destruct (recv_spec m k g q a c Hm Hb Hq Hr) as (Hm1 & [Hka Hga] & Hk & _).
      rewrite set_chan_gate_comm.
      eapply worker_actors'; [done|by apply set_gate_maps| | |].
      * intros. by apply set_gate_key, set_chan_key.
      * cbn [worker_ok]. rewrite Hka. split; [by split|]. split; [|done]. apply set_gate_key, set_chan_key. by exists q.
      * apply gate_take; [by eapply gate_free|]. intros g'. rewrite set_gate_gate, set_chan_gate; [done|]. rewrite set_chan_lookup, Hq. by eexists.
    + eapply worker_actors'; [done|by apply set_gate_maps|intros; by apply set_gate_key| |by eapply set_gate_take].
      apply set_gate_key. destruct (mo_rx _ Hm _ _ Hb) as (q' & ? & ? & _). by exists q'.
  - injection Hstep as <- <- <- <- <-. eapply worker_actors'; [done|by apply set_gate_maps, start_progress_maps| |done|].
    + intros g' k' (q & Hq & Hk). apply set_gate_key. exists q. by rewrite start_progress_queues.
    + apply gate_release. intros g'. rewrite set_gate_gate; [unfold gate_of; by rewrite start_progress_queues|].
      rewrite start_progress_queues. destruct Hw as (_ & (q & Hq & _) & _). by exists q.
  - destruct (cleanup_step k g st m) as [next m1] eqn:Hc. pose proof (cleanup_maps _ _ _ _ _ _ Hm Hc) as Hm1. destruct (cleanup_frame _ _ _ _ _ _ Hc) as [Hk _].
    destruct next as [st'|]; injection Hstep as <- <- <- <- <-.
    + eapply worker_actors'; [done..|by apply Hk|]. apply gate_keep. intros. by eapply cleanup_gate.
    + eapply worker_actors'; [done|by apply set_gate_maps|intros; by apply set_gate_key, Hk|done|].
      apply gate_release. intros g'. rewrite set_gate_gate; [destruct (decide _); [done|by eapply cleanup_gate]|].
      destruct (Hk _ _ Hw) as (q & ? & _). by exists q.
  - injection Hstep as <- <- <- <- <-. by apply Hquiet.
  - destruct pm; [|done]. injection Hstep as <- <- <- <- <-. by apply Hquiet.
Qed.

Lemma removal_step_actors k st m st' m' w ps : actors_ok m w ps → removal_step k st m = (st', m') → actors_ok m' w ps.
Proof.
  intros Hok Hstep. pose proof (ao_maps _ _ _ Hok) as Hm.
  assert (frame m m' ∧ maps_ok m' ∧ ∀ g, gate_of m' g = gate_of m g) as (Hf & Hm' & Hg).
  { destruct st; injection Hstep as <- <-.
    - split; [by split|]. split; [by apply remove_sender_maps|done].
    - split; [apply remove_progress_frame|]. split; [by apply remove_progress_maps|done].
    - split; [apply remove_receiver_frame|]. split; [by apply remove_receiver_maps|]. intros. apply remove_receiver_gate. }
  eapply worker_actors; [done..| |by apply gate_keep]. eapply worker_frame; [done|apply Hok].
Qed.
(** ** What others do to a route *)

Definition a_mid (a : AdmittedMessage) : Z := msg_id (message a).

(** A step that is not the worker's leaves what the maps say of a route, makes a queue,
    adds an accepted message, or removes things, which only happens when [gone]. *)
Inductive outside (fresh : Z) (gone : Prop) (k : Key) : option (Key * Z) → View → View → Prop :=
| out_same acc v : (∀ id, acc = Some (k, id) → False) → outside fresh gone k acc v v
| out_create g v : v_tx v = None → fresh <= g → outside fresh gone k None v (mkView (Some g) (Some g) [] (v_prog v))
| out_append a g v :
    v_rx v = Some g → outside fresh gone k (Some (k, a_mid a)) v (mkView (v_tx v) (v_rx v) (v_queue v ++ [a]) (v_prog v))
| out_remove v v' :
    gone → v_queue v' = v_queue v ∨ v_queue v' = [] → v_prog v' = v_prog v ∨ v_prog v' = None → outside fresh gone k None v v'.

Lemma cleanup_outside fresh (gone : Prop) k0 g st m st' m' k :
  maps_ok m → (k0 = k → gone) → cleanup_step k0 g st m = (st', m') → outside fresh gone k None (view m k) (view m' k).
Proof.
  intros Hm Hgone Hc. assert (∀ v, v = view m k → outside fresh gone k None (view m k) v) as Hsame by (intros ? ->; by apply out_same).
  unfold cleanup_step in Hc. destruct st.
  - destruct (bool_decide _); injection Hc as <- <-; [|by apply Hsame]. rewrite remove_sender_view. destruct (decide _) as [->|]; [|by apply Hsame].
    apply out_remove; auto.
  - injection Hc as <- <-. destruct (route_in_progress m !! k0); [|by apply Hsame]. destruct (_ =? _); [|by apply Hsame].
    rewrite remove_progress_view. destruct (decide _) as [->|]; [|by apply Hsame]. apply out_remove; auto.
  - injection Hc as <- <-. destruct (bool_decide _); [|by apply Hsame]. rewrite remove_receiver_view by done.
    destruct (decide _) as [->|]; [|by apply Hsame]. apply out_remove; auto.
Qed.

Lemma removal_outside fresh (gone : Prop) k0 st m st' m' k :
  maps_ok m → (k0 = k → gone) → removal_step k0 st m = (st', m') → outside fresh gone k None (view m k) (view m' k).
Proof.
  intros Hm Hgone Hc. destruct st; injection Hc as <- <-.
  - rewrite remove_sender_view. destruct (decide _) as [->|]; [apply out_remove; auto|by apply out_same].
  - rewrite remove_progress_view. destruct (decide _) as [->|]; [apply out_remove; auto|by apply out_same].
  - rewrite remove_receiver_view by done. destruct (decide _) as [->|]; [apply out_remove; auto|by apply out_same].
Qed.

Lemma producer_outside (gone : Prop) adm p m p' m' acc nt k :
  maps_ok m → producer_ok m p → (∀ g st, p = PCleanup k g st → gone) → producer_step adm p m = Some (p', m', acc, nt) →
  outside (next_process_queue_generation m) gone k acc (view m k) (view m' k).
Proof.
  intros Hm Hp Hgone. destruct p as [x|x g|x g|g|k0 g st|b]; simpl; [..|done].
  - destruct (lookup_queue (key_of x) m) as [g m1] eqn:Hl. intros [= <- <- <- <-].
    destruct (lookup_queue_spec m (key_of x) g m1 Hm Hl) as (_ & _ & _ & _ & _ & Hview). rewrite Hview.
    destruct (decide _) as [[-> Hnone]|]; [|by apply out_same]. unfold lookup_queue in Hl. rewrite Hnone in Hl. injection Hl as <- <-.
    by apply out_create.
  - intros (q & Hq & Hstep)%bind_Some. destruct (pq_gate q); [done|]. destruct (bool_decide _); injection Hstep as <- <- <- <-; [|by apply out_same].
    rewrite set_gate_view. by apply out_same.
  - intros (q & Hq & Hstep)%bind_Some. destruct Hp as (q' & Hq' & Hkey). rewrite Hq in Hq'. injection Hq' as <-.
    destruct adm as [[pm o]|]; [|injection Hstep as <- <- <- <-; rewrite set_gate_view; by apply out_same].
    destruct (try_send _ _) as [c|[]] eqn:Hs; injection Hstep as <- <- <- <-; [|rewrite set_gate_view; by apply out_same..].
    assert (of_queue (pq_key q) g (mkAdmitted pm o (with_generation g x))) as Ha by (by split).
    destruct (send_spec m g q _ c Hm Hq Ha Hs) as (_ & Hrx & Hview). rewrite Hview. rewrite Hkey in *.
    destruct (decide _) as [->|Hne]; [|apply out_same; congruence]. by apply (out_append _ _ _ (mkAdmitted pm o (with_generation g x)) g).
  - intros [= <- <- <- <-]. rewrite set_gate_view. by apply out_same.
  - destruct (cleanup_step k0 g st m) as [st' m1] eqn:Hc. intros [= <- <- <- <-]. eapply cleanup_outside; [done| |done]. intros ->. by eapply Hgone.
Qed.

(** ** The order of a route *)

Definition of_key k (l : list (Key * Z)) : list Z := (filter (fun e => e.1 = k) l).*2.

Lemma of_key_app k l1 l2 : of_key k (l1 ++ l2) = of_key k l1 ++ of_key k l2.
Proof. unfold of_key. by rewrite filter_app, fmap_app. Qed.
Lemma of_key_one k k' id : of_key k [(k', id)] = if decide (k' = k) then [id] else [].
Proof. unfold of_key. rewrite filter_cons, filter_nil. simpl. by destruct (decide _). Qed.

(** The message the worker has of a route, and all messages of a route, oldest first. *)
Definition hand k w : list AdmittedMessage :=
  match w with
  | WHand k' _ a _ _ => if decide (k' = k) then [a] else []
  | WGot _ a _ => if decide (key_of (message a) = k) then [a] else []
  | _ => []
  end.
Definition waiting k w (v : View) : list AdmittedMessage := hand k w ++ option_list (v_prog v) ++ v_queue v.
Definition line k (fwd : list (Key * Z)) w (v : View) : list Z := of_key k fwd ++ (a_mid <$> waiting k w v).

Lemma outside_line fresh gone k acc v v' fwd w accs :
  outside fresh gone k acc v v' → sublist (line k fwd w v) (of_key k accs) → sublist (line k fwd w v') (of_key k (accs ++ option_list acc)).
Proof.
  unfold line, waiting. destruct 1 as [acc v Hacc|g v Htx _|a g v _|v v' _ Hq Hp]; intros Hsub.
  - rewrite of_key_app. etrans; [exact Hsub|]. by apply sublist_inserts_r.
  - simpl. rewrite (app_nil_r accs). etrans; [|exact Hsub]. apply sublist_app; [done|]. apply fmap_sublist.
    apply sublist_app; [done|]. apply sublist_app; [done|]. apply sublist_nil_l.
  - simpl. rewrite of_key_app, of_key_one, decide_True by done. rewrite !app_assoc, fmap_app. simpl. rewrite app_assoc.
    apply sublist_app; [|done]. by rewrite !app_assoc in Hsub.
  - simpl. rewrite (app_nil_r accs). etrans; [|exact Hsub]. apply sublist_app; [done|]. apply fmap_sublist, sublist_app; [done|]. apply sublist_app.
    + destruct Hp as [-> | ->]; [done|]. apply sublist_nil_l.
    + destruct Hq as [-> | ->]; [done|]. apply sublist_nil_l.
Qed.
(** ** What the worker does to a route *)

Definition mids k w (v : View) : list Z := a_mid <$> waiting k w v.

(** The worker drops a message of a route only when the route was removed under it. *)
Definition loses k w (v : View) : Prop :=
  match w with
  | WHand k' g _ _ _ => k' = k ∧ v_tx v ≠ Some g
  | WGot g a _ => key_of (message a) = k ∧ v_tx v ≠ Some g
  | WIdle k' _ AtProgress _ _ => k' = k ∧ v_prog v ≠ None
  | WIdle k' g AtReceiver _ _ => k' = k ∧ v_rx v = Some g ∧ v_queue v ≠ []
  | _ => False
  end.

Inductive inside k m w m' w' : option WorkerEvent → Prop :=
| in_keep ev :
    (∀ id, ev ≠ Some (EvForwarded k id)) →
    (∀ id, ev = Some (EvUnreachable id) → ∃ k0, k0 ≠ k ∧ id ∈ mids k0 w (view m k0)) →
    mids k w' (view m' k) = mids k w (view m k) → inside k m w m' w' ev
| in_forward id : mids k w (view m k) = id :: mids k w' (view m' k) → inside k m w m' w' (Some (EvForwarded k id))
| in_unreachable id : mids k w (view m k) = id :: mids k w' (view m' k) → inside k m w m' w' (Some (EvUnreachable id))
| in_lose : loses k w (view m k) → sublist (mids k w' (view m' k)) (mids k w (view m k)) → inside k m w m' w' None.

Lemma cleanup_inside k k0 g st m st' m' w' rem mp :
  maps_ok m → cleanup_step k0 g st m = (st', m') → hand k w' = [] → inside k m (WIdle k0 g st rem mp) m' w' None.
Proof.
  intros Hm Hc Hh. assert (∀ m1, view m1 k = view m k → inside k m (WIdle k0 g st rem mp) m1 w' None) as Hsame.
  { intros m1 Hv. apply in_keep; [done|done|]. unfold mids, waiting. by rewrite Hv, Hh. }
  unfold cleanup_step in Hc. destruct st.
  - destruct (bool_decide _); injection Hc as <- <-; [|by apply Hsame]. apply in_keep; [done|done|]. rewrite remove_sender_view.
    unfold mids, waiting. rewrite Hh. by destruct (decide _) as [->|].
  - injection Hc as <- <-. destruct (route_in_progress m !! k0) as [a|] eqn:Ha; [|by apply Hsame]. destruct (_ =? _); [|by apply Hsame].
    pose proof (remove_progress_view m k0 k) as Hv. destruct (decide (k = k0)) as [->|]; [|by apply Hsame].
    apply in_lose; [split; [done|]; simpl; congruence|]. unfold mids, waiting. rewrite Hv, Hh. apply fmap_sublist, sublist_app; [done|]. simpl. by apply sublist_inserts_l.
  - injection Hc as <- <-. destruct (bool_decide _) eqn:Hb; [|by apply Hsame]. apply bool_decide_eq_true in Hb.
    pose proof (remove_receiver_view m k0 k Hm) as Hv. destruct (decide (k = k0)) as [->|]; [|by apply Hsame].
    destruct (decide (contents m k0 = [])) as [He|Hne].
    + apply in_keep; [done|done|]. unfold mids, waiting. rewrite Hv, Hh. simpl. by rewrite He.
    + apply in_lose; [done|]. unfold mids, waiting. rewrite Hv, Hh. apply fmap_sublist, sublist_app; [done|]. simpl. apply sublist_app; [done|apply sublist_nil_l].
Qed.

Lemma hand_inside k k0 g a m m' w w' :
  route_in_progress m !! k0 = None → of_queue k0 g a →
  (∀ k1, hand k1 w = if decide (k0 = k1) then [a] else []) → (∀ k1, hand k1 w' = []) →
  (buf_tx m !! k0 ≠ Some g → loses k0 w (view m k0)) →
  (∃ a', message a' = message a ∧ (m' = m ∨ m' = set_progress (<[k0 := a']> (route_in_progress m)) m) ∧
         (buf_tx m !! k0 = Some g → m' = set_progress (<[k0 := a']> (route_in_progress m)) m)) →
  inside k m w m' w' None.
Proof.
  intros Hnone Ha Hh Hh' Hlose (a' & Hmsg & Hm' & Htx). destruct (decide (k0 = k)) as [->|Hne].
  - assert (m' = set_progress (<[k := a']> (route_in_progress m)) m → inside k m w m' w' None) as Hkept.
    { intros ->. apply in_keep; [done|done|]. unfold mids, waiting. rewrite insert_progress_view, Hh, Hh', !decide_True by done.
      simpl. rewrite Hnone. simpl. unfold a_mid at 1 3. by rewrite Hmsg. }
    destruct (decide (buf_tx m !! k = Some g)) as [Heq|Hneq]; [auto|]. destruct Hm' as [->|]; [|auto].
    apply in_lose; [auto|]. unfold mids, waiting. rewrite Hh, Hh', decide_True by done. apply fmap_sublist. by apply sublist_inserts_l.
  - apply in_keep; [done|done|]. unfold mids, waiting. rewrite Hh, Hh', decide_False by done. destruct Hm' as [->| ->]; [done|].
    by rewrite insert_progress_view, decide_False.
Qed.

Lemma worker_inside k o w ra pm m ps w' ra' pm' m' ev :
  actors_ok m w ps → worker_step shard shards o w ra pm m = Some (w', ra', pm', m', ev) → inside k m w m' w' ev.
Proof.
  intros Hok. pose proof (ao_maps _ _ _ Hok) as Hm. pose proof (ao_worker _ _ _ Hok) as Hw.
  assert (∀ w1, (∀ k, hand k w = hand k w1) → inside k m w m w1 None) as Hquiet.
  { intros w1 Hh. apply in_keep; [done|done|]. unfold mids, waiting. by rewrite Hh. }
  destruct w as [todo found|rem mp|k0 g id rem mp|k0 g id rem mp|k0 g a rem mp|k0 g rem mp|g a rem|k0 g st rem mp| |]; simpl; intros Hstep.
  - destruct todo as [|n todo]; injection Hstep as <- <- <- <- <-; by apply Hquiet.
  - destruct rem as [|[k0 g] rem].
    { injection Hstep as <- <- <- <- <-. apply Hquiet; by destruct (next_worker_action _ _). }
    destruct (_ && _); [injection Hstep as <- <- <- <- <-; by apply Hquiet|]. injection Hstep as <- <- <- <- <-.
    destruct (route_in_progress m !! k0) eqn:Hpk; [|by apply Hquiet]. destruct (negb _); [by apply Hquiet|]. destruct (wo_node_queue o); by apply Hquiet.
  - destruct (wo_ensure o); [injection Hstep as <- <- <- <- <-; by apply Hquiet| |injection Hstep as <- <- <- <- <-; by apply Hquiet].
    destruct (route_in_progress m !! k0) as [a|] eqn:Hpk; [|injection Hstep as <- <- <- <- <-; by apply Hquiet].
    destruct (same_message g id a) eqn:Hsame; injection Hstep as <- <- <- <- <-; [|by apply Hquiet].
    unfold same_message in Hsame. bool_to_prop. destruct (decide (k = k0)) as [->|Hne].
    + apply in_unreachable. unfold mids, waiting. rewrite remove_progress_view, decide_True by done. simpl. rewrite Hpk. simpl. by subst id.
    + apply in_keep; [done| |].
      * intros id' [= <-]. exists k0. split; [done|]. unfold mids, waiting. simpl. rewrite Hpk. simpl. subst id. by left.
      * unfold mids, waiting. by rewrite remove_progress_view, decide_False.
  - destruct (route_in_progress m !! k0) as [a|] eqn:Hpk; [|injection Hstep as <- <- <- <- <-; by apply Hquiet].
    destruct (same_message g id a) eqn:Hsame; injection Hstep as <- <- <- <- <-; [|by apply Hquiet].
    apply in_keep; [done|done|]. unfold mids, waiting. rewrite (remove_progress_view m k0 k : view (set_progress _ _) _ = _). simpl.
    destruct (decide (k0 = k)) as [->|Hne]; [rewrite decide_True by done; simpl; by rewrite Hpk|by rewrite decide_False].
  - destruct Hw as [Ha Hnone]. destruct (wo_forward o) as [|rehomed] eqn:Hf; injection Hstep as <- <- <- <- <-.
    + destruct (decide (k0 = k)) as [->|Hne].
      * apply in_forward. unfold mids, waiting. simpl. by rewrite decide_True.
      * apply in_keep; [congruence|done|]. unfold mids, waiting. simpl. by rewrite decide_False.
    + eapply (hand_inside k k0 g a); try done.
      exists (match rehomed with Some (p, o) => mkAdmitted p o (message a) | None => a end). split; [by destruct rehomed as [[]|]|].
      unfold requeue_in_progress. rewrite Hnone. destruct (buf_tx m !! k0) as [g'|]; [|by split; [left|]].
      destruct (g' =? g) eqn:Hg; bool_to_prop; [by split; [right|]|]. split; [by left|]. congruence.
  - destruct (negb _) eqn:Hb; [injection Hstep as <- <- <- <- <-; by apply Hquiet|]. apply negb_false_iff, bool_decide_eq_true in Hb.
    apply bind_Some in Hstep as (q & Hq & Hstep). destruct (pq_gate q) eqn:Hg; [done|].
    destruct (try_recv (pq_chan q)) as [[a c]|] eqn:Hr; injection Hstep as <- <- <- <- <-.
    + destruct (recv_spec m k0 g q a c Hm Hb Hq Hr) as (Hm1 & [Hka Hga] & Hk & Hcont & Hv). rewrite set_chan_gate_comm.
      apply in_keep; [done|done|]. unfold mids, waiting. rewrite set_gate_view, Hv. simpl. rewrite Hka.
      destruct (decide (k = k0)) as [->|Hne]; [rewrite decide_True by done|by rewrite decide_False]. simpl. by rewrite Hw, Hcont.
    + apply in_keep; [done|done|]. unfold mids, waiting. by rewrite set_gate_view.
  - injection Hstep as <- <- <- <- <-. destruct Hw as (Ha & _ & Hnone).
    assert (inside k m (WGot g a rem) (start_progress a m) (WItem rem true) None) as Hin.
    { eapply (hand_inside k (key_of (message a)) g a); try done.
      exists a. split; [done|]. unfold start_progress. destruct Ha as [_ Hgen]. rewrite Hgen. destruct (buf_tx m !! _) as [g'|]; [|by split; [left|]].
      destruct (g' =? g) eqn:Hg; bool_to_prop; [by split; [right|]|]. split; [by left|]. congruence. }
    inversion Hin as [ev H1 H2 H3| | |H1 H2]; subst.
    + apply in_keep; [done|done|]. by rewrite set_gate_view.
    + apply in_lose; [done|]. by rewrite set_gate_view.
  - destruct (cleanup_step k0 g st m) as [next m1] eqn:Hc. destruct next as [st'|]; injection Hstep as <- <- <- <- <-; [by eapply cleanup_inside|].
    pose proof (cleanup_inside k k0 g st m None m1 (WItem rem mp) rem mp Hm Hc eq_refl) as Hin.
    inversion Hin as [ev H1 H2 H3| | |H1 H2]; subst.
    + apply in_keep; [done|done|]. by rewrite set_gate_view.
    + apply in_lose; [done|]. by rewrite set_gate_view.
  - injection Hstep as <- <- <- <- <-. by apply Hquiet.
  - destruct pm; [|done]. injection Hstep as <- <- <- <- <-. by apply Hquiet.
Qed.
(** ** Routes of processes that have not ended *)

Definition retiring k g w : Prop :=
  match w with
  | WIdle k' g' (AtProgress | AtReceiver) _ _ => k' = k ∧ g' = g
  | _ => False
  end.

Definition current w : option (Key * Z) :=
  match w with
  | WEnsure k g _ _ _ | WTake k g _ _ _ | WHand k g _ _ _ | WRecv k g _ _ => Some (k, g)
  | _ => None
  end.

Definition settled_worker k (v : View) w : Prop :=
  match w with
  | WEnsure k' g id _ _ | WTake k' g id _ _ => k' = k → ∃ a, v_prog v = Some a ∧ same_message g id a = true
  | WHand k' g _ _ _ => k' = k → v_tx v = Some g
  | WGot g a _ => key_of (message a) = k → v_tx v = Some g
  | WIdle k' g st _ _ => k' = k → v_prog v = None ∧ (v_rx v = Some g → v_queue v = []) ∧ (st ≠ AtSender → v_tx v ≠ Some g)
  | _ => True
  end.

Definition settled_producer k (v : View) p : Prop :=
  match p with
  | PSend x g => key_of x = k → v_tx v = Some g
  | PCleanup k' _ _ => k' ≠ k
  | _ => True
  end.

(** The pass of the worker will come to a queue, has made progress, or will be made. *)
Definition covered k g w : Prop :=
  match w with
  | WCollect todo found => shard k.1 ∈ todo ∨ (k, g) ∈ found
  | WItem rem mp => mp = true ∨ (k, g) ∈ rem
  | WEnsure k' g' _ rem mp | WTake k' g' _ rem mp | WHand k' g' _ rem mp | WRecv k' g' rem mp => mp = true ∨ (k, g) = (k', g') ∨ (k, g) ∈ rem
  | WGot _ _ _ | WSleep => True
  | WIdle _ _ _ rem mp => mp = true ∨ (k, g) ∈ rem
  | WWait => False
  end.

Definition awake k g s : Prop :=
  has_messages s = true ∨ (∃ g', PNotify g' ∈ producers s) ∨ covered k g (worker s) ∨ v_prog (view (maps s) k) ≠ None.

Record settled k s : Prop := {
  st_tx g : buf_tx (maps s) !! k = Some g → buf_rx (maps s) !! k = Some g;
  st_rx g : buf_rx (maps s) !! k = Some g →
    buf_tx (maps s) !! k = Some g ∨ (buf_tx (maps s) !! k = None ∧ contents (maps s) k = [] ∧ retiring k g (worker s));
  st_prog a : route_in_progress (maps s) !! k = Some a → buf_tx (maps s) !! k = Some (queue_generation (message a));
  st_worker : settled_worker k (view (maps s) k) (worker s);
  st_producers p : p ∈ producers s → settled_producer k (view (maps s) k) p;
  st_exact : line k (forwarded s) (worker s) (view (maps s) k) = filter (fun id => id ∉ unreachable s) (of_key k (accepted s));
  st_retry g : (k, g) ∈ retry_after s →
    g < next_process_queue_generation (maps s) ∧ current (worker s) ≠ Some (k, g) ∧
    (buf_rx (maps s) !! k = Some g → route_in_progress (maps s) !! k ≠ None);
  st_wake g : buf_rx (maps s) !! k = Some g → contents (maps s) k ≠ [] → awake k g s;
}.

Definition gone (e : gset (Z * Z)) k : Prop := (k.1, route_src k.2) ∈ e.
#[local] Instance gone_dec e k : Decision (gone e k).
Proof. unfold gone. apply _. Defined.

Record sched_ok s : Prop := {
  so_actors : actors_ok (maps s) (worker s) (producers s);
  so_ids : NoDup ((accepted s).*2 ++ (producers s ≫= p_ids));
  so_next id : id ∈ (accepted s).*2 ++ (producers s ≫= p_ids) → id < next_message_id s;
  so_line k : sublist (line k (forwarded s) (worker s) (view (maps s) k)) (of_key k (accepted s));
  so_removals r k : r ∈ removals s → k ∈ r.1 → gone (ended s) k;
  so_cleanups k g st : PCleanup k g st ∈ producers s → gone (ended s) k;
  so_unreachable id : id ∈ unreachable s → id ∈ (accepted s).*2;
  so_settled k : ¬ gone (ended s) k → settled k s;
}.

(** *** Steps of others *)

Lemma contents_none m k : buf_rx m !! k = None → contents m k = [].
Proof. unfold contents. by intros ->. Qed.

Lemma view_fields m m' k :
  view m' k = view m k → buf_tx m' !! k = buf_tx m !! k ∧ buf_rx m' !! k = buf_rx m !! k ∧ contents m' k = contents m k ∧
  route_in_progress m' !! k = route_in_progress m !! k.
Proof. unfold view. by intros [= ? ? ? ?]. Qed.

(** A step of a producer or of a removal that is not of this route, or adds to it. *)
Lemma settled_outside k s m' ps' pm' acc :
  settled k s → maps_ok (maps s) →
  outside (next_process_queue_generation (maps s)) False k acc (view (maps s) k) (view m' k) →
  next_process_queue_generation (maps s) <= next_process_queue_generation m' →
  (∀ p, p ∈ ps' → settled_producer k (view m' k) p) →
  (∀ id, acc = Some (k, id) → (id ∉ unreachable s) ∧ (∃ g', PNotify g' ∈ ps') ∧
     ∃ g, buf_tx (maps s) !! k = Some g ∧ ∀ k' st rem mp, worker s ≠ WIdle k' g st rem mp) →
  (∀ k' g st rem mp, worker s = WIdle k' g st rem mp → g < next_process_queue_generation (maps s)) →
  (has_messages s = true ∨ (∃ g', PNotify g' ∈ producers s) → pm' = true ∨ ∃ g', PNotify g' ∈ ps') →
  ∀ rm nid e, settled k (mkSched m' pm' ps' (worker s) (retry_after s) rm nid (accepted s ++ option_list acc) (forwarded s) (unreachable s) e).
Proof.
  intros Hs Hm Hout Hnext Hps Hacc Hidle Hnotify rm nid e. pose proof Hs as [Htx Hrx Hprog Hw _ Hex Hretry Hwake].
  remember (view (maps s) k) as v0 eqn:Hv0. remember (view m' k) as v1 eqn:Hv1. revert Hacc Hv0 Hv1 Hps Hw Hex.
  destruct Hout as [acc v Hno|g v Hnone Hfresh|a g v Hrxg|v v' []]; intros Hacc Hv0 Heq3 Hps Hw Hex; symmetry in Heq3; subst v.
  - apply view_fields in Heq3 as Hf. destruct Hf as (Ht & Hr & Hc & Hp). split; cbn [maps worker producers retry_after has_messages accepted forwarded unreachable]; rewrite ?Ht, ?Hr, ?Hc, ?Hp, ?Heq3; try done.
    + rewrite Hex, of_key_app. destruct acc as [[k' id]|]; simpl; [|by rewrite app_nil_r].
      rewrite of_key_one, decide_False, app_nil_r; [done|]. intros ->. by eapply Hno.
    + intros g Hg. destruct (Hretry g Hg) as (? & ? & ?). split; [lia|done].
    + intros g Hg Hne. unfold awake. cbn [has_messages producers worker maps]. rewrite Heq3. destruct (Hwake g Hg Hne) as [Ha|[Ha|[?|?]]]; [| |auto..].
      * destruct (Hnotify (or_introl Ha)); auto.
      * destruct (Hnotify (or_intror Ha)); auto.
  - simpl in Hnone. pose proof Heq3 as Hv1. unfold view in Heq3. injection Heq3 as Ht Hr Hc Hp.
    assert (route_in_progress (maps s) !! k = None) as Hpn.
    { destruct (route_in_progress (maps s) !! k) as [a|] eqn:Ha; [|done]. rewrite (Hprog a eq_refl) in Hnone. done. }
    assert (contents (maps s) k = []) as Hcn.
    { destruct (buf_rx (maps s) !! k) as [g0|] eqn:Hg0; [|by apply contents_none]. destruct (Hrx g0 eq_refl) as [?|(_ & ? & _)]; congruence. }
    simpl in Hp. rewrite Hpn in Hp.
    assert (view m' k = mkView (Some g) (Some g) [] None) as Hv by (unfold view; by rewrite Ht, Hr, Hc, Hp).
    split; cbn [maps worker producers retry_after has_messages accepted forwarded unreachable]; rewrite ?Ht, ?Hr, ?Hc, ?Hp; try done; [naive_solver|..].
    + rewrite Hv. simpl. destruct (worker s) as [|?|k' g' id ? ?|k' g' id ? ?|k' g' a ? ?|?|g' a ?|k' g' st ? ?| |] eqn:Hwk; try done; simpl in Hw.
      * intros Hk. destruct (Hw Hk) as (a & Ha & _). congruence.
      * intros Hk. destruct (Hw Hk) as (a & Ha & _). congruence.
      * intros Hk. rewrite (Hw Hk) in Hnone. done.
      * intros Hk. rewrite (Hw Hk) in Hnone. done.
      * intros Hk. split; [done|]. split; [done|]. intros _ [= ->]. specialize (Hidle _ _ _ _ _ eq_refl). lia.
    + intros p Hin. rewrite Hv1. by apply Hps.
    + simpl. rewrite app_nil_r, <- Hex. unfold line, waiting. rewrite Hv. simpl. by rewrite Hpn, Hcn.
    + intros g0 Hg0. destruct (Hretry g0 Hg0) as (? & ? & _). split; [lia|]. split; [done|]. intros [= ->]. lia.
  - simpl in Hrxg. pose proof Heq3 as Hv1. unfold view in Heq3. injection Heq3 as Ht Hr Hc Hp. simpl in Hp.
    destruct (Hacc (a_mid a) eq_refl) as (Hunr & Hn & g0 & Htx0 & Hnot). pose proof (Htx g0 Htx0) as Hrx0.
    split; cbn [maps worker producers retry_after has_messages accepted forwarded unreachable]; rewrite ?Ht, ?Hr, ?Hc, ?Hp; simpl; try done.
    + intros g1 Hg1. left. congruence.
    + destruct (worker s) as [|?|k' g' id ? ?|k' g' id ? ?|k' g' b ? ?|?|g' b ?|k' g' st ? ?| |] eqn:Hwk; try done; simpl in Hw |- *; rewrite ?Ht, ?Hr, ?Hp; try done.
      intros Hk. destruct (Hw Hk) as (? & ? & Hst). split; [done|]. split; [|done]. intros Hg'. rewrite Hrx0 in Hg'. injection Hg' as ->. by destruct (Hnot k' st rem made_progress).
    + intros p Hin. rewrite Hv1. by apply Hps.
    + rewrite of_key_app, of_key_one, decide_True by done. rewrite filter_app, <- Hex, filter_cons_True, filter_nil by done.
      unfold line, waiting. simpl. rewrite Hc, Hp. simpl. rewrite !app_assoc, fmap_app. simpl. by rewrite !app_assoc.
    + intros g1 Hg1. destruct (Hretry g1 Hg1) as (? & ? & ?). split; [lia|done].
    + intros g1 Hg1 _. right. left. done.
Qed.
(** *** Steps of the worker *)

(** A gate is only held once. *)
Lemma idle_alone m k g st rem mp ps x : actors_ok m (WIdle k g st rem mp) ps → PSend x g ∈ ps → False.
Proof.
  intros [_ Hnd _ _ _] Hin. unfold holders in Hnd. simpl in Hnd. apply list.NoDup_cons in Hnd as [Hnin _]. apply Hnin.
  apply list_elem_of_bind. exists (PSend x g). split; [by apply list_elem_of_singleton|done].
Qed.

Lemma filter_more (l unr : list Z) id : id ∉ l → filter (fun x => x ∉ unr ++ [id]) l = filter (fun x => x ∉ unr) l.
Proof.
  induction l as [|x l IH]; intros Hnin; [done|]. apply not_elem_of_cons in Hnin as [Hne Hnin].
  rewrite !filter_cons, IH by done. destruct (decide (x ∉ unr)) as [Hx|Hx].
  - rewrite decide_True; [done|]. rewrite not_elem_of_app, list_elem_of_singleton. naive_solver.
  - rewrite decide_False; [done|]. rewrite elem_of_app. naive_solver.
Qed.

Lemma filter_one (l unr pre post : list Z) id :
  NoDup l → filter (fun x => x ∉ unr) l = pre ++ id :: post → filter (fun x => x ∉ unr ++ [id]) l = pre ++ post.
Proof.
  revert pre. induction l as [|x l IH]; intros pre Hnd Heq; [by destruct pre|]. apply list.NoDup_cons in Hnd as [Hnin Hnd].
  rewrite filter_cons in Heq |- *. destruct (decide (x ∉ unr)) as [Hx|Hx].
  - destruct pre as [|y pre]; simpl in Heq; injection Heq as -> Heq.
    + rewrite decide_False by (rewrite elem_of_app, list_elem_of_singleton; naive_solver). simpl. by rewrite filter_more.
    + assert (y ≠ id) as Hne.
      { intros ->. apply Hnin. assert (id ∈ filter (fun x => x ∉ unr) l) as Hin by (rewrite Heq, elem_of_app; right; left).
        by apply list_elem_of_filter in Hin as [_ ?]. }
      rewrite decide_True by (rewrite not_elem_of_app, list_elem_of_singleton; naive_solver). simpl. f_equal. by apply IH.
  - rewrite decide_False by (rewrite elem_of_app; naive_solver). by apply IH.
Qed.

Lemma elem_of_key k l id : id ∈ of_key k l ↔ (k, id) ∈ l.
Proof.
  unfold of_key. rewrite list_elem_of_fmap. split.
  - intros ([k' id'] & -> & [? ?]%list_elem_of_filter). simpl in *. by subst.
  - intros Hin. exists (k, id). split; [done|]. by apply list_elem_of_filter.
Qed.
Lemma of_key_NoDup k (l : list (Key * Z)) : NoDup l.*2 → NoDup (of_key k l).
Proof.
  induction l as [|[k' id] l IH]; [constructor|]. rewrite fmap_cons. intros [Hnin Hnd]%list.NoDup_cons.
  change ((k', id) :: l) with ([(k', id)] ++ l). rewrite of_key_app, of_key_one. destruct (decide _); [|by apply IH].
  apply list.NoDup_cons. split; [|by apply IH]. rewrite elem_of_key. intros Hin. apply Hnin. by apply (list_elem_of_fmap_2 snd) in Hin.
Qed.

Lemma waiting_accepted s k id : sched_ok s → id ∈ mids k (worker s) (view (maps s) k) → (k, id) ∈ accepted s.
Proof.
  intros Hok Hin. apply elem_of_key. eapply elem_of_sublist; [|by apply so_line]. unfold line. apply elem_of_app. by right.
Qed.

Lemma accepted_once s k k' id : sched_ok s → (k, id) ∈ accepted s → (k', id) ∈ accepted s → k = k'.
Proof.
  intros Hok Hk Hk'. pose proof (so_ids _ Hok) as Hnd. apply NoDup_app in Hnd as (Hnd & _).
  pose proof (NoDup_fmap_eq snd _ _ _ Hnd Hk Hk' eq_refl) as Heq. by injection Heq.
Qed.

Definition fwd_of (ev : option WorkerEvent) : list (Key * Z) := match ev with Some (EvForwarded k id) => [(k, id)] | _ => [] end.
Definition unr_of (ev : option WorkerEvent) : list Z := match ev with Some (EvUnreachable id) => [id] | _ => [] end.

Lemma line_step k s m' w' ev :
  sched_ok s → inside k (maps s) (worker s) m' w' ev → sublist (line k (forwarded s ++ fwd_of ev) w' (view m' k)) (of_key k (accepted s)).
Proof.
  intros Hok Hin. pose proof (so_line _ Hok k) as Hl. unfold line in *. change (a_mid <$> waiting k w' (view m' k)) with (mids k w' (view m' k)).
  change (a_mid <$> waiting k (worker s) (view (maps s) k)) with (mids k (worker s) (view (maps s) k)) in Hl.
  rewrite of_key_app. etrans; [|exact Hl]. destruct Hin as [ev Hnf _ Heq|id Heq|id Heq|_ Hsub].
  - rewrite Heq. replace (of_key k (fwd_of ev)) with (@nil Z); [by rewrite app_nil_r|].
    destruct ev as [[k0 id|id]|]; [|done..]. simpl. rewrite of_key_one, decide_False; [done|]. intros ->. by destruct (Hnf id).
  - simpl. rewrite of_key_one, decide_True, Heq, <- app_assoc by done. done.
  - simpl. rewrite Heq. change (of_key k []) with (@nil Z). rewrite app_nil_r. apply sublist_app; [done|]. by apply sublist_cons.
  - simpl. change (of_key k []) with (@nil Z). rewrite app_nil_r. by apply sublist_app.
Qed.

Lemma settled_loses k s : sched_ok s → settled k s → loses k (worker s) (view (maps s) k) → False.
Proof.
  intros Hok Hs. pose proof (st_worker _ _ Hs) as Hw. destruct (worker s) as [|?|?|?|k' g a ? ?|?|g a ?|k' g st ? ?| |]; simpl in *; try done.
  - intros [Hk Hne]. by apply Hne, Hw.
  - intros [Hk Hne]. by apply Hne, Hw.
  - destruct st; [done|..].
    + intros [Hk Hne]. by destruct (Hw Hk) as (? & _).
    + intros (Hk & Hr & Hne). destruct (Hw Hk) as (_ & Hq & _). auto.
Qed.

Lemma exact_step k s m' w' ev :
  sched_ok s → settled k s → inside k (maps s) (worker s) m' w' ev →
  line k (forwarded s ++ fwd_of ev) w' (view m' k) = filter (fun id => id ∉ unreachable s ++ unr_of ev) (of_key k (accepted s)).
Proof.
  intros Hok Hs Hin. pose proof (st_exact _ _ Hs) as Hex. unfold line in *.
  change (a_mid <$> waiting k w' (view m' k)) with (mids k w' (view m' k)).
  change (a_mid <$> waiting k (worker s) (view (maps s) k)) with (mids k (worker s) (view (maps s) k)) in Hex.
  pose proof (so_ids _ Hok) as Hnd. apply NoDup_app in Hnd as (Hnd & _). apply (of_key_NoDup k) in Hnd.
  rewrite of_key_app. destruct Hin as [ev Hnf Hun Heq|id Heq|id Heq|Hlose _].
  - rewrite Heq. replace (of_key k (fwd_of ev)) with (@nil Z).
    2:{ destruct ev as [[k0 id|id]|]; [|done..]. simpl. rewrite of_key_one, decide_False; [done|]. intros ->. by destruct (Hnf id). }
    rewrite app_nil_r, Hex. destruct ev as [[k0 id|id]|]; simpl; [by rewrite app_nil_r| |by rewrite app_nil_r]. symmetry. apply filter_more.
    intros Hin%elem_of_key. destruct (Hun id eq_refl) as (k0 & Hne & Hk0). apply Hne. eapply accepted_once; [done| |done]. by apply waiting_accepted.
  - simpl. rewrite of_key_one, decide_True by done. rewrite Heq in Hex. rewrite <- app_assoc. simpl. by rewrite app_nil_r.
  - simpl. change (of_key k []) with (@nil Z). rewrite app_nil_r. rewrite Heq in Hex. symmetry. by eapply filter_one.
  - exfalso. by eapply settled_loses.
Qed.
Definition after_work s m' pm' w' ra' ev : Sched (Chan := Chan) :=
  mkSched m' pm' (producers s) w' ra' (removals s) (next_message_id s) (accepted s) (forwarded s ++ fwd_of ev) (unreachable s ++ unr_of ev) (ended s).

(** The maps say the same of the route as before. *)
Lemma settled_same k s m' pm' w' ra' ev :
  sched_ok s → settled k s → inside k (maps s) (worker s) m' w' ev →
  view m' k = view (maps s) k → next_process_queue_generation m' = next_process_queue_generation (maps s) →
  (∀ g, buf_rx (maps s) !! k = Some g → retiring k g (worker s) → retiring k g w') → settled_worker k (view (maps s) k) w' →
  (∀ g, (k, g) ∈ ra' → current w' ≠ Some (k, g) ∧
     ((k, g) ∈ retry_after s ∨ (g < next_process_queue_generation (maps s) ∧ route_in_progress (maps s) !! k ≠ None))) →
  (∀ g, buf_rx (maps s) !! k = Some g → contents (maps s) k ≠ [] → awake k g s →
     pm' = true ∨ (∃ g', PNotify g' ∈ producers s) ∨ covered k g w' ∨ v_prog (view (maps s) k) ≠ None) →
  settled k (after_work s m' pm' w' ra' ev).
Proof.
  intros Hok Hs Hin Hv Hn Hret Hw Hra Hwake. pose proof (exact_step k s m' w' ev Hok Hs Hin) as Hex.
  pose proof Hs as [Htx Hrx Hprog _ Hps _ Hretry Hwk]. destruct (view_fields _ _ _ Hv) as (Ht & Hr & Hc & Hp).
  split; cbn [after_work maps worker producers retry_after has_messages accepted forwarded unreachable]; rewrite ?Ht, ?Hr, ?Hc, ?Hp, ?Hv, ?Hn; try done.
  - intros g Hg. destruct (Hrx g Hg) as [?|(? & ? & ?)]; [by left|right]. auto.
  - by rewrite <- Hv.
  - intros g Hg. destruct (Hra g Hg) as [Hcur [Hold|[? ?]]]; [|done]. destruct (Hretry g Hold) as (? & _ & ?). done.
  - intros g Hg Hne. unfold awake. cbn [after_work has_messages producers worker maps]. rewrite Hv. eauto.
Qed.

(** Likewise, when the worker is not retiring the queue and [has_messages] stays. *)
Lemma settled_quiet k s m' w' ra' ev :
  sched_ok s → settled k s → inside k (maps s) (worker s) m' w' ev →
  view m' k = view (maps s) k → next_process_queue_generation m' = next_process_queue_generation (maps s) →
  (∀ g, buf_rx (maps s) !! k = Some g → retiring k g (worker s) → retiring k g w') → settled_worker k (view (maps s) k) w' →
  (∀ g, (k, g) ∈ ra' → current w' ≠ Some (k, g) ∧
     ((k, g) ∈ retry_after s ∨ (g < next_process_queue_generation (maps s) ∧ route_in_progress (maps s) !! k ≠ None))) →
  (∀ g, buf_rx (maps s) !! k = Some g → contents (maps s) k ≠ [] → covered k g (worker s) → covered k g w' ∨ v_prog (view (maps s) k) ≠ None) →
  settled k (after_work s m' (has_messages s) w' ra' ev).
Proof.
  intros Hok Hs Hin Hv Hn Hret Hw Hra Hcov. apply settled_same; try done. intros g Hg Hne [?|[?|[Hc|?]]]; [auto..| |auto].
  destruct (Hcov g Hg Hne Hc); auto.
Qed.

Lemma settled_collect k s o todo found w' ra' pm' m' ev :
  sched_ok s → settled k s → worker s = WCollect todo found →
  worker_step shard shards o (worker s) (retry_after s) (has_messages s) (maps s) = Some (w', ra', pm', m', ev) →
  settled k (after_work s m' pm' w' ra' ev).
Proof.
  intros Hok Hs Hw Hstep. pose proof (worker_inside k _ _ _ _ _ _ _ _ _ _ _ (so_actors _ Hok) Hstep) as Hin. rewrite Hw in Hstep.
  destruct todo as [|n todo]; simpl in Hstep; injection Hstep as <- <- <- <- <-; apply settled_quiet; try done; rewrite ?Hw; try done.
  - intros g [_ Hg]%elem_of_filter. auto.
  - intros g _ _ [Hx%not_elem_of_nil|Hf]; [done|]. simpl. auto.
  - auto.
  - intros g Hg _ [[Hx|Hx]%elem_of_cons|Hf]; simpl; left; [right|by left|right]; apply elem_of_app; [right|by left].
    apply list_elem_of_filter. split; [done|]. by apply elem_of_map_to_list.
Qed.

Context (shard_lt : ∀ e, (shard e < shards)%nat).

Lemma covered_all k g : covered k g (WCollect (seq 0 shards) []).
Proof. left. apply list_elem_of_In, in_seq. pose proof (shard_lt k.1). lia. Qed.

Lemma settled_item k s o rem mp w' ra' pm' m' ev :
  sched_ok s → settled k s → worker s = WItem rem mp →
  worker_step shard shards o (worker s) (retry_after s) (has_messages s) (maps s) = Some (w', ra', pm', m', ev) →
  settled k (after_work s m' pm' w' ra' ev).
Proof.
  intros Hok Hs Hw Hstep. pose proof (worker_inside k _ _ _ _ _ _ _ _ _ _ _ (so_actors _ Hok) Hstep) as Hin. rewrite Hw in Hstep.
  destruct rem as [|[k0 g0] rem]; simpl in Hstep.
  - injection Hstep as <- <- <- <- <-. apply settled_quiet; try done; rewrite ?Hw; try done.
    + by destruct (next_worker_action _ _).
    + intros g Hg. split; [by destruct (next_worker_action _ _)|auto].
    + intros g Hg Hne [->|Hx%not_elem_of_nil]; [|done]. simpl. left. apply covered_all.
  - destruct (bool_decide _ && _) eqn:Hskip.
    + injection Hstep as <- <- <- <- <-. apply andb_true_iff in Hskip as [Hra _]. apply bool_decide_eq_true in Hra.
      apply settled_quiet; try done; rewrite ?Hw; try done; [auto|]. intros g Hg Hne [->|Hx]; simpl; [auto|].
      apply elem_of_cons in Hx as [[= -> ->]|Hx]; [right|auto]. by apply (st_retry _ _ Hs g0 Hra).
    + injection Hstep as <- <- <- <- <-.
      assert (∀ w1, (∀ x, current w1 = Some x → x = (k0, g0)) → ∀ g, (k, g) ∈ retry_after s ∖ {[(k0, g0)]} → current w1 ≠ Some (k, g) ∧ ((k, g) ∈ retry_after s ∨
        (g < next_process_queue_generation (maps s) ∧ route_in_progress (maps s) !! k ≠ None))) as Hra.
      { intros w1 Hcur g [Hg Hne]%elem_of_difference. split; [|by left]. intros Hc%Hcur. apply Hne. by apply elem_of_singleton. }
      destruct (route_in_progress (maps s) !! k0) as [a|] eqn:Hpk.
      2:{ apply settled_quiet; try done; rewrite ?Hw; try done; [apply Hra; simpl; congruence|].
          intros g Hg Hne [->|Hx]; simpl; [auto|]. apply elem_of_cons in Hx. auto. }
      destruct (negb _) eqn:Hgen.
      { apply settled_quiet; try done; rewrite ?Hw; try done; [by apply Hra|].
        intros g Hg Hne [->|Hx]; simpl; [auto|]. apply elem_of_cons in Hx as [[= -> ->]|Hx]; [right; congruence|auto]. }
      apply negb_false_iff in Hgen.
      assert (∀ w1, w1 = WTake k0 g0 (msg_id (message a)) rem mp ∨ w1 = WEnsure k0 g0 (msg_id (message a)) rem mp →
        inside k (maps s) (worker s) (maps s) w1 None → settled k (after_work s (maps s) (has_messages s) w1 (retry_after s ∖ {[(k0, g0)]}) None)) as Hgo.
      { intros w1 Hw1 Hin1. apply settled_quiet; try done; rewrite ?Hw; try done.
        - destruct Hw1 as [-> | ->]; simpl; intros ->; exists a; unfold same_message; rewrite Hgen, Z.eqb_refl; done.
        - apply Hra. destruct Hw1 as [-> | ->]; simpl; congruence.
        - intros g Hg Hne [->|Hx]; [left; destruct Hw1 as [-> | ->]; by left|]. apply elem_of_cons in Hx.
          left. destruct Hw1 as [-> | ->]; simpl; auto. }
      destruct (wo_node_queue o); apply Hgo; auto.
Qed.
(** For this route the message in progress is of the queue's generation. *)
Lemma progress_generation k s a g : sched_ok s → settled k s → route_in_progress (maps s) !! k = Some a → same_message g (a_mid a) a = true →
  buf_tx (maps s) !! k = Some g ∧ buf_rx (maps s) !! k = Some g ∧ g < next_process_queue_generation (maps s).
Proof.
  intros Hok Hs Ha Hsame. unfold same_message in Hsame. bool_to_prop. pose proof (st_prog _ _ Hs _ Ha) as Ht. subst g.
  pose proof (st_tx _ _ Hs _ Ht) as Hr. split; [done|]. split; [done|].
  pose proof (ao_maps _ _ _ (so_actors _ Hok)) as Hm. destruct (mo_tx _ Hm _ _ Ht) as (q & Hq & _). by apply (mo_gen _ Hm) in Hq.
Qed.

Lemma same_message_id g id a : same_message g id a = true → id = a_mid a ∧ same_message g (a_mid a) a = true ∧ queue_generation (message a) = g.
Proof. unfold same_message, a_mid. intros H. bool_to_prop. subst id. rewrite Z.eqb_refl. split; [done|]. split; [|done]. rewrite H. by rewrite Z.eqb_refl. Qed.

(** The message in progress of the route is taken out of the map. *)
Lemma settled_take k s w' ra' ev g0 :
  sched_ok s → settled k s → inside k (maps s) (worker s) (remove_progress k (maps s)) w' ev → settled_worker k (view (remove_progress k (maps s)) k) w' →
  buf_tx (maps s) !! k = Some g0 → buf_rx (maps s) !! k = Some g0 → (∀ g, (k, g) ∈ ra' → (k, g) ∈ retry_after s ∧ g ≠ g0) →
  (∀ x, current w' = Some x → x = (k, g0)) → covered k g0 w' → settled k (after_work s (remove_progress k (maps s)) (has_messages s) w' ra' ev).
Proof.
  intros Hok Hs Hin Hw Ht0 Hr0 Hra Hcur Hcov. pose proof (exact_step k s _ w' ev Hok Hs Hin) as Hex.
  pose proof Hs as [Htx Hrx Hprog _ Hps _ Hretry _].
  split; cbn [after_work maps worker producers retry_after has_messages accepted forwarded unreachable remove_progress set_progress buf_tx buf_rx route_in_progress next_process_queue_generation]; try done.
  - intros g Hg. left. congruence.
  - by rewrite lookup_delete_eq.
  - intros g Hg. destruct (Hra g Hg) as [Hold Hne]. destruct (Hretry g Hold) as (? & _ & _). split; [done|]. split; [|congruence].
    intros Hc%Hcur. congruence.
  - intros g Hg _. right. right. left. cbn [after_work worker]. congruence.
Qed.

Lemma settled_ensure k s o k0 g0 id rem mp w' ra' pm' m' ev :
  sched_ok s → settled k s → worker s = WEnsure k0 g0 id rem mp →
  worker_step shard shards o (worker s) (retry_after s) (has_messages s) (maps s) = Some (w', ra', pm', m', ev) →
  settled k (after_work s m' pm' w' ra' ev).
Proof.
  intros Hok Hs Hw Hstep. pose proof (worker_inside k _ _ _ _ _ _ _ _ _ _ _ (so_actors _ Hok) Hstep) as Hin. rewrite Hw in Hstep.
  pose proof (st_worker _ _ Hs) as Hsw. rewrite Hw in Hsw. simpl in Hsw, Hstep.
  assert (∀ ra1, (∀ g, (k, g) ∈ ra1 → (k, g) ∈ retry_after s ∨ (k0 = k ∧ g = g0)) → inside k (maps s) (worker s) (maps s) (WItem rem mp) None →
    settled k (after_work s (maps s) (has_messages s) (WItem rem mp) ra1 None)) as Hskip.
  { intros ra1 Hra1 Hin1. apply settled_quiet; try done; rewrite ?Hw; try done.
    - intros g Hg. split; [done|]. destruct (Hra1 g Hg) as [?|[Hk ->]]; [by left|right]. destruct (Hsw Hk) as (a & Ha & Hsame). simpl in Ha.
      apply same_message_id in Hsame as (-> & Hsame & _). destruct (progress_generation k s a g0 Hok Hs Ha Hsame) as (_ & _ & ?). by rewrite Ha.
    - intros g Hg Hne [->|[[= Hk ->]|Hx]]; simpl; [auto| |auto]. right. destruct (Hsw (eq_sym Hk)) as (a & Ha & _). simpl in Ha. congruence. }
  destruct (wo_ensure o).
  - injection Hstep as <- <- <- <- <-. apply settled_quiet; try done; rewrite ?Hw; try done; [auto|]. intros. left. by left.
  - assert (inside k (maps s) (worker s) (maps s) (WItem rem mp) None → settled k (after_work s (maps s) (has_messages s) (WItem rem mp) (retry_after s ∖ {[(k0, g0)]}) None)) as Helse.
    { apply Hskip. intros g [? _]%elem_of_difference. by left. }
    destruct (route_in_progress (maps s) !! k0) as [a|] eqn:Hpk; [|injection Hstep as <- <- <- <- <-; by apply Helse].
    destruct (same_message g0 id a) eqn:Hsame; injection Hstep as <- <- <- <- <-; [|by apply Helse].
    destruct (decide (k0 = k)) as [->|Hne].
    + apply same_message_id in Hsame as (-> & Hsame & _). destruct (progress_generation k s a g0 Hok Hs Hpk Hsame) as (Ht & Hr & _).
      eapply settled_take; try done; [|by left]. intros g [? Hne]%elem_of_difference. split; [done|]. intros ->. apply Hne. by apply elem_of_singleton.
    + apply settled_quiet; try done; rewrite ?Hw; try done.
      * by rewrite remove_progress_view, decide_False.
      * intros g [? _]%elem_of_difference. auto.
      * intros. left. by left.
  - injection Hstep as <- <- <- <- <-. apply Hskip; [|done]. intros g [[= -> ->]%elem_of_singleton|?]%elem_of_union; auto.
Qed.

Lemma settled_wtake k s o k0 g0 id rem mp w' ra' pm' m' ev :
  sched_ok s → settled k s → worker s = WTake k0 g0 id rem mp →
  worker_step shard shards o (worker s) (retry_after s) (has_messages s) (maps s) = Some (w', ra', pm', m', ev) →
  settled k (after_work s m' pm' w' ra' ev).
Proof.
  intros Hok Hs Hw Hstep. pose proof (worker_inside k _ _ _ _ _ _ _ _ _ _ _ (so_actors _ Hok) Hstep) as Hin. rewrite Hw in Hstep.
  pose proof (st_worker _ _ Hs) as Hsw. rewrite Hw in Hsw. simpl in Hsw, Hstep.
  assert ((k0 = k → False) → inside k (maps s) (worker s) (maps s) (WItem rem mp) None →
    settled k (after_work s (maps s) (has_messages s) (WItem rem mp) (retry_after s) None)) as Helse.
  { intros Hno Hin1. apply settled_quiet; try done; rewrite ?Hw; try done; [auto|].
    intros g Hg Hne [->|[[= Hk ->]|Hx]]; simpl; [auto| |auto]. by destruct (Hno (eq_sym Hk)). }
  destruct (route_in_progress (maps s) !! k0) as [a|] eqn:Hpk.
  2:{ injection Hstep as <- <- <- <- <-. apply Helse; [|done]. intros ->. destruct (Hsw eq_refl) as (a & Ha & _). simpl in Ha. congruence. }
  destruct (same_message g0 id a) eqn:Hsame; injection Hstep as <- <- <- <- <-.
  2:{ apply Helse; [|done]. intros ->. destruct (Hsw eq_refl) as (a' & Ha & Hs'). simpl in Ha. congruence. }
  destruct (decide (k0 = k)) as [->|Hne].
  - apply same_message_id in Hsame as (-> & Hsame & _). destruct (progress_generation k s a g0 Hok Hs Hpk Hsame) as (Ht & Hr & _).
    eapply (settled_take k s (WHand k g0 a rem mp) _ _ g0); try done.
    + intros _. exact Ht.
    + intros g Hg. split; [done|]. intros ->. destruct (st_retry _ _ Hs g0 Hg) as (_ & Hcur & _). rewrite Hw in Hcur. by apply Hcur.
    + simpl. by intros x [= <-].
    + right. by left.
  - apply settled_quiet; try done; rewrite ?Hw; try done.
    + rewrite (remove_progress_view (maps s) k0 k : view (set_progress _ _) _ = _). by rewrite decide_False.
    + intros Hk. by destruct Hne.
    + intros g Hg. split; [simpl; congruence|auto].
    + intros g Hg Hne' [->|[Hx|Hx]]; simpl; auto.
Qed.

(** The worker puts the message it has back, or a received one in. *)
Lemma settled_put k s w' ra' a g0 m' :
  sched_ok s → settled k s → inside k (maps s) (worker s) m' w' None →
  m' = set_progress (<[k := a]> (route_in_progress (maps s))) (maps s) → of_queue k g0 a → buf_tx (maps s) !! k = Some g0 →
  settled_worker k (view m' k) w' → (∀ g, (k, g) ∈ ra' → (k, g) ∈ retry_after s ∨ g = g0) → current w' = None →
  settled k (after_work s m' (has_messages s) w' ra' None).
Proof.
  intros Hok Hs Hin -> [_ Hgen] Ht0 Hw Hra Hcur. pose proof (exact_step k s _ w' None Hok Hs Hin) as Hex.
  pose proof Hs as [Htx Hrx Hprog _ Hps _ Hretry _]. pose proof (Htx g0 Ht0) as Hr0.
  pose proof (ao_maps _ _ _ (so_actors _ Hok)) as Hm. destruct (mo_tx _ Hm _ _ Ht0) as (q & Hq & _). apply (mo_gen _ Hm) in Hq.
  split; cbn [after_work maps worker producers retry_after has_messages accepted forwarded unreachable set_progress buf_tx buf_rx route_in_progress next_process_queue_generation]; try done.
  - intros g Hg. left. congruence.
  - rewrite lookup_insert_eq. intros b [= <-]. congruence.
  - intros g Hg. rewrite Hcur, lookup_insert_eq. destruct (Hra g Hg) as [Hold| ->]; [|done]. by destruct (Hretry g Hold) as (? & _).
  - intros g Hg _. right. right. right. simpl. by rewrite lookup_insert_eq.
Qed.

Lemma settled_hand k s o k0 g0 a rem mp w' ra' pm' m' ev :
  sched_ok s → settled k s → worker s = WHand k0 g0 a rem mp →
  worker_step shard shards o (worker s) (retry_after s) (has_messages s) (maps s) = Some (w', ra', pm', m', ev) →
  settled k (after_work s m' pm' w' ra' ev).
Proof.
  intros Hok Hs Hw Hstep. pose proof (worker_inside k _ _ _ _ _ _ _ _ _ _ _ (so_actors _ Hok) Hstep) as Hin. rewrite Hw in Hstep.
  pose proof (st_worker _ _ Hs) as Hsw. pose proof (ao_worker _ _ _ (so_actors _ Hok)) as Hwo. rewrite Hw in Hsw, Hwo. simpl in Hsw, Hstep, Hwo.
  destruct Hwo as [[Hka Hga] Hnone]. destruct (wo_forward o) as [|rehomed]; injection Hstep as <- <- <- <- <-.
  - apply settled_quiet; try done; rewrite ?Hw; try done.
    + intros g Hg. split; [|by left]. destruct (st_retry _ _ Hs g Hg) as (_ & Hcur & _). rewrite Hw in Hcur. done.
    + intros. left. by left.
  - set (a' := match rehomed with Some (p, o) => mkAdmitted p o (message a) | None => a end) in *.
    assert (message a' = message a) as Hmsg by (unfold a'; by destruct rehomed as [[]|]).
    destruct (decide (k0 = k)) as [->|Hne].
    + simpl in Hsw. pose proof (Hsw eq_refl) as Ht. apply (settled_put k s _ _ a' g0); try done.
      * unfold requeue_in_progress. by rewrite Ht, Z.eqb_refl, Hnone.
      * unfold of_queue. by rewrite Hmsg.
      * intros g [[= ->]%elem_of_singleton|?]%elem_of_union; auto.
    + apply settled_quiet; try done; rewrite ?Hw; try done.
      * unfold requeue_in_progress. rewrite Hnone. destruct (buf_tx (maps s) !! k0); [|done]. destruct (_ =? _); [|done].
        by rewrite insert_progress_view, decide_False.
      * unfold requeue_in_progress. rewrite Hnone. destruct (buf_tx (maps s) !! k0); [|done]. by destruct (_ =? _).
      * intros g [[= -> ->]%elem_of_singleton|?]%elem_of_union; [done|auto].
      * intros g Hg Hne' [->|[[= -> _]|Hx]]; simpl; [auto|done|auto].
Qed.
Lemma settled_recv k s o k0 g0 rem mp w' ra' pm' m' ev :
  sched_ok s → settled k s → worker s = WRecv k0 g0 rem mp →
  worker_step shard shards o (worker s) (retry_after s) (has_messages s) (maps s) = Some (w', ra', pm', m', ev) →
  settled k (after_work s m' pm' w' ra' ev).
Proof.
  intros Hok Hs Hw Hstep. pose proof (worker_inside k _ _ _ _ _ _ _ _ _ _ _ (so_actors _ Hok) Hstep) as Hin. rewrite Hw in Hstep.
  pose proof (ao_maps _ _ _ (so_actors _ Hok)) as Hm. pose proof (ao_worker _ _ _ (so_actors _ Hok)) as Hwo. rewrite Hw in Hwo. simpl in Hwo, Hstep.
  destruct (negb _) eqn:Hb.
  { injection Hstep as <- <- <- <- <-. apply negb_true_iff, bool_decide_eq_false in Hb. apply settled_quiet; try done; rewrite ?Hw; try done; [auto|].
    intros g Hg Hne [->|[[= -> ->]|Hx]]; simpl; [auto|done|auto]. }
  apply negb_false_iff, bool_decide_eq_true in Hb. apply bind_Some in Hstep as (q & Hq & Hstep). destruct (pq_gate q) eqn:Hgate; [done|].
  destruct (try_recv (pq_chan q)) as [[a c]|] eqn:Hr; injection Hstep as <- <- <- <- <-.
  - destruct (recv_spec _ k0 g0 q a c Hm Hb Hq Hr) as (_ & [Hka Hga] & Hk & Hcont & Hv). rewrite set_chan_gate_comm in *.
    specialize (Hv k). rewrite <- (set_gate_view _ g0 true) in Hv. destruct (decide (k = k0)) as [->|Hne].
    + pose proof (exact_step k0 s _ _ None Hok Hs Hin) as Hex. pose proof Hs as [Htx Hrx Hprog _ Hps _ Hretry _].
      set (m' := set_gate g0 true (set_chan g0 c (maps s))) in *. pose proof Hv as Hf. unfold view in Hf. injection Hf as Hc.
      destruct (Hrx g0 Hb) as [Ht0|(_ & _ & Hret)]; [|by rewrite Hw in Hret].
      split; cbn [after_work maps worker producers retry_after has_messages accepted forwarded unreachable]; rewrite ?Hc; try done.
      * intros g Hg. left. simpl in *. congruence.
      * intros _. exact Ht0.
      * intros g Hg. by destruct (Hretry g Hg) as (? & _ & ?).
      * intros g Hg _. right. right. by left.
    + apply settled_quiet; try done; rewrite ?Hw; try done.
      * simpl. congruence.
      * auto.
      * intros. by left.
  - apply settled_quiet; try done; rewrite ?Hw; try done.
    + apply set_gate_view.
    + simpl. intros ->. split; [done|]. split; [|done]. intros _. unfold contents. rewrite Hb, Hq.
      pose proof (try_recv_spec AdmittedMessage (pq_chan q)) as Hspec. by rewrite Hr in Hspec.
    + auto.
    + intros g Hg Hne [->|[[= -> ->]|Hx]]; simpl; [auto| |auto]. destruct Hne. unfold contents. rewrite Hb, Hq.
      pose proof (try_recv_spec AdmittedMessage (pq_chan q)) as Hspec. by rewrite Hr in Hspec.
Qed.

(** Taking and giving back a gate changes nothing for a route. *)
Lemma settled_set_gate k s m' pm' w' ra' ev g b :
  settled k (after_work s m' pm' w' ra' ev) → settled k (after_work s (set_gate g b m') pm' w' ra' ev).
Proof.
  pose proof (set_gate_view m' g b k) as Hv. destruct (view_fields _ _ _ Hv) as (Ht & Hr & Hc & Hp).
  intros [Htx Hrx Hprog Hw Hps Hex Hretry Hwake].
  split; cbn [after_work maps worker producers retry_after has_messages accepted forwarded unreachable] in *; rewrite ?Ht, ?Hr, ?Hc, ?Hp, ?Hv; try done.
Qed.

Lemma settled_got k s o g0 a rem w' ra' pm' m' ev :
  sched_ok s → settled k s → worker s = WGot g0 a rem →
  worker_step shard shards o (worker s) (retry_after s) (has_messages s) (maps s) = Some (w', ra', pm', m', ev) →
  settled k (after_work s m' pm' w' ra' ev).
Proof.
  intros Hok Hs Hw Hstep. pose proof (worker_inside k _ _ _ _ _ _ _ _ _ _ _ (so_actors _ Hok) Hstep) as Hin. rewrite Hw in Hstep.
  pose proof (st_worker _ _ Hs) as Hsw. pose proof (ao_worker _ _ _ (so_actors _ Hok)) as Hwo. rewrite Hw in Hsw, Hwo. simpl in Hsw, Hstep, Hwo.
  injection Hstep as <- <- <- <- <-. destruct Hwo as (Ha & Hkey & Hnone). apply settled_set_gate.
  assert (inside k (maps s) (worker s) (start_progress a (maps s)) (WItem rem true) None) as Hin1.
  { inversion Hin as [ev H1 H2 H3| | |H1 H2]; subst; rewrite set_gate_view in *; [by apply in_keep|by apply in_lose]. }
  destruct (decide (key_of (message a) = k)) as [Hk|Hne].
  - subst k. pose proof (Hsw eq_refl) as Ht. simpl in Ht. apply (settled_put _ s _ _ a g0); try done; [|auto].
    unfold start_progress. destruct Ha as [_ Hg]. by rewrite Ht, Hg, Z.eqb_refl.
  - apply settled_quiet; try done; rewrite ?Hw; try done.
    + unfold start_progress. destruct (buf_tx (maps s) !! key_of (message a)); [|done]. destruct (_ =? _); [|done]. rewrite insert_progress_view, decide_False; [done|congruence].
    + unfold start_progress. destruct (buf_tx (maps s) !! key_of (message a)); [|done]. by destruct (_ =? _).
    + auto.
    + intros. left. by left.
Qed.

Lemma cleanup_next k g st m st' m' : cleanup_step k g st m = (st', m') → next_process_queue_generation m' = next_process_queue_generation m.
Proof.
  unfold cleanup_step. destruct st.
  - by destruct (bool_decide _); intros [= <- <-].
  - intros [= <- <-]. destruct (route_in_progress m !! k); [|done]. by destruct (_ =? _).
  - intros [= <- <-]. destruct (bool_decide _); [|done]. unfold remove_receiver, drop_receiver. destruct (buf_rx m !! k); [|done]. simpl. by destruct (pqueues m !! _).
Qed.

Lemma cleanup_other k k0 g st m st' m' : maps_ok m → k0 ≠ k → cleanup_step k0 g st m = (st', m') → view m' k = view m k.
Proof.
  intros Hm Hne Hc. assert (k ≠ k0) as Hne' by congruence. unfold cleanup_step in Hc. destruct st.
  - destruct (bool_decide _); injection Hc as <- <-; [|done]. by rewrite remove_sender_view, decide_False.
  - injection Hc as <- <-. destruct (route_in_progress m !! k0); [|done]. destruct (_ =? _); [|done]. by rewrite remove_progress_view, decide_False.
  - injection Hc as <- <-. destruct (bool_decide _); [|done]. by rewrite remove_receiver_view, decide_False.
Qed.
(** The worker retires the queue of this very route. *)
Lemma settled_retire k s g0 st rem mp st' m1 :
  sched_ok s → settled k s → worker s = WIdle k g0 st rem mp → cleanup_step k g0 st (maps s) = (st', m1) →
  ∀ w' ra', (∀ g, (k, g) ∈ ra' → (k, g) ∈ retry_after s) → inside k (maps s) (worker s) m1 w' None →
  w' = match st' with Some st' => WIdle k g0 st' rem mp | None => WItem rem mp end →
  settled k (after_work s m1 (has_messages s) w' ra' None).
Proof.
  intros Hok Hs Hw Hc w' ra' Hra Hin Hw'. pose proof (st_worker _ _ Hs) as Hsw. rewrite Hw in Hsw. simpl in Hsw. destruct (Hsw eq_refl) as (Hpn & Hqn & Htn). clear Hsw.
  pose proof (so_actors _ Hok) as Hact. rewrite Hw in Hact. pose proof (ao_maps _ _ _ Hact) as Hm.
  assert (view m1 k = view (maps s) k → (∀ g, buf_rx (maps s) !! k = Some g → retiring k g (worker s) → retiring k g w') →
    settled_worker k (view (maps s) k) w' → settled k (after_work s m1 (has_messages s) w' ra' None)) as Hquiet.
  { intros Hv Hret Hsw. apply settled_quiet; try done; [by eapply cleanup_next| |].
    - intros g Hg. split; [|left; auto]. subst w'. by destruct st'.
    - intros g Hg Hne. rewrite Hw. intros Hcov. left. subst w'. by destruct st'. }
  pose proof (exact_step k s m1 w' None Hok Hs Hin) as Hex. pose proof Hs as [Htx Hrx Hprog _ Hps _ Hretry Hwake].
  destruct st; simpl in Hc.
  - destruct (bool_decide (buf_tx (maps s) !! k = Some g0)) eqn:Hb; injection Hc as <- <-.
    2:{ apply Hquiet; [done| |by subst w']. intros g Hg. rewrite Hw. done. }
    apply bool_decide_eq_true in Hb. pose proof (Htx g0 Hb) as Hr0. simpl in Hqn. specialize (Hqn Hr0).
    split; cbn [after_work maps worker producers retry_after has_messages accepted forwarded unreachable remove_sender set_tx buf_tx buf_rx route_in_progress next_process_queue_generation]; try done.
    + rewrite lookup_delete_eq. done.
    + intros g Hg. right. rewrite lookup_delete_eq. split; [done|]. split; [done|]. subst w'. simpl. split; congruence.
    + simpl in Hpn. rewrite Hpn. done.
    + subst w'. simpl. intros _. split; [done|]. split; [done|]. rewrite lookup_delete_eq. done.
    + intros p Hp. specialize (Hps p Hp). destruct p as [|?|x g|?|?|?]; try done. simpl in *. intros Hk. specialize (Hps Hk).
      assert (g = g0) as -> by congruence. destruct (idle_alone _ _ _ _ _ _ _ x Hact Hp).
    + intros g Hg%Hra. destruct (Hretry g Hg) as (? & _ & ?). split; [done|]. split; [by subst w'|done].
  - simpl in Hpn. rewrite Hpn in Hc. injection Hc as <- <-. apply Hquiet; [done| |].
    + intros g Hg. rewrite Hw. by subst w'.
    + subst w'. simpl. intros _. split; [done|]. split; [done|]. intros _. by apply Htn.
  - injection Hc as <- <-. destruct (bool_decide (buf_rx (maps s) !! k = Some g0)) eqn:Hb.
    2:{ apply bool_decide_eq_false in Hb. apply Hquiet; [done| |by subst w']. intros g Hg. rewrite Hw. simpl. intros [_ <-]. done. }
    apply bool_decide_eq_true in Hb. pose proof (remove_receiver_view (maps s) k k Hm) as Hv. rewrite decide_True in Hv by done.
    pose proof Hv as Hf. unfold view in Hf. injection Hf as Ht Hr Hc Hp. simpl in Hpn, Htn.
    assert (buf_tx (maps s) !! k = None) as Htxn.
    { destruct (buf_tx (maps s) !! k) as [g|] eqn:Hg; [|done]. pose proof (Htx g eq_refl) as Hrg. assert (g = g0) as -> by congruence. by destruct Htn. }
    split; cbn [after_work maps worker producers retry_after has_messages accepted forwarded unreachable]; rewrite ?Ht, ?Hr, ?Hc, ?Hp, ?Htxn, ?Hpn; try done.
    + by subst w'.
    + intros p Hpi. specialize (Hps p Hpi). destruct p as [|?|x g|?|?|?]; try done. simpl in *. by rewrite Ht.
    + intros g Hg%Hra. destruct (Hretry g Hg) as (? & _ & _). split; [|split; [by subst w'|done]].
      rewrite (cleanup_next k g0 AtReceiver (maps s) None); [done|]. simpl. by rewrite bool_decide_eq_true_2.
Qed.

Lemma settled_idle k s o k0 g0 st rem mp w' ra' pm' m' ev :
  sched_ok s → settled k s → worker s = WIdle k0 g0 st rem mp →
  worker_step shard shards o (worker s) (retry_after s) (has_messages s) (maps s) = Some (w', ra', pm', m', ev) →
  settled k (after_work s m' pm' w' ra' ev).
Proof.
  intros Hok Hs Hw Hstep. pose proof (ao_maps _ _ _ (so_actors _ Hok)) as Hm. rewrite Hw in Hstep. simpl in Hstep.
  destruct (cleanup_step k0 g0 st (maps s)) as [st' m1] eqn:Hc.
  set (w1 := match st' with Some st' => WIdle k0 g0 st' rem mp | None => WItem rem mp end).
  assert (inside k (maps s) (worker s) m1 w1 None) as Hin.
  { rewrite Hw. eapply cleanup_inside; [done|done|]. unfold w1. by destruct st'. }
  assert (∀ ra1, (∀ g, (k, g) ∈ ra1 → (k, g) ∈ retry_after s) → settled k (after_work s m1 (has_messages s) w1 ra1 None)) as Hmain.
  { intros ra1 Hra1. destruct (decide (k0 = k)) as [->|Hne]; [by eapply settled_retire|].
    apply settled_quiet; try done; rewrite ?Hw.
    - by eapply cleanup_other.
    - by eapply cleanup_next.
    - intros g _. simpl. destruct st; [done|..]; intros [? _]; done.
    - unfold w1. destruct st'; [|done]. simpl. intros ->. done.
    - intros g Hg. split; [unfold w1; by destruct st'|left; auto].
    - intros g _ _ Hcov. left. unfold w1. by destruct st'. }
  destruct st' as [st'|]; injection Hstep as <- <- <- <- <-.
  - by apply Hmain.
  - apply settled_set_gate, Hmain. intros g [? _]%elem_of_difference. done.
Qed.

Lemma settled_work k s o w' ra' pm' m' ev :
  sched_ok s → settled k s →
  worker_step shard shards o (worker s) (retry_after s) (has_messages s) (maps s) = Some (w', ra', pm', m', ev) →
  settled k (after_work s m' pm' w' ra' ev).
Proof.
  intros Hok Hs Hstep. destruct (worker s) as [todo found|rem mp|k0 g id rem mp|k0 g id rem mp|k0 g a rem mp|k0 g rem mp|g a rem|k0 g st rem mp| |] eqn:Hw;
    rewrite <- Hw in Hstep; [by eapply settled_collect|by eapply settled_item|by eapply settled_ensure|by eapply settled_wtake|by eapply settled_hand|
    by eapply settled_recv|by eapply settled_got|by eapply settled_idle|..];
    pose proof (worker_inside k _ _ _ _ _ _ _ _ _ _ _ (so_actors _ Hok) Hstep) as Hin; rewrite Hw in Hstep; simpl in Hstep.
  - injection Hstep as <- <- <- <- <-. apply settled_quiet; try done; rewrite ?Hw; try done; [auto|]. intros. left. apply covered_all.
  - destruct (has_messages s); [|done]. injection Hstep as <- <- <- <- <-. apply settled_same; try done; rewrite ?Hw; try done; [auto|].
    intros. right. right. left. apply covered_all.
Qed.

(** *** All steps *)

Lemma outside_weaken fresh (P Q : Prop) k acc v v' : (P → Q) → outside fresh P k acc v v' → outside fresh Q k acc v v'.
Proof. intros HPQ. destruct 1; [by apply out_same|by apply out_create|by eapply out_append|by apply out_remove; auto]. Qed.

Lemma outside_producer fresh k acc v v' p : outside fresh False k acc v v' → settled_producer k v p → settled_producer k v' p.
Proof.
  destruct 1 as [|g v Hn _|a g v Hr|v v' []]; destruct p as [|?|x g'|?|?|?]; simpl; try done. intros Hp Hk. specialize (Hp Hk). congruence.
Qed.

Lemma idle_generation m w ps k g st rem mp : actors_ok m w ps → w = WIdle k g st rem mp → g < next_process_queue_generation m.
Proof. intros Hok ->. destruct (ao_worker _ _ _ Hok) as (q & Hq & _). by eapply mo_gen; [apply Hok|]. Qed.

Lemma outside_ok s m' pm' ps' rm' nid' e' acc :
  sched_ok s → actors_ok m' (worker s) ps' →
  NoDup ((accepted s ++ option_list acc).*2 ++ (ps' ≫= p_ids)) →
  (∀ id, id ∈ (accepted s ++ option_list acc).*2 ++ (ps' ≫= p_ids) → id < nid') →
  (∀ r k, r ∈ rm' → k ∈ r.1 → gone e' k) → (∀ k g st, PCleanup k g st ∈ ps' → gone e' k) → ended s ⊆ e' →
  next_process_queue_generation (maps s) <= next_process_queue_generation m' →
  (∀ k, outside (next_process_queue_generation (maps s)) (gone e' k) k acc (view (maps s) k) (view m' k)) →
  (∀ k p, ¬ gone e' k → p ∈ ps' → p ∈ producers s ∨ settled_producer k (view m' k) p) →
  (∀ k id, acc = Some (k, id) → ¬ gone e' k → (∃ g', PNotify g' ∈ ps') ∧
     ∃ g, buf_tx (maps s) !! k = Some g ∧ ∀ k' st rem mp, worker s ≠ WIdle k' g st rem mp) →
  (∀ k id, acc = Some (k, id) → id ∉ unreachable s) →
  (has_messages s = true ∨ (∃ g', PNotify g' ∈ producers s) → pm' = true ∨ ∃ g', PNotify g' ∈ ps') →
  sched_ok (mkSched m' pm' ps' (worker s) (retry_after s) rm' nid' (accepted s ++ option_list acc) (forwarded s) (unreachable s) e').
Proof.
  intros Hok Hact Hids Hnext Hrm Hcl Hend Hgen Hout Hps Hacc Hunr Hnt. split; simpl; try done.
  - intros k. eapply outside_line; [apply Hout|by apply so_line].
  - intros id Hin%(so_unreachable _ Hok). rewrite fmap_app, elem_of_app. by left.
  - intros k Hk. assert (¬ gone (ended s) k) as Hk0 by (unfold gone in *; auto).
    pose proof (so_settled _ Hok k Hk0) as Hs. assert (outside (next_process_queue_generation (maps s)) False k acc (view (maps s) k) (view m' k)) as Ho.
    { eapply outside_weaken; [|apply Hout]. done. }
    apply settled_outside; try done.
    + by eapply ao_maps, so_actors.
    + intros p Hp. destruct (Hps k p Hk Hp) as [Hold|]; [|done]. eapply outside_producer; [done|]. by apply (st_producers _ _ Hs).
    + intros id Hid. split; [by eapply Hunr|]. by eapply Hacc.
    + intros k' g st rem mp Hw. eapply idle_generation; [by apply so_actors|done].
Qed.

Lemma sched_new_ok : sched_ok (sched_new shards).
Proof.
  split; simpl; try done; [|by apply NoDup_nil|..].
  - split; try done; [by apply NoDup_nil| |by intros p []%elem_of_nil]. intros g. unfold gate_of. simpl. rewrite lookup_empty. split; [by intros []%elem_of_nil|done].
  - by intros id []%elem_of_nil.
  - by intros r k []%elem_of_nil.
  - by intros k g st []%elem_of_nil.
  - intros k _. split; simpl; try done.
    by intros p []%elem_of_nil.
Qed.

Lemma producer_ids adm p m p' m' acc nt :
  producer_step adm p m = Some (p', m', acc, nt) → p_ids p = (option_list acc).*2 ++ p_ids p' ∨ (acc = None ∧ p_ids p' = []).
Proof.
  destruct p as [x|x g|x g|g|k0 g st|b]; simpl; [..|done].
  - destruct (lookup_queue _ _). intros [= <- <- <- <-]. by left.
  - intros (q & Hq & Hstep)%bind_Some. destruct (pq_gate q); [done|]. destruct (bool_decide _); injection Hstep as <- <- <- <-; by left.
  - intros (q & Hq & Hstep)%bind_Some. destruct adm as [[pm o]|]; [|injection Hstep as <- <- <- <-; by right].
    destruct (try_send _ _) as [c|[]]; injection Hstep as <- <- <- <-; [by left|by right..].
  - intros [= <- <- <- <-]. by left.
  - destruct (cleanup_step _ _ _ _) as [[] ?]; intros [= <- <- <- <-]; by left.
Qed.

Lemma insert_elem {A} (l : list A) i x y : x ∈ <[i := y]> l → x = y ∨ x ∈ l.
Proof.
  intros [j Hj]%list_elem_of_lookup. apply list_lookup_insert_Some in Hj as [(_ & <- & _)|[_ Hj]]; [by left|right]. apply list_elem_of_lookup. eauto.
Qed.

Lemma producer_ids_ok s i p p' adm m' acc nt :
  sched_ok s → producers s !! i = Some p → producer_step adm p (maps s) = Some (p', m', acc, nt) →
  NoDup ((accepted s ++ option_list acc).*2 ++ (<[i := p']> (producers s) ≫= p_ids)) ∧
  (∀ id, id ∈ (accepted s ++ option_list acc).*2 ++ (<[i := p']> (producers s) ≫= p_ids) → id < next_message_id s) ∧
  (∀ k id, acc = Some (k, id) → id ∉ unreachable s).
Proof.
  intros Hok Hi Hstep. destruct (bind_insert p_ids (producers s) i p p' Hi) as (rest & Hold & Hnew).
  pose proof (so_ids _ Hok) as Hnd. pose proof (so_next _ Hok) as Hlt.
  assert (∀ id, id ∈ (accepted s).*2 ++ p_ids p ++ rest → id < next_message_id s) as Hlt0 by (intros id Hin; apply Hlt; by rewrite Hold).
  rewrite Hold in Hnd. clear Hlt Hold.
  assert ((accepted s ++ option_list acc).*2 ++ (<[i := p']> (producers s) ≫= p_ids) ≡ₚ (accepted s).*2 ++ ((option_list acc).*2 ++ p_ids p') ++ rest) as Hp.
  { by rewrite Hnew, fmap_app, <- !app_assoc. }
  rewrite Hp. setoid_rewrite Hp. clear Hp Hnew. destruct (producer_ids _ _ _ _ _ _ _ Hstep) as [Heq|[-> Hnil]].
  - rewrite Heq in Hnd, Hlt0. split; [done|]. split; [done|]. intros k id -> Hu%(so_unreachable _ Hok).
    apply NoDup_app in Hnd as (_ & Hdisj & _). apply (Hdisj id Hu). by left.
  - rewrite Hnil. simpl. apply NoDup_app in Hnd as (H1 & H2 & H3). apply NoDup_app in H3 as (_ & _ & H3). split.
    + apply NoDup_app. split; [done|]. split; [|done]. intros x Hx Hr. apply (H2 x Hx), elem_of_app. by right.
    + split; [|done]. intros id Hin. apply Hlt0. rewrite !elem_of_app in *. naive_solver.
Qed.

(** A producer that holds the gate of its queue finds it open, unless the process ended. *)
Lemma send_open s x g q :
  sched_ok s → PSend x g ∈ producers s → pqueues (maps s) !! g = Some q → chan_is_closed (pq_chan q) = true → gone (ended s) (key_of x).
Proof.
  intros Hok Hin Hq Hcl. destruct (decide (gone (ended s) (key_of x))) as [|Hno]; [done|]. exfalso.
  pose proof (so_settled _ Hok _ Hno) as Hs. pose proof (st_producers _ _ Hs _ Hin eq_refl) as Ht. simpl in Ht.
  pose proof (st_tx _ _ Hs _ Ht) as Hr. pose proof (ao_maps _ _ _ (so_actors _ Hok)) as Hm.
  destruct (mo_rx _ Hm _ _ Hr) as (q' & Hq' & _ & Hopen). congruence.
Qed.

Lemma producer_next s i p p' adm m' acc nt :
  sched_ok s → producers s !! i = Some p → producer_step adm p (maps s) = Some (p', m', acc, nt) →
  (∀ k g st, p' = PCleanup k g st → gone (ended s) k) ∧
  (∀ k, ¬ gone (ended s) k → settled_producer k (view m' k) p') ∧
  next_process_queue_generation (maps s) <= next_process_queue_generation m' ∧
  (∀ k id, acc = Some (k, id) → ¬ gone (ended s) k → (∃ g', p' = PNotify g') ∧
     ∃ g, buf_tx (maps s) !! k = Some g ∧ ∀ k' st rem mp, worker s ≠ WIdle k' g st rem mp).
Proof.
  intros Hok Hi Hstep. assert (p ∈ producers s) as Hin by (apply list_elem_of_lookup; eauto). pose proof (ao_maps _ _ _ (so_actors _ Hok)) as Hm.
  destruct p as [x|x g|x g|g|k0 g st|b]; simpl in Hstep; [..|done].
  - destruct (lookup_queue (key_of x) (maps s)) as [g m1] eqn:Hl. injection Hstep as <- <- <- <-.
    by destruct (lookup_queue_spec _ _ _ _ Hm Hl) as (_ & _ & _ & _ & ? & _).
  - apply bind_Some in Hstep as (q & Hq & Hstep). destruct (pq_gate q); [done|]. destruct (bool_decide _) eqn:Hb; injection Hstep as <- <- <- <-; [|done].
    apply bool_decide_eq_true in Hb. split; [done|]. split; [|done]. intros k _. rewrite set_gate_view. simpl. by intros <-.
  - apply bind_Some in Hstep as (q & Hq & Hstep). destruct adm as [[pm o]|]; [|injection Hstep as <- <- <- <-; done].
    pose proof (try_send_spec AdmittedMessage (mkAdmitted pm o (with_generation g x)) (pq_chan q)) as Hspec.
    destruct (try_send _ _) as [c|[]]; injection Hstep as <- <- <- <-; [|done|].
    + split; [done|]. split; [done|]. split; [done|]. intros k id [= <- <-] Hno. split; [by eexists|]. exists g.
      split; [by apply (st_producers _ _ (so_settled _ Hok _ Hno) _ Hin)|]. intros k' st rem mp Hw. pose proof (so_actors _ Hok) as Hact. rewrite Hw in Hact.
      by eapply idle_alone.
    + assert (gone (ended s) (key_of x)) as Hg by (eapply send_open; [done..|]; by destruct Hspec).
      split; [by intros k g' st [= <- _ _]|]. split; [|done]. simpl. intros k Hno <-. done.
  - injection Hstep as <- <- <- <-. done.
  - destruct (cleanup_step k0 g st (maps s)) as [st' m1] eqn:Hc. injection Hstep as <- <- <- <-. pose proof (so_cleanups _ Hok _ _ _ Hin) as Hg.
    split; [destruct st'; intros k g' st1; [by intros [= <- _ _]|done]|]. split; [|split; [rewrite (cleanup_next _ _ _ _ _ _ Hc); done|done]].
    intros k Hno. destruct st'; [|done]. simpl. intros ->. done.
Qed.

Lemma produce_ok s i p p' adm m' acc nt :
  sched_ok s → producers s !! i = Some p → producer_step adm p (maps s) = Some (p', m', acc, nt) →
  sched_ok (mkSched m' (has_messages s || nt) (<[i := p']> (producers s)) (worker s) (retry_after s) (removals s) (next_message_id s)
              (accepted s ++ option_list acc) (forwarded s) (unreachable s) (ended s)).
Proof.
  intros Hok Hi Hstep. destruct (producer_ids_ok _ _ _ _ _ _ _ _ Hok Hi Hstep) as (Hnd & Hlt & Hunr).
  destruct (producer_next _ _ _ _ _ _ _ _ Hok Hi Hstep) as (Hcl & Hsp & Hgen & Hacc).
  assert (p ∈ producers s) as Hin by (apply list_elem_of_lookup; eauto). assert (p' ∈ <[i := p']> (producers s)) as Hin'.
  { apply list_elem_of_lookup. exists i. apply list_lookup_insert_eq. by eapply lookup_lt_Some. }
  pose proof (ao_maps _ _ _ (so_actors _ Hok)) as Hm. pose proof (ao_producers _ _ _ (so_actors _ Hok) _ Hin) as Hpo.
  apply outside_ok; try done.
  - eapply producer_step_actors; [by apply so_actors|done..].
  - by apply so_removals.
  - intros k g st [Heq|Hold]%insert_elem; [by eapply Hcl|by eapply so_cleanups].
  - intros k. eapply producer_outside; [done..| |done]. intros g st ->. by eapply so_cleanups.
  - intros k p0 Hno [->|Hold]%insert_elem; [right; by apply Hsp|by left].
  - intros k id Ha Hno. destruct (Hacc k id Ha Hno) as [[g' ->] ?]. split; [by exists g'|done].
  - intros [->|[g' Hg']]; [by left|]. apply list_elem_of_lookup in Hg' as [j Hj]. destruct (decide (j = i)) as [->|Hne].
    + rewrite Hi in Hj. injection Hj as ->. simpl in Hstep. injection Hstep as <- <- <- <-. left. apply orb_true_r.
    + right. exists g'. apply list_elem_of_lookup. exists j. by rewrite list_lookup_insert_ne.
Qed.

Lemma work_ok s o w' ra' pm' m' ev :
  sched_ok s → worker_step shard shards o (worker s) (retry_after s) (has_messages s) (maps s) = Some (w', ra', pm', m', ev) →
  sched_ok (after_work s m' pm' w' ra' ev).
Proof.
  intros Hok Hstep. pose proof Hok as [Hact Hids Hnext Hline Hrm Hcl Hunr Hset].
  split; cbn [after_work maps worker producers retry_after has_messages accepted forwarded unreachable removals next_message_id ended]; try done.
  - by eapply worker_step_actors.
  - intros k. apply line_step; [done|]. by eapply worker_inside.
  - intros id [?|Hin]%elem_of_app; [auto|]. destruct ev as [[k0 id0|id0]|]; simpl in Hin; [by apply elem_of_nil in Hin| |by apply elem_of_nil in Hin].
    apply list_elem_of_singleton in Hin as ->.
    assert (∀ k, inside k (maps s) (worker s) m' w' (Some (EvUnreachable id0))) as Hins by (intros; by eapply worker_inside).
    assert (∃ k, id0 ∈ mids k (worker s) (view (maps s) k)) as [k Hk].
    { set (k := (0, mkRoute 0 0 0) : Key). pose proof (Hins k) as Hk. inversion Hk as [ev H1 H2 H3| |id H1|]; subst.
      - destruct (H2 id0 eq_refl) as (k0 & _ & ?). by exists k0.
      - exists k. rewrite H1. by left. }
    apply (waiting_accepted _ _ _ Hok) in Hk. by apply (list_elem_of_fmap_2 snd) in Hk.
  - intros k Hno. eapply settled_work; [done|by apply Hset|done].
Qed.

(** A step that leaves the maps and the accepted messages. *)
Lemma still_ok s ps' rm' nid' e' :
  sched_ok s → actors_ok (maps s) (worker s) ps' → NoDup ((accepted s).*2 ++ (ps' ≫= p_ids)) →
  (∀ id, id ∈ (accepted s).*2 ++ (ps' ≫= p_ids) → id < nid') → (∀ r k, r ∈ rm' → k ∈ r.1 → gone e' k) → ended s ⊆ e' →
  (∀ p, p ∈ ps' → p ∈ producers s ∨ (∃ x, p = PLookup x) ∨ ∃ b, p = PReturned b) →
  (∀ g, PNotify g ∈ producers s → PNotify g ∈ ps') →
  sched_ok (mkSched (maps s) (has_messages s) ps' (worker s) (retry_after s) rm' nid' (accepted s) (forwarded s) (unreachable s) e').
Proof.
  intros Hok Hact Hnd Hlt Hrm Hend Hps Hnt. pose proof (outside_ok s (maps s) (has_messages s) ps' rm' nid' e' None) as Hgo. simpl in Hgo.
  rewrite (app_nil_r (accepted s)) in Hgo. apply Hgo; try done.
  - intros k g st [Hold|[[? ?]|[? ?]]]%Hps; [|done..]. unfold gone in *. apply Hend. by eapply so_cleanups.
  - intros k. by apply out_same.
  - intros k p _ [?|[[? ->]|[? ->]]]%Hps; [by left|by right..].
  - intros [?|[g ?]]; [by left|right]. exists g. auto.
Qed.

Lemma removal_ok s i k ks st next m' :
  sched_ok s → removals s !! i = Some (k :: ks, st) → removal_step k st (maps s) = (next, m') →
  sched_ok (mkSched m' (has_messages s) (producers s) (worker s) (retry_after s)
              (<[i := match next with Some st => (k :: ks, st) | None => (ks, AtSender) end]> (removals s))
              (next_message_id s) (accepted s) (forwarded s) (unreachable s) (ended s)).
Proof.
  intros Hok Hi Hstep. assert ((k :: ks, st) ∈ removals s) as Hin by (apply list_elem_of_lookup; eauto).
  assert (gone (ended s) k) as Hk by (eapply so_removals; [done..|]; left).
  pose proof (outside_ok s m' (has_messages s) (producers s) (<[i := match next with Some st => (k :: ks, st) | None => (ks, AtSender) end]> (removals s))
    (next_message_id s) (ended s) None) as Hgo. simpl in Hgo. rewrite (app_nil_r (accepted s)) in Hgo. apply Hgo; try done; try apply Hok.
  - eapply removal_step_actors; [apply Hok|done].
  - intros r k0 [->|Hold]%insert_elem Hk0; [|by eapply so_removals]. eapply so_removals; [done..|]. simpl. destruct next; [done|by right].
  - destruct st; injection Hstep as <- <-; try done. unfold remove_receiver, drop_receiver. destruct (buf_rx (maps s) !! k); [|done]. simpl. by destruct (pqueues (maps s) !! _).
  - intros k0. eapply removal_outside; [apply Hok| |done]. by intros <-.
  - by left.
Qed.

Lemma sched_exec_ok op s s' : sched_ok s → sched_exec shard shards op s = Some s' → sched_ok s'.
Proof.
  intros Hok. pose proof Hok as [Hact Hids Hnext _ Hrm _ _ _]. destruct op as [x|i adm|i|o|env pid routes|i]; cbn [sched_exec].
  - destruct (negb _) eqn:Hb; [done|]. apply negb_false_iff in Hb. bool_to_prop. intros [= <-]. apply still_ok; try done.
    + destruct Hact as [? Hnd Hg Hps ?]. assert (holders (worker s) (producers s ++ [PLookup x]) = holders (worker s) (producers s)) as Hh.
      { unfold holders. rewrite bind_app. simpl. by rewrite app_nil_r. }
      split; rewrite ?Hh; try done. intros p [?| ->%list_elem_of_singleton]%elem_of_app; [by apply Hps|done].
    + rewrite bind_app, app_assoc. apply NoDup_app. split; [done|]. simpl. split; [|by apply NoDup_singleton].
      intros id Hin%Hnext ->%list_elem_of_singleton. lia.
    + intros id. rewrite bind_app, app_assoc, elem_of_app. simpl. intros [?%Hnext| ->%list_elem_of_singleton]; lia.
    + intros p [?| ->%list_elem_of_singleton]%elem_of_app; eauto.
    + intros g ?. apply elem_of_app. by left.
  - intros (p & Hi & Hstep)%bind_Some. apply bind_Some in Hstep as ([[[p' m'] acc] nt] & Hstep & [= <-]). by eapply produce_ok.
  - intros (p & Hi & Hstep)%bind_Some. destruct p as [|x g|?|?|?|?]; try done. injection Hstep as <-.
    destruct (bind_insert p_ids (producers s) i _ (PReturned false) Hi) as (rest & Hold & Hnew). simpl in Hold, Hnew.
    assert ((accepted s).*2 ++ (producers s ≫= p_ids) ≡ₚ msg_id x :: (accepted s).*2 ++ rest) as Hp by (rewrite Hold; symmetry; apply Permutation_middle).
    apply still_ok; try done.
    + eapply producer_actors; [done..|apply Hact|apply frame_refl|done|by apply gate_keep].
    + rewrite Hnew. rewrite Hp in Hids. by apply list.NoDup_cons in Hids as [_ ?].
    + intros id. rewrite Hnew. intros Hin. apply Hnext. rewrite Hp. by right.
    + intros p [->|?]%insert_elem; eauto.
    + intros g' Hg'. apply list_elem_of_lookup in Hg' as [j Hj]. apply list_elem_of_lookup. exists j. rewrite list_lookup_insert_ne; [done|]. congruence.
  - intros ([[[[w' ra'] pm'] m'] ev] & Hstep & [= <-])%bind_Some. by apply (work_ok s o w' ra' pm' m' ev).
  - destruct (forallb _ _) eqn:Hall; [|done]. intros [= <-]. apply still_ok; try done; [|set_solver|by left].
    intros r k [Hr| ->%list_elem_of_singleton]%elem_of_app Hk; [unfold gone; apply elem_of_union_r; by eapply Hrm|].
    apply list_elem_of_fmap in Hk as (rt & -> & Hrt). unfold gone. simpl. apply elem_of_union_l. rewrite forallb_forall in Hall. apply list_elem_of_In, Hall in Hrt. bool_to_prop.
    simpl. subst pid. by apply elem_of_singleton.
  - intros ([ks st] & Hi & Hstep)%bind_Some. destruct ks as [|k ks]; [done|]. destruct (removal_step k st (maps s)) as [next m'] eqn:Hr. injection Hstep as <-.
    by eapply removal_ok.
Qed.

(** What producers, the worker and removals reach. *)
Definition sched_steps : Sched (Chan := Chan) → Sched (Chan := Chan) → Prop := rtc (fun s s' => ∃ op, sched_exec shard shards op s = Some s').

Lemma sched_reachable_ok s : sched_steps (sched_new shards) s → sched_ok s.
Proof. apply rtc_invariant; [|apply sched_new_ok]. intros x y Hx [op Hop]. by eapply sched_exec_ok. Qed.

(** ** Theorems *)

(** C25. The messages of a pair of processes leave the scheduler in the order in which they
    were accepted, each once, whatever producers, the worker and removals do; and unless the
    resources of the sending process were removed, every accepted message whose node was found
    has been forwarded, or is in the hand of the worker, in progress or queued, in this order:
    retiring and creating queues loses and reorders nothing. *)
Theorem route_fifo s k :
  sched_steps (sched_new shards) s →
  NoDup ((accepted s).*2) ∧ sublist (of_key k (forwarded s)) (of_key k (accepted s)) ∧
  ((k.1, route_src k.2) ∉ ended s →
   of_key k (forwarded s) ++ (a_mid <$> waiting k (worker s) (view (maps s) k)) =
     filter (fun id => id ∉ unreachable s) (of_key k (accepted s))).
Proof.
  intros Hok%sched_reachable_ok. split; [|split].
  - by apply so_ids, NoDup_app in Hok as (? & _).
  - etrans; [|by apply so_line]. unfold line. by apply sublist_inserts_r.
  - intros Hk. apply st_exact. by apply so_settled.
Qed.

(** A producer that holds a gate gives it back without waiting for anything. *)
Lemma holder_goes_on s g : sched_ok s → g ∉ w_holds (worker s) → gate_of (maps s) g = true →
  ∃ i p, producers s !! i = Some p ∧ p_holds p = [g] ∧ ∀ adm, is_Some (producer_step adm p (maps s)).
Proof.
  intros Hok Hno Hg. apply (ao_gates _ _ _ (so_actors _ Hok)) in Hg. apply elem_of_app in Hg as [?|Hg]; [done|].
  apply list_elem_of_bind in Hg as (p & Hp & Hin). apply list_elem_of_lookup in Hin as [i Hi]. exists i, p.
  assert (p ∈ producers s) as Hin by (apply list_elem_of_lookup; eauto). split; [done|].
  destruct p as [|?|x g'|g'|?|?]; simpl in Hp; try (by apply elem_of_nil in Hp); apply list_elem_of_singleton in Hp as ->; (split; [done|]); intros adm; [|by eexists].
  destruct (ao_producers _ _ _ (so_actors _ Hok) _ Hin) as (q & Hq & _). simpl. rewrite Hq. simpl. destruct adm as [[]|]; [|by eexists].
  destruct (try_send _ _) as [|[]]; by eexists.
Qed.

(** No wakeup is lost, as far as accesses to the maps do not wait for one another (see
    [SchedulerLocks]).  When the worker cannot go on (it waits for the gate of a queue,
    or for messages), either a producer holds a gate, has its message or the notification
    still to give, and can go on without waiting for anybody; or for every process whose
    resources were not removed nothing is queued or in progress, and each accepted message
    whose node was found has been forwarded. *)
Theorem worker_no_lost_wakeup s o :
  sched_steps (sched_new shards) s →
  worker_step shard shards o (worker s) (retry_after s) (has_messages s) (maps s) = None →
  (∃ i p, producers s !! i = Some p ∧ p_holds p ≠ [] ∧ ∀ adm, is_Some (producer_step adm p (maps s))) ∨
  ∀ k, (k.1, route_src k.2) ∉ ended s →
    contents (maps s) k = [] ∧ route_in_progress (maps s) !! k = None ∧
    of_key k (forwarded s) = filter (fun id => id ∉ unreachable s) (of_key k (accepted s)).
Proof.
  intros Hok%sched_reachable_ok Hnone. pose proof (ao_maps _ _ _ (so_actors _ Hok)) as Hm. pose proof (ao_worker _ _ _ (so_actors _ Hok)) as Hw.
  destruct (worker s) as [todo found|rem mp|k0 g id rem mp|k0 g id rem mp|k0 g a rem mp|k0 g rem mp|g a rem|k0 g st rem mp| |] eqn:Hwk; simpl in Hnone; try done.
  - by destruct todo.
  - destruct rem as [|[k g] rem]; [done|]. by destruct (_ && _).
  - destruct (wo_ensure o); try done. destruct (route_in_progress (maps s) !! k0); [|done]. by destruct (same_message _ _ _).
  - destruct (route_in_progress (maps s) !! k0); [|done]. by destruct (same_message _ _ _).
  - by destruct (wo_forward o).
  - destruct (negb _) eqn:Hb; [done|]. apply negb_false_iff, bool_decide_eq_true in Hb. destruct (mo_rx _ Hm _ _ Hb) as (q & Hq & _). rewrite Hq in Hnone. simpl in Hnone.
    destruct (pq_gate q) eqn:Hg; [|by destruct (try_recv (pq_chan q)) as [[]|]].
    left. destruct (holder_goes_on s g Hok) as (i & p & ? & Hp & ?); [rewrite Hwk; apply not_elem_of_nil|unfold gate_of; by rewrite Hq|].
    exists i, p. by rewrite Hp.
  - by destruct (cleanup_step _ _ _ _) as [[] ?].
  - destruct (has_messages s) eqn:Hhm; [done|]. destruct (decide (Exists (fun p => p_holds p ≠ []) (producers s))) as [Hex|Hall].
    + left. apply Exists_exists in Hex as (p & Hin & Hp). pose proof (ao_gates _ _ _ (so_actors _ Hok)) as Hgates.
      assert (∃ g, gate_of (maps s) g = true) as [g Hg].
      { destruct (p_holds p) as [|g l] eqn:Hh; [done|]. exists g. apply Hgates, elem_of_app. right. apply list_elem_of_bind. exists p. rewrite Hh. split; [left|done]. }
      destruct (holder_goes_on s g Hok) as (i & p' & ? & Hp' & ?); [rewrite Hwk; apply not_elem_of_nil|done|]. exists i, p'. by rewrite Hp'.
    + right. intros k Hk. pose proof (so_settled _ Hok k Hk) as Hs. assert (contents (maps s) k = []) as Hc.
      { destruct (decide (contents (maps s) k = [])) as [|Hne]; [done|]. exfalso. destruct (buf_rx (maps s) !! k) as [g|] eqn:Hr; [|by apply Hne, contents_none].
        destruct (st_wake _ _ Hs g Hr Hne) as [?|[[g' Hn]|[Hcov|Hp]]]; [congruence| |by rewrite Hwk in Hcov|by apply Hp, Hw].
        apply Hall, Exists_exists. by exists (PNotify g'). }
      split; [done|]. split; [done|]. rewrite <- (st_exact _ _ Hs). unfold line, waiting. simpl. rewrite Hc, Hw, Hwk. simpl. by rewrite app_nil_r.
Qed.
End order.

(** Two messages of a route; the queue of the node is busy once. *)
Module SchedulerDemo.
Definition route : Key := (1, mkRoute 4 2 5).
Definition msg (id : Z) : MessageCtx := mkMessageCtx id 1 4 2 5 0 [] 10 Data None.
Definition permits : option (AdmissionPermits * Z) := Some (mkPermits 0 10, 1).
Definition answers (f : Forward) : WorkerOracle := mkWorkerOracle false true EnsureOk f.
Definition produce (i : nat) : list sched_op := replicate 4 (Produce i permits).
(** Both are accepted; one is received, put back, and forwarded; then the other. *)
Definition history : list sched_op :=
  [NewMessage (msg 0); NewMessage (msg 1)] ++ produce 0 ++ produce 1 ++ replicate 6 (Work (answers Forwarded)) ++
  replicate 8 (Work (answers (Busy None))) ++ replicate 5 (Work (answers Forwarded)).
(** Then the worker goes on until it waits. *)
Definition to_the_end : list sched_op := history ++ replicate 19 (Work (answers Forwarded)).

Fixpoint run (ops : list sched_op) (s : Sched (Chan := fifo)) : option (Sched (Chan := fifo)) :=
  match ops with
  | [] => Some s
  | op :: ops => s ← sched_exec (fun _ => 0%nat) 1 op s; run ops s
  end.

Lemma sched_run_reachable ops s s' : run ops s = Some s' → sched_steps (fun _ => 0%nat) 1 s s'.
Proof.
  revert s. induction ops as [|op ops IH]; simpl; intros s; [intros [= ->]; apply rtc_refl|].
  intros (s1 & Hop & Hrun)%bind_Some. eapply rtc_l; [by exists op|]. by apply IH.
Qed.
End SchedulerDemo.

Lemma route_fifo_witness :
  ∃ s, sched_steps (fun _ => 0%nat) 1 (sched_new 1) s ∧ of_key SchedulerDemo.route (forwarded s) = [0] ∧
    of_key SchedulerDemo.route (forwarded s) ++ (a_mid <$> waiting SchedulerDemo.route (worker s) (view (maps s) SchedulerDemo.route)) = [0; 1].
Proof.
  eassert (SchedulerDemo.run SchedulerDemo.history (sched_new 1) = Some _) as Hrun by (vm_compute; reflexivity).
  apply SchedulerDemo.sched_run_reachable in Hrun. eexists. split; [exact Hrun|]. split; [vm_compute; reflexivity|].
  etrans; [refine (proj2 (proj2 (route_fifo (fun _ => 0%nat) 1 (fun _ => Nat.lt_0_1) _ SchedulerDemo.route Hrun)) _)|vm_compute; reflexivity].
  apply not_elem_of_empty.
Defined.

Lemma worker_no_lost_wakeup_witness :
  ∃ s, sched_steps (fun _ => 0%nat) 1 (sched_new 1) s ∧ worker s = WWait ∧ has_messages s = false ∧
    of_key SchedulerDemo.route (forwarded s) = filter (fun id => id ∉ unreachable s) (of_key SchedulerDemo.route (accepted s)) ∧
    of_key SchedulerDemo.route (accepted s) = [0; 1].
Proof.
  eassert (SchedulerDemo.run SchedulerDemo.to_the_end (sched_new 1) = Some _) as Hrun by (vm_compute; reflexivity).
  apply SchedulerDemo.sched_run_reachable in Hrun. eexists. split; [exact Hrun|]. split; [reflexivity|]. split; [reflexivity|].
  split; [|vm_compute; reflexivity].
  destruct (worker_no_lost_wakeup (fun _ => 0%nat) 1 (fun _ => Nat.lt_0_1) _ (SchedulerDemo.answers Forwarded) Hrun eq_refl) as [(i & p & Hp & Hne & _)|Hall].
  - exfalso. destruct i as [|[|i]]; simpl in Hp; [injection Hp as <-; by apply Hne..|done].
  - apply (Hall SchedulerDemo.route). apply not_elem_of_empty.
Defined.
