(* ===== verification/Paths.v ===== *)
(** * Paths and the file system

    The paths of [src/config.rs] (Unix: no prefixes): [normalize_path],
    [canonicalize_with_missing], [get_absolute_path], [strip_file] and
    [path_is_ancestor], over a file system that is a parameter. *)

From Stdlib Require Import Ascii.
From S2P Require Import Prelude.

(** ** [std::path] *)

Inductive Component : Type := CurDir | ParentDir | Normal (name : string).

#[export] Instance Component_eq_dec : EqDecision Component.
Proof. solve_decision. Defined.

(** What [Path::components] gives: whether there is a root, and what follows it. *)
Record Path : Type := mkPath { has_root : bool; comps : list Component }.

#[export] Instance Path_eq_dec : EqDecision Path.
Proof. solve_decision. Defined.

Definition slash : Ascii.ascii := "/"%char.

Fixpoint segments (s : string) : list string :=
  match s with
  | EmptyString => [EmptyString]
  | String c s =>
      if decide (c = slash) then EmptyString :: segments s
      else match segments s with
           | x :: r => String c x :: r
           | [] => [String c EmptyString]
           end
  end.

Definition component (x : string) : list Component :=
  if decide (x = EmptyString ∨ x = ".") then [] else if decide (x = "..") then [ParentDir] else [Normal x].

(** [Path::new]; only a leading [.] is a component. *)
Definition path_new (s : string) : Path :=
  let abs := match s with String c _ => bool_decide (c = slash) | EmptyString => false end in
  mkPath abs
    match segments s with
    | x :: r => (if decide (x = ".") then [CurDir] else component x) ++ (r ≫= component)
    | [] => []
    end.

Definition component_str (c : Component) : string :=
  match c with CurDir => "." | ParentDir => ".." | Normal x => x end.

Fixpoint join_str (l : list string) : string :=
  match l with
  | [] => EmptyString
  | [x] => x
  | x :: l => x +:+ String slash (join_str l)
  end.

(** The string of a [PathBuf] that was made with [push]. *)
Definition path_str (p : Path) : string :=
  let s := join_str (component_str <$> comps p) in if has_root p then String slash s else s.

(** [Path::join] *)
Definition path_join (a b : Path) : Path :=
  if has_root b then b
  else
    mkPath (has_root a)
      (comps a ++ if has_root a || negb (bool_decide (comps a = [])) then filter (fun c => c ≠ CurDir) (comps b) else comps b).

(** [Path::starts_with]: the root is a component. *)
Definition starts_with (p base : Path) : bool :=
  let all p := (if has_root p then [None] else []) ++ (Some <$> comps p) in
  bool_decide (all base `prefix_of` all p).

(** [Path::parent] of a path that has one, [PathBuf::pop] *)
Definition path_pop (p : Path) : Path := mkPath (has_root p) (removelast (comps p)).

(** ** The file system *)

(** [fs::canonicalize], [Path::exists], [is_dir], [is_file], [env::current_dir] and
    [dirs::home_dir]. *)
Class FileSystem : Type := {
  canonicalize : Path → option Path;
  path_exists : Path → bool;
  is_dir : Path → bool;
  is_file : Path → bool;
  current_dir : option Path;
  home_dir : option string;
}.

(** Names of files. *)
Definition valid_name (x : string) : Prop :=
  x ≠ EmptyString ∧ x ≠ "." ∧ x ≠ ".." ∧ slash ∉ String.list_ascii_of_string x.

#[export] Instance valid_name_dec x : Decision (valid_name x).
Proof. unfold valid_name. apply _. Defined.

(** Absolute, without [.] and [..]. *)
Definition clean (p : Path) : Prop :=
  has_root p = true ∧ Forall (fun c => ∃ x, c = Normal x ∧ valid_name x) (comps p).

(** A canonical path is absolute, has no [.], [..] or links, and is its own canonical path;
    the other queries follow links too; the root is a directory; without a current directory
    relative paths do not resolve. *)
Class FileSystemLaws `{!FileSystem} : Prop := {
  canonical_clean p q : canonicalize p = Some q → clean q;
  canonical_idem p q : canonicalize p = Some q → canonicalize q = Some q;
  canonical_dir p q : canonicalize p = Some q → is_dir p = is_dir q;
  exists_canonical p : path_exists p = true ↔ is_Some (canonicalize p);
  root_exists : path_exists (mkPath true []) = true;
  current_dir_clean d : current_dir = Some d → clean d;
  no_current_dir p : current_dir = None → has_root p = false → canonicalize p = None;
}.

(** A parent component after a link means the parent of what the link leads to. *)
Definition links_first `{!FileSystem} : Prop :=
  ∀ cs q x target entry, canonicalize (mkPath true cs) = Some q →
    canonicalize (mkPath true (cs ++ [ParentDir; Normal x])) = Some target →
    canonicalize (mkPath true (removelast (comps q) ++ [Normal x])) = Some entry → target = entry.

(** ** [src/config.rs] *)

Inductive IoError : Type := NotFound | OtherIo.

Section paths.
Context `{!FileSystem}.

Definition normalize_step (ret : list Component) (c : Component) : list Component :=
  match c with
  | CurDir => ret
  | ParentDir => removelast ret
  | Normal x => ret ++ [Normal x]
  end.

Definition normalize_path (p : Path) : Path := mkPath (has_root p) (foldl normalize_step [] (comps p)).

(** The nearest ancestor that exists, and what follows it; [up] is reversed. *)
Fixpoint existing_ancestor (root : bool) (up : list Component) (missing : list string) : result (Path * list string) IoError :=
  let existing := mkPath root (rev up) in
  if path_exists existing then Ok (existing, missing)
  else match up with
       | Normal x :: up => existing_ancestor root up (x :: missing)
       | _ => Err NotFound
       end.

Definition canonicalize_with_missing (p : Path) : result Path IoError :=
  let? found := existing_ancestor (has_root p) (rev (comps p)) [] in
  let '(existing, missing) := found in
  match canonicalize existing with
  | None => Err OtherIo
  | Some c => Ok (normalize_path (mkPath (has_root c) (comps c ++ (Normal <$> missing))))
  end.

Definition get_absolute_path (p : Path) : result Path IoError :=
  let? p := (if has_root p then Ok p else match current_dir with Some d => Ok (path_join d p) | None => Err OtherIo end) in
  canonicalize_with_missing (normalize_path p).

(** The location and the directory that it is in. *)
Definition strip_file (p : Path) : result (Path * Path) IoError :=
  let? a := get_absolute_path p in
  if is_file a then Ok (a, if decide (comps a = []) then a else path_pop a) else Ok (a, a).

Definition path_is_ancestor (ancestor descendant : Path) : bool := is_dir ancestor && starts_with descendant ancestor.
End paths.

(** ** Lemmas *)

Definition valid_comp (c : Component) : Prop := ∀ x, c = Normal x → valid_name x.

Lemma segments_nonempty s : segments s ≠ [].
Proof. destruct s; simpl; [done|]. case_decide; [done|]. by destruct (segments s). Qed.

Lemma segments_noslash s x : x ∈ segments s → slash ∉ String.list_ascii_of_string x.
Proof.
  revert x. induction s as [|c s IH]; simpl; intros x.
  - intros ->%list_elem_of_singleton. apply not_elem_of_nil.
  - case_decide as Hc.
    + intros [->|Hx]%elem_of_cons; [apply not_elem_of_nil|auto].
    + destruct (segments s) as [|y r] eqn:Hs; [by destruct (segments_nonempty s)|].
      intros [->|Hx]%elem_of_cons; [|apply IH; by right]. simpl. rewrite elem_of_cons. intros [?|Hin]; [done|]. revert Hin. apply IH. by left.
Qed.

Lemma component_valid x : slash ∉ String.list_ascii_of_string x → Forall valid_comp (component x).
Proof.
  intros Hx. unfold component. case_decide as H1; [by apply Forall_nil|]. case_decide as H2; apply Forall_singleton; intros y; [done|].
  intros [= <-]. unfold valid_name. naive_solver.
Qed.

Lemma path_new_valid s : Forall valid_comp (comps (path_new s)).
Proof.
  unfold path_new. simpl. destruct (segments s) as [|x r] eqn:Hs; [constructor|].
  assert (∀ y, y ∈ x :: r → slash ∉ String.list_ascii_of_string y) as Hall by (intros y; rewrite <- Hs; apply segments_noslash).
  apply Forall_app. split.
  - case_decide; [by apply Forall_singleton|]. apply component_valid, Hall. by left.
  - apply list.Forall_forall. intros c (y & Hc & Hy)%list_elem_of_bind. pose proof (component_valid y (Hall y (list_elem_of_further _ _ _ Hy))) as Hv.
    rewrite list.Forall_forall in Hv. by apply Hv.
Qed.

Lemma segments_app x s : slash ∉ String.list_ascii_of_string x → segments (x +:+ String slash s) = x :: segments s.
Proof.
  induction x as [|c x IH]; simpl; intros Hx; [done|]. apply not_elem_of_cons in Hx as [Hc Hx].
  rewrite decide_False by done. rewrite IH by done. done.
Qed.
Lemma segments_one x : slash ∉ String.list_ascii_of_string x → segments x = [x].
Proof.
  induction x as [|c x IH]; simpl; intros Hx; [done|]. apply not_elem_of_cons in Hx as [Hc Hx].
  rewrite decide_False by done. by rewrite IH.
Qed.
Lemma segments_join l : l ≠ [] → Forall (fun x => slash ∉ String.list_ascii_of_string x) l → segments (join_str l) = l.
Proof.
  induction l as [|x [|y l] IH]; [done|..]; intros _ [Hx Hl]%Forall_cons_iff.
  - by apply segments_one.
  - change (join_str (x :: y :: l)) with (x +:+ String slash (join_str (y :: l))). rewrite segments_app by done. by rewrite IH.
Qed.

(** A clean path, by its names. *)
Lemma clean_names p : clean p ↔ ∃ l, p = mkPath true (Normal <$> l) ∧ Forall valid_name l.
Proof.
  split.
  - destruct p as [r cs]. intros [Hr Hcs]. simpl in *. subst r. induction Hcs as [|c cs (x & -> & Hx) _ (l & Hl & Hv)]; [by exists []|].
    exists (x :: l). injection Hl as ->. by split; [|constructor].
  - intros (l & -> & Hv). split; [done|]. simpl. apply Forall_fmap. eapply Forall_impl; [done|]. simpl. eauto.
Qed.

Lemma component_name x : valid_name x → component x = [Normal x].
Proof. intros (H1 & H2 & H3 & _). unfold component. rewrite !decide_False by naive_solver. done. Qed.

(** The string of a clean path is read back. *)
Lemma path_roundtrip p : clean p → path_new (path_str p) = p.
Proof.
  intros (l & -> & Hv)%clean_names. unfold path_str. simpl. rewrite <- list_fmap_compose.
  replace (component_str ∘ Normal <$> l) with l by (symmetry; apply list_fmap_id). unfold path_new. simpl.
  f_equal. destruct l as [|x l]; [done|].
  rewrite segments_join; [|done|eapply Forall_impl; [done|]; by intros ? (_ & _ & _ & ?)].
  induction Hv as [|y l' Hy _ IH]; [done|]. rewrite bind_cons, component_name by done. simpl. f_equal. exact IH.
Qed.

Lemma normalize_snoc l l' : foldl normalize_step l (Normal <$> l') = l ++ (Normal <$> l').
Proof. revert l. induction l' as [|x l' IH]; intros l; simpl; [by rewrite app_nil_r|]. rewrite IH, <- app_assoc. done. Qed.

Lemma normalize_clean p : clean p → normalize_path p = p.
Proof. intros (l & -> & Hv)%clean_names. unfold normalize_path. simpl. by rewrite normalize_snoc. Qed.

Lemma Forall_removelast {A} (P : A → Prop) l : Forall P l → Forall P (removelast l).
Proof. induction 1 as [|x l Hx Hl IH]; [constructor|]. simpl. destruct l; [constructor|by constructor]. Qed.

Lemma normalize_names p : Forall valid_comp (comps p) → ∃ l, normalize_path p = mkPath (has_root p) (Normal <$> l) ∧ Forall valid_name l.
Proof.
  intros Hp. assert (Forall (fun c => ∃ x, c = Normal x ∧ valid_name x) (foldl normalize_step [] (comps p))) as Hall.
  { assert (∀ acc, Forall (fun c => ∃ x, c = Normal x ∧ valid_name x) acc →
      Forall (fun c => ∃ x, c = Normal x ∧ valid_name x) (foldl normalize_step acc (comps p))) as Hgo; [|apply Hgo; constructor].
    induction Hp as [|c cs Hc _ IH]; intros acc Hacc; [done|]. simpl. apply IH. destruct c as [| |x]; simpl; [done|by apply Forall_removelast|].
    apply Forall_app. split; [done|]. constructor; [|constructor]. exists x. auto. }
  unfold normalize_path. generalize dependent (foldl normalize_step [] (comps p)). intros cs Hall.
  destruct (clean_names (mkPath true cs)) as [Hn _]. destruct Hn as (l & Hl & Hv); [by split|]. injection Hl as ->. by exists l.
Qed.

Section laws.
Context `{!FileSystem, !FileSystemLaws}.

Lemma existing_ancestor_spec root l missing :
  match existing_ancestor root (Normal <$> l) missing with
  | Ok (e, m) => ∃ up, path_exists e = true ∧ has_root e = root ∧ rev l ++ missing = up ++ m
  | Err _ => root = false
  end.
Proof.
  revert missing. induction l as [|x l IH]; intros missing; simpl.
  - destruct (path_exists _) eqn:He; [by exists []|]. destruct root; [|done]. by rewrite root_exists in He.
  - destruct (path_exists _) eqn:He; [by exists (rev l ++ [x])|]. specialize (IH (x :: missing)). destruct (existing_ancestor _ _ _) as [[e m]|]; [|done].
    destruct IH as (up & ? & ? & Heq). exists up. by rewrite <- app_assoc.
Qed.

Lemma rev_fmap_names (l : list string) : rev (Normal <$> l) = Normal <$> rev l.
Proof. symmetry. apply map_rev. Qed.

Lemma canonicalize_missing_spec root l :
  Forall valid_name l →
  match canonicalize_with_missing (mkPath root (Normal <$> l)) with
  | Ok q => clean q
  | Err _ => root = false
  end.
Proof.
  intros Hv. unfold canonicalize_with_missing. simpl. rewrite rev_fmap_names. pose proof (existing_ancestor_spec root (rev l) []) as Hspec.
  destruct (existing_ancestor _ _ _) as [[e m]|]; simpl; [|done]. destruct Hspec as (up & He & _ & Heq). rewrite rev_involutive, app_nil_r in Heq.
  apply exists_canonical in He as [c Hc]. rewrite Hc. apply canonical_clean, clean_names in Hc as (lc & -> & Hlc). simpl. unfold normalize_path. simpl.
  rewrite <- fmap_app, normalize_snoc. apply clean_names. exists (lc ++ m). split; [done|]. subst l. apply Forall_app in Hv as [_ ?]. by apply Forall_app.
Qed.

(** What [get_absolute_path] gives is clean, and it fails only for a relative path without a
    current directory. *)
Lemma get_absolute_path_spec p :
  Forall valid_comp (comps p) →
  match get_absolute_path p with
  | Ok q => clean q
  | Err _ => has_root p = false ∧ current_dir = None
  end.
Proof.
  intros Hp. unfold get_absolute_path. assert (∀ p', has_root p' = true → Forall valid_comp (comps p') → ∃ q, canonicalize_with_missing (normalize_path p') = Ok q ∧ clean q) as Habs.
  { intros p' Hr' Hp'. destruct (normalize_names p' Hp') as (l & -> & Hl). rewrite Hr'. pose proof (canonicalize_missing_spec true l Hl) as Hspec.
    destruct (canonicalize_with_missing _) as [q|]; [by exists q|done]. }
  destruct (has_root p) eqn:Hr; simpl.
  - destruct (Habs p Hr Hp) as (q & -> & ?). done.
  - destruct current_dir as [d|] eqn:Hd; simpl; [|done]. destruct (current_dir_clean d Hd) as [Hdr Hdc].
    destruct (Habs (path_join d p)) as (q & -> & ?); [unfold path_join; by rewrite Hr| |done].
    unfold path_join. rewrite Hr, Hdr. simpl. apply Forall_app. split.
    + eapply Forall_impl; [done|]. intros c (x & -> & ?) y [= <-]. done.
    + rewrite list.Forall_forall in *. intros c [_ Hc]%list_elem_of_filter. auto.
Qed.

Lemma existing_ancestor_self root up missing :
  path_exists (mkPath root (rev up)) = true → existing_ancestor root up missing = Ok (mkPath root (rev up), missing).
Proof. destruct up; simpl; by intros ->. Qed.

(** For a clean path that exists it is the canonical path. *)
Lemma get_absolute_path_canonical p q : clean p → canonicalize p = Some q → get_absolute_path p = Ok q.
Proof.
  intros Hp Hc. assert (path_exists p = true) as He by (apply exists_canonical; by eexists). unfold get_absolute_path. destruct Hp as [Hr Hn]. rewrite Hr. simpl.
  rewrite normalize_clean by done. unfold canonicalize_with_missing. assert (existing_ancestor (has_root p) (rev (comps p)) [] = Ok (p, [])) as ->.
  { destruct p as [r cs]. simpl in *. rewrite existing_ancestor_self; rewrite rev_involutive; done. }
  simpl. rewrite Hc. simpl. rewrite app_nil_r. pose proof (canonical_clean p q Hc) as Hq. destruct q as [rq cq]. by rewrite normalize_clean.
Qed.
End laws.
