(* ===== verification/TreeFs.v ===== *)
(** * A file system with symbolic links

    An instance of [FileSystem]: a tree of directories, files and links, with the root as the
    current directory.  It shows that [FileSystemLaws] can hold, and gives the concrete file
    systems of the examples. *)

From S2P Require Import Prelude Paths.

Inductive Node : Type := Dir | File | Link (target : Path).

(** Nodes by their names from the root, which is a directory. *)
Definition Tree : Type := gmap (list string) Node.

Section tree.
(** A path of more steps does not resolve ([ELOOP]). *)
Context (steps : nat) (t : Tree) (names_valid : ∀ k n, t !! k = Some n → Forall valid_name k).

Definition node_at (q : list string) : option Node := if decide (q = []) then Some Dir else t !! q.

(** [at_] is a directory that was reached; links are followed where they are met. *)
Fixpoint resolve (fuel : nat) (at_ : list string) (todo : list Component) : option (list string) :=
  match fuel with
  | O => None
  | S fuel =>
      match todo with
      | [] => Some at_
      | CurDir :: todo => resolve fuel at_ todo
      | ParentDir :: todo => resolve fuel (removelast at_) todo
      | Normal x :: todo =>
          match t !! (at_ ++ [x]) with
          | None => None
          | Some Dir => resolve fuel (at_ ++ [x]) todo
          | Some File => if decide (todo = []) then resolve fuel (at_ ++ [x]) [] else None
          | Some (Link p) => resolve fuel (if has_root p then [] else at_) (comps p ++ todo)
          end
      end
  end.

Definition of_names (q : list string) : Path := mkPath true (Normal <$> q).

Definition tree_canonicalize (p : Path) : option Path := of_names <$> resolve (S steps) [] (comps p).
Definition tree_node (p : Path) : option Node := resolve (S steps) [] (comps p) ≫= node_at.

Definition tree_fs : FileSystem := {|
  canonicalize := tree_canonicalize;
  path_exists p := bool_decide (is_Some (tree_canonicalize p));
  is_dir p := match tree_node p with Some Dir => true | _ => false end;
  is_file p := match tree_node p with Some File => true | _ => false end;
  current_dir := Some (mkPath true []);
  home_dir := None;
|}.

(** What is above is a directory. *)
Definition real (q : list string) : Prop :=
  (∀ a x b, q = a ++ x :: b → b ≠ [] → t !! (a ++ [x]) = Some Dir) ∧ (q ≠ [] → t !! q = Some Dir ∨ t !! q = Some File).
Definition real_dir (q : list string) : Prop := ∀ a x b, q = a ++ x :: b → t !! (a ++ [x]) = Some Dir.

Lemma real_dir_nil : real_dir [].
Proof. intros [] ? ?; discriminate. Qed.
Lemma real_dir_snoc q x : real_dir q → t !! (q ++ [x]) = Some Dir → real_dir (q ++ [x]).
Proof.
  intros Hq Hx a y b Heq. destruct b as [|z b] using rev_ind.
  - apply app_inj_tail in Heq as [-> ->]. done.
  - change (a ++ y :: b ++ [z]) with (a ++ (y :: b) ++ [z]) in Heq. rewrite app_assoc in Heq. apply app_inj_tail in Heq as [-> ->]. by eapply Hq.
Qed.
Lemma real_dir_removelast q : real_dir q → real_dir (removelast q).
Proof.
  intros Hq a x b Heq. destruct q as [|y q] using rev_ind; [by destruct a|]. rewrite removelast_last in Heq. subst q. apply (Hq a x (b ++ [y])). by rewrite <- app_assoc.
Qed.
Lemma real_dir_real q : real_dir q → real q.
Proof.
  intros Hq. split; [intros a x b Heq _; by eapply Hq|]. intros Hne. left. destruct q as [|y q] using rev_ind; [done|]. by eapply (Hq q y []).
Qed.

Lemma resolve_real fuel at_ todo q :
  real_dir at_ → resolve fuel at_ todo = Some q → real q ∧ (length q < length at_ + fuel)%nat.
Proof.
  revert at_ todo. induction fuel as [|fuel IH]; intros at_ todo Hat Hr; simpl in Hr; [done|]. destruct todo as [|[| |x] todo].
  - injection Hr as <-. split; [by apply real_dir_real|lia].
  - apply IH in Hr as [? ?]; [|done]. split; [done|lia].
  - apply IH in Hr as [? Hlen]; [|by apply real_dir_removelast]. split; [done|]. assert (length (removelast at_) <= length at_)%nat; [|lia].
    destruct at_ as [|y l _] using rev_ind; [done|]. rewrite removelast_last, length_app. lia.
  - destruct (t !! (at_ ++ [x])) as [[| |p]|] eqn:Hx; [| | |done].
    + apply IH in Hr as [? Hlen]; [|by apply real_dir_snoc]. split; [done|]. rewrite length_app in Hlen. simpl in Hlen. lia.
    + destruct (decide _); [|done]. destruct fuel; [done|]. injection Hr as <-. split; [|rewrite length_app; simpl; lia]. split; [|intros _; by right].
      intros a y b Heq Hb. destruct b as [|z b _] using rev_ind; [done|]. change (a ++ y :: b ++ [z]) with (a ++ (y :: b) ++ [z]) in Heq.
      rewrite app_assoc in Heq. apply app_inj_tail in Heq as [-> ->]. by eapply Hat.
    + apply IH in Hr as [? Hlen]; [|destruct (has_root p); [apply real_dir_nil|done]]. split; [done|]. destruct (has_root p); simpl in Hlen; lia.
Qed.

Lemma resolve_canonical fuel at_ rest :
  real (at_ ++ rest) → (length rest < fuel)%nat → resolve fuel at_ (Normal <$> rest) = Some (at_ ++ rest).
Proof.
  revert at_ rest. induction fuel as [|fuel IH]; intros at_ rest Hreal Hlen; [lia|]. destruct rest as [|x rest]; simpl; [by rewrite app_nil_r|]. simpl in Hlen.
  pose proof Hreal as [Hdirs Hlast]. destruct rest as [|y rest].
  - destruct fuel; [simpl in Hlen; lia|]. destruct Hlast as [-> | ->]; [by destruct at_|..]; done.
  - rewrite (Hdirs at_ x (y :: rest) eq_refl) by done. rewrite IH; [by rewrite <- app_assoc|by rewrite <- app_assoc|simpl in *; lia].
Qed.

Lemma tree_canonical p q : tree_canonicalize p = Some q → ∃ l, q = of_names l ∧ resolve (S steps) [] (comps p) = Some l ∧ real l ∧ resolve (S steps) [] (comps q) = Some l.
Proof.
  intros (l & Hl & ->)%fmap_Some_1. exists l. destruct (resolve_real _ _ _ _ real_dir_nil Hl) as [Hreal Hlen]. split_and!; [done|done|done|].
  unfold of_names. simpl comps. rewrite (resolve_canonical _ [] l); [done|done|simpl in Hlen; lia].
Qed.

Lemma tree_laws : @FileSystemLaws tree_fs.
Proof.
  split; simpl.
  - intros p q (l & -> & _ & [_ Hl] & _)%tree_canonical. apply clean_names. exists l. split; [done|]. destruct l as [|x l]; [by apply Forall_nil|].
    destruct Hl as [Hl|Hl]; [done|..]; by eapply names_valid.
  - intros p q (l & -> & _ & _ & Hl)%tree_canonical. unfold tree_canonicalize. by rewrite Hl.
  - intros p q (l & -> & Hp & _ & Hl)%tree_canonical. unfold tree_node. by rewrite Hp, Hl.
  - intros p. apply bool_decide_eq_true.
  - done.
  - intros d [= <-]. split; [done|]. by apply Forall_nil.
  - done.
Qed.

(** What comes first is resolved first. *)
Lemma resolve_app fuel at_ cs rest l :
  rest ≠ [] → resolve fuel at_ (cs ++ rest) = Some l → ∃ fuel' q, resolve fuel at_ cs = Some q ∧ resolve fuel' q rest = Some l.
Proof.
  intros Hrest. revert at_ cs. induction fuel as [|fuel IH]; intros at_ cs Hr; [done|]. destruct cs as [|[| |x] cs].
  - by exists (S fuel), at_.
  - apply IH in Hr as (f & q & Hq & Hl). by exists f, q.
  - apply IH in Hr as (f & q & Hq & Hl). by exists f, q.
  - simpl in Hr |- *. destruct (t !! (at_ ++ [x])) as [[| |p]|]; [| | |done].
    + apply IH in Hr as (f & q & Hq & Hl). by exists f, q.
    + rewrite decide_False in Hr by (intros [_ ?]%app_eq_nil; done). done.
    + rewrite app_assoc in Hr. apply IH in Hr as (f & q & Hq & Hl). by exists f, q.
Qed.

Lemma resolve_fun fuel fuel' at_ todo l l' : resolve fuel at_ todo = Some l → resolve fuel' at_ todo = Some l' → l = l'.
Proof.
  revert fuel' at_ todo. induction fuel as [|fuel IH]; intros [|fuel'] at_ todo H1 H2; [done..|]. simpl in H1, H2. destruct todo as [|[| |x] todo]; [congruence|eauto..|].
  destruct (t !! (at_ ++ [x])) as [[| |p]|]; [eauto| |eauto|done]. destruct (decide _); [eauto|done].
Qed.

Lemma tree_links_first : @links_first tree_fs.
Proof.
  intros cs q x target entry Hq Htarget Hentry. simpl in *. apply tree_canonical in Hq as (lq & -> & Hcs & Hreal & _).
  apply fmap_Some_1 in Htarget as (l1 & H1 & ->). apply fmap_Some_1 in Hentry as (l2 & H2 & ->). cbn [comps of_names] in H1, H2, Hcs. f_equal.
  apply resolve_app in H1 as (f1 & q1 & Hq1 & H1); [|done]. rewrite Hcs in Hq1. injection Hq1 as <-.
  assert (removelast (Normal <$> lq) = Normal <$> removelast lq) as Hrl.
  { destruct lq as [|y lq _] using rev_ind; [done|]. rewrite fmap_app. change (Normal <$> [y]) with [Normal y]. by rewrite !removelast_last. }
  rewrite Hrl in H2. apply resolve_app in H2 as (f2 & q2 & Hq2 & H2); [|done].
  destruct (resolve_real _ _ _ _ real_dir_nil Hcs) as [_ Hlen]. simpl in Hlen.
  rewrite (resolve_canonical _ [] (removelast lq)) in Hq2.
  - injection Hq2 as <-. destruct f1 as [|f1]; [done|]. exact (resolve_fun f1 f2 (removelast lq) [Normal x] l1 l2 H1 H2).
  - simpl. destruct lq as [|y lq _] using rev_ind; [done|]. rewrite removelast_last. destruct Hreal as [Hdirs _]. apply real_dir_real.
    intros a z b ->. apply (Hdirs a z (b ++ [y])); [by rewrite <- app_assoc|by destruct b].
  - assert (length (removelast lq) <= length lq)%nat; [|lia]. destruct lq as [|y lq _] using rev_ind; [done|]. rewrite removelast_last, length_app. lia.
Qed.
End tree.
