(* ===== verification/Config.v ===== *)
(** * Process configurations

    [DefaultProcessConfig] of [src/config.rs]: the capabilities and the ceilings of a process,
    what a child may be given ([validate_child_config]), what may be sent to another node
    ([validate_distributed_config]), and the locations of the file system a process may use.
    Theorems: [Attenuation]. *)

From S2P Require Import Prelude Paths.

(** ** Data *)

Definition DEFAULT_MAX_MAILBOX_MESSAGES : Z := 1024.
Definition DEFAULT_MAX_SIGNAL_QUEUE : Z := 1088.
Definition DEFAULT_MAX_MESSAGE_SIZE : Z := 1048576.
Definition DEFAULT_MAX_MESSAGE_RESOURCES : Z := 64.
Definition DEFAULT_MAX_MODULES : Z := 64.
Definition DEFAULT_MAX_CONFIGS : Z := 64.
Definition DEFAULT_MAX_MODULE_BYTES : Z := 16 * 1024 * 1024.
Definition DEFAULT_MAX_CONFIG_ENTRIES : Z := 256.
Definition DEFAULT_MAX_CONFIG_BYTES : Z := 1024 * 1024.
Definition DEFAULT_MAX_SQLITE_CONNECTIONS : Z := 64.
Definition DEFAULT_MAX_SQLITE_STATEMENTS : Z := 256.

Record DefaultProcessConfig : Type := mkConfig {
  max_memory : Z;
  max_fuel : option Z;
  can_compile_modules : bool;
  can_create_configs : bool;
  can_spawn_processes : bool;
  preopened_dirs : list (string * string);
  command_line_arguments : list string;
  environment_variables : list (string * string);
  max_table_elements : Z;
  max_file_descriptors : Z;
  max_network_connections : Z;
  max_mailbox_messages : Z;
  max_signal_queue : Z;
  max_message_size : Z;
  max_message_resources : Z;
  max_modules : Z;
  max_configs : Z;
  max_module_bytes : Z;
  max_config_entries : Z;
  max_config_bytes : Z;
  max_sqlite_connections : Z;
  max_sqlite_statements : Z;
  can_use_tls_credential_handles : bool;
}.

Definition default_config : DefaultProcessConfig :=
  mkConfig 10000000 None false false false [] [] [] 100000 1024 1024 DEFAULT_MAX_MAILBOX_MESSAGES DEFAULT_MAX_SIGNAL_QUEUE
    DEFAULT_MAX_MESSAGE_SIZE DEFAULT_MAX_MESSAGE_RESOURCES DEFAULT_MAX_MODULES DEFAULT_MAX_CONFIGS DEFAULT_MAX_MODULE_BYTES
    DEFAULT_MAX_CONFIG_ENTRIES DEFAULT_MAX_CONFIG_BYTES DEFAULT_MAX_SQLITE_CONNECTIONS DEFAULT_MAX_SQLITE_STATEMENTS false.

(** The setters. *)
Definition set_max_memory (x : Z) (c : DefaultProcessConfig) : DefaultProcessConfig :=
  mkConfig x (max_fuel c) (can_compile_modules c) (can_create_configs c) (can_spawn_processes c) (preopened_dirs c)
    (command_line_arguments c) (environment_variables c) (max_table_elements c) (max_file_descriptors c)
    (max_network_connections c) (max_mailbox_messages c) (max_signal_queue c) (max_message_size c)
    (max_message_resources c) (max_modules c) (max_configs c) (max_module_bytes c) (max_config_entries c)
    (max_config_bytes c) (max_sqlite_connections c) (max_sqlite_statements c) (can_use_tls_credential_handles c).

Definition set_max_fuel (x : option Z) (c : DefaultProcessConfig) : DefaultProcessConfig :=
  mkConfig (max_memory c) x (can_compile_modules c) (can_create_configs c) (can_spawn_processes c) (preopened_dirs
    c) (command_line_arguments c) (environment_variables c) (max_table_elements c) (max_file_descriptors c)
    (max_network_connections c) (max_mailbox_messages c) (max_signal_queue c) (max_message_size c)
    (max_message_resources c) (max_modules c) (max_configs c) (max_module_bytes c) (max_config_entries c)
    (max_config_bytes c) (max_sqlite_connections c) (max_sqlite_statements c) (can_use_tls_credential_handles c).

Definition set_can_compile_modules (x : bool) (c : DefaultProcessConfig) : DefaultProcessConfig :=
  mkConfig (max_memory c) (max_fuel c) x (can_create_configs c) (can_spawn_processes c) (preopened_dirs c)
    (command_line_arguments c) (environment_variables c) (max_table_elements c) (max_file_descriptors c)
    (max_network_connections c) (max_mailbox_messages c) (max_signal_queue c) (max_message_size c)
    (max_message_resources c) (max_modules c) (max_configs c) (max_module_bytes c) (max_config_entries c)
    (max_config_bytes c) (max_sqlite_connections c) (max_sqlite_statements c) (can_use_tls_credential_handles c).

Definition set_can_create_configs (x : bool) (c : DefaultProcessConfig) : DefaultProcessConfig :=
  mkConfig (max_memory c) (max_fuel c) (can_compile_modules c) x (can_spawn_processes c) (preopened_dirs c)
    (command_line_arguments c) (environment_variables c) (max_table_elements c) (max_file_descriptors c)
    (max_network_connections c) (max_mailbox_messages c) (max_signal_queue c) (max_message_size c)
    (max_message_resources c) (max_modules c) (max_configs c) (max_module_bytes c) (max_config_entries c)
    (max_config_bytes c) (max_sqlite_connections c) (max_sqlite_statements c) (can_use_tls_credential_handles c).

Definition set_can_spawn_processes (x : bool) (c : DefaultProcessConfig) : DefaultProcessConfig :=
  mkConfig (max_memory c) (max_fuel c) (can_compile_modules c) (can_create_configs c) x (preopened_dirs c)
    (command_line_arguments c) (environment_variables c) (max_table_elements c) (max_file_descriptors c)
    (max_network_connections c) (max_mailbox_messages c) (max_signal_queue c) (max_message_size c)
    (max_message_resources c) (max_modules c) (max_configs c) (max_module_bytes c) (max_config_entries c)
    (max_config_bytes c) (max_sqlite_connections c) (max_sqlite_statements c) (can_use_tls_credential_handles c).

Definition set_preopened_dirs (x : list (string * string)) (c : DefaultProcessConfig) : DefaultProcessConfig :=
  mkConfig (max_memory c) (max_fuel c) (can_compile_modules c) (can_create_configs c) (can_spawn_processes c) x
    (command_line_arguments c) (environment_variables c) (max_table_elements c) (max_file_descriptors c)
    (max_network_connections c) (max_mailbox_messages c) (max_signal_queue c) (max_message_size c)
    (max_message_resources c) (max_modules c) (max_configs c) (max_module_bytes c) (max_config_entries c)
    (max_config_bytes c) (max_sqlite_connections c) (max_sqlite_statements c) (can_use_tls_credential_handles c).

Definition set_command_line_arguments (x : list string) (c : DefaultProcessConfig) : DefaultProcessConfig :=
  mkConfig (max_memory c) (max_fuel c) (can_compile_modules c) (can_create_configs c) (can_spawn_processes c)
    (preopened_dirs c) x (environment_variables c) (max_table_elements c) (max_file_descriptors c)
    (max_network_connections c) (max_mailbox_messages c) (max_signal_queue c) (max_message_size c)
    (max_message_resources c) (max_modules c) (max_configs c) (max_module_bytes c) (max_config_entries c)
    (max_config_bytes c) (max_sqlite_connections c) (max_sqlite_statements c) (can_use_tls_credential_handles c).

Definition set_environment_variables (x : list (string * string)) (c : DefaultProcessConfig) : DefaultProcessConfig :=
  mkConfig (max_memory c) (max_fuel c) (can_compile_modules c) (can_create_configs c) (can_spawn_processes c)
    (preopened_dirs c) (command_line_arguments c) x (max_table_elements c) (max_file_descriptors c)
    (max_network_connections c) (max_mailbox_messages c) (max_signal_queue c) (max_message_size c)
    (max_message_resources c) (max_modules c) (max_configs c) (max_module_bytes c) (max_config_entries c)
    (max_config_bytes c) (max_sqlite_connections c) (max_sqlite_statements c) (can_use_tls_credential_handles c).

Definition set_max_table_elements (x : Z) (c : DefaultProcessConfig) : DefaultProcessConfig :=
  mkConfig (max_memory c) (max_fuel c) (can_compile_modules c) (can_create_configs c) (can_spawn_processes c)
    (preopened_dirs c) (command_line_arguments c) (environment_variables c) x (max_file_descriptors c)
    (max_network_connections c) (max_mailbox_messages c) (max_signal_queue c) (max_message_size c)
    (max_message_resources c) (max_modules c) (max_configs c) (max_module_bytes c) (max_config_entries c)
    (max_config_bytes c) (max_sqlite_connections c) (max_sqlite_statements c) (can_use_tls_credential_handles c).

Definition set_max_file_descriptors (x : Z) (c : DefaultProcessConfig) : DefaultProcessConfig :=
  mkConfig (max_memory c) (max_fuel c) (can_compile_modules c) (can_create_configs c) (can_spawn_processes c)
    (preopened_dirs c) (command_line_arguments c) (environment_variables c) (max_table_elements c) x
    (max_network_connections c) (max_mailbox_messages c) (max_signal_queue c) (max_message_size c)
    (max_message_resources c) (max_modules c) (max_configs c) (max_module_bytes c) (max_config_entries c)
    (max_config_bytes c) (max_sqlite_connections c) (max_sqlite_statements c) (can_use_tls_credential_handles c).

Definition set_max_network_connections (x : Z) (c : DefaultProcessConfig) : DefaultProcessConfig :=
  mkConfig (max_memory c) (max_fuel c) (can_compile_modules c) (can_create_configs c) (can_spawn_processes c)
    (preopened_dirs c) (command_line_arguments c) (environment_variables c) (max_table_elements c)
    (max_file_descriptors c) x (max_mailbox_messages c) (max_signal_queue c) (max_message_size c)
    (max_message_resources c) (max_modules c) (max_configs c) (max_module_bytes c) (max_config_entries c)
    (max_config_bytes c) (max_sqlite_connections c) (max_sqlite_statements c) (can_use_tls_credential_handles c).

Definition set_max_mailbox_messages (x : Z) (c : DefaultProcessConfig) : DefaultProcessConfig :=
  mkConfig (max_memory c) (max_fuel c) (can_compile_modules c) (can_create_configs c) (can_spawn_processes c)
    (preopened_dirs c) (command_line_arguments c) (environment_variables c) (max_table_elements c)
    (max_file_descriptors c) (max_network_connections c) x (max_signal_queue c) (max_message_size c)
    (max_message_resources c) (max_modules c) (max_configs c) (max_module_bytes c) (max_config_entries c)
    (max_config_bytes c) (max_sqlite_connections c) (max_sqlite_statements c) (can_use_tls_credential_handles c).

Definition set_max_signal_queue (x : Z) (c : DefaultProcessConfig) : DefaultProcessConfig :=
  mkConfig (max_memory c) (max_fuel c) (can_compile_modules c) (can_create_configs c) (can_spawn_processes c)
    (preopened_dirs c) (command_line_arguments c) (environment_variables c) (max_table_elements c)
    (max_file_descriptors c) (max_network_connections c) (max_mailbox_messages c) x (max_message_size c)
    (max_message_resources c) (max_modules c) (max_configs c) (max_module_bytes c) (max_config_entries c)
    (max_config_bytes c) (max_sqlite_connections c) (max_sqlite_statements c) (can_use_tls_credential_handles c).

Definition set_max_message_size (x : Z) (c : DefaultProcessConfig) : DefaultProcessConfig :=
  mkConfig (max_memory c) (max_fuel c) (can_compile_modules c) (can_create_configs c) (can_spawn_processes c)
    (preopened_dirs c) (command_line_arguments c) (environment_variables c) (max_table_elements c)
    (max_file_descriptors c) (max_network_connections c) (max_mailbox_messages c) (max_signal_queue c) x
    (max_message_resources c) (max_modules c) (max_configs c) (max_module_bytes c) (max_config_entries c)
    (max_config_bytes c) (max_sqlite_connections c) (max_sqlite_statements c) (can_use_tls_credential_handles c).

Definition set_max_message_resources (x : Z) (c : DefaultProcessConfig) : DefaultProcessConfig :=
  mkConfig (max_memory c) (max_fuel c) (can_compile_modules c) (can_create_configs c) (can_spawn_processes c)
    (preopened_dirs c) (command_line_arguments c) (environment_variables c) (max_table_elements c)
    (max_file_descriptors c) (max_network_connections c) (max_mailbox_messages c) (max_signal_queue c)
    (max_message_size c) x (max_modules c) (max_configs c) (max_module_bytes c) (max_config_entries c)
    (max_config_bytes c) (max_sqlite_connections c) (max_sqlite_statements c) (can_use_tls_credential_handles c).

Definition set_max_modules (x : Z) (c : DefaultProcessConfig) : DefaultProcessConfig :=
  mkConfig (max_memory c) (max_fuel c) (can_compile_modules c) (can_create_configs c) (can_spawn_processes c)
    (preopened_dirs c) (command_line_arguments c) (environment_variables c) (max_table_elements c)
    (max_file_descriptors c) (max_network_connections c) (max_mailbox_messages c) (max_signal_queue c)
    (max_message_size c) (max_message_resources c) x (max_configs c) (max_module_bytes c) (max_config_entries c)
    (max_config_bytes c) (max_sqlite_connections c) (max_sqlite_statements c) (can_use_tls_credential_handles c).

Definition set_max_configs (x : Z) (c : DefaultProcessConfig) : DefaultProcessConfig :=
  mkConfig (max_memory c) (max_fuel c) (can_compile_modules c) (can_create_configs c) (can_spawn_processes c)
    (preopened_dirs c) (command_line_arguments c) (environment_variables c) (max_table_elements c)
    (max_file_descriptors c) (max_network_connections c) (max_mailbox_messages c) (max_signal_queue c)
    (max_message_size c) (max_message_resources c) (max_modules c) x (max_module_bytes c) (max_config_entries c)
    (max_config_bytes c) (max_sqlite_connections c) (max_sqlite_statements c) (can_use_tls_credential_handles c).

Definition set_max_module_bytes (x : Z) (c : DefaultProcessConfig) : DefaultProcessConfig :=
  mkConfig (max_memory c) (max_fuel c) (can_compile_modules c) (can_create_configs c) (can_spawn_processes c)
    (preopened_dirs c) (command_line_arguments c) (environment_variables c) (max_table_elements c)
    (max_file_descriptors c) (max_network_connections c) (max_mailbox_messages c) (max_signal_queue c)
    (max_message_size c) (max_message_resources c) (max_modules c) (max_configs c) x (max_config_entries c)
    (max_config_bytes c) (max_sqlite_connections c) (max_sqlite_statements c) (can_use_tls_credential_handles c).

Definition set_max_config_entries (x : Z) (c : DefaultProcessConfig) : DefaultProcessConfig :=
  mkConfig (max_memory c) (max_fuel c) (can_compile_modules c) (can_create_configs c) (can_spawn_processes c)
    (preopened_dirs c) (command_line_arguments c) (environment_variables c) (max_table_elements c)
    (max_file_descriptors c) (max_network_connections c) (max_mailbox_messages c) (max_signal_queue c)
    (max_message_size c) (max_message_resources c) (max_modules c) (max_configs c) (max_module_bytes c) x
    (max_config_bytes c) (max_sqlite_connections c) (max_sqlite_statements c) (can_use_tls_credential_handles c).

Definition set_max_config_bytes (x : Z) (c : DefaultProcessConfig) : DefaultProcessConfig :=
  mkConfig (max_memory c) (max_fuel c) (can_compile_modules c) (can_create_configs c) (can_spawn_processes c)
    (preopened_dirs c) (command_line_arguments c) (environment_variables c) (max_table_elements c)
    (max_file_descriptors c) (max_network_connections c) (max_mailbox_messages c) (max_signal_queue c)
    (max_message_size c) (max_message_resources c) (max_modules c) (max_configs c) (max_module_bytes c)
    (max_config_entries c) x (max_sqlite_connections c) (max_sqlite_statements c) (can_use_tls_credential_handles
    c).

Definition set_max_sqlite_connections (x : Z) (c : DefaultProcessConfig) : DefaultProcessConfig :=
  mkConfig (max_memory c) (max_fuel c) (can_compile_modules c) (can_create_configs c) (can_spawn_processes c)
    (preopened_dirs c) (command_line_arguments c) (environment_variables c) (max_table_elements c)
    (max_file_descriptors c) (max_network_connections c) (max_mailbox_messages c) (max_signal_queue c)
    (max_message_size c) (max_message_resources c) (max_modules c) (max_configs c) (max_module_bytes c)
    (max_config_entries c) (max_config_bytes c) x (max_sqlite_statements c) (can_use_tls_credential_handles c).

Definition set_max_sqlite_statements (x : Z) (c : DefaultProcessConfig) : DefaultProcessConfig :=
  mkConfig (max_memory c) (max_fuel c) (can_compile_modules c) (can_create_configs c) (can_spawn_processes c)
    (preopened_dirs c) (command_line_arguments c) (environment_variables c) (max_table_elements c)
    (max_file_descriptors c) (max_network_connections c) (max_mailbox_messages c) (max_signal_queue c)
    (max_message_size c) (max_message_resources c) (max_modules c) (max_configs c) (max_module_bytes c)
    (max_config_entries c) (max_config_bytes c) (max_sqlite_connections c) x (can_use_tls_credential_handles c).

Definition set_can_use_tls_credential_handles (x : bool) (c : DefaultProcessConfig) : DefaultProcessConfig :=
  mkConfig (max_memory c) (max_fuel c) (can_compile_modules c) (can_create_configs c) (can_spawn_processes c)
    (preopened_dirs c) (command_line_arguments c) (environment_variables c) (max_table_elements c)
    (max_file_descriptors c) (max_network_connections c) (max_mailbox_messages c) (max_signal_queue c)
    (max_message_size c) (max_message_resources c) (max_modules c) (max_configs c) (max_module_bytes c)
    (max_config_entries c) (max_config_bytes c) (max_sqlite_connections c) (max_sqlite_statements c) x.

(** [new_child_config] *)
Definition new_child_config (c : DefaultProcessConfig) : DefaultProcessConfig :=
  mkConfig (max_memory c) (max_fuel c) false false false [] [] [] (max_table_elements c) (max_file_descriptors c)
    (max_network_connections c) (max_mailbox_messages c) (max_signal_queue c) (max_message_size c)
    (max_message_resources c) (max_modules c) (max_configs c) (max_module_bytes c) (max_config_entries c)
    (max_config_bytes c) (max_sqlite_connections c) (max_sqlite_statements c) false.

(** What the messages of refusals say. *)
Inductive ConfigError : Type :=
| MustBePositive (field : string)
| AccountingOverflow
| TooManyEntries
| TooManyBytes
| CapabilityExceeds (capability : string)
| CeilingExceeds (field : string)
| UnlimitedFuel
| PreopenUnresolved
| PreopenNotDirectory
| PreopenOutside
| PreopensNotPortable.

(** ** Retained values *)

Definition str_len (s : string) : Z := Z.of_nat (String.length s).
Definition vec_len {A} (l : list A) : Z := Z.of_nat (length l).

Definition checked_add_retained_bytes (current bytes : Z) : result Z ConfigError :=
  ok_or (checked_add u64_max current bytes) AccountingOverflow.

(** The loops over arguments, variables and directories. *)
Fixpoint add_strings (l : list string) (bytes : Z) : result Z ConfigError :=
  match l with
  | [] => Ok bytes
  | s :: l => let? bytes := checked_add_retained_bytes bytes (str_len s) in add_strings l bytes
  end.

Fixpoint add_pairs (l : list (string * string)) (bytes : Z) : result Z ConfigError :=
  match l with
  | [] => Ok bytes
  | (a, b) :: l =>
      let? bytes := checked_add_retained_bytes bytes (str_len a) in
      let? bytes := checked_add_retained_bytes bytes (str_len b) in
      add_pairs l bytes
  end.

Definition validate_retained_values_against (c ceiling : DefaultProcessConfig) : result unit ConfigError :=
  let? entries := ok_or (e ← checked_add u64_max (vec_len (command_line_arguments c)) (vec_len (environment_variables c));
                         checked_add u64_max e (vec_len (preopened_dirs c))) AccountingOverflow in
  let? _ := ensure (entries <=? max_config_entries ceiling) TooManyEntries in
  let? bytes := add_strings (command_line_arguments c) 0 in
  let? bytes := add_pairs (environment_variables c) bytes in
  let? bytes := add_pairs (preopened_dirs c) bytes in
  ensure (bytes <=? max_config_bytes ceiling) TooManyBytes.

Definition validate_retained_config_limits (c : DefaultProcessConfig) : result unit ConfigError :=
  validate_retained_values_against c c.

Definition validate_runtime_limits (c : DefaultProcessConfig) : result unit ConfigError :=
  let? _ := ensure (negb (max_mailbox_messages c =? 0)) (MustBePositive "max_mailbox_messages") in
  let? _ := ensure (negb (max_signal_queue c =? 0)) (MustBePositive "max_signal_queue") in
  let? _ := ensure (negb (max_message_size c =? 0)) (MustBePositive "max_message_size") in
  validate_retained_config_limits c.

(** ** What a child may have *)

Section filesystem.
Context `{!FileSystem}.

Definition can_delegate_preopen_dir (c : DefaultProcessConfig) (p : Path) : result unit ConfigError :=
  match canonicalize p with
  | None => Err PreopenUnresolved
  | Some requested =>
      if negb (is_dir requested) then Err PreopenNotDirectory
      else
        let allowed (d : string * string) :=
          match canonicalize (path_new d.2) with
          | Some parent => is_dir parent && path_is_ancestor parent requested
          | None => false
          end in
        ensure (existsb allowed (preopened_dirs c)) PreopenOutside
  end.

Fixpoint delegate_all (c : DefaultProcessConfig) (dirs : list (string * string)) : result unit ConfigError :=
  match dirs with
  | [] => Ok tt
  | d :: dirs => let? _ := can_delegate_preopen_dir c (path_new d.2) in delegate_all c dirs
  end.

Definition check_capability (self child : bool) (what : string) : result unit ConfigError :=
  ensure (negb (child && negb self)) (CapabilityExceeds what).

Definition check_ceiling (self child : Z) (what : string) : result unit ConfigError :=
  ensure (child <=? self) (CeilingExceeds what).

Definition check_fuel (self child : option Z) : result unit ConfigError :=
  match self, child with
  | Some self, Some child => ensure (child <=? self) (CeilingExceeds "max_fuel")
  | Some _, None => Err UnlimitedFuel
  | None, _ => Ok tt
  end.

Definition validate_child_config (self child : DefaultProcessConfig) : result unit ConfigError :=
  let? _ := validate_runtime_limits child in
  let? _ := check_capability (can_compile_modules self) (can_compile_modules child) "compile-module" in
  let? _ := check_capability (can_create_configs self) (can_create_configs child) "create-config" in
  let? _ := check_capability (can_spawn_processes self) (can_spawn_processes child) "spawn" in
  let? _ := check_capability (can_use_tls_credential_handles self) (can_use_tls_credential_handles child) "TLS credential-handle" in
  let? _ := check_ceiling (max_memory self) (max_memory child) "max_memory" in
  let? _ := check_fuel (max_fuel self) (max_fuel child) in
  let? _ := check_ceiling (max_table_elements self) (max_table_elements child) "max_table_elements" in
  let? _ := check_ceiling (max_file_descriptors self) (max_file_descriptors child) "max_file_descriptors" in
  let? _ := check_ceiling (max_network_connections self) (max_network_connections child) "max_network_connections" in
  let? _ := check_ceiling (max_mailbox_messages self) (max_mailbox_messages child) "max_mailbox_messages" in
  let? _ := check_ceiling (max_signal_queue self) (max_signal_queue child) "max_signal_queue" in
  let? _ := check_ceiling (max_message_size self) (max_message_size child) "max_message_size" in
  let? _ := check_ceiling (max_message_resources self) (max_message_resources child) "max_message_resources" in
  let? _ := check_ceiling (max_modules self) (max_modules child) "max_modules" in
  let? _ := check_ceiling (max_configs self) (max_configs child) "max_configs" in
  let? _ := check_ceiling (max_module_bytes self) (max_module_bytes child) "max_module_bytes" in
  let? _ := check_ceiling (max_config_entries self) (max_config_entries child) "max_config_entries" in
  let? _ := check_ceiling (max_config_bytes self) (max_config_bytes child) "max_config_bytes" in
  let? _ := check_ceiling (max_sqlite_connections self) (max_sqlite_connections child) "max_sqlite_connections" in
  let? _ := check_ceiling (max_sqlite_statements self) (max_sqlite_statements child) "max_sqlite_statements" in
  delegate_all self (preopened_dirs child).

(** ** What may be sent to another node *)

Definition validate_distributed_config (self : DefaultProcessConfig) : result unit ConfigError :=
  let? _ := validate_runtime_limits self in
  let receiver_ceiling := default_config in
  let? _ := check_capability (can_compile_modules receiver_ceiling) (can_compile_modules self) "compile-module" in
  let? _ := check_capability (can_create_configs receiver_ceiling) (can_create_configs self) "create-config" in
  let? _ := check_capability (can_spawn_processes receiver_ceiling) (can_spawn_processes self) "spawn" in
  let? _ := check_capability (can_use_tls_credential_handles receiver_ceiling) (can_use_tls_credential_handles self) "TLS credential-handle" in
  let? _ := check_ceiling (max_memory receiver_ceiling) (max_memory self) "max_memory" in
  let? _ := check_ceiling (max_table_elements receiver_ceiling) (max_table_elements self) "max_table_elements" in
  let? _ := check_ceiling (max_file_descriptors receiver_ceiling) (max_file_descriptors self) "max_file_descriptors" in
  let? _ := check_ceiling (max_network_connections receiver_ceiling) (max_network_connections self) "max_network_connections" in
  let? _ := check_ceiling (max_mailbox_messages receiver_ceiling) (max_mailbox_messages self) "max_mailbox_messages" in
  let? _ := check_ceiling (max_signal_queue receiver_ceiling) (max_signal_queue self) "max_signal_queue" in
  let? _ := check_ceiling (max_message_size receiver_ceiling) (max_message_size self) "max_message_size" in
  let? _ := check_ceiling (max_message_resources receiver_ceiling) (max_message_resources self) "max_message_resources" in
  let? _ := check_ceiling (max_modules receiver_ceiling) (max_modules self) "max_modules" in
  let? _ := check_ceiling (max_configs receiver_ceiling) (max_configs self) "max_configs" in
  let? _ := check_ceiling (max_module_bytes receiver_ceiling) (max_module_bytes self) "max_module_bytes" in
  let? _ := check_ceiling (max_config_entries receiver_ceiling) (max_config_entries self) "max_config_entries" in
  let? _ := check_ceiling (max_config_bytes receiver_ceiling) (max_config_bytes self) "max_config_bytes" in
  let? _ := check_ceiling (max_sqlite_connections receiver_ceiling) (max_sqlite_connections self) "max_sqlite_connections" in
  let? _ := check_ceiling (max_sqlite_statements receiver_ceiling) (max_sqlite_statements self) "max_sqlite_statements" in
  ensure (bool_decide (preopened_dirs self = [])) PreopensNotPortable.

(** ** [LunaticWasiConfigCtx] and the file system *)

Definition add_environment_variable (key value : string) (c : DefaultProcessConfig) : DefaultProcessConfig :=
  set_environment_variables (environment_variables c ++ [(key, value)]) c.

Definition add_command_line_argument (argument : string) (c : DefaultProcessConfig) : DefaultProcessConfig :=
  set_command_line_arguments (command_line_arguments c ++ [argument]) c.

(** A directory that cannot be resolved is kept as it was given. *)
Definition add_preopened_dir (dir : string) (c : DefaultProcessConfig) : DefaultProcessConfig :=
  let path := if decide (dir = "~") then default dir home_dir else dir in
  let resolved_path := match get_absolute_path (path_new path) with Ok p => path_str p | Err _ => path end in
  set_preopened_dirs (preopened_dirs c ++ [(dir, resolved_path)]) c.

Definition can_access_fs_location (c : DefaultProcessConfig) (p : Path) : bool :=
  match strip_file p with
  | Err _ => false
  | Ok (_, parent_dir) =>
      let allows (d : string * string) :=
        match get_absolute_path (path_new d.2) with
        | Ok dir => path_exists dir && path_is_ancestor dir parent_dir
        | Err _ => false
        end in
      existsb allows (preopened_dirs c)
  end.
End filesystem.
