(* ===== verification/HostConfig.v ===== *)
(** * Host functions for configurations, modules, errors and spawning

    The functions of [lunatic-process-api], [lunatic-wasi-api], [lunatic-error-api] and
    [lunatic-messaging-api] by which a guest makes and changes configurations, gets modules,
    drops errors and spawns processes: all the functions that change the configurations and the
    modules of a process, or make a process on this node.  Each is a step of the state of a
    guest that ends in a value, a trap of the guest or a panic of the host.
    Theorems: [Attenuation]. *)

From S2P Require Import Prelude HashMapId Paths Config.
From Stdlib Require Import Ascii.

(** ** Data *)

Definition MAX_ERROR_RESOURCES : Z := 1024.

Inductive GuestError : Type :=
| ErrorResourceLimitReached
| Denied (e : ConfigError)
| Message (s : string).

Inductive WasmVal : Type := I32 (x : Z) | I64 (x : Z) | V128 (x : Z).

(** [as i32], [as i64], [as u64] *)
Definition wrap_signed (bits x : Z) : Z :=
  let x := x mod 2 ^ bits in if x <? 2 ^ (bits - 1) then x else x - 2 ^ bits.
Definition to_i64 (x : Z) : Z := wrap_signed 64 x.
Definition to_u64 (x : Z) : Z := x mod 2 ^ 64.

(** [to_le_bytes] of a [u64] and [u128::from_le_bytes] *)
Definition to_le_bytes (x : Z) : list Z := (fun i => (x / 2 ^ (8 * i)) mod 256) <$> seqZ 0 8.
Fixpoint from_le_bytes (l : list Z) : Z := match l with [] => 0 | b :: l => b + 256 * from_le_bytes l end.

(** [str::from_utf8] *)
Definition cont (b : Z) : bool := (0x80 <=? b) && (b <=? 0xBF).
Definition between (lo b hi : Z) : bool := (lo <=? b) && (b <=? hi).
Fixpoint utf8 (l : list Z) : bool :=
  match l with
  | [] => true
  | a :: r =>
      if between 0 a 0x7F then utf8 r
      else match r with
           | b :: r =>
               if between 0xC2 a 0xDF then cont b && utf8 r
               else match r with
                    | c :: r =>
                        if between 0xE0 a 0xEF
                        then (if a =? 0xE0 then between 0xA0 b 0xBF else if a =? 0xED then between 0x80 b 0x9F else cont b) && cont c && utf8 r
                        else match r with
                             | d :: r =>
                                 between 0xF0 a 0xF4 &&
                                 (if a =? 0xF0 then between 0x90 b 0xBF else if a =? 0xF4 then between 0x80 b 0x8F else cont b) &&
                                 cont c && cont d && utf8 r
                             | [] => false
                             end
                    | [] => false
                    end
           | [] => false
           end
  end.
Definition from_utf8 (l : list Z) : option string :=
  if utf8 l then Some (String.string_of_list_ascii ((fun b => Ascii.ascii_of_N (Z.to_N b)) <$> l)) else None.

(** [name.chars().any(char::is_control)] of the UTF-8 text: U+0000 to U+001F and U+007F to U+009F. *)
Fixpoint has_control (l : list Z) : bool :=
  match l with
  | [] => false
  | a :: r => (a <=? 0x1F) || (a =? 0x7F) || match r with b :: _ => (a =? 0xC2) && between 0x80 b 0x9F | [] => false end || has_control r
  end.

(** [DEFAULT_MAX_PROCESSES] *)
Definition MAX_REGISTRY_ENTRIES : Z := 100000.
Definition MAX_REGISTRY_NAME_BYTES : Z := 1024.

Section host.
Context `{!FileSystem} {Module : Type}.
(** Whether the build has overflow checks; the compiler of the runtime; whether the WASI
    context of a configuration can be built. *)
Context (overflow_checks : bool) (compile : list Z → option Module) (build_wasi : DefaultProcessConfig → bool).

(** The part of the state of a process that these functions use. *)
Record Guest : Type := mkGuest {
  config : DefaultProcessConfig;
  config_resources : HashMapId DefaultProcessConfig;
  module_resources : HashMapId Module;
  error_resources : HashMapId GuestError;
  own_module : Module;
  memory : option (list Z);
  initialized : bool;
}.

Definition with_configs (t : HashMapId DefaultProcessConfig) (s : Guest) : Guest :=
  mkGuest (config s) t (module_resources s) (error_resources s) (own_module s) (memory s) (initialized s).
Definition with_modules (t : HashMapId Module) (s : Guest) : Guest :=
  mkGuest (config s) (config_resources s) t (error_resources s) (own_module s) (memory s) (initialized s).
Definition with_errors (t : HashMapId GuestError) (s : Guest) : Guest :=
  mkGuest (config s) (config_resources s) (module_resources s) t (own_module s) (memory s) (initialized s).
Definition with_memory (m : list Z) (s : Guest) : Guest :=
  mkGuest (config s) (config_resources s) (module_resources s) (error_resources s) (own_module s) (Some m) (initialized s).

Inductive outcome (A : Type) : Type :=
| Done (a : A) (s : Guest)
| Trapped (s : Guest)
| HostPanic.
#[local] Arguments Done {A}.
#[local] Arguments Trapped {A}.
#[local] Arguments HostPanic {A}.

Definition host (A : Type) : Type := Guest → outcome A.
Definition ret {A} (a : A) : host A := fun s => Done a s.
Definition trap {A} : host A := fun s => Trapped s.
Definition bind {A B} (m : host A) (f : A → host B) : host B := fun s =>
  match m s with Done a s => f a s | Trapped s => Trapped s | HostPanic => HostPanic end.
Definition get_state : host Guest := fun s => Done s s.
Definition modify (f : Guest → Guest) : host unit := fun s => Done tt (f s).
#[local] Notation "'let!' x ':=' e 'in' k" := (bind e (fun x => k)) (at level 10, x name, e at level 200, k at level 200).

Definition or_trap {A} (o : option A) : host A := match o with Some a => ret a | None => trap end.

(** [HashMapId::add] *)
Definition table_add {T} (x : T) (t : HashMapId T) (put : HashMapId T → Guest → Guest) : host Z := fun s =>
  match HashMapId.add overflow_checks x t with
  | Returned id t => Done id (put t s)
  | Panicked _ => HostPanic
  end.

(** ** Memory *)

Definition get_memory : host (list Z) := let! s := get_state in or_trap (memory s).

(** [slice.get(start..end)] *)
Definition slice (m : list Z) (start stop : Z) : option (list Z) :=
  if (start <=? stop) && (stop <=? vec_len m) then Some (take (Z.to_nat (stop - start)) (drop (Z.to_nat start) m)) else None.
(** [Memory::write] *)
Definition mem_write (m : list Z) (ptr : Z) (bytes : list Z) : option (list Z) :=
  if ptr + vec_len bytes <=? vec_len m
  then Some (take (Z.to_nat ptr) m ++ bytes ++ drop (Z.to_nat ptr + length bytes) m) else None.
Definition write (ptr : Z) (bytes : list Z) : host bool :=
  let! m := get_memory in
  match mem_write m ptr bytes with
  | Some m => let! _ := modify (with_memory m) in ret true
  | None => ret false
  end.

(** [checked_guest_memory_range], [checked_guest_range] *)
Definition checked_guest_memory_range (memory_len pointer len : Z) : option (Z * Z) :=
  stop ← checked_add u32_max pointer len;
  if stop <=? memory_len then Some (pointer, stop) else None.

Definition checked_guest_range (pointer len : Z) : option (Z * Z) :=
  stop ← checked_add u32_max pointer len; Some (pointer, stop).

Definition read_str (ptr len : Z) : host string :=
  let! m := get_memory in
  let! r := or_trap (checked_guest_range ptr len) in
  let! bytes := or_trap (slice m r.1 r.2) in
  or_trap (from_utf8 bytes).

(** ** [lunatic-error-api] *)

Definition is_limit_error (e : GuestError) : bool := match e with ErrorResourceLimitReached => true | _ => false end.

Definition limit_error_id (t : HashMapId GuestError) : option Z :=
  match list_find (fun e => is_limit_error e.2 = true) (map_to_list (store t)) with
  | Some (_, (id, _)) => Some id
  | None => None
  end.

Definition add_error_resource (e : GuestError) : host Z :=
  let! s := get_state in
  let resources := error_resources s in
  let n := Z.of_nat (HashMapId.len resources) in
  match limit_error_id resources with
  | Some id => if MAX_ERROR_RESOURCES <=? n then ret id else table_add e resources with_errors
  | None =>
      if MAX_ERROR_RESOURCES - 1 <=? n then table_add ErrorResourceLimitReached resources with_errors
      else table_add e resources with_errors
  end.

Definition release_error_resource (id : Z) : host bool :=
  let! s := get_state in
  match HashMapId.get id (error_resources s) with
  | Some e =>
      if is_limit_error e then ret true
      else let! _ := modify (with_errors (HashMapId.remove id (error_resources s)).2) in ret true
  | None => ret false
  end.

(** [lunatic::error::drop] *)
Definition error_drop (id : Z) : host unit :=
  let! released := release_error_resource id in if released then ret tt else trap.

(** ** Modules *)

Definition drop_module (id : Z) : host unit :=
  let! s := get_state in
  let '(m, t) := HashMapId.remove id (module_resources s) in
  let! _ := or_trap m in modify (with_modules t).

(** An error is kept and its number written; an error that cannot be written is dropped. *)
Definition return_error (ptr : Z) (e : GuestError) : host Z :=
  let! s := get_state in
  let previous := HashMapId.len (error_resources s) in
  let! id := add_error_resource e in
  let! ok := write ptr (to_le_bytes id) in
  if ok then ret 1
  else
    let! s := get_state in
    let! _ := (if (previous <? HashMapId.len (error_resources s))%nat
               then modify (with_errors (HashMapId.remove id (error_resources s)).2) else ret tt) in
    trap.

Definition compile_module (ptr len id_ptr : Z) : host Z :=
  let! s := get_state in
  if negb (can_compile_modules (config s)) then ret (-1)
  else
    let! m := get_memory in
    let! output := or_trap (checked_guest_memory_range (vec_len m) id_ptr 8) in
    let! input := or_trap (checked_guest_memory_range (vec_len m) ptr len) in
    if max_module_bytes (config s) <? len then return_error output.1 (Message "module input size exceeds max_module_bytes")
    else if max_modules (config s) <=? Z.of_nat (HashMapId.len (module_resources s))
    then return_error output.1 (Message "module handle limit reached")
    else
      let! source := or_trap (slice m input.1 input.2) in
      match compile source with
      | None => return_error output.1 (Message "compile error")
      | Some x =>
          let! id := table_add x (module_resources s) with_modules in
          let! ok := write output.1 (to_le_bytes id) in
          if ok then ret 0
          else
            let! s := get_state in
            let! _ := modify (with_modules (HashMapId.remove id (module_resources s)).2) in trap
      end.

(** [lunatic::message::take_module]; [taken]: the module that the data message in the scratch
    area gives for the index, when there is a message and the resource is a module. *)
Definition take_module (taken : option Module) : host Z :=
  let! s := get_state in
  if max_modules (config s) <=? Z.of_nat (HashMapId.len (module_resources s)) then trap
  else let! m := or_trap taken in table_add m (module_resources s) with_modules.

(** ** Configurations *)

Definition create_config : host Z :=
  let! s := get_state in
  if negb (can_create_configs (config s)) then ret (-1)
  else if max_configs (config s) <=? Z.of_nat (HashMapId.len (config_resources s)) then ret (-1)
  else
    let! id := table_add (new_child_config (config s)) (config_resources s) with_configs in ret (to_i64 id).

Definition drop_config (id : Z) : host unit :=
  let! s := get_state in
  let '(c, t) := HashMapId.remove id (config_resources s) in
  let! _ := or_trap c in modify (with_configs t).

(** A changed copy replaces the configuration when the process may delegate it. *)
Definition mutate_child_config (config_id : Z) (mutate : DefaultProcessConfig → DefaultProcessConfig) : host (result unit GuestError) :=
  let! s := get_state in
  match HashMapId.get config_id (config_resources s) with
  | None => ret (Err (Message "Config ID doesn't exist"))
  | Some c =>
      match validate_child_config (config s) (mutate c) with
      | Err e => ret (Err (Denied e))
      | Ok _ =>
          let! _ := modify (with_configs (HashMapId.get_mut (fun _ => mutate c) config_id (config_resources s))) in ret (Ok tt)
      end
  end.

(** *** [config_set_checked] *)

Definition config_set_checked (config_id setting value : Z) : host Z :=
  let mutate f := mutate_child_config config_id f in
  let mutate_u32 (f : Z → DefaultProcessConfig → DefaultProcessConfig) :=
    if value <=? u32_max then mutate (f value) else ret (Err (Message "exceeds u32")) in
  let! r := (
    match setting with
    | 0 => mutate (set_max_memory value)
    | 1 => mutate (set_max_fuel (if value =? 0 then None else Some value))
    | 2 => mutate_u32 set_max_table_elements
    | 3 => mutate_u32 set_max_file_descriptors
    | 4 => mutate_u32 set_max_network_connections
    | 5 => mutate (set_can_compile_modules (negb (value =? 0)))
    | 6 => mutate (set_can_create_configs (negb (value =? 0)))
    | 7 => mutate (set_can_spawn_processes (negb (value =? 0)))
    | 8 => mutate_u32 set_max_mailbox_messages
    | 9 => mutate_u32 set_max_signal_queue
    | 10 => mutate (set_max_message_size value)
    | 11 => mutate_u32 set_max_message_resources
    | 12 => mutate_u32 set_max_modules
    | 13 => mutate_u32 set_max_configs
    | 14 => mutate (set_max_module_bytes value)
    | 15 => mutate_u32 set_max_config_entries
    | 16 => mutate (set_max_config_bytes value)
    | 17 => mutate_u32 set_max_sqlite_connections
    | 18 => mutate_u32 set_max_sqlite_statements
    | 19 => mutate (set_can_use_tls_credential_handles (negb (value =? 0)))
    | _ => ret (Err (Message "unknown config setting ID"))
    end) in
  match r with
  | Ok _ => ret (-1)
  | Err e => let! id := add_error_resource e in ret (to_i64 id)
  end.

(** *** The older setters, which say nothing of a refusal *)

Definition set_quietly (config_id : Z) (f : DefaultProcessConfig → DefaultProcessConfig) : host unit :=
  let! _ := mutate_child_config config_id f in ret tt.

Definition config_set_max_memory (config_id x : Z) : host unit := set_quietly config_id (set_max_memory x).
Definition config_set_max_fuel (config_id x : Z) : host unit := set_quietly config_id (set_max_fuel (if x =? 0 then None else Some x)).
Definition config_set_max_table_elements (config_id x : Z) : host unit := set_quietly config_id (set_max_table_elements x).
Definition config_set_max_file_descriptors (config_id x : Z) : host unit := set_quietly config_id (set_max_file_descriptors x).
Definition config_set_max_network_connections (config_id x : Z) : host unit := set_quietly config_id (set_max_network_connections x).
Definition config_set_can_compile_modules (config_id x : Z) : host unit := set_quietly config_id (set_can_compile_modules (negb (x =? 0))).
Definition config_set_can_create_configs (config_id x : Z) : host unit := set_quietly config_id (set_can_create_configs (negb (x =? 0))).
Definition config_set_can_spawn_processes (config_id x : Z) : host unit := set_quietly config_id (set_can_spawn_processes (negb (x =? 0))).
Definition config_set_max_mailbox_messages (config_id x : Z) : host unit := set_quietly config_id (set_max_mailbox_messages x).
Definition config_set_max_signal_queue (config_id x : Z) : host unit := set_quietly config_id (set_max_signal_queue x).
Definition config_set_max_message_size (config_id x : Z) : host unit := set_quietly config_id (set_max_message_size x).
Definition config_set_max_message_resources (config_id x : Z) : host unit := set_quietly config_id (set_max_message_resources x).
Definition config_set_max_modules (config_id x : Z) : host unit := set_quietly config_id (set_max_modules x).
Definition config_set_max_configs (config_id x : Z) : host unit := set_quietly config_id (set_max_configs x).
Definition config_set_max_module_bytes (config_id x : Z) : host unit := set_quietly config_id (set_max_module_bytes x).
Definition config_set_max_config_entries (config_id x : Z) : host unit := set_quietly config_id (set_max_config_entries x).
Definition config_set_max_config_bytes (config_id x : Z) : host unit := set_quietly config_id (set_max_config_bytes x).
Definition config_set_max_sqlite_connections (config_id x : Z) : host unit := set_quietly config_id (set_max_sqlite_connections x).
Definition config_set_max_sqlite_statements (config_id x : Z) : host unit := set_quietly config_id (set_max_sqlite_statements x).
Definition config_set_can_use_tls_credential_handles (config_id x : Z) : host unit := set_quietly config_id (set_can_use_tls_credential_handles (negb (x =? 0))).

(** *** The getters, which trap when there is no such configuration *)

Definition config_get {A} (f : DefaultProcessConfig → A) (config_id : Z) : host A :=
  let! s := get_state in or_trap (f <$> HashMapId.get config_id (config_resources s)).

Definition config_get_max_memory (config_id : Z) : host Z := config_get max_memory config_id.
Definition config_get_max_fuel (config_id : Z) : host Z := config_get (fun c => default 0 (max_fuel c)) config_id.
Definition config_get_max_table_elements (config_id : Z) : host Z := config_get max_table_elements config_id.
Definition config_get_max_file_descriptors (config_id : Z) : host Z := config_get max_file_descriptors config_id.
Definition config_get_max_network_connections (config_id : Z) : host Z := config_get max_network_connections config_id.
Definition config_can_compile_modules (config_id : Z) : host Z := config_get (fun c => if can_compile_modules c then 1 else 0) config_id.
Definition config_can_create_configs (config_id : Z) : host Z := config_get (fun c => if can_create_configs c then 1 else 0) config_id.
Definition config_can_spawn_processes (config_id : Z) : host Z := config_get (fun c => if can_spawn_processes c then 1 else 0) config_id.
Definition config_get_max_mailbox_messages (config_id : Z) : host Z := config_get max_mailbox_messages config_id.
Definition config_get_max_signal_queue (config_id : Z) : host Z := config_get max_signal_queue config_id.
Definition config_get_max_message_size (config_id : Z) : host Z := config_get max_message_size config_id.
Definition config_get_max_message_resources (config_id : Z) : host Z := config_get max_message_resources config_id.
Definition config_get_max_modules (config_id : Z) : host Z := config_get max_modules config_id.
Definition config_get_max_configs (config_id : Z) : host Z := config_get max_configs config_id.
Definition config_get_max_module_bytes (config_id : Z) : host Z := config_get max_module_bytes config_id.
Definition config_get_max_config_entries (config_id : Z) : host Z := config_get max_config_entries config_id.
Definition config_get_max_config_bytes (config_id : Z) : host Z := config_get max_config_bytes config_id.
Definition config_get_max_sqlite_connections (config_id : Z) : host Z := config_get max_sqlite_connections config_id.
Definition config_get_max_sqlite_statements (config_id : Z) : host Z := config_get max_sqlite_statements config_id.
Definition config_can_use_tls_credential_handles (config_id : Z) : host Z := config_get (fun c => if can_use_tls_credential_handles c then 1 else 0) config_id.

(** *** [lunatic-wasi-api] *)

(** The error is a trap. *)
Definition mutate_or_trap (config_id : Z) (f : DefaultProcessConfig → DefaultProcessConfig) : host unit :=
  let! r := mutate_child_config config_id f in
  match r with Ok _ => ret tt | Err _ => trap end.

Definition config_add_environment_variable (config_id key_ptr key_len value_ptr value_len : Z) : host unit :=
  let! key := read_str key_ptr key_len in
  let! value := read_str value_ptr value_len in
  mutate_or_trap config_id (add_environment_variable key value).

Definition config_add_command_line_argument (config_id ptr len : Z) : host unit :=
  let! argument := read_str ptr len in
  mutate_or_trap config_id (add_command_line_argument argument).

(** What would be a trap elsewhere is an error here. *)
Definition preopen_dir_impl (config_id ptr len : Z) : host (result unit GuestError) := fun s =>
  match read_str ptr len s with
  | Done dir s => mutate_child_config config_id (add_preopened_dir dir) s
  | Trapped s => Done (Err (Message "lunatic::wasi::preopen_dir")) s
  | HostPanic => HostPanic
  end.

Definition config_preopen_dir (config_id ptr len : Z) : host unit :=
  let! _ := preopen_dir_impl config_id ptr len in ret tt.

Definition config_preopen_dir_checked (config_id ptr len : Z) : host Z :=
  let! r := preopen_dir_impl config_id ptr len in
  match r with
  | Ok _ => ret (-1)
  | Err e => let! id := add_error_resource e in ret (to_i64 id)
  end.

(** ** Spawning *)

(** [return_process_error] *)
Definition return_process_error (id_ptr : Z) (e : GuestError) : host Z :=
  let! id := add_error_resource e in
  let! ok := write id_ptr (to_le_bytes id) in
  if ok then ret 1 else trap.

(** [new_state]: the state of a child. *)
Definition new_state (s : Guest) (m : Module) (c : DefaultProcessConfig) : result Guest GuestError :=
  match validate_child_config (config s) c with
  | Err e => Err (Denied e)
  | Ok _ =>
      if build_wasi c then Ok (mkGuest c HashMapId.new HashMapId.new HashMapId.new m None false) else Err (Message "wasi")
  end.

(** A range of which the end is computed without a check. *)
Definition read_unchecked (ptr len : Z) : host (list Z) :=
  let! m := get_memory in
  match overflowing_add overflow_checks u32_max ptr len with
  | None => fun _ => HostPanic
  | Some stop => or_trap (slice m ptr stop)
  end.

(** Chunks of 17 bytes; a rest is an error. *)
Fixpoint decode_params (fuel : nat) (l : list Z) : option (list WasmVal) :=
  match fuel with
  | O => None
  | S fuel =>
      match l with
      | [] => Some []
      | t :: l =>
          if (length l <? 16)%nat then None
          else
            let v := from_le_bytes (take 16 l) in
            x ← (if t =? 0x7F then Some (I32 (wrap_signed 32 v)) else if t =? 0x7E then Some (I64 (wrap_signed 64 v))
                 else if t =? 0x7B then Some (V128 v) else None);
            xs ← decode_params fuel (drop 16 l); Some (x :: xs)
      end
  end.

(** What [spawn_wasm] is given. *)
Record SpawnRequest : Type := mkSpawnRequest {
  sr_state : Guest;
  sr_function : string;
  sr_params : list WasmVal;
  sr_link : option Z;
}.

(** The configuration of the child: the own one, or one that may be delegated. *)
Definition select_config (config_id : Z) : host (result DefaultProcessConfig GuestError) :=
  let! s := get_state in
  if config_id =? -1 then ret (Ok (config s))
  else
    let! c := or_trap (HashMapId.get (to_u64 config_id) (config_resources s)) in
    match validate_child_config (config s) c with
    | Ok _ => ret (Ok c)
    | Err e => ret (Err (Denied e))
    end.

Definition select_module (module_id : Z) : host Module :=
  let! s := get_state in
  if module_id =? -1 then ret (own_module s) else or_trap (HashMapId.get (to_u64 module_id) (module_resources s)).

(** Up to the call of [spawn_wasm]: a code that is returned, or the request. *)
Definition spawn_prepare (link config_id module_id func_ptr func_len params_ptr params_len id_ptr : Z) : host (Z + SpawnRequest) :=
  let fail e := (let! code := return_process_error id_ptr e in ret (inl code)) in
  let! s := get_state in
  if negb (can_spawn_processes (config s)) then fail (Message "Process doesn't have permissions to spawn sub-processes")
  else if negb (initialized s) then fail (Message "Cannot spawn process during module initialization")
  else
    let! c := select_config config_id in
    match c with
    | Err e => fail e
    | Ok c =>
        let! m := select_module module_id in
        match new_state s m c with
        | Err e => fail e
        | Ok child =>
            let! func := read_unchecked func_ptr func_len in
            let! function := or_trap (from_utf8 func) in
            let! params := read_unchecked params_ptr params_len in
            let! params := or_trap (decode_params (S (length params)) params) in
            ret (inr (mkSpawnRequest child function params (if link =? 0 then None else Some link)))
        end
    end.

Definition write_or_trap (code id_ptr id : Z) : host Z :=
  let! ok := write id_ptr (to_le_bytes id) in if ok then ret code else trap.

(** [spawned] is the answer of [spawn_wasm]; the child runs even when its identity cannot be
    written. *)
Definition spawn (spawned : result Z string) (link config_id module_id func_ptr func_len params_ptr params_len id_ptr : Z) (s : Guest)
    : outcome Z * option (Z * SpawnRequest) :=
  match spawn_prepare link config_id module_id func_ptr func_len params_ptr params_len id_ptr s with
  | Done (inl code) s => (Done code s, None)
  | Done (inr request) s =>
      match spawned with
      | Ok pid => (write_or_trap 0 id_ptr pid s, Some (pid, request))
      | Err e => ((let! id := add_error_resource (Message e) in write_or_trap 1 id_ptr id) s, None)
      end
  | Trapped s => (Trapped s, None)
  | HostPanic => (HostPanic, None)
  end.

(** *** [get_or_spawn] *)

(** The registry of names, which is locked for the whole call, the number of this node, and
    the processes of the environment. *)
Record Names : Type := mkNames {
  registry : gmap (list Z) (Z * Z);
  own_node : Z;
  alive : Z → bool;
}.

Definition ensure_registry_insert_capacity (registry : gmap (list Z) (Z * Z)) (name : list Z) : result unit GuestError :=
  if has_control name then Err (Message "Registry names cannot contain control characters")
  else if MAX_REGISTRY_NAME_BYTES <? vec_len name then Err (Message "Registry name is too long")
  else if bool_decide (is_Some (registry !! name)) || (Z.of_nat (size registry) <? MAX_REGISTRY_ENTRIES) then Ok tt
  else Err (Message "Registry capacity reached").

(** The entry of a process of this node that is gone is stale. *)
Definition stale (n : Names) (entry : Z * Z) : bool := (entry.1 =? own_node n) && negb (alive n entry.2).

Definition lookup_live (n : Names) (name : list Z) : option (Z * Z) * gmap (list Z) (Z * Z) :=
  match registry n !! name with
  | Some entry => if stale n entry then (None, delete name (registry n)) else (Some entry, registry n)
  | None => (None, registry n)
  end.

(** Stale entries are removed only when there is no room. *)
Definition sweep (n : Names) (name : list Z) (registry : gmap (list Z) (Z * Z)) : gmap (list Z) (Z * Z) :=
  if (vec_len name <=? MAX_REGISTRY_NAME_BYTES) && negb (has_control name) &&
     match ensure_registry_insert_capacity registry name with Err _ => true | Ok _ => false end
  then filter (fun e => stale n e.2 = false) registry else registry.

(** Both results must fit the memory before the name is read. *)
Definition read_name (name_ptr name_len node_id_ptr id_ptr : Z) : host (list Z) :=
  let! m := get_memory in
  let! node_end := or_trap (checked_add u32_max node_id_ptr 8) in
  let! _ := or_trap (slice m node_id_ptr node_end) in
  let! id_end := or_trap (checked_add u32_max id_ptr 8) in
  let! _ := or_trap (slice m id_ptr id_end) in
  let! name := read_unchecked name_ptr name_len in
  let! _ := or_trap (from_utf8 name) in ret name.

Definition write_both (code node_id_ptr node id_ptr id : Z) : host Z :=
  let! _ := write_or_trap code node_id_ptr node in write_or_trap code id_ptr id.

(** The copy of [spawn] in it is [spawn_prepare]; the texts of its errors have another prefix.
    A name is registered only for a process whose identity was written. *)
Definition get_or_spawn (n : Names) (spawned : result Z string)
    (name_ptr name_len link config_id module_id func_ptr func_len params_ptr params_len node_id_ptr id_ptr : Z) (s : Guest)
    : outcome Z * option (Z * SpawnRequest) * gmap (list Z) (Z * Z) :=
  match read_name name_ptr name_len node_id_ptr id_ptr s with
  | Trapped s => (Trapped s, None, registry n)
  | HostPanic => (HostPanic, None, registry n)
  | Done name s =>
      match lookup_live n name with
      | (Some (node, pid), names) => (write_both 2 node_id_ptr node id_ptr pid s, None, names)
      | (None, names) =>
          let names := sweep n name names in
          match ensure_registry_insert_capacity names name with
          | Err e => (return_process_error id_ptr e s, None, names)
          | Ok _ =>
              match spawn_prepare link config_id module_id func_ptr func_len params_ptr params_len id_ptr s with
              | Done (inl code) s => (Done code s, None, names)
              | Done (inr request) s =>
                  match spawned with
                  | Ok pid =>
                      let o := write_both 0 node_id_ptr (own_node n) id_ptr pid s in
                      (o, Some (pid, request), match o with Done _ _ => <[name := (own_node n, pid)]> names | _ => names end)
                  | Err e =>
                      ((let! id := add_error_resource (Message e) in write_both 1 node_id_ptr (own_node n) id_ptr id) s, None, names)
                  end
              | Trapped s => (Trapped s, None, names)
              | HostPanic => (HostPanic, None, names)
              end
          end
      end
  end.

(** ** The processes of a node *)

(** The setters in the order of the numbers of [config_set_checked]. *)
Definition legacy_setters : list (Z → Z → host unit) :=
  [config_set_max_memory; config_set_max_fuel; config_set_max_table_elements; config_set_max_file_descriptors; 
   config_set_max_network_connections; config_set_can_compile_modules; config_set_can_create_configs; config_set_can_spawn_processes; 
   config_set_max_mailbox_messages; config_set_max_signal_queue; config_set_max_message_size; config_set_max_message_resources; 
   config_set_max_modules; config_set_max_configs; config_set_max_module_bytes; config_set_max_config_entries; 
   config_set_max_config_bytes; config_set_max_sqlite_connections; config_set_max_sqlite_statements; config_set_can_use_tls_credential_handles].

(** A call of a host function; a getter changes nothing. *)
Inductive call : Type :=
| CCreateConfig
| CDropConfig (id : Z)
| CSetChecked (id setting value : Z)
| CSet (setter : nat) (id value : Z)
| CAddEnvironmentVariable (id key_ptr key_len value_ptr value_len : Z)
| CAddArgument (id ptr len : Z)
| CPreopenDir (id ptr len : Z)
| CPreopenDirChecked (id ptr len : Z)
| CCompileModule (ptr len id_ptr : Z)
| CDropModule (id : Z)
| CErrorDrop (id : Z)
| CTakeModule (taken : option Module)
| CSpawn (spawned : result Z string) (link config_id module_id func_ptr func_len params_ptr params_len id_ptr : Z)
| CGetOrSpawn (n : Names) (spawned : result Z string)
    (name_ptr name_len link config_id module_id func_ptr func_len params_ptr params_len node_id_ptr id_ptr : Z).

(** What a function returns; nothing is 0. *)
Definition value (m : host Z) (s : Guest) : outcome Z * option (Z * SpawnRequest) := (m s, None).
Definition silent (m : host unit) (s : Guest) : outcome Z * option (Z * SpawnRequest) := ((let! _ := m in ret 0) s, None).

Definition exec_call (c : call) (s : Guest) : outcome Z * option (Z * SpawnRequest) :=
  match c with
  | CCreateConfig => value create_config s
  | CDropConfig id => silent (drop_config id) s
  | CSetChecked id setting v => value (config_set_checked id setting v) s
  | CSet n id v => silent (match legacy_setters !! n with Some f => f id v | None => trap end) s
  | CAddEnvironmentVariable id kp kl vp vl => silent (config_add_environment_variable id kp kl vp vl) s
  | CAddArgument id ptr len => silent (config_add_command_line_argument id ptr len) s
  | CPreopenDir id ptr len => silent (config_preopen_dir id ptr len) s
  | CPreopenDirChecked id ptr len => value (config_preopen_dir_checked id ptr len) s
  | CCompileModule ptr len id_ptr => value (compile_module ptr len id_ptr) s
  | CDropModule id => silent (drop_module id) s
  | CErrorDrop id => silent (error_drop id) s
  | CTakeModule taken => value (take_module taken) s
  | CSpawn spawned link cid mid fp fl pp pl ip => spawn spawned link cid mid fp fl pp pl ip s
  | CGetOrSpawn n spawned np nl link cid mid fp fl pp pl nip ip => fst (get_or_spawn n spawned np nl link cid mid fp fl pp pl nip ip s)
  end.

(** A guest calls one of these functions; computes and calls others, which change its memory
    and the errors it keeps; is initialized; or ends. *)
Inductive guest_op : Type :=
| Call (pid : Z) (c : call)
| Compute (pid : Z) (m : option (list Z)) (errors : HashMapId GuestError)
| Initialized (pid : Z)
| Exit (pid : Z).

(** A trap and a panic end the process; a child has an identity of its own. *)
Definition guest_exec (op : guest_op) (g : gmap Z Guest) : option (gmap Z Guest) :=
  match op with
  | Call pid c =>
      s ← g !! pid;
      let '(o, request) := exec_call c s in
      let g := match o with Done _ s => <[pid := s]> g | Trapped _ | HostPanic => delete pid g end in
      match request with
      | None => Some g
      | Some (child, r) => if bool_decide (is_Some (g !! child) ∨ child = pid) then None else Some (<[child := sr_state r]> g)
      end
  | Compute pid m errors =>
      s ← g !! pid;
      Some (<[pid := mkGuest (config s) (config_resources s) (module_resources s) errors (own_module s) m (initialized s)]> g)
  | Initialized pid =>
      s ← g !! pid;
      Some (<[pid := mkGuest (config s) (config_resources s) (module_resources s) (error_resources s) (own_module s) (memory s) true]> g)
  | Exit pid => Some (delete pid g)
  end.

Definition first_guest (c : DefaultProcessConfig) (m : Module) : Guest :=
  mkGuest c HashMapId.new HashMapId.new HashMapId.new m None false.
End host.
Arguments Done {Module A}.
Arguments Trapped {Module A}.
Arguments HostPanic {Module A}.
