(* ===== verification/Attenuation.v ===== *)
(** * Authority only shrinks

    What [validate_child_config] accepts is exactly what the parent could have: capabilities,
    ceilings, fuel and directories.  The order is transitive, so in a tree of processes nobody
    has more than the first, whatever host functions the guests call. *)

From S2P Require Import Prelude HashMapId Paths TreeFs Config HostConfig.

(** ** The order of authority *)

Definition capabilities (c : DefaultProcessConfig) : list bool :=
  [can_compile_modules c; can_create_configs c; can_spawn_processes c; can_use_tls_credential_handles c].
Definition ceilings (c : DefaultProcessConfig) : list Z :=
  [max_memory c; max_table_elements c; max_file_descriptors c; max_network_connections c; max_mailbox_messages c;
   max_signal_queue c; max_message_size c; max_message_resources c; max_modules c; max_configs c; max_module_bytes
   c; max_config_entries c; max_config_bytes c; max_sqlite_connections c; max_sqlite_statements c].

(** No limit is the largest. *)
Definition fuel_le (child self : option Z) : Prop :=
  match self, child with
  | None, _ => True
  | Some s, Some c => c <= s
  | Some _, None => False
  end.

Definition cap_le (child self : bool) : Prop := child = true → self = true.

(** Entries and bytes of the retained values. *)
Definition entries (c : DefaultProcessConfig) : Z :=
  vec_len (command_line_arguments c) + vec_len (environment_variables c) + vec_len (preopened_dirs c).
Definition strings (c : DefaultProcessConfig) : list string :=
  command_line_arguments c ++ (environment_variables c ≫= fun e => [e.1; e.2]) ++ (preopened_dirs c ≫= fun e => [e.1; e.2]).
Definition bytes (l : list string) : Z := foldr (fun s n => str_len s + n) 0 l.

(** [validate_runtime_limits] *)
Record runnable (c : DefaultProcessConfig) : Prop := {
  ru_mailbox : max_mailbox_messages c ≠ 0;
  ru_signals : max_signal_queue c ≠ 0;
  ru_message : max_message_size c ≠ 0;
  ru_entries : entries c <= Z.min u64_max (max_config_entries c);
  ru_bytes : bytes (strings c) <= Z.min u64_max (max_config_bytes c);
}.

(** Capabilities, ceilings and fuel, which do not depend on the file system. *)
Record weaker (child self : DefaultProcessConfig) : Prop := {
  we_caps : Forall2 cap_le (capabilities child) (capabilities self);
  we_ceilings : Forall2 Z.le (ceilings child) (ceilings self);
  we_fuel : fuel_le (max_fuel child) (max_fuel self);
}.

#[export] Instance weaker_preorder : PreOrder weaker.
Proof.
  split.
  - intros c. split; [apply Forall_Forall2_diag, Forall_true; by intros ??|apply Forall_Forall2_diag, Forall_true; intros; apply Z.le_refl|by destruct (max_fuel c); simpl].
  - intros a b c [H1 H2 H3] [K1 K2 K3]. split.
    + eapply Forall2_trans; [|done|done]. unfold cap_le. auto.
    + eapply Forall2_trans; [|done|done]. intros x y z ? ?. by etrans.
    + destruct (max_fuel a), (max_fuel b), (max_fuel c); simpl in *; try done. lia.
Qed.

Section order.
Context `{!FileSystem}.

(** The directories that are the roots of what a configuration reaches. *)
Definition root_of (c : DefaultProcessConfig) (q : Path) : Prop :=
  ∃ d, d ∈ preopened_dirs c ∧ canonicalize (path_new d.2) = Some q ∧ is_dir q = true.

Definition below (q r : Path) : Prop := starts_with q r = true.

Record attenuates (child self : DefaultProcessConfig) : Prop := {
  at_weaker : weaker child self;
  at_roots q : root_of child q → ∃ r, root_of self r ∧ below q r;
}.

(** The directories of a configuration resolve. *)
Definition resolved (c : DefaultProcessConfig) : Prop := ∀ d, d ∈ preopened_dirs c → ∃ q, canonicalize (path_new d.2) = Some q ∧ is_dir q = true.

#[export] Instance below_preorder : PreOrder below.
Proof.
  unfold below, starts_with. split.
  - intros p. by apply bool_decide_eq_true_2.
  - intros p q r Hpq%bool_decide_eq_true Hqr%bool_decide_eq_true. apply bool_decide_eq_true_2. by etrans.
Qed.

#[export] Instance attenuates_preorder : PreOrder attenuates.
Proof.
  split.
  - intros c. split; [done|]. intros q Hq. by exists q.
  - intros a b c [H1 H2] [K1 K2]. split; [by etrans|]. intros q Hq. destruct (H2 q Hq) as (r & Hr & Hqr).
    destruct (K2 r Hr) as (r' & Hr' & Hrr'). exists r'. split; [done|]. by etrans.
Qed.

(** ** What is accepted *)

Lemma ensure_Ok {E} b (e : E) u : ensure b e = Ok u ↔ b = true.
Proof. destruct b, u; simpl; naive_solver. Qed.

Lemma bind_ensure {A E} (r : result unit E) (k : result A E) (P : Prop) x :
  (r = Ok tt ↔ P) → ((let? _ := r in k) = Ok x ↔ P ∧ k = Ok x).
Proof. intros HP. destruct r as [[]|e]; simpl; naive_solver. Qed.

Lemma check_capability_Ok self child w : check_capability self child w = Ok tt ↔ cap_le child self.
Proof. unfold check_capability, cap_le. rewrite ensure_Ok. destruct self, child; naive_solver. Qed.
Lemma check_ceiling_Ok self child w : check_ceiling self child w = Ok tt ↔ child <= self.
Proof. unfold check_ceiling. rewrite ensure_Ok. apply Z.leb_le. Qed.
Lemma check_fuel_Ok self child : check_fuel self child = Ok tt ↔ fuel_le child self.
Proof. destruct self, child; simpl; rewrite ?ensure_Ok, ?Z.leb_le; naive_solver. Qed.

Lemma checked_add_bytes n x r : checked_add_retained_bytes n x = Ok r ↔ n + x <= u64_max ∧ r = n + x.
Proof. unfold checked_add_retained_bytes, checked_add. destruct (_ <=? _) eqn:Hle; simpl; bool_to_prop; naive_solver lia. Qed.

Lemma str_len_pos s : 0 <= str_len s.
Proof. unfold str_len. lia. Qed.
Lemma bytes_pos l : 0 <= bytes l.
Proof. induction l as [|s l IH]; simpl; [done|]. pose proof (str_len_pos s). lia. Qed.
Lemma bytes_app l l' : bytes (l ++ l') = bytes l + bytes l'.
Proof. induction l as [|s l IH]; simpl; [done|]. lia. Qed.

Lemma add_strings_Ok l n r : n <= u64_max → (add_strings l n = Ok r ↔ n + bytes l <= u64_max ∧ r = n + bytes l).
Proof.
  revert n. induction l as [|s l IH]; intros n Hn; simpl; [rewrite Z.add_0_r; split; [by intros [= <-]|by intros [_ ->]]|]. rewrite result_bind_Ok. setoid_rewrite checked_add_bytes.
  pose proof (bytes_pos l). pose proof (str_len_pos s). split.
  - intros (? & (Hs & ->) & Hr). apply IH in Hr; [|done]. lia.
  - intros [Hle ->]. eexists. split; [split; [|done]; lia|]. apply IH; lia.
Qed.
Lemma add_pairs_Ok l n r :
  n <= u64_max → (add_pairs l n = Ok r ↔ n + bytes (l ≫= fun e => [e.1; e.2]) <= u64_max ∧ r = n + bytes (l ≫= fun e => [e.1; e.2])).
Proof.
  revert n. induction l as [|[a b] l IH]; intros n Hn; [simpl; rewrite Z.add_0_r; split; [by intros [= <-]|by intros [_ ->]]|]. simpl add_pairs. rewrite bind_cons, bytes_app. simpl.
  rewrite result_bind_Ok. setoid_rewrite result_bind_Ok. setoid_rewrite checked_add_bytes.
  pose proof (bytes_pos (l ≫= fun e => [e.1; e.2])). pose proof (str_len_pos a). pose proof (str_len_pos b). split.
  - intros (? & (Ha & ->) & ? & (Hb & ->) & Hr). apply IH in Hr; [|done]. lia.
  - intros [Hle ->]. eexists. split; [split; [|done]; lia|]. eexists. split; [split; [|done]; lia|]. apply IH; lia.
Qed.

Lemma retained_Ok c ceiling :
  validate_retained_values_against c ceiling = Ok tt ↔
  entries c <= Z.min u64_max (max_config_entries ceiling) ∧ bytes (strings c) <= Z.min u64_max (max_config_bytes ceiling).
Proof.
  unfold validate_retained_values_against, entries, strings. rewrite !bytes_app. rewrite result_bind_Ok.
  assert (0 <= vec_len (preopened_dirs c)) by (unfold vec_len; lia).
  pose proof (bytes_pos (command_line_arguments c)) as B1. pose proof (bytes_pos (environment_variables c ≫= fun e => [e.1; e.2])) as B2.
  pose proof (bytes_pos (preopened_dirs c ≫= fun e => [e.1; e.2])) as B3. split.
  - intros (n & Hn & H1). assert (vec_len (command_line_arguments c) + vec_len (environment_variables c) + vec_len (preopened_dirs c) <= u64_max ∧
      n = vec_len (command_line_arguments c) + vec_len (environment_variables c) + vec_len (preopened_dirs c)) as [Hmax ->].
    { unfold checked_add in Hn. destruct (_ <=? _); simpl in Hn; [|done]. destruct (_ <=? _) eqn:Hle; simpl in Hn; [|done]. bool_to_prop. naive_solver. }
    apply result_bind_Ok in H1 as (? & He & H1). apply ensure_Ok, Z.leb_le in He. apply result_bind_Ok in H1 as (n1 & Hb1 & H1).
    apply add_strings_Ok in Hb1 as [? ->]; [|done]. apply result_bind_Ok in H1 as (n2 & Hb2 & H1). apply add_pairs_Ok in Hb2 as [? ->]; [|done].
    apply result_bind_Ok in H1 as (n3 & Hb3 & H1). apply add_pairs_Ok in Hb3 as [? ->]; [|done]. apply ensure_Ok, Z.leb_le in H1. lia.
  - intros [He Hb]. eexists. split.
    + unfold checked_add. rewrite (proj2 (Z.leb_le _ _)) by lia. simpl. rewrite (proj2 (Z.leb_le _ _)) by lia. done.
    + apply result_bind_Ok. exists tt. split; [apply ensure_Ok, Z.leb_le; lia|]. apply result_bind_Ok. eexists. split; [apply add_strings_Ok; [done|split; [|done]; lia]|].
      apply result_bind_Ok. eexists. split; [apply add_pairs_Ok; [lia|split; [|done]; lia]|].
      apply result_bind_Ok. eexists. split; [apply add_pairs_Ok; [lia|split; [|done]; lia]|]. apply ensure_Ok, Z.leb_le. lia.
Qed.

Lemma runtime_limits_Ok c : validate_runtime_limits c = Ok tt ↔ runnable c.
Proof.
  unfold validate_runtime_limits, validate_retained_config_limits. rewrite !(bind_ensure _ _ _ _ (ensure_Ok _ _ _)), retained_Ok, !negb_true_iff, !Z.eqb_neq.
  split; [intros (? & ? & ? & ? & ?); by split|intros []; split_and!; done].
Qed.

Lemma can_delegate_Ok c p :
  can_delegate_preopen_dir c p = Ok tt ↔ ∃ q r, canonicalize p = Some q ∧ is_dir q = true ∧ root_of c r ∧ below q r.
Proof.
  unfold can_delegate_preopen_dir, root_of. destruct (canonicalize p) as [q|]; [|split; [done|by intros (? & ? & ? & _)]].
  destruct (is_dir q) eqn:Hd; simpl; [|split; [done|intros (? & ? & [= <-] & ? & _); congruence]].
  rewrite ensure_Ok, existsb_exists. split.
  - intros (d & Hin & Hd'). apply list_elem_of_In in Hin. destruct (canonicalize (path_new d.2)) as [r|] eqn:Hr; [|done]. apply andb_true_iff in Hd' as [Hdir Hanc].
    exists q, r. split; [done|]. split; [done|]. split; [by exists d|]. unfold path_is_ancestor in Hanc. by apply andb_true_iff in Hanc as [_ ?].
  - intros (q' & r & [= <-] & _ & (d & Hin & Hr & Hdir) & Hb). exists d. split; [by apply list_elem_of_In|]. rewrite Hr, Hdir. unfold path_is_ancestor. by rewrite Hdir.
Qed.

Lemma delegate_all_Ok c dirs : delegate_all c dirs = Ok tt ↔ ∀ d, d ∈ dirs → can_delegate_preopen_dir c (path_new d.2) = Ok tt.
Proof.
  induction dirs as [|d dirs IH]; simpl; [split; [by intros _ d []%elem_of_nil|done]|].
  rewrite (bind_ensure _ _ (can_delegate_preopen_dir c (path_new d.2) = Ok tt)) by done. rewrite IH. setoid_rewrite elem_of_cons. naive_solver.
Qed.

Lemma Forall2_cons_and {A B} (P : A → B → Prop) x y l k : Forall2 P (x :: l) (y :: k) ↔ P x y ∧ Forall2 P l k.
Proof. apply Forall2_cons. Qed.

Lemma validate_child_Ok self child :
  validate_child_config self child = Ok tt ↔ runnable child ∧ resolved child ∧ attenuates child self.
Proof.
  unfold validate_child_config. rewrite (bind_ensure _ _ _ _ (runtime_limits_Ok child)), !(bind_ensure _ _ _ _ (check_capability_Ok _ _ _)),
    (bind_ensure _ _ _ _ (check_ceiling_Ok _ _ _)), (bind_ensure _ _ _ _ (check_fuel_Ok _ _)), !(bind_ensure _ _ _ _ (check_ceiling_Ok _ _ _)), delegate_all_Ok.
  setoid_rewrite can_delegate_Ok.
  assert ((∀ d, d ∈ preopened_dirs child → ∃ q r, canonicalize (path_new d.2) = Some q ∧ is_dir q = true ∧ root_of self r ∧ below q r) ↔
    resolved child ∧ ∀ q, root_of child q → ∃ r, root_of self r ∧ below q r) as ->.
  { unfold resolved, root_of. split.
    - intros Hall. split; [intros d (q & r & ? & ? & _)%Hall; eauto|]. intros q (d & Hd & Hq & _). destruct (Hall d Hd) as (q' & r & Hq' & _ & ? & ?). simplify_eq. eauto.
    - intros [Hres Hroots] d Hd. destruct (Hres d Hd) as (q & Hq & Hdir). destruct (Hroots q) as (r & ? & ?); [by exists d|]. eauto 10. }
  split.
  - intros (? & ? & ? & ? & ? & ? & ? & ? & ? & ? & ? & ? & ? & ? & ? & ? & ? & ? & ? & ? & ? & ? & ?). split; [done|]. split; [done|].
    split; [|done]. split; [| |done]; unfold capabilities, ceilings; repeat (apply Forall2_cons; split; [done|]); apply Forall2_nil; done.
  - intros (? & ? & [[Hcaps Hceil ?] ?]). unfold capabilities, ceilings in *. rewrite !Forall2_cons_and in Hcaps. rewrite !Forall2_cons_and in Hceil. intuition.
Qed.
End order.

(** Absolute paths, without [.] and [..]. *)
Definition dirs_clean (c : DefaultProcessConfig) : Prop := ∀ d, d ∈ preopened_dirs c → ∃ p, clean p ∧ d.2 = path_str p.

(** The changes that the host functions make to a configuration. *)
Definition host_update (f : DefaultProcessConfig → DefaultProcessConfig) `{!FileSystem} : Prop :=
  (∀ c, preopened_dirs (f c) = preopened_dirs c) ∨ ∃ dir, f = add_preopened_dir dir.

(** ** What is kept of the authority

    [own] holds of the configurations of processes, [kept] between a configuration and the
    process that holds it, or the process that was made with it and its parent.  What the
    host functions need of them are four facts. *)
Class Kept `{!FileSystem} (own : DefaultProcessConfig → Prop) (kept : DefaultProcessConfig → DefaultProcessConfig → Prop) : Prop := {
  kept_runnable c self : kept c self → runnable c ∧ own c;
  kept_new c : runnable c → kept (new_child_config c) c;
  kept_update f c self : host_update f → own c → validate_child_config self (f c) = Ok tt → kept (f c) self;
  kept_trans a b c : kept a b → kept b c → kept a c;
}.

(** ** The state of a guest *)

Section guests.
Context `{!FileSystem} (own : DefaultProcessConfig → Prop) (kept : DefaultProcessConfig → DefaultProcessConfig → Prop) `{!Kept own kept} {Module : Type}.
Context (overflow_checks : bool) (compile : list Z → option Module) (build_wasi : DefaultProcessConfig → bool).
Implicit Types (s : Guest (Module := Module)) (c : DefaultProcessConfig).

Record guest_ok s : Prop := {
  go_runnable : runnable (config s);
  go_own : own (config s);
  go_configs id c : store (config_resources s) !! id = Some c → kept c (config s);
  go_config_count : Z.of_nat (len (config_resources s)) <= Z.max 0 (max_configs (config s));
  go_module_count : Z.of_nat (len (module_resources s)) <= Z.max 0 (max_modules (config s));
}.

(** What a host function leaves when it returns. *)
Definition fine {A} c (Q : A → Prop) (o : outcome (Module := Module) A) : Prop :=
  match o with Done a s => guest_ok s ∧ config s = c ∧ Q a | _ => True end.

Lemma fine_bind {A B} c (P : A → Prop) (Q : B → Prop) (m : host A) (f : A → host B) s :
  fine c P (m s) → (∀ a s', guest_ok s' → config s' = c → P a → fine c Q (f a s')) → fine c Q (bind m f s).
Proof. unfold fine, bind. intros Hm Hf. destruct (m s); [|done..]. destruct Hm as (? & ? & ?). by apply Hf. Qed.

Lemma fine_ret {A} c (Q : A → Prop) a s : guest_ok s → config s = c → Q a → fine c Q (ret a s).
Proof. done. Qed.
Lemma fine_trap {A} c (Q : A → Prop) s : fine c Q (trap s).
Proof. done. Qed.
Lemma fine_or_trap {A} c (Q : A → Prop) o s : guest_ok s → config s = c → (∀ a, o = Some a → Q a) → fine c Q (or_trap o s).
Proof. destruct o; simpl; auto. Qed.

Lemma with_memory_ok m s : guest_ok s → guest_ok (with_memory m s).
Proof. by intros []. Qed.

Lemma fine_get_memory c s : guest_ok s → config s = c → fine c (fun _ => True) (get_memory s).
Proof. intros. unfold get_memory, bind, get_state. by apply fine_or_trap. Qed.

Lemma fine_write c ptr b s : guest_ok s → config s = c → fine c (fun _ => True) (write ptr b s).
Proof.
  intros Hs Hc. unfold write. eapply fine_bind; [by apply fine_get_memory|]. intros m s' Hs' Hc' _. destruct (mem_write m ptr b); [|done].
  split_and!; [by apply with_memory_ok|done|done].
Qed.

Lemma fine_read_str c ptr n s : guest_ok s → config s = c → fine c (fun _ => True) (read_str ptr n s).
Proof.
  intros Hs Hc. unfold read_str. eapply fine_bind; [by apply fine_get_memory|]. intros m s1 Hs1 Hc1 _.
  eapply fine_bind; [by apply (fine_or_trap c (fun _ => True))|]. intros r s2 Hs2 Hc2 _.
  eapply fine_bind; [by apply (fine_or_trap c (fun _ => True))|]. intros b s3 Hs3 Hc3 _. by apply fine_or_trap.
Qed.

Lemma size_insert_le {A} (m : gmap Z A) i x : (size (<[i := x]> m) <= S (size m))%nat.
Proof. rewrite map_size_insert. destruct (m !! i); simpl; lia. Qed.
Lemma size_delete_le {A} (m : gmap Z A) i : (size (delete i m) <= size m)%nat.
Proof. rewrite map_size_delete. destruct (m !! i); simpl; lia. Qed.

Lemma with_errors_ok t s : guest_ok s → guest_ok (with_errors t s).
Proof. by intros []. Qed.

Lemma fine_table_error c e t s : guest_ok s → config s = c → fine c (fun _ => True) (table_add overflow_checks e t with_errors s).
Proof. intros Hs Hc. unfold table_add. destruct (HashMapId.add _ _ _); [|done]. split_and!; [by apply with_errors_ok|done|done]. Qed.

Lemma fine_add_error c e s : guest_ok s → config s = c → fine c (fun _ => True) (add_error_resource overflow_checks e s).
Proof.
  intros Hs Hc. unfold add_error_resource, bind, get_state. destruct (limit_error_id _).
  - destruct (_ <=? _); [done|by apply fine_table_error].
  - destruct (_ <=? _); by apply fine_table_error.
Qed.

Lemma fine_error_drop c id s : guest_ok s → config s = c → fine c (fun _ => True) (error_drop id s).
Proof.
  intros Hs Hc. unfold error_drop. eapply (fine_bind c (fun _ => True)).
  - unfold release_error_resource, bind, get_state, modify, ret. destruct (get _ _) as [e|]; [|done]. destruct (is_limit_error e); [done|].
    split_and!; [by apply with_errors_ok|done|done].
  - intros [] s' Hs' Hc' _; done.
Qed.

Lemma fine_return_error c ptr e s : guest_ok s → config s = c → fine c (fun _ => True) (return_error overflow_checks ptr e s).
Proof.
  intros Hs Hc. unfold return_error. change (bind get_state ?f s) with (f s s). eapply fine_bind; [by apply fine_add_error|]. intros id s1 Hs1 Hc1 _.
  eapply fine_bind; [by apply fine_write|]. intros ok s2 Hs2 Hc2 _. destruct ok; [done|]. change (bind get_state ?f s2) with (f s2 s2). cbn beta.
  destruct (_ <? _)%nat; done.
Qed.

(** *** Modules *)

Lemma fine_drop_module c id s : guest_ok s → config s = c → fine c (fun _ => True) (drop_module id s).
Proof.
  intros Hs Hc. unfold drop_module, bind, get_state, remove. destruct (store (module_resources s) !! id); [|done]. split_and!; [|done|done].
  destruct Hs as [H1 H2 H3 H4 H5]. split; try done. unfold len in *. simpl. pose proof (size_delete_le (store (module_resources s)) id). lia.
Qed.

Lemma add_module_ok m s id t :
  guest_ok s → HashMapId.add overflow_checks m (module_resources s) = Returned id t →
  Z.of_nat (len (module_resources s)) < max_modules (config s) → guest_ok (with_modules t s).
Proof.
  intros [H1 H2 H3 H4 H5] Hadd Hlt. unfold HashMapId.add in Hadd. destruct (overflowing_add _ _ _ _); [|done]. injection Hadd as <- <-.
  split; try done. unfold len in *. cbn [with_modules module_resources store config]. pose proof (size_insert_le (store (module_resources s)) (id_seed (module_resources s)) m). lia.
Qed.

Lemma fine_compile_module c ptr n id_ptr s : guest_ok s → config s = c → fine c (fun _ => True) (compile_module overflow_checks compile ptr n id_ptr s).
Proof.
  intros Hs Hc. unfold compile_module. change (bind get_state ?f s) with (f s s). cbn beta. destruct (negb _); [done|].
  unfold bind at 1. pose proof (fine_get_memory c s Hs Hc) as Hm. unfold get_memory, bind, get_state in Hm |- *. destruct (memory s) as [m|] eqn:Hmem; [|done]. cbn [or_trap ret].
  destruct (checked_guest_memory_range _ id_ptr 8) as [out|]; [|done]. cbn [or_trap ret]. destruct (checked_guest_memory_range _ ptr n) as [inp|]; [|done]. cbn [or_trap ret].
  destruct (_ <? _); [by apply fine_return_error|]. destruct (_ <=? _) eqn:Hlim; [by apply fine_return_error|]. bool_to_prop.
  destruct (slice m inp.1 inp.2) as [src|]; [|done]. cbn [or_trap ret]. destruct (compile src) as [x|]; [|by apply fine_return_error].
  unfold table_add. destruct (HashMapId.add _ _ _) as [id t|] eqn:Hadd; [|done]. assert (guest_ok (with_modules t s)) as Hs1 by (by eapply add_module_ok).
  pose proof (fine_write c out.1 (to_le_bytes id) (with_modules t s) Hs1 Hc) as Hw. destruct (write _ _ _) as [ok s2| |]; [|done..].
  destruct ok; [done|]. done.
Qed.

(** *** Configurations *)

Lemma vec_len_pos {A} (l : list A) : 0 <= vec_len l.
Proof. unfold vec_len. lia. Qed.

Lemma fine_create_config c s : guest_ok s → config s = c → fine c (fun _ => True) (create_config overflow_checks s).
Proof.
  intros Hs Hc. unfold create_config, bind, get_state, table_add. destruct (negb _); [done|]. destruct (_ <=? _) eqn:Hlim; [done|]. bool_to_prop.
  unfold HashMapId.add. destruct (overflowing_add _ _ _ _); [|done]. split_and!; [|done|done]. destruct Hs as [H1 H2 H3 H4 H5].
  split; try done; cbn [with_configs config_resources config].
  - intros id c'. simpl. intros [[<- <-]|[_ Hid]]%lookup_insert_Some; [|by eapply H3]. by eapply kept_new.
  - unfold len in *. simpl. pose proof (size_insert_le (store (config_resources s)) (id_seed (config_resources s)) (new_child_config (config s))). lia.
Qed.

Lemma fine_drop_config c id s : guest_ok s → config s = c → fine c (fun _ => True) (drop_config id s).
Proof.
  intros Hs Hc. unfold drop_config, bind, get_state, remove. destruct (store (config_resources s) !! id); [|done]. split_and!; [|done|done].
  destruct Hs as [H1 H2 H3 H4 H5]. split; try done; simpl.
  - intros id' c' [_ Hid]%lookup_delete_Some. by eapply H3.
  - unfold len in *. simpl. pose proof (size_delete_le (store (config_resources s)) id). lia.
Qed.

Lemma fine_mutate c id f s : host_update f → guest_ok s → config s = c → fine c (fun _ => True) (mutate_child_config id f s).
Proof.
  intros Hf Hs Hc. unfold mutate_child_config, bind, get_state. destruct (get id _) as [c0|] eqn:Hget; [|done].
  destruct (validate_child_config (config s) (f c0)) as [[]|e] eqn:Hv; [|done].
  split_and!; [|done|done]. destruct Hs as [H1 H2 H3 H4 H5]. split; try done; cbn [with_configs config_resources config get_mut store].
  - intros id' c' Hid'. apply lookup_alter_Some in Hid' as [(-> & ? & _ & ->)|[_ Hid']]; [|by eapply H3].
    apply kept_update; [done| |done]. by destruct (kept_runnable _ _ (H3 _ _ Hget)).
  - unfold len in *. simpl. by rewrite <- (size_dom (alter _ _ _)), dom_alter_L, size_dom.
Qed.

Lemma fine_set_quietly c id f s : host_update f → guest_ok s → config s = c → fine c (fun _ => True) (set_quietly id f s).
Proof. intros Hf Hs Hc. unfold set_quietly. eapply fine_bind; [by apply fine_mutate|done]. Qed.

Lemma fine_legacy c n f id x s :
  legacy_setters !! n = Some f → guest_ok s → config s = c → fine c (fun _ => True) (f id x s).
Proof.
  intros Hn Hs Hc. do 20 (destruct n as [|n]; [injection Hn as <-; apply fine_set_quietly; [by left|done|done]|]). done.
Qed.

(** The error of a checked setter becomes a resource. *)
Lemma fine_checked c (m : host (result unit GuestError)) s :
  fine c (fun _ => True) (m s) →
  fine c (fun _ => True) (bind m (fun r => match r with Ok _ => ret (-1) | Err e => bind (add_error_resource overflow_checks e) (fun id => ret (to_i64 id)) end) s).
Proof.
  intros Hm. eapply fine_bind; [done|]. intros [[]|e] s' Hs' Hc' _; [done|]. eapply fine_bind; [by apply fine_add_error|done].
Qed.

Lemma fine_config_set_checked c id setting v s :
  guest_ok s → config s = c → fine c (fun _ => True) (config_set_checked overflow_checks id setting v s).
Proof.
  intros Hs Hc. unfold config_set_checked. apply fine_checked. repeat case_match; try done; apply fine_mutate; (done || by left).
Qed.

Lemma fine_mutate_or_trap c id f s : host_update f → guest_ok s → config s = c → fine c (fun _ => True) (mutate_or_trap id f s).
Proof. intros Hf Hs Hc. unfold mutate_or_trap. eapply fine_bind; [by apply fine_mutate|]. by intros [[]|e] s' Hs' Hc' _. Qed.

Lemma fine_preopen_impl c id ptr n s : guest_ok s → config s = c → fine c (fun _ => True) (preopen_dir_impl id ptr n s).
Proof.
  intros Hs Hc. unfold preopen_dir_impl. pose proof (fine_read_str c ptr n s Hs Hc) as Hr.
  assert (∀ s', read_str ptr n s = Trapped s' → s' = s) as Htrap.
  { unfold read_str, get_memory, bind, get_state, or_trap, ret, trap. intros s'. destruct (memory s); [|by intros [= ->]].
    destruct (checked_guest_range ptr n); [|by intros [= ->]]. destruct (slice _ _ _); [|by intros [= ->]]. by destruct (from_utf8 _); [|intros [= ->]]. }
  destruct (read_str ptr n s) as [dir s'|s'|]; [|by rewrite (Htrap s' eq_refl)|done].
  destruct Hr as (? & ? & _). apply fine_mutate; [by right; eexists|done|done].
Qed.

(** *** Spawning *)

(** The configuration of a child. *)
Definition child_ok c (r : SpawnRequest) : Prop := guest_ok (sr_state r) ∧ kept (config (sr_state r)) c.

Lemma new_guest_ok c m : runnable c → own c → guest_ok (first_guest c m).
Proof.
  intros Hr Hc. split; try done; simpl.
  - unfold len. simpl. rewrite map_size_empty. lia.
  - unfold len. simpl. rewrite map_size_empty. lia.
Qed.

Lemma select_config_fine c id s :
  guest_ok s → config s = c → fine c (fun r => ∀ c', r = Ok c' → own c') (select_config id s).
Proof.
  intros Hs Hc. unfold select_config, bind, get_state. destruct (id =? -1).
  { split_and!; [done|done|]. intros c' [= <-]. apply Hs. }
  destruct (get (to_u64 id) _) as [c0|] eqn:Hget; [|done]. cbn [or_trap ret]. destruct (validate_child_config _ _); (split_and!; [done|done|]); [|done].
  intros c' [= <-]. by destruct (kept_runnable _ _ (go_configs _ Hs _ _ Hget)).
Qed.

Lemma fine_read_unchecked c ptr n s : guest_ok s → config s = c → fine c (fun _ => True) (read_unchecked overflow_checks ptr n s).
Proof.
  intros Hs Hc. unfold read_unchecked. eapply fine_bind; [by apply fine_get_memory|]. intros m s' Hs' Hc' _. destruct (overflowing_add _ _ _ _); [|done].
  by apply fine_or_trap.
Qed.

Lemma fine_fail {B} c ptr e s : guest_ok s → config s = c → ∀ Q : Z + B → Prop, (∀ x, Q (inl x)) →
  fine c Q (bind (return_process_error overflow_checks ptr e) (fun code => ret (inl code)) s).
Proof.
  intros Hs Hc Q HQ. eapply (fine_bind c (fun _ => True)).
  - unfold return_process_error. eapply fine_bind; [by apply fine_add_error|]. intros id s1 Hs1 Hc1 _. eapply fine_bind; [by apply fine_write|]. by intros [] s2 Hs2 Hc2 _.
  - intros code s' Hs' Hc' _. split_and!; auto.
Qed.

Lemma fine_spawn_prepare c link cid mid fp fl pp pl ip s :
  guest_ok s → config s = c → fine c (fun r => ∀ q, r = inr q → child_ok c q) (spawn_prepare overflow_checks build_wasi link cid mid fp fl pp pl ip s).
Proof.
  intros Hs Hc. unfold spawn_prepare. change (bind get_state ?f s) with (f s s). cbn beta.
  assert (∀ e s', guest_ok s' → config s' = c → fine c (fun r => ∀ q, r = inr q → child_ok c q)
    (bind (return_process_error overflow_checks ip e) (fun code => ret (inl code)) s')) as Hfail by (intros; by apply fine_fail).
  destruct (negb _); [by apply Hfail|]. destruct (negb _); [by apply Hfail|].
  eapply fine_bind; [by apply select_config_fine|]. intros r s1 Hs1 Hc1 Hr. destruct r as [c1|e]; [|by apply Hfail]. specialize (Hr c1 eq_refl).
  eapply (fine_bind c (fun _ => True)).
  { unfold select_module, bind, get_state. destruct (mid =? -1); [done|]. by apply fine_or_trap. }
  intros m s2 Hs2 Hc2 _. unfold new_state. destruct (validate_child_config (config s) c1) as [[]|e] eqn:Hv; [|by apply Hfail]. destruct (build_wasi c1); [|by apply Hfail].
  rewrite Hc in Hv. apply (kept_update id) in Hv; [|by left|done].
  eapply fine_bind; [by apply fine_read_unchecked|]. intros func s3 Hs3 Hc3 _. eapply (fine_bind c (fun _ => True)); [by apply fine_or_trap|]. intros fn s4 Hs4 Hc4 _.
  eapply fine_bind; [by apply fine_read_unchecked|]. intros ps s5 Hs5 Hc5 _. eapply (fine_bind c (fun _ => True)); [by apply fine_or_trap|]. intros ps' s6 Hs6 Hc6 _.
  split_and!; [done|done|]. intros q [= <-]. split; simpl; [|done]. destruct (kept_runnable _ _ Hv). by apply new_guest_ok.
Qed.

Lemma fine_write_or_trap c code ptr id s : guest_ok s → config s = c → fine c (fun _ => True) (write_or_trap code ptr id s).
Proof. intros Hs Hc. unfold write_or_trap. eapply fine_bind; [by apply fine_write|]. by intros [] s' Hs' Hc' _. Qed.

Lemma fine_return_process_error c ptr e s :
  guest_ok s → config s = c → fine c (fun _ => True) (return_process_error overflow_checks ptr e s).
Proof.
  intros Hs Hc. unfold return_process_error. eapply fine_bind; [by apply fine_add_error|]. intros id s1 Hs1 Hc1 _.
  eapply fine_bind; [by apply fine_write|]. by intros [] s2 Hs2 Hc2 _.
Qed.

Lemma fine_take_module c taken s : guest_ok s → config s = c → fine c (fun _ => True) (take_module overflow_checks taken s).
Proof.
  intros Hs Hc. unfold take_module, bind, get_state. destruct (_ <=? _) eqn:Hlim; [done|]. bool_to_prop. destruct taken as [m|]; [|done].
  cbn [or_trap ret]. unfold table_add. destruct (HashMapId.add _ _ _) as [id t|] eqn:Hadd; [|done]. split_and!; [by eapply add_module_ok|done|done].
Qed.

Lemma fine_read_name c np nl nip ip s :
  guest_ok s → config s = c → fine c (fun _ => True) (read_name overflow_checks np nl nip ip s).
Proof.
  intros Hs Hc. unfold read_name. eapply fine_bind; [by apply fine_get_memory|]. intros m s1 Hs1 Hc1 _.
  do 4 (eapply (fine_bind c (fun _ => True)); [by apply fine_or_trap|]; clear dependent s1; intros ? s1 Hs1 Hc1 _).
  eapply fine_bind; [by apply fine_read_unchecked|]. intros name s2 Hs2 Hc2 _.
  eapply (fine_bind c (fun _ => True)); [by apply fine_or_trap|done].
Qed.

Lemma fine_write_both c code nip node ip id s :
  guest_ok s → config s = c → fine c (fun _ => True) (write_both code nip node ip id s).
Proof. intros Hs Hc. unfold write_both. eapply fine_bind; [by apply fine_write_or_trap|]. intros _ s1 Hs1 Hc1 _. by apply fine_write_or_trap. Qed.

Definition call_ok c (a : outcome (Module := Module) Z * option (Z * SpawnRequest)) : Prop :=
  fine c (fun _ => True) a.1 ∧ ∀ pid r, a.2 = Some (pid, r) → child_ok c r.

Lemma call_ok_none c o : fine c (fun _ => True) o → call_ok c (o, None).
Proof. by split. Qed.

Lemma spawn_call_ok spawned link cid mid fp fl pp pl ip s :
  guest_ok s → call_ok (config s) (spawn overflow_checks build_wasi spawned link cid mid fp fl pp pl ip s).
Proof.
  intros Hs. unfold spawn. pose proof (fine_spawn_prepare (config s) link cid mid fp fl pp pl ip s Hs eq_refl) as Hp.
  destruct (spawn_prepare _ _ _ _ _ _ _ _ _ _ _) as [[code|r] s1|s1|]; [apply call_ok_none; destruct Hp as (? & ? & _); done| |by apply call_ok_none..].
  destruct Hp as (Hs1 & Hc1 & Hr). destruct spawned as [pid|e].
  - split; [by apply fine_write_or_trap|]. intros pid' r' [= <- <-]. by apply Hr.
  - apply call_ok_none. eapply fine_bind; [by apply fine_add_error|]. intros id s2 Hs2 Hc2 _. by apply fine_write_or_trap.
Qed.

Lemma get_or_spawn_ok n spawned np nl link cid mid fp fl pp pl nip ip s :
  guest_ok s → call_ok (config s) (get_or_spawn overflow_checks build_wasi n spawned np nl link cid mid fp fl pp pl nip ip s).1.
Proof.
  intros Hs. unfold get_or_spawn. pose proof (fine_read_name (config s) np nl nip ip s Hs eq_refl) as Hn.
  destruct (read_name _ _ _ _ _ _) as [name s1|s1|]; [|by apply call_ok_none..]. destruct Hn as (Hs1 & Hc1 & _).
  destruct (lookup_live n name) as [[[node pid]|] names]; [apply call_ok_none; by apply fine_write_both|].
  destruct (ensure_registry_insert_capacity _ _); [|apply call_ok_none; by apply fine_return_process_error].
  pose proof (fine_spawn_prepare (config s) link cid mid fp fl pp pl ip s1 Hs1 Hc1) as Hp.
  destruct (spawn_prepare _ _ _ _ _ _ _ _ _ _ _) as [[code|r] s2|s2|]; [apply call_ok_none; destruct Hp as (? & ? & _); done| |by apply call_ok_none..].
  destruct Hp as (Hs2 & Hc2 & Hr). destruct spawned as [pid|e].
  - split; [by apply fine_write_both|]. intros pid' r' [= <- <-]. by apply Hr.
  - apply call_ok_none. eapply fine_bind; [by apply fine_add_error|]. intros id s3 Hs3 Hc3 _. by apply fine_write_both.
Qed.

Lemma exec_call_ok k s : guest_ok s → call_ok (config s) (exec_call overflow_checks compile build_wasi k s).
Proof.
  intros Hs. assert (∀ m : host unit, fine (config s) (fun _ => True) (m s) → call_ok (config s) (silent m s)) as Hsilent.
  { intros m Hm. apply call_ok_none. by eapply fine_bind; [exact Hm|]. }
  destruct k; simpl.
  - apply call_ok_none. by apply fine_create_config.
  - apply Hsilent. by apply fine_drop_config.
  - apply call_ok_none. by apply fine_config_set_checked.
  - apply Hsilent. destruct (legacy_setters !! setter) eqn:Hl; [by eapply fine_legacy|done].
  - apply Hsilent. unfold config_add_environment_variable. eapply fine_bind; [by apply fine_read_str|]. intros key s1 Hs1 Hc1 _.
    eapply fine_bind; [by apply fine_read_str|]. intros value s2 Hs2 Hc2 _. apply fine_mutate_or_trap; [by left|done|done].
  - apply Hsilent. unfold config_add_command_line_argument. eapply fine_bind; [by apply fine_read_str|]. intros arg s1 Hs1 Hc1 _.
    apply fine_mutate_or_trap; [by left|done|done].
  - apply Hsilent. unfold config_preopen_dir. eapply fine_bind; [by apply fine_preopen_impl|done].
  - apply call_ok_none. unfold config_preopen_dir_checked. apply fine_checked. by apply fine_preopen_impl.
  - apply call_ok_none. by apply fine_compile_module.
  - apply Hsilent. by apply fine_drop_module.
  - apply Hsilent. by apply fine_error_drop.
  - apply call_ok_none. by apply fine_take_module.
  - by apply spawn_call_ok.
  - by apply get_or_spawn_ok.
Qed.

(** ** The tree of processes *)

(** Everybody but the first process was given a configuration by [new_state]. *)
Definition tree_ok root (g : gmap Z (Guest (Module := Module))) : Prop :=
  ∀ pid s, g !! pid = Some s → guest_ok s ∧ (config s = root ∨ kept (config s) root).

Lemma guest_exec_ok root op g g' : tree_ok root g → guest_exec overflow_checks compile build_wasi op g = Some g' → tree_ok root g'.
Proof.
  intros Hok. destruct op as [pid k|pid m e|pid|pid]; simpl.
  - intros (s & Hs & Hexec)%bind_Some. destruct (Hok pid s Hs) as (Hg & Hatt).
    destruct (exec_call_ok k s Hg) as [Ho Hq]. destruct (exec_call _ _ _ k s) as [o q]. simpl in Ho, Hq.
    assert (tree_ok root (match o with Done _ s => <[pid := s]> g | Trapped _ | HostPanic => delete pid g end)) as Hok1.
    { destruct o as [a s1|s1|]; intros pid' s'; [|by intros [_ ?]%lookup_delete_Some; eapply Hok..].
      intros [[<- <-]|[_ ?]]%lookup_insert_Some; [|by eapply Hok]. destruct Ho as (? & -> & _). done. }
    destruct q as [[child r]|]; [|by injection Hexec as <-]. destruct (bool_decide _); [done|]. injection Hexec as <-.
    intros pid' s' [[<- <-]|[_ ?]]%lookup_insert_Some; [|by eapply Hok1]. destruct (Hq child r eq_refl) as (? & Hk). split; [done|].
    right. destruct Hatt as [<-|Hatt]; [done|]. by eapply kept_trans.
  - intros (s & Hs & [= <-])%bind_Some pid' s' [[<- <-]|[_ ?]]%lookup_insert_Some; [|by eapply Hok]. destruct (Hok pid s Hs) as ([] & ?). by split.
  - intros (s & Hs & [= <-])%bind_Some pid' s' [[<- <-]|[_ ?]]%lookup_insert_Some; [|by eapply Hok]. destruct (Hok pid s Hs) as ([] & ?). by split.
  - intros [= <-] pid' s' [_ ?]%lookup_delete_Some. by eapply Hok.
Qed.

Lemma first_tree_ok root m pid : runnable root → own root → tree_ok root {[pid := first_guest root m]}.
Proof. intros Hr Hc pid' s [<- <-]%lookup_singleton_Some. split; [by apply new_guest_ok|by left]. Qed.
End guests.

(** ** The two kinds of authority *)

Definition kept_limits (c self : DefaultProcessConfig) : Prop := weaker c self ∧ runnable c.
Definition kept_files `{!FileSystem} (c self : DefaultProcessConfig) : Prop := attenuates c self ∧ runnable c ∧ resolved c ∧ dirs_clean c.

Lemma new_child_ok `{!FileSystem} c : runnable c → kept_files (new_child_config c) c.
Proof.
  intros [H1 H2 H3 H4 H5]. split_and!.
  - split; [split; [| |simpl; destruct (max_fuel c); simpl; [apply Z.le_refl|done]]|].
    + unfold capabilities, cap_le. simpl. repeat (apply Forall2_cons; split; [done|]). by apply Forall2_nil.
    + apply Forall_Forall2_diag, Forall_true. intros. apply Z.le_refl.
    + intros q (d & []%elem_of_nil & _).
  - split; simpl; try done.
    + unfold entries in *. simpl. pose proof (vec_len_pos (command_line_arguments c)). pose proof (vec_len_pos (environment_variables c)).
      pose proof (vec_len_pos (preopened_dirs c)). change (vec_len (@nil string) + vec_len (@nil (string * string)) + vec_len (@nil (string * string))) with 0. lia.
    + unfold strings. simpl. pose proof (bytes_pos (strings c)). lia.
  - by intros d []%elem_of_nil.
  - by intros d []%elem_of_nil.
Qed.


#[export] Instance kept_limits_kept `{!FileSystem} : Kept (fun _ => True) kept_limits.
Proof.
  split.
  - by intros c self [_ ?].
  - intros c Hc. destruct (new_child_ok c Hc) as ([? _] & ? & _). by split.
  - intros f c self _ _ (? & _ & [? _])%validate_child_Ok. by split.
  - intros a b c [Hab ?] [Hbc _]. split; [by etrans|done].
Qed.

Section files.
Context `{!FileSystem, !FileSystemLaws}.
Implicit Types (c : DefaultProcessConfig).

Lemma preopen_clean dir c : dirs_clean c → resolved (add_preopened_dir dir c) → dirs_clean (add_preopened_dir dir c).
Proof.
  intros Hc Hres d Hd. specialize (Hres d Hd). unfold add_preopened_dir in Hd. simpl in Hd. apply elem_of_app in Hd as [Hd|Hd]; [by apply Hc|].
  apply list_elem_of_singleton in Hd as ->. simpl in Hres |- *. set (path := if decide (dir = "~") then _ else _) in *.
  pose proof (get_absolute_path_spec (path_new path) (path_new_valid path)) as Hspec. destruct (get_absolute_path _) as [p|]; [by exists p|].
  destruct Hspec as [Hroot Hcwd]. destruct Hres as (q & Hq & _). by rewrite (no_current_dir _ Hcwd Hroot) in Hq.
Qed.

#[export] Instance kept_files_kept : Kept dirs_clean kept_files.
Proof.
  split.
  - by intros c self (_ & ? & _ & ?).
  - apply new_child_ok.
  - intros f c self Hf Hc (Hrun & Hres & Hatt)%validate_child_Ok. split_and!; [done|done|done|].
    destruct Hf as [Hf|[dir ->]]; [unfold dirs_clean; by rewrite Hf|by apply preopen_clean].
  - intros a b c (Hab & ? & ? & ?) (Hbc & _). split_and!; [by etrans|done..].
Qed.

(** *** Files *)

Lemma can_access_spec c loc :
  can_access_fs_location c loc = true ↔
  ∃ a dir d r, strip_file loc = Ok (a, dir) ∧ d ∈ preopened_dirs c ∧ get_absolute_path (path_new d.2) = Ok r ∧
    path_exists r = true ∧ is_dir r = true ∧ below dir r.
Proof.
  unfold can_access_fs_location. destruct (strip_file loc) as [[a dir]|]; [|split; [done|by intros (? & ? & ? & ? & ? & _)]]. rewrite existsb_exists. split.
  - intros (d & Hd & Hr). apply list_elem_of_In in Hd. destruct (get_absolute_path _) as [r|] eqn:Hg; [|done]. unfold path_is_ancestor in Hr.
    apply andb_true_iff in Hr as [? [? ?]%andb_true_iff]. exists a, dir, d, r. done.
  - intros (a' & dir' & d & r & [= <- <-] & Hd & Hg & He & Hdir & Hb). exists d. split; [by apply list_elem_of_In|]. rewrite Hg, He. unfold path_is_ancestor. by rewrite Hdir.
Qed.

(** The directory of a configuration, for a root of it. *)
Lemma root_dir c r : dirs_clean c → root_of c r →
  ∃ d, d ∈ preopened_dirs c ∧ get_absolute_path (path_new d.2) = Ok r ∧ path_exists r = true ∧ is_dir r = true.
Proof.
  intros Hc (d & Hd & Hcan & Hdir). exists d. split; [done|]. destruct (Hc d Hd) as (p & Hp & Heq). rewrite Heq, path_roundtrip in * by done.
  split; [by apply get_absolute_path_canonical|]. split; [|done]. apply exists_canonical. rewrite (canonical_idem p r Hcan). by eexists.
Qed.

Lemma access_shrinks c root loc :
  dirs_clean c → resolved c → dirs_clean root → attenuates c root → can_access_fs_location c loc = true → can_access_fs_location root loc = true.
Proof.
  intros Hc Hres Hroot Hatt (a & dir & d & r & Hs & Hd & Hg & He & Hdir & Hb)%can_access_spec. apply can_access_spec.
  destruct (Hres d Hd) as (q & Hq & Hqd). assert (q = r) as ->.
  { destruct (Hc d Hd) as (p & Hp & Heq). rewrite Heq, path_roundtrip in * by done. rewrite (get_absolute_path_canonical p q Hp Hq) in Hg. by injection Hg. }
  destruct (at_roots _ _ Hatt r) as (r' & Hr' & Hrr'); [by exists d|]. destruct (root_dir root r' Hroot Hr') as (d' & ? & ? & ? & ?).
  exists a, dir, d', r'. split_and!; try done. by etrans.
Qed.

(** For a path without [.] and [..] the check is about the location itself: what exists there
    is below a directory of the configuration. *)
Lemma access_confined c p q :
  dirs_clean c → resolved c → clean p → canonicalize p = Some q → is_file q = false → can_access_fs_location c p = true →
  ∃ r, root_of c r ∧ below q r.
Proof.
  intros Hc Hres Hp Hq Hfile (a & dir & d & r & Hs & Hd & Hg & He & Hdir & Hb)%can_access_spec. unfold strip_file in Hs.
  rewrite (get_absolute_path_canonical p q Hp Hq) in Hs. simpl in Hs. rewrite Hfile in Hs. injection Hs as <- <-. exists r. split; [|done].
  destruct (Hres d Hd) as (q' & Hq' & Hqd). exists d. split; [done|]. destruct (Hc d Hd) as (p' & Hp' & Heq). rewrite Heq, path_roundtrip in * by done.
  rewrite (get_absolute_path_canonical p' q' Hp' Hq') in Hg. injection Hg as ->. done.
Qed.

(** *** Parent components *)

Lemma entry_absolute r link name :
  clean r → canonicalize r = Some r → valid_name name →
  let entry := mkPath true (comps r ++ [Normal name]) in
  canonicalize entry = None ∨ canonicalize entry = Some entry →
  get_absolute_path (mkPath true (comps r ++ [Normal link; ParentDir; Normal name])) = Ok entry.
Proof.
  intros (l & -> & Hl)%clean_names Hr Hn entry Hentry. unfold get_absolute_path. simpl.
  assert (normalize_path (mkPath true ((Normal <$> l) ++ [Normal link; ParentDir; Normal name])) = entry) as ->.
  { unfold normalize_path, entry. simpl. rewrite foldl_app, normalize_snoc. simpl. by rewrite removelast_last. }
  unfold canonicalize_with_missing, entry in *. simpl in *. destruct Hentry as [Hmiss|Hent].
  - rewrite rev_unit. simpl. rewrite rev_involutive.
    destruct (path_exists (mkPath true ((Normal <$> l) ++ [Normal name]))) eqn:He; [apply exists_canonical in He; rewrite Hmiss in He; by destruct He|].
    assert (existing_ancestor true (rev (Normal <$> l)) [name] = Ok (mkPath true (Normal <$> l), [name])) as ->.
    { rewrite existing_ancestor_self; rewrite rev_involutive; [done|]. apply exists_canonical. rewrite Hr. by eexists. }
    simpl. rewrite Hr. simpl. unfold normalize_path. simpl. change [Normal name] with (Normal <$> [name]). by rewrite <- fmap_app, normalize_snoc.
  - assert (get_absolute_path (mkPath true ((Normal <$> l) ++ [Normal name])) = Ok (mkPath true ((Normal <$> l) ++ [Normal name]))) as Hg.
    { apply get_absolute_path_canonical; [|done]. apply clean_names. exists (l ++ [name]). rewrite fmap_app. split; [done|]. by apply Forall_app; split; [|apply Forall_singleton]. }
    unfold get_absolute_path in Hg. simpl in Hg. rewrite normalize_clean in Hg; [exact Hg|]. apply clean_names. exists (l ++ [name]). rewrite fmap_app.
    split; [done|]. by apply Forall_app; split; [|apply Forall_singleton].
Qed.

(** What is above an entry is above its directory, or is the entry. *)
Lemma below_entry cs x r :
  has_root r = true → below (mkPath true (cs ++ [x])) r → below (mkPath true cs) r ∨ r = mkPath true (cs ++ [x]).
Proof.
  destruct r as [root l]. simpl. intros -> [k Hk]%bool_decide_eq_true. simpl in Hk. injection Hk as Hk. rewrite fmap_app in Hk. change (Some <$> [x]) with [Some x] in Hk.
  destruct k as [|z k _] using rev_ind.
  - right. rewrite app_nil_r in Hk. f_equal. change [Some x] with (Some <$> [x]) in Hk. rewrite <- fmap_app in Hk. by apply (inj (fmap Some)) in Hk.
  - left. rewrite app_assoc in Hk. apply app_inj_tail in Hk as [Hk _]. apply bool_decide_eq_true_2. exists k. simpl. by rewrite Hk.
Qed.

(** The check takes the location for an entry of [r]. *)
Lemma dotdot_allowed c r link name :
  dirs_clean c → root_of c r → valid_name name →
  canonicalize (mkPath true (comps r ++ [Normal name])) = None ∨
  canonicalize (mkPath true (comps r ++ [Normal name])) = Some (mkPath true (comps r ++ [Normal name])) →
  can_access_fs_location c (mkPath true (comps r ++ [Normal link; ParentDir; Normal name])) = true.
Proof.
  intros Hc Hr Hn Hentry. pose proof Hr as (d0 & _ & Hcan & Hdir0). pose proof (canonical_clean _ _ Hcan) as Hclean. pose proof (canonical_idem _ _ Hcan) as Hidem.
  destruct (root_dir c r Hc Hr) as (d & Hd & Hg & He & Hdir). apply can_access_spec. unfold strip_file.
  rewrite (entry_absolute r link name Hclean Hidem Hn Hentry). simpl. destruct r as [root cs]. destruct Hclean as [Hroot _]. simpl in *. subst root.
  assert (∀ l, below (mkPath true (cs ++ l)) (mkPath true cs)) as Hbelow.
  { intros l. apply bool_decide_eq_true_2. simpl. apply prefix_cons. rewrite fmap_app. by apply prefix_app_r. }
  destruct (is_file _).
  - eexists _, _, d, _. split; [done|]. split_and!; try done. rewrite decide_False by (by destruct cs). unfold path_pop. simpl. rewrite removelast_last.
    specialize (Hbelow []). by rewrite app_nil_r in Hbelow.
  - eexists _, _, d, _. split; [done|]. split_and!; done.
Qed.

End files.

(** ** Changes of a configuration *)

(** How a host function reports that a change was refused. *)
Inductive Report : Type := Coded | Quiet | Trapping.

(** The settings by their numbers, and whether the value must fit 32 bits. *)
Definition settings : list (bool * (Z → DefaultProcessConfig → DefaultProcessConfig)) :=
  [(false, set_max_memory); (false, fun v => set_max_fuel (if v =? 0 then None else Some v)); (true, set_max_table_elements);
   (true, set_max_file_descriptors); (true, set_max_network_connections); (false, fun v => set_can_compile_modules (negb (v =? 0)));
   (false, fun v => set_can_create_configs (negb (v =? 0))); (false, fun v => set_can_spawn_processes (negb (v =? 0)));
   (true, set_max_mailbox_messages); (true, set_max_signal_queue); (false, set_max_message_size); (true, set_max_message_resources);
   (true, set_max_modules); (true, set_max_configs); (false, set_max_module_bytes); (true, set_max_config_entries);
   (false, set_max_config_bytes); (true, set_max_sqlite_connections); (true, set_max_sqlite_statements);
   (false, fun v => set_can_use_tls_credential_handles (negb (v =? 0)))].

Definition setting_update (n v : Z) : option (DefaultProcessConfig → DefaultProcessConfig) :=
  if n <? 0 then None else e ← settings !! Z.to_nat n; if e.1 && (u32_max <? v) then None else Some (e.2 v).

Lemma setting_unknown n v : 20 <= n → setting_update n v = None.
Proof.
  intros Hn. unfold setting_update. destruct (n <? 0); [done|].
  rewrite lookup_ge_None_2; [done|]. change (length settings) with 20%nat. lia.
Qed.

Section updates.
Context `{!FileSystem} {Module : Type}.
Context (overflow_checks : bool) (compile : list Z → option Module) (build_wasi : DefaultProcessConfig → bool).
Implicit Types (s : Guest (Module := Module)) (c : DefaultProcessConfig).

(** The text in a range of the memory. *)
Definition text s (ptr n : Z) : option string :=
  m ← memory s; r ← checked_guest_range ptr n; b ← slice m r.1 r.2; from_utf8 b.

(** What a call asks for: the configuration and its change, when the arguments describe one,
    and how a refusal is reported. *)
Definition asked (k : call (Module := Module)) s : option (Report * Z * option (DefaultProcessConfig → DefaultProcessConfig)) :=
  match k with
  | CSetChecked id n v => Some (Coded, id, setting_update n v)
  | CSet n id v => (fun e => (Quiet, id, Some (e.2 v))) <$> settings !! n
  | CAddEnvironmentVariable id kp kl vp vl =>
      Some (Trapping, id, key ← text s kp kl; value ← text s vp vl; Some (add_environment_variable key value))
  | CAddArgument id ptr n => Some (Trapping, id, argument ← text s ptr n; Some (add_command_line_argument argument))
  | CPreopenDir id ptr n => Some (Quiet, id, add_preopened_dir <$> text s ptr n)
  | CPreopenDirChecked id ptr n => Some (Coded, id, add_preopened_dir <$> text s ptr n)
  | _ => None
  end.

(** The configuration after a change that the process may delegate. *)
Definition delegable s (id : Z) (f : option (DefaultProcessConfig → DefaultProcessConfig)) c' : Prop :=
  ∃ g c, f = Some g ∧ store (config_resources s) !! id = Some c ∧ c' = g c ∧ runnable c' ∧ resolved c' ∧ attenuates c' (config s).

Definition put_config (id : Z) c s : Guest :=
  with_configs (mkHashMapId (id_seed (config_resources s)) (<[id := c]> (store (config_resources s)))) s.

(** The answer of [mutate_child_config], or of what comes before it. *)
Definition answers (id : Z) f s (o : outcome (Module := Module) (result unit GuestError)) : Prop :=
  (∃ c', delegable s id f c' ∧ o = Done (Ok tt) (put_config id c' s)) ∨ (¬ ∃ c', delegable s id f c') ∧ ∃ e, o = Done (Err e) s.

Lemma answers_none id s e : answers id None s (Done (Err e) s).
Proof. right. split; [by intros (c' & g & c & [=] & _)|by exists e]. Qed.

Lemma mutate_answers id g s : answers id (Some g) s (mutate_child_config id g s).
Proof.
  unfold mutate_child_config, bind, get_state, HashMapId.get. destruct (store (config_resources s) !! id) as [c|] eqn:Hid.
  2: { right. split; [|by eexists]. intros (c' & g' & c & _ & Hc & _). congruence. }
  pose proof (validate_child_Ok (config s) (g c)) as Hv. destruct (validate_child_config (config s) (g c)) as [[]|e].
  - left. destruct Hv as [Hv _]. destruct (Hv eq_refl) as (? & ? & ?). exists (g c). split; [by exists g, c|]. unfold modify, ret, put_config. do 2 f_equal.
    unfold get_mut. f_equal. apply map_eq. intros i.
    destruct (decide (i = id)) as [->|]; [by rewrite lookup_alter_eq, Hid, lookup_insert_eq|by rewrite lookup_alter_ne, lookup_insert_ne].
  - right. split; [|by eexists]. intros (c' & g' & c0 & [= <-] & Hc & -> & Hok). rewrite Hid in Hc. injection Hc as <-. by apply Hv in Hok.
Qed.

Lemma read_str_text ptr n s : read_str ptr n s = match text s ptr n with Some t => Done t s | None => Trapped s end.
Proof.
  unfold read_str, text, get_memory, bind, get_state, or_trap, ret, trap. destruct (memory s) as [m|]; [|done]. simpl.
  destruct (checked_guest_range ptr n) as [range|]; [|done]. simpl. destruct (slice m range.1 range.2); [|done]. simpl. by destruct (from_utf8 _).
Qed.

Lemma preopen_answers id ptr n s : answers id (add_preopened_dir <$> text s ptr n) s (preopen_dir_impl id ptr n s).
Proof.
  unfold preopen_dir_impl. rewrite read_str_text. destruct (text s ptr n) as [dir|]; [apply mutate_answers|apply answers_none].
Qed.

(** What the three kinds of functions make of the answer. *)
Definition reported (report : Report) id f s (o : outcome (Module := Module) Z) : Prop :=
  (∀ c', delegable s id f c' → o = Done (match report with Coded => -1 | _ => 0 end) (put_config id c' s)) ∧
  ((¬ ∃ c', delegable s id f c') →
   match report with
   | Quiet => o = Done 0 s
   | Trapping => o = Trapped s
   | Coded => ∃ e, o = bind (add_error_resource overflow_checks e) (fun eid => ret (to_i64 eid)) s
   end).

Lemma delegable_unique s id f c c' : delegable s id f c → delegable s id f c' → c = c'.
Proof. intros (g & x & -> & Hx & -> & _) (g' & x' & [= <-] & Hx' & -> & _). congruence. Qed.

Lemma answers_reported report id f s (m : host (result unit GuestError)) (k : result unit GuestError → host Z) :
  answers id f s (m s) →
  (∀ x, k (Ok tt) x = Done (match report with Coded => -1 | _ => 0 end) x) →
  (∀ e, match report with
        | Quiet => k (Err e) s = Done 0 s
        | Trapping => k (Err e) s = Trapped s
        | Coded => k (Err e) s = bind (add_error_resource overflow_checks e) (fun eid => ret (to_i64 eid)) s
        end) →
  reported report id f s (bind m k s).
Proof.
  intros Hm Hok Herr. change (bind m k s) with (match m s with Done a s => k a s | Trapped s => Trapped s | HostPanic => HostPanic end).
  destruct Hm as [(c' & Hd & ->)|[Hno [e ->]]]; split.
  - intros c'' Hd''. rewrite Hok. by rewrite (delegable_unique _ _ _ _ _ Hd Hd'').
  - intros Hno. destruct Hno. by exists c'.
  - intros c' Hd. destruct Hno. by exists c'.
  - intros _. specialize (Herr e). destruct report; [by exists e|done|done].
Qed.

Lemma bind_assoc {A B C} (m : host (Module := Module) A) (f : A → host B) (g : B → host C) s :
  bind (bind m f) g s = bind m (fun a => bind (f a) g) s.
Proof. unfold bind. by destruct (m s). Qed.

Lemma text_reported id ptr n (f : string → option (DefaultProcessConfig → DefaultProcessConfig)) (k : string → host unit) s :
  (∀ t, reported Trapping id (f t) s (bind (k t) (fun _ => ret 0) s)) →
  reported Trapping id (text s ptr n ≫= f) s (bind (bind (read_str ptr n) k) (fun _ => ret 0) s).
Proof.
  intros Hk. assert (∀ A (k : string → host A), bind (read_str ptr n) k s = match text s ptr n with Some t => k t s | None => Trapped s end) as Hread.
  { intros A k'. unfold bind. rewrite read_str_text. by destruct (text s ptr n). }
  rewrite bind_assoc, Hread. destruct (text s ptr n) as [t|]; [apply Hk|].
  split; [by intros c' (g & c & [=] & _)|done].
Qed.

Lemma trap_reported id g s : reported Trapping id (Some g) s (bind (mutate_or_trap id g) (fun _ => ret 0) s).
Proof. unfold mutate_or_trap. rewrite bind_assoc. apply answers_reported; [apply mutate_answers|done|done]. Qed.

Lemma checked_reported id n v s : reported Coded id (setting_update n v) s (config_set_checked overflow_checks id n v s).
Proof.
  unfold config_set_checked. apply answers_reported; [|done|done].
  assert (∀ e, setting_update n v = None → answers id (setting_update n v) s (Done (Err e) s)) as Hnone by (intros e ->; apply answers_none).
  assert (∀ g f, setting_update n v = (if u32_max <? v then None else Some (g v)) → f = g v →
    answers id (setting_update n v) s ((if v <=? u32_max then mutate_child_config id f else ret (Err (Message "exceeds u32"))) s)) as Hu32.
  { intros g f Hg ->. rewrite Hg in *. destruct (v <=? u32_max) eqn:H1, (u32_max <? v) eqn:H2; bool_to_prop; try lia; [apply mutate_answers|by apply Hnone]. }
  destruct n as [|p|p]; [by apply mutate_answers| |by apply Hnone].
  do 5 (try (destruct p as [p|p|]); try (by apply mutate_answers); try (by eapply Hu32);
        try (apply Hnone, setting_unknown; lia)).
Qed.

Lemma add_error_frame e s id s' :
  add_error_resource overflow_checks e s = Done id s' →
  s' = with_errors (error_resources s') s ∧ is_Some (HashMapId.get id (error_resources s')).
Proof.
  assert (∀ x, table_add overflow_checks x (error_resources s) with_errors s = Done id s' →
    s' = with_errors (error_resources s') s ∧ is_Some (HashMapId.get id (error_resources s'))) as Hadd.
  { intros x. unfold table_add, HashMapId.add. destruct (overflowing_add _ _ _ _); [|done]. intros [= <- <-]. split; [done|].
    unfold HashMapId.get. simpl. rewrite lookup_insert_eq. by eexists. }
  unfold add_error_resource, bind, get_state. destruct (limit_error_id (error_resources s)) as [x|] eqn:Hl; destruct (_ <=? _); try apply Hadd.
  intros [= <- <-]. split; [by destruct s|]. unfold limit_error_id in Hl. destruct (list_find _ _) as [[i [y z]]|] eqn:Hf; [|done]. injection Hl as <-.
  apply list_find_Some in Hf as (Hf & _). apply list_elem_of_lookup_2, elem_of_map_to_list in Hf. unfold HashMapId.get. rewrite Hf. by eexists.
Qed.

(** C13. A host function that changes a configuration of the guest does it exactly when the
    result could be delegated: it has room for messages and keeps its values within its own
    limits, each of its directories is an existing directory below one of the caller's, and no
    capability, ceiling or fuel exceeds the caller's.  Then the configuration, and nothing else,
    is changed.  Otherwise, and for arguments that describe no change, nothing of the
    configurations is changed, and what the guest is told depends on the function: the checked
    setter and [config_preopen_dir_checked] return the number of an error that is kept (or
    panic, when no number is left), the functions for arguments and environment variables trap, and the older setters and
    [config_preopen_dir] return as if nothing had happened. *)
Theorem config_update_exact k s report id f :
  asked k s = Some (report, id, f) →
  let '(o, child) := exec_call overflow_checks compile build_wasi k s in
  child = None ∧
  (∀ c', delegable s id f c' → o = Done (match report with Coded => -1 | _ => 0 end) (put_config id c' s)) ∧
  ((¬ ∃ c', delegable s id f c') →
   match report with
   | Quiet => o = Done 0 s
   | Trapping => o = Trapped s
   | Coded => o = HostPanic ∨ ∃ eid errors, o = Done (to_i64 eid) (with_errors errors s) ∧ is_Some (HashMapId.get eid errors)
   end).
Proof.
  intros Ha. assert (reported report id f s (exec_call overflow_checks compile build_wasi k s).1 ∧ (exec_call overflow_checks compile build_wasi k s).2 = None) as [Hr Hn].
  { destruct k; try discriminate Ha; simpl in Ha.
    - injection Ha as <- <- <-. split; [apply checked_reported|done].
    - destruct (settings !! setter) as [[b g]|] eqn:Hs; [|discriminate Ha]. injection Ha as <- <- <-. split; [|done]. simpl.
      assert (∃ h, legacy_setters !! setter = Some h ∧ ∀ i v, h i v = set_quietly (Module := Module) i (g v)) as (h & -> & Hh).
      { do 20 (destruct setter as [|setter]; [injection Hs as <- <-; by eexists|]). done. }
      rewrite Hh. unfold set_quietly. rewrite bind_assoc. apply answers_reported; [apply mutate_answers|done|done].
    - injection Ha as <- <- <-. split; [|done]. simpl. unfold config_add_environment_variable. apply text_reported. intros key. apply text_reported. intros v.
      apply trap_reported.
    - injection Ha as <- <- <-. split; [|done]. simpl. unfold config_add_command_line_argument. apply text_reported. intros v. apply trap_reported.
    - injection Ha as <- <- <-. split; [|done]. simpl. unfold config_preopen_dir. rewrite bind_assoc. apply answers_reported; [apply preopen_answers|done|done].
    - injection Ha as <- <- <-. split; [|done]. simpl. unfold config_preopen_dir_checked. apply answers_reported; [apply preopen_answers|done|done]. }
  destruct (exec_call _ _ _ k s) as [o child]. simpl in Hr, Hn. split; [done|]. destruct Hr as [H1 H2]. split; [done|]. intros Hno. specialize (H2 Hno).
  destruct report; [|done|done]. destruct H2 as [e ->]. unfold bind. destruct (add_error_resource overflow_checks e s) as [eid s'|s'|] eqn:He; [right| |by left].
  - apply add_error_frame in He as [Hs Hid]. exists eid, (error_resources s'). split; [|done]. by rewrite <- Hs.
  - exfalso. revert He. unfold add_error_resource, bind, get_state, table_add. by destruct (limit_error_id _); destruct (_ <=? _); try destruct (HashMapId.add _ _ _).
Qed.
End updates.

(** ** A node whose file system changes *)

Section nodes.
Context {Module : Type} (overflow_checks : bool) (compile : list Z → option Module) (build_wasi : DefaultProcessConfig → bool).

(** A step of a guest, or a change of the file system that [R] allows. *)
Inductive node_step (R : FileSystem → FileSystem → Prop) : relation (FileSystem * gmap Z (Guest (Module := Module))) :=
| ns_guest fs op g g' : @guest_exec fs Module overflow_checks compile build_wasi op g = Some g' → node_step R (fs, g) (fs, g')
| ns_files fs fs' g : R fs fs' → node_step R (fs, g) (fs', g).

(** Every path that leads to a directory goes on leading to this directory: files come and go
    and directories are made, but none is removed, renamed or replaced by a link. *)
Definition dirs_stay (fs fs' : FileSystem) : Prop :=
  @FileSystemLaws fs' ∧
  ∀ p q, @canonicalize fs p = Some q → @is_dir fs q = true → @canonicalize fs' p = Some q ∧ @is_dir fs' q = true.

Lemma limits_reachable R root m pid0 fs0 fs g :
  runnable root → rtc (node_step R) (fs0, {[pid0 := first_guest root m]}) (fs, g) → tree_ok (fun _ => True) kept_limits root g.
Proof.
  intros Hr Hsteps. change g with (fs, g).2. revert Hsteps. apply (rtc_invariant _ (fun n => tree_ok (fun _ => True) kept_limits root n.2)).
  - intros a b Ha Hab. inversion Hab as [fs1 op g1 g2 Hop|]; subst; [|done]. simpl in *.
    by apply (@guest_exec_ok fs1 _ _ _ Module overflow_checks compile build_wasi root op g1).
  - by apply first_tree_ok.
Qed.

(** What was given stays below what it was taken from. *)
Lemma kept_files_stay fs fs' c self : dirs_stay fs fs' → @kept_files fs c self → @kept_files fs' c self.
Proof.
  intros [_ Hstay] ([Hw Hroots] & Hrun & Hres & Hcl). split_and!; [|done| |done].
  - split; [done|]. intros q (d & Hd & Hq & Hdir). destruct (Hres d Hd) as (q' & Hq' & Hdir'). destruct (Hstay _ _ Hq' Hdir') as [Hq2 _].
    assert (q' = q) as -> by congruence. destruct (Hroots q) as (r & (d' & Hd' & Hr & Hrd) & Hb); [by exists d|].
    destruct (Hstay _ _ Hr Hrd). exists r. split; [by exists d'|done].
  - intros d Hd. destruct (Hres d Hd) as (q & Hq & Hdir). exists q. by apply Hstay.
Qed.

Lemma files_reachable root m pid0 fs0 fs g :
  @FileSystemLaws fs0 → runnable root → dirs_clean root → rtc (node_step dirs_stay) (fs0, {[pid0 := first_guest root m]}) (fs, g) →
  @FileSystemLaws fs ∧ tree_ok dirs_clean (@kept_files fs) root g.
Proof.
  intros Hl Hr Hc Hsteps.
  enough (@FileSystemLaws (fs, g).1 ∧ tree_ok dirs_clean (@kept_files (fs, g).1) root (fs, g).2) as Hok by exact Hok.
  revert Hsteps. apply (rtc_invariant _ (fun n => @FileSystemLaws n.1 ∧ tree_ok dirs_clean (@kept_files n.1) root n.2)).
  - intros a b [Hla Ha] Hab. inversion Hab as [fs1 op g1 g2 Hop|fs1 fs2 g1 Hs]; subst; simpl in *.
    + split; [done|]. by apply (@guest_exec_ok fs1 _ _ _ Module overflow_checks compile build_wasi root op g1).
    + split; [apply Hs|]. intros pid s Hpid. destruct (Ha pid s Hpid) as ([H1 H2 H3 H4 H5] & Hk). split; [split; try done|].
      * intros id c Hid. exact (kept_files_stay fs1 fs2 c (config s) Hs (H3 id c Hid)).
      * destruct Hk as [?|Hk]; [by left|right]. exact (kept_files_stay fs1 fs2 _ _ Hs Hk).
  - split; [done|]. by apply first_tree_ok.
Qed.

(** C11. Authority only shrinks.  The processes of a node make and change configurations, take
    and compile modules and spawn processes, by every host function that does one of these, in any
    order, with any arguments and memory, while the file system changes in any way.  Every
    process that descends from the first one has at most its capabilities, ceilings and fuel, and
    so has every configuration that a process holds with respect to this process; all of them
    satisfy the limits of the runtime, and a process holds no more configurations and modules
    than it may. *)
Theorem authority_only_shrinks root m pid0 fs0 fs g pid s :
  runnable root → rtc (node_step (fun _ _ => True)) (fs0, {[pid0 := first_guest root m]}) (fs, g) → g !! pid = Some s →
  weaker (config s) root ∧ runnable (config s) ∧
  (∀ id c, store (config_resources s) !! id = Some c → weaker c (config s) ∧ runnable c) ∧
  Z.of_nat (len (config_resources s)) <= Z.max 0 (max_configs (config s)) ∧
  Z.of_nat (len (module_resources s)) <= Z.max 0 (max_modules (config s)).
Proof.
  intros Hr Hsteps Hs. destruct (limits_reachable _ root m pid0 fs0 fs g Hr Hsteps pid s Hs) as ([H1 _ H3 H4 H5] & Hk). split_and!; try done.
  by destruct Hk as [->|[? _]].
Qed.

(** C12. So do the directories and the locations, as long as directories stay where they are.
    When every path that leads to a directory goes on leading to this directory while the
    processes run, and the directories of the first process are given by absolute paths, then
    each directory of a process, and of a configuration it holds, is one of its parent or below
    one, and a location of the file system that a process may open, by
    [can_access_fs_location], is one that the first process may open. *)
Theorem files_only_shrink root m pid0 fs0 fs g pid s :
  @FileSystemLaws fs0 → runnable root → dirs_clean root →
  rtc (node_step dirs_stay) (fs0, {[pid0 := first_guest root m]}) (fs, g) → g !! pid = Some s →
  @attenuates fs (config s) root ∧
  (∀ id c, store (config_resources s) !! id = Some c → @attenuates fs c (config s)) ∧
  ∀ loc, @can_access_fs_location fs (config s) loc = true → @can_access_fs_location fs root loc = true.
Proof.
  intros Hl Hr Hc Hsteps Hs. destruct (files_reachable root m pid0 fs0 fs g Hl Hr Hc Hsteps) as [Hl' Hok].
  destruct (Hok pid s Hs) as ([_ H2 H3 _ _] & Hk). split_and!.
  - destruct Hk as [->|[? _]]; [by apply (@attenuates_preorder fs)|done].
  - intros id c Hid. by destruct (H3 id c Hid) as [? _].
  - intros loc. destruct Hk as [->|(Hatt & _ & Hres & _)]; [done|]. by apply (@access_shrinks fs Hl').
Qed.

(** ** Processes spawned for another node *)

Lemma distributed_Ok c :
  validate_distributed_config c = Ok tt ↔
  runnable c ∧ Forall2 cap_le (capabilities c) (capabilities default_config) ∧ Forall2 Z.le (ceilings c) (ceilings default_config) ∧ preopened_dirs c = [].
Proof.
  unfold validate_distributed_config. rewrite (bind_ensure _ _ _ _ (runtime_limits_Ok c)), !(bind_ensure _ _ _ _ (check_capability_Ok _ _ _)),
    !(bind_ensure _ _ _ _ (check_ceiling_Ok _ _ _)), ensure_Ok, bool_decide_eq_true. unfold capabilities, ceilings. rewrite !Forall2_cons_and. intuition; by apply Forall2_nil.
Qed.

Lemma prepare_needs_capability `{!FileSystem} link cid mid fp fl pp pl ip (s s1 : Guest (Module := Module)) q :
  spawn_prepare overflow_checks build_wasi link cid mid fp fl pp pl ip s = Done (inr q) s1 → can_spawn_processes (config s) = true.
Proof.
  intros Hp. unfold spawn_prepare in Hp. change (bind get_state ?f s) with (f s s) in Hp. cbn beta in Hp.
  destruct (can_spawn_processes (config s)); [done|]. simpl in Hp. unfold bind at 1 in Hp. destruct (return_process_error _ _ _ _); discriminate.
Qed.

Lemma spawn_needs_capability `{!FileSystem} k (s : Guest (Module := Module)) o pid r :
  runnable (config s) → (∀ id c, store (config_resources s) !! id = Some c → kept_limits c (config s)) →
  Z.of_nat (len (config_resources s)) <= Z.max 0 (max_configs (config s)) → Z.of_nat (len (module_resources s)) <= Z.max 0 (max_modules (config s)) →
  exec_call overflow_checks compile build_wasi k s = (o, Some (pid, r)) → can_spawn_processes (config s) = true.
Proof.
  intros H1 H2 H3 H4. assert (guest_ok (fun _ => True) kept_limits s) as Hs by (by split). destruct k; simpl; unfold silent, HostConfig.value; try done.
  - unfold spawn. destruct (spawn_prepare _ _ _ _ _ _ _ _ _ _ _) as [[code|q] s1|s1|] eqn:Hp; [done| |done..]. intros _. by eapply prepare_needs_capability.
  - unfold get_or_spawn. pose proof (fine_read_name (fun _ => True) kept_limits overflow_checks (config s) name_ptr name_len node_id_ptr id_ptr s Hs eq_refl) as Hn.
    destruct (read_name _ _ _ _ _ _) as [name s1|s1|]; [|done..]. destruct Hn as (_ & <- & _). destruct (lookup_live n name) as [[[node p]|] names]; [done|].
    destruct (ensure_registry_insert_capacity _ _); [|done]. destruct (spawn_prepare _ _ _ _ _ _ _ _ _ _ _) as [[code|q] s2|s2|] eqn:Hp; [done| |done..].
    intros _. by eapply prepare_needs_capability.
Qed.

(** A process that another node asked for, with a configuration that both nodes accept,
    has no directory and never makes another process, whatever it calls. *)
Theorem remote_process_confined c m pid fs0 fs g :
  validate_distributed_config c = Ok tt → rtc (node_step (fun _ _ => True)) (fs0, {[pid := first_guest c m]}) (fs, g) →
  (∀ pid' s, g !! pid' = Some s → pid' = pid ∧ ∀ loc, @can_access_fs_location fs (config s) loc = false).
Proof.
  intros (Hrun & Hcaps & _ & Hdirs)%distributed_Ok Hsteps.
  assert (can_spawn_processes c = false) as Hspawn.
  { unfold capabilities in Hcaps. rewrite !Forall2_cons_and in Hcaps. destruct Hcaps as (_ & _ & Hs & _). destruct (can_spawn_processes c); [|done]. by specialize (Hs eq_refl). }
  enough (tree_ok (fun _ => True) kept_limits c (fs, g).2 ∧ ∀ pid' s, (fs, g).2 !! pid' = Some s → pid' = pid ∧ config s = c) as [_ Hall].
  { intros pid' s Hs. destruct (Hall pid' s Hs) as [-> Hc]. split; [done|]. intros loc. rewrite Hc. unfold can_access_fs_location.
    rewrite Hdirs. by destruct (strip_file loc) as [[]|]. }
  revert Hsteps. apply (rtc_invariant _ (fun n => tree_ok (fun _ => True) kept_limits c n.2 ∧ ∀ pid' s, n.2 !! pid' = Some s → pid' = pid ∧ config s = c)).
  - intros a b [Hok Hall] Hab. inversion Hab as [fs1 op g1 g2 Hop|]; subst; [|done]. simpl in *.
    split; [by apply (@guest_exec_ok fs1 _ _ _ Module overflow_checks compile build_wasi c op g1)|]. intros pid' s'. destruct op as [p k|p m' e|p|p]; simpl in Hop.
    + apply bind_Some in Hop as (s & Hs & Hop). destruct (Hall p s Hs) as [-> Hc]. destruct (Hok pid s Hs) as (Hg & _).
      pose proof (proj1 (@exec_call_ok fs1 (fun _ => True) kept_limits _ Module overflow_checks compile build_wasi k s Hg)) as Ho.
      destruct (exec_call _ _ _ k s) as [o q] eqn:Hk. simpl in Ho.
      assert (q = None) as ->.
      { destruct q as [[child r]|]; [|done]. destruct Hg. apply spawn_needs_capability in Hk; [|done..]. congruence. }
      injection Hop as <-. destruct o as [a s1|s1|]; [|by intros [_ ?]%lookup_delete_Some; eauto..].
      intros [[<- <-]|[_ ?]]%lookup_insert_Some; [|eauto]. split; [done|]. destruct Ho as (_ & -> & _). done.
    + apply bind_Some in Hop as (s & Hs & [= <-]). destruct (Hall p s Hs) as [-> Hc]. intros [[<- <-]|[_ ?]]%lookup_insert_Some; eauto.
    + apply bind_Some in Hop as (s & Hs & [= <-]). destruct (Hall p s Hs) as [-> Hc]. intros [[<- <-]|[_ ?]]%lookup_insert_Some; eauto.
    + injection Hop as <-. intros [_ ?]%lookup_delete_Some. eauto.
  - split; [by apply first_tree_ok|]. cbn [snd]. by intros pid' s [<- <-]%lookup_singleton_Some.
Qed.
End nodes.

(** ** Examples *)

Module ConfigDemo.
(** [/data] has a link to [/other/deep]. *)
Definition tree : Tree :=
  <[["data"] := Dir]> (<[["data"; "sub"] := Dir]> (<[["data"; "link"] := Link (path_new "/other/deep")]>
    (<[["other"] := Dir]> (<[["other"; "deep"] := Dir]> (<[["other"; "secret"] := File]> ∅))))).
#[local] Instance fs : FileSystem := tree_fs 63 tree.

Lemma demo_laws : FileSystemLaws.
Proof.
  apply tree_laws. intros k n Hk. unfold tree in Hk. repeat (apply lookup_insert_Some in Hk as [[<- _]|[_ Hk]]; [apply (bool_decide_unpack _); vm_compute; exact I|]).
  discriminate Hk.
Qed.

Definition root : DefaultProcessConfig := add_preopened_dir "/data" (set_can_create_configs true (set_can_spawn_processes true default_config)).

(** [/data/sub] and the name of a function. *)
Definition bytes_of (s : string) : list Z := (fun c => Z.of_N (Ascii.N_of_ascii c)) <$> String.list_ascii_of_string s.
Definition mem : list Z := bytes_of "/data/sub" ++ bytes_of "main" ++ replicate 16 0.
(** The first process makes a configuration that may spawn, with one directory, and a
    process with it. *)
Definition history : list (guest_op (Module := unit)) :=
  [Compute 1 (Some mem) HashMapId.new; Initialized 1; Call 1 CCreateConfig; Call 1 (CSetChecked 0 7 1); Call 1 (CPreopenDir 0 0 9);
   Call 1 (CTakeModule (Some tt)); Call 1 (CSpawn (Ok 2) 0 0 (-1) 9 4 0 0 13)].
(** It is made by [get_or_spawn] under the name [main]. *)
Definition history_named : list (guest_op (Module := unit)) :=
  [Compute 1 (Some mem) HashMapId.new; Initialized 1; Call 1 CCreateConfig; Call 1 (CSetChecked 0 7 1); Call 1 (CPreopenDir 0 0 9);
   Call 1 (CGetOrSpawn (mkNames ∅ 0 (fun _ => true)) (Ok 2) 9 4 0 0 (-1) 9 4 0 0 13 21)].

Fixpoint run (ops : list guest_op) (g : gmap Z (Guest (Module := unit))) : option (gmap Z (Guest (Module := unit))) :=
  match ops with
  | [] => Some g
  | op :: ops => g ← guest_exec true (fun _ => Some tt) (fun _ => true) op g; run ops g
  end.

Abbreviation step R := (node_step (Module := unit) true (fun _ => Some tt) (fun _ => true) R).

Lemma guest_run_reachable R ops g g' : run ops g = Some g' → rtc (step R) (fs, g) (fs, g').
Proof.
  revert g. induction ops as [|op ops IH]; simpl; intros g; [intros [= ->]; apply rtc_refl|].
  intros (g1 & Hop & Hrun)%bind_Some. eapply rtc_l; [by apply (ns_guest _ _ _ _ _ op)|]. by apply IH.
Qed.

Lemma root_runnable : runnable root.
Proof. by apply runtime_limits_Ok. Qed.
Lemma root_clean : dirs_clean root.
Proof.
  intros d Hd. change (preopened_dirs root) with [("/data", "/data")] in Hd. apply list_elem_of_singleton in Hd as ->. exists (path_new "/data").
  split; [|done]. split; [done|]. apply Forall_singleton. exists "data". split; [done|]. apply (bool_decide_unpack _). by vm_compute.
Qed.
End ConfigDemo.
#[local] Existing Instance ConfigDemo.fs.
#[local] Existing Instance ConfigDemo.demo_laws.

(** A setter that gives a capability which the process does not have returns without a word. *)
Lemma config_update_exact_witness :
  let s := with_configs (mkHashMapId 1 {[0 := new_child_config ConfigDemo.root]}) (first_guest ConfigDemo.root tt) in
  exec_call true (fun _ => Some tt) (fun _ => true) (CSet 5 0 1) s = (Done 0 s, None) ∧
  ¬ ∃ c, delegable s 0 (Some (set_can_compile_modules true)) c.
Proof.
  intros s. split; [reflexivity|]. intros [c Hc].
  pose proof (config_update_exact true (fun _ => Some tt) (fun _ => true) (CSet 5 0 1) s Quiet 0 (Some (set_can_compile_modules true)) eq_refl) as H.
  destruct (exec_call true (fun _ => Some tt) (fun _ => true) (CSet 5 0 1) s) as [o child] eqn:Ho. destruct H as (_ & H & _). specialize (H c Hc).
  vm_compute in Ho. injection Ho as <- _. injection H as H. destruct Hc as (g & c0 & [= <-] & _ & -> & _).
  apply (f_equal can_compile_modules) in H. discriminate H.
Defined.

Lemma authority_only_shrinks_witness :
  ∃ g s, rtc (ConfigDemo.step (fun _ _ => True)) (ConfigDemo.fs, {[1 := first_guest ConfigDemo.root tt]}) (ConfigDemo.fs, g) ∧ g !! 2 = Some s ∧
    preopened_dirs (config s) = [("/data/sub", "/data/sub")] ∧ can_spawn_processes (config s) = true ∧ weaker (config s) ConfigDemo.root.
Proof.
  eassert (ConfigDemo.run ConfigDemo.history_named {[1 := first_guest ConfigDemo.root tt]} = Some _) as Hrun by (vm_compute; reflexivity).
  apply (ConfigDemo.guest_run_reachable (fun _ _ => True)) in Hrun. eexists _, _. split; [exact Hrun|]. split; [reflexivity|]. split; [reflexivity|]. split; [reflexivity|].
  refine (proj1 (authority_only_shrinks _ _ _ ConfigDemo.root tt 1 _ _ _ 2 _ ConfigDemo.root_runnable Hrun _)). reflexivity.
Defined.

Lemma files_only_shrink_witness :
  ∃ g s, rtc (ConfigDemo.step dirs_stay) (ConfigDemo.fs, {[1 := first_guest ConfigDemo.root tt]}) (ConfigDemo.fs, g) ∧ g !! 2 = Some s ∧
    can_access_fs_location (config s) (path_new "/data/sub/file") = true ∧ can_access_fs_location ConfigDemo.root (path_new "/data/sub/file") = true ∧
    can_access_fs_location (config s) (path_new "/data/file") = false.
Proof.
  eassert (ConfigDemo.run ConfigDemo.history {[1 := first_guest ConfigDemo.root tt]} = Some _) as Hrun by (vm_compute; reflexivity).
  apply (ConfigDemo.guest_run_reachable dirs_stay) in Hrun. eexists _, _. split; [exact Hrun|]. split; [reflexivity|]. split; [vm_compute; reflexivity|]. split; [|vm_compute; reflexivity].
  refine (proj2 (proj2 (files_only_shrink _ _ _ ConfigDemo.root tt 1 _ _ _ 2 _ ConfigDemo.demo_laws ConfigDemo.root_runnable ConfigDemo.root_clean Hrun _)) (path_new "/data/sub/file") _);
    [reflexivity|vm_compute; reflexivity].
Defined.


Lemma remote_process_confined_witness :
  ∃ g s, rtc (ConfigDemo.step (fun _ _ => True)) (ConfigDemo.fs, {[1 := first_guest default_config tt]}) (ConfigDemo.fs, g) ∧ g !! 1 = Some s ∧
    len (error_resources s) = 1%nat ∧ ∀ loc, can_access_fs_location (config s) loc = false.
Proof.
  eassert (ConfigDemo.run [Compute 1 (Some ConfigDemo.mem) HashMapId.new; Initialized 1; Call 1 (CSpawn (Ok 2) 0 (-1) (-1) 9 4 0 0 13)] {[1 := first_guest default_config tt]} = Some _)
    as Hrun by (vm_compute; reflexivity).
  apply (ConfigDemo.guest_run_reachable (fun _ _ => True)) in Hrun. eexists _, _. split; [exact Hrun|]. split; [reflexivity|]. split; [vm_compute; reflexivity|].
  refine (proj2 (remote_process_confined _ _ _ default_config tt 1 _ _ _ _ Hrun 1 _ _)); [vm_compute; reflexivity|reflexivity].
Defined.
