(* ===== verification/GuestOtp.v ===== *)
(** * [crates/lunatic-otp-patterns/src/guest.rs]: the envelope of guest servers

    Guests that implement servers put a header of 24 bytes before the payload of a
    message: a magic number, the kind of the message, the process that waits for a reply
    and the tag the reply must have.  Bytes are [Z] from 0 to 255. *)

From S2P Require Import Prelude.

Definition GUEST_OTP_MAGIC : Z := le_value [79; 84; 80; 49].
Definition GUEST_OTP_HEADER_LEN : nat := 24.

Inductive GuestOtpKind : Type := KCall | KCast | KStop | KReply.

#[export] Instance GuestOtpKind_eq_dec : EqDecision GuestOtpKind.
Proof. solve_decision. Defined.

(** [kind as u32] *)
Definition kind_value (k : GuestOtpKind) : Z :=
  match k with KCall => 1 | KCast => 2 | KStop => 3 | KReply => 4 end.

Inductive GuestOtpError : Type :=
| UnknownKind (value : Z)
| NoCaller
| NoTag
| ReplyNoTag
| TooShort
| BadMagic
| CastWithTarget
| ReplyWithCaller.

Definition kind_try_from (value : Z) : result GuestOtpKind GuestOtpError :=
  if value =? 1 then Ok KCall
  else if value =? 2 then Ok KCast
  else if value =? 3 then Ok KStop
  else if value =? 4 then Ok KReply
  else Err (UnknownKind value).

Record GuestOtpHeader : Type := mkHeader {
  kind : GuestOtpKind;
  caller_process_id : Z;
  reply_tag : Z;
}.

Definition validate_reply_target (caller tag : Z) : result unit GuestOtpError :=
  if caller =? 0 then Err NoCaller
  else if tag =? 0 then Err NoTag
  else Ok tt.

Definition header_call (caller tag : Z) : result GuestOtpHeader GuestOtpError :=
  let? _ := validate_reply_target caller tag in Ok (mkHeader KCall caller tag).

Definition header_cast : GuestOtpHeader := mkHeader KCast 0 0.

Definition header_stop (caller tag : Z) : result GuestOtpHeader GuestOtpError :=
  let? _ := validate_reply_target caller tag in Ok (mkHeader KStop caller tag).

Definition header_reply (tag : Z) : result GuestOtpHeader GuestOtpError :=
  if tag =? 0 then Err ReplyNoTag else Ok (mkHeader KReply 0 tag).

(** [bytes[at_..at_ + src.len()].copy_from_slice(src)] *)
Definition copy_from_slice (at_ : nat) (src bytes : list Z) : list Z :=
  take at_ bytes ++ src ++ drop (at_ + length src) bytes.

(** An [i64] is stored as the bits of its two's complement. *)
Definition encode (h : GuestOtpHeader) : list Z :=
  let bytes := replicate GUEST_OTP_HEADER_LEN 0 in
  let bytes := copy_from_slice 0 (le_bytes 4 GUEST_OTP_MAGIC) bytes in
  let bytes := copy_from_slice 4 (le_bytes 4 (kind_value (kind h))) bytes in
  let bytes := copy_from_slice 8 (le_bytes 8 (caller_process_id h)) bytes in
  copy_from_slice 16 (le_bytes 8 (reply_tag h mod 2 ^ 64)) bytes.

(** [bytes[from..to]] *)
Definition slice (from to : nat) (bytes : list Z) : list Z := take (to - from) (drop from bytes).

(** The last [match] of [decode]. *)
Definition check_kind (k : GuestOtpKind) (caller tag : Z) : result unit GuestOtpError :=
  match k with
  | KCall | KStop => validate_reply_target caller tag
  | KCast => if negb (caller =? 0) || negb (tag =? 0) then Err CastWithTarget else Ok tt
  | KReply => if negb (caller =? 0) || (tag =? 0) then Err ReplyWithCaller else Ok tt
  end.

Definition decode (bytes : list Z) : result GuestOtpHeader GuestOtpError :=
  let? _ := ensure (GUEST_OTP_HEADER_LEN <=? length bytes)%nat TooShort in
  let? _ := ensure (le_value (slice 0 4 bytes) =? GUEST_OTP_MAGIC) BadMagic in
  let? kind := kind_try_from (le_value (slice 4 8 bytes)) in
  let caller := le_value (slice 8 16 bytes) in
  let tag := as_signed 64 (le_value (slice 16 24 bytes)) in
  let? _ := check_kind kind caller tag in
  Ok (mkHeader kind caller tag).

Definition encode_guest_otp_message (h : GuestOtpHeader) (payload : list Z) : list Z :=
  encode h ++ payload.

Definition decode_guest_otp_message (bytes : list Z) : result (GuestOtpHeader * list Z) GuestOtpError :=
  let? h := decode bytes in Ok (h, drop GUEST_OTP_HEADER_LEN bytes).

(** ** The headers of the contract *)

(** The fields are of their machine types and the constructors of the source can build
    the header. *)
Definition typed (h : GuestOtpHeader) : Prop :=
  0 <= caller_process_id h < 2 ^ 64 ∧ - 2 ^ 63 <= reply_tag h < 2 ^ 63.

Definition constructed (h : GuestOtpHeader) : Prop :=
  h = header_cast ∨
  (∃ caller tag, header_call caller tag = Ok h ∨ header_stop caller tag = Ok h) ∨
  (∃ tag, header_reply tag = Ok h).

Lemma encode_fields h :
  encode h = le_bytes 4 GUEST_OTP_MAGIC ++ le_bytes 4 (kind_value (kind h)) ++
             le_bytes 8 (caller_process_id h) ++ le_bytes 8 (reply_tag h mod 2 ^ 64).
Proof. reflexivity. Qed.

Lemma encode_length h : length (encode h) = GUEST_OTP_HEADER_LEN.
Proof. reflexivity. Qed.

Lemma kind_value_range k : 0 <= kind_value k < 256 ^ 4.
Proof. by destruct k. Qed.

Lemma kind_try_from_value k : kind_try_from (kind_value k) = Ok k.
Proof. by destruct k. Qed.

Lemma kind_try_from_Ok v k : kind_try_from v = Ok k → v = kind_value k.
Proof. unfold kind_try_from. intros H. case_all; bool_to_prop; by subst. Qed.

Lemma validate_reply_target_Ok caller tag :
  validate_reply_target caller tag = Ok tt ↔ caller ≠ 0 ∧ tag ≠ 0.
Proof. unfold validate_reply_target. case_all; bool_to_prop; naive_solver. Qed.

(** The fields of an encoded header, whatever follows it. *)
Lemma slices_of_encode h payload :
  let bytes := encode_guest_otp_message h payload in
  slice 0 4 bytes = le_bytes 4 GUEST_OTP_MAGIC ∧ slice 4 8 bytes = le_bytes 4 (kind_value (kind h)) ∧
  slice 8 16 bytes = le_bytes 8 (caller_process_id h) ∧ slice 16 24 bytes = le_bytes 8 (reply_tag h mod 2 ^ 64) ∧
  drop 24 bytes = payload.
Proof. done. Qed.

(** Bytes that are long enough are their four fields and a payload. *)
Lemma bytes_are_slices bytes :
  (GUEST_OTP_HEADER_LEN <= length bytes)%nat →
  bytes = slice 0 4 bytes ++ slice 4 8 bytes ++ slice 8 16 bytes ++ slice 16 24 bytes ++ drop 24 bytes.
Proof.
  intros Hl. unfold GUEST_OTP_HEADER_LEN in Hl. unfold slice.
  do 24 (destruct bytes as [|? bytes]; [simpl in Hl; lia|]). by rewrite drop_0.
Qed.

Lemma slice_length from to bytes : (from <= to <= length bytes)%nat → length (slice from to bytes) = (to - from)%nat.
Proof. intros H. unfold slice. rewrite length_take, length_drop. lia. Qed.

Lemma slice_bytes from to bytes : Forall is_byte bytes → Forall is_byte (slice from to bytes).
Proof. intros H. by apply Forall_take, Forall_drop. Qed.

Lemma field_bytes from to bytes :
  Forall is_byte bytes → (from <= to <= length bytes)%nat →
  le_bytes (to - from) (le_value (slice from to bytes)) = slice from to bytes ∧
  0 <= le_value (slice from to bytes) < 256 ^ Z.of_nat (to - from).
Proof.
  intros Hb Hl. rewrite <- (slice_length from to bytes Hl).
  split; [apply le_bytes_value|apply le_value_bound]; by apply slice_bytes.
Qed.

(** What the kind asks of the other fields. *)
Definition kind_ok (h : GuestOtpHeader) : Prop :=
  match kind h with
  | KCall | KStop => caller_process_id h ≠ 0 ∧ reply_tag h ≠ 0
  | KCast => caller_process_id h = 0 ∧ reply_tag h = 0
  | KReply => caller_process_id h = 0 ∧ reply_tag h ≠ 0
  end.

Lemma constructed_iff h : constructed h ↔ kind_ok h.
Proof.
  unfold constructed, header_call, header_stop, header_reply, header_cast, kind_ok. split.
  - intros [-> | [(c & t & [H|H]) | (t & H)]]; [done| | |].
    1,2: apply result_bind_Ok in H as ([] & Hv & [= <-]); by apply validate_reply_target_Ok in Hv.
    case_all; bool_to_prop; done.
  - destruct h as [[] c t]; simpl; intros [Hc Ht].
    + right. left. exists c, t. left. by rewrite (proj2 (validate_reply_target_Ok c t)).
    + left. by subst.
    + right. left. exists c, t. right. by rewrite (proj2 (validate_reply_target_Ok c t)).
    + right. right. exists t. subst. by rewrite (proj2 (Z.eqb_neq t 0)).
Qed.

Lemma check_kind_Ok k c t : check_kind k c t = Ok tt ↔ kind_ok (mkHeader k c t).
Proof.
  destruct k; simpl; unfold kind_ok; simpl; rewrite ?validate_reply_target_Ok; [done| |done|];
    destruct (Z.eqb_spec c 0), (Z.eqb_spec t 0); naive_solver.
Qed.

Lemma decode_Ok bytes h :
  decode bytes = Ok h ↔
  (GUEST_OTP_HEADER_LEN <= length bytes)%nat ∧ le_value (slice 0 4 bytes) = GUEST_OTP_MAGIC ∧
  le_value (slice 4 8 bytes) = kind_value (kind h) ∧ le_value (slice 8 16 bytes) = caller_process_id h ∧
  as_signed 64 (le_value (slice 16 24 bytes)) = reply_tag h ∧ kind_ok h.
Proof.
  unfold decode. rewrite result_bind_Ok. setoid_rewrite result_bind_Ok. setoid_rewrite result_bind_Ok.
  setoid_rewrite result_bind_Ok. split.
  - intros ([] & H1 & [] & H2 & k & H3 & [] & H4 & [= <-]). unfold ensure in *.
    apply kind_try_from_Ok in H3. apply check_kind_Ok in H4. destruct (_ <=? _)%nat eqn:Hl; [|done].
    destruct (_ =? _) eqn:Hm; [|done]. bool_to_prop. by apply Nat.leb_le in Hl.
  - destruct h as [k c t]. cbn [kind caller_process_id reply_tag]. intros (H1 & H2 & H3 & <- & <- & H4). exists tt. unfold ensure.
    rewrite (proj2 (Nat.leb_le _ _) H1). split; [done|]. exists tt. rewrite H2, Z.eqb_refl. split; [done|].
    exists k. rewrite H3, kind_try_from_value. split; [done|]. exists tt. split; [|done]. by apply check_kind_Ok.
Qed.

(** ** Theorem *)

(** C21. The envelope of guest servers is exact: bytes decode to a header and a payload
    exactly when the header is one that the constructors of the contract build, with
    fields of their machine types, and the bytes are its encoding followed by the payload.
    So encoding loses nothing, two messages never share an encoding, and every other
    byte string is refused. *)
Theorem guest_envelope_exact bytes h payload :
  Forall is_byte bytes →
  decode_guest_otp_message bytes = Ok (h, payload) ↔
  typed h ∧ constructed h ∧ bytes = encode_guest_otp_message h payload.
Proof.
  intros Hb. rewrite constructed_iff. unfold decode_guest_otp_message, typed. rewrite result_bind_Ok. split.
  - intros (h' & (Hl & Hm & Hk & Hc & Ht & Hok)%decode_Ok & [= -> <-]). unfold GUEST_OTP_HEADER_LEN in *.
    destruct (field_bytes 0 4 bytes Hb) as [E1 _]; [lia|]. destruct (field_bytes 4 8 bytes Hb) as [E2 _]; [lia|].
    destruct (field_bytes 8 16 bytes Hb) as [E3 R3]; [lia|]. destruct (field_bytes 16 24 bytes Hb) as [E4 R4]; [lia|].
    split; [|split; [done|]].
    + rewrite <- Hc, <- Ht. split; [exact R3|]. by apply (as_signed_range 64).
    + unfold encode_guest_otp_message. rewrite encode_fields, <- Hm, <- Hk, <- Hc, <- Ht, mod_as_signed by (done || exact R4).
      change (4 - 0)%nat with 4%nat in E1. change (8 - 4)%nat with 4%nat in E2.
      change (16 - 8)%nat with 8%nat in E3. change (24 - 16)%nat with 8%nat in E4.
      rewrite E1, E2, E3, E4, <- !app_assoc. by apply bytes_are_slices.
  - intros ([Hc Ht] & Hok & ->). exists h. split; [|done]. apply decode_Ok.
    destruct (slices_of_encode h payload) as (-> & -> & -> & -> & _).
    rewrite !le_value_bytes; [| |done|apply kind_value_range|done].
    + rewrite as_signed_mod by done. split_and!; try done.
      unfold encode_guest_otp_message. rewrite length_app, encode_length. lia.
    + by apply Z.mod_pos_bound.
Qed.

Lemma guest_envelope_exact_witness :
  decode_guest_otp_message (encode_guest_otp_message (mkHeader KCall 42 (-77)) [1; 2]) = Ok (mkHeader KCall 42 (-77), [1; 2]).
Proof.
  apply guest_envelope_exact.
  - repeat (apply Forall_cons_2; [by vm_compute|]). apply Forall_nil_2.
  - split_and!; [done..| |done]. right. left. exists 42, (-77). by left.
Defined.
