(* ===== verification/GenServer.v ===== *)
(** * [crates/lunatic-otp-patterns/src/gen_server.rs]: generic servers

    A generic server is a native process whose code is a loop over its mailbox; clients hold
    handles and call it from other threads.  A call puts the sending end of a channel into
    the table [pending] under a new request number, sends the request and waits on the
    channel; the server removes the entry and answers on it.  When the server ends, its
    guard sets the exit status, answers every pending call with an error and wakes the
    threads that wait for the exit; afterwards the process loop unregisters the process and
    closes its ingress ([run_native_process]), and a task that joined it tries to set the
    exit status again.

    The model interleaves the accesses of the server, of the spawner, of the joining task and
    of any number of clients to what they share.  The server's code ([GenServer]) and its
    serialization ([Bincode]) are parameters; [None] is a panic of a handler.  Others may
    send signals and messages to the process, but no forged calls.  Theorems:
    [GenServerExit], [GenServerOk] and [GenServerLive]. *)

From S2P Require Import Prelude GlobalProcessId DistributedRegistry RegistrySpec.

(** ** Messages *)

Inductive TerminateReason : Type :=
| ReasonNormal
| ReasonShutdown
| ReasonKilled
| ReasonOther (reason : string).

Inductive ServerMessage (Call Cast : Type) : Type :=
| MCall (request : Call) (reply_to : Z)
| MCast (request : Cast)
| MInfo (data : list Z)
| MStop (reason : TerminateReason).
Arguments MCall {Call Cast}.
Arguments MCast {Call Cast}.
Arguments MInfo {Call Cast}.
Arguments MStop {Call Cast}.

Record ServerReply (CallReply : Type) : Type := mkServerReply { reply : CallReply }.
Arguments mkServerReply {CallReply}.
Arguments reply {CallReply}.

(** What the code uses of bincode: what was serialized is read back. *)
Class Bincode (A : Type) : Type := {
  serialize : A → option (list Z);
  deserialize : list Z → option A;
  deserialize_serialize a b : serialize a = Some b → deserialize b = Some a;
}.

(** The trait, for [State = Self]; [None] is a panic. *)
Class GenServer (State Call Cast CallReply : Type) : Type := {
  init : option State;
  handle_call : State → Call → option (State * result CallReply string);
  handle_cast : State → Cast → option (State * result unit string);
  handle_info : State → list Z → option State;
  terminate : State → TerminateReason → option State;
}.

Record PendingReply : Type := mkPendingReply {
  reply_result : result (list Z) string;
  completed_at : Z;
}.

(** Instants and durations are in nanoseconds. *)
Definition from_millis (ms : Z) : Z := ms * 1000000.

(** [saturating_duration_since] *)
Definition duration_since (later earlier : Z) : Z := Z.max 0 (later - earlier).

(** [before_deadline]; [None] is a timeout. *)
Definition before_deadline (p : PendingReply) (started_at timeout : Z) : option PendingReply :=
  if timeout <=? duration_since (completed_at p) started_at then None else Some p.

Inductive ExitStatus : Type :=
| ExitNormal
| ExitFailed (error : string).

Definition pending_error (status : ExitStatus) : string :=
  match status with
  | ExitNormal => "GenServer stopped"
  | ExitFailed error => "GenServer terminated: " ++ error
  end.

(** What the mailbox of the process holds. *)
Inductive MailboxMessage : Type :=
| MmData (buffer : list Z)
| MmLinkDied
| MmProcessDied (process_id : Z).

(** ** The code of the server between two accesses to what is shared *)

(** [Leave status outcome]: the future ends; [status] is what the guard was told and
    [outcome] the result of the process. *)
Inductive Turn (State : Type) : Type :=
| Next (st : State)
| ReplyTo (st : State) (reply_to : Z) (response : result (list Z) string)
| Leave (status : option ExitStatus) (outcome : result unit string).
Arguments Next {State}.
Arguments ReplyTo {State}.
Arguments Leave {State}.

(** The text of the panic is left out. *)
Definition panicked {State} : Turn State := Leave None (Err "Process panicked").

Definition continue_with {State} (o : option State) : Turn State :=
  match o with Some st => Next st | None => panicked end.

Section turn.
Context {State Call Cast CallReply : Type}.
Context `{!GenServer State Call Cast CallReply, !Bincode (ServerMessage Call Cast), !Bincode (ServerReply CallReply)}.

Definition on_data (st : State) (buffer : list Z) : Turn State :=
  match deserialize buffer with
  | None => Leave None (Err "invalid GenServer message")
  | Some (MCall request reply_to) =>
      match handle_call st request with
      | None => panicked
      | Some (st, r) =>
          ReplyTo st reply_to
            (let? a := r in ok_or (serialize (mkServerReply a)) "failed to serialize GenServer reply"%string)
      end
  | Some (MCast request) =>
      match handle_cast st request with
      | None => panicked
      | Some (st, Ok _) => Next st
      | Some (st, Err error) =>
          match terminate st ReasonShutdown with
          | None => panicked
          | Some _ => Leave (Some (ExitFailed error)) (Err "GenServer cast handler failed")
          end
      end
  | Some (MInfo data) => continue_with (handle_info st data)
  | Some (MStop reason) =>
      match terminate st reason with
      | None => panicked
      | Some _ => Leave (Some ExitNormal) (Ok tt)
      end
  end.

Definition on_message (st : State) (m : MailboxMessage) : Turn State :=
  match m with
  | MmData buffer => on_data st buffer
  | MmLinkDied => Next st
  | MmProcessDied process_id => continue_with (handle_info st (le_bytes 8 process_id))
  end.
End turn.

(** ** Threads *)

(** The future of the process and, from [TUnregister] on, the loop around it. [TNew]: not
    polled yet, so without a guard; [TStart]: waits for the start; [TLoop]: waits for a
    message; [TReply], [TStamped]: in [reply]; [TDrop]: the future ends or is dropped, with
    what the guard will report ([None]: there is no guard) and the result of the process;
    [TFinish], [TDrain], [TNotify]: in [finish]. *)
Inductive Task (State : Type) : Type :=
| TNew
| TStart
| TLoop (st : State)
| TReply (st : State) (reply_to : Z) (response : result (list Z) string)
| TStamped (st : State) (reply_to : Z) (p : PendingReply)
| TDrop (guard : option ExitStatus) (outcome : result unit string)
| TFinish (status : ExitStatus) (outcome : result unit string)
| TDrain (status : ExitStatus) (outcome : result unit string)
| TNotify (outcome : result unit string)
| TUnregister (outcome : result unit string)
| TClose (outcome : result unit string)
| TEnded (outcome : result unit string).
Arguments TNew {State}.
Arguments TStart {State}.
Arguments TLoop {State}.
Arguments TReply {State}.
Arguments TStamped {State}.
Arguments TDrop {State}.
Arguments TFinish {State}.
Arguments TDrain {State}.
Arguments TNotify {State}.
Arguments TUnregister {State}.
Arguments TClose {State}.
Arguments TEnded {State}.

(** The rest of [spawn_in] after [spawn_native]. *)
Inductive Spawner : Type := SRegister | SSend (registration : bool) | SKill | SSpawned | SRefused.

(** The channel that carries the registration of the name to the process. *)
Inductive StartChannel : Type := StEmpty | StSent (registration : bool) | StTaken (registration : bool) | StClosed.

(** The task that awaits the end of the process. *)
Inductive Join : Type :=
| JWait
| JFinish (status : ExitStatus)
| JDrain (status : ExitStatus)
| JNotify
| JDone.

(** The methods of [GenServerHandle]. *)
Inductive Operation (Call Cast : Type) : Type :=
| OpCall (request : Call)
| OpCast (request : Cast)
| OpInfo (data : list Z)
| OpStop (reason : TerminateReason)
| OpKill
| OpWait (timeout : option Z).
Arguments OpCall {Call Cast}.
Arguments OpCast {Call Cast}.
Arguments OpInfo {Call Cast}.
Arguments OpStop {Call Cast}.
Arguments OpKill {Call Cast}.
Arguments OpWait {Call Cast}.

Inductive HandleError : Type :=
| HasStopped
| HasTerminated (error : string)
| NotInEnvironment
| SerializeFailed
| SendFailed
| CallTimedOut
| CallDisconnected
| CallFailed (error : string)
| InvalidReply
| ExitTimedOut
| Terminated (error : string).

Inductive Outcome (CallReply : Type) : Type :=
| Replied (r : CallReply)
| Done
| Error (e : HandleError).
Arguments Replied {CallReply}.
Arguments Done {CallReply}.
Arguments Error {CallReply}.

(** Where a client is: the three reads of [ensure_running]; the steps of [call]; a wait on
    the channel with its deadline; removal of the entry after an error; [wait_for_exit],
    which checks the status and blocks on the condition variable until it is notified. *)
Inductive Pc (CallReply : Type) : Type :=
| PEnsure1
| PEnsure2
| PEnsure3
| PStarted
| PTakeId
| PInsert
| PSend
| PElapsed
| PRemaining (remaining : Z)
| PRecv (deadline : option Z)
| PAbandon (e : HandleError)
| PWaitExit
| PCheck (deadline : option Z)
| PBlocked (deadline : option Z) (notified : bool)
| PReturned (o : Outcome CallReply).
Arguments PEnsure1 {CallReply}.
Arguments PEnsure2 {CallReply}.
Arguments PEnsure3 {CallReply}.
Arguments PStarted {CallReply}.
Arguments PTakeId {CallReply}.
Arguments PInsert {CallReply}.
Arguments PSend {CallReply}.
Arguments PElapsed {CallReply}.
Arguments PRemaining {CallReply}.
Arguments PRecv {CallReply}.
Arguments PAbandon {CallReply}.
Arguments PWaitExit {CallReply}.
Arguments PCheck {CallReply}.
Arguments PBlocked {CallReply}.
Arguments PReturned {CallReply}.

(** A client with the local variables of [call]; they are kept when it returns. *)
Record Client (Call Cast CallReply : Type) : Type := mkClient {
  operation : Operation Call Cast;
  timeout_ms : option Z;
  pc : Pc CallReply;
  started_at : Z;
  request_id : option Z;
  channel : list PendingReply;
  response : option PendingReply;
}.
Arguments mkClient {Call Cast CallReply}.
Arguments operation {Call Cast CallReply}.
Arguments timeout_ms {Call Cast CallReply}.
Arguments pc {Call Cast CallReply}.
Arguments started_at {Call Cast CallReply}.
Arguments request_id {Call Cast CallReply}.
Arguments channel {Call Cast CallReply}.
Arguments response {Call Cast CallReply}.

Section server.
Context {State Call Cast CallReply : Type}.
Context `{!GenServer State Call Cast CallReply, !Bincode (ServerMessage Call Cast), !Bincode (ServerReply CallReply)}.
Abbreviation Client := (Client Call Cast CallReply).
Abbreviation Pc := (Pc CallReply).

(** The limits of the registry, the name in the configuration and the process. *)
Context (limits : RegistryLimits) (name : option ProcessName) (pid : GlobalProcessId).

Definition at_pc (p : Pc) (c : Client) : Client :=
  mkClient (operation c) (timeout_ms c) p (started_at c) (request_id c) (channel c) (response c).
Definition at_started (p : Pc) (t : Z) (c : Client) : Client :=
  mkClient (operation c) (timeout_ms c) p t (request_id c) (channel c) (response c).
Definition at_id (p : Pc) (id : Z) (c : Client) : Client :=
  mkClient (operation c) (timeout_ms c) p (started_at c) (Some id) (channel c) (response c).
Definition at_channel (l : list PendingReply) (c : Client) : Client :=
  mkClient (operation c) (timeout_ms c) (pc c) (started_at c) (request_id c) l (response c).
Definition at_response (p : Pc) (l : list PendingReply) (r : PendingReply) (c : Client) : Client :=
  mkClient (operation c) (timeout_ms c) p (started_at c) (request_id c) l (Some r).

(** What the threads share.  [pending] maps a request to the client whose channel it is;
    [registered] is the presence in the environment; [accepted] and [served] are the
    history: what the ingress accepted and what the server took from its mailbox. *)
Record Server : Type := mkServer {
  now : Z;
  next_request_id : Z;
  pending : gmap Z nat;
  exit : option ExitStatus;
  registry : RegistryState;
  registered : bool;
  ingress : list MailboxMessage;
  ingress_open : bool;
  kill_pending : bool;
  mailbox : list MailboxMessage;
  start : StartChannel;
  task : Task State;
  spawner : Spawner;
  join : Join;
  clients : list Client;
  accepted : list MailboxMessage;
  served : list MailboxMessage;
}.

Definition set_now (x : Z) (s : Server) : Server :=
  mkServer x (next_request_id s) (pending s) (exit s) (registry s) (registered s) (ingress
    s) (ingress_open s) (kill_pending s) (mailbox s) (start s) (task s) (spawner s) (join s)
    (clients s) (accepted s) (served s).
Definition set_next_request_id (x : Z) (s : Server) : Server :=
  mkServer (now s) x (pending s) (exit s) (registry s) (registered s) (ingress s)
    (ingress_open s) (kill_pending s) (mailbox s) (start s) (task s) (spawner s) (join s)
    (clients s) (accepted s) (served s).
Definition set_pending (x : gmap Z nat) (s : Server) : Server :=
  mkServer (now s) (next_request_id s) x (exit s) (registry s) (registered s) (ingress s)
    (ingress_open s) (kill_pending s) (mailbox s) (start s) (task s) (spawner s) (join s)
    (clients s) (accepted s) (served s).
Definition set_exit (x : option ExitStatus) (s : Server) : Server :=
  mkServer (now s) (next_request_id s) (pending s) x (registry s) (registered s) (ingress s)
    (ingress_open s) (kill_pending s) (mailbox s) (start s) (task s) (spawner s) (join s)
    (clients s) (accepted s) (served s).
Definition set_registry (x : RegistryState) (s : Server) : Server :=
  mkServer (now s) (next_request_id s) (pending s) (exit s) x (registered s) (ingress s)
    (ingress_open s) (kill_pending s) (mailbox s) (start s) (task s) (spawner s) (join s)
    (clients s) (accepted s) (served s).
Definition set_registered (x : bool) (s : Server) : Server :=
  mkServer (now s) (next_request_id s) (pending s) (exit s) (registry s) x (ingress s)
    (ingress_open s) (kill_pending s) (mailbox s) (start s) (task s) (spawner s) (join s)
    (clients s) (accepted s) (served s).
Definition set_ingress (x : list MailboxMessage) (s : Server) : Server :=
  mkServer (now s) (next_request_id s) (pending s) (exit s) (registry s) (registered s) x
    (ingress_open s) (kill_pending s) (mailbox s) (start s) (task s) (spawner s) (join s)
    (clients s) (accepted s) (served s).
Definition set_ingress_open (x : bool) (s : Server) : Server :=
  mkServer (now s) (next_request_id s) (pending s) (exit s) (registry s) (registered s)
    (ingress s) x (kill_pending s) (mailbox s) (start s) (task s) (spawner s) (join s)
    (clients s) (accepted s) (served s).
Definition set_kill_pending (x : bool) (s : Server) : Server :=
  mkServer (now s) (next_request_id s) (pending s) (exit s) (registry s) (registered s)
    (ingress s) (ingress_open s) x (mailbox s) (start s) (task s) (spawner s) (join s)
    (clients s) (accepted s) (served s).
Definition set_mailbox (x : list MailboxMessage) (s : Server) : Server :=
  mkServer (now s) (next_request_id s) (pending s) (exit s) (registry s) (registered s)
    (ingress s) (ingress_open s) (kill_pending s) x (start s) (task s) (spawner s) (join s)
    (clients s) (accepted s) (served s).
Definition set_start (x : StartChannel) (s : Server) : Server :=
  mkServer (now s) (next_request_id s) (pending s) (exit s) (registry s) (registered s)
    (ingress s) (ingress_open s) (kill_pending s) (mailbox s) x (task s) (spawner s) (join s)
    (clients s) (accepted s) (served s).
Definition set_task (x : Task State) (s : Server) : Server :=
  mkServer (now s) (next_request_id s) (pending s) (exit s) (registry s) (registered s)
    (ingress s) (ingress_open s) (kill_pending s) (mailbox s) (start s) x (spawner s) (join s)
    (clients s) (accepted s) (served s).
Definition set_spawner (x : Spawner) (s : Server) : Server :=
  mkServer (now s) (next_request_id s) (pending s) (exit s) (registry s) (registered s)
    (ingress s) (ingress_open s) (kill_pending s) (mailbox s) (start s) (task s) x (join s)
    (clients s) (accepted s) (served s).
Definition set_join (x : Join) (s : Server) : Server :=
  mkServer (now s) (next_request_id s) (pending s) (exit s) (registry s) (registered s)
    (ingress s) (ingress_open s) (kill_pending s) (mailbox s) (start s) (task s) (spawner s) x
    (clients s) (accepted s) (served s).
Definition set_clients (x : list Client) (s : Server) : Server :=
  mkServer (now s) (next_request_id s) (pending s) (exit s) (registry s) (registered s)
    (ingress s) (ingress_open s) (kill_pending s) (mailbox s) (start s) (task s) (spawner s)
    (join s) x (accepted s) (served s).
Definition set_accepted (x : list MailboxMessage) (s : Server) : Server :=
  mkServer (now s) (next_request_id s) (pending s) (exit s) (registry s) (registered s)
    (ingress s) (ingress_open s) (kill_pending s) (mailbox s) (start s) (task s) (spawner s)
    (join s) (clients s) x (served s).
Definition set_served (x : list MailboxMessage) (s : Server) : Server :=
  mkServer (now s) (next_request_id s) (pending s) (exit s) (registry s) (registered s)
    (ingress s) (ingress_open s) (kill_pending s) (mailbox s) (start s) (task s) (spawner s)
    (join s) (clients s) (accepted s) x.

(** ** [GenServerShared] *)

(** A message on the channel of a client; it is lost when the receiver is gone. *)
Definition send_reply (p : PendingReply) (c : Client) : Client :=
  match pc c with PReturned _ => c | _ => at_channel (channel c ++ [p]) c end.

(** [reply], after the reply has its time. *)
Definition answer (id : Z) (p : PendingReply) (s : Server) : Server :=
  match pending s !! id with
  | Some i => set_clients (alter (send_reply p) i (clients s)) (set_pending (delete id (pending s)) s)
  | None => s
  end.

(** [finish] in three parts: the exit status under its lock (no further part when it is
    set already), the pending calls under theirs, the notification. *)
Definition finish_status (status : ExitStatus) (s : Server) : option Server :=
  match exit s with
  | Some _ => None
  | None => Some (set_exit (Some status) s)
  end.

Definition drain_client (ids : gmap Z nat) (p : PendingReply) (i : nat) (c : Client) : Client :=
  if bool_decide (map_Exists (fun _ j => j = i) ids) then send_reply p c else c.

Definition finish_drain (status : ExitStatus) (s : Server) : Server :=
  let p := mkPendingReply (Err (pending_error status)) (now s) in
  set_clients (imap (drain_client (pending s) p) (clients s)) (set_pending ∅ s).

Definition notify_client (c : Client) : Client :=
  match pc c with PBlocked deadline _ => at_pc (PBlocked deadline true) c | _ => c end.

Definition finish_notify (s : Server) : Server := set_clients (notify_client <$> clients s) s.

(** ** The process *)

(** Drop of [LocalNameRegistration]. *)
Definition release_name (s : Server) : option Server :=
  '(_, r) ← remove_local_registrations pid (registry s); Some (set_registry r s).

(** Drop of the registration that the future holds, itself or in the channel. *)
Definition drop_registration (s : Server) : option Server :=
  match start s with
  | StSent true | StTaken true => release_name s
  | _ => Some s
  end.

(** The drop of the guard reports [status] or that the exit was unexpected. *)
Definition guard_status (status : option ExitStatus) : ExitStatus :=
  default (ExitFailed "process exited unexpectedly") status.

Definition guarded (status : option ExitStatus) (outcome : result unit string) : Task State :=
  TDrop (Some (guard_status status)) outcome.

Definition task_step (s : Server) : option Server :=
  match task s with
  | TNew => Some (set_task TStart s)
  | TStart =>
      match start s with
      | StEmpty => None
      | StSent r =>
          let s := set_start (StTaken r) s in
          Some (set_task (match init with
                          | Some st => TLoop st
                          | None => guarded None (Err "Process panicked")
                          end) s)
      | StTaken _ | StClosed =>
          Some (set_task (guarded None (Err "GenServer start cancelled before registry registration")) s)
      end
  | TLoop st =>
      match mailbox s with
      | [] => None
      | m :: rest =>
          let s := set_served (served s ++ [m]) (set_mailbox rest s) in
          Some (set_task (match on_message st m with
                          | Next st => TLoop st
                          | ReplyTo st id response => TReply st id response
                          | Leave status outcome => guarded status outcome
                          end) s)
      end
  | TReply st id response => Some (set_task (TStamped st id (mkPendingReply response (now s))) s)
  | TStamped st id p => Some (set_task (TLoop st) (answer id p s))
  | TDrop guard outcome =>
      s ← drop_registration s;
      Some (set_task (match guard with
                      | Some status => TFinish status outcome
                      | None => TUnregister outcome
                      end) s)
  | TFinish status outcome =>
      Some (match finish_status status s with
            | Some s => set_task (TDrain status outcome) s
            | None => set_task (TUnregister outcome) s
            end)
  | TDrain status outcome => Some (set_task (TNotify outcome) (finish_drain status s))
  | TNotify outcome => Some (set_task (TUnregister outcome) (finish_notify s))
  | TUnregister outcome => Some (set_task (TClose outcome) (set_registered false s))
  | TClose outcome => Some (set_task (TEnded outcome) (set_ingress_open false (set_ingress [] s)))
  | TEnded _ => None
  end.

(** The loop takes a signal only while the future is not being polled. *)
Definition awaiting (t : Task State) : bool :=
  match t with TNew | TStart | TLoop _ => true | _ => false end.

Definition loop_step (s : Server) : option Server :=
  match ingress s with
  | m :: rest =>
      if awaiting (task s) then Some (set_mailbox (mailbox s ++ [m]) (set_ingress rest s)) else None
  | [] => None
  end.

(** A kill, by a signal or by the death of a linked process, drops the future. *)
Definition kill_step (s : Server) : option Server :=
  if kill_pending s then
    match task s with
    | TNew => Some (set_task (TDrop None (Err "Process killed")) s)
    | TStart | TLoop _ => Some (set_task (guarded None (Err "Process killed")) s)
    | _ => None
    end
  else None.

(** ** Spawning and joining *)

Definition receiver_alive (t : Task State) : bool :=
  match t with TNew | TStart => true | _ => false end.

Definition send_kill (s : Server) : Server :=
  if ingress_open s then set_kill_pending true s else s.

Definition spawner_step (at_ms : Z) (s : Server) : option Server :=
  match spawner s with
  | SRegister =>
      match name with
      | None => Some (set_spawner (SSend false) s)
      | Some n =>
          if registered s then
            let '(r, _, reg) := register_local limits n pid at_ms (registry s) in
            let s := set_registry reg s in
            Some (match r with
                  | Ok _ => set_spawner (SSend true) s
                  | Err _ => set_spawner SKill (set_start StClosed s)
                  end)
          else Some (set_spawner SKill (set_start StClosed s))
      end
  | SSend r =>
      if receiver_alive (task s) then Some (set_spawner SSpawned (set_start (StSent r) s))
      else s ← (if r then release_name s else Some s); Some (set_spawner SKill s)
  | SKill => Some (set_spawner SRefused (send_kill s))
  | SSpawned | SRefused => None
  end.

Definition join_status (outcome : result unit string) : ExitStatus :=
  match outcome with Ok _ => ExitNormal | Err error => ExitFailed error end.

Definition join_step (s : Server) : option Server :=
  match join s with
  | JWait => match task s with TEnded outcome => Some (set_join (JFinish (join_status outcome)) s) | _ => None end
  | JFinish status =>
      Some (match finish_status status s with
            | Some s => set_join (JDrain status) s
            | None => set_join JDone s
            end)
  | JDrain status => Some (set_join JNotify (finish_drain status s))
  | JNotify => Some (set_join JDone (finish_notify s))
  | JDone => None
  end.

(** ** Handles *)

(** [call] and the others begin with [ensure_running]; [wait_for_exit] does not. *)
Definition begin_pc (o : Operation Call Cast) : Pc :=
  match o with OpWait _ => PWaitExit | _ => PEnsure1 end.

Definition begin_client (o : Operation Call Cast) (timeout : option Z) : Client :=
  mkClient o timeout (begin_pc o) 0 None [] None.

(** After [ensure_running]. *)
Definition running_pc (o : Operation Call Cast) : Pc :=
  match o with OpCall _ => PStarted | _ => PSend end.

Definition stopped_error (status : ExitStatus) : HandleError :=
  match status with ExitNormal => HasStopped | ExitFailed error => HasTerminated error end.

Definition message_of (o : Operation Call Cast) (id : option Z) : option (ServerMessage Call Cast) :=
  match o, id with
  | OpCall request, Some id => Some (MCall request id)
  | OpCast request, _ => Some (MCast request)
  | OpInfo data, _ => Some (MInfo data)
  | OpStop reason, _ => Some (MStop reason)
  | _, _ => None
  end.

Definition enqueue (m : MailboxMessage) (s : Server) : Server :=
  set_accepted (accepted s ++ [m]) (set_ingress (ingress s ++ [m]) s).

(** [send_message] and the kill signal; [accept] is whether the ingress has room. *)
Definition send_operation (accept : bool) (c : Client) (s : Server) : result Server HandleError :=
  match operation c with
  | OpKill => if ingress_open s && accept then Ok (set_kill_pending true s) else Err SendFailed
  | o =>
      match (m ← message_of o (request_id c); serialize m) with
      | None => Err SerializeFailed
      | Some b => if ingress_open s && accept then Ok (enqueue (MmData b) s) else Err SendFailed
      end
  end.

Definition sent_pc (o : Operation Call Cast) : Pc :=
  match o with
  | OpCall _ => PElapsed
  | OpCast _ | OpInfo _ => PReturned Done
  | OpStop _ | OpKill | OpWait _ => PWaitExit
  end.

Definition send_failed_pc (o : Operation Call Cast) (e : HandleError) : Pc :=
  match o with OpCall _ => PAbandon e | _ => PReturned (Error e) end.

(** The rest of [call] once a reply was received. *)
Definition received_pc (p : PendingReply) : Pc :=
  PReturned (match reply_result p with
             | Err error => Error (CallFailed error)
             | Ok bytes =>
                 match deserialize bytes with
                 | Some r => Replied (reply r)
                 | None => Error InvalidReply
                 end
             end).

(** The reply that [recv] or [recv_timeout] took from the channel. *)
Definition on_reply (p : PendingReply) (rest : list PendingReply) (c : Client) : Client :=
  match timeout_ms c with
  | Some ms =>
      match before_deadline p (started_at c) (from_millis ms) with
      | Some p => at_response (received_pc p) rest p c
      | None => at_pc (PAbandon CallTimedOut) (at_channel rest c)
      end
  | None => at_response (received_pc p) rest p c
  end.

Definition exit_timeout (c : Client) : option Z :=
  match operation c with OpWait timeout => timeout | _ => from_millis <$> timeout_ms c end.

Definition exited_pc (o : Operation Call Cast) (status : ExitStatus) : Pc :=
  PReturned (match o, status with
             | OpKill, _ | _, ExitNormal => Done
             | _, ExitFailed error => Error (Terminated error)
             end).

Definition passed (deadline : option Z) (t : Z) : bool :=
  match deadline with Some d => d <=? t | None => false end.

(** [wait_timeout_while] gives up when more than its timeout has elapsed. *)
Definition expired (deadline : option Z) (t : Z) : bool :=
  match deadline with Some d => d <? t | None => false end.

(** One step of client [i]: its next access to what is shared.  [choice]: the ingress has room
    for a message; a thread that waits for the exit wakes up although it was not notified. *)
Definition client_step (choice : bool) (i : nat) (c : Client) (s : Server) : option Server :=
  let go c s := Some (set_clients (<[i := c]> (clients s)) s) in
  match pc c with
  | PEnsure1 =>
      match exit s with
      | Some status => go (at_pc (PReturned (Error (stopped_error status))) c) s
      | None => go (at_pc PEnsure2 c) s
      end
  | PEnsure2 =>
      match exit s with
      | Some _ => go (at_pc (PReturned (Error NotInEnvironment)) c) s
      | None => go (at_pc PEnsure3 c) s
      end
  | PEnsure3 =>
      if registered s then go (at_pc (running_pc (operation c)) c) s
      else go (at_pc (PReturned (Error NotInEnvironment)) c) s
  | PStarted => go (at_started PTakeId (now s) c) s
  | PTakeId =>
      let id := next_request_id s in
      go (at_id PInsert id c) (set_next_request_id ((id + 1) mod 2 ^ 64) s)
  | PInsert =>
      id ← request_id c;
      go (at_pc PSend c) (set_pending (<[id := i]> (pending s)) s)
  | PSend =>
      match send_operation choice c s with
      | Ok s => go (at_pc (sent_pc (operation c)) c) s
      | Err e => go (at_pc (send_failed_pc (operation c) e) c) s
      end
  | PElapsed =>
      match timeout_ms c with
      | None => go (at_pc (PRecv None) c) s
      | Some ms =>
          match checked_sub (from_millis ms) (duration_since (now s) (started_at c)) with
          | Some remaining => go (at_pc (PRemaining remaining) c) s
          | None => go (at_pc (PAbandon CallTimedOut) c) s
          end
      end
  | PRemaining remaining => go (at_pc (PRecv (Some (now s + remaining))) c) s
  | PRecv deadline =>
      id ← request_id c;
      match channel c with
      | p :: rest => go (on_reply p rest c) s
      | [] =>
          if bool_decide (pending s !! id = Some i) then
            if passed deadline (now s) then go (at_pc (PAbandon CallTimedOut) c) s else None
          else go (at_pc (PAbandon CallDisconnected) c) s
      end
  | PAbandon e =>
      id ← request_id c;
      go (at_pc (PReturned (Error e)) c) (set_pending (delete id (pending s)) s)
  | PWaitExit => go (at_pc (PCheck (Z.add (now s) <$> exit_timeout c)) c) s
  | PCheck deadline =>
      match exit s with
      | Some status => go (at_pc (exited_pc (operation c) status) c) s
      | None =>
          if expired deadline (now s) then go (at_pc (PReturned (Error ExitTimedOut)) c) s
          else go (at_pc (PBlocked deadline false) c) s
      end
  | PBlocked deadline notified =>
      if notified || choice || passed deadline (now s) then go (at_pc (PCheck deadline) c) s else None
  | PReturned _ => None
  end.

(** ** Everything together *)

(** The request number of a call. *)
Definition call_id (m : MailboxMessage) : option Z :=
  match m with
  | MmData b =>
      match deserialize (A := ServerMessage Call Cast) b with
      | Some (MCall _ id) => Some id
      | _ => None
      end
  | _ => None
  end.

(** Others do not give names to this process. *)
Definition foreign (o : RegistrySpec.op) : bool :=
  match o with RegisterLocal _ p _ => bool_decide (p ≠ pid) | _ => true end.

Inductive Action : Type :=
| ATick (elapsed : Z)
| ASpawner (at_ms : Z)
| ATask
| AJoin
| ALoop
| AKill
| AOtherMessage (m : MailboxMessage)
| AOtherKill
| AOtherRegistry (o : RegistrySpec.op)
| ABegin (o : Operation Call Cast) (timeout : option Z)
| AClient (i : nat) (choice : bool).

Definition server_exec (a : Action) (s : Server) : option Server :=
  match a with
  | ATick elapsed => if 0 <=? elapsed then Some (set_now (now s + elapsed) s) else None
  | ASpawner at_ms => spawner_step at_ms s
  | ATask => task_step s
  | AJoin => join_step s
  | ALoop => loop_step s
  | AKill => kill_step s
  | AOtherMessage m =>
      if ingress_open s && bool_decide (call_id m = None) then Some (enqueue m s) else None
  | AOtherKill => Some (send_kill s)
  | AOtherRegistry o =>
      if foreign o then '(_, r) ← exec limits o (registry s); Some (set_registry r s) else None
  | ABegin o timeout =>
      match spawner s with
      | SSpawned => Some (set_clients (clients s ++ [begin_client o timeout]) s)
      | _ => None
      end
  | AClient i choice => c ← clients s !! i; client_step choice i c s
  end.

Definition server_step (s s' : Server) : Prop := ∃ a, server_exec a s = Some s'.

(** After [spawn_native]. *)
Definition server_start (r : RegistryState) : Server :=
  mkServer 0 1 ∅ None r true [] true false [] StEmpty TNew SRegister JWait [] [] [].

Fixpoint server_run (l : list Action) (s : Server) : option Server :=
  match l with [] => Some s | a :: l => s ← server_exec a s; server_run l s end.
End server.
