(* ===== verification/GenServerExit.v ===== *)
(** * The end of a generic server

    The phases of [GenServer]: when the exit status is set, who holds the name until then, and
    who wakes the threads that wait for the exit. *)

From S2P Require Import Prelude GlobalProcessId DistributedRegistry RegistrySpec GenServer.

Section ok.
Context {State Call Cast CallReply : Type}.
Context `{!GenServer State Call Cast CallReply, !Bincode (ServerMessage Call Cast), !Bincode (ServerReply CallReply)}.
Context (limits : RegistryLimits) (name : option ProcessName) (pid : GlobalProcessId).
Abbreviation Server := (Server (State := State) (Call := Call) (Cast := Cast) (CallReply := CallReply)).
Abbreviation Client := (Client Call Cast CallReply).
Abbreviation step := (server_step limits name pid).
Implicit Types (s : Server) (c : Client).

(** ** Phases *)

(** The exit status is set by the guard, or by the joining task when there was no guard. *)
Definition task_phase s : Prop :=
  match task s with
  | TDrain status _ => exit s = Some status
  | TNotify _ => is_Some (exit s)
  | TUnregister _ | TClose _ | TEnded _ => True
  | _ => exit s = None
  end.

Definition join_phase s : Prop :=
  match join s with
  | JWait => True
  | JFinish _ => ∃ o, task s = TEnded o
  | JDrain status => exit s = Some status ∧ ∃ o, task s = TEnded o
  | JNotify | JDone => is_Some (exit s) ∧ ∃ o, task s = TEnded o
  end.

Definition open_phase s : Prop := ingress_open s = false → ingress s = [] ∧ ∃ o, task s = TEnded o.

Record phase s : Prop := {
  ph_task : task_phase s;
  ph_join : join_phase s;
  ph_open : open_phase s;
}.

(** The cases of a step. *)
Ltac cases H :=
  repeat match type of H with
  | context [match ?x with _ => _ end] =>
      lazymatch x with
      | context [match _ with _ => _ end] => fail
      | _ => destruct x eqn:?; simplify_eq/=
      end
  end; simplify_eq/=.

(** A send that succeeds. *)
Lemma send_operation_Ok choice c s s1 :
  send_operation choice c s = Ok s1 →
  ingress_open s = true ∧
  ((operation c = OpKill ∧ s1 = set_kill_pending true s) ∨
   ∃ m b, message_of (operation c) (request_id c) = Some m ∧ serialize m = Some b ∧ s1 = enqueue (MmData b) s).
Proof.
  unfold send_operation, mbind, option_bind. intros H. cases H; bool_to_prop; split; eauto 10.
Qed.

Lemma client_step_frame choice i c s s' :
  client_step choice i c s = Some s' →
  task s' = task s ∧ join s' = join s ∧ exit s' = exit s ∧ ingress_open s' = ingress_open s ∧
  registry s' = registry s ∧ spawner s' = spawner s ∧ start s' = start s ∧ now s' = now s ∧
  served s' = served s ∧ mailbox s' = mailbox s ∧ registered s' = registered s ∧
  (ingress_open s = false → ingress s' = ingress s).
Proof.
  unfold client_step, send_operation, mbind, option_bind. intros H. cases H; simpl; split_and!; try done;
    match goal with H : _ && _ = true |- _ => apply andb_true_iff in H as [-> ?] end; done.
Qed.

Lemma answer_frame id p s :
  task (answer id p s) = task s ∧ join (answer id p s) = join s ∧ exit (answer id p s) = exit s ∧
  ingress (answer id p s) = ingress s ∧ ingress_open (answer id p s) = ingress_open s ∧
  registry (answer id p s) = registry s ∧ spawner (answer id p s) = spawner s ∧ start (answer id p s) = start s ∧
  now (answer id p s) = now s ∧ served (answer id p s) = served s ∧ mailbox (answer id p s) = mailbox s ∧
  accepted (answer id p s) = accepted s ∧ next_request_id (answer id p s) = next_request_id s.
Proof. unfold answer. by case_match. Qed.

(** The steps of the process and of the joining task; all others leave the phases alone. *)
Definition process_action (a : Action (Call := Call) (Cast := Cast)) : bool :=
  match a with ATask | AKill | AJoin => true | _ => false end.

Lemma other_frame a s s' :
  server_exec limits name pid a s = Some s' → process_action a = false →
  task s' = task s ∧ join s' = join s ∧ exit s' = exit s ∧ ingress_open s' = ingress_open s ∧
  served s' = served s ∧ (ingress_open s = false → ingress s = [] → ingress s' = []).
Proof.
  intros H Ha. destruct a as [| | | | | | | | | |i ch]; simpl in H; try done.
  8: { apply bind_Some in H as (c & _ & H).
       apply client_step_frame in H as (? & ? & ? & ? & _ & _ & _ & _ & ? & _ & _ & Ei).
       split_and!; try done. intros Hf Hi. by rewrite Ei. }
  all: unfold spawner_step, loop_step, send_kill, release_name, enqueue, mbind, option_bind in H; cases H; simpl; split_and!; try done.
  all: first [by case_match | bool_to_prop; congruence].
Qed.

Ltac at_task :=
  repeat match goal with E : task _ = _ |- _ => rewrite E in * end;
  repeat match goal with E : join _ = _ |- _ => rewrite E in * end.

(** Until the process has ended its ingress is open and nobody has joined it. *)
Lemma running_phase s : phase s → (∀ o, task s ≠ TEnded o) → join s = JWait ∧ ingress_open s = true.
Proof.
  intros [_ Hj Ho] Ht. unfold join_phase, open_phase in *. split.
  - destruct (join s); naive_solver.
  - destruct (ingress_open s); naive_solver.
Qed.

Lemma task_step_running s s' : task_step pid s = Some s' → ∀ o, task s ≠ TEnded o.
Proof. unfold task_step. by intros H o E; rewrite E in H. Qed.

Lemma kill_step_running s s' : kill_step s = Some s' → ∀ o, task s ≠ TEnded o.
Proof. unfold kill_step. intros H o E; rewrite E in H. by case_match. Qed.

Lemma task_step_phase s s' : phase s → task_step pid s = Some s' → phase s'.
Proof.
  intros Hph H. destruct (running_phase s Hph (task_step_running _ _ H)) as [Hj Ho]. destruct Hph as [H1 _ _].
  unfold task_phase, task_step, finish_status, drop_registration, release_name, mbind, option_bind, guarded in *.
  cases H; at_task; split; unfold task_phase, join_phase, open_phase, answer; simpl; rewrite ?Hj, ?Ho, ?H1; try done;
    repeat case_match; simplify_eq/=; rewrite ?Hj, ?Ho, ?H1 in *; try done; eauto; congruence.
Qed.

Lemma kill_step_phase s s' : phase s → kill_step s = Some s' → phase s'.
Proof.
  intros Hph H. destruct (running_phase s Hph (kill_step_running _ _ H)) as [Hj Ho]. destruct Hph as [H1 _ _].
  unfold task_phase, kill_step, guarded in *.
  cases H; at_task; split; unfold task_phase, join_phase, open_phase; simpl; rewrite ?Hj, ?Ho; done.
Qed.

Lemma join_step_phase s s' : phase s → join_step s = Some s' → phase s'.
Proof.
  intros [H1 H2 H3] H. assert (∃ o, task s = TEnded o) as [o E].
  { unfold join_step, join_phase in *. destruct (join s); [destruct (task s)|..]; naive_solver. }
  unfold task_phase, join_phase, open_phase, join_step, finish_status in *. rewrite E in *.
  destruct (join s), (exit s) eqn:Ee; simplify_eq/=; split; unfold task_phase, join_phase, open_phase; simpl;
    rewrite ?E, ?Ee; eauto; by destruct H2.
Qed.

Lemma phase_step s s' : phase s → step s s' → phase s'.
Proof.
  intros Hph [a H]. destruct (process_action a) eqn:Ha.
  - destruct a; simpl in H; eauto using task_step_phase, kill_step_phase, join_step_phase; done.
  - destruct Hph as [H1 H2 H3]. apply other_frame in H as (Et & Ej & Ee & Eo & _ & Ei); [|done].
    unfold task_phase, join_phase, open_phase in *.
    split; unfold task_phase, join_phase, open_phase; rewrite ?Eo, ?Et, ?Ej, ?Ee; [done..|]. naive_solver.
Qed.

(** ** The name *)

Hypothesis Hlimits : limits_ok limits.

(** No local name leads to the process. *)
Definition nameless (r : RegistryState) : Prop := ∀ n e, local r !! n = Some e → global_pid e ≠ pid.

Lemma foreign_nameless o r out r' :
  foreign pid o = true → inv limits r → exec limits o r = Some (out, r') →
  inv limits r' ∧ (nameless r → nameless r').
Proof.
  intros Hf Hi He. destruct (exec_simulates limits Hlimits o r Hi) as (out1 & r1 & E & Hi' & out2 & Ha & _).
  rewrite He in E. injection E as <- <-. split; [done|]. intros Hn n e. unfold nameless in Hn.
  change (local r') with (a_local (abs r')). change (local r) with (a_local (abs r)) in Hn.
  generalize dependent (abs r'). intros B Ha. clear He Hi Hi'.
  assert (∀ P, a_local (a_keep P (abs r)) !! n = Some e → global_pid e ≠ pid) as Hkeep.
  { intros P. unfold a_keep. simpl. rewrite map_lookup_filter_Some. intros [Hl _]. by eapply Hn. }
  destruct o; simpl in Ha; unfold a_register, a_apply in Ha; repeat case_match; simplify_eq/=; eauto.
  - intros [[<- <-]|[_ Hl]]%lookup_insert_Some; [by bool_to_prop|eauto].
Qed.

Lemma release_nameless s s' :
  inv limits (registry s) → release_name pid s = Some s' →
  inv limits (registry s') ∧ nameless (registry s') ∧ s' = set_registry (registry s') s.
Proof.
  intros Hi. unfold release_name. destruct (remove_local_registrations_spec limits Hlimits pid (registry s) Hi)
    as (removed & r & -> & Hi' & Hns & _). cbn. intros [= <-]. split_and!; [done| |done].
  intros n e Hl He. cbn in Hl. destruct (proj1 (Hns Local n e) Hl) as [_ Hnot]. by apply Hnot.
Qed.

Definition past_drop (t : Task State) : bool :=
  match t with TFinish _ _ | TDrain _ _ | TNotify _ | TUnregister _ | TClose _ | TEnded _ => true | _ => false end.

(** Who releases the name, when there is one: the spawner or the future. *)
Definition held s : Prop :=
  spawner s = SSend true ∨ (start s = StSent true ∨ start s = StTaken true) ∧ past_drop (task s) = false.

Definition unsent s : Prop :=
  match spawner s with SRegister | SSend _ => start s = StEmpty | _ => True end.

Record name_ok s : Prop := {
  no_inv : inv limits (registry s);
  no_unsent : unsent s;
  no_held : nameless (registry s) ∨ held s;
}.

(** Only the drop of the future touches the registry. *)
Lemma task_step_frame s s' :
  task_step pid s = Some s' → (∀ g o, task s ≠ TDrop g o) →
  registry s' = registry s ∧ spawner s' = spawner s ∧ past_drop (task s') = past_drop (task s) ∧
  (start s' = start s ∨ ∃ r, start s = StSent r ∧ start s' = StTaken r).
Proof.
  intros H Ht. unfold task_step, finish_status in H.
  destruct (task s) eqn:Et; [..|done]; [| | | | |by destruct (Ht guard outcome)|..]; cases H; simpl;
    try (destruct (answer_frame reply_to p s) as (_ & _ & _ & _ & _ & -> & -> & -> & _));
    split_and!; try done; eauto; by repeat case_match.
Qed.

Lemma task_step_name s s' : name_ok s → task_step pid s = Some s' → name_ok s'.
Proof.
  intros [Hi Hu Hh] H. unfold held, unsent in *.
  assert ((∃ g o, task s = TDrop g o) ∨ ∀ g o, task s ≠ TDrop g o) as [(g & o & Et) | Ht]
    by (destruct (task s); first [left; by eauto | by right]).
  - unfold task_step in H. rewrite Et in *. apply bind_Some in H as (s1 & Hd & [= <-]). unfold drop_registration in Hd.
    destruct (start s) as [|[]|[]|] eqn:Es; simplify_eq/=;
      try (split; unfold unsent, held; simpl; rewrite ?Es; [done|done|naive_solver]).
    all: apply release_nameless in Hd as (Hi' & Hn & ->); [|done]; split; unfold unsent, held; simpl; rewrite ?Es; eauto.
  - apply task_step_frame in H as (Er & Esp & Ep & Es); [|done].
    split; unfold unsent, held; rewrite ?Er, ?Esp, ?Ep; [done|..]; destruct Es as [-> | (r & E1 & ->)]; try done;
      rewrite E1 in *; [by destruct (spawner s)|]. destruct r; [|naive_solver].
    destruct Hh as [?|[?|[_ ?]]]; auto.
Qed.

Lemma spawner_step_name at_ms s s' : name_ok s → spawner_step limits name pid at_ms s = Some s' → name_ok s'.
Proof.
  intros [Hi Hu Hh] H. unfold held, unsent in *. unfold spawner_step in H. destruct (spawner s) as [|r| | |] eqn:Es; try done.
  - assert (nameless (registry s)) as Hn by (rewrite Hu in Hh; naive_solver).
    destruct name as [n|]; [|injection H as <-; split; unfold unsent, held; simpl; auto].
    destruct (registered s); [|injection H as <-; split; unfold unsent, held; simpl; auto].
    unfold register_local in H. pose proof (insert_local_if_absent_inv limits n pid at_ms (registry s) Hi) as Hi'.
    destruct (insert_local_if_absent limits n pid at_ms (registry s)) as [[[]|] reg] eqn:Er; injection H as <-;
      split; unfold unsent, held; simpl; try done; auto. left.
    unfold insert_local_if_absent in Er. by repeat case_match; simplify_eq.
  - destruct (receiver_alive (task s)) eqn:Ha.
    + injection H as <-. split; unfold unsent, held; simpl; [done..|]. destruct r.
      * right. right. split; [by left|]. by destruct (task s).
      * left. rewrite Hu in Hh. naive_solver.
    + apply bind_Some in H as (s1 & Hr & [= <-]). destruct r; [|injection Hr as <-]; simpl in *.
      * apply release_nameless in Hr as (Hi' & Hn & E); [|done]. rewrite E. split; unfold unsent, held; simpl; auto.
      * split; unfold unsent, held; simpl; [done..|]. left. rewrite Hu in Hh. naive_solver.
  - injection H as <-. unfold send_kill. split; unfold unsent, held; case_match; simpl in *; naive_solver.
Qed.

(** No step but those of the spawner, of the process and of others touches the name. *)
Lemma other_name a s s' :
  server_exec limits name pid a s = Some s' →
  match a with ASpawner _ | ATask | AOtherRegistry _ => False | _ => True end →
  registry s' = registry s ∧ spawner s' = spawner s ∧ start s' = start s ∧ past_drop (task s') = past_drop (task s).
Proof.
  intros H Ha. destruct a as [| | | | | | | | | |i ch]; simpl in H; try done.
  8: { apply bind_Some in H as (c & _ & H).
       apply client_step_frame in H as (-> & _ & _ & _ & -> & -> & -> & _). done. }
  all: unfold join_step, loop_step, kill_step, send_kill, finish_status, enqueue, guarded, mbind, option_bind in H;
    cases H; simpl; at_task; try done; first [by repeat case_match | by destruct (exit s)].
Qed.

Lemma name_step s s' : name_ok s → step s s' → name_ok s'.
Proof.
  intros Hn [a H].
  destruct (match a with ASpawner _ | ATask | AOtherRegistry _ => false | _ => true end) eqn:Ha.
  - apply other_name in H as (Er & Es & Est & Ep); [|by destruct a]. destruct Hn as [Hi Hu Hh].
    unfold unsent, held in *. split; unfold unsent, held; by rewrite ?Er, ?Es, ?Est, ?Ep.
  - destruct a; try done; simpl in H; eauto using task_step_name, spawner_step_name.
    destruct (foreign pid o) eqn:Hf; [|done]. apply bind_Some in H as ([out r] & He & [= <-]).
    destruct Hn as [Hi Hu Hh]. destruct (foreign_nameless o _ _ _ Hf Hi He) as [Hi' Hn'].
    unfold unsent, held in *. split; unfold unsent, held; simpl; naive_solver.
Qed.

(** ** Waiting for the exit *)

(** Somebody has set the exit status and has still to notify. *)
Definition notifying s : Prop :=
  (∃ st o, task s = TDrain st o) ∨ (∃ o, task s = TNotify o) ∨ (∃ st, join s = JDrain st) ∨ join s = JNotify.

(** The operations that wait for the exit return [Done] or the error of the server only
    when the exit status is set. *)
Definition waits_for_exit (o : Operation Call Cast) : bool :=
  match o with OpStop _ | OpKill | OpWait _ => true | _ => false end.

Definition client_exit s c : Prop :=
  match pc c with
  | PBlocked _ false => exit s = None ∨ notifying s
  | PReturned Done => waits_for_exit (operation c) = true → is_Some (exit s)
  | PReturned (Error (Terminated error)) => exit s = Some (ExitFailed error)
  | PAbandon (Terminated _) => False
  | _ => True
  end.

Definition exits s : Prop := Forall (client_exit s) (clients s).

(** A step that keeps the exit status, once it is set, and does not end a notification. *)
Definition exit_grows s s' : Prop :=
  (is_Some (exit s) → exit s' = exit s) ∧ (exit s = None → exit s' = None ∨ notifying s') ∧ (notifying s → notifying s').

Lemma client_exit_grows s s' c : exit_grows s s' → client_exit s c → client_exit s' c.
Proof.
  intros (H1 & H2 & H3). unfold client_exit. destruct (pc c) as [| | | | | | | | | | | | |? []|[| |[]]]; try done.
  - intros [?|?]; auto.
  - intros H Ho. rewrite H1; auto.
  - intros H. rewrite H1; [done|]. by rewrite H.
Qed.

Lemma exits_grow s s' : exit_grows s s' → Forall (client_exit s) (clients s') → exits s'.
Proof. intros Hg H. eapply Forall_impl; [exact H|]. intros c. by apply client_exit_grows. Qed.

Lemma send_reply_exit s p c : client_exit s c → client_exit s (send_reply p c).
Proof. unfold send_reply, client_exit. destruct (pc c) eqn:E; simpl; by rewrite ?E. Qed.

Lemma answer_exits id p s : exits s → Forall (client_exit s) (clients (answer id p s)).
Proof.
  intros H. unfold answer. case_match; simpl; [|done]. apply Forall_alter; [done|]. intros c _. apply send_reply_exit.
Qed.

Lemma drain_exits status s : exits s → Forall (client_exit s) (clients (finish_drain status s)).
Proof.
  intros H. apply Forall_lookup_2. intros i c. simpl. rewrite list_lookup_imap. intros (c0 & Hc & E)%fmap_Some_1. subst c.
  unfold drain_client. pose proof (Forall_lookup_1 _ _ _ _ H Hc). case_match; [by apply send_reply_exit|done].
Qed.

(** After a notification nobody is blocked who was not notified. *)
Lemma notify_exits s s' : exit s' = exit s → exits s → Forall (client_exit s') (clients (finish_notify s)).
Proof.
  intros E H. apply Forall_fmap. eapply Forall_impl; [exact H|]. intros c. unfold client_exit, notify_client.
  simpl. rewrite E. destruct (pc c) eqn:Ep; simpl; by rewrite ?Ep.
Qed.

(** [notifying] depends on two fields. *)
Lemma exit_grows_same s s' :
  exit s' = exit s → task s' = task s → join s' = join s → exit_grows s s'.
Proof. intros Ee Et Ej. unfold exit_grows, notifying. rewrite Ee, Et, Ej. auto. Qed.

Lemma send_operation_clients choice c s s1 : send_operation choice c s = Ok s1 → clients s1 = clients s.
Proof. by intros (_ & [[_ ->] | (m & b & _ & _ & ->)])%send_operation_Ok. Qed.

Lemma send_operation_Err choice c s e : send_operation choice c s = Err e → e = SerializeFailed ∨ e = SendFailed.
Proof. unfold send_operation. intros H. cases H; auto. Qed.

Lemma client_step_exit choice i c s s' :
  client_step choice i c s = Some s' → client_exit s c →
  ∃ c', clients s' = <[i := c']> (clients s) ∧ client_exit s c'.
Proof.
  unfold client_step, mbind, option_bind. intros H Hc. unfold client_exit in Hc.
  destruct (pc c) eqn:Ep; cases H;
    try match goal with E : send_operation _ _ _ = Ok _ |- _ => apply send_operation_clients in E as -> end;
    try match goal with E : send_operation _ _ _ = Err _ |- _ => apply send_operation_Err in E end;
    (eexists; split; [reflexivity|]); unfold client_exit; simpl; try done; eauto.
  - by destruct e.
  - by destruct (operation c).
  - by destruct (operation c).
  - destruct (operation c); naive_solver.
  - unfold on_reply, received_pc. by repeat case_match; simplify_eq/=.
  - by destruct e.
  - by destruct (operation c), e.
Qed.

Lemma drop_registration_frame s s' : drop_registration pid s = Some s' → ∃ r, s' = set_registry r s.
Proof.
  unfold drop_registration, release_name, mbind, option_bind. intros H. cases H; eauto; by exists (registry s'); destruct s'.
Qed.

Lemma task_step_exits s s' : phase s → exits s → task_step pid s = Some s' → exits s'.
Proof.
  intros Hph Hs H. destruct (running_phase s Hph (task_step_running _ _ H)) as [Hj _]. destruct Hph as [Ht _ _].
  unfold task_step in H. unfold task_phase in Ht.
  destruct (task s) as [| |st|st id r|st id p|g o|st o|st o|o|o|o|o] eqn:Et.
  6: { apply bind_Some in H as (s1 & (r & ->)%drop_registration_frame & [= <-]).
       apply (exits_grow s); [|done]. unfold exit_grows, notifying. simpl. rewrite Et, Hj. naive_solver. }
  5: { injection H as <-. apply (exits_grow s); [|by apply answer_exits].
       destruct (answer_frame id p s) as (_ & E1 & E2 & _).
       unfold exit_grows, notifying. simpl. rewrite E1, E2, Et, Hj. naive_solver. }
  7: { injection H as <-. apply (notify_exits s); [done|exact Hs]. }
  6: { injection H as <-. apply (exits_grow s); [|by apply drain_exits]. unfold exit_grows, notifying. simpl. rewrite Et, Hj. naive_solver. }
  5: { unfold finish_status in H. rewrite Ht in H. injection H as <-.
       apply (exits_grow s); [|done]. unfold exit_grows, notifying. simpl. rewrite Et, Hj, Ht. naive_solver. }
  all: cases H; apply (exits_grow s); try exact Hs; unfold exit_grows, notifying; simpl; rewrite ?Et, ?Hj; naive_solver.
Qed.

Lemma join_step_exits s s' : phase s → exits s → join_step s = Some s' → exits s'.
Proof.
  intros Hph Hs H. destruct Hph as [_ Hj _]. unfold join_phase, join_step in *.
  destruct (join s) as [|status|status| |] eqn:Ej; try done.
  - destruct (task s) eqn:Et; try done. injection H as <-. apply (exits_grow s); [|exact Hs].
    unfold exit_grows, notifying. simpl. rewrite Ej. naive_solver.
  - destruct Hj as [o Et]. unfold finish_status in H. destruct (exit s) eqn:Ee; injection H as <-; apply (exits_grow s); try exact Hs;
      unfold exit_grows, notifying; simpl; rewrite ?Et, ?Ej, ?Ee; naive_solver.
  - injection H as <-. apply (exits_grow s); [|by apply drain_exits]. unfold exit_grows, notifying. simpl. naive_solver.
  - injection H as <-. by apply (notify_exits s).
Qed.

Lemma exits_step s s' : phase s → exits s → step s s' → exits s'.
Proof.
  intros Hph Hs [a H]. destruct (process_action a) eqn:Ha.
  - destruct a; try done; simpl in H; eauto using task_step_exits, join_step_exits.
    destruct (running_phase s Hph (kill_step_running _ _ H)) as [Hj _].
    unfold kill_step in H. cases H; apply (exits_grow s); try exact Hs; unfold exit_grows, notifying; simpl; at_task; naive_solver.
  - pose proof (other_frame _ _ _ H Ha) as (Et & Ej & Ee & _). apply (exits_grow s); [by apply exit_grows_same|].
    destruct a as [| | | | | | | | | |i ch]; try done; simpl in H.
    8: { apply bind_Some in H as (c & Hc & H).
         apply client_step_exit in H as (c' & -> & Hc'); [by apply Forall_insert|]. by apply (Forall_lookup_1 _ _ _ _ Hs Hc). }
    7: { case_match; simplify_eq/=. apply Forall_app. split; [done|]. apply Forall_singleton. by destruct o. }
    all: unfold spawner_step, loop_step, send_kill, release_name, mbind, option_bind in H; cases H; try exact Hs;
      by case_match.
Qed.

Lemma server_run_reach l s s' : server_run limits name pid l s = Some s' → rtc step s s'.
Proof.
  revert s. induction l as [|a l IH]; intros s; simpl; [intros [= ->]; apply rtc_refl|].
  intros (s1 & H1 & H2)%bind_Some. eapply rtc_l; [by exists a|]. by apply IH.
Qed.

(** Reachable states have the three. *)
Definition server_init r : Prop := inv limits r ∧ nameless r.

Lemma server_ok r s :
  server_init r → rtc step (server_start r) s → phase s ∧ name_ok s ∧ exits s.
Proof.
  intros [Hi Hn]. apply (rtc_invariant _ (fun s => phase s ∧ name_ok s ∧ exits s)).
  - intros a b (Ha & Hb & Hc) Hs. split_and!; eauto using phase_step, name_step, exits_step.
  - split_and!; [by split| |by apply Forall_nil]. split; [done|done|by left].
Qed.

(** C20. When a spawned server has an exit status no local name leads to its process any more,
    whatever other users of the registry did; [stop], [kill] and [wait_for_exit] report an
    exit only when the status is set; a thread that waits for the exit and was not notified
    waits for a status that is not set or is about to be notified; and nobody is left
    waiting when the server has been joined. *)
Theorem server_exit_clean r s :
  server_init r → rtc step (server_start r) s →
  (spawner s = SSpawned → is_Some (exit s) → nameless (registry s)) ∧
  (∀ i c, clients s !! i = Some c →
     (pc c = PReturned Done → waits_for_exit (operation c) = true → is_Some (exit s)) ∧
     (∀ error, pc c = PReturned (Error (Terminated error)) → exit s = Some (ExitFailed error)) ∧
     (∀ d, pc c = PBlocked d false → exit s = None ∨ notifying s) ∧
     (∀ d, join s = JDone → pc c ≠ PBlocked d false)).
Proof.
  intros Hr H. destruct (server_ok r s Hr H) as ([Ht Hj _] & [_ _ Hh] & Hs). split.
  - intros Hsp He. destruct Hh as [?|[?|[_ Hp]]]; [done|congruence|].
    unfold task_phase in Ht. destruct (task s); try done; rewrite Ht in He; by destruct He.
  - intros i c Hc. pose proof (Forall_lookup_1 _ _ _ _ Hs Hc) as Hx. unfold client_exit in Hx.
    split_and!; intros; try match goal with E : pc c = _ |- _ => rewrite E in Hx end; auto.
    intros E. rewrite E in Hx. unfold join_phase in Hj.
    match goal with E : join s = _ |- _ => rewrite E in Hj end. destruct Hj as [[e He] [o Eo]].
    destruct Hx as [Hx|Hx]; [congruence|]. unfold notifying in Hx. naive_solver congruence.
Qed.

End ok.

(** ** An executable instance: a counter *)

Module Counter.
Definition encode_message (m : ServerMessage Z Z) : option (list Z) :=
  match m with
  | MCall request id => Some [0; request; id]
  | MCast request => Some [1; request]
  | MInfo data => Some (2 :: data)
  | MStop ReasonNormal => Some [3]
  | MStop _ => None
  end.

Definition decode_message (b : list Z) : option (ServerMessage Z Z) :=
  match b with
  | [0; request; id] => Some (MCall request id)
  | [1; request] => Some (MCast request)
  | 2 :: data => Some (MInfo data)
  | [3] => Some (MStop ReasonNormal)
  | _ => None
  end.

#[export, refine] Instance message_bincode : Bincode (ServerMessage Z Z) :=
  {| serialize := encode_message; deserialize := decode_message |}.
Proof. by intros [| | |[]] b [= <-]. Defined.

#[export, refine] Instance reply_bincode : Bincode (ServerReply Z) :=
  {| serialize r := Some [reply r];
     deserialize b := match b with [r] => Some (mkServerReply r) | _ => None end |}.
Proof. by intros [r] b [= <-]. Defined.

#[export] Instance counter : GenServer Z Z Z Z :=
  {| init := Some 0;
     handle_call st request := Some (st + request, if request <? 0 then Err "negative"%string else Ok (st + request));
     handle_cast st request := Some (st + request, if request <? 0 then Err "negative"%string else Ok tt);
     handle_info st data := Some st;
     terminate st reason := Some st |}.

Definition limits : RegistryLimits := mkLimits 64 1000 100000 16 16 16.
Definition counter_name : ProcessName := [99].
Definition pid : GlobalProcessId := mkGlobalProcessId 1 0 7.

Definition run (l : list (Action (Call := Z) (Cast := Z))) : option (Server (State := Z)) :=
  server_run limits (Some counter_name) pid l (server_start state_default).

(** Spawned with a name and waiting for messages. *)
Definition spawned : list (Action (Call := Z) (Cast := Z)) := [ASpawner 5; ASpawner 5; ATask; ATask].

(** A client stops the server. *)
Definition stopping : list (Action (Call := Z) (Cast := Z)) :=
  spawned ++ [ABegin (OpStop ReasonNormal) (Some 5000)] ++ replicate 6 (AClient 0 true) ++
  [ALoop; ATask; ATask; ATask; ATask; ATask; AClient 0 false; AClient 0 false].
End Counter.

#[local] Existing Instance Counter.message_bincode.
#[local] Existing Instance Counter.reply_bincode.
#[local] Existing Instance Counter.counter.

Lemma Counter_limits : limits_ok Counter.limits.
Proof. unfold limits_ok, u64_max. simpl. lia. Qed.

Lemma Counter_init : server_init Counter.limits Counter.pid state_default.
Proof. split; [apply inv_default, Counter_limits|]. intros n e. simpl. by rewrite lookup_empty. Qed.

Lemma server_exit_clean_witness :
  ∃ s c, Counter.run Counter.stopping = Some s ∧ clients s !! 0%nat = Some c ∧ pc c = PReturned Done ∧
    is_Some (exit s) ∧ nameless Counter.pid (registry s).
Proof.
  assert (∃ s c, Counter.run Counter.stopping = Some s ∧ clients s !! 0%nat = Some c ∧ pc c = PReturned Done ∧
    spawner s = SSpawned ∧ operation c = OpStop ReasonNormal) as (s & c & Hs & Hc & Hd & Hsp & Ho).
  { eexists _, _. split; [vm_compute; reflexivity|]. split; [reflexivity|]. split; [reflexivity|]. by split. }
  destruct (server_exit_clean Counter.limits (Some Counter.counter_name) Counter.pid
    Counter_limits state_default s Counter_init) as [Hn Hcl];
    [by apply (server_run_reach _ _ _ Counter.stopping)|].
  destruct (Hcl _ _ Hc) as [He _]. assert (is_Some (exit s)) as Hx by (apply He; [done|by rewrite Ho]).
  exists s, c. split_and!; auto.
Defined.
