(* ===== verification/GenServerOk.v ===== *)
(** * Theorems on generic servers

    A call returns the reply that the server, taking messages one after the other in the order
    in which they were accepted, gave to exactly this request, and before the deadline; calls
    with a timeout return; no entry of the table outlives its call.  The drain at the end of
    the server has a window in which a call is accepted that nobody will answer. *)

From S2P Require Import Prelude GlobalProcessId DistributedRegistry RegistrySpec GenServer GenServerExit.

(** ** The sequential server *)

Section sequential.
Context {State Call Cast CallReply : Type}.
Context `{!GenServer State Call Cast CallReply, !Bincode (ServerMessage Call Cast), !Bincode (ServerReply CallReply)}.

(** The state after a sequence of messages, when the server is still running. *)
Fixpoint serves (st : State) (l : list MailboxMessage) : option State :=
  match l with
  | [] => Some st
  | m :: l => match on_message st m with Next st | ReplyTo st _ _ => serves st l | Leave _ _ => None end
  end.

Lemma serves_app st l k : serves st (l ++ k) = serves st l ≫= fun st => serves st k.
Proof. revert st. induction l as [|m l IH]; intros st; simpl; [done|]. by destruct (on_message st m). Qed.

(** The server that served [l] gave the answer [r] to request [id]. *)
Definition replied (l : list MailboxMessage) (id : Z) (r : result (list Z) string) : Prop :=
  ∃ pre m post st0 st st', l = pre ++ m :: post ∧ call_id (Call := Call) (Cast := Cast) m = Some id ∧
    init = Some st0 ∧ serves st0 pre = Some st ∧ on_message st m = ReplyTo st' id r.

Lemma replied_app l k id r : replied l id r → replied (l ++ k) id r.
Proof.
  intros (pre & m & post & st0 & st & st' & -> & H). exists pre, m, (post ++ k), st0, st, st'.
  by rewrite <- app_assoc.
Qed.

Lemma on_message_reply_id st m st' id r :
  on_message st m = ReplyTo st' id r → call_id (Call := Call) (Cast := Cast) m = Some id.
Proof.
  destruct m as [b| |q]; simpl; [|done|by destruct (handle_info _ _)]. unfold on_data.
  unfold continue_with. destruct (deserialize b) as [[]|]; intros H; repeat case_match; by simplify_eq/=.
Qed.
End sequential.

Section ok.
Context {State Call Cast CallReply : Type}.
Context `{!GenServer State Call Cast CallReply, !Bincode (ServerMessage Call Cast), !Bincode (ServerReply CallReply)}.
Context (limits : RegistryLimits) (name : option ProcessName) (pid : GlobalProcessId).
Abbreviation Server := (Server (State := State) (Call := Call) (Cast := Cast) (CallReply := CallReply)).
Abbreviation Client := (Client Call Cast CallReply).
Abbreviation step := (server_step limits name pid).
Abbreviation call_id := (call_id (Call := Call) (Cast := Cast)).
Implicit Types (s : Server) (c : Client).

(** ** Clients *)

Definition is_call (o : Operation Call Cast) : Prop := match o with OpCall _ => True | _ => False end.

(** Every reply that a call took from its channel was completed before the deadline. *)
Definition timely c : Prop :=
  ∀ ms p, timeout_ms c = Some ms → response c = Some p → completed_at p - started_at c < from_millis ms.

Definition outcome_ok c (o : Outcome CallReply) : Prop :=
  match o with
  | Replied r => timely c ∧ ∃ p b v, response c = Some p ∧ reply_result p = Ok b ∧ deserialize b = Some v ∧ reply v = r
  | Error (CallFailed e) => timely c ∧ ∃ p, response c = Some p ∧ reply_result p = Err e
  | _ => True
  end.

Definition pc_ok c : Prop :=
  match pc c with
  | PEnsure1 | PEnsure2 | PEnsure3 => request_id c = None
  | PWaitExit | PCheck _ | PBlocked _ _ => request_id c = None ∧ waits_for_exit (operation c) = true
  | PStarted | PTakeId => is_call (operation c) ∧ request_id c = None
  | PInsert => is_Some (request_id c) ∧ channel c = [] ∧ response c = None
  | PSend => response c = None ∧ (is_call (operation c) → is_Some (request_id c))
  | PElapsed | PRemaining _ | PRecv _ => is_Some (request_id c) ∧ response c = None
  | PAbandon e => is_Some (request_id c) ∧ response c = None ∧ ∀ x, e ≠ CallFailed x
  | PReturned o => outcome_ok c o
  end.

Definition id_ok c : Prop :=
  match request_id c with
  | None => channel c = [] ∧ response c = None
  | Some _ => is_call (operation c)
  end.

Definition client_ok c : Prop := id_ok c ∧ pc_ok c.

(** The entry of the client may be in the table; its reply is not taken; it sent. *)
Definition active c : bool :=
  match pc c with PSend | PElapsed | PRemaining _ | PRecv _ | PAbandon _ => true | _ => false end.
Definition waiting c : bool :=
  match pc c with PSend | PElapsed | PRemaining _ | PRecv _ => true | _ => false end.
Definition sent c : bool :=
  match pc c with PElapsed | PRemaining _ | PRecv _ | PAbandon _ | PReturned _ => true | _ => false end.

(** ** The invariant *)

Definition genuine s (id : Z) (p : PendingReply) : Prop :=
  replied (State := State) (CallReply := CallReply) (Call := Call) (Cast := Cast) (served s) id (reply_result p) ∨
  ∃ status, exit s = Some status ∧ reply_result p = Err (pending_error status).

(** The call that [m] is comes from client [c]. *)
Definition sent_by (m : MailboxMessage) (id : Z) c : Prop :=
  ∃ b request, m = MmData b ∧ operation c = OpCall request ∧ serialize (MCall (Cast := Cast) request id) = Some b.

Definition ids s : list Z := omap request_id (clients s).

Definition state_ok s : Prop :=
  match task s with
  | TNew | TStart => served s = []
  | TLoop st | TReply st _ _ | TStamped st _ _ => ∃ st0, init = Some st0 ∧ serves st0 (served s) = Some st
  | _ => True
  end.

Definition reply_ok s : Prop :=
  match task s with
  | TReply _ id r => replied (served s) id r
  | TStamped _ id p => replied (served s) id (reply_result p)
  | _ => True
  end.

(** The requests that were answered are not in the table. *)
Definition done_ok s : Prop :=
  ∀ m id, m ∈ served s → call_id m = Some id →
  match task s with
  | TLoop _ => pending s !! id = None
  | TReply _ id' _ | TStamped _ id' _ => id ≠ id' → pending s !! id = None
  | _ => True
  end.

Record good s : Prop := {
  g_next : next_request_id s = 1 + Z.of_nat (length (ids s));
  g_unique : ∀ i j ci cj id, clients s !! i = Some ci → clients s !! j = Some cj →
    request_id ci = Some id → request_id cj = Some id → i = j;
  g_range : ∀ i c id, clients s !! i = Some c → request_id c = Some id → id < next_request_id s;
  g_client : ∀ i c, clients s !! i = Some c → client_ok c;
  g_pending : ∀ id i, pending s !! id = Some i →
    ∃ c, clients s !! i = Some c ∧ request_id c = Some id ∧ active c = true ∧ channel c = [];
  g_waiting : ∀ i c id, clients s !! i = Some c → request_id c = Some id → waiting c = true →
    pending s !! id = Some i ∨ ∃ p, channel c = [p];
  g_sent : ∀ m id, m ∈ accepted s → call_id m = Some id →
    ∃ i c, clients s !! i = Some c ∧ request_id c = Some id ∧ sent c = true ∧ sent_by m id c;
  g_accepted : ∀ i c id, clients s !! i = Some c → request_id c = Some id → waiting c = true → pc c ≠ PSend →
    ∃ m, m ∈ accepted s ∧ call_id m = Some id;
  g_once : NoDup (omap call_id (accepted s));
  g_order : ∃ lost, accepted s = served s ++ mailbox s ++ ingress s ++ lost ∧ (ingress_open s = true → lost = []);
  g_state : state_ok s;
  g_reply : reply_ok s;
  g_done : done_ok s;
  g_answers : ∀ i c id p, clients s !! i = Some c → request_id c = Some id →
    p ∈ channel c ∨ response c = Some p → genuine s id p;
}.

(** *** Steps that change neither the clients nor the table *)

Definition tame (t t' : Task State) : Prop :=
  t' = t ∨ (t = TNew ∧ t' = TStart) ∨
  match t' with TNew | TStart | TLoop _ | TReply _ _ _ | TStamped _ _ _ => False | _ => True end.

Lemma good_frame s s' :
  good s → next_request_id s' = next_request_id s → pending s' = pending s → clients s' = clients s →
  accepted s' = accepted s → served s' = served s → mailbox s' ++ ingress s' = mailbox s ++ ingress s →
  ingress_open s' = ingress_open s → (is_Some (exit s) → exit s' = exit s) → tame (task s) (task s') → good s'.
Proof.
  intros [] En Ep Ec Ea Es Em Eo Ee Et. split; unfold ids in *; rewrite ?En, ?Ep, ?Ec, ?Ea, ?Es; try done.
  - destruct g_order0 as (lost & Hl & Ho). exists lost. rewrite Eo. split; [|done].
    by rewrite Hl, !(app_assoc (mailbox _)), Em.
  - unfold state_ok in *. rewrite Es. destruct Et as [-> | [[E1 ->] | Ht]]; [done|by rewrite E1 in *|by destruct (task s')].
  - unfold reply_ok in *. rewrite Es. destruct Et as [-> | [[_ ->] | Ht]]; [done|done|by destruct (task s')].
  - unfold done_ok in *. rewrite Es, Ep. intros m id Hm Hid. specialize (g_done0 m id Hm Hid).
    destruct Et as [-> | [[_ ->] | Ht]]; [done|done|by destruct (task s')].
  - intros i c id p Hc Hid Hp. destruct (g_answers0 i c id p Hc Hid Hp) as [Hr | (st & He & Hr)]; [left; by rewrite Es|].
    right. exists st. split; [|done]. rewrite Ee; [done|by rewrite He].
Qed.

(** *** Steps of one client *)

Lemma ids_insert s i c c' :
  clients s !! i = Some c → request_id c' = request_id c → omap request_id (<[i := c']> (clients s)) = ids s.
Proof.
  intros Hi E. unfold ids. rewrite <- (take_drop_middle (clients s) i c Hi).
  rewrite insert_app_r_alt; rewrite length_take_le; try (apply lookup_lt_Some in Hi; lia).
  rewrite Nat.sub_diag. simpl. rewrite !omap_app. simpl. by rewrite E.
Qed.

(** A client that goes on without touching the table or the ingress. *)
Record moves s i c c' : Prop := {
  mv_id : request_id c' = request_id c;
  mv_op : operation c' = operation c;
  mv_ok : client_ok c';
  mv_active : ∀ id, pending s !! id = Some i → active c' = true ∧ channel c' = channel c;
  mv_waiting : is_Some (request_id c) → waiting c' = true → waiting c = true ∧ pc c ≠ PSend ∧ channel c' = channel c;
  mv_sent : sent c = true → sent c' = true;
  mv_answers : ∀ p, p ∈ channel c' ∨ response c' = Some p → p ∈ channel c ∨ response c = Some p;
}.

Lemma good_moves s i c c' :
  good s → clients s !! i = Some c → moves s i c c' → good (set_clients (<[i := c']> (clients s)) s).
Proof.
  intros [] Hc []. split; simpl; unfold ids; simpl; try done.
  - by rewrite (ids_insert s i c c').
  - intros j k cj ck id Hj Hk Ij Ik. apply list_lookup_insert_Some in Hj, Hk.
    destruct Hj as [(-> & <- & _) | [_ Hj]], Hk as [(-> & <- & _) | [_ Hk]]; try done;
      rewrite ?mv_id0 in *; by eapply g_unique0.
  - intros j cj id Hj Ij. apply list_lookup_insert_Some in Hj as [(-> & <- & _) | [_ Hj]]; rewrite ?mv_id0 in *; eauto.
  - intros j cj Hj. apply list_lookup_insert_Some in Hj as [(-> & <- & _) | [_ Hj]]; eauto.
  - intros id j Hp. destruct (g_pending0 id j Hp) as (cj & Hj & Ij & Aj & Lj).
    destruct (decide (i = j)) as [<-|Hne].
    + exists c'. rewrite list_lookup_insert_eq by (by eapply lookup_lt_Some). simplify_eq.
      destruct (mv_active0 id Hp) as [-> ->]. by rewrite mv_id0.
    + exists cj. by rewrite list_lookup_insert_ne.
  - intros j cj id Hj Ij Wj. apply list_lookup_insert_Some in Hj as [(-> & <- & _) | [_ Hj]]; [|by eapply g_waiting0].
    rewrite mv_id0 in Ij. destruct (mv_waiting0 ltac:(by rewrite Ij) Wj) as (W & _ & ->). by eapply g_waiting0.
  - intros m id Hm Hid. destruct (g_sent0 m id Hm Hid) as (j & cj & Hj & Ij & Sj & By).
    destruct (decide (i = j)) as [<-|Hne].
    + exists i, c'. rewrite list_lookup_insert_eq by (by eapply lookup_lt_Some). simplify_eq.
      split_and!; [done|by rewrite mv_id0|by apply mv_sent0|]. unfold sent_by. by rewrite mv_op0.
    + exists j, cj. by rewrite list_lookup_insert_ne.
  - intros j cj id Hj Ij Wj Nj. apply list_lookup_insert_Some in Hj as [(-> & <- & _) | [_ Hj]]; [|by eapply g_accepted0].
    rewrite mv_id0 in Ij. destruct (mv_waiting0 ltac:(by rewrite Ij) Wj) as (W & N & _). by eapply g_accepted0.
  - intros j cj id p Hj Ij Hp. apply list_lookup_insert_Some in Hj as [(-> & <- & _) | [_ Hj]]; [|by eapply g_answers0].
    rewrite mv_id0 in Ij. eapply g_answers0; eauto.
Qed.

(** The table loses an entry. *)
Lemma good_delete s i c id :
  good s → clients s !! i = Some c → request_id c = Some id → waiting c = false →
  good (set_pending (delete id (pending s)) s).
Proof.
  intros [] Hc Hid Hw. split; simpl; unfold ids; try done.
  - intros id' j [_ Hp]%lookup_delete_Some. eauto.
  - intros j cj id' Hj Ij Wj. destruct (g_waiting0 j cj id' Hj Ij Wj) as [Hp|Hp]; [|by right]. left.
    rewrite lookup_delete_ne; [done|]. intros ->. assert (i = j) by eauto. subst j. simplify_eq. congruence.
  - intros m id' Hm Hid'. specialize (g_done0 m id' Hm Hid'). simpl. rewrite lookup_delete. repeat case_match; auto.
Qed.

(** A client that enters the table. *)
Lemma good_enter s i c id :
  good s → clients s !! i = Some c → request_id c = Some id → pc c = PInsert →
  good (set_clients (<[i := at_pc PSend c]> (clients s)) (set_pending (<[id := i]> (pending s)) s)).
Proof.
  intros G Hc Hid Hpc. destruct (G) as []. destruct (g_client0 i c Hc) as [Hio Hpo]. unfold pc_ok in Hpo. rewrite Hpc in Hpo.
  destruct Hpo as (_ & Hch & Hre).
  assert (pending s !! id = None) as Hnone.
  { destruct (pending s !! id) as [j|] eqn:Hp; [|done]. destruct (g_pending0 id j Hp) as (cj & Hj & Ij & Aj & _).
    assert (i = j) as <- by eauto. simplify_eq. unfold active in Aj. by rewrite Hpc in Aj. }
  assert (∀ m, m ∈ accepted s → call_id m ≠ Some id) as Hnew.
  { intros m Hm Hid'. destruct (g_sent0 m id Hm Hid') as (j & cj & Hj & Ij & Sj & _).
    assert (i = j) as <- by eauto. simplify_eq. unfold sent in Sj. by rewrite Hpc in Sj. }
  split; simpl; unfold ids; simpl; try done.
  - by rewrite (ids_insert s i c).
  - intros j k cj ck id' Hj Hk Ij Ik. apply list_lookup_insert_Some in Hj, Hk.
    destruct Hj as [(-> & <- & _) | [_ Hj]], Hk as [(-> & <- & _) | [_ Hk]]; try done; by eapply g_unique0.
  - intros j cj id' Hj Ij. apply list_lookup_insert_Some in Hj as [(-> & <- & _) | [_ Hj]]; eauto.
  - intros j cj Hj. apply list_lookup_insert_Some in Hj as [(-> & <- & _) | [_ Hj]]; [|by eauto].
    split; [done|]. unfold pc_ok. simpl. by rewrite Hid.
  - intros id' j. rewrite lookup_insert_Some. intros [[<- <-] | [Hne Hp]].
    + exists (at_pc PSend c). by rewrite list_lookup_insert_eq by (by eapply lookup_lt_Some).
    + destruct (g_pending0 id' j Hp) as (cj & Hj & Ij & Aj & Lj). exists cj.
      rewrite list_lookup_insert_ne; [done|]. intros <-. simplify_eq.
  - intros j cj id' Hj Ij Wj. apply list_lookup_insert_Some in Hj as [(-> & <- & _) | [Hne Hj]].
    + simpl in Ij. left. simplify_eq. by rewrite lookup_insert_eq.
    + destruct (g_waiting0 j cj id' Hj Ij Wj) as [Hp|Hp]; [|by right]. left. rewrite lookup_insert_ne; [done|]. intros ->. congruence.
  - intros m id' Hm Hid'. destruct (g_sent0 m id' Hm Hid') as (j & cj & Hj & Ij & Sj & By). exists j, cj.
    rewrite list_lookup_insert_ne; [done|]. intros <-. simplify_eq. unfold sent in Sj. by rewrite Hpc in Sj.
  - intros j cj id' Hj Ij Wj Nj. apply list_lookup_insert_Some in Hj as [(-> & <- & _) | [_ Hj]]; [done|by eapply g_accepted0].
  - intros m id' Hm Hid'. specialize (g_done0 m id' Hm Hid'). simpl in *.
    rewrite lookup_insert_ne; [done|]. intros <-. destruct g_order0 as (lost & Hl & _).
    apply (Hnew m); [|done]. rewrite Hl, elem_of_app. by left.
  - intros j cj id' p Hj Ij Hp. apply list_lookup_insert_Some in Hj as [(-> & <- & _) | [_ Hj]]; eauto.
Qed.

(** The numbers do not wrap around while there have been fewer calls than numbers. *)
Definition few s : Prop := Z.of_nat (length (clients s)) < 2 ^ 64 - 1.

Lemma omap_short {A B} (f : A → option B) l : (length (omap f l) <= length l)%nat.
Proof. induction l as [|a l IH]; csimpl; [done|]. destruct (f a); simpl; lia. Qed.

Lemma ids_take s i c c' id :
  clients s !! i = Some c → request_id c = None → request_id c' = Some id →
  length (omap request_id (<[i := c']> (clients s))) = S (length (ids s)).
Proof.
  intros Hi E E'. unfold ids. rewrite <- (take_drop_middle (clients s) i c Hi).
  rewrite insert_app_r_alt; rewrite length_take_le; try (apply lookup_lt_Some in Hi; lia).
  rewrite Nat.sub_diag. simpl. rewrite !omap_app. simpl. rewrite E, E'. rewrite !length_app. simpl. lia.
Qed.

Lemma good_take_id s i c :
  few s → good s → clients s !! i = Some c → pc c = PTakeId →
  good (set_clients (<[i := at_id PInsert (next_request_id s) c]> (clients s))
          (set_next_request_id ((next_request_id s + 1) mod 2 ^ 64) s)).
Proof.
  intros Hf [] Hc Hpc. destruct (g_client0 i c Hc) as [Hio Hpo]. unfold pc_ok in Hpo. rewrite Hpc in Hpo.
  destruct Hpo as [Hcall Hid]. unfold id_ok in Hio. rewrite Hid in Hio. destruct Hio as [Hch Hre].
  assert ((next_request_id s + 1) mod 2 ^ 64 = next_request_id s + 1) as Hn.
  { apply Z.mod_small. unfold few in Hf. rewrite g_next0. 
    pose proof (ids_take s i c (at_id PInsert 0 c) 0 Hc Hid eq_refl) as Hl.
    pose proof (omap_short request_id (<[i := at_id PInsert 0 c]> (clients s))) as Hs. rewrite Hl, length_insert in Hs. lia. }
  rewrite Hn. split; simpl; unfold ids; simpl; try done.
  - rewrite (ids_take s i c _ (next_request_id s)) by done. rewrite g_next0. lia.
  - intros j k cj ck id Hj Hk Ij Ik. apply list_lookup_insert_Some in Hj, Hk.
    destruct Hj as [(-> & <- & _) | [Nj Hj]], Hk as [(-> & <- & _) | [Nk Hk]]; try done; simpl in *; simplify_eq.
    + pose proof (g_range0 k ck _ Hk Ik). lia.
    + pose proof (g_range0 j cj _ Hj Ij). lia.
    + by eapply g_unique0.
  - intros j cj id Hj Ij. apply list_lookup_insert_Some in Hj as [(-> & <- & _) | [_ Hj]]; simpl in *; simplify_eq; [lia|].
    pose proof (g_range0 j cj id Hj Ij). lia.
  - intros j cj Hj. apply list_lookup_insert_Some in Hj as [(-> & <- & _) | [_ Hj]]; [|by eauto].
    unfold client_ok, id_ok, pc_ok. simpl. by rewrite Hch, Hre.
  - intros id j Hp. destruct (g_pending0 id j Hp) as (cj & Hj & Ij & Aj & Lj). exists cj.
    rewrite list_lookup_insert_ne; [done|]. intros <-. congruence.
  - intros j cj id Hj Ij Wj. apply list_lookup_insert_Some in Hj as [(-> & <- & _) | [_ Hj]]; [done|]. by eapply g_waiting0.
  - intros m id Hm Hi. destruct (g_sent0 m id Hm Hi) as (j & cj & Hj & Ij & Sj & By). exists j, cj.
    rewrite list_lookup_insert_ne; [done|]. intros <-. congruence.
  - intros j cj id Hj Ij Wj Nj. apply list_lookup_insert_Some in Hj as [(-> & <- & _) | [_ Hj]]; [done|by eapply g_accepted0].
  - intros j cj id p Hj Ij Hp. apply list_lookup_insert_Some in Hj as [(-> & <- & _) | [_ Hj]]; [|by eauto].
    simpl in Hp. rewrite Hch, Hre in Hp. destruct Hp as [Hp|Hp]; [by apply not_elem_of_nil in Hp|done].
Qed.

(** A message that is no call. *)
Lemma good_enqueue s m : good s → ingress_open s = true → call_id m = None → good (enqueue m s).
Proof.
  intros [] Ho Hm. split; simpl; try done.
  - intros m' id [Hin | ->%list_elem_of_singleton]%elem_of_app Hid; [by eapply g_sent0|congruence].
  - intros i c id Hc Hid Hw Hn. destruct (g_accepted0 i c id Hc Hid Hw Hn) as (m' & Hin & Hm'). exists m'.
    rewrite elem_of_app. auto.
  - rewrite omap_app. simpl. rewrite Hm. by rewrite app_nil_r.
  - destruct g_order0 as (lost & Hl & Hlost). exists []. split; [|done]. by rewrite Hl, (Hlost Ho), !app_nil_r, <- !app_assoc.
Qed.

Lemma call_id_of (m : ServerMessage Call Cast) b :
  serialize m = Some b → call_id (MmData b) = match m with MCall _ id => Some id | _ => None end.
Proof. intros H. simpl. by rewrite (deserialize_serialize m b H). Qed.

(** A call that is accepted. *)
Lemma good_send s i c id request b :
  good s → ingress_open s = true → clients s !! i = Some c → pc c = PSend → operation c = OpCall request →
  request_id c = Some id → serialize (MCall (Cast := Cast) request id) = Some b →
  good (set_clients (<[i := at_pc PElapsed c]> (clients s)) (enqueue (MmData b) s)).
Proof.
  intros [] Ho Hc Hpc Hop Hid Hb. pose proof (call_id_of _ _ Hb) as Hm.
  destruct (g_client0 i c Hc) as [Hio Hpo]. unfold pc_ok in Hpo. rewrite Hpc in Hpo. destruct Hpo as [Hre _].
  assert (waiting c = true) as Hw by (unfold waiting; by rewrite Hpc).
  split; simpl; unfold ids; simpl; try done.
  - by rewrite (ids_insert s i c).
  - intros j k cj ck id' Hj Hk Ij Ik. apply list_lookup_insert_Some in Hj, Hk.
    destruct Hj as [(-> & <- & _) | [_ Hj]], Hk as [(-> & <- & _) | [_ Hk]]; try done; by eapply g_unique0.
  - intros j cj id' Hj Ij. apply list_lookup_insert_Some in Hj as [(-> & <- & _) | [_ Hj]]; eauto.
  - intros j cj Hj. apply list_lookup_insert_Some in Hj as [(-> & <- & _) | [_ Hj]]; [|by eauto].
    split; [done|]. unfold pc_ok. simpl. by rewrite Hid.
  - intros id' j Hp. destruct (g_pending0 id' j Hp) as (cj & Hj & Ij & Aj & Lj). destruct (decide (i = j)) as [<-|Hne].
    + exists (at_pc PElapsed c). rewrite list_lookup_insert_eq by (by eapply lookup_lt_Some). by simplify_eq.
    + exists cj. by rewrite list_lookup_insert_ne.
  - intros j cj id' Hj Ij Wj. apply list_lookup_insert_Some in Hj as [(-> & <- & _) | [_ Hj]]; [by apply (g_waiting0 j c)|by eapply g_waiting0].
  - intros m id' [Hin | ->%list_elem_of_singleton]%elem_of_app Hid'.
    + destruct (g_sent0 m id' Hin Hid') as (j & cj & Hj & Ij & Sj & By). exists j, cj.
      rewrite list_lookup_insert_ne; [done|]. intros <-. simplify_eq. unfold sent in Sj. by rewrite Hpc in Sj.
    + rewrite Hm in Hid'. injection Hid' as <-. exists i, (at_pc PElapsed c).
      rewrite list_lookup_insert_eq by (by eapply lookup_lt_Some). split_and!; [done..|]. by exists b, request.
  - intros j cj id' Hj Ij Wj Nj. apply list_lookup_insert_Some in Hj as [(-> & <- & _) | [_ Hj]].
    + simpl in Ij. exists (MmData b). rewrite elem_of_app, list_elem_of_singleton. split; [by right|congruence].
    + destruct (g_accepted0 j cj id' Hj Ij Wj Nj) as (m & Hin & E). exists m. rewrite elem_of_app. auto.
  - rewrite omap_app. cbn [omap list_omap]. rewrite Hm.
    apply NoDup_app. split_and!; [done| |by apply NoDup_singleton].
    intros x (m & Hin & Hx)%list_elem_of_omap ->%list_elem_of_singleton.
    destruct (g_sent0 m id Hin Hx) as (j & cj & Hj & Ij & Sj & _). assert (i = j) as <- by eauto.
    simplify_eq. unfold sent in Sj. by rewrite Hpc in Sj.
  - destruct g_order0 as (lost & Hl & Hlost). exists []. split; [|done]. by rewrite Hl, (Hlost Ho), !app_nil_r, <- !app_assoc.
  - intros j cj id' p Hj Ij Hp. apply list_lookup_insert_Some in Hj as [(-> & <- & _) | [_ Hj]]; eauto.
Qed.

(** A client without a number. *)
Lemma moves_idle s i c c' :
  good s → clients s !! i = Some c → request_id c = None → sent c = false →
  operation c' = operation c → request_id c' = None → channel c' = channel c → response c' = response c →
  pc_ok c' → moves s i c c'.
Proof.
  intros G Hc Hid Hs Eo Ei Ec Er Hp. destruct (g_client s G i c Hc) as [Hio _]. unfold id_ok in Hio. rewrite Hid in Hio.
  split; rewrite ?Hid, ?Hs; try done.
  - split; [|done]. unfold id_ok. by rewrite Ei, Ec, Er.
  - intros id Hpend. destruct (g_pending s G id i Hpend) as (? & ? & ? & _). congruence.
  - by rewrite Ec, Er.
Qed.

(** A call that goes on waiting, or gives up. *)
Lemma moves_call s i c p :
  good s → clients s !! i = Some c → is_Some (request_id c) → waiting c = true → pc_ok (at_pc p c) →
  match p with PElapsed | PRemaining _ | PRecv _ => pc c ≠ PSend | PAbandon _ => True | _ => False end →
  moves s i c (at_pc p c).
Proof.
  intros G Hc [id Hid] Hw Hp Hq. destruct (g_client s G i c Hc) as [Hio _].
  split; try done.
  - intros id' Hpend. split; [|done]. unfold active. simpl. by destruct p.
  - intros _ W. unfold waiting in W. simpl in W. by destruct p.
  - intros _. unfold sent. simpl. by destruct p.
Qed.

(** A call that takes its reply. *)
Lemma moves_reply s i c p rest deadline :
  good s → clients s !! i = Some c → pc c = PRecv deadline → channel c = p :: rest → moves s i c (on_reply p rest c).
Proof.
  intros G Hc Hpc Hch. destruct (g_client s G i c Hc) as [Hio Hpo]. unfold pc_ok in Hpo. rewrite Hpc in Hpo.
  destruct Hpo as [[id Hid] Hre]. unfold id_ok in Hio. rewrite Hid in Hio.
  assert (∀ id, pending s !! id ≠ Some i) as Hnp.
  { intros id' Hp. destruct (g_pending s G id' i Hp) as (? & ? & _ & _ & ?). congruence. }
  assert (∀ ms q, timeout_ms c = Some ms → before_deadline p (started_at c) (from_millis ms) = Some q →
    q = p ∧ completed_at p - started_at c < from_millis ms) as Hbd.
  { intros ms q _. unfold before_deadline, duration_since. case_match; [done|]. bool_to_prop. intros [= <-]. split; [done|lia]. }
  assert (∀ c', c' = at_response (received_pc p) rest p c → timely c' → moves s i c c') as Hdone.
  { intros c' -> Ht. split; try done.
    - split; [unfold id_ok; simpl; by rewrite Hid|]. unfold pc_ok. simpl. unfold received_pc, outcome_ok.
      destruct (reply_result p) as [b|e] eqn:Hr; [|by eauto].
      destruct (deserialize b) as [v|] eqn:Hd; simpl; [|done]. split; [done|]. by exists p, b, v.
    - intros id' Hp. by apply Hnp in Hp.
    - simpl. rewrite Hch. intros q [Hq | [= <-]]; left; [by right|by left]. }
  unfold on_reply. destruct (timeout_ms c) as [ms|] eqn:Htm.
  - destruct (before_deadline p (started_at c) (from_millis ms)) as [q|] eqn:Hq.
    + destruct (Hbd ms q eq_refl Hq) as [-> Hlt]. apply Hdone; [done|]. intros ms' p' E1 E2. simpl in *. congruence.
    + split; try done.
      * split; [unfold id_ok; simpl; by rewrite Hid|]. unfold pc_ok. simpl. by rewrite Hid.
      * intros id' Hp. by apply Hnp in Hp.
      * simpl. rewrite Hch, Hre. intros q [Hx|?]; [left; by right|done].
  - apply Hdone; [done|]. intros ms' p' E1 E2. simpl in *. congruence.
Qed.

Lemma good_moves_to s s' i c c' :
  good s → clients s !! i = Some c → moves s i c c' →
  Some (set_clients (<[i := c']> (clients s)) s) = Some s' → good s'.
Proof. intros G Hc Hm [= <-]. by eapply good_moves. Qed.

(** [PSend] *)
Lemma send_good choice i c s s' :
  good s → clients s !! i = Some c → pc c = PSend → client_step choice i c s = Some s' → good s'.
Proof.
  intros G Hc Hpc H. pose proof (g_client s G i c Hc) as [Hio Hpo]. unfold pc_ok in Hpo. rewrite Hpc in Hpo.
  destruct Hpo as [Hre Hcall]. unfold client_step in H. rewrite Hpc in H. unfold id_ok in Hio.
  assert (sent c = false) as Hs by (unfold sent; by rewrite Hpc).
  assert (waiting c = true) as Hw by (unfold waiting; by rewrite Hpc).
  destruct (send_operation choice c s) as [s1|e] eqn:Hsend.
  - apply send_operation_Ok in Hsend as (Ho & Hs1). destruct (request_id c) as [id|] eqn:Hid.
    + destruct (operation c) as [request| | | | |] eqn:Hop; try done. destruct Hs1 as [[? _] | (m & b & Hm & Hb & ->)]; [done|].
      injection Hm as <-. injection H as <-. by eapply good_send.
    + assert (¬ is_call (operation c)) as Hnc by (intros Hx; by destruct (Hcall Hx)).
      assert (good s1) as G1.
      { destruct Hs1 as [[_ ->] | (m & b & Hm & Hb & ->)]; [by apply (good_frame s); try done; left|].
        apply good_enqueue; [done|done|]. rewrite (call_id_of m b Hb). by destruct (operation c); simplify_eq/=. }
      assert (clients s1 = clients s) as Ec by (by destruct Hs1 as [[_ ->] | (m & b & _ & _ & ->)]).
      refine (good_moves_to s1 s' i c _ G1 _ _ H); [by rewrite Ec|]. apply moves_idle; rewrite ?Ec; try done.
      unfold pc_ok. simpl. by destruct (operation c).
  - apply send_operation_Err in Hsend. destruct (request_id c) as [id|] eqn:Hid.
    + assert (send_failed_pc (CallReply := CallReply) (operation c) e = PAbandon e) as E by (by destruct (operation c)). rewrite E in H.
      refine (good_moves_to s s' i c _ G Hc _ H). apply moves_call; try done; try by rewrite Hid.
      unfold pc_ok. simpl. rewrite Hid. destruct Hsend as [-> | ->]; done.
    + assert (send_failed_pc (CallReply := CallReply) (operation c) e = PReturned (Error e)) as E.
      { destruct (operation c); try done. by destruct (Hcall I). }
      rewrite E in H. refine (good_moves_to s s' i c _ G Hc _ H). apply moves_idle; try done.
      unfold pc_ok. simpl. by destruct Hsend as [-> | ->].
Qed.

Lemma client_good choice i c s s' :
  few s → good s → clients s !! i = Some c → client_step choice i c s = Some s' → good s'.
Proof.
  intros Hf G Hc H. assert (pc c = PSend ∨ pc c ≠ PSend) as [Hpc|Hns] by (destruct (pc c); auto); [by eapply send_good|].
  pose proof (g_client s G i c Hc) as [Hio Hpo].
  assert (is_Some (request_id c) → pc c ≠ PSend → waiting c = true → ∀ p, pc_ok (at_pc p c) →
    match p with PElapsed | PRemaining _ | PRecv _ | PAbandon _ => True | _ => False end →
    good (set_clients (<[i := at_pc p c]> (clients s)) s)) as Hmv.
  { intros Hid _ Hw p Hp Hq. apply (good_moves s i c); try done. apply moves_call; try done. by destruct p. }
  assert (request_id c = None → sent c = false → ∀ p, pc_ok (at_pc p c) →
    good (set_clients (<[i := at_pc p c]> (clients s)) s)) as Hidle.
  { intros Hid Hs p Hp. apply (good_moves s i c); try done. by apply moves_idle. }
  unfold client_step in H. unfold pc_ok in Hpo, Hmv, Hidle. unfold id_ok in Hio.
  unfold sent in Hidle. unfold waiting in Hmv.
  destruct (pc c) as [| | | | | | | |rem|dl|e| |dl|dl b|o] eqn:Hpc; try done.
  - destruct (exit s) as [[]|]; injection H as <-; by apply Hidle.
  - destruct (exit s); injection H as <-; by apply Hidle.
  - rewrite Hpo in Hio. destruct (registered s); injection H as <-; apply Hidle; try done.
    simpl. destruct (operation c); simpl; rewrite ?Hpo; naive_solver.
  - injection H as <-. destruct Hpo as [Hcall Hid]. apply (good_moves s i c); try done.
    apply moves_idle; try done. unfold sent. by rewrite Hpc.
  - injection H as <-. by apply good_take_id.
  - apply bind_Some in H as (id & Hid & [= <-]). by apply good_enter.
  - destruct Hpo as [Hid Hre]. destruct (timeout_ms c); [|injection H as <-; by apply Hmv].
    destruct (checked_sub _ _); injection H as <-; by apply Hmv.
  - destruct Hpo as [Hid Hre]. injection H as <-. by apply Hmv.
  - destruct Hpo as [Hid' Hre]. apply bind_Some in H as (id & Hid & H). destruct (channel c) as [|p rest] eqn:Hch.
    + destruct (bool_decide _); [destruct (passed _ _); [|done]|]; injection H as <-; by apply Hmv.
    + injection H as <-. apply (good_moves s i c); try done. by eapply moves_reply.
  - destruct Hpo as (Hid' & Hre & He). apply bind_Some in H as (id & Hid & [= <-]).
    apply (good_moves (set_pending (delete id (pending s)) s) i c); [|done|].
    + apply (good_delete s i c); try done. unfold waiting. by rewrite Hpc.
    + split; try done.
      * split; [done|]. unfold pc_ok. simpl. destruct e; try done. by destruct (He error).
      * simpl. intros id' [Hne Hp]%lookup_delete_Some. destruct (g_pending s G id' i Hp) as (? & ? & ? & _). congruence.
  - destruct Hpo as [Hid Hx]. injection H as <-. by apply Hidle.
  - destruct Hpo as [Hid Hx]. destruct (exit s) as [st|]; [|destruct (expired _ _)]; injection H as <-; apply Hidle; try done.
    simpl. by destruct (operation c), st.
  - destruct Hpo as [Hid Hx]. destruct (_ || _); [|done]. injection H as <-. by apply Hidle.
Qed.

(** *** Answers *)

(** What an answer or a notification may change of a client. *)
Record alike c c' : Prop := {
  al_id : request_id c' = request_id c;
  al_op : operation c' = operation c;
  al_ok : client_ok c → client_ok c';
  al_active : active c' = active c;
  al_waiting : waiting c' = waiting c;
  al_sent : sent c' = sent c;
  al_send : pc c' = PSend → pc c = PSend;
  al_response : response c' = response c;
  al_full : channel c ≠ [] → channel c' = channel c;
}.

Lemma alike_refl c : alike c c.
Proof. by split. Qed.

Lemma omap_imap_alike (g : nat → Client → Client) l :
  (∀ j c, l !! j = Some c → request_id (g j c) = request_id c) → omap request_id (imap g l) = omap request_id l.
Proof.
  revert g. induction l as [|c l IH]; intros g Hg; [done|]. rewrite imap_cons. csimpl.
  rewrite (Hg 0%nat c eq_refl), (IH (g ∘ S)); [done|]. intros j c' Hj. by apply (Hg (S j)).
Qed.

Lemma good_answers s s' g :
  good s → clients s' = imap g (clients s) → (∀ j c, clients s !! j = Some c → alike c (g j c)) →
  pending s' ⊆ pending s →
  (∀ id j c, pending s' !! id = Some j → clients s !! j = Some c → channel (g j c) = channel c) →
  (∀ id j c, clients s !! j = Some c → pending s !! id = Some j → channel c = [] →
     pending s' !! id = Some j ∨ ∃ p, channel (g j c) = [p]) →
  (∀ id j c p, clients s !! j = Some c → request_id c = Some id → p ∈ channel (g j c) → p ∈ channel c ∨ genuine s' id p) →
  next_request_id s' = next_request_id s → accepted s' = accepted s → served s' = served s →
  mailbox s' = mailbox s → ingress s' = ingress s → ingress_open s' = ingress_open s →
  (is_Some (exit s) → exit s' = exit s) → state_ok s' → reply_ok s' → done_ok s' → good s'.
Proof.
  intros [] Ec Hal Hsub Hkeep Hgot Hans En Ea Es Em Ei Eo Ee H1 H2 H3.
  assert (∀ j c', clients s' !! j = Some c' → ∃ c, clients s !! j = Some c ∧ c' = g j c ∧ alike c c') as Hlk.
  { intros j c'. rewrite Ec, list_lookup_imap. intros (c & Hc & ->)%fmap_Some_1. eauto. }
  assert (∀ j c, clients s !! j = Some c → clients s' !! j = Some (g j c)) as Hlk'.
  { intros j c Hc. by rewrite Ec, list_lookup_imap, Hc. }
  split; try done; rewrite ?En, ?Ea, ?Es, ?Em, ?Ei, ?Eo; try done.
  - unfold ids. rewrite Ec, omap_imap_alike; [done|]. intros j c Hc. by apply al_id, Hal.
  - intros i j ci cj id (c1 & Hi & _ & A1)%Hlk (c2 & Hj & _ & A2)%Hlk. rewrite (al_id _ _ A1), (al_id _ _ A2). by eapply g_unique0.
  - intros i c id (c1 & Hi & _ & A1)%Hlk. rewrite (al_id _ _ A1). by eapply g_range0.
  - intros i c (c1 & Hi & _ & A1)%Hlk. eapply al_ok; eauto.
  - intros id i Hp. destruct (g_pending0 id i) as (c & Hc & Hid & Ha & Hch); [by eapply lookup_weaken|].
    exists (g i c). pose proof (Hal i c Hc) as A. split; [by apply Hlk'|].
    by rewrite (al_id _ _ A), (al_active _ _ A), (Hkeep id i c).
  - intros i c' id (c & Hc & -> & A)%Hlk. rewrite (al_id _ _ A), (al_waiting _ _ A). intros Hid Hw.
    destruct (g_waiting0 i c id Hc Hid Hw) as [Hp | [p Hp]].
    + destruct (g_pending0 id i Hp) as (? & ? & _ & _ & ?). simplify_eq. by eapply Hgot.
    + right. exists p. rewrite (al_full _ _ A); [done|]. by rewrite Hp.
  - intros m id Hm Hid. destruct (g_sent0 m id Hm Hid) as (i & c & Hc & Hi & Hs & Hb). exists i, (g i c).
    pose proof (Hal i c Hc) as A. split; [by apply Hlk'|].
    rewrite (al_id _ _ A), (al_sent _ _ A). unfold sent_by. by rewrite (al_op _ _ A).
  - intros i c' id (c & Hc & -> & A)%Hlk. rewrite (al_id _ _ A), (al_waiting _ _ A). intros Hid Hw Hn.
    apply (g_accepted0 i c id Hc Hid Hw). intros E. apply Hn.
    assert (waiting (g i c) = true) as W by (by rewrite (al_waiting _ _ A)).
    assert (sent (g i c) = false) as S by (rewrite (al_sent _ _ A); unfold sent; by rewrite E).
    unfold waiting, sent in *. by destruct (pc (g i c)).
  - intros i c' id p (c & Hc & -> & A)%Hlk. rewrite (al_id _ _ A), (al_response _ _ A). intros Hid Hp.
    assert (p ∈ channel c ∨ response c = Some p → genuine s' id p) as Hold.
    { intros Hq. destruct (g_answers0 i c id p Hc Hid Hq) as [Hr | (st & He & Hr)]; [left; by rewrite Es|].
      right. exists st. split; [|done]. rewrite Ee; [done|by rewrite He]. }
    destruct Hp as [Hp|Hp]; [|by auto]. destruct (Hans id i c p Hc Hid Hp); auto.
Qed.

(** A message in the channel of a call that is waiting. *)
Lemma send_reply_alike p c : is_Some (request_id c) → active c = true → channel c = [] → alike c (send_reply p c).
Proof.
  intros [id Hid] Ha Hch. assert (send_reply p c = at_channel [p] c) as ->.
  { unfold send_reply. rewrite Hch. unfold active in Ha. by destruct (pc c). }
  split; try done. intros [Hi Hp]. split; [unfold id_ok in *; simpl; by rewrite Hid in *|].
  unfold pc_ok, active in *. simpl. by destruct (pc c).
Qed.

Lemma send_reply_channel p c : active c = true → channel (send_reply p c) = channel c ++ [p].
Proof. unfold send_reply, active. by destruct (pc c). Qed.

Lemma alter_imap {A} (f : A → A) i l : alter f i l = imap (fun j a => if decide (j = i) then f a else a) l.
Proof.
  apply list_eq. intros j. rewrite list_lookup_imap. destruct (decide (j = i)) as [->|Hne].
  - by rewrite list_lookup_alter_eq.
  - rewrite list_lookup_alter_ne by done. by destruct (l !! j).
Qed.

Lemma fmap_imap {A B} (f : A → B) l : f <$> l = imap (fun _ => f) l.
Proof. apply list_eq. intros j. by rewrite list_lookup_imap, list_lookup_fmap. Qed.

Lemma notify_alike c : alike c (notify_client c).
Proof.
  unfold notify_client. destruct (pc c) eqn:E; try apply alike_refl.
  split; unfold active, waiting, sent; simpl; rewrite ?E; try done.
  intros [Hi Hp]. split; [done|]. unfold pc_ok in *. rewrite E in Hp. done.
Qed.

Lemma notify_good s : good s → good (finish_notify s).
Proof.
  intros G. apply (good_answers s _ (fun _ => notify_client)); try done; try apply G.
  - apply fmap_imap.
  - intros j c _. apply notify_alike.
  - intros id j c _ _. unfold notify_client. by destruct (pc c).
  - intros id j c _ Hp _. by left.
  - intros id j c p _ _ Hp. left. revert Hp. unfold notify_client. by destruct (pc c).
Qed.

Lemma drain_good s status : good s → exit s = Some status → good (finish_drain status s).
Proof.
  intros G He. set (p := mkPendingReply (Err (pending_error status)) (now s)).
  assert (∀ j c, clients s !! j = Some c →
    (drain_client (pending s) p j c = c ∧ ∀ id, pending s !! id ≠ Some j) ∨
    (drain_client (pending s) p j c = send_reply p c ∧ is_Some (request_id c) ∧ active c = true ∧ channel c = [])) as Hg.
  { intros j c Hc. unfold drain_client. case_bool_decide as Hx.
    - right. destruct Hx as (id & j' & Hp & ->). destruct (g_pending s G id j Hp) as (c' & Hc' & Hid & Ha & Hch).
      simplify_eq. by rewrite Hid.
    - left. split; [done|]. intros id Hp. apply Hx. by exists id, j. }
  apply (good_answers s _ (drain_client (pending s) p)); try done; try apply G.
  - intros j c Hc. destruct (Hg j c Hc) as [[-> _] | (-> & Hid & Ha & Hch)]; [apply alike_refl|by apply send_reply_alike].
  - apply map_empty_subseteq.
  - intros id j c Hc Hp Hch. right. destruct (Hg j c Hc) as [[_ Hn] | (-> & _ & Ha & _)]; [by destruct (Hn id)|].
    exists p. by rewrite send_reply_channel, Hch.
  - intros id j c q Hc Hid Hq. destruct (Hg j c Hc) as [[E _] | (E & _ & Ha & Hch)]; rewrite E in Hq; [by left|].
    rewrite send_reply_channel, Hch in Hq by done. right. right. exists status.
    apply list_elem_of_singleton in Hq as ->. done.
  - intros m id _ _. simpl. case_match; try done; intros; apply lookup_empty.
Qed.

Lemma answer_good s st id p :
  good s → task s = TStamped st id p → good (set_task (TLoop st) (answer id p s)).
Proof.
  intros G Et. pose proof (g_state s G) as Hst. pose proof (g_reply s G) as Hr. pose proof (g_done s G) as Hd.
  unfold state_ok, reply_ok, done_ok in *. rewrite Et in *. unfold answer.
  destruct (pending s !! id) as [i|] eqn:Hp.
  - destruct (g_pending s G id i Hp) as (c & Hc & Hid & Ha & Hch).
    apply (good_answers s _ (fun j c => if decide (j = i) then send_reply p c else c)); try done.
    + apply alter_imap.
    + intros j cj Hj. case_decide as E; [|apply alike_refl]. subst j. simplify_eq. by apply send_reply_alike.
    + apply delete_subseteq.
    + simpl. intros id' j cj [Hne Hp']%lookup_delete_Some Hj. case_decide as E; [|done]. subst j. simplify_eq.
      destruct (g_pending s G id' i Hp') as (? & ? & ? & _). congruence.
    + intros id' j cj Hj Hp' Hch'. destruct (decide (id' = id)) as [->|Hne].
      * right. simplify_eq. rewrite decide_True by done. exists p. by rewrite send_reply_channel, Hch.
      * left. by apply lookup_delete_Some.
    + intros id' j cj q Hj Hid'. case_decide as E; [|by left]. subst j. simplify_eq. rewrite send_reply_channel, Hch by done.
      intros ->%list_elem_of_singleton. right. by left.
    + intros m id' Hm Hid'. simpl in *. rewrite lookup_delete. case_decide; [done|]. by apply (Hd m id').
  - apply (good_answers s _ (fun _ c => c)); try done.
    + simpl. by rewrite <- fmap_imap, list_fmap_id.
    + intros id' j c _ Hq _. by left.
    + intros id' j c q _ _ Hq. by left.
    + intros m id' Hm Hid'. simpl in *. destruct (decide (id' = id)) as [->|Hne]; [done|]. by apply (Hd m id').
Qed.

(** The server takes a message. *)
Lemma on_message_next st st' m : on_message st m = Next st' → call_id m = None.
Proof.
  destruct m as [b| |q]; simpl; [|done|done]. unfold on_data, continue_with.
  destruct (deserialize b) as [[]|]; intros H; repeat case_match; by simplify_eq/=.
Qed.

Definition turn_task (t : Turn State) : Task State :=
  match t with
  | Next st => TLoop st
  | ReplyTo st id response => TReply st id response
  | Leave status outcome => guarded status outcome
  end.

Lemma pop_good s st m rest :
  good s → task s = TLoop st → mailbox s = m :: rest →
  good (set_task (turn_task (on_message st m)) (set_served (served s ++ [m]) (set_mailbox rest s))).
Proof.
  intros [] Et Hm. unfold state_ok, done_ok in *. rewrite Et in *. destruct g_state0 as (st0 & Hi & Hst).
  assert (∀ st' id r, on_message st m = ReplyTo st' id r → replied (served s ++ [m]) id r) as Hrep.
  { intros st' id r E. exists (served s), m, [], st0, st, st'. by pose proof (on_message_reply_id _ _ _ _ _ E). }
  split; simpl; try done.
  - destruct g_order0 as (lost & Hl & Ho). exists lost. split; [|done]. rewrite Hl, Hm. by rewrite <- app_assoc.
  - unfold state_ok. simpl. assert (∀ st', serves st0 (served s ++ [m]) = Some st' ↔
      (match on_message st m with Next x | ReplyTo x _ _ => Some x | Leave _ _ => None end) = Some st') as Hs.
    { intros st'. rewrite serves_app, Hst. simpl. by destruct (on_message st m). }
    unfold turn_task. destruct (on_message st m); simpl; try done; exists st0; split; try done; by apply Hs.
  - unfold reply_ok. simpl. unfold turn_task. destruct (on_message st m) eqn:E; simpl; try done. by eapply Hrep.
  - intros m' id [Hin | ->%list_elem_of_singleton]%elem_of_app Hid; simpl; unfold turn_task.
    + destruct (on_message st m); simpl; try done; intros; by apply (g_done0 m').
    + destruct (on_message st m) as [st'|st' id' r|] eqn:E; simpl; [|..|done].
      * by rewrite (on_message_next _ _ _ E) in Hid.
      * apply on_message_reply_id in E. intros Hne. congruence.
  - intros i c id p Hc Hid Hp. destruct (g_answers0 i c id p Hc Hid Hp) as [Hr|Hr]; [left; by apply replied_app|by right].
Qed.

(** ** The invariant holds *)

Lemma begin_good s o timeout : good s → good (set_clients (clients s ++ [begin_client o timeout]) s).
Proof.
  intros []. set (c0 := begin_client o timeout).
  assert (∀ i c, (clients s ++ [c0]) !! i = Some c → clients s !! i = Some c ∨ c = c0) as Hlk.
  { intros i c [H|[_ H]]%lookup_app_Some; [by left|]. right. by apply list_lookup_singleton_Some in H as [_ ->]. }
  assert (∀ i c, clients s !! i = Some c → (clients s ++ [c0]) !! i = Some c) as Hlk' by (intros; by apply lookup_app_l_Some).
  assert (request_id c0 = None ∧ client_ok c0) as [Hid0 Hok0].
  { split; [done|]. split; [done|]. unfold pc_ok. simpl. by destruct o. }
  split; simpl; unfold ids; simpl; try done.
  - rewrite omap_app. simpl. by rewrite app_nil_r.
  - intros i j ci cj id [Hi | ->]%Hlk [Hj | ->]%Hlk Ii Ij; try (rewrite Hid0 in *; done). by eapply g_unique0.
  - intros i c id [Hi | ->]%Hlk Ii; [by eapply g_range0|by rewrite Hid0 in Ii].
  - intros i c [Hi | ->]%Hlk; [by eapply g_client0|done].
  - intros id i Hp. destruct (g_pending0 id i Hp) as (c & Hc & ?). eauto.
  - intros i c id [Hi | ->]%Hlk Ii; [by eapply g_waiting0|by rewrite Hid0 in Ii].
  - intros m id Hm Hid. destruct (g_sent0 m id Hm Hid) as (i & c & Hc & ?). eauto.
  - intros i c id [Hi | ->]%Hlk Ii; [by eapply g_accepted0|by rewrite Hid0 in Ii].
  - intros i c id p [Hi | ->]%Hlk Ii; [by eapply g_answers0|by rewrite Hid0 in Ii].
Qed.

Lemma start_good s r :
  good s → task s = TStart →
  good (set_task (match init with Some st => TLoop st | None => guarded None (Err "Process panicked"%string) end)
          (set_start (StTaken r) s)).
Proof.
  intros G Et. pose proof (g_state s G) as Hs. unfold state_ok in Hs. rewrite Et in Hs.
  destruct init as [st|] eqn:Hi; [|apply (good_frame s); try done; by right; right].
  destruct G. split; simpl; try done.
  - unfold state_ok. simpl. exists st. by rewrite Hs.
  - unfold done_ok. simpl. rewrite Hs. by intros m id ?%not_elem_of_nil.
Qed.

Lemma stamp_good s st id r t :
  good s → task s = TReply st id r → good (set_task (TStamped st id (mkPendingReply r t)) s).
Proof.
  intros [] Et. unfold state_ok, reply_ok, done_ok in *. rewrite Et in *. by split.
Qed.

Lemma close_good s o : good s → good (set_task (TEnded o) (set_ingress_open false (set_ingress [] s))).
Proof.
  intros []. split; simpl; try done.
  - destruct g_order0 as (lost & Hl & _). exists (ingress s ++ lost). by rewrite Hl.
Qed.

(** The steps of the process, the joining task and the end. *)
Lemma task_good s s' : phase s → good s → task_step pid s = Some s' → good s'.
Proof.
  intros Hph G H. destruct Hph as [Ht _ _]. unfold task_phase in Ht. unfold task_step in H.
  destruct (task s) as [| |st|st id r|st id p|g o|st o|st o|o|o|o|o] eqn:Et.
  - injection H as <-. apply (good_frame s); try done. rewrite Et. right. by left.
  - destruct (start s); try done; injection H as <-; [by apply start_good|..];
      apply (good_frame s); try done; by right; right.
  - destruct (mailbox s) as [|m rest] eqn:Hm; [done|]. injection H as <-. by apply pop_good.
  - injection H as <-. by apply stamp_good.
  - injection H as <-. by apply answer_good.
  - apply bind_Some in H as (s1 & (r & ->)%drop_registration_frame & [= <-]).
    apply (good_frame s); try done. destruct g; by right; right.
  - injection H as <-. unfold finish_status. rewrite Ht. apply (good_frame s); try done; [|by right; right].
    rewrite Ht. by intros [? ?].
  - injection H as <-. apply (good_frame (finish_drain st s)); try done; [by apply drain_good|by right; right].
  - injection H as <-. apply (good_frame (finish_notify s)); try done; [by apply notify_good|by right; right].
  - injection H as <-. apply (good_frame s); try done. by right; right.
  - injection H as <-. by apply close_good.
  - done.
Qed.

Lemma join_good s s' : phase s → good s → join_step s = Some s' → good s'.
Proof.
  intros Hph G H. destruct Hph as [_ Hj _]. unfold join_phase in Hj. unfold join_step in H.
  destruct (join s) as [|status|status| |]; try done.
  - destruct (task s) eqn:Et; try done. injection H as <-. apply (good_frame s); try done. by left.
  - unfold finish_status in H. destruct (exit s) eqn:Ee; injection H as <-; apply (good_frame s); try done; try (by left).
    rewrite Ee. by intros [? ?].
  - destruct Hj as [He _]. injection H as <-. apply (good_frame (finish_drain status s)); try done; [by apply drain_good|by left].
  - injection H as <-. apply (good_frame (finish_notify s)); try done; [by apply notify_good|by left].
Qed.

(** Only a new operation makes the list of clients longer. *)
Lemma clients_grow a s s' :
  server_exec limits name pid a s = Some s' →
  length (clients s') = length (clients s) ∨ ∃ o t, clients s' = clients s ++ [begin_client o t].
Proof.
  intros H. destruct a as [| | | | | | | | | |i ch]; simpl in H.
  10: { case_match; simplify_eq/=. eauto. }
  10: { left. apply bind_Some in H as (c & _ & H). unfold client_step, mbind, option_bind in H.
        repeat case_match; simplify_eq/=; rewrite ?length_insert; try done.
        all: match goal with E : send_operation _ _ _ = Ok _ |- _ => apply send_operation_clients in E as -> end; done. }
  3: { left. unfold task_step, answer in H. destruct (task s);
         try (apply bind_Some in H as (s1 & (r & ->)%drop_registration_frame & [= <-]));
         repeat case_match; simplify_eq/=; rewrite ?length_alter, ?length_imap, ?length_fmap; try done.
       all: unfold finish_status in *; by repeat case_match; simplify_eq/=. }
  all: left; unfold spawner_step, join_step, loop_step, kill_step, send_kill, release_name, finish_status, mbind, option_bind in H;
    repeat case_match; simplify_eq/=; rewrite ?length_imap, ?length_fmap; done.
Qed.

Lemma few_back s s' : step s s' → few s' → few s.
Proof. intros [a H] Hf. apply clients_grow in H as [E | (o & t & E)]; unfold few in *; rewrite E in Hf; [done|]. rewrite length_app in Hf. simpl in Hf. lia. Qed.

Lemma good_step s s' : phase s → few s' → good s → step s s' → good s'.
Proof.
  intros Hph Hf G Hs. pose proof (few_back _ _ Hs Hf) as Hf'. destruct Hs as [a H].
  destruct a as [| | | | | | | | | |i ch]; simpl in H.
  11: { apply bind_Some in H as (c & Hc & H). by eapply client_good. }
  10: { case_match; simplify_eq/=. by apply begin_good. }
  7: { destruct (ingress_open s) eqn:Ho; [|done]. simpl in H. case_bool_decide; [|done]. injection H as <-. by apply good_enqueue. }
  4: by eapply join_good.
  3: by eapply task_good.
  4: { unfold kill_step in H. case_match; [|done]. destruct (task s) eqn:Et; simplify_eq/=;
         apply (good_frame s); try done; by right; right. }
  3: { unfold loop_step in H. destruct (ingress s) as [|m rest] eqn:Hi; [done|]. case_match; [|done]. injection H as <-.
       apply (good_frame s); try done; [|by left]. simpl. by rewrite Hi, <- app_assoc. }
  all: unfold spawner_step, send_kill, release_name, mbind, option_bind in H; repeat case_match; simplify_eq/=;
    first [done | refine (good_frame _ _ G _ _ _ _ _ _ _ _ _); try done; by left].
Qed.

Lemma reachable_good r s : rtc step (server_start r) s → few s → phase s ∧ good s.
Proof.
  intros H Hf. cut (phase s ∧ (few s → good s)); [naive_solver|]. clear Hf. revert H.
  apply (rtc_invariant _ (fun s => phase s ∧ (few s → good s))).
  - intros a b (Ha & Hb) Hs. split; [by eapply phase_step|]. intros Hf. eapply good_step; eauto using few_back.
  - split; [by split|]. intros _. split; simpl; try done.
    + by intros m id ?%not_elem_of_nil.
    + apply NoDup_nil_2.
    + by exists [].
Qed.

(** ** Theorems *)

(** C15. A call that returns a reply returns what the server gave to exactly this request: its
    message was accepted once, and the reply is that of [handle_call] in the state in which
    the messages accepted before it, handled one after the other in that order, leave the
    server.  With a timeout, the reply was completed before the deadline. *)
Theorem call_reply_sequential r s i c request a :
  rtc step (server_start r) s → few s → clients s !! i = Some c → operation c = OpCall request →
  pc c = PReturned (Replied a) →
  ∃ id b pre post st0 st st' p,
    serialize (MCall (Cast := Cast) request id) = Some b ∧ accepted s = pre ++ MmData b :: post ∧
    (∀ m, m ∈ pre ++ post → call_id m ≠ Some id) ∧
    init = Some st0 ∧ serves st0 pre = Some st ∧ handle_call st request = Some (st', Ok a) ∧
    response c = Some p ∧ (∀ ms, timeout_ms c = Some ms → completed_at p < started_at c + from_millis ms).
Proof.
  intros H Hf Hc Ho Hp. destruct (reachable_good r s H Hf) as [_ G].
  destruct (g_client s G i c Hc) as [Hio Hpo]. unfold pc_ok in Hpo. rewrite Hp in Hpo.
  destruct Hpo as (Ht & p & b & v & Hre & Hr & Hd & <-).
  unfold id_ok in Hio. destruct (request_id c) as [id|] eqn:Hid; [|destruct Hio; congruence].
  destruct (g_answers s G i c id p Hc Hid (or_intror Hre)) as [Hrep | (st & _ & E)]; [|congruence].
  destruct Hrep as (pre & m & post & st0 & st & st' & Hs & Hm & Hi & Hpre & Hon).
  destruct (g_order s G) as (lost & Hl & _).
  assert (accepted s = pre ++ m :: (post ++ mailbox s ++ ingress s ++ lost)) as Hacc.
  { by rewrite Hl, Hs, <- !app_assoc. }
  destruct (g_sent s G m id) as (j & cj & Hj & Ij & _ & b' & request' & -> & Hop & Hb);
    [rewrite Hacc; apply elem_of_app; right; by left|done|].
  assert (i = j) as <- by (by eapply (g_unique s G)). simplify_eq.
  rewrite Ho in Hop. injection Hop as <-.
  exists id, b', pre, (post ++ mailbox s ++ ingress s ++ lost), st0, st.
  simpl in Hon. unfold on_data in Hon. rewrite (deserialize_serialize _ _ Hb) in Hon.
  destruct (handle_call st request) as [[st1 a1]|] eqn:Hh; [|done]. injection Hon as -> Hres.
  rewrite Hr in Hres. apply result_bind_Ok in Hres as (a & -> & Hser).
  destruct (serialize (mkServerReply a)) as [b1|] eqn:Hs1; [|done]. simpl in Hser. injection Hser as ->.
  rewrite (deserialize_serialize _ _ Hs1) in Hd. injection Hd as <-.
  exists st', p. split_and!; try done.
  - intros m Hin Hm'. pose proof (g_once s G) as Hnd. rewrite Hacc, omap_app in Hnd. cbn [omap list_omap] in Hnd.
    rewrite Hm in Hnd. apply NoDup_app in Hnd as (_ & Hdis & Hnd). apply list.NoDup_cons in Hnd as [Hnot _].
    apply elem_of_app in Hin as [Hin|Hin].
    + apply (Hdis id); [apply list_elem_of_omap; eauto|by left].
    + apply Hnot, list_elem_of_omap. eauto.
  - intros ms Hms. specialize (Ht ms p Hms Hre). lia.
Qed.

(** The table of pending calls is exact: an entry belongs to a call that has not returned,
    under its own number, whose channel is empty; a call that waits has its entry or exactly
    one answer; when all calls have returned the table is empty. *)
Theorem pending_table_exact r s :
  rtc step (server_start r) s → few s →
  (∀ id i, pending s !! id = Some i →
     ∃ c, clients s !! i = Some c ∧ request_id c = Some id ∧ active c = true ∧ channel c = []) ∧
  (∀ i c id, clients s !! i = Some c → request_id c = Some id → waiting c = true →
     pending s !! id = Some i ∨ ∃ p, channel c = [p] ∧ genuine s id p) ∧
  (Forall (fun c => ∃ o, pc c = PReturned o) (clients s) → pending s = ∅).
Proof.
  intros H Hf. destruct (reachable_good r s H Hf) as [_ G]. split_and!.
  - apply (g_pending s G).
  - intros i c id Hc Hid Hw. destruct (g_waiting s G i c id Hc Hid Hw) as [?|[p Hp]]; [by left|right].
    exists p. split; [done|]. apply (g_answers s G i c); try done. left. rewrite Hp. by left.
  - intros Hall. apply map_eq. intros id. rewrite lookup_empty. destruct (pending s !! id) as [i|] eqn:Hp; [|done].
    destruct (g_pending s G id i Hp) as (c & Hc & _ & Ha & _). destruct (Forall_lookup_1 _ _ _ _ Hall Hc) as [o E].
    unfold active in Ha. by rewrite E in Ha.
Qed.
End ok.

(** ** Witnesses *)

#[local] Existing Instance Counter.message_bincode.
#[local] Existing Instance Counter.reply_bincode.
#[local] Existing Instance Counter.counter.

(** A client calls the counter with 5 and a timeout of a second, and gets 5. *)
Definition calling : list (Action (Call := Z) (Cast := Z)) :=
  Counter.spawned ++ [ABegin (OpCall 5) (Some 1000)] ++ replicate 9 (AClient 0 true) ++
  [ALoop; ATask; ATask; ATask; AClient 0 true].

Lemma calling_runs :
  ∃ s c, Counter.run calling = Some s ∧ clients s !! 0%nat = Some c ∧ operation c = OpCall 5 ∧
    pc c = PReturned (Replied 5) ∧ few s ∧ length (clients s) = 1%nat.
Proof. eexists _, _. split; [vm_compute; reflexivity|]. by repeat (split; [reflexivity|]). Qed.

Lemma call_reply_sequential_witness :
  ∃ s c, Counter.run calling = Some s ∧ clients s !! 0%nat = Some c ∧ pc c = PReturned (Replied 5) ∧
    ∃ st st' : Z, handle_call st 5 = Some (st', Ok 5).
Proof.
  destruct calling_runs as (s & c & Hs & Hc & Ho & Hp & Hf & Hl).
  destruct (call_reply_sequential Counter.limits (Some Counter.counter_name) Counter.pid state_default s 0 c 5 5)
    as (id & b & pre & post & st0 & st & st' & p & _ & _ & _ & _ & _ & Hh & _);
    [exact (server_run_reach _ _ _ calling _ _ Hs)|exact Hf|exact Hc|exact Ho|exact Hp|].
  exists s, c. split; [exact Hs|]. split; [exact Hc|]. split; [exact Hp|]. by exists st, st'.
Defined.

Lemma pending_table_exact_witness : ∃ s, Counter.run calling = Some s ∧ pending s = ∅.
Proof.
  destruct calling_runs as (s & c & Hs & Hc & Ho & Hp & Hf & Hl).
  destruct (pending_table_exact Counter.limits (Some Counter.counter_name) Counter.pid state_default s) as (_ & _ & Hall);
    [exact (server_run_reach _ _ _ calling _ _ Hs)|exact Hf|].
  exists s. split; [exact Hs|]. apply Hall. clear Hall Hs.
  destruct (clients s) as [|c0 [|]]; try done. simpl in Hc. injection Hc as ->. apply Forall_singleton. eauto.
Defined.
