(* ===== verification/GenServerLive.v ===== *)
(** * When calls to generic servers return

    Calls that entered the table before the server ended are answered, calls with a timeout
    return in any case, and a call without one that enters the table after the end was
    announced waits forever. *)

From S2P Require Import Prelude GlobalProcessId DistributedRegistry RegistrySpec GenServer GenServerExit GenServerOk.

Section live.
Context {State Call Cast CallReply : Type}.
Context `{!GenServer State Call Cast CallReply, !Bincode (ServerMessage Call Cast), !Bincode (ServerReply CallReply)}.
Context (limits : RegistryLimits) (name : option ProcessName) (pid : GlobalProcessId).
Abbreviation Server := (Server (State := State) (Call := Call) (Cast := Cast) (CallReply := CallReply)).
Abbreviation Client := (Client Call Cast CallReply).
Abbreviation step := (server_step limits name pid).
Abbreviation exec := (server_exec limits name pid).
Implicit Types (s : Server) (c : Client).

(** ** How a client changes in a step *)

(** The number of steps that a call has left to do. *)
Definition steps_left c : nat :=
  match pc c with
  | PEnsure1 => 12 | PEnsure2 => 11 | PEnsure3 => 10 | PStarted => 9 | PTakeId => 8 | PInsert => 7 | PSend => 6
  | PElapsed => 5 | PRemaining _ => 4 | PRecv _ => 3 | PAbandon _ => 2 | PReturned _ => 0
  | PWaitExit | PCheck _ | PBlocked _ _ => 1
  end.

(** The entry of the call is or was in the table. *)
Definition entered c : bool :=
  match pc c with PSend | PElapsed | PRemaining _ | PRecv _ | PAbandon _ | PReturned _ => true | _ => false end.

(** Deadlines are not further away than the timeout. *)
Definition deadline_ok (t : Z) c : Prop :=
  ∀ ms, timeout_ms c = Some ms →
  match pc c with
  | PRemaining remaining => remaining <= from_millis ms
  | PRecv deadline => ∃ d, deadline = Some d ∧ d <= t + from_millis ms
  | _ => True
  end.

(** What holds of a client and its successor whoever made the step. *)
Record follows s s' c c' : Prop := {
  fo_op : operation c' = operation c;
  fo_timeout : timeout_ms c' = timeout_ms c;
  fo_id : is_Some (request_id c) → request_id c' = request_id c;
  fo_entered : is_call (operation c) → entered c = true → entered c' = true;
  fo_deadline : deadline_ok (now s) c → deadline_ok (now s') c';
}.

Lemma deadline_later t t' c : t <= t' → deadline_ok t c → deadline_ok t' c.
Proof. intros Ht H ms Hms. specialize (H ms Hms). destruct (pc c); try done. destruct H as (d & -> & ?). exists d. split; [done|lia]. Qed.

Lemma follows_same s s' c : now s <= now s' → follows s s' c c.
Proof. intros Ht. split; try done. by apply deadline_later. Qed.

Lemma send_reply_follows s s' p c : now s' = now s → follows s s' c (send_reply p c) ∧ pc (send_reply p c) = pc c.
Proof.
  intros E. unfold send_reply. destruct (pc c) eqn:Hp; simpl; (split; [|done]);
    first [apply follows_same; lia | split; unfold deadline_ok, entered; simpl; by rewrite ?E].
Qed.

Lemma on_reply_shape p l c :
  ∃ pc', (pc' = received_pc p ∨ pc' = PAbandon CallTimedOut) ∧
    operation (on_reply p l c) = operation c ∧ timeout_ms (on_reply p l c) = timeout_ms c ∧
    request_id (on_reply p l c) = request_id c ∧ pc (on_reply p l c) = pc'.
Proof. unfold on_reply, before_deadline. repeat case_match; simplify_eq/=; eauto 10. Qed.

Lemma client_step_follows choice i c s s' :
  client_ok c → client_step choice i c s = Some s' →
  ∃ c', clients s' = <[i := c']> (clients s) ∧ now s' = now s ∧ follows s s' c c' ∧
    (is_call (operation c) → (steps_left c' < steps_left c)%nat).
Proof.
  intros [_ Hok] H. unfold client_step, mbind, option_bind in H. unfold pc_ok in Hok.
  assert (∀ c', now s' = now s → clients s' = <[i := c']> (clients s) → operation c' = operation c → timeout_ms c' = timeout_ms c →
    (is_Some (request_id c) → request_id c' = request_id c) → (is_call (operation c) → entered c = true → entered c' = true) →
    (deadline_ok (now s) c → deadline_ok (now s) c') → (is_call (operation c) → (steps_left c' < steps_left c)%nat) →
    ∃ c', clients s' = <[i := c']> (clients s) ∧ now s' = now s ∧ follows s s' c c' ∧
      (is_call (operation c) → (steps_left c' < steps_left c)%nat)) as Hmk.
  { intros c' E1 E2 ? ? ? ? Hd ?. exists c'. split_and!; try done. split; try done. by rewrite E1. }
  destruct (pc c) as [| | | | | | | |rem|dl|e| |dl|dl b|o] eqn:Hpc; try done.
  all: repeat case_match; simplify_eq/=;
    try match goal with E : send_operation _ _ _ = Ok _ |- _ =>
      pose proof (send_operation_clients _ _ _ _ E) as Ecl; apply send_operation_Ok in E as (_ & [[_ ->] | (m & b & _ & _ & ->)])
    end;
    (eapply Hmk; [reflexivity|reflexivity|..]); unfold entered, steps_left, deadline_ok; simpl; rewrite ?Hpc; try done; try lia.
  all: try (intros; destruct (operation c); simpl; first [done | lia]).
  all: try (destruct (on_reply_shape p l c) as (pc' & [-> | ->] & E1 & E2 & E3 & E4); rewrite ?E1, ?E2, ?E3, ?E4; done || (simpl; lia)).
  - intros [? ?]. destruct Hok. congruence.
  - intros _ ms Hms. match goal with E : checked_sub _ _ = _ |- _ => apply checked_sub_Some in E as [-> ?] end.
    assert (0 <= duration_since (now s) (started_at c)) by (unfold duration_since; lia). simplify_eq. lia.
  - intros _ ms Hms. congruence.
  - intros Hd ms Hms. specialize (Hd ms Hms). eexists. split; [done|lia].
  - destruct Hok as [_ Hx]. by destruct (operation c).
  - destruct Hok as [_ Hx]. by destruct (operation c).
  - destruct Hok as [_ Hx]. by destruct (operation c).
Qed.

(** ** Steps of others *)

(** What others do to a client. *)
Definition touched c c' : Prop := c' = c ∨ (∃ p, c' = send_reply p c) ∨ c' = notify_client c.

Lemma task_step_touches s s' i c :
  task_step pid s = Some s' → clients s !! i = Some c →
  now s' = now s ∧ ∃ c', clients s' !! i = Some c' ∧ touched c c'.
Proof.
  intros H Hc. unfold touched. unfold task_step in H.
  destruct (task s) as [| |st|st id r|st id p|g o|st o|st o|o|o|o|o] eqn:Et.
  6: apply bind_Some in H as (s1 & (r & ->)%drop_registration_frame & [= <-]).
  5: { injection H as <-. simpl. unfold answer. destruct (pending s !! id) as [j|]; [|by eauto 6]. simpl. split; [done|].
       destruct (decide (i = j)) as [->|Hne].
       - rewrite list_lookup_alter_eq, Hc. simpl. eauto 6.
       - rewrite list_lookup_alter_ne by done. eauto 6. }
  7: { injection H as <-. simpl. rewrite list_lookup_imap, Hc. simpl. split; [done|]. eexists. split; [done|].
       unfold drain_client. case_match; eauto. }
  7: { injection H as <-. simpl. rewrite list_lookup_fmap, Hc. simpl. eauto 7. }
  all: try (unfold finish_status in H); repeat case_match; simplify_eq/=; eauto 7.
Qed.

Lemma join_step_touches s s' i c :
  join_step s = Some s' → clients s !! i = Some c → now s' = now s ∧ ∃ c', clients s' !! i = Some c' ∧ touched c c'.
Proof.
  intros H Hc. unfold touched. unfold join_step, finish_status in H.
  destruct (join s) as [|status|status| |]; try done.
  - destruct (task s); simplify_eq/=; eauto.
  - destruct (exit s); simplify_eq/=; eauto.
  - injection H as <-. simpl. rewrite list_lookup_imap, Hc. simpl. split; [done|]. eexists. split; [done|].
    unfold drain_client. case_match; eauto.
  - injection H as <-. simpl. rewrite list_lookup_fmap, Hc. simpl. eauto 7.
Qed.

Lemma exec_touches a s s' i c :
  exec a s = Some s' → (∀ j choice, a ≠ AClient j choice) → clients s !! i = Some c →
  now s <= now s' ∧ ∃ c', clients s' !! i = Some c' ∧ touched c c' ∧ (c' = c ∨ now s' = now s).
Proof.
  intros H Hn Hc. destruct a as [| | | | | | | | | |j ch]; simpl in H; [..|by destruct (Hn j ch)].
  3: { apply (task_step_touches _ _ i c) in H as (-> & c' & ? & ?); [|done]. eauto 7 with lia. }
  3: { apply (join_step_touches _ _ i c) in H as (-> & c' & ? & ?); [|done]. eauto 7 with lia. }
  all: unfold touched, spawner_step, loop_step, kill_step, send_kill, release_name, mbind, option_bind in *;
    repeat case_match; simplify_eq/=; bool_to_prop; split; try lia; eauto 7.
  exists c. split; [by apply lookup_app_l_Some|eauto].
Qed.

Lemma touched_follows s s' c c' :
  touched c c' → now s' = now s → follows s s' c c' ∧ steps_left c' = steps_left c.
Proof.
  intros [-> | [[p ->] | ->]] Et.
  - split; [|done]. apply follows_same. lia.
  - destruct (send_reply_follows s s' p c Et) as [? E]. split; [done|]. unfold steps_left. by rewrite E.
  - unfold notify_client. destruct (pc c) eqn:Ep; simpl; (split; [|unfold steps_left; simpl; by rewrite ?Ep]);
      first [apply follows_same; lia | split; unfold entered, deadline_ok; simpl; by rewrite ?Ep].
Qed.

Lemma step_follows a s s' i c :
  good s → exec a s = Some s' → clients s !! i = Some c →
  ∃ c', clients s' !! i = Some c' ∧ follows s s' c c' ∧
    (is_call (operation c) → (steps_left c' <= steps_left c)%nat ∧
      ∀ choice, a = AClient i choice → (steps_left c' < steps_left c)%nat).
Proof.
  intros G H Hc.
  assert ((∃ j choice, a = AClient j choice) ∨ ∀ j choice, a ≠ AClient j choice) as [(j & ch & ->) | Hn]
    by (destruct a; eauto).
  - simpl in H. apply bind_Some in H as (cj & Hj & H).
    apply client_step_follows in H as (c' & Ec & Et & Hfo & Hst); [|by eapply g_client].
    rewrite Ec. destruct (decide (j = i)) as [->|Hne].
    + simplify_eq. exists c'. rewrite list_lookup_insert_eq by (by eapply lookup_lt_Some).
      split_and!; [done|done|]. intros Hcall. specialize (Hst Hcall). split; [lia|]. intros; lia.
    + exists c. rewrite list_lookup_insert_ne by done. split_and!; [done|apply follows_same; lia|].
      intros _. split; [done|]. intros ch' [= E _]. done.
  - destruct (exec_touches a s s' i c H Hn Hc) as (Ht & c' & Hc' & Hto & Hor). exists c'. split; [done|].
    assert (follows s s' c c' ∧ steps_left c' = steps_left c) as [Hfo E].
    { destruct Hor as [-> | Et]; [by split; [apply follows_same|]|by apply touched_follows]. }
    split; [done|]. intros _. split; [lia|]. intros ch' E'. by destruct (Hn i ch').
Qed.

(** ** Calls with a timeout *)

Definition deadlines s : Prop := ∀ i c, clients s !! i = Some c → deadline_ok (now s) c.

Lemma deadlines_step s s' : good s → deadlines s → step s s' → deadlines s'.
Proof.
  intros G Hd [a H] i c' Hc'. destruct (clients s !! i) as [c|] eqn:Hc.
  - destruct (step_follows a s s' i c G H Hc) as (c1 & Hc1 & Hfo & _). simplify_eq.
    apply (fo_deadline _ _ _ _ Hfo), (Hd i), Hc.
  - apply clients_grow in H as [E | (o & t & E)].
    + apply lookup_lt_Some in Hc'. apply lookup_ge_None in Hc. lia.
    + rewrite E, lookup_app_r in Hc' by (by apply lookup_ge_None). apply list_lookup_singleton_Some in Hc' as [_ <-].
      intros ms _. simpl. by destruct o.
Qed.

Lemma reachable_deadlines r s : rtc step (server_start r) s → few s → deadlines s.
Proof.
  intros H Hf. cut (phase s ∧ (few s → good s ∧ deadlines s)); [naive_solver|]. clear Hf. revert H.
  apply (rtc_invariant _ (fun s => phase s ∧ (few s → good s ∧ deadlines s))).
  - intros a b (Ha & Hb) Hs. split; [by eapply phase_step|]. intros Hf.
    destruct Hb as [G D]; [by eapply few_back|]. split; [by eapply good_step|by eapply deadlines_step].
  - split; [by split|]. intros Hf. split; [by apply (reachable_good limits name pid r _ (rtc_refl _ _))|]. by intros i c Hc.
Qed.

(** C18. A call with a timeout returns.  It has at most twelve steps of its own to do: each one
    it does leaves fewer, no step of others adds one, and it can always do the next one,
    whatever the server does and whether or not it has ended, unless it waits for a reply
    until a deadline that is at most the timeout away. *)
Theorem timed_call_returns r s i c ms :
  rtc step (server_start r) s → few s → clients s !! i = Some c → is_call (operation c) → timeout_ms c = Some ms →
  (steps_left c <= 12)%nat ∧
  (∀ a s', exec a s = Some s' →
     ∃ c', clients s' !! i = Some c' ∧ operation c' = operation c ∧ timeout_ms c' = Some ms ∧
       (steps_left c' <= steps_left c)%nat ∧ (∀ choice, a = AClient i choice → (steps_left c' < steps_left c)%nat)) ∧
  ((∃ o, pc c = PReturned o) ∨
   (∀ choice, is_Some (exec (AClient i choice) s)) ∨
   (∃ d, pc c = PRecv (Some d) ∧ now s < d <= now s + from_millis ms)).
Proof.
  intros H Hf Hc Hcall Hms. destruct (reachable_good _ _ _ r s H Hf) as [_ G].
  pose proof (reachable_deadlines r s H Hf i c Hc ms Hms) as Hd. split_and!.
  - unfold steps_left. destruct (pc c); lia.
  - intros a s' Ha. destruct (step_follows a s s' i c G Ha Hc) as (c' & Hc' & [] & Hst). destruct (Hst Hcall) as [? ?].
    exists c'. split_and!; try done. congruence.
  - destruct (g_client s G i c Hc) as [_ Hok]. unfold pc_ok in Hok.
    assert (∀ choice, exec (AClient i choice) s = client_step choice i c s) as E by (intros ch; simpl; by rewrite Hc).
    setoid_rewrite E. unfold client_step.
    destruct (pc c) as [| | | | | | | |rem|dl|e| |dl|dl b|o] eqn:Hpc; try (right; left; intros ch; repeat case_match; by eauto); eauto.
    + right. left. intros ch. destruct Hok as ([id ->] & _). eauto.
    + destruct Hok as [[id ->] _]. simpl. destruct Hd as (d & -> & Hle). destruct (channel c); [|right; left; by eauto].
      case_bool_decide; [|right; left; by eauto]. simpl. destruct (d <=? now s) eqn:Hx; bool_to_prop.
      * right. left. eauto.
      * right. right. exists d. split; [done|lia].
    + right. left. intros ch. destruct Hok as ([id ->] & _). eauto.
    + destruct Hok as [_ Hx]. by destruct (operation c).
Qed.

(** ** Calls that entered before the end *)

Lemma pending_back a s s' id i :
  exec a s = Some s' → pending s' !! id = Some i →
  pending s !! id = Some i ∨ ∃ c, clients s !! i = Some c ∧ pc c = PInsert ∧ request_id c = Some id.
Proof.
  intros H Hp. destruct a as [| | | | | | | | | |j ch]; simpl in H.
  11: { apply bind_Some in H as (c & Hc & H). unfold client_step in H.
        destruct (pc c) eqn:Hpc; unfold mbind, option_bind in H; repeat case_match; simplify_eq/=; auto.
        - apply lookup_insert_Some in Hp as [[<- <-] | [_ Hp]]; [|by left]. right. eauto.
        - match goal with E : send_operation _ _ _ = Ok _ |- _ => apply send_operation_Ok in E as (_ & [[_ ->] | (m & b & _ & _ & ->)]) end;
            by left.
        - apply lookup_delete_Some in Hp as [_ Hp]. by left. }
  3: { left. unfold task_step in H. destruct (task s);
         try (apply bind_Some in H as (s1 & (r & ->)%drop_registration_frame & [= <-]));
         unfold answer, finish_status in *; repeat case_match; simplify_eq/=; try done;
         by apply lookup_delete_Some in Hp as [_ Hp]. }
  all: left; unfold spawner_step, join_step, loop_step, kill_step, send_kill, release_name, finish_status, mbind, option_bind in *;
    repeat case_match; by simplify_eq/=.
Qed.

Definition draining s : Prop := (∃ st o, task s = TDrain st o) ∨ (∃ st, join s = JDrain st).
Definition undrained s : Prop := exit s = None ∨ draining s.

Lemma undrained_step a s s' : phase s → exec a s = Some s' → undrained s → undrained s' ∨ pending s' = ∅.
Proof.
  intros Hph H Hu. destruct (process_action a) eqn:Ha.
  2: { apply other_frame in H as (Et & Ej & Ee & _); [|done]. left. unfold undrained, draining in *. by rewrite Et, Ej, Ee. }
  unfold undrained, draining in *. destruct a; try done; simpl in H.
  - destruct (running_phase s Hph (task_step_running _ _ _ H)) as [Hj _]. rewrite Hj in Hu. unfold task_step in H.
    destruct Hph as [Ht _ _]. unfold task_phase in Ht.
    destruct (task s) as [| |st|st id r|st id p|g o|st o|st o|o|o|o|o] eqn:Et.
    6: apply bind_Some in H as (s1 & (r & ->)%drop_registration_frame & [= <-]).
    5: { injection H as <-. left. left. simpl. destruct (answer_frame id p s) as (_ & _ & -> & _). naive_solver. }
    all: try (unfold finish_status in H); repeat case_match; simplify_eq/=; naive_solver.
  - destruct Hph as [_ Hj _]. unfold join_phase in Hj. unfold join_step, finish_status in H.
    destruct (join s) as [|status|status| |] eqn:Ej; try done; repeat case_match; simplify_eq/=; naive_solver.
  - destruct (running_phase s Hph (kill_step_running _ _ H)) as [Hj _]. rewrite Hj in Hu.
    unfold kill_step in H. repeat case_match; simplify_eq/=; naive_solver.
Qed.

(** A call with number [id] that is or was in the table, and is no longer there when the
    table has been drained. *)
Definition kept (i : nat) (id : Z) s : Prop :=
  (∃ c, clients s !! i = Some c ∧ request_id c = Some id ∧ is_call (operation c) ∧ entered c = true) ∧
  (pending s !! id = Some i → undrained s).

Lemma kept_step i id s s' : phase s → good s → step s s' → kept i id s → kept i id s'.
Proof.
  intros Hph G [a H] [(c & Hc & Hid & Hcall & Hen) Hk].
  destruct (step_follows a s s' i c G H Hc) as (c' & Hc' & [] & _). split.
  - exists c'. split_and!; [done|rewrite fo_id0; by rewrite ?Hid|by rewrite fo_op0|auto].
  - intros Hp. destruct (pending_back a s s' id i H Hp) as [Hq | (c1 & Hc1 & Hpc & _)].
    + destruct (undrained_step a s s' Hph H (Hk Hq)) as [?|E]; [done|]. by rewrite E in Hp.
    + simplify_eq. unfold entered in Hen. by rewrite Hpc in Hen.
Qed.

(** C17. A call whose entry is in the table before the end of the server is announced is
    answered: once the server waits with an empty mailbox and ingress, or has ended and was
    joined, the reply is in the channel of every such call that was accepted and has not
    returned, and its entry is gone. *)
Theorem early_calls_answered r s1 s2 i c1 c2 id :
  rtc step (server_start r) s1 → rtc step s1 s2 → few s2 →
  clients s1 !! i = Some c1 → request_id c1 = Some id → entered c1 = true → exit s1 = None →
  clients s2 !! i = Some c2 → waiting c2 = true → pc c2 ≠ PSend →
  (∃ st, task s2 = TLoop st ∧ mailbox s2 = [] ∧ ingress s2 = []) ∨ join s2 = JDone →
  pending s2 !! id = None ∧ ∃ p, channel c2 = [p] ∧ genuine s2 id p.
Proof.
  intros H1 H2 Hf Hc1 Hid1 Hen He Hc2 Hw Hns Hend.
  assert (phase s2 ∧ (few s2 → good s2 ∧ kept i id s2)) as (Hph & Hk).
  { assert (phase s1 ∧ (few s1 → good s1)) as [Hph1 G1].
    { split; [|by apply (reachable_good limits name pid r)]. revert H1. apply (rtc_invariant _ phase); [|by split].
      intros a b Ha Hs. by eapply phase_step. }
    revert H2. apply (rtc_invariant _ (fun s => phase s ∧ (few s → good s ∧ kept i id s))).
    - intros a b (Ha & Hb) Hs. split; [by eapply phase_step|]. intros Hfb.
      destruct Hb as [G K]; [by eapply few_back|]. split; [by eapply good_step|by eapply kept_step].
    - split; [done|]. intros Hf1. split; [by apply G1|]. split; [|intros _; by left]. exists c1. split_and!; try done.
      destruct (g_client s1 (G1 Hf1) i c1 Hc1) as [Hio _]. unfold id_ok in Hio. by rewrite Hid1 in Hio. }
  destruct (Hk Hf) as [G [(c & Hc & Hid & _) Hpend]]. rewrite Hc2 in Hc. injection Hc as <-.
  assert (pending s2 !! id ≠ Some i) as Hno.
  { intros Hp. destruct Hend as [(st & Et & Hm & Hi) | Ej].
    - destruct (g_accepted s2 G i c2 id Hc2 Hid Hw Hns) as (m & Hin & Hmid). destruct (g_order s2 G) as (lost & Hl & Hlost).
      destruct (running_phase s2 Hph) as [_ Ho]; [by rewrite Et|]. rewrite Hm, Hi, (Hlost Ho), !app_nil_r in Hl.
      pose proof (g_done s2 G m id) as Hd. rewrite Et, <- Hl in Hd. rewrite Hd in Hp; done.
    - destruct Hph as [_ Hj _]. unfold join_phase in Hj. rewrite Ej in Hj. destruct Hj as [[e Ee] [o Eo]].
      destruct (Hpend Hp) as [?|[(st & o' & ?) | (st & ?)]]; congruence. }
  destruct (g_waiting s2 G i c2 id Hc2 Hid Hw) as [?|[p Hp]]; [done|]. split.
  - destruct (pending s2 !! id) as [j|] eqn:Hq; [|done]. destruct (g_pending s2 G id j Hq) as (cj & Hj & Ij & _).
    assert (i = j) as <- by (by eapply (g_unique s2 G)). done.
  - exists p. split; [done|]. apply (g_answers s2 G i c2); try done. left. rewrite Hp. by left.
Qed.

(** ** A call that is too late *)

Definition stranded (i : nat) (id : Z) s : Prop :=
  (∃ c, clients s !! i = Some c ∧ pc c = PRecv None ∧ request_id c = Some id ∧ channel c = []) ∧
  pending s !! id = Some i ∧ join s = JDone ∧ ∃ o, task s = TEnded o.

Lemma stranded_step i id s s' : good s → step s s' → stranded i id s → stranded i id s'.
Proof.
  intros G [a H] [(c & Hc & Hpc & Hid & Hch) (Hp & Hj & o & Et)].
  destruct a as [| | | | | | | | | |j ch]; simpl in H.
  11: { apply bind_Some in H as (cj & Hcj & H).
        assert (i ≠ j) as Hne.
        { intros <-. simplify_eq. unfold client_step in H. rewrite Hpc, Hid in H. simpl in H.
          rewrite Hch, bool_decide_true in H; done. }
        pose proof (client_step_frame _ _ _ _ _ H) as (Et' & Ej' & _).
        destruct (client_step_follows ch j cj s s') as (c' & Ec & _); [by eapply g_client|done|].
        unfold stranded. rewrite Et', Ej', Ec. split; [exists c; by rewrite list_lookup_insert_ne|].
        split; [|by eauto]. clear Ec Et' Ej'. unfold client_step, mbind, option_bind in H.
        destruct (pc cj); repeat case_match; simplify_eq/=; try done.
        - rewrite lookup_insert_ne; [done|]. intros ->. apply Hne. by eapply (g_unique s G).
        - match goal with E : send_operation _ _ _ = Ok _ |- _ => apply send_operation_Ok in E as (_ & [[_ ->] | (m & b & _ & _ & ->)]) end;
            done.
        - rewrite lookup_delete_ne; [done|]. intros ->. apply Hne. by eapply (g_unique s G). }
  all: unfold stranded, spawner_step, task_step, join_step, loop_step, kill_step, send_kill, release_name, mbind, option_bind in *;
    rewrite ?Et, ?Hj in H; repeat case_match; simplify_eq/=; eauto 10.
  split; [|by eauto]. exists c. split; [by apply lookup_app_l_Some|done].
Qed.

(** C22. A call without a timeout that is too late waits forever.  A call that has found the
    server running may enter the table after the guard has drained it, and its message is
    accepted as long as the ingress is not closed.  When the server has ended and was joined,
    a call without a timeout that waits and still has its entry in the table has no reply, and
    in every later state of every execution it is still waiting without one: the joining task
    leaves the table alone because the exit status is set already, and nobody else looks. *)
Theorem late_call_waits_forever r s i c id s' :
  rtc step (server_start r) s → join s = JDone → pending s !! id = Some i →
  clients s !! i = Some c → pc c = PRecv None → rtc step s s' → few s' →
  ∃ c', clients s' !! i = Some c' ∧ pc c' = PRecv None ∧ channel c' = [].
Proof.
  intros H Hj Hp Hc Hpc H' Hf. enough (phase s' ∧ (few s' → good s' ∧ stranded i id s')) as [_ K].
  { destruct (K Hf) as [_ [(c' & ? & ? & _ & ?) _]]. eauto. }
  assert (phase s ∧ (few s → good s)) as [Hph1 G1].
  { split; [|by apply (reachable_good limits name pid r)]. revert H. apply (rtc_invariant _ phase); [|by split].
    intros a b Ha Hst. by eapply phase_step. }
  revert H'. apply (rtc_invariant _ (fun s => phase s ∧ (few s → good s ∧ stranded i id s))).
  - intros a b (Ha & Hb) Hst. split; [by eapply phase_step|]. intros Hfb.
    destruct Hb as [G K]; [by eapply few_back|]. split; [by eapply good_step|by eapply stranded_step].
  - split; [done|]. intros Hf1. split; [by apply G1|]. destruct (g_pending s (G1 Hf1) id i Hp) as (c0 & Hc0 & Hid & _ & Hch).
    simplify_eq. destruct Hph1 as [_ Hjp _]. unfold join_phase in Hjp. rewrite Hj in Hjp. split; [by eauto 10|]. by destruct Hjp.
Qed.
End live.

(** ** Runs of the counter *)

#[local] Existing Instance Counter.message_bincode.
#[local] Existing Instance Counter.reply_bincode.
#[local] Existing Instance Counter.counter.

Abbreviation counter_start := (server_start (State := Z) (Call := Z) (Cast := Z) (CallReply := Z) state_default).
Abbreviation counter_step := (server_step Counter.limits (Some Counter.counter_name) Counter.pid).

(** The client has found the server running; the server is killed and its guard drains the
    table; then the client enters the table and its call is accepted by the ingress, which
    is closed afterwards. *)
Definition late_call : list (Action (Call := Z) (Cast := Z)) :=
  Counter.spawned ++ [ABegin (OpCall 5) None] ++ replicate 3 (AClient 0 true) ++
  [AOtherKill; AKill; ATask; ATask; ATask] ++ replicate 5 (AClient 0 true) ++ [ATask; ATask; ATask; AJoin; AJoin].

Lemma late_call_waits_forever_witness :
  ∃ s c b, rtc counter_step counter_start s ∧ clients s !! 0%nat = Some c ∧ operation c = OpCall 5 ∧
    timeout_ms c = None ∧ MmData b ∈ accepted s ∧ join s = JDone ∧
    ∀ s', rtc counter_step s s' → few s' → ∃ c', clients s' !! 0%nat = Some c' ∧ pc c' = PRecv None ∧ channel c' = [].
Proof.
  assert (∃ s c, Counter.run late_call = Some s ∧ clients s !! 0%nat = Some c ∧ operation c = OpCall 5 ∧
    timeout_ms c = None ∧ accepted s = [MmData [0; 5; 1]] ∧ join s = JDone ∧ pending s !! 1 = Some 0%nat ∧ pc c = PRecv None)
    as (s & c & Hs & Hc & Ho & Ht & Ha & Hj & Hp & Hpc).
  { eexists _, _. split; [vm_compute; reflexivity|]. by repeat (split; [reflexivity|]). }
  exists s, c, [0; 5; 1]. split_and!; [by eapply server_run_reach|done..|rewrite Ha; by left|done|].
  intros s' Hs' Hf.
  exact (late_call_waits_forever Counter.limits (Some Counter.counter_name) Counter.pid state_default s 0 c 1 s'
           (server_run_reach _ _ _ late_call _ _ Hs) Hj Hp Hc Hpc Hs' Hf).
Defined.

(** A call with a timeout in the same place. *)
Lemma timed_call_returns_witness :
  ∃ s c, Counter.run calling = Some s ∧ clients s !! 0%nat = Some c ∧ (steps_left c <= 12)%nat.
Proof.
  assert (∃ s c, Counter.run calling = Some s ∧ clients s !! 0%nat = Some c ∧ is_call (operation c) ∧
    timeout_ms c = Some 1000 ∧ few s) as (s & c & Hs & Hc & Ho & Ht & Hf).
  { eexists _, _. split; [vm_compute; reflexivity|]. by repeat (split; [reflexivity|]). }
  exists s, c. split; [exact Hs|]. split; [exact Hc|].
  exact (proj1 (timed_call_returns Counter.limits (Some Counter.counter_name) Counter.pid state_default s 0 c 1000
    (server_run_reach _ _ _ calling _ _ Hs) Hf Hc Ho Ht)).
Defined.

(** A call that is in the table when the server is killed. *)
Definition entering : list (Action (Call := Z) (Cast := Z)) :=
  Counter.spawned ++ [ABegin (OpCall 5) None] ++ replicate 6 (AClient 0 true).
Definition ending : list (Action (Call := Z) (Cast := Z)) :=
  replicate 2 (AClient 0 true) ++ [AOtherKill; AKill; ATask; ATask; ATask; ATask; ATask; ATask; AJoin; AJoin].

Lemma early_calls_answered_witness :
  ∃ s1 s2 c, Counter.run entering = Some s1 ∧
    server_run Counter.limits (Some Counter.counter_name) Counter.pid ending s1 = Some s2 ∧
    clients s2 !! 0%nat = Some c ∧ ∃ p, channel c = [p].
Proof.
  assert (∃ s1 c1 s2 c2, Counter.run entering = Some s1 ∧ clients s1 !! 0%nat = Some c1 ∧ request_id c1 = Some 1 ∧
    entered c1 = true ∧ exit s1 = None ∧
    server_run Counter.limits (Some Counter.counter_name) Counter.pid ending s1 = Some s2 ∧
    clients s2 !! 0%nat = Some c2 ∧ waiting c2 = true ∧ pc c2 = PRecv None ∧ join s2 = JDone ∧ few s2)
    as (s1 & c1 & s2 & c2 & H1 & Hc1 & Hid & Hen & He & H2 & Hc2 & Hw & Hp & Hj & Hf).
  { eexists _, _, _, _. split; [vm_compute; reflexivity|]. do 4 (split; [reflexivity|]).
    split; [vm_compute; reflexivity|]. by repeat (split; [reflexivity|]). }
  exists s1, s2, c2. split; [exact H1|]. split; [exact H2|]. split; [exact Hc2|].
  destruct (early_calls_answered Counter.limits (Some Counter.counter_name) Counter.pid state_default s1 s2 0 c1 c2 1)
    as (_ & p & E & _);
    [exact (server_run_reach _ _ _ entering _ _ H1)|exact (server_run_reach _ _ _ ending _ _ H2)|exact Hf|exact Hc1|
     exact Hid|exact Hen|exact He|exact Hc2|exact Hw|by rewrite Hp|by right|].
  by exists p.
Defined.
