(* ===== verification/Messaging.v ===== *)
(** * Host functions for messages and the network handles they carry

    [crates/lunatic-messaging-api/src/lib.rs]: a guest builds and reads one message at a
    time, in the scratch area of its process; it attaches modules and network handles, sends
    it, and receives others.  A network handle in the table of a process is one unit of the
    quota of the process ([ResourceStats] of [src/state.rs]); while it is attached to a message the
    unit is a lease ([NetworkHandleLease] of [crates/lunatic-networking-api/src/lib.rs]) that
    is released when the message is dropped and is moved to the quota of the process that takes
    the handle out.

    The world holds the processes, their quotas (which outlive them), and the allocations of
    leased handles that messages refer to.  A message that was accepted is in the list of its
    receiver.  Allocation failures, whether a send is refused and what the network
    answers are choices of the step.  A trap keeps the state; [HostPanic] is a panic of the
    host.  Theorems: [MessagingOk]. *)

From S2P Require Import Prelude External Mailbox Message HashMapId.

(** ** [ResourceStats] *)

Record ResourceCounts : Type := mkCounts {
  open_file_descriptors : Z;
  open_network_connections : Z;
  open_dns_iterators : Z;
  max_file_descriptors : Z;
  max_network_connections : Z;
  max_dns_iterators : Z;
}.

Definition stats_new (fds connections : Z) : ResourceCounts := mkCounts 0 0 0 fds connections connections.

Definition with_counts (fds net dns : Z) (c : ResourceCounts) : ResourceCounts :=
  mkCounts fds net dns (max_file_descriptors c) (max_network_connections c) (max_dns_iterators c).

(** [None] is the error. *)
Definition reserve_file_descriptor (c : ResourceCounts) : option ResourceCounts :=
  if max_file_descriptors c <=? open_file_descriptors c then None
  else Some (with_counts (open_file_descriptors c + 1) (open_network_connections c) (open_dns_iterators c) c).

Definition release_file_descriptor (c : ResourceCounts) : option ResourceCounts :=
  if open_file_descriptors c =? 0 then None
  else Some (with_counts (open_file_descriptors c - 1) (open_network_connections c) (open_dns_iterators c) c).

Definition dns_reserve (c : ResourceCounts) : option ResourceCounts :=
  if max_dns_iterators c <=? open_dns_iterators c then None
  else Some (with_counts (open_file_descriptors c) (open_network_connections c) (open_dns_iterators c + 1) c).

Definition dns_release (c : ResourceCounts) : option ResourceCounts :=
  if open_dns_iterators c =? 0 then None
  else Some (with_counts (open_file_descriptors c) (open_network_connections c) (open_dns_iterators c - 1) c).

Definition network_reserve (c : ResourceCounts) : option ResourceCounts :=
  if max_file_descriptors c <=? open_file_descriptors c then None
  else if max_network_connections c <=? open_network_connections c then None
  else Some (with_counts (open_file_descriptors c + 1) (open_network_connections c + 1) (open_dns_iterators c) c).

Definition network_release (c : ResourceCounts) : option ResourceCounts :=
  if (open_file_descriptors c =? 0) || (open_network_connections c =? 0) then None
  else Some (with_counts (open_file_descriptors c - 1) (open_network_connections c - 1) (open_dns_iterators c) c).

(** ** The state *)

(** The tables of network handles. *)
Inductive Kind : Type := KTcpListener | KTlsListener | KTcpStream | KTlsStream | KUdpSocket.

#[export] Instance Kind_eq_dec : EqDecision Kind.
Proof. solve_decision. Defined.

(** The type of a handle in a message; listeners are not sent. *)
Definition leased_type (k : Kind) : option TypeId :=
  match k with
  | KTcpStream => Some TLeasedTcp
  | KTlsStream => Some TLeasedTls
  | KUdpSocket => Some TLeasedUdp
  | KTcpListener | KTlsListener => None
  end.

(** A process: its limits, its memory, its tables (connections and modules are numbers), the
    scratch area, the messages it was sent, and what its running host call holds: file
    descriptors, iterators over addresses, and a lease for the handle that is being opened. *)
Record Guest : Type := mkGuest {
  max_message_size : Z;
  max_message_resources : Z;
  max_modules : Z;
  memory : option (list byte);
  tcp_listeners : HashMapId Z;
  tls_listeners : HashMapId Z;
  tcp_streams : HashMapId Z;
  tls_streams : HashMapId Z;
  udp_sockets : HashMapId Z;
  module_resources : HashMapId Z;
  message_scratch_area : option Message;
  messages : list Message;
  files : Z;
  dns_iterators : Z;
  opening : bool;
}.

Definition table (k : Kind) (g : Guest) : HashMapId Z :=
  match k with
  | KTcpListener => tcp_listeners g | KTlsListener => tls_listeners g | KTcpStream => tcp_streams g
  | KTlsStream => tls_streams g | KUdpSocket => udp_sockets g
  end.

Definition set_table (k : Kind) (t : HashMapId Z) (g : Guest) : Guest :=
  let pick k' := if decide (k = k') then t else table k' g in
  mkGuest (max_message_size g) (max_message_resources g) (max_modules g) (memory g) (pick KTcpListener) (pick KTlsListener)
    (pick KTcpStream) (pick KTlsStream) (pick KUdpSocket) (module_resources g) (message_scratch_area g) (messages g)
    (files g) (dns_iterators g) (opening g).

Definition set_modules (t : HashMapId Z) (g : Guest) : Guest :=
  mkGuest (max_message_size g) (max_message_resources g) (max_modules g) (memory g) (tcp_listeners g) (tls_listeners g)
    (tcp_streams g) (tls_streams g) (udp_sockets g) t (message_scratch_area g) (messages g) (files g)
    (dns_iterators g) (opening g).

Definition set_scratch (m : option Message) (g : Guest) : Guest :=
  mkGuest (max_message_size g) (max_message_resources g) (max_modules g) (memory g) (tcp_listeners g) (tls_listeners g)
    (tcp_streams g) (tls_streams g) (udp_sockets g) (module_resources g) m (messages g) (files g)
    (dns_iterators g) (opening g).

Definition set_messages (l : list Message) (g : Guest) : Guest :=
  mkGuest (max_message_size g) (max_message_resources g) (max_modules g) (memory g) (tcp_listeners g) (tls_listeners g)
    (tcp_streams g) (tls_streams g) (udp_sockets g) (module_resources g) (message_scratch_area g) l (files g)
    (dns_iterators g) (opening g).

Definition set_memory (x : list byte) (g : Guest) : Guest :=
  mkGuest (max_message_size g) (max_message_resources g) (max_modules g) (Some x) (tcp_listeners g) (tls_listeners g)
    (tcp_streams g) (tls_streams g) (udp_sockets g) (module_resources g) (message_scratch_area g) (messages g)
    (files g) (dns_iterators g) (opening g).

Definition set_held (files dns : Z) (opening : bool) (g : Guest) : Guest :=
  mkGuest (max_message_size g) (max_message_resources g) (max_modules g) (memory g) (tcp_listeners g) (tls_listeners g)
    (tcp_streams g) (tls_streams g) (udp_sockets g) (module_resources g) (message_scratch_area g) (messages g) files
    dns opening.

(** [MessageNetworkResource]: the connection and the process whose quota the lease is of. *)
Record Leased : Type := mkLeased { connection : Z; owner : Z }.

(** [heap]: the allocations ([Arc]) of leased handles. *)
Record World : Type := mkWorld {
  guests : gmap Z Guest;
  quotas : gmap Z ResourceCounts;
  heap : gmap Z Leased;
  next_arc : Z;
}.

Definition set_guests (x : gmap Z Guest) (w : World) : World := mkWorld x (quotas w) (heap w) (next_arc w).
Definition set_quotas (x : gmap Z ResourceCounts) (w : World) : World := mkWorld (guests w) x (heap w) (next_arc w).
Definition set_heap (x : gmap Z Leased) (w : World) : World := mkWorld (guests w) (quotas w) x (next_arc w).
Definition put_guest (p : Z) (g : Guest) (w : World) : World := set_guests (<[p := g]> (guests w)) w.

(** ** Leases *)

(** [quota.release()] of a drop, where an error is ignored. *)
Definition release_quietly (q : Z) (w : World) : World :=
  match quotas w !! q ≫= network_release with
  | Some c => set_quotas (<[q := c]> (quotas w)) w
  | None => w
  end.

(** The drop of a leased handle in a message. *)
Definition drop_arc (w : World) (a : Z) : World :=
  match heap w !! a with
  | Some l => release_quietly (owner l) (set_heap (delete a (heap w)) w)
  | None => w
  end.

Definition is_leased (r : Resource) : bool :=
  match type_id r with TLeasedTcp | TLeasedUdp | TLeasedTls => true | _ => false end.

(** The allocations that a message refers to. *)
Definition message_arcs (m : Message) : list Z :=
  match m with
  | Data d => omap (fun r => r ← r; if is_leased r then Some (arc r) else None) (vec_data (resources d))
  | _ => []
  end.

Definition drop_message (m : Message) (w : World) : World := foldl drop_arc w (message_arcs m).

(** [transfer_to]: [Some (Ok w)] when the lease is of [target] now. *)
Definition transfer_to (l : Leased) (target : Z) (w : World) : result (Leased * World) World :=
  if owner l =? target then Ok (l, w)
  else match quotas w !! target ≫= network_reserve with
       | None => Err w
       | Some c =>
           let w := set_quotas (<[target := c]> (quotas w)) w in
           match quotas w !! owner l ≫= network_release with
           | Some c => Ok (mkLeased (connection l) target, set_quotas (<[owner l := c]> (quotas w)) w)
           | None => Err (release_quietly target w)
           end
       end.

(** ** Host calls *)

Inductive outcome (A : Type) : Type :=
| Done (a : A) (w : World)
| Trapped (w : World)
| HostPanic.
Arguments Done {A}.
Arguments Trapped {A}.
Arguments HostPanic {A}.

Definition host (A : Type) : Type := World → outcome A.
Definition ret {A} (a : A) : host A := fun w => Done a w.
Definition trap {A} : host A := fun w => Trapped w.
Definition panic {A} : host A := fun _ => HostPanic.
Definition bind {A B} (m : host A) (f : A → host B) : host B := fun w =>
  match m w with Done a w => f a w | Trapped w => Trapped w | HostPanic => HostPanic end.
Definition modify (f : World → World) : host unit := fun w => Done tt (f w).
Declare Scope host_scope.
Delimit Scope host_scope with host.
Notation "'let!' x ':=' e 'in' k" := (bind e (fun x => k)) (at level 10, x name, e at level 200, k at level 200) : host_scope.
#[local] Open Scope host_scope.

Definition or_trap {A} (o : option A) : host A := match o with Some a => ret a | None => trap end.

Section host.
Context `{!VecAlloc}.
(** Whether the build has overflow checks. *)
Context (overflow_checks : bool).

Section caller.
(** The calling process. *)
Context (p : Z).

Definition data : host Guest := fun w => or_trap (guests w !! p) w.
Definition put (g : Guest) : host unit := modify (put_guest p g).

(** [scratch.replace(message)]: the message that was there is dropped. *)
Definition replace_scratch (m : Message) : host unit :=
  let! g := data in
  let! _ := put (set_scratch (Some m) g) in
  match message_scratch_area g with
  | Some old => modify (drop_message old)
  | None => ret tt
  end.

(** [scratch.take()] *)
Definition take_scratch : host Message :=
  let! g := data in
  let! m := or_trap (message_scratch_area g) in
  let! _ := put (set_scratch None g) in
  ret m.

(** The message as the scratch area lends it; [None]: there is none or it is no data. *)
Definition scratch_data : host DataMessage :=
  let! g := data in
  match message_scratch_area g with
  | Some (Data d) => ret d
  | _ => trap
  end.

Definition update_scratch (d : DataMessage) : host unit :=
  let! g := data in put (set_scratch (Some (Data d)) g).

(** *** Data *)

Definition create_data (tag buffer_capacity : Z) (alloc : bool) : host unit :=
  let! g := data in
  if max_message_size g <? buffer_capacity then trap
  else if negb alloc then trap
  else
    let tag := if tag =? 0 then None else Some tag in
    replace_scratch (Data (Message.new_from_vec tag (vec_reserve_exact buffer_capacity vec_empty))).

(** [memory.get(start..end)] *)
Definition slice (m : list byte) (start stop : Z) : option (list byte) :=
  if (start <=? stop) && (stop <=? Z.of_nat (length m))
  then Some (take (Z.to_nat (stop - start)) (drop (Z.to_nat start) m)) else None.

Definition write_data (data_ptr data_len : Z) (alloc : bool) : host Z :=
  let! g := data in
  let! m := or_trap (memory g) in
  let! bytes := or_trap (slice m data_ptr (data_ptr + data_len)) in
  let! message := take_scratch in
  match message with
  | Data d =>
      if max_message_size g <? message_size d + data_len then let! _ := replace_scratch message in trap
      else if negb alloc then let! _ := replace_scratch message in trap
      else
        let d := mkDataMessage (Message.tag d) (read_ptr d) (vec_reserve_exact data_len (buffer d)) (resources d) in
        let '(n, d) := Message.write bytes d in
        let! _ := replace_scratch (Data d) in ret n
  | _ => let! _ := replace_scratch message in trap
  end.

(** A message that is not put back is dropped. *)
Definition read_data (data_ptr data_len : Z) : host Z :=
  let! g := data in
  let! m := or_trap (memory g) in
  let! message := take_scratch in
  let fail := (let! _ := modify (drop_message message) in trap) : host Z in
  match slice m data_ptr (data_ptr + data_len), message with
  | Some _, Data d =>
      match Message.read (Z.to_nat data_len) d with
      | (Some bytes, d) =>
          let! g := data in
          let m := take (Z.to_nat data_ptr) m ++ bytes ++ drop (Z.to_nat data_ptr + length bytes) m in
          let! _ := put (set_memory m g) in
          let! _ := replace_scratch (Data d) in
          ret (Z.of_nat (length bytes))
      | (None, _) => fail
      end
  | _, _ => fail
  end.

Definition seek_data (index : Z) : host unit :=
  let! d := scratch_data in update_scratch (Message.seek index d).

Definition get_tag : host Z :=
  let! g := data in let! m := or_trap (message_scratch_area g) in ret (default 0 (message_tag m)).

Definition get_process_id : host Z :=
  let! g := data in let! m := or_trap (message_scratch_area g) in ret (default 0 (Message.process_id m)).

Definition data_size : host Z := let! d := scratch_data in ret (message_size d).

(** *** Resources *)

Definition reserve_message_resource_slot (d : DataMessage) (max_resources : Z) (alloc : bool) : option DataMessage :=
  if max_resources <=? vec_len (resources d) then None
  else if alloc then Some (with_resources d (vec_reserve_exact 1 (resources d))) else None.

Definition ensure_message_resource_capacity (alloc : bool) : host unit :=
  let! g := data in
  let! d := scratch_data in
  let! d := or_trap (reserve_message_resource_slot d (max_message_resources g) alloc) in
  update_scratch d.

Definition ensure_data_message : host unit := let! _ := scratch_data in ret tt.

(** [HashMapId::add] into a table of the process *)
Definition table_add (x : Z) (t : HashMapId Z) (put_table : HashMapId Z → Guest → Guest) : host Z :=
  match HashMapId.add overflow_checks x t with
  | Returned id t => let! g := data in let! _ := put (put_table t g) in ret id
  | Panicked _ => panic
  end.

Definition push_module (module_id : Z) (alloc : bool) : host Z :=
  let! _ := ensure_message_resource_capacity alloc in
  let! g := data in
  let! x := or_trap (HashMapId.get module_id (module_resources g)) in
  let! d := scratch_data in
  let '(index, d) := add_resource (mkResource TModule x) d in
  let! _ := update_scratch d in ret index.

Definition take_module (index : Z) : host Z :=
  let! g := data in
  if max_modules g <=? Z.of_nat (HashMapId.len (module_resources g)) then trap
  else
    let! d := scratch_data in
    let '(r, d) := Message.take_module (Z.to_nat index) d in
    let! r := or_trap r in
    let! _ := update_scratch d in
    table_add (arc r) (module_resources g) set_modules.

(** [push_tcp_stream], [push_tls_stream], [push_udp_socket]: the handle leaves the table and
    its unit of the quota becomes a lease. *)
Definition push_handle (k : Kind) (handle_id : Z) (alloc : bool) : host Z :=
  let! _ := ensure_message_resource_capacity alloc in
  let! ty := or_trap (leased_type k) in
  let! g := data in
  let! x := or_trap (HashMapId.get handle_id (table k g)) in
  let! _ := put (set_table k (HashMapId.remove handle_id (table k g)).2 g) in
  let! a := (fun w => Done (next_arc w) (mkWorld (guests w) (quotas w) (<[next_arc w := mkLeased x p]> (heap w)) (next_arc w + 1))) in
  let! d := scratch_data in
  let '(index, d) := add_resource (mkResource ty a) d in
  let! _ := update_scratch d in ret index.

(** [Arc::try_unwrap] takes the value out of its allocation. *)
Definition unwrap_arc (a : Z) : host Leased := fun w =>
  match heap w !! a with
  | Some l => Done l (set_heap (delete a (heap w)) w)
  | None => HostPanic
  end.

(** [take_tcp_stream], [take_tls_stream], [take_udp_socket]: the lease is moved to the quota of
    the process; when that is refused the handle is put back into its slot. *)
Definition take_handle (k : Kind) (index : Z) : host Z :=
  let! _ := ensure_data_message in
  let! ty := or_trap (leased_type k) in
  let! d := scratch_data in
  let! h := (fun w => Done (heap w) w) in
  let strong_count a := if bool_decide (is_Some (h !! a)) then 1%nat else 0%nat in
  let '(r, d) := take_network_resource strong_count ty (Z.to_nat index) d in
  let! r := or_trap r in
  let! _ := update_scratch d in
  let! l := unwrap_arc (arc r) in
  let! moved := (fun w => match transfer_to l p w with Ok (l, w) => Done (Ok l) w | Err w => Done (Err tt) w end) in
  match moved with
  | Err _ =>
      let! a := (fun w => Done (next_arc w) (mkWorld (guests w) (quotas w) (<[next_arc w := l]> (heap w)) (next_arc w + 1))) in
      match restore_network_resource (Z.to_nat index) r a d with
      | (Ok _, d) => let! _ := update_scratch d in trap
      | (Err _, _) => panic
      end
  | Ok l =>
      let! g := data in
      table_add (connection l) (table k g) (set_table k)
  end.

(** *** Sending and receiving *)

Definition SEND_QUEUED : Z := 0.
Definition SEND_CLOSED_OR_MISSING : Z := 1.
Definition SEND_BACKPRESSURE : Z := 2.

(** What the ingress of the receiver answers; an error gives the message back. *)
Inductive SendAnswer : Type := Accepted | Closed | Refused.

(** [restore_failed_message] *)
Definition restore_failed_message (a : SendAnswer) (m : Message) : host Z :=
  let! _ := replace_scratch m in
  ret (match a with Closed => SEND_CLOSED_OR_MISSING | _ => SEND_BACKPRESSURE end).

Definition try_send_message (target : Z) (m : Message) (a : SendAnswer) : host Z := fun w =>
  match guests w !! target with
  | None => (let! _ := replace_scratch m in ret SEND_CLOSED_OR_MISSING) w
  | Some g =>
      match a with
      | Accepted => Done SEND_QUEUED (put_guest target (set_messages (messages g ++ [m]) g) w)
      | _ => restore_failed_message a m w
      end
  end.

Definition send (target : Z) (a : SendAnswer) : host Z :=
  let! m := take_scratch in try_send_message target m a.

(** The tags of [receive]: [None] is a panic, [Some None] a range outside of the memory. *)
Definition receive_tags (tag_ptr tag_len : Z) (mem : list byte) : option (option (list Z)) :=
  bytes ← (if overflow_checks && (u32_max <? tag_ptr + tag_len * 8) then None
           else Some ((tag_ptr + tag_len * 8) mod 2 ^ 32));
  Some (b ← slice mem tag_ptr bytes;
        Some ((fix chunks (n : nat) (l : list Z) : list Z :=
                 match n with
                 | O => []
                 | S n => as_signed 64 (le_value (take 8 l)) :: chunks n (drop 8 l)
                 end) (length b / 8)%nat ((fun x => Z.of_N (Byte.to_N x)) <$> b))).

(** A message that matches, the first one, is moved to the scratch area. *)
Definition receive_message (tags : option (list Z)) : host (option Z) :=
  let! g := data in
  match position (matches tags) (messages g) with
  | None => ret None
  | Some i =>
      match messages g !! i with
      | None => panic
      | Some m =>
          let! _ := put (set_messages (delete i (messages g)) g) in
          let! _ := replace_scratch m in
          ret (Some (match m with Data _ => 0 | LinkDied _ => 1 | ProcessDied _ _ => 2 end))
      end
  end.

(** The result of the wait: [None] goes on waiting, 9027 is the timeout. *)
Definition receive (tag_ptr tag_len timeout : Z) (expired : bool) : host (option Z) :=
  let! g := data in
  let! tags := (if 0 <? tag_len then
                  let! mem := or_trap (memory g) in
                  match receive_tags tag_ptr tag_len mem with
                  | None => panic
                  | Some tags => let! tags := or_trap tags in ret (Some tags)
                  end
                else ret None) in
  let! r := receive_message tags in
  match r with
  | Some r => ret (Some r)
  | None => ret (if expired && negb (timeout =? u64_max) then Some 9027 else None)
  end.

(** The wait of [send_receive_skip_search] after the send was queued. The message is any one
    with the tag: those that were there before the wait are not looked at. *)
Definition skip_search_message (tag : Z) (i : nat) (timeout : Z) (expired : bool) : host (option Z) :=
  let! g := data in
  match messages g !! i with
  | Some m =>
      if matches (Some [tag]) m then
        let! _ := put (set_messages (delete i (messages g)) g) in
        let! _ := replace_scratch m in ret (Some 0)
      else ret None
  | None => ret (if expired && negb (timeout =? u64_max) then Some 9027 else None)
  end.

(** *** Opening, cloning and dropping handles *)

(** [reserve_network_handle_lease] *)
Definition reserve_lease : host unit := fun w =>
  match quotas w !! p ≫= network_reserve with
  | Some c => Done tt (set_quotas (<[p := c]> (quotas w)) w)
  | None => Trapped w
  end.

(** Binds, connects and accepts reserve before they wait for the network, and put the handle
    into the table or drop the lease. *)
Definition open_begin : host unit :=
  let! g := data in
  if opening g then trap
  else let! _ := reserve_lease in let! g := data in put (set_held (files g) (dns_iterators g) true g).

Definition open_end (k : Kind) (connection : option Z) : host (option Z) :=
  let! g := data in
  if negb (opening g) then trap
  else
    let! _ := put (set_held (files g) (dns_iterators g) false g) in
    match connection with
    | Some x => let! g := data in let! id := table_add x (table k g) (set_table k) in ret (Some id)
    | None => let! _ := modify (release_quietly p) in ret None
    end.

(** [clone_tcp_stream], [clone_tls_stream], [clone_udp_socket] *)
Definition clone_handle (k : Kind) (handle_id : Z) : host Z :=
  let! g := data in
  let! x := or_trap (HashMapId.get handle_id (table k g)) in
  let! _ := reserve_lease in
  let! g := data in
  table_add x (table k g) (set_table k).

(** [drop_tcp_stream] and the like *)
Definition drop_handle (k : Kind) (handle_id : Z) : host unit :=
  let! g := data in
  let '(x, t) := HashMapId.remove handle_id (table k g) in
  let! _ := or_trap x in
  let! _ := put (set_table k t g) in
  fun w => match quotas w !! p ≫= network_release with
           | Some c => Done tt (set_quotas (<[p := c]> (quotas w)) w)
           | None => Trapped w
           end.

(** File descriptors and iterators *)
Definition with_quota (f : ResourceCounts → option ResourceCounts) (h : Guest → Guest) : host unit := fun w =>
  match guests w !! p, quotas w !! p ≫= f with
  | Some g, Some c => Done tt (put_guest p (h g) (set_quotas (<[p := c]> (quotas w)) w))
  | _, _ => Trapped w
  end.
Definition open_file : host unit :=
  with_quota reserve_file_descriptor (fun g => set_held (files g + 1) (dns_iterators g) (opening g) g).
Definition close_file : host unit :=
  let! g := data in
  if files g =? 0 then trap
  else with_quota release_file_descriptor (fun g => set_held (files g - 1) (dns_iterators g) (opening g) g).
Definition open_iterator : host unit :=
  with_quota dns_reserve (fun g => set_held (files g) (dns_iterators g + 1) (opening g) g).
Definition close_iterator : host unit :=
  let! g := data in
  if dns_iterators g =? 0 then trap
  else with_quota dns_release (fun g => set_held (files g) (dns_iterators g - 1) (opening g) g).
End caller.
End host.

(** ** Executions *)

Inductive HostCall : Type :=
| CallCreateData (tag capacity : Z) (alloc : bool)
| CallWriteData (ptr len : Z) (alloc : bool)
| CallReadData (ptr len : Z)
| CallSeekData (index : Z)
| CallGetTag
| CallGetProcessId
| CallDataSize
| CallPushModule (module_id : Z) (alloc : bool)
| CallTakeModule (index : Z)
| CallPushHandle (k : Kind) (handle_id : Z) (alloc : bool)
| CallTakeHandle (k : Kind) (index : Z)
| CallSend (target : Z) (a : SendAnswer)
| CallReceive (tag_ptr tag_len timeout : Z) (expired : bool)
| CallSkipSearch (tag : Z) (i : nat) (timeout : Z) (expired : bool)
| CallOpenBegin
| CallOpenEnd (k : Kind) (connection : option Z)
| CallCloneHandle (k : Kind) (handle_id : Z)
| CallDropHandle (k : Kind) (handle_id : Z)
| CallOpenFile
| CallCloseFile
| CallOpenIterator
| CallCloseIterator.

(** The world after a host call; [None] is a panic. *)
Definition after {A} (o : outcome A) : option World :=
  match o with Done _ w | Trapped w => Some w | HostPanic => None end.

Section executions.
Context `{!VecAlloc} (overflow_checks : bool).

Definition host_call (p : Z) (c : HostCall) (w : World) : option World :=
  match c with
  | CallCreateData tag capacity alloc => after (create_data p tag capacity alloc w)
  | CallWriteData ptr len alloc => after (write_data p ptr len alloc w)
  | CallReadData ptr len => after (read_data p ptr len w)
  | CallSeekData index => after (seek_data p index w)
  | CallGetTag => after (get_tag p w)
  | CallGetProcessId => after (get_process_id p w)
  | CallDataSize => after (data_size p w)
  | CallPushModule id alloc => after (push_module p id alloc w)
  | CallTakeModule index => after (take_module overflow_checks p index w)
  | CallPushHandle k id alloc => after (push_handle p k id alloc w)
  | CallTakeHandle k index => after (take_handle overflow_checks p k index w)
  | CallSend target a => after (send p target a w)
  | CallReceive ptr len timeout expired => after (receive overflow_checks p ptr len timeout expired w)
  | CallSkipSearch tag i timeout expired => after (skip_search_message p tag i timeout expired w)
  | CallOpenBegin => after (open_begin p w)
  | CallOpenEnd k x => after (open_end overflow_checks p k x w)
  | CallCloneHandle k id => after (clone_handle overflow_checks p k id w)
  | CallDropHandle k id => after (drop_handle p k id w)
  | CallOpenFile => after (open_file p w)
  | CallCloseFile => after (close_file p w)
  | CallOpenIterator => after (open_iterator p w)
  | CallCloseIterator => after (close_iterator p w)
  end.

(** A process that starts, with the limits of its configuration. *)
Record Limits : Type := mkLimits {
  lim_message_size : Z;
  lim_message_resources : Z;
  lim_modules : Z;
  lim_files : Z;
  lim_network : Z;
}.

Definition new_guest (l : Limits) (mem : option (list byte)) : Guest :=
  mkGuest (lim_message_size l) (lim_message_resources l) (lim_modules l) mem HashMapId.new HashMapId.new HashMapId.new
    HashMapId.new HashMapId.new HashMapId.new None [] 0 0 false.

Definition spawn (p : Z) (l : Limits) (mem : option (list byte)) (w : World) : option World :=
  match guests w !! p, quotas w !! p with
  | None, None =>
      Some (put_guest p (new_guest l mem) (set_quotas (<[p := stats_new (lim_files l) (lim_network l)]> (quotas w)) w))
  | _, _ => None
  end.

(** A process that ends: its state is dropped, with the messages and the lease it holds. *)
Definition end_process (p : Z) (w : World) : option World :=
  g ← guests w !! p;
  let w := set_guests (delete p (guests w)) w in
  let w := if opening g then release_quietly p w else w in
  let w := match message_scratch_area g with Some m => drop_message m w | None => w end in
  Some (foldl (fun w m => drop_message m w) w (messages g)).

(** No table has given out all of its numbers. *)
Definition roomy (w : World) : Prop :=
  ∀ p g k, guests w !! p = Some g → id_seed (table k g) < u64_max ∧ id_seed (module_resources g) < u64_max.

Inductive world_step (w w' : World) : Prop :=
| StepSpawn p l mem : 0 <= lim_files l → 0 <= lim_network l → spawn p l mem w = Some w' → world_step w w'
| StepEnd p : end_process p w = Some w' → world_step w w'
| StepCall p c : roomy w → host_call p c w = Some w' → world_step w w'.

Definition world_start : World := mkWorld ∅ ∅ ∅ 0.
End executions.
