(* ===== verification/MessagingOk.v ===== *)
(** * The quota of network handles is exact

    However processes open, clone, send, receive, take and drop network handles, and end with
    messages still queued, the quota of a process counts exactly the handles in its tables,
    the handles it attached to messages that nobody has taken yet, and the one it is opening.
    The invariant [acc] also counts what a host call holds in its local variables: messages
    (by the allocations they refer to) and leases. *)

From S2P Require Import Prelude External Mailbox Message HashMapId Messaging.
#[local] Open Scope host_scope.

(** ** The invariant *)

Definition count (q : Z) (E : list Z) : Z := Z.of_nat (length (filter (fun x => x = q) E)).

Definition leases (q : Z) (h : gmap Z Leased) : Z := map_sum (fun l => if owner l =? q then 1 else 0) h.

Definition kinds : list Kind := [KTcpListener; KTlsListener; KTcpStream; KTlsStream; KUdpSocket].

Definition handles (g : Guest) : Z :=
  foldr (fun k n => Z.of_nat (size (store (table k g))) + n) 0 kinds.

Definition opens (g : Guest) : Z := if opening g then 1 else 0.

Definition scratch_arcs (g : Guest) : list Z :=
  match message_scratch_area g with Some m => message_arcs m | None => [] end.
Definition guest_arcs (g : Guest) : list Z := scratch_arcs g ++ mjoin (message_arcs <$> messages g).
Definition all_arcs (gs : gmap Z Guest) : list Z := mjoin ((fun x => guest_arcs x.2) <$> map_to_list gs).

Definition quota_ok (c : ResourceCounts) : Prop :=
  0 <= open_network_connections c <= max_network_connections c ∧
  open_network_connections c <= open_file_descriptors c <= max_file_descriptors c ∧
  0 <= open_dns_iterators c <= max_dns_iterators c.

Record guest_ok (w : World) (E : list Z) (p : Z) (g : Guest) (c : ResourceCounts) : Prop := {
  go_network : open_network_connections c = handles g + leases p (heap w) + opens g + count p E;
  go_files : open_file_descriptors c = open_network_connections c + files g;
  go_dns : open_dns_iterators c = dns_iterators g;
  go_held : 0 <= files g ∧ 0 <= dns_iterators g;
  go_tables : ∀ k, HashMapId.wf (table k g);
}.

(** [L]: allocations that messages in local variables refer to; [E]: owners of leases in
    local variables. *)
Record acc (L E : list Z) (w : World) : Prop := {
  ac_guest : ∀ p g, guests w !! p = Some g → ∃ c, quotas w !! p = Some c ∧ guest_ok w E p g c;
  ac_quota : ∀ q c, quotas w !! q = Some c → quota_ok c ∧ leases q (heap w) + count q E <= open_network_connections c;
  ac_owner : ∀ a l, heap w !! a = Some l → is_Some (quotas w !! owner l);
  ac_local : ∀ q, q ∈ E → is_Some (quotas w !! q);
  ac_arcs : all_arcs (guests w) ++ L ≡ₚ (map_to_list (heap w)).*1;
  ac_fresh : ∀ a, is_Some (heap w !! a) → a < next_arc w;
}.

(** ** Counting *)

Lemma count_cons q x E : count q (x :: E) = (if x =? q then 1 else 0) + count q E.
Proof.
  unfold count. destruct (Z.eqb_spec x q).
  - rewrite filter_cons_True by done. simpl. lia.
  - by rewrite filter_cons_False.
Qed.

Lemma owner_count_nonneg q E : 0 <= count q E.
Proof. unfold count. lia. Qed.

Lemma count_nil q : count q [] = 0.
Proof. done. Qed.

Lemma leases_nonneg q h : 0 <= leases q h.
Proof. apply map_sum_nonneg. intros l. case_match; lia. Qed.

Lemma leases_insert q a l h : h !! a = None → leases q (<[a := l]> h) = (if owner l =? q then 1 else 0) + leases q h.
Proof. apply map_sum_insert. Qed.

Lemma leases_delete q a l h : h !! a = Some l → leases q (delete a h) = leases q h - (if owner l =? q then 1 else 0).
Proof. apply (map_sum_delete (fun l => if owner l =? q then 1 else 0)). Qed.

Lemma leases_none q h : (∀ a l, h !! a = Some l → owner l ≠ q) → leases q h = 0.
Proof.
  induction h as [|a l h Ha IH] using map_ind; intros Hq; [done|]. rewrite leases_insert by done.
  rewrite (proj2 (Z.eqb_neq (owner l) q)) by (apply (Hq a); apply lookup_insert_eq).
  apply IH. intros b m Hb. apply (Hq b). rewrite lookup_insert_ne; [done|]. by intros ->; rewrite Ha in Hb.
Qed.

Lemma handles_nonneg g : 0 <= handles g.
Proof. unfold handles. simpl. lia. Qed.

Lemma table_set_table k k' t g : table k (set_table k' t g) = if decide (k' = k) then t else table k g.
Proof. by destruct k. Qed.

Lemma handles_set_table k t g :
  handles (set_table k t g) = handles g - Z.of_nat (size (store (table k g))) + Z.of_nat (size (store t)).
Proof. unfold handles. destruct k; simpl; lia. Qed.

(** ** Allocations *)

Lemma all_arcs_put p g g' gs :
  gs !! p = Some g → all_arcs (<[p := g']> gs) ++ guest_arcs g ≡ₚ all_arcs gs ++ guest_arcs g'.
Proof.
  intros Hp. unfold all_arcs. rewrite <- (insert_delete_eq gs p g'). rewrite <- (insert_delete_id gs p g Hp) at 2.
  rewrite !map_to_list_insert by apply lookup_delete_eq. csimpl. solve_Permutation.
Qed.

Lemma all_arcs_delete p g gs : gs !! p = Some g → all_arcs (delete p gs) ++ guest_arcs g ≡ₚ all_arcs gs.
Proof.
  intros Hp. unfold all_arcs. rewrite <- (insert_delete_id gs p g Hp) at 2.
  rewrite map_to_list_insert by apply lookup_delete_eq. csimpl. solve_Permutation.
Qed.

Lemma all_arcs_new p g gs : gs !! p = None → all_arcs (<[p := g]> gs) ≡ₚ guest_arcs g ++ all_arcs gs.
Proof. intros Hp. unfold all_arcs. by rewrite map_to_list_insert. Qed.

Lemma acc_heap_arcs L E w a : acc L E w → a ∈ all_arcs (guests w) ++ L ↔ is_Some (heap w !! a).
Proof.
  intros H. rewrite (ac_arcs _ _ _ H), list_elem_of_fmap. split.
  - intros ([a' l] & -> & Hl%elem_of_map_to_list). simpl. by rewrite Hl.
  - intros [l Hl]. exists (a, l). split; [done|]. by apply elem_of_map_to_list.
Qed.

Lemma acc_nodup L E w : acc L E w → NoDup (all_arcs (guests w) ++ L).
Proof. intros H. rewrite (ac_arcs _ _ _ H). apply NoDup_fst_map_to_list. Qed.

Lemma acc_perm L L' E w : L ≡ₚ L' → acc L E w → acc L' E w.
Proof. intros Hp []. split; try done. by rewrite <- Hp. Qed.

(** ** What the primitives do to the invariant *)

(** A change of a guest that moves allocations between it and the host call. *)
Lemma acc_put L L' E w p g g' :
  acc L E w → guests w !! p = Some g → guest_arcs g' ++ L' ≡ₚ guest_arcs g ++ L →
  handles g' = handles g → opening g' = opening g → files g' = files g → dns_iterators g' = dns_iterators g →
  (∀ k, HashMapId.wf (table k g')) → acc L' E (put_guest p g' w).
Proof.
  intros [] Hp Ha Hh Ho Hf Hd Hw. split; simpl; try done.
  - intros q h Hq. apply lookup_insert_Some in Hq as [[<- <-] | [Hne Hq]].
    + destruct (ac_guest0 p g Hp) as (c & Hc & []). exists c. split; [done|]. split; rewrite ?Hh, ?Hf, ?Hd; try done.
      unfold opens. by rewrite Ho.
    + destruct (ac_guest0 q h Hq) as (c & Hc & []). exists c. split; [done|]. by split.
  - rewrite <- ac_arcs0. pose proof (all_arcs_put p g g' (guests w) Hp) as Hput.
    apply (Permutation_app_inv_r (guest_arcs g)). rewrite <- app_assoc, (Permutation_app_comm L'), app_assoc, Hput.
    rewrite <- !app_assoc. apply Permutation_app_head. rewrite Ha. solve_Permutation.
Qed.

(** A lease is released. *)
Lemma acc_release L E w q : acc L (q :: E) w → acc L E (release_quietly q w).
Proof.
  intros []. destruct (ac_local0 q ltac:(by left)) as [c Hc]. destruct (ac_quota0 q c Hc) as [Hq Hl].
  rewrite count_cons, Z.eqb_refl in Hl. pose proof (leases_nonneg q (heap w)). pose proof (owner_count_nonneg q E).
  unfold quota_ok in Hq. unfold release_quietly. rewrite Hc. simpl. unfold network_release.
  destruct (_ || _) eqn:Hz; [exfalso; apply orb_true_iff in Hz as [Hz|Hz]; bool_to_prop; lia|]. clear Hz.
  split; simpl; try done.
  - intros p g Hp. destruct (ac_guest0 p g Hp) as (c' & Hc' & []). rewrite count_cons in go_network0.
    destruct (decide (p = q)) as [->|Hne].
    + simplify_eq. rewrite Z.eqb_refl in go_network0. eexists. split; [apply lookup_insert_eq|]. split; simpl; try done; lia.
    + exists c'. rewrite lookup_insert_ne by done. split; [done|]. rewrite (proj2 (Z.eqb_neq q p)) in go_network0 by done. by split.
  - intros q' c' [[<- <-] | [Hne Hc']]%lookup_insert_Some; [unfold quota_ok; simpl; lia|].
    destruct (ac_quota0 q' c' Hc') as [? Hl']. rewrite count_cons, (proj2 (Z.eqb_neq q q')) in Hl' by done. done.
  - intros a l Ha. apply lookup_insert_is_Some. destruct (decide (q = owner l)); eauto.
  - intros q' Hq'. apply lookup_insert_is_Some. destruct (decide (q = q')); [by left|]. right. split; [done|]. apply ac_local0. by right.
Qed.

(** A handle is taken out of its allocation: its lease is a local variable now. *)
Lemma acc_unwrap L E w a l :
  acc (a :: L) E w → heap w !! a = Some l → acc L (owner l :: E) (set_heap (delete a (heap w)) w).
Proof.
  intros [] Hl. split; simpl; try done.
  - intros p g Hp. destruct (ac_guest0 p g Hp) as (c & Hc & []). exists c. split; [done|]. split; simpl; try done.
    rewrite (leases_delete p a l), count_cons by done. lia.
  - intros q c Hc. destruct (ac_quota0 q c Hc) as [? Hle]. split; [done|].
    rewrite (leases_delete q a l), count_cons by done. lia.
  - intros a' l' [_ Ha]%lookup_delete_Some. eauto.
  - intros q [->|Hq]%elem_of_cons; eauto.
  - apply (Permutation_cons_inv (a := a)). rewrite Permutation_middle, ac_arcs0.
    change (a :: (map_to_list (delete a (heap w))).*1) with ((a, l) :: map_to_list (delete a (heap w))).*1.
    by rewrite map_to_list_delete.
  - intros a' [l' [_ Ha]%lookup_delete_Some]. eauto.
Qed.

(** A handle with its lease is put into a new allocation. *)
Lemma acc_alloc L E w l :
  acc L (owner l :: E) w →
  acc (next_arc w :: L) E (mkWorld (guests w) (quotas w) (<[next_arc w := l]> (heap w)) (next_arc w + 1)).
Proof.
  intros []. assert (heap w !! next_arc w = None) as Hn.
  { destruct (heap w !! next_arc w) as [l'|] eqn:Hl; [|done]. pose proof (ac_fresh0 (next_arc w) ltac:(by rewrite Hl)). lia. }
  split; simpl; try done.
  - intros p g Hp. destruct (ac_guest0 p g Hp) as (c & Hc & []). exists c. split; [done|]. split; simpl; try done.
    rewrite leases_insert by done. rewrite count_cons in go_network0. lia.
  - intros q c Hc. destruct (ac_quota0 q c Hc) as [? Hle]. split; [done|].
    rewrite leases_insert by done. rewrite count_cons in Hle. lia.
  - intros a' l' [[<- <-] | [_ Ha]]%lookup_insert_Some; [apply ac_local0; by left|eauto].
  - intros q Hq. apply ac_local0. by right.
  - rewrite map_to_list_insert by done. csimpl. rewrite <- ac_arcs0. by rewrite Permutation_middle.
  - intros a' [<- | [_ Ha]]%lookup_insert_is_Some; [lia|]. pose proof (ac_fresh0 a' Ha). lia.
Qed.

Lemma acc_drop_arc L E w a : acc (a :: L) E w → acc L E (drop_arc w a).
Proof.
  intros H. unfold drop_arc. destruct (proj1 (acc_heap_arcs _ _ _ a H)) as [l Hl].
  { apply elem_of_app. right. by left. }
  rewrite Hl. apply acc_release. by apply acc_unwrap.
Qed.

Lemma acc_drop_arcs L E w l : acc (l ++ L) E w → acc L E (foldl drop_arc w l).
Proof. revert w. induction l as [|a l IH]; intros w H; simpl in *; [done|]. by apply IH, acc_drop_arc. Qed.

Lemma acc_drop_message L E w m : acc (message_arcs m ++ L) E w → acc L E (drop_message m w).
Proof. apply acc_drop_arcs. Qed.

(** Drops leave the guests alone. *)
Lemma release_guests q w : guests (release_quietly q w) = guests w.
Proof. unfold release_quietly. by case_match. Qed.

Lemma drop_message_guests m w : guests (drop_message m w) = guests w.
Proof.
  unfold drop_message. revert w. induction (message_arcs m) as [|a l IH]; intros w; simpl; [done|].
  rewrite IH. unfold drop_arc. case_match; [by rewrite release_guests|done].
Qed.

(** A unit is reserved. *)
Lemma acc_reserve L E w q c c' :
  acc L E w → quotas w !! q = Some c → network_reserve c = Some c' →
  acc L (q :: E) (set_quotas (<[q := c']> (quotas w)) w).
Proof.
  intros [] Hc Hr. destruct (ac_quota0 q c Hc) as [Hq Hl]. unfold network_reserve in Hr. unfold quota_ok in Hq.
  destruct (_ <=? _) eqn:H1; [done|]. destruct (_ <=? open_network_connections c) eqn:H2; [done|]. injection Hr as <-. bool_to_prop.
  split; simpl; try done.
  - intros p g Hp. destruct (ac_guest0 p g Hp) as (c' & Hc' & []).
    destruct (decide (p = q)) as [->|Hne].
    + simplify_eq. eexists. split; [apply lookup_insert_eq|]. split; simpl; try done; rewrite ?count_cons, ?Z.eqb_refl; lia.
    + exists c'. rewrite lookup_insert_ne by done. split; [done|]. split; simpl; try done.
      rewrite count_cons, (proj2 (Z.eqb_neq q p)) by done. lia.
  - intros q' c' [[<- <-] | [Hne Hc']]%lookup_insert_Some.
    + unfold quota_ok. simpl. rewrite count_cons, Z.eqb_refl. lia.
    + destruct (ac_quota0 q' c' Hc') as [? Hl']. rewrite count_cons, (proj2 (Z.eqb_neq q q')) by done. done.
  - intros a l Ha. apply lookup_insert_is_Some. destruct (decide (q = owner l)); eauto.
  - intros q' [->|Hq']%elem_of_cons; apply lookup_insert_is_Some; [by left|]. destruct (decide (q = q')); eauto.
Qed.

(** The lease of a handle moves to another quota, or stays where it is. *)
Lemma acc_transfer L E w l p :
  acc L (owner l :: E) w → is_Some (quotas w !! p) →
  match transfer_to l p w with
  | Ok (l', w') => owner l' = p ∧ acc L (p :: E) w' ∧ guests w' = guests w
  | Err w' => acc L (owner l :: E) w' ∧ guests w' = guests w
  end.
Proof.
  intros H [c Hc]. unfold transfer_to. destruct (Z.eqb_spec (owner l) p) as [<-|Hne]; [done|].
  rewrite Hc. simpl. destruct (network_reserve c) as [c'|] eqn:Hr; [|by split].
  pose proof (acc_reserve _ _ _ _ _ _ H Hc Hr) as H'. simpl.
  set (w1 := set_quotas (<[p := c']> (quotas w)) w) in *.
  assert (acc L (owner l :: p :: E) w1) as H2.
  { destruct H'. split; try done.
    - intros q g Hq. destruct (ac_guest0 q g Hq) as (d & Hd & []). exists d. split; [done|]. split; try done.
      rewrite !count_cons in *. lia.
    - intros q d Hd. destruct (ac_quota0 q d Hd) as [? Hle]. rewrite !count_cons in *. split; [done|lia].
    - intros q. rewrite !elem_of_cons. intros Hq. apply ac_local0. rewrite !elem_of_cons. naive_solver. }
  pose proof (acc_release _ _ _ _ H2) as H3. unfold release_quietly in H3. change (quotas w1) with (<[p := c']> (quotas w)) in H3.
  destruct (<[p := c']> (quotas w) !! owner l ≫= network_release) as [d|] eqn:Hd.
  - done.
  - split; [by apply acc_release|]. by rewrite release_guests.
Qed.

(** ** Slots of messages *)

Definition slot_arc (r : option Resource) : option Z := r ← r; if is_leased r then Some (arc r) else None.
Definition slot_arcs (l : list (option Resource)) : list Z := omap slot_arc l.

Lemma message_arcs_data d : message_arcs (Data d) = slot_arcs (vec_data (resources d)).
Proof. done. Qed.

Lemma slot_arcs_insert i x y l :
  l !! i = Some y → slot_arcs (<[i := x]> l) ++ slot_arcs [y] ≡ₚ slot_arcs l ++ slot_arcs [x].
Proof.
  intros Hy. unfold slot_arcs. rewrite <- (take_drop_middle l i y Hy).
  rewrite insert_app_r_alt; rewrite length_take_le; try (apply lookup_lt_Some in Hy; lia).
  rewrite Nat.sub_diag. simpl. rewrite !omap_app. simpl. destruct (slot_arc x), (slot_arc y); simpl; solve_Permutation.
Qed.

Lemma add_resource_arcs `{!VecAlloc} r d :
  message_arcs (Data (add_resource r d).2) = message_arcs (Data d) ++ slot_arcs [Some r].
Proof.
  rewrite !message_arcs_data. unfold slot_arcs. rewrite <- omap_app. f_equal.
  unfold add_resource, vec_push, vec_extend. simpl. by case_match.
Qed.

Lemma leased_type_leased k ty a : leased_type k = Some ty → slot_arcs [Some (mkResource ty a)] = [a].
Proof. by destruct k; intros [= <-]. Qed.

Lemma take_network_arcs strong ty k i d r d' :
  leased_type k = Some ty → take_network_resource strong ty i d = (Some r, d') →
  message_arcs (Data d) ≡ₚ arc r :: message_arcs (Data d') ∧ type_id r = ty ∧ vec_data (resources d') !! i = Some None.
Proof.
  intros Hk. unfold take_network_resource, take_downcast.
  destruct (vec_data (resources d) !! i) as [[r0|]|] eqn:Hi; [|done..]. case_bool_decide as Ht; [|done].
  case_bool_decide; [|done]. intros [= <- <-]. rewrite !message_arcs_data, set_slot_data.
  pose proof (slot_arcs_insert i None (Some r0) _ Hi) as Hp.
  assert (slot_arcs [Some r0] = [arc r0]) as E by (destruct r0; by apply (leased_type_leased k); rewrite <- Ht in Hk).
  rewrite E in Hp. change (slot_arcs [None]) with (@nil Z) in Hp. rewrite app_nil_r in Hp.
  split_and!; [|done|].
  - rewrite <- Hp. solve_Permutation.
  - rewrite list_lookup_insert_eq; [done|]. by eapply lookup_lt_Some.
Qed.

Lemma restore_network_arcs i r a d d' k :
  leased_type k = Some (type_id r) → restore_network_resource i r a d = (Ok tt, d') →
  message_arcs (Data d') ≡ₚ a :: message_arcs (Data d).
Proof.
  intros Hk. unfold restore_network_resource. destruct (vec_data (resources d) !! i) as [[r0|]|] eqn:Hi; [done| |done].
  intros [= <-]. rewrite !message_arcs_data, set_slot_data.
  pose proof (slot_arcs_insert i (Some (mkResource (type_id r) a)) None _ Hi) as Hp.
  rewrite (leased_type_leased k) in Hp by done. change (slot_arcs [None]) with (@nil Z) in Hp.
  rewrite app_nil_r in Hp. rewrite Hp. solve_Permutation.
Qed.

(** Modules have no lease. *)
Lemma take_module_arcs i d : message_arcs (Data (Message.take_module i d).2) = message_arcs (Data d).
Proof.
  unfold Message.take_module, take_downcast. destruct (vec_data (resources d) !! i) as [[r|]|] eqn:Hi; [|done..].
  case_bool_decide as Ht; [|done]. cbn [snd]. rewrite !message_arcs_data, set_slot_data. unfold slot_arcs.
  rewrite <- (take_drop_middle _ i _ Hi).
  rewrite insert_app_r_alt; rewrite length_take_le; try (apply lookup_lt_Some in Hi; lia).
  rewrite Nat.sub_diag. simpl. rewrite !omap_app. simpl. unfold is_leased. by rewrite Ht.
Qed.

(** ** Host calls *)

Definition fine {A} (o : outcome A) : Prop :=
  match o with Done _ w | Trapped w => acc [] [] w | HostPanic => False end.

Lemma guest_arcs_scratch m g :
  guest_arcs (set_scratch m g) = (match m with Some m => message_arcs m | None => [] end) ++ mjoin (message_arcs <$> messages g).
Proof. done. Qed.

Lemma guest_tables L E w p g : acc L E w → guests w !! p = Some g → ∀ k, HashMapId.wf (table k g).
Proof. intros H Hg. by destruct (ac_guest _ _ _ H p g Hg) as (c & _ & []). Qed.

Lemma data_runs w p g : guests w !! p = Some g → data p w = Done g w.
Proof. intros H. unfold data. by rewrite H. Qed.

Lemma bind_done {A B} (m : host A) (k : A → host B) w a w' : m w = Done a w' → bind m k w = k a w'.
Proof. intros H. unfold bind. by rewrite H. Qed.

Lemma replace_scratch_runs L E w p g m :
  acc (message_arcs m ++ L) E w → guests w !! p = Some g →
  ∃ w', replace_scratch p m w = Done tt w' ∧ acc L E w' ∧ guests w' = <[p := set_scratch (Some m) g]> (guests w).
Proof.
  intros H Hg. unfold replace_scratch, bind. rewrite (data_runs _ _ g Hg). unfold put, modify.
  pose proof (acc_put (message_arcs m ++ L) (scratch_arcs g ++ L) E w p g (set_scratch (Some m) g) H Hg) as Hput.
  assert (acc (scratch_arcs g ++ L) E (put_guest p (set_scratch (Some m) g) w)) as H'.
  { apply Hput; try done; [|exact (guest_tables _ _ _ _ _ H Hg)]. unfold guest_arcs, scratch_arcs. simpl. solve_Permutation. }
  unfold scratch_arcs in H'. destruct (message_scratch_area g) as [old|].
  - eexists. split; [done|]. split; [by apply acc_drop_message|]. by rewrite drop_message_guests.
  - by eexists.
Qed.

Lemma take_scratch_runs L E w p g m :
  acc L E w → guests w !! p = Some g → message_scratch_area g = Some m →
  take_scratch p w = Done m (put_guest p (set_scratch None g) w) ∧
  acc (message_arcs m ++ L) E (put_guest p (set_scratch None g) w).
Proof.
  intros H Hg Hm. unfold take_scratch, bind. rewrite (data_runs _ _ g Hg), Hm. split; [done|].
  eapply acc_put; try done; [|exact (guest_tables _ _ _ _ _ H Hg)]. unfold guest_arcs, scratch_arcs. rewrite Hm. simpl. solve_Permutation.
Qed.

Lemma update_scratch_runs L L' E w p g d0 d :
  acc L E w → guests w !! p = Some g → message_scratch_area g = Some (Data d0) →
  message_arcs (Data d) ++ L' ≡ₚ message_arcs (Data d0) ++ L →
  ∃ w', update_scratch p d w = Done tt w' ∧ acc L' E w' ∧ guests w' = <[p := set_scratch (Some (Data d)) g]> (guests w) ∧
    quotas w' = quotas w ∧ heap w' = heap w ∧ next_arc w' = next_arc w.
Proof.
  intros H Hg Hm Hp. unfold update_scratch, bind. rewrite (data_runs _ _ g Hg). eexists. split; [done|].
  split_and!; try done. eapply acc_put; try done; [|exact (guest_tables _ _ _ _ _ H Hg)].
  unfold guest_arcs, scratch_arcs. rewrite Hm. cbn [message_scratch_area set_scratch messages].
  rewrite <- !app_assoc, (Permutation_app_comm _ L'), (Permutation_app_comm _ L), !app_assoc, Hp. done.
Qed.

Lemma scratch_data_runs w p g d :
  guests w !! p = Some g → message_scratch_area g = Some (Data d) → scratch_data p w = Done d w.
Proof. intros Hg Hm. unfold scratch_data, bind. by rewrite (data_runs _ _ g Hg), Hm. Qed.

(** A host call of a process that does not exist, or without a message, changes nothing. *)
Lemma scratch_data_cases {A} w p (k : DataMessage → host A) :
  acc [] [] w →
  (∀ g d, guests w !! p = Some g → message_scratch_area g = Some (Data d) → fine (k d w)) →
  fine (bind (scratch_data p) k w).
Proof.
  intros H Hk. unfold bind, scratch_data at 1, bind, data, or_trap. destruct (guests w !! p) as [g|] eqn:Hg; simpl; [|done].
  destruct (message_scratch_area g) as [[d| |]|] eqn:Hm; simpl; try done. by eapply Hk.
Qed.

Lemma data_cases {A} w p (k : Guest → host A) :
  acc [] [] w → (∀ g, guests w !! p = Some g → fine (k g w)) → fine (bind (data p) k w).
Proof.
  intros H Hk. unfold bind, data, or_trap. destruct (guests w !! p) as [g|] eqn:Hg; simpl; [|done]. by apply Hk.
Qed.

Lemma or_trap_cases {A B} w (o : option A) (k : A → host B) :
  acc [] [] w → (∀ a, o = Some a → fine (k a w)) → fine (bind (or_trap o) k w).
Proof. intros H Hk. unfold bind, or_trap. destruct o; simpl; [by apply Hk|done]. Qed.

(** A change of a guest that moves units between its tables, the handle it is opening and the
    host call. *)
Lemma acc_shift L E E' w p g g' :
  acc L E w → guests w !! p = Some g → guest_arcs g' = guest_arcs g →
  files g' = files g → dns_iterators g' = dns_iterators g → (∀ k, HashMapId.wf (table k g')) →
  handles g' + opens g' + count p E' = handles g + opens g + count p E →
  (∀ q, q ≠ p → count q E' = count q E) → (∀ q, q ∈ E' → q = p ∨ q ∈ E) → acc L E' (put_guest p g' w).
Proof.
  intros [] Hp Ha Hf Hd Hw Hc He Hin. destruct (ac_guest0 p g Hp) as (c & Hq & []).
  split; simpl; try done.
  - intros q h [[<- <-] | [Hne Hg]]%lookup_insert_Some.
    + exists c. split; [done|]. split; simpl; rewrite ?Hf, ?Hd; try done. lia.
    + destruct (ac_guest0 q h Hg) as (d & Hd' & []). exists d. split; [done|]. split; try done. by rewrite He.
  - intros q d Hd'. destruct (ac_quota0 q d Hd') as [? Hl]. split; [done|]. destruct (decide (q = p)) as [->|Hne]; [|by rewrite He].
    simplify_eq. pose proof (handles_nonneg g'). assert (0 <= opens g') by (unfold opens; case_match; lia). lia.
  - intros q [->|Hq']%Hin; eauto.
  - rewrite <- ac_arcs0. apply Permutation_app_tail, (Permutation_app_inv_r (guest_arcs g)).
    rewrite (all_arcs_put p g g') by done. by rewrite Ha.
Qed.

Lemma guest_arcs_set_table k t g : guest_arcs (set_table k t g) = guest_arcs g.
Proof. done. Qed.

Lemma set_table_wf k t g : HashMapId.wf t → (∀ k, HashMapId.wf (table k g)) → ∀ k', HashMapId.wf (table k' (set_table k t g)).
Proof. intros Ht Hg k'. rewrite table_set_table. by case_decide. Qed.

(** A handle and its unit go into a table. *)
Lemma table_add_runs L E w p g k x checks :
  acc L (p :: E) w → guests w !! p = Some g → id_seed (table k g) < u64_max →
  ∃ id w', table_add checks p x (table k g) (set_table k) w = Done id w' ∧ acc L E w'.
Proof.
  intros H Hg Hs. pose proof (guest_tables _ _ _ _ _ H Hg) as Hw.
  destruct (HashMapId.add_step checks x (table k g) (Hw k) Hs) as (Ha & Hn & Hwf).
  unfold table_add. rewrite Ha. unfold bind. rewrite (data_runs _ _ _ Hg). do 2 eexists. split; [done|].
  eapply acc_shift; try done.
  - apply set_table_wf; [|done]. apply Hwf.
  - rewrite handles_set_table, count_cons, Z.eqb_refl. simpl. rewrite map_size_insert_None by done. unfold opens. simpl. lia.
  - intros q Hq. rewrite count_cons. by rewrite (proj2 (Z.eqb_neq p q)) by done.
  - intros q Hq. right. by right.
Qed.

(** A handle and its unit leave a table. *)
Lemma acc_remove L E w p g k id x :
  acc L E w → guests w !! p = Some g → HashMapId.get id (table k g) = Some x →
  acc L (p :: E) (put_guest p (set_table k (HashMapId.remove id (table k g)).2 g) w).
Proof.
  intros H Hg Hx. pose proof (guest_tables _ _ _ _ _ H Hg) as Hw. eapply acc_shift; try done.
  - apply set_table_wf; [|done]. by apply HashMapId.remove_wf.
  - rewrite handles_set_table, count_cons, Z.eqb_refl. simpl. rewrite map_size_delete.
    unfold HashMapId.get in Hx. rewrite Hx. unfold opens. simpl.
    assert (size (store (table k g)) ≠ 0%nat). { intros Hz%map_size_empty_inv. by rewrite Hz, lookup_empty in Hx. } lia.
  - intros q Hq. rewrite count_cons. by rewrite (proj2 (Z.eqb_neq p q)) by done.
  - intros q [->|Hq]%elem_of_cons; eauto.
Qed.

Lemma module_add_fine w p g x checks :
  acc [] [] w → guests w !! p = Some g → id_seed (module_resources g) < u64_max →
  fine (table_add checks p x (module_resources g) set_modules w).
Proof.
  intros H Hg Hs. unfold table_add, HashMapId.add, overflowing_add.
  rewrite (proj2 (Z.leb_le _ _)) by lia. unfold bind. rewrite (data_runs _ _ _ Hg). simpl.
  eapply acc_shift; try done; [exact (guest_tables _ _ _ _ _ H Hg)|]. intros q Hq. by right.
Qed.

(** Messages and their scratch area *)

Lemma replace_scratch_fine {A} w p m (k : unit → host A) :
  acc (message_arcs m) [] w → is_Some (guests w !! p) →
  (∀ w', acc [] [] w' → fine (k tt w')) → fine (bind (replace_scratch p m) k w).
Proof.
  intros H [g Hg] Hk. rewrite <- (app_nil_r (message_arcs m)) in H.
  destruct (replace_scratch_runs _ _ _ _ _ _ H Hg) as (w' & Hr & Hw & _). unfold bind. rewrite Hr. by apply Hk.
Qed.

Lemma replace_scratch_end w p m : acc (message_arcs m) [] w → is_Some (guests w !! p) → fine (replace_scratch p m w).
Proof.
  intros H [g Hg]. rewrite <- (app_nil_r (message_arcs m)) in H.
  by destruct (replace_scratch_runs _ _ _ _ _ _ H Hg) as (w' & -> & Hw & _).
Qed.

Lemma take_scratch_cases {A} w p (k : Message → host A) :
  acc [] [] w →
  (∀ m w' g, acc (message_arcs m) [] w' → guests w' !! p = Some g → fine (k m w')) →
  fine (bind (take_scratch p) k w).
Proof.
  intros H Hk. destruct (guests w !! p) as [g|] eqn:Hg;
    [|unfold bind, take_scratch, bind, data, or_trap; by rewrite Hg].
  destruct (message_scratch_area g) as [m|] eqn:Hm;
    [|unfold bind, take_scratch, bind; by rewrite (data_runs _ _ g Hg), Hm].
  destruct (take_scratch_runs _ _ _ _ _ _ H Hg Hm) as [Ht Ha]. rewrite app_nil_r in Ha. unfold bind. rewrite Ht.
  eapply Hk; [done|]. simpl. apply lookup_insert_eq.
Qed.

Lemma update_scratch_fine {A} w p g d0 d (k : unit → host A) :
  acc [] [] w → guests w !! p = Some g → message_scratch_area g = Some (Data d0) →
  message_arcs (Data d) = message_arcs (Data d0) →
  (∀ w', acc [] [] w' → guests w' !! p = Some (set_scratch (Some (Data d)) g) → fine (k tt w')) →
  fine (bind (update_scratch p d) k w).
Proof.
  intros H Hg Hm Ha Hk.
  destruct (update_scratch_runs [] [] [] w p g d0 d H Hg Hm) as (w' & Hu & Hw & Hgs & _); [by rewrite Ha|].
  unfold bind. rewrite Hu. apply Hk; [done|]. rewrite Hgs. apply lookup_insert_eq.
Qed.

Section calls.
Context {vec_alloc : VecAlloc} (checks : bool) (p : Z).

Lemma create_data_fine tag capacity alloc w : acc [] [] w → fine (create_data p tag capacity alloc w).
Proof.
  intros H. apply data_cases; [done|]. intros g Hg. destruct (_ <? capacity); [done|]. destruct alloc; [|done].
  apply replace_scratch_end; [done|]. by rewrite Hg.
Qed.

Lemma write_data_fine ptr len alloc w : acc [] [] w → fine (write_data p ptr len alloc w).
Proof.
  intros H. apply data_cases; [done|]. intros g Hg. do 2 (apply or_trap_cases; [done|]; intros ? _).
  apply take_scratch_cases; [done|]. intros m w' g' Hw Hg'.
  destruct m as [d| |]; [|apply replace_scratch_fine; eauto..].
  case_match; [apply replace_scratch_fine; eauto|]. case_match; [apply replace_scratch_fine; eauto|].
  apply replace_scratch_fine; eauto.
Qed.

Lemma read_data_fine ptr len w : acc [] [] w → fine (read_data p ptr len w).
Proof.
  intros H. apply data_cases; [done|]. intros g Hg. apply or_trap_cases; [done|]. intros mem _.
  apply take_scratch_cases; [done|]. intros m w' g' Hw Hg'.
  assert (fine (A := Z) (Trapped (drop_message m w'))) as Hdrop.
  { apply acc_drop_message. by rewrite app_nil_r. }
  destruct (slice _ _ _); [|done]. destruct m as [d| |]; [|done..].
  destruct (Message.read _ d) as [[bytes|] d'] eqn:Hr; [|done].
  erewrite bind_done by by apply data_runs. erewrite bind_done by done. apply (replace_scratch_fine _ p); [|simpl; rewrite lookup_insert_eq; eauto|eauto].
  assert (resources d' = resources d) as Hd by (unfold Message.read in Hr; by repeat case_match; simplify_eq).
  simpl. rewrite Hd. eapply acc_put; try done. exact (guest_tables _ _ _ _ _ Hw Hg').
Qed.

Lemma seek_data_fine index w : acc [] [] w → fine (seek_data p index w).
Proof.
  intros H. apply scratch_data_cases; [done|]. intros g d Hg Hm.
  destruct (update_scratch_runs [] [] [] w p g d (Message.seek index d) H Hg Hm) as (w' & Hu & Hw & _); [done|].
  by rewrite Hu.
Qed.

Lemma scratch_get_fine {A} (f : Message → A) w :
  acc [] [] w → fine (bind (data p) (fun g => bind (or_trap (message_scratch_area g)) (fun m => ret (f m))) w).
Proof. intros H. apply data_cases; [done|]. intros g Hg. by apply or_trap_cases. Qed.

Lemma data_size_fine w : acc [] [] w → fine (data_size p w).
Proof. intros H. by apply scratch_data_cases. Qed.
(** Modules and handles *)

Lemma reserve_slot_arcs d max alloc d' :
  reserve_message_resource_slot d max alloc = Some d' → message_arcs (Data d') = message_arcs (Data d).
Proof. unfold reserve_message_resource_slot. destruct (_ <=? _); [done|]. destruct alloc; [|done]. by intros [= <-]. Qed.

Lemma capacity_cases {A} alloc w (k : unit → host A) :
  acc [] [] w →
  (∀ w' g d, acc [] [] w' → guests w' !! p = Some g → message_scratch_area g = Some (Data d) → fine (k tt w')) →
  fine (bind (ensure_message_resource_capacity p alloc) k w).
Proof.
  intros H Hk. unfold bind, ensure_message_resource_capacity, bind.
  destruct (guests w !! p) as [g|] eqn:Hg; [rewrite (data_runs _ _ _ Hg)|unfold data, or_trap; by rewrite Hg].
  unfold scratch_data, bind. rewrite (data_runs _ _ _ Hg). destruct (message_scratch_area g) as [[d| |]|] eqn:Hm; try done. simpl.
  destruct (reserve_message_resource_slot _ _ _) as [d'|] eqn:Hr; [|done]. simpl.
  apply (update_scratch_fine w p g d d' k); try done; [by eapply reserve_slot_arcs|]. intros w' Hw Hg'. by eapply Hk.
Qed.

Lemma push_module_fine module_id alloc w : acc [] [] w → fine (push_module p module_id alloc w).
Proof.
  intros H. apply capacity_cases; [done|]. clear. intros w g d H Hg Hm. apply data_cases; [done|]. intros g' Hg'. simplify_eq.
  apply or_trap_cases; [done|]. intros x _. erewrite bind_done by by eapply scratch_data_runs.
  destruct (add_resource _ d) as [index d'] eqn:Hr. eapply update_scratch_fine; try done.
  pose proof (add_resource_arcs (mkResource TModule x) d) as Ha. rewrite Hr in Ha. simpl fst in Ha. simpl snd in Ha.
  rewrite Ha. apply app_nil_r.
Qed.

Lemma take_module_fine index w : acc [] [] w → roomy w → fine (take_module checks p index w).
Proof.
  intros H Hroom. apply data_cases; [done|]. intros g Hg. destruct (_ <=? _); [done|].
  apply scratch_data_cases; [done|]. intros g' d Hg' Hm. simplify_eq. pose proof (take_module_arcs (Z.to_nat index) d) as Ha.
  destruct (Message.take_module (Z.to_nat index) d) as [r d'] eqn:Hr. apply or_trap_cases; [done|]. intros r' ->.
  eapply update_scratch_fine; try done. intros w' Hw Hg''. apply (module_add_fine w' p (set_scratch (Some (Data d')) g)); try done. by apply (Hroom p g KTcpStream).
Qed.

Lemma push_handle_fine k handle_id alloc w : acc [] [] w → fine (push_handle p k handle_id alloc w).
Proof.
  intros H. apply capacity_cases; [done|]. clear. intros w g d H Hg Hm. apply or_trap_cases; [done|]. intros ty Hty.
  apply data_cases; [done|]. intros g' Hg'. simplify_eq. apply or_trap_cases; [done|]. intros x Hx.
  erewrite bind_done by done. erewrite bind_done by done.
  pose proof (acc_remove _ _ _ _ _ _ _ _ H Hg Hx) as Hrem.
  pose proof (acc_alloc _ _ _ (mkLeased x p) Hrem) as Hall. simpl in Hall.
  set (g1 := set_table k _ g) in *. set (w1 := mkWorld _ _ _ _) in Hall.
  assert (guests w1 !! p = Some g1) as Hg1 by apply lookup_insert_eq.
  change (fine ((let! d := scratch_data p in
    let '(index, d) := add_resource (mkResource ty (next_arc w)) d in
    let! _ := update_scratch p d in ret index)%host w1)).
  erewrite bind_done by by eapply scratch_data_runs.
  destruct (add_resource _ d) as [index d'] eqn:Hr.
  pose proof (add_resource_arcs (mkResource ty (next_arc w)) d) as Ha. rewrite Hr, (leased_type_leased k) in Ha by done.
  destruct (update_scratch_runs [next_arc w] [] [] w1 p g1 d d' Hall Hg1 Hm) as (w2 & Hu & Hw2 & _).
  { rewrite app_nil_r. by rewrite <- Ha. }
  erewrite bind_done by done. done.
Qed.
Lemma data_message_cases {A} w (k : unit → host A) :
  acc [] [] w → (∀ g d, guests w !! p = Some g → message_scratch_area g = Some (Data d) → fine (k tt w)) →
  fine (bind (ensure_data_message p) k w).
Proof.
  intros H Hk. pose proof (scratch_data_cases w p (fun _ => k tt) H) as Hs. unfold ensure_data_message, bind in *.
  destruct (scratch_data p w); apply Hs; intros g d Hg Hm; exact (Hk g d Hg Hm).
Qed.

(** The slot that was emptied takes the handle back. *)
Lemma take_handle_restores k ty i r d l w g :
  acc [] [owner l] w → guests w !! p = Some g → message_scratch_area g = Some (Data d) →
  leased_type k = Some ty → type_id r = ty → vec_data (resources d) !! i = Some None →
  fine ((let! a := (fun w => Done (next_arc w) (mkWorld (guests w) (quotas w) (<[next_arc w := l]> (heap w)) (next_arc w + 1))) in
      match restore_network_resource i r a d with
      | (Ok _, d) => let! _ := update_scratch p d in trap
      | (Err _, _) => panic
      end)%host w : outcome Z).
Proof.
  intros H Hg Hm Hk Hr Hi. pose proof (acc_alloc _ _ _ l H) as Hall. erewrite bind_done by done.
  destruct (restore_network_resource _ _ _ _) as [[[]|] d'] eqn:Hres;
    [|unfold restore_network_resource in Hres; rewrite Hi in Hres; done].
  pose proof (restore_network_arcs i r (next_arc w) d d' k) as Ha. rewrite Hr in Ha. specialize (Ha Hk Hres).
  destruct (update_scratch_runs [next_arc w] [] [] _ p g d d' Hall Hg Hm) as (w2 & Hu & Hw2 & _).
  { rewrite app_nil_r, Ha. solve_Permutation. }
  by erewrite bind_done by done.
Qed.

Lemma take_handle_fine k index w : acc [] [] w → roomy w → fine (take_handle checks p k index w).
Proof.
  intros H Hroom. apply data_message_cases; [done|]. intros g d Hg Hm. apply or_trap_cases; [done|]. intros ty Hty.
  erewrite bind_done by by eapply scratch_data_runs. erewrite bind_done by done. cbv zeta.
  destruct (take_network_resource _ _ _ _) as [r d'] eqn:Ht. apply or_trap_cases; [done|]. intros r' ->.
  destruct (take_network_arcs _ _ _ _ _ _ _ Hty Ht) as (Ha & Hr & Hi).
  destruct (update_scratch_runs [] [arc r'] [] w p g d d' H Hg Hm) as (w1 & Hu & Hw1 & Hg1 & Hq1 & Hh1 & _).
  { rewrite app_nil_r, Ha. solve_Permutation. }
  erewrite bind_done by done. assert (∃ l, heap w1 !! arc r' = Some l) as [l Hl].
  { apply (acc_heap_arcs _ _ _ _ Hw1). apply elem_of_app. right. by left. }
  unfold bind at 1, unwrap_arc. rewrite Hl. pose proof (acc_unwrap _ _ _ _ _ Hw1 Hl) as Hw2. set (w2 := set_heap _ w1) in *.
  assert (guests w2 !! p = Some (set_scratch (Some (Data d')) g)) as Hg2 by (simpl; rewrite Hg1; apply lookup_insert_eq).
  destruct (ac_guest _ _ _ Hw2 p _ Hg2) as (c & Hc & _).
  pose proof (acc_transfer [] [] w2 l p Hw2 ltac:(by rewrite Hc)) as Htr. unfold bind at 1.
  destruct (transfer_to l p w2) as [[l' w3]|w3].
  - destruct Htr as (Hl' & Hw3 & Hg3). rewrite <- Hg3 in Hg2. erewrite bind_done by by apply data_runs.
    edestruct (table_add_runs [] [] w3 p _ k (connection l') checks Hw3 Hg2) as (id & w4 & Hadd & Hw4); [exact (proj1 (Hroom p g k Hg))|].
    by rewrite Hadd.
  - destruct Htr as [Hw3 Hg3]. rewrite <- Hg3 in Hg2. by eapply take_handle_restores.
Qed.
(** Sending and receiving *)

Lemma acc_deliver w target g m :
  acc (message_arcs m) [] w → guests w !! target = Some g →
  acc [] [] (put_guest target (set_messages (messages g ++ [m]) g) w).
Proof.
  intros H Hg. eapply acc_put; try done; [|exact (guest_tables _ _ _ _ _ H Hg)]. unfold guest_arcs. simpl.
  rewrite fmap_app, join_app. simpl. rewrite !app_nil_r. unfold scratch_arcs. simpl. solve_Permutation.
Qed.

Lemma send_fine target a w : acc [] [] w → fine (send p target a w).
Proof.
  intros H. apply take_scratch_cases; [done|]. clear w H. intros m w g H Hg. unfold try_send_message.
  destruct (guests w !! target) as [g'|] eqn:Hg'; [|apply replace_scratch_fine; eauto].
  destruct a; [by apply acc_deliver|apply replace_scratch_fine; eauto..].
Qed.

Lemma delete_arcs i l (m : Message) :
  l !! i = Some m → mjoin (message_arcs <$> l) ≡ₚ message_arcs m ++ mjoin (message_arcs <$> delete i l).
Proof. intros Hm. rewrite (delete_Permutation l i m Hm) at 1. done. Qed.

(** A message moves from the list of the process to its scratch area. *)
Lemma fetch_fine {A} w g i m (a : A) :
  acc [] [] w → guests w !! p = Some g → messages g !! i = Some m →
  fine ((let! _ := put p (set_messages (delete i (messages g)) g) in let! _ := replace_scratch p m in ret a) w).
Proof.
  intros H Hg Hm. erewrite bind_done by done. apply replace_scratch_fine; [|simpl; rewrite lookup_insert_eq; eauto|done].
  eapply acc_put; try done; [|exact (guest_tables _ _ _ _ _ H Hg)]. unfold guest_arcs. simpl.
  rewrite (delete_arcs i (messages g) m Hm). unfold scratch_arcs. simpl. solve_Permutation.
Qed.

Lemma receive_message_fine tags w : acc [] [] w → fine (receive_message p tags w).
Proof.
  intros H. apply data_cases; [done|]. intros g Hg. destruct (position _ _) as [i|] eqn:Hi; [|done].
  apply position_Some in Hi as (m & Hm & _). rewrite Hm. by apply fetch_fine.
Qed.

Lemma bind_fine {A B} (m : host A) (k : A → host B) w :
  fine (m w) → (∀ a w', acc [] [] w' → fine (k a w')) → fine (bind m k w).
Proof. intros Hm Hk. unfold bind. destruct (m w); simpl in *; [by apply Hk|done..]. Qed.

Lemma receive_fine ptr len timeout expired w :
  acc [] [] w → (checks = true → ptr + len * 8 <= u32_max) → fine (receive checks p ptr len timeout expired w).
Proof.
  intros H Hno. apply data_cases; [done|]. intros g Hg. apply bind_fine.
  - destruct (0 <? len); [|done]. apply or_trap_cases; [done|]. intros mem _.
    unfold receive_tags. destruct (checks && _) eqn:Hc; [|by apply or_trap_cases].
    apply andb_true_iff in Hc as [-> Hc]. bool_to_prop. specialize (Hno eq_refl). lia.
  - intros tags w' Hw. apply bind_fine; [by apply receive_message_fine|]. intros [r|] w'' Hw'; done.
Qed.

Lemma skip_search_fine tag i timeout expired w : acc [] [] w → fine (skip_search_message p tag i timeout expired w).
Proof.
  intros H. apply data_cases; [done|]. intros g Hg. destruct (messages g !! i) eqn:Hm; [|done].
  destruct (matches _ _); [|done]. by apply fetch_fine.
Qed.

(** Opening, cloning and dropping *)

Lemma reserve_lease_cases {A} w (k : unit → host A) :
  acc [] [] w → (∀ w', acc [] [p] w' → guests w' = guests w → fine (k tt w')) → fine (bind (reserve_lease p) k w).
Proof.
  intros H Hk. unfold bind, reserve_lease. destruct (quotas w !! p) as [c|] eqn:Hc; [|done]. simpl.
  destruct (network_reserve c) as [c'|] eqn:Hr; [|done]. apply Hk; [|done]. by eapply acc_reserve.
Qed.

Lemma open_begin_fine w : acc [] [] w → fine (open_begin p w).
Proof.
  intros H. apply data_cases; [done|]. intros g Hg. destruct (opening g) eqn:Ho; [done|].
  apply reserve_lease_cases; [done|]. intros w' Hw Hgs. rewrite <- Hgs in Hg. erewrite bind_done by by apply data_runs. simpl.
  eapply acc_shift; try done; [exact (guest_tables _ _ _ _ _ Hw Hg)|..].
  - rewrite count_cons, Z.eqb_refl. unfold opens, handles. simpl. rewrite Ho. lia.
  - intros q Hq. by rewrite count_cons, (proj2 (Z.eqb_neq p q)) by done.
  - intros q Hq. right. by right.
Qed.

Lemma open_end_fine k x w : acc [] [] w → roomy w → fine (open_end checks p k x w).
Proof.
  intros H Hroom. apply data_cases; [done|]. intros g Hg. destruct (opening g) eqn:Ho; [|done]. cbn [negb]. erewrite bind_done by done.
  assert (acc [] [p] (put_guest p (set_held (files g) (dns_iterators g) false g) w)) as Hw.
  { eapply acc_shift; try done; [exact (guest_tables _ _ _ _ _ H Hg)|..].
    - rewrite count_cons, Z.eqb_refl. unfold opens, handles. simpl. rewrite Ho. lia.
    - intros q Hq. by rewrite count_cons, (proj2 (Z.eqb_neq p q)) by done.
    - intros q [->|Hq]%elem_of_cons; eauto. }
  destruct x as [x|]; [|by apply acc_release]. erewrite bind_done by (apply data_runs; simpl; apply lookup_insert_eq).
  destruct (table_add_runs [] [] _ p (set_held (files g) (dns_iterators g) false g) k x checks Hw) as (id & w4 & Hadd & Hw4);
    [simpl; apply lookup_insert_eq|exact (proj1 (Hroom p g k Hg))|]. by erewrite bind_done by exact Hadd.
Qed.

Lemma clone_handle_fine k id w : acc [] [] w → roomy w → fine (clone_handle checks p k id w).
Proof.
  intros H Hroom. apply data_cases; [done|]. intros g Hg. apply or_trap_cases; [done|]. intros x _.
  apply reserve_lease_cases; [done|]. intros w' Hw Hgs. rewrite <- Hgs in Hg. erewrite bind_done by by apply data_runs.
  rewrite Hgs in Hg. edestruct (table_add_runs [] [] w' p g k x checks Hw) as (i & w4 & Hadd & Hw4);
    [by rewrite Hgs|exact (proj1 (Hroom p g k Hg))|]. by rewrite Hadd.
Qed.

(** The release of a handle that is dropped never fails. *)
Lemma drop_handle_fine k id w : acc [] [] w → fine (drop_handle p k id w).
Proof.
  intros H. apply data_cases; [done|]. intros g Hg. unfold HashMapId.remove. apply or_trap_cases; [done|]. intros x Hx.
  erewrite bind_done by done. pose proof (acc_remove _ _ _ _ _ k id x H Hg Hx) as Hrem.
  pose proof (acc_release _ _ _ _ Hrem) as Hrel. unfold release_quietly in Hrel. simpl in Hrel. simpl.
  destruct (quotas w !! p ≫= network_release) eqn:Hc; simpl; [done|]. exfalso.
  destruct (ac_local _ _ _ Hrem p ltac:(by left)) as [c Hq]. simpl in Hq. rewrite Hq in Hc. simpl in Hc.
  destruct (ac_quota _ _ _ Hrem p c Hq) as [Hok Hl]. rewrite count_cons, Z.eqb_refl in Hl.
  pose proof (leases_nonneg p (heap w)). pose proof (owner_count_nonneg p []). unfold quota_ok in Hok. unfold network_release in Hc.
  destruct (_ || _) eqn:Hz; [|done]. apply orb_true_iff in Hz as [Hz|Hz]; bool_to_prop; simpl in *; lia.
Qed.
(** File descriptors and iterators: the network units stay. *)
Lemma acc_quota_put w g g' c c' :
  acc [] [] w → guests w !! p = Some g → quotas w !! p = Some c → quota_ok c' →
  open_network_connections c' = open_network_connections c → guest_arcs g' = guest_arcs g →
  handles g' = handles g → opening g' = opening g → (∀ k, table k g' = table k g) →
  open_file_descriptors c' - files g' = open_file_descriptors c - files g →
  open_dns_iterators c' - dns_iterators g' = open_dns_iterators c - dns_iterators g →
  0 <= files g' → 0 <= dns_iterators g' →
  acc [] [] (put_guest p g' (set_quotas (<[p := c']> (quotas w)) w)).
Proof.
  intros H Hg Hc Hok Hn Ha Hh Ho Ht Hf Hd Hf0 Hd0. destruct H. destruct (ac_guest0 p g Hg) as (c0 & Hc0 & []). simplify_eq.
  split; simpl; try done.
  - intros q h [[<- <-] | [Hne Hq]]%lookup_insert_Some.
    + exists c'. rewrite lookup_insert_eq. split; [done|]. split; simpl; try done; unfold opens in *; rewrite ?Ho, ?Hh, ?Hn; try lia.
      intros k. by rewrite Ht.
    + rewrite lookup_insert_ne by done. destruct (ac_guest0 q h Hq) as (d & Hd' & []). exists d. split; [done|]. by split.
  - intros q d [[<- <-] | [Hne Hq]]%lookup_insert_Some; [|by eapply ac_quota0]. split; [done|]. rewrite Hn. by eapply ac_quota0.
  - intros a l Hl. apply lookup_insert_is_Some. destruct (decide (p = owner l)); eauto.
  - intros q Hq. by apply elem_of_nil in Hq.
  - rewrite <- ac_arcs0. apply Permutation_app_tail, (Permutation_app_inv_r (guest_arcs g)).
    rewrite (all_arcs_put p g g') by done. by rewrite Ha.
Qed.

Lemma held_fine f h w :
  acc [] [] w →
  (∀ g c c', guests w !! p = Some g → quota_ok c → 0 <= files g → 0 <= dns_iterators g →
     open_file_descriptors c = open_network_connections c + files g → open_dns_iterators c = dns_iterators g → f c = Some c' →
     quota_ok c' ∧ open_network_connections c' = open_network_connections c ∧ guest_arcs (h g) = guest_arcs g ∧
     handles (h g) = handles g ∧ opening (h g) = opening g ∧ (∀ k, table k (h g) = table k g) ∧
     open_file_descriptors c' - files (h g) = open_file_descriptors c - files g ∧
     open_dns_iterators c' - dns_iterators (h g) = open_dns_iterators c - dns_iterators g ∧
     0 <= files (h g) ∧ 0 <= dns_iterators (h g)) →
  fine (with_quota p f h w).
Proof.
  intros H Hfh. unfold with_quota. destruct (guests w !! p) as [g|] eqn:Hg; [|done].
  destruct (quotas w !! p) as [c|] eqn:Hc; [|done]. simpl. destruct (f c) as [c'|] eqn:Hf; [|done]. simpl.
  destruct (ac_guest _ _ _ H p g Hg) as (c0 & Hc0 & [Hn Hfd Hdns [Hf0 Hd0] _]). simplify_eq.
  destruct (ac_quota _ _ _ H p _ Hc) as [Hok _].
  destruct (Hfh g _ c' eq_refl Hok Hf0 Hd0 Hfd Hdns Hf) as (? & ? & ? & ? & ? & ? & ? & ? & ? & ?).
  by eapply acc_quota_put.
Qed.

Ltac solve_held Hf :=
  cbv beta delta [reserve_file_descriptor release_file_descriptor dns_reserve dns_release] in Hf;
  destruct (_ : bool) eqn:? in Hf; [done|]; injection Hf as <-; bool_to_prop;
  unfold quota_ok in *; simpl; split_and!; try done; lia.

Lemma open_file_fine w : acc [] [] w → fine (open_file p w).
Proof. intros H. apply held_fine; [done|]. intros g c c' Hg Hok Hf0 Hd0 Hfd Hdns Hf. solve_held Hf. Qed.

Lemma close_file_fine w : acc [] [] w → fine (close_file p w).
Proof.
  intros H. apply data_cases; [done|]. intros g0 Hg0. destruct (Z.eqb_spec (files g0) 0); [done|].
  apply held_fine; [done|]. intros g c c' Hg Hok Hf0 Hd0 Hfd Hdns Hf. simplify_eq. solve_held Hf.
Qed.

Lemma open_iterator_fine w : acc [] [] w → fine (open_iterator p w).
Proof. intros H. apply held_fine; [done|]. intros g c c' Hg Hok Hf0 Hd0 Hfd Hdns Hf. solve_held Hf. Qed.

Lemma close_iterator_fine w : acc [] [] w → fine (close_iterator p w).
Proof.
  intros H. apply data_cases; [done|]. intros g0 Hg0. destruct (Z.eqb_spec (dns_iterators g0) 0); [done|].
  apply held_fine; [done|]. intros g c c' Hg Hok Hf0 Hd0 Hfd Hdns Hf. simplify_eq. solve_held Hf.
Qed.
End calls.

(** ** Executions *)

(** What [receive] may be called with where the build has overflow checks. *)
Definition no_overflow (checks : bool) (c : HostCall) : Prop :=
  match c with CallReceive ptr len _ _ => checks = true → ptr + len * 8 <= u32_max | _ => True end.

Lemma receive_overflow checks p ptr len timeout expired w w' :
  after (receive checks p ptr len timeout expired w) = Some w' → acc [] [] w → acc [] [] w'.
Proof.
  intros Hr H. destruct (decide (checks = true ∧ u32_max < ptr + len * 8)) as [[-> Hlt]|Hno].
  - unfold receive, bind, data, or_trap in Hr. destruct (guests w !! p) as [g|] eqn:Hg; simpl in Hr; [|by simplify_eq].
    destruct (0 <? len) eqn:Hl; [|].
    + destruct (memory g); simpl in Hr; [|by simplify_eq]. unfold receive_tags in Hr.
      rewrite (proj2 (Z.ltb_lt _ _) Hlt) in Hr. done.
    + simpl in Hr. pose proof (receive_message_fine p None w H) as Hf. unfold bind in Hr.
      destruct (receive_message p None w) as [[r|] w1|w1|]; simpl in *; by simplify_eq.
  - pose proof (receive_fine checks p ptr len timeout expired w H) as Hf.
    assert (fine (receive checks p ptr len timeout expired w)) as Hf'.
    { apply Hf. intros ->. apply Z.nlt_ge. intros Hlt. by apply Hno. }
    destruct (receive _ _ _ _ _ _ _); simpl in *; by simplify_eq.
Qed.

Section executions.
Context {vec_alloc : VecAlloc} (checks : bool).

Lemma after_fine {A} (o : outcome A) : fine o → ∃ w, after o = Some w ∧ acc [] [] w.
Proof. destruct o; simpl; eauto. done. Qed.

Lemma host_call_acc p c w :
  acc [] [] w → roomy w → no_overflow checks c → ∃ w', host_call checks p c w = Some w' ∧ acc [] [] w'.
Proof.
  intros H Hroom Hc. destruct c; apply after_fine;
    eauto using create_data_fine, write_data_fine, read_data_fine, seek_data_fine, data_size_fine, push_module_fine,
      take_module_fine, push_handle_fine, take_handle_fine, send_fine, receive_fine, skip_search_fine, open_begin_fine,
      open_end_fine, clone_handle_fine, drop_handle_fine, open_file_fine, close_file_fine, open_iterator_fine, close_iterator_fine.
  - by apply (scratch_get_fine p (fun m => default 0 (message_tag m))).
  - by apply (scratch_get_fine p (fun m => default 0 (Message.process_id m))).
Qed.

Lemma host_call_keeps p c w w' : acc [] [] w → roomy w → host_call checks p c w = Some w' → acc [] [] w'.
Proof.
  intros H Hroom Hc. assert (no_overflow checks c → acc [] [] w') as Hgen.
  { intros Hn. destruct (host_call_acc p c w H Hroom Hn) as (x & Hx & Ha). by simplify_eq. }
  destruct c; try by apply Hgen. by eapply receive_overflow.
Qed.

Lemma acc_end w p g :
  acc [] [] w → guests w !! p = Some g →
  acc (guest_arcs g) (if opening g then [p] else []) (set_guests (delete p (guests w)) w).
Proof.
  intros [] Hg. destruct (ac_guest0 p g Hg) as (c & Hc & []). pose proof (handles_nonneg g).
  assert (∀ q, q ≠ p → count q (if opening g then [p] else []) = 0) as Hne.
  { intros q Hq. case_match; [|done]. by rewrite count_cons, (proj2 (Z.eqb_neq p q)). }
  split; simpl; try done.
  - intros q h [Hq Hh]%lookup_delete_Some. destruct (ac_guest0 q h Hh) as (d & Hd & []). exists d. split; [done|]. split; try done.
    rewrite Hne by done. rewrite count_nil in go_network1. done.
  - intros q d Hd. destruct (ac_quota0 q d Hd) as [? Hl]. split; [done|]. destruct (decide (q = p)) as [->|Hq].
    + simplify_eq. unfold opens in *. rewrite count_nil in *. case_match; rewrite ?count_cons, ?Z.eqb_refl, ?count_nil; lia.
    + by rewrite Hne.
  - intros q Hq. assert (q = p) as -> by (case_match; [by apply list_elem_of_singleton in Hq|by apply elem_of_nil in Hq]). by rewrite Hc.
  - rewrite <- ac_arcs0, app_nil_r. by apply all_arcs_delete.
Qed.

Lemma acc_drop_messages w l :
  acc (mjoin (message_arcs <$> l)) [] w → acc [] [] (foldl (fun w m => drop_message m w) w l).
Proof. revert w. induction l as [|m l IH]; intros w H; simpl in *; [done|]. by apply IH, acc_drop_message. Qed.

Lemma end_process_acc p w w' : acc [] [] w → end_process p w = Some w' → acc [] [] w'.
Proof.
  intros H. unfold end_process. destruct (guests w !! p) as [g|] eqn:Hg; [|done]. simpl. intros [= <-].
  pose proof (acc_end w p g H Hg) as He. apply acc_drop_messages.
  assert (∀ w, acc (guest_arcs g) [] w →
    acc (mjoin (message_arcs <$> messages g)) [] (match message_scratch_area g with Some m => drop_message m w | None => w end)) as Hs.
  { clear. intros w H. unfold guest_arcs, scratch_arcs in H. destruct (message_scratch_area g); [by apply acc_drop_message|done]. }
  apply Hs. destruct (opening g); [by apply acc_release|done].
Qed.

Lemma spawn_acc p l mem w w' :
  acc [] [] w → 0 <= lim_files l → 0 <= lim_network l → spawn p l mem w = Some w' → acc [] [] w'.
Proof.
  intros [] Hf Hn. unfold spawn. destruct (guests w !! p) eqn:Hg; [done|]. destruct (quotas w !! p) eqn:Hq; [done|]. intros [= <-].
  assert (leases p (heap w) = 0) as Hl.
  { apply leases_none. intros a l' Ha Ho. destruct (ac_owner0 a l' Ha) as [c Hc]. by rewrite Ho, Hq in Hc. }
  split; simpl; try done.
  - intros q g [[<- <-] | [Hne Hg']]%lookup_insert_Some.
    + eexists. split; [apply lookup_insert_eq|]. split; simpl; try done; [rewrite Hl; by vm_compute|].
      intros k. destruct k; apply HashMapId.new_wf.
    + rewrite lookup_insert_ne by done. destruct (ac_guest0 q g Hg') as (c & Hc & []). exists c. split; [done|]. by split.
  - intros q c [[<- <-] | [Hne Hc]]%lookup_insert_Some; [|by apply ac_quota0]. rewrite Hl, count_nil. unfold quota_ok. simpl. lia.
  - intros a l' Ha. apply lookup_insert_is_Some. destruct (decide (p = owner l')); eauto.
  - intros q Hq'. by apply elem_of_nil in Hq'.
  - rewrite <- ac_arcs0, all_arcs_new by done. done.
Qed.

Lemma start_acc : acc [] [] world_start.
Proof.
  assert (∀ A k (x : A), (∅ : gmap Z A) !! k = Some x → False) as He by (intros ? ? ?; by rewrite lookup_empty).
  split; simpl; try done; try (intros ? ? []%He).
  - intros q Hq. by apply elem_of_nil in Hq.
  - intros a [l []%He].
Qed.

Lemma reachable_acc w : rtc (world_step checks) world_start w → acc [] [] w.
Proof.
  intros Hr. eapply (rtc_invariant (world_step checks) (acc [] [])); [| |done]; [|apply start_acc].
  clear w Hr. intros w w' H [p l mem Hf Hn Hs|p He|p c Hroom Hc].
  - by eapply spawn_acc.
  - by eapply end_process_acc.
  - by eapply host_call_keeps.
Qed.
End executions.

(** ** Sends *)

(** The guest of a send, the message taken out and put back, is as it was. *)
Lemma send_restores p w g m (code : Z) :
  guests w !! p = Some g → message_scratch_area g = Some m →
  (let! _ := replace_scratch p m in ret code)%host (put_guest p (set_scratch None g) w) = Done code w.
Proof.
  intros Hg Hm. unfold bind, replace_scratch, bind, data, or_trap, put, modify. simpl. rewrite lookup_insert_eq. simpl.
  unfold put_guest, set_guests. simpl. rewrite insert_insert_eq. destruct w as [gs qs h n]. simpl in *.
  f_equal. f_equal. apply insert_id. rewrite Hg. f_equal. destruct g. simpl in *. by rewrite Hm.
Qed.

(** ** A run *)

Inductive Act : Type :=
| ActSpawn (p : Z) (l : Limits) (mem : option (list byte))
| ActEnd (p : Z)
| ActCall (p : Z) (c : HostCall).

Definition roomy_now (w : World) : bool :=
  forallb (fun x => forallb (fun k => id_seed (table k x.2) <? u64_max) kinds && (id_seed (module_resources x.2) <? u64_max))
    (map_to_list (guests w)).

Lemma roomy_now_ok w : roomy_now w = true → roomy w.
Proof.
  unfold roomy_now. rewrite forallb_forall. intros H p g k Hg.
  assert ((p, g) ∈ map_to_list (guests w)) as Hin%list_elem_of_In by by apply elem_of_map_to_list.
  apply H in Hin. apply andb_true_iff in Hin as [Hk Hm]. rewrite forallb_forall in Hk. simpl in *. bool_to_prop. split; [|done].
  assert (In k kinds) as Hin%Hk by (destruct k; simpl; tauto). by bool_to_prop.
Qed.

Definition act `{!VecAlloc} (checks : bool) (a : Act) (w : World) : option World :=
  match a with
  | ActSpawn p l mem => if (0 <=? lim_files l) && (0 <=? lim_network l) then spawn p l mem w else None
  | ActEnd p => end_process p w
  | ActCall p c => if roomy_now w then host_call checks p c w else None
  end.

Fixpoint acts `{!VecAlloc} (checks : bool) (l : list Act) (w : World) : option World :=
  match l with
  | [] => Some w
  | a :: l => w ← act checks a w; acts checks l w
  end.

Lemma acts_reach {vec_alloc : VecAlloc} checks l w w' : acts checks l w = Some w' → rtc (world_step checks) w w'.
Proof.
  revert w. induction l as [|a l IH]; intros w; simpl; [by intros [= ->]|].
  destruct (act checks a w) as [w1|] eqn:Ha; [|done]. simpl. intros H%IH. apply (rtc_l _ _ w1); [|done].
  destruct a as [p m mem|p|p c]; simpl in Ha.
  - destruct (_ && _) eqn:Hl in Ha; [|done]. apply andb_true_iff in Hl as [? ?]. bool_to_prop. by eapply StepSpawn.
  - by eapply StepEnd.
  - destruct (roomy_now w) eqn:Hr; [|done]. eapply StepCall; [by apply roomy_now_ok|done].
Qed.

(** A process connects twice, sends one stream away and ends; the receiver takes the stream out of
    the message and clones it, and a last message with a socket stays in its scratch area. *)
Definition run_limits : Limits := mkLimits 100 4 2 8 4.
Definition run_acts : list Act :=
  [ActSpawn 1 run_limits None; ActSpawn 2 run_limits None;
   ActCall 1 CallOpenBegin; ActCall 1 (CallOpenEnd KTcpStream (Some 70));
   ActCall 1 CallOpenBegin; ActCall 1 (CallOpenEnd KUdpSocket (Some 71));
   ActCall 1 (CallCreateData 5 10 true); ActCall 1 (CallPushHandle KTcpStream 0 true); ActCall 1 (CallSend 2 Refused);
   ActCall 1 (CallSend 2 Accepted); ActCall 1 (CallCreateData 6 10 true); ActCall 1 (CallPushHandle KUdpSocket 0 true);
   ActCall 1 (CallSend 2 Accepted); ActEnd 1;
   ActCall 2 (CallReceive 0 0 u64_max false); ActCall 2 (CallTakeHandle KTcpStream 0); ActCall 2 (CallCloneHandle KTcpStream 0);
   ActCall 2 (CallReceive 0 0 u64_max false); ActCall 2 CallOpenFile].
Definition run_world (n : nat) : World := default world_start (@acts vec_alloc_doubling true (take n run_acts) world_start).

Lemma run_world_reach n :
  is_Some (@acts vec_alloc_doubling true (take n run_acts) world_start) →
  rtc (@world_step vec_alloc_doubling true) world_start (run_world n).
Proof. intros [w Hw]. unfold run_world. rewrite Hw. by eapply acts_reach. Qed.

(** C16. Whatever processes open, clone, attach to messages, send, receive, take out and drop,
    and whenever they end with messages still queued: the quota of a live process counts exactly
    the handles in its tables, those it attached to messages that nobody has taken, and the one
    it is opening, and its file descriptors and address iterators likewise; no quota is ever
    exceeded; every leased handle is in exactly one slot of one message of a live process, so
    none is leaked or shared; and no host call panics, but for the arithmetic of [receive] in a
    build with overflow checks. *)
Theorem network_handles_accounted {vec_alloc : VecAlloc} checks w :
  rtc (world_step checks) world_start w →
  (∀ p g, guests w !! p = Some g → ∃ c, quotas w !! p = Some c ∧
     open_network_connections c = handles g + leases p (heap w) + opens g ∧
     open_file_descriptors c = open_network_connections c + files g ∧
     open_dns_iterators c = dns_iterators g) ∧
  (∀ p c, quotas w !! p = Some c →
     0 <= open_network_connections c <= max_network_connections c ∧
     0 <= open_file_descriptors c <= max_file_descriptors c ∧
     0 <= open_dns_iterators c <= max_dns_iterators c ∧
     leases p (heap w) <= open_network_connections c) ∧
  NoDup (all_arcs (guests w)) ∧ (∀ a, a ∈ all_arcs (guests w) ↔ is_Some (heap w !! a)) ∧
  (∀ p c, roomy w → no_overflow checks c → is_Some (host_call checks p c w)).
Proof.
  intros Hr. pose proof (reachable_acc checks w Hr) as H. split_and!.
  - intros p g Hg. destruct (ac_guest _ _ _ H p g Hg) as (c & Hc & []). exists c. rewrite count_nil in *. split_and!; try done. lia.
  - intros p c Hc. destruct (ac_quota _ _ _ H p c Hc) as [Hq Hl]. rewrite count_nil in *. unfold quota_ok in Hq. lia.
  - pose proof (acc_nodup _ _ _ H) as Hn. by rewrite app_nil_r in Hn.
  - intros a. pose proof (acc_heap_arcs _ _ _ a H) as Ha. by rewrite app_nil_r in Ha.
  - intros p c Hroom Hno. destruct (host_call_acc checks p c w H Hroom Hno) as (w' & -> & _). eauto.
Qed.

Lemma network_handles_accounted_witness :
  is_Some (@acts vec_alloc_doubling true run_acts world_start) ∧
  (∃ c, quotas (run_world 19) !! 2 = Some c ∧ open_network_connections c = 2) ∧
  NoDup (all_arcs (guests (run_world 19))) ∧ is_Some (@host_call vec_alloc_doubling true 2 CallCloseFile (run_world 19)).
Proof.
  destruct (@network_handles_accounted vec_alloc_doubling true (run_world 19)) as (Hg & Hq & Hn & Ha & Hc).
  { apply run_world_reach. vm_compute. eauto. }
  assert (∃ g, guests (run_world 19) !! 2 = Some g ∧ handles g = 2 ∧ opening g = false) as (g & Hg2 & Hh & Ho).
  { eexists. split; [vm_compute; reflexivity|]. by vm_compute. }
  split_and!.
  - vm_compute. eauto.
  - destruct (Hg 2 g Hg2) as (c & Hq2 & He & _). exists c. split; [exact Hq2|]. rewrite He, Hh. unfold opens. rewrite Ho. by vm_compute.
  - exact Hn.
  - apply Hc; [apply roomy_now_ok; by vm_compute|exact I].
Defined.

(** A send with a message in the scratch area: a missing or closed receiver answers 1 and a
    full one 2, and in both cases the whole state is as before, the message with its handles
    still in the scratch area; otherwise the answer is 0, the message is the last one of the
    receiver, exactly once, and no quota changes. *)
Theorem send_all_or_nothing p target a w g m :
  guests w !! p = Some g → message_scratch_area g = Some m →
  match send p target a w with
  | Done 0 w' =>
      a = Accepted ∧ message_scratch_area <$> guests w' !! p = Some None ∧
      (messages <$> guests w' !! target = (fun h => messages h ++ [m]) <$> guests w !! target) ∧
      quotas w' = quotas w ∧ heap w' = heap w ∧
      (∀ q, q ≠ p → q ≠ target → guests w' !! q = guests w !! q)
  | Done code w' => w' = w ∧ code = match guests w !! target, a with None, _ | _, Closed => 1 | _, _ => 2 end
  | Trapped _ | HostPanic => False
  end.
Proof.
  intros Hg Hm. unfold send. erewrite bind_done;
    [|unfold take_scratch, bind; rewrite (data_runs _ _ _ Hg); by rewrite Hm].
  unfold try_send_message. simpl.
  destruct (decide (target = p)) as [->|Hne].
  - rewrite lookup_insert_eq, Hg. destruct a; unfold restore_failed_message;
      [|by rewrite (send_restores p w g m) by done..]. simpl.
    rewrite !lookup_insert_eq. split_and!; try done. intros q Hq _. by rewrite !lookup_insert_ne by done.
  - rewrite lookup_insert_ne by done. destruct (guests w !! target) as [h|] eqn:Hh; [|by rewrite (send_restores p w g m) by done].
    destruct a; unfold restore_failed_message; [|by rewrite (send_restores p w g m) by done..]. simpl.
    rewrite !lookup_insert_eq, (lookup_insert_ne _ target p), lookup_insert_eq by done. split_and!; try done.
    intros q Hq Ht. by rewrite !lookup_insert_ne by done.
Qed.

Lemma send_all_or_nothing_witness :
  ∃ g m, guests (run_world 8) !! 1 = Some g ∧ message_scratch_area g = Some m ∧ message_arcs m = [0] ∧
    send 1 2 Refused (run_world 8) = Done 2 (run_world 8) ∧
    match send 1 2 Accepted (run_world 8) with
    | Done 0 w' => messages <$> guests w' !! 2 = Some [m]
    | _ => False
    end.
Proof.
  assert (∃ g m, guests (run_world 8) !! 1 = Some g ∧ message_scratch_area g = Some m ∧ message_arcs m = [0]) as (g & m & Hg & Hm & Ha).
  { do 2 eexists. split; [vm_compute; reflexivity|]. split; [reflexivity|]. by vm_compute. }
  assert (∃ h, guests (run_world 8) !! 2 = Some h ∧ messages h = []) as (h & Hh & He).
  { eexists. split; [vm_compute; reflexivity|reflexivity]. }
  exists g, m. split; [exact Hg|]. split; [exact Hm|]. split; [exact Ha|]. split.
  - pose proof (send_all_or_nothing 1 2 Refused (run_world 8) g m Hg Hm) as H. rewrite Hh in H.
    destruct (send 1 2 Refused (run_world 8)) as [code w'|w'|]; [|destruct H..].
    destruct code as [|c|c]; [destruct H as [H _]; discriminate H|destruct H as [-> ->]; reflexivity..].
  - pose proof (send_all_or_nothing 1 2 Accepted (run_world 8) g m Hg Hm) as H. rewrite Hh in H.
    assert (∃ w', send 1 2 Accepted (run_world 8) = Done 0 w') as [w' Hs]. { eexists. vm_compute. reflexivity. }
    rewrite Hs in *. destruct H as (_ & _ & H & _). rewrite H. simpl. rewrite He. reflexivity.
Defined.

(** The tags of [receive] are in the range from [tag_ptr] to [tag_ptr + tag_len * 8], computed
    at 32 bits. With a pointer of 0 and 2^29 tags, 4 GiB, the call does not trap, however small the
    memory is: where overflow is checked the host panics; otherwise the range and the list of
    tags are empty, and the call waits for a message that cannot be, whatever is in the mailbox,
    until its timeout. *)
Theorem receive_range_wraps p w g mem timeout expired :
  guests w !! p = Some g → memory g = Some mem →
  receive true p 0 (2 ^ 29) timeout expired w = HostPanic ∧
  receive false p 0 (2 ^ 29) timeout expired w =
    Done (if expired && negb (timeout =? u64_max) then Some 9027 else None) w.
Proof.
  intros Hg Hmem. assert (receive_message p (Some []) w = Done None w) as Hr.
  { unfold receive_message. erewrite bind_done by by apply data_runs.
    rewrite (proj2 (position_None _ _)); [done|]. apply Forall_true. intros x. simpl. by destruct (message_tag x). }
  assert (receive_tags false 0 (2 ^ 29) mem = Some (Some [])) as Ht.
  { unfold receive_tags. change ((0 + 2 ^ 29 * 8) mod 2 ^ 32) with 0. simpl.
    assert (slice mem 0 0 = Some []) as ->; [|done]. unfold slice. by rewrite (proj2 (Z.leb_le 0 (Z.of_nat (length mem)))) by lia. }
  unfold receive. split; erewrite bind_done by (by apply data_runs); change (0 <? 2 ^ 29) with true; cbv iota; rewrite Hmem.
  - done.
  - unfold or_trap at 1. erewrite bind_done; [|erewrite bind_done by done; rewrite Ht; done].
    by erewrite bind_done by exact Hr.
Qed.

Lemma receive_range_wraps_witness :
  receive true 1 0 (2 ^ 29) u64_max false (mkWorld {[1 := new_guest run_limits (Some [x00])]} ∅ ∅ 0) = HostPanic.
Proof. eapply (receive_range_wraps 1 _ (new_guest run_limits (Some [x00])) [x00]); reflexivity. Defined.
