(* ===== verification/GenEvent.v ===== *)
(** * [crates/lunatic-otp-patterns/src/gen_event.rs]: event managers

    A manager holds named handlers; [notify] runs all of them on an event and reports what
    became of each.  A manager that was moved into a native process is notified from other
    threads through handles: a notification puts the sending end of a channel into the table
    [pending] under a new number, checks that the process runs, sends the event and waits
    on the channel.  Unlike a generic server the process has no guard: the exit status is
    set, the pending notifications answered and the waiting threads woken by the task that
    joined the process, after its ingress was closed.

    The model interleaves the accesses of the process, of the joining task and of any number
    of clients to what they share.  A handler is opaque: [run h e n] is what its run number
    [n] on the event [e] comes to.  Others may send signals and messages to the process, but
    no forged notifications.  Theorems: [GenEventOk]. *)

From S2P Require Import Prelude GenServer.

(** ** The manager *)

Inductive HandlerOutcome : Type :=
| Succeeded
| Failed (error : string)
| Panicked (message : string)
| RuntimeFailed (error : string).

Definition is_success (o : HandlerOutcome) : bool := match o with Succeeded => true | _ => false end.

(** What becomes of a delivery: the handler returns or panics, or its task fails. *)
Inductive Delivery : Type :=
| Returns (r : result unit string)
| Panics (message : string)
| TaskFails (error : string).

(** [run_handler] and [delivery_outcome] *)
Definition delivery_outcome (d : Delivery) : HandlerOutcome :=
  match d with
  | Returns (Ok _) => Succeeded
  | Returns (Err error) => Failed error
  | Panics message => Panicked message
  | TaskFails error => RuntimeFailed error
  end.

Abbreviation NotifyReport := (gmap string HandlerOutcome).

Definition all_succeeded (r : NotifyReport) : bool := forallb (fun x => is_success x.2) (map_to_list r).

Inductive GenEventMessage (E : Type) : Type :=
| Notify (event : E) (reply_to : Z)
| Stop.
Arguments Notify {E}.
Arguments Stop {E}.

Section manager.
Context {E Handler : Type} (run : Handler → E → Z → Delivery).

Abbreviation Handlers := (gmap string Handler).

Definition add_handler (id : string) (h : Handler) (m : Handlers) : Handlers := <[id := h]> m.
Definition remove_handler (id : string) (m : Handlers) : bool * Handlers := (bool_decide (is_Some (m !! id)), delete id m).
Definition which_handlers (m : Handlers) : list string := (map_to_list m).*1.
Definition count_handlers (m : Handlers) : nat := size m.

(** The snapshot of the handlers, their deliveries, and the report. *)
Definition notify (n : Z) (event : E) (m : Handlers) : NotifyReport :=
  let deliveries := (fun x => (x.1, run x.2 event n)) <$> map_to_list m in
  foldl (fun report x => <[x.1 := delivery_outcome x.2]> report) ∅ deliveries.

Definition notify_handler (n : Z) (id : string) (event : E) (m : Handlers) : option HandlerOutcome :=
  h ← m !! id; Some (delivery_outcome (run h event n)).
End manager.

(** ** Threads *)

(** The future of the process and the loop around it: [TLoop] waits for a message; [TNotify]
    waits for the handlers; [TReply] has the report. *)
Inductive Task (E : Type) : Type :=
| TLoop
| TNotify (event : E) (reply_to : Z)
| TReply (reply_to : Z) (report : NotifyReport)
| TUnregister (outcome : result unit string)
| TClose (outcome : result unit string)
| TEnded (outcome : result unit string).
Arguments TLoop {E}.
Arguments TNotify {E}.
Arguments TReply {E}.
Arguments TUnregister {E}.
Arguments TClose {E}.
Arguments TEnded {E}.

(** The joining task, in [finish] from [JFinish] on. *)
Inductive Join : Type := JWait | JFinish (r : result unit string) | JDrain (r : result unit string) | JNotify | JDone.

Inductive Operation (E : Type) : Type :=
| OpNotify (event : E)
| OpStop
| OpKill
| OpWait (timeout : option Z).
Arguments OpNotify {E}.
Arguments OpStop {E}.
Arguments OpKill {E}.
Arguments OpWait {E}.

Inductive HandleError : Type :=
| HasStopped
| HasTerminated (error : string)
| NotInEnvironment
| SerializeFailed
| SendFailed
| NotifyTimedOut
| NotifyDisconnected
| NotifyFailed (error : string)
| ExitTimedOut
| ExitFailed (error : string).

Inductive Outcome : Type :=
| Report (r : NotifyReport)
| Done
| Error (e : HandleError).

(** [PEnsure again k]: the [k]-th read of [ensure_running], the one of [notify] or the one of
    [send]. *)
Inductive Pc : Type :=
| PEnsure (again : bool) (k : nat)
| PTakeId
| PInsert
| PSend
| PTimeout
| PRecv (deadline : option Z)
| PCancel (e : HandleError)
| PWaitExit
| PCheck (deadline : option Z)
| PBlocked (deadline : option Z) (notified : bool)
| PReturned (o : Outcome).

Record Client (E : Type) : Type := mkClient {
  operation : Operation E;
  timeout_ms : option Z;
  pc : Pc;
  request_id : option Z;
  channel : list (result NotifyReport string);
}.
Arguments mkClient {E}.
Arguments operation {E}.
Arguments timeout_ms {E}.
Arguments pc {E}.
Arguments request_id {E}.
Arguments channel {E}.

Section process.
Context {E Handler : Type} (run : Handler → E → Z → Delivery) (handlers : gmap string Handler).
Context `{!Bincode (GenEventMessage E)}.
Abbreviation Client := (Client E).

Definition at_pc (p : Pc) (c : Client) : Client := mkClient (operation c) (timeout_ms c) p (request_id c) (channel c).
Definition at_id (p : Pc) (id : Z) (c : Client) : Client := mkClient (operation c) (timeout_ms c) p (Some id) (channel c).
Definition at_channel (p : Pc) (l : list (result NotifyReport string)) (c : Client) : Client :=
  mkClient (operation c) (timeout_ms c) p (request_id c) l.

Record Manager : Type := mkManager {
  now : Z;
  next_request_id : Z;
  pending : gmap Z nat;
  exit : option (result unit string);
  registered : bool;
  ingress : list MailboxMessage;
  ingress_open : bool;
  kill_pending : bool;
  mailbox : list MailboxMessage;
  task : Task E;
  join : Join;
  clients : list Client;
}.

Definition set_now (x : Z) (s : Manager) : Manager :=
  mkManager x (next_request_id s) (pending s) (exit s) (registered s) (ingress s) (ingress_open s) (kill_pending s)
    (mailbox s) (task s) (join s) (clients s).
Definition set_next_request_id (x : Z) (s : Manager) : Manager :=
  mkManager (now s) x (pending s) (exit s) (registered s) (ingress s) (ingress_open s) (kill_pending s)
    (mailbox s) (task s) (join s) (clients s).
Definition set_pending (x : gmap Z nat) (s : Manager) : Manager :=
  mkManager (now s) (next_request_id s) x (exit s) (registered s) (ingress s) (ingress_open s) (kill_pending s)
    (mailbox s) (task s) (join s) (clients s).
Definition set_exit (x : option (result unit string)) (s : Manager) : Manager :=
  mkManager (now s) (next_request_id s) (pending s) x (registered s) (ingress s) (ingress_open s) (kill_pending s)
    (mailbox s) (task s) (join s) (clients s).
Definition set_registered (x : bool) (s : Manager) : Manager :=
  mkManager (now s) (next_request_id s) (pending s) (exit s) x (ingress s) (ingress_open s) (kill_pending s)
    (mailbox s) (task s) (join s) (clients s).
Definition set_ingress (x : list MailboxMessage) (s : Manager) : Manager :=
  mkManager (now s) (next_request_id s) (pending s) (exit s) (registered s) x (ingress_open s) (kill_pending s)
    (mailbox s) (task s) (join s) (clients s).
Definition close_ingress (s : Manager) : Manager :=
  mkManager (now s) (next_request_id s) (pending s) (exit s) (registered s) [] false (kill_pending s)
    (mailbox s) (task s) (join s) (clients s).
Definition set_kill_pending (x : bool) (s : Manager) : Manager :=
  mkManager (now s) (next_request_id s) (pending s) (exit s) (registered s) (ingress s) (ingress_open s) x
    (mailbox s) (task s) (join s) (clients s).
Definition set_mailbox (x : list MailboxMessage) (s : Manager) : Manager :=
  mkManager (now s) (next_request_id s) (pending s) (exit s) (registered s) (ingress s) (ingress_open s) (kill_pending s)
    x (task s) (join s) (clients s).
Definition set_task (x : Task E) (s : Manager) : Manager :=
  mkManager (now s) (next_request_id s) (pending s) (exit s) (registered s) (ingress s) (ingress_open s) (kill_pending s)
    (mailbox s) x (join s) (clients s).
Definition set_join (x : Join) (s : Manager) : Manager :=
  mkManager (now s) (next_request_id s) (pending s) (exit s) (registered s) (ingress s) (ingress_open s) (kill_pending s)
    (mailbox s) (task s) x (clients s).
Definition set_clients (x : list Client) (s : Manager) : Manager :=
  mkManager (now s) (next_request_id s) (pending s) (exit s) (registered s) (ingress s) (ingress_open s) (kill_pending s)
    (mailbox s) (task s) (join s) x.

(** ** [GenEventShared] *)

Definition send_reply (r : result NotifyReport string) (c : Client) : Client :=
  match pc c with PReturned _ => c | p => at_channel p (channel c ++ [r]) c end.

(** [reply] *)
Definition answer (id : Z) (r : result NotifyReport string) (s : Manager) : Manager :=
  match pending s !! id with
  | Some i => set_clients (alter (send_reply r) i (clients s)) (set_pending (delete id (pending s)) s)
  | None => s
  end.

Definition pending_error (r : result unit string) : string :=
  match r with Ok _ => "GenEvent stopped" | Err error => error end.

(** [finish]: the status, the pending notifications, the wake-ups *)
Definition finish_status (r : result unit string) (s : Manager) : option Manager :=
  match exit s with Some _ => None | None => Some (set_exit (Some r) s) end.

Definition drain_client (ids : gmap Z nat) (r : result NotifyReport string) (i : nat) (c : Client) : Client :=
  if bool_decide (map_Exists (fun _ j => j = i) ids) then send_reply r c else c.

Definition finish_drain (r : result unit string) (s : Manager) : Manager :=
  set_clients (imap (drain_client (pending s) (Err (pending_error r))) (clients s)) (set_pending ∅ s).

Definition notify_client (c : Client) : Client :=
  match pc c with PBlocked deadline _ => at_pc (PBlocked deadline true) c | _ => c end.

Definition finish_notify (s : Manager) : Manager := set_clients (notify_client <$> clients s) s.

(** ** The process *)

(** A turn of the loop for a message *)
Definition on_message (m : MailboxMessage) : Task E :=
  match m with
  | MmData b =>
      match deserialize b with
      | Some (Notify event reply_to) => TNotify event reply_to
      | Some Stop => TUnregister (Ok tt)
      | None => TUnregister (Err "invalid GenEvent message")
      end
  | MmLinkDied | MmProcessDied _ => TLoop
  end.

(** [n]: the number of the run of the handlers. *)
Definition task_step (n : Z) (s : Manager) : option Manager :=
  match task s with
  | TLoop =>
      match mailbox s with
      | [] => None
      | m :: rest => Some (set_task (on_message m) (set_mailbox rest s))
      end
  | TNotify event reply_to => Some (set_task (TReply reply_to (notify run n event handlers)) s)
  | TReply reply_to report => Some (set_task TLoop (answer reply_to (Ok report) s))
  | TUnregister outcome => Some (set_task (TClose outcome) (set_registered false s))
  | TClose outcome => Some (set_task (TEnded outcome) (close_ingress s))
  | TEnded _ => None
  end.

(** The loop takes a signal while the future waits, for a message or for the handlers. *)
Definition awaiting (t : Task E) : bool := match t with TLoop | TNotify _ _ => true | _ => false end.

Definition loop_step (s : Manager) : option Manager :=
  match ingress s with
  | m :: rest => if awaiting (task s) then Some (set_mailbox (mailbox s ++ [m]) (set_ingress rest s)) else None
  | [] => None
  end.

Definition kill_step (s : Manager) : option Manager :=
  if kill_pending s && awaiting (task s) then Some (set_task (TUnregister (Err "Process killed")) s) else None.

Definition join_step (s : Manager) : option Manager :=
  match join s with
  | JWait => match task s with TEnded r => Some (set_join (JFinish r) s) | _ => None end
  | JFinish r =>
      Some (match finish_status r s with
            | Some s => set_join (JDrain r) s
            | None => set_join JDone s
            end)
  | JDrain r => Some (set_join JNotify (finish_drain r s))
  | JNotify => Some (set_join JDone (finish_notify s))
  | JDone => None
  end.

(** ** Handles *)

Definition begin_client (o : Operation E) (timeout : option Z) : Client :=
  mkClient o timeout (match o with OpWait _ => PWaitExit | _ => PEnsure (match o with OpStop => true | _ => false end) 1 end) None [].

(** After [ensure_running] *)
Definition running_pc (again : bool) (o : Operation E) : Pc :=
  match o, again with OpNotify _, false => PTakeId | _, _ => PSend end.

Definition stopped_error (r : result unit string) : HandleError :=
  match r with Ok _ => HasStopped | Err error => HasTerminated error end.

(** An error of [ensure_running] or of the send; [notify] cancels its reply in the second one. *)
Definition failed_pc (again : bool) (o : Operation E) (e : HandleError) : Pc :=
  match o, again with OpNotify _, true => PCancel e | _, _ => PReturned (Error e) end.

Definition message_of (o : Operation E) (id : option Z) : option (GenEventMessage E) :=
  match o, id with
  | OpNotify event, Some id => Some (Notify event id)
  | OpStop, _ => Some Stop
  | _, _ => None
  end.

Definition send_operation (accept : bool) (c : Client) (s : Manager) : result Manager HandleError :=
  match operation c with
  | OpKill => if ingress_open s && accept then Ok (set_kill_pending true s) else Err SendFailed
  | o =>
      match (m ← message_of o (request_id c); serialize m) with
      | None => Err SerializeFailed
      | Some b => if ingress_open s && accept then Ok (set_ingress (ingress s ++ [MmData b]) s) else Err SendFailed
      end
  end.

Definition sent_pc (o : Operation E) : Pc := match o with OpNotify _ => PTimeout | _ => PWaitExit end.

Definition received (r : result NotifyReport string) : Outcome :=
  match r with Ok report => Report report | Err error => Error (NotifyFailed error) end.

Definition exit_timeout (c : Client) : option Z :=
  match operation c with OpWait timeout => timeout | _ => from_millis <$> timeout_ms c end.

(** [kill] ignores how the process ended. *)
Definition exited (o : Operation E) (r : result unit string) : Outcome :=
  match o, r with OpKill, _ | _, Ok _ => Done | _, Err error => Error (ExitFailed error) end.

(** One step of client [i].  [choice]: the ingress has room; a thread that waits for the exit wakes
    up although it was not notified. *)
Definition client_step (choice : bool) (i : nat) (c : Client) (s : Manager) : option Manager :=
  let go c s := Some (set_clients (<[i := c]> (clients s)) s) in
  match pc c with
  | PEnsure again 1 =>
      match exit s with
      | Some r => go (at_pc (failed_pc again (operation c) (stopped_error r)) c) s
      | None => go (at_pc (PEnsure again 2) c) s
      end
  | PEnsure again 2 =>
      match exit s with
      | Some _ => go (at_pc (failed_pc again (operation c) NotInEnvironment) c) s
      | None => go (at_pc (PEnsure again 3) c) s
      end
  | PEnsure again _ =>
      if registered s then go (at_pc (running_pc again (operation c)) c) s
      else go (at_pc (failed_pc again (operation c) NotInEnvironment) c) s
  | PTakeId =>
      let id := next_request_id s in
      go (at_id PInsert id c) (set_next_request_id ((id + 1) mod 2 ^ 64) s)
  | PInsert =>
      id ← request_id c;
      go (at_pc (PEnsure true 1) c) (set_pending (<[id := i]> (pending s)) s)
  | PSend =>
      match send_operation choice c s with
      | Ok s => go (at_pc (sent_pc (operation c)) c) s
      | Err e => go (at_pc (failed_pc true (operation c) e) c) s
      end
  | PTimeout => go (at_pc (PRecv ((fun ms => now s + from_millis ms) <$> timeout_ms c)) c) s
  | PRecv deadline =>
      id ← request_id c;
      match channel c with
      | r :: rest => go (at_channel (PReturned (received r)) rest c) s
      | [] =>
          if bool_decide (pending s !! id = Some i) then
            if passed deadline (now s) then go (at_pc (PCancel NotifyTimedOut) c) s else None
          else go (at_pc (PCancel NotifyDisconnected) c) s
      end
  | PCancel e =>
      id ← request_id c;
      go (at_pc (PReturned (Error e)) c) (set_pending (delete id (pending s)) s)
  | PWaitExit => go (at_pc (PCheck (Z.add (now s) <$> exit_timeout c)) c) s
  | PCheck deadline =>
      match exit s with
      | Some r => go (at_pc (PReturned (exited (operation c) r)) c) s
      | None =>
          if expired deadline (now s) then go (at_pc (PReturned (Error ExitTimedOut)) c) s
          else go (at_pc (PBlocked deadline false) c) s
      end
  | PBlocked deadline notified =>
      if notified || choice || passed deadline (now s) then go (at_pc (PCheck deadline) c) s else None
  | PReturned _ => None
  end.

(** ** Everything together *)

Definition notify_id (m : MailboxMessage) : option (E * Z) :=
  match m with
  | MmData b => match deserialize b with Some (Notify event id) => Some (event, id) | _ => None end
  | _ => None
  end.

Inductive Action : Type :=
| ATick (elapsed : Z)
| ATask (n : Z)
| AJoin
| ALoop
| AKill
| AOtherMessage (m : MailboxMessage)
| AOtherKill
| ABegin (o : Operation E) (timeout : option Z)
| AClient (i : nat) (choice : bool).

Definition manager_exec (a : Action) (s : Manager) : option Manager :=
  match a with
  | ATick elapsed => if 0 <=? elapsed then Some (set_now (now s + elapsed) s) else None
  | ATask n => task_step n s
  | AJoin => join_step s
  | ALoop => loop_step s
  | AKill => kill_step s
  | AOtherMessage m =>
      match notify_id m with
      | Some _ => None
      | None => if ingress_open s then Some (set_ingress (ingress s ++ [m]) s) else None
      end
  | AOtherKill => Some (if ingress_open s then set_kill_pending true s else s)
  | ABegin o timeout => Some (set_clients (clients s ++ [begin_client o timeout]) s)
  | AClient i choice => c ← clients s !! i; client_step choice i c s
  end.

Definition manager_step (s s' : Manager) : Prop := ∃ a, manager_exec a s = Some s'.

(** [spawn]: the process is registered before the handle exists. *)
Definition manager_start : Manager := mkManager 0 1 ∅ None true [] true false [] TLoop JWait [].

Fixpoint manager_run (l : list Action) (s : Manager) : option Manager :=
  match l with
  | [] => Some s
  | a :: l => s ← manager_exec a s; manager_run l s
  end.
End process.
