(* ===== verification/GenEventOk.v ===== *)
(** * Theorems on event managers

    Every notification is answered: with the report of its own event over all handlers, or
    with the reason why the manager ended.  Since the table is drained only after the ingress
    was closed and a notification checks the exit status again after it entered the table,
    none is left behind, with a timeout or without. *)

From S2P Require Import Prelude GenServer GenEvent.

(** ** Reports *)

Lemma report_insert {A} (f : A → HandlerOutcome) (l : list (string * A)) (r : NotifyReport) k :
  NoDup l.*1 → (∀ k, k ∈ l.*1 → r !! k = None) →
  foldl (fun report x => <[x.1 := f x.2]> report) r l !! k =
    match (list_to_map l : gmap string A) !! k with Some a => Some (f a) | None => r !! k end.
Proof.
  revert r. induction l as [|[k' a] l IH]; intros r Hnd Hr; simpl in *; [by rewrite lookup_empty|].
  apply NoDup_cons in Hnd as [Hni Hnd]. rewrite IH; [|done|].
  - destruct (decide (k = k')) as [->|Hne]; [|by rewrite !lookup_insert_ne by done].
    rewrite lookup_insert_eq, (not_elem_of_list_to_map_1 (M := gmap string)) by done. by rewrite lookup_insert_eq.
  - intros x Hx. rewrite lookup_insert_ne; [apply Hr; by right|]. intros ->. done.
Qed.

Lemma notify_lookup {E Handler} (run : Handler → E → Z → Delivery) n e (m : gmap string Handler) k :
  notify run n e m !! k = (fun h => delivery_outcome (run h e n)) <$> m !! k.
Proof.
  unfold notify. rewrite report_insert.
  - rewrite lookup_empty. destruct (m !! k) as [h|] eqn:Hk.
    + erewrite (elem_of_list_to_map_1 (M := gmap string)); [done| |].
      * rewrite <- list_fmap_compose. apply NoDup_fst_map_to_list.
      * apply list_elem_of_fmap. exists (k, h). split; [done|]. by apply elem_of_map_to_list.
    + rewrite (not_elem_of_list_to_map_1 (M := gmap string)); [done|].
      rewrite <- list_fmap_compose. intros ([k' h] & -> & Hin%elem_of_map_to_list)%list_elem_of_fmap. simpl in *. congruence.
  - rewrite <- list_fmap_compose. apply NoDup_fst_map_to_list.
  - intros x _. apply lookup_empty.
Qed.

Section ok.
Context {E Handler : Type} (run : Handler → E → Z → Delivery) (handlers : gmap string Handler).
Context `{!Bincode (GenEventMessage E)}.
Abbreviation Client := (Client E).
Abbreviation Manager := (Manager (E := E)).
Abbreviation step := (manager_step run handlers).
Implicit Types (s : Manager) (c : Client).

(** ** The invariant *)

Definition is_notify (o : Operation E) : Prop := match o with OpNotify _ => True | _ => False end.

(** The request is in the ingress or the mailbox or is being handled, or the process is ending. *)
Definition flying s (id : Z) : Prop :=
  (∃ m ev, m ∈ mailbox s ++ ingress s ∧ notify_id m = Some (ev, id)) ∨
  match task s with
  | TLoop => False
  | TNotify _ id' | TReply id' _ => id = id'
  | TUnregister _ | TClose _ | TEnded _ => True
  end.

(** An answer is the report of the own event or the reason of the end. *)
Definition answer_ok (ex : option (result unit string)) c (r : result NotifyReport string) : Prop :=
  match r with
  | Ok report => ∃ ev n, operation c = OpNotify ev ∧ report = notify run n ev handlers
  | Err e => ∃ x, ex = Some x ∧ e = pending_error x
  end.

Definition drained (j : Join) : Prop := match j with JNotify | JDone => True | _ => False end.

(** The errors that a notification finds by itself; its channel is never closed without an answer. *)
Definition own_error (e : HandleError) : Prop :=
  match e with NotifyDisconnected | NotifyFailed _ => False | _ => True end.

(** A notification without a number, and any other operation. *)
Definition plain_ok (j : Join) (ex : option (result unit string)) c : Prop :=
  channel c = [] ∧
  match pc c with
  | PEnsure true _ | PSend | PWaitExit | PCheck _ => ¬ is_notify (operation c)
  | PBlocked _ notified => ¬ is_notify (operation c) ∧ (notified = false → j ≠ JDone)
  | PEnsure false _ => True
  | PTakeId => is_notify (operation c)
  | PReturned Done => is_Some ex
  | PReturned (Error e) => own_error e
  | _ => False
  end.

(** A notification with a number: it has its entry in the table or its answer. *)
Definition slot (P : gmap Z nat) i c (id : Z) : Prop :=
  (P !! id = Some i ∧ channel c = []) ∨ (P !! id = None ∧ ∃ r, channel c = [r]).

Definition numbered_ok (P : gmap Z nat) (j : Join) (F : Z → Prop) ex i c (id : Z) : Prop :=
  is_notify (operation c) ∧ (∀ r, r ∈ channel c → answer_ok ex c r) ∧
  match pc c with
  | PInsert => P !! id = None ∧ channel c = []
  | PEnsure true 1 => slot P i c id
  | PEnsure true _ | PSend => slot P i c id ∧ (P !! id = Some i → ¬ drained j)
  | PTimeout | PRecv _ => slot P i c id ∧ (P !! id = Some i → ¬ drained j ∧ F id)
  | PCancel e => (P !! id = Some i ∨ P !! id = None) ∧ own_error e
  | PReturned (Report r) => P !! id = None ∧ answer_ok ex c (Ok r)
  | PReturned (Error (NotifyFailed x)) => P !! id = None ∧ answer_ok ex c (Err x)
  | PReturned (Error e) => P !! id = None ∧ own_error e
  | _ => False
  end.

Definition client_ok P j F ex i c : Prop :=
  match request_id c with None => plain_ok j ex c | Some id => numbered_ok P j F ex i c id end.

Definition ended s : Prop := ∃ o, task s = TEnded o.

Definition phase s : Prop :=
  (ended s → ingress_open s = false) ∧
  match join s with
  | JWait => exit s = None
  | JFinish _ => exit s = None ∧ ended s
  | JDrain r => exit s = Some r ∧ ended s
  | JNotify | JDone => is_Some (exit s) ∧ ended s
  end.

(** Some client asked for [ev] under the number [id]. *)
Definition asked (l : list Client) (ev : E) (id : Z) : Prop :=
  ∃ i c, l !! i = Some c ∧ request_id c = Some id ∧ operation c = OpNotify ev.

Definition ids s : list Z := omap request_id (clients s).

Record good s : Prop := {
  g_phase : phase s;
  g_next : next_request_id s = 1 + Z.of_nat (length (ids s));
  g_unique : ∀ i j ci cj id, clients s !! i = Some ci → clients s !! j = Some cj →
    request_id ci = Some id → request_id cj = Some id → i = j;
  g_range : ∀ i c id, clients s !! i = Some c → request_id c = Some id → id < next_request_id s;
  g_client : ∀ i c, clients s !! i = Some c → client_ok (pending s) (join s) (flying s) (exit s) i c;
  g_pending : ∀ id i, pending s !! id = Some i → ∃ c, clients s !! i = Some c ∧ request_id c = Some id;
  g_messages : ∀ m ev id, m ∈ mailbox s ++ ingress s → notify_id m = Some (ev, id) → asked (clients s) ev id;
  g_task : match task s with
           | TNotify ev id => asked (clients s) ev id
           | TReply id r => ∃ ev n, asked (clients s) ev id ∧ r = notify run n ev handlers
           | _ => True
           end;
}.

(** ** Framing *)

Lemma client_ok_mono P j F F' ex i c :
  (∀ id, P !! id = Some i → F id → F' id) → client_ok P j F ex i c → client_ok P j F' ex i c.
Proof.
  intros HF. unfold client_ok. destruct (request_id c) as [id|]; [|done]. intros (Hn & Ha & H). split_and!; try done.
  destruct (pc c); try done; destruct H as [Hs H]; split; try done; intros Hp; destruct (H Hp); split; auto.
Qed.

(** Steps that leave the clients, the table and the joining task alone. *)
Lemma ev_good_frame s s' :
  good s → clients s' = clients s → pending s' = pending s → next_request_id s' = next_request_id s → join s' = join s →
  exit s' = exit s → phase s' → (∀ id, is_Some (pending s !! id) → flying s id → flying s' id) →
  (∀ m ev id, m ∈ mailbox s' ++ ingress s' → notify_id m = Some (ev, id) → asked (clients s) ev id) →
  match task s' with
  | TNotify ev id => asked (clients s) ev id
  | TReply id r => ∃ ev n, asked (clients s) ev id ∧ r = notify run n ev handlers
  | _ => True
  end → good s'.
Proof.
  intros [] Ec Ep En Ej Ee Hph Hf Hm Ht. unfold asked in *.
  split; unfold ids, asked in *; rewrite ?Ec, ?Ep, ?En, ?Ej, ?Ee; try done.
  intros i c Hc. eapply client_ok_mono; [|by apply g_client0]. intros id Hp. apply Hf. by rewrite Hp.
Qed.

Lemma ids_update s i c c' :
  clients s !! i = Some c → request_id c' = request_id c → omap request_id (<[i := c']> (clients s)) = ids s.
Proof.
  intros Hi Eq. unfold ids. rewrite <- (take_drop_middle (clients s) i c Hi).
  rewrite insert_app_r_alt; rewrite length_take_le; try (apply lookup_lt_Some in Hi; lia).
  rewrite Nat.sub_diag. simpl. rewrite !omap_app. simpl. by rewrite Eq.
Qed.

Lemma asked_update s i c c' ev id :
  clients s !! i = Some c → request_id c' = request_id c → operation c' = operation c →
  asked (clients s) ev id → asked (<[i := c']> (clients s)) ev id.
Proof.
  intros Hc Ei Eo (j & cj & Hj & Hid & Hop). destruct (decide (i = j)) as [<-|Hne].
  - exists i, c'. simpl. rewrite list_lookup_insert_eq by (by eapply lookup_lt_Some). simplify_eq. by rewrite Ei, Eo.
  - exists j, cj. simpl. by rewrite list_lookup_insert_ne.
Qed.

(** The entry of another client is another one. *)
Lemma client_ok_table P P' j F ex i c :
  (∀ id, request_id c = Some id → P' !! id = P !! id) → client_ok P j F ex i c → client_ok P' j F ex i c.
Proof.
  intros HP. unfold client_ok. destruct (request_id c) as [id|]; [|done]. unfold numbered_ok, slot. by rewrite (HP id eq_refl).
Qed.

(** One client goes on; the table changes at most at its number. *)
Lemma good_update s i c c' P' :
  good s → clients s !! i = Some c → request_id c' = request_id c → operation c' = operation c →
  client_ok P' (join s) (flying s) (exit s) i c' →
  (∀ id, request_id c ≠ Some id → P' !! id = pending s !! id) →
  (∀ id, request_id c = Some id → P' !! id = None ∨ P' !! id = Some i) →
  good (set_clients (<[i := c']> (clients s)) (set_pending P' s)).
Proof.
  intros [] Hc Ei Eo Hok Hsame Hown. split; simpl; try done.
  - unfold ids. simpl. by rewrite (ids_update s i c c').
  - intros j k cj ck id Hj Hk Ij Ik. apply list_lookup_insert_Some in Hj, Hk.
    destruct Hj as [(-> & <- & _) | [_ Hj]], Hk as [(-> & <- & _) | [_ Hk]]; try done; rewrite ?Ei in *; by eapply g_unique0.
  - intros j cj id Hj Ij. apply list_lookup_insert_Some in Hj as [(-> & <- & _) | [_ Hj]]; rewrite ?Ei in *; eauto.
  - intros j cj Hj. apply list_lookup_insert_Some in Hj as [(-> & <- & _) | [Hne Hj]]; [done|].
    eapply client_ok_table; [|by apply g_client0]. intros id Hid. apply Hsame. intros Hid'. apply Hne. by eapply g_unique0.
  - intros id j Hp. destruct (decide (request_id c = Some id)) as [Hid|Hid].
    + destruct (Hown id Hid) as [Hn|Hs]; [congruence|]. rewrite Hs in Hp. injection Hp as <-. exists c'.
      rewrite list_lookup_insert_eq by (by eapply lookup_lt_Some). by rewrite Ei.
    + rewrite Hsame in Hp by done. destruct (g_pending0 id j Hp) as (cj & Hj & Ij). exists cj.
      rewrite list_lookup_insert_ne; [done|]. intros <-. congruence.
  - intros m ev id Hm Hid. apply (asked_update _ _ c); eauto.
  - destruct (task s); try done; [by apply (asked_update _ _ c)|]. destruct g_task0 as (ev & n & Ha & Hr). exists ev, n.
    split; [by apply (asked_update _ _ c)|done].
Qed.

(** The table stays as it is. *)
Lemma good_move s i c p :
  good s → clients s !! i = Some c → client_ok (pending s) (join s) (flying s) (exit s) i (at_pc p c) →
  good (set_clients (<[i := at_pc p c]> (clients s)) s).
Proof.
  intros G Hc Hok. assert (s = set_pending (pending s) s) as Es by by destruct s. rewrite Es at 2.
  apply (good_update s i c); try done. intros id Hid. destruct (pending s !! id) as [j|] eqn:Hp; [|by left]. right.
  destruct (g_pending s G id j Hp) as (cj & Hj & Ij). f_equal. symmetry. by eapply (g_unique s G).
Qed.

(** ** Clients *)

Definition few s : Prop := Z.of_nat (length (clients s)) < 2 ^ 64 - 1.

Lemma omap_at_most {A B} (f : A → option B) l : (length (omap f l) <= length l)%nat.
Proof. induction l as [|a l IH]; csimpl; [done|]. destruct (f a); simpl; lia. Qed.

Lemma ids_new s i c c' id :
  clients s !! i = Some c → request_id c = None → request_id c' = Some id →
  length (omap request_id (<[i := c']> (clients s))) = S (length (ids s)).
Proof.
  intros Hi E1 E2. unfold ids. rewrite <- (take_drop_middle (clients s) i c Hi).
  rewrite insert_app_r_alt; rewrite length_take_le; try (apply lookup_lt_Some in Hi; lia).
  rewrite Nat.sub_diag. simpl. rewrite !omap_app. simpl. rewrite E1, E2. rewrite !length_app. simpl. lia.
Qed.

(** A notification takes its number. *)
Lemma good_number s i c :
  few s → good s → clients s !! i = Some c → pc c = PTakeId →
  good (set_clients (<[i := at_id PInsert (next_request_id s) c]> (clients s))
          (set_next_request_id ((next_request_id s + 1) mod 2 ^ 64) s)).
Proof.
  intros Hf G Hc Hpc. pose proof (g_client s G i c Hc) as Hok. unfold client_ok in Hok.
  destruct (request_id c) as [id|] eqn:Hid; [destruct Hok as (_ & _ & Hok); by rewrite Hpc in Hok|].
  destruct Hok as [Hch Hop]. rewrite Hpc in Hop. destruct (G) as [].
  assert ((next_request_id s + 1) mod 2 ^ 64 = next_request_id s + 1) as Hn.
  { apply Z.mod_small. unfold few in Hf. rewrite g_next0.
    pose proof (ids_new s i c (at_id PInsert 0 c) 0 Hc Hid eq_refl) as Hl.
    pose proof (omap_at_most request_id (<[i := at_id PInsert 0 c]> (clients s))) as Hs. rewrite Hl, length_insert in Hs. lia. }
  assert (pending s !! next_request_id s = None) as Hfree.
  { destruct (pending s !! next_request_id s) as [j|] eqn:Hp; [|done]. destruct (g_pending0 _ _ Hp) as (cj & Hj & Ij).
    pose proof (g_range0 j cj _ Hj Ij). lia. }
  assert (∀ ev id, asked (clients s) ev id → asked (<[i := at_id PInsert (next_request_id s) c]> (clients s)) ev id) as Hask.
  { intros ev id (j & cj & Hj & Ij & Oj). exists j, cj. rewrite list_lookup_insert_ne; [done|]. intros <-. congruence. }
  rewrite Hn. split; simpl; try done.
  - unfold ids. simpl. rewrite (ids_new s i c _ (next_request_id s)) by done. rewrite g_next0. lia.
  - intros j k cj ck id Hj Hk Ij Ik. apply list_lookup_insert_Some in Hj, Hk.
    destruct Hj as [(-> & <- & _) | [Nj Hj]], Hk as [(-> & <- & _) | [Nk Hk]]; try done; simpl in *; simplify_eq.
    + pose proof (g_range0 k ck _ Hk Ik). lia.
    + pose proof (g_range0 j cj _ Hj Ij). lia.
    + by eapply g_unique0.
  - intros j cj id Hj Ij. apply list_lookup_insert_Some in Hj as [(-> & <- & _) | [_ Hj]]; simpl in *; simplify_eq; [lia|].
    pose proof (g_range0 j cj id Hj Ij). lia.
  - intros j cj Hj. apply list_lookup_insert_Some in Hj as [(-> & <- & _) | [_ Hj]]; [|by apply g_client0].
    unfold client_ok, numbered_ok. simpl. rewrite Hch. split_and!; try done. intros r Hr. by apply not_elem_of_nil in Hr.
  - intros id j Hp. destruct (g_pending0 id j Hp) as (cj & Hj & Ij). exists cj. rewrite list_lookup_insert_ne; [done|].
    intros <-. congruence.
  - intros m ev id Hm Hid'. by eapply Hask, g_messages0.
  - destruct (task s); try done; [by apply Hask|]. destruct g_task0 as (ev & n & Ha & Hr). exists ev, n. by split; [apply Hask|].
Qed.

(** A notification enters the table. *)
Lemma good_insert s i c id :
  good s → clients s !! i = Some c → pc c = PInsert → request_id c = Some id →
  good (set_clients (<[i := at_pc (PEnsure true 1) c]> (clients s)) (set_pending (<[id := i]> (pending s)) s)).
Proof.
  intros G Hc Hpc Hid. pose proof (g_client s G i c Hc) as Hok. unfold client_ok in Hok. rewrite Hid in Hok.
  destruct Hok as (Hn & Ha & Hok). rewrite Hpc in Hok. destruct Hok as [Hp Hch].
  apply (good_update s i c); try done.
  - unfold client_ok. simpl. rewrite Hid. split_and!; try done. left. by rewrite lookup_insert_eq.
  - intros id' Hne. apply lookup_insert_ne. congruence.
  - intros id' Heq. right. simplify_eq. apply lookup_insert_eq.
Qed.

(** A notification leaves the table. *)
Lemma good_cancel s i c id e :
  good s → clients s !! i = Some c → pc c = PCancel e → request_id c = Some id →
  good (set_clients (<[i := at_pc (PReturned (Error e)) c]> (clients s)) (set_pending (delete id (pending s)) s)).
Proof.
  intros G Hc Hpc Hid. pose proof (g_client s G i c Hc) as Hok. unfold client_ok in Hok. rewrite Hid in Hok.
  destruct Hok as (Hn & Ha & Hok). rewrite Hpc in Hok. destruct Hok as [_ Hok].
  apply (good_update s i c); try done.
  - unfold client_ok. simpl. rewrite Hid. split_and!; try done; simpl. pose proof (lookup_delete_eq (pending s) id). by destruct e.
  - intros id' Hne. apply lookup_delete_ne. congruence.
  - intros id' Heq. left. simplify_eq. apply lookup_delete_eq.
Qed.

(** A notification takes its answer. *)
Lemma good_receive s i c id r rest deadline :
  good s → clients s !! i = Some c → pc c = PRecv deadline → request_id c = Some id → channel c = r :: rest →
  good (set_clients (<[i := at_channel (PReturned (received r)) rest c]> (clients s)) s).
Proof.
  intros G Hc Hpc Hid Hch. pose proof (g_client s G i c Hc) as Hok. unfold client_ok in Hok. rewrite Hid in Hok.
  destruct Hok as (Hn & Ha & Hok). rewrite Hpc in Hok. destruct Hok as [[[_ Hs]|[Hp [r' Hs]]] _]; [congruence|].
  assert (s = set_pending (pending s) s) as Es by by destruct s. rewrite Es at 2.
  apply (good_update s i c); try done.
  - unfold client_ok. simpl. rewrite Hid. simplify_eq. split_and!; try done; simpl.
    + intros x Hx. apply Ha. rewrite Hch. by right.
    + assert (answer_ok (exit s) c r) as Hr by (apply Ha; rewrite Hch; by left). by destruct r.
  - intros id' Heq. left. by simplify_eq.
Qed.

(** What is sent by a client. *)
Lemma good_ingress s l :
  good s → (∀ m ev id, m ∈ l → notify_id m = Some (ev, id) → asked (clients s) ev id) →
  good (set_ingress (ingress s ++ l) s).
Proof.
  intros G Hl. apply (ev_good_frame s); try done.
  - apply G.
  - intros id _ [(m & ev & Hm & Hid)|Ht]; [left; exists m, ev; split; [|done]; simpl; rewrite app_assoc, elem_of_app; by left|by right].
  - intros m ev id Hm Hid. simpl in Hm. rewrite app_assoc in Hm. apply elem_of_app in Hm as [Hm|Hm]; [by eapply (g_messages s G)|by eapply Hl].
  - apply (g_task s G).
Qed.
Lemma not_drained s : phase s → exit s = None → ¬ drained (join s).
Proof. intros [_ H] He Hd. destruct (join s); try done; destruct H as [[x Hx] _]; congruence. Qed.

Lemma slot_entry P i c id : slot P i c id → P !! id = Some i ∨ P !! id = None.
Proof. intros [[H _]|[H _]]; auto. Qed.

(** The cases of a client at [Hpc] that goes to another place. *)
Ltac at_place Hok Hpc :=
  unfold client_ok, numbered_ok, plain_ok, slot in *; simpl in *; rewrite Hpc in Hok;
  destruct (request_id _) as [id|]; [destruct Hok as (Hn & Ha & Hok)|destruct Hok as [Hch Hok]].

Lemma ensure_fails s i c again k e :
  good s → clients s !! i = Some c → pc c = PEnsure again k → own_error e →
  client_ok (pending s) (join s) (flying s) (exit s) i (at_pc (failed_pc again (operation c) e) c).
Proof.
  intros G Hc Hpc He. pose proof (g_client s G i c Hc) as Hok. at_place Hok Hpc.
  - destruct again; [|done]. destruct (operation c); try done. simpl. split_and!; try done.
    destruct k as [|[|k]]; [destruct Hok as [[[]|[]] _]|destruct Hok as [[]|[]]|destruct Hok as [[[]|[]] _]]; auto.
  - split; [done|]. destruct again, (operation c); simpl; try done.
Qed.

Lemma ensure_goes_on s i c again k :
  good s → clients s !! i = Some c → pc c = PEnsure again k → exit s = None → k ≠ 0%nat →
  client_ok (pending s) (join s) (flying s) (exit s) i (at_pc (PEnsure again (S k)) c).
Proof.
  intros G Hc Hpc He Hk. pose proof (g_client s G i c Hc) as Hok. pose proof (not_drained s (g_phase s G) He) as Hd. at_place Hok Hpc.
  - destruct again; [|done]. split_and!; try done. destruct k as [|[|k]]; [done|by split|by destruct Hok].
  - by split.
Qed.

Lemma ensure_passes s i c again k :
  good s → clients s !! i = Some c → pc c = PEnsure again k → k ≠ 1%nat →
  client_ok (pending s) (join s) (flying s) (exit s) i (at_pc (running_pc again (operation c)) c).
Proof.
  intros G Hc Hpc Hk. pose proof (g_client s G i c Hc) as Hok. at_place Hok Hpc.
  - destruct again; [|done]. assert (running_pc true (operation c) = PSend) as -> by by destruct (operation c).
    split; [done|]. split; [done|]. by destruct k as [|[|k]].
  - split; [done|]. destruct again, (operation c); simpl; try done; naive_solver.
Qed.

(** A send, whether it is accepted or not. *)
Lemma send_ok s i c choice s' :
  good s → clients s !! i = Some c → pc c = PSend →
  match send_operation choice c s with
  | Ok s => Some (set_clients (<[i := at_pc (sent_pc (operation c)) c]> (clients s)) s)
  | Err e => Some (set_clients (<[i := at_pc (failed_pc true (operation c) e) c]> (clients s)) s)
  end = Some s' → good s'.
Proof.
  intros G Hc Hpc Hs. pose proof (g_client s G i c Hc) as Hok.
  assert (∀ e, own_error e → client_ok (pending s) (join s) (flying s) (exit s) i (at_pc (failed_pc true (operation c) e) c)) as Hfail.
  { intros e He. at_place Hok Hpc.
    - destruct Hok as [Hok _]. destruct (operation c); try done. simpl. split_and!; try done. apply (slot_entry _ _ c). done.
    - split; [done|]. destruct (operation c); try done. }
  unfold send_operation in Hs. destruct (operation c) as [ev| | |t] eqn:Hop.
  - destruct (request_id c) as [id|] eqn:Hid; simpl in Hs; [|injection Hs as <-; apply good_move; try done; by apply Hfail].
    destruct (serialize (Notify ev id)) as [b|] eqn:Hb; [|injection Hs as <-; apply good_move; try done; by apply Hfail].
    destruct (ingress_open s && choice); [|injection Hs as <-; apply good_move; try done; by apply Hfail].
    injection Hs as <-. assert (notify_id (MmData b) = Some (ev, id)) as Hm by (simpl; by rewrite (deserialize_serialize _ _ Hb)).
    assert (good (set_ingress (ingress s ++ [MmData b]) s)) as G'.
    { apply good_ingress; [done|]. intros m ev' id' ->%list_elem_of_singleton Hm'. simplify_eq. by exists i, c. }
    apply (good_move (set_ingress (ingress s ++ [MmData b]) s) i c); try done. unfold client_ok in *. simpl. rewrite Hid in *. destruct Hok as (Hn & Ha & Hok).
    rewrite Hpc in Hok. destruct Hok as [Hsl Hd]. split; [done|]. split; [done|]. split; [done|]. intros Hp. split; [by apply Hd|]. left. exists (MmData b), ev.
    split; [|done]. simpl. rewrite !elem_of_app, list_elem_of_singleton. auto.
  - simpl in Hs. destruct (serialize Stop) as [b|] eqn:Hb; [|injection Hs as <-; apply good_move; try done; by apply Hfail].
    destruct (ingress_open s && choice); [|injection Hs as <-; apply good_move; try done; by apply Hfail].
    injection Hs as <-. assert (good (set_ingress (ingress s ++ [MmData b]) s)) as G'.
    { apply good_ingress; [done|]. intros m ev' id' ->%list_elem_of_singleton Hm'. simpl in Hm'. by rewrite (deserialize_serialize _ _ Hb) in Hm'. }
    apply (good_move (set_ingress (ingress s ++ [MmData b]) s) i c); try done. at_place Hok Hpc; [by rewrite Hop in Hn|by split].
  - destruct (ingress_open s && choice); [|injection Hs as <-; apply good_move; try done; by apply Hfail].
    injection Hs as <-. assert (good (set_kill_pending true s)) as G' by (apply (ev_good_frame s); try done; apply G).
    apply (good_move (set_kill_pending true s) i c); try done. at_place Hok Hpc; [by rewrite Hop in Hn|by split].
  - simpl in Hs. injection Hs as <-. apply good_move; try done; by apply Hfail.
Qed.
Lemma ev_client_good choice i c s s' :
  few s → good s → clients s !! i = Some c → client_step choice i c s = Some s' → good s'.
Proof.
  intros Hf G Hc Hs. pose proof (g_client s G i c Hc) as Hok. unfold client_step in Hs.
  destruct (pc c) as [again k| | | | |deadline|e| |deadline|deadline notified|o] eqn:Hpc.
  - destruct k as [|[|[|k]]].
    + destruct (registered s); injection Hs as <-; apply good_move; try done; [by eapply ensure_passes|by eapply ensure_fails].
    + destruct (exit s) as [r|] eqn:He; injection Hs as <-; apply good_move; try done.
      * eapply ensure_fails; try done. by destruct r.
      * by eapply ensure_goes_on.
    + destruct (exit s) as [r|] eqn:He; injection Hs as <-; apply good_move; try done.
      * by eapply ensure_fails.
      * by eapply ensure_goes_on.
    + destruct (registered s); injection Hs as <-; apply good_move; try done; [by eapply ensure_passes|by eapply ensure_fails].
  - injection Hs as <-. by apply good_number.
  - destruct (request_id c) as [id|] eqn:Hid; [|done]. injection Hs as <-. by apply good_insert.
  - by eapply send_ok.
  - injection Hs as <-. apply good_move; try done. at_place Hok Hpc; [|by destruct Hok]. split; [done|]. by split.
  - destruct (request_id c) as [id|] eqn:Hid; [|done]. simpl in Hs. destruct (channel c) as [|r rest] eqn:Hch.
    + unfold client_ok in Hok. rewrite Hid in Hok. destruct Hok as (Hn & Ha & Hok). rewrite Hpc in Hok.
      destruct Hok as [[[Hp _]|[_ [x Hx]]] Hok]; [|congruence]. rewrite bool_decide_true in Hs by done.
      destruct (passed deadline (now s)); [|done]. injection Hs as <-. apply good_move; try done.
      unfold client_ok. simpl. rewrite Hid. split; [done|]. split; [done|]. simpl. auto.
    + injection Hs as <-. by eapply good_receive.
  - destruct (request_id c) as [id|] eqn:Hid; [|done]. injection Hs as <-. by apply good_cancel.
  - injection Hs as <-. apply good_move; try done. at_place Hok Hpc; [done|]. by split.
  - destruct (exit s) as [r|] eqn:He; [|destruct (expired deadline (now s))]; injection Hs as <-; apply good_move; try done; rewrite ?He.
    + at_place Hok Hpc; [done|]. split; [done|]. destruct (operation c), r; simpl; try done; eauto.
    + at_place Hok Hpc; [done|]. by split.
    + pose proof (not_drained s (g_phase s G) He) as Hd. at_place Hok Hpc; [done|]. split; [done|]. split; [done|]. intros _ Hj. by rewrite Hj in Hd.
  - destruct (notified || choice || passed deadline (now s)); [|done]. injection Hs as <-. apply good_move; try done.
    at_place Hok Hpc; [done|]. destruct Hok as [Hok _]. by split.
  - done.
Qed.

(** ** The process *)

Lemma ended_flies s id : match task s with TUnregister _ | TClose _ | TEnded _ => True | _ => False end → flying s id.
Proof. intros H. right. by destruct (task s). Qed.

Lemma phase_task s t :
  phase s → ¬ ended s → (∀ o, t ≠ TEnded o) → phase (set_task t s).
Proof.
  intros [He H] Hn Ht. split; simpl; [intros [o Ho]; by apply Ht in Ho|]. destruct (join s); try done; by destruct H as [_ H].
Qed.

(** The future or the loop around it goes on. *)
Lemma good_task s t :
  good s → ¬ ended s → (∀ o, t ≠ TEnded o) → (∀ id, is_Some (pending s !! id) → flying s id → flying (set_task t s) id) →
  match t with
  | TNotify ev id => asked (clients s) ev id
  | TReply id r => ∃ ev n, asked (clients s) ev id ∧ r = notify run n ev handlers
  | _ => True
  end → good (set_task t s).
Proof.
  intros G Hn Ht Hf Ha. apply (ev_good_frame s); try done; [apply phase_task; [apply G|done..]|]. intros m ev id. apply (g_messages s G).
Qed.

Lemma ev_pop_good s m rest : good s → task s = TLoop → mailbox s = m :: rest → good (set_task (on_message m) (set_mailbox rest s)).
Proof.
  intros G Ht Hm. assert (¬ ended s) as Hn by (intros [o Ho]; congruence).
  apply (ev_good_frame s); try done.
  - destruct (phase_task s (on_message m) (g_phase s G) Hn) as [H1 H2]; [|by split].
    intros o. unfold on_message. repeat case_match; congruence.
  - intros id _ [(m' & ev & Hin & Hid)|H]; [|by rewrite Ht in H]. rewrite Hm in Hin. simpl in Hin.
    apply elem_of_cons in Hin as [->|Hin]; [|left; by exists m', ev].
    right. simpl. unfold notify_id in Hid. destruct m as [b| |]; try done. simpl. destruct (deserialize b) as [[]|]; by simplify_eq.
  - intros m' ev id Hin. apply (g_messages s G). rewrite Hm. by right.
  - simpl. pose proof (g_messages s G m) as Hasked. unfold on_message. destruct m as [b| |]; try done. simpl in Hasked.
    destruct (deserialize b) as [[ev id|]|]; try done. apply Hasked; [|done]. rewrite Hm. by left.
Qed.
(** A notification with an entry is answered, and the entry removed. *)
Lemma answered_ok P P' j j' F F' ex i c id r :
  numbered_ok P j F ex i c id → P !! id = Some i → P' !! id = None → answer_ok ex c r →
  numbered_ok P' j' F' ex i (send_reply r c) id.
Proof.
  intros (Hn & Ha & H) Hp Hp' Hr.
  assert (∀ l, channel c = [] → l = channel c ++ [r] → slot P' i (at_channel (pc c) l c) id) as Hslot.
  { intros l Hch ->. right. split; [done|]. exists r. simpl. by rewrite Hch. }
  assert (slot P i c id → channel c = []) as Hempty by (intros [[_ H']|[H' _]]; [done|congruence]).
  assert (∀ x, x ∈ channel c ++ [r] → answer_ok ex c x) as Hall.
  { intros x [Hx | ->%list_elem_of_singleton]%elem_of_app; auto. }
  unfold send_reply, numbered_ok. destruct (pc c) as [[] [|[|k]]| | | | |d|e| |d|d n|[rep| |[]]] eqn:Hpc;
    try done; try (destruct H as [H _]; congruence);
    (split; [done|]; split; [done|]); simpl; rewrite ?Hp'; try (split; [|done]); auto;
    destruct H; auto.
Qed.

Lemma send_reply_same r c : request_id (send_reply r c) = request_id c ∧ operation (send_reply r c) = operation c.
Proof. unfold send_reply. by destruct (pc c). Qed.

Lemma ev_answer_good s id r :
  good s → task s = TReply id r → good (set_task TLoop (answer id (Ok r) s)).
Proof.
  intros G Ht. assert (¬ ended s) as Hn by (intros [o Ho]; congruence). pose proof (g_task s G) as Hr. rewrite Ht in Hr.
  destruct Hr as (ev & n & (i & c & Hc & Hid & Hop) & ->).
  assert (∀ s', mailbox s' = mailbox s → ingress s' = ingress s → task s' = task s → pending s' !! id = None →
    ∀ id', is_Some (pending s' !! id') → flying s' id' → flying (set_task TLoop s') id') as Hfly.
  { intros s' Em Ei Et Hnone id' [k Hk] [H|H]; [by left|]. rewrite Et, Ht in H. congruence. }
  unfold answer. destruct (pending s !! id) as [k|] eqn:Hp; [|apply good_task; auto].
  destruct (g_pending s G id k Hp) as (ck & Hk & Ik). assert (i = k) as <- by (by eapply (g_unique s G)). simplify_eq.
  assert (alter (send_reply (Ok (notify run n ev handlers))) i (clients s) =
    <[i := send_reply (Ok (notify run n ev handlers)) c]> (clients s)) as ->.
  { apply list_eq. intros x. destruct (decide (i = x)) as [<-|Hne].
    - rewrite list_lookup_alter_eq, list_lookup_insert_eq by (by eapply lookup_lt_Some). by rewrite Hc.
    - by rewrite list_lookup_alter_ne, list_lookup_insert_ne. }
  destruct (send_reply_same (Ok (notify run n ev handlers)) c) as [Es Eo].
  assert (good (set_clients (<[i := send_reply (Ok (notify run n ev handlers)) c]> (clients s)) (set_pending (delete id (pending s)) s))) as G'.
  { apply (good_update s i c); try done.
    - pose proof (g_client s G i c Hc) as Hok. unfold client_ok in *. rewrite Es, Hid in *.
      eapply answered_ok; try done; [apply lookup_delete_eq|]. by exists ev, n.
    - intros id' Hne. apply lookup_delete_ne. congruence.
    - intros id' Heq. left. simplify_eq. apply lookup_delete_eq. }
  apply good_task; try done. apply Hfly; try done. apply lookup_delete_eq.
Qed.

Lemma ev_task_good n s s' : good s → task_step run handlers n s = Some s' → good s'.
Proof.
  intros G Hs. unfold task_step in Hs. destruct (task s) as [|ev id|id r|o|o|o] eqn:Ht.
  - destruct (mailbox s) as [|m rest] eqn:Hm; [done|]. injection Hs as <-. by apply ev_pop_good.
  - injection Hs as <-. pose proof (g_task s G) as Ha. rewrite Ht in Ha. apply good_task; try done.
    + intros [o Ho]; congruence.
    + intros id' _ [H|H]; [by left|]. rewrite Ht in H. by right.
    + by exists ev, n.
  - injection Hs as <-. by apply ev_answer_good.
  - injection Hs as <-. assert (good (set_registered false s)) as G' by (apply (ev_good_frame s); try done; apply G).
    apply good_task; try done; [intros [o' Ho]; simpl in Ho; congruence|]. intros id _ _. by apply ended_flies.
  - injection Hs as <-. apply (ev_good_frame s); try done.
    + destruct (g_phase s G) as [_ H]. split; [done|]. simpl. unfold ended in *. simpl. rewrite Ht in H.
      destruct (join s); try done; destruct H as [? [? ?]]; congruence.
    + intros id _ _. by apply ended_flies.
    + simpl. intros m ev id Hm. apply (g_messages s G). rewrite app_nil_r in Hm. apply elem_of_app. by left.
  - done.
Qed.

Lemma loop_good s s' : good s → loop_step s = Some s' → good s'.
Proof.
  intros G Hs. unfold loop_step in Hs. destruct (ingress s) as [|m rest] eqn:Hi; [done|].
  destruct (awaiting (task s)); [|done]. injection Hs as <-. 
  assert ((mailbox s ++ [m]) ++ rest = mailbox s ++ ingress s) as Em by (rewrite Hi; by rewrite <- app_assoc).
  apply (ev_good_frame s); try done; simpl; rewrite ?Em.
  - apply G.
  - intros id _. unfold flying. simpl. by rewrite Em.
  - apply (g_messages s G).
  - apply (g_task s G).
Qed.

Lemma kill_good s s' : good s → kill_step s = Some s' → good s'.
Proof.
  intros G Hs. unfold kill_step in Hs. destruct (kill_pending s); [|done]. simpl in Hs.
  destruct (task s) eqn:Ht; try done; injection Hs as <-; (apply good_task; try done;
    [intros [o Ho]; simpl in Ho; congruence|intros id _ _; by apply ended_flies]).
Qed.
(** ** The joining task *)

(** All clients change at once, none of them its number or what it asked for. *)
Lemma good_all s s' g :
  good s → clients s' = imap g (clients s) → (∀ i c, request_id (g i c) = request_id c ∧ operation (g i c) = operation c) →
  next_request_id s' = next_request_id s → mailbox s' = mailbox s → ingress s' = ingress s → task s' = task s → phase s' →
  (∀ id i, pending s' !! id = Some i → pending s !! id = Some i) →
  (∀ i c, clients s !! i = Some c → client_ok (pending s') (join s') (flying s') (exit s') i (g i c)) → good s'.
Proof.
  intros [] Ec Hg En Em Ei Et Hph Hp Hok.
  assert (∀ i c', clients s' !! i = Some c' → ∃ c, clients s !! i = Some c ∧ c' = g i c) as Hback.
  { intros i c'. rewrite Ec, list_lookup_imap. intros (c & Hc & ->)%fmap_Some. by exists c. }
  assert (∀ ev id, asked (clients s) ev id → asked (clients s') ev id) as Hask.
  { intros ev id (i & c & Hc & Hid & Hop). exists i, (g i c). rewrite Ec, list_lookup_imap, Hc. simpl.
    destruct (Hg i c) as [-> ->]. done. }
  assert (ids s' = ids s) as Eids.
  { unfold ids. rewrite Ec. clear -Hg. generalize (clients s). intros l. revert g Hg. induction l as [|c l IH]; intros g Hg; [done|].
    csimpl. rewrite (proj1 (Hg _ _)). pose proof (IH (fun i => g (S i)) ltac:(intros; apply Hg)) as E1.
    destruct (request_id c); [f_equal|]; exact E1. }
  split; rewrite ?Eids, ?En, ?Em, ?Ei, ?Et; try done.
  - intros i j ci cj id Hi Hj Ii Ij. apply Hback in Hi as (ci' & Hi & ->). apply Hback in Hj as (cj' & Hj & ->).
    rewrite (proj1 (Hg _ _)) in Ii. rewrite (proj1 (Hg _ _)) in Ij. by eapply g_unique0.
  - intros i c id Hi Ii. apply Hback in Hi as (ci' & Hi & ->). rewrite (proj1 (Hg _ _)) in Ii. eauto.
  - intros i c Hi. apply Hback in Hi as (ci' & Hi & ->). by apply Hok.
  - intros id i Hpi. destruct (g_pending0 id i (Hp id i Hpi)) as (c & Hc & Hid). exists (g i c).
    rewrite Ec, list_lookup_imap, Hc. simpl. by rewrite (proj1 (Hg _ _)).
  - intros m ev id Hm Hid. by eapply Hask, g_messages0.
  - destruct (task s); try done; [by apply Hask|]. destruct g_task0 as (ev & n & Ha & Hr). exists ev, n. by split; [apply Hask|].
Qed.

Lemma drain_same P r i c : request_id (drain_client P r i c) = request_id c ∧ operation (drain_client P r i c) = operation c.
Proof. unfold drain_client. case_bool_decide; [apply send_reply_same|done]. Qed.

Lemma notify_same c : request_id (notify_client c) = request_id c ∧ operation (notify_client c) = operation c.
Proof. unfold notify_client. by destruct (pc c). Qed.

Lemma ev_drain_ok s r i c :
  good s → join s = JDrain r → clients s !! i = Some c →
  client_ok ∅ JNotify (flying s) (exit s) i (drain_client (pending s) (Err (pending_error r)) i c).
Proof.
  intros G Hj Hc. pose proof (g_client s G i c Hc) as Hok. destruct (g_phase s G) as [_ Hph]. rewrite Hj in Hph. destruct Hph as [Hex _].
  unfold client_ok in *. rewrite (proj1 (drain_same _ _ _ _)). unfold drain_client.
  case_bool_decide as Hex'.
  - destruct Hex' as (id & k & Hp & ->). destruct (g_pending s G id i Hp) as (c' & Hc' & Hid). simplify_eq. rewrite Hid in *.
    eapply answered_ok; try done. rewrite Hex. by exists r.
  - destruct (request_id c) as [id|] eqn:Hid.
    + assert (pending s !! id = None) as Hnone.
      { destruct (pending s !! id) as [k|] eqn:Hp; [|done]. destruct (g_pending s G id k Hp) as (c' & Hc' & Hid').
        destruct Hex'. exists id, k. split; [done|]. symmetry. by eapply (g_unique s G). }
      destruct Hok as (Hn & Ha & Hok). split; [done|]. split; [done|]. unfold slot in *. rewrite Hnone in Hok. rewrite lookup_empty.
      destruct (pc c) as [[] [|[|k]]| | | | |d|e| |d|d n|[rep| |[]]]; try done; destruct Hok as [Hok ?]; split; try done; auto.
    + destruct Hok as [Hch Hok]. split; [done|]. destruct (pc c) as [[]| | | | | | | | |d []|[]]; try done; destruct Hok as [Hok _]; by split.
Qed.

Lemma notified_ok P F ex i c :
  client_ok P JNotify F ex i c → client_ok P JDone F ex i (notify_client c).
Proof.
  unfold client_ok. rewrite (proj1 (notify_same _)). unfold notify_client. destruct (request_id c) as [id|].
  - intros (Hn & Ha & H). by destruct (pc c) eqn:Hpc; rewrite ?Hpc in *; try done; (split; [done|]; split; [done|]); rewrite ?Hpc.
  - intros [Hch H]. destruct (pc c) eqn:Hpc; try done; (split; [done|]); rewrite ?Hpc; try done. simpl. by destruct H.
Qed.

Lemma client_ok_join P j j' F ex i c :
  ¬ drained j' → client_ok P j F ex i c → client_ok P j' F ex i c.
Proof.
  intros Hd. assert (j' ≠ JDone) by (intros ->; by apply Hd). unfold client_ok. destruct (request_id c) as [id|].
  - intros (Hn & Ha & H'). split; [done|]. split; [done|].
    destruct (pc c) as [[] [|[|k]]| | | | |d|e| |d|d n|[rep| |[]]]; try done; destruct H' as [H1 H2]; split; naive_solver.
  - intros [Hch H']. split; [done|]. destruct (pc c) as [[]| | | | | | | | |d []|[]]; try done; by destruct H'; split.
Qed.

(** The exit status is set. *)
Lemma client_ok_exit P F r i c : client_ok P (JFinish r) F None i c → client_ok P (JDrain r) F (Some r) i c.
Proof.
  assert (∀ x, answer_ok None c x → answer_ok (Some r) c x) as Hmono by (intros [rep|e]; [done|intros (x & Hx & _); done]).
  unfold client_ok. destruct (request_id c) as [id|].
  - intros (Hn & Ha & H). split; [done|]. split; [auto|]. 
    by destruct (pc c) as [[] [|[|k]]| | | | |d|e| |d|d n|[rep| |[]]]; try done; destruct H as [H1 H2]; split; auto.
  - intros [Hch H]. split; [done|]. destruct (pc c) as [[]| | | | | | | | |d []|[]]; try done; by destruct H; split.
Qed.

Lemma ev_join_good s s' : good s → join_step s = Some s' → good s'.
Proof.
  intros G Hs. destruct (g_phase s G) as [Hopen Hph]. unfold join_step in Hs. destruct (join s) as [|r|r| |] eqn:Hj.
  - destruct (task s) as [| | | | |o] eqn:Ht; try done. injection Hs as <-.
    apply (good_all s _ (fun _ c => c)); try done.
    + simpl. clear. induction (clients s) as [|c l IH]; csimpl; [done|]. by f_equal.
    + split; [done|]. simpl. split; [done|]. by exists o.
    + intros i c Hc. pose proof (g_client s G i c Hc) as Hok.
      apply (client_ok_join _ (join s)); [by intros []|exact Hok].
  - destruct Hph as [Hex Hend]. unfold finish_status in Hs. rewrite Hex in Hs. injection Hs as <-.
    apply (good_all s _ (fun _ c => c)); try done.
    + simpl. clear. induction (clients s) as [|c l IH]; csimpl; [done|]. by f_equal.
    + intros i c Hc. pose proof (g_client s G i c Hc) as Hok. rewrite Hj, Hex in Hok. simpl.
      by apply client_ok_exit.
  - injection Hs as <-. apply (good_all s _ (drain_client (pending s) (Err (pending_error r)))); try done.
    + intros i c. apply drain_same.
    + split; [done|]. destruct Hph as [He Hend]. simpl. split; [by rewrite He|done].
    + intros i c Hc. exact (ev_drain_ok s r i c G Hj Hc).
  - injection Hs as <-. apply (good_all s _ (fun _ => notify_client)); try done.
    + simpl. clear. induction (clients s) as [|c l IH]; csimpl; [done|]. by f_equal.
    + intros _ c. apply notify_same.
    + intros i c Hc. pose proof (g_client s G i c Hc) as Hok. rewrite Hj in Hok. by apply notified_ok.
  - done.
Qed.
(** ** Executions *)

Lemma ev_begin_good s o timeout : good s → good (set_clients (clients s ++ [begin_client o timeout]) s).
Proof.
  intros G. destruct (G) as [].
  assert (∀ i c, (clients s ++ [begin_client o timeout]) !! i = Some c → clients s !! i = Some c ∨ c = begin_client o timeout) as Hback.
  { intros i c [Hl|[_ Hl]]%lookup_app_Some; [by left|right]. by apply list_lookup_singleton_Some in Hl as [_ <-]. }
  assert (∀ ev id, asked (clients s) ev id → asked (clients s ++ [begin_client o timeout]) ev id) as Hask.
  { intros ev id (i & c & Hc & H'). exists i, c. split; [by apply lookup_app_l_Some|done]. }
  split; simpl; try done.
  - unfold ids. simpl. rewrite omap_app. simpl. by rewrite app_nil_r.
  - intros i j ci cj id Hi Hj Ii Ij. apply Hback in Hi as [Hi | ->], Hj as [Hj | ->]; try done. by eapply g_unique0.
  - intros i c id Hi Ii. apply Hback in Hi as [Hi | ->]; [by eauto|done].
  - intros i c Hi. apply Hback in Hi as [Hi | ->]; [by apply g_client0|]. unfold client_ok, plain_ok. simpl. split; [done|].
    destruct o; simpl; try done; by intros [].
  - intros id i Hp. destruct (g_pending0 id i Hp) as (c & Hc & Hid). exists c. split; [by apply lookup_app_l_Some|done].
  - intros m ev id Hm Hid. by eapply Hask, g_messages0.
  - destruct (task s); try done; [by apply Hask|]. destruct g_task0 as (ev & n & Ha & Hr). exists ev, n. by split; [apply Hask|].
Qed.

Lemma clients_length a s s' : manager_exec run handlers a s = Some s' → (length (clients s) <= length (clients s'))%nat.
Proof.
  destruct a as [t|n| | | |m| |o t|i choice]; simpl; intros H.
  - case_match; by simplify_eq.
  - unfold task_step, answer in H. repeat case_match; simplify_eq/=; rewrite ?length_alter; done.
  - unfold join_step, finish_status in H. repeat case_match; simplify_eq/=; rewrite ?length_imap, ?length_fmap; done.
  - unfold loop_step in H. repeat case_match; by simplify_eq/=.
  - unfold kill_step in H. repeat case_match; by simplify_eq/=.
  - repeat case_match; by simplify_eq/=.
  - simplify_eq. by case_match.
  - simplify_eq/=. rewrite length_app. lia.
  - destruct (clients s !! i) as [c|]; [|done]. simpl in H. unfold client_step, send_operation in H.
    repeat (case_match; simplify_eq/=); rewrite ?length_insert; try done.
    all: destruct (request_id c); simplify_eq/=; repeat case_match; simplify_eq/=; rewrite ?length_insert; done.
Qed.

Lemma good_exec a s s' : few s' → good s → manager_exec run handlers a s = Some s' → good s'.
Proof.
  intros Hf G H. pose proof (clients_length a s s' H) as Hl. assert (few s) as Hf' by (unfold few in *; lia).
  destruct a as [t|n| | | |m| |o t|i choice]; simpl in H.
  - case_match; [|done]. injection H as <-. apply (ev_good_frame s); try done; apply G.
  - by eapply ev_task_good.
  - by eapply ev_join_good.
  - by eapply loop_good.
  - by eapply kill_good.
  - destruct (notify_id m) eqn:Hm; [done|]. destruct (ingress_open s); [|done]. injection H as <-. apply good_ingress; [done|].
    intros m' ev id ->%list_elem_of_singleton Hm'. congruence.
  - injection H as <-. destruct (ingress_open s); [|done]. apply (ev_good_frame s); try done; apply G.
  - injection H as <-. by apply ev_begin_good.
  - destruct (clients s !! i) as [c|] eqn:Hc; [|done]. by eapply ev_client_good.
Qed.

Lemma ev_start_good : good manager_start.
Proof.
  split; simpl; try done.
  - split; [by intros [o Ho]|done].
  - intros m ev id Hm. by apply elem_of_nil in Hm.
Qed.

Lemma reachable_manager s : rtc step manager_start s → few s → good s.
Proof.
  apply (rtc_invariant _ (fun s => few s → good s)); [|intros _; apply ev_start_good].
  intros a b Ha [x Hx] Hf. eapply good_exec; try done. apply Ha. pose proof (clients_length x a b Hx). unfold few in *. lia.
Qed.

(** C19. Every notification is answered.  Once the manager has ended and was joined, or is idle
    with nothing queued, the answer of every notification that waits, with a timeout or
    without, is in its channel; its channel is never closed without one; the table has an
    entry only for notifications that have not returned; and nobody is left waiting for the
    end of a manager that was joined. *)
Theorem notifications_answered s :
  rtc step manager_start s → few s →
  (∀ i c deadline, clients s !! i = Some c → pc c = PRecv deadline →
     join s = JDone ∨ (task s = TLoop ∧ mailbox s = [] ∧ ingress s = []) → ∃ r, channel c = [r]) ∧
  (∀ i c, clients s !! i = Some c →
     pc c ≠ PCancel NotifyDisconnected ∧ pc c ≠ PReturned (Error NotifyDisconnected)) ∧
  (∀ id i, pending s !! id = Some i → ∃ c, clients s !! i = Some c ∧ ∀ o, pc c ≠ PReturned o) ∧
  (∀ i c deadline, clients s !! i = Some c → pc c = PBlocked deadline false → join s ≠ JDone).
Proof.
  intros Hr Hf. pose proof (reachable_manager s Hr Hf) as G. split_and!.
  - intros i c deadline Hc Hpc Hidle. pose proof (g_client s G i c Hc) as Hok. unfold client_ok in Hok.
    destruct (request_id c) as [id|]; [|destruct Hok as [_ Hok]; by rewrite Hpc in Hok]. destruct Hok as (_ & _ & Hok).
    rewrite Hpc in Hok. destruct Hok as [[[Hp _]|[_ Hs]] Hok]; [|done]. destruct (Hok Hp) as [Hd Hfly]. exfalso.
    destruct Hidle as [Hj|(Ht & Hm & Hi)]; [by rewrite Hj in Hd|]. destruct Hfly as [(m & ev & Hin & _)|H]; [|by rewrite Ht in H].
    rewrite Hm, Hi in Hin. by apply elem_of_nil in Hin.
  - intros i c Hc. pose proof (g_client s G i c Hc) as Hok. unfold client_ok in Hok.
    destruct (request_id c) as [id|] eqn:Hid.
    + destruct Hok as (_ & _ & Hok). split; intros Hpc; rewrite Hpc in Hok; by destruct Hok.
    + destruct Hok as (Hch & Hok). split; intros Hpc; by rewrite Hpc in Hok.
  - intros id i Hp. destruct (g_pending s G id i Hp) as (c & Hc & Hid). exists c. split; [done|]. intros o Hpc.
    pose proof (g_client s G i c Hc) as Hok. unfold client_ok in Hok. rewrite Hid in Hok. destruct Hok as (_ & _ & Hok).
    rewrite Hpc in Hok. destruct o as [r| |[]]; destruct Hok; congruence.
  - intros i c deadline Hc Hpc. pose proof (g_client s G i c Hc) as Hok. unfold client_ok in Hok.
    destruct (request_id c); [destruct Hok as (_ & _ & Hok); by rewrite Hpc in Hok|]. destruct Hok as [_ Hok]. rewrite Hpc in Hok.
    by destruct Hok as [_ Hok]; apply Hok.
Qed.

(** A notification that returns a report returns the report of its own event: for every
    handler of the manager, and for no other name, what became of the run of that handler on
    exactly this event.  When it fails because the manager ended, the error is the reason of
    the end. *)
Theorem notify_report_exact s i c :
  rtc step manager_start s → few s → clients s !! i = Some c →
  (∀ report, pc c = PReturned (Report report) →
     ∃ ev n, operation c = OpNotify ev ∧
       ∀ id, report !! id = (fun h => delivery_outcome (run h ev n)) <$> handlers !! id) ∧
  (∀ e, pc c = PReturned (Error (NotifyFailed e)) → ∃ r, exit s = Some r ∧ e = pending_error r).
Proof.
  intros Hr Hf Hc. pose proof (reachable_manager s Hr Hf) as G. pose proof (g_client s G i c Hc) as Hok. unfold client_ok in Hok.
  destruct (request_id c) as [id|].
  - destruct Hok as (_ & _ & Hok). split.
    + intros report Hpc. rewrite Hpc in Hok. destruct Hok as (_ & ev & n & Hop & ->). exists ev, n. split; [done|].
      intros k. apply notify_lookup.
    + intros e Hpc. rewrite Hpc in Hok. by destruct Hok.
  - destruct Hok as [_ Hok]. split.
    + intros report Hpc. by rewrite Hpc in Hok.
    + intros e Hpc. by rewrite Hpc in Hok.
Qed.
End ok.

(** ** A run *)

(** A manager with two handlers; the second one panics on negative events.  Messages are encoded as
    lists of numbers. *)
Module Example.
Definition encode (m : GenEventMessage Z) : option (list Z) :=
  Some (match m with Notify e id => [e; id] | Stop => [] end).
Definition decode (b : list Z) : option (GenEventMessage Z) :=
  match b with [] => Some Stop | [e; id] => Some (Notify e id) | _ => None end.
Lemma decode_encode m b : encode m = Some b → decode b = Some m.
Proof. destruct m; by intros [= <-]. Qed.
#[export] Instance bincode : Bincode (GenEventMessage Z) :=
  { serialize := encode; deserialize := decode; deserialize_serialize := decode_encode }.

Definition handlers : gmap string bool := {[ "log" := false; "check" := true ]}.
Definition run (h : bool) (e n : Z) : Delivery := if h && (e <? 0) then Panics "negative" else Returns (Ok tt).

(** A notification that is answered; one that is killed while its handlers run, with another in the queue; a stop that
    comes too late; a thread that waits for the exit. *)
Definition actions : list (Action (E := Z)) :=
  [ABegin (OpNotify 5) None] ++ replicate 10 (AClient 0 true) ++ [ALoop; ATask 1; ATask 2; ATask 3; AClient 0 true] ++
  [ABegin (OpNotify (-3)) None; ABegin (OpNotify 4) (Some 1000); ABegin (OpWait None) None; ABegin OpKill None] ++
  replicate 10 (AClient 1 true) ++ replicate 10 (AClient 2 true) ++ replicate 2 (AClient 3 false) ++ replicate 4 (AClient 4 true) ++
  [ALoop; ATask 4; AKill; ATask 5; ATask 6; AJoin; AJoin; AJoin; AJoin].
Definition final : Manager (E := Z) := default manager_start (manager_run run handlers actions manager_start).

Lemma run_reach l s s' : manager_run run handlers l s = Some s' → rtc (manager_step run handlers) s s'.
Proof.
  revert s. induction l as [|a l IH]; intros s; simpl; [by intros [= ->]|].
  destruct (manager_exec run handlers a s) as [s1|] eqn:Ha; [|done]. intros H%IH. by eapply rtc_l; [exists a|].
Qed.

Lemma final_reach : rtc (manager_step run handlers) manager_start final.
Proof. apply (run_reach actions). vm_compute. reflexivity. Qed.
End Example.

Lemma notifications_answered_witness :
  ∃ c, clients Example.final !! 1%nat = Some c ∧ pc c = PRecv None ∧ operation c = OpNotify (-3) ∧
    join Example.final = JDone ∧ ∃ r, channel c = [r].
Proof.
  destruct (notifications_answered Example.run Example.handlers Example.final Example.final_reach) as [H _]; [by vm_compute|].
  assert (∃ c, clients Example.final !! 1%nat = Some c ∧ pc c = PRecv None ∧ operation c = OpNotify (-3)) as (c & Hc & Hpc & Hop).
  { eexists. split; [vm_compute; reflexivity|]. split; reflexivity. }
  assert (join Example.final = JDone) as Hj by (vm_compute; reflexivity).
  exists c. split; [exact Hc|]. split; [exact Hpc|]. split; [exact Hop|]. split; [exact Hj|]. apply (H 1%nat c None Hc Hpc). by left.
Defined.

Lemma notify_report_exact_witness :
  ∃ c report, clients Example.final !! 0%nat = Some c ∧ pc c = PReturned (Report report) ∧
    report !! "check" = Some Succeeded ∧ report !! "other" = None.
Proof.
  assert (∃ c report, clients Example.final !! 0%nat = Some c ∧ pc c = PReturned (Report report) ∧ operation c = OpNotify 5)
    as (c & report & Hc & Hpc & Hop).
  { do 2 eexists. split; [vm_compute; reflexivity|]. split; reflexivity. }
  destruct (notify_report_exact Example.run Example.handlers Example.final 0 c Example.final_reach) as [H _]; [by vm_compute|exact Hc|].
  destruct (H report Hpc) as (ev & n & Hev & Hrep). rewrite Hop in Hev. injection Hev as <-.
  exists c, report. split; [exact Hc|]. split; [exact Hpc|]. rewrite !Hrep. split; reflexivity.
Defined.
