(* ===== verification/Timers.v ===== *)
(** * [crates/lunatic-timer-api/src/lib.rs]: delayed messages

    [send_after] takes the message of the scratch area and spawns a task that sends it after a
    delay; [cancel_timer] aborts the task.  A process owns a bounded number of timers: each has
    an entry in a table, with a permit of a semaphore, and a deadline in a heap, by which the
    entries of tasks that have finished are found and removed when the next timer is set.

    A task is polled by the runtime: it waits for its deadline, then runs, which is the send,
    and is finished.  An abort takes effect only on a task that does not run.  What the receiver answers,
    and when tasks are polled, is decided by the step. *)

From S2P Require Import Prelude External HashMapId.

(** ** [BinaryHeap<HeapValue>] *)

(** The order is reversed: the greatest value is the earliest. *)
Record HeapValue : Type := mkHeapValue { instant : Z; key : Z }.

#[export] Instance HeapValue_eq_dec : EqDecision HeapValue.
Proof. solve_decision. Defined.

(** What the code relies on: [peek] is a greatest value, whichever of several, and [pop] removes it. *)
Class Heap : Type := {
  peek : list HeapValue → option HeapValue;
  peek_None l : peek l = None ↔ l = [];
  peek_Some l x : peek l = Some x → x ∈ l ∧ ∀ y, y ∈ l → instant x <= instant y;
}.

Fixpoint remove_first (x : HeapValue) (l : list HeapValue) : list HeapValue :=
  match l with
  | [] => []
  | y :: l => if decide (y = x) then l else y :: remove_first x l
  end.

(** ** Tasks *)

Inductive TaskState : Type := Waiting | Running | Finished.

Record TimerTask : Type := mkTask {
  target_time : Z;
  receiver : Z;
  message : Z;
  aborted : bool;
  task_state : TaskState;
}.

Definition set_state (x : TaskState) (t : TimerTask) : TimerTask :=
  mkTask (target_time t) (receiver t) (message t) (aborted t) x.
Definition abort (t : TimerTask) : TimerTask :=
  mkTask (target_time t) (receiver t) (message t) true (task_state t).

Definition is_finished (tasks : gmap Z TimerTask) (handle : Z) : bool :=
  match tasks !! handle with Some t => match task_state t with Finished => true | _ => false end | None => true end.

(** ** [TimerResources] *)

Section timers.
Context {Sem : Type} `{!Semaphore Sem, !Heap}.

(** An entry is the handle of its task; its permit is in [admission]. *)
Record TimerResources : Type := mkTimers {
  hash_map : HashMapId Z;
  heap : list HeapValue;
  admission : Sem;
  capacity : Z;
}.

Definition DEFAULT_MAX_TIMERS : Z := 1024.

Definition with_capacity (n : Z) : TimerResources := mkTimers HashMapId.new [] (sem_new n) n.
Definition timers_default : TimerResources := with_capacity DEFAULT_MAX_TIMERS.

(** The entry of [id] is dropped, with its permit. *)
Definition drop_entry (id : Z) (r : TimerResources) : TimerResources :=
  match HashMapId.remove id (hash_map r) with
  | (Some _, t) => mkTimers t (heap r) (release_permit (admission r)) (capacity r)
  | (None, t) => mkTimers t (heap r) (admission r) (capacity r)
  end.

Definition pop (x : HeapValue) (r : TimerResources) : TimerResources :=
  mkTimers (hash_map r) (remove_first x (heap r)) (admission r) (capacity r).

(** The loop of [cleanup_expired_timers]: every turn that goes on takes a value from the heap. *)
Fixpoint cleanup_loop (fuel : nat) (deadline : Z) (tasks : gmap Z TimerTask) (r : TimerResources) : TimerResources :=
  match fuel with
  | O => r
  | S fuel =>
      match peek (heap r) with
      | None => r
      | Some x =>
          if deadline <? instant x then r
          else
            match HashMapId.get (key x) (hash_map r) with
            | Some handle => if is_finished tasks handle then cleanup_loop fuel deadline tasks (drop_entry (key x) (pop x r)) else r
            | None => cleanup_loop fuel deadline tasks (drop_entry (key x) (pop x r))
            end
      end
  end.

Definition cleanup_expired_timers (now : Z) (tasks : gmap Z TimerTask) (r : TimerResources) : TimerResources :=
  cleanup_loop (length (heap r)) now tasks r.

(** [None] is the error: the limit is reached. *)
Definition try_reserve (now : Z) (tasks : gmap Z TimerTask) (r : TimerResources) : bool * TimerResources :=
  let r := cleanup_expired_timers now tasks r in
  match try_acquire_owned (admission r) with
  | Some a => (true, mkTimers (hash_map r) (heap r) a (capacity r))
  | None => (false, r)
  end.

(** [None] is a panic of [HashMapId::add]. *)
Definition add (checks : bool) (handle target : Z) (r : TimerResources) : option (Z * TimerResources) :=
  match HashMapId.add checks handle (hash_map r) with
  | Returned id t => Some (id, mkTimers t (mkHeapValue target id :: heap r) (admission r) (capacity r))
  | HashMapId.Panicked _ => None
  end.

Definition remove (id : Z) (r : TimerResources) : option Z * TimerResources :=
  match HashMapId.get id (hash_map r) with
  | None => (None, r)
  | Some handle =>
      let r := drop_entry id r in
      (Some handle, mkTimers (hash_map r) (filter (fun v => key v ≠ id) (heap r)) (admission r) (capacity r))
  end.

(** ** A process with timers, and the tasks of the runtime *)

(** [timers] is [None] once the process has ended; [delivered] lists the tasks whose message was
    accepted by its receiver, with the time. *)
Record TimerWorld : Type := mkTimerWorld {
  now : Z;
  timers : option TimerResources;
  tasks : gmap Z TimerTask;
  next_task : Z;
  scratch : option Z;
  delivered : list (Z * Z);
}.

Definition set_timers (x : TimerResources) (w : TimerWorld) : TimerWorld :=
  mkTimerWorld (now w) (Some x) (tasks w) (next_task w) (scratch w) (delivered w).
Definition set_tasks (x : gmap Z TimerTask) (w : TimerWorld) : TimerWorld :=
  mkTimerWorld (now w) (timers w) x (next_task w) (scratch w) (delivered w).
Definition set_scratch (x : option Z) (w : TimerWorld) : TimerWorld :=
  mkTimerWorld (now w) (timers w) (tasks w) (next_task w) x (delivered w).

Inductive SendAfterError : Type := NoProcess | DeadlineOverflow | TimerLimit | NoMessage.

(** Instants are in nanoseconds up to [instant_max], delays in milliseconds. *)
Context (checks : bool) (instant_max : Z).

(** [found]: the receiver exists.  [None] is a panic. *)
Definition send_after (found : bool) (process_id delay : Z) (w : TimerWorld) : option (result Z SendAfterError * TimerWorld) :=
  r ← timers w;
  if negb found then Some (Err NoProcess, w)
  else
    let target := now w + delay * 1000000 in
    if instant_max <? target then Some (Err DeadlineOverflow, w)
    else
      match try_reserve (now w) (tasks w) r with
      | (false, r) => Some (Err TimerLimit, set_timers r w)
      | (true, r) =>
          match scratch w with
          | None =>
              Some (Err NoMessage, set_timers (mkTimers (hash_map r) (heap r) (release_permit (admission r)) (capacity r)) w)
          | Some m =>
              let handle := next_task w in
              '(id, r) ← add checks handle target r;
              Some (Ok id, mkTimerWorld (now w) (Some r) (<[handle := mkTask target process_id m false Waiting]> (tasks w))
                             (next_task w + 1) None (delivered w))
          end
      end.

Definition cancel_timer (timer_id : Z) (w : TimerWorld) : option (Z * TimerWorld) :=
  r ← timers w;
  match remove timer_id r with
  | (Some handle, r) => Some (1, set_timers r (set_tasks (alter abort handle (tasks w)) w))
  | (None, r) => Some (0, set_timers r w)
  end.

(** [impl Drop for TimerResources] *)
Definition end_process (w : TimerWorld) : option TimerWorld :=
  r ← timers w;
  let handles := (map_to_list (store (hash_map r))).*2 in
  Some (mkTimerWorld (now w) None (foldr (alter abort) (tasks w) handles) (next_task w) None (delivered w)).

(** *** The runtime polls a task *)

Definition start_task (t : Z) (w : TimerWorld) : option TimerWorld :=
  x ← tasks w !! t;
  match task_state x with
  | Waiting =>
      if aborted x || (now w <? target_time x) then None
      else Some (set_tasks (<[t := set_state Running x]> (tasks w)) w)
  | _ => None
  end.

(** The send; [accept]: the receiver takes the message. *)
Definition run_task (t : Z) (accept : bool) (w : TimerWorld) : option TimerWorld :=
  x ← tasks w !! t;
  match task_state x with
  | Running =>
      Some (mkTimerWorld (now w) (timers w) (<[t := set_state Finished x]> (tasks w)) (next_task w) (scratch w)
              (if accept then delivered w ++ [(t, now w)] else delivered w))
  | _ => None
  end.

(** A task that was aborted while it waited is dropped with its message. *)
Definition reap_task (t : Z) (w : TimerWorld) : option TimerWorld :=
  x ← tasks w !! t;
  match task_state x with
  | Waiting => if aborted x then Some (set_tasks (<[t := set_state Finished x]> (tasks w)) w) else None
  | _ => None
  end.

Inductive TimerAction : Type :=
| TTick (elapsed : Z)
| TCompose (m : Z)
| TSendAfter (found : bool) (process_id delay : Z)
| TCancel (timer_id : Z)
| TEnd
| TStart (t : Z)
| TRun (t : Z) (accept : bool)
| TReap (t : Z).

Definition timer_exec (a : TimerAction) (w : TimerWorld) : option TimerWorld :=
  match a with
  | TTick elapsed => if 0 <=? elapsed then Some (mkTimerWorld (now w + elapsed) (timers w) (tasks w) (next_task w) (scratch w) (delivered w)) else None
  | TCompose m => match timers w with Some _ => Some (set_scratch (Some m) w) | None => None end
  | TSendAfter found p delay => if 0 <=? delay then '(_, w) ← send_after found p delay w; Some w else None
  | TCancel id => '(_, w) ← cancel_timer id w; Some w
  | TEnd => end_process w
  | TStart t => start_task t w
  | TRun t accept => run_task t accept w
  | TReap t => reap_task t w
  end.

(** No more than [u64_max] timers are ever set. *)
Definition seed_room (w : TimerWorld) : Prop :=
  match timers w with Some r => id_seed (hash_map r) < u64_max | None => True end.

Definition timer_step (w w' : TimerWorld) : Prop := ∃ a, seed_room w ∧ timer_exec a w = Some w'.

Definition timer_start (n : Z) : TimerWorld := mkTimerWorld 0 (Some (with_capacity n)) ∅ 0 None [].

Fixpoint timer_run (l : list TimerAction) (w : TimerWorld) : option TimerWorld :=
  match l with
  | [] => Some w
  | a :: l => w ← timer_exec a w; timer_run l w
  end.
End timers.

(** ** The invariant *)

Section ok.
Context {Sem : Type} `{!Semaphore Sem, !SemaphoreLaws Sem} {heap_order : Heap} (checks : bool) (instant_max : Z).
Abbreviation step := (timer_step (Sem := Sem) checks instant_max).
Implicit Types (r : TimerResources (Sem := Sem)) (w : TimerWorld (Sem := Sem)) (tasks : gmap Z TimerTask).

Definition entries r : gmap Z Z := store (hash_map r).

(** [extra]: permits in local variables. *)
Record res_ok tasks (extra : Z) r : Prop := {
  ro_table : HashMapId.wf (hash_map r);
  ro_permits : available_permits (admission r) + Z.of_nat (size (entries r)) + extra = capacity r;
  ro_heap : key <$> heap r ≡ₚ (map_to_list (entries r)).*1;
  ro_deadline : ∀ v, v ∈ heap r → ∃ h x, entries r !! key v = Some h ∧ tasks !! h = Some x ∧ target_time x = instant v;
  ro_handles : ∀ k k' h, entries r !! k = Some h → entries r !! k' = Some h → k = k';
}.

(** A task that is not finished and not aborted. *)
Definition live (x : TimerTask) : Prop := task_state x ≠ Finished ∧ aborted x = false.

Definition owned tasks r : Prop := ∀ t x, tasks !! t = Some x → live x → ∃ k, entries r !! k = Some t.

Definition sent_ok w : Prop :=
  NoDup (delivered w).*1 ∧
  ∀ t time, (t, time) ∈ delivered w → ∃ x, tasks w !! t = Some x ∧ task_state x = Finished ∧ target_time x <= time <= now w.

Record timers_ok (n : Z) w : Prop := {
  to_res : match timers w with
           | Some r => capacity r = n ∧ res_ok (tasks w) 0 r ∧ owned (tasks w) r
           | None => ∀ t x, tasks w !! t = Some x → ¬ live x
           end;
  to_fresh : ∀ t, is_Some (tasks w !! t) → t < next_task w;
  to_running : ∀ t x, tasks w !! t = Some x → task_state x = Running → target_time x <= now w;
  to_sent : sent_ok w;
}.

(** *** The heap *)

Lemma remove_first_perm x l : x ∈ l → l ≡ₚ x :: remove_first x l.
Proof.
  induction l as [|y l IH]; simpl; [by intros ?%elem_of_nil|]. rewrite elem_of_cons. intros Hx.
  case_decide as He; [by rewrite He|]. destruct Hx as [->|Hx]; [done|]. rewrite (IH Hx) at 1. apply Permutation_swap.
Qed.

Lemma entries_delete k h (m : gmap Z Z) : m !! k = Some h → (map_to_list m).*1 ≡ₚ k :: (map_to_list (delete k m)).*1.
Proof. intros Hk. by rewrite <- (map_to_list_delete m k h Hk). Qed.

Lemma heap_nodup tasks extra r : res_ok tasks extra r → NoDup (key <$> heap r).
Proof. intros H. rewrite (ro_heap _ _ _ H). apply NoDup_fst_map_to_list. Qed.

Lemma drop_entry_some id h r :
  entries r !! id = Some h →
  drop_entry id r = mkTimers (mkHashMapId (id_seed (hash_map r)) (delete id (entries r))) (heap r) (release_permit (admission r)) (capacity r).
Proof. intros Hh. unfold drop_entry, HashMapId.remove. unfold entries in Hh. by rewrite Hh. Qed.

(** An entry goes with its value in the heap. *)
Lemma res_ok_drop tasks extra r id h l :
  res_ok tasks extra r → entries r !! id = Some h → key <$> heap r ≡ₚ id :: (key <$> l) → (∀ v, v ∈ l → v ∈ heap r) →
  res_ok tasks extra (mkTimers (mkHashMapId (id_seed (hash_map r)) (delete id (entries r))) l (release_permit (admission r)) (capacity r)).
Proof.
  intros H Hh Hl Hin. pose proof (heap_nodup _ _ _ H) as Hnd. destruct H. split; unfold entries in *; simpl in *.
  - apply (HashMapId.remove_wf id (hash_map r) ro_table0).
  - rewrite available_release, map_size_delete, Hh.
    assert (size (store (hash_map r)) ≠ 0%nat) by (intros Hz%map_size_empty_inv; by rewrite Hz, lookup_empty in Hh). simpl. lia.
  - apply (Permutation_cons_inv (a := id)). rewrite <- Hl, ro_heap0. by apply (entries_delete id h).
  - intros v Hv. destruct (ro_deadline0 v (Hin v Hv)) as (h' & x & Hh' & Hx). exists h', x. split; [|done].
    rewrite lookup_delete_ne; [done|]. intros ->. rewrite Hl in Hnd. apply NoDup_cons in Hnd as [Hni _]. apply Hni.
    apply list_elem_of_fmap. by exists v.
  - intros k k' h' [_ Hk]%lookup_delete_Some [_ Hk']%lookup_delete_Some. eauto.
Qed.

Lemma pop_drop_ok tasks extra r x :
  res_ok tasks extra r → x ∈ heap r →
  ∃ h, entries r !! key x = Some h ∧ res_ok tasks extra (drop_entry (key x) (pop x r)) ∧
    entries (drop_entry (key x) (pop x r)) = delete (key x) (entries r) ∧ heap (drop_entry (key x) (pop x r)) = remove_first x (heap r) ∧
    capacity (drop_entry (key x) (pop x r)) = capacity r ∧ id_seed (hash_map (drop_entry (key x) (pop x r))) = id_seed (hash_map r).
Proof.
  intros H Hx. destruct (ro_deadline _ _ _ H x Hx) as (h & t & Hh & _). exists h. split; [done|].
  rewrite (drop_entry_some (key x) h (pop x r)) by done. simpl. split_and!; try done.
  pose proof (remove_first_perm x (heap r) Hx) as Hp.
  apply (res_ok_drop tasks extra r (key x) h); try done.
  - by rewrite Hp at 1.
  - intros v Hv. rewrite Hp. by right.
Qed.

(** *** The cleanup *)

(** The loop is done: the earliest timer is not due, or its task is not finished. *)
Definition cleaned (now : Z) tasks r : Prop :=
  ∀ x, peek (heap r) = Some x → now < instant x ∨ ∃ h, entries r !! key x = Some h ∧ is_finished tasks h = false.

Lemma cleanup_ok fuel now tasks extra r :
  res_ok tasks extra r → owned tasks r → (length (heap r) <= fuel)%nat →
  let r' := cleanup_loop fuel now tasks r in
  res_ok tasks extra r' ∧ owned tasks r' ∧ cleaned now tasks r' ∧ capacity r' = capacity r ∧ id_seed (hash_map r') = id_seed (hash_map r).
Proof.
  revert r. induction fuel as [|fuel IH]; intros r H Ho Hl; simpl.
  - split_and!; try done. intros x Hx. destruct (heap r); [|simpl in Hl; lia]. by rewrite (proj2 (peek_None [])) in Hx.
  - destruct (peek (heap r)) as [x|] eqn:Hx; [|split_and!; try done; intros y Hy; congruence].
    destruct (now <? instant x) eqn:Hlt; [bool_to_prop; split_and!; try done; intros y Hy; left; congruence|].
    destruct (peek_Some _ _ Hx) as [Hin _].
    destruct (pop_drop_ok tasks extra r x H Hin) as (h & Hh & H' & He & Hheap & Hcap & Hseed).
    unfold HashMapId.get. unfold entries in Hh. rewrite Hh. destruct (is_finished tasks h) eqn:Hfin.
    + destruct (IH (drop_entry (key x) (pop x r))) as (H1 & H2 & H3 & H4 & H5); [done| | |by rewrite H4, H5, Hcap, Hseed].
      * intros t y Hy Hlive. destruct (Ho t y Hy Hlive) as [k Hk]. exists k. rewrite He, lookup_delete_ne; [done|].
        intros <-. unfold entries in Hk. rewrite Hh in Hk. injection Hk as ->. unfold is_finished in Hfin. rewrite Hy in Hfin.
        destruct Hlive as [Hl1 _]. by destruct (task_state y).
      * rewrite Hheap. pose proof (Permutation_length (remove_first_perm x (heap r) Hin)). simpl in *. lia.
    + split_and!; try done. intros y Hy. right. simplify_eq. exists h. by split.
Qed.

Lemma try_reserve_ok now tasks r :
  res_ok tasks 0 r → owned tasks r →
  match try_reserve now tasks r with
  | (true, r') => res_ok tasks 1 r' ∧ owned tasks r' ∧ capacity r' = capacity r ∧ id_seed (hash_map r') = id_seed (hash_map r)
  | (false, r') => res_ok tasks 0 r' ∧ owned tasks r' ∧ capacity r' = capacity r ∧ id_seed (hash_map r') = id_seed (hash_map r) ∧
      cleaned now tasks r' ∧ Z.of_nat (size (entries r')) = capacity r
  end.
Proof.
  intros H Ho. unfold try_reserve, cleanup_expired_timers.
  destruct (cleanup_ok (length (heap r)) now tasks 0 r H Ho) as (H1 & H2 & H3 & H4 & H5); [done|].
  destruct (try_acquire_owned _) as [a|] eqn:Ha.
  - split_and!; try done. apply try_acquire_Some in Ha. destruct H1. split; try done. unfold entries in *. simpl. lia.
  - split_and!; try done. apply try_acquire_None in Ha. destruct H1. lia.
Qed.
(** *** Steps *)

(** The new tasks know what the old ones knew. *)
Definition grows tasks tasks' : Prop :=
  ∀ t x, tasks !! t = Some x → ∃ x', tasks' !! t = Some x' ∧ target_time x' = target_time x ∧
    (task_state x = Finished → task_state x' = Finished).

Lemma timer_grows_refl tasks : grows tasks tasks.
Proof. intros t x Hx. by exists x. Qed.

Lemma grows_insert tasks t y :
  (∀ x, tasks !! t = Some x → target_time y = target_time x ∧ (task_state x = Finished → task_state y = Finished)) →
  grows tasks (<[t := y]> tasks).
Proof.
  intros Hy t' x Hx. destruct (decide (t = t')) as [<-|Hne].
  - exists y. rewrite lookup_insert_eq. split; [done|]. by apply Hy.
  - exists x. by rewrite lookup_insert_ne.
Qed.

Lemma grows_abort tasks t : grows tasks (alter abort t tasks).
Proof.
  intros t' x Hx. destruct (decide (t = t')) as [<-|Hne].
  - exists (abort x). rewrite lookup_alter_eq, Hx. done.
  - exists x. by rewrite lookup_alter_ne.
Qed.

Lemma grows_aborts tasks l : grows tasks (foldr (alter abort) tasks l).
Proof.
  induction l as [|t l IH]; simpl; [apply timer_grows_refl|]. intros t' x Hx. destruct (IH t' x Hx) as (y & Hy & E1 & E2).
  destruct (grows_abort _ t t' y Hy) as (z & Hz & E3 & E4). exists z. split; [done|]. split; [congruence|auto].
Qed.

Lemma res_ok_grows tasks tasks' extra r : grows tasks tasks' → res_ok tasks extra r → res_ok tasks' extra r.
Proof.
  intros Hg []. split; try done. intros v Hv. destruct (ro_deadline0 v Hv) as (h & x & Hh & Hx & Ht).
  destruct (Hg h x Hx) as (y & Hy & E1 & _). exists h, y. split_and!; try done. congruence.
Qed.

Lemma sent_grows w w' :
  sent_ok w → delivered w' = delivered w → now w <= now w' → grows (tasks w) (tasks w') → sent_ok w'.
Proof.
  intros [Hnd Hs] Ed En Hg. unfold sent_ok. rewrite Ed. split; [done|]. intros t time Hin. destruct (Hs t time Hin) as (x & Hx & Hf & Ht).
  destruct (Hg t x Hx) as (y & Hy & E1 & E2). exists y. split_and!; auto; rewrite ?E1; lia.
Qed.

Lemma owned_grows tasks tasks' r :
  owned tasks r → (∀ t x, tasks' !! t = Some x → live x → ∃ y, tasks !! t = Some y ∧ live y) → owned tasks' r.
Proof. intros Ho Hl t x Hx Hlive. destruct (Hl t x Hx Hlive) as (y & Hy & Hly). by eapply Ho. Qed.

(** A task changes its state. *)
Lemma ok_set_state n w t x st :
  timers_ok n w → tasks w !! t = Some x → task_state x ≠ Finished → (st = Running → target_time x <= now w) →
  (st ≠ Finished → live x) →
  timers_ok n (set_tasks (<[t := set_state st x]> (tasks w)) w).
Proof.
  intros [] Hx Hnf Hrun Hlive.
  assert (grows (tasks w) (<[t := set_state st x]> (tasks w))) as Hg.
  { apply grows_insert. intros x' Hx'. simplify_eq. done. }
  assert (∀ t' y, <[t := set_state st x]> (tasks w) !! t' = Some y → live y → ∃ z, tasks w !! t' = Some z ∧ live z) as Hback.
  { intros t' y [[<- <-] | [Hne Hy]]%lookup_insert_Some Hly; [|eauto]. exists x. split; [done|]. apply Hlive. intros ->. by destruct Hly. }
  split; simpl.
  - destruct (timers w) as [r|].
    + destruct to_res0 as (Hc & Hr & Ho). split_and!; [done|by eapply res_ok_grows|by eapply owned_grows].
    + intros t' y Hy Hly. destruct (Hback t' y Hy Hly) as (z & Hz & Hlz). by eapply to_res0.
  - intros t' Ht'. apply to_fresh0. apply lookup_insert_is_Some in Ht' as [<-|[_ Ht']]; [by rewrite Hx|done].
  - intros t' y [[<- <-] | [Hne Hy]]%lookup_insert_Some Hr; [by apply Hrun|by eapply to_running0].
  - by apply (sent_grows w); try done.
Qed.

Lemma run_ok n w t accept w' : timers_ok n w → run_task t accept w = Some w' → timers_ok n w'.
Proof.
  intros H. unfold run_task. destruct (tasks w !! t) as [x|] eqn:Hx; [|done]. simpl. destruct (task_state x) eqn:Hst; try done.
  intros [= <-]. assert (timers_ok n (set_tasks (<[t := set_state Finished x]> (tasks w)) w)) as H'.
  { apply (ok_set_state n w t x); try done. congruence. }
  pose proof (to_running _ _ H t x Hx Hst) as Hdue. destruct (to_sent _ _ H) as [Hnd Hs].
  assert (t ∉ (delivered w).*1) as Hnew.
  { intros ([t' time] & -> & Hin)%list_elem_of_fmap. destruct (Hs _ _ Hin) as (y & Hy & Hf & _). simpl in *. congruence. }
  destruct H'. split; try done. destruct accept; [|done]. destruct to_sent0 as [Hnd' Hs']. split; simpl in *.
  - rewrite fmap_app. apply NoDup_app. split_and!; [done| |by apply NoDup_singleton]. intros y Hy ->%list_elem_of_singleton. done.
  - intros t' time [Hin | [= -> ->]%list_elem_of_singleton]%elem_of_app; [by apply Hs'|].
    exists (set_state Finished x). rewrite lookup_insert_eq. split_and!; try done; simpl; lia.
Qed.

Lemma entry_task tasks extra r k h : res_ok tasks extra r → entries r !! k = Some h → is_Some (tasks !! h).
Proof.
  intros H Hk. assert (k ∈ key <$> heap r) as Hin.
  { rewrite (ro_heap _ _ _ H). apply list_elem_of_fmap. exists (k, h). split; [done|]. by apply elem_of_map_to_list. }
  apply list_elem_of_fmap in Hin as (v & -> & Hv). destruct (ro_deadline _ _ _ H v Hv) as (h' & x & Hh & Hx & _). simplify_eq. eauto.
Qed.

(** A timer is set: the permit goes into the new entry. *)
Lemma new_timer_ok tasks r h x :
  res_ok tasks 1 r → owned tasks r → tasks !! h = None → entries r !! id_seed (hash_map r) = None →
  HashMapId.wf (mkHashMapId (id_seed (hash_map r) + 1) (<[id_seed (hash_map r) := h]> (entries r))) →
  let r' := mkTimers (mkHashMapId (id_seed (hash_map r) + 1) (<[id_seed (hash_map r) := h]> (entries r)))
    (mkHeapValue (target_time x) (id_seed (hash_map r)) :: heap r) (admission r) (capacity r) in
  res_ok (<[h := x]> tasks) 0 r' ∧ owned (<[h := x]> tasks) r'.
Proof.
  intros H Ho Hh Hid Hwf. assert (grows tasks (<[h := x]> tasks)) as Hg by (apply grows_insert; intros y Hy; congruence).
  pose proof (res_ok_grows _ _ _ _ Hg H) as []. split.
  - split; unfold entries in *; simpl; try done.
    + rewrite map_size_insert_None by done. lia.
    + rewrite map_to_list_insert by done. csimpl. by rewrite ro_heap0.
    + intros v [->|Hv]%elem_of_cons; simpl.
      * exists h, x. by rewrite !lookup_insert_eq.
      * destruct (ro_deadline0 v Hv) as (h' & y & Hh' & Hy). exists h', y. split; [|done]. rewrite lookup_insert_ne; [done|]. intros Heq.
        congruence.
    + intros k k' h' [[<- <-] | [Hne Hk]]%lookup_insert_Some [[<- E2] | [Hne' Hk']]%lookup_insert_Some; try done; subst; eauto.
      * destruct (entry_task _ _ _ k' h H Hk') as [y Hy]. congruence.
      * destruct (entry_task _ _ _ k h' H Hk) as [y Hy]. congruence.
  - intros t y [[<- <-] | [Hne Hy]]%lookup_insert_Some Hl; unfold entries; simpl.
    + exists (id_seed (hash_map r)). apply lookup_insert_eq.
    + destruct (Ho t y Hy Hl) as [k Hk]. exists k. rewrite lookup_insert_ne; [done|]. intros Heq. unfold entries in *. congruence.
Qed.

Lemma send_after_ok n w found p delay o w' :
  timers_ok n w → seed_room w → 0 <= delay → send_after checks instant_max found p delay w = Some (o, w') →
  timers_ok n w' ∧ tasks w' !! next_task w' = None.
Proof.
  intros [] Hroom Hd. assert (tasks w !! next_task w = None) as Hnt.
  { destruct (tasks w !! next_task w) eqn:Ht; [|done]. pose proof (to_fresh0 _ ltac:(by rewrite Ht)). lia. }
  unfold send_after, seed_room in *. destruct (timers w) as [r|] eqn:Hr; [|done]. simpl.
  destruct to_res0 as (Hc & Hres & Ho). assert (timers_ok n w) as Hw by (split; rewrite ?Hr; done).
  destruct (negb found); [by intros [= <- <-]|]. destruct (instant_max <? _); [by intros [= <- <-]|].
  pose proof (try_reserve_ok (now w) (tasks w) r Hres Ho) as Htr.
  destruct (try_reserve (now w) (tasks w) r) as [[] r'].
  - destruct Htr as (Hres' & Ho' & Hc' & Hseed). destruct (scratch w) as [m|].
    + unfold add. destruct (HashMapId.add_step checks (next_task w) (hash_map r') (ro_table _ _ _ Hres')) as (Ha & Hnone & Hwf);
        [by rewrite Hseed|]. rewrite Ha. simpl. intros [= <- <-].
      destruct (new_timer_ok (tasks w) r' (next_task w) (mkTask (now w + delay * 1000000) p m false Waiting)) as [Hn1 Hn2]; try done.
      assert (grows (tasks w) (<[next_task w := mkTask (now w + delay * 1000000) p m false Waiting]> (tasks w))) as Hg.
      { apply grows_insert. intros x Hx. congruence. }
      split; simpl.
      * split; simpl; [by rewrite <- Hc| | |by apply (sent_grows w)].
        -- intros t [<-|[_ Ht]]%lookup_insert_is_Some; [lia|]. pose proof (to_fresh0 t Ht). lia.
        -- intros t x [[<- <-] | [_ Hx]]%lookup_insert_Some Hst; [done|by eapply to_running0].
      * rewrite lookup_insert_ne by lia. destruct (tasks w !! (next_task w + 1)) eqn:Ht; [|done].
        pose proof (to_fresh0 _ ltac:(by rewrite Ht)). lia.
    + intros [= <- <-]. split; [|done]. split; simpl; try done. split_and!; [by rewrite <- Hc|..|done].
      destruct Hres'. split; try done. unfold entries in *. simpl. rewrite available_release. lia.
  - destruct Htr as (Hres' & Ho' & Hc' & Hseed & _). intros [= <- <-]. split; [|done]. split; simpl; try done. by rewrite <- Hc.
Qed.

Lemma cancel_ok n w id code w' : timers_ok n w → cancel_timer id w = Some (code, w') → timers_ok n w'.
Proof.
  intros [] . unfold cancel_timer. destruct (timers w) as [r|] eqn:Hr; [|done]. simpl. destruct to_res0 as (Hc & Hres & Ho).
  unfold remove, HashMapId.get. destruct (store (hash_map r) !! id) as [h|] eqn:Hh.
  - intros [= <- <-]. rewrite (drop_entry_some id h r) by done. simpl.
    pose proof (grows_abort (tasks w) h) as Hg.
    assert (∀ t x, alter abort h (tasks w) !! t = Some x → live x → t ≠ h ∧ tasks w !! t = Some x) as Hback.
    { intros t x Hx [Hf Ha]. destruct (decide (h = t)) as [<-|Hne]; [|by rewrite lookup_alter_ne in Hx].
      rewrite lookup_alter_eq in Hx. apply fmap_Some in Hx as (y & _ & ->). done. }
    split; simpl; [split_and!; [done|..]| | |by apply (sent_grows w)].
    + eapply res_ok_grows; [done|]. apply (res_ok_drop (tasks w) 0 r id h); try done.
      * pose proof (heap_nodup _ _ _ Hres) as Hnd. pose proof (ro_heap _ _ _ Hres) as Hp.
        assert (id ∈ key <$> heap r) as Hin.
        { rewrite Hp. apply list_elem_of_fmap. exists (id, h). split; [done|]. by apply elem_of_map_to_list. }
        clear -Hnd Hin. induction (heap r) as [|v l IH]; [by apply elem_of_nil in Hin|]. csimpl in *.
        apply NoDup_cons in Hnd as [Hni Hnd]. destruct (decide (key v = id)) as [He|He].
        -- rewrite filter_cons_False by (intros Hk; by apply Hk). rewrite He. f_equiv.
           rewrite (filter_keeps_all (fun v => key v ≠ id)); [done|]. apply Forall_forall. intros y Hy Hk. apply Hni. rewrite He, <- Hk.
           by apply list_elem_of_fmap_2.
        -- rewrite filter_cons_True by done. csimpl. apply elem_of_cons in Hin as [Hin|Hin]; [congruence|].
           rewrite (IH Hnd Hin). apply Permutation_swap.
      * intros v Hv. by apply list_elem_of_filter in Hv as [_ Hv].
    + intros t x Hx Hl. destruct (Hback t x Hx Hl) as [Hne Hx']. destruct (Ho t x Hx' Hl) as [k Hk]. exists k.
      unfold entries in *. simpl. rewrite lookup_delete_ne; [done|]. intros <-. congruence.
    + intros t Ht. apply to_fresh0. by apply lookup_alter_is_Some in Ht.
    + intros t x Hx Hst. destruct (decide (h = t)) as [<-|Hne]; [|rewrite lookup_alter_ne in Hx by done; by eapply to_running0].
      rewrite lookup_alter_eq in Hx. apply fmap_Some in Hx as (y & Hy & ->). by eapply (to_running0 h y).
  - intros [= <- <-]. split; simpl; done.
Qed.

Lemma end_ok n w w' : timers_ok n w → end_process w = Some w' → timers_ok n w'.
Proof.
  intros []. unfold end_process. destruct (timers w) as [r|] eqn:Hr; [|done]. simpl. intros [= <-]. destruct to_res0 as (Hc & Hres & Ho).
  set (l := (map_to_list (store (hash_map r))).*2).
  pose proof (grows_aborts (tasks w) l) as Hg.
  assert (∀ t x, foldr (alter abort) (tasks w) l !! t = Some x →
    ∃ y, tasks w !! t = Some y ∧ task_state y = task_state x ∧ target_time y = target_time x ∧ (live x → live y ∧ t ∉ l)) as Hback.
  { clear. induction l as [|a l IH]; simpl; intros t x Hx.
    - exists x. split_and!; try done. intros Hl. split; [done|]. apply not_elem_of_nil.
    - destruct (decide (a = t)) as [->|Hne].
      + rewrite lookup_alter_eq in Hx. apply fmap_Some in Hx as (z & Hz & ->). destruct (IH t z Hz) as (y & Hy & E1 & E2 & _).
        exists y. split_and!; try done. by intros [_ Ha].
      + rewrite lookup_alter_ne in Hx by done. destruct (IH t x Hx) as (y & Hy & E1 & E2 & Hl). exists y. split_and!; try done.
        intros Hlx. destruct (Hl Hlx) as [? Hni]. split; [done|]. rewrite elem_of_cons. intros [->|Hin]; done. }
  split; simpl.
  - intros t x Hx Hl. destruct (Hback t x Hx) as (y & Hy & _ & _ & Hly). destruct (Hly Hl) as [Hly' Hni].
    destruct (Ho t y Hy Hly') as [k Hk]. apply Hni. apply list_elem_of_fmap. exists (k, t). split; [done|]. by apply elem_of_map_to_list.
  - intros t [x Hx]. destruct (Hback t x Hx) as (y & Hy & _). apply to_fresh0. by rewrite Hy.
  - intros t x Hx Hst. destruct (Hback t x Hx) as (y & Hy & E1 & E2 & _). rewrite <- E2. eapply to_running0; [done|congruence].
  - by apply (sent_grows w).
Qed.

Lemma exec_ok n a w w' : timers_ok n w → seed_room w → timer_exec checks instant_max a w = Some w' → timers_ok n w'.
Proof.
  intros H Hroom He. destruct a as [t|m|found p delay|id| |t|t accept|t]; simpl in He.
  - case_match; [|done]. bool_to_prop. injection He as <-. destruct H. split; try done; simpl.
    + intros x y Hx Hst. pose proof (to_running0 x y Hx Hst). lia.
    + apply (sent_grows w); try done; simpl; [lia|apply timer_grows_refl].
  - destruct (timers w) eqn:Hr; [|done]. injection He as <-. destruct H. by split; simpl; rewrite ?Hr in *.
  - case_match; [|done]. bool_to_prop. destruct (send_after _ _ _ _ _ _) as [[o w1]|] eqn:Hs; [|done]. injection He as <-.
    by eapply (send_after_ok n w).
  - destruct (cancel_timer id w) as [[o w1]|] eqn:Hs; [|done]. injection He as <-. by eapply cancel_ok.
  - by eapply end_ok.
  - unfold start_task in He. destruct (tasks w !! t) as [x|] eqn:Hx; [|done]. simpl in He. destruct (task_state x) eqn:Hst; try done.
    destruct (aborted x) eqn:Ha; [done|]. simpl in He. case_match; [done|]. bool_to_prop. injection He as <-.
    apply (ok_set_state n w t x); try done; [congruence|]. intros _. split; [congruence|done].
  - by eapply run_ok.
  - unfold reap_task in He. destruct (tasks w !! t) as [x|] eqn:Hx; [|done]. simpl in He. destruct (task_state x) eqn:Hst; try done.
    destruct (aborted x) eqn:Ha; [|done]. injection He as <-. apply (ok_set_state n w t x); try done. congruence.
Qed.

Lemma timer_start_ok n : 0 <= n <= max_permits → timers_ok n (timer_start n).
Proof.
  intros Hn. split; simpl.
  - split_and!; try done. split; unfold entries; simpl; try done; [apply HashMapId.new_wf|..].
    + rewrite available_new by done. change (size (∅ : gmap Z Z)) with 0%nat. lia.
    + intros v Hv. by apply elem_of_nil in Hv.
  - intros t [x Hx]. by rewrite lookup_empty in Hx.
  - intros t x Hx. by rewrite lookup_empty in Hx.
  - split; [apply NoDup_nil_2|]. intros t time Hin. by apply elem_of_nil in Hin.
Qed.

Lemma reachable_timers n w : 0 <= n <= max_permits → rtc step (timer_start n) w → timers_ok n w.
Proof.
  intros Hn. apply (rtc_invariant _ (timers_ok n)); [|by apply timer_start_ok]. intros a b Ha (x & Hroom & Hx). by eapply exec_ok.
Qed.

(** A task that was aborted in time. *)
Definition doomed (t : Z) w : Prop :=
  ∃ x, tasks w !! t = Some x ∧ aborted x = true ∧ task_state x ≠ Running ∧ t ∉ (delivered w).*1.

Lemma doomed_aborts t tasks l x :
  tasks !! t = Some x → aborted x = true → task_state x ≠ Running →
  ∃ y, foldr (alter abort) tasks l !! t = Some y ∧ aborted y = true ∧ task_state y ≠ Running.
Proof.
  intros Hx Ha Hs. induction l as [|a l (y & Hy & H)]; simpl; [by exists x|]. destruct (decide (a = t)) as [->|Hne].
  - exists (abort y). rewrite lookup_alter_eq, Hy. by destruct H.
  - exists y. by rewrite lookup_alter_ne.
Qed.

Lemma aborts_hit t tasks l x :
  tasks !! t = Some x → task_state x ≠ Running → t ∈ l →
  ∃ y, foldr (alter abort) tasks l !! t = Some y ∧ aborted y = true ∧ task_state y ≠ Running.
Proof.
  intros Hx Hs. assert (∀ l, ∃ y, foldr (alter abort) tasks l !! t = Some y ∧ task_state y ≠ Running) as Hany.
  { clear l. induction l as [|b l (y & Hy & E)]; simpl; [by exists x|].
    destruct (decide (b = t)) as [->|Hne]; [exists (abort y); by rewrite lookup_alter_eq, Hy|exists y; by rewrite lookup_alter_ne]. }
  induction l as [|b l IH]; [by intros ?%elem_of_nil|]. simpl. destruct (decide (b = t)) as [->|Hne].
  - intros _. destruct (Hany l) as (y & Hy & E). exists (abort y). by rewrite lookup_alter_eq, Hy.
  - intros [->|Hin]%elem_of_cons; [done|]. destruct (IH Hin) as (y & Hy & E). exists y. by rewrite lookup_alter_ne.
Qed.

Lemma doomed_exec n t a w w' :
  timers_ok n w → seed_room w → doomed t w → timer_exec checks instant_max a w = Some w' → doomed t w'.
Proof.
  intros H Hroom (x & Hx & Ha & Hst & Hd) He. unfold doomed.
  assert (∀ t' y, t' ≠ t → ∃ z, <[t' := y]> (tasks w) !! t = Some z ∧ aborted z = true ∧ task_state z ≠ Running) as Hother.
  { intros t' y Hne. exists x. by rewrite lookup_insert_ne. }
  destruct a as [e|m|found p delay|id| |t'|t' accept|t']; simpl in He.
  - case_match; [|done]. injection He as <-. by exists x.
  - case_match; [|done]. injection He as <-. by exists x.
  - case_match; [|done]. destruct (send_after _ _ _ _ _ _) as [[o w1]|] eqn:Hs; [|done]. injection He as <-.
    unfold send_after in Hs. destruct (timers w); [|done]. simpl in Hs. destruct (negb found); [injection Hs as _ <-; by exists x|].
    destruct (instant_max <? _); [injection Hs as _ <-; by exists x|]. destruct (try_reserve _ _ _) as [[] r']; [|injection Hs as _ <-; by exists x].
    destruct (scratch w); [|injection Hs as _ <-; by exists x]. destruct (add _ _ _ _) as [[id r'']|]; [|done]. injection Hs as _ <-. simpl.
    destruct (Hother (next_task w) (mkTask (now w + delay * 1000000) p z false Waiting)) as (y & Hy & H1 & H2); [|by exists y].
    pose proof (to_fresh _ _ H t ltac:(by rewrite Hx)). lia.
  - unfold cancel_timer in He. destruct (timers w); [|done]. simpl in He. destruct (remove id _) as [[h|] r']; injection He as <-; simpl; [|by exists x].
    destruct (doomed_aborts t (tasks w) [h] x Hx Ha Hst) as (y & Hy & H1 & H2). by exists y.
  - unfold end_process in He. destruct (timers w) as [r|]; [|done]. injection He as <-. simpl.
    destruct (doomed_aborts t (tasks w) (map_to_list (store (hash_map r))).*2 x Hx Ha Hst) as (y & Hy & H1 & H2). by exists y.
  - unfold start_task in He. destruct (tasks w !! t') as [y|] eqn:Hy; [|done]. simpl in He. destruct (task_state y); try done.
    destruct (aborted y) eqn:Hay; [done|]. simpl in He. case_match; [done|]. injection He as <-. simpl.
    destruct (Hother t' (set_state Running y)) as (z & Hz & H1 & H2); [congruence|by exists z].
  - unfold run_task in He. destruct (tasks w !! t') as [y|] eqn:Hy; [|done]. simpl in He. destruct (task_state y) eqn:Hsy; try done.
    injection He as <-. simpl. destruct (Hother t' (set_state Finished y)) as (z & Hz & H1 & H2); [congruence|]. exists z.
    split_and!; try done. destruct accept; [|done]. rewrite fmap_app, elem_of_app. intros [Hin|Hin%list_elem_of_singleton]; [done|]. simpl in Hin. congruence.
  - unfold reap_task in He. destruct (tasks w !! t') as [y|] eqn:Hy; [|done]. simpl in He. destruct (task_state y); try done.
    destruct (aborted y) eqn:Hay; [|done]. injection He as <-. simpl. destruct (decide (t' = t)) as [->|Hne].
    + exists (set_state Finished y). rewrite lookup_insert_eq. split_and!; try done. 
    + destruct (Hother t' (set_state Finished y) Hne) as (z & Hz & H1 & H2). by exists z.
Qed.

Lemma doomed_forever n t w w' : timers_ok n w → doomed t w → rtc step w w' → t ∉ (delivered w').*1.
Proof.
  intros H Hd Hr. cut (timers_ok n w' ∧ doomed t w'); [intros [_ (y & _ & _ & _ & Hy)]; exact Hy|].
  revert Hr. apply (rtc_invariant _ (fun w => timers_ok n w ∧ doomed t w)); [|done].
  intros u v [Hu Hdu] (b & Hrb & Hb). split; [by eapply exec_ok|by eapply doomed_exec].
Qed.

Lemma unfinished_undelivered n t x w :
  timers_ok n w → tasks w !! t = Some x → task_state x ≠ Finished → t ∉ (delivered w).*1.
Proof.
  intros H Hx Hst ([t' time] & -> & Hin)%list_elem_of_fmap. destruct (to_sent _ _ H) as [_ Hs].
  destruct (Hs t' time Hin) as (y & Hy & Hf & _). simpl in *. congruence.
Qed.

(** ** Theorems *)

(** C24. However timers are set, cancelled, fire, are cleaned up and dropped with their process: the
    entries of a process and its free permits add up to its capacity; the heap has exactly one
    value per entry, so cancelled timers leave nothing behind; a task that has not finished has
    an entry or was aborted; one that was aborted while it waited never delivers its message;
    one that was aborted while it ran, which has no entry any more and can still deliver its
    message, had reached its deadline; a timer is refused for the limit only with [n] entries,
    the earliest of which is not due or has not finished; and when the process has ended every
    unfinished task is aborted. *)
Theorem timers_accounted n w :
  0 <= n <= max_permits → rtc step (timer_start n) w →
  match timers w with
  | Some r =>
      available_permits (admission r) + Z.of_nat (HashMapId.len (hash_map r)) = n ∧
      key <$> heap r ≡ₚ (map_to_list (store (hash_map r))).*1 ∧
      (∀ t x, tasks w !! t = Some x → task_state x ≠ Finished →
         aborted x = true ∨ ∃ id, HashMapId.get id (hash_map r) = Some t) ∧
      (∀ found p delay w', send_after checks instant_max found p delay w = Some (Err TimerLimit, w') →
         ∃ r', timers w' = Some r' ∧ scratch w' = scratch w ∧ Z.of_nat (HashMapId.len (hash_map r')) = n ∧ cleaned (now w) (tasks w) r')
  | None => ∀ t x, tasks w !! t = Some x → task_state x ≠ Finished → aborted x = true
  end ∧
  ∀ t x, tasks w !! t = Some x → aborted x = true →
    match task_state x with
    | Waiting => ∀ w', rtc step w w' → t ∉ (delivered w').*1
    | Running => target_time x <= now w
    | Finished => True
    end.
Proof.
  intros Hn Hr. pose proof (reachable_timers n w Hn Hr) as H. split.
  - destruct H as [Hres _ _ _]. destruct (timers w) as [r|] eqn:Ht.
    + destruct Hres as (Hc & Hres & Ho). destruct (Hres) as [_ Hp Hh _ _]. split_and!; try done.
      * unfold HashMapId.len, entries in *. lia.
      * intros t x Hx Hf. destruct (aborted x) eqn:Ha; [by left|right]. by apply (Ho t x).
      * intros found p delay w' Hs. unfold send_after in Hs. rewrite Ht in Hs. simpl in Hs.
        destruct (negb found); [done|]. destruct (instant_max <? _); [done|].
        pose proof (try_reserve_ok (now w) (tasks w) r Hres Ho) as Htr. destruct (try_reserve (now w) (tasks w) r) as [[] r'].
        -- destruct (scratch w); [|done]. by destruct (add _ _ _ _) as [[]|].
        -- injection Hs as <-. destruct Htr as (_ & _ & _ & _ & Hcl & Hsz). exists r'. split_and!; try done. by rewrite <- Hc.
    + intros t x Hx Hf. specialize (Hres t x Hx). unfold live in Hres. destruct (aborted x); [done|]. by destruct Hres.
  - intros t x Hx Ha. destruct (task_state x) eqn:Hst; [|by apply (to_running _ _ H t)|done]. intros w'. apply (doomed_forever n); [done|].
    exists x. split_and!; try done; [congruence|]. apply (unfinished_undelivered n t x w H Hx). congruence.
Qed.

(** The message of a timer is delivered at most once, and not before its delay has passed.  A
    timer that is cancelled while its task waits, or whose process ends while it waits, never
    delivers its message. *)
Theorem timer_messages n w :
  0 <= n <= max_permits → rtc step (timer_start n) w →
  NoDup (delivered w).*1 ∧
  (∀ t time, (t, time) ∈ delivered w → ∃ x, tasks w !! t = Some x ∧ target_time x <= time <= now w) ∧
  (∀ r id t x w1 w2, timers w = Some r → HashMapId.get id (hash_map r) = Some t → tasks w !! t = Some x →
     task_state x = Waiting → seed_room w →
     cancel_timer id w = Some (1, w1) ∨ end_process w = Some w1 → rtc step w1 w2 → t ∉ (delivered w2).*1).
Proof.
  intros Hn Hr. pose proof (reachable_timers n w Hn Hr) as H. destruct (to_sent _ _ H) as [Hnd Hs]. split_and!; [done|..].
  - intros t time Hin. destruct (Hs t time Hin) as (x & Hx & _ & Ht). by exists x.
  - intros r id t x w1 w2 Hw Hid Hx Hst Hroom H1 H12.
    assert (t ∉ (delivered w).*1) as Hnot by (apply (unfinished_undelivered n t x w H Hx); congruence).
    assert (∃ a, timer_exec checks instant_max a w = Some w1) as [a Ha].
    { destruct H1 as [H1|H1]; [exists (TCancel id)|exists TEnd]; simpl; by rewrite H1. }
    assert (doomed t w1) as Hd.
    { unfold cancel_timer, end_process, remove in H1. rewrite Hw in H1. simpl in H1. rewrite Hid in H1. destruct H1 as [[= <-]|[= <-]].
      - exists (abort x). simpl. rewrite lookup_alter_eq, Hx. split_and!; try done. simpl. by rewrite Hst.
      - assert (t ∈ (map_to_list (store (hash_map r))).*2) as Hin.
        { apply list_elem_of_fmap. exists (id, t). split; [done|]. by apply elem_of_map_to_list. }
        destruct (aborts_hit t (tasks w) (map_to_list (store (hash_map r))).*2 x Hx) as (y & Hy & E1 & E2); [congruence|done|]. by exists y. }
    apply (doomed_forever n t w1 w2); [by eapply (exec_ok n a w)|done..].
Qed.
End ok.

(** ** A run *)

(** The first of the earliest values *)
Fixpoint earliest (l : list HeapValue) : option HeapValue :=
  match l with
  | [] => None
  | x :: l => match earliest l with Some y => Some (if instant x <=? instant y then x else y) | None => Some x end
  end.

#[export] Program Instance earliest_heap : Heap := { peek := earliest }.
Next Obligation.
  intros [|x l]; simpl; [done|]. split; [|done]. by destruct (earliest l).
Qed.
Next Obligation.
  induction l as [|y l IH]; simpl; [done|]. intros x Hx. destruct (earliest l) as [z|] eqn:He.
  - destruct (IH z eq_refl) as [Hin Hmin]. destruct (instant y <=? instant z) eqn:Hle; injection Hx as <-; bool_to_prop.
    + split; [by left|]. intros v [->|Hv]%elem_of_cons; [lia|]. specialize (Hmin v Hv). lia.
    + split; [by right|]. intros v [->|Hv]%elem_of_cons; [lia|]. by apply Hmin.
  - injection Hx as <-. destruct l as [|z l]; [|simpl in He; by destruct (earliest l)]. split; [by left|].
    intros v [->|Hv]%elem_of_cons; [done|by apply elem_of_nil in Hv].
Qed.

Definition run_of (l : list TimerAction) : TimerWorld (Sem := nat) :=
  default (timer_start 2) (timer_run true u64_max l (timer_start 2)).

(** A world whose tables are not exhausted, for the steps of a run. *)
Fixpoint room_all (l : list TimerAction) (w : TimerWorld (Sem := nat)) : bool :=
  match l with
  | [] => true
  | a :: l =>
      match timers w with Some r => id_seed (hash_map r) <? u64_max | None => true end &&
      match timer_exec true u64_max a w with Some w => room_all l w | None => false end
  end.

Lemma run_of_reach l : room_all l (timer_start 2) = true → rtc (timer_step true u64_max) (timer_start 2) (run_of l).
Proof.
  unfold run_of. generalize (timer_start (Sem := nat) 2) at 1 2 3 4. intros w0. revert w0.
  assert (∀ d w, room_all l w = true → rtc (timer_step true u64_max) w (default d (timer_run true u64_max l w))) as H; [|intros w; apply H].
  intros d. induction l as [|a l IH]; intros w; simpl; [done|]. intros [Hr H]%andb_true_iff.
  destruct (timer_exec true u64_max a w) as [w1|] eqn:Ha; [|done]. simpl. apply (rtc_l _ _ w1); [|by apply IH].
  exists a. split; [|done]. unfold seed_room. destruct (timers w); [by bool_to_prop|done].
Qed.

(** Two timers; the first one fires; a third one takes its place; the second one is cancelled. *)
Definition timer_acts : list TimerAction :=
  [TCompose 10; TSendAfter true 7 5; TCompose 11; TSendAfter true 7 9; TTick 5000000; TStart 0; TRun 0 true;
   TCompose 12; TSendAfter true 8 20].

Lemma run_acts_reach : rtc (timer_step true u64_max) (timer_start 2) (run_of timer_acts).
Proof. apply run_of_reach. vm_compute. reflexivity. Qed.

Lemma timers_accounted_witness :
  ∃ r, timers (run_of timer_acts) = Some r ∧
    available_permits (admission r) + Z.of_nat (HashMapId.len (hash_map r)) = 2 ∧
    key <$> heap r ≡ₚ (map_to_list (store (hash_map r))).*1.
Proof.
  pose proof (timers_accounted true u64_max 2 (run_of timer_acts)) as H.
  assert (∃ r, timers (run_of timer_acts) = Some r) as [r Hr] by (eexists; vm_compute; reflexivity).
  rewrite Hr in H. exists r. split; [exact Hr|]. destruct H as ((H1 & H2 & _) & _); [split; discriminate|exact run_acts_reach|].
  split; [exact H1|exact H2].
Defined.

Lemma timer_messages_witness :
  delivered (run_of timer_acts) = [(0, 5000000)] ∧ NoDup (delivered (run_of timer_acts)).*1.
Proof.
  split; [vm_compute; reflexivity|].
  destruct (timer_messages true u64_max 2 (run_of timer_acts)) as [H _]; [split; discriminate|exact run_acts_reach|exact H].
Defined.

(** The documentation of [cancel_timer] says that it returns 0 when the timer had expired.  A
    timer that has fired and delivered its message is found, and 1 is returned, as long as no other
    timer was set since. *)
Theorem cancel_finds_fired_timer :
  ∃ w w1, rtc (timer_step true u64_max) (timer_start 2) w ∧ delivered w = [(0, 5000000)] ∧ cancel_timer 0 w = Some (1, w1).
Proof.
  exists (run_of (take 7 timer_acts)). eexists. split_and!; [apply run_of_reach; vm_compute; reflexivity|vm_compute; reflexivity|vm_compute; reflexivity].
Qed.

(** The comment in [send_after] says that no detached task can bypass the ceiling of a process.
    A timer that is cancelled while its task runs gives its permit back although the task still
    sends: with a capacity of 2 a process has two timers that wait and a third task that
    delivers its message afterwards. *)
Theorem cancelled_running_task_sends :
  ∃ w r w1 r1, rtc (timer_step true u64_max) (timer_start 2) w ∧ timers w = Some r ∧
    HashMapId.len (hash_map r) = 2%nat ∧ available_permits (admission r) = 0 ∧ (∀ id, HashMapId.get id (hash_map r) ≠ Some 0) ∧
    delivered w = [] ∧ timer_exec true u64_max (TRun 0 true) w = Some w1 ∧ timers w1 = Some r1 ∧ delivered w1 = [(0, 5000000)].
Proof.
  exists (run_of [TCompose 10; TSendAfter true 7 5; TCompose 11; TSendAfter true 7 9; TTick 5000000; TStart 0; TCancel 0;
                  TCompose 12; TSendAfter true 8 20]). eexists _, _, _.
  split; [apply run_of_reach; vm_compute; reflexivity|]. split; [vm_compute; reflexivity|]. split; [reflexivity|]. split; [reflexivity|].
  split; [|split; [vm_compute; reflexivity|split; [vm_compute; reflexivity|split; reflexivity]]].
  intros id Hid. unfold HashMapId.get in Hid. apply elem_of_map_to_list in Hid. vm_compute in Hid.
  apply list_elem_of_In in Hid. simpl in Hid. destruct Hid as [Hid|[Hid|[]]]; discriminate.
Qed.
