(* ===== verification/EnvironmentSteps.v ===== *)
(** * The threads of a node, one atomic access at a time

    [Environment] describes [add_process], [remove_process], [create_atomic] and the destruction
    of an environment as the functions they are when nobody else runs.  In
    [crates/lunatic-process/src/env.rs] they are sequences of atomic accesses, between which the
    other threads of the node run: a registration holds the guard of its entry of the table while
    it reserves a slot of the environment, then a lease of the node, and inserts; a removal takes
    the entry out, then gives the slot back, then the lease; the creation of an environment holds
    the guard of its entry of the registry while it takes a generation, reserves a slot and
    inserts; a destructor gives the leases back one by one, and then the slot and the entry of
    its generation.  Here each access is a step.

    A guard excludes the other threads from its key; [DashMap] locks a whole shard, which only
    excludes more.  The counters are read and written by single atomic operations, as in
    [Environment]. *)

From S2P Require Import Prelude Message Signal Environment.

Section steps.
Context {M : Type → Type} `{FinMap Z M}.

(** ** State *)

(** A registration: it has the guard; then a slot; then a lease, if the environment has a quota;
    or it was refused by the node and still has the slot. *)
Inductive AddPc : Type :=
| AEntry (p : ProcessRef)
| ASlot (p : ProcessRef)
| ALease (p : ProcessRef) (lease : bool)
| ABack.

(** A removal: the entry is out of the table; the slot is given back. *)
Inductive RemovePc : Type :=
| RSlot (lease : bool)
| RLease (lease : bool).

(** An environment with the threads that are in it: the registrations by the identity whose entry
    they guard, the removals by a number. *)
Record Cell : Type := mkCell {
  env : Inner M;
  adding : gmap Z AddPc;
  removing : gmap Z RemovePc;
}.

(** The guard of an entry of the registry: a creation that has its generation, and then its slot;
    the release of a generation whose slot is given back. *)
Inductive EnvPc : Type :=
| CGeneration (generation : Z)
| CSlot (generation : Z)
| RRemove.

(** An environment that is being destroyed: how many leases it still has. *)
Record Dying : Type := mkDying {
  leases_left : nat;
  dying_id : Z;
  dying_generation : option Z;
}.

(** [names]: the entries of the registry, with the generation and the address of the environment. *)
Record Fine : Type := mkFine {
  cells : gmap Z Cell;
  quota : NodeProcessQuota;
  names : gmap Z (Z * Z);
  guards : gmap Z EnvPc;
  dying : gmap Z Dying;
  env_count : Z;
  max_envs : Z;
  max_procs : Z;
  generations : Z;
  addr : Z;
}.

Definition fine_start (max_envs max_procs max_node : Z) : Fine :=
  mkFine ∅ (quota_new max_node) ∅ ∅ ∅ 0 max_envs max_procs 1 0.

Definition set_cells (m : gmap Z Cell) (F : Fine) : Fine :=
  mkFine m (quota F) (names F) (guards F) (dying F) (env_count F) (max_envs F) (max_procs F) (generations F) (addr F).
Definition set_fine_quota (q : NodeProcessQuota) (F : Fine) : Fine :=
  mkFine (cells F) q (names F) (guards F) (dying F) (env_count F) (max_envs F) (max_procs F) (generations F) (addr F).
Definition set_names (m : gmap Z (Z * Z)) (F : Fine) : Fine :=
  mkFine (cells F) (quota F) m (guards F) (dying F) (env_count F) (max_envs F) (max_procs F) (generations F) (addr F).
Definition set_guards (m : gmap Z EnvPc) (F : Fine) : Fine :=
  mkFine (cells F) (quota F) (names F) m (dying F) (env_count F) (max_envs F) (max_procs F) (generations F) (addr F).
Definition set_dying (m : gmap Z Dying) (F : Fine) : Fine :=
  mkFine (cells F) (quota F) (names F) (guards F) m (env_count F) (max_envs F) (max_procs F) (generations F) (addr F).
Definition set_env_count (n : Z) (F : Fine) : Fine :=
  mkFine (cells F) (quota F) (names F) (guards F) (dying F) n (max_envs F) (max_procs F) (generations F) (addr F).
Definition set_generations (g : Z) (F : Fine) : Fine :=
  mkFine (cells F) (quota F) (names F) (guards F) (dying F) (env_count F) (max_envs F) (max_procs F) g (addr F).

(** A new environment, at an address of its own. *)
Definition new_cell (i : Inner M) (F : Fine) : Fine :=
  mkFine (<[addr F := mkCell i ∅ ∅]> (cells F)) (quota F) (names F) (guards F) (dying F) (env_count F) (max_envs F) (max_procs F)
    (generations F) (addr F + 1).

(** ** Steps *)

Inductive FineOp : Type :=
| OStandalone (id : Z) (max : option Z)        (* [LunaticEnvironment::new] and its like *)
| OAdd (x id : Z) (p : ProcessRef)             (* [add_process], up to the guard *)
| OAddStep (x id : Z)
| ORemove (x id t : Z)                         (* [remove_process], the access of the table *)
| ORemoveStep (x t : Z)
| OCreate (id : Z) (registry : option Z)       (* [create_atomic], up to the slot *)
| OGuardStep (id : Z) (registry : option Z)
| ODestroy (x : Z)                             (* the last owner is gone *)
| ODestroyStep (x : Z).

Inductive FineResult : Type := FBlocked | FPanicked | FDone (F : Fine).

Definition or_panic {A} (o : option A) (k : A → FineResult) : FineResult := match o with Some a => k a | None => FPanicked end.

(** Entries of the table with a lease. *)
Definition table_leases (i : Inner M) : nat := length (filter (fun e => node_lease e.2 = true) (map_to_list (processes i))).

Definition add_start (id : Z) (p : ProcessRef) (c : Cell) : option Cell :=
  match adding c !! id with
  | Some _ => None
  | None =>
      match processes (env c) !! id with
      | Some _ => Some c                       (* already registered *)
      | None => Some (mkCell (env c) (<[id := AEntry p]> (adding c)) (removing c))
      end
  end.

(** The next access of a registration. *)
Definition add_step (x id : Z) (c : Cell) (F : Fine) : FineResult :=
  let put i m q := FDone (set_fine_quota q (set_cells (<[x := mkCell i m (removing c)]> (cells F)) F)) in
  match adding c !! id with
  | None => FBlocked
  | Some (AEntry p) =>
      match reserve_process_slot (env c) with
      | Err _ => put (env c) (delete id (adding c)) (quota F)
      | Ok i => put i (<[id := ASlot p]> (adding c)) (quota F)
      end
  | Some (ASlot p) =>
      if uses_quota (env c) then
        match quota_reserve (environment_id (env c)) (quota F) with
        | Ok q => put (env c) (<[id := ALease p true]> (adding c)) q
        | Err _ => put (env c) (<[id := ABack]> (adding c)) (quota F)
        end
      else put (env c) (<[id := ALease p false]> (adding c)) (quota F)
  | Some ABack => or_panic (release_process_slot (env c)) (fun i => put i (delete id (adding c)) (quota F))
  | Some (ALease p l) =>
      put (set_processes (<[id := mkEntry p l]> (processes (env c))) (env c)) (delete id (adding c)) (quota F)
  end.

Definition remove_start (id t : Z) (c : Cell) : option Cell :=
  match adding c !! id, removing c !! t with
  | None, None =>
      match processes (env c) !! id with
      | None => Some c                         (* no such process *)
      | Some e =>
          Some (mkCell (set_processes (delete id (processes (env c))) (env c)) (adding c) (<[t := RSlot (node_lease e)]> (removing c)))
      end
  | _, _ => None
  end.

Definition remove_step (x t : Z) (c : Cell) (F : Fine) : FineResult :=
  let put i m q := FDone (set_fine_quota q (set_cells (<[x := mkCell i (adding c) m]> (cells F)) F)) in
  match removing c !! t with
  | None => FBlocked
  | Some (RSlot l) => or_panic (release_process_slot (env c)) (fun i => put i (<[t := RLease l]> (removing c)) (quota F))
  | Some (RLease l) =>
      or_panic (if l then lease_drop (quota F) else Some (quota F)) (fun q => put (env c) (delete t (removing c)) q)
  end.

(** [build_environment] and the insertion of the entry. *)
Definition install (id g : Z) (registry : option Z) (F : Fine) : Fine :=
  set_names (<[id := (g, addr F)]> (names F)) (new_cell (with_node_options id (Some (max_procs F)) true registry (Some g)) F).

(** An entry whose environment has an owner is used again; one whose environment is gone gives its
    slot to the new generation. *)
Definition create_start (id : Z) (registry : option Z) (F : Fine) : FineResult :=
  match guards F !! id with
  | Some _ => FBlocked
  | None =>
      match names F !! id with
      | Some (_, x) =>
          match cells F !! x with
          | Some _ => FDone F
          | None =>
              match checked_add u64_max (generations F) 1 with
              | None => FDone F
              | Some g' => FDone (install id (generations F) registry (set_generations g' F))
              end
          end
      | None =>
          match checked_add u64_max (generations F) 1 with
          | None => FDone F
          | Some g' => FDone (set_guards (<[id := CGeneration (generations F)]> (guards F)) (set_generations g' F))
          end
      end
  end.

Definition guard_step (id : Z) (registry : option Z) (F : Fine) : FineResult :=
  match guards F !! id with
  | None => FBlocked
  | Some (CGeneration g) =>
      if env_count F <? max_envs F then FDone (set_env_count (env_count F + 1) (set_guards (<[id := CSlot g]> (guards F)) F))
      else FDone (set_guards (delete id (guards F)) F)
  | Some (CSlot g) => FDone (set_guards (delete id (guards F)) (install id g registry F))
  | Some RRemove => FDone (set_guards (delete id (guards F)) (set_names (delete id (names F)) F))
  end.

(** No thread is in the environment. *)
Definition destroy_start (x : Z) (c : Cell) (F : Fine) : FineResult :=
  if bool_decide (adding c = ∅ ∧ removing c = ∅)
  then FDone (set_dying (<[x := mkDying (table_leases (env c)) (environment_id (env c)) (lifecycle (env c))]> (dying F))
                (set_cells (delete x (cells F)) F))
  else FBlocked.

Definition destroy_step (x : Z) (F : Fine) : FineResult :=
  match dying F !! x with
  | None => FBlocked
  | Some (mkDying (S n) id g) =>
      or_panic (lease_drop (quota F)) (fun q => FDone (set_fine_quota q (set_dying (<[x := mkDying n id g]> (dying F)) F)))
  | Some (mkDying O id None) => FDone (set_dying (delete x (dying F)) F)
  | Some (mkDying O id (Some g)) =>
      match guards F !! id with
      | Some _ => FBlocked
      | None =>
          if bool_decide ((names F !! id) ≫= (fun e => Some e.1) = Some g)
          then or_panic (checked_sub (env_count F) 1) (fun n =>
                 FDone (set_env_count n (set_guards (<[id := RRemove]> (guards F)) (set_dying (delete x (dying F)) F))))
          else FDone (set_dying (delete x (dying F)) F)
      end
  end.

Definition in_cell (x : Z) (F : Fine) (k : Cell → FineResult) : FineResult :=
  match cells F !! x with Some c => k c | None => FBlocked end.

Definition fine_exec (op : FineOp) (F : Fine) : FineResult :=
  match op with
  | OStandalone id max => FDone (new_cell (with_options id max None) F)
  | OAdd x id p => in_cell x F (fun c => match add_start id p c with Some c => FDone (set_cells (<[x := c]> (cells F)) F) | None => FBlocked end)
  | OAddStep x id => in_cell x F (fun c => add_step x id c F)
  | ORemove x id t =>
      in_cell x F (fun c => match remove_start id t c with Some c => FDone (set_cells (<[x := c]> (cells F)) F) | None => FBlocked end)
  | ORemoveStep x t => in_cell x F (fun c => remove_step x t c F)
  | OCreate id registry => create_start id registry F
  | OGuardStep id registry => guard_step id registry F
  | ODestroy x => in_cell x F (fun c => destroy_start x c F)
  | ODestroyStep x => destroy_step x F
  end.

Definition fine_step (F F' : Fine) : Prop := ∃ op, fine_exec op F = FDone F'.
End steps.
Arguments Cell : clear implicits.
Arguments Fine : clear implicits.
Arguments FineResult : clear implicits.

(** ** What the counters count *)

Section ok.
Context {M : Type → Type} `{fin_map : FinMap Z M}.
Implicit Types (c : Cell M) (F : Fine M) (i : Inner M).

(** Slots and leases that threads hold. *)
Definition add_slot (pc : AddPc) : Z := match pc with AEntry _ => 0 | _ => 1 end.
Definition remove_slot (pc : RemovePc) : Z := match pc with RSlot _ => 1 | RLease _ => 0 end.
Definition add_lease (pc : AddPc) : Z := match pc with ALease _ true => 1 | _ => 0 end.
Definition remove_lease (pc : RemovePc) : Z := match pc with RSlot true | RLease true => 1 | _ => 0 end.

Definition slots_in_flight c : Z := map_sum add_slot (adding c) + map_sum remove_slot (removing c).
Definition leases_in_flight c : Z := map_sum add_lease (adding c) + map_sum remove_lease (removing c).

(** The processes of a table that count for the node. *)
Definition table_size i : Z := if uses_quota i then Z.of_nat (size (processes i)) else 0.
Definition cell_leases c : Z := table_size (env c) + leases_in_flight c.

Record cell_ok c : Prop := {
  co_count : process_count (env c) = Z.of_nat (size (processes (env c))) + slots_in_flight c;
  co_limit limit : max_processes (env c) = Some limit → 0 <= limit → process_count (env c) <= limit;
  co_vacant id pc : adding c !! id = Some pc → processes (env c) !! id = None;
  co_lease id e : processes (env c) !! id = Some e → node_lease e = uses_quota (env c);
  co_add_lease id p l : adding c !! id = Some (ALease p l) → l = uses_quota (env c);
  co_remove_lease t pc : removing c !! t = Some pc → pc = RSlot (uses_quota (env c)) ∨ pc = RLease (uses_quota (env c));
}.

(** A reserved slot of the registry that has no entry yet; an entry whose slot is given back. *)
Definition guard_slot (g : EnvPc) : Z := match g with CGeneration _ => 0 | CSlot _ => 1 | RRemove => -1 end.

Definition dying_leases (d : Dying) : Z := Z.of_nat (leases_left d).

Record fine_ok F : Prop := {
  fo_cells x c : cells F !! x = Some c → cell_ok c ∧ x < addr F ∧ dying F !! x = None ∧
                 (lifecycle (env c) ≠ None → max_processes (env c) = Some (max_procs F));
  fo_dying x d : dying F !! x = Some d → x < addr F;
  fo_quota : quota_count (quota F) = map_sum cell_leases (cells F) + map_sum dying_leases (dying F);
  fo_node : quota_count (quota F) <= quota_limit (quota F);
  fo_guards id g : guards F !! id = Some g → match g with RRemove => is_Some (names F !! id) | _ => names F !! id = None end;
  fo_count : env_count F = Z.of_nat (size (names F)) + map_sum guard_slot (guards F);
  fo_envs : env_count F <= max_envs F;
}.

(** *** Counters are not negative *)

Lemma add_slot_pos pc : 0 <= add_slot pc.
Proof. by destruct pc. Qed.
Lemma remove_slot_pos pc : 0 <= remove_slot pc.
Proof. by destruct pc. Qed.
Lemma add_lease_pos pc : 0 <= add_lease pc.
Proof. by destruct pc as [| |? []|]. Qed.
Lemma remove_lease_pos pc : 0 <= remove_lease pc.
Proof. by destruct pc as [[]|[]]. Qed.

Lemma dying_leases_mk n id g : dying_leases (mkDying n id g) = Z.of_nat n.
Proof. done. Qed.
Lemma dying_leases_pos d : 0 <= dying_leases d.
Proof. unfold dying_leases. lia. Qed.

Lemma cell_leases_pos c : 0 <= cell_leases c.
Proof.
  unfold cell_leases, leases_in_flight, table_size. pose proof (map_sum_nonneg add_lease (adding c) add_lease_pos).
  pose proof (map_sum_nonneg remove_lease (removing c) remove_lease_pos). destruct (uses_quota _); lia.
Qed.

Lemma quota_covers F x c : fine_ok F → cells F !! x = Some c → cell_leases c <= quota_count (quota F).
Proof.
  intros Hok Hc. rewrite (fo_quota _ Hok). pose proof (map_sum_lookup_le cell_leases _ _ _ cell_leases_pos Hc).
  pose proof (map_sum_nonneg dying_leases (dying F) dying_leases_pos). lia.
Qed.

Lemma slots_cover_add c id pc : adding c !! id = Some pc → add_slot pc <= slots_in_flight c.
Proof.
  intros Hid. unfold slots_in_flight. pose proof (map_sum_lookup_le add_slot _ _ _ add_slot_pos Hid).
  pose proof (map_sum_nonneg remove_slot (removing c) remove_slot_pos). lia.
Qed.
Lemma slots_cover_remove c t pc : removing c !! t = Some pc → remove_slot pc <= slots_in_flight c.
Proof.
  intros Ht. unfold slots_in_flight. pose proof (map_sum_lookup_le remove_slot _ _ _ remove_slot_pos Ht).
  pose proof (map_sum_nonneg add_slot (adding c) add_slot_pos). lia.
Qed.

(** The entries of a table with a lease are all or none. *)
Lemma table_leases_size c : cell_ok c → Z.of_nat (table_leases (env c)) = table_size (env c).
Proof.
  intros Hok. unfold table_leases, table_size. destruct (uses_quota (env c)) eqn:Hq.
  - rewrite filter_keeps_all; [by rewrite length_map_to_list|]. apply list.Forall_forall. intros [id e] Hin%elem_of_map_to_list. simpl. by rewrite (co_lease _ Hok id e Hin).
  - rewrite filter_keeps_none; [done|]. apply list.Forall_forall. intros [id e] Hin%elem_of_map_to_list. simpl. rewrite (co_lease _ Hok id e Hin). congruence.
Qed.

(** *** A step inside an environment *)

Lemma put_cell_ok F x c c' q :
  fine_ok F → cells F !! x = Some c → cell_ok c' → lifecycle (env c') = lifecycle (env c) → max_processes (env c') = max_processes (env c) →
  quota_limit q = quota_limit (quota F) → quota_count q <= quota_limit q →
  quota_count q - quota_count (quota F) = cell_leases c' - cell_leases c →
  fine_ok (set_fine_quota q (set_cells (<[x := c']> (cells F)) F)).
Proof.
  intros [Hcells Hdying Hquota Hnode Hguards Hcount Henvs] Hc Hok Hl Hm Hlim Hle Hdiff. split; simpl; try done.
  - intros y d [[<- <-]|[_ Hy]]%lookup_insert_Some; [|by apply Hcells]. destruct (Hcells x c Hc) as (_ & ? & ? & ?). by rewrite Hl, Hm.
  - rewrite (map_sum_replace _ _ _ _ _ Hc). lia.
Qed.

Lemma same_quota F : set_fine_quota (quota F) F = F.
Proof. by destruct F. Qed.

Lemma quota_reserve_Ok id q q' : quota_reserve id q = Ok q' → q' = mkQuota (quota_count q + 1) (quota_limit q) ∧ quota_count q < quota_limit q.
Proof. unfold quota_reserve. destruct (_ <? _) eqn:Hlt; [|done]. intros [= <-]. by bool_to_prop. Qed.

Lemma reserve_slot_Ok i i' :
  reserve_process_slot i = Ok i' →
  i' = set_process_count (process_count i + 1) i ∧ ∀ limit, max_processes i = Some limit → process_count i < limit.
Proof.
  unfold reserve_process_slot. destruct (max_processes i) as [limit|].
  - destruct (_ <? _) eqn:Hlt; [|done]. intros [= <-]. bool_to_prop. split; [done|]. by intros ? [= <-].
  - destruct (checked_add _ _ _) as [n|] eqn:Hn; [|done]. apply checked_add_Some in Hn as [-> _]. by intros [= <-].
Qed.

Lemma release_slot_Some i : 1 <= process_count i → release_process_slot i = Some (set_process_count (process_count i - 1) i).
Proof. intros Hge. unfold release_process_slot, checked_sub. destruct (_ <=? _) eqn:Hle; bool_to_prop; [done|lia]. Qed.

Lemma lease_drop_Some q : 1 <= quota_count q → lease_drop q = Some (mkQuota (quota_count q - 1) (quota_limit q)).
Proof. intros Hge. unfold lease_drop, checked_sub. destruct (_ <=? _) eqn:Hle; bool_to_prop; [done|lia]. Qed.

(** How the sums move when a thread makes an access. *)
Lemma adding_replace c i id pc pc' :
  adding c !! id = Some pc →
  slots_in_flight (mkCell i (<[id := pc']> (adding c)) (removing c)) = slots_in_flight c - add_slot pc + add_slot pc' ∧
  leases_in_flight (mkCell i (<[id := pc']> (adding c)) (removing c)) = leases_in_flight c - add_lease pc + add_lease pc'.
Proof. intros Hid. unfold slots_in_flight, leases_in_flight. simpl. rewrite !(map_sum_replace _ _ _ _ _ Hid). lia. Qed.
Lemma adding_delete c i id pc :
  adding c !! id = Some pc →
  slots_in_flight (mkCell i (delete id (adding c)) (removing c)) = slots_in_flight c - add_slot pc ∧
  leases_in_flight (mkCell i (delete id (adding c)) (removing c)) = leases_in_flight c - add_lease pc.
Proof. intros Hid. unfold slots_in_flight, leases_in_flight. simpl. rewrite !(map_sum_delete _ _ _ _ Hid). lia. Qed.
Lemma removing_replace c i t pc pc' :
  removing c !! t = Some pc →
  slots_in_flight (mkCell i (adding c) (<[t := pc']> (removing c))) = slots_in_flight c - remove_slot pc + remove_slot pc' ∧
  leases_in_flight (mkCell i (adding c) (<[t := pc']> (removing c))) = leases_in_flight c - remove_lease pc + remove_lease pc'.
Proof. intros Ht. unfold slots_in_flight, leases_in_flight. simpl. rewrite !(map_sum_replace _ _ _ _ _ Ht). lia. Qed.
Lemma removing_delete c i t pc :
  removing c !! t = Some pc →
  slots_in_flight (mkCell i (adding c) (delete t (removing c))) = slots_in_flight c - remove_slot pc ∧
  leases_in_flight (mkCell i (adding c) (delete t (removing c))) = leases_in_flight c - remove_lease pc.
Proof. intros Ht. unfold slots_in_flight, leases_in_flight. simpl. rewrite !(map_sum_delete _ _ _ _ Ht). lia. Qed.

(** A thread goes on, and the counter of the environment may change with it. *)
Lemma adding_ok c id pc pc' n :
  cell_ok c → adding c !! id = Some pc → n - process_count (env c) = add_slot pc' - add_slot pc →
  (∀ limit, max_processes (env c) = Some limit → 0 <= limit → n <= limit) →
  (∀ p l, pc' = ALease p l → l = uses_quota (env c)) →
  cell_ok (mkCell (set_process_count n (env c)) (<[id := pc']> (adding c)) (removing c)).
Proof.
  intros [K1 K2 K3 K4 K5 K6] Hid Hn Hlim Hpc. destruct (adding_replace c (set_process_count n (env c)) id pc pc' Hid) as [Hs _].
  split; simpl; try done.
  - rewrite Hs. lia.
  - intros id' x [[<- <-]|[_ Hx]]%lookup_insert_Some; eauto.
  - intros id' p l [[<- Hp]|[_ Hx]]%lookup_insert_Some; eauto.
Qed.

Lemma adding_done_ok c id pc n :
  cell_ok c → adding c !! id = Some pc → n - process_count (env c) = - add_slot pc →
  (∀ limit, max_processes (env c) = Some limit → 0 <= limit → n <= limit) →
  cell_ok (mkCell (set_process_count n (env c)) (delete id (adding c)) (removing c)).
Proof.
  intros [K1 K2 K3 K4 K5 K6] Hid Hn Hlim. destruct (adding_delete c (set_process_count n (env c)) id pc Hid) as [Hs _].
  split; simpl; try done.
  - rewrite Hs. lia.
  - intros id' x [_ Hx]%lookup_delete_Some; eauto.
  - intros id' p l [_ Hx]%lookup_delete_Some; eauto.
Qed.

Lemma same_count i : set_process_count (process_count i) i = i.
Proof. by destruct i. Qed.

(** The result of a step of a thread of an environment is fine. *)
Definition fine_result (r : FineResult M) : Prop :=
  match r with FBlocked => True | FPanicked => False | FDone F => fine_ok F end.

Lemma add_step_ok F x id c : fine_ok F → cells F !! x = Some c → fine_result (add_step x id c F).
Proof.
  intros Hok Hc. destruct (fo_cells _ Hok x c Hc) as (Hcell & _). pose proof (fo_node _ Hok) as Hnode. unfold add_step.
  destruct (adding c !! id) as [pc|] eqn:Hid; [|done]. pose proof (slots_cover_add c id pc Hid) as Hcover.
  pose proof (co_count _ Hcell) as Hcount. pose proof (co_limit _ Hcell) as Hlim.
  destruct pc as [p|p|p l|]; simpl in Hcover.
  - destruct (reserve_process_slot (env c)) as [i|e] eqn:Hr; simpl.
    + apply reserve_slot_Ok in Hr as [-> Hlt]. apply (put_cell_ok F x c); try done; [|].
      * apply (adding_ok c id (AEntry p)); try done; simpl; [lia|]. intros limit Hm _. specialize (Hlt limit Hm). lia.
      * unfold cell_leases. rewrite (proj2 (adding_replace c _ id _ _ Hid)). unfold table_size. simpl. lia.
    + apply (put_cell_ok F x c); try done.
      * rewrite <- (same_count (env c)). apply (adding_done_ok c id (AEntry p)); simpl; try done. lia.
      * unfold cell_leases. rewrite (proj2 (adding_delete c _ id _ Hid)). simpl. lia.
  - destruct (uses_quota (env c)) eqn:Hq; [destruct (quota_reserve _ _) as [q|e] eqn:Hr|]; simpl.
    + apply quota_reserve_Ok in Hr as [-> Hlt]. apply (put_cell_ok F x c); try done; simpl; [|lia|].
      * rewrite <- (same_count (env c)). apply (adding_ok c id (ASlot p)); simpl; try done; [lia|]. intros p' l [= _ <-]. done.
      * unfold cell_leases. rewrite (proj2 (adding_replace c _ id _ _ Hid)). simpl. lia.
    + apply (put_cell_ok F x c); try done.
      * rewrite <- (same_count (env c)). apply (adding_ok c id (ASlot p)); simpl; try done. lia.
      * unfold cell_leases. rewrite (proj2 (adding_replace c _ id _ _ Hid)). simpl. lia.
    + apply (put_cell_ok F x c); try done.
      * rewrite <- (same_count (env c)). apply (adding_ok c id (ASlot p)); simpl; try done; [lia|]. intros p' l [= _ <-]. done.
      * unfold cell_leases. rewrite (proj2 (adding_replace c _ id _ _ Hid)). simpl. lia.
  - pose proof (co_vacant _ Hcell id _ Hid) as Hvac. pose proof (co_add_lease _ Hcell id p l Hid) as Hl. destruct Hcell as [K1 K2 K3 K4 K5 K6].
    apply (put_cell_ok F x c); try done.
    + destruct (adding_delete c (set_processes (<[id := mkEntry p l]> (processes (env c))) (env c)) id _ Hid) as [Hs _]. split; simpl; try done.
      * rewrite Hs, map_size_insert_None by done. simpl. lia.
      * intros id' pc [Hne Hx]%lookup_delete_Some. rewrite lookup_insert_ne by done. eauto.
      * intros id' e [[<- <-]|[_ He]]%lookup_insert_Some; eauto.
      * intros id' p' l' [_ Hx]%lookup_delete_Some; eauto.
    + unfold cell_leases. rewrite (proj2 (adding_delete c _ id _ Hid)). unfold table_size. simpl. rewrite map_size_insert_None by done.
      rewrite <- Hl. destruct l; lia.
  - rewrite release_slot_Some by lia. simpl. apply (put_cell_ok F x c); try done.
    + apply (adding_done_ok c id ABack); simpl; try done; [lia|]. intros limit Hm Hpos. specialize (Hlim limit Hm Hpos). lia.
    + unfold cell_leases. rewrite (proj2 (adding_delete c _ id _ Hid)). unfold table_size. simpl. lia.
Qed.

Lemma remove_step_ok F x t c : fine_ok F → cells F !! x = Some c → fine_result (remove_step x t c F).
Proof.
  intros Hok Hc. destruct (fo_cells _ Hok x c Hc) as (Hcell & _). pose proof (fo_node _ Hok) as Hnode. unfold remove_step.
  destruct (removing c !! t) as [pc|] eqn:Ht; [|done]. pose proof (slots_cover_remove c t pc Ht) as Hcover.
  pose proof (quota_covers F x c Hok Hc) as Hquota. destruct Hcell as [K1 K2 K3 K4 K5 K6]. destruct pc as [l|l]; simpl in Hcover.
  - rewrite release_slot_Some by lia. simpl. destruct (removing_replace c (set_process_count (process_count (env c) - 1) (env c)) t _ (RLease l) Ht) as [Hs Hl].
    apply (put_cell_ok F x c); try done.
    + split; simpl; try done.
      * rewrite Hs. simpl. lia.
      * intros limit Hm Hpos. specialize (K2 limit Hm Hpos). lia.
      * intros t' pc [[<- <-]|[_ Hx]]%lookup_insert_Some; [|eauto]. destruct (K6 t _ Ht) as [[= <-]|[=]]. by right.
    + unfold cell_leases. rewrite Hl. unfold table_size. simpl. destruct l; lia.
  - destruct (removing_delete c (env c) t _ Ht) as [Hs Hl].
    assert (cell_ok (mkCell (env c) (adding c) (delete t (removing c)))) as Hcell'.
    { split; simpl; try done; [rewrite Hs; simpl; lia|]. intros t' pc [_ Hx]%lookup_delete_Some. eauto. }
    destruct l; [rewrite lease_drop_Some|]; simpl.
    + apply (put_cell_ok F x c); try done; simpl; [lia|]. unfold cell_leases. rewrite Hl. simpl. lia.
    + unfold cell_leases, leases_in_flight, table_size in Hquota. pose proof (map_sum_lookup_le remove_lease _ _ _ remove_lease_pos Ht) as Hge.
      pose proof (map_sum_nonneg add_lease (adding c) add_lease_pos). simpl in Hge. destruct (uses_quota (env c)); lia.
    + apply (put_cell_ok F x c); try done. unfold cell_leases. rewrite Hl. simpl. lia.
Qed.

Lemma add_start_ok F x id p c c' : fine_ok F → cells F !! x = Some c → add_start id p c = Some c' → fine_ok (set_cells (<[x := c']> (cells F)) F).
Proof.
  intros Hok Hc. destruct (fo_cells _ Hok x c Hc) as (Hcell & _). pose proof (fo_node _ Hok). rewrite <- (same_quota (set_cells _ F)).
  unfold add_start. destruct (adding c !! id) eqn:Hid; [done|]. destruct (processes (env c) !! id) eqn:Hp; intros [= <-].
  - apply (put_cell_ok F x c); try done. simpl. lia.
  - destruct Hcell as [K1 K2 K3 K4 K5 K6]. apply (put_cell_ok F x c); try done.
    + split; simpl; try done.
      * unfold slots_in_flight in *. simpl. rewrite map_sum_insert by done. simpl. lia.
      * intros id' pc [[<- <-]|[_ Hx]]%lookup_insert_Some; eauto.
      * intros id' p' l [[_ [=]]|[_ Hx]]%lookup_insert_Some. eauto.
    + unfold cell_leases, leases_in_flight. simpl. rewrite map_sum_insert by done. simpl. lia.
Qed.

Lemma remove_start_ok F x id t c c' : fine_ok F → cells F !! x = Some c → remove_start id t c = Some c' → fine_ok (set_cells (<[x := c']> (cells F)) F).
Proof.
  intros Hok Hc. destruct (fo_cells _ Hok x c Hc) as (Hcell & _). pose proof (fo_node _ Hok). rewrite <- (same_quota (set_cells _ F)).
  unfold remove_start. destruct (adding c !! id) eqn:Hid; [done|]. destruct (removing c !! t) eqn:Ht; [done|].
  destruct (processes (env c) !! id) as [e|] eqn:Hp; intros [= <-]; [|apply (put_cell_ok F x c); try done; simpl; lia].
  destruct Hcell as [K1 K2 K3 K4 K5 K6]. pose proof (map_size_delete_Some _ _ (mk_is_Some _ _ Hp)) as Hsz.
  assert (size (processes (env c)) ≠ 0%nat) as Hnz by (intros Hz%map_size_empty_inv; by rewrite Hz, lookup_empty in Hp).
  apply (put_cell_ok F x c); try done.
  - split; simpl; try done.
    + unfold slots_in_flight in *. simpl. rewrite map_sum_insert by done. simpl. rewrite Hsz. lia.
    + intros id' pc Hx. rewrite lookup_delete_ne; [eauto|]. intros ->. congruence.
    + intros id' e' [_ Hx]%lookup_delete_Some. eauto.
    + intros t' pc [[<- <-]|[_ Hx]]%lookup_insert_Some; [|eauto]. left. by rewrite (K4 id e Hp).
  - unfold cell_leases, leases_in_flight, table_size. simpl. rewrite map_sum_insert, Hsz by done. simpl. rewrite (K4 id e Hp). destruct (uses_quota (env c)); lia.
Qed.

(** *** Environments come and go *)

Lemma empty_cell_ok id max registry quota generation :
  cell_ok (mkCell (with_node_options (M := M) id max quota registry generation) ∅ ∅) ∧
  cell_leases (mkCell (with_node_options (M := M) id max quota registry generation) ∅ ∅) = 0.
Proof.
  assert (size (∅ : M ProcessEntry) = 0%nat) as Hz by apply map_size_empty. split.
  - split; simpl; try done.
    + rewrite Hz. unfold slots_in_flight. simpl. by rewrite !map_sum_empty.
    + intros id' e. by rewrite lookup_empty.
  - unfold cell_leases, leases_in_flight, table_size. simpl. rewrite Hz, !map_sum_empty. by destruct quota.
Qed.

Lemma fresh_cell F : fine_ok F → cells F !! addr F = None ∧ dying F !! addr F = None.
Proof.
  intros Hok. split.
  - destruct (cells F !! addr F) as [c|] eqn:Hc; [|done]. destruct (fo_cells _ Hok _ _ Hc) as (_ & ? & _). lia.
  - destruct (dying F !! addr F) as [d|] eqn:Hd; [|done]. pose proof (fo_dying _ Hok _ _ Hd). lia.
Qed.

Lemma new_cell_ok id max quota registry generation F :
  fine_ok F → (generation ≠ None → max = Some (max_procs F)) → fine_ok (new_cell (with_node_options id max quota registry generation) F).
Proof.
  intros Hok Hmax. destruct (fresh_cell F Hok) as [Hfresh Hfresh']. destruct (empty_cell_ok id max registry quota generation) as [Hcell Hzero].
  destruct Hok as [Hcells Hdying Hquota Hnode Hguards Hcount Henvs]. split; simpl; try done.
  - intros x c [[<- <-]|[_ Hx]]%lookup_insert_Some; [split_and!; [done|lia|done|done]|]. destruct (Hcells x c Hx) as (? & ? & ? & ?). split_and!; try done. lia.
  - intros x d Hx. specialize (Hdying x d Hx). lia.
  - rewrite map_sum_insert, Hzero by done. lia.
Qed.

(** Changes of the registry leave the processes alone. *)
Lemma registry_ok F n names' guards' g :
  fine_ok F → (∀ id pc, guards' !! id = Some pc → match pc with RRemove => is_Some (names' !! id) | _ => names' !! id = None end) →
  n = Z.of_nat (size names') + map_sum guard_slot guards' → n <= max_envs F →
  fine_ok (mkFine (cells F) (quota F) names' guards' (dying F) n (max_envs F) (max_procs F) g (addr F)).
Proof. intros [] ? ? ?. by split. Qed.

Lemma guards_insert F id pc :
  fine_ok F → match pc with RRemove => is_Some (names F !! id) | _ => names F !! id = None end →
  ∀ id' pc', <[id := pc]> (guards F) !! id' = Some pc' → match pc' with RRemove => is_Some (names F !! id') | _ => names F !! id' = None end.
Proof. intros Hok Hpc id' pc' [[<- <-]|[_ Hx]]%lookup_insert_Some; [done|by apply (fo_guards _ Hok)]. Qed.

(** An entry that no guard protects is counted. *)
Lemma entry_counted F id : fine_ok F → is_Some (names F !! id) → guards F !! id = None → 1 <= env_count F.
Proof.
  intros Hok Hid Hg. rewrite (fo_count _ Hok). set (R := filter (fun p : Z * EnvPc => (match p.2 with RRemove => true | _ => false end) = true) (guards F)).
  assert (- Z.of_nat (size R) <= map_sum guard_slot (guards F)) as Hsum.
  { rewrite (map_sum_split guard_slot (guards F) (fun pc => match pc with RRemove => true | _ => false end)). fold R.
    rewrite <- (map_sum_one R). assert (- map_sum (fun _ => 1) R = map_sum guard_slot R) as ->.
    { unfold R. clear. induction (guards F) as [|k a m Hk IH] using map_ind; [by rewrite map_filter_empty, !map_sum_empty|].
      rewrite map_filter_insert. simpl. destruct a; simpl; rewrite ?delete_id by done; try done.
      rewrite !map_sum_insert by (apply map_lookup_filter_None; by left). simpl. lia. }
    match goal with |- _ <= _ + map_sum guard_slot ?m => assert (0 <= map_sum guard_slot m); [|lia] end.
    apply map_sum_nonneg_in. intros k a [_ Ha]%map_lookup_filter_Some. by destruct a. }
  assert (size R + 1 <= size (names F))%nat; [|lia].
  rewrite <- (size_dom (names F)), <- (size_dom R).
  assert (size (dom R ∪ {[id]} : gset Z) = size (dom R) + 1)%nat as <-.
  { rewrite size_union, size_singleton; [done|]. intros y Hy Heq%elem_of_singleton. subst y. apply elem_of_dom in Hy as [a Ha].
    apply map_lookup_filter_Some in Ha as [Ha _]. congruence. }
  apply subseteq_size. intros y [Hy|Hy%elem_of_singleton]%elem_of_union; [|subst y; by apply elem_of_dom]. apply elem_of_dom in Hy as [a Ha].
  apply map_lookup_filter_Some in Ha as [Ha Hr]. pose proof (fo_guards _ Hok y a Ha). destruct a; try done. by apply elem_of_dom.
Qed.

Lemma set_generations_ok g F : fine_ok F → fine_ok (set_generations g F).
Proof. by intros []. Qed.

Lemma create_start_ok id registry F : fine_ok F → fine_result (create_start id registry F).
Proof.
  intros Hok. unfold create_start. destruct (guards F !! id) eqn:Hg; [done|]. destruct (names F !! id) as [[g x]|] eqn:Hn.
  - destruct (cells F !! x); [done|]. destruct (checked_add _ _ _) as [g'|]; [|done]. simpl. unfold install. set (F1 := set_generations g' F).
    assert (fine_ok F1) as Hok1 by (by apply set_generations_ok).
    pose proof (new_cell_ok id (Some (max_procs F1)) true registry (Some (generations F)) F1 Hok1 (fun _ => eq_refl)) as Hok2.
    apply (registry_ok _ (env_count F) (<[id := (generations F, addr F)]> (names F)) (guards F) g') in Hok2; [exact Hok2|..]; simpl.
    + intros id' pc Hpc. pose proof (fo_guards _ Hok id' pc Hpc). rewrite lookup_insert_ne; [done|]. congruence.
    + rewrite map_size_insert_Some by (by eexists). apply (fo_count _ Hok).
    + apply (fo_envs _ Hok).
  - destruct (checked_add _ _ _) as [g'|]; [|done]. simpl. apply (registry_ok F); try done.
    + by apply (guards_insert F id (CGeneration (generations F))).
    + simpl. rewrite map_sum_insert by done. simpl. apply (fo_count _ Hok).
    + apply (fo_envs _ Hok).
Qed.

Lemma guard_step_ok id registry F : fine_ok F → fine_result (guard_step id registry F).
Proof.
  intros Hok. pose proof (fo_count _ Hok) as Hcount. pose proof (fo_envs _ Hok) as Henvs. unfold guard_step. destruct (guards F !! id) as [pc|] eqn:Hg; [|done].
  pose proof (fo_guards _ Hok id pc Hg) as Hpc.
  assert (∀ id' pc' (m : gmap Z (Z * Z)), (∀ j, j ≠ id → m !! j = names F !! j) → delete id (guards F) !! id' = Some pc' →
    match pc' with RRemove => is_Some (m !! id') | _ => m !! id' = None end) as Hdel.
  { intros id' pc' m Hm [Hne Hx]%lookup_delete_Some. rewrite Hm by done. by apply (fo_guards _ Hok). }
  destruct pc as [g|g|]; simpl.
  - destruct (_ <? _) eqn:Hlt; bool_to_prop; simpl.
    + apply (registry_ok F); try done; simpl; [by apply (guards_insert F id (CSlot g))| |lia]. rewrite (map_sum_replace _ _ _ _ _ Hg). simpl. lia.
    + apply (registry_ok F); try done; simpl; [by intros; eapply Hdel|]. rewrite (map_sum_delete _ _ _ _ Hg). simpl. lia.
  - pose proof (new_cell_ok id (Some (max_procs F)) true registry (Some g) F Hok (fun _ => eq_refl)) as Hok2. unfold install.
    apply (registry_ok _ (env_count F) (<[id := (g, addr F)]> (names F)) (delete id (guards F)) (generations F)) in Hok2; [exact Hok2|..|done].
    + intros id' pc' Hx. eapply Hdel; [|done]. intros j Hj. by rewrite lookup_insert_ne.
    + rewrite map_size_insert_None, (map_sum_delete _ _ _ _ Hg) by done. simpl. lia.
  - apply (registry_ok F); try done; simpl.
    + intros id' pc' Hx. eapply Hdel; [|done]. intros j Hj. by rewrite lookup_delete_ne.
    + rewrite map_size_delete_Some, (map_sum_delete _ _ _ _ Hg) by done. simpl.
      assert (size (names F) ≠ 0%nat); [|lia]. intros Hz%map_size_empty_inv. rewrite Hz, lookup_empty in Hpc. by destruct Hpc.
Qed.

Lemma destroy_start_ok x c F : fine_ok F → cells F !! x = Some c → fine_result (destroy_start x c F).
Proof.
  intros Hok Hc. unfold destroy_start. destruct (bool_decide _) eqn:Hb; [|done]. apply bool_decide_eq_true in Hb as [Ha Hr]. simpl.
  destruct (fo_cells _ Hok x c Hc) as (Hcell & Hx & Hd & _). pose proof (table_leases_size c Hcell) as Htable.
  destruct Hok as [Hcells Hdying Hquota Hnode Hguards Hcount Henvs]. split; simpl; try done.
  - intros y c' [Hne Hy]%lookup_delete_Some. destruct (Hcells y c' Hy) as (? & ? & ? & ?). split_and!; try done. by rewrite lookup_insert_ne.
  - intros y d [[<- <-]|[_ Hy]]%lookup_insert_Some; [done|eauto].
  - rewrite (map_sum_delete _ _ _ _ Hc), map_sum_insert by done. rewrite dying_leases_mk.
    assert (cell_leases c = table_size (env c)); [|lia]. unfold cell_leases, leases_in_flight. rewrite Ha, Hr, !map_sum_empty. lia.
Qed.

Lemma destroy_step_ok x F : fine_ok F → fine_result (destroy_step x F).
Proof.
  intros Hok. unfold destroy_step. destruct (dying F !! x) as [d|] eqn:Hd; [|done].
  pose proof (map_sum_lookup_le dying_leases _ _ _ dying_leases_pos Hd) as Hge. pose proof (map_sum_nonneg cell_leases (cells F) cell_leases_pos) as Hpos.
  pose proof (fo_quota _ Hok) as Hq. pose proof (fo_node _ Hok) as Hn.
  assert (∀ id g, d = mkDying 0 id g → fine_ok (set_dying (delete x (dying F)) F)) as Hgone.
  { intros id g ->. destruct Hok as [Hcells Hdying Hquota Hnode Hguards Hcount Henvs]. split; simpl; try done.
    - intros y c Hy. destruct (Hcells y c Hy) as (? & ? & ? & ?). split_and!; try done. apply lookup_delete_None. by right.
    - intros y d [_ Hy]%lookup_delete_Some. eauto.
    - rewrite (map_sum_delete _ _ _ _ Hd). rewrite dying_leases_mk. lia. }
  destruct d as [[|n] id g].
  - destruct g as [g|]; [|by apply (Hgone id None)]. destruct (guards F !! id) eqn:Hg; [done|]. destruct (bool_decide _) eqn:Hb; [|by apply (Hgone id (Some g))].
    apply bool_decide_eq_true in Hb. assert (is_Some (names F !! id)) as Hid by (destruct (names F !! id); [by eexists|done]).
    pose proof (entry_counted F id Hok Hid Hg) as Hge1. unfold checked_sub. destruct (_ <=? _) eqn:Hle; bool_to_prop; [|lia]. simpl.
    pose proof (Hgone id (Some g) eq_refl) as Hok'.
    apply (registry_ok _ (env_count F - 1) (names F) (<[id := RRemove]> (guards F)) (generations F)) in Hok'; [exact Hok'|..]; simpl.
    + by apply (guards_insert F id RRemove).
    + rewrite map_sum_insert by done. rewrite (fo_count _ Hok). simpl. lia.
    + pose proof (fo_envs _ Hok). lia.
  - rewrite dying_leases_mk in Hge. rewrite lease_drop_Some by lia. simpl.
    destruct Hok as [Hcells Hdying Hquota Hnode Hguards Hcount Henvs]. split; simpl; try done; [| |..|lia].
    + intros y c Hy. destruct (Hcells y c Hy) as (? & ? & Hnone & ?). split_and!; try done. rewrite lookup_insert_ne; [done|]. intros ->. congruence.
    + intros y d [[<- <-]|[_ Hy]]%lookup_insert_Some; eauto.
    + rewrite (map_sum_replace _ _ _ _ _ Hd). rewrite !dying_leases_mk. lia.
Qed.

Lemma fine_exec_ok op F : fine_ok F → fine_result (fine_exec op F).
Proof.
  intros Hok. destruct op as [id max|x id p|x id|x id t|x t|id registry|id registry|x|x]; simpl; unfold in_cell.
  - by apply new_cell_ok.
  - destruct (cells F !! x) as [c|] eqn:Hc; [|done]. destruct (add_start id p c) as [c'|] eqn:Ha; [|done]. by eapply add_start_ok.
  - destruct (cells F !! x) as [c|] eqn:Hc; [|done]. by apply add_step_ok.
  - destruct (cells F !! x) as [c|] eqn:Hc; [|done]. destruct (remove_start id t c) as [c'|] eqn:Ha; [|done]. by eapply remove_start_ok.
  - destruct (cells F !! x) as [c|] eqn:Hc; [|done]. by apply remove_step_ok.
  - by apply create_start_ok.
  - by apply guard_step_ok.
  - destruct (cells F !! x) as [c|] eqn:Hc; [|done]. by apply destroy_start_ok.
  - by apply destroy_step_ok.
Qed.

Definition fine_limits F : Z * Z * Z := (max_envs F, max_procs F, quota_limit (quota F)).

Lemma fine_exec_limits op F F' : fine_exec op F = FDone F' → fine_limits F' = fine_limits F.
Proof.
  destruct op as [id max|x id p|x id|x id t|x t|id registry|id registry|x|x]; simpl; unfold in_cell, add_step, remove_step, create_start, guard_step,
    destroy_start, destroy_step, or_panic, quota_reserve, lease_drop, checked_sub; intros Hexec; repeat (case_match; simplify_eq/=; try done); by simplify_eq.
Qed.

Lemma fine_reachable a b n F :
  0 <= a → 0 <= n → rtc fine_step (fine_start a b n) F → fine_ok F ∧ fine_limits F = (a, b, n).
Proof.
  intros Ha Hn. apply (rtc_invariant fine_step (fun F => fine_ok F ∧ fine_limits F = (a, b, n))).
  - intros F1 F2 [Hok Hl] [op Hop]. split; [|by rewrite (fine_exec_limits _ _ _ Hop)]. pose proof (fine_exec_ok op F1 Hok) as Hr. by rewrite Hop in Hr.
  - split; [|done]. split; simpl; try done; rewrite ?map_sum_empty; try done; by intros *; rewrite lookup_empty.
Qed.

(** Nobody is between two accesses. *)
Definition idle F : Prop :=
  (∀ x c, cells F !! x = Some c → adding c = ∅ ∧ removing c = ∅) ∧ dying F = ∅ ∧ guards F = ∅.

(** C35. Capacity under concurrency.  Threads register and remove processes, create environments
    and drop them, each atomic access of any of them interleaved with the accesses of the
    others.  At every moment the process count of an environment is the size of its table plus
    the slots that threads hold, and is at most its limit; the count of the node is the number of
    processes that count for it in all tables, plus the leases that threads and destructors hold, and
    is at most the limit of the node; the environment count is the number of entries of the
    registry, plus the slots of creations that have no entry yet, less the entries whose slot is
    given back, and is at most the limit.  So when no thread is between two accesses the counters
    are exactly the sizes of the tables.  No access that a thread can make panics: no counter
    underflows. *)
Theorem node_capacity_concurrent a b n F :
  0 <= a → 0 <= b → 0 <= n → rtc fine_step (fine_start a b n) F →
  (∀ x c, cells F !! x = Some c →
     process_count (env c) = Z.of_nat (size (processes (env c))) + slots_in_flight c ∧
     (∀ limit, max_processes (env c) = Some limit → 0 <= limit → process_count (env c) <= limit) ∧
     (lifecycle (env c) ≠ None → process_count (env c) <= b)) ∧
  quota_count (quota F) = map_sum cell_leases (cells F) + map_sum dying_leases (dying F) ∧ quota_count (quota F) <= n ∧
  env_count F = Z.of_nat (size (names F)) + map_sum guard_slot (guards F) ∧ env_count F <= a ∧
  (idle F →
     (∀ x c, cells F !! x = Some c → process_count (env c) = Z.of_nat (size (processes (env c)))) ∧
     quota_count (quota F) = map_sum (fun c => table_size (env c)) (cells F) ∧ env_count F = Z.of_nat (size (names F))) ∧
  (∀ op, fine_exec op F ≠ FPanicked).
Proof.
  intros Ha Hb Hn Hreach. destruct (fine_reachable a b n F Ha Hn Hreach) as [Hok [= Ea Eb En]].
  split_and!.
  - intros x c Hc. destruct (fo_cells _ Hok x c Hc) as ([K1 K2 _ _ _ _] & _ & _ & Hnode). split_and!; try done. intros Hl. apply K2; [|done]. by rewrite <- Eb, <- Hnode.
  - apply (fo_quota _ Hok).
  - rewrite <- En. apply (fo_node _ Hok).
  - apply (fo_count _ Hok).
  - rewrite <- Ea. apply (fo_envs _ Hok).
  - intros (Hidle & Hd & Hg). split_and!.
    + intros x c Hc. destruct (Hidle x c Hc) as [Had Hre]. destruct (fo_cells _ Hok x c Hc) as ([K1 _ _ _ _ _] & _). rewrite K1.
      unfold slots_in_flight. rewrite Had, Hre, !map_sum_empty. lia.
    + rewrite (fo_quota _ Hok), Hd, map_sum_empty, Z.add_0_r. assert (∀ x c, cells F !! x = Some c → cell_leases c = table_size (env c)) as Heq.
      { intros x c Hc. destruct (Hidle x c Hc) as [Had Hre]. unfold cell_leases, leases_in_flight. rewrite Had, Hre, !map_sum_empty. lia. }
      apply Z.le_antisymm; apply map_sum_mono; intros x c Hc; rewrite (Heq x c Hc); lia.
    + rewrite (fo_count _ Hok), Hg, map_sum_empty. lia.
  - intros op Hop. pose proof (fine_exec_ok op F Hok) as Hr. by rewrite Hop in Hr.
Qed.
End ok.

(** ** A run

    Room for two environments of one process, and one process in all.  Two threads register a
    process, each in its environment; both have their slot before the first one takes the lease of
    the node, so the other one is refused and gives its slot back. *)
Module FineDemo.
Definition ops : list FineOp :=
  [OCreate 7 None; OGuardStep 7 None; OGuardStep 7 None; OCreate 8 None; OGuardStep 8 None; OGuardStep 8 None;
   OAdd 0 1 (Builtin 1 0); OAdd 1 2 (Builtin 2 0); OAddStep 0 1; OAddStep 1 2; OAddStep 1 2; OAddStep 0 1].

Fixpoint fine_run (ops : list FineOp) (F : Fine (gmap Z)) : option (Fine (gmap Z)) :=
  match ops with
  | [] => Some F
  | op :: ops => match fine_exec op F with FDone F => fine_run ops F | _ => None end
  end.

Lemma fine_run_reach ops F F' : fine_run ops F = Some F' → rtc fine_step F F'.
Proof.
  revert F. induction ops as [|op ops IH]; simpl; intros F; [intros [= ->]; apply rtc_refl|].
  destruct (fine_exec op F) as [| |F1] eqn:Hop; [done..|]. intros Hrun. eapply rtc_l; [by exists op|by apply IH].
Qed.
End FineDemo.

Lemma node_capacity_concurrent_witness :
  ∃ F c0 c1, FineDemo.fine_run FineDemo.ops (fine_start 2 1 1) = Some F ∧ cells F !! 0 = Some c0 ∧ cells F !! 1 = Some c1 ∧
    adding c0 !! 1 = Some ABack ∧ adding c1 !! 2 = Some (ALease (Builtin 2 0) true) ∧
    process_count (env c0) = Z.of_nat (size (processes (env c0))) + slots_in_flight c0 ∧ process_count (env c0) = 1 ∧
    quota_count (quota F) = map_sum cell_leases (cells F) + map_sum dying_leases (dying F) ∧ quota_count (quota F) = 1 ∧
    fine_exec (OAddStep 0 1) F ≠ FPanicked.
Proof.
  eassert (FineDemo.fine_run FineDemo.ops (fine_start 2 1 1) = Some _) as Hrun by (vm_compute; reflexivity).
  destruct (node_capacity_concurrent 2 1 1 _ ltac:(lia) ltac:(lia) ltac:(lia) (FineDemo.fine_run_reach _ _ _ Hrun)) as (H1 & H2 & _ & _ & _ & _ & H3).
  eexists _, _, _. split; [exact Hrun|]. split; [reflexivity|]. split; [reflexivity|]. split; [reflexivity|]. split; [reflexivity|].
  split; [exact (proj1 (H1 0 _ eq_refl))|]. split; [reflexivity|]. split; [exact H2|]. split; [reflexivity|]. apply H3.
Defined.
