(* ===== verification/LinkSteps.v ===== *)
(** * Links, one critical section at a time

    In [Link] the functions of [crates/lunatic-process/src/state.rs] are given as they are when
    nobody else runs.  [ProcessLifecycleHandle::unlink_peer] and [terminate], and the destructor of
    [LinkState], give the lock of a link state back between their critical sections: an unlink
    reads the token and the peer of a relation, and removes both sides later; a termination
    publishes its reason, takes all relations of the process, and then, for each of them, gives
    its permit back, removes the other side under the lock of the peer, and at the end tells the
    peers.  Here each critical section, each permit that is given back and each notice is a step,
    and the threads of a node run in any order.  Linking holds both locks and is one step. *)

From S2P Require Import Prelude External Message Mailbox Signal Link.

Section steps.
Context {Sem : Type} `{!Semaphore Sem} {Chan : Type → Type} `{!Channel Chan}.

(** ** State *)

(** An unlink between its critical sections; a termination that has published its reason; one
    that takes its relations apart: those to come, the one whose permit is given back, and the
    notices that are due; one that delivers the notices. *)
Inductive LinkThread : Type :=
| TUnlink (h : Handle) (peer_id tok peer : Z)
| TPublished (h : Handle) (reason : DeathReason)
| TDetach (self_id a : Z) (todo : list (Z * LinkRelation)) (current : option (Z * LinkRelation))
    (notices : list (Z * Z * option Z)) (reason : DeathReason)
| TNotify (self_id : Z) (notices : list (Z * Z * option Z)) (reason : DeathReason).

(** A link state is never at the address of an earlier one: a [Weak] keeps its allocation. *)
Record Links : Type := mkLinks {
  world : World Sem Chan;
  threads : gmap Z LinkThread;
  next_cell : Z;
}.

Definition links_start : Links := mkLinks (mkWorld ∅ ∅ 0) ∅ 0.

Definition set_world (W : World Sem Chan) (L : Links) : Links := mkLinks W (threads L) (next_cell L).
Definition set_threads (m : gmap Z LinkThread) (L : Links) : Links := mkLinks (world L) m (next_cell L).

(** ** Steps *)

Inductive LinkOp : Type :=
| LSpawn (p : Ingress Sem Chan) (capacity : Z)
| LHandle (a process_id : Z)
| LLink (left : Handle) (left_exit_tag : option Z) (right : Handle) (right_exit_tag : option Z)
| LUnlink (n : Z) (h : Handle) (peer_id : Z)
| LTerminate (n : Z) (h : Handle) (reason : DeathReason)
| LDrop (n a : Z)
| LStep (n : Z)
| LIngress (w : gmap Z (Ingress Sem Chan)).

(** A handle names the process of the link state it refers to. *)
Definition handle_valid (h : Handle) (W : World Sem Chan) : bool :=
  bool_decide ((cells W !! h_addr h) ≫= cell_process_id = Some (h_id h)).

(** The relations of a process that ends are taken, unless it has ended before. *)
Definition take_relations (h : Handle) (reason : DeathReason) (W : World Sem Chan) : option LinkThread * World Sem Chan :=
  match cells W !! h_addr h with
  | None => (None, W)
  | Some c =>
      if bool_decide (is_Some (cell_terminal c)) then (None, W)
      else (Some (TDetach (h_id h) (h_addr h) (map_to_list (relations c)) None [] reason),
            set_cells (<[h_addr h := set_relations ∅ (set_terminal reason c)]> (cells W)) W)
  end.

(** The other side of a relation is removed under the lock of the peer, if it is still there. *)
Definition detach_peer (self_id peer_id : Z) (r : LinkRelation) (W : World Sem Chan) : list (Z * Z * option Z) * World Sem Chan :=
  match cells W !! peer_addr r with
  | None => ([], W)
  | Some cp =>
      if token_matches self_id (token r) cp
      then ([(peer_addr r, peer_id, exit_tag r)], set_cells (<[peer_addr r := remove_relation self_id cp]> (cells W)) W)
      else ([], W)
  end.

(** What a thread does next, and what is left of it. *)
Definition thread_step (t : LinkThread) (W : World Sem Chan) : option LinkThread * World Sem Chan :=
  match t with
  | TUnlink h peer_id tok peer => (None, (unlink_commit h peer_id tok peer W).2)
  | TPublished h reason => take_relations h reason W
  | TDetach self_id a todo (Some (peer_id, r)) notices reason =>
      let '(due, W) := detach_peer self_id peer_id r W in (Some (TDetach self_id a todo None (notices ++ due) reason), W)
  | TDetach self_id a ((peer_id, r) :: todo) None notices reason =>
      (Some (TDetach self_id a todo (Some (peer_id, r)) notices reason), set_cells (alter release_link a (cells W)) W)
  | TDetach self_id a [] None notices reason => (Some (TNotify self_id notices reason), W)
  | TNotify self_id ((peer, peer_id, tag) :: notices) reason =>
      (Some (TNotify self_id notices reason), set_ingresses (deliver_link_death peer peer_id self_id tag reason (ingresses W)).1 W)
  | TNotify self_id [] reason => (None, W)
  end.

Definition start_thread (n : Z) (t : LinkThread) (L : Links) : option Links :=
  match threads L !! n with
  | Some _ => None
  | None => Some (set_threads (<[n := t]> (threads L)) L)
  end.

Definition link_exec (op : LinkOp) (L : Links) : option Links :=
  let W := world L in
  match op with
  | LSpawn p capacity =>
      let a := next_cell L in
      if (0 <=? capacity) && (capacity <=? max_permits)
      then Some (mkLinks (mkWorld (<[a := p]> (ingresses W)) (<[a := mkCell None None ∅ (sem_new capacity) capacity]> (cells W)) (next_token W))
                   (threads L) (a + 1))
      else None
  | LHandle a process_id => Some (set_world (lifecycle_handle a process_id W).2 L)
  | LLink l lt r rt =>
      if handle_valid l W && handle_valid r W then Some (set_world (link_pair l lt r rt W).2 L) else None
  | LUnlink n h peer_id =>
      if handle_valid h W then
        match unlink_read h peer_id W with
        | None => Some L
        | Some (tok, peer) => start_thread n (TUnlink h peer_id tok peer) L
        end
      else None
  | LTerminate n h reason =>
      if handle_valid h W
      then start_thread n (TPublished h reason)
             (set_world (set_ingresses (alter (publish_terminal_reason reason) (h_addr h) (ingresses W)) W) L)
      else None
  | LDrop n a =>
      match cells W !! a with
      | None => None
      | Some c =>
          let L' := set_world (set_cells (delete a (cells W)) W) L in
          match cell_process_id c with
          | None => Some L'
          | Some process_id => start_thread n (TDetach process_id a (map_to_list (relations c)) None [] NoProcess) L'
          end
      end
  | LStep n =>
      t ← threads L !! n;
      let '(t, W) := thread_step t W in
      Some (mkLinks W (match t with Some t => <[n := t]> (threads L) | None => delete n (threads L) end) (next_cell L))
  | LIngress w => Some (set_world (set_ingresses w W) L)
  end.

Definition links_step (L L' : Links) : Prop := ∃ op, link_exec op L = Some L'.
End steps.
Arguments Links : clear implicits.

(** ** The invariant *)

(** What it says of a link state: the identity, whether it has ended, the token and the peer of each
    relation, the free permits and their number. *)
Record View : Type := mkView {
  v_id : option Z;
  v_ended : bool;
  v_rels : gmap Z (Z * Z);
  v_free : Z;
  v_capacity : Z;
}.

Definition v_remove (q : Z) (v : View) : View := mkView (v_id v) (v_ended v) (delete q (v_rels v)) (v_free v + 1) (v_capacity v).
Definition v_release (v : View) : View := mkView (v_id v) (v_ended v) (v_rels v) (v_free v + 1) (v_capacity v).
Definition v_add (q t b : Z) (v : View) : View := mkView (v_id v) (v_ended v) (<[q := (t, b)]> (v_rels v)) (v_free v - 1) (v_capacity v).
Definition v_end (v : View) : View := mkView (v_id v) true ∅ (v_free v) (v_capacity v).

(** The links that were ever made: by token, the address and the identity of both sides. *)
Abbreviation Born := (gmap Z (Z * Z * Z * Z)).

Definition side (B : Born) (t a pa b pb : Z) : Prop := B !! t = Some (a, pa, b, pb) ∨ B !! t = Some (b, pb, a, pa).

(** The relations that a thread has taken from the link state at [a] of the process [q]. *)
Definition in_hand (T : gmap Z LinkThread) (q a : Z) (pa : Z) (r : LinkRelation) : Prop :=
  ∃ n todo current notices reason, T !! n = Some (TDetach q a todo current notices reason) ∧
    ((pa, r) ∈ todo ∨ current = Some (pa, r)).

(** The permits of [a] that a thread holds. *)
Definition thread_permits (a : Z) (t : LinkThread) : Z :=
  match t with TDetach _ a' todo _ _ _ => if a' =? a then Z.of_nat (length todo) else 0 | _ => 0 end.
Definition permits_in_flight (a : Z) (T : gmap Z LinkThread) : Z := map_sum (thread_permits a) T.

(** [q] at [b] has, or had and takes apart, the other side of the relation of [pa] at [a]. *)
Definition answered (V : gmap Z View) (T : gmap Z LinkThread) (t a pa b q : Z) : Prop :=
  (∃ v, V !! b = Some v ∧ v_id v = Some q ∧ v_rels v !! pa = Some (t, a)) ∨
  ∃ r, in_hand T q b pa r ∧ token r = t ∧ peer_addr r = a.

Definition thread_ok (V : gmap Z View) (B : Born) (na : Z) (t : LinkThread) : Prop :=
  match t with
  | TUnlink h peer_id tok peer => side B tok (h_addr h) (h_id h) peer peer_id
  | TPublished h _ => h_addr h < na ∧ ∀ v, V !! h_addr h = Some v → v_id v = Some (h_id h)
  | TDetach self_id a todo current _ _ =>
      a < na ∧ (∀ v, V !! a = Some v → v_ended v = true) ∧
      ∀ q r, (q, r) ∈ todo ∨ current = Some (q, r) → side B (token r) a self_id (peer_addr r) q
  | TNotify _ _ _ => True
  end.

Record linv (V : gmap Z View) (T : gmap Z LinkThread) (B : Born) (nt na : Z) : Prop := {
  li_addr a v : V !! a = Some v → a < na;
  li_token t x : B !! t = Some x → t < nt;
  li_sides t a pa b pb : side B t a pa b pb → a ≠ b ∧ a < na ∧ ∀ v, V !! a = Some v → v_id v = Some pa;
  li_rel a v q t b : V !! a = Some v → v_rels v !! q = Some (t, b) →
    ∃ pa, v_id v = Some pa ∧ side B t a pa b q ∧ answered V T t a pa b q;
  li_permits a v : V !! a = Some v → v_free v + Z.of_nat (size (v_rels v)) + permits_in_flight a T = v_capacity v;
  li_free a v : V !! a = Some v → 0 <= v_free v;
  li_ended a v : V !! a = Some v → v_ended v = true → v_rels v = ∅;
  li_threads n t : T !! n = Some t → thread_ok V B na t;
}.

Lemma side_sym B t a pa b pb : side B t a pa b pb → side B t b pb a pa.
Proof. unfold side. naive_solver. Qed.
Lemma side_fun B t a pa b pb b' pb' pa' : a ≠ b → side B t a pa b pb → side B t a pa' b' pb' → pa = pa' ∧ b = b' ∧ pb = pb'.
Proof. unfold side. intros Hne [H1|H1] [H2|H2]; rewrite H1 in H2; naive_solver. Qed.
Lemma side_insert B nt t x a pa b pb : (∀ t x, B !! t = Some x → t < nt) → side B t a pa b pb → side (<[nt := x]> B) t a pa b pb.
Proof.
  intros Hb. assert (∀ y, B !! t = Some y → <[nt := x]> B !! t = Some y) as Hi.
  { intros y Hy. rewrite lookup_insert_ne; [done|]. specialize (Hb t y Hy). lia. }
  unfold side. naive_solver.
Qed.

Lemma permits_in_flight_pos a T : 0 <= permits_in_flight a T.
Proof. apply map_sum_nonneg. intros []; simpl; try done. destruct (_ =? _); lia. Qed.

(** *** Threads come and go *)

Lemma inv_threads V T T' B nt na :
  linv V T B nt na → (∀ n t, T' !! n = Some t → thread_ok V B na t) →
  (∀ a, is_Some (V !! a) → permits_in_flight a T' = permits_in_flight a T) →
  (∀ q b pa r, in_hand T q b pa r → in_hand T' q b pa r ∨
     ∀ v, V !! peer_addr r = Some v → v_rels v !! q ≠ Some (token r, b)) →
  linv V T' B nt na.
Proof.
  intros Hinv Hth Hper Hans. pose proof Hinv as []. split; try done.
  - intros a v q t b Ha Hq. destruct (li_rel0 a v q t b Ha Hq) as (pa & Hpa & Hside & [?|(r & Hr & <- & <-)]); exists pa;
      (split; [done|]); (split; [done|]); [by left|]. destruct (Hans q b pa r Hr) as [?|Hno]; [right; eauto|]. by destruct (Hno v Ha).
  - intros a v Ha. rewrite Hper by (by eexists). by apply li_permits0.
Qed.

Definition is_detach (t : LinkThread) : bool := match t with TDetach _ _ _ _ _ _ => true | _ => false end.

Lemma light_permits a t : is_detach t = false → thread_permits a t = 0.
Proof. by destruct t. Qed.

(** A thread that holds no relations starts. *)
Lemma inv_start V T B nt na n t :
  linv V T B nt na → T !! n = None → is_detach t = false → thread_ok V B na t → linv V (<[n := t]> T) B nt na.
Proof.
  intros Hinv Hn Ht Hok. apply (inv_threads V T); try done.
  - intros n' t' [[<- <-]|[_ Hx]]%lookup_insert_Some; [done|by apply (li_threads _ _ _ _ _ Hinv n')].
  - intros a _. unfold permits_in_flight. rewrite map_sum_insert by done. rewrite light_permits by done. lia.
  - intros q b pa r (n' & todo & cur & ns & reason & Hx & Hin). left. exists n', todo, cur, ns, reason. split; [|done].
    rewrite lookup_insert_ne; [done|]. congruence.
Qed.

(** One that holds none ends. *)
Lemma inv_finish V T B nt na n t :
  linv V T B nt na → T !! n = Some t → is_detach t = false → linv V (delete n T) B nt na.
Proof.
  intros Hinv Hn Ht. apply (inv_threads V T); try done.
  - intros n' t' [_ Hx]%lookup_delete_Some. by apply (li_threads _ _ _ _ _ Hinv n').
  - intros a _. unfold permits_in_flight. rewrite (map_sum_delete _ _ _ _ Hn), light_permits by done. lia.
  - intros q b pa r (n' & todo & cur & ns & reason & Hx & Hin). left. exists n', todo, cur, ns, reason. split; [|done].
    rewrite lookup_delete_ne; [done|]. intros ->. rewrite Hn in Hx. injection Hx as ->. done.
Qed.

(** A termination goes on, with fewer relations in hand but the same permits. *)
Lemma inv_replace V T B nt na n t t' :
  linv V T B nt na → T !! n = Some t → thread_ok V B na t' → (∀ a, thread_permits a t' = thread_permits a t) →
  (∀ q b todo cur ns reason pa r, t = TDetach q b todo cur ns reason → ((pa, r) ∈ todo ∨ cur = Some (pa, r)) →
     (∃ todo' cur' ns' reason', t' = TDetach q b todo' cur' ns' reason' ∧ ((pa, r) ∈ todo' ∨ cur' = Some (pa, r))) ∨
     ∀ v, V !! peer_addr r = Some v → v_rels v !! q ≠ Some (token r, b)) →
  linv V (<[n := t']> T) B nt na.
Proof.
  intros Hinv Hn Hok Hper Hhand. apply (inv_threads V T); try done.
  - intros n' t'' [[<- <-]|[_ Hx]]%lookup_insert_Some; [done|by apply (li_threads _ _ _ _ _ Hinv n')].
  - intros a _. unfold permits_in_flight. rewrite (map_sum_replace _ _ _ _ _ Hn), Hper. lia.
  - intros q b pa r (n' & todo & cur & ns & reason & Hx & Hin). destruct (decide (n' = n)) as [->|Hne].
    + rewrite Hn in Hx. injection Hx as ->. destruct (Hhand q b todo cur ns reason pa r eq_refl Hin) as [(todo' & cur' & ns' & reason' & -> & Hin')|?]; [left|by right].
      exists n, todo', cur', ns', reason'. by rewrite lookup_insert_eq.
    + left. exists n', todo, cur, ns, reason. by rewrite lookup_insert_ne.
Qed.


(** *** Link states come and go *)

Lemma map_sum_zero {K A} `{Countable K} (f : A → Z) (m : gmap K A) : map_Forall (fun _ a => f a = 0) m → map_sum f m = 0.
Proof.
  induction m as [|k a m Hk IH] using map_ind; intros Hf; [apply map_sum_empty|].
  apply map_Forall_insert in Hf as [Ha Hm]; [|done]. rewrite map_sum_insert by done. rewrite Ha, IH by done. done.
Qed.

Lemma thread_fresh V B na t : thread_ok V B na t → thread_permits na t = 0.
Proof. destruct t; simpl; try done. intros [Hlt _]. destruct (a =? na) eqn:Heq; bool_to_prop; [lia|done]. Qed.

(** What a thread needs, when only link states change and keep their identity and their end. *)
Lemma thread_ok_mono V V' B B' na na' t :
  (∀ a v', V' !! a = Some v' → a < na → ∃ v, V !! a = Some v ∧ (∀ i, v_id v = Some i → v_id v' = Some i) ∧ (v_ended v = true → v_ended v' = true)) →
  na <= na' → (∀ t a pa b pb, side B t a pa b pb → side B' t a pa b pb) → thread_ok V B na t → thread_ok V' B' na' t.
Proof.
  intros HV Hna HB. destruct t; simpl; [auto| |by intros (Ha & He & Hs); split_and!; [lia| |auto];
    intros v' Hv'; destruct (HV _ v' Hv' Ha) as (v & Hv & _ & Hend); eauto|done].
  intros [Ha Hid]. split; [lia|]. intros v' Hv'. destruct (HV _ v' Hv' Ha) as (v & Hv & Hi & _). eauto.
Qed.

Lemma inv_spawn V T B nt na cap :
  linv V T B nt na → 0 <= cap → linv (<[na := mkView None false ∅ cap cap]> V) T B nt (na + 1).
Proof.
  intros Hinv Hcap. pose proof Hinv as []. assert (V !! na = None) as Hfresh.
  { destruct (V !! na) as [v|] eqn:Hv; [|done]. specialize (li_addr0 na v Hv). lia. }
  assert (∀ a v, <[na := mkView None false ∅ cap cap]> V !! a = Some v → a < na → V !! a = Some v) as Hold.
  { intros a v [[<- _]|[_ ?]]%lookup_insert_Some Hlt; [lia|done]. }
  assert (∀ a v, V !! a = Some v → <[na := mkView None false ∅ cap cap]> V !! a = Some v) as Hkeep.
  { intros a v Hv. rewrite lookup_insert_ne; [done|]. congruence. }
  split; try done.
  - intros a v [[<- _]|[_ Hv]]%lookup_insert_Some; [lia|]. specialize (li_addr0 a v Hv). lia.
  - intros t a pa b pb Hs. destruct (li_sides0 t a pa b pb Hs) as (? & ? & ?). split_and!; [done|lia|]. intros v Hv. eauto.
  - intros a v q t b [[<- <-]|[_ Hv]]%lookup_insert_Some Hq; [by simpl in Hq; rewrite lookup_empty in Hq|].
    destruct (li_rel0 a v q t b Hv Hq) as (pa & ? & ? & [(vb & ? & ?)|?]); exists pa; (split; [done|]); (split; [done|]); [left|by right]. exists vb. auto.
  - intros a v [[<- <-]|[_ Hv]]%lookup_insert_Some; [|by apply li_permits0]. simpl. rewrite map_size_empty.
    unfold permits_in_flight. rewrite map_sum_zero; [lia|]. intros n t Ht. by eapply thread_fresh, li_threads0.
  - intros a v [[<- <-]|[_ Hv]]%lookup_insert_Some; [done|eauto].
  - intros a v [[<- <-]|[_ Hv]]%lookup_insert_Some; [done|eauto].
  - intros n t Ht. apply (thread_ok_mono V _ B B na (na + 1)); [|lia|done|eauto]. intros a v' Hv' Hlt. exists v'. eauto.
Qed.

(** A link state at the address [a] is changed, but not its relations. *)
Lemma inv_update V T B nt na a v v' :
  linv V T B nt na → V !! a = Some v → v_rels v' = v_rels v → v_free v' = v_free v → v_capacity v' = v_capacity v →
  (∀ i, v_id v = Some i → v_id v' = Some i) → v_ended v' = v_ended v → linv (<[a := v']> V) T B nt na.
Proof.
  intros Hinv Ha Hr Hf Hc Hi He. pose proof Hinv as []. split; try done.
  - intros x w [[<- <-]|[_ Hw]]%lookup_insert_Some; eauto.
  - intros t x px b pb Hs. destruct (li_sides0 t x px b pb Hs) as (? & ? & Hid). split_and!; try done.
    intros w [[<- <-]|[_ Hw]]%lookup_insert_Some; eauto.
  - assert (∀ t x px b q, answered V T t x px b q → answered (<[a := v']> V) T t x px b q) as Hans.
    { intros t x px b q [(w & Hw & Hid & Hrel)|?]; [left|by right]. destruct (decide (b = a)) as [->|Hne]; [|exists w; by rewrite lookup_insert_ne].
      exists v'. rewrite lookup_insert_eq. rewrite Ha in Hw. injection Hw as <-. rewrite Hr. auto. }
    intros x w q t b [[<- <-]|[_ Hw]]%lookup_insert_Some Hq.
    + rewrite Hr in Hq. destruct (li_rel0 a v q t b Ha Hq) as (pa & ? & ? & ?). exists pa. auto.
    + destruct (li_rel0 x w q t b Hw Hq) as (pa & ? & ? & ?). exists pa. auto.
  - intros x w [[<- <-]|[_ Hw]]%lookup_insert_Some; [|eauto]. rewrite Hr, Hf, Hc. eauto.
  - intros x w [[<- <-]|[_ Hw]]%lookup_insert_Some; [|eauto]. rewrite Hf. eauto.
  - intros x w [[<- <-]|[_ Hw]]%lookup_insert_Some; [|eauto]. rewrite Hr, He. eauto.
  - intros n t Ht. apply (thread_ok_mono V _ B B na na); [|lia|done|eauto].
    intros x w [[<- <-]|[_ Hw]]%lookup_insert_Some _; [|by exists w]. exists v. split; [done|]. split; [done|]. by rewrite He.
Qed.

(** Both sides of a new link. *)
Lemma inv_add V T B nt na a pa b pb va vb :
  linv V T B nt na → a ≠ b → V !! a = Some va → V !! b = Some vb → v_id va = Some pa → v_id vb = Some pb →
  v_ended va = false → v_ended vb = false → v_rels va !! pb = None → v_rels vb !! pa = None → 1 <= v_free va → 1 <= v_free vb →
  linv (<[b := v_add pa nt a vb]> (<[a := v_add pb nt b va]> V)) T (<[nt := (a, pa, b, pb)]> B) (nt + 1) na.
Proof.
  intros Hinv Hne Ha Hb Hia Hib Hea Heb Hra Hrb Hfa Hfb. pose proof Hinv as []. set (V' := <[b := _]> _). set (B' := <[nt := _]> B).
  assert (∀ x w, V' !! x = Some w →
    (x = a ∧ w = v_add pb nt b va) ∨ (x = b ∧ w = v_add pa nt a vb) ∨ (x ≠ a ∧ x ≠ b ∧ V !! x = Some w)) as Hcases.
  { intros x w [[<- <-]|[? [[<- <-]|[? ?]]%lookup_insert_Some]]%lookup_insert_Some; auto. }
  assert (V' !! a = Some (v_add pb nt b va)) as HVa by (unfold V'; by rewrite lookup_insert_ne, lookup_insert_eq).
  assert (V' !! b = Some (v_add pa nt a vb)) as HVb by (unfold V'; by rewrite lookup_insert_eq).
  assert (∀ x w, V !! x = Some w → ∃ w', V' !! x = Some w' ∧ v_id w' = v_id w ∧ ∀ k e, v_rels w !! k = Some e → v_rels w' !! k = Some e) as Hgrow.
  { intros x w Hx. destruct (decide (x = a)) as [->|Hxa]; [|destruct (decide (x = b)) as [->|Hxb]].
    - exists (v_add pb nt b va). assert (w = va) as -> by congruence. split; [done|]. split; [done|]. intros k e Hk. simpl. rewrite lookup_insert_ne; [done|]. congruence.
    - exists (v_add pa nt a vb). assert (w = vb) as -> by congruence. split; [done|]. split; [done|]. intros k e Hk. simpl. rewrite lookup_insert_ne; [done|]. congruence.
    - exists w. unfold V'. by rewrite !lookup_insert_ne. }
  assert (∀ t x px y q, answered V T t x px y q → answered V' T t x px y q) as Hans.
  { intros t x px y q [(w & Hw & Hid & Hrel)|?]; [left|by right]. destruct (Hgrow y w Hw) as (w' & Hw' & Hid' & Hk). exists w'. rewrite Hid'. auto. }
  assert (∀ t x px y py, side B t x px y py → side B' t x px y py) as Hside by (intros; by apply side_insert).
  assert (∀ t x px y py, side B' t x px y py → side B t x px y py ∨
    (t = nt ∧ ((x, px, y, py) = (a, pa, b, pb) ∨ (x, px, y, py) = (b, pb, a, pa)))) as Hback.
  { intros t x px y py. unfold side, B'. rewrite !lookup_insert_Some. naive_solver. }
  assert (∀ x w', V' !! x = Some w' → ∃ w, V !! x = Some w ∧ v_id w' = v_id w ∧ v_ended w' = v_ended w) as Hfrom.
  { intros x w' Hx. destruct (Hcases x w' Hx) as [[-> ->]|[[-> ->]|(_ & _ & ?)]]; eauto. }
  split.
  - intros x w' Hx. destruct (Hfrom x w' Hx) as (w & Hw & _). eauto.
  - intros t x [[<- _]|[_ Hx]]%lookup_insert_Some; [lia|]. specialize (li_token0 t x Hx). lia.
  - intros t x px y py [Hs|[-> Hs]]%Hback.
    + destruct (li_sides0 t x px y py Hs) as (? & ? & Hid). split_and!; try done. intros w' Hw'. destruct (Hfrom x w' Hw') as (w & Hw & -> & _). eauto.
    + destruct Hs as [[= -> -> -> ->]|[= -> -> -> ->]]; split_and!; eauto; intros w' Hw'; destruct (Hfrom _ w' Hw') as (w & Hw & -> & _); congruence.
  - intros x w' q t y Hx Hq. destruct (Hcases x w' Hx) as [[-> ->]|[[-> ->]|(_ & _ & Hw)]].
    + simpl in Hq. apply lookup_insert_Some in Hq as [[<- [= <- <-]]|[_ Hq]].
      * exists pa. split; [done|]. split; [left; apply lookup_insert_eq|]. left. exists (v_add pa nt a vb). split; [done|]. split; [done|]. apply lookup_insert_eq.
      * destruct (li_rel0 a va q t y Ha Hq) as (px & ? & ? & ?). exists px. auto.
    + simpl in Hq. apply lookup_insert_Some in Hq as [[<- [= <- <-]]|[_ Hq]].
      * exists pb. split; [done|]. split; [right; apply lookup_insert_eq|]. left. exists (v_add pb nt b va). split; [done|]. split; [done|]. apply lookup_insert_eq.
      * destruct (li_rel0 b vb q t y Hb Hq) as (px & ? & ? & ?). exists px. auto.
    + destruct (li_rel0 x w' q t y Hw Hq) as (px & ? & ? & ?). exists px. auto.
  - intros x w' Hx. destruct (Hcases x w' Hx) as [[-> ->]|[[-> ->]|(_ & _ & Hw)]]; [| |eauto]; simpl; rewrite map_size_insert_None by done.
    + specialize (li_permits0 a va Ha). lia.
    + specialize (li_permits0 b vb Hb). lia.
  - intros x w' Hx. destruct (Hcases x w' Hx) as [[-> ->]|[[-> ->]|(_ & _ & Hw)]]; [simpl; lia..|eauto].
  - intros x w' Hx. destruct (Hcases x w' Hx) as [[-> ->]|[[-> ->]|(_ & _ & Hw)]]; simpl; [congruence..|eauto].
  - intros n t Ht. apply (thread_ok_mono V _ B _ na na); [|lia|done|eauto]. intros x w' Hx _. destruct (Hfrom x w' Hx) as (w & Hw & Hid & Hend).
    exists w. split; [done|]. split; [by rewrite Hid|]. by rewrite Hend.
Qed.

(** *** The two sides of a link are removed *)

Definition drop_side (tok q : Z) (v : View) : View :=
  match v_rels v !! q with
  | Some (t, _) => if t =? tok then v_remove q v else v
  | None => v
  end.

Record dropped (tok : Z) (v v' : View) : Prop := {
  dr_id : v_id v' = v_id v;
  dr_ended : v_ended v' = v_ended v;
  dr_capacity : v_capacity v' = v_capacity v;
  dr_permits : v_free v' + Z.of_nat (size (v_rels v')) = v_free v + Z.of_nat (size (v_rels v));
  dr_free : v_free v <= v_free v';
  dr_sub k e : v_rels v' !! k = Some e → v_rels v !! k = Some e;
  dr_keep k t y : v_rels v !! k = Some (t, y) → t ≠ tok → v_rels v' !! k = Some (t, y);
}.

Lemma dropped_refl tok v : dropped tok v v.
Proof. by split. Qed.

Lemma drop_side_spec tok q v : dropped tok v (drop_side tok q v) ∧ ∀ y, v_rels (drop_side tok q v) !! q ≠ Some (tok, y).
Proof.
  unfold drop_side. destruct (v_rels v !! q) as [[t b]|] eqn:Hq; [|split; [apply dropped_refl|congruence]].
  destruct (t =? tok) eqn:Ht; bool_to_prop; [subst t|split; [apply dropped_refl|congruence]]. split; [|intros y; simpl; by rewrite lookup_delete_eq].
  split; simpl; try done.
  - rewrite (map_size_delete_Some _ _ (mk_is_Some _ _ Hq)). assert (size (v_rels v) ≠ 0%nat) by (intros Hz%map_size_empty_inv; by rewrite Hz, lookup_empty in Hq). lia.
  - lia.
  - by intros k e [_ ?]%lookup_delete_Some.
  - intros k t y Hk Hne. rewrite lookup_delete_ne; [done|]. congruence.
Qed.

Lemma inv_clear V T B nt na tok a pa b pb :
  linv V T B nt na → side B tok a pa b pb →
  let V' := alter (drop_side tok pa) b (alter (drop_side tok pb) a V) in
  linv V' T B nt na ∧ ∀ x v k y, V' !! x = Some v → v_rels v !! k ≠ Some (tok, y).
Proof.
  intros Hinv Hside V'. pose proof Hinv as []. destruct (li_sides0 tok a pa b pb Hside) as (Hne & _).
  assert (∀ x, ∃ f, V' !! x = f <$> V !! x ∧ (∀ v, dropped tok v (f v)) ∧
    (x = a → ∀ v y, v_rels (f v) !! pb ≠ Some (tok, y)) ∧ (x = b → ∀ v y, v_rels (f v) !! pa ≠ Some (tok, y))) as Hf.
  { intros x. unfold V'. rewrite !lookup_alter. destruct (decide (b = x)) as [->|Hbx]; [|destruct (decide (a = x)) as [->|Hax]].
    - exists (drop_side tok pa). rewrite decide_False by done. split; [done|]. split; [apply drop_side_spec|]. split; [by intros ->|]. intros _ v. apply drop_side_spec.
    - exists (drop_side tok pb). split; [done|]. split; [apply drop_side_spec|]. split; [|by intros ->]. intros _ v. apply drop_side_spec.
    - exists id. rewrite option_fmap_id. split; [done|]. split; [apply dropped_refl|]. by split; intros ->. }
  assert (∀ x v', V' !! x = Some v' → ∃ v, V !! x = Some v ∧ dropped tok v v') as Hfrom.
  { intros x v' Hx. destruct (Hf x) as (f & Hfx & Hd & _). rewrite Hfx in Hx. apply fmap_Some in Hx as (v & Hv & ->). eauto. }
  assert (∀ x v, V !! x = Some v → ∃ v', V' !! x = Some v' ∧ dropped tok v v') as Hto.
  { intros x v Hx. destruct (Hf x) as (f & Hfx & Hd & _). exists (f v). by rewrite Hfx, Hx. }
  assert (∀ x v' k y, V' !! x = Some v' → v_rels v' !! k ≠ Some (tok, y)) as Hgone.
  { intros x v' k y Hx Hk. destruct (Hf x) as (f & Hfx & Hd & Ha & Hb). rewrite Hfx in Hx. apply fmap_Some in Hx as (v & Hv & ->).
    pose proof (dr_sub _ _ _ (Hd v) k _ Hk) as Hk'. destruct (li_rel0 x v k tok y Hv Hk') as (px & _ & Hs & _).
    assert ((x = a ∧ k = pb) ∨ (x = b ∧ k = pa)) as [[-> ->]|[-> ->]]; [|by eapply Ha|by eapply Hb].
    unfold side in Hs, Hside. naive_solver. }
  split; [|done]. split; try done.
  - intros x v' Hx. destruct (Hfrom x v' Hx) as (v & Hv & _). eauto.
  - intros t x px y py Hs. destruct (li_sides0 t x px y py Hs) as (? & ? & Hid). split_and!; try done. intros v' Hv'. destruct (Hfrom x v' Hv') as (v & Hv & [-> _ _ _ _ _ _]). eauto.
  - intros x v' q t y Hx Hq. destruct (Hfrom x v' Hx) as (v & Hv & Hd). assert (t ≠ tok) as Ht by (intros ->; by eapply Hgone).
    destruct (li_rel0 x v q t y Hv (dr_sub _ _ _ Hd q _ Hq)) as (px & Hpx & Hs & Hans). exists px. rewrite (dr_id _ _ _ Hd). split; [done|]. split; [done|].
    destruct Hans as [(w & Hw & Hid & Hrel)|?]; [left|by right]. destruct (Hto y w Hw) as (w' & Hw' & Hdw). exists w'. split; [done|].
    rewrite (dr_id _ _ _ Hdw). split; [done|]. by apply (dr_keep _ _ _ Hdw).
  - intros x v' Hx. destruct (Hfrom x v' Hx) as (v & Hv & Hd). specialize (li_permits0 x v Hv). rewrite (dr_capacity _ _ _ Hd). pose proof (dr_permits _ _ _ Hd). lia.
  - intros x v' Hx. destruct (Hfrom x v' Hx) as (v & Hv & Hd). specialize (li_free0 x v Hv). pose proof (dr_free _ _ _ Hd). lia.
  - intros x v' Hx Hend. destruct (Hfrom x v' Hx) as (v & Hv & Hd). rewrite (dr_ended _ _ _ Hd) in Hend. specialize (li_ended0 x v Hv Hend).
    apply map_empty. intros k. destruct (v_rels v' !! k) as [e|] eqn:Hk; [|done]. apply (dr_sub _ _ _ Hd) in Hk. by rewrite li_ended0, lookup_empty in Hk.
  - intros n t Ht. apply (thread_ok_mono V _ B B na na); [|lia|done|eauto]. intros x v' Hx _. destruct (Hfrom x v' Hx) as (v & Hv & Hd).
    exists v. split; [done|]. rewrite (dr_id _ _ _ Hd), (dr_ended _ _ _ Hd). done.
Qed.

(** *** A termination *)

(** The relations of a link state become those of a thread: the link state has ended, or is gone. *)
Lemma inv_take V T B nt na a v pa n rels reason (gone : bool) :
  linv V T B nt na → V !! a = Some v → v_id v = Some pa → v_ended v = false ∨ gone = true →
  match T !! n with Some t => is_detach t = false | None => True end →
  untag <$> (list_to_map rels : gmap Z LinkRelation) = v_rels v → NoDup rels.*1 →
  linv (if gone then delete a V else <[a := v_end v]> V) (<[n := TDetach pa a rels None [] reason]> T) B nt na.
Proof.
  intros Hinv Ha Hid Hend Hn Hrels Hnd. pose proof Hinv as []. set (V' := if gone then _ else _). set (T' := <[n := _]> T).
  assert (∀ k r, (k, r) ∈ rels ↔ (list_to_map rels : gmap Z LinkRelation) !! k = Some r) as Hel.
  { intros k r. by apply elem_of_list_to_map. }
  assert (∀ k r, (k, r) ∈ rels → v_rels v !! k = Some (token r, peer_addr r)) as Hin.
  { intros k r Hk%Hel. by rewrite <- Hrels, lookup_fmap, Hk. }
  assert (∀ x w', V' !! x = Some w' → (x = a ∧ w' = v_end v) ∨ (x ≠ a ∧ V !! x = Some w')) as Hcases.
  { intros x w'. unfold V'. destruct gone; [by intros [? ?]%lookup_delete_Some; right|]. intros [[<- <-]|[? ?]]%lookup_insert_Some; [by left|by right]. }
  assert (∀ x w, x ≠ a → V !! x = Some w → V' !! x = Some w) as Hother.
  { intros x w Hx Hw. unfold V'. destruct gone; [by rewrite lookup_delete_ne|by rewrite lookup_insert_ne]. }
  assert (∀ q b px r, in_hand T q b px r → in_hand T' q b px r) as Hhand.
  { intros q b px r (n' & todo & cur & ns & reason' & Hx & Hor). exists n', todo, cur, ns, reason'. split; [|done]. unfold T'. rewrite lookup_insert_ne; [done|].
    intros ->. rewrite Hx in Hn. done. }
  assert (∀ t x px y q, x ≠ a → answered V T t x px y q → answered V' T' t x px y q) as Hans.
  { intros t x px y q Hxa [(w & Hw & Hidw & Hrel)|(r & Hr & Hrest)]; [|right; eauto]. destruct (decide (y = a)) as [->|Hya]; [|left; eauto].
    right. assert (w = v) as -> by congruence. assert (q = pa) as -> by congruence.
    rewrite <- Hrels, lookup_fmap in Hrel. apply fmap_Some in Hrel as (r & Hr & [= -> ->]). exists r. split; [|done].
    exists n, rels, None, [], reason. unfold T'. rewrite lookup_insert_eq. split; [done|]. left. by apply Hel. }
  split; try done.
  - intros x w' Hx. destruct (Hcases x w' Hx) as [[-> _]|[_ ?]]; eauto.
  - intros t x px y py Hs. destruct (li_sides0 t x px y py Hs) as (? & ? & Hids). split_and!; try done.
    intros w' Hw'. destruct (Hcases x w' Hw') as [[-> ->]|[_ ?]]; [|eauto]. by apply (Hids v).
  - intros x w' q t y Hx Hq. destruct (Hcases x w' Hx) as [[-> ->]|[Hxa Hw]]; [simpl in Hq; by rewrite lookup_empty in Hq|].
    destruct (li_rel0 x w' q t y Hw Hq) as (px & ? & ? & ?). exists px. eauto.
  - intros x w' Hx.
    assert (permits_in_flight x T' = permits_in_flight x T + if x =? a then Z.of_nat (length rels) else 0) as ->.
    { unfold permits_in_flight, T'. destruct (T !! n) as [t|] eqn:Hnt.
      - rewrite (map_sum_replace _ _ _ _ _ Hnt), (light_permits x t) by done. simpl. rewrite (Z.eqb_sym x a). lia.
      - rewrite map_sum_insert by done. simpl. rewrite (Z.eqb_sym x a). lia. }
    destruct (Hcases x w' Hx) as [[-> ->]|[Hxa Hw]].
    + specialize (li_permits0 a v Ha). simpl. rewrite Z.eqb_refl, map_size_empty. rewrite <- Hrels, map_size_fmap, map_size_list_to_map in li_permits0 by done.
      lia.
    + destruct (x =? a) eqn:Heq; bool_to_prop; [done|]. specialize (li_permits0 x w' Hw). lia.
  - intros x w' Hx. destruct (Hcases x w' Hx) as [[-> ->]|[_ ?]]; [simpl|]; eauto.
  - intros x w' Hx. destruct (Hcases x w' Hx) as [[-> ->]|[_ ?]]; [done|eauto].
  - assert (∀ t, thread_ok V B na t → thread_ok V' B na t) as Hmono.
    { intros t. apply thread_ok_mono; [|lia|done]. intros x w' Hx _. destruct (Hcases x w' Hx) as [[-> ->]|[_ ?]]; [exists v|by exists w']. by split_and!. }
    intros n' t [[<- <-]|[_ Ht]]%lookup_insert_Some; [|eauto]. split_and!; [eauto| |].
    + intros w' Hx. destruct (Hcases a w' Hx) as [[_ ->]|[? _]]; done.
    + intros q r [Hk|Hk]; [|done]. destruct (li_rel0 a v q _ _ Ha (Hin q r Hk)) as (px & Hpx & Hs & _). by assert (px = pa) as -> by congruence.
Qed.

(** The permit of the next relation is given back. *)
Lemma inv_release V T B nt na n self a q r todo ns reason :
  linv V T B nt na → T !! n = Some (TDetach self a ((q, r) :: todo) None ns reason) →
  linv (alter v_release a V) (<[n := TDetach self a todo (Some (q, r)) ns reason]> T) B nt na.
Proof.
  intros Hinv Hn. pose proof Hinv as []. pose proof (li_threads0 n _ Hn) as (Hlt & Hend & Hs). set (V' := alter _ a V). set (T' := <[n := _]> T).
  assert (∀ x, V' !! x = (if decide (a = x) then v_release else id) <$> V !! x) as HV.
  { intros x. unfold V'. rewrite lookup_alter. case_decide; [by subst|]. by rewrite option_fmap_id. }
  assert (∀ x w', V' !! x = Some w' → ∃ w, V !! x = Some w ∧ v_id w' = v_id w ∧ v_ended w' = v_ended w ∧ v_rels w' = v_rels w ∧ v_capacity w' = v_capacity w ∧
    v_free w' = v_free w + if x =? a then 1 else 0) as Hfrom.
  { intros x w' Hx. rewrite HV in Hx. apply fmap_Some in Hx as (w & Hw & ->). exists w. split; [done|]. case_decide as Hax.
    - rewrite (proj2 (Z.eqb_eq x a)) by congruence. by split_and!.
    - rewrite (proj2 (Z.eqb_neq x a)) by congruence. split_and!; try done. simpl. lia. }
  assert (∀ q' b pa r', in_hand T q' b pa r' → in_hand T' q' b pa r') as Hhand.
  { intros q' b pa r' (n' & todo' & cur & ns' & reason' & Hx & Hin). destruct (decide (n' = n)) as [->|Hne].
    - rewrite Hn in Hx. injection Hx as <- <- <- <- <- <-. exists n, todo, (Some (q, r)), ns, reason. unfold T'. rewrite lookup_insert_eq. split; [done|].
      destruct Hin as [Hin|Hin]; [|done]. apply elem_of_cons in Hin as [[= -> ->]|?]; auto.
    - exists n', todo', cur, ns', reason'. unfold T'. by rewrite lookup_insert_ne. }
  split; try done.
  - intros x w' Hx. destruct (Hfrom x w' Hx) as (w & Hw & _). eauto.
  - intros t x px y py Hsd. destruct (li_sides0 t x px y py Hsd) as (? & ? & Hids). split_and!; try done.
    intros w' Hx. destruct (Hfrom x w' Hx) as (w & Hw & -> & _). eauto.
  - intros x w' k t y Hx Hk. destruct (Hfrom x w' Hx) as (w & Hw & -> & _ & Hrel & _). rewrite Hrel in Hk.
    destruct (li_rel0 x w k t y Hw Hk) as (px & ? & ? & [(u & Hu & Hidu & Hru)|(r' & Hr' & ?)]); exists px; (split; [done|]); (split; [done|]); [left|right; eauto].
    exists ((if decide (a = y) then v_release else id) u). rewrite HV, Hu. by case_decide.
  - intros x w' Hx. destruct (Hfrom x w' Hx) as (w & Hw & _ & _ & -> & -> & ->). specialize (li_permits0 x w Hw).
    unfold permits_in_flight, T' in *. rewrite (map_sum_replace _ _ _ _ _ Hn). simpl in *. rewrite (Z.eqb_sym x a). destruct (a =? x); lia.
  - intros x w' Hx. destruct (Hfrom x w' Hx) as (w & Hw & _ & _ & _ & _ & ->). specialize (li_free0 x w Hw). destruct (x =? a); lia.
  - intros x w' Hx He. destruct (Hfrom x w' Hx) as (w & Hw & _ & Hew & -> & _). rewrite Hew in He. eauto.
  - assert (∀ t, thread_ok V B na t → thread_ok V' B na t) as Hmono.
    { intros t. apply thread_ok_mono; [|lia|done]. intros x w' Hx _. destruct (Hfrom x w' Hx) as (w & Hw & -> & -> & _). by exists w. }
    intros n' t [[<- <-]|[_ Ht]]%lookup_insert_Some; [|eauto]. apply Hmono. split_and!; try done. intros k r' [Hin|[= <- <-]]; apply Hs; left; [by right|by left].
Qed.

(** A link state without an identity has no relations, and can go. *)
Lemma inv_drop V T B nt na a v : linv V T B nt na → V !! a = Some v → v_id v = None → linv (delete a V) T B nt na.
Proof.
  intros Hinv Ha Hid. pose proof Hinv as []. split; try done.
  - intros x w [_ Hw]%lookup_delete_Some. eauto.
  - intros t x px y py Hs. destruct (li_sides0 t x px y py Hs) as (? & ? & Hids). split_and!; try done. intros w [_ Hw]%lookup_delete_Some. eauto.
  - intros x w q t y [_ Hw]%lookup_delete_Some Hq. destruct (li_rel0 x w q t y Hw Hq) as (px & ? & ? & [(u & Hu & Hidu & ?)|?]); exists px; (split; [done|]); (split; [done|]); [left|by right].
    exists u. rewrite lookup_delete_ne; [done|]. congruence.
  - intros x w [_ Hw]%lookup_delete_Some. eauto.
  - intros x w [_ Hw]%lookup_delete_Some. eauto.
  - intros x w [_ Hw]%lookup_delete_Some. eauto.
  - intros n t Ht. apply (thread_ok_mono V _ B B na na); [|lia|done|eauto]. intros x w [_ Hw]%lookup_delete_Some _. by exists w.
Qed.

Section views.
Context {Sem : Type} `{!Semaphore Sem, !SemaphoreLaws Sem} {Chan : Type → Type} `{!Channel Chan, !ChannelLaws Chan}.
Implicit Types (W : World Sem Chan) (c : LinkCell Sem) (L : Links Sem Chan).

Definition view c : View :=
  mkView (cell_process_id c) (bool_decide (is_Some (cell_terminal c))) (untag <$> relations c)
    (available_permits (link_admission c)) (link_capacity c).
Definition views W : gmap Z View := view <$> cells W.

Definition links_ok L : Prop := ∃ B, linv (views (world L)) (threads L) B (next_token (world L)) (next_cell L).

Lemma views_lookup W a v : views W !! a = Some v ↔ ∃ c, cells W !! a = Some c ∧ v = view c.
Proof. unfold views. rewrite lookup_fmap. destruct (cells W !! a); naive_solver. Qed.

Lemma view_remove q c : view (remove_relation q c) = v_remove q (view c).
Proof. unfold view, remove_relation, release_link, v_remove. simpl. by rewrite fmap_delete, available_release. Qed.
Lemma view_release c : view (release_link c) = v_release (view c).
Proof. unfold view, release_link, v_release. simpl. by rewrite available_release. Qed.
Lemma view_end reason c : view (set_relations ∅ (set_terminal reason c)) = v_end (view c).
Proof. unfold view, v_end. simpl. by rewrite fmap_empty. Qed.
(** *** Operations *)

Lemma ok_same_views L L' :
  views (world L') = views (world L) → threads L' = threads L → next_token (world L') = next_token (world L) → next_cell L' = next_cell L →
  links_ok L → links_ok L'.
Proof. intros Hv Ht Hn Ha [B HB]. exists B. by rewrite Hv, Ht, Hn, Ha. Qed.

Lemma views_insert W a c c0 : cells W !! a = Some c0 → view c = view c0 → views (Link.set_cells (<[a := c]> (cells W)) W) = views W.
Proof.
  intros Ha Hv. unfold views. simpl. rewrite fmap_insert, Hv. apply insert_id. by rewrite lookup_fmap, Ha.
Qed.

Lemma link_spawn_ok L L' p capacity : links_ok L → link_exec (LSpawn p capacity) L = Some L' → links_ok L'.
Proof.
  intros [B Hinv] Hexec. simpl in Hexec. destruct (_ && _) eqn:Hcap; [|done]. injection Hexec as <-. bool_to_prop. exists B. unfold views. simpl. rewrite fmap_insert.
  assert (view (mkCell None None ∅ (sem_new capacity) capacity) = mkView None false ∅ capacity capacity) as ->.
  { unfold view. simpl. by rewrite fmap_empty, available_new. }
  apply inv_spawn; [exact Hinv|lia].
Qed.

Lemma handle_step_ok L a i : links_ok L → links_ok (set_world (lifecycle_handle a i (world L)).2 L).
Proof.
  intros [B Hinv]. unfold lifecycle_handle. destruct (cells (world L) !! a) as [c|] eqn:Ha; [|by exists B].
  destruct (cell_process_id c) as [j|] eqn:Hid; [by exists B|]. exists B. unfold views. simpl. rewrite fmap_insert.
  apply (inv_update _ _ _ _ _ a (view c)); try done; [by rewrite lookup_fmap, Ha|]. simpl. by rewrite Hid.
Qed.

Lemma handle_valid_view h W : handle_valid h W = true → ∃ c, cells W !! h_addr h = Some c ∧ cell_process_id c = Some (h_id h).
Proof. intros Hh%bool_decide_eq_true. destruct (cells W !! h_addr h) as [c|]; [|done]. by exists c. Qed.

Lemma view_retag q r t c :
  relations c !! q = Some r → view (set_relations (<[q := set_exit_tag t r]> (relations c)) c) = view c.
Proof.
  intros Hq. unfold view. simpl. f_equal. rewrite fmap_insert. apply insert_id. by rewrite lookup_fmap, Hq.
Qed.

Lemma view_acquire s q t b tag c :
  try_acquire_owned (link_admission c) = Some s →
  view (set_relations (<[q := mkRelation t b tag]> (relations c)) (set_link_admission s c)) = v_add q t b (view c).
Proof. intros Hs%try_acquire_Some. unfold view, v_add. simpl. rewrite fmap_insert. f_equal. lia. Qed.

(** Linking leaves the link states as they are for the invariant, or adds both sides. *)
Lemma link_pair_views l lt r rt W cl cr res :
  cells W !! h_addr l = Some cl → cells W !! h_addr r = Some cr → cell_process_id cl = Some (h_id l) → cell_process_id cr = Some (h_id r) →
  link_pair l lt r rt W = res →
  (views res.2 = views W ∧ next_token res.2 = next_token W) ∨
  (h_addr l ≠ h_addr r ∧ v_ended (view cl) = false ∧ v_ended (view cr) = false ∧ relations cl !! h_id r = None ∧ relations cr !! h_id l = None ∧
   1 <= v_free (view cl) ∧ 1 <= v_free (view cr) ∧ next_token res.2 = next_token W + 1 ∧
   views res.2 = <[h_addr r := v_add (h_id l) (next_token W) (h_addr l) (view cr)]> (<[h_addr l := v_add (h_id r) (next_token W) (h_addr r) (view cl)]> (views W))).
Proof.
  intros Hl Hr Hil Hir <-. unfold link_pair. destruct (h_addr l =? h_addr r) eqn:Ha; bool_to_prop; [left; by destruct (_ =? _)|].
  destruct (h_id l =? h_id r); [by left|]. rewrite Hl, Hr. unfold install. destruct (link_terminated cl _) eqn:Htl; [by left|].
  destruct (link_terminated cr _) eqn:Htr; [by left|]. unfold link_terminated in Htl, Htr. apply orb_false_iff in Htl as [Htl _]. apply orb_false_iff in Htr as [Htr _].
  destruct (relations cl !! h_id r) as [rl|] eqn:Hrl, (relations cr !! h_id l) as [rr|] eqn:Hrr; [|by left..|].
  - left. destruct (token rl =? token rr); [|done]. split; [|done]. unfold views. simpl. rewrite !fmap_insert, !view_retag by done.
    rewrite insert_id; [apply insert_id; by rewrite lookup_fmap, Hl|]. by rewrite lookup_insert_ne, lookup_fmap, Hr.
  - destruct (try_acquire_owned (link_admission cl)) as [sl|] eqn:Hsl; [|by left]. destruct (try_acquire_owned (link_admission cr)) as [sr|] eqn:Hsr.
    + right. pose proof (available_nonneg sl). pose proof (available_nonneg sr). pose proof (try_acquire_Some _ _ Hsl). pose proof (try_acquire_Some _ _ Hsr).
      split_and!; simpl; try done; [lia..|]. unfold views. simpl. by rewrite !fmap_insert, !view_acquire.
    + left. split; [|done]. apply (views_insert _ _ _ cl); [done|]. apply try_acquire_Some in Hsl. unfold view. simpl. f_equal. rewrite available_release. lia.
Qed.

Lemma link_step_ok L l lt r rt :
  handle_valid l (world L) = true → handle_valid r (world L) = true → links_ok L → links_ok (set_world (link_pair l lt r rt (world L)).2 L).
Proof.
  intros (cl & Hl & Hil)%handle_valid_view (cr & Hr & Hir)%handle_valid_view Hok.
  destruct (link_pair_views l lt r rt (world L) cl cr _ Hl Hr Hil Hir eq_refl) as [[Hv Hn]|(Hne & Hel & Her & Hrl & Hrr & Hfl & Hfr & Hn & Hv)].
  - by apply (ok_same_views L).
  - destruct Hok as [B Hinv]. eexists. cbn [world set_world threads next_cell]. rewrite Hv, Hn.
    assert (∀ h c, cells (world L) !! h = Some c → views (world L) !! h = Some (view c)) as Hview by (intros h c Hc; apply views_lookup; eauto).
    apply inv_add; try done; [by apply Hview|by apply Hview|simpl; by rewrite lookup_fmap, Hrl|simpl; by rewrite lookup_fmap, Hrr].
Qed.

Lemma unlink_start_ok L L' n h peer_id : links_ok L → link_exec (LUnlink n h peer_id) L = Some L' → links_ok L'.
Proof.
  intros Hok Hexec. simpl in Hexec. destruct (handle_valid h (world L)) eqn:Hh; [|done]. apply handle_valid_view in Hh as (c & Hc & Hid). unfold unlink_read in Hexec. rewrite Hc in Hexec. simpl in Hexec.
  destruct (relations c !! peer_id) as [r|] eqn:Hr; simpl in Hexec; [|by injection Hexec as <-]. unfold start_thread in Hexec.
  destruct (threads L !! n) eqn:Hn; [done|]. injection Hexec as <-. destruct Hok as [B Hinv]. exists B. apply inv_start; try done. simpl.
  destruct (li_rel _ _ _ _ _ Hinv (h_addr h) (view c) peer_id (token r) (peer_addr r)) as (pa & Hpa & Hs & _); [apply views_lookup; eauto|simpl; by rewrite lookup_fmap, Hr|].
  simpl in Hpa. by assert (pa = h_id h) as -> by congruence.
Qed.

Lemma drop_side_matches k t c : drop_side t k (view c) = view (if token_matches k t c then remove_relation k c else c).
Proof.
  unfold drop_side, token_matches. simpl. rewrite lookup_fmap. destruct (relations c !! k) as [r|]; [|done]. simpl.
  destruct (token r =? t); [by rewrite view_remove|done].
Qed.

Lemma views_alter_side W a k t :
  view <$> (if (match cells W !! a with Some c => token_matches k t c | None => false end) then alter (remove_relation k) a (cells W) else cells W)
  = alter (drop_side t k) a (views W).
Proof.
  apply map_eq. intros x. unfold views. rewrite lookup_alter, !lookup_fmap. destruct (cells W !! a) as [c|] eqn:Ha.
  - destruct (token_matches k t c) eqn:Hm; rewrite ?lookup_alter; destruct (decide (a = x)) as [<-|]; rewrite ?Ha; try done; simpl; by rewrite drop_side_matches, Hm.
  - destruct (decide (a = x)) as [<-|]; [|done]. by rewrite Ha.
Qed.

Lemma unlink_commit_views h q tok b W :
  h_addr h ≠ b → views (unlink_commit h q tok b W).2 = alter (drop_side tok (h_id h)) b (alter (drop_side tok q) (h_addr h) (views W)).
Proof.
  intros Hne. unfold unlink_commit. simpl. rewrite <- views_alter_side.
  set (m := if (match cells W !! h_addr h with Some c => token_matches q tok c | None => false end) then alter (remove_relation q) (h_addr h) (cells W) else cells W).
  assert (cells W !! b = m !! b) as -> by (unfold m; case_match; [by rewrite lookup_alter_ne|done]).
  exact (views_alter_side (Link.set_cells m W) b (h_id h) tok).
Qed.

Lemma detach_peer_views self q r W :
  views (detach_peer self q r W).2 = alter (drop_side (token r) self) (peer_addr r) (views W).
Proof.
  rewrite <- views_alter_side. unfold detach_peer, views. destruct (cells W !! peer_addr r) as [cp|] eqn:Hp; simpl; [|done].
  destruct (token_matches self (token r) cp); simpl; [|done]. f_equal. apply map_eq. intros x. rewrite lookup_alter, lookup_insert.
  destruct (decide (peer_addr r = x)) as [<-|]; [|done]. by rewrite Hp.
Qed.

Lemma detach_peer_frame self q r W : next_token (detach_peer self q r W).2 = next_token W.
Proof. unfold detach_peer. destruct (cells W !! _); [|done]. by destruct (token_matches _ _ _). Qed.

Lemma thread_step_ok L n t :
  links_ok L → threads L !! n = Some t →
  let '(t', W) := thread_step t (world L) in
  links_ok (mkLinks W (match t' with Some t => <[n := t]> (threads L) | None => delete n (threads L) end) (next_cell L)).
Proof.
  intros [B Hinv] Hn. pose proof (li_threads _ _ _ _ _ Hinv n t Hn) as Hok. destruct t as [h q tok b|h reason|self a todo cur ns reason|self ns reason].
  - simpl in Hok. destruct (li_sides _ _ _ _ _ Hinv _ _ _ _ _ Hok) as (Hne & _). exists B. cbn [thread_step world threads next_cell]. rewrite unlink_commit_views by done.
    by apply (inv_finish _ _ _ _ _ n (TUnlink h q tok b)); [apply inv_clear|..].
  - unfold thread_step, take_relations. destruct Hok as [Hlt Hid]. destruct (cells (world L) !! h_addr h) as [c|] eqn:Hc; [|exists B; by eapply inv_finish].
    destruct (bool_decide (is_Some (cell_terminal c))) eqn:Hend; [exists B; by eapply inv_finish|]. exists B. simpl. unfold views. simpl. rewrite fmap_insert, view_end.
    assert (views (world L) !! h_addr h = Some (view c)) as Hv by (apply views_lookup; eauto).
    apply (inv_take _ _ _ _ _ (h_addr h) (view c) (h_id h) n _ _ false); try done; [by apply (Hid (view c))|by left|by rewrite Hn|by rewrite list_to_map_to_list|apply NoDup_fst_map_to_list].
  - destruct cur as [[q r]|]; [|destruct todo as [|[q r] todo]].
    + assert (thread_step (TDetach self a todo (Some (q, r)) ns reason) (world L) =
        let '(due, W) := detach_peer self q r (world L) in (Some (TDetach self a todo None (ns ++ due) reason), W)) as -> by (by destruct todo as [|[? ?] ?]).
      destruct (detach_peer self q r (world L)) as [due W] eqn:Hd. destruct Hok as (Hlt & Hend & Hside). pose proof (Hside q r (or_intror eq_refl)) as Hs.
      exists B. pose proof (detach_peer_views self q r (world L)) as HV. pose proof (detach_peer_frame self q r (world L)) as Hnt. rewrite Hd in HV, Hnt. cbn [world threads next_cell snd] in *. rewrite HV, Hnt.
      assert (alter (drop_side (token r) q) a (views (world L)) = views (world L)) as Hself.
      { apply map_eq. intros x. rewrite lookup_alter. destruct (decide (a = x)) as [<-|]; [|done]. destruct (views (world L) !! a) as [v|] eqn:Hv; [|done]. simpl. f_equal.
        unfold drop_side. by rewrite (li_ended _ _ _ _ _ Hinv a v Hv (Hend v eq_refl)), lookup_empty. }
      destruct (inv_clear _ _ _ _ _ (token r) a self (peer_addr r) q Hinv Hs) as [Hinv' Hgone]. rewrite Hself in Hinv', Hgone.
      apply (inv_replace _ _ _ _ _ n (TDetach self a todo (Some (q, r)) ns reason)); try done.
      * pose proof (li_threads _ _ _ _ _ Hinv' n _ Hn) as (? & ? & Hs'). split_and!; try done. intros k r' [Hk|[=]]. apply Hs'. by left.
      * intros ? ? ? ? ? ? k r' [= <- <- <- <- <- <-] [Hin|[= <- <-]]; [left|right].
        -- eexists _, _, _, _. split; [done|]. by left.
        -- intros v Hv. by eapply Hgone.
    + exists B. simpl. apply (inv_replace _ _ _ _ _ n (TDetach self a [] None ns reason)); try done; [intros x; simpl; by destruct (_ =? _)|].
      intros ? ? ? ? ? ? k r' [= <- <- <- <- <- <-] [[]%elem_of_nil|[=]].
    + exists B. simpl. assert (views (Link.set_cells (alter release_link a (cells (world L))) (world L)) = alter v_release a (views (world L))) as ->.
      { unfold views. simpl. apply map_eq. intros x. rewrite lookup_fmap, !lookup_alter, !lookup_fmap. case_decide; [|done].
        destruct (cells (world L) !! a); [|done]. simpl. by rewrite view_release. }
      by apply inv_release.
  - destruct ns as [|[[peer peer_id] tag] ns]; simpl; exists B; [by eapply inv_finish|]. by apply (inv_replace _ _ _ _ _ n (TNotify self ((peer, peer_id, tag) :: ns) reason)).
Qed.

Lemma link_exec_ok op L L' : links_ok L → link_exec op L = Some L' → links_ok L'.
Proof.
  intros Hok Hexec. destruct op as [p capacity|a i|l lt r rt|n h peer_id|n h reason|n a|n|w].
  - by eapply link_spawn_ok.
  - injection Hexec as <-. by apply handle_step_ok.
  - simpl in Hexec. destruct (_ && _) eqn:Hv; [|done]. injection Hexec as <-. apply andb_true_iff in Hv as [? ?]. by apply link_step_ok.
  - by eapply unlink_start_ok.
  - simpl in Hexec. destruct (handle_valid h (world L)) eqn:Hv; [|done]. apply handle_valid_view in Hv as (c & Hc & Hid). unfold start_thread in Hexec. simpl in Hexec.
    destruct (threads L !! n) eqn:Hn; [done|]. injection Hexec as <-. destruct Hok as [B Hinv]. exists B. apply inv_start; try done. simpl.
    assert (views (world L) !! h_addr h = Some (view c)) as Hview by (apply views_lookup; eauto). split; [by eapply li_addr|].
    intros v Hv. unfold views in Hv. simpl in Hv. fold (views (world L)) in Hv. rewrite Hview in Hv. by injection Hv as <-.
  - simpl in Hexec. destruct (cells (world L) !! a) as [c|] eqn:Hc; [|done]. destruct Hok as [B Hinv].
    assert (views (world L) !! a = Some (view c)) as Hview by (apply views_lookup; eauto). destruct (cell_process_id c) as [i|] eqn:Hid.
    + unfold start_thread in Hexec. simpl in Hexec. destruct (threads L !! n) eqn:Hn; [done|]. injection Hexec as <-. exists B. unfold views. simpl. rewrite fmap_delete.
      apply (inv_take _ _ _ _ _ a (view c) i n _ _ true); try done; [by right|by rewrite Hn|by rewrite list_to_map_to_list|apply NoDup_fst_map_to_list].
    + injection Hexec as <-. exists B. unfold views. simpl. rewrite fmap_delete. by apply (inv_drop _ _ _ _ _ a (view c)).
  - simpl in Hexec. destruct (threads L !! n) as [t|] eqn:Hn; [|done]. simpl in Hexec. pose proof (thread_step_ok L n t Hok Hn) as Hstep.
    destruct (thread_step t (world L)) as [t' W]. by injection Hexec as <-.
  - injection Hexec as <-. by apply (ok_same_views L).
Qed.
Lemma links_start_ok : links_ok links_start.
Proof.
  exists ∅. unfold views. simpl. rewrite fmap_empty. split; try by intros *; rewrite ?lookup_empty.
  intros t a pa b pb [Hs|Hs]; by rewrite lookup_empty in Hs.
Qed.

Lemma links_steps_ok L : rtc links_step links_start L → links_ok L.
Proof. apply rtc_invariant; [intros ? ? ? [op Hop]; by eapply link_exec_ok|apply links_start_ok]. Qed.

(** ** Properties *)

(** C33. Links with every critical section, every permit that is given back and every notice a
    step of its own, in any interleaving of links, unlinks, terminations and destructors.  At
    every point the free permits of a link state, its relations and the relations that
    terminations of this process have taken from it and not yet given back add up to its capacity;
    a process that has ended has no relations; and a relation of a process is never with its own
    link state, and either the link state of the peer has the reciprocal relation of the same
    link, or a termination of the peer has that reciprocal in hand, and will come to this side.
    So when no thread is between two critical sections the relations are bilateral. *)
Theorem links_bilateral_concurrent L a c :
  rtc links_step links_start L → cells (world L) !! a = Some c →
  available_permits (link_admission c) + Z.of_nat (size (relations c)) + permits_in_flight a (threads L) = link_capacity c ∧
  Z.of_nat (size (relations c)) <= link_capacity c ∧
  (is_Some (cell_terminal c) → relations c = ∅) ∧
  ∀ q r, relations c !! q = Some r →
    peer_addr r ≠ a ∧ ∃ pa, cell_process_id c = Some pa ∧
      ((∃ cb r', cells (world L) !! peer_addr r = Some cb ∧ cell_process_id cb = Some q ∧ relations cb !! pa = Some r' ∧
          token r' = token r ∧ peer_addr r' = a) ∨
       (threads L ≠ ∅ ∧ ∃ r', in_hand (threads L) q (peer_addr r) pa r' ∧ token r' = token r ∧ peer_addr r' = a)).
Proof.
  intros [B []]%links_steps_ok Ha. assert (views (world L) !! a = Some (view c)) as Hv by (apply views_lookup; eauto).
  pose proof (li_permits0 a _ Hv) as Hper. pose proof (li_free0 a _ Hv) as Hfree. pose proof (permits_in_flight_pos a (threads L)).
  simpl in Hper, Hfree. rewrite map_size_fmap in Hper. split_and!; [done|lia| |].
  - intros Hend. apply (fmap_empty_inv untag). apply (li_ended0 a _ Hv). by apply bool_decide_eq_true_2.
  - intros q r Hq. destruct (li_rel0 a (view c) q (token r) (peer_addr r) Hv) as (pa & Hpa & Hs & Hans); [simpl; by rewrite lookup_fmap, Hq|].
    destruct (li_sides0 _ _ _ _ _ Hs) as (Hne & _). split; [done|]. exists pa. split; [done|].
    destruct Hans as [(vb & (cb & Hb & ->)%views_lookup & Hid & Hrel)|(r' & Hr' & Hrest)]; [left|right].
    + simpl in Hid, Hrel. rewrite lookup_fmap in Hrel. apply fmap_Some in Hrel as (r' & Hr' & [= -> ->]). by exists cb, r'.
    + split; [|by exists r']. destruct Hr' as (n & ? & ? & ? & ? & Hn & _). intros He. by rewrite He, lookup_empty in Hn.
Qed.
End views.

(** ** A run

    Two processes are linked; the second one ends, and the first still has the relation when the
    other side is already in the hands of the termination, whose permit is not yet back. *)
Module LinkDemo.
Definition first : Handle := mkHandle 10 0.
Definition second : Handle := mkHandle 20 1.
Definition ops : list (@LinkOp nat fifo) :=
  [LSpawn (sample_ingress 10 1) 1; LSpawn (sample_ingress 20 1) 1; LHandle 0 10; LHandle 1 20;
   LLink first (Some 5) second (Some 6); LUnlink 7 first 20; LTerminate 8 second (Failure); LStep 8].

Fixpoint link_run (ops : list (@LinkOp nat fifo)) (L : Links nat fifo) : option (Links nat fifo) :=
  match ops with
  | [] => Some L
  | op :: ops => L ← link_exec op L; link_run ops L
  end.

Lemma link_run_reach ops L L' : link_run ops L = Some L' → rtc links_step L L'.
Proof.
  revert L. induction ops as [|op ops IH]; intros L; simpl; [by intros [= ->]|].
  destruct (link_exec op L) as [L1|] eqn:Hop; [|done]. simpl. intros Hrun. eapply rtc_l; [by exists op|by apply IH].
Qed.
End LinkDemo.

Lemma links_bilateral_concurrent_witness :
  ∃ L c r r', LinkDemo.link_run LinkDemo.ops links_start = Some L ∧ cells (world L) !! 0 = Some c ∧
    relations c !! 20 = Some r ∧ permits_in_flight 1 (threads L) = 1 ∧ in_hand (threads L) 20 (peer_addr r) 10 r' ∧ token r' = token r.
Proof.
  eassert (LinkDemo.link_run LinkDemo.ops links_start = Some _) as Hrun by (vm_compute; reflexivity).
  destruct (links_bilateral_concurrent _ 0 _ (LinkDemo.link_run_reach _ _ _ Hrun) eq_refl) as (_ & _ & _ & Hrel).
  destruct (Hrel 20 _ eq_refl) as (_ & pa & Hpa & Hside). destruct Hside as [(cb & r' & Hb & _ & Hr' & _)|(_ & r' & Hin & Htok & _)].
  - vm_compute in Hb. injection Hb as <-. discriminate Hr'.
  - eexists _, _, _, r'. split; [exact Hrun|]. split; [reflexivity|]. split; [reflexivity|]. split; [reflexivity|].
    vm_compute in Hpa. injection Hpa as <-. split; [exact Hin|exact Htok].
Defined.
