(* ===== verification/SchedulerLocks.v ===== *)
(** * The scheduler and the locks of its maps

    [Scheduler] takes an access to a shared map as a step that never waits.  The maps are
    [DashMap]s: their shards have locks, and two of them are held while something else is waited
    for.  [new_message] of [distributed/client.rs] holds the shard of [buf_tx] of a new queue
    while it takes the shard of [buf_rx] of its environment, and looks up [buf_tx] when it has
    the gate of a queue; [congestion_control_worker] of [congestion/mod.rs] waits for a gate
    with the guards of [buf_rx] in hand.  Here these waits are added to the steps of
    [Scheduler].  What follows from them is a deadlock. *)

From S2P Require Import Prelude External NodeQueue Scheduler.

Section locks.
Context {Chan : Type → Type} `{!Channel Chan}.
(** The shards of [buf_rx] by environment, as in [Scheduler], and those of [buf_tx] by key. *)
Context (shard : Z → nat) (shards : nat) (tx_shard : Key → nat).

Local Abbreviation Sched := (@Sched Chan).
Local Abbreviation base_exec := (sched_exec shard shards).

(** ** State *)

(** What a producer has between two steps of [Scheduler]: the vacant entry of [buf_tx], with the
    lock of its shard for writing; or the gate, before it has looked whether the queue is
    current. *)
Inductive Hold : Type :=
| Creating (k : Key)
| Checking.

(** [guards]: the queue whose guards of [buf_rx], for reading, the worker has. *)
Record Locked : Type := mkLocked {
  base : Sched;
  holds : gmap nat Hold;
  guards : option Key;
}.

Definition lock_new : Locked := mkLocked (sched_new shards) ∅ None.

(** The shard [n] of [buf_tx] is locked for writing. *)
Definition tx_held (n : nat) (s : Locked) : bool :=
  existsb (fun e => match e.2 with Creating k => bool_decide (tx_shard k = n) | Checking => false end) (map_to_list (holds s)).

(** The shard [n] of [buf_rx] is locked for reading. *)
Definition rx_held (n : nat) (s : Locked) : bool :=
  match guards s with Some k => bool_decide (shard k.1 = n) | None => false end.

Definition with_maps (m : Maps) (b : Sched) : Sched :=
  mkSched m (has_messages b) (producers b) (worker b) (retry_after b) (removals b) (next_message_id b) (accepted b)
    (forwarded b) (unreachable b) (ended b).

(** ** Steps *)

Definition base_step (op : sched_op) (s : Locked) : option Locked :=
  b ← base_exec op (base s); Some (mkLocked b (holds s) (guards s)).

(** A step that needs the shard [n] of [buf_tx]. *)
Definition tx_step (n : nat) (op : sched_op) (s : Locked) : option Locked :=
  if tx_held n s then None else base_step op s.

(** One that removes the entry [k] of [buf_rx]. *)
Definition rx_step (k : Key) (op : sched_op) (s : Locked) : option Locked :=
  if bool_decide (guards s = Some k) then None else base_step op s.

(** The entry of [buf_tx] of an existing queue is looked up in one step.  A vacant entry is held
    until the receiver is stored; the number of the new queue is given out there.  A producer
    that has the gate looks up [buf_tx], and goes on as in [Scheduler], where both are one step. *)
Definition produce (i : nat) (admitted : option (AdmissionPermits * Z)) (s : Locked) : option Locked :=
  let op := Produce i admitted in
  let m := maps (base s) in
  p ← producers (base s) !! i;
  match p with
  | PLookup msg =>
      let k := key_of msg in
      match holds s !! i with
      | None =>
          match buf_tx m !! k with
          | Some _ => tx_step (tx_shard k) op s
          | None => if tx_held (tx_shard k) s then None else Some (mkLocked (base s) (<[i := Creating k]> (holds s)) (guards s))
          end
      | Some _ =>
          if rx_held (shard (msg_env msg)) s then None
          else base_step op (mkLocked (base s) (delete i (holds s)) (guards s))
      end
  | PGate msg g =>
      match holds s !! i with
      | None =>
          q ← pqueues m !! g;
          if pq_gate q then None
          else Some (mkLocked (with_maps (set_gate g true m) (base s)) (<[i := Checking]> (holds s)) (guards s))
      | Some _ =>
          if tx_held (tx_shard (key_of msg)) s then None
          else base_step op (mkLocked (with_maps (set_gate g false m) (base s)) (delete i (holds s)) (guards s))
      end
  | PCleanup k _ AtSender => tx_step (tx_shard k) op s
  | PCleanup k _ AtReceiver => rx_step k op s
  | _ => base_step op s
  end.

(** The worker takes the guards of a queue and then waits for its gate; it needs [buf_tx] to put
    a message in progress, or back, and to retire a queue. *)
Definition work (o : WorkerOracle) (s : Locked) : option Locked :=
  let op := Work o in
  let m := maps (base s) in
  match worker (base s) with
  | WRecv k g _ _ =>
      match guards s with
      | None =>
          if bool_decide (buf_rx m !! k = Some g) then Some (mkLocked (base s) (holds s) (Some k)) else base_step op s
      | Some _ =>
          q ← pqueues m !! g;
          if pq_gate q then None else base_step op (mkLocked (base s) (holds s) None)
      end
  | WHand k _ _ _ _ => match wo_forward o with Forwarded => base_step op s | Busy _ => tx_step (tx_shard k) op s end
  | WGot _ a _ => tx_step (tx_shard (key_of (message a))) op s
  | WIdle k _ AtSender _ _ => tx_step (tx_shard k) op s
  | _ => base_step op s
  end.

(** Only an await point can be cancelled.  The iterations that find the routes of a process that
    ends are not held up here. *)
Definition lock_exec (op : sched_op) (s : Locked) : option Locked :=
  match op with
  | Produce i admitted => produce i admitted s
  | CancelProducer i => match holds s !! i with Some _ => None | None => base_step op s end
  | Work o => work o s
  | Removal i =>
      match removals (base s) !! i with
      | Some (k :: _, AtSender) => tx_step (tx_shard k) op s
      | Some (k :: _, AtReceiver) => rx_step k op s
      | _ => base_step op s
      end
  | NewMessage _ | RemoveProcess _ _ _ => base_step op s
  end.

Definition lock_step (s s' : Locked) : Prop := ∃ op, lock_exec op s = Some s'.

(** ** The circle *)

(** The gate that a producer has. *)
Definition gate_of_producer (h : option Hold) (p : Producer) : option Z :=
  match p with
  | PGate _ g => match h with Some _ => Some g | None => None end
  | PSend _ g | PNotify g => Some g
  | _ => None
  end.

(** The producer [i] has the gate of the queue [g] and waits for a shard of [buf_tx]; the
    producer [j] has that shard and waits for a shard of [buf_rx]; the worker has that one and
    waits for the gate of [g]. *)
Record circle (i j : nat) (mi mj : MessageCtx) (g : Z) (k : Key) (rem : list (Key * Z)) (mp : bool) (s : Locked) : Prop := {
  ci_gate : producers (base s) !! i = Some (PGate mi g) ∧ holds s !! i = Some Checking;
  ci_entry : producers (base s) !! j = Some (PLookup mj) ∧ holds s !! j = Some (Creating (key_of mj));
  ci_worker : worker (base s) = WRecv k g rem mp ∧ guards s = Some k;
  ci_tx : tx_shard (key_of mi) = tx_shard (key_of mj);
  ci_rx : shard k.1 = shard (msg_env mj);
  ci_queue : ∃ q, pqueues (maps (base s)) !! g = Some q ∧ pq_gate q = true;
  ci_fresh : g < next_process_queue_generation (maps (base s));
  ci_alone i' p : i' ≠ i → producers (base s) !! i' = Some p → gate_of_producer (holds s !! i') p ≠ Some g;
}.

Lemma tx_held_true i k s : holds s !! i = Some (Creating k) → tx_held (tx_shard k) s = true.
Proof.
  intros Hi. apply existsb_exists. exists (i, Creating k). split; [by apply list_elem_of_In, elem_of_map_to_list|].
  by apply bool_decide_eq_true_2.
Qed.

(** None of the three can go on. *)
Lemma circle_stuck i j mi mj g k rem mp s :
  circle i j mi mj g k rem mp s →
  (∀ a, lock_exec (Produce i a) s = None) ∧ (∀ a, lock_exec (Produce j a) s = None) ∧ (∀ o, lock_exec (Work o) s = None).
Proof.
  intros [[Hi Hhi] [Hj Hhj] [Hw Hgd] Htx Hrx (q & Hq & Hg) _ _]. split_and!; intros x; simpl.
  - unfold produce. rewrite Hi. simpl. rewrite Hhi, Htx, (tx_held_true j) by done. done.
  - unfold produce. rewrite Hj. simpl. rewrite Hhj. unfold rx_held. rewrite Hgd, bool_decide_eq_true_2 by done. done.
  - unfold work. rewrite Hw, Hgd. rewrite Hq. simpl. by rewrite Hg.
Qed.

(** *** The rest of the node goes on without it *)

(** What the circle needs of the maps. *)
Definition keeps (g : Z) (m m' : @Maps Chan) : Prop :=
  pq_gate <$> pqueues m' !! g = pq_gate <$> pqueues m !! g ∧ next_process_queue_generation m <= next_process_queue_generation m'.

Lemma circle_keeps_refl g m : keeps g m m.
Proof. split; [done|lia]. Qed.
Lemma keeps_same g m m' :
  pqueues m' = pqueues m → next_process_queue_generation m' = next_process_queue_generation m → keeps g m m'.
Proof. intros Hq Hn. split; [by rewrite Hq|lia]. Qed.
Lemma keeps_trans g m1 m2 m3 : keeps g m1 m2 → keeps g m2 m3 → keeps g m1 m3.
Proof. intros [H1 ?] [H2 ?]. split; [by rewrite H2|lia]. Qed.
Lemma keeps_set_chan g g' c m : keeps g m (set_chan g' c m).
Proof. split; [|simpl; lia]. simpl. rewrite lookup_alter. case_decide as Hg; [|done]. rewrite <- Hg. by destruct (pqueues m !! g'). Qed.
Lemma keeps_set_gate g g' b m : g' ≠ g → keeps g m (set_gate g' b m).
Proof. intros Hne. split; [|simpl; lia]. simpl. by rewrite lookup_alter_ne. Qed.
Lemma keeps_remove_receiver g k m : keeps g m (remove_receiver k m).
Proof.
  unfold remove_receiver, drop_receiver. destruct (buf_rx m !! k); [|apply circle_keeps_refl]. simpl.
  destruct (pqueues m !! _); [|by apply keeps_same]. eapply keeps_trans; [|apply keeps_set_chan]. by apply keeps_same.
Qed.
Lemma keeps_cleanup g k g' st m : keeps g m (cleanup_step k g' st m).2.
Proof.
  destruct st; simpl; [case_bool_decide; by apply keeps_same|repeat case_match; by apply keeps_same|]. case_bool_decide; [apply keeps_remove_receiver|apply circle_keeps_refl].
Qed.
Lemma keeps_removal g k st m : keeps g m (removal_step k st m).2.
Proof. destruct st; simpl; [by apply keeps_same..|apply keeps_remove_receiver]. Qed.
Lemma keeps_lookup_queue g k m : g < next_process_queue_generation m → keeps g m (lookup_queue k m).2.
Proof.
  intros Hg. unfold lookup_queue. destruct (buf_tx m !! k); [apply circle_keeps_refl|]. eapply keeps_trans; [apply (keeps_remove_receiver g k)|].
  split; simpl.
  - rewrite lookup_insert_ne; [done|lia].
  - assert (next_process_queue_generation (remove_receiver k m) = next_process_queue_generation m) as ->; [|lia].
    unfold remove_receiver, drop_receiver. destruct (buf_rx m !! k); [|done]. simpl. by destruct (pqueues m !! _).
Qed.

Definition is_waiting (p : Producer) : bool := match p with PLookup _ | PGate _ _ => true | _ => false end.

(** A producer that has not the gate of [g] does not take it or give it back in a step. *)
Lemma producer_step_keeps g adm p m p' m' acc n :
  gate_of_producer (Some Checking) p ≠ Some g → g < next_process_queue_generation m → producer_step adm p m = Some (p', m', acc, n) →
  keeps g m m' ∧ ∀ h, h = None ∨ is_waiting p = false → gate_of_producer h p' ≠ Some g.
Proof.
  intros Hp Hg Hstep. destruct p as [msg|msg g'|msg g'|g'|k g' st|]; simpl in Hp, Hstep.
  - pose proof (keeps_lookup_queue g (key_of msg) m Hg). destruct (lookup_queue (key_of msg) m) as [g' m1]. injection Hstep as <- <- <- <-.
    split; [done|]. by intros h [->|?].
  - destruct (pqueues m !! g') as [q|]; [|done]. simpl in Hstep. destruct (pq_gate q); [done|]. assert (g' ≠ g) by congruence.
    case_bool_decide; injection Hstep as <- <- <- <-; (split; [|done]); [by apply keeps_set_gate|apply circle_keeps_refl].
  - destruct (pqueues m !! g') as [q|]; [|done]. simpl in Hstep. assert (g' ≠ g) by congruence.
    destruct adm as [[ap o]|]; [destruct (try_send _ _) as [c|[|]]|]; injection Hstep as <- <- <- <-; (split; [|done]);
      try by apply keeps_set_gate. apply keeps_set_chan.
  - injection Hstep as <- <- <- <-. split; [|done]. apply keeps_set_gate. congruence.
  - pose proof (keeps_cleanup g k g' st m). destruct (cleanup_step k g' st m) as [st' m1]. injection Hstep as <- <- <- <-. split; [done|by destruct st'].
  - done.
Qed.

Section circle.
Context (i j : nat) (mi mj : MessageCtx) (g : Z) (k : Key) (rem : list (Key * Z)) (mp : bool).
Local Abbreviation stuck := (circle i j mi mj g k rem mp).

Lemma circle_change s s' :
  stuck s → worker (base s') = worker (base s) → guards s' = guards s → keeps g (maps (base s)) (maps (base s')) →
  (∀ x, x = i ∨ x = j → producers (base s') !! x = producers (base s) !! x ∧ holds s' !! x = holds s !! x) →
  (∀ x p, x ≠ i → x ≠ j → producers (base s') !! x = Some p → gate_of_producer (holds s' !! x) p ≠ Some g) → stuck s'.
Proof.
  intros [[Hi Hhi] [Hj Hhj] [Hw Hgd] Htx Hrx (q & Hq & Hg) Hf Hal] Hw' Hg' [Hk Hn] Hsame Hoth.
  destruct (Hsame i (or_introl eq_refl)) as [Hpi Hxi], (Hsame j (or_intror eq_refl)) as [Hpj Hxj].
  split; rewrite ?Hpi, ?Hxi, ?Hpj, ?Hxj, ?Hw', ?Hg'; try done.
  - rewrite Hq in Hk. destruct (pqueues (maps (base s')) !! g) as [q'|]; [|done]. exists q'. simpl in Hk. split; [done|]. congruence.
  - lia.
  - intros x p Hx Hp. destruct (decide (x = j)) as [->|Hxj']; [|by eapply Hoth]. rewrite Hpj, Hj in Hp. by injection Hp as <-.
Qed.

(** Another producer goes on. *)
Lemma circle_other s x p h b :
  stuck s → x ≠ i → x ≠ j → producers b = <[x := p]> (producers (base s)) → worker b = worker (base s) →
  keeps g (maps (base s)) (maps b) → (∀ y, y ≠ x → h !! y = holds s !! y) → gate_of_producer (h !! x) p ≠ Some g →
  stuck (mkLocked b h (guards s)).
Proof.
  intros Hs Hi Hj Hp Hw Hk Hh Hx. apply (circle_change s); try done; simpl.
  - intros y [-> | ->]; (split; [rewrite Hp; by rewrite list_lookup_insert_ne|by apply Hh]).
  - intros y p' Hyi Hyj. rewrite Hp. destruct (decide (y = x)) as [->|Hne].
    + intros Hy. destruct (decide (x < length (producers (base s)))%nat).
      * rewrite list_lookup_insert_eq in Hy by done. by injection Hy as <-.
      * rewrite list_insert_ge in Hy by lia. apply lookup_lt_Some in Hy. lia.
    + rewrite list_lookup_insert_ne by done. rewrite Hh by done. by apply (ci_alone _ _ _ _ _ _ _ _ _ Hs).
Qed.

Lemma base_produce_other s s1 x adm p h s' :
  stuck s → x ≠ i → x ≠ j → producers (base s1) = producers (base s) → worker (base s1) = worker (base s) → guards s1 = guards s →
  keeps g (maps (base s)) (maps (base s1)) → holds s1 = h → (∀ y, y ≠ x → h !! y = holds s !! y) → h !! x = None ∨ is_waiting p = false →
  producers (base s) !! x = Some p → gate_of_producer (Some Checking) p ≠ Some g →
  base_step (Produce x adm) s1 = Some s' → stuck s'.
Proof.
  intros Hs Hi Hj Hp1 Hw1 Hg1 Hk1 Hh1 Hh Hx Hp Hgate Hstep. unfold base_step in Hstep. simpl in Hstep. rewrite Hp1, Hp in Hstep. simpl in Hstep.
  destruct (producer_step adm p (maps (base s1))) as [[[[p' m'] acc] n]|] eqn:Hps; [|done]. injection Hstep as <-.
  apply producer_step_keeps with (g := g) in Hps as [Hk Hg']; [|done|destruct Hk1; pose proof (ci_fresh _ _ _ _ _ _ _ _ _ Hs); lia].
  rewrite Hg1, Hh1. apply (circle_other s x p'); try done; simpl; [by eapply keeps_trans|by apply Hg'].
Qed.

Lemma produce_circle s x adm s' : stuck s → produce x adm s = Some s' → stuck s'.
Proof.
  intros Hs Hstep. destruct (circle_stuck i j mi mj g k rem mp s Hs) as (Hsi & Hsj & _).
  assert (x ≠ i) as Hi by (intros ->; simpl in Hsi; by rewrite Hsi in Hstep). assert (x ≠ j) as Hj by (intros ->; simpl in Hsj; by rewrite Hsj in Hstep).
  unfold produce in Hstep. destruct (producers (base s) !! x) as [p|] eqn:Hp; [|done]. simpl in Hstep. pose proof (ci_alone _ _ _ _ _ _ _ _ _ Hs x p Hi Hp) as Hal.
  assert (∀ s1 h, producers (base s1) = producers (base s) → worker (base s1) = worker (base s) → guards s1 = guards s →
    keeps g (maps (base s)) (maps (base s1)) → holds s1 = h → (∀ y, y ≠ x → h !! y = holds s !! y) → h !! x = None ∨ is_waiting p = false →
    gate_of_producer (Some Checking) p ≠ Some g → base_step (Produce x adm) s1 = Some s' → stuck s') as Hbase.
  { intros s1 h ? ? ? ? ? ? ? ?. by apply (base_produce_other s s1 x adm p h s'). }
  assert (is_waiting p = false → base_step (Produce x adm) s = Some s' → stuck s') as Hplain.
  { intros Hnw. apply (Hbase s (holds s)); try done; [by right|]. by destruct p. }
  destruct p as [msg|msg g'|msg g'|g'|k' g' [| |]|]; try (by apply Hplain).
  - destruct (holds s !! x) as [hd|] eqn:Hx.
    + destruct (rx_held _ _); [done|]. revert Hstep. eapply Hbase; try done; [intros y Hy; by apply lookup_delete_ne|left; apply lookup_delete_eq].
    + destruct (buf_tx _ !! _); [unfold tx_step in Hstep|]; destruct (tx_held _ _); try done.
      * revert Hstep. eapply (Hbase s); try done; [by left].
      * injection Hstep as <-. apply (circle_other s x (PLookup msg)); try done; [by rewrite list_insert_id|].
        intros y Hy. by apply lookup_insert_ne.
  - destruct (holds s !! x) as [hd|] eqn:Hx.
    + destruct (tx_held _ _); [done|]. simpl in Hal. assert (g' ≠ g) by congruence. revert Hstep. eapply Hbase; try done; simpl;
        [by apply keeps_set_gate|intros y Hy; by apply lookup_delete_ne|left; apply lookup_delete_eq].
    + destruct (pqueues _ !! g') as [q|] eqn:Hq; [|done]. simpl in Hstep. destruct (pq_gate q) eqn:Hgq; [done|]. injection Hstep as <-.
      assert (g' ≠ g) by (intros ->; destruct (ci_queue _ _ _ _ _ _ _ _ _ Hs) as (q' & ? & ?); congruence).
      apply (circle_other s x (PGate msg g')); try done; simpl; [by rewrite list_insert_id|by apply keeps_set_gate| |by rewrite lookup_insert_eq; congruence].
      intros y Hy. by apply lookup_insert_ne.
  - unfold tx_step in Hstep. destruct (tx_held _ _); [done|]. by apply Hplain.
  - unfold rx_step in Hstep. case_bool_decide; [done|]. by apply Hplain.
Qed.

(** A step that changes no producer. *)
Lemma circle_same s b :
  stuck s → producers b = producers (base s) → worker b = worker (base s) → keeps g (maps (base s)) (maps b) →
  stuck (mkLocked b (holds s) (guards s)).
Proof.
  intros Hs Hp Hw Hk. apply (circle_change s); try done; simpl; rewrite Hp; [done|]. intros x p Hx _ Hxp. by apply (ci_alone _ _ _ _ _ _ _ _ _ Hs).
Qed.

Lemma removal_circle s x s' : stuck s → base_step (Removal x) s = Some s' → stuck s'.
Proof.
  intros Hs Hstep. unfold base_step in Hstep. simpl in Hstep. destruct (removals (base s) !! x) as [[[|k' ks] st]|]; try done. simpl in Hstep.
  pose proof (keeps_removal g k' st (maps (base s))). destruct (removal_step k' st (maps (base s))) as [st' m']. injection Hstep as <-. by apply circle_same.
Qed.

(** The circle forwards nothing. *)
Definition is_work (op : sched_op) : bool := match op with Work _ => true | _ => false end.

Lemma base_forwards op s s' : base_step op s = Some s' → is_work op = false → forwarded (base s') = forwarded (base s).
Proof.
  intros Hstep Hop. unfold base_step in Hstep. destruct (base_exec op (base s)) as [b|] eqn:Hb; [|done]. injection Hstep as <-. simpl.
  destruct op as [m|x adm|x|o|env pid routes|x]; simpl in Hb; [| | |done| |].
  - destruct (negb _); [done|]. by injection Hb as <-.
  - destruct (producers (base s) !! x) as [p|]; [|done]. simpl in Hb. destruct (producer_step _ _ _) as [[[[? ?] ?] ?]|]; [|done]. by injection Hb as <-.
  - destruct (producers (base s) !! x) as [[]|]; try done. by injection Hb as <-.
  - destruct (forallb _ _); [|done]. by injection Hb as <-.
  - destruct (removals (base s) !! x) as [[[|k' ks] st]|]; try done. simpl in Hb. destruct (removal_step _ _ _). by injection Hb as <-.
Qed.

Lemma circle_forwards s s' : stuck s → lock_step s s' → forwarded (base s') = forwarded (base s).
Proof.
  intros Hs [op Hop]. destruct (circle_stuck i j mi mj g k rem mp s Hs) as (_ & _ & Hwk). destruct op as [m|x adm|x|o|env pid routes|x]; simpl in Hop.
  - by eapply base_forwards.
  - unfold produce, tx_step, rx_step in Hop. destruct (producers (base s) !! x) as [p|]; [|done]. simpl in Hop.
    repeat case_match; simplify_eq/=; try done; try by apply base_forwards in Hop.
    destruct (pqueues _ !! _) as [q|]; [|done]. simpl in Hop. destruct (pq_gate q); [done|]. by injection Hop as <-.
  - destruct (holds s !! x); [done|]. by eapply base_forwards.
  - simpl in Hwk. by rewrite Hwk in Hop.
  - by eapply base_forwards.
  - unfold tx_step, rx_step in Hop. repeat case_match; try done; by apply base_forwards in Hop.
Qed.

(** Whatever the node does, the circle stays. *)
Lemma circle_step s s' : stuck s → lock_step s s' → stuck s'.
Proof.
  intros Hs [op Hop]. destruct (circle_stuck i j mi mj g k rem mp s Hs) as (_ & _ & Hwk). destruct op as [m|x adm|x|o|env pid routes|x]; simpl in Hop.
  - unfold base_step in Hop. simpl in Hop. destruct (negb _); [done|]. injection Hop as <-. apply (circle_change s); try done; simpl.
    + destruct Hs as [[Hi _] [Hj _] _ _ _ _ _ _]. intros x [-> | ->]; (split; [|done]); rewrite lookup_app_l; try done; by eapply lookup_lt_Some.
    + intros x p Hx _ [Hp|[_ Hp]]%lookup_app_Some; [by apply (ci_alone _ _ _ _ _ _ _ _ _ Hs)|].
      apply list_lookup_singleton_Some in Hp as [_ <-]. by destruct (holds s !! x).
  - by eapply produce_circle.
  - destruct (holds s !! x) as [|] eqn:Hx; [done|]. unfold base_step in Hop. simpl in Hop. destruct (producers (base s) !! x) as [p|] eqn:Hp; [|done]. simpl in Hop.
    destruct p; try done. injection Hop as <-. destruct Hs as [[Hi Hhi] [Hj Hhj] Hrest]. assert (x ≠ i ∧ x ≠ j) as [? ?] by (split; congruence).
    apply (circle_other s x (PReturned false)); try done.
  - simpl in Hwk. by rewrite Hwk in Hop.
  - unfold base_step in Hop. simpl in Hop. destruct (forallb _ _); [|done]. injection Hop as <-. apply circle_same; try done.
  - destruct (removals (base s) !! x) as [[[|k' ks] [| |]]|]; unfold tx_step, rx_step in Hop; try by eapply removal_circle.
    + destruct (tx_held _ _); [done|]. by eapply removal_circle.
    + case_bool_decide; [done|]. by eapply removal_circle.
Qed.
End circle.

(** *** The way into the circle *)

Section way.
Context (m1 m2 : MessageCtx) (Hid1 : msg_id m1 = 0) (Hid2 : msg_id m2 = 1).
Context (Hkey : key_of m1 ≠ key_of m2) (Htx : tx_shard (key_of m1) = tx_shard (key_of m2)).
Context (Hrx : shard (msg_env m1) = shard (msg_env m2)) (Hshard : (shard (msg_env m1) < shards)%nat).

Local Abbreviation k1 := (key_of m1).

(** The maps with the queue of the first message. *)
Definition one_queue (gate : bool) : @Maps Chan :=
  mkMaps {[k1 := 0]} {[k1 := 0]} {[0 := mkProcessQueue k1 (channel OUTBOUND_PROCESS_QUEUE_CAPACITY) gate]} ∅ 1.

(** The first message waits for the gate of its queue, the second is to be given to its own. *)
Definition two_messages (gate : bool) (w : Worker) : Sched :=
  mkSched (one_queue gate) false [PGate m1 0; PLookup m2] w ∅ [] 2 [] [] [] ∅.

Lemma way_start : rtc lock_step lock_new (mkLocked (two_messages false (WCollect (seq 0 shards) [])) ∅ None).
Proof.
  eapply rtc_l; [exists (NewMessage m1); unfold lock_exec, base_step; simpl; by rewrite Hid1|].
  eapply rtc_l; [exists (NewMessage m2); unfold lock_exec, base_step; simpl; by rewrite Hid2|].
  eapply rtc_l; [exists (Produce 0 None); unfold lock_exec, produce; simpl; rewrite !lookup_empty; unfold tx_held; simpl; by rewrite map_to_list_empty|].
  eapply rtc_l; [|apply rtc_refl]. exists (Produce 0 None). unfold lock_exec, produce. simpl. rewrite lookup_insert_eq. unfold rx_held, base_step. simpl.
  rewrite delete_insert_eq, delete_empty. unfold lookup_queue. simpl. rewrite lookup_empty. simpl. unfold remove_receiver. simpl. rewrite lookup_empty. simpl.
  by rewrite !insert_empty.
Qed.

(** The worker finds the queue when it comes to its shard. *)
Lemma way_collect todo found :
  rtc lock_step (mkLocked (two_messages false (WCollect todo found)) ∅ None)
    (mkLocked (two_messages false (WCollect [] (found ++ concat ((fun n => filter (fun e : Key * Z => shard e.1.1 = n) [(k1, 0)]) <$> todo)))) ∅ None).
Proof.
  revert found. induction todo as [|n todo IH]; intros found; simpl; [rewrite app_nil_r; apply rtc_refl|].
  eapply rtc_l; [exists (Work (mkWorkerOracle false false EnsureOk Forwarded)); reflexivity|]. simpl. rewrite map_to_list_singleton.
  rewrite app_assoc. apply IH.
Qed.

Lemma found_once n : concat ((fun x => filter (fun e : Key * Z => shard e.1.1 = x) [(k1, 0)]) <$> seq n (shards - n)) =
  if decide (n <= shard (msg_env m1))%nat then [(k1, 0)] else [].
Proof.
  remember (shards - n)%nat as l eqn:Hl. revert n Hl. induction l as [|l IH]; intros n Hl; simpl.
  - rewrite decide_False by lia. done.
  - rewrite IH by lia. rewrite filter_cons, filter_nil. simpl. repeat case_decide; try done; lia.
Qed.

Lemma way_worker : rtc lock_step (mkLocked (two_messages false (WCollect (seq 0 shards) [])) ∅ None)
  (mkLocked (two_messages false (WRecv k1 0 [] false)) ∅ (Some k1)).
Proof.
  etrans; [apply way_collect|]. pose proof (found_once 0) as Hf. rewrite Nat.sub_0_r in Hf. rewrite Hf, decide_True by lia. simpl.
  eapply rtc_l; [exists (Work (mkWorkerOracle false false EnsureOk Forwarded)); reflexivity|]. simpl. rewrite filter_empty_L by apply _.
  eapply rtc_l; [exists (Work (mkWorkerOracle false false EnsureOk Forwarded)); unfold lock_exec, work, base_step; simpl;
    rewrite andb_false_r; simpl; rewrite lookup_empty; reflexivity|]. simpl. assert ((∅ : gset (Key * Z)) ∖ {[(k1, 0)]} = ∅) as -> by set_solver.
  eapply rtc_l; [|apply rtc_refl]. exists (Work (mkWorkerOracle false false EnsureOk Forwarded)). unfold lock_exec, work. simpl.
  by rewrite bool_decide_eq_true_2 by (apply lookup_singleton_eq).
Qed.

Definition circle_state : Locked :=
  mkLocked (two_messages true (WRecv k1 0 [] false)) {[0%nat := Checking; 1%nat := Creating (key_of m2)]} (Some k1).

Lemma way_circle : rtc lock_step lock_new circle_state.
Proof.
  etrans; [apply way_start|]. etrans; [apply way_worker|].
  eapply rtc_l; [exists (Produce 0 None); unfold lock_exec, produce; simpl; rewrite lookup_empty; simpl; rewrite lookup_singleton_eq; reflexivity|].
  eapply rtc_l; [|apply rtc_refl]. exists (Produce 1 None). unfold lock_exec, produce. simpl. rewrite lookup_insert_ne, lookup_empty by done.
  rewrite lookup_singleton_ne by done. unfold tx_held. simpl. rewrite insert_empty, map_to_list_singleton. simpl.
  unfold circle_state, two_messages, one_queue, with_maps, set_gate, set_pqueues. simpl. by rewrite alter_singleton_eq.
Qed.

Lemma circle_state_stuck : circle 0 1 m1 m2 0 k1 [] false circle_state.
Proof.
  split; try done.
  - exists (mkProcessQueue k1 (channel OUTBOUND_PROCESS_QUEUE_CAPACITY) true). split; [apply lookup_singleton_eq|done].
  - intros [|[|x]] p Hx; simpl; [done|by intros [= <-]|done].
Qed.
End way.

(** ** Properties *)

(** C26. The outbound scheduler can come to a stop for good.  Take two messages for different
    queues that are both new, whose queues share a shard of [buf_tx] and whose environments share
    a shard of [buf_rx], as two messages of one environment always do.  There is an execution
    after which, whatever happens, the first call of [new_message] has the gate of its queue and
    waits for the shard of [buf_tx], the second has that shard and waits for the one of [buf_rx],
    and the worker has the guards of that one and waits for the gate: none of the three goes on,
    and no message of any process is forwarded to a node again. *)
Theorem scheduler_deadlock m1 m2 :
  msg_id m1 = 0 → msg_id m2 = 1 → key_of m1 ≠ key_of m2 → tx_shard (key_of m1) = tx_shard (key_of m2) →
  shard (msg_env m1) = shard (msg_env m2) → (shard (msg_env m1) < shards)%nat →
  ∃ s, rtc lock_step lock_new s ∧
    ∀ s', rtc lock_step s s' →
      producers (base s') !! 0%nat = Some (PGate m1 0) ∧ producers (base s') !! 1%nat = Some (PLookup m2) ∧
      worker (base s') = WRecv (key_of m1) 0 [] false ∧ forwarded (base s') = [] ∧
      (∀ a, lock_exec (Produce 0 a) s' = None) ∧ (∀ a, lock_exec (Produce 1 a) s' = None) ∧ (∀ o, lock_exec (Work o) s' = None).
Proof.
  intros Hid1 Hid2 Hkey Htx Hrx Hsh. exists (circle_state m1 m2). split; [by apply way_circle|]. intros s' Hs'.
  assert (circle 0 1 m1 m2 0 (key_of m1) [] false s' ∧ forwarded (base s') = []) as [Hc Hf].
  { revert Hs'. apply (rtc_invariant lock_step (fun s => circle 0 1 m1 m2 0 (key_of m1) [] false s ∧ forwarded (base s) = []));
      [|split; [by apply circle_state_stuck|done]].
    intros x y [Hx Hfx] Hxy. split; [by eapply circle_step|]. by rewrite (circle_forwards _ _ _ _ _ _ _ _ x y Hx Hxy). }
  destruct (circle_stuck _ _ _ _ _ _ _ _ _ Hc) as (? & ? & ?). destruct Hc as [[? _] [? _] [? _] _ _ _ _ _]. by split_and!.
Qed.
End locks.

(** Two processes of one environment, with a single shard. *)
Definition locks_message (id src : Z) : MessageCtx := mkMessageCtx id 1 src 2 3 0 [] 1 Data None.

Lemma scheduler_deadlock_witness :
  ∃ s : @Locked fifo, rtc (lock_step (fun _ => 0%nat) 1 (fun _ => 0%nat)) (lock_new 1) s ∧
    ∀ s', rtc (lock_step (fun _ => 0%nat) 1 (fun _ => 0%nat)) s s' → forwarded (base s') = [].
Proof.
  destruct (scheduler_deadlock (Chan := fifo) (fun _ => 0%nat) 1 (fun _ => 0%nat) (locks_message 0 10) (locks_message 1 11)) as (s & Hs & Hall);
    [reflexivity|reflexivity|discriminate|reflexivity|reflexivity|lia|].
  exists s. split; [exact Hs|]. intros s' Hs'. apply (Hall s' Hs').
Defined.
